(* ===== verification/_CoqProject ===== *)
-Q . S2P
Prelude.v
Slices.v
Btoi.v
Hash.v
PackEntry.v
Delta.v
FanLookup.v
PackIndex.v
PacketLine.v
Chunk.v
MultiIndex.v
MultiIndexWrite.v
MultiIndexVerify.v
Validate.v
PackedRefs.v
RefNames.v
PathComponent.v
Ewah.v
InOrder.v
GitIndex.v
GitIndexAccess.v
GitIndexExtensions.v
GitIndexUntracked.v
GitIndexFile.v
GitIndexThreads.v
TreeObject.v
Glob.v
GlobPattern.v
CommitGraph.v
RevWalk.v
MergeBase.v
VerifiedHistory.v
Actor.v
RawTime.v
RefLog.v
CommitObject.v
ObjectHistory.v
ObjectSignature.v
TagObject.v
PackedTransaction.v
