(* ===== verification/Prelude.v ===== *)
(** * gitoxide, verified

    gitoxide implements Git in Rust as a family of crates. This library models the
    crates that read and write what Git stores and sends, in files from the bottom of
    the dependency order to the top, and proves what their callers rely on: malformed
    input is an error and never a panic, what is written is read back, optimised code
    computes what its plain description says.

    ** How code is translated

    - A function that returns [Result] and may panic is a function into [outcome]:
      [Ok], [Err] with the source's error as a value, or [Panic] for an index out of
      range, a failed [expect] or [assert!], or an unsigned subtraction below zero. The
      operator [?] is the monad's bind. [get], [get_range], [get_from] and [split_at]
      are the slice operations. A theorem that states an [Ok] or an [Err] thus also
      states that nothing panics.
    - A byte is a [Z] in [0 .. 255] and a byte slice or string a list of them
      ([bytes_ok] is the range, a hypothesis where it matters). Integers are [Z], with
      the wrap-around, the [checked_*] operation or the conversion of the source
      written out where a value can leave its width.
    - A loop is a [Fixpoint] on the data it consumes, or carries fuel. Running out of
      fuel is [Panic] (or [None] in [PackEntry]), so the theorems show as well that the
      fuel is enough: one more than the bytes to consume in [Delta], the reader loops,
      [TreeObject], [CommitObject], [PackedRefs], [Ewah] and for the blocks of [RefLog]; the size of the interval in [FanLookup]; the length of
      the text, and the square of the pattern's for brackets, in [Glob], whose recursion
      is on the code's own depth limit of 64; the length of the file, plus the states of
      the iterator, for the parents of a commit in [CommitGraph]; three times the
      number of commits, plus 2, in [MergeBase], where every commit is queued at most once
      for each of its three flags; more than the tags that lead to an object in [PackedTransaction],
      where the database decides how many there are.
    - A thread is the function it computes, as threads share data only to read it; a thread
      that panics makes its scope panic ([GitIndexThreads]).
    - A reader is the list of bytes it has still to deliver, a writer the list of bytes
      it has received, a callback a function on a state of its own.
    - Code of other packages is a parameter with its documented behaviour as laws: the
      hexadecimal codec ([FasterHex] in [Hash], with an instance that meets the laws),
      the hash that ends a file ([PackIndex], [CommitGraph], [MultiIndexWrite]), the object database
      ([TreeObject], [RevWalk]), the UTF-8 iterator ([PathComponent]), trimming of white space ([BstrTrim] in [RefLog]), the heap of the
      standard library ([BinaryHeap] in [RevWalk], with an instance), whose order among
      equal keys is not specified. The tokens of commit objects are a parameter of
      [RevWalk] that [ObjectHistory] instantiates.

    ** Files

    - [Prelude]: outcomes, slices, bytes, big-endian numbers, tactics and hints.
    - [Slices]: sorting, deduplication and binary search of the standard library, with
      closures that may panic or keep state, and the laws of comparison functions ([OrdLaws]).
    - [Btoi] ([gix-utils/src/btoi.rs]): integers from text, by a class for the integer
      types: exactly the denoted number or the specific error.
    - [Hash] ([gix-hash]): kinds, ids, prefixes, hexadecimal text: comparison with a
      prefix is comparison of digits, and text round trips.
    - [PackEntry] ([gix-pack/src/data/header.rs], [data/entry/]): pack and entry headers.
      Round trip of entries; offsets are consistent and a delta base lies before its
      entry; the streaming and the slice decoder agree, the size field is the number
      modulo 2^64, and pack headers round trip.
    - [Delta] ([gix-pack/src/data/delta.rs]): C9: applying a delta is the relational
      meaning of its instructions.
    - [FanLookup] ([gix-pack/src/index/access.rs], [encode.rs]): lookups against two
      interfaces, [IdTableOk] for sorted tables and [IdTableSafe] for tables that are not
      trusted. C11: by prefix, exactly; also: by id, and the fan that is written.
    - [PackIndex] ([gix-pack/src/index/]): index files, an instance of that interface.
      C13: any bytes are refused or safe to access; C14: written indices are read back.
    - [PacketLine] ([gix-packetline]): C16: the reader's state invariant, over every order of
      calls; C18: sidebands; also: encoding and decoding of lines, what a reader yields, and
      the writer.
    - [Chunk] ([gix-chunk]): C20: decoding a table of contents is safe; also: files of
      chunks round trip.
    - [MultiIndex], [MultiIndexWrite] and [MultiIndexVerify] ([gix-pack/src/multi_index/]):
      multi-pack indices, over [Chunk], [FanLookup] and [PackIndex], with the file system, the
      hasher and interruption as parameters. C2: any bytes are refused or safe to access; C28:
      merging the indices of a directory and opening the result, down to the index that
      provides an object; C5: what a successful verification establishes, and that its
      assertions hold; C29: what was written passes verification.
    - [Validate] and [PathComponent] ([gix-validate]): C22, C24: the byte loops accept
      exactly the declaratively described names, and no accepted path component is [.git] in
      disguise; also: sanitizing gives valid names.
    - [Ewah] ([gix-bitmap]): C26: decoding accepts exactly well-formed bitmaps; also:
      iteration visits the set bits in order, and encoding a bit sequence.
    - [GitIndex] ([gix-index/src/decode], [entry], [write.rs]): the entries of the index file:
      reading any bytes is safe, and what is written is read back, in all versions.
    - [GitIndexAccess] ([gix-index/src/access], [verify.rs]): operations on the index. C6: any
      sequence of additions and removals keeps the invariant of the index and refines a finite
      map; C23: the entries with a prefix; also: lookup of directories, verification, and
      sorting after entries were pushed.
    - [GitIndexExtensions], [GitIndexUntracked] ([gix-index/src/extension]): the formats of the
      extensions: cached tree, resolve-undo, file-system monitor, link, end of index, untracked cache.
    - [GitIndexFile] ([gix-index/src/decode/mod.rs], [write.rs], [file/write.rs]): the whole file. C1:
      any bytes are refused or give a state with which all of the above can work; C21: a file that is
      written is read back with its extensions.
    - [InOrder] ([gix-parallel/src/in_order.rs]) and [GitIndexThreads]: reading the index with
      threads. C4: the number of threads does not change what is read from a file whose offset table
      and end-of-index extension describe it.
    - [PackedRefs] ([gix-ref/src/parse.rs], [store/packed/]): packed references. C15: opening a
      file, iterating and the binary search over its bytes agree; C25: any bytes are refused or
      safe to search; also: the references with a prefix.
    - [RefNames] ([gix-ref/src/name.rs], [fullname.rs], [namespace.rs], [packed/find.rs]): categories of
      names and back, namespaces, and the lookup of partial names in packed references.
    - [TreeObject] ([gix-object/src/tree]): C30: both parsers return and agree; C31: round
      trip; also: path lookup, the order of entries, bisection.
    - [Glob] and [GlobPattern] ([gix-glob]): C35: [wildmatch] returns on every input, and
      decides the declarative meaning of patterns without brackets; C36: on relative paths the shortcuts
      of pattern matching change nothing; also: printing a pattern gives back its text.
    - [CommitGraph] ([gix-commitgraph]): files and chains of files, over [Chunk] and the
      lookups of [FanLookup]. C39: any bytes are refused or safe to access, and parents are
      positions of the graph; C40: what a successful verification establishes, down to the
      longest path, and that without one cycles are not excluded.
    - [RevWalk] ([gix-revwalk]) and [MergeBase] ([gix-revision/src/merge_base]): commits
      loaded on demand, the painting walk with its queue and counters, and the removal of
      redundant candidates. C12: whatever the dates, the walk ends with common ancestors,
      among them all the best; also: with generations, exactly the best, and [octopus].
    - [VerifiedHistory]: the three together. C37: over a commit graph that was verified with a longest
      path, from the bytes of its files, merge bases are exact.
    - [Actor] ([gix-actor/src/signature]): signatures. Round trip.
    - [RawTime] ([gix-date], [gix-actor]): times in headers, and owned signatures. C27: what is
      written, that it fits the buffer, and that it is parsed back; also: what the strict parser
      accepts is read alike by both.
    - [RefLog] ([gix-ref/src/log.rs], [store/file/log/], [loose/reflog.rs]): logs of references. C3: a
      log that was written is read from both ends and expired; C33: the iterator from the end, which
      reads blocks, agrees with the one from the beginning; also: both are safe on any bytes, and what is
      appended is read back.
    - [CommitObject] ([gix-object/src/parse.rs], [encode.rs], [commit/]): C7: parsing
      accepts exactly the texts of commits; C8: writing gives back what was parsed; C38: the
      iterator, a state machine, agrees with parsing at once.
    - [ObjectSignature] ([gix-object/src/signature]): C17: the signature of a commit and what
      was signed.
    - [TagObject] ([gix-object/src/tag], [kind.rs]): C19: parsing accepts exactly the texts
      of tags; C32: writing, and where it does not give back what was parsed; also: the iterator
      and the search for a signature agree with parsing.
    - [PackedTransaction] ([gix-ref/src/transaction], [store/packed/transaction.rs]): edits of packed references. C10:
      prepared and committed, they are edits of the finite map that the file stands for.
    - [ObjectHistory]: commit objects as the history that is walked. C34: merge bases from
      the bytes of commit objects.
    Properties are stated in full where the theorem stands; lemmas whose names end in
    [_ok], [_spec] or [_exact] are the steps. The parts meet through interfaces: [PackIndex]
    gives an instance of the table that [FanLookup] searches, the packet line and the
    identifier code share [FasterHex], [GlobPattern] rests on the theorems of [Glob], and a
    verified commit graph of [CommitGraph] is a [repository] in the sense of [MergeBase].

    ** What is not modelled

    - Memory maps, files, sockets and processes ([gix-odb], [gix-transport],
      [gix-worktree], [gix-fs] and the like): their logic is the calls they make.
    - Compression and hashing: other packages.
    - The asynchronous twins of the packet line code, and [Display] of errors.
    - The high-level API, the command line and the terminal programs ([gix],
      [gitoxide-core], [gix-tix], [gix-tui]), which are glue over the crates.
    - Still open, in this order: messages of commits, configuration values, loose
      references, the tree editor, other walks over history, refspecs. *)

From Stdlib Require Export ZArith Lia.
From stdpp Require Export base numbers list list_numbers option.

Open Scope Z_scope.

(** ** Outcomes of fallible code

    A Rust function that returns [Result<A, E>] and may panic is modelled as a
    function into [outcome E A]. *)
Inductive outcome (E A : Type) : Type :=
| Ok (a : A)
| Err (e : E)
| Panic.
Arguments Ok {E A} a.
Arguments Err {E A} e.
Arguments Panic {E A}.

#[export] Instance outcome_ret {E} : MRet (outcome E) := λ A a, Ok a.
#[export] Instance outcome_bind {E} : MBind (outcome E) :=
  λ A B f m, match m with Ok a => f a | Err e => Err e | Panic => Panic end.
#[export] Instance outcome_fmap {E} : FMap (outcome E) :=
  λ A B f m, match m with Ok a => Ok (f a) | Err e => Err e | Panic => Panic end.

(** [Option::ok_or], the failing half of the [?] operator. *)
Definition ok_or {E A} (e : E) (o : option A) : outcome E A :=
  match o with Some a => Ok a | None => Err e end.

(** [Option::expect], slice indexing and [assert!]: a missing value is a panic. *)
Definition expect {E A} (o : option A) : outcome E A :=
  match o with Some a => Ok a | None => Panic end.
Definition assert_that {E} (b : bool) : outcome E unit :=
  if b then Ok tt else Panic.
Definition ensure {E} (b : bool) (e : E) : outcome E unit :=
  if b then Ok tt else Err e.

(** [Result::map_err]. *)
Definition map_err {E F A} (f : E → F) (m : outcome E A) : outcome F A :=
  match m with Ok a => Ok a | Err e => Err (f e) | Panic => Panic end.

(** ** Machine integers

    A [w]-bit unsigned integer is a [Z] in [0, 2^w). [usize] is 64 bits wide.
    The arithmetic operators of the source panic on overflow (the debug
    profile); [checked_*] and [wrapping_*] are the operations of that name. *)
Definition in_u (w x : Z) : bool := (0 <=? x) && (x <? 2 ^ w).
Definition u8_max : Z := 2 ^ 8.
Definition u64_max : Z := 2 ^ 64.

Definition wrap (w x : Z) : Z := x mod 2 ^ w.
Definition checked (w x : Z) : option Z := if in_u w x then Some x else None.
Definition checked_add (w a b : Z) : option Z := checked w (a + b).
Definition checked_sub (w a b : Z) : option Z := checked w (a - b).
Definition checked_mul (w a b : Z) : option Z := checked w (a * b).
(** [checked_shl] only checks that the shift amount is below the width: bits
    shifted out at the top are lost without an error. *)
Definition checked_shl (w a s : Z) : option Z :=
  if s <? w then Some (wrap w (Z.shiftl a s)) else None.

(** The [+], [-] and [*] operators of the source. *)
Definition op_add {E} (w a b : Z) : outcome E Z := expect (checked_add w a b).
Definition op_sub {E} (w a b : Z) : outcome E Z := expect (checked_sub w a b).
Definition op_mul {E} (w a b : Z) : outcome E Z := expect (checked_mul w a b).

(** ** Bytes and slices *)
Abbreviation byte := Z (only parsing).
Abbreviation bytes := (list Z) (only parsing).

Definition is_byte (b : Z) : Prop := 0 ≤ b < 256.
Definition bytes_ok (l : bytes) : Prop := Forall is_byte l.
#[export] Instance is_byte_dec b : Decision (is_byte b).
Proof. unfold is_byte. apply _. Defined.
#[export] Instance bytes_ok_dec l : Decision (bytes_ok l).
Proof. unfold bytes_ok. apply _. Defined.

(** [len(l)] as the [usize] the source compares with. *)
Definition zlen {A} (l : list A) : Z := Z.of_nat (length l).

(** [l.get(i)] and [l.get(i..j)]; [l[i..j]] is [expect] of the latter. *)
Definition get {A} (l : list A) (i : Z) : option A :=
  if 0 <=? i then l !! Z.to_nat i else None.
Definition get_range {A} (l : list A) (i j : Z) : option (list A) :=
  if (0 <=? i) && (i <=? j) && (j <=? zlen l)
  then Some (take (Z.to_nat (j - i)) (drop (Z.to_nat i) l))
  else None.
(** [l.get(i..)]. *)
Definition get_from {A} (l : list A) (i : Z) : option (list A) :=
  get_range l i (zlen l).
(** [l.split_at_checked(n)]; [split_at] is [expect] of it. *)
Definition split_at_checked {A} (l : list A) (n : Z) : option (list A * list A) :=
  if (0 <=? n) && (n <=? zlen l)
  then Some (take (Z.to_nat n) l, drop (Z.to_nat n) l)
  else None.

(** [a.iter().eq(b)], equality of byte slices as a boolean. *)
Definition bytes_eqb (a b : bytes) : bool := bool_decide (a = b).

(** [u16/u32/u64::from_be_bytes] and [to_be_bytes]. *)
Definition from_be (l : bytes) : Z := foldl (λ acc b, acc * 256 + b) 0 l.
Fixpoint to_le (n : nat) (z : Z) : bytes :=
  match n with
  | O => []
  | S n => (z mod 256) :: to_le n (z / 256)
  end.
Definition to_be (n : nat) (z : Z) : bytes := reverse (to_le n z).

(** Lexicographic order of byte slices, [Ord for [u8]]. *)
Fixpoint bytes_cmp (a b : bytes) : comparison :=
  match a, b with
  | [], [] => Eq
  | [], _ :: _ => Lt
  | _ :: _, [] => Gt
  | x :: a, y :: b => match x ?= y with Eq => bytes_cmp a b | c => c end
  end.

(** ** Automation *)
(** [strip_suffix] and [strip_prefix] of slices and strings. *)
Definition strip_suffix (l s : bytes) : option bytes :=
  if (zlen s <=? zlen l) && bytes_eqb (drop (length l - length s) l) s
  then Some (take (length l - length s) l) else None.
Definition strip_prefix (l p : bytes) : option bytes :=
  if (zlen p <=? zlen l) && bytes_eqb (take (length p) l) p then Some (drop (length p) l) else None.

(** [find_byte], [find_byteset] and [position]: the index of the first byte of a kind;
    [rfind_byte]: of the last one; [take_while(..).count()]. *)
Fixpoint position (p : Z → bool) (l : bytes) : option Z :=
  match l with
  | [] => None
  | b :: l => if p b then Some 0 else option_map Z.succ (position p l)
  end.
Definition rposition (p : Z → bool) (l : bytes) : option Z :=
  option_map (λ i, zlen l - 1 - i) (position p (reverse l)).
Fixpoint count_while (p : Z → bool) (l : bytes) : Z :=
  match l with
  | [] => 0
  | b :: l => if p b then 1 + count_while p l else 0
  end.
(** [lines_with_terminator] of [bstr] *)
Fixpoint lines_with_terminator (l : bytes) : list bytes :=
  match l with
  | [] => []
  | b :: l =>
      if b =? 10 then [b] :: lines_with_terminator l
      else match lines_with_terminator l with [] => [[b]] | line :: rest => (b :: line) :: rest end
  end.

Create HintDb gix.

(** Case split on every boolean comparison and [match] scrutinee in sight. *)
Ltac zcbn := cbn [andb orb negb fst snd] in *.
Ltac zb :=
  zcbn;
  repeat (match goal with
  | H : context [?a <? ?b] |- _ => destruct (Z.ltb_spec a b)
  | H : context [?a <=? ?b] |- _ => destruct (Z.leb_spec a b)
  | H : context [?a =? ?b] |- _ => destruct (Z.eqb_spec a b)
  | |- context [?a <? ?b] => destruct (Z.ltb_spec a b)
  | |- context [?a <=? ?b] => destruct (Z.leb_spec a b)
  | |- context [?a =? ?b] => destruct (Z.eqb_spec a b)
  end; zcbn).

(** Take apart a successful monadic computation. *)
Ltac inv_bind :=
  repeat (simpl in *; match goal with
  | H : Ok _ = Ok _ |- _ => injection H as H
  | H : Err _ = Ok _ |- _ => discriminate H
  | H : Panic = Ok _ |- _ => discriminate H
  | H : Some _ = Some _ |- _ => injection H as H
  | H : None = Some _ |- _ => discriminate H
  | H : mbind _ (ok_or _ ?m) = Ok _ |- _ =>
      let E := fresh "E" in destruct m eqn:E; simpl in H; try discriminate H
  | H : mbind _ (expect ?m) = Ok _ |- _ =>
      let E := fresh "E" in destruct m eqn:E; simpl in H; try discriminate H
  | H : mbind _ ?m = Ok _ |- _ =>
      let E := fresh "E" in destruct m eqn:E; simpl in H; try discriminate H
  | H : mbind _ ?m = Some _ |- _ =>
      let E := fresh "E" in destruct m eqn:E; simpl in H; try discriminate H
  | H : ok_or _ ?m = Ok _ |- _ =>
      let E := fresh "E" in destruct m eqn:E; simpl in H; try discriminate H
  | H : expect ?m = Ok _ |- _ =>
      let E := fresh "E" in destruct m eqn:E; simpl in H; try discriminate H
  end); subst.

(** ** Lemmas: integers *)
Lemma in_u_spec w x : in_u w x = true ↔ 0 ≤ x < 2 ^ w.
Proof. unfold in_u. rewrite andb_true_iff, Z.leb_le, Z.ltb_lt. tauto. Qed.

Lemma checked_Some w x y : checked w x = Some y ↔ x = y ∧ 0 ≤ x < 2 ^ w.
Proof.
  unfold checked. destruct (in_u w x) eqn:E.
  - apply in_u_spec in E. naive_solver.
  - split; [done|]. intros [-> H]. apply in_u_spec in H. congruence.
Qed.

Lemma checked_in w x : 0 ≤ x < 2 ^ w → checked w x = Some x.
Proof. intros. by apply checked_Some. Qed.

Lemma checked_out w x : ¬ (0 ≤ x < 2 ^ w) → checked w x = None.
Proof.
  intros H. destruct (checked w x) eqn:E; [|done].
  apply checked_Some in E. naive_solver.
Qed.

Lemma checked_add_in w a b : 0 ≤ a + b < 2 ^ w → checked_add w a b = Some (a + b).
Proof. apply checked_in. Qed.
Lemma checked_sub_in w a b : 0 ≤ a - b < 2 ^ w → checked_sub w a b = Some (a - b).
Proof. apply checked_in. Qed.
Lemma checked_mul_in w a b : 0 ≤ a * b < 2 ^ w → checked_mul w a b = Some (a * b).
Proof. apply checked_in. Qed.
#[export] Hint Resolve checked_add_in checked_sub_in checked_mul_in : gix.
Lemma op_add_ok {E} w a b : 0 ≤ a + b < 2 ^ w → op_add (E := E) w a b = Ok (a + b).
Proof. intros H. unfold op_add. by rewrite checked_add_in. Qed.
Lemma op_sub_ok {E} w a b : 0 ≤ a - b < 2 ^ w → op_sub (E := E) w a b = Ok (a - b).
Proof. intros H. unfold op_sub. by rewrite checked_sub_in. Qed.

Lemma wrap_small w x : 0 ≤ x < 2 ^ w → wrap w x = x.
Proof. intros. by apply Z.mod_small. Qed.

(** Masking with a low mask is reduction modulo a power of two, and or-ing in
    bits above the low ones is addition. *)
Lemma land_low a n m : 0 ≤ n → m = Z.ones n → Z.land a m = a mod 2 ^ n.
Proof. intros ? ->. by apply Z.land_ones. Qed.

Lemma land_127 a : Z.land a 127 = a mod 128.
Proof. by apply (land_low a 7). Qed.
Lemma land_15 a : Z.land a 15 = a mod 16.
Proof. by apply (land_low a 4). Qed.
Lemma land_7 a : Z.land a 7 = a mod 8.
Proof. by apply (land_low a 3). Qed.

Lemma land_high_low n hi lo :
  0 ≤ n → 0 ≤ lo < 2 ^ n → Z.land (hi * 2 ^ n) lo = 0.
Proof.
  intros Hn Hlo. apply Z.bits_inj'. intros i Hi. rewrite Z.land_spec, Z.bits_0.
  rewrite <- Z.shiftl_mul_pow2, Z.shiftl_spec by lia.
  destruct (Z.ltb_spec i n).
  - by rewrite Z.testbit_neg_r by lia.
  - destruct (decide (lo = 0)) as [->|]; [by rewrite Z.bits_0, andb_false_r|].
    rewrite (Z.bits_above_log2 lo i), andb_false_r; [done|lia|].
    enough (Z.log2 lo < n) by lia. apply Z.log2_lt_pow2; lia.
Qed.

Lemma lor_high_low n hi lo :
  0 ≤ n → 0 ≤ lo < 2 ^ n → Z.lor (hi * 2 ^ n) lo = hi * 2 ^ n + lo.
Proof.
  intros Hn Hlo. rewrite <- Z.lxor_lor, <- Z.add_nocarry_lxor by (by apply land_high_low).
  done.
Qed.

Lemma lor_low_high n hi lo :
  0 ≤ n → 0 ≤ lo < 2 ^ n → Z.lor lo (hi * 2 ^ n) = lo + hi * 2 ^ n.
Proof. intros. rewrite Z.lor_comm, lor_high_low by done. lia. Qed.

(** A fact about one byte is a finite check. *)
Lemma byte_forall (P : Z → bool) b :
  forallb P (seqZ 0 256) = true → is_byte b → P b = true.
Proof.
  intros H Hb. rewrite forallb_forall in H. apply H, list_elem_of_In, elem_of_seqZ.
  unfold is_byte in Hb. lia.
Qed.

Lemma land_128 b : is_byte b → Z.land b 128 = if b <? 128 then 0 else 128.
Proof.
  intros Hb. apply Z.eqb_eq.
  exact (byte_forall (λ b, Z.land b 128 =? if b <? 128 then 0 else 128) b eq_refl Hb).
Qed.

Lemma land_240 b : is_byte b → Z.land b 240 = b / 16 * 16.
Proof.
  intros Hb. apply Z.eqb_eq.
  exact (byte_forall (λ b, Z.land b 240 =? b / 16 * 16) b eq_refl Hb).
Qed.

(** ** Lemmas: computations that do not panic

    [safe m P]: [m] does not panic, and a result it returns satisfies [P]. *)
Definition safe {E A} (m : outcome E A) (P : A → Prop) : Prop :=
  match m with Ok a => P a | Err _ => True | Panic => False end.

Lemma safe_bind {E A B} (m : outcome E A) (k : A → outcome E B) P Q :
  safe m P → (∀ a, P a → safe (k a) Q) → safe (m ≫= k) Q.
Proof. destruct m; simpl; auto. Qed.
Lemma safe_ensure {E B} (b : bool) (e : E) (k : () → outcome E B) Q :
  (b = true → safe (k tt) Q) → safe (ensure b e ≫= k) Q.
Proof. destruct b; simpl; auto. Qed.
Lemma safe_expect {E A B} (o : option A) x (k : A → outcome E B) Q :
  o = Some x → safe (k x) Q → safe (expect o ≫= k) Q.
Proof. by intros ->. Qed.
Lemma safe_ok_or {E A B} (e : E) (o : option A) (k : A → outcome E B) Q :
  (∀ x, o = Some x → safe (k x) Q) → safe (ok_or e o ≫= k) Q.
Proof. destruct o; simpl; auto. Qed.
Lemma safe_Ok {E A B} (m : outcome E A) x (k : A → outcome E B) Q :
  m = Ok x → safe (k x) Q → safe (m ≫= k) Q.
Proof. by intros ->. Qed.
Lemma safe_map_err {E F A} (f : E → F) (m : outcome E A) P : safe m P → safe (map_err f m) P.
Proof. by destruct m. Qed.
Lemma safe_impl {E A} (m : outcome E A) (P Q : A → Prop) : safe m P → (∀ a, P a → Q a) → safe m Q.
Proof. destruct m; simpl; auto. Qed.
Lemma safe_iff {E A} (m : outcome E A) P : safe m P ↔ m ≠ Panic ∧ ∀ a, m = Ok a → P a.
Proof. destruct m; simpl; naive_solver. Qed.

(** ** Lemmas: lists and slices *)
Lemma zlen_nonneg {A} (l : list A) : 0 ≤ zlen l.
Proof. unfold zlen. lia. Qed.
Lemma zlen_nil {A} : zlen (@nil A) = 0.
Proof. done. Qed.
Lemma zlen_cons {A} (x : A) l : zlen (x :: l) = 1 + zlen l.
Proof. unfold zlen. simpl. lia. Qed.
Lemma zlen_app {A} (l k : list A) : zlen (l ++ k) = zlen l + zlen k.
Proof. unfold zlen. rewrite length_app. lia. Qed.
#[export] Hint Resolve zlen_nonneg : gix.
#[export] Hint Rewrite @zlen_nil @zlen_cons @zlen_app : gix.

Lemma get_nat {A} (l : list A) (i : nat) : get l (Z.of_nat i) = l !! i.
Proof. unfold get. zb; [by rewrite Nat2Z.id | lia]. Qed.

Lemma get_Some {A} (l : list A) i x :
  get l i = Some x → 0 ≤ i < zlen l ∧ l !! Z.to_nat i = Some x.
Proof.
  unfold get, zlen. zb; [|done]. intros Hl. split; [|done].
  apply lookup_lt_Some in Hl. lia.
Qed.

Lemma get_app_mid {A} (l : list A) x r : get (l ++ x :: r) (zlen l) = Some x.
Proof. unfold zlen. rewrite get_nat. by apply list_lookup_middle. Qed.

Lemma get_None {A} (l : list A) i : zlen l ≤ i → get l i = None.
Proof.
  unfold get, zlen. intros. zb; [|done]. apply lookup_ge_None. lia.
Qed.

Lemma get_range_app {A} (l m r : list A) i j :
  i = zlen l → j = zlen l + zlen m → get_range (l ++ m ++ r) i j = Some m.
Proof.
  intros -> ->. unfold get_range, zlen. rewrite !length_app. zb; try lia.
  f_equal. rewrite Nat2Z.id, drop_app_length.
  replace (Z.to_nat _) with (length m) by lia. by rewrite take_app_length.
Qed.

Lemma get_range_Some {A} (l : list A) i j m :
  get_range l i j = Some m →
  0 ≤ i ≤ j ∧ j ≤ zlen l ∧ zlen m = j - i ∧
  m = take (Z.to_nat (j - i)) (drop (Z.to_nat i) l).
Proof.
  unfold get_range, zlen. intros H. zb; try done.
  injection H as <-. rewrite length_take, length_drop. repeat split; lia.
Qed.

Lemma get_range_None {A} (l : list A) i j :
  0 ≤ i ≤ j → get_range l i j = None ↔ zlen l < j.
Proof. unfold get_range. intros. zb; naive_solver lia. Qed.

Lemma split_at_app {A} (l r : list A) n :
  n = zlen l → split_at_checked (l ++ r) n = Some (l, r).
Proof.
  intros ->. unfold split_at_checked. rewrite zlen_app.
  pose proof (zlen_nonneg l). pose proof (zlen_nonneg r). zb; try lia.
  unfold zlen. by rewrite Nat2Z.id, take_app_length, drop_app_length.
Qed.

Lemma split_at_Some {A} (l : list A) n a b :
  split_at_checked l n = Some (a, b) → l = a ++ b ∧ zlen a = n.
Proof.
  unfold split_at_checked, zlen. intros H. zb; try done. injection H as <- <-.
  rewrite take_drop, length_take. split; [done|lia].
Qed.

(** Slicing within bounds. *)
Lemma get_range_in {A} (l : list A) i j :
  0 ≤ i ≤ j → j ≤ zlen l →
  get_range l i j = Some (take (Z.to_nat (j - i)) (drop (Z.to_nat i) l)).
Proof. intros. unfold get_range. zb; done || lia. Qed.

Lemma get_from_in {A} (l : list A) i :
  0 ≤ i ≤ zlen l → get_from l i = Some (drop (Z.to_nat i) l).
Proof.
  intros. unfold get_from. rewrite get_range_in by lia. f_equal. apply take_ge.
  rewrite length_drop. unfold zlen in *. lia.
Qed.

Lemma get_range_head {A} (a r : list A) : get_range (a ++ r) 0 (zlen a) = Some a.
Proof. exact (get_range_app [] a r 0 (zlen a) eq_refl eq_refl). Qed.
Lemma get_from_app {A} (a b : list A) : get_from (a ++ b) (zlen a) = Some b.
Proof.
  rewrite get_from_in by (unfold zlen; rewrite length_app; lia). unfold zlen. rewrite Nat2Z.id.
  by rewrite drop_app_length.
Qed.

Lemma get_in {A} (l : list A) i : 0 ≤ i < zlen l → ∃ x, get l i = Some x ∧ l !! Z.to_nat i = Some x.
Proof.
  unfold get, zlen. intros. zb; [|lia].
  destruct (lookup_lt_is_Some_2 l (Z.to_nat i)) as [x Hx]; [lia|eauto].
Qed.

Lemma split_at_in {A} (l : list A) n :
  0 ≤ n ≤ zlen l → split_at_checked l n = Some (take (Z.to_nat n) l, drop (Z.to_nat n) l).
Proof. intros. unfold split_at_checked. zb; done || lia. Qed.

Lemma bytes_ok_app l k : bytes_ok (l ++ k) ↔ bytes_ok l ∧ bytes_ok k.
Proof. apply Forall_app. Qed.
Lemma bytes_ok_cons x l : bytes_ok (x :: l) ↔ is_byte x ∧ bytes_ok l.
Proof. apply Forall_cons_iff. Qed.

(** ** Lemmas: big-endian integers *)
Lemma length_to_le n z : length (to_le n z) = n.
Proof. revert z. induction n; intros; simpl; auto. Qed.
Lemma length_to_be n z : length (to_be n z) = n.
Proof. unfold to_be. by rewrite length_reverse, length_to_le. Qed.
Lemma zlen_to_be n z : zlen (to_be n z) = Z.of_nat n.
Proof. unfold zlen. by rewrite length_to_be. Qed.
#[export] Hint Rewrite length_to_be zlen_to_be : gix.

Lemma bytes_ok_to_be n z : bytes_ok (to_be n z).
Proof.
  unfold bytes_ok, to_be. apply Forall_reverse. revert z.
  induction n; intros; simpl; constructor; auto.
  unfold is_byte. apply Z.mod_pos_bound. lia.
Qed.
#[export] Hint Resolve bytes_ok_to_be : gix.

Lemma from_be_app l k :
  from_be (l ++ k) = from_be l * 256 ^ zlen k + from_be k.
Proof.
  unfold from_be. rewrite foldl_app. generalize (foldl (λ acc b, acc * 256 + b) 0 l).
  induction k as [|x k IH] using rev_ind; intros a.
  - unfold zlen. simpl. lia.
  - rewrite !foldl_app, IH, zlen_app. simpl.
    change (zlen [x]) with 1. rewrite Z.pow_add_r, Z.pow_1_r by (unfold zlen; lia). lia.
Qed.

Lemma from_be_snoc l b : from_be (l ++ [b]) = from_be l * 256 + b.
Proof. unfold from_be. by rewrite foldl_app. Qed.

Lemma to_be_S n z : to_be (S n) z = to_be n (z / 256) ++ [z mod 256].
Proof. unfold to_be. simpl. by rewrite reverse_cons. Qed.

Lemma from_to_be n z : 0 ≤ z < 256 ^ Z.of_nat n → from_be (to_be n z) = z.
Proof.
  revert z. induction n as [|n IH]; intros z Hz.
  - simpl in *. unfold from_be. simpl. lia.
  - rewrite to_be_S, from_be_snoc, IH.
    + pose proof (Z.div_mod z 256). lia.
    + rewrite Nat2Z.inj_succ, Z.pow_succ_r in Hz by lia.
      split; [apply Z.div_pos; lia | apply Z.div_lt_upper_bound; lia].
Qed.

Lemma to_from_be l : bytes_ok l → to_be (length l) (from_be l) = l.
Proof.
  induction l as [|x l IH] using rev_ind; intros Hl; [done|].
  apply bytes_ok_app in Hl as [Hl Hx]. apply bytes_ok_cons in Hx as [Hx _].
  rewrite length_app, Nat.add_comm. simpl length. rewrite Nat.add_1_l, to_be_S, from_be_snoc.
  unfold is_byte in Hx. rewrite Z.div_add_l by lia. rewrite (Z.div_small x 256), Z.add_0_r by lia.
  rewrite IH by done. f_equal. f_equal.
  rewrite Z.add_comm, Z.mod_add by lia. apply Z.mod_small. lia.
Qed.

Lemma from_be_bound l : bytes_ok l → 0 ≤ from_be l < 256 ^ zlen l.
Proof.
  induction l as [|x l IH] using rev_ind; intros Hl; [done|].
  apply bytes_ok_app in Hl as [Hl Hx]. apply bytes_ok_cons in Hx as [Hx _].
  unfold is_byte in Hx. rewrite from_be_snoc, zlen_app. change (zlen [x]) with 1.
  rewrite Z.pow_add_r, Z.pow_1_r by (unfold zlen; lia). specialize (IH Hl). lia.
Qed.

Lemma from_be_u32 b : bytes_ok b → zlen b = 4 → 0 ≤ from_be b < 2 ^ 32.
Proof. intros Hb Hl. pose proof (from_be_bound b Hb) as H. rewrite Hl in H. exact H. Qed.
Lemma from_be_u64 b : bytes_ok b → zlen b = 8 → 0 ≤ from_be b < 2 ^ 64.
Proof. intros Hb Hl. pose proof (from_be_bound b Hb) as H. rewrite Hl in H. exact H. Qed.

Lemma from_be_inj l k :
  length l = length k → bytes_ok l → bytes_ok k → from_be l = from_be k → l = k.
Proof.
  intros Hlen Hl Hk Heq. rewrite <- (to_from_be l), <- (to_from_be k) by done. congruence.
Qed.

(** ** Lemmas: lexicographic order *)
Lemma bytes_cmp_refl a : bytes_cmp a a = Eq.
Proof. induction a; simpl; [done|]. by rewrite Z.compare_refl. Qed.

Lemma bytes_cmp_eq a b : bytes_cmp a b = Eq ↔ a = b.
Proof.
  split; [|intros ->; apply bytes_cmp_refl].
  revert b. induction a as [|x a IH]; intros [|y b]; simpl; try done.
  destruct (Z.compare_spec x y); try done. intros. f_equal; auto.
Qed.

Lemma bytes_cmp_antisym a b : bytes_cmp b a = CompOpp (bytes_cmp a b).
Proof.
  revert b. induction a as [|x a IH]; intros [|y b]; simpl; try done.
  rewrite (Z.compare_antisym x y). destruct (x ?= y); simpl; auto.
Qed.

Lemma bytes_cmp_app a b c d :
  length a = length b →
  bytes_cmp (a ++ c) (b ++ d) =
  match bytes_cmp a b with Eq => bytes_cmp c d | o => o end.
Proof.
  revert b. induction a as [|x a IH]; intros [|y b] Hl; simpl in *; try done.
  destruct (x ?= y); [apply IH; lia|done|done].
Qed.

Lemma bytes_cmp_lt_trans a b c :
  bytes_cmp a b = Lt → bytes_cmp b c = Lt → bytes_cmp a c = Lt.
Proof.
  revert b c. induction a as [|x a IH]; intros [|y b] [|z c]; simpl; try done.
  destruct (Z.compare_spec x y), (Z.compare_spec y z); subst; try done; intros.
  - rewrite Z.compare_refl. eauto.
  - by rewrite (proj2 (Z.compare_lt_iff y z)).
  - by rewrite (proj2 (Z.compare_lt_iff x z)).
  - by rewrite (proj2 (Z.compare_lt_iff x z)) by lia.
Qed.

Lemma bytes_cmp_gt_lt a b : bytes_cmp a b = Gt ↔ bytes_cmp b a = Lt.
Proof. rewrite (bytes_cmp_antisym a b). destruct (bytes_cmp a b); simpl; naive_solver. Qed.

(** [bytes_le a b] is the non-strict order of byte slices. *)
Definition bytes_le (a b : bytes) : Prop := bytes_cmp a b ≠ Gt.

Lemma bytes_lt_le_trans a b c :
  bytes_cmp a b = Lt → bytes_le b c → bytes_cmp a c = Lt.
Proof.
  unfold bytes_le. intros H1 H2. destruct (bytes_cmp b c) eqn:E; try done.
  - apply bytes_cmp_eq in E as ->. done.
  - eauto using bytes_cmp_lt_trans.
Qed.

Lemma bytes_le_lt_trans a b c :
  bytes_le a b → bytes_cmp b c = Lt → bytes_cmp a c = Lt.
Proof.
  unfold bytes_le. intros H1 H2. destruct (bytes_cmp a b) eqn:E; try done.
  - apply bytes_cmp_eq in E as ->. done.
  - eauto using bytes_cmp_lt_trans.
Qed.

Lemma bytes_le_take k a b :
  length a = length b → bytes_le a b → bytes_le (take k a) (take k b).
Proof.
  unfold bytes_le. intros Hl H Hgt. apply H.
  rewrite <- (take_drop k a), <- (take_drop k b), bytes_cmp_app by (rewrite !length_take; lia).
  by rewrite Hgt.
Qed.

(** ** Chunks, [as_chunks::<n>().0] and [chunks_exact(n)] *)
Definition chunks {A} (n : nat) (l : list A) : list (list A) :=
  (λ i, take n (drop (i * n) l)) <$> seq 0 (length l / n).

Lemma length_chunks {A} n (l : list A) : length (chunks n l) = (length l / n)%nat.
Proof. unfold chunks. by rewrite length_fmap, length_seq. Qed.

Lemma lookup_chunks {A} n (l : list A) i :
  n ≠ 0%nat → ((i + 1) * n ≤ length l)%nat → chunks n l !! i = Some (take n (drop (i * n) l)).
Proof.
  intros Hn Hi. unfold chunks. rewrite list_lookup_fmap, lookup_seq_lt; [done|].
  assert (i + 1 ≤ length l / n)%nat by (apply Nat.div_le_lower_bound; lia). lia.
Qed.

Lemma length_concat_const {A} n (ps : list (list A)) :
  Forall (λ p, length p = n) ps → length (concat ps) = (length ps * n)%nat.
Proof. induction 1; simpl; [done|]. rewrite length_app. lia. Qed.

(** The i-th piece of a concatenation of pieces of one size. *)
Lemma concat_piece {A} n (ps : list (list A)) r i p :
  Forall (λ p, length p = n) ps → ps !! i = Some p →
  take n (drop (i * n) (concat ps ++ r)) = p.
Proof.
  intros Hps Hp. apply lookup_lt_Some in Hp as Hi.
  pose proof (take_drop_middle ps i p Hp) as Hsplit.
  assert (length (concat (take i ps)) = i * n)%nat as Hpre.
  { rewrite (length_concat_const n) by (by apply Forall_take).
    rewrite length_take. f_equal. lia. }
  assert (length p = n) as Hpn by (eapply Forall_lookup_1 in Hps; eauto).
  rewrite <- Hsplit, concat_app, concat_cons, <- !app_assoc.
  rewrite <- Hpre, drop_app_length, <- Hpn. by rewrite take_app_length.
Qed.

(** Cutting a concatenation of pieces of one size gives the pieces back. *)
Lemma take_chunks_concat {A} n (ps : list (list A)) r :
  n ≠ 0%nat → Forall (λ p, length p = n) ps → take (length ps) (chunks n (concat ps ++ r)) = ps.
Proof.
  intros Hn Hps. apply list_eq. intros i.
  destruct (decide (i < length ps)%nat) as [Hi|Hi].
  2:{ rewrite (lookup_ge_None_2 ps), lookup_ge_None_2; [done| |lia].
      rewrite length_take. lia. }
  rewrite lookup_take_lt by done.
  rewrite lookup_chunks by (rewrite ?length_app, ?(length_concat_const n) by done; nia).
  destruct (lookup_lt_is_Some_2 ps i Hi) as [p Hp]. rewrite Hp. f_equal.
  by apply concat_piece.
Qed.

(** ** Lemmas: running an operation over a list *)
Lemma mapM_Ok {E A B} (f : A → outcome E B) (g : A → B) l :
  (∀ x, x ∈ l → f x = Ok (g x)) → mapM f l = Ok (g <$> l).
Proof.
  induction l as [|x l IH]; intros H; [done|]. simpl.
  rewrite H by (by left). cbn. rewrite IH; [done|]. intros y Hy. apply H. by right.
Qed.
Lemma mapM_lookup {E A B} (f : A → outcome E B) l k i x :
  mapM f l = Ok k → l !! i = Some x → ∃ y, k !! i = Some y ∧ f x = Ok y.
Proof.
  revert k i. induction l as [|z l IH]; intros k i Hk Hi; [done|]. simpl in Hk.
  destruct (f z) eqn:Hz; try done. cbn in Hk. destruct (mapM f l) eqn:Hl; try done.
  injection Hk as <-. destruct i; simplify_eq/=; eauto.
Qed.
Lemma mapM_length {E A B} (f : A → outcome E B) l k : mapM f l = Ok k → length k = length l.
Proof.
  revert k. induction l as [|z l IH]; intros k Hk; simpl in Hk; [by injection Hk as <-|].
  destruct (f z) eqn:Hz; try done. cbn in Hk. destruct (mapM f l) eqn:Hl; try done.
  injection Hk as <-. simpl. by rewrite (IH _ eq_refl).
Qed.
Lemma mapM_total {E A B} (f : A → outcome E B) l :
  (∀ x, x ∈ l → ∃ y, f x = Ok y) → ∃ k, mapM f l = Ok k.
Proof.
  induction l as [|x l IH]; intros H; [by exists []|].
  destruct (H x) as [y Hy]; [by left|]. destruct IH as [k Hk]; [intros z Hz; apply H; by right|].
  exists (y :: k). simpl. rewrite Hy. cbn. by rewrite Hk.
Qed.

(** [bytes_ok] by evaluation. *)
Lemma bytes_ok_bool l : forallb (in_u 8) l = true → bytes_ok l.
Proof.
  intros H. apply list.Forall_forall. intros x Hx. rewrite forallb_forall in H.
  apply (in_u_spec 8), H. by apply list_elem_of_In.
Qed.

(** ** Lemmas: searching and splitting *)
Lemma strip_prefix_Some l p r : strip_prefix l p = Some r ↔ l = p ++ r.
Proof.
  unfold strip_prefix, bytes_eqb, zlen. split.
  - destruct (Z.leb_spec (Z.of_nat (length p)) (Z.of_nat (length l))); [|done]. cbn [andb].
    case_bool_decide as Hp; [|done]. intros [= <-]. rewrite <- Hp at 1. by rewrite take_drop.
  - intros ->. rewrite take_app_length, drop_app_length, length_app.
    destruct (Z.leb_spec (Z.of_nat (length p)) (Z.of_nat (length p + length r))); [|lia]. cbn [andb].
    by rewrite bool_decide_eq_true_2.
Qed.
Lemma strip_prefix_None l p : strip_prefix l p = None ↔ ∀ r, l ≠ p ++ r.
Proof.
  split.
  - intros Hn r Hr. apply strip_prefix_Some in Hr. congruence.
  - intros Hn. destruct (strip_prefix l p) as [r|] eqn:E; [|done]. apply strip_prefix_Some in E. by destruct (Hn r).
Qed.
Lemma position_Some p l i : position p l = Some i ↔
  ∃ a x b, l = a ++ x :: b ∧ zlen a = i ∧ p x = true ∧ Forall (λ y, p y = false) a.
Proof.
  revert i. induction l as [|y l IH]; intros i; cbn [position].
  { split; [done|]. intros (a & x & b & Hl & _). by destruct a. }
  destruct (p y) eqn:Ep.
  - split.
    + intros [= <-]. exists [], y, l. split; [done|]. split; [done|]. split; [done|constructor].
    + intros (a & x & b & Hl & <- & Hx & Ha). destruct a as [|z a]; [done|]. injection Hl as -> _.
      apply list.Forall_cons in Ha as [Ha _]. congruence.
  - destruct (position p l) as [k|] eqn:Ek; cbn [option_map].
    + destruct (IH k) as [IH1 _]. destruct (IH1 eq_refl) as (a & x & b & -> & <- & Hx & Ha). split.
      * intros [= <-]. exists (y :: a), x, b. split; [done|]. rewrite zlen_cons. split; [lia|]. split; [done|by constructor].
      * intros (a' & x' & b' & Hl & <- & Hx' & Ha'). destruct a' as [|z a']; [injection Hl as -> _; congruence|].
        injection Hl as -> Hl. apply list.Forall_cons in Ha' as [_ Ha'].
        assert (Some (zlen a) = Some (zlen a')) as [= Heq]; [|rewrite zlen_cons; f_equal; lia].
        apply IH. rewrite Hl. by exists a', x', b'.
    + split; [done|]. intros (a & x & b & Hl & <- & Hx & Ha). destruct a as [|z a]; [injection Hl as -> _; congruence|].
      injection Hl as -> Hl. apply list.Forall_cons in Ha as [_ Ha].
      destruct (IH (zlen a)) as [_ IH2]. discriminate IH2. by exists a, x, b.
Qed.
Lemma position_app p a x b : Forall (λ y, p y = false) a → p x = true → position p (a ++ x :: b) = Some (zlen a).
Proof. intros Ha Hx. apply position_Some. by exists a, x, b. Qed.
Lemma position_None p l : position p l = None ↔ Forall (λ y, p y = false) l.
Proof.
  induction l as [|y l IH]; cbn [position]; [by split|]. rewrite list.Forall_cons, <- IH. destruct (p y) eqn:Ep; [naive_solver|].
  destruct (position p l); naive_solver.
Qed.
Lemma rposition_app p a x b : p x = true → Forall (λ y, p y = false) b → rposition p (a ++ x :: b) = Some (zlen a).
Proof.
  intros Hx Hb. unfold rposition. rewrite reverse_app, reverse_cons, <- app_assoc. cbn [app].
  rewrite (position_app p (reverse b) x (reverse a)); [|by apply Forall_reverse|done]. cbn [option_map].
  rewrite zlen_app, zlen_cons. unfold zlen. rewrite length_reverse. f_equal. lia.
Qed.
Lemma rposition_Some p l i : rposition p l = Some i → ∃ a x b, l = a ++ x :: b ∧ zlen a = i ∧ p x = true.
Proof.
  unfold rposition. destruct (position p (reverse l)) as [k|] eqn:E; [|done]. intros [= <-].
  apply position_Some in E as (a & x & b & Hl & <- & Hx & _). apply (f_equal reverse) in Hl.
  rewrite reverse_involutive, reverse_app, reverse_cons, <- app_assoc in Hl. cbn [app] in Hl. subst l.
  exists (reverse b), x, (reverse a). split; [done|]. split; [|done]. rewrite zlen_app, zlen_cons. unfold zlen.
  rewrite !length_reverse. lia.
Qed.
Lemma count_while_bounds p l : 0 ≤ count_while p l ≤ zlen l.
Proof.
  induction l as [|b l IH]; cbn [count_while]; [done|]. rewrite zlen_cons. pose proof (zlen_nonneg l). destruct (p b); lia.
Qed.
Lemma position_bound p l i : position p l = Some i → 0 ≤ i < zlen l.
Proof.
  intros H. apply position_Some in H as (a & x & b & -> & <- & _). rewrite zlen_app, zlen_cons.
  pose proof (zlen_nonneg a). pose proof (zlen_nonneg b). lia.
Qed.
Lemma rposition_None p l : Forall (λ y, p y = false) l → rposition p l = None.
Proof. intros H. unfold rposition. assert (position p (reverse l) = None) as ->; [|done]. by apply position_None, Forall_reverse. Qed.
