(* ===== verification/Slices.v ===== *)
(** * Operations of the standard library on slices

    Sorting, removal of repetitions and binary search as the crates call them, over
    comparison functions with laws. A closure that records what it sees is a function on
    its state. *)

From stdpp Require Import sorting.
From S2P Require Import Prelude.

(** ** Sorting

    [sort_by], a stable sort: an element is placed before those it does not exceed. *)
Section SortBy.
Context {A : Type} (cmp : A → A → comparison).
Fixpoint insert_by (x : A) (l : list A) : list A :=
  match l with
  | [] => [x]
  | y :: l => match cmp x y with Gt => y :: insert_by x l | _ => x :: y :: l end
  end.
Definition sort_by (l : list A) : list A := foldr insert_by [] l.
End SortBy.
Definition sort_by_key {A} (key : A → Z) (l : list A) : list A := sort_by (λ a b, key a ?= key b) l.

(** [dedup_by_key]: of consecutive elements with one key the first is kept. *)
Fixpoint dedup_from {A} (same : A → A → bool) (last : A) (l : list A) : list A :=
  match l with
  | [] => []
  | x :: l => if same last x then dedup_from same last l else x :: dedup_from same x l
  end.
Definition dedup_by {A} (same : A → A → bool) (l : list A) : list A :=
  match l with [] => [] | x :: l => x :: dedup_from same x l end.

(** [Ordering::then_with] *)
Definition then_with (a b : comparison) : comparison := match a with Eq => b | c => c end.

(** ** Binary search

    [binary_search_by]: the interval is halved down to one element, which is compared last;
    [inl] is the position of an element that compares equal, [inr] where one would be
    inserted. *)
Section BinarySearch.
Context {A E St : Type} (l : list A).
Fixpoint bisect_loop (fuel : nat) (f : St → A → outcome E (St * comparison)) (st : St) (base size : Z)
    : outcome E (St * Z) :=
  match fuel with
  | O => Panic
  | S fuel =>
      if 1 <? size then
        let half := size / 2 in
        let mid := base + half in
        e ← expect (get l mid);
        '(st, c) ← f st e;
        let base := match c with Gt => base | _ => mid end in
        bisect_loop fuel f st base (size - half)
      else Ok (st, base)
  end.
Definition binary_search_mut (f : St → A → outcome E (St * comparison)) (st : St)
    : outcome E (St * (Z + Z)) :=
  if zlen l =? 0 then Ok (st, inr 0)
  else
    '(st, base) ← bisect_loop (S (length l)) f st 0 (zlen l);
    e ← expect (get l base);
    '(st, c) ← f st e;
    Ok (st, match c with Eq => inl base | Lt => inr (base + 1) | Gt => inr base end).
End BinarySearch.
(** With a closure that only compares, and may panic. *)
Definition binary_search_with {A E} (l : list A) (f : A → outcome E comparison) : outcome E (Z + Z) :=
  '(_, r) ← binary_search_mut l (λ _ e, c ← f e; Ok (tt, c)) tt; Ok r.
Definition binary_search_by {A E} (l : list A) (f : A → comparison) : outcome E (Z + Z) :=
  binary_search_with l (λ e, Ok (f e)).
Definition partition_point_with {A E} (l : list A) (p : A → outcome E bool) : outcome E Z :=
  r ← binary_search_with l (λ e, b ← p e; Ok (if b : bool then Lt else Gt));
  Ok (match r with inl i | inr i => i end).
Definition partition_point {A E} (l : list A) (p : A → bool) : outcome E Z :=
  partition_point_with l (λ e, Ok (p e)).

(** ** Comparison functions

    The laws of a comparison that is total up to the elements it finds equal. *)
Class OrdLaws {A} (cmp : A → A → comparison) : Prop := {
  ord_antisym : ∀ a b, cmp b a = CompOpp (cmp a b);
  ord_eq : ∀ a b c, cmp a b = Eq → cmp a c = cmp b c;
  ord_trans : ∀ a b c, cmp a b = Lt → cmp b c = Lt → cmp a c = Lt;
}.
Definition ord_le {A} (cmp : A → A → comparison) (a b : A) : Prop := cmp a b ≠ Gt.

Section OrdLemmas.
Context {A : Type} (cmp : A → A → comparison) {Hcmp : OrdLaws cmp}.

Lemma ord_eq_r a b c : cmp b c = Eq → cmp a b = cmp a c.
Proof using Hcmp.
  intros He. rewrite (ord_antisym b a), (ord_antisym c a). f_equal. by apply ord_eq.
Qed.
#[export] Instance ord_le_trans : Transitive (ord_le cmp).
Proof using Hcmp.
  unfold ord_le. intros a b c Hab Hbc. destruct (cmp a b) eqn:E; [by rewrite (ord_eq _ _ c E)| |done].
  destruct (cmp b c) eqn:F; [|by rewrite (ord_trans _ _ _ E F)|done].
  by rewrite <- (ord_eq_r a b c F), E.
Qed.

Lemma insert_by_perm x l : insert_by cmp x l ≡ₚ x :: l.
Proof.
  induction l as [|y l IH]; cbn [insert_by]; [done|]. destruct (cmp x y); [done|done|].
  rewrite IH. apply Permutation_swap.
Qed.
Lemma sort_by_permutation l : sort_by cmp l ≡ₚ l.
Proof. unfold sort_by. induction l as [|x l IH]; cbn [foldr]; [done|]. by rewrite insert_by_perm, IH. Qed.

Lemma insert_by_sorted x l : StronglySorted (ord_le cmp) l → StronglySorted (ord_le cmp) (insert_by cmp x l).
Proof using Hcmp.
  induction 1 as [|y l Hs IH Hy]; cbn [insert_by]; [repeat constructor|].
  assert (ord_le cmp x y → StronglySorted (ord_le cmp) (x :: y :: l)) as Hle.
  { intros Hxy. constructor; [by constructor|]. constructor; [done|].
    eapply Forall_impl; [|exact Hy]. intros z Hz. by transitivity y. }
  destruct (cmp x y) eqn:E; [apply Hle; unfold ord_le; by rewrite E..|].
  constructor; [done|]. rewrite insert_by_perm. constructor; [|done].
  unfold ord_le. by rewrite (ord_antisym x y), E.
Qed.
Lemma sort_by_sorted l : StronglySorted (ord_le cmp) (sort_by cmp l).
Proof using Hcmp. unfold sort_by. induction l; cbn [foldr]; [constructor|by apply insert_by_sorted]. Qed.
End OrdLemmas.

#[export] Instance Z_compare_laws : OrdLaws Z.compare.
Proof.
  split.
  - intros a b. apply Z.compare_antisym.
  - intros a b c ->%Z.compare_eq. done.
  - intros a b c. rewrite !Z.compare_lt_iff. lia.
Qed.
#[export] Instance bytes_cmp_laws : OrdLaws bytes_cmp.
Proof.
  split; [apply bytes_cmp_antisym| |apply bytes_cmp_lt_trans]. by intros a b c ->%bytes_cmp_eq.
Qed.
#[export] Instance comap_laws {A B} (g : A → B) cmp :
  OrdLaws cmp → OrdLaws (λ a b, cmp (g a) (g b)).
Proof.
  intros [H1 H2 H3]. split; [intros a b; apply H1|intros a b c; apply H2|intros a b c; apply H3].
Qed.
#[export] Instance reverse_laws {A} (cmp : A → A → comparison) :
  OrdLaws cmp → OrdLaws (λ a b, CompOpp (cmp a b)).
Proof.
  intros Hc. split.
  - intros a b. by rewrite (ord_antisym a b).
  - intros a b c Hab. rewrite (ord_eq a b c); [done|]. by destruct (cmp a b).
  - intros a b c Hab Hbc. rewrite <- (ord_antisym a c). apply (ord_trans c b a).
    + rewrite (ord_antisym b c). done.
    + rewrite (ord_antisym a b). done.
Qed.
#[export] Instance then_laws {A} (c1 c2 : A → A → comparison) :
  OrdLaws c1 → OrdLaws c2 → OrdLaws (λ a b, then_with (c1 a b) (c2 a b)).
Proof.
  intros H1 H2. split.
  - intros a b. rewrite (ord_antisym (cmp := c1) a b), (ord_antisym (cmp := c2) a b). by destruct (c1 a b).
  - intros a b c. destruct (c1 a b) eqn:E1; cbn [then_with]; [|done|done]. intros E2.
    by rewrite (ord_eq (cmp := c1) a b c E1), (ord_eq (cmp := c2) a b c E2).
  - intros a b c. destruct (c1 a b) eqn:E1; cbn [then_with]; [| |done].
    + rewrite (ord_eq (cmp := c1) a b c E1). destruct (c1 b c); cbn [then_with]; [apply ord_trans|done|done].
    + intros _. destruct (c1 b c) eqn:F1; cbn [then_with]; [| |done].
      * rewrite <- (ord_eq_r c1 a b c F1), E1. done.
      * by rewrite (ord_trans (cmp := c1) a b c E1 F1).
Qed.
Lemma ord_le_refl {A} (cmp : A → A → comparison) `{!OrdLaws cmp} a : ord_le cmp a a.
Proof.
  unfold ord_le. intros Hg. pose proof (ord_antisym a a) as H. rewrite Hg in H. done.
Qed.

Lemma sort_by_key_sorted {A} (key : A → Z) l : StronglySorted (λ a b, key a ≤ key b) (sort_by_key key l).
Proof.
  unfold sort_by_key. pose proof (sort_by_sorted (λ a b, key a ?= key b) l) as Hs.
  induction Hs as [|x s Hs IH Hx]; constructor; [done|]. eapply Forall_impl; [|exact Hx].
  intros y Hy. unfold ord_le in Hy. by destruct (Z.compare_spec (key x) (key y)); [lia|lia|].
Qed.
Lemma sort_by_key_perm {A} (key : A → Z) l : sort_by_key key l ≡ₚ l.
Proof. apply sort_by_permutation. Qed.

(** ** Lemmas: binary search *)
Section Bisect.
Context {A : Type} (l : list A) (c : A → comparison).

(** [c] finds elements less, then equal, then greater. *)
Definition cuts : Prop := ∀ i j x y, (i < j)%nat → l !! i = Some x → l !! j = Some y →
  (c x = Gt → c y = Gt) ∧ (c y = Lt → c x = Lt).

(** What is known of position [b] when the search has come down to it. *)
Definition lands (b : Z) : Prop :=
  (b = 0 ∨ ∃ x, get l b = Some x ∧ c x ≠ Gt) ∧
  (cuts → ∀ i x, b < i → get l i = Some x → c x = Gt).

(** A closure that returns on all elements what [c] says, and the state of [g]. *)
Definition returns {E St} (f : St → A → outcome E (St * comparison)) (g : St → A → St) : Prop :=
  ∀ s x, x ∈ l → f s x = Ok (g s x, c x).

Lemma bisect_loop_spec {E St} (f : St → A → outcome E (St * comparison)) (g : St → A → St) (Hf : returns f g) fuel :
  ∀ st base sz,
  0 ≤ base → 1 ≤ sz → base + sz ≤ zlen l → (Z.to_nat sz ≤ fuel)%nat →
  (base = 0 ∨ ∃ x, get l base = Some x ∧ c x ≠ Gt) →
  (cuts → ∀ i x, base + sz ≤ i → get l i = Some x → c x = Gt) →
  ∃ st' b, bisect_loop l fuel f st base sz = Ok (st', b) ∧ 0 ≤ b < zlen l ∧ lands b.
Proof using.
  induction fuel as [|fuel IH]; intros st base sz Hb Hs Hlen Hfuel Hlo Hhi; [lia|]. cbn [bisect_loop].
  destruct (Z.ltb_spec 1 sz) as [H1|H1].
  2:{ exists st, base. split; [done|]. split; [lia|]. split; [done|]. intros Hc i x Hi. apply Hhi; [done|lia]. }
  assert (Hhalf : 1 ≤ sz / 2 < sz ∧ 2 * (sz / 2) ≤ sz < 2 * (sz / 2) + 2) by (Z.div_mod_to_equations; lia).
  set (half := sz / 2) in *. clearbody half.
  destruct (get_in l (base + half) ltac:(lia)) as (e & He & Hl). rewrite He. cbn [expect mbind outcome_bind].
  rewrite Hf by (by eapply list_elem_of_lookup_2). cbn [mbind outcome_bind].
  destruct (c e) eqn:Ec; apply IH; try lia; try done; try (right; exists e; by rewrite Ec);
    try (by replace (base + half + (sz - half)) with (base + sz) by lia).
  intros Hc i x Hi Hx. destruct (decide (i = base + half)) as [->|Hne]; [congruence|].
  apply get_Some in He as [? He], Hx as [? Hx].
  refine (proj1 (Hc (Z.to_nat (base + half)) (Z.to_nat i) e x _ He Hx) Ec). lia.
Qed.

(** The search ends with the position of an equal element, or, in a list that is cut, with
    the place between the lesser and the greater elements when there is no equal one. *)
Definition search_result (r : Z + Z) : Prop :=
  match r with
  | inl i => ∃ x, get l i = Some x ∧ c x = Eq
  | inr i => 0 ≤ i ≤ zlen l ∧
      (cuts → ∀ j x, get l j = Some x → c x = if j <? i then Lt else Gt)
  end.
Lemma lands_result b x :
  0 ≤ b < zlen l → get l b = Some x → lands b →
  search_result (match c x with Eq => inl b | Lt => inr (b + 1) | Gt => inr b end).
Proof using.
  intros Hb Hx [Hlo Hhi]. destruct (c x) eqn:Ec; [by exists x|split; [lia|]..]; intros Hc j y Hy;
    apply get_Some in Hx as [_ Hx]; pose proof Hy as Hy'; apply get_Some in Hy' as [? Hy'].
  - destruct (Z.ltb_spec j (b + 1)) as [Hj|Hj]; [|by apply (Hhi Hc j); [lia|]].
    destruct (decide (j = b)) as [->|Hne]; [congruence|].
    refine (proj2 (Hc (Z.to_nat j) (Z.to_nat b) y x _ Hy' Hx) Ec). lia.
  - destruct Hlo as [->|(x' & Hx' & Hn)]; [|apply get_Some in Hx' as [_ Hx']; congruence].
    destruct (Z.ltb_spec j 0); [lia|]. destruct (decide (j = 0)) as [->|Hne]; [congruence|].
    apply (Hhi Hc j); [lia|done].
Qed.

(** A closure that records something of the elements it finds equal: the last one is the
    one that is found. *)
Lemma binary_search_mut_spec {E St} (f : St → A → outcome E (St * comparison)) (h : A → St) st :
  returns f (λ s e, match c e with Eq => h e | _ => s end) →
  ∃ st' r, binary_search_mut l f st = Ok (st', r) ∧ search_result r ∧
    ∀ i x, r = inl i → get l i = Some x → st' = h x.
Proof using.
  intros Hf. unfold binary_search_mut. destruct (Z.eqb_spec (zlen l) 0) as [Hz|Hz].
  { exists st, (inr 0). split; [done|]. split; [|done]. split; [lia|]. intros _ j x Hx.
    apply get_Some in Hx as [? Hx]. apply lookup_lt_Some in Hx. unfold zlen in Hz. lia. }
  pose proof (zlen_nonneg l).
  assert (∀ i x, zlen l ≤ i → get l i = Some x → c x = Gt) as Hend.
  { intros i x Hi. by rewrite get_None. }
  destruct (bisect_loop_spec f _ Hf (S (length l)) st 0 (zlen l))
    as (st' & b & -> & Hb & Hl); [lia|lia|lia|unfold zlen; lia|by left|naive_solver|].
  cbn [mbind outcome_bind]. destruct (get_in l b Hb) as (x & Hx & Hlx). rewrite Hx. cbn [expect mbind outcome_bind].
  rewrite Hf by (by eapply list_elem_of_lookup_2). cbn [mbind outcome_bind].
  eexists _, _. split; [done|]. split; [by apply lands_result|].
  intros i y Hi Hy. destruct (c x) eqn:Ec; simplify_eq. congruence.
Qed.
(** A closure that keeps what is true of its state keeps it to the end. *)
Lemma bisect_loop_state {E St} (f : St → A → outcome E (St * comparison)) (P : St → Prop) fuel : ∀ st base sz st' b,
  (∀ s x s' o, x ∈ l → f s x = Ok (s', o) → P s → P s') → P st → bisect_loop l fuel f st base sz = Ok (st', b) → P st'.
Proof using.
  induction fuel as [|fuel IH]; intros st base sz st' b Hf Hst; cbn [bisect_loop]; [done|].
  destruct (1 <? sz); [|by intros [= <- _]]. destruct (get l _) as [e|] eqn:He; [|done]. cbn [expect mbind outcome_bind].
  apply get_Some in He as [_ He%list_elem_of_lookup_2].
  destruct (f st e) as [[s o]| |] eqn:Hs; [|done|done]. cbn [mbind outcome_bind]. apply IH; [done|]. by eapply Hf.
Qed.
Lemma binary_search_mut_state {E St} (f : St → A → outcome E (St * comparison)) (P : St → Prop) st st' r :
  (∀ s x s' o, x ∈ l → f s x = Ok (s', o) → P s → P s') → P st → binary_search_mut l f st = Ok (st', r) → P st'.
Proof using.
  intros Hf Hst. unfold binary_search_mut. destruct (_ =? 0); [by intros [= <- _]|].
  destruct (bisect_loop _ _ _ _ _ _) as [[s b]| |] eqn:Hb; [|done|done]. cbn [mbind outcome_bind].
  eapply bisect_loop_state in Hb; [|done|done]. destruct (get l b) as [e|] eqn:He; [|done]. cbn [expect mbind outcome_bind].
  apply get_Some in He as [_ He%list_elem_of_lookup_2].
  destruct (f s e) as [[s' o]| |] eqn:Hs; [|done|done]. intros [= <- _]. by eapply Hf.
Qed.
(** If it says what [c] says, whatever it does to its state, the result is the place that [c] tells. *)
Lemma binary_search_mut_result {E St} (f : St → A → outcome E (St * comparison)) (g : St → A → St) st :
  returns f g → ∃ st' r, binary_search_mut l f st = Ok (st', r) ∧ search_result r.
Proof using.
  intros Hf. unfold binary_search_mut. destruct (Z.eqb_spec (zlen l) 0) as [Hz|Hz].
  { exists st, (inr 0). split; [done|]. split; [lia|]. intros _ j x Hx.
    apply get_Some in Hx as [? Hx]. apply lookup_lt_Some in Hx. unfold zlen in Hz. lia. }
  pose proof (zlen_nonneg l).
  assert (∀ i x, zlen l ≤ i → get l i = Some x → c x = Gt) as Hend.
  { intros i x Hi. by rewrite get_None. }
  destruct (bisect_loop_spec f _ Hf (S (length l)) st 0 (zlen l))
    as (st' & b & -> & Hb & Hl); [lia|lia|lia|unfold zlen; lia|by left|naive_solver|].
  cbn [mbind outcome_bind]. destruct (get_in l b Hb) as (x & Hx & Hlx). rewrite Hx. cbn [expect mbind outcome_bind].
  rewrite Hf by (by eapply list_elem_of_lookup_2). cbn [mbind outcome_bind].
  eexists _, _. split; [done|]. by apply lands_result.
Qed.
Lemma binary_search_with_spec {E} (f : A → outcome E comparison) :
  (∀ x, x ∈ l → f x = Ok (c x)) → ∃ r, binary_search_with l f = Ok r ∧ search_result r.
Proof using.
  intros Hf. unfold binary_search_with.
  destruct (binary_search_mut_spec (λ _ e, c ← f e; Ok (tt, c)) (λ _, tt) tt) as (st & r & -> & Hr & _).
  { intros [] x Hx. rewrite Hf by done. cbn. by destruct (c x). }
  by exists r.
Qed.
Lemma binary_search_spec {E} : ∃ r, binary_search_by (E := E) l c = Ok r ∧ search_result r.
Proof using. by apply binary_search_with_spec. Qed.
End Bisect.

(** [partition_point] of a list that the predicate cuts in two is the length of the first
    part, and always a position. *)
Lemma partition_point_with_spec {A E} (l : list A) (p : A → bool) (f : A → outcome E bool) :
  (∀ x, x ∈ l → f x = Ok (p x)) →
  ∃ n, partition_point_with l f = Ok n ∧ 0 ≤ n ≤ zlen l ∧
    ((∀ i j x y, (i < j)%nat → l !! i = Some x → l !! j = Some y → p y = true → p x = true) →
     ∀ j x, get l j = Some x → p x = (j <? n)).
Proof.
  intros Hf. unfold partition_point_with.
  destruct (binary_search_with_spec l (λ e, if p e then Lt else Gt) (λ e, b ← f e; Ok (if b : bool then Lt else Gt)))
    as (r & -> & Hr).
  { intros x Hx. by rewrite Hf. }
  cbn [mbind outcome_bind]. destruct r as [i|i]; cbn [search_result] in Hr.
  { destruct Hr as (x & _ & Hx). by destruct (p x). }
  destruct Hr as [Hi Hcut]. exists i. split; [done|]. split; [done|]. intros Hp j x Hx.
  specialize (Hcut ltac:(intros i' j' a b Hlt Ha Hb; specialize (Hp i' j' a b Hlt Ha Hb); split;
    destruct (p a), (p b); naive_solver) j x Hx).
  destruct (p x), (j <? i); done.
Qed.
Lemma partition_point_spec {A E} (l : list A) (p : A → bool) :
  ∃ n, partition_point (E := E) l p = Ok n ∧ 0 ≤ n ≤ zlen l ∧
    ((∀ i j x y, (i < j)%nat → l !! i = Some x → l !! j = Some y → p y = true → p x = true) →
     ∀ j x, get l j = Some x → p x = (j <? n)).
Proof. by apply partition_point_with_spec. Qed.
Lemma partition_point_parts {A E} (l : list A) (p : A → bool) n :
  partition_point (E := E) l p = Ok n →
  (∀ i j x y, (i < j)%nat → l !! i = Some x → l !! j = Some y → p y = true → p x = true) →
  Forall (λ x, p x = true) (take (Z.to_nat n) l) ∧ Forall (λ x, p x = false) (drop (Z.to_nat n) l).
Proof.
  intros Hn Hp. destruct (partition_point_spec (E := E) l p) as (n' & Hn' & Hb & Hs).
  rewrite Hn in Hn'. injection Hn' as <-. specialize (Hs Hp).
  split; apply Forall_lookup; intros i x Hx.
  - apply lookup_take_Some in Hx as [Hx Hi]. rewrite (Hs (Z.of_nat i)) by (by rewrite get_nat). apply Z.ltb_lt. lia.
  - rewrite lookup_drop in Hx. rewrite (Hs (Z.of_nat (Z.to_nat n + i))) by (by rewrite get_nat). apply Z.ltb_ge. lia.
Qed.
Lemma sorted_lookup_lt {A} (R : A → A → Prop) l i j x y :
  StronglySorted R l → l !! i = Some x → l !! j = Some y → (i < j)%nat → R x y.
Proof.
  intros Hs. revert i j. induction Hs as [|a l Hs IH Ha]; intros i j Hx Hy Hij; [done|].
  destruct j as [|j]; [lia|]. destruct i as [|i]; [|by apply (IH i j); [..|lia]].
  injection Hx as <-. rewrite list.Forall_forall in Ha. by apply Ha, (list_elem_of_lookup_2 _ j).
Qed.

(** A sorted list is cut by the comparison with any key. *)
Lemma ord_le_lt {A} (cmp : A → A → comparison) `{!OrdLaws cmp} a b c :
  ord_le cmp a b → cmp b c = Lt → cmp a c = Lt.
Proof.
  unfold ord_le. intros Hab Hbc. destruct (cmp a b) eqn:E; [by rewrite (ord_eq _ _ c E)| |done].
  by apply (ord_trans a b c).
Qed.
Lemma sorted_cuts {A B} (cmp : B → B → comparison) `{!OrdLaws cmp} (g : A → B) (l : list A) k :
  StronglySorted (ord_le cmp) (g <$> l) → cuts l (λ x, cmp (g x) k).
Proof.
  intros Hs i j x y Hij Hx Hy.
  assert (ord_le cmp (g x) (g y)) as Hle.
  { eapply (sorted_lookup_lt _ (g <$> l) i j); [done|by rewrite list_lookup_fmap, Hx|by rewrite list_lookup_fmap, Hy|done]. }
  split; [|by apply ord_le_lt]. intros Hg. destruct (cmp (g y) k) eqn:E; [| |done].
  - exfalso. apply Hle. rewrite (ord_eq_r cmp (g x) (g y) k E). done.
  - by rewrite (ord_le_lt cmp (g x) (g y) k Hle E) in Hg.
Qed.
Lemma sorted_lt_le {A} (cmp : A → A → comparison) l :
  StronglySorted (λ a b, cmp a b = Lt) l → StronglySorted (ord_le cmp) l.
Proof.
  induction 1 as [|x l Hs IH Hx]; constructor; [done|]. eapply Forall_impl; [|exact Hx].
  intros y Hy. unfold ord_le. by rewrite Hy.
Qed.

(** ** Lemmas: deduplication *)
Lemma length_dedup_from {A} (same : A → A → bool) last l : (length (dedup_from same last l) ≤ length l)%nat.
Proof.
  revert last. induction l as [|x l IH]; intros last; [done|]. cbn [dedup_from].
  destruct (same last x); cbn [length]; [pose proof (IH last)|pose proof (IH x)]; lia.
Qed.
(** Where nothing was dropped, neighbours differ. *)
Lemma dedup_from_id {A} (same : A → A → bool) last l :
  length (dedup_from same last l) = length l →
  dedup_from same last l = l ∧ ∀ i x y, (last :: l) !! i = Some x → l !! i = Some y → same x y = false.
Proof.
  revert last. induction l as [|z l IH]; intros last; [done|]. cbn [dedup_from].
  destruct (same last z) eqn:Es; cbn [length]; intros Hl.
  - pose proof (length_dedup_from same last l). lia.
  - destruct (IH z) as [H1 H2]; [lia|]. split; [by rewrite H1|]. intros [|i] x y Hx Hy; cbn in *; [congruence|].
    by eapply H2.
Qed.
Lemma ord_lt_le {A} (cmp : A → A → comparison) `{!OrdLaws cmp} a b c :
  cmp a b = Lt → ord_le cmp b c → cmp a c = Lt.
Proof.
  intros Hab Hbc. unfold ord_le in Hbc. destruct (cmp b c) eqn:E; [|by eapply ord_trans|done].
  by rewrite <- (ord_eq_r cmp a b c E).
Qed.
Lemma dedup_strict {A} (cmp : A → A → comparison) `{!OrdLaws cmp} (same : A → A → bool) l :
  (∀ x y, same x y = false → cmp x y ≠ Eq) → StronglySorted (ord_le cmp) l →
  length (dedup_by same l) = length l →
  dedup_by same l = l ∧ StronglySorted (λ x y, cmp x y = Lt) l.
Proof.
  intros Hsame Hs Hl. destruct l as [|x l]; [split; [done|constructor]|]. cbn [dedup_by length] in *.
  destruct (dedup_from_id same x l) as [H1 H2]; [lia|]. split; [by rewrite H1|]. clear H1 Hl.
  revert x Hs H2. induction l as [|y l IH]; intros x Hs H2; [by repeat constructor|].
  apply StronglySorted_inv in Hs as [Hs Hx]. constructor.
  - apply IH; [done|]. intros i a b Ha Hb. by apply (H2 (S i)).
  - assert (cmp x y = Lt) as Hxy.
    { pose proof (Hsame x y (H2 0%nat x y eq_refl eq_refl)). apply list.Forall_cons in Hx as [Hx _].
      unfold ord_le in Hx. by destruct (cmp x y). }
    apply StronglySorted_inv in Hs as [_ Hy]. constructor; [done|]. eapply Forall_impl; [|exact Hy].
    intros z Hz. by eapply ord_lt_le.
Qed.
