(* ===== verification/Btoi.v ===== *)
(** * [gix-utils/src/btoi.rs]: decimal and radix integers from byte slices

    The trait [MinNumTraits] is the class [MinNumTraits] below, with the five
    instances the source declares. The two digit loops are [unsigned_loop] and
    [signed_loop]; [value] is the mathematical number a digit string denotes,
    against which both parsers are specified. *)

From S2P Require Import Prelude.

Inductive ErrorKind :=
| Empty
| InvalidDigit
| Overflow
| Underflow.

(** The integer types a parser can target: their range, with zero in it and
    room for every radix. *)
Class MinNumTraits := {
  MIN : Z;
  MAX : Z;
  MIN_nonpos : MIN ≤ 0;
  MAX_radix : 36 ≤ MAX;
}.

Definition i32 : MinNumTraits := {| MIN := - 2 ^ 31; MAX := 2 ^ 31 - 1;
  MIN_nonpos := ltac:(lia); MAX_radix := ltac:(lia) |}.
Definition i64 : MinNumTraits := {| MIN := - 2 ^ 63; MAX := 2 ^ 63 - 1;
  MIN_nonpos := ltac:(lia); MAX_radix := ltac:(lia) |}.
Definition u64 : MinNumTraits := {| MIN := 0; MAX := 2 ^ 64 - 1;
  MIN_nonpos := ltac:(lia); MAX_radix := ltac:(lia) |}.
Definition u8 : MinNumTraits := {| MIN := 0; MAX := 2 ^ 8 - 1;
  MIN_nonpos := ltac:(lia); MAX_radix := ltac:(lia) |}.
Definition usize : MinNumTraits := {| MIN := 0; MAX := 2 ^ 64 - 1;
  MIN_nonpos := ltac:(lia); MAX_radix := ltac:(lia) |}.

(** [char::to_digit] on the Latin-1 character of a byte. *)
Definition to_digit (b radix : Z) : option Z :=
  let d :=
    if (48 <=? b) && (b <=? 57) then Some (b - 48)
    else if (97 <=? b) && (b <=? 122) then Some (b - 97 + 10)
    else if (65 <=? b) && (b <=? 90) then Some (b - 65 + 10)
    else None in
  match d with
  | Some d => if d <? radix then Some d else None
  | None => None
  end.

Section Parse.
Context (I : MinNumTraits).

Definition fits (x : Z) : bool := (MIN <=? x) && (x <=? MAX).
Definition checked_int (x : Z) : option Z := if fits x then Some x else None.
Definition from_u32 (n : Z) : option Z := checked_int n.

Fixpoint unsigned_loop (base radix : Z) (digits : bytes) (result : Z)
    : outcome ErrorKind Z :=
  match digits with
  | [] => Ok result
  | digit :: rest =>
      x ← ok_or InvalidDigit (to_digit digit radix ≫= from_u32);
      result ← ok_or Overflow (checked_int (result * base));
      result ← ok_or Overflow (checked_int (result + x));
      unsigned_loop base radix rest result
  end.

Definition to_unsigned_with_radix (input : bytes) (radix : Z) : outcome ErrorKind Z :=
  _ ← assert_that ((2 <=? radix) && (radix <=? 36));
  base ← expect (from_u32 radix);
  match input with
  | [] => Err Empty
  | _ => unsigned_loop base radix input 0
  end.

Fixpoint signed_loop (base radix : Z) (digits : bytes) (result : Z)
    : outcome ErrorKind Z :=
  match digits with
  | [] => Ok result
  | digit :: rest =>
      x ← ok_or InvalidDigit (to_digit digit radix ≫= from_u32);
      result ← ok_or Underflow (checked_int (result * base));
      result ← ok_or Underflow (checked_int (result - x));
      signed_loop base radix rest result
  end.

Definition to_signed_with_radix (input : bytes) (radix : Z) : outcome ErrorKind Z :=
  _ ← assert_that ((2 <=? radix) && (radix <=? 36));
  base ← expect (from_u32 radix);
  match input with
  | [] => Err Empty
  | c :: rest =>
      if c =? 43 then to_unsigned_with_radix rest radix
      else if c =? 45 then
        match rest with
        | [] => Err Empty
        | _ => signed_loop base radix rest 0
        end
      else to_unsigned_with_radix input radix
  end.

Definition to_unsigned (input : bytes) : outcome ErrorKind Z :=
  to_unsigned_with_radix input 10.
Definition to_signed (input : bytes) : outcome ErrorKind Z :=
  to_signed_with_radix input 10.
End Parse.

(** ** Specification: the number a digit string denotes *)
Fixpoint value_from (radix acc : Z) (digits : bytes) : option Z :=
  match digits with
  | [] => Some acc
  | b :: rest => d ← to_digit b radix; value_from radix (acc * radix + d) rest
  end.
Definition value (radix : Z) (digits : bytes) : option Z :=
  match digits with [] => None | _ => value_from radix 0 digits end.

(** What the signed parser means by its input: an optional sign, then digits. *)
Definition signed_value (radix : Z) (input : bytes) : option Z :=
  match input with
  | [] => None
  | c :: rest =>
      if c =? 43 then value radix rest
      else if c =? 45 then Z.opp <$> value radix rest
      else value radix input
  end.

(** ** Lemmas *)
Lemma to_digit_bound b radix d : to_digit b radix = Some d → 0 ≤ d < radix.
Proof. unfold to_digit. intros H. zb; simplify_eq; lia. Qed.

Lemma value_from_mono radix acc digits v :
  2 ≤ radix → 0 ≤ acc → value_from radix acc digits = Some v → acc ≤ v.
Proof.
  intros Hr. revert acc. induction digits as [|b rest IH]; simpl; intros acc Ha H.
  - simplify_eq. lia.
  - inv_bind. apply to_digit_bound in E. apply IH in H; nia.
Qed.

Section ParseLemmas.
Context {I : MinNumTraits}.
Implicit Types (radix acc v : Z) (digits input : bytes).

Lemma fits_spec x : fits I x = true ↔ MIN ≤ x ≤ MAX.
Proof. unfold fits. rewrite andb_true_iff, !Z.leb_le. tauto. Qed.

Lemma checked_int_Some x y : checked_int I x = Some y ↔ x = y ∧ MIN ≤ x ≤ MAX.
Proof.
  unfold checked_int. destruct (fits I x) eqn:E.
  - apply fits_spec in E. naive_solver.
  - split; [done|]. intros [-> H]. apply fits_spec in H. congruence.
Qed.

Lemma checked_int_in x : MIN ≤ x ≤ MAX → checked_int I x = Some x.
Proof. intros. by apply checked_int_Some. Qed.

Lemma from_u32_digit b radix d :
  radix ≤ 36 → to_digit b radix = Some d → from_u32 I d = Some d.
Proof.
  intros ? Hd%to_digit_bound. apply checked_int_in.
  pose proof (@MIN_nonpos I). pose proof (@MAX_radix I). lia.
Qed.

(** The unsigned loop accepts exactly the digit strings whose value fits. *)
Lemma unsigned_loop_spec radix acc digits v :
  2 ≤ radix ≤ 36 → 0 ≤ acc ≤ MAX →
  unsigned_loop I radix radix digits acc = Ok v ↔
  value_from radix acc digits = Some v ∧ v ≤ MAX.
Proof.
  intros Hr. pose proof (@MIN_nonpos I).
  revert acc. induction digits as [|b rest IH]; simpl; intros acc Ha.
  { split; [intros [= <-]; split; [done|lia]|naive_solver]. }
  destruct (to_digit b radix) as [d|] eqn:Hd; simpl; [|naive_solver].
  rewrite (from_u32_digit b radix d) by (done || lia). simpl.
  pose proof (to_digit_bound _ _ _ Hd) as Hb.
  assert (0 ≤ acc * radix) by nia.
  destruct (decide (acc * radix + d ≤ MAX)) as [Hle|Hgt].
  - rewrite !checked_int_in by lia. simpl.
    rewrite checked_int_in by lia. simpl. apply IH. lia.
  - split; intros Hx.
    + inv_bind. apply checked_int_Some in E as [<- ?].
      apply checked_int_Some in E0 as [<- ?]. lia.
    + destruct Hx as [Hx Hv]. apply value_from_mono in Hx; lia.
Qed.

(** The negative loop computes the opposite of the value, down to [MIN]. *)
Lemma signed_loop_spec radix acc digits v :
  2 ≤ radix ≤ 36 → 0 ≤ acc ≤ - MIN →
  signed_loop I radix radix digits (- acc) = Ok v ↔
  value_from radix acc digits = Some (- v) ∧ MIN ≤ v.
Proof.
  intros Hr. pose proof (@MAX_radix I).
  revert acc. induction digits as [|b rest IH]; simpl; intros acc Ha.
  { split; [intros [= <-]|intros [[= ->] ?]]; (split || f_equal); try f_equal; lia. }
  destruct (to_digit b radix) as [d|] eqn:Hd; simpl; [|naive_solver].
  rewrite (from_u32_digit b radix d) by (done || lia). simpl.
  pose proof (to_digit_bound _ _ _ Hd) as Hb.
  assert (0 ≤ acc * radix) by nia.
  rewrite Z.mul_opp_l.
  destruct (decide (acc * radix + d ≤ - MIN)) as [Hle|Hgt].
  - rewrite checked_int_in by lia. simpl.
    rewrite checked_int_in by lia. simpl.
    replace (- (acc * radix) - d) with (- (acc * radix + d)) by lia.
    apply IH. lia.
  - split; intros Hx.
    + inv_bind. apply checked_int_Some in E as [<- ?].
      apply checked_int_Some in E0 as [<- ?]. lia.
    + destruct Hx as [Hx Hv]. apply value_from_mono in Hx; lia.
Qed.

Lemma assert_radix radix :
  2 ≤ radix ≤ 36 → assert_that (E := ErrorKind) ((2 <=? radix) && (radix <=? 36)) = Ok tt.
Proof. intros. unfold assert_that. zb; done || lia. Qed.

Lemma from_u32_radix radix : 2 ≤ radix ≤ 36 → from_u32 I radix = Some radix.
Proof.
  intros. apply checked_int_in. pose proof (@MIN_nonpos I).
  pose proof (@MAX_radix I). lia.
Qed.

Lemma to_unsigned_with_radix_spec input radix v :
  2 ≤ radix ≤ 36 →
  to_unsigned_with_radix I input radix = Ok v ↔ value radix input = Some v ∧ v ≤ MAX.
Proof.
  intros Hr. unfold to_unsigned_with_radix, value.
  rewrite assert_radix, from_u32_radix by done. simpl.
  destruct input as [|b rest]; [naive_solver|].
  apply (unsigned_loop_spec _ _ (b :: rest)); [done|].
  pose proof (@MAX_radix I). lia.
Qed.

Lemma value_nonneg input radix v : 2 ≤ radix → value radix input = Some v → 0 ≤ v.
Proof.
  intros ? H. unfold value in H. destruct input; [done|].
  apply value_from_mono in H; lia.
Qed.

Lemma to_unsigned_range input radix v :
  2 ≤ radix ≤ 36 →
  to_unsigned_with_radix I input radix = Ok v ↔
  value radix input = Some v ∧ MIN ≤ v ≤ MAX.
Proof.
  intros Hr. rewrite to_unsigned_with_radix_spec by done.
  pose proof (@MIN_nonpos I). split; intros [Hv ?]; (split; [done|]).
  - apply value_nonneg in Hv; lia.
  - lia.
Qed.

Lemma signed_value_neg b rest radix v :
  2 ≤ radix ≤ 36 →
  value_from radix 0 (b :: rest) = Some (- v) ∧ MIN ≤ v ↔
  Z.opp <$> value radix (b :: rest) = Some v ∧ MIN ≤ v ≤ MAX.
Proof.
  intros Hr. unfold value. pose proof (@MAX_radix I).
  destruct (value_from radix 0 (b :: rest)) as [w|] eqn:E; [|naive_solver].
  apply value_from_mono in E; [|lia|lia]. simpl.
  split; intros [[= Hv] ?]; (split; [f_equal|]); lia.
Qed.

(** No input makes a parser panic once the radix is in range. *)
Lemma unsigned_loop_no_panic base radix digits acc :
  unsigned_loop I base radix digits acc ≠ Panic.
Proof.
  revert acc. induction digits as [|b rest IH]; intros acc; simpl; [done|].
  destruct (to_digit b radix ≫= from_u32 I); simpl; [|done].
  destruct (checked_int I (acc * base)); simpl; [|done].
  destruct (checked_int I _); simpl; [apply IH|done].
Qed.

Lemma signed_loop_no_panic base radix digits acc :
  signed_loop I base radix digits acc ≠ Panic.
Proof.
  revert acc. induction digits as [|b rest IH]; intros acc; simpl; [done|].
  destruct (to_digit b radix ≫= from_u32 I); simpl; [|done].
  destruct (checked_int I (acc * base)); simpl; [|done].
  destruct (checked_int I _); simpl; [apply IH|done].
Qed.

Lemma to_unsigned_no_panic input radix :
  2 ≤ radix ≤ 36 → to_unsigned_with_radix I input radix ≠ Panic.
Proof.
  intros Hr. unfold to_unsigned_with_radix.
  rewrite assert_radix, from_u32_radix by done. simpl.
  destruct input; [done|]. apply unsigned_loop_no_panic.
Qed.
End ParseLemmas.

(** For every target type and radix the signed parser succeeds exactly when
    its input is an optional sign followed by at least one digit and the denoted
    number lies in the target type's range, and then returns that number; in
    every other case it returns an error, never a panic. *)
Theorem to_signed_with_radix_exact (I : MinNumTraits) (input : bytes) (radix : Z)
    (Hradix : 2 ≤ radix ≤ 36) :
  (∀ v, to_signed_with_radix I input radix = Ok v ↔
        signed_value radix input = Some v ∧ MIN ≤ v ≤ MAX) ∧
  to_signed_with_radix I input radix ≠ Panic.
Proof.
  unfold to_signed_with_radix, signed_value.
  rewrite assert_radix, from_u32_radix by done. simpl.
  destruct input as [|c rest]; [split; naive_solver|].
  destruct (c =? 43); [|destruct (c =? 45)].
  - split; [intros v; apply to_unsigned_range|apply to_unsigned_no_panic]; done.
  - destruct rest as [|b rest]; [split; naive_solver|].
    split; [|apply signed_loop_no_panic]. intros v.
    rewrite (signed_loop_spec _ 0) by (try done; pose proof (@MIN_nonpos I); lia).
    by apply signed_value_neg.
  - split; [intros v; apply to_unsigned_range|apply to_unsigned_no_panic]; done.
Qed.

(** At [u8] in base ten: [+255] is in range, [256] and [-1] are not. *)
Lemma to_signed_with_radix_exact_witness :
  to_signed_with_radix u8 [43; 50; 53; 53] 10 = Ok 255 ∧
  ¬ (∃ v, to_signed_with_radix u8 [45; 49] 10 = Ok v) ∧
  to_signed_with_radix u8 [50; 53; 54] 10 ≠ Panic.
Proof.
  destruct (to_signed_with_radix_exact u8 [43; 50; 53; 53] 10 ltac:(lia)) as [H1 _].
  destruct (to_signed_with_radix_exact u8 [45; 49] 10 ltac:(lia)) as [H2 _].
  destruct (to_signed_with_radix_exact u8 [50; 53; 54] 10 ltac:(lia)) as [_ H3].
  split; [apply H1; split; [reflexivity|simpl; lia]|]. split; [|exact H3].
  intros [v Hv]. apply H2 in Hv as [[= <-] Hle]. simpl in Hle. lia.
Defined.
