(* ===== verification/Hash.v ===== *)
(** * [gix-hash]: object ids, their hexadecimal forms and abbreviated prefixes

    [Kind], [ObjectId] and [Prefix] are the types of [lib.rs] and
    [object_id.rs], with both hash features enabled. A borrowed [oid] is its
    byte slice. The [faster_hex] crate is the interface [FasterHex], a pair of
    operations with their documented behaviour as laws; every definition that
    calls it takes the interface as an argument, and [faster_hex_model] shows
    that the laws can be met. Strings are their UTF-8 bytes.

    An id is best understood as its sequence of hexadecimal digits: [nibbles]. *)

From S2P Require Import Prelude.

(** ** Kinds *)
Inductive Kind := Sha1 | Sha256.
#[export] Instance Kind_eq_dec : EqDecision Kind.
Proof. solve_decision. Defined.

Definition SIZE_OF_SHA1_DIGEST : Z := 20.
Definition SIZE_OF_SHA1_HEX_DIGEST : Z := 2 * SIZE_OF_SHA1_DIGEST.
Definition SIZE_OF_SHA256_DIGEST : Z := 32.
Definition SIZE_OF_SHA256_HEX_DIGEST : Z := 2 * SIZE_OF_SHA256_DIGEST.

Definition longest : Kind := Sha256.
Definition shortest : Kind := Sha1.
(** [TryFrom<u8> for Kind]; [None] is the error with the unknown value. *)
Definition kind_try_from (value : Z) : option Kind :=
  if value =? 1 then Some Sha1 else if value =? 2 then Some Sha256 else None.
Definition len_in_hex (k : Kind) : Z :=
  match k with
  | Sha1 => SIZE_OF_SHA1_HEX_DIGEST
  | Sha256 => SIZE_OF_SHA256_HEX_DIGEST
  end.
Definition len_in_bytes (k : Kind) : Z :=
  match k with
  | Sha1 => SIZE_OF_SHA1_DIGEST
  | Sha256 => SIZE_OF_SHA256_DIGEST
  end.
Definition from_hex_len (hex_len : Z) : option Kind :=
  if (0 <=? hex_len) && (hex_len <=? SIZE_OF_SHA1_HEX_DIGEST) then Some Sha1
  else if (0 <=? hex_len) && (hex_len <=? SIZE_OF_SHA256_HEX_DIGEST) then Some Sha256
  else None.
Definition from_len_in_bytes {E} (n : Z) : outcome E Kind :=
  if n =? SIZE_OF_SHA1_DIGEST then Ok Sha1
  else if n =? SIZE_OF_SHA256_DIGEST then Ok Sha256
  else Panic.

(** ** Errors *)
Inductive hash_error :=
| InvalidDigestLength (len : Z)
| InvalidHexLength (len : Z)
| InvalidCharacter
| PrefixTooLong (requested : Z)
| PrefixTooShort (requested : Z).

(** ** Object ids *)
Inductive ObjectId :=
| OidSha1 (digest : bytes)
| OidSha256 (digest : bytes).
#[export] Instance ObjectId_eq_dec : EqDecision ObjectId.
Proof. solve_decision. Defined.

Definition kind (id : ObjectId) : Kind :=
  match id with OidSha1 _ => Sha1 | OidSha256 _ => Sha256 end.
Definition as_slice (id : ObjectId) : bytes :=
  match id with OidSha1 b => b | OidSha256 b => b end.
(** [as_mut_slice()] followed by an assignment of the whole buffer. *)
Definition with_slice (id : ObjectId) (b : bytes) : ObjectId :=
  match id with OidSha1 _ => OidSha1 b | OidSha256 _ => OidSha256 b end.
Definition null (k : Kind) : ObjectId :=
  match k with
  | Sha1 => OidSha1 (replicate 20 0)
  | Sha256 => OidSha256 (replicate 32 0)
  end.
Definition is_null (id : ObjectId) : bool := bytes_eqb (as_slice id) (as_slice (null (kind id))).
(** [TryFrom<&[u8]>], by [oid::try_from_bytes()]. *)
Definition try_from_bytes (digest : bytes) : outcome hash_error ObjectId :=
  if zlen digest =? SIZE_OF_SHA1_DIGEST then Ok (OidSha1 digest)
  else if zlen digest =? SIZE_OF_SHA256_DIGEST then Ok (OidSha256 digest)
  else Err (InvalidDigestLength (zlen digest)).
Definition from_bytes_or_panic {E} (b : bytes) : outcome E ObjectId :=
  if zlen b =? SIZE_OF_SHA1_DIGEST then Ok (OidSha1 b)
  else if zlen b =? SIZE_OF_SHA256_DIGEST then Ok (OidSha256 b)
  else Panic.
Definition first_byte {E} (id : bytes) : outcome E Z := expect (get id 0).

(** The array in the payload has the size its constructor promises. *)
Definition oid_ok (id : ObjectId) : Prop :=
  zlen (as_slice id) = len_in_bytes (kind id) ∧ bytes_ok (as_slice id).
#[export] Instance oid_ok_dec id : Decision (oid_ok id).
Proof. unfold oid_ok. apply _. Defined.

(** ** Hexadecimal digits *)
Definition hex_digit (n : Z) : Z := if n <? 10 then 48 + n else 87 + n.
Definition hex_val (c : Z) : option Z :=
  if (48 <=? c) && (c <=? 57) then Some (c - 48)
  else if (97 <=? c) && (c <=? 102) then Some (c - 87)
  else if (65 <=? c) && (c <=? 70) then Some (c - 55)
  else None.
Fixpoint nibbles (l : bytes) : list Z :=
  match l with [] => [] | b :: l => b / 16 :: b mod 16 :: nibbles l end.
Fixpoint from_nibbles (l : list Z) : bytes :=
  match l with
  | hi :: lo :: l => hi * 16 + lo :: from_nibbles l
  | _ => []
  end.

(** The [faster_hex] crate, for a source of even length and a destination of
    half or twice its size, which is how it is called here: encoding writes two
    lower-case digits per byte; decoding accepts both cases and fails with
    [InvalidChar] when some character is not a hexadecimal digit. *)
Class FasterHex := {
  hex_encode : bytes → bytes;
  hex_decode : bytes → option bytes;
  hex_encode_law l : bytes_ok l → hex_encode l = hex_digit <$> nibbles l;
  hex_decode_law l : Nat.Even (length l) → hex_decode l = from_nibbles <$> mapM hex_val l;
}.

#[export] Instance faster_hex_model : FasterHex := {|
  hex_encode l := hex_digit <$> nibbles l;
  hex_decode l := from_nibbles <$> mapM hex_val l;
  hex_encode_law _ _ := eq_refl;
  hex_decode_law _ _ := eq_refl;
|}.

(** ** Reverse hex, [change_id.rs] *)
Definition reverse_hex_nibble (src : Z) : option Z :=
  if (107 <=? src) && (src <=? 122) then Some (122 - src)
  else if (75 <=? src) && (src <=? 90) then Some (90 - src)
  else None.
Definition reverse_hex_to_hex (reverse_hex : bytes) : option bytes :=
  mapM (λ src, hex_digit <$> reverse_hex_nibble src) reverse_hex.
Definition REVERSE_HEX : bytes :=
  [122; 121; 120; 119; 118; 117; 116; 115; 114; 113; 112; 111; 110; 109; 108; 107].
Fixpoint encode_reverse_hex {E} (id : bytes) : outcome E bytes :=
  match id with
  | [] => Ok []
  | b :: rest =>
      hi ← expect (get REVERSE_HEX (Z.shiftr b 4));
      lo ← expect (get REVERSE_HEX (Z.land b 15));
      tail ← encode_reverse_hex rest;
      Ok (hi :: lo :: tail)
  end.

(** ** Prefixes *)
Record Prefix := { prefix_bytes : ObjectId; hex_len : Z }.

Definition MIN_HEX_LEN : Z := 4.
Definition div_ceil2 (n : Z) : Z := (n + 1) / 2.

(** [dst[..n].copy_from_slice(src)] for [n = src.len()]. *)
Definition copy_prefix {E} (dst src : bytes) : outcome E bytes :=
  if zlen src <=? zlen dst then Ok (src ++ drop (length src) dst) else Panic.

(** [Prefix::new]. *)
Definition prefix_new (id : ObjectId) (hex_len : Z) : outcome hash_error Prefix :=
  if hex_len >? len_in_hex (kind id) then Err (PrefixTooLong hex_len)
  else if hex_len <? MIN_HEX_LEN then Err (PrefixTooShort hex_len)
  else
    let copy_len := div_ceil2 hex_len in
    src ← expect (get_range (as_slice id) 0 copy_len);
    b ← copy_prefix (as_slice (null (kind id))) src;
    b ← (if hex_len mod 2 =? 1
         then x ← expect (get b (hex_len / 2));
              Ok (<[Z.to_nat (hex_len / 2) := Z.land x 240]> b)
         else Ok b);
    Ok {| prefix_bytes := with_slice (null (kind id)) b; hex_len := hex_len |}.

(** [Prefix::cmp_oid]: both operands of [then] are evaluated. *)
Definition cmp_oid {E} (p : Prefix) (candidate : bytes) : outcome E comparison :=
  let common_len := hex_len p / 2 in
  a ← expect (get_range (as_slice (prefix_bytes p)) 0 common_len);
  b ← expect (get_range candidate 0 common_len);
  second ← (if hex_len p mod 2 =? 1
            then let half_byte_idx := hex_len p / 2 in
                 x ← expect (get (as_slice (prefix_bytes p)) half_byte_idx);
                 y ← expect (get candidate half_byte_idx);
                 Ok (x ?= Z.land y 240)
            else Ok Eq);
  Ok (match bytes_cmp a b with Eq => second | c => c end).

(** [oid::to_prefix]. *)
Definition to_prefix {E} (id : ObjectId) (start finish : Z) : outcome E Prefix :=
  selected ← expect (get_range (as_slice id) start finish);
  b ← copy_prefix (as_slice (null (kind id))) selected;
  Ok {| prefix_bytes := with_slice (null (kind id)) b; hex_len := zlen selected * 2 |}.

Section Hex.
Context {FH : FasterHex}.

(** [oid::hex_to_buf], and [HexDisplay]: the text truncated to [len]. *)
Definition to_hex (id : ObjectId) : bytes := hex_encode (as_slice id).
Definition to_hex_with_len (id : ObjectId) (len : Z) : bytes :=
  take (Z.to_nat (Z.min len (zlen (to_hex id)))) (to_hex id).

(** [ObjectId::from_hex]. *)
Definition from_hex (buffer : bytes) : outcome hash_error ObjectId :=
  if zlen buffer =? SIZE_OF_SHA1_HEX_DIGEST
  then OidSha1 <$> ok_or InvalidCharacter (hex_decode buffer)
  else if zlen buffer =? SIZE_OF_SHA256_HEX_DIGEST
  then OidSha256 <$> ok_or InvalidCharacter (hex_decode buffer)
  else Err (InvalidHexLength (zlen buffer)).

(** [ChangeId::from_reverse_hex], with the wrapper around the id left out. *)
Definition change_id_from_reverse_hex (buffer : bytes) : outcome hash_error ObjectId :=
  let len := zlen buffer in
  match from_hex_len len with
  | Some k =>
      if len_in_hex k =? len
      then hex ← ok_or InvalidCharacter (reverse_hex_to_hex buffer); from_hex hex
      else Err (InvalidHexLength len)
  | None => Err (InvalidHexLength len)
  end.

(** [Prefix::from_hex_nonempty]: an odd digit count is completed by a zero. *)
Definition prefix_from_hex_nonempty (value : bytes) : outcome hash_error Prefix :=
  let hex_len := zlen value in
  if hex_len >? len_in_hex longest then Err (PrefixTooLong hex_len)
  else if hex_len =? 0 then Err (PrefixTooShort hex_len)
  else
    k ← expect (from_hex_len hex_len);
    decoded ← ok_or InvalidCharacter
      (if hex_len mod 2 =? 0 then hex_decode value else hex_decode (value ++ [48]));
    b ← copy_prefix (as_slice (null k)) decoded;
    Ok {| prefix_bytes := with_slice (null k) b; hex_len := hex_len |}.

Definition prefix_from_hex (value : bytes) : outcome hash_error Prefix :=
  if zlen value <? MIN_HEX_LEN then Err (PrefixTooShort (zlen value))
  else prefix_from_hex_nonempty value.

Definition prefix_from_reverse_hex_nonempty (value : bytes) : outcome hash_error Prefix :=
  let hex_len := zlen value in
  if hex_len >? len_in_hex longest then Err (PrefixTooLong hex_len)
  else if hex_len =? 0 then Err (PrefixTooShort hex_len)
  else
    hex ← ok_or InvalidCharacter (reverse_hex_to_hex value);
    prefix_from_hex_nonempty hex.

Definition prefix_from_reverse_hex (value : bytes) : outcome hash_error Prefix :=
  if zlen value <? MIN_HEX_LEN then Err (PrefixTooShort (zlen value))
  else prefix_from_reverse_hex_nonempty value.

(** [Prefix::hex_to_buf]: whole bytes first, then the high half of the next. *)
Definition prefix_hex_to_buf {E} (p : Prefix) : outcome E bytes :=
  let complete_bytes := hex_len p / 2 in
  whole ← (if complete_bytes =? 0 then Ok []
           else src ← expect (get_range (as_slice (prefix_bytes p)) 0 complete_bytes);
                Ok (hex_encode src));
  if hex_len p mod 2 =? 1
  then x ← expect (get (as_slice (prefix_bytes p)) complete_bytes);
       Ok (whole ++ [hex_digit (Z.shiftr x 4)])
  else Ok whole.
End Hex.

(** ** Lemmas: hexadecimal digits *)
Definition is_nibble (n : Z) : Prop := 0 ≤ n < 16.

Lemma nibbles_app a b : nibbles (a ++ b) = nibbles a ++ nibbles b.
Proof. induction a; simpl; congruence. Qed.

Lemma length_nibbles l : length (nibbles l) = (2 * length l)%nat.
Proof. induction l; simpl; lia. Qed.

Lemma nibbles_take k l : take (2 * k) (nibbles l) = nibbles (take k l).
Proof.
  revert k. induction l as [|b l IH]; intros [|k]; try done.
  replace (2 * S k)%nat with (S (S (2 * k))) by lia.
  cbn [nibbles]. rewrite !firstn_cons, IH. done.
Qed.

Lemma nibbles_take_odd k l x :
  l !! k = Some x → take (2 * k + 1) (nibbles l) = nibbles (take k l) ++ [x / 16].
Proof.
  revert k. induction l as [|b l IH]; intros [|k] H; try done.
  - by injection H as ->.
  - replace (2 * S k + 1)%nat with (S (S (2 * k + 1))) by lia.
    cbn [nibbles]. rewrite !firstn_cons. rewrite (IH k) by done. done.
Qed.

Lemma nibbles_ok l : bytes_ok l → Forall is_nibble (nibbles l).
Proof.
  induction l as [|b l IH]; simpl; [constructor|].
  intros [Hb Hl]%bytes_ok_cons. unfold is_byte in Hb. unfold is_nibble.
  repeat constructor; auto; try (apply Z.mod_pos_bound; lia).
  - apply Z.div_pos; lia.
  - apply Z.div_lt_upper_bound; lia.
Qed.

Lemma from_nibbles_nibbles l : from_nibbles (nibbles l) = l.
Proof.
  induction l as [|b l IH]; simpl; [done|]. rewrite IH. f_equal.
  pose proof (Z.div_mod b 16). lia.
Qed.

Lemma nibbles_from_nibbles l :
  Nat.Even (length l) → Forall is_nibble l → nibbles (from_nibbles l) = l.
Proof.
  intros [k Hk] Hl. revert l Hk Hl. induction k as [|k IH]; intros l Hk Hl.
  - destruct l; [done|simpl in Hk; lia].
  - destruct l as [|hi [|lo l]]; simpl in Hk; try lia.
    apply Forall_cons_iff in Hl as [Hhi Hl]. apply Forall_cons_iff in Hl as [Hlo Hl].
    unfold is_nibble in *. simpl. rewrite IH by (auto; lia).
    rewrite Z.div_add_l, (Z.div_small lo), Z.add_0_r by lia.
    rewrite (Z.add_comm (hi * 16)), Z.mod_add, Z.mod_small by lia. done.
Qed.

Lemma nibble_cmp x y : x ?= y = match x / 16 ?= y / 16 with
                                | Eq => x mod 16 ?= y mod 16 | c => c end.
Proof.
  pose proof (Z.div_mod x 16). pose proof (Z.div_mod y 16).
  pose proof (Z.mod_pos_bound x 16). pose proof (Z.mod_pos_bound y 16).
  destruct (Z.compare_spec (x / 16) (y / 16)).
  - destruct (Z.compare_spec (x mod 16) (y mod 16));
      [apply Z.compare_eq_iff|apply Z.compare_lt_iff|apply Z.compare_gt_iff]; lia.
  - apply Z.compare_lt_iff. lia.
  - apply Z.compare_gt_iff. lia.
Qed.

(** Comparing ids byte by byte is comparing them digit by digit. *)
Lemma bytes_cmp_nibbles a b : bytes_cmp (nibbles a) (nibbles b) = bytes_cmp a b.
Proof.
  revert b. induction a as [|x a IH]; intros [|y b]; simpl; try done.
  rewrite (nibble_cmp x y), IH.
  destruct (x / 16 ?= y / 16), (x mod 16 ?= y mod 16); done.
Qed.

Lemma bytes_cmp_take k a b :
  length a = length b →
  bytes_cmp a b = match bytes_cmp (take k a) (take k b) with
                  | Eq => bytes_cmp (drop k a) (drop k b) | c => c end.
Proof.
  intros H. rewrite <- (take_drop k a), <- (take_drop k b) at 1.
  apply bytes_cmp_app. rewrite !length_take. lia.
Qed.

Lemma hex_val_digit n : is_nibble n → hex_val (hex_digit n) = Some n.
Proof. unfold is_nibble, hex_val, hex_digit. intros. zb; try lia; f_equal; lia. Qed.

Lemma mapM_hex_val l : Forall is_nibble l → mapM hex_val (hex_digit <$> l) = Some l.
Proof.
  induction 1 as [|n l Hn Hl IH]; [done|]. rewrite fmap_cons. cbn [mapM].
  rewrite hex_val_digit by done. cbn. rewrite IH. done.
Qed.

Section HexLemmas.
Context {FH : FasterHex}.

Lemma hex_decode_digits l :
  Nat.Even (length l) → Forall is_nibble l →
  hex_decode (hex_digit <$> l) = Some (from_nibbles l).
Proof.
  intros He Hl. rewrite hex_decode_law by (by rewrite length_fmap).
  by rewrite mapM_hex_val.
Qed.

Lemma hex_decode_encode l : bytes_ok l → hex_decode (hex_encode l) = Some l.
Proof.
  intros Hl. rewrite hex_encode_law, hex_decode_digits by
    (auto using nibbles_ok; rewrite length_nibbles; exists (length l); lia).
  by rewrite from_nibbles_nibbles.
Qed.

Lemma length_hex_encode l : bytes_ok l → zlen (hex_encode l) = 2 * zlen l.
Proof.
  intros. unfold zlen. rewrite hex_encode_law, length_fmap, length_nibbles by done. lia.
Qed.
End HexLemmas.

(** ** Lemmas: prefixes *)

(** A prefix as the constructors build it: a valid id whose digits beyond
    [hex_len] are zero. *)
Definition prefix_ok (p : Prefix) : Prop :=
  oid_ok (prefix_bytes p) ∧ 0 ≤ hex_len p ≤ len_in_hex (kind (prefix_bytes p)) ∧
  Forall (λ n, n = 0) (drop (Z.to_nat (hex_len p)) (nibbles (as_slice (prefix_bytes p)))).

(** The digits a prefix stands for. *)
Definition prefix_digits (p : Prefix) : list Z :=
  take (Z.to_nat (hex_len p)) (nibbles (as_slice (prefix_bytes p))).

Lemma half_split n : 0 ≤ n → n = 2 * (n / 2) + n mod 2 ∧ 0 ≤ n / 2 ∧ 0 ≤ n mod 2 < 2.
Proof.
  intros. pose proof (Z.div_mod n 2). pose proof (Z.mod_pos_bound n 2).
  pose proof (Z.div_pos n 2). lia.
Qed.

Lemma digits_even n l :
  0 ≤ n → n mod 2 ≠ 1 → take (Z.to_nat n) (nibbles l) = nibbles (take (Z.to_nat (n / 2)) l).
Proof.
  intros Hn Hm. pose proof (half_split n Hn).
  replace (Z.to_nat n) with (2 * Z.to_nat (n / 2))%nat by lia. apply nibbles_take.
Qed.

Lemma digits_odd n l x :
  0 ≤ n → n mod 2 = 1 → l !! Z.to_nat (n / 2) = Some x →
  take (Z.to_nat n) (nibbles l) = nibbles (take (Z.to_nat (n / 2)) l) ++ [x / 16].
Proof.
  intros Hn Hm Hx. pose proof (half_split n Hn).
  replace (Z.to_nat n) with (2 * Z.to_nat (n / 2) + 1)%nat by lia.
  by apply nibbles_take_odd.
Qed.

Lemma get_range_0 {A} (l : list A) n :
  0 ≤ n ≤ zlen l → get_range l 0 n = Some (take (Z.to_nat n) l).
Proof. intros. unfold get_range. rewrite Z.sub_0_r, drop_0. zb; done || lia. Qed.

Lemma nibbles_lookup_low l k x :
  l !! k = Some x → nibbles l !! (2 * k + 1)%nat = Some (x mod 16).
Proof.
  revert k. induction l as [|b l IH]; intros [|k] H; try done.
  - by injection H as ->.
  - replace (2 * S k + 1)%nat with (S (S (2 * k + 1))) by lia. by apply IH.
Qed.

Lemma prefix_half_zero p x :
  prefix_ok p → hex_len p mod 2 = 1 →
  as_slice (prefix_bytes p) !! Z.to_nat (hex_len p / 2) = Some x → x = x / 16 * 16.
Proof.
  intros (_ & Hlen & Hz) Hodd Hx. pose proof (half_split (hex_len p) ltac:(lia)).
  apply nibbles_lookup_low in Hx. rewrite Forall_lookup in Hz.
  assert (x mod 16 = 0) as Hm.
  { apply (Hz 0%nat). rewrite lookup_drop, <- Hx. f_equal. lia. }
  pose proof (Z.div_mod x 16). lia.
Qed.

(** [cmp_oid] is the lexicographic comparison of the prefix with the digits of
    the candidate it covers. *)
Lemma cmp_oid_spec {E} p candidate :
  prefix_ok p → bytes_ok candidate → hex_len p ≤ 2 * zlen candidate →
  cmp_oid (E := E) p candidate =
  Ok (bytes_cmp (prefix_digits p) (take (Z.to_nat (hex_len p)) (nibbles candidate))).
Proof.
  intros Hp Hc Hlen. pose proof Hp as ([Hl Hb] & Hn & _).
  pose proof (half_split (hex_len p) ltac:(lia)) as Hh.
  assert (len_in_hex (kind (prefix_bytes p)) = 2 * zlen (as_slice (prefix_bytes p))) as Hk.
  { rewrite Hl. by destruct (kind _). }
  unfold cmp_oid, prefix_digits. rewrite !get_range_0 by lia. simpl.
  destruct (Z.eqb_spec (hex_len p mod 2) 1) as [Ho|Ho].
  - destruct (get_in (as_slice (prefix_bytes p)) (hex_len p / 2)) as (x & -> & Hx); [lia|].
    destruct (get_in candidate (hex_len p / 2)) as (y & -> & Hy); [lia|]. simpl.
    rewrite (digits_odd _ _ x), (digits_odd _ _ y) by (done || lia).
    rewrite bytes_cmp_app by (rewrite !length_nibbles, !length_take; unfold zlen in *; lia).
    rewrite bytes_cmp_nibbles. f_equal. simpl.
    rewrite land_240 by (eapply Forall_lookup_1; [exact Hc|exact Hy]).
    rewrite (prefix_half_zero p x Hp Ho Hx) at 1.
    destruct (bytes_cmp _ _); try done.
    destruct (Z.compare_spec (x / 16) (y / 16));
      [apply Z.compare_eq_iff|apply Z.compare_lt_iff|apply Z.compare_gt_iff]; lia.
  - rewrite !digits_even by (done || lia). rewrite bytes_cmp_nibbles. simpl.
    by destruct (bytes_cmp _ _).
Qed.

Lemma nibbles_replicate m : nibbles (replicate m 0) = replicate (2 * m) 0.
Proof.
  induction m as [|m IH]; [done|]. replace (2 * S m)%nat with (S (S (2 * m))) by lia.
  cbn [replicate nibbles]. by rewrite IH.
Qed.

Lemma nibbles_bytes_ok l : Forall is_nibble (nibbles l) → bytes_ok l.
Proof.
  induction l as [|b l IH]; [constructor|]. cbn [nibbles].
  intros [Hhi [Hlo Hl]%Forall_cons_iff]%Forall_cons_iff.
  apply bytes_ok_cons. split; [|auto]. unfold is_nibble, is_byte in *.
  pose proof (Z.div_mod b 16). lia.
Qed.

Lemma len_in_bytes_range k : 20 ≤ len_in_bytes k ≤ 32.
Proof. by destruct k. Qed.
Lemma from_bytes_or_panic_ok {E} b k :
  zlen b = len_in_bytes k →
  ∃ id, from_bytes_or_panic (E := E) b = Ok id ∧ as_slice id = b ∧ kind id = k.
Proof. intros Hb. unfold from_bytes_or_panic. rewrite Hb. destruct k; eexists; done. Qed.
Lemma from_bytes_or_panic_slice {E} id : oid_ok id → from_bytes_or_panic (E := E) (as_slice id) = Ok id.
Proof.
  intros [Hl _]. unfold from_bytes_or_panic. rewrite Hl. by destruct id.
Qed.
Lemma len_hex_bytes k : len_in_hex k = 2 * len_in_bytes k.
Proof. by destruct k. Qed.

Lemma copy_null {E} k src :
  zlen src ≤ len_in_bytes k →
  copy_prefix (E := E) (as_slice (null k)) src =
  Ok (src ++ replicate (Z.to_nat (len_in_bytes k) - length src) 0).
Proof.
  intros Hs. unfold copy_prefix.
  assert (as_slice (null k) = replicate (Z.to_nat (len_in_bytes k)) 0) as -> by by destruct k.
  unfold zlen in *. rewrite length_replicate. zb; [|lia].
  by rewrite drop_replicate.
Qed.

(** The prefix built by zero-extending a digit string is well formed and
    stands for these digits. *)
Lemma padded_prefix k b ds m :
  nibbles b = ds ++ replicate m 0 → zlen b = len_in_bytes k → Forall is_nibble ds →
  let p := {| prefix_bytes := with_slice (null k) b; hex_len := zlen ds |} in
  prefix_ok p ∧ prefix_digits p = ds ∧ kind (prefix_bytes p) = k.
Proof.
  intros Hn Hb Hds p.
  assert (kind (prefix_bytes p) = k) as Hk by (by subst p; destruct k).
  assert (as_slice (prefix_bytes p) = b) as Hs by (by subst p; destruct k).
  assert (length ds + m = 2 * length b)%nat.
  { rewrite <- length_nibbles, Hn, length_app, length_replicate. done. }
  unfold prefix_ok, prefix_digits, oid_ok. rewrite Hk, Hs, len_hex_bytes.
  subst p. cbn [hex_len]. unfold zlen in *. rewrite Nat2Z.id, Hn.
  rewrite take_app_length, drop_app_length. repeat split; try lia.
  - apply nibbles_bytes_ok. rewrite Hn. apply Forall_app. split; [done|].
    apply Forall_replicate. unfold is_nibble. lia.
  - by apply Forall_replicate.
Qed.

Lemma prefix_ok_nibbles p :
  prefix_ok p →
  nibbles (as_slice (prefix_bytes p)) =
  prefix_digits p ++
  replicate (2 * length (as_slice (prefix_bytes p)) - Z.to_nat (hex_len p)) 0.
Proof.
  intros (_ & _ & Hz). unfold prefix_digits.
  rewrite <- (take_drop (Z.to_nat (hex_len p)) (nibbles _)) at 1. f_equal.
  rewrite <- length_nibbles, <- length_drop.
  induction Hz as [|x l -> _ IH]; [done|]. simpl. by f_equal.
Qed.

(** Prefixes of one kind are determined by their digits. *)
Lemma prefix_ext p q :
  prefix_ok p → prefix_ok q → kind (prefix_bytes p) = kind (prefix_bytes q) →
  hex_len p = hex_len q → prefix_digits p = prefix_digits q → p = q.
Proof.
  intros Hp Hq Hk Hn Hd.
  assert (length (as_slice (prefix_bytes p)) = length (as_slice (prefix_bytes q))) as Hl.
  { destruct Hp as ([Hlp _] & _), Hq as ([Hlq _] & _). unfold zlen in *. rewrite Hk in Hlp. lia. }
  assert (as_slice (prefix_bytes p) = as_slice (prefix_bytes q)) as Hs.
  { rewrite <- (from_nibbles_nibbles (as_slice (prefix_bytes p))).
    rewrite <- (from_nibbles_nibbles (as_slice (prefix_bytes q))).
    rewrite !prefix_ok_nibbles by done. by rewrite Hd, Hl, Hn. }
  destruct p as [[b|b] n], q as [[c|c] m]; simpl in *; congruence.
Qed.

Lemma oid_ok_digits id :
  oid_ok id → Z.of_nat (length (nibbles (as_slice id))) = len_in_hex (kind id).
Proof. intros [H _]. rewrite length_nibbles, len_hex_bytes. unfold zlen in H. lia. Qed.

(** [Prefix::new] keeps exactly the requested number of leading digits. *)
Lemma prefix_new_spec id n :
  oid_ok id → MIN_HEX_LEN ≤ n ≤ len_in_hex (kind id) →
  ∃ p, prefix_new id n = Ok p ∧ prefix_ok p ∧ hex_len p = n ∧
       kind (prefix_bytes p) = kind id ∧
       prefix_digits p = take (Z.to_nat n) (nibbles (as_slice id)).
Proof.
  intros Hid Hn. unfold MIN_HEX_LEN in Hn. pose proof (half_split n ltac:(lia)) as Hh.
  pose proof Hid as [Hl Hb]. rewrite len_hex_bytes in Hn.
  assert (zlen (take (Z.to_nat n) (nibbles (as_slice id))) = n) as Hz.
  { unfold zlen in *. rewrite length_take, length_nibbles. lia. }
  assert (Forall is_nibble (take (Z.to_nat n) (nibbles (as_slice id)))) as Hnib
    by (by apply Forall_take, nibbles_ok).
  unfold prefix_new, MIN_HEX_LEN. rewrite len_hex_bytes.
  rewrite Z.gtb_ltb. destruct (Z.ltb_spec (2 * len_in_bytes (kind id)) n); [lia|].
  destruct (Z.ltb_spec n 4); [lia|].
  assert (div_ceil2 n = n / 2 + n mod 2) as Hc.
  { unfold div_ceil2. rewrite (proj1 Hh) at 1.
    rewrite Z.mul_comm, <- Z.add_assoc, Z.div_add_l by lia.
    destruct (decide (n mod 2 = 1)) as [->|]; [done|].
    replace (n mod 2) with 0 by lia. done. }
  rewrite get_range_0 by (unfold zlen in *; lia). simpl.
  rewrite copy_null by (unfold zlen in *; rewrite length_take; lia). simpl.
  rewrite length_take. unfold zlen in Hl.
  remember (Z.to_nat (len_in_bytes (kind id)) - _)%nat as m eqn:Hm.
  destruct (Z.eqb_spec (n mod 2) 1) as [Ho|Ho].
  - destruct (get_in (as_slice id) (n / 2)) as (x & _ & Hx); [unfold zlen; lia|].
    replace (Z.to_nat (div_ceil2 n)) with (S (Z.to_nat (n / 2))) by lia.
    rewrite (take_S_r _ _ x) by done. rewrite <- app_assoc. simpl.
    assert (length (take (Z.to_nat (n / 2)) (as_slice id)) = Z.to_nat (n / 2)) as Ht
      by (rewrite length_take; lia).
    assert (is_byte x) as Hxb by (eapply Forall_lookup_1; [exact Hb|exact Hx]).
    unfold get. destruct (Z.leb_spec 0 (n / 2)); [|lia].
    rewrite (list_lookup_middle _ _ x) by done. simpl.
    rewrite insert_app_r_alt by lia. rewrite Ht, Nat.sub_diag. simpl.
    rewrite land_240 by done.
    edestruct (padded_prefix (kind id)) as (Hok & Hd & Hk);
      [|  |exact Hnib|rewrite Hz in *; eauto 10].
    + rewrite (digits_odd n _ x), nibbles_app by (done || lia).
      cbn [nibbles]. rewrite nibbles_replicate, <- app_assoc. f_equal. simpl.
      rewrite Z.div_mul, Z.mod_mul by lia. f_equal.
      by rewrite <- (replicate_S).
    + unfold zlen. rewrite length_app. simpl. rewrite length_replicate, Ht. lia.
  - edestruct (padded_prefix (kind id)) as (Hok & Hd & Hk);
      [| |exact Hnib|rewrite Hz in *; eauto 10].
    + rewrite (digits_even n) by (done || lia).
      rewrite nibbles_app, nibbles_replicate. f_equal. do 2 f_equal. lia.
    + unfold zlen. rewrite length_app, length_take, length_replicate. lia.
Qed.

Lemma len_in_hex_longest k : len_in_hex k ≤ len_in_hex longest.
Proof. by destruct k. Qed.

Lemma from_hex_len_Some n k :
  from_hex_len n = Some k → 0 ≤ n ≤ len_in_hex k.
Proof. unfold from_hex_len. intros H. zb; simplify_eq; simpl; lia. Qed.

Lemma length_from_nibbles l :
  Nat.Even (length l) → Forall is_nibble l → (2 * length (from_nibbles l))%nat = length l.
Proof. intros. by rewrite <- length_nibbles, nibbles_from_nibbles. Qed.

Lemma zlen_even l : zlen (A := Z) l mod 2 = 0 → Nat.Even (length l).
Proof.
  unfold zlen. intros H. exists (Z.to_nat (Z.of_nat (length l) / 2)).
  pose proof (Z.div_mod (Z.of_nat (length l)) 2). lia.
Qed.

Section PrefixHex.
Context {FH : FasterHex}.

Lemma prefix_hex_to_buf_spec {E} p :
  prefix_ok p → prefix_hex_to_buf (E := E) p = Ok (hex_digit <$> prefix_digits p).
Proof.
  intros ([Hl Hb] & Hn & _). unfold prefix_hex_to_buf, prefix_digits.
  pose proof (half_split (hex_len p) ltac:(lia)) as Hh. rewrite len_hex_bytes in Hn.
  set (s := as_slice (prefix_bytes p)) in *.
  assert ((if hex_len p / 2 =? 0 then Ok []
           else src ← expect (get_range s 0 (hex_len p / 2)); Ok (hex_encode src))
          = Ok (E := E) (hex_digit <$> nibbles (take (Z.to_nat (hex_len p / 2)) s))) as ->.
  { destruct (Z.eqb_spec (hex_len p / 2) 0) as [->|]; [by rewrite take_0|].
    rewrite get_range_0 by lia. simpl. rewrite hex_encode_law; [done|].
    by apply Forall_take. }
  simpl. destruct (Z.eqb_spec (hex_len p mod 2) 1).
  - destruct (get_in s (hex_len p / 2)) as (x & -> & Hx); [lia|]. simpl.
    rewrite (digits_odd _ _ x), fmap_app by (done || lia). f_equal. f_equal.
    simpl. rewrite Z.shiftr_div_pow2 by lia. done.
  - by rewrite digits_even by lia.
Qed.

Lemma prefix_from_digits ds k :
  Forall is_nibble ds → ds ≠ [] → from_hex_len (zlen ds) = Some k →
  ∃ p, prefix_from_hex_nonempty (hex_digit <$> ds) = Ok p ∧ prefix_ok p ∧
       prefix_digits p = ds ∧ hex_len p = zlen ds ∧ kind (prefix_bytes p) = k.
Proof.
  intros Hds Hne Hk. unfold prefix_from_hex_nonempty.
  assert (zlen (hex_digit <$> ds) = zlen ds) as Hz by (unfold zlen; by rewrite length_fmap).
  rewrite !Hz, Hk. pose proof (from_hex_len_Some _ _ Hk) as Hlen.
  assert (0 < zlen ds) by (destruct ds; [done|unfold zlen; simpl; lia]).
  rewrite Z.gtb_ltb. destruct (Z.ltb_spec (len_in_hex longest) (zlen ds)).
  { pose proof (len_in_hex_longest k). lia. }
  destruct (Z.eqb_spec (zlen ds) 0); [lia|]. simpl.
  pose proof (Z.mod_pos_bound (zlen ds) 2). rewrite len_hex_bytes in Hlen.
  set (full := if zlen ds mod 2 =? 0 then ds else ds ++ [0]).
  assert (Forall is_nibble full ∧ Nat.Even (length full)) as [Hf He].
  { subst full. destruct (Z.eqb_spec (zlen ds mod 2) 0); [auto using zlen_even|].
    split; [apply Forall_app; repeat constructor; auto; unfold is_nibble; lia|].
    apply zlen_even. rewrite zlen_app. change (zlen [0]) with 1.
    pose proof (Z.div_mod (zlen ds) 2).
    rewrite <- (Z.mod_unique (zlen ds + 1) 2 (zlen ds / 2 + 1) 0); lia. }
  assert ((if zlen ds mod 2 =? 0 then hex_decode (hex_digit <$> ds)
           else hex_decode ((hex_digit <$> ds) ++ [48])) = Some (from_nibbles full)) as ->.
  { rewrite <- hex_decode_digits by done. subst full.
    destruct (_ =? 0); [done|]. by rewrite fmap_app. }
  simpl. pose proof (length_from_nibbles full He Hf) as Hlf.
  assert (zlen (from_nibbles full) ≤ len_in_bytes k).
  { pose proof (Z.div_mod (zlen ds) 2). subst full. unfold zlen in *.
    destruct (Z.eqb_spec (Z.of_nat (length ds) mod 2) 0); [lia|].
    rewrite length_app in Hlf. simpl in Hlf. destruct k; simpl in *; lia. }
  rewrite copy_null by done. simpl.
  set (pad := (Z.to_nat (len_in_bytes k) - length (from_nibbles full))%nat).
  edestruct (padded_prefix k (from_nibbles full ++ replicate pad 0) ds
    (if zlen ds mod 2 =? 0 then (2 * pad)%nat else S (2 * pad)))
    as (Hok & Hd & Hpk); [| |exact Hds|eauto 10].
  - rewrite nibbles_app, nibbles_from_nibbles, nibbles_replicate by done.
    clearbody pad. subst full. destruct (_ =? 0); [done|]. by rewrite <- app_assoc.
  - subst pad. unfold zlen in *. rewrite length_app, length_replicate. lia.
Qed.

(** What a prefix prints as parses back to it, when the kind its length
    stands for is its own. *)
Lemma prefix_text_roundtrip {E} p :
  prefix_ok p → 0 < hex_len p → from_hex_len (hex_len p) = Some (kind (prefix_bytes p)) →
  ∃ text, prefix_hex_to_buf (E := E) p = Ok text ∧ prefix_from_hex_nonempty text = Ok p.
Proof.
  intros Hp Hpos Hk. pose proof Hp as ([Hl Hb] & Hn & _).
  rewrite prefix_hex_to_buf_spec by done. eexists; split; [done|].
  assert (zlen (prefix_digits p) = hex_len p) as Hz.
  { unfold prefix_digits, zlen. rewrite length_take, length_nibbles.
    rewrite len_hex_bytes in Hn. unfold zlen in Hl. lia. }
  destruct (prefix_from_digits (prefix_digits p) (kind (prefix_bytes p)))
    as (q & Hq & Hqok & Hd & Hql & Hqk).
  - by apply Forall_take, nibbles_ok.
  - intros Hnil. rewrite Hnil in Hz. unfold zlen in Hz. simpl in Hz. lia.
  - by rewrite Hz.
  - rewrite Hq. f_equal. apply prefix_ext; congruence.
Qed.

Lemma oid_hex_roundtrip id : oid_ok id → from_hex (to_hex id) = Ok id.
Proof.
  intros [Hl Hb]. unfold from_hex, to_hex. rewrite hex_decode_encode by done.
  rewrite length_hex_encode, Hl by done. by destruct id.
Qed.
End PrefixHex.

Lemma reverse_hex_nibble_digit n : is_nibble n → reverse_hex_nibble (122 - n) = Some n.
Proof. unfold is_nibble, reverse_hex_nibble. intros. zb; try lia; f_equal; lia. Qed.

Lemma REVERSE_HEX_get n : is_nibble n → get REVERSE_HEX n = Some (122 - n).
Proof.
  unfold is_nibble. intros H.
  assert (forallb (λ n, bool_decide (get REVERSE_HEX n = Some (122 - n))) (seqZ 0 16) = true)
    as Hall by reflexivity.
  rewrite forallb_forall in Hall. eapply bool_decide_eq_true_1, Hall.
  apply list_elem_of_In, elem_of_seqZ. lia.
Qed.

Lemma encode_reverse_hex_spec {E} id :
  bytes_ok id → encode_reverse_hex (E := E) id = Ok ((λ n, 122 - n) <$> nibbles id).
Proof.
  induction id as [|b id IH]; [done|]. intros [Hb Hid]%bytes_ok_cons.
  assert (bytes_ok [b]) as Hb' by (apply bytes_ok_cons; split; [done|constructor]).
  apply nibbles_ok in Hb'. cbn [nibbles] in Hb'.
  apply Forall_cons_iff in Hb' as [Hhi [Hlo _]%Forall_cons_iff].
  cbn [encode_reverse_hex]. rewrite land_15, Z.shiftr_div_pow2 by lia.
  change (2 ^ 4) with 16. rewrite !REVERSE_HEX_get by done. simpl.
  by rewrite IH.
Qed.

Lemma reverse_hex_to_hex_spec ds :
  Forall is_nibble ds →
  reverse_hex_to_hex ((λ n, 122 - n) <$> ds) = Some (hex_digit <$> ds).
Proof.
  unfold reverse_hex_to_hex. induction 1 as [|n ds Hn Hds IH]; [done|].
  rewrite !fmap_cons. cbn [mapM]. rewrite reverse_hex_nibble_digit by done. cbn.
  by rewrite IH.
Qed.

(** An abbreviated id made by [Prefix::new] with [n] hexadecimal digits
    compares with any candidate id exactly as the first [n] digits of the two ids
    compare, so it matches precisely the ids that share these digits; the
    comparison never panics on a candidate of the same hash kind. *)
Theorem prefix_new_cmp_oid (id candidate : ObjectId) (n : Z)
    (Hid : oid_ok id) (Hc : oid_ok candidate) (Hkind : kind candidate = kind id)
    (Hn : MIN_HEX_LEN ≤ n ≤ len_in_hex (kind id)) :
  ∃ p, prefix_new id n = Ok p ∧
    cmp_oid (E := hash_error) p (as_slice candidate) =
    Ok (bytes_cmp (take (Z.to_nat n) (nibbles (as_slice id)))
                  (take (Z.to_nat n) (nibbles (as_slice candidate)))).
Proof.
  destruct (prefix_new_spec id n Hid Hn) as (p & Hp & Hok & Hlen & Hk & Hd).
  exists p. split; [done|]. destruct Hc as [Hcl Hcb].
  rewrite cmp_oid_spec; [by rewrite Hd, Hlen|done|done|].
  rewrite Hlen, Hcl, Hkind, <- len_hex_bytes. lia.
Qed.

(** The prefix [a1b2c] of an id against an id that starts with [a1b2d]. *)
Lemma prefix_new_cmp_oid_witness :
  let id := OidSha1 ([161; 178; 195] ++ replicate 17 7) in
  let other := OidSha1 ([161; 178; 211] ++ replicate 17 0) in
  ∃ p, prefix_new id 5 = Ok p ∧ cmp_oid (E := hash_error) p (as_slice other) = Ok Lt.
Proof.
  destruct (prefix_new_cmp_oid (OidSha1 ([161; 178; 195] ++ replicate 17 7))
    (OidSha1 ([161; 178; 211] ++ replicate 17 0)) 5) as (p & Hp & Hc).
  1,2: apply (bool_decide_eq_true_1 _); reflexivity.
  1: reflexivity.
  1: vm_compute; split; discriminate.
  exists p. split; [exact Hp|]. rewrite Hc. reflexivity.
Defined.

(** Every text form of an id parses back to it: the full hexadecimal form by
    [ObjectId::from_hex], the reverse-hex form by [ChangeId::from_reverse_hex],
    and the text of an abbreviated prefix by [Prefix::from_hex_nonempty] when its
    length stands for its own hash kind. *)
Theorem id_text_roundtrip (FH : FasterHex) (id : ObjectId) (p : Prefix)
    (Hid : oid_ok id) (Hp : prefix_ok p) (Hpos : 0 < hex_len p)
    (Hkind : from_hex_len (hex_len p) = Some (kind (prefix_bytes p))) :
  from_hex (to_hex id) = Ok id ∧
  (∃ text, encode_reverse_hex (E := hash_error) (as_slice id) = Ok text ∧
           change_id_from_reverse_hex text = Ok id) ∧
  (∃ text, prefix_hex_to_buf (E := hash_error) p = Ok text ∧
           prefix_from_hex_nonempty text = Ok p).
Proof.
  split; [by apply oid_hex_roundtrip|]. split; [|by apply prefix_text_roundtrip].
  pose proof (oid_hex_roundtrip id Hid) as Hrt. pose proof Hid as [Hl Hb].
  rewrite encode_reverse_hex_spec by done. eexists; split; [done|].
  unfold change_id_from_reverse_hex.
  rewrite reverse_hex_to_hex_spec by (by apply nibbles_ok). simpl.
  unfold to_hex in Hrt. rewrite hex_encode_law in Hrt by done. rewrite Hrt.
  unfold zlen. rewrite length_fmap, oid_ok_digits by done. by destruct (kind id).
Qed.

(** A SHA-1 id and its seven-digit prefix. *)
Lemma id_text_roundtrip_witness :
  let id := OidSha1 (replicate 20 171) in
  from_hex (FH := faster_hex_model) (to_hex id) = Ok id ∧
  ∃ text, prefix_hex_to_buf (E := hash_error)
            {| prefix_bytes := OidSha1 ([171; 171; 171; 160] ++ replicate 16 0);
               hex_len := 7 |} = Ok text ∧ zlen text = 7.
Proof.
  pose proof (id_text_roundtrip faster_hex_model (OidSha1 (replicate 20 171))
    {| prefix_bytes := OidSha1 ([171; 171; 171; 160] ++ replicate 16 0); hex_len := 7 |})
    as (H1 & _ & text & H2 & _).
  1: apply (bool_decide_eq_true_1 _); reflexivity.
  1: { split; [apply (bool_decide_eq_true_1 _); reflexivity|].
       split; [vm_compute; split; discriminate|].
       vm_compute. repeat constructor. }
  1,2: reflexivity.
  split; [exact H1|]. exists text. split; [exact H2|].
  vm_compute in H2. injection H2 as <-. reflexivity.
Defined.
