(* ===== verification/PackEntry.v ===== *)
(** * [gix-pack/src/data/{header,entry}]: pack headers and entry headers

    [pack_header_encode] and [pack_header_decode] are [data/header.rs].
    [Header], [Entry] and their methods are [data/entry/{header,decode,mod}.rs],
    with the streaming reader of [gix-utils/src/decode.rs]. A reader is the list
    of bytes it still has to deliver; a writer is the bytes it received, next to
    the count the source keeps. Loops that the source bounds by the width of the
    integer carry fuel, and [None] is running out of it: [write_size_enough]
    shows that it does not happen for a 64-bit size. *)

From S2P Require Import Prelude Hash.

(** ** The pack file header *)
Inductive Version := V2 | V3.
#[export] Instance Version_eq_dec : EqDecision Version.
Proof. solve_decision. Defined.

Inductive pack_error :=
| PackTypeNotRecognized
| UnsupportedPackVersion (v : Z)
| Truncated
| HeaderOverflow
| HeaderSizeU16
| UnsupportedHashLength
| UnsupportedObjectType (id : Z).

Definition N32_SIZE : Z := 4.
Definition PACK : bytes := [80; 65; 67; 75].
Definition SIZE : Z := 4 + N32_SIZE * 2.

Definition pack_header_decode (data : bytes) : outcome pack_error (Version * Z) :=
  sig ← expect (get_range data 0 4);
  _ ← ensure (bytes_eqb sig PACK) PackTypeNotRecognized;
  v ← from_be <$> expect (get_range data 4 8);
  k ← (if v =? 2 then Ok V2 else if v =? 3 then Ok V3 else Err (UnsupportedPackVersion v));
  n ← from_be <$> expect (get_range data 8 12);
  Ok (k, n).

Definition pack_header_encode (version : Version) (num_objects : Z) : bytes :=
  PACK ++ to_be 4 (match version with V2 => 2 | V3 => 3 end) ++ to_be 4 num_objects.

(** ** Entry headers *)
Inductive Header :=
| Commit
| Tree
| Blob
| Tag
| RefDelta (base_id : ObjectId)
| OfsDelta (base_distance : Z).

Definition COMMIT : Z := 1.
Definition TREE : Z := 2.
Definition BLOB : Z := 3.
Definition TAG : Z := 4.
Definition OFS_DELTA : Z := 6.
Definition REF_DELTA : Z := 7.

Definition verified_base_pack_offset (pack_offset distance : Z) : option Z :=
  if distance =? 0 then None
  else match checked_sub 64 pack_offset distance with
       | Some offset => if SIZE <=? offset then Some offset else None
       | None => None
       end.

Definition as_type_id (h : Header) : Z :=
  match h with
  | Blob => BLOB
  | Tree => TREE
  | Commit => COMMIT
  | Tag => TAG
  | OfsDelta _ => OFS_DELTA
  | RefDelta _ => REF_DELTA
  end.
Definition is_delta (h : Header) : bool :=
  match h with OfsDelta _ | RefDelta _ => true | _ => false end.

(** The offset encoding: the ten-byte buffer is filled from its end, nine slots
    after the first byte; [acc] is the part written so far. *)
Fixpoint leb64_loop (slots : nat) (n : Z) (acc : bytes) : Z * bytes :=
  match slots with
  | O => (n, acc)
  | S slots =>
      let n := Z.shiftr n 7 in
      if n =? 0 then (n, acc)
      else let n := n - 1 in
           leb64_loop slots n (Z.lor 128 (Z.land (wrap 8 n) 127) :: acc)
  end.
Definition leb64_encode {E} (n : Z) : outcome E bytes :=
  let '(rest, buf) := leb64_loop 9 n [Z.land (wrap 8 n) 127] in
  _ ← assert_that (rest =? 0);
  Ok buf.

(** The size field of [Header::write_to]: emit [c] with the continuation bit as
    long as bits of [size] are left. The second component counts the bytes. *)
Fixpoint write_size (fuel : nat) (size c written : Z) : option (bytes * Z) :=
  match fuel with
  | O => None
  | S fuel =>
      if size =? 0 then Some ([c], written)
      else '(out, written) ← write_size fuel (Z.shiftr size 7)
                               (Z.land (wrap 8 size) 127) (written + 1);
           Some (Z.lor c 128 :: out, written)
  end.

(** Enough fuel for a 64-bit size: four bits, then seven per byte. *)
Definition size_fuel : nat := 10.

Definition write_to (h : Header) (decompressed_size_in_bytes : Z)
    : outcome pack_error (bytes * Z) :=
  let c := Z.lor (wrap 8 (Z.shiftl (as_type_id h) 4))
                 (Z.land (wrap 8 decompressed_size_in_bytes) 15) in
  '(out, written) ← expect (write_size size_fuel (Z.shiftr decompressed_size_in_bytes 4) c 1);
  match h with
  | RefDelta oid => Ok (out ++ as_slice oid, written + zlen (as_slice oid))
  | OfsDelta base_distance =>
      buf ← leb64_encode base_distance;
      Ok (out ++ buf, written + zlen buf)
  | Blob | Tree | Commit | Tag => Ok (out, written)
  end.
(** [Header::size]. *)
Definition header_canonical_size (h : Header) (decompressed_size : Z) : outcome pack_error Z :=
  snd <$> write_to h decompressed_size.

(** ** Decoding *)
Record Entry := {
  header : Header;
  decompressed_size : Z;
  data_offset : Z;
  encoded_header_size : Z;
}.

(** [encoded_header_size()], the conversion to [u16]. *)
Definition to_encoded_header_size (consumed : Z) : outcome pack_error Z :=
  ok_or HeaderSizeU16 (checked 16 consumed).

(** The continuation loop of [parse_header_info]: [c] is the last byte read,
    [data] what follows it. *)
Fixpoint header_info_loop (data : bytes) (c size shift i : Z)
    : outcome pack_error (Z * Z) :=
  if Z.land c 128 =? 0 then Ok (size, i)
  else match data with
       | [] => Err Truncated
       | c :: data =>
           component ← ok_or HeaderOverflow (checked_shl 64 (Z.land c 127) shift);
           size ← ok_or HeaderOverflow (checked_add 64 size component);
           header_info_loop data c size (shift + 7) (i + 1)
       end.
Definition parse_header_info (data : bytes) : outcome pack_error (Z * Z * Z) :=
  match data with
  | [] => Err Truncated
  | c :: rest =>
      let type_id := Z.land (Z.shiftr c 4) 7 in
      '(size, i) ← header_info_loop rest c (Z.land c 15) 4 1;
      Ok (type_id, size, i)
  end.

Fixpoint parse_leb64_loop (data : bytes) (c value i : Z) : outcome pack_error (Z * Z) :=
  if Z.land c 128 =? 0 then Ok (value, i)
  else match data with
       | [] => Err Truncated
       | c :: data =>
           value ← ok_or HeaderOverflow
             (value ← checked_add 64 value 1;
              value ← checked_shl 64 value 7;
              checked_add 64 value (Z.land c 127));
           parse_leb64_loop data c value (i + 1)
       end.
Definition parse_leb64 (data : bytes) : outcome pack_error (Z * Z) :=
  match data with
  | [] => Err Truncated
  | c :: rest => parse_leb64_loop rest c (Z.land c 127) 1
  end.

(** [Entry::from_bytes]. *)
Definition from_bytes (d : bytes) (pack_offset : Z) (object_hash : Kind)
    : outcome pack_error Entry :=
  '(type_id, size, consumed) ← parse_header_info d;
  let hash_len := len_in_bytes object_hash in
  '(object, consumed) ←
    (if type_id =? OFS_DELTA then
       rest ← expect (get_from d consumed);
       '(distance, leb_bytes) ← parse_leb64 rest;
       Ok (OfsDelta distance, consumed + leb_bytes)
     else if type_id =? REF_DELTA then
       rest ← ok_or Truncated (get_from d consumed);
       hash ← ok_or Truncated (get_range rest 0 hash_len);
       base_id ← map_err (λ _, UnsupportedHashLength) (try_from_bytes hash);
       Ok (RefDelta base_id, consumed + hash_len)
     else if type_id =? BLOB then Ok (Blob, consumed)
     else if type_id =? TREE then Ok (Tree, consumed)
     else if type_id =? COMMIT then Ok (Commit, consumed)
     else if type_id =? TAG then Ok (Tag, consumed)
     else Err (UnsupportedObjectType type_id));
  data_offset ← op_add 64 pack_offset consumed;
  encoded ← to_encoded_header_size consumed;
  Ok {| header := object; decompressed_size := size; data_offset := data_offset;
        encoded_header_size := encoded |}.

(** ** Decoding from a stream *)
Inductive io_error :=
| UnexpectedEof
| InvalidData
| OtherError.

(** [Read::read_exact] of [n] bytes. *)
Definition read_exact (r : bytes) (n : Z) : outcome io_error (bytes * bytes) :=
  ok_or UnexpectedEof (split_at_checked r n).

Fixpoint leb64_read_loop (r : bytes) (c value i : Z) : outcome io_error (Z * Z * bytes) :=
  if Z.land c 128 =? 0 then Ok (value, i, r)
  else match r with
       | [] => Err UnexpectedEof
       | c :: r =>
           value ← ok_or InvalidData
             (value ← checked_add 64 value 1;
              value ← checked_shl 64 value 7;
              checked_add 64 value (Z.land c 127));
           leb64_read_loop r c value (i + 1)
       end.
Definition leb64_from_read (r : bytes) : outcome io_error (Z * Z * bytes) :=
  match r with
  | [] => Err UnexpectedEof
  | c :: r => leb64_read_loop r c (Z.land c 127) 1
  end.

Fixpoint streaming_info_loop (read : bytes) (c size shift i : Z)
    : outcome io_error (Z * Z * bytes) :=
  if Z.land c 128 =? 0 then Ok (size, i, read)
  else match read with
       | [] => Err UnexpectedEof
       | c :: read =>
           component ← ok_or InvalidData (checked_shl 64 (Z.land c 127) shift);
           size ← ok_or InvalidData (checked_add 64 size component);
           streaming_info_loop read c size (shift + 7) (i + 1)
       end.
Definition streaming_parse_header_info (read : bytes)
    : outcome io_error (Z * Z * Z * bytes) :=
  match read with
  | [] => Err UnexpectedEof
  | c :: read =>
      let type_id := Z.land (Z.shiftr c 4) 7 in
      '(size, i, read) ← streaming_info_loop read c (Z.land c 15) 4 1;
      Ok (type_id, size, i, read)
  end.

(** [Entry::from_read]: the entry and what the reader has left. *)
Definition from_read (r : bytes) (pack_offset hash_len : Z)
    : outcome io_error (Entry * bytes) :=
  '(type_id, size, consumed, r) ← streaming_parse_header_info r;
  '(object, consumed, r) ←
    (if type_id =? OFS_DELTA then
       '(distance, leb_bytes, r) ← leb64_from_read r;
       Ok (OfsDelta distance, consumed + leb_bytes, r)
     else if type_id =? REF_DELTA then
       _ ← assert_that (hash_len <=? len_in_bytes longest);
       '(hash, r) ← read_exact r hash_len;
       base_id ← from_bytes_or_panic hash;
       Ok (RefDelta base_id, consumed + hash_len, r)
     else if type_id =? BLOB then Ok (Blob, consumed, r)
     else if type_id =? TREE then Ok (Tree, consumed, r)
     else if type_id =? COMMIT then Ok (Commit, consumed, r)
     else if type_id =? TAG then Ok (Tag, consumed, r)
     else Err OtherError);
  data_offset ← op_add 64 pack_offset consumed;
  encoded ← map_err (λ _, InvalidData) (to_encoded_header_size consumed);
  Ok ({| header := object; decompressed_size := size; data_offset := data_offset;
         encoded_header_size := encoded |}, r).

(** ** Access *)
Definition header_size (e : Entry) : outcome pack_error Z :=
  if encoded_header_size e =? 0
  then header_canonical_size (header e) (decompressed_size e)
  else Ok (encoded_header_size e).
Definition entry_pack_offset (e : Entry) : outcome pack_error Z :=
  n ← header_size e; op_sub 64 (data_offset e) n.
Definition checked_base_pack_offset (e : Entry) (distance : Z) : outcome pack_error (option Z) :=
  o ← entry_pack_offset e; Ok (verified_base_pack_offset o distance).
Definition base_pack_offset (e : Entry) (distance : Z) : outcome pack_error Z :=
  o ← checked_base_pack_offset e distance; expect o.

(** ** Lemmas: the bits of one byte *)
Lemma byte_lt_128 c (P : Z → bool) :
  forallb P (seqZ 0 128) = true → 0 ≤ c < 128 → P c = true.
Proof.
  intros H Hc. rewrite forallb_forall in H. apply H, list_elem_of_In, elem_of_seqZ. lia.
Qed.

(** The continuation bit of a 7-bit group, and what masking it away leaves. *)
Definition flag (more : bool) (c : Z) : Z := if more then Z.lor c 128 else c.

Lemma flag_facts more c :
  0 ≤ c < 128 →
  (Z.land (flag more c) 128 =? 0) = negb more ∧ Z.land (flag more c) 127 = c ∧
  Z.land (flag more c) 15 = Z.land c 15 ∧
  Z.land (Z.shiftr (flag more c) 4) 7 = Z.shiftr c 4 ∧ is_byte (flag more c).
Proof.
  intros Hc.
  assert (bool_decide ((Z.land (flag more c) 128 =? 0) = negb more ∧ Z.land (flag more c) 127 = c ∧
    Z.land (flag more c) 15 = Z.land c 15 ∧
    Z.land (Z.shiftr (flag more c) 4) 7 = Z.shiftr c 4 ∧ is_byte (flag more c)) = true) as H.
  { revert c Hc. refine (λ c, byte_lt_128 c (λ c, bool_decide _) _).
    destruct more; reflexivity. }
  by apply bool_decide_eq_true_1 in H.
Qed.

Lemma low7_range n : 0 ≤ Z.land (wrap 8 n) 127 < 128.
Proof. rewrite land_127. apply Z.mod_pos_bound. lia. Qed.

Lemma low7 n : Z.land (wrap 8 n) 127 = n mod 128.
Proof.
  rewrite land_127. unfold wrap. change (2 ^ 8) with (128 * 2).
  rewrite Z.rem_mul_r by lia.
  rewrite (Z.mul_comm 128), Z.mod_add, Z.mod_mod by lia. done.
Qed.

Lemma shiftr7 n : Z.shiftr n 7 = n / 128.
Proof. by rewrite Z.shiftr_div_pow2. Qed.

(** ** Lemmas: the size field *)

(** Reading the written size field adds the size at the current shift, and the
    first byte keeps the bits it started with. *)
Lemma size_field_roundtrip fuel size c w out w' data acc shift i :
  0 ≤ size → 0 ≤ c < 128 → 0 ≤ acc → 0 ≤ shift → acc + size * 2 ^ shift < 2 ^ 64 →
  write_size fuel size c w = Some (out, w') →
  ∃ more tl, out = flag more c :: tl ∧ w' = w + zlen tl ∧
    header_info_loop (tl ++ data) (flag more c) acc shift i =
    Ok (acc + size * 2 ^ shift, i + zlen tl).
Proof.
  revert size c w out w' acc shift i.
  induction fuel as [|fuel IH]; intros size c w out w' acc shift i Hs Hc Ha Hsh Hlt H; [done|].
  cbn [write_size] in H. destruct (Z.eqb_spec size 0) as [->|Hne].
  - injection H as <- <-. exists false, []. destruct (flag_facts false c Hc) as (Hz & _).
    split; [done|]. split; [unfold zlen; simpl; lia|]. simpl app.
    replace (acc + 0 * 2 ^ shift) with acc by lia. rewrite zlen_nil, Z.add_0_r.
    destruct data; cbn [header_info_loop]; by rewrite Hz.
  - destruct (write_size fuel _ _ _) as [[out1 w1]|] eqn:E; simpl in H; [|done].
    injection H as <- <-. rewrite shiftr7 in E.
    assert (shift < 64).
    { destruct (Z.lt_ge_cases shift 64); [done|].
      assert (2 ^ 64 ≤ 2 ^ shift) by (apply Z.pow_le_mono_r; lia). nia. }
    set (P := 2 ^ shift) in *. assert (0 < P) by (subst P; apply Z.pow_pos_nonneg; lia).
    pose proof (Z.div_mod size 128 ltac:(lia)) as Hdm.
    pose proof (Z.mod_pos_bound size 128 ltac:(lia)) as Hmb.
    assert (0 ≤ size / 128) by (apply Z.div_pos; lia).
    assert (2 ^ (shift + 7) = 128 * P) as Hp7 by (rewrite Z.pow_add_r; lia).
    destruct (IH _ _ _ _ _ (acc + size mod 128 * P) (shift + 7) (i + 1)
      ltac:(done) (low7_range size) ltac:(nia) ltac:(lia)
      ltac:(rewrite Hp7; nia) E) as (more & tl & -> & -> & Hloop).
    exists true, (flag more (Z.land (wrap 8 size) 127) :: tl).
    split; [done|]. split; [rewrite zlen_cons; lia|].
    destruct (flag_facts true c Hc) as (Hz & _).
    destruct (flag_facts more _ (low7_range size)) as (_ & Hlow & _).
    cbn [header_info_loop app]. rewrite Hz. cbn [negb]. rewrite Hlow, low7 in *.
    unfold checked_shl. destruct (Z.ltb_spec shift 64); [|lia]. cbn [ok_or mbind outcome_bind].
    rewrite Z.shiftl_mul_pow2, wrap_small by (fold P; nia).
    rewrite checked_add_in by (fold P; nia). cbn [ok_or mbind outcome_bind]. fold P.
    rewrite Hloop, zlen_cons, Hp7. f_equal. f_equal; [nia|lia].
Qed.

Lemma write_size_enough fuel size c w :
  0 ≤ size < 2 ^ (7 * Z.of_nat fuel) → is_Some (write_size (S fuel) size c w).
Proof.
  revert size c w. induction fuel as [|fuel IH]; intros size c w Hs.
  - simpl in Hs. assert (size = 0) as -> by lia. eauto.
  - cbn [write_size]. destruct (Z.eqb_spec size 0); [eauto|].
    destruct (IH (Z.shiftr size 7) (Z.land (wrap 8 size) 127) (w + 1)) as [[o w'] Ho].
    { rewrite shiftr7. split; [apply Z.div_pos; lia|]. apply Z.div_lt_upper_bound; [lia|].
      replace (7 * Z.of_nat (S fuel)) with (7 + 7 * Z.of_nat fuel) in Hs by lia.
      rewrite Z.pow_add_r in Hs by lia. lia. }
    cbn [write_size] in Ho. rewrite Ho. simpl. eauto.
Qed.

Lemma write_size_length fuel size c w out w' :
  write_size fuel size c w = Some (out, w') → (length out ≤ fuel)%nat.
Proof.
  revert size c w out w'. induction fuel as [|fuel IH]; intros size c w out w' H; [done|].
  cbn [write_size] in H. destruct (size =? 0).
  - injection H as <- _. simpl. lia.
  - destruct (write_size fuel _ _ _) as [[o w1]|] eqn:E; simpl in H; [|done].
    injection H as <- _. apply IH in E. simpl. lia.
Qed.

(** ** Lemmas: the offset encoding *)
Fixpoint leb64_max (slots : nat) : Z :=
  match slots with O => 0 | S k => 128 * (leb64_max k + 2) - 1 end.

Lemma leb64_loop_end slots n acc :
  0 ≤ n ≤ leb64_max slots → fst (leb64_loop slots n acc) = 0.
Proof.
  revert n acc. induction slots as [|k IH]; intros n acc Hn; simpl in *; [lia|].
  rewrite shiftr7. destruct (Z.eqb_spec (n / 128) 0) as [->|Hne]; [done|].
  apply IH. pose proof (Z.div_mod n 128). pose proof (Z.mod_pos_bound n 128).
  assert (0 ≤ n / 128) by (apply Z.div_pos; lia). lia.
Qed.

(** Reading the buffer restores the number at the byte that held its low bits. *)
Lemma leb64_loop_roundtrip slots n b more tl buf data :
  0 ≤ n < 2 ^ 64 → b = flag more (n mod 128) →
  leb64_loop slots n (b :: tl) = (0, buf) →
  parse_leb64 (buf ++ data) = parse_leb64_loop (tl ++ data) b n (zlen buf - zlen tl).
Proof.
  revert n b more tl buf. induction slots as [|k IH]; intros n b more tl buf Hn -> H.
  - simpl in H. injection H as -> <-.
    destruct (flag_facts more (0 mod 128) ltac:(done)) as (_ & Hl & _).
    cbn [parse_leb64 app]. rewrite Hl, zlen_cons. f_equal. lia.
  - cbn [leb64_loop] in H. rewrite shiftr7 in H.
    pose proof (Z.div_mod n 128 ltac:(lia)) as Hdm.
    pose proof (Z.mod_pos_bound n 128 ltac:(lia)) as Hmb.
    destruct (Z.eqb_spec (n / 128) 0) as [Hz|Hne].
    + injection H as _ <-. destruct (flag_facts more (n mod 128) Hmb) as (_ & Hl & _).
      cbn [parse_leb64 app]. rewrite Hl, zlen_cons. f_equal; lia.
    + assert (0 ≤ n / 128) by (apply Z.div_pos; lia). rewrite Z.lor_comm, low7 in H.
      set (m := n / 128 - 1) in *.
      rewrite (IH m (flag true (m mod 128)) true _ _ ltac:(lia) eq_refl H).
      destruct (flag_facts true (m mod 128)) as (Hz & _); [apply Z.mod_pos_bound; lia|].
      destruct (flag_facts more (n mod 128) Hmb) as (_ & Hl & _).
      cbn [parse_leb64_loop app]. rewrite Hz. cbn [negb]. rewrite Hl.
      rewrite checked_add_in by lia. cbn [mbind option_bind].
      unfold checked_shl. cbn [Z.ltb Z.compare Pos.compare Pos.compare_cont]. cbn [mbind option_bind].
      rewrite Z.shiftl_mul_pow2 by lia. change (2 ^ 7) with 128.
      rewrite wrap_small, checked_add_in by lia.
      cbn [ok_or mbind outcome_bind].
      rewrite zlen_cons. f_equal; lia.
Qed.

Lemma leb64_encode_roundtrip {E} n data :
  0 ≤ n < 2 ^ 64 →
  ∃ buf, leb64_encode (E := E) n = Ok buf ∧ parse_leb64 (buf ++ data) = Ok (n, zlen buf).
Proof.
  intros Hn. unfold leb64_encode.
  pose proof (leb64_loop_end 9 n [Z.land (wrap 8 n) 127]) as Hend.
  destruct (leb64_loop 9 n _) as [rest buf] eqn:E1. simpl in Hend.
  assert (2 ^ 64 ≤ leb64_max 9) by (vm_compute; discriminate).
  rewrite Hend in * by lia.
  rewrite low7 in E1. exists buf. split; [done|].
  rewrite (leb64_loop_roundtrip _ _ _ false [] buf _ Hn eq_refl E1).
  destruct (flag_facts false (n mod 128)) as (Hz & _); [apply Z.mod_pos_bound; lia|].
  unfold flag in *. rewrite zlen_nil, Z.sub_0_r. simpl app.
  destruct data; cbn [parse_leb64_loop]; rewrite Hz; done.
Qed.

Lemma leb64_loop_length slots n acc :
  (length (snd (leb64_loop slots n acc)) ≤ slots + length acc)%nat.
Proof.
  revert n acc. induction slots as [|k IH]; intros n acc; simpl; [lia|].
  destruct (_ =? 0); simpl; [lia|].
  specialize (IH (Z.shiftr n 7 - 1) (Z.lor 128 (Z.land (wrap 8 (Z.shiftr n 7 - 1)) 127) :: acc)).
  simpl in IH. lia.
Qed.

Lemma leb64_encode_length {E} n buf : leb64_encode (E := E) n = Ok buf → zlen buf ≤ 10.
Proof.
  unfold leb64_encode. pose proof (leb64_loop_length 9 n [Z.land (wrap 8 n) 127]) as Hl.
  destruct (leb64_loop 9 n _) as [rest b]. unfold assert_that. intros H.
  destruct (rest =? 0); simpl in H; [|done]. injection H as ->. simpl in Hl. unfold zlen. lia.
Qed.

(** ** Lemmas: whole headers *)

(** The values a header can hold: a supported base id, a 64-bit distance. *)
Definition header_ok (h : Header) (k : Kind) : Prop :=
  match h with
  | RefDelta oid => oid_ok oid ∧ kind oid = k
  | OfsDelta d => 0 ≤ d < 2 ^ 64
  | _ => True
  end.

Lemma type_id_first_byte h size :
  let c := Z.lor (wrap 8 (Z.shiftl (as_type_id h) 4)) (Z.land (wrap 8 size) 15) in
  0 ≤ c < 128 ∧ Z.shiftr c 4 = as_type_id h ∧ Z.land c 15 = size mod 16.
Proof.
  assert (Z.land (wrap 8 size) 15 = size mod 16) as ->.
  { rewrite land_15. unfold wrap. change (2 ^ 8) with (16 * 16).
    rewrite Z.rem_mul_r, (Z.mul_comm 16), Z.mod_add, Z.mod_mod by lia. done. }
  assert (0 ≤ size mod 16 < 16) as Hr by (apply Z.mod_pos_bound; lia).
  assert (1 ≤ as_type_id h ≤ 7) as Ht by (destruct h; vm_compute; split; discriminate).
  generalize dependent (as_type_id h). intros t Ht.
  rewrite Z.shiftl_mul_pow2, wrap_small, lor_high_low by (simpl; lia).
  change (2 ^ 4) with 16. simpl. split; [lia|].
  rewrite Z.shiftr_div_pow2, land_15 by lia. change (2 ^ 4) with 16.
  split; [rewrite Z.div_add_l, Z.div_small by lia; lia|].
  rewrite Z.add_comm, Z.mod_add, Z.mod_small by lia. done.
Qed.

(** Decoding what [write_to] emitted for the size, whatever follows. *)
Lemma write_to_header_info h size out w data :
  0 ≤ size < 2 ^ 64 →
  let c := Z.lor (wrap 8 (Z.shiftl (as_type_id h) 4)) (Z.land (wrap 8 size) 15) in
  write_size size_fuel (Z.shiftr size 4) c 1 = Some (out, w) →
  parse_header_info (out ++ data) = Ok (as_type_id h, size, zlen out) ∧ w = zlen out ∧
  1 ≤ zlen out ≤ 10.
Proof.
  intros Hs c H. pose proof (write_size_length _ _ _ _ _ _ H) as Hlen.
  destruct (type_id_first_byte h size) as (Hc & Hhi & Hlo). fold c in Hc, Hhi, Hlo.
  rewrite Z.shiftr_div_pow2 in H by lia. change (2 ^ 4) with 16 in H.
  pose proof (Z.div_mod size 16 ltac:(lia)) as Hdm.
  pose proof (Z.mod_pos_bound size 16 ltac:(lia)) as Hmb.
  assert (0 ≤ size / 16) by (apply Z.div_pos; lia).
  destruct (size_field_roundtrip _ _ _ _ _ _ data (size mod 16) 4 1
    ltac:(done) Hc ltac:(lia) ltac:(lia) ltac:(change (2 ^ 4) with 16; lia) H)
    as (more & tl & -> & -> & Hloop).
  destruct (flag_facts more c Hc) as (_ & _ & Hl4 & Hty & _).
  cbn [parse_header_info app]. rewrite Hl4, Hlo, Hty, Hhi, Hloop. simpl.
  rewrite zlen_cons. unfold size_fuel, zlen in *. simpl in Hlen.
  split; [|lia]. do 2 f_equal. f_equal. change (Z.pow_pos 2 4) with 16. lia.
Qed.


Lemma try_from_bytes_ok id : oid_ok id → try_from_bytes (as_slice id) = Ok id.
Proof.
  intros [Hl _]. unfold try_from_bytes. rewrite Hl. by destruct id.
Qed.

(** The whole encoder: it succeeds, counts its output, and stays below the
    [u16] that stores the header size. *)
Lemma write_to_spec h size k :
  0 ≤ size < 2 ^ 64 → header_ok h k →
  ∃ out info tail, write_to h size = Ok (out, zlen out) ∧ out = info ++ tail ∧
    1 ≤ zlen out ≤ 42 ∧
    (∀ data, parse_header_info (info ++ data) = Ok (as_type_id h, size, zlen info)) ∧
    match h with
    | RefDelta oid => tail = as_slice oid
    | OfsDelta d => ∀ data, parse_leb64 (tail ++ data) = Ok (d, zlen tail)
    | _ => tail = []
    end.
Proof.
  intros Hs Hh. unfold write_to. pose proof (type_id_first_byte h size) as Hc.
  set (c := Z.lor _ _) in *.
  destruct (write_size_enough 9 (Z.shiftr size 4) c 1) as [[info w] Hw].
  { rewrite Z.shiftr_div_pow2 by lia.
    split; [apply Z.div_pos; lia|apply Z.div_lt_upper_bound; lia]. }
  destruct (write_to_header_info h size info w [] Hs Hw) as (_ & -> & Hlen).
  assert (∀ data, parse_header_info (info ++ data) = Ok (as_type_id h, size, zlen info)) as Hinfo.
  { intros data. eapply write_to_header_info; [exact Hs|exact Hw]. }
  change size_fuel with 10%nat. rewrite Hw. cbn [expect mbind outcome_bind].
  destruct h as [| | | |oid|d]; cbn [header_ok] in Hh.
  1-4: exists info, info, []; rewrite app_nil_r; repeat split; auto; lia.
  - exists (info ++ as_slice oid), info, (as_slice oid).
    destruct Hh as [[Hl _] Hk]. rewrite zlen_app, Hl.
    assert (len_in_bytes (kind oid) ≤ 32) by (by destruct (kind oid)).
    assert (0 ≤ len_in_bytes (kind oid)) by (by destruct (kind oid)).
    repeat split; auto; lia.
  - destruct (leb64_encode_roundtrip (E := pack_error) d [] Hh) as (buf & Hbuf & _).
    rewrite Hbuf. cbn [mbind outcome_bind].
    pose proof (leb64_encode_length _ _ Hbuf). pose proof (zlen_nonneg buf).
    exists (info ++ buf), info, buf. rewrite zlen_app. repeat split; auto; try lia.
    intros data. destruct (leb64_encode_roundtrip (E := pack_error) d data Hh) as (buf' & Hb & Hp).
    congruence.
Qed.

(** Decoding the bytes [Header::write_to] produced for a header and a 64-bit
    size, followed by arbitrary data, gives back the header and the size, with the
    data offset right behind the header and the header size equal to the number of
    bytes the writer reported. *)
Theorem entry_header_roundtrip (h : Header) (size pack_offset : Z) (k : Kind) (data : bytes)
    (Hsize : 0 ≤ size < 2 ^ 64) (Hh : header_ok h k)
    (Hoff : 0 ≤ pack_offset < 2 ^ 64 - 42) :
  ∃ out, write_to h size = Ok (out, zlen out) ∧
    from_bytes (out ++ data) pack_offset k =
    Ok {| header := h; decompressed_size := size; data_offset := pack_offset + zlen out;
          encoded_header_size := zlen out |}.
Proof.
  destruct (write_to_spec h size k Hsize Hh)
    as (out & info & tail & Hw & -> & Hlen & Hinfo & Htail).
  exists (info ++ tail). split; [done|]. unfold from_bytes.
  rewrite <- app_assoc, Hinfo. cbn [mbind outcome_bind].
  rewrite zlen_app in *.
  destruct h as [| | | |oid|d]; cbn [as_type_id header_ok] in *; subst.
  1-4: cbn; rewrite zlen_nil, Z.add_0_r in *; unfold op_add, to_encoded_header_size;
    rewrite checked_add_in by lia; cbn; rewrite checked_in by lia; done.
  - destruct Hh as [Hoid <-]. unfold REF_DELTA, OFS_DELTA. cbn [Z.eqb Pos.eqb].
    rewrite get_from_app by done. cbn [ok_or mbind outcome_bind].
    rewrite get_range_0 by (rewrite zlen_app; destruct Hoid as [-> _]; split;
      [by destruct (kind oid)|pose proof (zlen_nonneg data); lia]).
    cbn [ok_or mbind outcome_bind].
    assert (take (Z.to_nat (len_in_bytes (kind oid))) (as_slice oid ++ data) = as_slice oid) as ->.
    { destruct Hoid as [<- _]. unfold zlen. by rewrite Nat2Z.id, take_app_length. }
    rewrite try_from_bytes_ok by done. cbn [map_err mbind outcome_bind].
    destruct Hoid as [<- _]. unfold op_add, to_encoded_header_size.
    rewrite checked_add_in by lia. cbn. rewrite checked_in by lia. done.
  - unfold REF_DELTA, OFS_DELTA. cbn [Z.eqb Pos.eqb].
    rewrite get_from_app by done. cbn [expect mbind outcome_bind].
    rewrite Htail. cbn [mbind outcome_bind]. unfold op_add, to_encoded_header_size.
    rewrite checked_add_in by lia. cbn. rewrite checked_in by lia. done.
Qed.

(** An offset delta of 300 bytes at distance 1000. *)
Lemma entry_header_roundtrip_witness :
  ∃ out, write_to (OfsDelta 1000) 300 = Ok (out, zlen out) ∧ zlen out = 4 ∧
    from_bytes (out ++ [1; 2; 3]) 5000 Sha1 =
    Ok {| header := OfsDelta 1000; decompressed_size := 300; data_offset := 5004;
          encoded_header_size := 4 |}.
Proof.
  destruct (entry_header_roundtrip (OfsDelta 1000) 300 5000 Sha1 [1; 2; 3])
    as (out & Hw & Hf); [lia|simpl; lia|lia|].
  vm_compute in Hw. injection Hw as <-. exists [236; 18; 134; 104].
  split; [reflexivity|]. split; [reflexivity|]. exact Hf.
Defined.

(** ** Lemmas: the streaming decoder *)

(** How a decoding error surfaces when the bytes come from a reader. *)
Definition io_error_of (e : pack_error) : io_error :=
  match e with
  | Truncated => UnexpectedEof
  | HeaderOverflow | HeaderSizeU16 => InvalidData
  | _ => OtherError
  end.

(** The result of reading [n] more than [i] bytes, in streaming form. *)
Definition streamed {A} (d : bytes) (i : Z) (m : outcome pack_error (A * Z))
    : outcome io_error (A * Z * bytes) :=
  match m with
  | Ok (a, n) => Ok (a, n, drop (Z.to_nat (n - i)) d)
  | Err e => Err (io_error_of e)
  | Panic => Panic
  end.

Lemma header_info_loop_count d c size shift i s n :
  header_info_loop d c size shift i = Ok (s, n) → i ≤ n ≤ i + zlen d.
Proof.
  revert c size shift i. induction d as [|b d IH]; intros c size shift i; cbn [header_info_loop];
    destruct (Z.land c 128 =? 0); intros H; try done; inv_bind;
    try (unfold zlen; simpl; lia).
  apply IH in H. rewrite zlen_cons. lia.
Qed.

Lemma parse_leb64_loop_count d c v i v' n :
  parse_leb64_loop d c v i = Ok (v', n) → i ≤ n ≤ i + zlen d.
Proof.
  revert c v i. induction d as [|b d IH]; intros c v i; cbn [parse_leb64_loop];
    destruct (Z.land c 128 =? 0); intros H; try done;
    try (injection H as <- <-; unfold zlen; simpl; lia).
  destruct (ok_or _ _); simpl in H; try done. apply IH in H. rewrite zlen_cons. lia.
Qed.

Lemma drop_step {A} (x : A) d n i :
  i + 1 ≤ n → drop (Z.to_nat (n - i)) (x :: d) = drop (Z.to_nat (n - (i + 1))) d.
Proof. intros. replace (Z.to_nat (n - i)) with (S (Z.to_nat (n - (i + 1)))) by lia. done. Qed.

Lemma streaming_info_loop_eq d c size shift i :
  streaming_info_loop d c size shift i = streamed d i (header_info_loop d c size shift i).
Proof.
  revert c size shift i. induction d as [|b d IH]; intros c size shift i;
    cbn [streaming_info_loop header_info_loop];
    destruct (Z.land c 128 =? 0); simpl streamed; rewrite ?Z.sub_diag; try done.
  destruct (checked_shl _ _ _) as [comp|]; [|done]. cbn [ok_or mbind outcome_bind].
  destruct (checked_add _ _ _) as [size'|]; [|done]. cbn [ok_or mbind outcome_bind].
  rewrite IH. destruct (header_info_loop d b size' (shift + 7) (i + 1)) as [[s n]|e|] eqn:E;
    try done. simpl. apply header_info_loop_count in E. by rewrite drop_step by lia.
Qed.

Lemma leb64_read_loop_eq d c v i :
  leb64_read_loop d c v i = streamed d i (parse_leb64_loop d c v i).
Proof.
  revert c v i. induction d as [|b d IH]; intros c v i;
    cbn [leb64_read_loop parse_leb64_loop];
    destruct (Z.land c 128 =? 0); simpl streamed; rewrite ?Z.sub_diag; try done.
  destruct (checked_add 64 v 1 ≫= _) as [v'|]; [|done]. cbn [ok_or mbind outcome_bind].
  rewrite IH. destruct (parse_leb64_loop d b v' (i + 1)) as [[s n]|e|] eqn:E;
    try done. simpl. apply parse_leb64_loop_count in E. by rewrite drop_step by lia.
Qed.

Lemma leb64_from_read_eq d :
  leb64_from_read d = streamed d 0 (parse_leb64 d).
Proof.
  destruct d as [|c d]; [done|]. cbn [leb64_from_read parse_leb64].
  rewrite leb64_read_loop_eq.
  destruct (parse_leb64_loop d c _ 1) as [[s n]|e|] eqn:E; try done.
  apply parse_leb64_loop_count in E. simpl. by rewrite (drop_step c) by lia.
Qed.

Lemma parse_header_info_count d t s n :
  parse_header_info d = Ok (t, s, n) → 1 ≤ n ≤ zlen d.
Proof.
  destruct d as [|c d]; [done|]. cbn [parse_header_info]. intros H.
  destruct (header_info_loop d c _ 4 1) as [[s' n']|e|] eqn:E; simpl in H; try done.
  injection H as <- <- <-. apply header_info_loop_count in E. rewrite zlen_cons. lia.
Qed.

Lemma streaming_parse_header_info_eq d :
  streaming_parse_header_info d = streamed d 0 (parse_header_info d).
Proof.
  destruct d as [|c d]; [done|].
  cbn [streaming_parse_header_info parse_header_info]. rewrite streaming_info_loop_eq.
  destruct (header_info_loop d c _ 4 1) as [[s n]|e|] eqn:E; try done.
  apply header_info_loop_count in E. simpl. by rewrite (drop_step c) by lia.
Qed.

Lemma get_from_drop {A} (d : list A) n :
  0 ≤ n ≤ zlen d → get_from d n = Some (drop (Z.to_nat n) d).
Proof.
  intros H. unfold get_from, get_range. zb; try lia. f_equal.
  apply take_ge. rewrite length_drop. unfold zlen in *. lia.
Qed.

Lemma drop_add d a b : 0 ≤ a → 0 ≤ b →
  drop (Z.to_nat b) (drop (Z.to_nat a) d) = drop (Z.to_nat (a + b)) (d : bytes).
Proof. intros. rewrite drop_drop. f_equal. lia. Qed.

(** An entry as the streaming decoder returns it, next to the rest of [d]. *)
Definition streamed_entry (d : bytes) (m : outcome pack_error Entry)
    : outcome io_error (Entry * bytes) :=
  match m with
  | Ok e => Ok (e, drop (Z.to_nat (encoded_header_size e)) d)
  | Err e => Err (io_error_of e)
  | Panic => Panic
  end.

(** The last part of both decoders, given the object and the bytes consumed. *)
Lemma from_read_tail d pack_offset size object consumed :
  (data_offset ← op_add (E := io_error) 64 pack_offset consumed;
   encoded ← map_err (λ _, InvalidData) (to_encoded_header_size consumed);
   Ok ({| header := object; decompressed_size := size; data_offset := data_offset;
          encoded_header_size := encoded |}, drop (Z.to_nat consumed) d)) =
  streamed_entry d
    (data_offset ← op_add (E := pack_error) 64 pack_offset consumed;
     encoded ← to_encoded_header_size consumed;
     Ok {| header := object; decompressed_size := size; data_offset := data_offset;
           encoded_header_size := encoded |}).
Proof.
  unfold op_add, to_encoded_header_size.
  destruct (checked_add 64 pack_offset consumed); [|done]. cbn.
  destruct (checked 16 consumed) eqn:E; [|done]. cbn.
  apply checked_Some in E as [-> _]. done.
Qed.

(** [Entry::from_read] on a byte stream and [Entry::from_bytes] on the same
    bytes agree on every input: the same entry with the reader advanced exactly by
    the recorded header size, the corresponding error otherwise, and a panic on the
    same inputs. *)
Theorem from_read_from_bytes (d : bytes) (pack_offset : Z) (k : Kind) :
  from_read d pack_offset (len_in_bytes k) =
  streamed_entry d (from_bytes d pack_offset k).
Proof.
  unfold from_read, from_bytes. rewrite streaming_parse_header_info_eq.
  destruct (parse_header_info d) as [[[t s] n]|e|] eqn:E; try done.
  apply parse_header_info_count in E. cbn [streamed mbind outcome_bind].
  rewrite Z.sub_0_r.
  destruct (t =? OFS_DELTA).
  { rewrite get_from_drop, leb64_from_read_eq by lia. cbn [expect mbind outcome_bind].
    destruct (parse_leb64 (drop (Z.to_nat n) d)) as [[v m]|e|] eqn:El; try done.
    cbn [streamed mbind outcome_bind]. rewrite Z.sub_0_r, drop_add;
      [apply from_read_tail|lia|].
    destruct (drop (Z.to_nat n) d) as [|c r]; [done|].
    apply parse_leb64_loop_count in El. lia. }
  destruct (t =? REF_DELTA).
  { assert (len_in_bytes k <=? len_in_bytes longest = true) as -> by (by destruct k).
    rewrite get_from_drop by lia. cbn [assert_that ok_or mbind outcome_bind].
    unfold read_exact, split_at_checked, get_range.
    assert (0 <=? len_in_bytes k = true) as -> by (by destruct k). cbn [andb Z.leb Z.compare].
    destruct (Z.leb_spec (len_in_bytes k) (zlen (drop (Z.to_nat n) d))) as [Hle|]; [|done].
    assert (len_in_bytes k = 20 ∨ len_in_bytes k = 32) as Hk by (destruct k; auto).
    rewrite drop_0, Z.sub_0_r. cbn [ok_or mbind outcome_bind].
    unfold from_bytes_or_panic, try_from_bytes.
    assert (zlen (take (Z.to_nat (len_in_bytes k)) (drop (Z.to_nat n) d)) = len_in_bytes k) as ->
      by (unfold zlen in *; rewrite length_take; lia).
    unfold SIZE_OF_SHA1_DIGEST, SIZE_OF_SHA256_DIGEST.
    rewrite drop_add by lia.
    destruct Hk as [-> | ->]; cbn [Z.eqb Pos.eqb map_err mbind outcome_bind]; apply from_read_tail. }
  repeat (destruct (t =? _); [apply from_read_tail|]). done.
Qed.

(** A decoded entry knows where it starts, also when its size field is not in
    canonical form: [Entry::pack_offset()] returns the offset it was decoded at, and
    the base offset computed for a delta distance is that distance before the entry
    and never inside the pack header. *)
Theorem entry_offsets (d : bytes) (pack_offset : Z) (k : Kind) (e : Entry)
    (Hoff : 0 ≤ pack_offset) (Hdec : from_bytes d pack_offset k = Ok e) :
  entry_pack_offset e = Ok pack_offset ∧
  ∀ distance, 0 ≤ distance →
    checked_base_pack_offset e distance =
    Ok (if (1 <=? distance) && (SIZE <=? pack_offset - distance)
        then Some (pack_offset - distance) else None).
Proof.
  assert (entry_pack_offset e = Ok pack_offset) as Hpo.
  { unfold from_bytes in Hdec.
    destruct (parse_header_info d) as [[[t s] n]|e'|] eqn:E; cbn [mbind outcome_bind] in Hdec;
      try done.
    apply parse_header_info_count in E.
    destruct (if t =? OFS_DELTA then _ else _) as [[o c]|e'|] eqn:Eo;
      cbn [mbind outcome_bind] in Hdec; try done.
    assert (1 ≤ c).
    { assert (0 ≤ len_in_bytes k) by (by destruct k).
      destruct (t =? OFS_DELTA).
      - destruct (get_from d n) as [l|]; cbn in Eo; [|done].
        destruct (parse_leb64 l) as [[v m]|e'|] eqn:El; cbn in Eo; try done.
        injection Eo as _ <-. destruct l; [done|]. apply parse_leb64_loop_count in El. lia.
      - destruct (t =? REF_DELTA).
        + destruct (get_from d n) as [l|]; cbn in Eo; [|done].
          destruct (get_range l 0 (len_in_bytes k)) as [h|]; cbn in Eo; [|done].
          destruct (try_from_bytes h); cbn in Eo; try done. injection Eo as _ <-. lia.
        + repeat (destruct (t =? _); [injection Eo as _ <-; lia|]). done. }
    unfold op_add, to_encoded_header_size in Hdec.
    destruct (checked_add 64 pack_offset c) eqn:Ea; cbn in Hdec; [|done].
    destruct (checked 16 c) eqn:Ec; cbn in Hdec; [|done]. injection Hdec as <-.
    apply checked_Some in Ea as [<- Ha]. apply checked_Some in Ec as [<- Hc].
    unfold entry_pack_offset, header_size. cbn.
    destruct (Z.eqb_spec c 0); [lia|]. cbn. unfold op_sub.
    rewrite checked_sub_in by lia. cbn. f_equal. lia. }
  split; [done|]. intros distance Hd. unfold checked_base_pack_offset. rewrite Hpo. cbn.
  f_equal. unfold verified_base_pack_offset.
  destruct (Z.eqb_spec distance 0) as [->|]; [done|].
  destruct (Z.leb_spec 1 distance); [|lia]. cbn [andb].
  destruct (Z.leb_spec SIZE (pack_offset - distance)) as [Hs|Hs].
  - destruct (checked_sub 64 pack_offset distance) eqn:Ec.
    + apply checked_Some in Ec as [<- _]. destruct (Z.leb_spec SIZE (pack_offset - distance)); [done|lia].
    + exfalso. assert (pack_offset - distance < 2 ^ 64) as Hlt.
      { unfold entry_pack_offset, op_sub in Hpo. inv_bind. apply checked_Some in E0 as [<- ?]. lia. }
      unfold SIZE, N32_SIZE in Hs. unfold checked_sub in Ec. rewrite checked_in in Ec by lia. done.
  - destruct (checked_sub 64 pack_offset distance) eqn:Ec; [|done].
    apply checked_Some in Ec as [<- _]. destruct (Z.leb_spec SIZE (pack_offset - distance)); [lia|done].
Qed.

(** The overlong header [e4 00 05] at offset 100: the base is at 95. *)
Lemma entry_offsets_witness :
  ∃ e, from_bytes [228; 0; 5] 100 Sha1 = Ok e ∧ entry_pack_offset e = Ok 100 ∧
       checked_base_pack_offset e 5 = Ok (Some 95).
Proof.
  eexists. split; [reflexivity|].
  edestruct (entry_offsets [228; 0; 5] 100 Sha1) as [H1 H2]; [lia|reflexivity|].
  split; [exact H1|]. apply (H2 5). lia.
Defined.

(** ** The size field as a number without a width *)
Fixpoint size_cont (data : bytes) (c shift : Z) : Z :=
  if Z.land c 128 =? 0 then 0
  else match data with
       | [] => 0
       | c :: data => Z.land c 127 * 2 ^ shift + size_cont data c (shift + 7)
       end.
Definition size_value (d : bytes) : Z :=
  match d with [] => 0 | c :: data => Z.land c 15 + size_cont data c 4 end.

Lemma header_info_loop_value d c size shift i s n :
  0 ≤ size < 2 ^ 64 → 0 ≤ shift →
  header_info_loop d c size shift i = Ok (s, n) →
  s = (size + size_cont d c shift) mod 2 ^ 64.
Proof.
  revert c size shift i. induction d as [|b d IH]; intros c size shift i Hs Hsh H;
    cbn [header_info_loop size_cont] in *; destruct (Z.land c 128 =? 0); try done;
    try (injection H as <- <-; by rewrite Z.add_0_r, Z.mod_small).
  unfold checked_shl in H. destruct (shift <? 64); cbn [ok_or mbind outcome_bind] in H; [|done].
  destruct (checked_add 64 size _) eqn:E; cbn [ok_or mbind outcome_bind] in H; [|done].
  apply checked_Some in E as [<- ?].
  apply IH in H; [|lia|lia]. rewrite H, Z.shiftl_mul_pow2 by lia. unfold wrap.
  rewrite <- Z.add_assoc, (Z.add_comm (_ mod _)), Z.add_assoc.
  rewrite Zplus_mod_idemp_r. f_equal. lia.
Qed.

(** When the size field of an entry header decodes, the result is the number
    the field denotes reduced modulo 2^64: the overflow checks of
    [parse_header_info] do not see the bits [checked_shl] shifts out. *)
Theorem size_field_modulo (d : bytes) (t s n : Z)
    (Hdec : parse_header_info d = Ok (t, s, n)) :
  s = size_value d mod 2 ^ 64.
Proof.
  destruct d as [|c d]; [done|]. cbn [parse_header_info size_value] in *.
  destruct (header_info_loop d c _ 4 1) as [[s' n']|e|] eqn:E; simpl in Hdec; try done.
  injection Hdec as _ <- _. eapply header_info_loop_value; [|lia|exact E].
  rewrite land_15. pose proof (Z.mod_pos_bound c 16). lia.
Qed.

(** A ten-byte header that denotes size 2^64 is accepted with size 0. *)
Lemma size_field_modulo_witness :
  let d := [176; 128; 128; 128; 128; 128; 128; 128; 128; 16] in
  parse_header_info d = Ok (BLOB, 0, 10) ∧ size_value d = 2 ^ 64 ∧
  0 = size_value d mod 2 ^ 64.
Proof.
  split; [reflexivity|]. split; [reflexivity|].
  apply (size_field_modulo _ BLOB 0 10). reflexivity.
Defined.

(** Likewise for the delta base distance: the encoding of 2^64 decodes to 0. *)
Example parse_leb64_wraps :
  parse_leb64 [128; 254; 254; 254; 254; 254; 254; 254; 255; 0] = Ok (0, 10).
Proof. reflexivity. Qed.

(** The twelve bytes [header::encode] writes decode to the same version and
    object count. *)
Theorem pack_header_roundtrip (version : Version) (num_objects : Z)
    (Hn : 0 ≤ num_objects < 2 ^ 32) :
  zlen (pack_header_encode version num_objects) = SIZE ∧
  pack_header_decode (pack_header_encode version num_objects) = Ok (version, num_objects).
Proof.
  unfold pack_header_encode, pack_header_decode.
  split; [rewrite !zlen_app, !zlen_to_be; done|].
  match goal with |- context [get_range (PACK ++ ?r) 0 4] =>
    rewrite (get_range_app [] PACK r 0 4 eq_refl eq_refl : get_range (PACK ++ r) 0 4 = _) end.
  cbn [expect mbind outcome_bind].
  set (v := to_be 4 (match version with V2 => 2 | V3 => 3 end)).
  set (m := to_be 4 num_objects).
  assert (get_range (PACK ++ v ++ m) 4 8 = Some v) as -> by (by apply get_range_app).
  assert (get_range (PACK ++ v ++ m) 8 12 = Some m) as ->.
  { rewrite app_assoc, <- (app_nil_r m) at 1. by apply get_range_app. }
  subst v m.
  cbn [expect fmap outcome_fmap mbind outcome_bind ensure]. 
  rewrite !from_to_be by (destruct version; lia). by destruct version.
Qed.
Lemma pack_header_roundtrip_witness :
  pack_header_decode (pack_header_encode V3 7) = Ok (V3, 7).
Proof. apply (pack_header_roundtrip V3 7). lia. Defined.
