(* ===== verification/Delta.v ===== *)
(** * [gix-pack/src/data/delta.rs]: delta sizes and delta application

    The instruction stream is consumed from the front, so the index [i] of the
    source is the list of bytes still to be read. The destination slice of
    [apply()] is the number of bytes still to be written, and the bytes written
    are the result. Every command consumes at least one byte, so one more than
    the length of the stream is enough fuel; [apply_loop_no_panic] shows it.

    [delta_run] is the meaning of an instruction stream: which bytes it produces
    from a base object. *)

From S2P Require Import Prelude.

Inductive delta_error :=
| HeaderTooManyBits
| HeaderTruncated
| CopyTruncated
| CopyRangeOverflows
| CopyRangeExceedsBase
| ReservedCommand
| InsertRangeOverflows
| InsertTruncated
| ProducedMore
| ProducedFewer.

(** [decode_header_size]: little-endian groups of seven bits. *)
Fixpoint decode_header_size_loop (d : bytes) (shift size consumed : Z)
    : outcome delta_error (Z * Z) :=
  match d with
  | [] => Err HeaderTruncated
  | cmd :: d =>
      if 64 <=? shift then Err HeaderTooManyBits
      else
        let consumed := consumed + 1 in
        let size := Z.lor size (wrap 64 (Z.shiftl (Z.land cmd 127) shift)) in
        let shift := shift + 7 in
        if Z.land cmd 128 =? 0 then Ok (size, consumed)
        else decode_header_size_loop d shift size consumed
  end.
Definition decode_header_size (d : bytes) : outcome delta_error (Z * Z) :=
  decode_header_size_loop d 0 0 0.

(** One optional argument byte of a copy command: read when the bit of [mask] is
    set, and or-ed in at [shift]. *)
Definition opt_byte (cmd mask shift acc : Z) (data : bytes)
    : outcome delta_error (Z * bytes) :=
  if Z.land cmd mask =? 0 then Ok (acc, data)
  else match data with
       | [] => Err CopyTruncated
       | b :: data => Ok (Z.lor acc (Z.shiftl b shift), data)
       end.

Definition copy_cmd (base : bytes) (cmd : Z) (data : bytes)
    : outcome delta_error (bytes * bytes) :=
  '(ofs, data) ← opt_byte cmd 1 0 0 data;
  '(ofs, data) ← opt_byte cmd 2 8 ofs data;
  '(ofs, data) ← opt_byte cmd 4 16 ofs data;
  '(ofs, data) ← opt_byte cmd 8 24 ofs data;
  '(size, data) ← opt_byte cmd 16 0 0 data;
  '(size, data) ← opt_byte cmd 32 8 size data;
  '(size, data) ← opt_byte cmd 64 16 size data;
  let size := if size =? 0 then 65536 else size in
  end_ ← ok_or CopyRangeOverflows (checked_add 64 ofs size);
  chunk ← ok_or CopyRangeExceedsBase (get_range base ofs end_);
  Ok (chunk, data).

Definition insert_cmd (size : Z) (data : bytes) : outcome delta_error (bytes * bytes) :=
  ok_or InsertTruncated (split_at_checked data size).

Fixpoint apply_loop (fuel : nat) (base : bytes) (room : Z) (data : bytes)
    : outcome delta_error bytes :=
  match fuel with
  | O => Panic
  | S fuel =>
      match data with
      | [] => if room =? 0 then Ok [] else Err ProducedFewer
      | cmd :: data =>
          '(chunk, data) ←
            (if negb (Z.land cmd 128 =? 0) then copy_cmd base cmd data
             else if cmd =? 0 then Err ReservedCommand
             else insert_cmd cmd data);
          if zlen chunk <=? room then
            rest ← apply_loop fuel base (room - zlen chunk) data;
            Ok (chunk ++ rest)
          else Err ProducedMore
      end
  end.

(** [apply(base, target, data)] for a [target] of [target_len] bytes. *)
Definition apply (base : bytes) (target_len : Z) (data : bytes) : outcome delta_error bytes :=
  apply_loop (S (length data)) base target_len data.

(** ** The meaning of an instruction stream *)
Definition arg (cmd mask b : Z) : bytes := if Z.land cmd mask =? 0 then [] else [b].
Definition arg_val (cmd mask b : Z) : Z := if Z.land cmd mask =? 0 then 0 else b.

(** The argument bytes of a copy command with the offset and size they denote:
    absent bytes are zero, and size zero stands for 65536. *)
Inductive copy_args (cmd : Z) : bytes → Z → Z → Prop :=
| CopyArgs o0 o1 o2 o3 s0 s1 s2 size :
    bytes_ok [o0; o1; o2; o3; s0; s1; s2] →
    size = arg_val cmd 16 s0 + arg_val cmd 32 s1 * 2 ^ 8 + arg_val cmd 64 s2 * 2 ^ 16 →
    copy_args cmd
      (arg cmd 1 o0 ++ arg cmd 2 o1 ++ arg cmd 4 o2 ++ arg cmd 8 o3 ++
       arg cmd 16 s0 ++ arg cmd 32 s1 ++ arg cmd 64 s2)
      (arg_val cmd 1 o0 + arg_val cmd 2 o1 * 2 ^ 8 + arg_val cmd 4 o2 * 2 ^ 16
       + arg_val cmd 8 o3 * 2 ^ 24)
      (if size =? 0 then 65536 else size).

Inductive delta_run (base : bytes) : bytes → bytes → Prop :=
| run_done : delta_run base [] []
| run_copy cmd args rest ofs size chunk out :
    128 ≤ cmd < 256 → copy_args cmd args ofs size →
    get_range base ofs (ofs + size) = Some chunk →
    delta_run base rest out →
    delta_run base (cmd :: args ++ rest) (chunk ++ out)
| run_insert lit rest out :
    1 ≤ zlen lit < 128 →
    delta_run base rest out →
    delta_run base (zlen lit :: lit ++ rest) (lit ++ out).

(** ** Lemmas *)
Lemma arg_val_byte cmd mask b : is_byte b → is_byte (arg_val cmd mask b).
Proof. unfold arg_val. destruct (_ =? 0); [unfold is_byte; lia|done]. Qed.

Lemma opt_byte_spec cmd mask shift acc data acc' data' :
  bytes_ok data → 0 ≤ shift → 0 ≤ acc < 2 ^ shift →
  opt_byte cmd mask shift acc data = Ok (acc', data') ↔
  ∃ b, is_byte b ∧ data = arg cmd mask b ++ data' ∧ acc' = acc + arg_val cmd mask b * 2 ^ shift.
Proof.
  intros Hd Hs Ha. unfold opt_byte, arg, arg_val.
  destruct (Z.land cmd mask =? 0).
  - split.
    + intros [= <- <-]. exists 0. split; [unfold is_byte; lia|]. split; [done|lia].
    + intros (b & _ & -> & ->). do 2 f_equal. lia.
  - split.
    + destruct data as [|b data]; [done|]. intros [= <- <-].
      apply bytes_ok_cons in Hd as [Hb _]. exists b. split; [done|]. split; [done|].
      rewrite Z.shiftl_mul_pow2, lor_low_high by done. done.
    + intros (b & _ & -> & ->). simpl.
      rewrite Z.shiftl_mul_pow2, lor_low_high by done. done.
Qed.

Lemma opt_byte_rest cmd mask shift acc data acc' data' :
  opt_byte cmd mask shift acc data = Ok (acc', data') →
  bytes_ok data → bytes_ok data' ∧ (length data' ≤ length data)%nat.
Proof.
  unfold opt_byte. destruct (_ =? 0); [intros [= <- <-]; auto|].
  destruct data as [|b data]; [done|]. intros [= <- <-] [_ ?]%bytes_ok_cons. simpl. auto.
Qed.

Lemma arg_ok cmd mask b : is_byte b → bytes_ok (arg cmd mask b).
Proof. unfold arg. destruct (_ =? 0); [constructor|]. constructor; [done|constructor]. Qed.

(** Accumulating three argument bytes, then a fourth, in their ranges. *)
Lemma args_bound acc cmd mask b shift :
  0 ≤ shift → 0 ≤ acc < 2 ^ shift → is_byte b →
  0 ≤ acc + arg_val cmd mask b * 2 ^ shift < 2 ^ (shift + 8).
Proof.
  intros ? ? Hb%(arg_val_byte cmd mask). unfold is_byte in Hb.
  rewrite Z.pow_add_r by lia. nia.
Qed.

Lemma opt_byte_no_panic cmd mask shift acc data : opt_byte cmd mask shift acc data ≠ Panic.
Proof. unfold opt_byte. destruct (_ =? 0); [done|]. by destruct data. Qed.

(** One step of the chain of argument bytes, as an elimination rule. *)
Lemma opt_byte_inv {A} cmd mask shift acc data (k : Z * bytes → outcome delta_error A) r :
  bytes_ok data → 0 ≤ shift → 0 ≤ acc < 2 ^ shift →
  opt_byte cmd mask shift acc data ≫= k = Ok r ↔
  ∃ b rest, is_byte b ∧ data = arg cmd mask b ++ rest ∧ bytes_ok rest ∧
    k (acc + arg_val cmd mask b * 2 ^ shift, rest) = Ok r.
Proof.
  intros Hd Hs Ha. split.
  - destruct (opt_byte cmd mask shift acc data) as [[acc' rest]|e|] eqn:E; try done.
    cbn. intros Hk. pose proof (opt_byte_rest _ _ _ _ _ _ _ E Hd) as [? _].
    apply opt_byte_spec in E as (b & ? & ? & ->); eauto 10.
  - intros (b & rest & Hb & -> & Hr & Hk).
    rewrite (proj2 (opt_byte_spec cmd mask shift acc _
      (acc + arg_val cmd mask b * 2 ^ shift) rest Hd Hs Ha)); [|by eauto].
    done.
Qed.

(** Bounds of accumulated argument bytes. *)
Ltac args_tac :=
  repeat match goal with H : is_byte ?b |- context [arg_val ?c ?m ?b] =>
    generalize (arg_val_byte c m b H); generalize (arg_val c m b); unfold is_byte at 1
  end; intros; lia.

(** Supply the next argument byte [b] of the stream described by [Hd]. *)
Ltac opt_step Hd b :=
  apply opt_byte_inv; [exact Hd|lia|first [lia|args_tac]|];
  apply bytes_ok_app in Hd as [_ Hd];
  exists b; eexists; split; [assumption|]; split; [reflexivity|]; split; [exact Hd|];
  cbn beta iota.

Lemma copy_cmd_spec base cmd data chunk rest :
  bytes_ok data →
  copy_cmd base cmd data = Ok (chunk, rest) ↔
  ∃ args ofs size, data = args ++ rest ∧ bytes_ok rest ∧ copy_args cmd args ofs size ∧
    get_range base ofs (ofs + size) = Some chunk.
Proof.
  intros Hd. unfold copy_cmd. split.
  - intros H.
    apply opt_byte_inv in H as (o0 & r0 & Ho0 & -> & Hr0 & H); [|done|lia|lia].
    apply opt_byte_inv in H as (o1 & r1 & Ho1 & -> & Hr1 & H); [|done|lia|args_tac].
    apply opt_byte_inv in H as (o2 & r2 & Ho2 & -> & Hr2 & H); [|done|lia|args_tac].
    apply opt_byte_inv in H as (o3 & r3 & Ho3 & -> & Hr3 & H); [|done|lia|args_tac].
    apply opt_byte_inv in H as (s0 & r4 & Hs0 & -> & Hr4 & H); [|done|lia|lia].
    apply opt_byte_inv in H as (s1 & r5 & Hs1 & -> & Hr5 & H); [|done|lia|args_tac].
    apply opt_byte_inv in H as (s2 & r6 & Hs2 & -> & Hr6 & H); [|done|lia|args_tac].
    rewrite !Z.mul_1_r, !Z.add_0_l in H.
    set (ofs := arg_val cmd 1 o0 + _ + _ + _) in H.
    set (size := arg_val cmd 16 s0 + _ + _) in H.
    destruct (checked_add 64 ofs _) eqn:Ea; cbn in H; [|done].
    apply checked_Some in Ea as [<- _].
    destruct (get_range base ofs _) eqn:Er; cbn in H; [|done]. injection H as <- <-.
    eexists _, ofs, (if size =? 0 then 65536 else size).
    split; [|split; [done|split; [apply (CopyArgs cmd o0 o1 o2 o3 s0 s1 s2 size)|done]]].
    + by rewrite <- !app_assoc.
    + repeat (constructor; [done|]). constructor.
    + done.
  - intros (args & ofs & size & -> & Hr & Hargs & Hrange). revert Hd Hrange.
    destruct Hargs as [o0 o1 o2 o3 s0 s1 s2 size Hb ->]. intros Hd Hrange.
    repeat match goal with H : bytes_ok (_ :: _) |- _ => apply bytes_ok_cons in H as [? H] end.
    rewrite <- !app_assoc in *.
    opt_step Hd o0. opt_step Hd o1. opt_step Hd o2. opt_step Hd o3.
    opt_step Hd s0. opt_step Hd s1. opt_step Hd s2.
    change (2 ^ 0) with 1. rewrite !Z.mul_1_r, !Z.add_0_l. set (ofs := arg_val cmd 1 o0 + _ + _ + _) in *.
    set (size := arg_val cmd 16 s0 + _ + _) in *.
    rewrite checked_add_in.
    + cbn [ok_or mbind outcome_bind]. by rewrite Hrange.
    + assert (0 ≤ ofs < 2 ^ 32) by (subst ofs; args_tac).
      assert (0 ≤ size < 2 ^ 24) by (subst size; args_tac). zb; lia.
Qed.

Lemma copy_cmd_no_panic base cmd data : copy_cmd base cmd data ≠ Panic.
Proof.
  unfold copy_cmd.
  repeat match goal with
  | |- context [opt_byte ?c ?m ?s ?a ?d] =>
      let E := fresh in pose proof (opt_byte_no_panic c m s a d) as E;
      destruct (opt_byte c m s a d) as [[? ?]|?|]; cbn; [|done|done]; clear E
  end.
  destruct (checked_add _ _ _); cbn; [|done]. by destruct (get_range _ _ _).
Qed.

Lemma insert_cmd_spec size data lit rest :
  insert_cmd size data = Ok (lit, rest) ↔ data = lit ++ rest ∧ zlen lit = size.
Proof.
  unfold insert_cmd. split.
  - intros H. destruct (split_at_checked data size) as [[a b]|] eqn:E; cbn in H; [|done].
    injection H as -> ->. by apply split_at_Some.
  - intros [-> <-]. by rewrite split_at_app.
Qed.

Lemma run_cons_inv base cmd data out :
  delta_run base (cmd :: data) out →
  (∃ args rest ofs size chunk out', 128 ≤ cmd < 256 ∧ data = args ++ rest ∧
     copy_args cmd args ofs size ∧ get_range base ofs (ofs + size) = Some chunk ∧
     delta_run base rest out' ∧ out = chunk ++ out') ∨
  (∃ lit rest out', cmd = zlen lit ∧ 1 ≤ cmd < 128 ∧ data = lit ++ rest ∧
     delta_run base rest out' ∧ out = lit ++ out').
Proof. inversion 1; subst; [left; eauto 15|right; eauto 15]. Qed.

(** The first command of a stream, in the code and in the specification. *)
Lemma first_cmd_spec base cmd data chunk rest :
  is_byte cmd → bytes_ok data →
  (if negb (Z.land cmd 128 =? 0) then copy_cmd base cmd data
   else if cmd =? 0 then Err ReservedCommand else insert_cmd cmd data) = Ok (chunk, rest) ↔
  (128 ≤ cmd ∧ ∃ args ofs size, data = args ++ rest ∧ bytes_ok rest ∧
     copy_args cmd args ofs size ∧ get_range base ofs (ofs + size) = Some chunk) ∨
  (1 ≤ cmd < 128 ∧ data = chunk ++ rest ∧ zlen chunk = cmd).
Proof.
  intros Hc Hd. rewrite land_128 by done. unfold is_byte in Hc.
  destruct (Z.ltb_spec cmd 128); cbn [negb Z.eqb Pos.eqb].
  - destruct (Z.eqb_spec cmd 0) as [->|].
    + split; [done|]. intros [[? _]|[? _]]; lia.
    + rewrite insert_cmd_spec. split; [intros [? ?]; right; split; [lia|done]|].
      intros [[? _]|(_ & ? & ?)]; [lia|done].
  - rewrite copy_cmd_spec by done. split; [by left; split|].
    intros [(_ & ?)|[? _]]; [done|lia].
Qed.

Lemma apply_loop_spec fuel base room data out :
  (length data < fuel)%nat → bytes_ok data → 0 ≤ room →
  apply_loop fuel base room data = Ok out ↔ delta_run base data out ∧ zlen out = room.
Proof.
  revert room data out. induction fuel as [|fuel IH]; intros room data out Hf Hd Hr; [lia|].
  destruct data as [|cmd data]; cbn [apply_loop].
  { destruct (Z.eqb_spec room 0) as [->|Hne]; split.
    - intros [= <-]. split; [constructor|done].
    - intros [Hrun _]. by inversion Hrun.
    - done.
    - intros [Hrun Hz]. inversion Hrun; subst. rewrite zlen_nil in Hne. lia. }
  apply bytes_ok_cons in Hd as [Hc Hd]. pose proof Hc as Hc'. unfold is_byte in Hc'.
  cbn [length] in Hf. split.
  - intros H. destruct (if negb _ then _ else _) as [[chunk rest]|e|] eqn:E; cbn in H; try done.
    apply first_cmd_spec in E; [|done|done].
    destruct (Z.leb_spec (zlen chunk) room); [|done].
    destruct (apply_loop fuel base (room - zlen chunk) rest) as [out'|e|] eqn:El;
      cbn in H; try done. injection H as <-.
    assert (bytes_ok rest ∧ (length rest ≤ length data)%nat) as [Hrest Hlen].
    { destruct E as [(_ & args & ? & ? & -> & ? & _)|(_ & -> & _)];
        (split; [by apply bytes_ok_app in Hd as [_ ?]|rewrite length_app; lia]). }
    apply IH in El as [Hrun Hz]; [|lia|done|lia]. rewrite zlen_app. split; [|lia].
    destruct E as [(? & args & ofs & size & -> & _ & Ha & Hg)|(? & -> & <-)].
    + eapply run_copy; eauto; lia.
    + apply run_insert; [lia|done].
  - intros [Hrun <-]. pose proof (zlen_nonneg out).
    assert (∃ chunk rest out', out = chunk ++ out' ∧ delta_run base rest out' ∧
      bytes_ok rest ∧ (length rest ≤ length data)%nat ∧
      (if negb (Z.land cmd 128 =? 0) then copy_cmd base cmd data
       else if cmd =? 0 then Err ReservedCommand else insert_cmd cmd data) = Ok (chunk, rest))
      as (chunk & rest & out' & -> & Hrun' & Hrest & Hlen & ->).
    { apply run_cons_inv in Hrun
        as [(args & rest & ofs & size & chunk & out' & ? & -> & ? & ? & ? & ->)
           |(lit & rest & out' & ? & ? & -> & ? & ->)];
        apply bytes_ok_app in Hd as [Hd1 Hd2]; eexists _, rest, out';
        (split; [done|split; [done|split; [done|split; [rewrite length_app; lia|]]]]);
        apply first_cmd_spec; try done; try (by apply bytes_ok_app).
      - left. split; [lia|]. eauto 10.
      - by right. }
    cbn [mbind outcome_bind]. rewrite zlen_app in *. pose proof (zlen_nonneg out').
    destruct (Z.leb_spec (zlen chunk) (zlen chunk + zlen out')); [|lia].
    rewrite (proj2 (IH (zlen chunk + zlen out' - zlen chunk) rest out' ltac:(lia) Hrest ltac:(lia)));
      [done|]. split; [done|lia].
Qed.

Lemma apply_loop_no_panic fuel base room data :
  (length data < fuel)%nat → bytes_ok data → apply_loop fuel base room data ≠ Panic.
Proof.
  revert room data. induction fuel as [|fuel IH]; intros room data Hf Hd; [lia|].
  destruct data as [|cmd data]; cbn [apply_loop]; [by destruct (room =? 0)|].
  apply bytes_ok_cons in Hd as [Hc Hd]. cbn [length] in Hf.
  destruct (if negb _ then _ else _) as [[chunk rest]|e|] eqn:E; cbn.
  - destruct (zlen chunk <=? room); [|done].
    apply first_cmd_spec in E; [|done|done].
    assert (bytes_ok rest ∧ (length rest ≤ length data)%nat) as [Hrest Hlen].
    { destruct E as [(_ & args & ? & ? & -> & ? & _)|(_ & -> & _)];
        (split; [by apply bytes_ok_app in Hd as [_ ?]|rewrite length_app; lia]). }
    specialize (IH (room - zlen chunk) rest ltac:(lia) Hrest).
    by destruct (apply_loop fuel base (room - zlen chunk) rest).
  - done.
  - exfalso. destruct (negb _); [by apply copy_cmd_no_panic in E|].
    destruct (cmd =? 0); [done|]. unfold insert_cmd in E. by destruct (split_at_checked _ _).
Qed.

(** C9: applying a delta succeeds with result [out] exactly when the instruction
    stream denotes [out] over the base object and [out] has the promised length; in
    every other case it reports an error, and no instruction stream makes it panic
    or run on. *)
Theorem delta_apply_exact (base data : bytes) (target_len : Z)
    (Hdata : bytes_ok data) (Hlen : 0 ≤ target_len) :
  (∀ out, apply base target_len data = Ok out ↔
          delta_run base data out ∧ zlen out = target_len) ∧
  apply base target_len data ≠ Panic.
Proof.
  unfold apply. split.
  - intros out. apply apply_loop_spec; [lia|done|done].
  - apply apply_loop_no_panic; [lia|done].
Qed.

(** Copy two bytes from offset one, then insert one byte. *)
Lemma delta_apply_exact_witness :
  delta_run [10; 20; 30; 40] [145; 1; 2; 1; 99] [20; 30; 99] ∧
  apply [10; 20; 30; 40] 2 [145; 1; 2; 1; 99] ≠ Panic.
Proof.
  destruct (delta_apply_exact [10; 20; 30; 40] [145; 1; 2; 1; 99] 3) as [H _];
    [apply (bool_decide_eq_true_1 _); reflexivity|lia|].
  destruct (delta_apply_exact [10; 20; 30; 40] [145; 1; 2; 1; 99] 2) as [_ H2];
    [apply (bool_decide_eq_true_1 _); reflexivity|lia|].
  split; [|exact H2]. apply (H [20; 30; 99]). reflexivity.
Defined.
