(* ===== verification/FanLookup.v ===== *)
(** * [gix-pack/src/index/{access,encode}.rs]: fan-out tables and lookups

    [lookup] and [lookup_prefix] are the free functions of [access.rs] that pack
    indices and multi-pack indices share, and [lookup] is also the body of
    [gix-commitgraph/src/file/access.rs: lookup_inner]. What they need from a
    file is the interface [id_table]: the fan, access to the id at a position,
    and the number of ids. [IdTableOk] states the promises of that interface
    about the sorted list of ids behind it; the theorems of this file are proved
    against it. [fanout] is the writer's side of the fan. *)

From stdpp Require Import sorting.
From S2P Require Import Prelude Hash.

(** ** The interface *)
Record id_table (E : Type) := {
  tab_fan : list Z;
  tab_at : Z → outcome E bytes;
  tab_num : Z;
}.
Arguments tab_fan {E}.
Arguments tab_at {E}.
Arguments tab_num {E}.

(** ** Operations *)
Definition midpoint (a b : Z) : Z := (a + b) / 2.

(** The bisection loop: [cmp] compares the wanted id with the one at a position.
    Halving a 32-bit range takes at most 33 rounds. *)
Fixpoint bisect {E} (fuel : nat) (cmp : Z → outcome E comparison) (lower upper : Z)
    : outcome E (option Z) :=
  match fuel with
  | O => Panic
  | S fuel =>
      if lower <? upper then
        let mid := midpoint lower upper in
        c ← cmp mid;
        match c with
        | Lt => bisect fuel cmp lower mid
        | Eq => Ok (Some mid)
        | Gt => bisect fuel cmp (mid + 1) upper
        end
      else Ok None
  end.
Definition bisect_fuel : nat := 33.

(** The range of positions the fan assigns to a first byte. *)
Definition fan_bounds {E} (fan : list Z) (first_byte : Z) : outcome E (Z * Z) :=
  upper ← expect (get fan first_byte);
  lower ← (if first_byte =? 0 then Ok 0 else expect (get fan (first_byte - 1)));
  Ok (lower, upper).

Definition lookup {E} (t : id_table E) (id : bytes) : outcome E (option Z) :=
  b ← first_byte id;
  '(lower, upper) ← fan_bounds (tab_fan t) b;
  bisect bisect_fuel (λ mid, mid_sha ← tab_at t mid; Ok (bytes_cmp id mid_sha)) lower upper.

(** [Ok(index)] and [Err(())] of [PrefixLookupResult]. *)
Inductive PrefixLookupResult :=
| Unique (index : Z)
| Ambiguous.

(** [((0..n).rev()).take_while(equal).last()] *)
Fixpoint scan_down {E} (equal : Z → outcome E bool) (n : nat) (found : option Z)
    : outcome E (option Z) :=
  match n with
  | O => Ok found
  | S n => same ← equal (Z.of_nat n);
           if (same : bool) then scan_down equal n (Some (Z.of_nat n)) else Ok found
  end.
(** [(next..next + n).take_while(equal).last()] *)
Fixpoint scan_up {E} (equal : Z → outcome E bool) (n : nat) (next : Z) (found : option Z)
    : outcome E (option Z) :=
  match n with
  | O => Ok found
  | S n => same ← equal next;
           if (same : bool) then scan_up equal n (next + 1) (Some next) else Ok found
  end.

(** The [Equal] arm of the loop of [lookup_prefix]: look at the neighbours of the
    match at [mid], all of them when the caller passes [candidates]. The second
    component is what [candidates] is set to. *)
Definition prefix_at {E} (equal : Z → outcome E bool) (num_objects mid : Z)
    (candidates : bool) : outcome E (option PrefixLookupResult * option (Z * Z)) :=
  if candidates then
    first_past_entry ← scan_down equal (Z.to_nat mid) None;
    last_future_entry ← scan_up equal (Z.to_nat (num_objects - (mid + 1))) (mid + 1) None;
    let range := match first_past_entry, last_future_entry with
                 | Some first, Some last => (first, last + 1)
                 | Some first, None => (first, mid + 1)
                 | None, Some last => (mid, last + 1)
                 | None, None => (mid, mid + 1)
                 end in
    Ok (Some (if snd range - fst range >? 1 then Ambiguous else Unique mid), Some range)
  else
    let next := mid + 1 in
    ambiguous_next ← (if next <? num_objects then equal next else Ok false);
    if (ambiguous_next : bool) then Ok (Some Ambiguous, None)
    else
      ambiguous_prev ← (if mid =? 0 then Ok false else equal (mid - 1));
      if (ambiguous_prev : bool) then Ok (Some Ambiguous, None)
      else Ok (Some (Unique mid), None).

Definition lookup_prefix {E} (t : id_table E) (prefix : Prefix) (candidates : bool)
    : outcome E (option PrefixLookupResult * option (Z * Z)) :=
  b ← first_byte (as_slice (prefix_bytes prefix));
  '(lower, upper) ← fan_bounds (tab_fan t) b;
  let cmp := λ i, sha ← tab_at t i; cmp_oid prefix sha in
  found ← bisect bisect_fuel cmp lower upper;
  match found with
  | Some mid =>
      prefix_at (λ i, c ← cmp i; Ok (match c with Eq => true | _ => false end))
        (tab_num t) mid candidates
  | None => Ok (None, if candidates then Some (0, 0) else None)
  end.

(** ** Writing the fan: [encode.rs: fanout] *)
Fixpoint find_other (byte : Z) (iter : list (Z * Z)) : option (Z * Z) * list (Z * Z) :=
  match iter with
  | [] => (None, [])
  | (idx, first_byte) :: iter =>
      if first_byte =? byte then find_other byte iter else (Some (idx, first_byte), iter)
  end.

(** The loop over the table slots that are left, [byte] being the first of them;
    the iterator has been advanced past [idx_and_entry]. *)
Fixpoint fanout_loop {E} (slots : list Z) (entries_len : Z) (idx_and_entry : option (Z * Z))
    (iter : list (Z * Z)) (upper_bound : Z) : outcome E (list Z) :=
  match slots with
  | [] => Ok []
  | byte :: slots =>
      match idx_and_entry with
      | Some (_, first_byte) =>
          match first_byte ?= byte with
          | Lt => Panic
          | Gt =>
              rest ← fanout_loop slots entries_len idx_and_entry iter upper_bound;
              Ok (upper_bound :: rest)
          | Eq =>
              if byte =? 255 then
                rest ← fanout_loop slots entries_len idx_and_entry iter upper_bound;
                Ok (entries_len :: rest)
              else
                let '(idx_and_entry, iter) := find_other byte iter in
                let upper_bound := match idx_and_entry with
                                   | Some (idx, _) => wrap 32 idx | None => entries_len end in
                rest ← fanout_loop slots entries_len idx_and_entry iter upper_bound;
                Ok (upper_bound :: rest)
          end
      | None =>
          rest ← fanout_loop slots entries_len idx_and_entry iter upper_bound;
          Ok (entries_len :: rest)
      end
  end.

Definition fanout {E} (first_bytes : bytes) : outcome E (list Z) :=
  let iter := imap (λ i b, (Z.of_nat i, b)) first_bytes in
  fanout_loop (seqZ 0 256) (wrap 32 (zlen first_bytes)) (head iter) (tail iter) 0.

(** ** The promises of the interface *)
Definition sorted_ids (ids : list bytes) : Prop :=
  ∀ i j x y, (i < j)%nat → ids !! i = Some x → ids !! j = Some y → bytes_le x y.

(** Slot [b] of the fan is the number of ids whose first byte is at most [b],
    stated for the sorted list of first bytes. *)
Definition fan_ok (fan : list Z) (first_bytes : bytes) : Prop :=
  ∀ b, 0 ≤ b < 256 →
    ∃ n, get fan b = Some n ∧ 0 ≤ n ≤ zlen first_bytes ∧
      ∀ i x, first_bytes !! i = Some x → (Z.of_nat i < n ↔ x ≤ b).

Definition first_of (id : bytes) : Z := hd 0 id.

Class IdTableOk {E} (t : id_table E) (k : Kind) (ids : list bytes) : Prop := {
  tab_num_ok : tab_num t = zlen ids;
  tab_num_u32 : zlen ids < 2 ^ 32;
  tab_at_ok : ∀ i x, ids !! i = Some x → tab_at t (Z.of_nat i) = Ok x;
  tab_ids_ok : ∀ x, x ∈ ids → zlen x = len_in_bytes k ∧ bytes_ok x;
  tab_sorted : sorted_ids ids;
  tab_fan_ok : fan_ok (tab_fan t) (first_of <$> ids);
}.

(** ** Lemmas: bisection of a monotone comparison *)

(** Going up the table, the wanted id compares [Gt], then [Eq], then [Lt]. *)
Definition descending (c : Z → comparison) (n : Z) : Prop :=
  ∀ i j, 0 ≤ i ≤ j → j < n → (c j = Gt → c i = Gt) ∧ (c i = Lt → c j = Lt).

Lemma midpoint_bounds a b : a < b → a ≤ midpoint a b < b.
Proof.
  intros H. unfold midpoint. pose proof (Z.div_mod (a + b) 2).
  pose proof (Z.mod_pos_bound (a + b) 2). lia.
Qed.

Lemma bisect_S {E} fuel (cmp : Z → outcome E comparison) lower upper :
  bisect (S fuel) cmp lower upper =
  if lower <? upper then
    c ← cmp (midpoint lower upper);
    match c with
    | Lt => bisect fuel cmp lower (midpoint lower upper)
    | Eq => Ok (Some (midpoint lower upper))
    | Gt => bisect fuel cmp (midpoint lower upper + 1) upper
    end
  else Ok None.
Proof. done. Qed.

Lemma bisect_spec {E} (cmp : Z → outcome E comparison) c n fuel lower upper :
  (∀ i, 0 ≤ i < n → cmp i = Ok (c i)) → descending c n →
  0 ≤ lower → upper ≤ n → upper - lower < 2 ^ Z.of_nat fuel →
  ∃ r, bisect (S fuel) cmp lower upper = Ok r ∧
    match r with
    | Some m => lower ≤ m < upper ∧ c m = Eq
    | None => ∀ i, lower ≤ i < upper → c i ≠ Eq
    end.
Proof.
  intros Hcmp Hdesc. revert lower upper.
  induction fuel as [|fuel IH]; intros lower upper Hl Hu Hf.
  - simpl in Hf. rewrite bisect_S. destruct (Z.ltb_spec lower upper); [lia|].
    eexists; split; [done|]. simpl. lia.
  - rewrite bisect_S. destruct (Z.ltb_spec lower upper) as [Hlt|].
    2:{ eexists; split; [done|]. simpl. lia. }
    pose proof (midpoint_bounds lower upper Hlt) as Hm. set (mid := midpoint lower upper) in *.
    rewrite Hcmp by lia. cbn [mbind outcome_bind].
    rewrite Nat2Z.inj_succ, Z.pow_succ_r in Hf by lia.
    assert (2 * mid ≤ lower + upper < 2 * mid + 2).
    { subst mid. unfold midpoint. pose proof (Z.div_mod (lower + upper) 2).
      pose proof (Z.mod_pos_bound (lower + upper) 2). lia. }
    destruct (c mid) eqn:Ec.
    + eexists; split; [done|]. simpl. split; [lia|done].
    + destruct (IH lower mid) as (r & -> & Hr); [lia|lia|lia|].
      eexists; split; [done|]. destruct r; [naive_solver lia|].
      intros i Hi. destruct (Z.lt_ge_cases i mid); [apply Hr; lia|].
      destruct (Hdesc mid i) as [_ H2]; [lia|lia|]. by rewrite H2.
    + destruct (IH (mid + 1) upper) as (r & -> & Hr); [lia|lia|lia|].
      eexists; split; [done|]. destruct r; [naive_solver lia|].
      intros i Hi. destruct (Z.lt_ge_cases mid i); [apply Hr; lia|].
      destruct (Hdesc i mid) as [H2 _]; [lia|lia|]. by rewrite H2.
Qed.

(** The positions a monotone comparison finds equal form an interval. *)
Lemma descending_interval c n :
  0 ≤ n → descending c n →
  ∃ a b, 0 ≤ a ≤ b ∧ b ≤ n ∧ (∀ i, 0 ≤ i < n → c i = Eq ↔ a ≤ i < b).
Proof.
  intros Hn. pattern n. apply natlike_ind; [|clear n Hn|done].
  - intros _. exists 0, 0. repeat split; lia.
  - intros n Hn IH Hd. destruct IH as (a & b & Hab & Hbn & Hi).
    { intros i j H1 H2. apply Hd; lia. }
    destruct (c n) eqn:Ec.
    + (* the new position is equal: extend, or start a fresh interval *)
      destruct (decide (a < b)) as [Hlt|Hge].
      * assert (b = n) as ->.
        { destruct (decide (b = n)); [done|]. exfalso.
          assert (c b ≠ Eq) by (intros H; apply Hi in H; lia).
          assert (c (b - 1) = Eq) by (apply Hi; lia).
          destruct (c b) eqn:Eb; try done.
          - destruct (Hd b n) as [_ H2]; [lia|lia|]. rewrite H2 in Ec; done.
          - destruct (Hd (b - 1) b) as [H2 _]; [lia|lia|]. rewrite H2 in *; done. }
        exists a, (Z.succ n). split; [lia|split; [lia|]]. intros i ?.
        destruct (decide (i = n)) as [->|]; [naive_solver lia|rewrite Hi; lia].
      * exists n, (Z.succ n). split; [lia|split; [lia|]]. intros i ?.
        destruct (decide (i = n)) as [->|]; [naive_solver lia|rewrite Hi; lia].
    + exists a, b. split; [lia|split; [lia|]]. intros i ?.
      destruct (decide (i = n)) as [->|]; [|apply Hi; lia].
      split; [congruence|]. lia.
    + exists a, b. split; [lia|split; [lia|]]. intros i ?.
      destruct (decide (i = n)) as [->|]; [|apply Hi; lia].
      split; [congruence|]. lia.
Qed.

(** ** Lemmas: searching a table *)

(** A way of comparing the wanted id with a stored one that respects the order. *)
Definition order_respecting (f : bytes → comparison) (len : Z) : Prop :=
  ∀ x y, zlen x = len → zlen y = len → bytes_le x y →
    (f y = Gt → f x = Gt) ∧ (f x = Lt → f y = Lt).

Lemma bytes_cmp_respects id len : order_respecting (bytes_cmp id) len.
Proof.
  intros x y _ _ Hle. split; intros H.
  - apply bytes_cmp_gt_lt. apply bytes_cmp_gt_lt in H. eauto using bytes_le_lt_trans.
  - eauto using bytes_lt_le_trans.
Qed.

Lemma digits_respect ds h len :
  order_respecting (λ x, bytes_cmp ds (take h (nibbles x))) len.
Proof.
  intros x y Hx Hy Hle.
  assert (bytes_le (take h (nibbles x)) (take h (nibbles y))) as Hd.
  { apply bytes_le_take; [rewrite !length_nibbles; unfold zlen in *; lia|].
    unfold bytes_le. by rewrite bytes_cmp_nibbles. }
  split; intros H.
  - apply bytes_cmp_gt_lt. apply bytes_cmp_gt_lt in H. eauto using bytes_le_lt_trans.
  - eauto using bytes_lt_le_trans.
Qed.

Lemma first_of_byte {k} x : zlen x = len_in_bytes k → bytes_ok x → is_byte (first_of x).
Proof.
  intros Hl Hb. destruct x; [destruct k; discriminate|]. by apply bytes_ok_cons in Hb as [? _].
Qed.

Lemma first_byte_of {F k} x :
  zlen x = len_in_bytes k → first_byte (E := F) x = Ok (first_of x).
Proof. intros Hl. destruct x; [destruct k; discriminate|done]. Qed.

Section Table.
Context {E : Type} {t : id_table E} {k : Kind} {ids : list bytes} {Hok : IdTableOk t k ids}.

(** The comparison with the id at a position, as a total function. *)
Definition at_pos (f : bytes → comparison) (i : Z) : comparison :=
  match ids !! Z.to_nat i with Some x => f x | None => Lt end.

Lemma tab_at_in i :
  0 ≤ i < zlen ids → ∃ x, ids !! Z.to_nat i = Some x ∧ tab_at t i = Ok x ∧
    zlen x = len_in_bytes k ∧ bytes_ok x.
Proof.
  intros Hi. destruct (lookup_lt_is_Some_2 ids (Z.to_nat i)) as [x Hx];
    [unfold zlen in *; lia|].
  exists x. split; [done|]. split.
  - rewrite <- (Z2Nat.id i) by lia. by apply tab_at_ok.
  - apply tab_ids_ok. by eapply list_elem_of_lookup_2.
Qed.

Lemma at_pos_descending f :
  order_respecting f (len_in_bytes k) → descending (at_pos f) (zlen ids).
Proof.
  intros Hf i j Hij Hj. unfold at_pos.
  destruct (tab_at_in i) as (x & Hx & _ & Hlx & _); [lia|].
  destruct (tab_at_in j) as (y & Hy & _ & Hly & _); [lia|].
  rewrite Hx, Hy. apply Hf; [done|done|].
  destruct (decide (i = j)) as [->|].
  - rewrite Hx in Hy. injection Hy as ->. unfold bytes_le. by rewrite bytes_cmp_refl.
  - eapply (tab_sorted (t := t) (k := k)); [|exact Hx|exact Hy]. lia.
Qed.

(** The fan's range contains every id with that first byte. *)
Lemma fan_bounds_spec b :
  is_byte b →
  ∃ lo up, fan_bounds (E := E) (tab_fan t) b = Ok (lo, up) ∧ 0 ≤ lo ∧ up ≤ zlen ids ∧
    up - lo < 2 ^ 32 ∧
    ∀ i x, ids !! i = Some x → first_of x = b → lo ≤ Z.of_nat i < up.
Proof.
  unfold is_byte. intros Hb. pose proof (tab_num_u32 (t := t) (k := k)) as Hn32.
  assert (zlen (first_of <$> ids) = zlen ids) as Hz by (unfold zlen; by rewrite length_fmap).
  destruct (tab_fan_ok (t := t) b Hb) as (up & Hup & Hupb & Hupi). rewrite Hz in Hupb.
  unfold fan_bounds. rewrite Hup. cbn [expect mbind outcome_bind].
  destruct (Z.eqb_spec b 0) as [->|Hne].
  - exists 0, up. cbn. repeat split; try lia. apply Hupi with (x := first_of x); [|lia].
    by apply list_lookup_fmap_Some_2.
  - destruct (tab_fan_ok (t := t) (b - 1) ltac:(lia)) as (lo & Hlo & Hlob & Hloi).
    rewrite Hz in Hlob. exists lo, up. rewrite Hlo. cbn [expect mbind outcome_bind].
    repeat split; try lia.
    + destruct (Z.lt_ge_cases (Z.of_nat i) lo) as [Hlt|]; [|done].
      apply (Hloi i (first_of x)) in Hlt; [lia|]. by apply list_lookup_fmap_Some_2.
    + apply Hupi with (x := first_of x); [|lia]. by apply list_lookup_fmap_Some_2.
Qed.

(** Bisecting the fan's range of a first byte finds an equal position of the
    whole table, if there is one. *)
Lemma bisect_table f (cmp : Z → outcome E comparison) b :
  is_byte b → order_respecting f (len_in_bytes k) →
  (∀ i x, ids !! i = Some x → tab_at t (Z.of_nat i) = Ok x → cmp (Z.of_nat i) = Ok (f x)) →
  (∀ x, x ∈ ids → f x = Eq → first_of x = b) →
  ∃ lo up r, fan_bounds (E := E) (tab_fan t) b = Ok (lo, up) ∧
    bisect bisect_fuel cmp lo up = Ok r ∧
    match r with
    | Some m => 0 ≤ m < zlen ids ∧ at_pos f m = Eq
    | None => ∀ i, 0 ≤ i < zlen ids → at_pos f i ≠ Eq
    end.
Proof.
  intros Hb Hf Hcmp Hfirst.
  destruct (fan_bounds_spec b Hb) as (lo & up & Hfb & Hlo & Hup & Hw & Hin).
  exists lo, up.
  destruct (bisect_spec cmp (at_pos f) (zlen ids) 32 lo up) as (r & Hr & Hres);
    [|by apply at_pos_descending|done|done|done|].
  { intros i Hi. destruct (tab_at_in i Hi) as (x & Hx & Ha & _).
    unfold at_pos. rewrite Hx. rewrite <- (Z2Nat.id i) in Ha |- * by lia.
    by eapply Hcmp. }
  exists r. split; [done|]. split; [done|]. destruct r as [m|].
  - destruct Hres as [Hm He]. split; [lia|done].
  - intros i Hi He. apply (Hres i); [|done].
    destruct (tab_at_in i Hi) as (x & Hx & _). unfold at_pos in He. rewrite Hx in He.
    specialize (Hin _ _ Hx (Hfirst x (list_elem_of_lookup_2 _ _ _ Hx) He)). lia.
Qed.
End Table.
Arguments at_pos : clear implicits.

Lemma lookup_spec {E} (t : id_table E) (k : Kind) (ids : list bytes) (id : bytes)
    (Htab : IdTableOk t k ids) (Hlen : zlen id = len_in_bytes k) (Hid : bytes_ok id) :
  ∃ r, lookup t id = Ok r ∧
    match r with
    | Some i => ids !! Z.to_nat i = Some id ∧ 0 ≤ i
    | None => id ∉ ids
    end.
Proof.
  unfold lookup. rewrite (first_byte_of (k := k)) by done. cbn [mbind outcome_bind].
  destruct (bisect_table (bytes_cmp id)
    (λ mid, mid_sha ← tab_at t mid; Ok (bytes_cmp id mid_sha)) (first_of id))
    as (lo & up & r & Hfb & Hbis & Hr).
  - by apply (first_of_byte (k := k)).
  - apply bytes_cmp_respects.
  - intros i x _ ->. done.
  - intros x _ Hx. by apply bytes_cmp_eq in Hx as ->.
  - rewrite Hfb. cbn [mbind outcome_bind]. exists r. split; [done|]. destruct r as [i|].
    + destruct Hr as [Hi Heq]. unfold at_pos in Heq.
      destruct (ids !! Z.to_nat i) eqn:Hx; [|done]. apply bytes_cmp_eq in Heq as ->.
      split; [done|lia].
    + intros Hin. apply list_elem_of_lookup in Hin as [i Hi].
      apply (Hr (Z.of_nat i)).
      * apply lookup_lt_Some in Hi as ?. unfold zlen. lia.
      * unfold at_pos. by rewrite Nat2Z.id, Hi, bytes_cmp_refl.
Qed.

(** On a sorted table of ids with its fan, [lookup()] of an id always returns:
    a position that holds this very id when the table contains it, and [None]
    exactly when it does not. *)
Theorem lookup_exact {E} (t : id_table E) (k : Kind) (ids : list bytes) (id : bytes)
    (Htab : IdTableOk t k ids) (Hlen : zlen id = len_in_bytes k) (Hid : bytes_ok id) :
  ∃ r, lookup t id = Ok r ∧
    match r with
    | Some i => ids !! Z.to_nat i = Some id ∧ 0 ≤ i
    | None => id ∉ ids
    end.
Proof. by apply (lookup_spec t k ids). Qed.

(** ** Lemmas: abbreviated ids *)
Lemma scan_down_spec {E} (equal : Z → outcome E bool) a n found :
  0 ≤ a → (∀ j, 0 ≤ j < Z.of_nat n → equal j = Ok (a <=? j)) →
  scan_down equal n found = Ok (if a <? Z.of_nat n then Some a else found).
Proof.
  intros Ha. revert found. induction n as [|n IH]; intros found Heq; cbn [scan_down].
  - destruct (Z.ltb_spec a (Z.of_nat 0)); [lia|done].
  - rewrite Heq by lia. cbn [mbind outcome_bind].
    destruct (Z.leb_spec a (Z.of_nat n)).
    + rewrite IH by (intros; apply Heq; lia).
      destruct (Z.ltb_spec a (Z.of_nat n)), (Z.ltb_spec a (Z.of_nat (S n))); try lia; try done.
      do 2 f_equal. lia.
    + destruct (Z.ltb_spec a (Z.of_nat (S n))); [lia|done].
Qed.

Lemma scan_up_spec {E} (equal : Z → outcome E bool) b n next found :
  b ≤ next + Z.of_nat n →
  (∀ j, next ≤ j < next + Z.of_nat n → equal j = Ok (j <? b)) →
  scan_up equal n next found = Ok (if next <? b then Some (b - 1) else found).
Proof.
  revert next found. induction n as [|n IH]; intros next found Hb Heq; cbn [scan_up].
  - destruct (Z.ltb_spec next b); [lia|done].
  - rewrite Heq by lia. cbn [mbind outcome_bind].
    destruct (Z.ltb_spec next b); [|done].
    rewrite IH by (try lia; intros; apply Heq; lia).
    destruct (Z.ltb_spec (next + 1) b); [done|]. do 2 f_equal. lia.
Qed.

Lemma digits_first_byte x s n :
  2 ≤ n → x ≠ [] → s ≠ [] →
  take (Z.to_nat n) (nibbles x) = take (Z.to_nat n) (nibbles s) → first_of x = first_of s.
Proof.
  intros Hn Hx Hs. destruct x as [|x0 x]; [done|]. destruct s as [|s0 s]; [done|].
  replace (Z.to_nat n) with (S (S (Z.to_nat (n - 2)))) by lia.
  cbn [nibbles]. rewrite !firstn_cons. intros [= H1 H2 _]. simpl.
  rewrite (Z.div_mod x0 16), (Z.div_mod s0 16) by lia. congruence.
Qed.

(** The outcome of a prefix lookup when positions [a] to [b] match. *)
Definition prefix_result (a b : Z) : option PrefixLookupResult :=
  if b - a =? 0 then None else if b - a =? 1 then Some (Unique a) else Some Ambiguous.
Definition prefix_candidates (a b : Z) : Z * Z := if b - a =? 0 then (0, 0) else (a, b).

(** The part of [lookup_prefix] after bisection, for an interval of matches. *)
Lemma prefix_extend {E} (equal : Z → outcome E bool) a b n mid (candidates : bool) :
  0 ≤ a → a ≤ mid < b → b ≤ n →
  (∀ j, 0 ≤ j < n → equal j = Ok ((a <=? j) && (j <? b))) →
  prefix_at equal n mid candidates =
  Ok (prefix_result a b, if candidates then Some (prefix_candidates a b) else None).
Proof.
  intros Ha Hm Hb Heq. unfold prefix_at, prefix_result, prefix_candidates.
  destruct (Z.eqb_spec (b - a) 0); [lia|]. destruct candidates.
  - rewrite (scan_down_spec equal a) by
      (try lia; intros; rewrite Heq by lia; f_equal; zb; done || lia).
    cbn [mbind outcome_bind].
    rewrite (scan_up_spec equal b) by
      (try lia; intros; rewrite Heq by lia; f_equal; zb; done || lia).
    cbn [mbind outcome_bind]. rewrite Z2Nat.id by lia.
    destruct (Z.ltb_spec a mid), (Z.ltb_spec (mid + 1) b); cbn [fst snd]; rewrite Z.gtb_ltb;
      zb; try lia; repeat f_equal; lia.
  - destruct (Z.ltb_spec (mid + 1) n) as [Hn|Hn].
    + rewrite (Heq (mid + 1)) by lia. cbn [mbind outcome_bind].
      destruct (Z.leb_spec a (mid + 1)); [|lia]. cbn [andb].
      destruct (Z.ltb_spec (mid + 1) b).
      * destruct (Z.eqb_spec (b - a) 1); [lia|done].
      * destruct (Z.eqb_spec mid 0).
        -- cbn. destruct (Z.eqb_spec (b - a) 1); [|lia]. repeat f_equal; lia.
        -- rewrite Heq by lia. cbn [mbind outcome_bind].
           destruct (Z.leb_spec a (mid - 1)), (Z.ltb_spec (mid - 1) b); cbn [andb]; try lia;
             destruct (Z.eqb_spec (b - a) 1); try lia; repeat f_equal; lia.
    + cbn [mbind outcome_bind]. destruct (Z.eqb_spec mid 0).
      * cbn. destruct (Z.eqb_spec (b - a) 1); [|lia]. repeat f_equal; lia.
      * rewrite Heq by lia. cbn [mbind outcome_bind].
        destruct (Z.leb_spec a (mid - 1)), (Z.ltb_spec (mid - 1) b); cbn [andb]; try lia;
          destruct (Z.eqb_spec (b - a) 1); try lia; repeat f_equal; lia.
Qed.

(** How a prefix compares with the digits of an id. *)
Definition prefix_cmp (p : Prefix) (x : bytes) : comparison :=
  bytes_cmp (prefix_digits p) (take (Z.to_nat (hex_len p)) (nibbles x)).

Lemma prefix_cmp_eq p x :
  prefix_cmp p x = Eq ↔ take (Z.to_nat (hex_len p)) (nibbles x) = prefix_digits p.
Proof. unfold prefix_cmp. rewrite bytes_cmp_eq. split; congruence. Qed.

Section PrefixTable.
Context {E : Type} {t : id_table E} {k : Kind} {ids : list bytes} {Hok : IdTableOk t k ids}.
Context (p : Prefix) (Hp : prefix_ok p) (Hkind : kind (prefix_bytes p) = k)
  (Hlen : 2 ≤ hex_len p).

Lemma cmp_oid_table i x : ids !! i = Some x → cmp_oid (E := E) p x = Ok (prefix_cmp p x).
Proof using All.
  intros Hx. apply list_elem_of_lookup_2 in Hx.
  destruct (tab_ids_ok (t := t) x Hx) as [Hlx Hbx].
  pose proof Hp as (_ & Hn & _). rewrite Hkind, len_hex_bytes in Hn.
  apply cmp_oid_spec; [done|done|lia].
Qed.

Lemma prefix_slice : zlen (as_slice (prefix_bytes p)) = len_in_bytes k ∧
                     bytes_ok (as_slice (prefix_bytes p)).
Proof using Hp Hkind. destruct Hp as ([Hl Hb] & _). by rewrite Hkind in Hl. Qed.

Lemma prefix_cmp_first x :
  x ∈ ids → prefix_cmp p x = Eq → first_of x = first_of (as_slice (prefix_bytes p)).
Proof using All.
  intros Hx He. apply prefix_cmp_eq in He.
  destruct (tab_ids_ok (t := t) x Hx) as [Hlx _]. destruct prefix_slice as [Hl _].
  eapply digits_first_byte; [exact Hlen| | |exact He].
  - intros ->. by destruct k.
  - intros Hn. rewrite Hn in Hl. by destruct k.
Qed.

(** [equal] of the source, at a position of the table. *)
Lemma prefix_equal_at a b j :
  (∀ i, 0 ≤ i < zlen ids → at_pos ids (prefix_cmp p) i = Eq ↔ a ≤ i < b) →
  0 ≤ j < zlen ids →
  (c ← (sha ← tab_at t j; cmp_oid p sha); Ok (match c with Eq => true | _ => false end)) =
  Ok (E := E) ((a <=? j) && (j <? b)).
Proof using All.
  intros Hi Hj. destruct (tab_at_in (t := t) (k := k) j Hj) as (x & Hx & -> & _).
  cbn [mbind outcome_bind]. rewrite (cmp_oid_table _ _ Hx). cbn [mbind outcome_bind].
  specialize (Hi j Hj). unfold at_pos in Hi. rewrite Hx in Hi. f_equal.
  destruct (prefix_cmp p x); [assert (a ≤ j < b) by (by apply Hi)|..];
    try assert (¬ (a ≤ j < b)) by (by rewrite <- Hi); clear Hi; zb; done || lia.
Qed.

Lemma prefix_bisect :
  ∃ lo up r,
    first_byte (E := E) (as_slice (prefix_bytes p)) =
      Ok (first_of (as_slice (prefix_bytes p))) ∧
    fan_bounds (E := E) (tab_fan t) (first_of (as_slice (prefix_bytes p))) = Ok (lo, up) ∧
    bisect bisect_fuel (λ i, sha ← tab_at t i; cmp_oid p sha) lo up = Ok r ∧
    match r with
    | Some m => 0 ≤ m < zlen ids ∧ at_pos ids (prefix_cmp p) m = Eq
    | None => ∀ i, 0 ≤ i < zlen ids → at_pos ids (prefix_cmp p) i ≠ Eq
    end.
Proof using All.
  destruct prefix_slice as [Hl Hb].
  edestruct (bisect_table (t := t) (k := k) (prefix_cmp p)
    (λ i, sha ← tab_at t i; cmp_oid p sha)) as (lo & up & r & Hfb & Hbis & Hr).
  - by apply (first_of_byte (k := k)).
  - apply digits_respect.
  - intros i x Hx ->. cbn. by eapply cmp_oid_table.
  - apply prefix_cmp_first.
  - exists lo, up, r. rewrite (first_byte_of (k := k)) by done. done.
Qed.
End PrefixTable.

(** [lookup_prefix] once the bisection has ended. *)
Lemma lookup_prefix_found {E} (t : id_table E) p (candidates : bool) b lo up r :
  first_byte (E := E) (as_slice (prefix_bytes p)) = Ok b →
  fan_bounds (E := E) (tab_fan t) b = Ok (lo, up) →
  bisect bisect_fuel (λ i, sha ← tab_at t i; cmp_oid p sha) lo up = Ok r →
  lookup_prefix t p candidates =
  match r with
  | Some mid =>
      prefix_at (λ i, c ← (sha ← tab_at t i; cmp_oid p sha);
                      Ok (match c with Eq => true | _ => false end))
        (tab_num t) mid candidates
  | None => Ok (None, if candidates then Some (0, 0) else None)
  end.
Proof.
  unfold lookup_prefix. generalize bisect_fuel as fuel. intros fuel H1 H2 H3.
  rewrite H1. cbn [mbind outcome_bind]. rewrite H2. cbn [mbind outcome_bind].
  rewrite H3. done.
Qed.

(** ** Tables of files that are not trusted

    What opening a file establishes about its table, whatever the order of the ids:
    enough for the lookups to return. *)
Class IdTableSafe {E} (t : id_table E) (k : Kind) : Prop := {
  safe_num : 0 ≤ tab_num t < 2 ^ 32;
  safe_at : ∀ i, 0 ≤ i < tab_num t →
    ∃ x, tab_at t i = Ok x ∧ zlen x = len_in_bytes k ∧ bytes_ok x;
  safe_fan_len : zlen (tab_fan t) = 256;
  safe_fan_mono : ∀ i j x y, 0 ≤ i ≤ j →
    get (tab_fan t) i = Some x → get (tab_fan t) j = Some y → x ≤ y;
  safe_fan_range : Forall (λ x, 0 ≤ x < 2 ^ 32) (tab_fan t);
  safe_fan_last : get (tab_fan t) 255 = Some (tab_num t);
}.

(** Bisection within the table returns, whatever the order of the ids. *)
Lemma bisect_total {E} (cmp : Z → outcome E comparison) (P : Z → Prop) n fuel lower upper :
  (∀ i, 0 ≤ i < n → ∃ c, cmp i = Ok c ∧ (c = Eq → P i)) →
  0 ≤ lower → upper ≤ n → upper - lower < 2 ^ Z.of_nat fuel →
  ∃ r, bisect (S fuel) cmp lower upper = Ok r ∧
    match r with Some m => 0 ≤ m < n ∧ P m | None => True end.
Proof.
  intros Hcmp. revert lower upper.
  induction fuel as [|fuel IH]; intros lower upper Hl Hu Hf.
  - simpl in Hf. rewrite bisect_S. destruct (Z.ltb_spec lower upper); [lia|]. by eexists.
  - rewrite bisect_S. destruct (Z.ltb_spec lower upper) as [Hlt|]; [|by eexists].
    pose proof (midpoint_bounds lower upper Hlt) as Hm.
    assert (2 * midpoint lower upper ≤ lower + upper < 2 * midpoint lower upper + 2).
    { unfold midpoint. pose proof (Z.div_mod (lower + upper) 2).
      pose proof (Z.mod_pos_bound (lower + upper) 2). lia. }
    destruct (Hcmp (midpoint lower upper)) as (c & -> & HP); [lia|]. cbn [mbind outcome_bind].
    rewrite Nat2Z.inj_succ, Z.pow_succ_r in Hf by lia. destruct c.
    + eexists; split; [done|]. simpl. split; [lia|auto].
    + apply IH; lia.
    + apply IH; lia.
Qed.

Section SafeTable.
Context {E : Type} (t : id_table E) (k : Kind) {Hsafe : IdTableSafe t k}.

Lemma fan_bounds_total b :
  is_byte b → ∃ lo up, fan_bounds (E := E) (tab_fan t) b = Ok (lo, up) ∧ 0 ≤ lo ∧ up ≤ tab_num t.
Proof using Hsafe.
  unfold is_byte. intros Hb. pose proof (safe_fan_len (t := t) (k := k)) as Hl.
  pose proof (safe_fan_range (t := t) (k := k)) as Hr. rewrite Forall_lookup in Hr.
  destruct (get_in (tab_fan t) b) as (up & Hup & _); [lia|].
  pose proof (safe_fan_mono b 255 up _ ltac:(lia) Hup (safe_fan_last (k := k))).
  unfold fan_bounds. rewrite Hup. cbn [expect mbind outcome_bind].
  destruct (Z.eqb_spec b 0); [exists 0, up; done|].
  destruct (get_in (tab_fan t) (b - 1)) as (lo & Hlo & Hlol); [lia|]. rewrite Hlo.
  exists lo, up. split; [done|]. split; [|lia]. specialize (Hr _ _ Hlol). simpl in Hr. lia.
Qed.

Lemma lookup_total id :
  zlen id = len_in_bytes k → bytes_ok id →
  ∃ r, lookup t id = Ok r ∧
    match r with Some i => 0 ≤ i < tab_num t ∧ tab_at t i = Ok id | None => True end.
Proof using Hsafe.
  intros Hid Hb. pose proof (safe_num (t := t) (k := k)) as Hn.
  unfold lookup. rewrite (first_byte_of (k := k)) by done. cbn [mbind outcome_bind].
  destruct (fan_bounds_total (first_of id)) as (lo & up & -> & Hlo & Hup);
    [by apply (first_of_byte (k := k))|]. cbn [mbind outcome_bind].
  apply (bisect_total _ (λ m, tab_at t m = Ok id) (tab_num t) 32); [|lia|lia|lia].
  intros i Hi. destruct (safe_at (k := k) i Hi) as (x & Hx & _). rewrite Hx. cbn [mbind outcome_bind].
  eexists; split; [done|]. by intros ->%bytes_cmp_eq.
Qed.

Context (p : Prefix) (Hp : prefix_ok p) (Hkind : kind (prefix_bytes p) = k).

Lemma cmp_at_total i :
  0 ≤ i < tab_num t →
  ∃ x, tab_at t i = Ok x ∧
    (sha ← tab_at t i; cmp_oid (E := E) p sha) =
    Ok (bytes_cmp (prefix_digits p) (take (Z.to_nat (hex_len p)) (nibbles x))).
Proof using Hsafe Hp Hkind.
  intros Hi. destruct (safe_at (k := k) i Hi) as (x & Hx & Hl & Hb). exists x. split; [done|].
  rewrite Hx. cbn [mbind outcome_bind]. pose proof Hp as (_ & Hn & _).
  rewrite Hkind, len_hex_bytes in Hn. apply cmp_oid_spec; [done|done|lia].
Qed.

Lemma equal_total i :
  0 ≤ i < tab_num t →
  ∃ b, (c ← (sha ← tab_at t i; cmp_oid (E := E) p sha);
        Ok (E := E) (match c with Eq => true | _ => false end)) = Ok b.
Proof using Hsafe Hp Hkind.
  intros Hi. destruct (cmp_at_total i Hi) as (x & _ & ->). by eexists.
Qed.

Lemma scan_down_total (equal : Z → outcome E bool) n found :
  (∀ j, 0 ≤ j < Z.of_nat n → ∃ b, equal j = Ok b) → ∃ r, scan_down equal n found = Ok r.
Proof.
  revert found. induction n as [|n IH]; intros found Heq; cbn [scan_down]; [by eexists|].
  destruct (Heq (Z.of_nat n)) as ([] & ->); [lia| |]; cbn [mbind outcome_bind]; [|by eexists].
  apply IH. intros j Hj. apply Heq. lia.
Qed.
Lemma scan_up_total (equal : Z → outcome E bool) n next found :
  (∀ j, next ≤ j < next + Z.of_nat n → ∃ b, equal j = Ok b) → ∃ r, scan_up equal n next found = Ok r.
Proof.
  revert next found. induction n as [|n IH]; intros next found Heq; cbn [scan_up]; [by eexists|].
  destruct (Heq next) as ([] & ->); [lia| |]; cbn [mbind outcome_bind]; [|by eexists].
  apply IH. intros j Hj. apply Heq. lia.
Qed.

(** Looking at the neighbours of a match; a unique result is the match itself. *)
Lemma prefix_at_total (equal : Z → outcome E bool) n mid (candidates : bool) :
  (∀ j, 0 ≤ j < n → ∃ b, equal j = Ok b) → 0 ≤ mid < n →
  ∃ r o, prefix_at equal n mid candidates = Ok (Some r, o) ∧ (r = Ambiguous ∨ r = Unique mid).
Proof.
  intros Heq Hm. unfold prefix_at. destruct candidates.
  - destruct (scan_down_total equal (Z.to_nat mid) None) as (a & ->); [intros; apply Heq; lia|].
    cbn [mbind outcome_bind].
    destruct (scan_up_total equal (Z.to_nat (n - (mid + 1))) (mid + 1) None) as (b & ->);
      [intros; apply Heq; lia|]. cbn [mbind outcome_bind].
    eexists _, _. split; [done|]. destruct (_ >? 1); auto.
  - assert (∃ b, (if mid + 1 <? n then equal (mid + 1) else Ok false) = Ok b) as (b1 & ->).
    { destruct (Z.ltb_spec (mid + 1) n); [apply Heq; lia|by eexists]. }
    cbn [mbind outcome_bind]. destruct b1; [by eauto|].
    assert (∃ b, (if mid =? 0 then Ok false else equal (mid - 1)) = Ok b) as (b2 & ->).
    { destruct (Z.eqb_spec mid 0); [by eexists|apply Heq; lia]. }
    cbn [mbind outcome_bind]. destruct b2; eauto.
Qed.

Lemma lookup_prefix_total (candidates : bool) :
  ∃ r o, lookup_prefix t p candidates = Ok (r, o) ∧
    match r with
    | Some (Unique i) => 0 ≤ i < tab_num t ∧ ∃ x, tab_at t i = Ok x ∧
        take (Z.to_nat (hex_len p)) (nibbles x) = prefix_digits p
    | _ => True
    end.
Proof using Hsafe Hp Hkind.
  pose proof (safe_num (t := t) (k := k)) as Hn.
  assert (zlen (as_slice (prefix_bytes p)) = len_in_bytes k ∧ bytes_ok (as_slice (prefix_bytes p))) as [Hl Hb].
  { destruct Hp as ([Hl Hb] & _). by rewrite Hkind in Hl. }
  pose proof (first_byte_of (F := E) (k := k) _ Hl) as Hfirst.
  destruct (fan_bounds_total (first_of (as_slice (prefix_bytes p)))) as (lo & up & Hfb & Hlo & Hup);
    [by apply (first_of_byte (k := k))|].
  destruct (bisect_total (λ i, sha ← tab_at t i; cmp_oid p sha)
    (λ m, ∃ x, tab_at t m = Ok x ∧ take (Z.to_nat (hex_len p)) (nibbles x) = prefix_digits p)
    (tab_num t) 32 lo up) as (r & Hr & Hres); [|lia|lia|lia|].
  { intros i Hi. destruct (cmp_at_total i Hi) as (x & Hx & ->). eexists; split; [done|].
    intros He%bytes_cmp_eq. by exists x. }
  rewrite (lookup_prefix_found t p candidates _ _ _ _ Hfirst Hfb Hr). destruct r as [mid|].
  - destruct Hres as (Hm & x & Hx & He).
    destruct (prefix_at_total (λ i, c ← (sha ← tab_at t i; cmp_oid p sha);
      Ok (match c with Eq => true | _ => false end)) (tab_num t) mid candidates) as (r & o & -> & Hr');
      [apply equal_total|done|].
    exists (Some r), o. split; [done|]. destruct Hr' as [-> | ->]; [done|]. split; [done|]. by exists x.
  - by eexists None, _.
Qed.
End SafeTable.

(** C11: for a prefix of at least two digits on a sorted table, the ids that start
    with it occupy an interval of positions; [lookup_prefix()] reports exactly
    whether that interval is empty, a single id, or more than one, and sets
    [candidates] to it, whether or not candidates are requested. *)
Theorem lookup_prefix_exact {E} (t : id_table E) (k : Kind) (ids : list bytes) (p : Prefix)
    (candidates : bool)
    (Htab : IdTableOk t k ids) (Hp : prefix_ok p) (Hkind : kind (prefix_bytes p) = k)
    (Hlen : 2 ≤ hex_len p) :
  ∃ a b, 0 ≤ a ≤ b ∧ b ≤ zlen ids ∧
    (∀ i x, ids !! i = Some x →
       take (Z.to_nat (hex_len p)) (nibbles x) = prefix_digits p ↔ a ≤ Z.of_nat i < b) ∧
    lookup_prefix t p candidates =
    Ok (prefix_result a b, if candidates then Some (prefix_candidates a b) else None).
Proof.
  destruct (descending_interval (at_pos ids (prefix_cmp p)) (zlen ids) (zlen_nonneg ids))
    as (a & b & Hab & Hbn & Hi).
  { eapply (at_pos_descending (t := t) (k := k)). apply digits_respect. }
  exists a, b. split; [done|]. split; [done|]. split.
  { intros i x Hx. rewrite <- prefix_cmp_eq, <- Hi by
      (apply lookup_lt_Some in Hx; unfold zlen; lia).
    unfold at_pos. by rewrite Nat2Z.id, Hx. }
  destruct (prefix_bisect (t := t) (k := k) p Hp Hkind Hlen)
    as (lo & up & r & Hfb & Hfan & Hbis & Hr).
  rewrite (lookup_prefix_found t p candidates _ _ _ _ Hfb Hfan Hbis).
  destruct r as [mid|].
  - destruct Hr as [Hm He]. apply Hi in He; [|done].
    rewrite (tab_num_ok (t := t) (k := k)). apply prefix_extend; [lia|lia|lia|].
    intros j Hj. by apply (prefix_equal_at (t := t) (k := k)).
  - assert (a = b) as <-.
    { destruct (decide (a < b)); [|lia]. exfalso. apply (Hr a); [lia|]. apply Hi; lia. }
    unfold prefix_result, prefix_candidates. by rewrite Z.sub_diag.
Qed.

(** ** Lemmas: the fan that is written *)

(** The reference definition: how many first bytes are at most [b]. *)
Definition count_le (first_bytes : bytes) (b : Z) : Z :=
  zlen (filter (λ x, x ≤ b) first_bytes).

Fixpoint number_from (k : Z) (l : bytes) : list (Z * Z) :=
  match l with [] => [] | x :: l => (k, x) :: number_from (k + 1) l end.

Lemma imap_number_from l n :
  imap (λ i b, (Z.of_nat (n + i), b)) l = number_from (Z.of_nat n) l.
Proof.
  revert n. induction l as [|x l IH]; intros n; [done|]. rewrite imap_cons. cbn.
  rewrite Nat.add_0_r. f_equal.
  replace (Z.of_nat n + 1) with (Z.of_nat (S n)) by lia. rewrite <- IH.
  apply imap_ext. intros i y _. simpl. do 2 f_equal. lia.
Qed.

Lemma count_le_app l1 l2 b : count_le (l1 ++ l2) b = count_le l1 b + count_le l2 b.
Proof. unfold count_le. by rewrite list.filter_app, zlen_app. Qed.
Lemma count_le_all l b : Forall (λ x, x ≤ b) l → count_le l b = zlen l.
Proof.
  unfold count_le. induction 1 as [|x l Hx _ IH]; [done|].
  rewrite filter_cons_True by done. rewrite !zlen_cons. lia.
Qed.
Lemma count_le_none l b : Forall (λ x, b < x) l → count_le l b = 0.
Proof.
  unfold count_le. induction 1 as [|x l Hx _ IH]; [done|]. by rewrite filter_cons_False by lia.
Qed.

Lemma find_other_spec B l k :
  StronglySorted Z.le l → Forall (λ x, B ≤ x) l →
  ∃ c l', l = replicate c B ++ l' ∧ Forall (λ x, B < x) l' ∧
    find_other B (number_from k l) =
    (head (number_from (k + Z.of_nat c) l'), tail (number_from (k + Z.of_nat c) l')).
Proof.
  intros Hs Hb. revert k. induction Hs as [|x l Hs IH Hx]; intros k.
  - by exists 0%nat, [].
  - apply Forall_cons_1 in Hb as [Hxb Hb]. cbn [number_from find_other].
    destruct (Z.eqb_spec x B) as [->|Hne].
    + destruct (IH Hb (k + 1)) as (c & l' & -> & Hl' & ->).
      exists (S c), l'. split; [done|]. split; [done|].
      by replace (k + Z.of_nat (S c)) with (k + 1 + Z.of_nat c) by lia.
    + exists 0%nat, (x :: l). split; [done|]. split.
      * constructor; [lia|]. eapply Forall_impl; [|exact Hx]. simpl. lia.
      * cbn. by rewrite Z.add_0_r.
Qed.

Lemma StronglySorted_suffix {A} (R : relation A) l1 l2 :
  StronglySorted R (l1 ++ l2) → StronglySorted R l2.
Proof. induction l1 as [|x l1 IH]; [done|]. intros H. inversion H; subst. auto. Qed.

Lemma fanout_loop_spec {E} m B l k n :
  B + Z.of_nat m = 256 → 0 ≤ k → n = k + zlen l → n < 2 ^ 32 →
  StronglySorted Z.le l → Forall (λ x, B ≤ x < 256) l →
  fanout_loop (E := E) (seqZ B (Z.of_nat m)) n (head (number_from k l))
    (tail (number_from k l)) k =
  Ok ((λ b, k + count_le l b) <$> seqZ B (Z.of_nat m)).
Proof.
  revert B l k. induction m as [|m IH]; intros B l k HB Hk Hn H32 Hs Hb; [done|].
  rewrite seqZ_cons by lia. replace (Z.pred (Z.of_nat (S m))) with (Z.of_nat m) by lia.
  destruct l as [|x l]; cbn [number_from head hd_error tail fanout_loop].
  - pose proof (IH (Z.succ B) [] k ltac:(lia) Hk Hn H32 Hs ltac:(constructor)) as IHn.
    cbn [number_from head hd_error tail] in IHn. rewrite IHn. cbn. f_equal. f_equal. subst n. done.
  - pose proof Hb as [Hx Hbl]%Forall_cons_1. apply StronglySorted_inv in Hs as Hs'.
    destruct Hs' as [Hsl Hxl].
    destruct (Z.compare_spec x B) as [->|?|Hgt]; [|lia|].
    + destruct (Z.eqb_spec B 255) as [->|HB255].
      * assert (m = 0)%nat as -> by lia. change (seqZ (Z.succ 255) (Z.of_nat 0)) with (@nil Z).
        rewrite fmap_cons. cbn [mbind outcome_bind fanout_loop fmap list_fmap]. do 2 f_equal.
        rewrite count_le_all; [lia|].
        eapply Forall_impl; [|exact Hb]. simpl. lia.
      * destruct (find_other_spec B l (k + 1)) as (c & l' & -> & Hl' & ->).
        { done. } { eapply Forall_impl; [|exact Hbl]. simpl. lia. }
        set (k' := k + 1 + Z.of_nat c). rewrite zlen_cons, zlen_app in Hn.
        assert (zlen (replicate c B) = Z.of_nat c) as Hc
          by (unfold zlen; by rewrite length_replicate).
        pose proof (zlen_nonneg l') as Hl0.
        assert (match head (number_from k' l') with
                | Some (idx, _) => wrap 32 idx | None => n end = k') as ->.
        { destruct l'; cbn; [rewrite zlen_nil in Hn; lia|]. apply wrap_small.
          rewrite zlen_cons in Hn. pose proof (zlen_nonneg l'). unfold in_u. lia. }
        rewrite (IH (Z.succ B) l' k'); [|lia|lia|lia|done| |].
        -- cbn. do 2 f_equal.
           ++ change (B :: replicate c B ++ l') with (replicate (S c) B ++ l').
              rewrite count_le_app, (count_le_none l') by done.
              rewrite count_le_all by (apply Forall_replicate; lia). unfold zlen.
              rewrite length_replicate. lia.
           ++ apply list_fmap_ext. intros i b Hi. apply lookup_seqZ in Hi as [-> Hi].
              change (B :: replicate c B ++ l') with (replicate (S c) B ++ l').
              rewrite count_le_app, (count_le_all (replicate (S c) B)) by
                (apply Forall_replicate; lia). unfold zlen. rewrite length_replicate. lia.
        -- by eapply StronglySorted_suffix.
        -- apply Forall_app in Hbl as [_ Hbl]. apply list.Forall_forall. intros y Hy.
           rewrite list.Forall_forall in Hl', Hbl. specialize (Hl' _ Hy). specialize (Hbl _ Hy). lia.
    + pose proof (IH (Z.succ B) (x :: l) k ltac:(lia) Hk Hn H32 Hs) as IHn.
      cbn [number_from head hd_error tail] in IHn. rewrite IHn.
      * cbn. do 2 f_equal. rewrite count_le_none; [lia|]. constructor; [lia|].
        eapply Forall_impl; [|exact Hxl]. simpl. lia.
      * constructor; [lia|]. apply list.Forall_forall. intros y Hy.
        rewrite list.Forall_forall in Hxl, Hbl. specialize (Hxl _ Hy). specialize (Hbl _ Hy). lia.
Qed.

Lemma fanout_spec {E} (first_bytes : bytes) :
  StronglySorted Z.le first_bytes → bytes_ok first_bytes → zlen first_bytes < 2 ^ 32 →
  fanout (E := E) first_bytes = Ok (count_le first_bytes <$> seqZ 0 256).
Proof.
  intros Hs Hb Hlen. unfold fanout.
  pose proof (imap_number_from first_bytes 0) as Hn. cbn [Nat.add] in Hn. rewrite Hn.
  rewrite wrap_small by (pose proof (zlen_nonneg first_bytes); lia).
  change 256 with (Z.of_nat 256). rewrite (fanout_loop_spec 256 0 first_bytes 0); try done; lia.
Qed.

Lemma count_le_lookup l b i x :
  StronglySorted Z.le l → l !! i = Some x → Z.of_nat i < count_le l b ↔ x ≤ b.
Proof.
  intros Hs. revert i. induction Hs as [|y l Hs IH Hy]; intros i Hi; [done|].
  change (y :: l) with ([y] ++ l). rewrite count_le_app.
  destruct (Z.le_gt_cases y b) as [Hle|Hgt].
  - rewrite (count_le_all [y]) by (by constructor).
    change (zlen [y]) with 1. destruct i as [|i].
    + injection Hi as ->. unfold count_le. pose proof (zlen_nonneg (filter (λ x, x ≤ b) l)). lia.
    + rewrite <- (IH i Hi). lia.
  - rewrite (count_le_none [y]) by (by repeat constructor).
    rewrite (count_le_none l) by (eapply Forall_impl; [|exact Hy]; simpl; lia).
    apply list_elem_of_lookup_2, elem_of_cons in Hi as [->|Hi]; [lia|].
    rewrite list.Forall_forall in Hy. specialize (Hy _ Hi). lia.
Qed.

Lemma count_le_bounds l b : 0 ≤ count_le l b ≤ zlen l.
Proof. unfold count_le, zlen. pose proof (list.length_filter (λ x, x ≤ b) l). lia. Qed.

(** The fan that is written keeps the promise of the interface. *)
Lemma count_le_fan_ok first_bytes :
  StronglySorted Z.le first_bytes → fan_ok (count_le first_bytes <$> seqZ 0 256) first_bytes.
Proof.
  intros Hs b Hb. exists (count_le first_bytes b). split; [|split].
  - unfold get. destruct (Z.leb_spec 0 b); [|lia]. rewrite list_lookup_fmap.
    rewrite lookup_seqZ_lt by lia. cbn. by rewrite Z2Nat.id.
  - apply count_le_bounds.
  - intros i x Hi. by apply count_le_lookup.
Qed.

(** For the first bytes of ids in order, [fanout()] never reaches its
    [unreachable!()] and writes in slot [b], for each of the 256, how many ids
    start with a byte of at most [b]. *)
Theorem fanout_counts {E} (first_bytes : bytes)
    (Hs : StronglySorted Z.le first_bytes) (Hb : bytes_ok first_bytes)
    (Hlen : zlen first_bytes < 2 ^ 32) :
  fanout (E := E) first_bytes = Ok (count_le first_bytes <$> seqZ 0 256).
Proof. by apply fanout_spec. Qed.

Lemma fanout_counts_witness :
  fanout (E := unit) [0; 7; 7; 9; 255; 255] =
  Ok (count_le [0; 7; 7; 9; 255; 255] <$> seqZ 0 256).
Proof.
  apply (fanout_counts (E := unit) [0; 7; 7; 9; 255; 255]).
  - repeat constructor; lia.
  - repeat constructor; lia.
  - vm_compute. reflexivity.
Defined.

(** ** A table held in memory *)
Definition list_table {E} (ids : list bytes) (fan : list Z) : id_table E :=
  {| tab_fan := fan;
     tab_at := λ i, match ids !! Z.to_nat i with Some x => Ok x | None => Panic end;
     tab_num := zlen ids |}.

Lemma first_of_sorted k ids :
  (∀ x, x ∈ ids → zlen x = len_in_bytes k ∧ bytes_ok x) → sorted_ids ids →
  StronglySorted Z.le (first_of <$> ids).
Proof.
  intros Hk Hs. induction ids as [|x ids IH]; [constructor|].
  rewrite fmap_cons. constructor.
  - apply IH; [intros y Hy; apply Hk; by right|].
    intros i j y z Hij Hy Hz. apply (Hs (S i) (S j)); [lia|done|done].
  - apply list.Forall_forall. intros b Hb. apply list_elem_of_fmap in Hb as (y & -> & Hy).
    destruct (Hk x) as [Hx _]; [by left|]. destruct (Hk y) as [Hy' _]; [by right|].
    apply list_elem_of_lookup in Hy as [i Hi].
    pose proof (Hs 0%nat (S i) x y ltac:(lia) eq_refl Hi) as Hle.
    destruct x as [|x0 x]; [by destruct k|]. destruct y as [|y0 y]; [by destruct k|].
    unfold bytes_le in Hle. simpl in *. destruct (Z.compare_spec x0 y0); try lia. done.
Qed.

Global Instance list_table_ok {E} k ids :
  (∀ x, x ∈ ids → zlen x = len_in_bytes k ∧ bytes_ok x) → sorted_ids ids →
  zlen ids < 2 ^ 32 →
  IdTableOk (E := E) (list_table ids (count_le (first_of <$> ids) <$> seqZ 0 256)) k ids.
Proof.
  intros Hk Hs Hn. split; try done.
  - intros i x Hx. simpl. by rewrite Nat2Z.id, Hx.
  - by apply count_le_fan_ok, (first_of_sorted k).
Qed.

(** Three ids, of which the first two share their first three digits. *)
Definition sample_ids : list bytes :=
  [[10; 0x12] ++ replicate 18 0; [10; 0x17] ++ replicate 18 1; [200] ++ replicate 19 3].
Definition sample_table : id_table unit :=
  list_table sample_ids (count_le (first_of <$> sample_ids) <$> seqZ 0 256).

Lemma sample_table_ok : IdTableOk sample_table Sha1 sample_ids.
Proof.
  apply list_table_ok; [| |vm_compute; reflexivity].
  - intros x Hx. unfold sample_ids in Hx. rewrite !elem_of_cons in Hx.
    destruct Hx as [->|[->|[->|Hx]]]; [..|by apply elem_of_nil in Hx];
      (split; [done|repeat (constructor; [by unfold is_byte|]); constructor]).
  - intros i j x y Hij Hx Hy.
    destruct i as [|[|[|i]]], j as [|[|[|j]]]; try lia; simplify_eq/=; vm_compute; discriminate.
Qed.

Lemma lookup_exact_witness :
  ∃ r, lookup sample_table ([200] ++ replicate 19 3) = Ok r ∧
    match r with
    | Some i => sample_ids !! Z.to_nat i = Some ([200] ++ replicate 19 3) ∧ 0 ≤ i
    | None => ([200] ++ replicate 19 3) ∉ sample_ids
    end.
Proof.
  apply (lookup_exact sample_table Sha1 sample_ids).
  - exact sample_table_ok.
  - reflexivity.
  - repeat (constructor; [by unfold is_byte|]); constructor.
Defined.

Definition sample_prefix : Prefix :=
  {| prefix_bytes := OidSha1 ([10; 0x10] ++ replicate 18 0); hex_len := 3 |}.

Lemma lookup_prefix_exact_witness :
  ∃ a b, 0 ≤ a ≤ b ∧ b ≤ zlen sample_ids ∧
    (∀ i x, sample_ids !! i = Some x →
       take (Z.to_nat (hex_len sample_prefix)) (nibbles x) = prefix_digits sample_prefix
         ↔ a ≤ Z.of_nat i < b) ∧
    lookup_prefix sample_table sample_prefix true =
    Ok (prefix_result a b, Some (prefix_candidates a b)).
Proof.
  apply (lookup_prefix_exact sample_table Sha1 sample_ids sample_prefix true).
  - exact sample_table_ok.
  - split; [split; [reflexivity|]|split; [vm_compute; split; discriminate|]].
    + repeat (constructor; [by unfold is_byte|]); constructor.
    + vm_compute. repeat (constructor; [reflexivity|]); constructor.
  - reflexivity.
  - vm_compute. discriminate.
Defined.

Example sample_ambiguous :
  lookup_prefix sample_table sample_prefix true = Ok (Some Ambiguous, Some (0, 2)).
Proof. vm_compute. reflexivity. Qed.

(** A prefix of a single digit only searches the ids whose second digit is zero:
    the third id starts with [c8]. *)
Example single_digit_prefix_misses :
  lookup_prefix sample_table
    {| prefix_bytes := OidSha1 (0xc0 :: replicate 19 0); hex_len := 1 |} false =
  Ok (None, None).
Proof. vm_compute. reflexivity. Qed.
