(* ===== verification/PackIndex.v ===== *)
(** * [gix-pack/src/index/{init,access,encode}.rs]: pack index files

    [File] is [index::File] without its path. [from_data] validates the bytes of
    a file, the accessors read its tables with slice operations that panic when
    they are out of range, and [write_to] is the writer of version 2 files, whose
    hasher ([gix_hash::io::Write], a wrapper of third-party SHA implementations)
    is a parameter and whose output is the list of bytes written. Index
    arithmetic of the accessors is on 64-bit [usize]: a 32-bit position times at
    most 36 cannot overflow, so plain [Z] arithmetic is used for it; the
    validation's [checked_*] arithmetic is kept. *)

From stdpp Require Import sorting.
From S2P Require Import Prelude Hash FanLookup.

Inductive Version := V1 | V2.
#[export] Instance Version_eq_dec : EqDecision Version.
Proof. solve_decision. Defined.
Definition version_number (v : Version) : Z := match v with V1 => 1 | V2 => 2 end.

Definition FAN_LEN : Z := 256.
Definition N32_SIZE : Z := 4.
Definition N64_SIZE : Z := 8.
Definition V2_SIGNATURE : bytes := [255; 116; 79; 99].
Definition V1_HEADER_SIZE : Z := FAN_LEN * N32_SIZE.
Definition V2_HEADER_SIZE : Z := N32_SIZE * 2 + FAN_LEN * N32_SIZE.
Definition N32_HIGH_BIT : Z := 2 ^ 31.

Record File := {
  data : bytes;
  version : Version;
  num_objects : Z;
  fan : list Z;
  hash_len : Z;
  object_hash : Kind;
}.

Inductive index_error :=
| TooSmall (idx_len : Z)
| UnsupportedVersion (v : Z)
| FanNotMonotonic
| SizeOverflow
| TooSmallForObjects
| MissingLargeOffset (index count : Z)
| SizeIncorrect (expected : Z)
| HasherFailed.

(** ** [lib.rs] *)
Definition read_u32 {E} (b : bytes) : outcome E Z :=
  if zlen b =? 4 then Ok (from_be b) else Panic.
Definition read_u64 {E} (b : bytes) : outcome E Z :=
  if zlen b =? 8 then Ok (from_be b) else Panic.
Fixpoint fan_is_monotonically_increasing (fan : list Z) : bool :=
  match fan with
  | a :: ((b :: _) as rest) => negb (b <? a) && fan_is_monotonically_increasing rest
  | _ => true
  end.

(** ** [init.rs]: validation *)
Definition read_fan {E} (d : bytes) : outcome E (list Z * Z) :=
  _ ← assert_that (FAN_LEN * N32_SIZE <=? zlen d);
  fan ← mapM read_u32 (take (Z.to_nat FAN_LEN) (chunks 4 d));
  Ok (fan, FAN_LEN * N32_SIZE).

Definition validate_fan (fan : list Z) : outcome index_error () :=
  ensure (fan_is_monotonically_increasing fan) FanNotMonotonic.

(** The indices into the table of 64-bit offsets that the 32-bit table refers to. *)
Definition large_indices (offsets : list Z) : list Z :=
  omap (λ offset, if Z.land offset (2 ^ 31) =? 0 then None
                  else Some (Z.lxor offset (2 ^ 31))) offsets.

Definition validate_size_v2 (data : bytes) (num_objects hash_len : Z) : outcome index_error Z :=
  let footer_size := hash_len * 2 in
  let v2_header_size := zlen V2_SIGNATURE + N32_SIZE + FAN_LEN * N32_SIZE in
  oid_bytes ← ok_or SizeOverflow (checked_mul 64 num_objects hash_len);
  table_bytes ← ok_or SizeOverflow (checked_mul 64 num_objects N32_SIZE);
  offset32_start ← ok_or SizeOverflow
    (size ← checked_add 64 v2_header_size oid_bytes; checked_add 64 size table_bytes);
  offset32_end ← ok_or SizeOverflow (checked_add 64 offset32_start table_bytes);
  _ ← ensure (negb (zlen data <? offset32_end)) TooSmallForObjects;
  table ← expect (get_range data offset32_start offset32_end);
  offsets ← mapM read_u32 (chunks 4 table);
  let '(large_offsets, max_large_offset_index) :=
    foldl (λ '(count, max_index) index, (count + 1, Z.max max_index index)) (0, 0)
      (large_indices offsets) in
  expected_size ← ok_or SizeOverflow
    (size ← checked_add 64 v2_header_size oid_bytes;
     size ← checked_add 64 size table_bytes;
     size ← checked_add 64 size table_bytes;
     large ← checked_mul 64 large_offsets 8;
     size ← checked_add 64 size large;
     checked_add 64 size footer_size);
  if (0 <? large_offsets) && (large_offsets <=? max_large_offset_index)
  then Err (MissingLargeOffset max_large_offset_index large_offsets)
  else Ok expected_size.

Definition validate_size (data : bytes) (kind : Version) (num_objects hash_len : Z)
    : outcome index_error () :=
  let footer_size := hash_len * 2 in
  expected_size ←
    match kind with
    | V1 => ok_or SizeOverflow
        (size ← checked_mul 64 FAN_LEN N32_SIZE;
         objects ← checked_mul 64 num_objects (N32_SIZE + hash_len);
         size ← checked_add 64 size objects;
         checked_add 64 size footer_size)
    | V2 => validate_size_v2 data num_objects hash_len
    end;
  ensure (zlen data =? expected_size) (SizeIncorrect expected_size).

Definition from_data (data : bytes) (object_hash : Kind) : outcome index_error File :=
  let idx_len := zlen data in
  let hash_len := len_in_bytes object_hash in
  let footer_size := hash_len * 2 in
  _ ← ensure (negb (idx_len <? FAN_LEN * N32_SIZE + footer_size)) (TooSmall idx_len);
  '(sig, d) ← expect (split_at_checked data (zlen V2_SIGNATURE));
  let '(kind, d) := if bytes_eqb sig V2_SIGNATURE then (V2, d) else (V1, data) in
  d ← match kind with
      | V2 => '(vd, dr) ← expect (split_at_checked d N32_SIZE);
              version ← read_u32 vd;
              if version =? version_number V2 then Ok dr else Err (UnsupportedVersion version)
      | V1 => Ok d
      end;
  '(fan, bytes_read) ← read_fan d;
  _ ← expect (split_at_checked d bytes_read);
  num_objects ← expect (get fan (FAN_LEN - 1));
  _ ← validate_fan fan;
  _ ← validate_size data kind num_objects hash_len;
  Ok {| data := data; version := kind; num_objects := num_objects; fan := fan;
        hash_len := hash_len; object_hash := object_hash |}.

(** ** [access.rs] *)
Record Entry := {
  oid : ObjectId;
  pack_offset : Z;
  crc32 : option Z;
}.

Definition offset_crc32_v2 (f : File) : Z := V2_HEADER_SIZE + num_objects f * hash_len f.
Definition offset_pack_offset_v2 (f : File) : Z := offset_crc32_v2 f + num_objects f * N32_SIZE.
Definition offset_pack_offset64_v2 (f : File) : Z :=
  offset_pack_offset_v2 f + num_objects f * N32_SIZE.

(** [data[start..][..len]] *)
Definition slice_at {E} (d : bytes) (start len : Z) : outcome E bytes :=
  d ← expect (get_from d start);
  expect (get_range d 0 len).

Definition pack_offset_from_offset_v2 {E} (f : File) (offset : bytes) (pack64_offset : Z)
    : outcome E Z :=
  _ ← assert_that (bool_decide (version f = V2));
  ofs32 ← read_u32 offset;
  if Z.land ofs32 N32_HIGH_BIT =? N32_HIGH_BIT then
    let from := pack64_offset + Z.lxor ofs32 N32_HIGH_BIT * N64_SIZE in
    b ← slice_at (data f) from N64_SIZE;
    read_u64 b
  else Ok ofs32.

Definition oid_at_index {E} (f : File) (index : Z) : outcome E bytes :=
  let start := match version f with
               | V2 => V2_HEADER_SIZE + index * hash_len f
               | V1 => V1_HEADER_SIZE + index * (N32_SIZE + hash_len f) + N32_SIZE
               end in
  slice_at (data f) start (hash_len f).

Definition pack_offset_at_index {E} (f : File) (index : Z) : outcome E Z :=
  match version f with
  | V2 =>
      let start := offset_pack_offset_v2 f + index * N32_SIZE in
      b ← slice_at (data f) start N32_SIZE;
      pack_offset_from_offset_v2 f b (offset_pack_offset64_v2 f)
  | V1 =>
      let start := V1_HEADER_SIZE + index * (N32_SIZE + hash_len f) in
      b ← slice_at (data f) start N32_SIZE;
      read_u32 b
  end.

Definition crc32_at_index {E} (f : File) (index : Z) : outcome E (option Z) :=
  match version f with
  | V2 =>
      let start := offset_crc32_v2 f + index * N32_SIZE in
      b ← expect (get_range (data f) start (start + N32_SIZE));
      crc ← read_u32 b;
      Ok (Some crc)
  | V1 => Ok None
  end.

(** The interface the lookups of [FanLookup] work on. *)
Definition index_table {E} (f : File) : id_table E :=
  {| tab_fan := fan f; tab_at := oid_at_index f; tab_num := num_objects f |}.
Definition file_lookup {E} (f : File) (id : bytes) : outcome E (option Z) :=
  lookup (index_table f) id.
Definition file_lookup_prefix {E} (f : File) (prefix : Prefix) (candidates : bool)
    : outcome E (option PrefixLookupResult * option (Z * Z)) :=
  lookup_prefix (index_table f) prefix candidates.

Definition entry_v1 {E} (c : bytes) : outcome E Entry :=
  '(ofs, oid) ← expect (split_at_checked c N32_SIZE);
  id ← from_bytes_or_panic oid;
  offset ← read_u32 ofs;
  Ok {| oid := id; pack_offset := offset; crc32 := None |}.
Definition iter_v1 {E} (f : File) : outcome E (list Entry) :=
  match version f with
  | V1 =>
      d ← expect (get_from (data f) V1_HEADER_SIZE);
      mapM entry_v1
        (take (Z.to_nat (num_objects f)) (chunks (Z.to_nat (N32_SIZE + hash_len f)) d))
  | V2 => Panic
  end.

(** [izip!] of three slices of chunks. *)
Fixpoint izip {A B C} (a : list A) (b : list B) (c : list C) : list (A * B * C) :=
  match a, b, c with
  | x :: a, y :: b, z :: c => (x, y, z) :: izip a b c
  | _, _, _ => []
  end.

Definition entry_v2 {E} (f : File) (pack64_offset : Z) (e : bytes * bytes * bytes)
    : outcome E Entry :=
  let '(oid, crc, ofs32) := e in
  id ← from_bytes_or_panic oid;
  offset ← pack_offset_from_offset_v2 f ofs32 pack64_offset;
  crc ← read_u32 crc;
  Ok {| oid := id; pack_offset := offset; crc32 := Some crc |}.
Definition iter_v2 {E} (f : File) : outcome E (list Entry) :=
  let pack64_offset := offset_pack_offset64_v2 f in
  let n := Z.to_nat (num_objects f) in
  d ← expect (get_from (data f) V2_HEADER_SIZE);
  let oids := take n (chunks (Z.to_nat (hash_len f)) d) in
  d ← expect (get_from (data f) (offset_crc32_v2 f));
  let crcs := take n (chunks 4 d) in
  d ← expect (get_from (data f) (offset_pack_offset_v2 f));
  let offsets := take n (chunks 4 d) in
  _ ← assert_that (zlen oids =? zlen crcs);
  _ ← assert_that (zlen crcs =? zlen offsets);
  match version f with
  | V2 => mapM (entry_v2 f pack64_offset) (izip oids crcs offsets)
  | V1 => Panic
  end.
Definition iter {E} (f : File) : outcome E (list Entry) :=
  match version f with V2 => iter_v2 f | V1 => iter_v1 f end.

(** [sort_unstable()] on integers. *)
Definition sort_unstable (l : list Z) : list Z := merge_sort Z.le l.
Definition file_offsets {E} (f : File) : outcome E (list Z) :=
  match version f with
  | V1 => es ← iter f; Ok (pack_offset <$> (es : list Entry))
  | V2 =>
      d ← expect (get_from (data f) (offset_pack_offset_v2 f));
      let offsets32 := take (Z.to_nat (num_objects f)) (chunks 4 d) in
      _ ← assert_that (num_objects f =? zlen offsets32);
      mapM (λ offset, pack_offset_from_offset_v2 f offset (offset_pack_offset64_v2 f)) offsets32
  end.
Definition sorted_offsets {E} (f : File) : outcome E (list Z) :=
  ofs ← file_offsets f;
  Ok (sort_unstable ofs).

(** ** [encode.rs]: writing *)
Definition LARGE_OFFSET_THRESHOLD : Z := 0x7fffffff.
Definition HIGH_BIT : Z := 0x80000000.

Record Item := {
  item_offset : Z;
  item_id : ObjectId;
  item_crc32 : Z;
}.

(** The loop over the entries that writes the 32-bit table and collects the
    64-bit one. *)
Fixpoint write_offsets {E} (entries : list Item) (offsets64 : list Z)
    : outcome E (bytes * list Z) :=
  match entries with
  | [] => Ok ([], offsets64)
  | entry :: entries =>
      '(offset, offsets64) ←
        (if LARGE_OFFSET_THRESHOLD <? item_offset entry then
           _ ← assert_that (zlen offsets64 <? LARGE_OFFSET_THRESHOLD);
           let offsets64 := offsets64 ++ [item_offset entry] in
           Ok (Z.lor (wrap 32 (zlen offsets64 - 1)) HIGH_BIT, offsets64)
         else Ok (wrap 32 (item_offset entry), offsets64));
      '(out, offsets64) ← write_offsets entries offsets64;
      Ok (to_be 4 offset ++ out, offsets64)
  end.

Definition write_to {E} (try_finalize : bytes → outcome E ObjectId) (entries : list Item)
    (pack_hash : ObjectId) (kind : Version) : outcome E (bytes * ObjectId) :=
  _ ← assert_that (bool_decide (kind = V2));
  _ ← assert_that (zlen entries <=? 2 ^ 32 - 1);
  first_bytes ← mapM (λ e, first_byte (as_slice (item_id e))) entries;
  fan_out ← fanout first_bytes;
  '(offsets, offsets64) ← write_offsets entries [];
  let out := V2_SIGNATURE ++ to_be 4 (version_number kind)
    ++ concat (to_be 4 <$> fan_out)
    ++ concat ((λ e, as_slice (item_id e)) <$> entries)
    ++ concat ((λ e, to_be 4 (item_crc32 e)) <$> entries)
    ++ offsets ++ concat (to_be 8 <$> offsets64)
    ++ as_slice pack_hash in
  index_hash ← try_finalize out;
  Ok (out ++ as_slice index_hash, index_hash).

(** ** The invariant of an opened file *)

(** Every reference into the table of 64-bit offsets is below [count]. *)
Definition large_ok (offsets : list Z) (count : Z) : Prop :=
  count = zlen (large_indices offsets) ∧ Forall (λ i, 0 ≤ i < count) (large_indices offsets).

(** What the table of 32-bit offsets of a version 2 file holds. *)
Definition offset_table (f : File) : list Z :=
  from_be <$> chunks 4 (take (Z.to_nat (num_objects f * 4))
                          (drop (Z.to_nat (offset_pack_offset_v2 f)) (data f))).

Record index_ok (f : File) : Prop := {
  ok_bytes : bytes_ok (data f);
  ok_hash_len : hash_len f = len_in_bytes (object_hash f);
  ok_fan_len : zlen (fan f) = 256;
  ok_fan_mono : ∀ i j x y, 0 ≤ i ≤ j → get (fan f) i = Some x → get (fan f) j = Some y → x ≤ y;
  ok_fan_range : Forall (λ x, 0 ≤ x < 2 ^ 32) (fan f);
  ok_num : get (fan f) 255 = Some (num_objects f);
  ok_size :
    match version f with
    | V1 => zlen (data f) = 1024 + num_objects f * (4 + hash_len f) + 2 * hash_len f
    | V2 => ∃ count, large_ok (offset_table f) count ∧
              zlen (data f) = offset_pack_offset64_v2 f + 8 * count + 2 * hash_len f
    end;
}.

(** ** Lemmas: slices *)
Lemma slice_at_in {E} (d : bytes) start len :
  0 ≤ start → 0 ≤ len → start + len ≤ zlen d →
  slice_at (E := E) d start len = Ok (take (Z.to_nat len) (drop (Z.to_nat start) d)).
Proof.
  intros Hs Hl Hd. unfold slice_at, get_from, get_range.
  assert ((0 <=? start) && (start <=? zlen d) && (zlen d <=? zlen d) = true) as -> by (zb; lia).
  cbn [expect mbind outcome_bind].
  set (d' := take _ _).
  assert (d' = drop (Z.to_nat start) d) as ->.
  { subst d'. apply take_ge. rewrite length_drop. unfold zlen in *. lia. }
  assert ((0 <=? 0) && (0 <=? len) && (len <=? zlen (drop (Z.to_nat start) d)) = true) as ->.
  { unfold zlen in *. rewrite length_drop. zb; lia. }
  cbn [expect]. by rewrite drop_0, Z.sub_0_r.
Qed.

Lemma zlen_slice (d : bytes) start len :
  0 ≤ start → 0 ≤ len → start + len ≤ zlen d →
  zlen (take (Z.to_nat len) (drop (Z.to_nat start) d)) = len.
Proof. intros. unfold zlen in *. rewrite length_take, length_drop. lia. Qed.

Lemma bytes_ok_slice (d : bytes) s l : bytes_ok d → bytes_ok (take l (drop s d)).
Proof. intros. by apply Forall_take, Forall_drop. Qed.
#[export] Hint Resolve bytes_ok_slice : gix.

Lemma read_u32_ok {E} b : zlen b = 4 → read_u32 (E := E) b = Ok (from_be b).
Proof. intros Hb. unfold read_u32. by rewrite Hb. Qed.
Lemma read_u64_ok {E} b : zlen b = 8 → read_u64 (E := E) b = Ok (from_be b).
Proof. intros Hb. unfold read_u64. by rewrite Hb. Qed.



(** Chunks are slices of their size. *)
Lemma chunk_zlen n (l : bytes) c : n ≠ 0%nat → c ∈ chunks n l → zlen c = Z.of_nat n.
Proof.
  intros Hn Hc. apply list_elem_of_lookup in Hc as [i Hi]. unfold chunks in Hi.
  apply list_lookup_fmap_Some in Hi as (j & -> & Hj). apply lookup_seq in Hj as [-> Hj].
  unfold zlen. rewrite length_take, length_drop. simpl.
  assert (n * (length l / n) ≤ length l)%nat by (apply Nat.Div0.mul_div_le). nia.
Qed.
Lemma chunk_bytes_ok n (l : bytes) c : bytes_ok l → c ∈ chunks n l → bytes_ok c.
Proof.
  intros Hl Hc. unfold chunks in Hc. apply list_elem_of_fmap in Hc as (i & -> & _).
  by apply bytes_ok_slice.
Qed.

(** Reading 32-bit integers from 4-byte chunks never fails. *)
Lemma mapM_read_u32 {E} (cs : list bytes) :
  (∀ c, c ∈ cs → zlen c = 4) → mapM (read_u32 (E := E)) cs = Ok (from_be <$> cs).
Proof. intros H. apply mapM_Ok. intros c Hc. apply read_u32_ok. auto. Qed.

(** ** Lemmas: what validation establishes *)
Lemma mono_spec l i j x y :
  fan_is_monotonically_increasing l = true →
  (i ≤ j)%nat → l !! i = Some x → l !! j = Some y → x ≤ y.
Proof.
  revert i j x y. induction l as [|a l IH]; intros i j x y Hm Hij Hi Hj; [done|].
  destruct l as [|b l].
  - destruct i, j; simplify_eq/=. lia.
  - cbn [fan_is_monotonically_increasing] in Hm. apply andb_true_iff in Hm as [Hab Hm].
    destruct (Z.ltb_spec b a) as [|Hab']; [done|].
    destruct i as [|i], j as [|j]; simplify_eq/=; [lia| |lia|].
    + specialize (IH 0%nat j b y Hm ltac:(lia) eq_refl Hj). lia.
    + apply (IH i j x y Hm ltac:(lia) Hi Hj).
Qed.

Lemma large_fold l c mx :
  foldl (λ '(count, max_index) index, (count + 1, Z.max max_index index)) (c, mx) l =
  (c + zlen l, foldl Z.max mx l).
Proof.
  revert c mx. induction l as [|x l IH]; intros c mx; simpl; [rewrite zlen_nil; f_equal; lia|].
  rewrite IH, zlen_cons. f_equal. lia.
Qed.
Lemma foldl_max_ge l mx : mx ≤ foldl Z.max mx l ∧ Forall (λ x, x ≤ foldl Z.max mx l) l.
Proof.
  revert mx. induction l as [|x l IH]; intros mx; simpl; [split; [lia|constructor]|].
  destruct (IH (Z.max mx x)) as [H1 H2]. split; [lia|]. constructor; [lia|done].
Qed.

Lemma high_bit x : 0 ≤ x < 2 ^ 32 →
  Z.land x (2 ^ 31) = (if x <? 2 ^ 31 then 0 else 2 ^ 31) ∧
  (2 ^ 31 ≤ x → Z.lxor x (2 ^ 31) = x - 2 ^ 31).
Proof.
  intros Hx. assert (Z.land x (2 ^ 31) = if x <? 2 ^ 31 then 0 else 2 ^ 31) as Hland.
  { destruct (Z.ltb_spec x (2 ^ 31)).
    - rewrite Z.land_comm. apply (land_high_low 31 1 x); lia.
    - assert (x = Z.lor (1 * 2 ^ 31) (x - 2 ^ 31)) as -> by (rewrite lor_high_low; lia).
      rewrite Z.land_lor_distr_l, (Z.land_comm (x - 2 ^ 31)).
      pose proof (land_high_low 31 1 (x - 2 ^ 31) ltac:(lia) ltac:(lia)) as H0.
      rewrite Z.mul_1_l in H0. by rewrite H0. }
  split; [done|]. intros Hge.
  destruct (Z.ltb_spec x (2 ^ 31)) as [|_]; [lia|].
  enough (Z.lxor x (2 ^ 31) + 2 ^ 31 = x) by lia.
  rewrite Z.add_nocarry_lxor.
  - by rewrite Z.lxor_assoc, Z.lxor_nilpotent, Z.lxor_0_r.
  - apply Z.bits_inj'. intros i Hi. rewrite Z.land_spec, Z.lxor_spec, Z.bits_0.
    destruct (decide (i = 31)) as [->|].
    + rewrite Z.pow2_bits_true by lia.
      assert (Z.testbit (Z.land x (2 ^ 31)) 31 = true) as Ht by (rewrite Hland; done).
      rewrite Z.land_spec, andb_true_iff in Ht. destruct Ht as [-> _]. done.
    + rewrite Z.pow2_bits_false by lia. apply andb_false_r.
Qed.

Lemma large_indices_elem offsets x :
  Forall (λ x, 0 ≤ x < 2 ^ 32) offsets → x ∈ offsets → 2 ^ 31 ≤ x →
  x - 2 ^ 31 ∈ large_indices offsets.
Proof.
  intros Hall Hx Hge. unfold large_indices. apply list_elem_of_omap. exists x. split; [done|].
  rewrite list.Forall_forall in Hall. destruct (high_bit x (Hall _ Hx)) as [-> Hxor].
  destruct (Z.ltb_spec x (2 ^ 31)); [lia|]. rewrite Hxor by done. done.
Qed.
Lemma large_indices_nonneg offsets x :
  Forall (λ x, 0 ≤ x < 2 ^ 32) offsets → x ∈ large_indices offsets → 0 ≤ x.
Proof.
  intros Hall Hx. unfold large_indices in Hx. apply list_elem_of_omap in Hx as (y & Hy & He).
  rewrite list.Forall_forall in Hall. destruct (high_bit y (Hall _ Hy)) as [Hl Hxor].
  rewrite Hl in He. destruct (Z.ltb_spec y (2 ^ 31)); [done|]. simpl in He.
  rewrite Hxor in He by done. injection He as <-. lia.
Qed.

Lemma large_indices_length offsets : zlen (large_indices offsets) ≤ zlen offsets.
Proof.
  unfold large_indices, zlen. induction offsets as [|x l IH]; [done|].
  cbn [omap list_omap]. destruct (Z.land x (2 ^ 31) =? 0); cbn [length]; lia.
Qed.

Lemma zlen_chunks4 (l : bytes) n : 0 ≤ n → zlen l = n * 4 → zlen (chunks 4 l) = n.
Proof.
  intros Hn Hl. unfold zlen in *. rewrite length_chunks.
  replace (length l) with (Z.to_nat n * 4)%nat by lia. rewrite Nat.div_mul by lia. lia.
Qed.

(** [validate_size] for version 2, with all arithmetic carried out. *)
Lemma validate_size_v2_eq data n h :
  0 ≤ n < 2 ^ 32 → 0 ≤ h ≤ 32 →
  let start := 1032 + n * h + n * 4 in
  let offsets := from_be <$> chunks 4 (take (Z.to_nat (n * 4)) (drop (Z.to_nat start) data)) in
  let count := zlen (large_indices offsets) in
  let mx := foldl Z.max 0 (large_indices offsets) in
  validate_size_v2 data n h =
  if zlen data <? start + n * 4 then Err TooSmallForObjects
  else if (0 <? count) && (count <=? mx) then Err (MissingLargeOffset mx count)
  else Ok (start + n * 4 + 8 * count + 2 * h).
Proof.
  intros Hn Hh start offsets count mx. unfold validate_size_v2.
  change (zlen V2_SIGNATURE + N32_SIZE + FAN_LEN * N32_SIZE) with 1032.
  unfold N32_SIZE. rewrite !checked_mul_in by nia. cbn [ok_or mbind outcome_bind].
  rewrite (checked_add_in 64 1032) by nia. cbn [option_bind mbind].
  rewrite !checked_add_in by nia. cbn [ok_or mbind outcome_bind].
  rewrite !checked_add_in by nia. cbn [ok_or mbind outcome_bind].
  fold start. destruct (Z.ltb_spec (zlen data) (start + n * 4)) as [|Hlen]; [done|].
  cbn [negb ensure mbind outcome_bind].
  rewrite get_range_in by nia. cbn [expect mbind outcome_bind].
  replace (start + n * 4 - start) with (n * 4) by lia.
  rewrite mapM_read_u32 by (intros c Hc; by apply (chunk_zlen 4) in Hc).
  cbn [mbind outcome_bind]. fold offsets. rewrite large_fold, Z.add_0_l. fold count mx.
  assert (0 ≤ count ≤ n) as Hcount.
  { split; [apply zlen_nonneg|]. etransitivity; [apply large_indices_length|].
    subst offsets. unfold zlen at 1. rewrite length_fmap.
    change (zlen (chunks 4 (take (Z.to_nat (n * 4)) (drop (Z.to_nat start) data))) ≤ n).
    rewrite (zlen_chunks4 _ n); [lia|lia|]. apply zlen_slice; nia. }
  rewrite (checked_mul_in 64 count 8) by nia.
  do 5 (try (rewrite checked_add_in by nia); cbn [option_bind mbind ok_or outcome_bind]).
  destruct ((0 <? count) && (count <=? mx)); [done|]. f_equal. lia.
Qed.

Lemma chunks4_u32 l : bytes_ok l → Forall (λ x, 0 ≤ x < 2 ^ 32) (from_be <$> chunks 4 l).
Proof.
  intros Hl. apply list.Forall_forall. intros x Hx.
  apply list_elem_of_fmap in Hx as (c & -> & Hc). apply from_be_u32.
  - by eapply chunk_bytes_ok.
  - by apply (chunk_zlen 4) in Hc.
Qed.

Lemma large_ok_of_check offsets :
  Forall (λ x, 0 ≤ x < 2 ^ 32) offsets →
  (0 <? zlen (large_indices offsets)) &&
  (zlen (large_indices offsets) <=? foldl Z.max 0 (large_indices offsets)) = false →
  large_ok offsets (zlen (large_indices offsets)).
Proof.
  intros Hall Hc. split; [done|]. apply list.Forall_forall. intros x Hx.
  pose proof (large_indices_nonneg _ _ Hall Hx).
  destruct (foldl_max_ge (large_indices offsets) 0) as [_ Hmax].
  rewrite list.Forall_forall in Hmax. specialize (Hmax _ Hx).
  assert (0 < zlen (large_indices offsets)).
  { destruct (large_indices offsets); [by apply elem_of_nil in Hx|].
    rewrite zlen_cons. pose proof (zlen_nonneg l). lia. }
  destruct (Z.ltb_spec 0 (zlen (large_indices offsets))); [|lia]. simpl in Hc.
  apply Z.leb_gt in Hc. lia.
Qed.

Lemma read_fan_eq {E} d :
  1024 ≤ zlen d →
  read_fan (E := E) d = Ok (from_be <$> take 256 (chunks 4 d), 1024).
Proof.
  intros Hd. unfold read_fan. change (FAN_LEN * N32_SIZE) with 1024.
  destruct (Z.leb_spec 1024 (zlen d)); [|lia]. cbn [assert_that mbind outcome_bind].
  change (Z.to_nat FAN_LEN) with 256%nat.
  rewrite mapM_read_u32; [done|]. intros c Hc. apply (subseteq_take 256) in Hc.
  by apply (chunk_zlen 4) in Hc.
Qed.

Lemma fan_length (d : bytes) :
  1024 ≤ zlen d → zlen (from_be <$> take 256 (chunks 4 d)) = 256.
Proof.
  intros Hd. unfold zlen in *. rewrite length_fmap, length_take, length_chunks.
  assert (256 ≤ length d / 4)%nat by (apply Nat.div_le_lower_bound; lia). lia.
Qed.


(** The part of [from_data] after the header: [d] starts with the fan. *)
Definition check_tables (data d : bytes) (kind : Version) (k : Kind) : outcome index_error File :=
  '(fan, bytes_read) ← read_fan d;
  _ ← expect (split_at_checked d bytes_read);
  num_objects ← expect (get fan (FAN_LEN - 1));
  _ ← validate_fan fan;
  _ ← validate_size data kind num_objects (len_in_bytes k);
  Ok {| data := data; version := kind; num_objects := num_objects; fan := fan;
        hash_len := len_in_bytes k; object_hash := k |}.

Definition fan_of (d : bytes) : list Z := from_be <$> take 256 (chunks 4 d).
Definition num_of (d : bytes) : Z := default 0 (get (fan_of d) 255).

Lemma check_tables_eq data d kind k :
  1024 ≤ zlen d → bytes_ok d →
  get (fan_of d) 255 = Some (num_of d) ∧ 0 ≤ num_of d < 2 ^ 32 ∧
  check_tables data d kind k =
  if fan_is_monotonically_increasing (fan_of d) then
    _ ← validate_size data kind (num_of d) (len_in_bytes k);
    Ok {| data := data; version := kind; num_objects := num_of d; fan := fan_of d;
          hash_len := len_in_bytes k; object_hash := k |}
  else Err FanNotMonotonic.
Proof.
  intros Hd Hb. destruct (get_in (fan_of d) 255) as (n & Hn & Hl).
  { unfold fan_of. rewrite fan_length by done. lia. }
  assert (num_of d = n) as -> by (unfold num_of; by rewrite Hn).
  split; [done|]. split.
  { assert (Forall (λ x, 0 ≤ x < 2 ^ 32) (fan_of d)) as Hf.
    { unfold fan_of. rewrite fmap_take. apply Forall_take, chunks4_u32, Hb. }
    rewrite Forall_lookup in Hf. eauto. }
  unfold check_tables. rewrite read_fan_eq by done. cbn [mbind outcome_bind].
  fold (fan_of d). unfold split_at_checked.
  destruct (Z.leb_spec 1024 (zlen d)); [|lia]. cbn [Z.leb andb expect mbind outcome_bind Z.compare].
  change (FAN_LEN - 1) with 255. rewrite Hn. cbn [expect mbind outcome_bind].
  unfold validate_fan. by destruct (fan_is_monotonically_increasing (fan_of d)).
Qed.

Lemma from_data_eq data k :
  from_data data k =
  if zlen data <? 1024 + len_in_bytes k * 2 then Err (TooSmall (zlen data))
  else if bytes_eqb (take 4 data) V2_SIGNATURE then
    if from_be (take 4 (drop 4 data)) =? 2 then check_tables data (drop 8 data) V2 k
    else Err (UnsupportedVersion (from_be (take 4 (drop 4 data))))
  else check_tables data data V1 k.
Proof.
  pose proof (len_in_bytes_range k) as Hk. unfold from_data.
  change (FAN_LEN * N32_SIZE) with 1024. change (zlen V2_SIGNATURE) with 4.
  destruct (Z.ltb_spec (zlen data) (1024 + len_in_bytes k * 2)) as [|Hlen]; [done|].
  cbn [negb ensure mbind outcome_bind]. rewrite (split_at_in data 4) by lia.
  cbn [expect mbind outcome_bind]. change (Z.to_nat 4) with 4%nat.
  destruct (bytes_eqb (take 4 data) V2_SIGNATURE); [|done].
  change N32_SIZE with 4.
  assert (zlen (drop 4 data) = zlen data - 4) as Hd
    by (unfold zlen in *; rewrite length_drop; lia).
  rewrite (split_at_in (drop 4 data) 4) by lia.
  cbn [expect mbind outcome_bind]. change (Z.to_nat 4) with 4%nat.
  rewrite read_u32_ok by (unfold zlen in *; rewrite length_take, length_drop; lia).
  cbn [mbind outcome_bind version_number]. rewrite drop_drop.
  by destruct (from_be (take 4 (drop 4 data)) =? 2).
Qed.

Lemma check_tables_ok bs d kind k f :
  bytes_ok bs → bytes_ok d → 1024 ≤ zlen d →
  check_tables bs d kind k = Ok f →
  index_ok f ∧ data f = bs ∧ object_hash f = k ∧ version f = kind.
Proof.
  intros Hb Hbd Hd. pose proof (len_in_bytes_range k) as Hk.
  destruct (check_tables_eq bs d kind k Hd Hbd) as (Hnum & Hn & ->).
  destruct (fan_is_monotonically_increasing (fan_of d)) eqn:Hmono; [|done].
  set (f0 := {| data := bs; version := kind; num_objects := num_of d; fan := fan_of d;
                hash_len := len_in_bytes k; object_hash := k |}).
  intros Hv. destruct (validate_size bs kind (num_of d) (len_in_bytes k)) as [[]| |] eqn:Hsize;
    cbn [mbind outcome_bind] in Hv; try discriminate. injection Hv as <-.
  split; [|done]. split; try done.
  - apply fan_length, Hd.
  - intros i j x y Hij Hx Hy. apply get_Some in Hx as [_ Hx], Hy as [_ Hy].
    eapply mono_spec; [exact Hmono| |exact Hx|exact Hy]. lia.
  - simpl. unfold fan_of. rewrite fmap_take. apply Forall_take, chunks4_u32, Hbd.
  - simpl. unfold validate_size in Hsize. destruct kind.
    + change (checked_mul 64 FAN_LEN N32_SIZE) with (Some 1024) in Hsize.
      cbn [option_bind mbind] in Hsize. change N32_SIZE with 4 in Hsize.
      rewrite checked_mul_in in Hsize by nia. cbn [option_bind mbind] in Hsize.
      rewrite checked_add_in in Hsize by nia. cbn [option_bind mbind] in Hsize.
      rewrite checked_add_in in Hsize by nia. cbn [ok_or mbind outcome_bind] in Hsize.
      unfold ensure in Hsize. destruct (Z.eqb_spec (zlen bs) (1024 + num_of d * (4 + len_in_bytes k)
        + len_in_bytes k * 2)); [lia|done].
    + rewrite validate_size_v2_eq in Hsize by lia.
      change (offset_table f0) with (from_be <$> chunks 4 (take (Z.to_nat (num_of d * 4))
        (drop (Z.to_nat (1032 + num_of d * len_in_bytes k + num_of d * 4)) bs))).
      set (offsets := from_be <$> _) in *.
      destruct (Z.ltb_spec (zlen bs) (1032 + num_of d * len_in_bytes k + num_of d * 4 +
        num_of d * 4)); [done|].
      destruct ((0 <? zlen (large_indices offsets)) && _) eqn:Hc; [done|].
      cbn [mbind outcome_bind] in Hsize. unfold ensure in Hsize.
      destruct (Z.eqb_spec (zlen bs) (1032 + num_of d * len_in_bytes k + num_of d * 4 +
        num_of d * 4 + 8 * zlen (large_indices offsets) + 2 * len_in_bytes k)) as [He|]; [|done].
      exists (zlen (large_indices offsets)). split; [|exact He].
      apply large_ok_of_check; [|done]. by apply chunks4_u32, bytes_ok_slice.
Qed.

Lemma validate_size_no_panic data kind n h :
  0 ≤ n < 2 ^ 32 → 0 ≤ h ≤ 32 → validate_size data kind n h ≠ Panic.
Proof.
  intros Hn Hh. unfold validate_size. destruct kind.
  - match goal with |- context [ok_or _ ?m] => destruct m end; [|done].
    cbn [ok_or mbind outcome_bind]. unfold ensure. by destruct (_ =? _).
  - rewrite validate_size_v2_eq by done.
    destruct (_ <? _); [done|]. destruct (_ && _); [done|]. cbn [mbind outcome_bind].
    unfold ensure. by destruct (_ =? _).
Qed.

Lemma check_tables_no_panic data d kind k :
  bytes_ok d → 1024 ≤ zlen d → check_tables data d kind k ≠ Panic.
Proof.
  intros Hb Hd. pose proof (len_in_bytes_range k).
  destruct (check_tables_eq data d kind k Hd Hb) as (_ & Hn & ->).
  destruct (fan_is_monotonically_increasing _); [|done].
  pose proof (validate_size_no_panic data kind (num_of d) (len_in_bytes k) Hn ltac:(lia)).
  by destruct (validate_size data kind (num_of d) (len_in_bytes k)).
Qed.

(** Opening a file establishes the invariant, and never panics. *)
Lemma from_data_ok bs k :
  bytes_ok bs →
  from_data bs k ≠ Panic ∧
  ∀ f, from_data bs k = Ok f → index_ok f ∧ data f = bs ∧ object_hash f = k.
Proof.
  intros Hb. rewrite from_data_eq. pose proof (len_in_bytes_range k) as Hk.
  destruct (Z.ltb_spec (zlen bs) (1024 + len_in_bytes k * 2)) as [|Hlen]; [done|].
  destruct (bytes_eqb (take 4 bs) V2_SIGNATURE).
  - destruct (_ =? 2); [|done].
    assert (bytes_ok (drop 8 bs)) by (by apply Forall_drop).
    assert (1024 ≤ zlen (drop 8 bs)) by (unfold zlen in *; rewrite length_drop; lia).
    split; [by apply check_tables_no_panic|]. intros f Hf.
    destruct (check_tables_ok bs (drop 8 bs) V2 k f) as (? & ? & ? & _); done.
  - split; [apply check_tables_no_panic; [done|lia]|]. intros f Hf.
    destruct (check_tables_ok bs bs V1 k f) as (? & ? & ? & _); try done. lia.
Qed.

(** ** Lemmas: reading an opened file *)
Lemma drop_take_drop {A} (l : list A) a b n m :
  (b + n ≤ m)%nat → take n (drop b (take m (drop a l))) = take n (drop (a + b) l).
Proof.
  intros H. rewrite skipn_firstn_comm, take_take.
  replace (n `min` (m - b))%nat with n by lia. by rewrite drop_drop.
Qed.

Section Opened.
Context (f : File) (Hf : index_ok f).

Lemma num_range : 0 ≤ num_objects f < 2 ^ 32.
Proof using Hf.
  pose proof (ok_num f Hf) as Hn. apply get_Some in Hn as [_ Hn].
  pose proof (ok_fan_range f Hf) as Hr. rewrite Forall_lookup in Hr. eauto.
Qed.
Lemma hash_len_range : 20 ≤ hash_len f ≤ 32.
Proof using Hf. rewrite (ok_hash_len f Hf). apply len_in_bytes_range. Qed.

Lemma oid_at_ok {E} i :
  0 ≤ i < num_objects f →
  ∃ id, oid_at_index (E := E) f i = Ok id ∧ zlen id = hash_len f ∧ bytes_ok id.
Proof using Hf.
  intros Hi. pose proof num_range. pose proof hash_len_range. pose proof (ok_size f Hf) as Hs.
  pose proof (ok_bytes f Hf). unfold oid_at_index.
  unfold V1_HEADER_SIZE, V2_HEADER_SIZE, FAN_LEN, N32_SIZE in *.
  destruct (version f).
  - rewrite slice_at_in by nia. eexists. split; [done|]. split; [|auto with gix].
    apply zlen_slice; nia.
  - destruct Hs as (count & Hl & Hs). unfold offset_pack_offset64_v2, offset_pack_offset_v2,
      offset_crc32_v2, V2_HEADER_SIZE, FAN_LEN, N32_SIZE in Hs.
    assert (0 ≤ count) by (destruct Hl as [-> _]; apply zlen_nonneg).
    rewrite slice_at_in by nia. eexists. split; [done|]. split; [|auto with gix].
    apply zlen_slice; nia.
Qed.

Section Version2.
Context (Hv : version f = V2).

Lemma v2_size : ∃ count, large_ok (offset_table f) count ∧ 0 ≤ count ∧
  zlen (data f) = offset_pack_offset64_v2 f + 8 * count + 2 * hash_len f.
Proof using Hf Hv.
  pose proof (ok_size f Hf) as Hs. rewrite Hv in Hs. destruct Hs as (count & Hl & Hs).
  exists count. split; [done|]. split; [|done]. destruct Hl as [-> _]. apply zlen_nonneg.
Qed.

Lemma v2_offsets :
  offset_crc32_v2 f = 1032 + num_objects f * hash_len f ∧
  offset_pack_offset_v2 f = 1032 + num_objects f * hash_len f + num_objects f * 4 ∧
  offset_pack_offset64_v2 f = 1032 + num_objects f * hash_len f + num_objects f * 8.
Proof using.
  unfold offset_pack_offset64_v2, offset_pack_offset_v2, offset_crc32_v2, V2_HEADER_SIZE,
    FAN_LEN, N32_SIZE. lia.
Qed.

(** The 4 bytes of the 32-bit offset of position [i]. *)
Definition ofs_bytes (i : Z) : bytes :=
  take 4 (drop (Z.to_nat (offset_pack_offset_v2 f + i * 4)) (data f)).

Lemma ofs_bytes_ok i :
  0 ≤ i < num_objects f →
  zlen (ofs_bytes i) = 4 ∧ bytes_ok (ofs_bytes i) ∧ from_be (ofs_bytes i) ∈ offset_table f.
Proof using Hf Hv.
  intros Hi. pose proof num_range. pose proof hash_len_range. destruct v2_offsets as (_ & Ho & Ho64).
  destruct v2_size as (count & _ & Hc & Hs). split; [|split].
  - unfold ofs_bytes. change 4%nat with (Z.to_nat 4). apply zlen_slice; lia.
  - apply bytes_ok_slice, (ok_bytes f Hf).
  - unfold offset_table. apply list_elem_of_fmap. exists (ofs_bytes i). split; [done|].
    apply list_elem_of_lookup. exists (Z.to_nat i). rewrite lookup_chunks; [|lia|].
    + f_equal. rewrite drop_take_drop by nia. unfold ofs_bytes. do 2 f_equal. nia.
    + rewrite length_take, length_drop. unfold zlen in *. nia.
Qed.

Lemma v2_pack_offset {E} b :
  zlen b = 4 → bytes_ok b → from_be b ∈ offset_table f →
  ∃ ofs, pack_offset_from_offset_v2 (E := E) f b (offset_pack_offset64_v2 f) = Ok ofs ∧
    0 ≤ ofs < 2 ^ 64.
Proof using Hf Hv.
  intros Hb4 Hb Hin. pose proof num_range. pose proof hash_len_range.
  destruct v2_offsets as (_ & _ & Ho).
  destruct v2_size as (count & [Hcount Hl] & Hc & Hs).
  unfold pack_offset_from_offset_v2. rewrite Hv, bool_decide_eq_true_2 by done.
  cbn [assert_that mbind outcome_bind]. rewrite read_u32_ok by done. cbn [mbind outcome_bind].
  pose proof (from_be_u32 b Hb Hb4) as Hr. destruct (high_bit _ Hr) as [Hland Hxor].
  unfold N32_HIGH_BIT. rewrite Hland. destruct (Z.ltb_spec (from_be b) (2 ^ 31)).
  - destruct (Z.eqb_spec 0 (2 ^ 31)); [done|]. eexists; split; [done|]. lia.
  - rewrite Z.eqb_refl, Hxor by done.
    assert (Forall (λ x, 0 ≤ x < 2 ^ 32) (offset_table f)) as Ht.
    { apply chunks4_u32, bytes_ok_slice, (ok_bytes f Hf). }
    pose proof (large_indices_elem _ _ Ht Hin ltac:(lia)) as Hidx.
    rewrite list.Forall_forall in Hl. specialize (Hl _ Hidx). unfold N64_SIZE.
    rewrite slice_at_in by lia. cbn [mbind outcome_bind].
    rewrite read_u64_ok by (apply zlen_slice; lia). eexists; split; [done|].
    apply from_be_u64; [apply bytes_ok_slice, (ok_bytes f Hf)|apply zlen_slice; lia].
Qed.

Lemma v2_accessors {E} i :
  0 ≤ i < num_objects f →
  oid_at_index (E := E) f i =
    Ok (take (Z.to_nat (hash_len f)) (drop (Z.to_nat (1032 + i * hash_len f)) (data f))) ∧
  pack_offset_at_index (E := E) f i =
    pack_offset_from_offset_v2 f (ofs_bytes i) (offset_pack_offset64_v2 f) ∧
  crc32_at_index (E := E) f i =
    Ok (Some (from_be (take 4 (drop (Z.to_nat (offset_crc32_v2 f + i * 4)) (data f))))).
Proof using Hf Hv.
  intros Hi. pose proof num_range. pose proof hash_len_range.
  destruct v2_offsets as (Hoc & Ho & Ho64). destruct v2_size as (count & _ & Hc & Hs).
  unfold oid_at_index, pack_offset_at_index, crc32_at_index. rewrite Hv.
  unfold V2_HEADER_SIZE, FAN_LEN, N32_SIZE. repeat split.
  - by rewrite slice_at_in by nia.
  - by rewrite slice_at_in by nia.
  - rewrite get_range_in by nia. cbn [expect mbind outcome_bind].
    replace (offset_crc32_v2 f + i * 4 + 4 - (offset_crc32_v2 f + i * 4)) with 4 by lia.
    rewrite read_u32_ok by (apply zlen_slice; nia). done.
Qed.
End Version2.
End Opened.

Lemma izip_lookup {A B C} (a : list A) (b : list B) (c : list C) i x y z :
  a !! i = Some x → b !! i = Some y → c !! i = Some z → izip a b c !! i = Some (x, y, z).
Proof.
  revert b c i. induction a as [|x' a IH]; intros [|y' b] [|z' c] [|i]; simpl; try done.
  - congruence.
  - apply IH.
Qed.
Lemma length_izip {A B C} (a : list A) (b : list B) (c : list C) :
  length a = length b → length b = length c → length (izip a b c) = length a.
Proof.
  revert b c. induction a as [|x a IH]; intros [|y b] [|z c]; simpl; try done.
  intros. rewrite (IH b c); lia.
Qed.


(** An entry of the iterator agrees with the accessors at its position. *)
Definition entry_at {E} (f : File) (i : Z) (e : Entry) : Prop :=
  oid_at_index (E := E) f i = Ok (as_slice (oid e)) ∧ kind (oid e) = object_hash f ∧
  pack_offset_at_index (E := E) f i = Ok (pack_offset e) ∧ 0 ≤ pack_offset e < 2 ^ 64 ∧
  crc32_at_index (E := E) f i = Ok (crc32 e).

Lemma taken_chunks n m s (d : bytes) :
  (m ≠ 0)%nat → (s + n * m ≤ length d)%nat →
  length (take n (chunks m (drop s d))) = n ∧
  ∀ i, (i < n)%nat → take n (chunks m (drop s d)) !! i = Some (take m (drop (s + i * m) d)).
Proof.
  intros Hm Hl. split.
  - rewrite length_take, length_chunks, length_drop.
    assert (n ≤ (length d - s) / m)%nat by (apply Nat.div_le_lower_bound; lia). lia.
  - intros i Hi. rewrite lookup_take_lt by done.
    rewrite lookup_chunks by (rewrite ?length_drop; nia). by rewrite drop_drop.
Qed.

(** Mapping an operation that succeeds on each position gives a list of its results. *)
Lemma mapM_positions {E A} (g : A → outcome E Entry) (l : list A) (P : nat → Entry → Prop) :
  (∀ i x, l !! i = Some x → ∃ e, g x = Ok e ∧ P i e) →
  ∃ es, mapM g l = Ok es ∧ length es = length l ∧ ∀ i e, es !! i = Some e → P i e.
Proof.
  intros H. destruct (mapM_total g l) as [es Hes].
  { intros x Hx. apply list_elem_of_lookup in Hx as [i Hi]. destruct (H i x Hi) as (e & He & _).
    eauto. }
  exists es. split; [done|]. pose proof (mapM_length _ _ _ Hes) as Hlen. split; [done|].
  intros i e He. apply lookup_lt_Some in He as Hi. rewrite Hlen in Hi.
  destruct (lookup_lt_is_Some_2 l i Hi) as [x Hx].
  destruct (mapM_lookup _ _ _ _ _ Hes Hx) as (e' & He' & Hg). simplify_eq.
  destruct (H i x Hx) as (e'' & Hg' & HP). congruence.
Qed.

Lemma iter_v2_ok {E} f :
  index_ok f → version f = V2 →
  ∃ es, iter (E := E) f = Ok es ∧ zlen es = num_objects f ∧
    ∀ i e, es !! i = Some e → entry_at (E := E) f (Z.of_nat i) e.
Proof.
  intros Hf Hv. pose proof (num_range f Hf) as Hn. pose proof (hash_len_range f Hf) as Hh.
  destruct (v2_offsets f) as (Hoc & Ho & Ho64).
  destruct (v2_size f Hf Hv) as (count & _ & Hc & Hs).
  unfold iter. rewrite Hv. unfold iter_v2. change V2_HEADER_SIZE with 1032.
  rewrite !get_from_in by nia. cbn [expect mbind outcome_bind].
  set (n := Z.to_nat (num_objects f)). unfold zlen in Hs. remember (Z.to_nat 1032) as s0 eqn:Hs0.
  destruct (taken_chunks n (Z.to_nat (hash_len f)) s0 (data f)) as [Hl1 Ha1];
    [lia|nia|].
  destruct (taken_chunks n 4 (Z.to_nat (offset_crc32_v2 f)) (data f)) as [Hl2 Ha2]; [lia|nia|].
  destruct (taken_chunks n 4 (Z.to_nat (offset_pack_offset_v2 f)) (data f)) as [Hl3 Ha3];
    [lia|nia|].
  do 2 (replace (_ =? _) with true by (symmetry; apply Z.eqb_eq; unfold zlen; lia);
        cbn [assert_that mbind outcome_bind]).
  rewrite Hv. set (parts := izip _ _ _).
  assert (length parts = n) as Hlp by (subst parts; rewrite length_izip; lia).
  destruct (mapM_positions (entry_v2 (E := E) f (offset_pack_offset64_v2 f)) parts
    (λ i e, entry_at (E := E) f (Z.of_nat i) e)) as (es & Hes & Hles & Hall).
  - intros i x Hx. assert (i < n)%nat as Hi by (apply lookup_lt_Some in Hx; lia).
    assert (0 ≤ Z.of_nat i < num_objects f) as Hiz by lia.
    subst parts. erewrite izip_lookup in Hx by eauto. injection Hx as <-.
    destruct (v2_accessors f Hf Hv (E := E) (Z.of_nat i) Hiz) as (Hoid & Hofs & Hcrc).
    destruct (ofs_bytes_ok f Hf Hv (Z.of_nat i) Hiz) as (Hb4 & Hbok & Hbin).
    destruct (v2_pack_offset f Hf Hv (E := E) _ Hb4 Hbok Hbin) as (ofs & Hpo & Hrange).
    replace (s0 + i * Z.to_nat (hash_len f))%nat
      with (Z.to_nat (1032 + Z.of_nat i * hash_len f)) by nia.
    replace (Z.to_nat (offset_crc32_v2 f) + i * 4)%nat
      with (Z.to_nat (offset_crc32_v2 f + Z.of_nat i * 4)) by nia.
    replace (Z.to_nat (offset_pack_offset_v2 f) + i * 4)%nat
      with (Z.to_nat (offset_pack_offset_v2 f + Z.of_nat i * 4)) by nia.
    fold (ofs_bytes f (Z.of_nat i)).
    destruct (from_bytes_or_panic_ok (E := E) (take (Z.to_nat (hash_len f))
      (drop (Z.to_nat (1032 + Z.of_nat i * hash_len f)) (data f))) (object_hash f))
      as (id & Hid & Hsl & Hk).
    { rewrite <- (ok_hash_len f Hf). apply zlen_slice; unfold zlen; nia. }
    eexists. unfold entry_v2. rewrite Hid. cbn [mbind outcome_bind]. rewrite Hpo.
    cbn [mbind outcome_bind]. rewrite read_u32_ok by
      (change 4%nat with (Z.to_nat 4); apply zlen_slice; unfold zlen; nia).
    split; [done|]. unfold entry_at. simpl. rewrite Hsl, Hoid, Hofs, Hcrc. done.
  - exists es. split; [done|]. split; [unfold zlen; lia|done].
Qed.

Lemma iter_v1_ok {E} f :
  index_ok f → version f = V1 →
  ∃ es, iter (E := E) f = Ok es ∧ zlen es = num_objects f ∧
    ∀ i e, es !! i = Some e → entry_at (E := E) f (Z.of_nat i) e.
Proof.
  intros Hf Hv. pose proof (num_range f Hf) as Hn. pose proof (hash_len_range f Hf) as Hh.
  pose proof (ok_size f Hf) as Hs. rewrite Hv in Hs. unfold iter. rewrite Hv.
  unfold iter_v1. rewrite Hv. change V1_HEADER_SIZE with 1024. change N32_SIZE with 4.
  rewrite get_from_in by nia. cbn [expect mbind outcome_bind].
  set (n := Z.to_nat (num_objects f)). unfold zlen in Hs. remember (Z.to_nat 1024) as s0 eqn:Hs0.
  destruct (taken_chunks n (Z.to_nat (4 + hash_len f)) s0 (data f)) as [Hl1 Ha1];
    [lia|nia|].
  set (parts := take n _) in *.
  destruct (mapM_positions (entry_v1 (E := E)) parts
    (λ i e, entry_at (E := E) f (Z.of_nat i) e)) as (es & Hes & Hles & Hall).
  - intros i x Hx. assert (i < n)%nat as Hi by (apply lookup_lt_Some in Hx; lia).
    rewrite Ha1 in Hx by done. injection Hx as <-.
    set (s := (s0 + i * Z.to_nat (4 + hash_len f))%nat).
    set (c := take (Z.to_nat (4 + hash_len f)) (drop s (data f))).
    assert (s + Z.to_nat (4 + hash_len f) ≤ length (data f))%nat as Hfit by (subst s; nia).
    assert (zlen c = 4 + hash_len f) as Hc
      by (subst c; unfold zlen; rewrite length_take, length_drop; lia).
    assert (take 4 c = take 4 (drop s (data f))) as H4
      by (subst c; rewrite take_take; f_equal; lia).
    assert (drop 4 c = take (Z.to_nat (hash_len f)) (drop (s + 4) (data f))) as H5.
    { subst c. rewrite skipn_firstn_comm, drop_drop. f_equal. lia. }
    destruct (from_bytes_or_panic_ok (E := E) (drop 4 c) (object_hash f)) as (id & Hid & Hsl & Hk).
    { rewrite <- (ok_hash_len f Hf). unfold zlen in *. rewrite length_drop. lia. }
    assert (zlen (take 4 c) = 4) as Hz4 by (unfold zlen in *; rewrite length_take; lia).
    eexists. unfold entry_v1. change N32_SIZE with 4. rewrite split_at_in by lia.
    cbn [expect mbind outcome_bind]. change (Z.to_nat 4) with 4%nat. rewrite Hid.
    cbn [mbind outcome_bind]. rewrite read_u32_ok by done. cbn [mbind outcome_bind].
    split; [done|]. unfold entry_at, oid_at_index, pack_offset_at_index, crc32_at_index.
    rewrite Hv. simpl. change N32_SIZE with 4. change V1_HEADER_SIZE with 1024.
    rewrite !slice_at_in by (unfold zlen; nia). cbn [mbind outcome_bind].
    replace (Z.to_nat (1024 + Z.of_nat i * (4 + hash_len f) + 4)) with (s + 4)%nat by nia.
    replace (Z.to_nat (1024 + Z.of_nat i * (4 + hash_len f))) with s by nia.
    rewrite <- H5, Hsl. change (Z.to_nat 4) with 4%nat. rewrite <- H4, read_u32_ok by done.
    pose proof (from_be_u32 (take 4 c)) as Hu. split; [done|]. split; [done|]. split; [done|].
    split; [|done]. assert (bytes_ok (take 4 c)) as Hbk.
    { rewrite H4. apply bytes_ok_slice, (ok_bytes f Hf). }
    specialize (Hu Hbk Hz4). lia.
  - exists es. split; [done|]. split; [unfold zlen; lia|done].
Qed.

(** An opened file is a table the lookups are safe on. *)
Lemma index_table_safe {E} f :
  index_ok f → IdTableSafe (index_table (E := E) f) (object_hash f).
Proof.
  intros Hf. split; cbn [tab_num tab_at tab_fan index_table].
  - by apply num_range.
  - intros i Hi. destruct (oid_at_ok f Hf (E := E) i Hi) as (x & Hx & Hl & Hb).
    exists x. by rewrite <- (ok_hash_len f Hf).
  - apply (ok_fan_len f Hf).
  - apply (ok_fan_mono f Hf).
  - apply (ok_fan_range f Hf).
  - apply (ok_num f Hf).
Qed.

Lemma file_lookup_total {E} f id :
  index_ok f → zlen id = hash_len f → bytes_ok id →
  ∃ r, file_lookup (E := E) f id = Ok r ∧
    match r with
    | Some i => 0 ≤ i < num_objects f ∧ oid_at_index (E := E) f i = Ok id
    | None => True
    end.
Proof.
  intros Hf Hid Hb. rewrite (ok_hash_len f Hf) in Hid.
  exact (lookup_total (index_table f) (object_hash f) (Hsafe := index_table_safe f Hf) id Hid Hb).
Qed.

(** C13: on arbitrary bytes, opening a pack index either fails with an error or
    yields a file on which nothing panics: the accessors succeed at every
    position, the iterator yields one entry per object that agrees with them,
    and looking up any id or prefix returns, with a position that really holds it
    if any, even when the file's ids are not in order. *)
Theorem index_access_safe (bs : bytes) (k : Kind) (Hb : bytes_ok bs) :
  from_data bs k ≠ Panic ∧
  ∀ f, from_data bs k = Ok f →
    (∃ es, iter (E := index_error) f = Ok es ∧ zlen es = num_objects f ∧
       ∀ i e, es !! i = Some e → entry_at (E := index_error) f (Z.of_nat i) e) ∧
    (∀ id, zlen id = len_in_bytes k → bytes_ok id →
       ∃ r, file_lookup (E := index_error) f id = Ok r ∧
         match r with
         | Some i => 0 ≤ i < num_objects f ∧ oid_at_index (E := index_error) f i = Ok id
         | None => True
         end) ∧
    (∀ p candidates, prefix_ok p → kind (prefix_bytes p) = k →
       ∃ r o, file_lookup_prefix (E := index_error) f p candidates = Ok (r, o) ∧
         match r with
         | Some (Unique i) => 0 ≤ i < num_objects f ∧ ∃ x, oid_at_index (E := index_error) f i = Ok x ∧
             take (Z.to_nat (hex_len p)) (nibbles x) = prefix_digits p
         | _ => True
         end).
Proof.
  destruct (from_data_ok bs k Hb) as [Hnp Hok]. split; [done|]. intros f Hf.
  destruct (Hok f Hf) as (Hidx & Hd & Hk). split.
  - destruct (version f) eqn:Hv; [by apply iter_v1_ok|by apply iter_v2_ok].
  - split.
    + intros id Hl Hid. apply file_lookup_total; [done| |done].
      by rewrite (ok_hash_len f Hidx), Hk.
    + intros p candidates Hp Hkind. rewrite <- Hk in Hkind.
      exact (lookup_prefix_total (index_table f) (object_hash f) (Hsafe := index_table_safe f Hidx) p Hp Hkind candidates).
Qed.

(** ** Lemmas: writing *)
Definition is_large (e : Item) : bool := LARGE_OFFSET_THRESHOLD <? item_offset e.
Definition larges (entries : list Item) : list Z := item_offset <$> filter is_large entries.
(** The 32-bit table for [entries] when [c] large offsets precede them. *)
Fixpoint offset_codes (entries : list Item) (c : Z) : list Z :=
  match entries with
  | [] => []
  | e :: entries =>
      if is_large e then (2 ^ 31 + c) :: offset_codes entries (c + 1)
      else item_offset e :: offset_codes entries c
  end.

Definition item_ok (k : Kind) (e : Item) : Prop :=
  oid_ok (item_id e) ∧ kind (item_id e) = k ∧ 0 ≤ item_crc32 e < 2 ^ 32 ∧
  0 ≤ item_offset e < 2 ^ 64.

Lemma larges_cons e entries :
  larges (e :: entries) = if is_large e then item_offset e :: larges entries else larges entries.
Proof.
  unfold larges. destruct (is_large e) eqn:He.
  - by rewrite filter_cons_True by (by rewrite He).
  - by rewrite filter_cons_False by (rewrite He; auto).
Qed.

Lemma is_large_bounds e : 0 ≤ item_offset e →
  if is_large e then 2 ^ 31 ≤ item_offset e else 0 ≤ item_offset e < 2 ^ 31.
Proof.
  intros. unfold is_large, LARGE_OFFSET_THRESHOLD. destruct (Z.ltb_spec 2147483647 (item_offset e)); lia.
Qed.

Lemma lor_high_bit x : 0 ≤ x < 2 ^ 31 → Z.lor x HIGH_BIT = 2 ^ 31 + x.
Proof.
  intros Hx. change HIGH_BIT with (1 * 2 ^ 31). rewrite lor_low_high by lia. lia.
Qed.

Lemma write_offsets_spec {E} entries pre :
  Forall (λ e, 0 ≤ item_offset e < 2 ^ 64) entries →
  zlen pre + zlen (larges entries) ≤ LARGE_OFFSET_THRESHOLD →
  write_offsets (E := E) entries pre =
  Ok (concat (to_be 4 <$> offset_codes entries (zlen pre)), pre ++ larges entries).
Proof.
  intros Hall. revert pre. induction Hall as [|e entries He _ IH]; intros pre Hlen.
  - cbn. by rewrite app_nil_r.
  - rewrite larges_cons in *. cbn [write_offsets offset_codes]. unfold is_large in *.
    pose proof (is_large_bounds e ltac:(lia)) as Hb. unfold is_large in Hb.
    destruct (LARGE_OFFSET_THRESHOLD <? item_offset e).
    + rewrite zlen_cons in Hlen. pose proof (zlen_nonneg (larges entries)).
      unfold LARGE_OFFSET_THRESHOLD in *. pose proof (zlen_nonneg pre).
      destruct (Z.ltb_spec (zlen pre) 2147483647); [|lia]. cbn [assert_that mbind outcome_bind].
      rewrite zlen_app. change (zlen [item_offset e]) with 1.
      rewrite wrap_small, lor_high_bit by lia.
      rewrite IH by (rewrite zlen_app; change (zlen [item_offset e]) with 1; lia).
      cbn [mbind outcome_bind]. rewrite zlen_app, <- app_assoc.
      change (zlen [item_offset e]) with 1. rewrite fmap_cons, concat_cons. do 3 f_equal. do 2 f_equal; lia.
    + cbn [mbind outcome_bind]. rewrite IH by done. cbn [mbind outcome_bind].
      rewrite wrap_small by lia. by rewrite fmap_cons, concat_cons.
Qed.

Lemma offset_codes_length entries c : length (offset_codes entries c) = length entries.
Proof.
  revert c. induction entries as [|e entries IH]; intros c; [done|].
  cbn [offset_codes]. destruct (is_large e); simpl; by rewrite IH.
Qed.

Lemma offset_codes_range entries c :
  Forall (λ e, 0 ≤ item_offset e < 2 ^ 64) entries → 0 ≤ c →
  c + zlen (larges entries) ≤ 2 ^ 31 → Forall (λ x, 0 ≤ x < 2 ^ 32) (offset_codes entries c).
Proof.
  intros Hall. revert c. induction Hall as [|e entries He _ IH]; intros c Hc Hlen; [constructor|].
  rewrite larges_cons in Hlen. cbn [offset_codes].
  pose proof (is_large_bounds e ltac:(lia)) as Hb. pose proof (zlen_nonneg (larges entries)).
  destruct (is_large e).
  - rewrite zlen_cons in Hlen. constructor; [lia|]. apply IH; lia.
  - constructor; [lia|]. by apply IH.
Qed.

Lemma large_indices_codes entries c :
  Forall (λ e, 0 ≤ item_offset e < 2 ^ 64) entries → 0 ≤ c →
  c + zlen (larges entries) ≤ 2 ^ 31 →
  large_indices (offset_codes entries c) = seqZ c (zlen (larges entries)).
Proof.
  intros Hall. revert c. induction Hall as [|e entries He _ IH]; intros c Hc Hlen; [done|].
  rewrite larges_cons in *. cbn [offset_codes].
  pose proof (is_large_bounds e ltac:(lia)) as Hb. pose proof (zlen_nonneg (larges entries)).
  unfold large_indices in *. destruct (is_large e).
  - rewrite zlen_cons in *. rewrite seqZ_cons by lia.
    replace (Z.pred (1 + zlen (larges entries))) with (zlen (larges entries)) by lia.
    cbn [omap list_omap]. destruct (high_bit (2 ^ 31 + c) ltac:(lia)) as [-> Hx].
    destruct (Z.ltb_spec (2 ^ 31 + c) (2 ^ 31)); [lia|]. cbn [Z.eqb]. rewrite Hx by lia.
    change (2 ^ 31 =? 0) with false. cbv iota. f_equal; [lia|]. rewrite (IH (c + 1)) by lia.
    f_equal; lia.
  - cbn [omap list_omap]. destruct (high_bit (item_offset e) ltac:(lia)) as [-> _].
    destruct (Z.ltb_spec (item_offset e) (2 ^ 31)); [|lia]. cbn [Z.eqb]. by apply IH.
Qed.

Lemma offset_codes_lookup entries c i e :
  entries !! i = Some e →
  ∃ code, offset_codes entries c !! i = Some code ∧
    if is_large e then ∃ j : nat, code = 2 ^ 31 + c + Z.of_nat j ∧
                              larges entries !! j = Some (item_offset e)
    else code = item_offset e.
Proof.
  revert c i. induction entries as [|a entries IH]; intros c i Hi; [done|].
  rewrite larges_cons. cbn [offset_codes]. destruct i as [|i]; simplify_eq/=.
  - destruct (is_large e) eqn:He; eexists; (split; [done|]); [|done].
    exists 0%nat. split; [lia|done].
  - destruct (is_large a).
    + destruct (IH (c + 1) i Hi) as (code & Hc & Hspec). exists code. split; [done|].
      destruct (is_large e); [|done]. destruct Hspec as (j & -> & Hj). exists (S j).
      split; [lia|done].
    + destruct (IH c i Hi) as (code & Hc & Hspec). exists code. split; [done|]. done.
Qed.

Lemma mono_of_spec l :
  (∀ i x y, l !! i = Some x → l !! S i = Some y → x ≤ y) →
  fan_is_monotonically_increasing l = true.
Proof.
  induction l as [|a l IH]; intros H; [done|]. destruct l as [|b l]; [done|].
  cbn [fan_is_monotonically_increasing]. apply andb_true_iff. split.
  - specialize (H 0%nat a b eq_refl eq_refl). destruct (Z.ltb_spec b a); [lia|done].
  - apply IH. intros i x y Hx Hy. by apply (H (S i)).
Qed.

Lemma count_le_mono l a b : a ≤ b → count_le l a ≤ count_le l b.
Proof.
  intros Hab. unfold count_le, zlen. induction l as [|x l IH]; [done|].
  rewrite !filter_cons. repeat case_decide; simpl; lia.
Qed.

Lemma count_fan_mono l : fan_is_monotonically_increasing (count_le l <$> seqZ 0 256) = true.
Proof.
  apply mono_of_spec. intros i x y Hx Hy.
  apply list_lookup_fmap_Some in Hx as (a & -> & Ha), Hy as (b & -> & Hb).
  apply lookup_seqZ in Ha as [-> _], Hb as [-> _]. apply count_le_mono. lia.
Qed.

(** ** Lemmas: reading back what was written *)
Lemma piece_at {A} n (pre : list A) ps post i p :
  Forall (λ p, length p = n) ps → ps !! i = Some p →
  take n (drop (length pre + i * n) (pre ++ concat ps ++ post)) = p.
Proof. intros Hps Hp. rewrite <- drop_drop, drop_app_length. by apply concat_piece. Qed.

Lemma chunks_concat {A} n (ps : list (list A)) :
  n ≠ 0%nat → Forall (λ p, length p = n) ps → chunks n (concat ps) = ps.
Proof.
  intros Hn Hps. rewrite <- (take_chunks_concat n ps []) at 2 by done. rewrite app_nil_r.
  rewrite take_ge; [done|]. rewrite length_chunks, (length_concat_const n), Nat.div_mul by done. lia.
Qed.

Lemma from_to_be4 l : Forall (λ x, 0 ≤ x < 2 ^ 32) l → from_be <$> (to_be 4 <$> l) = l.
Proof.
  induction 1 as [|x l Hx _ IH]; [done|]. rewrite !fmap_cons, IH. f_equal. by apply from_to_be.
Qed.

Lemma lengths_to_be {A} n (g : A → Z) l :
  Forall (λ p : bytes, length p = n) ((λ x, to_be n (g x)) <$> l).
Proof. apply Forall_fmap, Forall_true. intros x. apply length_to_be. Qed.

Lemma concat_zlen {A} n (ps : list (list A)) :
  Forall (λ p, length p = n) ps → zlen (concat ps) = zlen ps * Z.of_nat n.
Proof. intros H. unfold zlen. rewrite (length_concat_const n) by done. lia. Qed.

Lemma foldl_max_seqZ n : 0 < n → foldl Z.max 0 (seqZ 0 n) < n.
Proof.
  intros Hn. destruct (foldl_max_ge (seqZ 0 n) 0) as [_ _].
  assert (∀ l mx, mx < n → Forall (λ x, x < n) l → foldl Z.max mx l < n) as H.
  { induction l as [|x l IH]; intros mx Hm Hl; [done|]. apply Forall_cons_1 in Hl as [Hx Hl].
    simpl. apply IH; [lia|done]. }
  apply H; [lia|]. apply list.Forall_forall. intros x Hx. apply elem_of_seqZ in Hx. lia.
Qed.

(** [write_to] with its intermediate results named. *)
Definition index_body (entries : list Item) (pack_hash : ObjectId) (fan_out : list Z)
    (offsets : bytes) (offsets64 : list Z) : bytes :=
  V2_SIGNATURE ++ to_be 4 (version_number V2) ++ concat (to_be 4 <$> fan_out)
    ++ concat ((λ e, as_slice (item_id e)) <$> entries)
    ++ concat ((λ e, to_be 4 (item_crc32 e)) <$> entries)
    ++ offsets ++ concat (to_be 8 <$> offsets64) ++ as_slice pack_hash.
Lemma write_to_eq {E} (try_finalize : bytes → outcome E ObjectId) entries pack_hash
    first_bytes fan_out offsets offsets64 :
  zlen entries ≤ 2 ^ 32 - 1 →
  mapM (λ e, first_byte (E := E) (as_slice (item_id e))) entries = Ok first_bytes →
  fanout (E := E) first_bytes = Ok fan_out →
  write_offsets (E := E) entries [] = Ok (offsets, offsets64) →
  write_to try_finalize entries pack_hash V2 =
  (index_hash ← try_finalize (index_body entries pack_hash fan_out offsets offsets64);
   Ok (index_body entries pack_hash fan_out offsets offsets64 ++ as_slice index_hash, index_hash)).
Proof.
  unfold write_to. generalize (fanout (E := E)) as fan_of'. generalize (write_offsets (E := E)) as wo.
  intros wo fan_of' Hn H1 H2 H3. rewrite bool_decide_eq_true_2 by done.
  destruct (Z.leb_spec (zlen entries) (2 ^ 32 - 1)); [|lia]. cbn [assert_that mbind outcome_bind].
  rewrite H1. cbn [mbind outcome_bind]. rewrite H2. cbn [mbind outcome_bind]. rewrite H3. done.
Qed.
Lemma write_to_end {E} (try_finalize : bytes → outcome E ObjectId) body h :
  try_finalize body = Ok h →
  (index_hash ← try_finalize body; Ok (body ++ as_slice index_hash, index_hash)) =
  Ok (body ++ as_slice h, h).
Proof. by intros ->. Qed.

Section Written.
Context (entries : list Item) (k : Kind) (pack_hash index_hash : ObjectId).
Context (Hitems : Forall (item_ok k) entries)
  (Hsorted : sorted_ids ((λ e, as_slice (item_id e)) <$> entries))
  (Hn : zlen entries < 2 ^ 32) (Hlarge : zlen (larges entries) ≤ LARGE_OFFSET_THRESHOLD)
  (Hph : oid_ok pack_hash ∧ kind pack_hash = k)
  (Hih : oid_ok index_hash ∧ kind index_hash = k).

Definition w_ids : list bytes := (λ e, as_slice (item_id e)) <$> entries.
Definition w_fan : list Z := count_le (first_of <$> w_ids) <$> seqZ 0 256.
Definition w_codes : list Z := offset_codes entries 0.
Definition w_header : bytes := V2_SIGNATURE ++ to_be 4 2.
Definition w_fan_bytes : bytes := concat (to_be 4 <$> w_fan).
Definition w_crcs : list bytes := (λ e, to_be 4 (item_crc32 e)) <$> entries.
Definition w_body : bytes :=
  index_body entries pack_hash w_fan (concat (to_be 4 <$> w_codes)) (larges entries).
Definition w_data : bytes := w_body ++ as_slice index_hash.
Definition w_file : File :=
  {| data := w_data; version := V2; num_objects := zlen entries; fan := w_fan;
     hash_len := len_in_bytes k; object_hash := k |}.

Lemma w_ids_ok x : x ∈ w_ids → zlen x = len_in_bytes k ∧ bytes_ok x.
Proof using Hitems.
  intros Hx. unfold w_ids in Hx. apply list_elem_of_fmap in Hx as (e & -> & He).
  rewrite list.Forall_forall in Hitems. destruct (Hitems e He) as ([Hl Hb] & Hk & _).
  by rewrite Hk in Hl.
Qed.

Lemma w_ids_length : Forall (λ p, length p = Z.to_nat (len_in_bytes k)) w_ids.
Proof using Hitems.
  apply list.Forall_forall. intros x Hx. apply w_ids_ok in Hx as [Hl _]. unfold zlen in Hl. lia.
Qed.

Lemma w_first_bytes :
  zlen (first_of <$> w_ids) = zlen entries ∧ bytes_ok (first_of <$> w_ids) ∧
  StronglySorted Z.le (first_of <$> w_ids) ∧
  mapM (λ e, first_byte (E := index_error) (as_slice (item_id e))) entries =
    Ok (first_of <$> w_ids).
Proof using Hitems Hsorted.
  split; [unfold zlen, w_ids; by rewrite !length_fmap|]. split; [|split].
  - apply Forall_fmap, list.Forall_forall. intros x Hx. destruct (w_ids_ok x Hx).
    by apply (first_of_byte (k := k)).
  - apply (first_of_sorted k); [apply w_ids_ok|done].
  - rewrite (mapM_Ok _ (λ e, first_of (as_slice (item_id e)))).
    + unfold w_ids. by rewrite <- list_fmap_compose.
    + intros e He. apply (first_byte_of (k := k)). apply w_ids_ok.
      unfold w_ids. apply list_elem_of_fmap. eauto.
Qed.

Lemma w_fan_range : Forall (λ x, 0 ≤ x < 2 ^ 32) w_fan.
Proof using Hitems Hsorted Hn.
  apply Forall_fmap, Forall_true. intros b. simpl.
  pose proof (count_le_bounds (first_of <$> w_ids) b) as Hb.
  destruct w_first_bytes as (Hz & _). lia.
Qed.

Lemma w_offsets_ok : Forall (λ e, 0 ≤ item_offset e < 2 ^ 64) entries.
Proof using Hitems. eapply Forall_impl; [|exact Hitems]. intros e (_ & _ & _ & H). exact H. Qed.

Lemma w_codes_range : Forall (λ x, 0 ≤ x < 2 ^ 32) w_codes.
Proof using Hitems Hlarge.
  unfold LARGE_OFFSET_THRESHOLD in Hlarge. apply offset_codes_range; [apply w_offsets_ok|lia|lia].
Qed.

(** The lengths of the parts, and of the whole file. *)
Lemma w_lengths :
  zlen w_header = 8 ∧ zlen w_fan_bytes = 1024 ∧
  zlen (concat w_ids) = zlen entries * len_in_bytes k ∧
  zlen (concat w_crcs) = zlen entries * 4 ∧
  zlen (concat (to_be 4 <$> w_codes)) = zlen entries * 4 ∧
  zlen (concat (to_be 8 <$> larges entries)) = zlen (larges entries) * 8 ∧
  zlen (as_slice pack_hash) = len_in_bytes k ∧ zlen (as_slice index_hash) = len_in_bytes k.
Proof using Hitems Hph Hih.
  pose proof (len_in_bytes_range k). split; [done|]. split; [|split; [|split; [|split; [|split; [|split]]]]].
  - unfold w_fan_bytes. rewrite (concat_zlen 4) by (apply lengths_to_be).
    unfold zlen, w_fan. by rewrite !length_fmap.
  - rewrite (concat_zlen _ _ w_ids_length). unfold w_ids, zlen. rewrite length_fmap. lia.
  - unfold w_crcs. rewrite (concat_zlen 4) by (apply lengths_to_be).
    unfold zlen. by rewrite length_fmap.
  - rewrite (concat_zlen 4) by (apply lengths_to_be).
    unfold zlen, w_codes. by rewrite length_fmap, offset_codes_length.
  - rewrite (concat_zlen 8) by (apply lengths_to_be). unfold zlen. by rewrite length_fmap.
  - destruct Hph as [[Hl _] <-]. done.
  - destruct Hih as [[Hl _] <-]. done.
Qed.

(** The file as its parts. *)
Lemma w_data_split :
  w_data = w_header ++ w_fan_bytes ++ concat w_ids ++ concat w_crcs
    ++ concat (to_be 4 <$> w_codes) ++ concat (to_be 8 <$> larges entries)
    ++ as_slice pack_hash ++ as_slice index_hash.
Proof using. unfold w_data, w_body, index_body, w_header. by rewrite <- !app_assoc. Qed.

Lemma w_bytes_ok : bytes_ok w_data.
Proof using Hitems Hph Hih.
  rewrite w_data_split. rewrite !bytes_ok_app.
  assert (∀ n (A : Type) (g : A → Z) l, bytes_ok (concat ((λ x, to_be n (g x)) <$> l))) as Hb.
  { intros n A g l. induction l as [|x l IH]; [constructor|].
    rewrite fmap_cons, concat_cons, bytes_ok_app. split; [apply bytes_ok_to_be|done]. }
  split; [|split; [|split; [|split; [|split; [|split; [|split]]]]]].
  - unfold w_header. rewrite bytes_ok_app. split; [|apply bytes_ok_to_be].
    unfold V2_SIGNATURE. repeat (constructor; [unfold is_byte; lia|]). constructor.
  - apply (Hb 4%nat Z id).
  - assert (∀ x, x ∈ w_ids → bytes_ok x) as Hw
      by (intros x Hx; apply (proj2 (w_ids_ok x Hx))).
    revert Hw. generalize w_ids. intros l Hw. induction l as [|x l IH]; [constructor|]. rewrite concat_cons, bytes_ok_app.
    split; [apply Hw; by left|]. apply IH. intros y Hy. apply Hw. by right.
  - apply Hb.
  - apply (Hb 4%nat Z id).
  - apply (Hb 8%nat Z id).
  - by destruct Hph as [[_ ?] _].
  - by destruct Hih as [[_ ?] _].
Qed.

Lemma w_zlen : zlen w_data =
  1032 + zlen entries * len_in_bytes k + zlen entries * 8 + zlen (larges entries) * 8
    + len_in_bytes k * 2.
Proof using Hitems Hph Hih.
  rewrite w_data_split, !zlen_app. destruct w_lengths as (-> & -> & -> & -> & -> & -> & -> & ->).
  lia.
Qed.

Lemma w_fan_of : fan_of (drop 8 w_data) = w_fan ∧ num_of (drop 8 w_data) = zlen entries.
Proof using Hitems Hsorted Hn.
  assert (fan_of (drop 8 w_data) = w_fan) as Hfan.
  { unfold fan_of. rewrite w_data_split.
    assert (∀ r, drop 8 (w_header ++ r) = r) as ->
      by (intros r; exact (drop_app_length w_header r)).
    unfold w_fan_bytes.
    assert (length (to_be 4 <$> w_fan) = 256%nat) as Hl256
      by (unfold w_fan; by rewrite !length_fmap).
    rewrite <- Hl256, take_chunks_concat by (done || apply lengths_to_be).
    apply from_to_be4, w_fan_range. }
  split; [done|]. unfold num_of. rewrite Hfan. unfold w_fan, get. cbn [Z.leb Z.compare].
  rewrite list_lookup_fmap, lookup_seqZ_lt by lia. cbn [fmap option_fmap option_map default].
  rewrite count_le_all; [by destruct w_first_bytes as (? & _)|].
  destruct w_first_bytes as (_ & Hb & _). eapply Forall_impl; [|exact Hb].
  unfold is_byte. intros x Hx. simpl. change (Z.to_nat 255) with 255%nat. lia.
Qed.

(** The table of 32-bit offsets is where [validate_size] looks for it. *)
Lemma w_offset_slice :
  take (Z.to_nat (zlen entries * 4))
    (drop (Z.to_nat (1032 + zlen entries * len_in_bytes k + zlen entries * 4)) w_data) =
  concat (to_be 4 <$> w_codes).
Proof using Hitems Hph Hih.
  rewrite w_data_split. pose proof (len_in_bytes_range k). pose proof (zlen_nonneg entries).
  destruct w_lengths as (H1 & H2 & H3 & H4 & H5 & _).
  rewrite !app_assoc. set (pre := ((w_header ++ _) ++ _) ++ _).
  rewrite <- !(app_assoc (pre ++ _)), <- (app_assoc pre).
  assert (zlen pre = 1032 + zlen entries * len_in_bytes k + zlen entries * 4) as Hpre.
  { subst pre. rewrite !zlen_app. lia. }
  rewrite <- Hpre, <- H5. unfold zlen at 1 2. rewrite !Nat2Z.id, drop_app_length.
  by rewrite take_app_length.
Qed.

Lemma w_from_data : from_data w_data k = Ok w_file.
Proof using Hitems Hsorted Hn Hlarge Hph Hih.
  pose proof (len_in_bytes_range k) as Hk. pose proof (zlen_nonneg entries).
  pose proof (zlen_nonneg (larges entries)) as HL. pose proof w_zlen as Hz.
  rewrite from_data_eq. destruct (Z.ltb_spec (zlen w_data) (1024 + len_in_bytes k * 2)); [lia|].
  rewrite w_data_split. change (take 4 (w_header ++ _)) with V2_SIGNATURE.
  unfold bytes_eqb. rewrite bool_decide_eq_true_2 by done.
  change (from_be (take 4 (drop 4 (w_header ++ _))) =? 2) with true. cbv iota.
  rewrite <- w_data_split.
  destruct (check_tables_eq w_data (drop 8 w_data) V2 k) as (_ & _ & ->).
  { unfold zlen in *. rewrite length_drop. lia. }
  { apply Forall_drop, w_bytes_ok. }
  destruct w_fan_of as [-> ->]. unfold w_fan at 1. rewrite count_fan_mono.
  unfold validate_size. rewrite validate_size_v2_eq by lia. rewrite w_offset_slice.
  rewrite chunks_concat by (done || apply lengths_to_be). rewrite from_to_be4 by (apply w_codes_range).
  unfold w_codes. unfold LARGE_OFFSET_THRESHOLD in Hlarge.
  rewrite large_indices_codes by (apply w_offsets_ok || lia).
  assert (zlen (seqZ 0 (zlen (larges entries))) = zlen (larges entries)) as ->
    by (unfold zlen; rewrite length_seqZ; lia).
  destruct (Z.ltb_spec (zlen w_data) (1032 + zlen entries * len_in_bytes k + zlen entries * 4 +
    zlen entries * 4)); [lia|].
  assert ((0 <? zlen (larges entries)) &&
    (zlen (larges entries) <=? foldl Z.max 0 (seqZ 0 (zlen (larges entries)))) = false) as ->.
  { destruct (Z.ltb_spec 0 (zlen (larges entries))) as [Hpos|]; [|done].
    pose proof (foldl_max_seqZ _ Hpos). apply Z.leb_gt. lia. }
  cbn [mbind outcome_bind]. unfold ensure.
  destruct (Z.eqb_spec (zlen w_data) (1032 + zlen entries * len_in_bytes k + zlen entries * 4 +
    zlen entries * 4 + 8 * zlen (larges entries) + 2 * len_in_bytes k)); [done|lia].
Qed.

Lemma w_index_ok : index_ok w_file.
Proof using Hitems Hsorted Hn Hlarge Hph Hih.
  destruct (from_data_ok w_data k w_bytes_ok) as [_ Hok]. by destruct (Hok _ w_from_data).
Qed.

Lemma w_oid_at {E} i e :
  entries !! i = Some e → oid_at_index (E := E) w_file (Z.of_nat i) = Ok (as_slice (item_id e)).
Proof using Hitems Hsorted Hn Hlarge Hph Hih.
  intros He. apply lookup_lt_Some in He as Hi. pose proof (len_in_bytes_range k).
  destruct (v2_accessors w_file w_index_ok eq_refl (E := E) (Z.of_nat i)) as (-> & _).
  { unfold zlen. simpl. unfold zlen. lia. }
  cbn [data hash_len w_file]. f_equal. rewrite w_data_split.
  rewrite (app_assoc w_header). destruct w_lengths as (H1 & H2 & _).
  replace (Z.to_nat (1032 + Z.of_nat i * len_in_bytes k))
    with (length (w_header ++ w_fan_bytes) + i * Z.to_nat (len_in_bytes k))%nat
    by (unfold zlen in *; rewrite length_app; nia).
  apply piece_at; [apply w_ids_length|]. unfold w_ids. by rewrite list_lookup_fmap, He.
Qed.

Lemma w_crc_at {E} i e :
  entries !! i = Some e → crc32_at_index (E := E) w_file (Z.of_nat i) = Ok (Some (item_crc32 e)).
Proof using Hitems Hsorted Hn Hlarge Hph Hih.
  intros He. apply lookup_lt_Some in He as Hi. pose proof (len_in_bytes_range k).
  destruct (v2_accessors w_file w_index_ok eq_refl (E := E) (Z.of_nat i)) as (_ & _ & ->).
  { simpl. unfold zlen. lia. }
  destruct (v2_offsets w_file) as (-> & _). cbn [data hash_len num_objects w_file].
  rewrite w_data_split. destruct w_lengths as (H1 & H2 & H3 & _).
  rewrite (app_assoc w_header), (app_assoc (w_header ++ w_fan_bytes)).
  replace (Z.to_nat (1032 + zlen entries * len_in_bytes k + Z.of_nat i * 4))
    with (length ((w_header ++ w_fan_bytes) ++ concat w_ids) + i * 4)%nat
    by (unfold zlen in *; rewrite !length_app; nia).
  do 2 f_equal. erewrite (piece_at 4); [|apply lengths_to_be|].
  2:{ unfold w_crcs. by rewrite list_lookup_fmap, He. }
  apply from_to_be. rewrite Forall_lookup in Hitems. by destruct (Hitems _ _ He) as (_ & _ & ? & _).
Qed.

Lemma w_ofs_bytes i code :
  w_codes !! i = Some code → ofs_bytes w_file (Z.of_nat i) = to_be 4 code.
Proof using Hitems Hph Hih.
  intros Hc. unfold ofs_bytes. destruct (v2_offsets w_file) as (_ & -> & _).
  pose proof (len_in_bytes_range k). cbn [data hash_len num_objects w_file].
  rewrite w_data_split. destruct w_lengths as (H1 & H2 & H3 & H4 & _).
  rewrite (app_assoc w_header), (app_assoc (w_header ++ w_fan_bytes)),
    (app_assoc ((w_header ++ w_fan_bytes) ++ concat w_ids)).
  replace (Z.to_nat (1032 + zlen entries * len_in_bytes k + zlen entries * 4 + Z.of_nat i * 4))
    with (length (((w_header ++ w_fan_bytes) ++ concat w_ids) ++ concat w_crcs) + i * 4)%nat
    by (unfold zlen in *; rewrite !length_app; nia).
  apply (piece_at 4); [apply lengths_to_be|]. by rewrite list_lookup_fmap, Hc.
Qed.

Lemma w_large_at j x :
  larges entries !! j = Some x →
  take 8 (drop (Z.to_nat (offset_pack_offset64_v2 w_file + Z.of_nat j * 8)) w_data) = to_be 8 x.
Proof using Hitems Hph Hih.
  intros Hj. destruct (v2_offsets w_file) as (_ & _ & ->).
  pose proof (len_in_bytes_range k). cbn [data hash_len num_objects w_file].
  rewrite w_data_split. destruct w_lengths as (H1 & H2 & H3 & H4 & H5 & _).
  rewrite (app_assoc w_header), (app_assoc (w_header ++ w_fan_bytes)),
    (app_assoc ((w_header ++ w_fan_bytes) ++ concat w_ids)),
    (app_assoc (((w_header ++ w_fan_bytes) ++ concat w_ids) ++ concat w_crcs)).
  set (pre := (((w_header ++ w_fan_bytes) ++ concat w_ids) ++ concat w_crcs) ++ _).
  replace (Z.to_nat (1032 + zlen entries * len_in_bytes k + zlen entries * 8 + Z.of_nat j * 8))
    with (length pre + j * 8)%nat
    by (subst pre; unfold zlen in *; rewrite !length_app; nia).
  apply (piece_at 8); [apply lengths_to_be|]. by rewrite list_lookup_fmap, Hj.
Qed.

Lemma w_pack_offset_at {E} i e :
  entries !! i = Some e →
  pack_offset_at_index (E := E) w_file (Z.of_nat i) = Ok (item_offset e).
Proof using Hitems Hsorted Hn Hlarge Hph Hih.
  intros He. apply lookup_lt_Some in He as Hi.
  pose proof w_offsets_ok as Ho. rewrite Forall_lookup in Ho. specialize (Ho _ _ He). simpl in Ho.
  destruct (v2_accessors w_file w_index_ok eq_refl (E := E) (Z.of_nat i)) as (_ & -> & _).
  { simpl. unfold zlen. lia. }
  destruct (offset_codes_lookup entries 0 i e He) as (code & Hcode & Hspec).
  rewrite (w_ofs_bytes _ _ Hcode).
  pose proof w_codes_range as Hr. rewrite Forall_lookup in Hr. specialize (Hr _ _ Hcode).
  unfold pack_offset_from_offset_v2. rewrite bool_decide_eq_true_2 by done.
  cbn [assert_that mbind outcome_bind]. rewrite read_u32_ok by (by rewrite zlen_to_be).
  cbn [mbind outcome_bind]. rewrite from_to_be by done.
  destruct (high_bit code Hr) as [Hland Hxor]. unfold N32_HIGH_BIT. rewrite Hland.
  pose proof (is_large_bounds e ltac:(lia)) as Hb. destruct (is_large e).
  - destruct Hspec as (j & -> & Hj). destruct (Z.ltb_spec (2 ^ 31 + 0 + Z.of_nat j) (2 ^ 31)); [lia|].
    rewrite Z.eqb_refl, Hxor by lia. unfold N64_SIZE.
    replace (2 ^ 31 + 0 + Z.of_nat j - 2 ^ 31) with (Z.of_nat j) by lia.
    pose proof (w_large_at j _ Hj) as Hpiece. apply lookup_lt_Some in Hj as Hjl.
    destruct (v2_offsets w_file) as (_ & _ & Ho64). pose proof w_zlen as Hz.
    cbn [data hash_len num_objects w_file] in Ho64. pose proof (len_in_bytes_range k).
    rewrite slice_at_in by (cbn [data w_file]; unfold zlen in *; nia).
    cbn [data w_file mbind outcome_bind].
    change (Z.to_nat 8) with 8%nat. rewrite Hpiece, read_u64_ok by (by rewrite zlen_to_be).
    f_equal. by apply from_to_be.
  - subst code. destruct (Z.ltb_spec (item_offset e) (2 ^ 31)); [|lia]. done.
Qed.

(** The file keeps the promises the lookups rely on. *)
Lemma w_table_ok {E} : IdTableOk (index_table (E := E) w_file) k w_ids.
Proof using Hitems Hsorted Hn Hlarge Hph Hih.
  assert (zlen w_ids = zlen entries) as Hz by (unfold zlen, w_ids; by rewrite length_fmap).
  split.
  - by rewrite Hz.
  - by rewrite Hz.
  - intros i x Hx. unfold w_ids in Hx. apply list_lookup_fmap_Some in Hx as (e & -> & He).
    by apply w_oid_at.
  - apply w_ids_ok.
  - exact Hsorted.
  - apply count_le_fan_ok. by destruct w_first_bytes as (_ & _ & ? & _).
Qed.

Lemma write_offsets_nil {E} :
  write_offsets (E := E) entries [] =
  Ok (concat (to_be 4 <$> w_codes), larges entries).
Proof using Hitems Hlarge.
  rewrite write_offsets_spec; [done|apply w_offsets_ok|]. unfold zlen at 1. simpl. lia.
Qed.

Lemma w_write {E} (try_finalize : bytes → outcome E ObjectId) :
  try_finalize w_body = Ok index_hash →
  write_to try_finalize entries pack_hash V2 = Ok (w_data, index_hash).
Proof using Hitems Hsorted Hn Hlarge.
  intros Hfin. destruct w_first_bytes as (Hz & Hb & Hs & _).
  assert (mapM (λ e, first_byte (E := E) (as_slice (item_id e))) entries =
          Ok (first_of <$> w_ids)) as Hfb.
  { unfold w_ids. rewrite <- list_fmap_compose. apply mapM_Ok. intros e He.
    apply (first_byte_of (k := k)), w_ids_ok, list_elem_of_fmap. eauto. }
  pose proof (fanout_spec (E := E) _ Hs Hb ltac:(lia)) as Hfan.
  assert (zlen entries ≤ 2 ^ 32 - 1) as Hn' by lia.
  rewrite (write_to_eq _ _ _ _ _ _ _ Hn' Hfb Hfan write_offsets_nil).
  apply write_to_end, Hfin.
Qed.
End Written.

Definition entry_of (e : Item) : Entry :=
  {| oid := item_id e; pack_offset := item_offset e; crc32 := Some (item_crc32 e) |}.

Lemma as_slice_inj a b : kind a = kind b → as_slice a = as_slice b → a = b.
Proof. destruct a, b; simpl; congruence. Qed.

Lemma iter_written {E} entries k pack_hash index_hash :
  Forall (item_ok k) entries → sorted_ids ((λ e, as_slice (item_id e)) <$> entries) →
  zlen entries < 2 ^ 32 → zlen (larges entries) ≤ LARGE_OFFSET_THRESHOLD →
  oid_ok pack_hash ∧ kind pack_hash = k → oid_ok index_hash ∧ kind index_hash = k →
  iter (E := E) (w_file entries k pack_hash index_hash) = Ok (entry_of <$> entries).
Proof.
  intros H1 H2 H3 H4 H5 H6.
  destruct (iter_v2_ok (E := E) _ (w_index_ok entries k pack_hash index_hash H1 H2 H3 H4 H5 H6) eq_refl)
    as (es & -> & Hlen & Hall).
  f_equal. apply list_eq_same_length with (n := length entries);
    [by rewrite length_fmap|cbn [num_objects w_file] in Hlen; unfold zlen in Hlen; lia|].
  intros i x y Hi Hx Hy. apply list_lookup_fmap_Some in Hy as (e & -> & He).
  destruct (Hall i x Hx) as (Hid & Hk & Hofs & _ & Hcrc).
  rewrite (w_oid_at entries k pack_hash index_hash H1 H2 H3 H4 H5 H6 i e He) in Hid.
  rewrite (w_crc_at entries k pack_hash index_hash H1 H2 H3 H4 H5 H6 i e He) in Hcrc.
  rewrite (w_pack_offset_at entries k pack_hash index_hash H1 H2 H3 H4 H5 H6 i e He) in Hofs.
  injection Hid as Hid. injection Hcrc as Hcrc. injection Hofs as Hofs.
  apply as_slice_inj in Hid.
  - destruct x as [xo xp xc]. simpl in *. unfold entry_of. congruence.
  - rewrite Hk. rewrite Forall_lookup in H1. by destruct (H1 _ _ He) as (_ & ? & _).
Qed.

(** C14: for entries in the order of their ids (32-bit many, with no more large
    offsets than the format can index), [write_to()] succeeds, the bytes it
    writes are accepted by [File::from_data()], iterating the opened file gives
    the entries back, and looking up any id finds an entry with it, with the
    entry's pack offset and checksum at the position found, or [None] when
    there is no such entry. *)
Theorem index_write_roundtrip (try_finalize : bytes → outcome index_error ObjectId)
    (entries : list Item) (k : Kind) (pack_hash : ObjectId)
    (Hhasher : ∀ b, ∃ h, try_finalize b = Ok h ∧ oid_ok h ∧ kind h = k)
    (Hitems : Forall (item_ok k) entries)
    (Hsorted : sorted_ids ((λ e, as_slice (item_id e)) <$> entries))
    (Hn : zlen entries < 2 ^ 32) (Hlarge : zlen (larges entries) ≤ LARGE_OFFSET_THRESHOLD)
    (Hph : oid_ok pack_hash ∧ kind pack_hash = k) :
  ∃ out h f, write_to try_finalize entries pack_hash V2 = Ok (out, h) ∧
    from_data out k = Ok f ∧ iter (E := index_error) f = Ok (entry_of <$> entries) ∧
    ∀ id, zlen id = len_in_bytes k → bytes_ok id →
      match file_lookup (E := index_error) f id with
      | Ok (Some i) =>
          ∃ e, entries !! Z.to_nat i = Some e ∧ as_slice (item_id e) = id ∧
            pack_offset_at_index (E := index_error) f i = Ok (item_offset e) ∧
            crc32_at_index (E := index_error) f i = Ok (Some (item_crc32 e))
      | Ok None => ∀ e, e ∈ entries → as_slice (item_id e) ≠ id
      | _ => False
      end.
Proof.
  destruct (Hhasher (w_body entries pack_hash)) as (h & Hh & Hhk).
  exists (w_data entries pack_hash h), h, (w_file entries k pack_hash h).
  split; [by eapply w_write|]. split; [by apply w_from_data|]. split; [by apply iter_written|].
  intros id Hl Hb.
  destruct (lookup_spec (E := index_error) (index_table (w_file entries k pack_hash h)) k (w_ids entries) id)
    as (r & Hr & Hspec); [by apply w_table_ok|done|done|].
  unfold file_lookup. rewrite Hr. destruct r as [i|].
  - destruct Hspec as [Hi Hi0]. unfold w_ids in Hi.
    apply list_lookup_fmap_Some in Hi as (e & -> & He). exists e.
    rewrite <- (Z2Nat.id i) by done. split; [by rewrite Nat2Z.id|]. split; [done|].
    split; [by apply w_pack_offset_at|by apply w_crc_at].
  - intros e He Hid. apply Hspec. unfold w_ids. apply list_elem_of_fmap. by exists e.
Qed.

(** ** Witnesses: a file with one small and one large offset *)
Definition sample_hash : ObjectId := OidSha1 (replicate 20 5).
Definition sample_entries : list Item :=
  [{| item_offset := 12; item_id := OidSha1 (1 :: replicate 19 2); item_crc32 := 7 |};
   {| item_offset := 2 ^ 40 + 3; item_id := OidSha1 (1 :: replicate 19 9); item_crc32 := 8 |}].
Definition sample_file : bytes :=
  match write_to (λ _, Ok (E := index_error) sample_hash) sample_entries sample_hash V2 with
  | Ok (out, _) => out
  | _ => []
  end.

Lemma index_access_safe_witness :
  from_data sample_file Sha1 ≠ Panic ∧
  ∀ f, from_data sample_file Sha1 = Ok f →
    (∃ es, iter (E := index_error) f = Ok es ∧ zlen es = num_objects f ∧
       ∀ i e, es !! i = Some e → entry_at (E := index_error) f (Z.of_nat i) e) ∧
    (∀ id, zlen id = len_in_bytes Sha1 → bytes_ok id →
       ∃ r, file_lookup (E := index_error) f id = Ok r ∧
         match r with
         | Some i => 0 ≤ i < num_objects f ∧ oid_at_index (E := index_error) f i = Ok id
         | None => True
         end) ∧
    (∀ p candidates, prefix_ok p → kind (prefix_bytes p) = Sha1 →
       ∃ r o, file_lookup_prefix (E := index_error) f p candidates = Ok (r, o) ∧
         match r with
         | Some (Unique i) => 0 ≤ i < num_objects f ∧ ∃ x, oid_at_index (E := index_error) f i = Ok x ∧
             take (Z.to_nat (hex_len p)) (nibbles x) = prefix_digits p
         | _ => True
         end).
Proof.
  apply (index_access_safe sample_file Sha1). apply bytes_ok_bool. vm_compute. reflexivity.
Defined.

Lemma index_write_roundtrip_witness :
  ∃ out h f, write_to (λ _, Ok (E := index_error) sample_hash) sample_entries sample_hash V2 = Ok (out, h) ∧
    from_data out Sha1 = Ok f ∧
    iter (E := index_error) f = Ok (entry_of <$> sample_entries) ∧
    ∀ id, zlen id = len_in_bytes Sha1 → bytes_ok id →
      match file_lookup (E := index_error) f id with
      | Ok (Some i) =>
          ∃ e, sample_entries !! Z.to_nat i = Some e ∧ as_slice (item_id e) = id ∧
            pack_offset_at_index (E := index_error) f i = Ok (item_offset e) ∧
            crc32_at_index (E := index_error) f i = Ok (Some (item_crc32 e))
      | Ok None => ∀ e, e ∈ sample_entries → as_slice (item_id e) ≠ id
      | _ => False
      end.
Proof.
  assert (∀ b, forallb (in_u 8) b = true → zlen b = 20 → oid_ok (OidSha1 b)) as Hoid.
  { intros b Hb Hl. split; [done|]. by apply bytes_ok_bool. }
  apply (index_write_roundtrip (λ _, Ok (E := index_error) sample_hash) sample_entries Sha1 sample_hash).
  - intros b. exists sample_hash. split; [done|]. split; [by apply Hoid|done].
  - repeat constructor; try (by apply Hoid); simpl; lia.
  - intros i j x y Hij Hx Hy.
    destruct i as [|[|i]], j as [|[|j]]; try lia; simplify_eq/=; vm_compute; discriminate.
  - vm_compute. reflexivity.
  - vm_compute. discriminate.
  - split; [by apply Hoid|done].
Defined.
