(* ===== verification/PacketLine.v ===== *)
(** * [gix-packetline]: the packet line wire format

    [decode.rs], [encode.rs], [lib.rs], [read.rs] and the [blocking_io] module:
    lines and their encoding, the peekable reader with its state machine, the
    sideband demultiplexer and the packet line writer. A reader is the list of
    bytes it will still produce (an in-memory [&[u8]]: [read_exact] fails with
    [UnexpectedEof] and drains it when it is too short); a writer is the list of
    bytes it has received. Tracing is left out, and the progress handler is a
    pure function that decides whether to go on. [faster_hex] is the interface
    [FasterHex] of [Hash]. *)

From S2P Require Import Prelude Hash.

(** ** Lines, [lib.rs] *)
Definition U16_HEX_BYTES : Z := 4.
Definition MAX_DATA_LEN : Z := 65516.
Definition MAX_LINE_LEN : Z := MAX_DATA_LEN + U16_HEX_BYTES.
Definition FLUSH_LINE : bytes := [48; 48; 48; 48].
Definition DELIMITER_LINE : bytes := [48; 48; 48; 49].
Definition RESPONSE_END_LINE : bytes := [48; 48; 48; 50].
Definition ERR_PREFIX : bytes := [69; 82; 82; 32].

Inductive Channel := ChData | ChProgress | ChError.
Definition channel_byte (c : Channel) : Z :=
  match c with ChData => 1 | ChProgress => 2 | ChError => 3 end.

Inductive PacketLineRef :=
| Data (d : bytes)
| Flush
| Delimiter
| ResponseEnd.
#[export] Instance PacketLineRef_eq_dec : EqDecision PacketLineRef.
Proof. solve_decision. Defined.

Inductive BandRef :=
| BandData (d : bytes)
| BandProgress (d : bytes)
| BandError (d : bytes).

Inductive line_error :=
| DataLengthLimitExceeded (n : Z)
| NotEnoughData (n : Z)
| HexDecode
| LineOfLength3
| EmptyLine
| NotABand
| UnknownBand (band : Z)
| UnexpectedEof
| ErrLine (message : bytes)
| Interrupted
| CannotEncode (n : Z)
| EmptyWrite.

Definition as_slice (l : PacketLineRef) : option bytes :=
  match l with Data d => Some d | Flush | Delimiter | ResponseEnd => None end.

Definition check_error (l : PacketLineRef) : option bytes :=
  d ← as_slice l;
  if (zlen ERR_PREFIX <=? zlen d) && bytes_eqb (take 4 d) ERR_PREFIX
  then Some (drop 4 d) else None.

(** [TextRef::from]: a trailing newline is not part of the text. *)
Definition text_from (d : bytes) : bytes :=
  match list.last d with
  | Some b => if b =? 10 then take (length d - 1) d else d
  | None => d
  end.
Definition as_text (l : PacketLineRef) : option bytes := text_from <$> as_slice l.

Definition as_band (l : PacketLineRef) (kind : Channel) : option BandRef :=
  d ← as_slice l;
  Some (match kind with
        | ChData => BandData d | ChProgress => BandProgress d | ChError => BandError d
        end).

Definition decode_band (l : PacketLineRef) : outcome line_error BandRef :=
  d ← ok_or NotABand (as_slice l);
  match d with
  | [] => Err NotABand
  | band_id :: d =>
      if band_id =? 1 then Ok (BandData d)
      else if band_id =? 2 then Ok (BandProgress d)
      else if band_id =? 3 then Ok (BandError d)
      else Err (UnknownBand band_id)
  end.

Section PacketLine.
Context {FH : FasterHex}.

(** ** [decode.rs] *)
Inductive Stream :=
| Complete (line : PacketLineRef) (bytes_consumed : Z)
| Incomplete (bytes_needed : Z).
Inductive PacketLineOrWantedSize :=
| Line (l : PacketLineRef)
| Wanted (n : Z).

Definition hex_prefix (four_bytes : bytes) : outcome line_error PacketLineOrWantedSize :=
  _ ← assert_that (zlen four_bytes =? 4);
  if bytes_eqb four_bytes FLUSH_LINE then Ok (Line Flush)
  else if bytes_eqb four_bytes DELIMITER_LINE then Ok (Line Delimiter)
  else if bytes_eqb four_bytes RESPONSE_END_LINE then Ok (Line ResponseEnd)
  else
    buf ← ok_or HexDecode (hex_decode four_bytes);
    let wanted_bytes := from_be buf in
    if wanted_bytes =? 3 then Err LineOfLength3
    else if wanted_bytes =? 4 then Err EmptyLine
    else
      _ ← assert_that (U16_HEX_BYTES <? wanted_bytes);
      n ← op_sub 16 wanted_bytes U16_HEX_BYTES;
      Ok (Wanted n).

Definition to_data_line (data : bytes) : outcome line_error PacketLineRef :=
  _ ← ensure (zlen data <=? MAX_LINE_LEN) (DataLengthLimitExceeded (zlen data));
  Ok (Data data).

Definition streaming (data : bytes) : outcome line_error Stream :=
  let data_len := zlen data in
  if data_len <? U16_HEX_BYTES then Ok (Incomplete (U16_HEX_BYTES - data_len))
  else
    four ← expect (get_range data 0 U16_HEX_BYTES);
    p ← hex_prefix four;
    match p with
    | Line line => Ok (Complete line 4)
    | Wanted s =>
        let wanted_bytes := s + U16_HEX_BYTES in
        _ ← ensure (wanted_bytes <=? MAX_LINE_LEN) (DataLengthLimitExceeded wanted_bytes);
        if data_len <? wanted_bytes then Ok (Incomplete (wanted_bytes - data_len))
        else
          d ← expect (get_range data U16_HEX_BYTES wanted_bytes);
          line ← to_data_line d;
          Ok (Complete line wanted_bytes)
    end.

Definition all_at_once (data : bytes) : outcome line_error PacketLineRef :=
  s ← streaming data;
  match s with
  | Complete line _ => Ok line
  | Incomplete bytes_needed => Err (NotEnoughData bytes_needed)
  end.

(** ** [encode.rs] and [blocking_io/encode.rs]: what is written, and how much *)
Definition u16_to_hex (value : Z) : bytes := hex_encode (to_be 2 value).

Definition prefixed_and_suffixed_data_to_write (prefix data suffix : bytes)
    : outcome line_error (bytes * Z) :=
  let data_len := zlen prefix + zlen data + zlen suffix in
  if data_len >? MAX_DATA_LEN then Err (CannotEncode data_len)
  else if zlen data =? 0 then Err EmptyLine
  else
    let data_len := data_len + 4 in
    let buf := u16_to_hex (wrap 16 data_len) in
    Ok (buf ++ prefix ++ data ++ suffix, data_len).
Definition prefixed_data_to_write (prefix data : bytes) : outcome line_error (bytes * Z) :=
  prefixed_and_suffixed_data_to_write prefix data [].

Definition flush_to_write : outcome line_error (bytes * Z) := Ok (FLUSH_LINE, 4).
Definition delim_to_write : outcome line_error (bytes * Z) := Ok (DELIMITER_LINE, 4).
Definition response_end_to_write : outcome line_error (bytes * Z) := Ok (RESPONSE_END_LINE, 4).
Definition data_to_write (data : bytes) : outcome line_error (bytes * Z) :=
  prefixed_data_to_write [] data.
Definition text_to_write (text : bytes) : outcome line_error (bytes * Z) :=
  prefixed_and_suffixed_data_to_write [] text [10].
Definition error_to_write (message : bytes) : outcome line_error (bytes * Z) :=
  prefixed_data_to_write ERR_PREFIX message.
Definition band_to_write (kind : Channel) (data : bytes) : outcome line_error (bytes * Z) :=
  prefixed_data_to_write [channel_byte kind] data.
Definition write_band (band : BandRef) : outcome line_error (bytes * Z) :=
  match band with
  | BandData d => band_to_write ChData d
  | BandProgress d => band_to_write ChProgress d
  | BandError d => band_to_write ChError d
  end.
Definition write_packet_line (line : PacketLineRef) : outcome line_error (bytes * Z) :=
  match line with
  | Data d => data_to_write d
  | Flush => flush_to_write
  | Delimiter => delim_to_write
  | ResponseEnd => response_end_to_write
  end.

(** ** [blocking_io/write.rs]: [Writer], whose state is its inner buffer and mode *)
Record Writer := { inner : bytes; binary : bool }.
Definition writer_new (write : bytes) : Writer := {| inner := write; binary := true |}.
Definition enable_binary_mode (w : Writer) : Writer := {| inner := inner w; binary := true |}.
Definition enable_text_mode (w : Writer) : Writer := {| inner := inner w; binary := false |}.

(** The [while] loop of [write]; every round consumes at least one byte. *)
Fixpoint write_loop (fuel : nat) (w : Writer) (buf : bytes) (written : Z)
    : Writer * outcome line_error Z :=
  match buf with
  | [] => (w, Ok written)
  | _ =>
      match fuel with
      | O => (w, Panic)
      | S fuel =>
          match split_at_checked buf (Z.min (zlen buf) MAX_DATA_LEN) with
          | None => (w, Panic)
          | Some (data, rest) =>
              match (if binary w then data_to_write data else text_to_write data) with
              | Err e => (w, Err e)
              | Panic => (w, Panic)
              | Ok (out, n) =>
                  let w := {| inner := inner w ++ out; binary := binary w |} in
                  match checked_sub 64 (written + n)
                          (U16_HEX_BYTES + (if binary w then 0 else 1)) with
                  | Some written => write_loop fuel w rest written
                  | None => (w, Panic)
                  end
              end
          end
      end
  end.
Definition write (w : Writer) (buf : bytes) : Writer * outcome line_error Z :=
  match buf with
  | [] => (w, Err EmptyWrite)
  | _ => write_loop (length buf) w buf 0
  end.

(** ** [read.rs] and [blocking_io/read.rs]: the peekable reader *)

(** [Result<io::Result<Result<PacketLineRef>>>]: a line, or why there is none. *)
Inductive line_result :=
| GotLine (l : PacketLineRef)
| DecodeError (e : line_error)
| IoError (e : line_error).

Record StreamingPeekableIter := {
  read : bytes;
  peek_buf : bytes;
  buf : bytes;
  fail_on_err_lines : bool;
  delimiters : list PacketLineRef;
  is_done : bool;
  stopped_at : option PacketLineRef;
}.

Definition iter_new (read : bytes) (delimiters : list PacketLineRef) : StreamingPeekableIter :=
  {| read := read; peek_buf := []; buf := replicate (Z.to_nat MAX_LINE_LEN) 0;
     fail_on_err_lines := false; delimiters := delimiters; is_done := false;
     stopped_at := None |}.

(** [reader.read_exact(..n bytes)] of an in-memory reader. *)
Definition read_exact (r : bytes) (n : nat) : option bytes * bytes :=
  if (length r <? n)%nat then (None, []) else (Some (take n r), drop n r).
(** [vec.resize(len, 0)] *)
Definition vec_resize (b : bytes) (len : nat) : bytes :=
  take len b ++ replicate (len - length b) 0.

(** The result with the reader and the buffer after the call. *)
Definition read_line_inner (reader buf : bytes)
    : outcome line_error (bytes * bytes * line_result) :=
  if zlen buf <? U16_HEX_BYTES
  then Ok (reader, buf, DecodeError (NotEnoughData (U16_HEX_BYTES - zlen buf)))
  else
    let data_bytes := drop 4 buf in
    match read_exact reader 4 with
    | (None, reader) => Ok (reader, buf, IoError UnexpectedEof)
    | (Some hex_bytes, reader) =>
        let buf := hex_bytes ++ data_bytes in
        match hex_prefix hex_bytes with
        | Panic => Panic
        | Err err => Ok (reader, buf, DecodeError err)
        | Ok (Line line) => Ok (reader, buf, GotLine line)
        | Ok (Wanted num_data_bytes) =>
            if num_data_bytes >? zlen data_bytes
            then Ok (reader, buf, DecodeError
                       (DataLengthLimitExceeded (num_data_bytes + U16_HEX_BYTES)))
            else
              match read_exact reader (Z.to_nat num_data_bytes) with
              | (None, reader) => Ok (reader, buf, IoError UnexpectedEof)
              | (Some data, reader) =>
                  let buf := hex_bytes ++ data ++ drop (Z.to_nat num_data_bytes) data_bytes in
                  match to_data_line data with
                  | Ok line => Ok (reader, buf, GotLine line)
                  | Err err => Ok (reader, buf, DecodeError err)
                  | Panic => Panic
                  end
              end
        end
    end.

(** [is_done], [stopped_at] and the result of the calling method. *)
Definition ExhaustiveOutcome : Type :=
  (bool * option PacketLineRef * option line_result).

Definition read_line_inner_exhaustive (reader buf : bytes) (delimiters : list PacketLineRef)
    (fail_on_err_lines buf_resize : bool)
    : outcome line_error (bytes * bytes * ExhaustiveOutcome) :=
  '(reader, buf, res) ← read_line_inner reader buf;
  match res with
  | GotLine line =>
      if bool_decide (line ∈ delimiters)
      then Ok (reader, [], (true, find (λ l, bool_decide (l = line)) delimiters, None))
      else
        match (if fail_on_err_lines then check_error line else None) with
        | Some err => Ok (reader, [], (true, None, Some (IoError (ErrLine err))))
        | None =>
            let len := match as_slice line with
                       | Some s => zlen s + U16_HEX_BYTES | None => U16_HEX_BYTES end in
            let buf := if buf_resize then vec_resize buf (Z.to_nat len) else buf in
            match all_at_once buf with
            | Ok line => Ok (reader, buf, (false, None, Some (GotLine line)))
            | _ => Panic
            end
        end
  | DecodeError err => Ok (reader, [], (false, None, Some (DecodeError err)))
  | IoError err => Ok (reader, [], (false, None, Some (IoError err)))
  end.

Definition read_line (s : StreamingPeekableIter)
    : outcome line_error (option line_result * StreamingPeekableIter) :=
  if is_done s then Ok (None, s)
  else if negb (zlen (peek_buf s) =? 0) then
    let s := {| read := read s; peek_buf := []; buf := peek_buf s;
                fail_on_err_lines := fail_on_err_lines s; delimiters := delimiters s;
                is_done := is_done s; stopped_at := stopped_at s |} in
    match all_at_once (buf s) with
    | Ok line => Ok (Some (GotLine line), s)
    | _ => Panic
    end
  else
    let b := if zlen (buf s) =? MAX_LINE_LEN then buf s
             else vec_resize (buf s) (Z.to_nat MAX_LINE_LEN) in
    '(reader, b, (done, stopped, res)) ←
      read_line_inner_exhaustive (read s) b (delimiters s) (fail_on_err_lines s) false;
    Ok (res, {| read := reader; peek_buf := peek_buf s; buf := b;
                fail_on_err_lines := fail_on_err_lines s; delimiters := delimiters s;
                is_done := done; stopped_at := stopped |}).

Definition peek_line (s : StreamingPeekableIter)
    : outcome line_error (option line_result * StreamingPeekableIter) :=
  if is_done s then Ok (None, s)
  else if zlen (peek_buf s) =? 0 then
    let b := vec_resize (peek_buf s) (Z.to_nat MAX_LINE_LEN) in
    '(reader, b, (done, stopped, res)) ←
      read_line_inner_exhaustive (read s) b (delimiters s) (fail_on_err_lines s) true;
    Ok (res, {| read := reader; peek_buf := b; buf := buf s;
                fail_on_err_lines := fail_on_err_lines s; delimiters := delimiters s;
                is_done := done; stopped_at := stopped |})
  else
    match all_at_once (peek_buf s) with
    | Ok line => Ok (Some (GotLine line), s)
    | _ => Panic
    end.

Definition reset_with (ds : list PacketLineRef) (s : StreamingPeekableIter)
    : StreamingPeekableIter :=
  {| read := read s; peek_buf := peek_buf s; buf := buf s;
     fail_on_err_lines := fail_on_err_lines s; delimiters := ds;
     is_done := false; stopped_at := None |}.
Definition reset (s : StreamingPeekableIter) : StreamingPeekableIter :=
  reset_with (delimiters s) s.
Definition set_fail_on_err_lines (value : bool) (s : StreamingPeekableIter)
    : StreamingPeekableIter :=
  {| read := read s; peek_buf := peek_buf s; buf := buf s;
     fail_on_err_lines := value; delimiters := delimiters s;
     is_done := is_done s; stopped_at := stopped_at s |}.
Definition replace (r : bytes) (s : StreamingPeekableIter) : bytes * StreamingPeekableIter :=
  let prev := read s in
  let s := reset {| read := r; peek_buf := peek_buf s; buf := buf s;
                    fail_on_err_lines := fail_on_err_lines s; delimiters := delimiters s;
                    is_done := is_done s; stopped_at := stopped_at s |} in
  (prev, set_fail_on_err_lines false s).

Definition peek_buffer_replace_and_truncate (position replace_with : Z)
    (s : StreamingPeekableIter) : outcome line_error StreamingPeekableIter :=
  let position := position + U16_HEX_BYTES in
  _ ← expect (get (peek_buf s) position);
  let b := <[Z.to_nat position := replace_with]> (peek_buf s) in
  let new_len := position + 1 in
  let b := take (Z.to_nat new_len) b in
  let b := u16_to_hex (wrap 16 new_len) ++ drop 4 b in
  Ok {| read := read s; peek_buf := b; buf := buf s;
        fail_on_err_lines := fail_on_err_lines s; delimiters := delimiters s;
        is_done := is_done s; stopped_at := stopped_at s |}.

(** ** [blocking_io/sidebands.rs]: demultiplexing *)

(** The handler decides whether to stop; the calls it has received are logged. *)
Definition handler : Type := bool → bytes → bool.
Record WithSidebands := {
  parent : StreamingPeekableIter;
  handle_progress : option handler;
  pos : Z;
  cap : Z;
  progress : list (bool * bytes);
}.
Definition with_progress_handler (p : StreamingPeekableIter) (h : handler) : WithSidebands :=
  {| parent := p; handle_progress := Some h; pos := 0; cap := 0; progress := [] |}.
Definition without_progress_handler (p : StreamingPeekableIter) : WithSidebands :=
  {| parent := p; handle_progress := None; pos := 0; cap := 0; progress := [] |}.
Definition with_parent (s : WithSidebands) (p : StreamingPeekableIter)
    (log : list (bool * bytes)) : WithSidebands :=
  {| parent := p; handle_progress := handle_progress s; pos := pos s; cap := cap s;
     progress := log |}.

(** The loop of [fill_buf], with the offset and length of the data in the buffer.
    A round that does not return has consumed a line. *)
Fixpoint fill_loop (fuel : nat) (h : option handler) (p : StreamingPeekableIter)
    (log : list (bool * bytes))
    : StreamingPeekableIter * list (bool * bytes) * outcome line_error (Z * Z) :=
  match fuel with
  | O => (p, log, Panic)
  | S fuel =>
      match read_line p with
      | Panic => (p, log, Panic)
      | Err e => (p, log, Err e)
      | Ok (None, p) => (p, log, Ok (0, 0))
      | Ok (Some (IoError e), p) => (p, log, Err e)
      | Ok (Some (DecodeError e), p) => (p, log, Err e)
      | Ok (Some (GotLine line), p) =>
          match h with
          | Some handle =>
              match decode_band line with
              | Panic => (p, log, Panic)
              | Err e => (p, log, Err e)
              | Ok (BandData d) =>
                  if zlen d =? 0 then fill_loop fuel h p log
                  else (p, log, Ok (U16_HEX_BYTES + 1, zlen d))
              | Ok (BandProgress d) =>
                  let text := text_from d in
                  let log := log ++ [(false, text)] in
                  if handle false text then (p, log, Err Interrupted)
                  else fill_loop fuel h p log
              | Ok (BandError d) =>
                  let text := text_from d in
                  let log := log ++ [(true, text)] in
                  if handle true text then (p, log, Err Interrupted)
                  else fill_loop fuel h p log
              end
          | None =>
              match as_slice line with
              | Some d => (p, log, Ok (U16_HEX_BYTES, zlen d))
              | None => (p, log, Err UnexpectedEof)
              end
          end
      end
  end.

Definition fill_buf (s : WithSidebands) : WithSidebands * outcome line_error bytes :=
  let show s := (s, expect (get_range (buf (parent s)) (pos s) (cap s))) in
  if cap s <=? pos s then
    let '(p, log, r) :=
      fill_loop (length (read (parent s)) + 2) (handle_progress s) (parent s) (progress s) in
    let s := with_parent s p log in
    match r with
    | Ok (ofs, n) =>
        show {| parent := parent s; handle_progress := handle_progress s;
                pos := ofs; cap := n + ofs; progress := progress s |}
    | Err e => (s, Err e)
    | Panic => (s, Panic)
    end
  else show s.

Definition consume (amt : Z) (s : WithSidebands) : WithSidebands :=
  {| parent := parent s; handle_progress := handle_progress s;
     pos := Z.min (pos s + amt) (cap s); cap := cap s; progress := progress s |}.

(** [Read::read] into a buffer of [len] bytes: what is put there. *)
Definition sideband_read (len : Z) (s : WithSidebands) : WithSidebands * outcome line_error bytes :=
  match fill_buf s with
  | (s, Ok rem) =>
      let out := take (Z.to_nat len) rem in
      (consume (zlen out) s, Ok out)
  | (s, r) => (s, r)
  end.

(** ** Lemmas: encoding and decoding one line *)
Lemma length_u16_to_hex n : length (u16_to_hex n) = 4%nat.
Proof.
  unfold u16_to_hex. pose proof (length_hex_encode (to_be 2 n) (bytes_ok_to_be 2 n)) as H.
  rewrite zlen_to_be in H. unfold zlen in H. lia.
Qed.

Lemma hex_decode_u16 n : 0 ≤ n < 65536 →
  ∃ b, hex_decode (u16_to_hex n) = Some b ∧ from_be b = n.
Proof.
  intros Hn. exists (to_be 2 n). split; [apply hex_decode_encode, bytes_ok_to_be|].
  by apply from_to_be.
Qed.

Lemma special_decodes l n :
  (l = FLUSH_LINE ∧ n = 0) ∨ (l = DELIMITER_LINE ∧ n = 1) ∨ (l = RESPONSE_END_LINE ∧ n = 2) →
  from_be <$> hex_decode l = Some n.
Proof.
  intros [[-> ->]|[[-> ->]|[-> ->]]]; rewrite hex_decode_law by (by exists 2%nat); done.
Qed.

Lemma hex_prefix_u16 n : 4 < n < 65536 → hex_prefix (u16_to_hex n) = Ok (Wanted (n - 4)).
Proof.
  intros Hn. destruct (hex_decode_u16 n ltac:(lia)) as (b & Hb & Hv).
  unfold hex_prefix. unfold zlen. rewrite length_u16_to_hex.
  change (Z.of_nat 4 =? 4) with true. cbn [assert_that mbind outcome_bind].
  assert (∀ l m, m < 3 → from_be <$> hex_decode l = Some m → bytes_eqb (u16_to_hex n) l = false)
    as Hne.
  { intros l m Hm Hl. apply bool_decide_eq_false_2. intros <-. rewrite Hb in Hl.
    cbn in Hl. injection Hl as Hl. lia. }
  rewrite (Hne FLUSH_LINE 0), (Hne DELIMITER_LINE 1), (Hne RESPONSE_END_LINE 2) by
    (lia || apply special_decodes; auto).
  rewrite Hb. cbn [ok_or mbind outcome_bind]. rewrite Hv. unfold U16_HEX_BYTES.
  destruct (Z.eqb_spec n 3); [lia|]. destruct (Z.eqb_spec n 4); [lia|].
  destruct (Z.ltb_spec 4 n); [|lia]. cbn [assert_that mbind outcome_bind].
  unfold op_sub. by rewrite checked_sub_in by lia.
Qed.

(** The bytes of a line on the wire. *)
Definition wire (l : PacketLineRef) : bytes :=
  match l with
  | Data d => u16_to_hex (zlen d + 4) ++ d
  | Flush => FLUSH_LINE
  | Delimiter => DELIMITER_LINE
  | ResponseEnd => RESPONSE_END_LINE
  end.
(** Lines that have a valid encoding. *)
Definition line_ok (l : PacketLineRef) : Prop :=
  match l with Data d => 0 < zlen d ≤ MAX_DATA_LEN | _ => True end.

Lemma zlen_wire l :
  zlen (wire l) = match as_slice l with Some d => zlen d + 4 | None => 4 end.
Proof.
  destruct l; simpl; try done. rewrite zlen_app. unfold zlen at 1. rewrite length_u16_to_hex. lia.
Qed.

(** The encodings the decoder accepts for a line: hexadecimal digits of either case. *)
Inductive encodes : PacketLineRef → bytes → Prop :=
| enc_special l four :
    length four = 4%nat → hex_prefix four = Ok (Line l) → encodes l four
| enc_data four d :
    length four = 4%nat → hex_prefix four = Ok (Wanted (zlen d)) → zlen d ≤ MAX_DATA_LEN →
    encodes (Data d) (four ++ d).

Lemma wire_encodes l : line_ok l → encodes l (wire l).
Proof.
  destruct l as [d| | |]; simpl; intros Hd; try (by constructor).
  constructor; [apply length_u16_to_hex| |tauto].
  rewrite hex_prefix_u16 by (unfold MAX_DATA_LEN in Hd; lia). do 2 f_equal. lia.
Qed.

(** A four-byte prefix never panics, announces at least one byte of data, or is
    one of the special lines. *)
Lemma hex_val_range c n : hex_val c = Some n → 0 ≤ n < 16 ∧ (n < 10 → c = 48 + n).
Proof. unfold hex_val. intros H. zb; simplify_eq/=; split; lia. Qed.

Lemma hex_prefix_cases four :
  length four = 4%nat →
  match hex_prefix four with
  | Panic => False
  | Err _ => True
  | Ok (Wanted w) => 0 < w < 65532
  | Ok (Line l) => as_slice l = None
  end.
Proof.
  intros H4. unfold hex_prefix. unfold zlen. rewrite H4. change (Z.of_nat 4 =? 4) with true.
  cbn [assert_that mbind outcome_bind].
  unfold bytes_eqb. repeat case_bool_decide; try done.
  rewrite hex_decode_law by (rewrite H4; by exists 2%nat).
  destruct four as [|a [|b [|c [|d [|? ?]]]]]; try done. cbn [mapM].
  destruct (hex_val a) as [x|] eqn:Ha; [|done]. destruct (hex_val b) as [y|] eqn:Hb; [|done].
  destruct (hex_val c) as [z|] eqn:Hc; [|done]. destruct (hex_val d) as [w|] eqn:Hd; [|done].
  cbn -[Z.mul Z.add]. unfold from_be. cbn [foldl].
  apply hex_val_range in Ha as [Hx Ha], Hb as [Hy Hb], Hc as [Hz Hc], Hd as [Hw Hd].
  set (n := (0 * 256 + (x * 16 + y)) * 256 + (z * 16 + w)).
  assert (2 < n) as Hn.
  { destruct (Z.le_gt_cases n 2) as [Hle|]; [exfalso|done]. subst n.
    assert (x = 0) as -> by lia. assert (y = 0) as -> by lia. assert (z = 0) as -> by lia.
    assert (w = 0 ∨ w = 1 ∨ w = 2) as Hcase by lia.
    rewrite Ha, Hb, Hc, Hd in * by lia. destruct Hcase as [-> | [-> | ->]]; done. }
  destruct (Z.eqb_spec n 3); [done|]. destruct (Z.eqb_spec n 4); [done|].
  unfold U16_HEX_BYTES. destruct (Z.ltb_spec 4 n); [|lia].
  cbn [assert_that mbind outcome_bind]. unfold op_sub.
  rewrite checked_sub_in by (subst n; lia). cbn [expect mbind outcome_bind]. subst n. lia.
Qed.

Lemma streaming_encodes l w rest :
  encodes l w → streaming (w ++ rest) = Ok (Complete l (zlen w)).
Proof.
  intros Henc. pose proof (zlen_nonneg rest). unfold streaming, U16_HEX_BYTES.
  assert (∀ four r : bytes, length four = 4%nat →
    zlen (four ++ r) <? 4 = false ∧ get_range (four ++ r) 0 4 = Some four) as Hfour.
  { intros four r H4. assert (4 ≤ zlen (four ++ r)) by (unfold zlen; rewrite length_app; lia).
    split; [by apply Z.ltb_ge|]. rewrite get_range_0 by lia. change (Z.to_nat 4) with 4%nat.
    by rewrite <- H4, take_app_length. }
  destruct Henc as [l four H4 Hp|four d H4 Hp Hd].
  - destruct (Hfour four rest H4) as [-> ->]. cbn [expect mbind outcome_bind]. rewrite Hp.
    unfold zlen. by rewrite H4.
  - rewrite <- app_assoc. destruct (Hfour four (d ++ rest) H4) as [-> ->].
    cbn [expect mbind outcome_bind]. rewrite Hp. cbn [mbind outcome_bind].
    unfold to_data_line, MAX_LINE_LEN, MAX_DATA_LEN, U16_HEX_BYTES in *.
    destruct (Z.leb_spec (zlen d + 4) (65516 + 4)); [|lia]. cbn [ensure mbind outcome_bind].
    assert (zlen four = 4) as Hz4 by (unfold zlen; lia). rewrite !zlen_app, Hz4.
    destruct (Z.ltb_spec (4 + (zlen d + zlen rest)) (zlen d + 4)); [lia|].
    rewrite (get_range_app four d rest) by lia. cbn [expect mbind outcome_bind].
    destruct (Z.leb_spec (zlen d) (65516 + 4)); [|lia]. cbn [ensure mbind outcome_bind].
    do 2 f_equal. lia.
Qed.

(** A proper prefix of a line is incomplete, and the number of bytes asked for
    does not go beyond the line. *)
Lemma streaming_partial l w n :
  encodes l w → (n < length w)%nat →
  ∃ k, streaming (take n w) = Ok (Incomplete k) ∧ 0 < k ≤ zlen w - Z.of_nat n.
Proof.
  intros Henc Hn. unfold streaming, U16_HEX_BYTES.
  assert (zlen (take n w) = Z.of_nat n) as -> by (unfold zlen; rewrite length_take; lia).
  assert (4 ≤ zlen w) as Hw4.
  { unfold zlen. destruct Henc; rewrite ?length_app; lia. }
  destruct (Z.ltb_spec (Z.of_nat n) 4) as [|Hge]; [eexists; split; [done|]; lia|].
  destruct Henc as [l four H4 Hp|four d H4 Hp Hd]; [lia|].
  rewrite get_range_0 by (unfold zlen; rewrite length_take; lia). change (Z.to_nat 4) with 4%nat.
  rewrite take_take. replace (4 `min` n)%nat with (length four) by lia.
  rewrite take_app_length. cbn [expect mbind outcome_bind]. rewrite Hp. cbn [mbind outcome_bind].
  unfold MAX_LINE_LEN, MAX_DATA_LEN, U16_HEX_BYTES in *.
  destruct (Z.leb_spec (zlen d + 4) (65516 + 4)); [|lia]. cbn [ensure mbind outcome_bind].
  assert (zlen (four ++ d) = zlen d + 4) as -> by (unfold zlen; rewrite length_app; lia).
  rewrite length_app, H4 in Hn.
  destruct (Z.ltb_spec (Z.of_nat n) (zlen d + 4)); [|unfold zlen in *; lia].
  eexists; split; [done|]. lia.
Qed.

Lemma write_wire l : line_ok l → write_packet_line l = Ok (wire l, zlen (wire l)).
Proof.
  destruct l as [d| | |]; simpl; intros Hd; try done. pose proof (zlen_wire (Data d)) as Hz.
  unfold data_to_write, prefixed_data_to_write, prefixed_and_suffixed_data_to_write.
  rewrite !zlen_nil, Z.gtb_ltb, Z.add_0_l, Z.add_0_r.
  destruct (Z.ltb_spec MAX_DATA_LEN (zlen d)); [lia|]. destruct (Z.eqb_spec (zlen d) 0); [lia|].
  rewrite wrap_small by (unfold MAX_DATA_LEN in Hd; lia). rewrite app_nil_l, app_nil_r.
  simpl in Hz. by rewrite Hz.
Qed.

(** ** Lemmas: reading lines *)
Lemma encodes_length l w :
  encodes l w →
  zlen w = match as_slice l with Some s => zlen s + U16_HEX_BYTES | None => U16_HEX_BYTES end ∧
  (4 ≤ length w)%nat ∧ zlen w ≤ MAX_LINE_LEN.
Proof.
  unfold MAX_LINE_LEN, MAX_DATA_LEN, U16_HEX_BYTES.
  intros [l' four H4 Hp|four d H4 Hp Hd].
  - pose proof (hex_prefix_cases four H4) as Hc. rewrite Hp in Hc. rewrite Hc.
    unfold zlen. lia.
  - simpl. unfold MAX_DATA_LEN in Hd. unfold zlen in *. rewrite length_app. lia.
Qed.

Lemma read_exact_app w r n : length w = n → read_exact (w ++ r) n = (Some w, r).
Proof.
  intros <-. unfold read_exact. rewrite length_app.
  destruct (Nat.ltb_spec (length w + length r) (length w)); [lia|].
  by rewrite take_app_length, drop_app_length.
Qed.

Lemma read_exact_short r n : (length r < n)%nat → read_exact r n = (None, []).
Proof. intros H. unfold read_exact. by apply Nat.ltb_lt in H as ->. Qed.

Lemma drop_drop_eq {A} (l : list A) a b : drop a (drop b l) = drop (b + a) l.
Proof. apply drop_drop. Qed.

Lemma read_line_inner_encodes l w r b :
  encodes l w → zlen b = MAX_LINE_LEN →
  read_line_inner (w ++ r) b = Ok (r, w ++ drop (length w) b, GotLine l).
Proof.
  intros Henc Hb. unfold read_line_inner. rewrite Hb.
  change (MAX_LINE_LEN <? U16_HEX_BYTES) with false. cbv iota.
  destruct Henc as [l four H4 Hp|four d H4 Hp Hd].
  - rewrite read_exact_app by done. by rewrite Hp, H4.
  - rewrite <- app_assoc, read_exact_app by done. rewrite Hp, Z.gtb_ltb.
    assert (zlen (drop 4 b) = MAX_DATA_LEN) as Hdb.
    { unfold zlen in *. rewrite length_drop. unfold MAX_LINE_LEN, MAX_DATA_LEN, U16_HEX_BYTES in *. lia. }
    rewrite Hdb. destruct (Z.ltb_spec MAX_DATA_LEN (zlen d)); [lia|].
    rewrite read_exact_app by (unfold zlen; lia). unfold to_data_line.
    destruct (Z.leb_spec (zlen d) MAX_LINE_LEN); [|unfold MAX_LINE_LEN, U16_HEX_BYTES in *; lia].
    cbn [ensure mbind outcome_bind]. rewrite <- app_assoc, drop_drop, length_app, H4.
    by replace (Z.to_nat (zlen d)) with (length d) by (unfold zlen; lia).
Qed.

(** Whatever the reader holds: a line is read, or there is an error. *)
Lemma read_line_inner_total r b :
  zlen b = MAX_LINE_LEN →
  (∃ l w r', r = w ++ r' ∧ encodes l w) ∨
  ∃ r' b' res, read_line_inner r b = Ok (r', b', res) ∧ ∀ l, res ≠ GotLine l.
Proof.
  intros Hb. unfold read_line_inner. rewrite Hb.
  change (MAX_LINE_LEN <? U16_HEX_BYTES) with false. cbv iota.
  destruct (decide (length r < 4)%nat) as [Hr|Hr].
  { rewrite read_exact_short by done. right. eauto 10. }
  rewrite <- (take_drop 4 r). set (four := take 4 r). set (r1 := drop 4 r).
  assert (length four = 4%nat) as H4 by (subst four; rewrite length_take; lia).
  rewrite read_exact_app by done. generalize (hex_prefix_cases four H4).
  destruct (hex_prefix four) as [[l|w]| |] eqn:Hp; intros Hc; [| |right; eauto 10|done].
  - left. exists l, four, r1. split; [done|]. by constructor.
  - rewrite Z.gtb_ltb.
    assert (zlen (drop 4 b) = MAX_DATA_LEN) as ->.
    { unfold zlen in *. rewrite length_drop. unfold MAX_LINE_LEN, MAX_DATA_LEN, U16_HEX_BYTES in *. lia. }
    destruct (Z.ltb_spec MAX_DATA_LEN w); [right; eauto 10|].
    destruct (decide (length r1 < Z.to_nat w)%nat) as [Hr1|Hr1].
    { rewrite read_exact_short by done. right. eauto 10. }
    left. exists (Data (take (Z.to_nat w) r1)), (four ++ take (Z.to_nat w) r1),
      (drop (Z.to_nat w) r1).
    split; [by rewrite <- app_assoc, take_drop|].
    assert (zlen (take (Z.to_nat w) r1) = w) as Hw by (unfold zlen; rewrite length_take; lia).
    constructor; [done|by rewrite Hw|lia].
Qed.

Lemma vec_resize_app w t : vec_resize (w ++ t) (length w) = w.
Proof.
  unfold vec_resize. rewrite take_app_length, length_app.
  replace (length w - (length w + length t))%nat with 0%nat by lia. by rewrite app_nil_r.
Qed.

Lemma zlen_vec_resize b n : zlen (vec_resize b n) = Z.of_nat n.
Proof. unfold vec_resize, zlen. rewrite length_app, length_take, length_replicate. lia. Qed.

Lemma zlen_full b : zlen (vec_resize b (Z.to_nat MAX_LINE_LEN)) = MAX_LINE_LEN.
Proof.
  rewrite zlen_vec_resize. apply Z2Nat.id. unfold MAX_LINE_LEN, MAX_DATA_LEN, U16_HEX_BYTES. lia.
Qed.

Lemma all_at_once_encodes l w t : encodes l w → all_at_once (w ++ t) = Ok l.
Proof. intros H. unfold all_at_once. by rewrite (streaming_encodes l w t H). Qed.

(** What a read of a line does, [ds] being the delimiters. *)
Definition after_line (ds : list PacketLineRef) (fail_on_err : bool) (l : PacketLineRef)
    (kept : bytes) : bytes * ExhaustiveOutcome :=
  if bool_decide (l ∈ ds) then ([], (true, find (λ x, bool_decide (x = l)) ds, None))
  else match (if fail_on_err then check_error l else None) with
       | Some err => ([], (true, None, Some (IoError (ErrLine err))))
       | None => (kept, (false, None, Some (GotLine l)))
       end.

Lemma exhaustive_encodes l w r b ds fail_on_err resize :
  encodes l w → zlen b = MAX_LINE_LEN →
  read_line_inner_exhaustive (w ++ r) b ds fail_on_err resize =
  Ok (r, (after_line ds fail_on_err l
            (if (resize : bool) then w else w ++ drop (length w) b)).1,
      (after_line ds fail_on_err l
            (if (resize : bool) then w else w ++ drop (length w) b)).2).
Proof.
  intros Henc Hb. unfold read_line_inner_exhaustive.
  rewrite (read_line_inner_encodes l w r b Henc Hb). cbn [mbind outcome_bind].
  unfold after_line. case_bool_decide; [done|].
  destruct (if fail_on_err then check_error l else None); [done|].
  destruct (encodes_length l w Henc) as (Hlen & _ & _). rewrite <- Hlen.
  replace (Z.to_nat (zlen w)) with (length w) by (unfold zlen; lia).
  destruct resize.
  - rewrite vec_resize_app. pose proof (all_at_once_encodes l w [] Henc) as Ha.
    rewrite app_nil_r in Ha. by rewrite Ha.
  - by rewrite (all_at_once_encodes l w _ Henc).
Qed.

Lemma exhaustive_total r b ds fail_on_err resize :
  zlen b = MAX_LINE_LEN →
  (∃ l w r', r = w ++ r' ∧ encodes l w) ∨
  ∃ r' res, read_line_inner_exhaustive r b ds fail_on_err resize =
            Ok (r', [], (false, None, Some res)) ∧ ∀ l, res ≠ GotLine l.
Proof.
  intros Hb. destruct (read_line_inner_total r b Hb) as [|(r' & b' & res & Hr & Hres)]; [by left|].
  right. unfold read_line_inner_exhaustive. rewrite Hr. cbn [mbind outcome_bind].
  destruct res as [l|e|e]; [by destruct (Hres l)|eauto 10|eauto 10].
Qed.

(** ** The reader's state machine *)
Definition iter_ok (s : StreamingPeekableIter) : Prop :=
  peek_buf s = [] ∨ ∃ l, encodes l (peek_buf s).

Inductive iter_step : StreamingPeekableIter → StreamingPeekableIter → Prop :=
| step_read s r s' : read_line s = Ok (r, s') → iter_step s s'
| step_peek s r s' : peek_line s = Ok (r, s') → iter_step s s'
| step_reset s : iter_step s (reset s)
| step_reset_with s ds : iter_step s (reset_with ds s)
| step_fail_on_err s v : iter_step s (set_fail_on_err_lines v s)
| step_replace s r : iter_step s (replace r s).2
| step_truncate s p b s' :
    0 ≤ p → peek_buffer_replace_and_truncate p b s = Ok s' → iter_step s s'.

Inductive iter_reachable : StreamingPeekableIter → Prop :=
| reach_new r ds : iter_reachable (iter_new r ds)
| reach_step s s' : iter_reachable s → iter_step s s' → iter_reachable s'.

Lemma zlen_zero_nil {A} (l : list A) : zlen l = 0 → l = [].
Proof. destruct l; [done|]. rewrite zlen_cons. pose proof (zlen_nonneg l). lia. Qed.

Lemma read_line_ok s :
  iter_ok s → ∃ r s', read_line s = Ok (r, s') ∧ iter_ok s'.
Proof.
  intros Hs. unfold read_line. destruct (is_done s); [eauto|].
  destruct (Z.eqb_spec (zlen (peek_buf s)) 0) as [Hz|Hz]; cbn [negb].
  - apply zlen_zero_nil in Hz. set (b := if zlen (buf s) =? MAX_LINE_LEN then buf s else _).
    assert (zlen b = MAX_LINE_LEN) as Hb.
    { subst b. destruct (Z.eqb_spec (zlen (buf s)) MAX_LINE_LEN); [done|].
      apply zlen_full. }
    destruct (exhaustive_total (read s) b (delimiters s) (fail_on_err_lines s) false Hb)
      as [(l & w & r' & -> & Henc)|(r' & res & -> & _)].
    + rewrite (exhaustive_encodes l w r' b) by done. cbn [mbind outcome_bind].
      destruct (after_line _ _ _ _) as [b' [[done' stop] res]]. cbn [fst snd].
      eexists _, _. split; [done|]. by left.
    + cbn [mbind outcome_bind]. eexists _, _. split; [done|]. by left.
  - destruct Hs as [Hn|[l Hl]]; [by rewrite Hn in Hz|]. cbn [buf].
    pose proof (all_at_once_encodes l _ [] Hl) as Ha. rewrite app_nil_r in Ha. rewrite Ha.
    eexists _, _. split; [done|]. by left.
Qed.

Lemma peek_line_ok s :
  iter_ok s →
  ∃ r s', peek_line s = Ok (r, s') ∧ iter_ok s' ∧
    (∀ l, r = Some (GotLine l) → is_done s' = false ∧ encodes l (peek_buf s')).
Proof.
  intros Hs. unfold peek_line. destruct (is_done s) eqn:Hd.
  { eexists None, s. split; [done|]. split; [done|]. done. }
  destruct (Z.eqb_spec (zlen (peek_buf s)) 0) as [Hz|Hz].
  - assert (zlen (vec_resize (peek_buf s) (Z.to_nat MAX_LINE_LEN)) = MAX_LINE_LEN) as Hb
      by (apply zlen_full).
    destruct (exhaustive_total (read s) _ (delimiters s) (fail_on_err_lines s) true Hb)
      as [(l & w & r' & -> & Henc)|(r' & res & -> & Hres)].
    + rewrite (exhaustive_encodes l w r') by done. cbn [mbind outcome_bind].
      unfold after_line. case_bool_decide; cbn [fst snd].
      { eexists _, _. split; [done|]. split; [by left|done]. }
      destruct (if fail_on_err_lines s then check_error l else None); cbn [fst snd].
      { eexists _, _. split; [done|]. split; [by left|done]. }
      eexists _, _. split; [done|]. split; [right; by exists l|]. intros l' [= <-]. done.
    + cbn [mbind outcome_bind]. eexists _, _. split; [done|]. split; [by left|].
      intros l [= ->]. by destruct (Hres l).
  - destruct Hs as [Hn|[l Hl]]; [by rewrite Hn in Hz|].
    pose proof (all_at_once_encodes l _ [] Hl) as Ha. rewrite app_nil_r in Ha. rewrite Ha.
    eexists _, _. split; [done|]. split; [right; by exists l|]. intros l' [= <-]. done.
Qed.

Lemma truncate_ok p b s s' :
  iter_ok s → 0 ≤ p → peek_buffer_replace_and_truncate p b s = Ok s' → iter_ok s'.
Proof.
  intros Hs Hp. unfold peek_buffer_replace_and_truncate, U16_HEX_BYTES.
  destruct (get (peek_buf s) (p + 4)) as [x|] eqn:Hx; cbn [expect mbind outcome_bind]; [|done].
  intros [= <-]. apply get_Some in Hx as [Hr _]. right. cbn [peek_buf].
  destruct Hs as [Hn|[l Hl]]; [rewrite Hn in Hr; unfold zlen in Hr; simpl in Hr; lia|].
  destruct (encodes_length _ _ Hl) as (_ & _ & Hmax).
  unfold MAX_LINE_LEN, MAX_DATA_LEN, U16_HEX_BYTES in Hmax.
  rewrite wrap_small by lia. set (d := drop 4 _).
  assert (zlen d = p + 1) as Hd.
  { subst d. unfold zlen in *. rewrite length_drop, length_take, length_insert. lia. }
  exists (Data d). constructor; [apply length_u16_to_hex| |unfold MAX_DATA_LEN; lia].
  rewrite hex_prefix_u16 by lia. do 2 f_equal. lia.
Qed.

Lemma reachable_ok s : iter_reachable s → iter_ok s.
Proof.
  induction 1 as [r ds|s s' _ IH Hstep]; [by left|].
  destruct Hstep as [s r s' Hr|s r s' Hr| | | | |s p b s' Hp Hr]; try done.
  - destruct (read_line_ok s IH) as (r0 & s0 & H0 & Hok). rewrite H0 in Hr. by simplify_eq.
  - destruct (peek_line_ok s IH) as (r0 & s0 & H0 & Hok & _). rewrite H0 in Hr. by simplify_eq.
  - by eapply truncate_ok.
Qed.

(** ** Lemmas: reading a sequence of lines *)
Definition ready (ds : list PacketLineRef) (r : bytes) (s : StreamingPeekableIter) : Prop :=
  read s = r ∧ peek_buf s = [] ∧ is_done s = false ∧ delimiters s = ds ∧
  fail_on_err_lines s = false.
(** A line has been peeked: its bytes are in the peek buffer. *)
Definition peeked (ds : list PacketLineRef) (w r : bytes) (s : StreamingPeekableIter) : Prop :=
  read s = r ∧ peek_buf s = w ∧ is_done s = false ∧ delimiters s = ds ∧
  fail_on_err_lines s = false.
Definition stopped (l : PacketLineRef) (r : bytes) (s : StreamingPeekableIter) : Prop :=
  read s = r ∧ is_done s = true ∧ stopped_at s = Some l.

Lemma iter_new_ready r ds : ready ds r (iter_new r ds).
Proof. do 4 (split; [reflexivity|]). reflexivity. Qed.
Lemma get_range_empty {A} (l : list A) : get_range l 0 0 = Some [].
Proof. rewrite get_range_0; [done|]. pose proof (zlen_nonneg l). lia. Qed.

Lemma find_in (l : PacketLineRef) ds :
  l ∈ ds → find (λ x, bool_decide (x = l)) ds = Some l.
Proof.
  induction 1 as [x ds|x y ds _ IH]; simpl; [by rewrite bool_decide_eq_true_2|].
  by case_bool_decide; subst.
Qed.

Lemma read_buf_full s :
  zlen (if zlen (buf s) =? MAX_LINE_LEN then buf s
        else vec_resize (buf s) (Z.to_nat MAX_LINE_LEN)) = MAX_LINE_LEN.
Proof.
  destruct (Z.eqb_spec (zlen (buf s)) MAX_LINE_LEN); [done|]. apply zlen_full.
Qed.

(** The buffer after a read starts with the line that was read. *)
Lemma read_line_ready ds l w r s :
  ready ds (w ++ r) s → encodes l w → l ∉ ds →
  ∃ s', read_line s = Ok (Some (GotLine l), s') ∧ ready ds r s' ∧ ∃ t, buf s' = w ++ t.
Proof.
  intros (Hr & Hp & Hd & Hds & Hf) Henc Hl. unfold read_line. rewrite Hd, Hp. cbn [negb zlen].
  change (zlen [] =? 0) with true. cbn [negb]. pose proof (read_buf_full s) as Hb.
  set (b := if zlen (buf s) =? MAX_LINE_LEN then buf s else _) in *.
  rewrite Hr, Hds, Hf, (exhaustive_encodes l w r b) by done. unfold after_line.
  rewrite bool_decide_eq_false_2 by done. cbn [mbind outcome_bind fst snd].
  eexists. split; [done|]. split; [by repeat split|]. by eexists.
Qed.

Lemma read_line_stop ds l w r s :
  ready ds (w ++ r) s → encodes l w → l ∈ ds →
  ∃ s', read_line s = Ok (None, s') ∧ stopped l r s'.
Proof.
  intros (Hr & Hp & Hd & Hds & Hf) Henc Hl. unfold read_line. rewrite Hd, Hp.
  change (zlen [] =? 0) with true. cbn [negb]. pose proof (read_buf_full s) as Hb.
  set (b := if zlen (buf s) =? MAX_LINE_LEN then buf s else _) in *.
  rewrite Hr, Hds, Hf, (exhaustive_encodes l w r b) by done. unfold after_line.
  rewrite bool_decide_eq_true_2 by done. cbn [mbind outcome_bind fst snd].
  eexists. split; [done|]. repeat split. simpl. by apply find_in.
Qed.

Lemma read_line_peeked ds l w r s :
  peeked ds w r s → encodes l w →
  ∃ s', read_line s = Ok (Some (GotLine l), s') ∧ ready ds r s' ∧ buf s' = w.
Proof.
  intros (Hr & Hp & Hd & Hds & Hf) Henc. unfold read_line. rewrite Hd, Hp.
  destruct (encodes_length l w Henc) as (_ & H4 & _).
  destruct (Z.eqb_spec (zlen w) 0) as [Hz|_]; [unfold zlen in Hz; lia|]. cbn [negb buf].
  pose proof (all_at_once_encodes l w [] Henc) as Ha. rewrite app_nil_r in Ha. rewrite Ha.
  eexists. split; [done|]. by repeat split.
Qed.

Lemma peek_line_ready ds l w r s :
  ready ds (w ++ r) s → encodes l w →
  ∃ s', if bool_decide (l ∈ ds)
        then peek_line s = Ok (None, s') ∧ stopped l r s'
        else peek_line s = Ok (Some (GotLine l), s') ∧ peeked ds w r s'.
Proof.
  intros (Hr & Hp & Hd & Hds & Hf) Henc. unfold peek_line. rewrite Hd, Hp.
  change (zlen [] =? 0) with true. cbv iota.
  assert (zlen (vec_resize [] (Z.to_nat MAX_LINE_LEN)) = MAX_LINE_LEN) as Hb
    by (apply zlen_full).
  rewrite Hr, Hds, Hf, (exhaustive_encodes l w r _ ds false true Henc Hb). unfold after_line.
  case_bool_decide; cbn [mbind outcome_bind fst snd]; eexists; (split; [done|]).
  - repeat split. simpl. by apply find_in.
  - by repeat split.
Qed.

(** A client that reads lines, peeking before a read where [peeks] says so. *)
Fixpoint run_client (peeks : list bool) (s : StreamingPeekableIter)
    : outcome line_error (list (option line_result) * StreamingPeekableIter) :=
  match peeks with
  | [] => Ok ([], s)
  | peek :: peeks =>
      s ← (if (peek : bool) then '(_, s) ← peek_line s; Ok s else Ok s);
      '(r, s) ← read_line s;
      '(rs, s) ← run_client peeks s;
      Ok (r :: rs, s)
  end.

Lemma run_client_line peek peeks ds l w r s :
  ready ds (w ++ r) s → encodes l w → l ∉ ds →
  ∃ s', run_client (peek :: peeks) s =
        ('(rs, s) ← run_client peeks s'; Ok (Some (GotLine l) :: rs, s)) ∧ ready ds r s'.
Proof.
  intros Hs Henc Hl. cbn [run_client]. destruct peek.
  - destruct (peek_line_ready ds l w r s Hs Henc) as [s1 H1].
    rewrite bool_decide_eq_false_2 in H1 by done. destruct H1 as [-> Hp].
    destruct (read_line_peeked ds l w r s1 Hp Henc) as (s2 & Hr & Hs2 & _).
    cbn [mbind outcome_bind]. rewrite Hr. by eexists.
  - destruct (read_line_ready ds l w r s Hs Henc Hl) as (s1 & Hr & Hs1 & _).
    cbn [mbind outcome_bind]. rewrite Hr. by eexists.
Qed.

Lemma run_client_stop peek ds l w r s :
  ready ds (w ++ r) s → encodes l w → l ∈ ds →
  ∃ s', run_client [peek] s = Ok ([None], s') ∧ stopped l r s'.
Proof.
  intros Hs Henc Hl. cbn [run_client]. destruct peek.
  - destruct (peek_line_ready ds l w r s Hs Henc) as [s1 H1].
    rewrite bool_decide_eq_true_2 in H1 by done. destruct H1 as [-> Hst].
    cbn [mbind outcome_bind]. unfold read_line. destruct Hst as (? & Hd & ?).
    rewrite Hd. cbn. eexists. split; [done|]. done.
  - destruct (read_line_stop ds l w r s Hs Henc Hl) as (s1 & Hr & Hs1).
    cbn [mbind outcome_bind]. rewrite Hr. cbn. eauto.
Qed.

Lemma run_client_lines ls stop ds rest peeks s :
  Forall (λ l, line_ok l ∧ l ∉ ds) ls → line_ok stop → stop ∈ ds →
  length peeks = S (length ls) →
  ready ds (concat (wire <$> ls) ++ wire stop ++ rest) s →
  ∃ s', run_client peeks s = Ok (((λ l, Some (GotLine l)) <$> ls) ++ [None], s') ∧
    stopped stop rest s'.
Proof.
  intros Hls Hst Hin. revert peeks s. induction Hls as [|l ls [Hl Hnot] _ IH]; intros peeks s Hp Hs.
  - destruct peeks as [|p [|? ?]]; simpl in Hp; try lia.
    apply (run_client_stop p ds stop (wire stop)); [done|by apply wire_encodes|done].
  - destruct peeks as [|p peeks]; simpl in Hp; [lia|].
    rewrite fmap_cons, concat_cons, <- app_assoc in Hs.
    destruct (run_client_line p peeks ds l (wire l) _ s Hs (wire_encodes l Hl) Hnot)
      as (s1 & -> & Hs1).
    destruct (IH peeks s1 ltac:(lia) Hs1) as (s2 & -> & Hs2). by exists s2.
Qed.

(** ** Lemmas: demultiplexing *)
Definition payload (b : BandRef) : bytes :=
  match b with BandData d | BandProgress d | BandError d => d end.
Definition band_line (b : BandRef) : PacketLineRef :=
  Data (match b with BandData _ => 1 | BandProgress _ => 2 | BandError _ => 3 end :: payload b).
Definition band_ok (b : BandRef) : Prop := zlen (payload b) < MAX_DATA_LEN.

Lemma band_line_ok b : band_ok b → line_ok (band_line b).
Proof.
  unfold band_ok, line_ok, band_line. rewrite zlen_cons. pose proof (zlen_nonneg (payload b)). lia.
Qed.
Lemma decode_band_line b : decode_band (band_line b) = Ok b.
Proof. by destruct b. Qed.

(** The pure demultiplexer: data in order, and the texts for the handler. *)
Definition band_data (b : BandRef) : bytes := match b with BandData d => d | _ => [] end.
Definition band_text (b : BandRef) : list (bool * bytes) :=
  match b with
  | BandData _ => []
  | BandProgress d => [(false, text_from d)]
  | BandError d => [(true, text_from d)]
  end.
Definition demux_data (bs : list BandRef) : bytes := concat (band_data <$> bs).
Definition demux_texts (bs : list BandRef) : list (bool * bytes) := concat (band_text <$> bs).

Definition bands_wire (bs : list BandRef) : bytes := concat ((wire ∘ band_line) <$> bs).

Section Demux.
Context (ds : list PacketLineRef) (h : handler) (stop : PacketLineRef) (rest : bytes).
Context (Hh : ∀ e t, h e t = false) (Hstop : line_ok stop) (Hin : stop ∈ ds)
  (Hds : ∀ d, Data d ∉ ds).

(** What the loop of [fill_buf] leaves behind: the next data band in the buffer,
    or the reader stopped. *)
Lemma fill_loop_spec bs p log fuel :
  Forall band_ok bs → ready ds (bands_wire bs ++ wire stop ++ rest) p →
  (length bs < fuel)%nat →
  (∃ p' d bs' texts, fill_loop fuel (Some h) p log = (p', log ++ texts, Ok (5, zlen d)) ∧
     ready ds (bands_wire bs' ++ wire stop ++ rest) p' ∧ d ≠ [] ∧ Forall band_ok bs' ∧
     demux_data bs = d ++ demux_data bs' ∧ demux_texts bs = texts ++ demux_texts bs' ∧
     (length bs' < length bs)%nat ∧ ∃ hd t, buf p' = hd ++ d ++ t ∧ zlen hd = 5) ∨
  (∃ p', fill_loop fuel (Some h) p log = (p', log ++ demux_texts bs, Ok (0, 0)) ∧
     stopped stop rest p' ∧ demux_data bs = []).
Proof using Hh Hstop Hin Hds.
  intros Hbs. revert p log fuel. induction Hbs as [|b bs Hb Hbs IH]; intros p log fuel Hp Hf.
  - right. destruct fuel as [|fuel]; [lia|]. cbn [fill_loop].
    destruct (read_line_stop ds stop (wire stop) rest p Hp (wire_encodes _ Hstop) Hin)
      as (p' & -> & Hp'). exists p'. unfold demux_texts. cbn. by rewrite app_nil_r.
  - destruct fuel as [|fuel]; [simpl in Hf; lia|].
    unfold bands_wire in Hp. rewrite fmap_cons, concat_cons, <- app_assoc in Hp.
    cbn [fill_loop].
    destruct (read_line_ready ds (band_line b) (wire (band_line b)) _ p Hp
      (wire_encodes _ (band_line_ok b Hb)) (Hds _)) as (p1 & -> & Hp1 & t & Ht).
    rewrite decode_band_line. simpl in Hf.
    assert (∀ texts, demux_texts (b :: bs) = texts ++ demux_texts bs → demux_data (b :: bs) = demux_data bs →
      ((∃ p' d bs' texts', fill_loop fuel (Some h) p1 (log ++ texts) = (p', log ++ texts', Ok (5, zlen d)) ∧
        ready ds (bands_wire bs' ++ wire stop ++ rest) p' ∧ d ≠ [] ∧ Forall band_ok bs' ∧
        demux_data (b :: bs) = d ++ demux_data bs' ∧ demux_texts (b :: bs) = texts' ++ demux_texts bs' ∧
        (length bs' < length (b :: bs))%nat ∧ ∃ hd t, buf p' = hd ++ d ++ t ∧ zlen hd = 5) ∨
       (∃ p', fill_loop fuel (Some h) p1 (log ++ texts) = (p', log ++ demux_texts (b :: bs), Ok (0, 0)) ∧
        stopped stop rest p' ∧ demux_data (b :: bs) = []))) as Hskip.
    { intros texts Htx Hdt. rewrite Htx, Hdt.
      destruct (IH p1 (log ++ texts) fuel Hp1 ltac:(lia))
        as [(p' & d & bs' & tx & -> & H1 & H2 & H3 & H4 & H5 & H6 & H7)|(p' & -> & H1 & H2)].
      - left. exists p', d, bs', (texts ++ tx). rewrite !app_assoc. split; [done|].
        split; [by rewrite <- app_assoc|]. do 3 (split; [done|]).
        split; [by rewrite H5, app_assoc|]. split; [simpl; lia|done].
      - right. exists p'. by rewrite app_assoc. }
    destruct b as [d|d|d].
    + destruct (Z.eqb_spec (zlen d) 0) as [Hz|Hz].
      * apply zlen_zero_nil in Hz as ->. specialize (Hskip [] eq_refl eq_refl).
        by rewrite app_nil_r in Hskip.
      * left. exists p1, d, bs, []. rewrite app_nil_r. split; [done|]. split; [done|].
        split; [by intros ->|]. do 3 (split; [done|]). split; [simpl; lia|].
        exists (u16_to_hex (zlen (1 :: d) + 4) ++ [1]), t. split.
        -- rewrite Ht. simpl. by rewrite <- !app_assoc.
        -- unfold zlen at 1. rewrite length_app, length_u16_to_hex. done.
    + rewrite Hh. by apply Hskip.
    + rewrite Hh. by apply Hskip.
Qed.
End Demux.

Lemma get_range_advance {A} (l : list A) i j d m :
  get_range l i j = Some d → 0 ≤ m ≤ zlen d → get_range l (i + m) j = Some (drop (Z.to_nat m) d).
Proof.
  intros Hd Hm. apply get_range_Some in Hd as (Hij & Hj & Hl & ->).
  unfold get_range. assert ((0 <=? i + m) && (i + m <=? j) && (j <=? zlen l) = true) as ->
    by (zb; lia). f_equal. rewrite skipn_firstn_comm, drop_drop.
  f_equal; [lia|]. f_equal. lia.
Qed.

(** A client that reads into a buffer of [n] bytes until nothing more comes. *)
Fixpoint read_to_end (fuel : nat) (n : Z) (s : WithSidebands)
    : WithSidebands * outcome line_error bytes :=
  match fuel with
  | O => (s, Panic)
  | S fuel =>
      match sideband_read n s with
      | (s, Ok []) => (s, Ok [])
      | (s, Ok out) =>
          match read_to_end fuel n s with
          | (s, Ok more) => (s, Ok (out ++ more))
          | r => r
          end
      | r => r
      end
  end.

(** [d] is what is left of the current data band. *)
Definition holding (h : handler) (ds : list PacketLineRef) (d r : bytes)
    (log : list (bool * bytes)) (s : WithSidebands) : Prop :=
  handle_progress s = Some h ∧ progress s = log ∧ ready ds r (parent s) ∧
  get_range (buf (parent s)) (pos s) (cap s) = Some d.

Lemma sideband_read_held h ds d r log s n :
  0 < n → d ≠ [] → holding h ds d r log s →
  ∃ s', sideband_read n s = (s', Ok (take (Z.to_nat n) d)) ∧
    holding h ds (drop (Z.to_nat n) d) r log s'.
Proof.
  intros Hn Hd (Hh & Hlog & Hr & Hg). pose proof (get_range_Some _ _ _ _ Hg) as (Hpc & _ & Hl & _).
  assert (0 < zlen d) as Hpos.
  { destruct d; [done|]. rewrite zlen_cons. pose proof (zlen_nonneg d). lia. }
  unfold sideband_read, fill_buf. destruct (Z.leb_spec (cap s) (pos s)); [lia|].
  rewrite Hg. cbn [expect]. eexists. split; [done|].
  assert (zlen (take (Z.to_nat n) d) = Z.min n (zlen d)) as Hz
    by (unfold zlen; rewrite length_take; lia).
  split; [done|]. split; [done|]. split; [done|]. cbn [parent pos cap consume].
  rewrite Hz, Z.min_l by lia.
  rewrite (get_range_advance _ _ _ d) by (done || lia). f_equal.
  destruct (Z.le_gt_cases n (zlen d)).
  - by rewrite Z.min_l.
  - rewrite Z.min_r by lia. rewrite !drop_ge; [done|unfold zlen in *; lia..].
Qed.

Lemma wire_length_pos l : line_ok l → (1 ≤ length (wire l))%nat.
Proof. intros H. destruct (encodes_length l _ (wire_encodes l H)) as (_ & ? & _). lia. Qed.

Lemma bands_wire_length bs : Forall band_ok bs → (length bs ≤ length (bands_wire bs))%nat.
Proof.
  unfold bands_wire. induction 1 as [|b bs Hb _ IH]; [done|].
  rewrite fmap_cons, concat_cons, length_app. simpl.
  pose proof (wire_length_pos _ (band_line_ok b Hb)). simpl in *. lia.
Qed.

Lemma read_to_end_spec h ds stop rest n fuel bs d log s :
  (∀ e t, h e t = false) → line_ok stop → stop ∈ ds → (∀ d, Data d ∉ ds) → 0 < n →
  Forall band_ok bs → holding h ds d (bands_wire bs ++ wire stop ++ rest) log s →
  (length d + length (demux_data bs) < fuel)%nat →
  ∃ s', read_to_end fuel n s = (s', Ok (d ++ demux_data bs)) ∧
    stopped stop rest (parent s') ∧ progress s' = log ++ demux_texts bs.
Proof.
  intros Hh Hst Hin Hds Hn. revert bs d log s.
  induction fuel as [|fuel IH]; intros bs d log s Hbs Hs Hf; [lia|].
  assert (∀ bs d log s, d ≠ [] → Forall band_ok bs →
    holding h ds d (bands_wire bs ++ wire stop ++ rest) log s →
    (length d + length (demux_data bs) < S fuel)%nat →
    ∃ s', read_to_end (S fuel) n s = (s', Ok (d ++ demux_data bs)) ∧
      stopped stop rest (parent s') ∧ progress s' = log ++ demux_texts bs) as Hheld.
  { clear bs d log s Hbs Hs Hf. intros bs d log s Hd Hbs Hs Hf.
    destruct (sideband_read_held h ds d _ log s n Hn Hd Hs) as (s1 & Hr & Hs1).
    cbn [read_to_end]. rewrite Hr.
    assert (take (Z.to_nat n) d ≠ []) as Hne.
    { destruct d; [done|]. replace (Z.to_nat n) with (S (Z.to_nat n - 1)) by lia. done. }
    destruct (IH bs (drop (Z.to_nat n) d) log s1 Hbs Hs1) as (s2 & Hr2 & Hs2 & Hp2).
    { assert (length d ≠ 0)%nat by (by destruct d). rewrite length_drop. lia. }
    destruct (take (Z.to_nat n) d) as [|z l] eqn:Ht; [done|]. rewrite Hr2.
    exists s2. split; [|done]. by rewrite <- Ht, app_assoc, take_drop. }
  destruct d as [|x d]; [|by apply Hheld].
  destruct Hs as (Hhp & Hlog & Hr & Hg).
  pose proof (get_range_Some _ _ _ _ Hg) as (Hpc & _ & Hl & _).
  assert (cap s = pos s) as Hcp by (unfold zlen in Hl; simpl in Hl; lia).
  assert (length bs < length (read (parent s)) + 2)%nat as Hfuel.
  { destruct Hr as (-> & _). rewrite length_app. pose proof (bands_wire_length bs Hbs). lia. }
  pose proof (fill_loop_spec ds h stop rest Hh Hst Hin Hds bs (parent s) log _ Hbs Hr Hfuel)
    as [(p' & d & bs' & tx & Hfl & H1 & H2 & H3 & H4 & H5 & H6 & hd & t & Hbuf & Hhd)|
        (p' & Hfl & H1 & H2)].
  - (* the next data band: as if it had been in the buffer already *)
    set (s1 := {| parent := p'; handle_progress := Some h; pos := 5; cap := zlen d + 5;
                  progress := log ++ tx |}).
    assert (get_range (buf p') 5 (zlen d + 5) = Some d) as Hgd.
    { rewrite Hbuf. apply get_range_app; lia. }
    assert (fill_buf s = fill_buf s1) as Hsame.
    { unfold fill_buf. rewrite Hcp, Z.leb_refl, Hhp, Hlog, Hfl.
      cbn [with_parent parent handle_progress pos cap progress s1].
      assert (0 < zlen d).
      { destruct d; [done|]. rewrite zlen_cons. pose proof (zlen_nonneg d). lia. }
      destruct (Z.leb_spec (zlen d + 5) 5); [lia|]. by rewrite Hhp. }
    destruct (Hheld bs' d (log ++ tx) s1 H2 H3) as (s2 & Hr2 & Hs2 & Hp2).
    { by split. } { rewrite H4, length_app in Hf. simpl in Hf. lia. }
    exists s2. cbn [read_to_end] in *. unfold sideband_read in *. rewrite Hsame, Hr2, H4, H5.
    split; [done|]. split; [done|]. by rewrite Hp2, app_assoc.
  - cbn [read_to_end]. unfold sideband_read, fill_buf. rewrite Hcp, Z.leb_refl, Hhp, Hlog, Hfl.
    cbn [with_parent parent handle_progress pos cap progress].
    rewrite (get_range_0 _ 0) by (pose proof (zlen_nonneg (buf p')); lia).
    cbn [expect Z.to_nat take firstn]. rewrite H2. eexists. split; [by destruct (Z.to_nat n)|]. done.
Qed.

(** ** Lemmas: the writer *)
Lemma data_to_write_eq d :
  0 < zlen d ≤ MAX_DATA_LEN → data_to_write d = Ok (wire (Data d), zlen d + 4).
Proof.
  intros Hd. pose proof (write_wire (Data d) Hd) as H. simpl write_packet_line in H.
  rewrite H. f_equal. f_equal. apply zlen_wire.
Qed.

Lemma write_loop_binary fuel w b written :
  binary w = true → 0 ≤ written → written + zlen b < 2 ^ 63 → (length b ≤ fuel)%nat →
  ∃ ds, concat ds = b ∧ Forall (λ d, line_ok (Data d)) ds ∧
    write_loop fuel w b written =
    ({| inner := inner w ++ concat ((wire ∘ Data) <$> ds); binary := true |},
     Ok (written + zlen b)).
Proof.
  revert w b written. induction fuel as [|fuel IH]; intros w b written Hw H0 Hmax Hf.
  - destruct b; [|simpl in Hf; lia]. exists []. repeat split; [constructor|]. cbn.
    destruct w as [i bn]. simpl in *. subst bn. rewrite app_nil_r. do 2 f_equal. unfold zlen. simpl. lia.
  - destruct b as [|x b'] eqn:Eb.
    { exists []. repeat split; [constructor|]. cbn.
      destruct w as [i bn]. simpl in *. subst bn. rewrite app_nil_r. do 2 f_equal.
      unfold zlen. simpl. lia. }
    rewrite <- Eb in *. assert (0 < zlen b) as Hpos by (subst b; rewrite zlen_cons; pose proof (zlen_nonneg b'); lia).
    assert (write_loop (S fuel) w b written =
      match split_at_checked b (Z.min (zlen b) MAX_DATA_LEN) with
      | None => (w, Panic)
      | Some (data, rest) =>
          match (if binary w then data_to_write data else text_to_write data) with
          | Err e => (w, Err e)
          | Panic => (w, Panic)
          | Ok (out, n) =>
              let w := {| inner := inner w ++ out; binary := binary w |} in
              match checked_sub 64 (written + n)
                      (U16_HEX_BYTES + (if binary w then 0 else 1)) with
              | Some written => write_loop fuel w rest written
              | None => (w, Panic)
              end
          end
      end) as -> by (subst b; done).
    clear Eb x b'. set (m := Z.min (zlen b) MAX_DATA_LEN).
    assert (0 < m ≤ zlen b ∧ m ≤ MAX_DATA_LEN) as Hm by (subst m; unfold MAX_DATA_LEN; lia).
    unfold split_at_checked.
    assert ((0 <=? m) && (m <=? zlen b) = true) as -> by (zb; lia).
    set (d := take (Z.to_nat m) b).
    assert (zlen d = m) as Hd by (subst d; unfold zlen in *; rewrite length_take; lia).
    rewrite Hw, data_to_write_eq by lia. cbn [binary]. unfold U16_HEX_BYTES.
    rewrite checked_sub_in by (unfold MAX_DATA_LEN in *; lia). rewrite Hd.
    destruct (IH {| inner := inner w ++ wire (Data d); binary := true |} (drop (Z.to_nat m) b)
      (written + (m + 4) - (4 + 0))) as (ds & Hc & Hok & Hl); [done|lia| | |].
    { unfold zlen in *. rewrite length_drop. lia. }
    { unfold zlen in *. rewrite length_drop. lia. }
    exists (d :: ds). split; [rewrite concat_cons, Hc; apply take_drop|].
    split; [constructor; [simpl; lia|done]|]. rewrite Hl. cbn [inner].
    rewrite fmap_cons, concat_cons, <- app_assoc. do 2 f_equal.
    unfold zlen in *. rewrite length_drop. lia.
Qed.
End PacketLine.

(** ** The theorems *)

(** every line with a valid encoding is written as its wire form; decoding
    that form, whatever follows it, gives the line and its length; and every
    proper prefix is reported as incomplete, asking for at least one byte but
    never for more than the line is missing. *)
Theorem line_roundtrip {FH : FasterHex} (l : PacketLineRef) (rest : bytes) (n : nat)
    (Hl : line_ok l) :
  ∃ out, write_packet_line l = Ok (out, zlen out) ∧
    streaming (out ++ rest) = Ok (Complete l (zlen out)) ∧
    all_at_once out = Ok l ∧
    ((n < length out)%nat →
     ∃ k, streaming (take n out) = Ok (Incomplete k) ∧ 0 < k ≤ zlen out - Z.of_nat n).
Proof.
  pose proof (wire_encodes l Hl) as Henc. exists (wire l).
  split; [by apply write_wire|]. split; [by apply streaming_encodes|].
  split; [rewrite <- (app_nil_r (wire l)); by apply all_at_once_encodes|].
  by apply (streaming_partial l).
Qed.

Lemma line_roundtrip_witness :
  ∃ out, write_packet_line (Data [104; 105]) = Ok (out, zlen out) ∧
    streaming (out ++ [7]) = Ok (Complete (Data [104; 105]) (zlen out)) ∧
    all_at_once out = Ok (Data [104; 105]) ∧
    ((5 < length out)%nat →
     ∃ k, streaming (take 5 out) = Ok (Incomplete k) ∧ 0 < k ≤ zlen out - Z.of_nat 5).
Proof. apply (line_roundtrip (Data [104; 105]) [7] 5). vm_compute. split; [reflexivity|discriminate]. Defined.

(** C16: whatever bytes the peer sends and in whatever order the methods of the
    reader are called, reading and peeking return (the [expect()]s on the
    internal buffers never fail); and a line that was peeked is the line the
    next read returns. *)
Theorem reader_never_panics {FH : FasterHex} (s : StreamingPeekableIter)
    (Hs : iter_reachable s) :
  (∃ r s', read_line s = Ok (r, s')) ∧
  (∃ r s', peek_line s = Ok (r, s') ∧
     ∀ l, r = Some (GotLine l) → ∃ s'', read_line s' = Ok (Some (GotLine l), s'')).
Proof.
  pose proof (reachable_ok s Hs) as Hok. split.
  - destruct (read_line_ok s Hok) as (r & s' & Hr & _). eauto.
  - destruct (peek_line_ok s Hok) as (r & s' & Hr & _ & Hline). exists r, s'. split; [done|].
    intros l Hl. destruct (Hline l Hl) as [Hd Henc]. unfold read_line. rewrite Hd.
    destruct (encodes_length _ _ Henc) as (_ & H4 & _).
    destruct (Z.eqb_spec (zlen (peek_buf s')) 0) as [Hz|_]; [unfold zlen in Hz; lia|].
    cbn [negb buf]. pose proof (all_at_once_encodes l _ [] Henc) as Ha.
    rewrite app_nil_r in Ha. rewrite Ha. eauto.
Qed.

Lemma reader_never_panics_witness :
  (∃ r s', read_line (iter_new (FLUSH_LINE ++ [65]) [Flush]) = Ok (r, s')) ∧
  (∃ r s', peek_line (iter_new (FLUSH_LINE ++ [65]) [Flush]) = Ok (r, s') ∧
     ∀ l, r = Some (GotLine l) → ∃ s'', read_line s' = Ok (Some (GotLine l), s'')).
Proof. apply (reader_never_panics (iter_new (FLUSH_LINE ++ [65]) [Flush])). constructor. Defined.

(** Reading the wire forms of a sequence of lines followed by a delimiter
    yields exactly these lines, in order, then [None]; the reader records the
    delimiter it stopped at and has consumed nothing beyond it. Peeking before
    any of the reads makes no difference. *)
Theorem reader_yields_lines {FH : FasterHex} (ls : list PacketLineRef) (stop : PacketLineRef)
    (ds : list PacketLineRef) (rest : bytes) (peeks : list bool)
    (Hls : Forall (λ l, line_ok l ∧ l ∉ ds) ls) (Hstop : line_ok stop) (Hin : stop ∈ ds)
    (Hpeeks : length peeks = S (length ls)) :
  ∃ s', run_client peeks (iter_new (concat (wire <$> ls) ++ wire stop ++ rest) ds) =
        Ok (((λ l, Some (GotLine l)) <$> ls) ++ [None], s') ∧
    stopped_at s' = Some stop ∧ read s' = rest.
Proof.
  destruct (run_client_lines ls stop ds rest peeks
    (iter_new (concat (wire <$> ls) ++ wire stop ++ rest) ds) Hls Hstop Hin Hpeeks)
    as (s' & Hr & Hread & _ & Hst); [apply iter_new_ready|eauto].
Qed.

Lemma reader_yields_lines_witness :
  ∃ s', run_client [true; false; true]
          (iter_new (concat (wire <$> [Data [1]; Delimiter]) ++ wire Flush ++ [9; 9]) [Flush]) =
        Ok (((λ l, Some (GotLine l)) <$> [Data [1]; Delimiter]) ++ [None], s') ∧
    stopped_at s' = Some Flush ∧ read s' = [9; 9].
Proof.
  apply (reader_yields_lines [Data [1]; Delimiter] Flush [Flush] [9; 9]).
  - repeat constructor; try (vm_compute; discriminate); by intros ?%list_elem_of_singleton.
  - exact I.
  - apply list_elem_of_singleton. reflexivity.
  - reflexivity.
Defined.

(** C18: reading with sidebands, in pieces of any size, yields the concatenation
    of the data bands; the progress and error texts reach the handler in their
    order, and the reader stops at the delimiter with the rest unread. *)
Theorem sideband_demux {FH : FasterHex} (bs : list BandRef) (h : handler) (stop : PacketLineRef)
    (ds : list PacketLineRef) (rest : bytes) (n : Z) (fuel : nat)
    (Hbs : Forall band_ok bs) (Hh : ∀ e t, h e t = false) (Hstop : line_ok stop)
    (Hin : stop ∈ ds) (Hds : ∀ d, Data d ∉ ds) (Hn : 0 < n)
    (Hfuel : (length (demux_data bs) < fuel)%nat) :
  ∃ s', read_to_end fuel n
          (with_progress_handler (iter_new (bands_wire bs ++ wire stop ++ rest) ds) h) =
        (s', Ok (demux_data bs)) ∧
    progress s' = demux_texts bs ∧ stopped_at (parent s') = Some stop ∧ read (parent s') = rest.
Proof.
  destruct (read_to_end_spec h ds stop rest n fuel bs [] []
    (with_progress_handler (iter_new (bands_wire bs ++ wire stop ++ rest) ds) h))
    as (s' & Hr & (Hread & _ & Hst) & Hp); [done|done|done|done|done|done| |simpl; lia|].
  - split; [reflexivity|]. split; [reflexivity|]. split; [apply iter_new_ready|].
    cbn [parent pos cap with_progress_handler]. apply get_range_empty.
  - exists s'. done.
Qed.

Lemma sideband_demux_witness :
  ∃ s', read_to_end 9 2
          (with_progress_handler
             (iter_new (bands_wire [BandData [5; 6; 7]; BandProgress [72; 10]; BandData [8]]
                          ++ wire Flush ++ [1]) [Flush]) (λ _ _, false)) =
        (s', Ok (demux_data [BandData [5; 6; 7]; BandProgress [72; 10]; BandData [8]])) ∧
    progress s' = demux_texts [BandData [5; 6; 7]; BandProgress [72; 10]; BandData [8]] ∧
    stopped_at (parent s') = Some Flush ∧ read (parent s') = [1].
Proof.
  apply (sideband_demux [BandData [5; 6; 7]; BandProgress [72; 10]; BandData [8]]
    (λ _ _, false) Flush [Flush] [1] 2 9).
  - repeat constructor.
  - reflexivity.
  - exact I.
  - apply list_elem_of_singleton. reflexivity.
  - by intros d ?%list_elem_of_singleton.
  - lia.
  - simpl. lia.
Defined.

(** In binary mode, [Writer::write()] of a non-empty buffer splits it into
    lines of at most [MAX_DATA_LEN] bytes whose contents are the buffer, and
    reports its length. In text mode it writes a shorter buffer as one line with
    a newline, but fails on any buffer of [MAX_DATA_LEN] bytes or more without
    writing anything: the chunk is cut without room for the newline. *)
Theorem writer_write {FH : FasterHex} (w : Writer) (b : bytes)
    (Hb : 0 < zlen b < 2 ^ 63) :
  (binary w = true →
   ∃ ds, concat ds = b ∧ Forall (λ d, line_ok (Data d)) ds ∧
     write w b = ({| inner := inner w ++ concat ((wire ∘ Data) <$> ds); binary := true |},
                  Ok (zlen b))) ∧
  (binary w = false → zlen b < MAX_DATA_LEN →
   write w b = ({| inner := inner w ++ wire (Data (b ++ [10])); binary := false |},
                Ok (zlen b))) ∧
  (binary w = false → MAX_DATA_LEN ≤ zlen b →
   write w b = (w, Err (CannotEncode (MAX_DATA_LEN + 1)))).
Proof.
  split; [|split].
  - intros Hw. destruct (write_loop_binary (length b) w b 0 Hw) as (ds & Hc & Hok & Hl); [lia..|].
    exists ds. split; [done|]. split; [done|]. unfold write. rewrite Hl, Z.add_0_l.
    destruct b; [unfold zlen in Hb; simpl in Hb; lia|done].
  - intros Hw Hlt. destruct b as [|x b']; [unfold zlen in Hb; simpl in Hb; lia|].
    set (b := x :: b') in *. change (write w b) with (write_loop (S (length b')) w b 0).
    assert (write_loop (S (length b')) w b 0 =
      match text_to_write b with
      | Ok (out, n) =>
          match checked_sub 64 (0 + n) (U16_HEX_BYTES + 1) with
          | Some written => ({| inner := inner w ++ out; binary := false |}, Ok written)
          | None => ({| inner := inner w ++ out; binary := false |}, Panic)
          end
      | Err e => (w, Err e)
      | Panic => (w, Panic)
      end) as ->.
    { cbn [write_loop]. subst b. rewrite Z.min_l by lia.
      unfold split_at_checked. rewrite Z.leb_refl.
      assert (0 <=? zlen (x :: b') = true) as -> by (apply Z.leb_le; lia). cbn [andb].
      assert (Z.to_nat (zlen (x :: b')) = length (x :: b')) as -> by (unfold zlen; lia).
      rewrite firstn_all, skipn_all, Hw. cbn [binary].
      destruct (text_to_write (x :: b')) as [[out n]| |]; try done.
      destruct (checked_sub 64 (0 + n) (U16_HEX_BYTES + 1)); [|done]. by destruct (length b'). }
    unfold text_to_write, prefixed_and_suffixed_data_to_write.
    change (zlen []) with 0. change (zlen [10]) with 1. rewrite Z.gtb_ltb.
    destruct (Z.ltb_spec MAX_DATA_LEN (0 + zlen b + 1)); [lia|].
    destruct (Z.eqb_spec (zlen b) 0); [lia|]. unfold U16_HEX_BYTES, MAX_DATA_LEN in *.
    rewrite wrap_small by lia. rewrite checked_sub_in by lia.
    unfold wire. rewrite zlen_app, app_nil_l. change (zlen [10]) with 1.
    replace (0 + zlen b + 1 + 4) with (zlen b + 1 + 4) by lia. do 2 f_equal. lia.
  - intros Hw Hge. destruct b as [|x b']; [unfold zlen in Hb; simpl in Hb; lia|].
    change (write w (x :: b')) with (write_loop (S (length b')) w (x :: b') 0).
    cbn [write_loop]. rewrite Z.min_r by lia. unfold split_at_checked.
    assert ((0 <=? MAX_DATA_LEN) && (MAX_DATA_LEN <=? zlen (x :: b')) = true) as ->.
    { apply andb_true_iff. split; apply Z.leb_le; [unfold MAX_DATA_LEN; lia|done]. }
    rewrite Hw. unfold text_to_write, prefixed_and_suffixed_data_to_write.
    assert (zlen (take (Z.to_nat MAX_DATA_LEN) (x :: b')) = MAX_DATA_LEN) as ->.
    { unfold zlen in *. rewrite length_take. unfold MAX_DATA_LEN in *. lia. }
    change (zlen []) with 0. change (zlen [10]) with 1. rewrite Z.gtb_ltb.
    destruct (Z.ltb_spec MAX_DATA_LEN (0 + MAX_DATA_LEN + 1)); [|lia]. by rewrite Z.add_0_l.
Qed.

Lemma writer_write_witness :
  (true = true →
   ∃ ds, concat ds = [1; 2] ∧ Forall (λ d, line_ok (Data d)) ds ∧
     write (writer_new [3]) [1; 2] =
     ({| inner := [3] ++ concat ((wire ∘ Data) <$> ds); binary := true |}, Ok (zlen [1; 2]))) ∧
  (true = false → zlen [1; 2] < MAX_DATA_LEN →
   write (writer_new [3]) [1; 2] =
   ({| inner := [3] ++ wire (Data ([1; 2] ++ [10])); binary := false |}, Ok (zlen [1; 2]))) ∧
  (true = false → MAX_DATA_LEN ≤ zlen [1; 2] →
   write (writer_new [3]) [1; 2] = (writer_new [3], Err (CannotEncode (MAX_DATA_LEN + 1)))).
Proof. apply (writer_write (writer_new [3]) [1; 2]). vm_compute. split; reflexivity. Defined.

(** [replace()] keeps a line that was peeked from the previous reader. *)
Example replace_keeps_peeked_line :
  match peek_line (iter_new (wire (Data [1]) ++ wire (Data [2])) [Flush]) with
  | Ok (_, s) =>
      match read_line (replace (wire (Data [3])) s).2 with
      | Ok (r, _) => r = Some (GotLine (Data [1]))
      | _ => False
      end
  | _ => False
  end.
Proof. vm_compute. reflexivity. Qed.
