(* ===== verification/Chunk.v ===== *)
(** * [gix-chunk]: chunk files

    The table of contents of commit-graph and multi-pack-index files: [Index] is
    [file::Index] with its entries, [from_bytes] decodes and validates a table,
    the accessors of [index.rs] find chunks by kind, and [plan_chunk],
    [into_write] and the [Chunk] writer produce such files. The destination of a
    writer is the list of bytes it has received. [usize] is 64 bits wide, so a
    [u64] offset always converts. *)

From stdpp Require Import sets.
From S2P Require Import Prelude Hash.

(** ** [lib.rs], [file/mod.rs] and [file/index.rs] *)
Definition SENTINEL : bytes := [0; 0; 0; 0].
Definition ENTRY_SIZE : Z := 4 + 8.
Definition size_for_entries (num_entries : Z) : Z := ENTRY_SIZE * (num_entries + 1).

Record Entry := { kind : bytes; offset : Z * Z }.
Record Index := { will_write : bool; chunks : list Entry }.

Inductive chunk_error :=
| EmptyIndex
| TocTooSmall (expected actual : Z)
| EarlySentinel (chunk_idx : Z)
| DuplicateChunk (k : bytes)
| OffsetPastEnd (o : Z)
| OffsetsNotIncrementing
| MissingSentinel (k : bytes)
| ChunkNotFound (k : bytes)
| OffsetNotUsize.

(** [range::into_usize]: a start or end of 2^64 or more does not convert. *)
Definition into_usize (r : Z * Z) : option (Z * Z) :=
  start ← checked 64 r.1; finish ← checked 64 r.2; Some (start, finish).
Definition into_usize_or_panic {E} (r : Z * Z) : outcome E (Z * Z) := expect (into_usize r).

Definition offset_by_id (idx : Index) (k : bytes) : outcome chunk_error (Z * Z) :=
  ok_or (ChunkNotFound k) (offset <$> find (λ c, bytes_eqb (kind c) k) (chunks idx)).
Definition usize_offset_by_id (idx : Index) (k : bytes) : outcome chunk_error (Z * Z) :=
  match find (λ c, bytes_eqb (kind c) k) (chunks idx) with
  | Some c => into_usize_or_panic (offset c)
  | None => Err (ChunkNotFound k)
  end.
Definition validated_usize_offset_by_id {T} (idx : Index) (k : bytes) (validate : Z * Z → T)
    : outcome chunk_error T :=
  match find (λ c, bytes_eqb (kind c) k) (chunks idx) with
  | Some c => r ← into_usize_or_panic (offset c); Ok (validate r)
  | None => Err (ChunkNotFound k)
  end.
Definition data_by_id (idx : Index) (data k : bytes) : outcome chunk_error bytes :=
  o ← offset_by_id idx k;
  r ← ok_or OffsetNotUsize (into_usize o);
  expect (get_range data r.1 r.2).
Definition highest_offset (idx : Index) : outcome chunk_error Z :=
  c ← expect (list.last (chunks idx));
  Ok (offset c).2.

(** ** [file/decode.rs] *)
Definition to_kind (data : bytes) : outcome chunk_error bytes := expect (get_range data 0 4).
Definition be_u64 (data : bytes) : outcome chunk_error Z :=
  b ← expect (get_range data 0 8);
  Ok (from_be b).

(** The loop over the chunks that are left; [idx] is the index of the next. *)
Fixpoint toc_loop (todo : nat) (idx data_len : Z) (toc_entry : bytes) (chunks : list Entry)
    : outcome chunk_error (list Entry * bytes) :=
  match todo with
  | O => Ok (chunks, toc_entry)
  | S todo =>
      '(k, o) ← expect (split_at_checked toc_entry 4);
      k ← to_kind k;
      _ ← ensure (negb (bytes_eqb k SENTINEL)) (EarlySentinel idx);
      _ ← ensure (negb (existsb (λ c, bytes_eqb (kind c) k) chunks)) (DuplicateChunk k);
      start ← be_u64 o;
      _ ← ensure (negb (data_len <? start)) (OffsetPastEnd start);
      toc_entry ← expect (get_from toc_entry ENTRY_SIZE);
      next ← expect (get_from toc_entry 4);
      next_offset ← be_u64 next;
      _ ← ensure (negb (data_len <? next_offset)) (OffsetPastEnd next_offset);
      _ ← ensure (negb (next_offset <=? start)) OffsetsNotIncrementing;
      toc_loop todo (idx + 1) data_len toc_entry
        (chunks ++ [{| kind := k; offset := (start, next_offset) |}])
  end.

Definition from_bytes (data : bytes) (toc_offset num_chunks : Z) : outcome chunk_error Index :=
  _ ← ensure (negb (num_chunks =? 0)) EmptyIndex;
  let data_len := zlen data in
  toc_entry ← expect (get_from data toc_offset);
  let expected_min_size := (num_chunks + 1) * ENTRY_SIZE in
  _ ← ensure (negb (zlen toc_entry <? expected_min_size))
        (TocTooSmall expected_min_size (zlen toc_entry));
  '(chunks, toc_entry) ← toc_loop (Z.to_nat num_chunks) 0 data_len toc_entry [];
  sentinel ← to_kind toc_entry;
  _ ← ensure (bytes_eqb sentinel SENTINEL) (MissingSentinel sentinel);
  Ok {| will_write := false; chunks := chunks |}.

(** ** [file/write.rs] *)
Definition for_writing : Index := {| will_write := true; chunks := [] |}.

Definition plan_chunk {E} (chunk : bytes) (exact_size_on_disk : Z) (idx : Index)
    : outcome E Index :=
  _ ← assert_that (will_write idx);
  _ ← assert_that (negb (existsb (λ e, bytes_eqb (kind e) chunk) (chunks idx)));
  Ok {| will_write := will_write idx;
        chunks := chunks idx ++ [{| kind := chunk; offset := (0, exact_size_on_disk) |}] |}.

Definition planned_storage_size {E} (idx : Index) : outcome E Z :=
  _ ← assert_that (will_write idx);
  foldl (λ acc e, acc ← acc; op_add 64 acc (offset e).2) (Ok 0) (chunks idx).

Definition num_chunks (idx : Index) : Z := zlen (chunks idx).

Record Chunk := {
  chunks_to_write : list Entry;
  inner : bytes;
  next_entry : option Entry;
  written_bytes : Z;
}.

(** The loop of [into_write] over the planned chunks. *)
Fixpoint write_toc {E} (entries : list Entry) (current_offset : Z) : outcome E (bytes * Z) :=
  match entries with
  | [] => Ok ([], current_offset)
  | e :: entries =>
      next ← op_add 64 current_offset (offset e).2;
      '(out, last) ← write_toc entries next;
      Ok (kind e ++ to_be 8 current_offset ++ out, last)
  end.

Definition into_write {E} (idx : Index) (out : bytes) (current_offset : Z) : outcome E Chunk :=
  _ ← assert_that (will_write idx);
  start ← op_add 64 current_offset (size_for_entries (num_chunks idx));
  '(toc, last) ← write_toc (chunks idx) start;
  Ok {| chunks_to_write := chunks idx;
        inner := out ++ toc ++ to_be 4 0 ++ to_be 8 last;
        next_entry := None; written_bytes := 0 |}.

Definition chunk_write {E} (buf : bytes) (c : Chunk) : outcome E Chunk :=
  written ← op_add 64 (written_bytes c) (zlen buf);
  Ok {| chunks_to_write := chunks_to_write c; inner := inner c ++ buf;
        next_entry := next_entry c; written_bytes := written |}.

Definition next_chunk {E} (c : Chunk) : outcome E (option bytes * Chunk) :=
  _ ← (match next_entry c with
       | Some entry => assert_that ((offset entry).2 =? written_bytes c)
       | None => Ok tt
       end);
  match chunks_to_write c with
  | [] => Ok (None, {| chunks_to_write := []; inner := inner c; next_entry := None;
                       written_bytes := 0 |})
  | e :: es => Ok (Some (kind e), {| chunks_to_write := es; inner := inner c;
                                     next_entry := Some e; written_bytes := 0 |})
  end.

(** ** Lemmas: one entry of the table *)
Lemma be_u64_eq b : (8 ≤ length b)%nat → be_u64 b = Ok (from_be (take 8 b)).
Proof.
  intros. unfold be_u64. by rewrite (get_range_0 b 8) by (unfold zlen; lia).
Qed.

(** Kind and offset of the first entry of a table. *)
Definition e_kind (toc : bytes) : bytes := take 4 toc.
Definition e_offset (toc : bytes) : Z := from_be (take 8 (drop 4 toc)).

(** One round of the loop, with its slices read. *)
Lemma toc_loop_S todo idx len toc cs :
  (24 ≤ length toc)%nat →
  toc_loop (S todo) idx len toc cs =
  (_ ← ensure (negb (bytes_eqb (e_kind toc) SENTINEL)) (EarlySentinel idx);
   _ ← ensure (negb (existsb (λ c, bytes_eqb (kind c) (e_kind toc)) cs))
         (DuplicateChunk (e_kind toc));
   _ ← ensure (negb (len <? e_offset toc)) (OffsetPastEnd (e_offset toc));
   _ ← ensure (negb (len <? e_offset (drop 12 toc))) (OffsetPastEnd (e_offset (drop 12 toc)));
   _ ← ensure (negb (e_offset (drop 12 toc) <=? e_offset toc)) OffsetsNotIncrementing;
   toc_loop todo (idx + 1) len (drop 12 toc)
     (cs ++ [{| kind := e_kind toc; offset := (e_offset toc, e_offset (drop 12 toc)) |}])).
Proof.
  intros Hl. cbn [toc_loop]. assert (24 ≤ zlen toc) as Hz by (unfold zlen; lia).
  rewrite (split_at_in toc 4) by lia. cbn [expect mbind outcome_bind].
  change (Z.to_nat 4) with 4%nat. unfold to_kind.
  rewrite (get_range_0 (take 4 toc) 4) by (unfold zlen; rewrite length_take; lia).
  rewrite take_take. change (Z.to_nat 4 `min` 4)%nat with 4%nat. cbn [expect mbind outcome_bind].
  fold (e_kind toc).
  destruct (ensure (negb (bytes_eqb (e_kind toc) SENTINEL)) (EarlySentinel idx)) as [[]| |]; [|done..].
  cbn [mbind outcome_bind].
  destruct (ensure (negb (existsb _ cs)) _) as [[]| |]; [|done..]. cbn [mbind outcome_bind].
  rewrite be_u64_eq by (rewrite length_drop; lia). cbn [mbind outcome_bind]. fold (e_offset toc).
  destruct (ensure (negb (len <? e_offset toc)) _) as [[]| |]; [|done..]. cbn [mbind outcome_bind].
  change ENTRY_SIZE with 12. rewrite (get_from_in toc 12) by lia. cbn [expect mbind outcome_bind].
  change (Z.to_nat 12) with 12%nat.
  rewrite (get_from_in (drop 12 toc) 4) by (unfold zlen; rewrite length_drop; lia).
  cbn [expect mbind outcome_bind]. change (Z.to_nat 4) with 4%nat.
  rewrite be_u64_eq by (rewrite !length_drop; lia). done.
Qed.

(** ** The invariant of a decoded index *)

(** Consecutive entries: each range is within the file and ends where the next starts. *)
Fixpoint contiguous (data_len : Z) (cs : list Entry) : Prop :=
  match cs with
  | [] => True
  | c :: cs =>
      (offset c).1 < (offset c).2 ≤ data_len ∧ 0 ≤ (offset c).1 ∧
      match cs with [] => True | d :: _ => (offset c).2 = (offset d).1 end ∧
      contiguous data_len cs
  end.
Record chunks_ok (data_len : Z) (cs : list Entry) : Prop := {
  ok_contiguous : contiguous data_len cs;
  ok_kinds : NoDup (kind <$> cs);
  ok_no_sentinel : SENTINEL ∉ kind <$> cs;
}.

Lemma existsb_kind k cs :
  existsb (λ c, bytes_eqb (kind c) k) cs = bool_decide (k ∈ kind <$> cs).
Proof.
  induction cs as [|c cs IH]; [done|]. cbn [existsb]. rewrite IH, fmap_cons. unfold bytes_eqb.
  repeat case_bool_decide; try done; set_solver.
Qed.

Lemma contiguous_snoc len cs c :
  contiguous len cs → (offset c).1 < (offset c).2 ≤ len → 0 ≤ (offset c).1 →
  (∀ d, list.last cs = Some d → (offset d).2 = (offset c).1) → contiguous len (cs ++ [c]).
Proof.
  intros Hcs Hc H0 Hlast. induction cs as [|d cs IH]; [done|].
  destruct Hcs as (Hd & Hd0 & Hn & Hcs). rewrite <- app_comm_cons. split; [done|]. split; [done|].
  split.
  - destruct cs as [|e cs]; simpl; [by apply Hlast|done].
  - apply IH; [done|]. intros e He. apply Hlast. destruct cs; [done|]. exact He.
Qed.

Lemma chunks_ok_snoc len cs c :
  chunks_ok len cs → kind c ≠ SENTINEL → kind c ∉ kind <$> cs →
  (offset c).1 < (offset c).2 ≤ len → 0 ≤ (offset c).1 →
  (∀ d, list.last cs = Some d → (offset d).2 = (offset c).1) → chunks_ok len (cs ++ [c]).
Proof.
  intros [Hc Hk Hs] Hsent Hdup Hr H0 Hlast. split.
  - by apply contiguous_snoc.
  - rewrite fmap_app. apply list.NoDup_app. split; [done|]. split; [set_solver|apply list.NoDup_singleton].
  - rewrite fmap_app. set_solver.
Qed.

Lemma e_offset_nonneg toc : bytes_ok toc → 0 ≤ e_offset toc.
Proof.
  intros H. unfold e_offset. apply from_be_bound. by apply Forall_take, Forall_drop.
Qed.

(** The loop never panics on a table that is long enough, keeps the invariant,
    and ends right behind the entries. *)
Lemma toc_loop_ok todo idx len toc cs :
  bytes_ok toc → (12 * (todo + 1) ≤ length toc)%nat → chunks_ok len cs →
  (∀ d, list.last cs = Some d → (offset d).2 = e_offset toc) →
  match toc_loop todo idx len toc cs with
  | Panic => False
  | Err _ => True
  | Ok (cs', toc') => chunks_ok len cs' ∧ length cs' = (length cs + todo)%nat ∧
                      toc' = drop (12 * todo) toc
  end.
Proof.
  revert idx toc cs. induction todo as [|todo IH]; intros idx toc cs Hb Hl Hok Hlast.
  - cbn [toc_loop]. split; [done|]. split; [lia|done].
  - rewrite toc_loop_S by lia.
    destruct (bytes_eqb (e_kind toc) SENTINEL) eqn:Es; [done|]. cbn [negb ensure mbind outcome_bind].
    rewrite existsb_kind. case_bool_decide as Hdup; [done|]. cbn [negb ensure mbind outcome_bind].
    destruct (Z.ltb_spec len (e_offset toc)); [done|]. cbn [negb ensure mbind outcome_bind].
    destruct (Z.ltb_spec len (e_offset (drop 12 toc))); [done|]. cbn [negb ensure mbind outcome_bind].
    destruct (Z.leb_spec (e_offset (drop 12 toc)) (e_offset toc)); [done|].
    cbn [negb ensure mbind outcome_bind].
    set (c := {| kind := e_kind toc; offset := (e_offset toc, e_offset (drop 12 toc)) |}).
    assert (chunks_ok len (cs ++ [c])) as Hok'.
    { apply chunks_ok_snoc; [done| |done|cbn [c offset fst snd]; lia| |done].
      - by apply bool_decide_eq_false in Es.
      - by apply e_offset_nonneg. }
    pose proof (IH (idx + 1) (drop 12 toc) (cs ++ [c]) ltac:(by apply Forall_drop)
      ltac:(rewrite length_drop; lia) Hok') as IHc.
    specialize (IHc ltac:(intros d; rewrite last_snoc; by intros [= <-])).
    destruct (toc_loop todo (idx + 1) len (drop 12 toc) (cs ++ [c])) as [[cs' toc']| |]; try done.
    destruct IHc as (Hcs' & Hlen' & Htoc'). rewrite length_app in Hlen'. simpl in Hlen'.
    split; [done|]. split; [lia|]. rewrite Htoc', drop_drop. f_equal. lia.
Qed.

Lemma contiguous_in len cs c :
  contiguous len cs → c ∈ cs → 0 ≤ (offset c).1 < (offset c).2 ∧ (offset c).2 ≤ len.
Proof.
  induction cs as [|d cs IH]; intros Hcs Hc; [by apply elem_of_nil in Hc|].
  destruct Hcs as (Hd & H0 & _ & Hcs). apply elem_of_cons in Hc as [->|Hc]; [lia|auto].
Qed.

Lemma find_kind_Some k cs c :
  find (λ c, bytes_eqb (kind c) k) cs = Some c → c ∈ cs ∧ kind c = k.
Proof.
  intros H. apply find_some in H as [Hin Hk]. split; [by apply list_elem_of_In|].
  by apply bool_decide_eq_true in Hk.
Qed.
Lemma find_kind_None k cs :
  find (λ c, bytes_eqb (kind c) k) cs = None ↔ k ∉ kind <$> cs.
Proof.
  induction cs as [|c cs IH]; [simpl; set_solver|]. cbn [find]. rewrite fmap_cons.
  unfold bytes_eqb at 1. case_bool_decide; [set_solver|]. rewrite IH. set_solver.
Qed.
Lemma find_kind_in cs c :
  NoDup (kind <$> cs) → c ∈ cs → find (λ e, bytes_eqb (kind e) (kind c)) cs = Some c.
Proof.
  induction cs as [|d cs IH]; intros Hnd Hc; [by apply elem_of_nil in Hc|].
  rewrite fmap_cons in Hnd. apply list.NoDup_cons in Hnd as [Hd Hnd]. cbn [find]. unfold bytes_eqb at 1.
  apply elem_of_cons in Hc as [->|Hc]; [by rewrite bool_decide_eq_true_2|].
  rewrite bool_decide_eq_false_2; [by apply IH|]. intros He. apply Hd. rewrite He.
  by apply list_elem_of_fmap_2.
Qed.

Lemma data_by_id_in idx data c :
  zlen data < 2 ^ 64 → chunks_ok (zlen data) (chunks idx) → c ∈ chunks idx →
  data_by_id idx data (kind c) =
  Ok (take (Z.to_nat ((offset c).2 - (offset c).1)) (drop (Z.to_nat (offset c).1) data)).
Proof.
  intros Hlen [Hc Hk _] Hin. unfold data_by_id, offset_by_id.
  rewrite (find_kind_in _ c Hk Hin). cbn [fmap option_fmap option_map ok_or mbind outcome_bind].
  pose proof (contiguous_in _ _ _ Hc Hin) as Hr. unfold into_usize.
  rewrite !checked_in by lia. cbn [mbind option_bind ok_or outcome_bind fst snd].
  by rewrite get_range_in by lia.
Qed.

(** What decoding gives its clients. *)
Lemma from_bytes_ok (data : bytes) (toc_offset num : Z) :
  bytes_ok data → 0 ≤ toc_offset ≤ zlen data → 0 ≤ num →
  safe (from_bytes data toc_offset num)
    (λ idx, chunks_ok (zlen data) (chunks idx) ∧ num_chunks idx = num ∧ 0 < num).
Proof.
  intros Hb Htoc Hpos. unfold from_bytes. apply safe_ensure. intros Hnum%negb_true_iff%Z.eqb_neq.
  rewrite get_from_in by done. cbn [expect mbind outcome_bind].
  set (toc := drop (Z.to_nat toc_offset) data).
  apply safe_ensure. intros Hsize%negb_true_iff%Z.ltb_ge. unfold ENTRY_SIZE in Hsize.
  pose proof (toc_loop_ok (Z.to_nat num) 0 (zlen data) toc [] ltac:(by apply Forall_drop)) as Hloop.
  specialize (Hloop ltac:(unfold zlen in Hsize; lia)).
  specialize (Hloop ltac:(split; [done|constructor|set_solver]) ltac:(done)).
  destruct (toc_loop (Z.to_nat num) 0 (zlen data) toc []) as [[cs toc']| |]; [|done|done].
  destruct Hloop as (Hok & Hcs & ->). cbn [mbind outcome_bind]. unfold to_kind.
  rewrite (get_range_0 _ 4) by (unfold zlen in *; rewrite length_drop; lia).
  cbn [expect mbind outcome_bind]. apply safe_ensure. intros _. cbn [safe chunks].
  split; [done|]. unfold num_chunks, zlen. cbn [chunks]. simpl in Hcs. lia.
Qed.

(** The range of a chunk, if there is one, lies in the file. *)
Lemma validated_offset_ok {T} idx k (validate : Z * Z → T) len :
  chunks_ok len (chunks idx) → len < 2 ^ 64 →
  match validated_usize_offset_by_id idx k validate with
  | Ok x => ∃ r, x = validate r ∧ 0 ≤ r.1 < r.2 ∧ r.2 ≤ len
  | Err _ => True
  | Panic => False
  end.
Proof.
  intros Hok Hlen. unfold validated_usize_offset_by_id. destruct (find _ _) as [c|] eqn:Hf; [|done].
  apply find_kind_Some in Hf as [Hc _]. pose proof (contiguous_in _ _ _ (ok_contiguous _ _ Hok) Hc) as Hr.
  unfold into_usize_or_panic, into_usize. rewrite !checked_in by lia. cbn.
  exists (offset c). split; [by destruct (offset c)|lia].
Qed.
Lemma highest_offset_ok idx len :
  chunks_ok len (chunks idx) → 0 < num_chunks idx → ∃ o, highest_offset idx = Ok o ∧ 0 ≤ o ≤ len.
Proof.
  intros Hok Hn. unfold highest_offset. destruct (list.last (chunks idx)) as [c|] eqn:Hl.
  - cbn. eexists. split; [done|]. apply list.last_Some in Hl as [l Hl].
    pose proof (contiguous_in len (chunks idx) c (ok_contiguous _ _ Hok) ltac:(rewrite Hl; set_solver)). lia.
  - apply last_None in Hl. unfold num_chunks in Hn. rewrite Hl in Hn. done.
Qed.

(** C20: on any bytes, decoding a table of contents that starts within the file
    fails with an error or yields exactly the announced number of chunks, with
    distinct kinds and non-empty ranges inside the file, each ending where the
    next one starts; no access to the chunks by kind panics afterwards, and the
    data of a chunk is the slice of its range. *)
Theorem chunk_decode_safe (data : bytes) (toc_offset num : Z)
    (Hb : bytes_ok data) (Hlen : zlen data < 2 ^ 64) (Htoc : 0 ≤ toc_offset ≤ zlen data)
    (Hnum : 0 ≤ num < 2 ^ 32) :
  from_bytes data toc_offset num ≠ Panic ∧
  ∀ idx, from_bytes data toc_offset num = Ok idx →
    chunks_ok (zlen data) (chunks idx) ∧ num_chunks idx = num ∧
    highest_offset idx ≠ Panic ∧
    (∀ c, c ∈ chunks idx →
       data_by_id idx data (kind c) =
       Ok (take (Z.to_nat ((offset c).2 - (offset c).1)) (drop (Z.to_nat (offset c).1) data))) ∧
    (∀ k, data_by_id idx data k ≠ Panic ∧ usize_offset_by_id idx k ≠ Panic).
Proof.
  pose proof (from_bytes_ok data toc_offset num Hb Htoc ltac:(lia)) as Hsafe. apply safe_iff in Hsafe as [Hp Hok].
  split; [done|]. intros idx Hidx. destruct (Hok idx Hidx) as (Hcs & Hn & Hpos).
  split; [done|]. split; [done|]. split.
  { destruct (highest_offset_ok idx (zlen data) Hcs) as (o & -> & _); [lia|done]. }
  assert (∀ c, c ∈ chunks idx → data_by_id idx data (kind c) =
       Ok (take (Z.to_nat ((offset c).2 - (offset c).1)) (drop (Z.to_nat (offset c).1) data)))
    as Hdata by (intros c Hc; by apply data_by_id_in).
  split; [done|]. intros k.
  destruct (find (λ c, bytes_eqb (kind c) k) (chunks idx)) as [c|] eqn:Hf.
  - apply find_kind_Some in Hf as Hc. destruct Hc as [Hc <-]. split; [by rewrite Hdata|].
    unfold usize_offset_by_id. rewrite Hf.
    pose proof (contiguous_in _ _ _ (ok_contiguous _ _ Hcs) Hc).
    unfold into_usize_or_panic, into_usize. rewrite !checked_in by lia. done.
  - unfold data_by_id, offset_by_id, usize_offset_by_id. by rewrite Hf.
Qed.

(** ** A client that writes a file of chunks *)
Fixpoint plan_all {E} (contents : list (bytes * bytes)) (idx : Index) : outcome E Index :=
  match contents with
  | [] => Ok idx
  | (k, d) :: contents => idx ← plan_chunk k (zlen d) idx; plan_all contents idx
  end.
(** Write each chunk when the writer asks for it, until it asks for no more. *)
Fixpoint write_chunks {E} (contents : list (bytes * bytes)) (c : Chunk) : outcome E bytes :=
  '(k, c) ← next_chunk c;
  match contents, k with
  | [], None => Ok (inner c)
  | (k', d) :: contents, Some k =>
      _ ← assert_that (bytes_eqb k k');
      c ← chunk_write d c;
      write_chunks contents c
  | _, _ => Panic
  end.
Definition write_file {E} (out : bytes) (contents : list (bytes * bytes)) : outcome E bytes :=
  idx ← plan_all contents for_writing;
  c ← into_write idx out (zlen out);
  write_chunks contents c.

(** ** Lemmas: writing and reading back *)
Definition total (contents : list (bytes * bytes)) : Z := zlen (concat (snd <$> contents)).
Definition planned (contents : list (bytes * bytes)) : list Entry :=
  (λ '(k, d), {| kind := k; offset := (0, zlen d) |}) <$> contents.
Fixpoint toc_bytes (start : Z) (contents : list (bytes * bytes)) : bytes :=
  match contents with
  | [] => []
  | (k, d) :: contents => k ++ to_be 8 start ++ toc_bytes (start + zlen d) contents
  end.
Fixpoint placed (start : Z) (contents : list (bytes * bytes)) : list Entry :=
  match contents with
  | [] => []
  | (k, d) :: contents =>
      {| kind := k; offset := (start, start + zlen d) |} :: placed (start + zlen d) contents
  end.
Definition full_toc (start : Z) (contents : list (bytes * bytes)) : bytes :=
  toc_bytes start contents ++ to_be 4 0 ++ to_be 8 (start + total contents).

Lemma total_cons k d contents : total ((k, d) :: contents) = zlen d + total contents.
Proof. unfold total. rewrite fmap_cons, concat_cons, zlen_app. done. Qed.
Lemma total_nonneg contents : 0 ≤ total contents.
Proof. apply zlen_nonneg. Qed.

Lemma plan_all_eq {E} contents cs :
  NoDup ((kind <$> cs) ++ (fst <$> contents)) →
  plan_all (E := E) contents {| will_write := true; chunks := cs |} =
  Ok {| will_write := true; chunks := cs ++ planned contents |}.
Proof.
  revert cs. induction contents as [|[k d] contents IH]; intros cs Hnd.
  - cbn. by rewrite app_nil_r.
  - cbn [plan_all plan_chunk will_write chunks assert_that mbind outcome_bind].
    rewrite existsb_kind, bool_decide_eq_false_2.
    2:{ rewrite fmap_cons in Hnd. apply list.NoDup_app in Hnd as (_ & Hx & _).
        intros Hk. apply (Hx k Hk). by left. }
    cbn [negb assert_that mbind outcome_bind]. rewrite IH.
    + by rewrite <- app_assoc.
    + rewrite fmap_app. cbn [fmap list_fmap kind]. by rewrite <- app_assoc.
Qed.

Lemma write_toc_eq {E} contents start :
  0 ≤ start → start + total contents < 2 ^ 64 →
  write_toc (E := E) (planned contents) start =
  Ok (toc_bytes start contents, start + total contents).
Proof.
  revert start. induction contents as [|[k d] contents IH]; intros start H0 Hmax.
  - cbn. unfold total. cbn. do 2 f_equal. unfold zlen. simpl. lia.
  - rewrite total_cons in *. pose proof (zlen_nonneg d). pose proof (total_nonneg contents).
    cbn [planned fmap list_fmap write_toc offset snd kind]. unfold op_add.
    rewrite checked_add_in by lia. cbn [expect mbind outcome_bind].
    fold (planned contents). rewrite IH by lia. cbn. do 2 f_equal. lia.
Qed.

Lemma write_chunks_eq {E} contents c :
  match next_entry c with Some e => (offset e).2 = written_bytes c | None => True end →
  chunks_to_write c = planned contents → total contents < 2 ^ 64 →
  write_chunks (E := E) contents c = Ok (inner c ++ concat (snd <$> contents)).
Proof.
  revert c. induction contents as [|[k d] contents IH]; intros c Hn Hc Hmax.
  - cbn [write_chunks]. unfold next_chunk. rewrite Hc.
    destruct (next_entry c) as [e|]; [rewrite Hn, Z.eqb_refl|];
      cbn; by rewrite app_nil_r.
  - rewrite total_cons in Hmax. pose proof (zlen_nonneg d). pose proof (total_nonneg contents).
    cbn [write_chunks]. unfold next_chunk. rewrite Hc.
    assert ((match next_entry c with
       | Some entry => assert_that ((offset entry).2 =? written_bytes c)
       | None => Ok () end) = Ok (E := E) ()) as ->.
    { destruct (next_entry c) as [e|]; [by rewrite Hn, Z.eqb_refl|done]. }
    cbn [mbind outcome_bind planned fmap list_fmap kind].
    unfold bytes_eqb. rewrite bool_decide_eq_true_2 by done.
    cbn [assert_that mbind outcome_bind]. unfold chunk_write, op_add. cbn [written_bytes].
    rewrite checked_add_in by lia. cbn [expect mbind outcome_bind].
    rewrite IH; [|by simpl|done|lia]. cbn [inner]. by rewrite <- app_assoc.
Qed.

Lemma write_file_eq {E} out contents :
  NoDup (fst <$> contents) →
  zlen out + size_for_entries (zlen contents) + total contents < 2 ^ 64 →
  write_file (E := E) out contents =
  Ok (out ++ full_toc (zlen out + size_for_entries (zlen contents)) contents
          ++ concat (snd <$> contents)).
Proof.
  intros Hnd Hmax. unfold write_file, for_writing. rewrite plan_all_eq by done.
  cbn [mbind outcome_bind]. rewrite app_nil_l. unfold into_write, num_chunks, op_add.
  cbn [will_write chunks assert_that mbind outcome_bind].
  assert (zlen (planned contents) = zlen contents) as ->
    by (unfold zlen, planned; by rewrite length_fmap).
  pose proof (zlen_nonneg out). pose proof (total_nonneg contents).
  assert (0 ≤ size_for_entries (zlen contents)).
  { unfold size_for_entries, ENTRY_SIZE. pose proof (zlen_nonneg contents). lia. }
  rewrite checked_add_in by lia. cbn [expect mbind outcome_bind].
  rewrite write_toc_eq by lia. cbn [mbind outcome_bind].
  rewrite write_chunks_eq; [|done|done|lia]. cbn [inner]. unfold full_toc.
  by rewrite <- !app_assoc.
Qed.

(** The chunks a client may write: four-byte kinds, no sentinel, no empty chunk. *)
Definition content_ok (e : bytes * bytes) : Prop :=
  length e.1 = 4%nat ∧ e.1 ≠ SENTINEL ∧ 0 < zlen e.2.

Lemma e_offset_app k x r :
  length k = 4%nat → 0 ≤ x < 2 ^ 64 → e_offset (k ++ to_be 8 x ++ r) = x.
Proof.
  intros Hk Hx. unfold e_offset. pose proof (drop_app_length k (to_be 8 x ++ r)) as Hd.
  rewrite Hk in Hd. rewrite Hd.
  rewrite (take_app_le _ r) by (rewrite length_to_be; lia).
  rewrite take_ge by (rewrite length_to_be; lia). apply from_to_be. exact Hx.
Qed.

Lemma full_toc_offset start contents r :
  Forall content_ok contents → 0 ≤ start → start + total contents < 2 ^ 64 →
  e_offset (full_toc start contents ++ r) = start.
Proof.
  intros Hc H0 Hmax. unfold full_toc. destruct contents as [|[k d] contents].
  - cbn [toc_bytes app]. change (total []) with 0 in *. rewrite Z.add_0_r in *.
    rewrite <- app_assoc. by apply e_offset_app.
  - rewrite total_cons in *. pose proof (zlen_nonneg d). pose proof (total_nonneg contents).
    apply Forall_cons_1 in Hc as [(Hk & _ & _) _]. simpl in Hk. cbn [toc_bytes].
    rewrite <- !app_assoc. apply e_offset_app; [done|lia].
Qed.

Lemma length_full_toc start contents :
  Forall content_ok contents → length (full_toc start contents) = (12 * (length contents + 1))%nat.
Proof.
  unfold full_toc. rewrite !length_app, !length_to_be. intros Hc. revert start.
  induction Hc as [|[k d] contents (Hk & _) _ IH]; intros start; [done|].
  cbn [toc_bytes]. simpl in Hk. rewrite !length_app, length_to_be, Hk.
  specialize (IH (start + zlen d)). simpl length. lia.
Qed.

Lemma toc_loop_placed contents idx len start cs r :
  Forall content_ok contents → NoDup ((kind <$> cs) ++ (fst <$> contents)) → 0 ≤ start →
  start + total contents ≤ len → len < 2 ^ 64 →
  toc_loop (length contents) idx len (full_toc start contents ++ r) cs =
  Ok (cs ++ placed start contents, full_toc (start + total contents) [] ++ r).
Proof.
  intros Hc. revert idx start cs. induction Hc as [|[k d] contents He Hc IH];
    intros idx start cs Hnd H0 Hlen H64.
  - cbn [length toc_loop placed]. change (total []) with 0. by rewrite app_nil_r, Z.add_0_r.
  - rewrite total_cons in *. pose proof (zlen_nonneg d). pose proof (total_nonneg contents).
    pose proof He as (Hk & Hs & Hd). simpl in Hk, Hs, Hd.
    cbn [length]. rewrite toc_loop_S.
    2:{ rewrite length_app, length_full_toc by (by constructor). simpl. lia. }
    assert (e_kind (full_toc start ((k, d) :: contents) ++ r) = k) as ->.
    { unfold e_kind, full_toc. cbn [toc_bytes]. rewrite <- !app_assoc, <- Hk.
      apply take_app_length. }
    rewrite full_toc_offset by (by constructor || (rewrite ?total_cons; lia)).
    assert (drop 12 (full_toc start ((k, d) :: contents) ++ r) =
            full_toc (start + zlen d) contents ++ r) as ->.
    { unfold full_toc. cbn [toc_bytes]. rewrite total_cons, <- !app_assoc.
      replace 12%nat with (length k + length (to_be 8 start))%nat
        by (rewrite length_to_be; lia).
      rewrite <- drop_drop, !drop_app_length. do 4 f_equal. lia. }
    rewrite full_toc_offset by (done || lia).
    assert (bytes_eqb k SENTINEL = false) as -> by (by apply bool_decide_eq_false_2).
    cbn [negb ensure mbind outcome_bind].
    rewrite existsb_kind, bool_decide_eq_false_2.
    2:{ rewrite fmap_cons in Hnd. apply list.NoDup_app in Hnd as (_ & Hx & _).
        intros Hin. apply (Hx k Hin). by left. }
    cbn [negb ensure mbind outcome_bind].
    destruct (Z.ltb_spec len start); [lia|]. cbn [negb ensure mbind outcome_bind].
    destruct (Z.ltb_spec len (start + zlen d)); [lia|]. cbn [negb ensure mbind outcome_bind].
    destruct (Z.leb_spec (start + zlen d) start); [lia|]. cbn [negb ensure mbind outcome_bind].
    rewrite IH; [|by rewrite fmap_app, <- app_assoc|lia|lia|done].
    cbn [placed]. rewrite <- app_assoc, Z.add_assoc. done.
Qed.

Lemma placed_app start l1 l2 :
  placed start (l1 ++ l2) = placed start l1 ++ placed (start + total l1) l2.
Proof.
  revert start. induction l1 as [|[k d] l1 IH]; intros start.
  - unfold total. cbn. change (zlen []) with 0. by rewrite Z.add_0_r.
  - cbn [app placed]. by rewrite IH, total_cons, Z.add_assoc.
Qed.
Lemma placed_kinds start contents : kind <$> placed start contents = fst <$> contents.
Proof.
  revert start. induction contents as [|[k d] contents IH]; intros start; [done|].
  cbn [placed fmap list_fmap kind fst]. f_equal. apply IH.
Qed.

(** A file of chunks with something before and after it. *)
Section PlacedFile.
Context (prefix trailer : bytes) (contents : list (bytes * bytes)).
Context (Hc : Forall content_ok contents) (Hnd : NoDup (fst <$> contents)) (Hn : 0 < zlen contents).
Definition chunks_start : Z := zlen prefix + size_for_entries (zlen contents).
Definition placed_file : bytes :=
  prefix ++ full_toc chunks_start contents ++ concat (snd <$> contents) ++ trailer.
Definition placed_index : Index := {| will_write := false; chunks := placed chunks_start contents |}.
Context (Hmax : chunks_start + total contents < 2 ^ 64) (Hmax' : zlen placed_file < 2 ^ 64).

Lemma chunks_start_nonneg : zlen prefix + 12 ≤ chunks_start.
Proof using. clear Hn Hmax. unfold chunks_start, size_for_entries, ENTRY_SIZE. pose proof (zlen_nonneg contents). lia. Qed.

Lemma zlen_placed_file : zlen placed_file = chunks_start + total contents + zlen trailer.
Proof using Hc.
  pose proof (length_full_toc chunks_start contents Hc) as Htl.
  unfold placed_file, chunks_start in *. rewrite !zlen_app.
  unfold size_for_entries, ENTRY_SIZE, total, zlen in *. lia.
Qed.

Lemma from_bytes_placed : from_bytes placed_file (zlen prefix) (zlen contents) = Ok placed_index.
Proof using Hc Hnd Hn Hmax'.
  pose proof zlen_placed_file as Hout. pose proof chunks_start_nonneg as Hst.
  pose proof (length_full_toc chunks_start contents Hc) as Htl.
  pose proof (zlen_nonneg prefix). pose proof (total_nonneg contents). pose proof (zlen_nonneg trailer).
  unfold from_bytes. destruct (Z.eqb_spec (zlen contents) 0); [lia|].
  cbn [negb ensure mbind outcome_bind]. rewrite get_from_in by lia. cbn [expect mbind outcome_bind].
  assert (drop (Z.to_nat (zlen prefix)) placed_file =
          full_toc chunks_start contents ++ concat (snd <$> contents) ++ trailer)
    as -> by (unfold placed_file, zlen; rewrite Nat2Z.id; apply drop_app_length).
  set (rest := concat (snd <$> contents) ++ trailer).
  destruct (Z.ltb_spec (zlen (full_toc chunks_start contents ++ rest)) ((zlen contents + 1) * ENTRY_SIZE)) as [Hlt|_].
  { rewrite zlen_app in Hlt. unfold ENTRY_SIZE, zlen in Hlt. lia. }
  cbn [negb ensure mbind outcome_bind].
  replace (Z.to_nat (zlen contents)) with (length contents) by (unfold zlen; lia).
  rewrite toc_loop_placed; [|done|done|lia|lia|lia].
  cbn [mbind outcome_bind app]. unfold full_toc. cbn [toc_bytes app]. unfold to_kind.
  rewrite (get_range_0 _ 4) by (rewrite !zlen_app, !zlen_to_be; pose proof (zlen_nonneg rest); lia).
  rewrite <- !app_assoc. change (Z.to_nat 4) with (length (to_be 4 0)).
  by rewrite take_app_length.
Qed.

(** A chunk is found where it was placed, with its content. *)
Lemma find_placed k d l1 l2 :
  contents = l1 ++ (k, d) :: l2 →
  find (λ c, bytes_eqb (kind c) k) (chunks placed_index) =
  Some {| kind := k; offset := (chunks_start + total l1, chunks_start + total l1 + zlen d) |}.
Proof using Hnd.
  intros Hl. set (c := {| kind := k; offset := _ |}). change k with (kind c).
  apply find_kind_in; cbn [chunks placed_index]; [by rewrite placed_kinds|].
  rewrite Hl, placed_app. apply elem_of_app. right. by left.
Qed.
Lemma placed_slice k d l1 l2 :
  contents = l1 ++ (k, d) :: l2 →
  get_range placed_file (chunks_start + total l1) (chunks_start + total l1 + zlen d) = Some d ∧
  0 ≤ chunks_start + total l1 ∧ chunks_start + total l1 + zlen d ≤ chunks_start + total contents.
Proof using Hc.
  intros Hl. pose proof chunks_start_nonneg as Hst. pose proof (zlen_nonneg prefix).
  assert (total contents = total l1 + zlen d + total l2) as Htot.
  { rewrite Hl. unfold total. rewrite fmap_app, concat_app, zlen_app, fmap_cons, concat_cons, zlen_app.
    cbn [snd]. lia. }
  pose proof (total_nonneg l1). pose proof (total_nonneg l2). split; [|lia].
  pose proof (length_full_toc chunks_start contents Hc) as Htl.
  assert (placed_file = (prefix ++ full_toc chunks_start contents ++ concat (snd <$> l1)) ++ d ++
                        (concat (snd <$> l2) ++ trailer)) as ->.
  { unfold placed_file. rewrite Hl at 2. rewrite fmap_app, concat_app, fmap_cons, concat_cons.
    by rewrite <- !app_assoc. }
  assert (zlen (prefix ++ full_toc chunks_start contents ++ concat (snd <$> l1)) = chunks_start + total l1) as Hz.
  { rewrite !zlen_app. unfold chunks_start in *. unfold size_for_entries, ENTRY_SIZE, total, zlen in *. lia. }
  by apply get_range_app; rewrite Hz.
Qed.

Lemma data_by_id_placed k d : (k, d) ∈ contents → data_by_id placed_index placed_file k = Ok d.
Proof using Hc Hnd Hmax.
  intros Hin. apply list_elem_of_split in Hin as (l1 & l2 & Hl).
  unfold data_by_id, offset_by_id. rewrite (find_placed _ _ _ _ Hl).
  cbn [fmap option_fmap option_map ok_or mbind outcome_bind offset]. unfold into_usize.
  destruct (placed_slice _ _ _ _ Hl) as (Hg & H0 & H1). pose proof (zlen_nonneg d).
  cbn [fst snd]. rewrite !checked_in by lia. cbn [mbind option_bind ok_or outcome_bind fst snd].
  by rewrite Hg.
Qed.
Lemma data_by_id_not_placed k :
  k ∉ fst <$> contents → data_by_id placed_index placed_file k = Err (ChunkNotFound k).
Proof using.
  intros Hk. unfold data_by_id, offset_by_id. cbn [chunks placed_index].
  rewrite (proj2 (find_kind_None k (placed chunks_start contents))); [done|]. by rewrite placed_kinds.
Qed.
(** The validated range of a chunk. *)
Lemma validated_placed {T} k d (validate : Z * Z → T) :
  (k, d) ∈ contents →
  ∃ start, validated_usize_offset_by_id placed_index k validate = Ok (validate (start, start + zlen d)) ∧
    get_range placed_file start (start + zlen d) = Some d ∧ 0 ≤ start.
Proof using Hc Hnd Hmax.
  intros Hin. apply list_elem_of_split in Hin as (l1 & l2 & Hl).
  destruct (placed_slice _ _ _ _ Hl) as (Hg & H0 & H1). pose proof (zlen_nonneg d).
  exists (chunks_start + total l1). split; [|done].
  unfold validated_usize_offset_by_id. rewrite (find_placed _ _ _ _ Hl).
  unfold into_usize_or_panic, into_usize. cbn [offset fst snd]. by rewrite !checked_in by lia.
Qed.
Lemma validated_not_placed {T} k (validate : Z * Z → T) :
  k ∉ fst <$> contents → validated_usize_offset_by_id placed_index k validate = Err (ChunkNotFound k).
Proof using.
  intros Hk. unfold validated_usize_offset_by_id. cbn [chunks placed_index].
  rewrite (proj2 (find_kind_None k (placed chunks_start contents))); [done|]. by rewrite placed_kinds.
Qed.
Lemma highest_placed : highest_offset placed_index = Ok (chunks_start + total contents).
Proof using Hn.
  destruct (list.last contents) as [[k d]|] eqn:Hlast.
  2:{ apply last_None in Hlast. rewrite Hlast in Hn. done. }
  apply list.last_Some in Hlast as [l Hl]. unfold highest_offset. cbn [chunks placed_index].
  generalize chunks_start as start. intros start. rewrite Hl, placed_app. cbn [placed].
  rewrite last_snoc. cbn [expect mbind outcome_bind offset snd]. f_equal.
  unfold total. rewrite fmap_app, concat_app, zlen_app. cbn. rewrite app_nil_r. lia.
Qed.
End PlacedFile.

(** A file of chunks written by planning them, [into_write()] and the
    [Chunk] writer, appended to whatever was written before, passes all the
    writer's assertions; decoding its table of contents succeeds, and each
    chunk's data is found by its kind, while other kinds are reported missing. *)
Theorem chunk_file_roundtrip (prefix : bytes) (contents : list (bytes * bytes))
    (Hc : Forall content_ok contents) (Hnd : NoDup (fst <$> contents))
    (Hn : 0 < zlen contents < 2 ^ 32)
    (Hmax : zlen prefix + size_for_entries (zlen contents) + total contents < 2 ^ 64) :
  ∃ out idx, write_file prefix contents = Ok (E := chunk_error) out ∧
    take (length prefix) out = prefix ∧
    from_bytes out (zlen prefix) (zlen contents) = Ok idx ∧
    (∀ k d, (k, d) ∈ contents → data_by_id idx out k = Ok d) ∧
    (∀ k, k ∉ fst <$> contents → data_by_id idx out k = Err (ChunkNotFound k)).
Proof.
  exists (placed_file prefix [] contents), (placed_index prefix contents).
  pose proof (zlen_placed_file prefix [] contents Hc) as Hz. rewrite zlen_nil, Z.add_0_r in Hz.
  split; [|split; [apply take_app_length|split; [|split]]].
  - rewrite write_file_eq by done. unfold placed_file. by rewrite app_nil_r.
  - apply from_bytes_placed; [done|done|lia|]. by rewrite Hz.
  - intros k d. by apply data_by_id_placed.
  - intros k. apply data_by_id_not_placed.
Qed.

(** ** Witnesses *)
Definition sample_contents : list (bytes * bytes) :=
  [([79; 73; 68; 70], [1; 2; 3]); ([68; 65; 84; 65], [9])].
Definition sample_file : bytes :=
  match write_file (E := chunk_error) [7; 7] sample_contents with Ok out => out | _ => [] end.

Lemma chunk_file_roundtrip_witness :
  ∃ out idx, write_file [7; 7] sample_contents = Ok (E := chunk_error) out ∧
    take (length [7; 7]) out = [7; 7] ∧
    from_bytes out (zlen [7; 7]) (zlen sample_contents) = Ok idx ∧
    (∀ k d, (k, d) ∈ sample_contents → data_by_id idx out k = Ok d) ∧
    (∀ k, k ∉ fst <$> sample_contents → data_by_id idx out k = Err (ChunkNotFound k)).
Proof.
  apply (chunk_file_roundtrip [7; 7] sample_contents).
  - repeat constructor; discriminate.
  - apply (bool_decide_unpack _). vm_compute. exact I.
  - vm_compute. split; reflexivity.
  - vm_compute. reflexivity.
Defined.

Lemma chunk_decode_safe_witness :
  from_bytes sample_file 2 2 ≠ Panic ∧
  ∀ idx, from_bytes sample_file 2 2 = Ok idx →
    chunks_ok (zlen sample_file) (chunks idx) ∧ num_chunks idx = 2 ∧
    highest_offset idx ≠ Panic ∧
    (∀ c, c ∈ chunks idx →
       data_by_id idx sample_file (kind c) =
       Ok (take (Z.to_nat ((offset c).2 - (offset c).1)) (drop (Z.to_nat (offset c).1) sample_file)))
    ∧ (∀ k, data_by_id idx sample_file k ≠ Panic ∧ usize_offset_by_id idx k ≠ Panic).
Proof.
  apply (chunk_decode_safe sample_file 2 2).
  - apply bytes_ok_bool. vm_compute. reflexivity.
  - vm_compute. reflexivity.
  - vm_compute. split; discriminate.
  - lia.
Defined.
