(* ===== verification/MultiIndex.v ===== *)
(** * [gix-pack/src/multi_index]: multi-pack indices

    [File] is [multi_index::File]: [from_data] validates the bytes of a file over the table
    of contents of [Chunk], the accessors read its chunks with slice operations that panic
    when they are out of range, and the lookups are those of [FanLookup].
    [write_from_index_paths] opens the pack indices of [PackIndex], merges their entries and
    writes them as a file of chunks; [verify_integrity_fast] compares an opened file with the
    indices it names.

    A [PathBuf] is the list of its components on Unix, which is what its equality and order
    look at. The file system is a parameter: the content of the file at a path and its
    modification time. [should_interrupt] is a parameter as well, the value of each load in
    turn, and so is the hasher, a wrapper of third-party code. Allocation does not fail.
    Positions are below 2^32, so index arithmetic is plain [Z] arithmetic on [usize]. *)

From stdpp Require Import sets sorting.
From S2P Require Import Prelude Slices Hash FanLookup Chunk PackIndex.

(** ** [std::path] on Unix *)
Inductive Component :=
| RootDir
| CurDir
| ParentDir
| Normal (name : bytes).
#[export] Instance Component_eq_dec : EqDecision Component.
Proof. solve_decision. Defined.
Definition path : Type := list Component.

Definition SEP : Z := 47.
Fixpoint split_sep (l : bytes) : list bytes :=
  match l with
  | [] => [[]]
  | b :: l =>
      if b =? SEP then [] :: split_sep l
      else match split_sep l with [] => [[b]] | p :: ps => (b :: p) :: ps end
  end.
(** Empty pieces and all dots but a leading one are dropped. *)
Definition component_of (leading : bool) (piece : bytes) : option Component :=
  if bytes_eqb piece [] then None
  else if bytes_eqb piece [46] then if leading then Some CurDir else None
  else if bytes_eqb piece [46; 46] then Some ParentDir
  else Some (Normal piece).
Definition path_from (l : bytes) : path :=
  match split_sep l with
  | [] => []
  | first :: rest =>
      let first := if bytes_eqb first [] then (if bytes_eqb l [] then None else Some RootDir)
                   else component_of true first in
      option_list first ++ omap (component_of false) rest
  end.
Definition component_rank (c : Component) : Z :=
  match c with RootDir => 1 | CurDir => 2 | ParentDir => 3 | Normal _ => 4 end.
Definition component_cmp (a b : Component) : comparison :=
  match a, b with
  | Normal x, Normal y => bytes_cmp x y
  | _, _ => component_rank a ?= component_rank b
  end.
Fixpoint path_cmp (a b : path) : comparison :=
  match a, b with
  | [], [] => Eq
  | [], _ :: _ => Lt
  | _ :: _, [] => Gt
  | x :: a, y :: b => match component_cmp x y with Eq => path_cmp a b | c => c end
  end.
Definition file_name (p : path) : option bytes :=
  match list.last p with Some (Normal name) => Some name | _ => None end.
Definition parent (p : path) : option path :=
  match list.last p with None | Some RootDir => None | Some _ => Some (removelast p) end.
Definition join (dir name : path) : path :=
  match name, dir with
  | RootDir :: _, _ => name
  | CurDir :: rest, _ :: _ => dir ++ rest
  | _, _ => dir ++ name
  end.

(** ** [mod.rs], [write.rs]: constants and data *)
Definition SIGNATURE : bytes := [77; 73; 68; 88].
Definition HEADER_LEN : Z := 4 + 1 + 1 + 1 + 1 + 4.
Definition INDEX_NAMES_ID : bytes := [80; 78; 65; 77].
Definition FANOUT_ID : bytes := [79; 73; 68; 70].
Definition LOOKUP_ID : bytes := [79; 73; 68; 76].
Definition OFFSETS_ID : bytes := [79; 79; 70; 70].
Definition LARGE_OFFSETS_ID : bytes := [76; 79; 70; 70].
Definition FANOUT_SIZE : Z := 4 * 256.
Definition CHUNK_ALIGNMENT : Z := 4.
(** [size_of::<PathBuf>()] *)
Definition PATHBUF_SIZE : Z := 24.

Inductive mi_error :=
| Truncated
| InvalidSignature
| UnsupportedVersion (v : Z)
| UnsupportedHash (v : Z)
| BadChunkTable (e : chunk_error)
| MissingChunk (k : bytes)
| TooManyNames
| NamesTooLarge
| NameTooLarge
| NameNotTerminated
| NamesNotOrdered
| BytesAfterNames
| BadFanSize
| FanNotIncreasing
| BadChunkSize (k : bytes)
| BadTrailer
| IndexOutOfBounds
| PackIndexOutOfBounds
| LargeOffsetOutOfBounds
| CannotOpen (p : path)
| BadIndex (e : index_error)
| Interrupted
| HashFailed
| IoFailed
| NoParentDirectory
| ChecksumMismatch
| FanOutOfOrder (i : Z)
| NoObjects
| IdOutOfOrder (i : Z)
| NotFoundInIndex (id : bytes)
| WrongPackOffset (id : bytes) (expected actual : Z).

Record File := {
  data : bytes;
  file_path : path;
  hash_len : Z;
  object_hash : Kind;
  num_indices : Z;
  num_objects : Z;
  alloc_limit_bytes : option Z;
  fan : list Z;
  index_names : list path;
  lookup_ofs : Z;
  offsets_ofs : Z;
  large_offsets : option (Z * Z);
}.

(** ** [chunk.rs] *)
Definition exceeds (limit : option Z) (n : Z) : bool :=
  match limit with Some limit => limit <? n | None => false end.

(** The loop over the names that are left to read. *)
Fixpoint read_names (todo : nat) (chunk : bytes) (limit : option Z) (out : list path)
    : outcome mi_error (list path * bytes) :=
  match todo with
  | O => Ok (out, chunk)
  | S todo =>
      null_byte_pos ← ok_or NameNotTerminated (position (λ b, b =? 0) chunk);
      name ← expect (get_range chunk 0 null_byte_pos);
      _ ← ensure (negb (exceeds limit (zlen name))) NameTooLarge;
      let p := path_from name in
      _ ← ensure (match list.last out with
                  | Some previous => bool_decide (path_cmp previous p = Lt)
                  | None => true
                  end) NamesNotOrdered;
      chunk ← expect (get_from chunk (null_byte_pos + 1));
      read_names todo chunk limit (out ++ [p])
  end.
Definition index_names_from_bytes (chunk : bytes) (num_packs : Z) (limit : option Z)
    : outcome mi_error (list path) :=
  _ ← ensure (negb (zlen chunk <? num_packs)) TooManyNames;
  vec_allocation ← ok_or NamesTooLarge (checked_mul 64 num_packs PATHBUF_SIZE);
  _ ← ensure (negb (exceeds limit vec_allocation)) NamesTooLarge;
  '(out, chunk) ← read_names (Z.to_nat num_packs) chunk limit [];
  _ ← ensure (bool_decide (chunk = []) || forallb (λ b, b =? 0) chunk) BytesAfterNames;
  Ok out.

Definition fanout_from_bytes (chunk : bytes) : option (list Z) :=
  if zlen chunk =? FANOUT_SIZE then Some (from_be <$> Prelude.chunks 4 chunk) else None.

Definition saturating_mul (a b : Z) : Z := Z.min (a * b) (2 ^ 64 - 1).
Definition range_len (r : Z * Z) : Z := r.2 - r.1.
Definition lookup_is_valid (hash : Kind) (num_objects : Z) (r : Z * Z) : bool :=
  range_len r =? saturating_mul num_objects (len_in_bytes hash).
Definition offsets_is_valid (num_objects : Z) (r : Z * Z) : bool :=
  range_len r =? saturating_mul num_objects (4 + 4).
Definition large_offsets_is_valid (r : Z * Z) : bool := range_len r mod 8 =? 0.

(** ** [init.rs] *)
Definition valid_chunk (k : bytes) (is_valid : Z * Z → bool) (r : Z * Z) : outcome mi_error (Z * Z) :=
  if is_valid r then Ok r else Err (BadChunkSize k).
(** [chunks.validated_usize_offset_by_id(k, ..).or_raise(..)??] *)
Definition required_chunk (idx : Index) (k : bytes) (is_valid : Z * Z → bool) : outcome mi_error (Z * Z) :=
  match validated_usize_offset_by_id idx k (valid_chunk k is_valid) with
  | Ok r => r
  | Err _ => Err (MissingChunk k)
  | Panic => Panic
  end.
(** [chunks.validated_usize_offset_by_id(k, ..).ok().transpose()?] *)
Definition optional_chunk (idx : Index) (k : bytes) (is_valid : Z * Z → bool)
    : outcome mi_error (option (Z * Z)) :=
  match validated_usize_offset_by_id idx k (valid_chunk k is_valid) with
  | Ok r => Some <$> r
  | Err _ => Ok None
  | Panic => Panic
  end.
Definition chunk_data (idx : Index) (data k : bytes) : outcome mi_error bytes :=
  map_err (λ _, MissingChunk k) (data_by_id idx data k).

Definition read_header (data : bytes) : outcome mi_error (Kind * Z * Z) :=
  '(signature, data) ← expect (split_at_checked data 4);
  _ ← ensure (bytes_eqb signature SIGNATURE) InvalidSignature;
  '(version, data) ← expect (split_at_checked data 1);
  version ← expect (get version 0);
  _ ← ensure (version =? 1) (UnsupportedVersion version);
  '(hash, data) ← expect (split_at_checked data 1);
  hash ← expect (get hash 0);
  object_hash ← ok_or (UnsupportedHash hash) (kind_try_from hash);
  '(num_chunks, data) ← expect (split_at_checked data 1);
  num_chunks ← expect (get num_chunks 0);
  '(_, data) ← expect (split_at_checked data 1);
  '(num_indices, _) ← expect (split_at_checked data 4);
  num_indices ← read_u32 num_indices;
  Ok (object_hash, num_chunks, num_indices).

Definition MIN_SIZE : Z := HEADER_LEN + size_for_entries 4 + FANOUT_SIZE + len_in_bytes shortest.

Definition from_data (data : bytes) (p : path) (limit : option Z) : outcome mi_error File :=
  _ ← ensure (negb (zlen data <? MIN_SIZE)) Truncated;
  '(object_hash, num_chunks, num_indices) ← read_header data;
  idx ← map_err BadChunkTable (Chunk.from_bytes data HEADER_LEN num_chunks);
  names ← chunk_data idx data INDEX_NAMES_ID;
  index_names ← index_names_from_bytes names num_indices limit;
  fan ← chunk_data idx data FANOUT_ID;
  fan ← ok_or BadFanSize (fanout_from_bytes fan);
  num_objects ← expect (get fan 255);
  _ ← ensure (fan_is_monotonically_increasing fan) FanNotIncreasing;
  lookup ← required_chunk idx LOOKUP_ID (lookup_is_valid object_hash num_objects);
  offsets ← required_chunk idx OFFSETS_ID (offsets_is_valid num_objects);
  large_offsets ← optional_chunk idx LARGE_OFFSETS_ID large_offsets_is_valid;
  checksum_offset ← map_err BadChunkTable (highest_offset idx);
  trailer ← expect (get_from data checksum_offset);
  _ ← ensure (zlen trailer =? len_in_bytes object_hash) BadTrailer;
  Ok {| data := data; file_path := p; hash_len := len_in_bytes object_hash;
        object_hash := object_hash; fan := fan; index_names := index_names;
        alloc_limit_bytes := limit; lookup_ofs := lookup.1; offsets_ofs := offsets.1;
        large_offsets := large_offsets; num_objects := num_objects; num_indices := num_indices |}.

(** ** [access.rs] *)
Record Entry := { oid : ObjectId; pack_offset : Z; pack_index : Z }.

Definition checksum {E} (f : File) : outcome E ObjectId :=
  start ← op_sub 64 (zlen (data f)) (hash_len f);
  trailer ← expect (get_from (data f) start);
  from_bytes_or_panic trailer.
Definition oid_at_index {E} (f : File) (index : Z) : outcome E bytes :=
  _ ← assert_that (index <? num_objects f);
  slice_at (data f) (lookup_ofs f + index * hash_len f) (hash_len f).

Definition table {E} (f : File) : id_table E :=
  {| tab_fan := fan f; tab_at := oid_at_index f; tab_num := num_objects f |}.
Definition file_lookup {E} (f : File) (id : bytes) : outcome E (option Z) :=
  FanLookup.lookup (table f) id.
Definition file_lookup_prefix {E} (f : File) (prefix : Prefix) (candidates : bool)
    : outcome E (option PrefixLookupResult * option (Z * Z)) :=
  FanLookup.lookup_prefix (table f) prefix candidates.

Definition pack_id_and_pack_offset_at_index (f : File) (index : Z) : outcome mi_error (Z * Z) :=
  _ ← ensure (negb (num_objects f <=? index)) IndexOutOfBounds;
  let start := offsets_ofs f + index * 8 in
  pack_index ← (b ← slice_at (data f) start 4; read_u32 b);
  _ ← ensure (negb (num_indices f <=? pack_index)) PackIndexOutOfBounds;
  ofs32 ← (b ← slice_at (data f) (start + 4) 4; read_u32 b);
  pack_offset ←
    (if Z.land ofs32 HIGH_BIT =? HIGH_BIT then
       match large_offsets f with
       | Some offsets_64 =>
           let ordinal := Z.lxor ofs32 HIGH_BIT in
           _ ← ensure (negb (range_len offsets_64 / 8 <=? ordinal)) LargeOffsetOutOfBounds;
           b ← slice_at (data f) (offsets_64.1 + ordinal * 8) 8;
           read_u64 b
       | None => Ok ofs32
       end
     else Ok ofs32);
  Ok (pack_index, pack_offset).

(** One item of the iterator; a reference that is out of bounds is an error of the item. *)
Definition entry_at_index (f : File) (idx : Z) : outcome mi_error Entry :=
  '(pack_index, pack_offset) ← pack_id_and_pack_offset_at_index f idx;
  id ← oid_at_index f idx;
  id ← from_bytes_or_panic id;
  Ok {| oid := id; pack_offset := pack_offset; pack_index := pack_index |}.
Definition iter (f : File) : list (outcome mi_error Entry) :=
  entry_at_index f <$> seqZ 0 (num_objects f).

(** ** The invariant of an opened file *)
Definition path_lt (a b : path) : Prop := path_cmp a b = Lt.

Record mi_ok (f : File) : Prop := {
  ok_bytes : bytes_ok (data f);
  ok_len : zlen (data f) < 2 ^ 64;
  ok_hash_len : hash_len f = len_in_bytes (object_hash f);
  ok_trailer : hash_len f ≤ zlen (data f);
  ok_fan_len : zlen (fan f) = 256;
  ok_fan_mono : ∀ i j x y, 0 ≤ i ≤ j → get (fan f) i = Some x → get (fan f) j = Some y → x ≤ y;
  ok_fan_range : Forall (λ x, 0 ≤ x < 2 ^ 32) (fan f);
  ok_num : get (fan f) 255 = Some (num_objects f);
  ok_names : zlen (index_names f) = num_indices f;
  ok_indices : 0 ≤ num_indices f < 2 ^ 32;
  ok_names_sorted : Sorted path_lt (index_names f);
  ok_lookup : 0 ≤ lookup_ofs f ∧ lookup_ofs f + num_objects f * hash_len f ≤ zlen (data f);
  ok_offsets : 0 ≤ offsets_ofs f ∧ offsets_ofs f + num_objects f * 8 ≤ zlen (data f);
  ok_large : ∀ r, large_offsets f = Some r → 0 ≤ r.1 ≤ r.2 ∧ r.2 ≤ zlen (data f);
}.

(** ** Lemmas: opening a file *)
Definition header_of (b0 b1 b2 b3 version hash chunks bases i0 i1 i2 i3 : Z) : bytes :=
  [b0; b1; b2; b3] ++ [version] ++ [hash] ++ [chunks] ++ [bases] ++ [i0; i1; i2; i3].

Lemma split_header data :
  12 ≤ zlen data →
  ∃ b0 b1 b2 b3 version hash chunks bases i0 i1 i2 i3 rest,
    data = header_of b0 b1 b2 b3 version hash chunks bases i0 i1 i2 i3 ++ rest.
Proof.
  intros Hl. unfold zlen in Hl.
  do 12 (destruct data as [|? data]; [simpl in Hl; lia|]; cbn [length] in Hl).
  by do 13 eexists.
Qed.

Lemma read_header_eq b0 b1 b2 b3 version hash num_chunks bases i0 i1 i2 i3 rest :
  read_header (header_of b0 b1 b2 b3 version hash num_chunks bases i0 i1 i2 i3 ++ rest) =
  (_ ← ensure (bytes_eqb [b0; b1; b2; b3] SIGNATURE) InvalidSignature;
   _ ← ensure (version =? 1) (UnsupportedVersion version);
   object_hash ← ok_or (UnsupportedHash hash) (kind_try_from hash);
   Ok (object_hash, num_chunks, from_be [i0; i1; i2; i3])).
Proof.
  unfold read_header, header_of. rewrite <- !app_assoc.
  rewrite (split_at_app [b0; b1; b2; b3]) by done. cbn [expect mbind outcome_bind].
  destruct (ensure (bytes_eqb _ _) _) as [[]| |]; [|done..]. cbn [mbind outcome_bind].
  rewrite (split_at_app [version]) by done. cbn [expect mbind outcome_bind].
  change (get [version] 0) with (Some version). cbn [expect mbind outcome_bind].
  destruct (ensure (version =? 1) _) as [[]| |]; [|done..]. cbn [mbind outcome_bind].
  rewrite (split_at_app [hash]) by done. cbn [expect mbind outcome_bind].
  change (get [hash] 0) with (Some hash). cbn [expect mbind outcome_bind].
  destruct (kind_try_from hash); [|done]. cbn [ok_or mbind outcome_bind].
  rewrite (split_at_app [num_chunks]) by done. cbn [expect mbind outcome_bind].
  change (get [num_chunks] 0) with (Some num_chunks). cbn [expect mbind outcome_bind].
  rewrite (split_at_app [bases]) by done. cbn [expect mbind outcome_bind].
  by rewrite (split_at_app [i0; i1; i2; i3]) by done.
Qed.

Lemma read_header_ok data :
  bytes_ok data → 12 ≤ zlen data →
  safe (read_header data) (λ '(_, num_chunks, num_indices), 0 ≤ num_chunks < 256 ∧ 0 ≤ num_indices < 2 ^ 32).
Proof.
  intros Hb Hl.
  destruct (split_header data Hl) as
    (b0 & b1 & b2 & b3 & version & hash & num_chunks & bases & i0 & i1 & i2 & i3 & rest & ->).
  rewrite read_header_eq. apply safe_ensure. intros _. apply safe_ensure. intros _.
  apply safe_ok_or. intros k _. cbn [safe]. apply bytes_ok_app in Hb as [Hb _].
  unfold header_of in Hb. rewrite !bytes_ok_app in Hb.
  destruct Hb as (_ & _ & _ & Hc & _ & Hi). apply bytes_ok_cons in Hc as [Hc _].
  split; [exact Hc|by apply from_be_u32].
Qed.

Lemma Sorted_snoc_last {A} (R : relation A) l x :
  Sorted R l → (∀ y, list.last l = Some y → R y x) → Sorted R (l ++ [x]).
Proof.
  intros Hs Hl. apply Sorted_snoc; [done|]. destruct (list.last l) as [y|] eqn:E.
  - apply list.last_Some in E as [l' ->]. constructor. auto.
  - apply last_None in E as ->. constructor.
Qed.

Lemma read_names_ok todo chunk limit out :
  Sorted path_lt out →
  safe (read_names todo chunk limit out)
    (λ '(out', _), Sorted path_lt out' ∧ length out' = (length out + todo)%nat).
Proof.
  revert chunk out. induction todo as [|todo IH]; intros chunk out Hs; cbn [read_names].
  - split; [done|lia].
  - apply safe_ok_or. intros pos Hpos. apply position_Some in Hpos as (a & x & b & -> & <- & _).
    rewrite (get_range_app [] a (x :: b)) by done. cbn [expect mbind outcome_bind].
    apply safe_ensure. intros _. apply safe_ensure. intros Ho.
    pose proof (zlen_nonneg a). pose proof (zlen_nonneg b).
    rewrite get_from_in by (rewrite zlen_app, zlen_cons; lia). cbn [expect mbind outcome_bind].
    eapply safe_impl; [apply IH|].
    + apply Sorted_snoc_last; [done|]. intros y Hy. rewrite Hy in Ho. by apply bool_decide_eq_true in Ho.
    + intros [out' r] [Hs' Hl']. rewrite length_app in Hl'. simpl in Hl'. split; [done|lia].
Qed.

Lemma index_names_from_bytes_ok chunk n limit :
  0 ≤ n →
  safe (index_names_from_bytes chunk n limit) (λ names, Sorted path_lt names ∧ zlen names = n).
Proof.
  intros Hn. unfold index_names_from_bytes. apply safe_ensure. intros _.
  apply safe_ok_or. intros ? _. apply safe_ensure. intros _.
  eapply safe_bind; [apply read_names_ok; constructor|]. intros [out r] [Hs Hl].
  apply safe_ensure. intros _. split; [done|]. unfold zlen. simpl in Hl. lia.
Qed.

Lemma fanout_from_bytes_ok chunk l :
  bytes_ok chunk → fanout_from_bytes chunk = Some l →
  zlen l = 256 ∧ Forall (λ x, 0 ≤ x < 2 ^ 32) l.
Proof.
  unfold fanout_from_bytes, FANOUT_SIZE. intros Hb. destruct (Z.eqb_spec (zlen chunk) (4 * 256)) as [Hl|]; [|done].
  intros [= <-]. split; [|by apply chunks4_u32].
  unfold zlen at 1. rewrite length_fmap. by apply (zlen_chunks4 _ 256).
Qed.

Lemma fan_mono_get l i j x y :
  fan_is_monotonically_increasing l = true →
  0 ≤ i ≤ j → get l i = Some x → get l j = Some y → x ≤ y.
Proof.
  intros Hm Hij Hx Hy. apply get_Some in Hx as [_ Hx], Hy as [_ Hy].
  eapply mono_spec; [exact Hm| |exact Hx|exact Hy]. lia.
Qed.

Section OpenChunks.
Context (idx : Index) (len : Z) (Hok : chunks_ok len (Chunk.chunks idx)) (Hlen : len < 2 ^ 64).

Lemma mi_required_chunk_ok k is_valid :
  safe (required_chunk idx k is_valid) (λ r, 0 ≤ r.1 < r.2 ∧ r.2 ≤ len ∧ is_valid r = true).
Proof using Hok Hlen.
  unfold required_chunk. pose proof (validated_offset_ok idx k (valid_chunk k is_valid) len Hok Hlen) as H.
  destruct (validated_usize_offset_by_id idx k _) as [x| |]; [|done|done].
  destruct H as (r & -> & Hr & Hl). unfold valid_chunk. destruct (is_valid r) eqn:E; done.
Qed.
Lemma mi_optional_chunk_ok k is_valid :
  safe (optional_chunk idx k is_valid)
    (λ o, ∀ r, o = Some r → 0 ≤ r.1 < r.2 ∧ r.2 ≤ len ∧ is_valid r = true).
Proof using Hok Hlen.
  unfold optional_chunk. pose proof (validated_offset_ok idx k (valid_chunk k is_valid) len Hok Hlen) as H.
  destruct (validated_usize_offset_by_id idx k _) as [x| |]; [|done|done].
  destruct H as (r & -> & Hr & Hl). unfold valid_chunk. destruct (is_valid r) eqn:E; [|done].
  cbn. intros r' [= <-]. done.
Qed.
Lemma chunk_data_ok data k :
  zlen data = len → bytes_ok data → safe (chunk_data idx data k) bytes_ok.
Proof using Hok Hlen.
  intros <- Hb. unfold chunk_data. apply safe_map_err. unfold data_by_id, offset_by_id.
  destruct (find _ _) as [c|] eqn:Hf; [|done]. apply find_kind_Some in Hf as [Hc _].
  cbn [fmap option_fmap option_map ok_or mbind outcome_bind].
  pose proof (contiguous_in _ _ _ (ok_contiguous _ _ Hok) Hc). unfold into_usize.
  rewrite !checked_in by lia. cbn [mbind option_bind ok_or outcome_bind fst snd].
  rewrite get_range_in by lia. cbn. auto with gix.
Qed.
End OpenChunks.

Lemma mi_from_data_ok data p limit :
  bytes_ok data → zlen data < 2 ^ 64 →
  safe (from_data data p limit) (λ f, mi_ok f ∧ MultiIndex.data f = data ∧ file_path f = p).
Proof.
  intros Hb Hlen. unfold from_data. apply safe_ensure. intros Hmin%negb_true_iff%Z.ltb_ge.
  change MIN_SIZE with 1116 in Hmin.
  eapply safe_bind; [apply read_header_ok; [done|lia]|]. intros [[k num] n] [Hnum Hn].
  eapply safe_bind.
  { apply safe_map_err, (from_bytes_ok data HEADER_LEN num); [done| |lia]. unfold HEADER_LEN. lia. }
  intros idx (Hok & Hc & Hpos).
  eapply safe_bind; [by eapply (chunk_data_ok idx (zlen data))|]. intros names _.
  eapply safe_bind; [apply index_names_from_bytes_ok; lia|]. intros paths [Hs Hl].
  eapply safe_bind; [by eapply (chunk_data_ok idx (zlen data))|]. intros fanb Hfb.
  apply safe_ok_or. intros fans Hfan. destruct (fanout_from_bytes_ok _ _ Hfb Hfan) as [Hfl Hfr].
  destruct (get_in fans 255) as (nobj & Hnobj & Hnl); [lia|].
  eapply safe_expect; [exact Hnobj|]. apply safe_ensure. intros Hmono.
  assert (0 ≤ nobj < 2 ^ 32) as Hn32 by (rewrite Forall_lookup in Hfr; by apply (Hfr _ _ Hnl)).
  eapply safe_bind; [by eapply (mi_required_chunk_ok idx (zlen data))|]. intros lk (Hlk & Hlk2 & Hlkv).
  eapply safe_bind; [by eapply (mi_required_chunk_ok idx (zlen data))|]. intros ofs (Hofs & Hofs2 & Hofsv).
  eapply safe_bind; [by eapply (mi_optional_chunk_ok idx (zlen data))|]. intros large Hlarge.
  destruct (highest_offset_ok idx (zlen data) Hok ltac:(lia)) as (o & Ho & Hob).
  rewrite Ho. cbn [map_err mbind outcome_bind]. rewrite get_from_in by done. cbn [expect mbind outcome_bind].
  apply safe_ensure. intros Ht%Z.eqb_eq. split; [|done].
  pose proof (len_in_bytes_range k) as Hk.
  unfold lookup_is_valid, offsets_is_valid, saturating_mul, range_len in *.
  apply Z.eqb_eq in Hlkv, Hofsv.
  split; cbn [MultiIndex.data hash_len object_hash fan index_names num_indices num_objects lookup_ofs
    offsets_ofs large_offsets]; try done.
  - unfold zlen in *. rewrite length_drop in Ht. lia.
  - intros i j x y Hij Hx Hy. by eapply fan_mono_get.
  - nia.
  - nia.
  - intros r Hr. destruct (Hlarge r Hr) as (? & ? & _). lia.
Qed.

(** ** Lemmas: access to an opened file *)

(** The numbers stored for an entry. *)
Definition be_at (d : bytes) (start : Z) (n : nat) : Z := from_be (take n (drop (Z.to_nat start) d)).
Definition pack_of (f : File) (i : Z) : Z := be_at (data f) (offsets_ofs f + i * 8) 4.
Definition ofs32_of (f : File) (i : Z) : Z := be_at (data f) (offsets_ofs f + i * 8 + 4) 4.
(** What [pack_id_and_pack_offset_at_index] makes of them. *)
Definition offset_of (f : File) (ofs32 : Z) : outcome mi_error Z :=
  match large_offsets f with
  | Some r =>
      if ofs32 <? 2 ^ 31 then Ok ofs32
      else if range_len r / 8 <=? ofs32 - 2 ^ 31 then Err LargeOffsetOutOfBounds
      else Ok (be_at (data f) (r.1 + (ofs32 - 2 ^ 31) * 8) 8)
  | None => Ok ofs32
  end.

Lemma read_at {E} (d : bytes) start :
  0 ≤ start → start + 4 ≤ zlen d →
  (b ← slice_at (E := E) d start 4; read_u32 b) = Ok (be_at d start 4).
Proof.
  intros H0 Hl. rewrite slice_at_in by lia. cbn [mbind outcome_bind].
  rewrite read_u32_ok by (apply zlen_slice; lia). done.
Qed.
Lemma read8_at {E} (d : bytes) start :
  0 ≤ start → start + 8 ≤ zlen d →
  (b ← slice_at (E := E) d start 8; read_u64 b) = Ok (be_at d start 8).
Proof.
  intros H0 Hl. rewrite slice_at_in by lia. cbn [mbind outcome_bind].
  rewrite read_u64_ok by (apply zlen_slice; lia). done.
Qed.
Lemma be_at_range d start n :
  bytes_ok d → 0 ≤ start → start + Z.of_nat n ≤ zlen d → 0 ≤ be_at d start n < 256 ^ Z.of_nat n.
Proof.
  intros Hb H0 Hl. unfold be_at. pose proof (zlen_slice d start (Z.of_nat n) H0 ltac:(lia) Hl) as Hz.
  rewrite Nat2Z.id in Hz.
  pose proof (from_be_bound (take n (drop (Z.to_nat start) d)) ltac:(auto with gix)) as H. by rewrite Hz in H.
Qed.

Section Opened.
Context (f : File) (Hf : mi_ok f).

Lemma mi_num_range : 0 ≤ num_objects f < 2 ^ 32.
Proof using Hf.
  pose proof (ok_num f Hf) as Hn. apply get_Some in Hn as [_ Hn].
  pose proof (ok_fan_range f Hf) as Hr. rewrite Forall_lookup in Hr. by apply (Hr _ _ Hn).
Qed.
Lemma mi_hash_len_range : 20 ≤ hash_len f ≤ 32.
Proof using Hf. rewrite (ok_hash_len f Hf). apply len_in_bytes_range. Qed.

Lemma mi_oid_at_ok {E} i :
  0 ≤ i < num_objects f →
  ∃ id, oid_at_index (E := E) f i = Ok id ∧ zlen id = hash_len f ∧ bytes_ok id ∧
    id = take (Z.to_nat (hash_len f)) (drop (Z.to_nat (lookup_ofs f + i * hash_len f)) (data f)).
Proof using Hf.
  intros Hi. pose proof mi_hash_len_range. pose proof (ok_lookup f Hf). pose proof (ok_bytes f Hf).
  unfold oid_at_index. rewrite (proj2 (Z.ltb_lt _ _)) by lia. cbn [assert_that mbind outcome_bind].
  rewrite slice_at_in by nia. eexists. split; [done|]. split; [apply zlen_slice; nia|]. split; [|done]. auto with gix.
Qed.

Lemma table_safe {E} : IdTableSafe (table (E := E) f) (object_hash f).
Proof using Hf.
  split; cbn [tab_num tab_at tab_fan table].
  - apply mi_num_range.
  - intros i Hi. destruct (mi_oid_at_ok (E := E) i Hi) as (x & Hx & Hl & Hb & _).
    exists x. by rewrite <- (ok_hash_len f Hf).
  - apply (ok_fan_len f Hf).
  - apply (ok_fan_mono f Hf).
  - apply (ok_fan_range f Hf).
  - apply (ok_num f Hf).
Qed.

Lemma stored_range i :
  0 ≤ i < num_objects f → 0 ≤ pack_of f i < 2 ^ 32 ∧ 0 ≤ ofs32_of f i < 2 ^ 32.
Proof using Hf.
  intros Hi. pose proof (ok_offsets f Hf). pose proof (ok_bytes f Hf).
  split; apply (be_at_range _ _ 4); done || nia.
Qed.

Lemma pack_at_eq i :
  0 ≤ i < num_objects f →
  pack_id_and_pack_offset_at_index f i =
  if num_indices f <=? pack_of f i then Err PackIndexOutOfBounds
  else o ← offset_of f (ofs32_of f i); Ok (pack_of f i, o).
Proof using Hf.
  intros Hi. pose proof (ok_offsets f Hf) as Ho. destruct (stored_range i Hi) as [_ Hofs].
  unfold pack_id_and_pack_offset_at_index. rewrite (proj2 (Z.leb_gt _ _)) by lia.
  cbn [negb ensure mbind outcome_bind]. rewrite !read_at by nia. cbn [mbind outcome_bind].
  fold (pack_of f i). fold (ofs32_of f i).
  destruct (num_indices f <=? pack_of f i); [done|]. cbn [negb ensure mbind outcome_bind].
  destruct (high_bit (ofs32_of f i) Hofs) as [Hland Hxor]. change HIGH_BIT with (2 ^ 31).
  rewrite Hland. unfold offset_of. destruct (Z.ltb_spec (ofs32_of f i) (2 ^ 31)) as [Hlt|Hge].
  - change (0 =? 2 ^ 31) with false. cbv iota. by destruct (large_offsets f).
  - rewrite Z.eqb_refl, Hxor by done. destruct (large_offsets f) as [r|] eqn:Hr; [|done].
    destruct (Z.leb_spec (range_len r / 8) (ofs32_of f i - 2 ^ 31)) as [|Hb]; [done|].
    cbn [negb ensure mbind outcome_bind]. pose proof (ok_large f Hf r Hr) as (? & ?).
    assert (8 * (range_len r / 8) ≤ range_len r) by (apply Z.mul_div_le; lia). unfold range_len in *.
    rewrite read8_at by nia. done.
Qed.

Lemma offset_of_ok i :
  0 ≤ i < num_objects f →
  match offset_of f (ofs32_of f i) with
  | Ok o => 0 ≤ o < 2 ^ 64
  | Err e => e = LargeOffsetOutOfBounds
  | Panic => False
  end.
Proof using Hf.
  intros Hi. destruct (stored_range i Hi) as [_ Hofs]. unfold offset_of.
  destruct (large_offsets f) as [r|] eqn:Hr; [|lia]. destruct (Z.ltb_spec (ofs32_of f i) (2 ^ 31)); [lia|].
  destruct (Z.leb_spec (range_len r / 8) (ofs32_of f i - 2 ^ 31)) as [|Hb]; [done|].
  pose proof (ok_large f Hf r Hr) as (? & ?). pose proof (ok_bytes f Hf).
  assert (8 * (range_len r / 8) ≤ range_len r) by (apply Z.mul_div_le; lia). unfold range_len in *.
  apply (be_at_range _ _ 8); [done|nia|nia].
Qed.

(** An entry is complete, or its reference is reported as out of bounds. *)
Lemma entry_at_ok i :
  0 ≤ i < num_objects f →
  match entry_at_index f i with
  | Ok e => oid_at_index (E := mi_error) f i = Ok (as_slice (oid e)) ∧ Hash.kind (oid e) = object_hash f ∧
      oid_ok (oid e) ∧ 0 ≤ pack_index e < num_indices f ∧ 0 ≤ pack_offset e < 2 ^ 64 ∧
      pack_id_and_pack_offset_at_index f i = Ok (pack_index e, pack_offset e)
  | Err e => e = PackIndexOutOfBounds ∨ e = LargeOffsetOutOfBounds
  | Panic => False
  end.
Proof using Hf.
  intros Hi. unfold entry_at_index. rewrite pack_at_eq by done.
  destruct (Z.leb_spec (num_indices f) (pack_of f i)); [by left|].
  pose proof (offset_of_ok i Hi) as Ho. destruct (offset_of f (ofs32_of f i)) as [o|e|]; [|by right|done].
  cbn [mbind outcome_bind]. destruct (mi_oid_at_ok (E := mi_error) i Hi) as (id & Hid & Hl & Hb & _).
  rewrite Hid. cbn [mbind outcome_bind]. rewrite (ok_hash_len f Hf) in Hl.
  destruct (from_bytes_or_panic_ok (E := mi_error) id _ Hl) as (oid & -> & Hs & Hk).
  cbn [mbind outcome_bind MultiIndex.oid pack_index pack_offset]. rewrite Hs. split; [done|]. split; [done|].
  split; [split; rewrite Hs, ?Hk; done|]. destruct (stored_range i Hi). split; [lia|]. done.
Qed.

Lemma mi_checksum_ok {E} :
  ∃ sum, checksum (E := E) f = Ok sum ∧ Hash.kind sum = object_hash f ∧ as_slice sum = drop (length (data f) - Z.to_nat (hash_len f)) (data f).
Proof using Hf.
  pose proof (ok_trailer f Hf) as Ht. pose proof mi_hash_len_range. pose proof (ok_len f Hf).
  unfold checksum, op_sub. rewrite checked_sub_in by lia. cbn [expect mbind outcome_bind].
  rewrite get_from_in by lia. cbn [expect mbind outcome_bind].
  destruct (from_bytes_or_panic_ok (E := E) (drop (Z.to_nat (zlen (data f) - hash_len f)) (data f)) (object_hash f))
    as (id & -> & Hs & Hk).
  { rewrite <- (ok_hash_len f Hf). unfold zlen in *. rewrite length_drop. lia. }
  exists id. split; [done|]. split; [done|]. rewrite Hs. f_equal. unfold zlen in *. lia.
Qed.
End Opened.

Lemma component_cmp_eq a b : component_cmp a b = Eq ↔ a = b.
Proof.
  destruct a, b; simpl; try (split; [discriminate|congruence]); try done.
  rewrite bytes_cmp_eq. split; congruence.
Qed.
Lemma component_cmp_trans a b c :
  component_cmp a b = Lt → component_cmp b c = Lt → component_cmp a c = Lt.
Proof. destruct a, b, c; simpl; try done. apply bytes_cmp_lt_trans. Qed.
#[export] Instance path_lt_trans : Transitive path_lt.
Proof.
  unfold path_lt. intros a. induction a as [|x a IH]; intros [|y b] [|z c]; simpl; try done.
  destruct (component_cmp x y) eqn:Exy; [|intros _|done].
  - apply component_cmp_eq in Exy as ->. destruct (component_cmp y z); [apply IH|done|done].
  - destruct (component_cmp y z) eqn:Eyz; [|intros _|done].
    + apply component_cmp_eq in Eyz as ->. by rewrite Exy.
    + by rewrite (component_cmp_trans _ _ _ Exy Eyz).
Qed.
Lemma path_cmp_refl a : path_cmp a a = Eq.
Proof. induction a as [|x a IH]; simpl; [done|]. by rewrite (proj2 (component_cmp_eq x x)). Qed.
Lemma sorted_paths_NoDup l : StronglySorted path_lt l → NoDup l.
Proof.
  induction 1 as [|x l _ IH Hx]; constructor; [|done]. intros Hin.
  rewrite list.Forall_forall in Hx. specialize (Hx x Hin). unfold path_lt in Hx. by rewrite path_cmp_refl in Hx.
Qed.

(** C2: whatever the bytes and the allocation limit, opening a multi-pack index fails with
    an error or yields a file on which nothing panics: it names exactly the announced number
    of pack indices, all different and in order; at every position there is an id, and an
    entry that refers to one of these indices, unless its reference is reported as out of
    bounds; looking up an id or a prefix returns, with a position that really holds it if any,
    even when the ids are not in order. *)
Theorem multi_index_safe (bs : bytes) (p : path) (limit : option Z)
    (Hb : bytes_ok bs) (Hlen : zlen bs < 2 ^ 64) :
  from_data bs p limit ≠ Panic ∧
  ∀ f, from_data bs p limit = Ok f →
    zlen (index_names f) = num_indices f ∧ StronglySorted path_lt (index_names f) ∧
    NoDup (index_names f) ∧
    (∃ sum, checksum (E := mi_error) f = Ok sum ∧ Hash.kind sum = object_hash f) ∧
    zlen (iter f) = num_objects f ∧
    (∀ i, num_objects f ≤ i → pack_id_and_pack_offset_at_index f i = Err IndexOutOfBounds) ∧
    (∀ i x, iter f !! i = Some x →
       match x with
       | Ok e => oid_at_index (E := mi_error) f (Z.of_nat i) = Ok (as_slice (oid e)) ∧
           Hash.kind (oid e) = object_hash f ∧ 0 ≤ pack_index e < num_indices f ∧
           pack_id_and_pack_offset_at_index f (Z.of_nat i) = Ok (pack_index e, pack_offset e)
       | Err e => e = PackIndexOutOfBounds ∨ e = LargeOffsetOutOfBounds
       | Panic => False
       end) ∧
    (∀ id, zlen id = len_in_bytes (object_hash f) → bytes_ok id →
       ∃ r, file_lookup (E := mi_error) f id = Ok r ∧
         match r with
         | Some i => 0 ≤ i < num_objects f ∧ oid_at_index (E := mi_error) f i = Ok id
         | None => True
         end) ∧
    (∀ pre candidates, prefix_ok pre → Hash.kind (prefix_bytes pre) = object_hash f →
       ∃ r o, file_lookup_prefix (E := mi_error) f pre candidates = Ok (r, o) ∧
         match r with
         | Some (Unique i) => 0 ≤ i < num_objects f ∧ ∃ x, oid_at_index (E := mi_error) f i = Ok x ∧
             take (Z.to_nat (hex_len pre)) (nibbles x) = prefix_digits pre
         | _ => True
         end).
Proof.
  pose proof (mi_from_data_ok bs p limit Hb Hlen) as Hs. apply safe_iff in Hs as [Hnp Hok]. split; [done|].
  intros f Hf. destruct (Hok f Hf) as (Hmi & _). pose proof (mi_num_range f Hmi) as Hn.
  assert (StronglySorted path_lt (index_names f)) as Hss
    by (apply Sorted_StronglySorted; [apply _|apply (ok_names_sorted f Hmi)]).
  split; [apply (ok_names f Hmi)|]. split; [done|]. split; [by apply sorted_paths_NoDup|].
  split; [destruct (mi_checksum_ok f Hmi (E := mi_error)) as (sum & ? & ? & _); by exists sum|].
  split; [unfold iter, zlen; rewrite length_fmap, length_seqZ; lia|]. split.
  { intros i Hi. unfold pack_id_and_pack_offset_at_index. by rewrite (proj2 (Z.leb_le _ _) Hi). }
  split.
  { intros i x Hx. unfold iter in Hx. apply list_lookup_fmap_Some in Hx as (j & -> & Hj).
    apply lookup_seqZ in Hj as [-> Hj]. rewrite Z.add_0_l.
    pose proof (entry_at_ok f Hmi (Z.of_nat i) ltac:(lia)) as He.
    destruct (entry_at_index f (Z.of_nat i)); [|done|done]. naive_solver. }
  split.
  - intros id Hl Hid. exact (lookup_total (table f) (object_hash f) (Hsafe := table_safe f Hmi) id Hl Hid).
  - intros pre candidates Hp Hk.
    exact (lookup_prefix_total (table f) (object_hash f) (Hsafe := table_safe f Hmi) pre Hp Hk candidates).
Qed.

(** ** Witness: a file with one index and one object *)
Definition sample_multi : bytes :=
  match write_file (E := chunk_error) (SIGNATURE ++ [1; 1; 4; 0; 0; 0; 0; 1])
    [(INDEX_NAMES_ID, [97; 46; 105; 100; 120; 0; 0; 0]);
     (FANOUT_ID, concat ((λ b, to_be 4 (if b <? 3 then 0 else 1)) <$> seqZ 0 256));
     (LOOKUP_ID, 3 :: replicate 19 1); (OFFSETS_ID, [0; 0; 0; 0; 0; 0; 0; 12])] with
  | Ok out => out ++ replicate 20 7
  | _ => []
  end.
Example sample_multi_opens :
  match from_data sample_multi [RootDir; Normal [109]] (Some 100) with
  | Ok f => (num_objects f, index_names f, iter f, file_lookup (E := mi_error) f (3 :: replicate 19 1)) =
      (1, [[Normal [97; 46; 105; 100; 120]]],
       [Ok {| oid := OidSha1 (3 :: replicate 19 1); pack_offset := 12; pack_index := 0 |}], Ok (Some 0))
  | _ => False
  end.
Proof. vm_compute. reflexivity. Qed.

Lemma multi_index_safe_witness :
  from_data sample_multi [RootDir; Normal [109]] (Some 100) ≠ Panic ∧
  ∀ f, from_data sample_multi [RootDir; Normal [109]] (Some 100) = Ok f →
    zlen (index_names f) = num_indices f ∧ StronglySorted path_lt (index_names f) ∧
    NoDup (index_names f) ∧
    (∃ sum, checksum (E := mi_error) f = Ok sum ∧ Hash.kind sum = object_hash f) ∧
    zlen (iter f) = num_objects f ∧
    (∀ i, num_objects f ≤ i → pack_id_and_pack_offset_at_index f i = Err IndexOutOfBounds) ∧
    (∀ i x, iter f !! i = Some x →
       match x with
       | Ok e => oid_at_index (E := mi_error) f (Z.of_nat i) = Ok (as_slice (oid e)) ∧
           Hash.kind (oid e) = object_hash f ∧ 0 ≤ pack_index e < num_indices f ∧
           pack_id_and_pack_offset_at_index f (Z.of_nat i) = Ok (pack_index e, pack_offset e)
       | Err e => e = PackIndexOutOfBounds ∨ e = LargeOffsetOutOfBounds
       | Panic => False
       end) ∧
    (∀ id, zlen id = len_in_bytes (object_hash f) → bytes_ok id →
       ∃ r, file_lookup (E := mi_error) f id = Ok r ∧
         match r with
         | Some i => 0 ≤ i < num_objects f ∧ oid_at_index (E := mi_error) f i = Ok id
         | None => True
         end) ∧
    (∀ pre candidates, prefix_ok pre → Hash.kind (prefix_bytes pre) = object_hash f →
       ∃ r o, file_lookup_prefix (E := mi_error) f pre candidates = Ok (r, o) ∧
         match r with
         | Some (Unique i) => 0 ≤ i < num_objects f ∧ ∃ x, oid_at_index (E := mi_error) f i = Ok x ∧
             take (Z.to_nat (hex_len pre)) (nibbles x) = prefix_digits pre
         | _ => True
         end).
Proof.
  apply (multi_index_safe sample_multi [RootDir; Normal [109]] (Some 100)).
  - apply bytes_ok_bool. vm_compute. reflexivity.
  - vm_compute. reflexivity.
Defined.
