(* ===== verification/MultiIndexWrite.v ===== *)
(** * [gix-pack/src/multi_index/{write,chunk}.rs]: writing

    [write_from_index_paths] merges the entries of pack indices into one table: they are
    sorted by id, of entries with one id the one from the newest index is kept, and the
    result is written as a file of chunks. The parameters are those of [MultiIndex];
    the value of the [i]-th load of [should_interrupt] is [should_interrupt i]. *)

From stdpp Require Import sets sorting.
From S2P Require Import Prelude Slices Hash FanLookup Chunk PackIndex MultiIndex.

(** ** [chunk.rs]: the content of chunks *)
Definition is_ascii (l : bytes) : bool := forallb (λ b, b <? 128) l.

(** [to_str] of a name that is not UTF-8 panics, as does the assertion that it is ASCII. *)
Fixpoint names_size {E} (names : list bytes) (count : Z) : outcome E Z :=
  match names with
  | [] => Ok count
  | name :: names =>
      _ ← assert_that (is_ascii name);
      count ← op_add 64 count (zlen name + 1);
      names_size names count
  end.
Definition padding (written_bytes : Z) : Z :=
  let needed_alignment := CHUNK_ALIGNMENT - written_bytes mod CHUNK_ALIGNMENT in
  if needed_alignment <? CHUNK_ALIGNMENT then needed_alignment else 0.
Definition index_names_storage_size {E} (names : list bytes) : outcome E Z :=
  count ← names_size names 0;
  op_add 64 count (padding count).
Definition index_names_write (names : list bytes) : bytes :=
  let out := concat ((λ name, name ++ [0]) <$> names) in
  out ++ replicate (Z.to_nat (padding (zlen out))) 0.

Record WEntry := {
  id : ObjectId;
  entry_pack_index : Z;
  entry_pack_offset : Z;
  index_mtime : Z;
}.

Definition fanout_write {E} (sorted_entries : list WEntry) : outcome E bytes :=
  first_bytes ← mapM (λ e, first_byte (as_slice (id e))) sorted_entries;
  fan ← fanout first_bytes;
  Ok (concat (to_be 4 <$> fan)).

Definition lookup_storage_size {E} (entries : Z) (object_hash : Kind) : outcome E Z :=
  op_mul 64 entries (len_in_bytes object_hash).
Definition lookup_write (sorted_entries : list WEntry) : bytes :=
  concat ((λ e, as_slice (id e)) <$> sorted_entries).

Definition offsets_storage_size {E} (entries : Z) : outcome E Z := op_mul 64 entries (4 + 4).
Fixpoint offsets_write {E} (sorted_entries : list WEntry) (large_offsets_needed : bool)
    (num_large_offsets : Z) : outcome E bytes :=
  match sorted_entries with
  | [] => Ok []
  | entry :: sorted_entries =>
      '(offset, num_large_offsets) ←
        (if large_offsets_needed then
           if LARGE_OFFSET_THRESHOLD <? entry_pack_offset entry then
             let res := Z.lor num_large_offsets HIGH_BIT in
             num_large_offsets ← op_add 32 num_large_offsets 1;
             Ok (res, num_large_offsets)
           else Ok (wrap 32 (entry_pack_offset entry), num_large_offsets)
         else
           offset ← expect (checked 32 (entry_pack_offset entry));
           Ok (offset, num_large_offsets));
      out ← offsets_write sorted_entries large_offsets_needed num_large_offsets;
      Ok (to_be 4 (entry_pack_index entry) ++ to_be 4 offset ++ out)
  end.

Fixpoint count_large (entries : list WEntry) (num_large_offsets : Z) (needs_large_offsets : bool)
    : option Z :=
  match entries with
  | [] => if needs_large_offsets then Some num_large_offsets else None
  | entry :: entries =>
      count_large entries
        (if LARGE_OFFSET_THRESHOLD <? entry_pack_offset entry then num_large_offsets + 1
         else num_large_offsets)
        (needs_large_offsets || (2 ^ 32 - 1 <? entry_pack_offset entry))
  end.
Definition num_large_offsets (entries : list WEntry) : option Z := count_large entries 0 false.
Fixpoint large_offsets_write {E} (sorted_entries : list WEntry) (num_large_offsets : Z)
    : outcome E bytes :=
  match sorted_entries with
  | [] => _ ← assert_that (num_large_offsets =? 0); Ok []
  | entry :: sorted_entries =>
      if LARGE_OFFSET_THRESHOLD <? entry_pack_offset entry then
        num_large_offsets ← expect (checked_sub 64 num_large_offsets 1);
        out ← large_offsets_write sorted_entries num_large_offsets;
        Ok (to_be 8 (entry_pack_offset entry) ++ out)
      else large_offsets_write sorted_entries num_large_offsets
  end.
Definition large_offsets_storage_size {E} (large_offsets : Z) : outcome E Z := op_mul 64 8 large_offsets.

(** ** [write.rs] *)

(** The derived order of [ObjectId]. *)
Definition id_cmp (a b : ObjectId) : comparison :=
  match a, b with
  | OidSha1 _, OidSha256 _ => Lt
  | OidSha256 _, OidSha1 _ => Gt
  | _, _ => bytes_cmp (as_slice a) (as_slice b)
  end.
(** By id, then from the newest index to the oldest, then by index. *)
Definition entry_cmp (l r : WEntry) : comparison :=
  then_with (id_cmp (id l) (id r))
    (then_with (CompOpp (index_mtime l ?= index_mtime r))
       (entry_pack_index l ?= entry_pack_index r)).
Definition same_id (a b : WEntry) : bool := bool_decide (id a = id b).

Record FileSystem := {
  fs_read : path → option bytes;
  (** [metadata().and_then(|m| m.modified())], in nanoseconds since the epoch. *)
  fs_modified : path → option Z;
}.

Section Write.
Context (fs : FileSystem) (should_interrupt : nat → bool).
Context (try_finalize : bytes → outcome mi_error ObjectId).

(** [index::File::at] *)
Definition open_index (p : path) (object_hash : Kind) : outcome mi_error PackIndex.File :=
  d ← ok_or (CannotOpen p) (fs_read fs p);
  map_err BadIndex (PackIndex.from_data d object_hash).

(** The loop over the indices, the [index_id]-th of them being next. *)
Fixpoint collect_entries (index_paths : list path) (object_hash : Kind) (index_id : nat)
    (entries : list WEntry) : outcome mi_error (list WEntry) :=
  match index_paths with
  | [] => Ok entries
  | index :: index_paths =>
      let mtime := default 0 (fs_modified fs index) in
      f ← open_index index object_hash;
      es ← PackIndex.iter f;
      let entries := entries ++
        ((λ e, {| id := PackIndex.oid e; entry_pack_index := wrap 32 (Z.of_nat index_id);
                  entry_pack_offset := PackIndex.pack_offset e; index_mtime := mtime |}) <$> es) in
      _ ← ensure (negb (should_interrupt index_id)) Interrupted;
      collect_entries index_paths object_hash (S index_id) entries
  end.

Definition write_header {E} (num_chunks num_indices : Z) (object_hash : Kind) : outcome E (bytes * Z) :=
  Ok (SIGNATURE ++ [1] ++ [match object_hash with Sha1 => 1 | Sha256 => 2 end] ++ [num_chunks] ++ [0]
        ++ to_be 4 num_indices, HEADER_LEN).

(** The content of the chunk that is asked for. *)
Definition chunk_content (chunk_to_write : bytes) (names : list bytes) (entries : list WEntry)
    (num_large : option Z) : outcome mi_error bytes :=
  if bytes_eqb chunk_to_write INDEX_NAMES_ID then Ok (index_names_write names)
  else if bytes_eqb chunk_to_write FANOUT_ID then fanout_write entries
  else if bytes_eqb chunk_to_write LOOKUP_ID then Ok (lookup_write entries)
  else if bytes_eqb chunk_to_write OFFSETS_ID then
    offsets_write entries (match num_large with Some _ => true | None => false end) 0
  else if bytes_eqb chunk_to_write LARGE_OFFSETS_ID then
    n ← expect num_large; large_offsets_write entries n
  else Panic.

(** [while let Some(chunk_to_write) = chunk_write.next_chunk()]: one round per planned
    chunk, and the one that ends the loop. *)
Fixpoint write_loop (fuel : nat) (names : list bytes) (entries : list WEntry) (num_large : option Z)
    (chunk_write : Chunk) (loads : nat) : outcome mi_error bytes :=
  match fuel with
  | O => Panic
  | S fuel =>
      '(chunk_to_write, chunk_write) ← next_chunk chunk_write;
      match chunk_to_write with
      | None => Ok (inner chunk_write)
      | Some k =>
          content ← chunk_content k names entries num_large;
          chunk_write ← Chunk.chunk_write content chunk_write;
          _ ← ensure (negb (should_interrupt loads)) Interrupted;
          write_loop fuel names entries num_large chunk_write (S loads)
      end
  end.

Definition plan (names : list bytes) (entries : list WEntry) (object_hash : Kind) (num_large : option Z)
    : outcome mi_error Index :=
  size ← index_names_storage_size names;
  cf ← plan_chunk INDEX_NAMES_ID size for_writing;
  cf ← plan_chunk FANOUT_ID FANOUT_SIZE cf;
  size ← lookup_storage_size (zlen entries) object_hash;
  cf ← plan_chunk LOOKUP_ID size cf;
  size ← offsets_storage_size (zlen entries);
  cf ← plan_chunk OFFSETS_ID size cf;
  match num_large with
  | Some n => size ← large_offsets_storage_size n; plan_chunk LARGE_OFFSETS_ID size cf
  | None => Ok cf
  end.

Definition merge_entries (entries : list WEntry) : list WEntry :=
  dedup_by same_id (sort_by entry_cmp entries).

Definition write_from_index_paths (index_paths : list path) (object_hash : Kind)
    : outcome mi_error (bytes * ObjectId) :=
  let index_paths_sorted := sort_by path_cmp index_paths in
  index_filenames_sorted ← mapM (λ p, expect (file_name p)) index_paths_sorted;
  entries ← collect_entries index_paths_sorted object_hash 0 [];
  let entries := merge_entries entries in
  let loads := length index_paths_sorted in
  _ ← ensure (negb (should_interrupt loads)) Interrupted;
  let num_large := num_large_offsets entries in
  cf ← plan index_filenames_sorted entries object_hash num_large;
  size ← planned_storage_size cf;
  _ ← op_add 64 size HEADER_LEN;
  num ← expect (checked 8 (num_chunks cf));
  '(header, bytes_written) ← write_header num (wrap 32 (zlen index_paths_sorted)) object_hash;
  chunk_write ← into_write cf header bytes_written;
  out ← write_loop (S (length (Chunk.chunks cf))) index_filenames_sorted entries num_large chunk_write (S loads);
  multi_index_checksum ← try_finalize out;
  Ok (out ++ as_slice multi_index_checksum, multi_index_checksum).
End Write.

(** ** Comparison functions *)
#[export] Instance id_cmp_laws : OrdLaws id_cmp.
Proof.
  split.
  - intros [a|a] [b|b]; simpl; try done; apply bytes_cmp_antisym.
  - intros [a|a] [b|b] [c|c]; simpl; try done; by intros ->%bytes_cmp_eq.
  - intros [a|a] [b|b] [c|c]; simpl; try done; apply bytes_cmp_lt_trans.
Qed.
#[export] Instance entry_cmp_laws : OrdLaws entry_cmp.
Proof.
  apply (then_laws (λ l r, id_cmp (id l) (id r))); [apply _|].
  apply (then_laws (λ l r, CompOpp (index_mtime l ?= index_mtime r))); apply _.
Qed.
Lemma component_cmp_antisym a b : component_cmp b a = CompOpp (component_cmp a b).
Proof. destruct a, b; simpl; try done. apply bytes_cmp_antisym. Qed.
#[export] Instance path_cmp_laws : OrdLaws path_cmp.
Proof.
  split.
  - intros a. induction a as [|x a IH]; intros [|y b]; simpl; try done.
    rewrite (component_cmp_antisym x y). destruct (component_cmp x y); simpl; [apply IH|done|done].
  - intros a b c Hab. enough (a = b) as -> by done. revert b Hab.
    induction a as [|x a IH]; intros [|y b]; simpl; try done.
    destruct (component_cmp x y) eqn:E; try done. apply component_cmp_eq in E as ->. intros. f_equal. auto.
  - apply path_lt_trans.
Qed.
Lemma path_cmp_eq a b : path_cmp a b = Eq → a = b.
Proof.
  revert b. induction a as [|x a IH]; intros [|y b]; simpl; try done.
  destruct (component_cmp x y) eqn:E; try done. apply component_cmp_eq in E as ->. intros. f_equal. auto.
Qed.

(** ** Lemmas: merging entries *)
Definition id_lt (a b : WEntry) : Prop := id_cmp (id a) (id b) = Lt.

Lemma id_cmp_eq a b : id_cmp a b = Eq ↔ a = b.
Proof.
  destruct a, b; simpl; try (split; [discriminate|congruence]); rewrite bytes_cmp_eq; split; congruence.
Qed.
Lemma entry_le_id a b : ord_le entry_cmp a b → id_lt a b ∨ id a = id b.
Proof.
  unfold ord_le, entry_cmp, id_lt. destruct (id_cmp (id a) (id b)) eqn:E; [|by left|done].
  apply id_cmp_eq in E. by right.
Qed.

(** What [dedup_by] keeps of a sorted list: one entry per id, the least of those with it. *)
Record merged (l r : list WEntry) : Prop := {
  merged_sorted : StronglySorted id_lt r;
  merged_sub : ∀ x, x ∈ r → x ∈ l;
  merged_all : ∀ x, x ∈ l → ∃ y, y ∈ r ∧ id y = id x ∧ ord_le entry_cmp y x;
}.

Lemma dedup_from_merged last l :
  StronglySorted (ord_le entry_cmp) (last :: l) → merged (last :: l) (last :: dedup_from same_id last l).
Proof.
  revert last. induction l as [|x l IH]; intros last Hs.
  - split; [repeat constructor|done|]. intros y Hy. exists y. split; [done|]. split; [done|]. apply ord_le_refl, _.
  - apply StronglySorted_inv in Hs as [Hs Hall]. cbn [dedup_from].
    apply list.Forall_cons in Hall as [Hlx Hall]. pose proof Hs as Hs0.
    apply StronglySorted_inv in Hs as [Hs Hx]. unfold same_id at 1. case_bool_decide as Hid.
    + destruct (IH last) as [M1 M2 M3]; [by constructor|]. split; [done| |].
      * intros y Hy. apply M2 in Hy. set_solver.
      * intros y Hy. apply list.elem_of_cons in Hy as [-> | Hy]; [apply M3; by left|].
        apply list.elem_of_cons in Hy as [-> | Hy]; [|apply M3; by right].
        exists last. split; [by left|]. done.
    + destruct (IH x Hs0) as [M1 M2 M3]. split.
      * constructor; [done|]. apply list.Forall_forall. intros y Hy.
        destruct (entry_le_id last x Hlx) as [Hlt|]; [|done].
        apply list.elem_of_cons in Hy as [-> | Hy]; [done|].
        apply StronglySorted_inv in M1 as [_ M1]. rewrite list.Forall_forall in M1.
        unfold id_lt in *. eapply ord_trans; [exact Hlt|by apply M1].
      * intros y Hy. apply list.elem_of_cons in Hy as [-> | Hy]; [by left|]. apply M2 in Hy. by right.
      * intros y Hy. apply list.elem_of_cons in Hy as [-> | Hy].
        -- exists last. split; [by left|]. split; [done|]. apply ord_le_refl, _.
        -- destruct (M3 y Hy) as (z & Hz & Hid' & Hle). exists z. split; [by right|done].
Qed.

Lemma merge_entries_merged l : merged l (merge_entries l).
Proof.
  unfold merge_entries. pose proof (sort_by_permutation entry_cmp l) as Hp. pose proof (sort_by_sorted entry_cmp l) as Hs.
  assert (merged (sort_by entry_cmp l) (dedup_by same_id (sort_by entry_cmp l))) as [M1 M2 M3].
  { destruct (sort_by entry_cmp l) as [|x s]; [|by apply dedup_from_merged].
    split; [constructor|done|]. intros x Hx. by apply elem_of_nil in Hx. }
  split; [done| |].
  - intros x Hx. apply M2 in Hx. by rewrite Hp in Hx.
  - intros x Hx. apply M3. by rewrite Hp.
Qed.

(** ** Lemmas: the content of the chunks *)
Definition item_of (e : WEntry) : Item :=
  {| item_offset := entry_pack_offset e; item_id := id e; item_crc32 := 0 |}.
Definition entry_ok (k : Kind) (n : Z) (e : WEntry) : Prop :=
  oid_ok (id e) ∧ Hash.kind (id e) = k ∧ 0 ≤ entry_pack_index e < n ∧ 0 ≤ entry_pack_offset e < 2 ^ 64.
Definition w_larges (entries : list WEntry) : list Z := larges (item_of <$> entries).
Definition needs_large (entries : list WEntry) : bool :=
  existsb (λ e, 2 ^ 32 - 1 <? entry_pack_offset e) entries.
(** The 32-bit codes of the offsets. *)
Definition codes (entries : list WEntry) : list Z :=
  if needs_large entries then offset_codes (item_of <$> entries) 0 else entry_pack_offset <$> entries.
Definition piece (e : WEntry) (code : Z) : bytes := to_be 4 (entry_pack_index e) ++ to_be 4 code.

Lemma count_large_eq entries c b :
  count_large entries c b =
  if b || needs_large entries then Some (c + zlen (w_larges entries)) else None.
Proof.
  revert c b. unfold w_larges. induction entries as [|e entries IH]; intros c b.
  - cbn. rewrite orb_false_r. change (zlen (larges [])) with 0. by rewrite Z.add_0_r.
  - cbn [count_large needs_large existsb]. rewrite IH, fmap_cons, larges_cons, orb_assoc.
    unfold is_large. cbn [item_offset item_of]. fold (needs_large entries).
    destruct (b || (2 ^ 32 - 1 <? entry_pack_offset e) || needs_large entries); [|done].
    destruct (LARGE_OFFSET_THRESHOLD <? entry_pack_offset e); [|done]. rewrite zlen_cons. f_equal. lia.
Qed.
Lemma num_large_eq entries :
  num_large_offsets entries = if needs_large entries then Some (zlen (w_larges entries)) else None.
Proof. unfold num_large_offsets. rewrite count_large_eq. done. Qed.

Lemma offsets_write_small {E} entries c :
  Forall (λ e, 0 ≤ entry_pack_offset e < 2 ^ 32) entries →
  offsets_write (E := E) entries false c = Ok (concat (zip_with piece entries (entry_pack_offset <$> entries))).
Proof.
  induction 1 as [|e entries He _ IH]; cbn [offsets_write]; [done|].
  rewrite checked_in by done. cbn [expect mbind outcome_bind]. rewrite IH. cbn [mbind outcome_bind fmap list_fmap zip_with concat]. unfold piece. by rewrite <- app_assoc.
Qed.
Lemma offsets_write_large {E} entries c :
  Forall (λ e, 0 ≤ entry_pack_offset e < 2 ^ 64) entries → 0 ≤ c →
  c + zlen (w_larges entries) ≤ 2 ^ 31 →
  offsets_write (E := E) entries true c =
  Ok (concat (zip_with piece entries (offset_codes (item_of <$> entries) c))).
Proof.
  unfold w_larges. intros Hall. revert c. induction Hall as [|e entries He _ IH]; intros c Hc Hmax; cbn [offsets_write]; [done|].
  rewrite fmap_cons, larges_cons in *. cbn [offset_codes].
  pose proof (is_large_bounds (item_of e) ltac:(simpl; lia)) as Hb.
  unfold is_large in *. cbn [item_offset item_of] in *.
  pose proof (zlen_nonneg (larges (item_of <$> entries))).
  destruct (LARGE_OFFSET_THRESHOLD <? entry_pack_offset e).
  - rewrite zlen_cons in Hmax. unfold op_add. rewrite checked_add_in by lia.
    cbn [expect mbind outcome_bind]. rewrite IH by lia. cbn [mbind outcome_bind].
    rewrite lor_high_bit by lia. cbn [zip_with concat]. unfold piece. by rewrite <- app_assoc.
  - cbn [mbind outcome_bind]. rewrite IH by lia. cbn [mbind outcome_bind].
    rewrite wrap_small by lia. cbn [zip_with concat]. unfold piece. by rewrite <- app_assoc.
Qed.

Lemma no_large entries : needs_large entries = false →
  Forall (λ e, 0 ≤ entry_pack_offset e < 2 ^ 64) entries → Forall (λ e, 0 ≤ entry_pack_offset e < 2 ^ 32) entries.
Proof.
  intros Hn Hall. rewrite list.Forall_forall in *. intros e He. specialize (Hall e He).
  destruct (Z.ltb_spec (2 ^ 32 - 1) (entry_pack_offset e)) as [Hlt|]; [|lia].
  assert (needs_large entries = true); [|congruence].
  apply existsb_exists. exists e. split; [by apply list_elem_of_In|]. by apply Z.ltb_lt.
Qed.
Lemma offsets_write_eq {E} entries :
  Forall (λ e, 0 ≤ entry_pack_offset e < 2 ^ 64) entries → zlen (w_larges entries) ≤ 2 ^ 31 →
  offsets_write (E := E) entries (match num_large_offsets entries with Some _ => true | None => false end) 0 =
  Ok (concat (zip_with piece entries (codes entries))).
Proof.
  intros Hall Hmax. rewrite num_large_eq. unfold codes. destruct (needs_large entries) eqn:En.
  - by apply offsets_write_large.
  - by apply offsets_write_small, no_large.
Qed.

Lemma large_offsets_write_eq {E} entries :
  zlen (w_larges entries) < 2 ^ 64 →
  large_offsets_write (E := E) entries (zlen (w_larges entries)) =
  Ok (concat (to_be 8 <$> w_larges entries)).
Proof.
  unfold w_larges. induction entries as [|e entries IH]; intros Hmax; cbn [large_offsets_write]; [done|].
  rewrite fmap_cons, larges_cons in *. unfold is_large in *. cbn [item_offset item_of] in *.
  destruct (LARGE_OFFSET_THRESHOLD <? entry_pack_offset e); [|by apply IH].
  rewrite zlen_cons in *. pose proof (zlen_nonneg (larges (item_of <$> entries))).
  rewrite checked_sub_in by lia. cbn [expect mbind outcome_bind].
  replace (1 + zlen (larges (item_of <$> entries)) - 1) with (zlen (larges (item_of <$> entries))) by lia.
  rewrite IH by lia. done.
Qed.

Lemma names_size_eq {E} names count :
  Forall (λ name, is_ascii name = true) names → 0 ≤ count →
  count + zlen (concat ((λ name, name ++ [0]) <$> names)) < 2 ^ 64 →
  names_size (E := E) names count = Ok (count + zlen (concat ((λ name, name ++ [0]) <$> names))).
Proof.
  intros Hall. revert count. induction Hall as [|name names Hn _ IH]; intros count Hc Hmax; cbn [names_size].
  - cbn. change (zlen []) with 0. by rewrite Z.add_0_r.
  - rewrite Hn. cbn [assert_that mbind outcome_bind]. rewrite fmap_cons, concat_cons, !zlen_app in *.
    change (zlen [0]) with 1 in *. pose proof (zlen_nonneg name).
    pose proof (zlen_nonneg (concat ((λ name, name ++ [0]) <$> names))).
    unfold op_add. rewrite checked_add_in by lia. cbn [expect mbind outcome_bind].
    rewrite IH by lia. f_equal. lia.
Qed.

Lemma padding_range n : 0 ≤ padding n < 4.
Proof.
  unfold padding, CHUNK_ALIGNMENT. pose proof (Z.mod_pos_bound n 4 ltac:(lia)).
  destruct (Z.ltb_spec (4 - n mod 4) 4); lia.
Qed.
Lemma names_storage {E} names :
  Forall (λ name, is_ascii name = true) names →
  zlen (concat ((λ name, name ++ [0]) <$> names)) < 2 ^ 32 →
  index_names_storage_size (E := E) names = Ok (zlen (index_names_write names)).
Proof.
  intros Hall Hmax. unfold index_names_storage_size. rewrite names_size_eq by (done || lia).
  cbn [mbind outcome_bind]. rewrite Z.add_0_l. unfold index_names_write.
  set (n := zlen (concat _)) in *. pose proof (padding_range n).
  assert (0 ≤ n) by apply zlen_nonneg. unfold op_add. rewrite checked_add_in by lia.
  rewrite zlen_app. fold n. cbn [expect]. do 2 f_equal. unfold zlen. rewrite length_replicate. lia.
Qed.

(** A name that is one component. *)
Definition name_ok (name : bytes) : Prop :=
  bytes_ok name ∧ is_ascii name = true ∧ name ≠ [] ∧ name ≠ [46] ∧ name ≠ [46; 46] ∧
  Forall (λ b, b ≠ 0 ∧ b ≠ SEP) name.

Lemma split_sep_name name : Forall (λ b, b ≠ SEP) name → split_sep name = [name].
Proof.
  induction 1 as [|b name Hb _ IH]; [done|]. cbn [split_sep]. destruct (Z.eqb_spec b SEP); [done|]. by rewrite IH.
Qed.
Lemma path_from_name name : name_ok name → path_from name = [Normal name].
Proof.
  intros (_ & _ & H0 & H1 & H2 & Hs). unfold path_from.
  rewrite split_sep_name by (eapply Forall_impl; [|exact Hs]; naive_solver).
  unfold component_of, bytes_eqb. rewrite !bool_decide_eq_false_2 by done. done.
Qed.

Lemma read_names_eq names out rest :
  Forall name_ok names → Sorted path_lt (out ++ ((λ name, [Normal name]) <$> names)) →
  read_names (length names) (concat ((λ name, name ++ [0]) <$> names) ++ rest) None out =
  Ok (out ++ ((λ name, [Normal name]) <$> names), rest).
Proof.
  intros Hall. revert out. induction Hall as [|name names Hn _ IH]; intros out Hs; cbn [length read_names].
  - by rewrite app_nil_r.
  - rewrite fmap_cons, concat_cons, <- !app_assoc. cbn [app].
    set (tail := concat _ ++ rest). pose proof Hn as (_ & _ & _ & _ & _ & Hz).
    rewrite position_app; [|eapply Forall_impl; [|exact Hz]; intros b [Hb _]; simpl; by apply Z.eqb_neq|done].
    cbn [ok_or mbind outcome_bind].
    rewrite (get_range_app [] name (0 :: tail)) by done. cbn [expect mbind outcome_bind exceeds negb ensure].
    rewrite path_from_name by done.
    assert (match list.last out with
            | Some previous => bool_decide (path_cmp previous [Normal name] = Lt)
            | None => true end = true) as ->.
    { destruct (list.last out) as [prev|] eqn:El; [|done]. apply bool_decide_eq_true_2.
      apply list.last_Some in El as [out' ->]. rewrite fmap_cons in Hs.
      apply Sorted_StronglySorted in Hs; [|apply _].
      eapply (StronglySorted_app_1_elem_of path_lt (out' ++ [prev])); [exact Hs|set_solver|by left]. }
    cbn [ensure mbind outcome_bind].
    assert (get_from (name ++ 0 :: tail) (zlen name + 1) = Some tail) as ->.
    { change (0 :: tail) with ([0] ++ tail). rewrite app_assoc.
      replace (zlen name + 1) with (zlen (name ++ [0])) by (by rewrite zlen_app). apply get_from_app. }
    cbn [expect mbind outcome_bind]. subst tail. rewrite IH by (by rewrite <- app_assoc).
    by rewrite <- app_assoc.
Qed.

Lemma names_roundtrip names :
  Forall name_ok names → Sorted path_lt ((λ name, [Normal name]) <$> names) → zlen names < 2 ^ 32 →
  index_names_from_bytes (index_names_write names) (zlen names) None = Ok ((λ name, [Normal name]) <$> names).
Proof.
  intros Hall Hs Hn. unfold index_names_from_bytes, index_names_write.
  set (out := concat ((λ name, name ++ [0]) <$> names)). set (pad := replicate _ 0).
  assert (zlen names ≤ zlen out) as Hle.
  { subst out. clear. induction names as [|name names IH]; [done|].
    rewrite fmap_cons, concat_cons, zlen_cons, !zlen_app. change (zlen [0]) with 1.
    pose proof (zlen_nonneg name). lia. }
  pose proof (zlen_nonneg names). pose proof (zlen_nonneg pad).
  rewrite (proj2 (Z.ltb_ge (zlen (out ++ pad)) (zlen names))) by (rewrite zlen_app; lia).
  cbn [negb ensure mbind outcome_bind]. unfold PATHBUF_SIZE. rewrite checked_mul_in by lia.
  cbn [ok_or exceeds negb ensure mbind outcome_bind].
  replace (Z.to_nat (zlen names)) with (length names) by (unfold zlen; lia).
  subst out. rewrite (read_names_eq names [] pad Hall Hs). cbn [mbind outcome_bind app].
  assert (forallb (λ b, b =? 0) pad = true) as ->.
  { apply forallb_forall. intros x Hx. apply list_elem_of_In, elem_of_replicate in Hx as [-> _]. done. }
  by rewrite orb_true_r.
Qed.

(** ** The file that is written *)
Definition kind_byte (k : Kind) : Z := match k with Sha1 => 1 | Sha256 => 2 end.
Lemma kind_byte_from k : kind_try_from (kind_byte k) = Some k.
Proof. by destruct k. Qed.

Lemma fanout_write_eq {E} entries first_bytes fan :
  mapM (λ e, first_byte (E := E) (as_slice (id e))) entries = Ok first_bytes →
  fanout (E := E) first_bytes = Ok fan →
  fanout_write (E := E) entries = Ok (concat (to_be 4 <$> fan)).
Proof.
  unfold fanout_write. generalize (fanout (E := E)) as fan_of'. intros fan_of' H1 H2.
  rewrite H1. cbn [mbind outcome_bind]. by rewrite H2.
Qed.

Section Written.
Context (names : list bytes) (entries : list WEntry) (k : Kind).
Context (Hnames : Forall name_ok names) (Hnsorted : Sorted path_lt ((λ name, [Normal name]) <$> names))
  (Hnlen : zlen (concat ((λ name, name ++ [0]) <$> names)) < 2 ^ 32)
  (Hentries : Forall (entry_ok k (zlen names)) entries) (Hsorted : StronglySorted id_lt entries)
  (Hpos : entries ≠ []) (Hn : zlen entries < 2 ^ 32) (Hlarge : zlen (w_larges entries) ≤ 2 ^ 31).

Definition m_ids : list bytes := (λ e, as_slice (id e)) <$> entries.
Definition m_fan : list Z := count_le (first_of <$> m_ids) <$> seqZ 0 256.
Definition m_pieces : list bytes := zip_with piece entries (codes entries).
Definition m_contents : list (bytes * bytes) :=
  [(INDEX_NAMES_ID, index_names_write names); (FANOUT_ID, concat (to_be 4 <$> m_fan));
   (LOOKUP_ID, concat m_ids); (OFFSETS_ID, concat m_pieces)] ++
  (if needs_large entries then [(LARGE_OFFSETS_ID, concat (to_be 8 <$> w_larges entries))] else []).
Definition m_header : bytes :=
  SIGNATURE ++ [1] ++ [kind_byte k] ++ [zlen m_contents] ++ [0] ++ to_be 4 (zlen names).
Definition m_out : bytes := placed_file m_header [] m_contents.

Lemma m_ids_ok x : x ∈ m_ids → zlen x = len_in_bytes k ∧ bytes_ok x.
Proof using Hentries.
  intros Hx. unfold m_ids in Hx. apply list_elem_of_fmap in Hx as (e & -> & He).
  rewrite list.Forall_forall in Hentries. destruct (Hentries e He) as ([Hl Hb] & Hk & _). by rewrite Hk in Hl.
Qed.
Lemma m_ids_length : Forall (λ p, length p = Z.to_nat (len_in_bytes k)) m_ids.
Proof using Hentries.
  apply list.Forall_forall. intros x Hx. apply m_ids_ok in Hx as [Hl _]. unfold zlen in Hl. lia.
Qed.
Lemma m_offsets : Forall (λ e, 0 ≤ entry_pack_offset e < 2 ^ 64) entries.
Proof using Hentries. eapply Forall_impl; [|exact Hentries]. by intros e (_ & _ & _ & H). Qed.
Lemma m_ids_sorted : sorted_ids m_ids.
Proof using Hentries Hsorted.
  intros i j x y Hij Hx Hy. unfold m_ids in *.
  apply list_lookup_fmap_Some in Hx as (a & -> & Ha), Hy as (b & -> & Hb).
  rewrite Forall_lookup in Hentries. destruct (Hentries _ _ Ha) as (_ & Hka & _), (Hentries _ _ Hb) as (_ & Hkb & _).
  assert (id_lt a b) as Hlt.
  { rewrite <- (take_drop j entries) in Hsorted, Ha.
    rewrite lookup_app_l in Ha by (apply lookup_lt_Some in Hb; rewrite length_take; lia).
    eapply (StronglySorted_app_1_elem_of _ _ _ a b Hsorted); [by eapply list_elem_of_lookup_2|].
    rewrite (drop_S entries b j) by done. by left. }
  unfold bytes_le. unfold id_lt in Hlt. destruct (id a), (id b); simpl in *; congruence.
Qed.
Lemma m_first :
  zlen (first_of <$> m_ids) = zlen entries ∧ bytes_ok (first_of <$> m_ids) ∧
  StronglySorted Z.le (first_of <$> m_ids).
Proof using Hentries Hsorted.
  split; [unfold zlen, m_ids; by rewrite !length_fmap|]. split.
  - apply Forall_fmap, list.Forall_forall. intros x Hx. destruct (m_ids_ok x Hx). by apply (first_of_byte (k := k)).
  - apply (first_of_sorted k); [apply m_ids_ok|apply m_ids_sorted].
Qed.
Lemma m_fan_write {E} : fanout_write (E := E) entries = Ok (concat (to_be 4 <$> m_fan)).
Proof using Hentries Hsorted Hn.
  destruct m_first as (Hz & Hb & Hs).
  apply (fanout_write_eq _ (first_of <$> m_ids)); [|exact (fanout_spec _ Hs Hb ltac:(lia))].
  unfold m_ids. rewrite <- list_fmap_compose. apply mapM_Ok. intros e He.
  apply (first_byte_of (k := k)), m_ids_ok, list_elem_of_fmap. eauto.
Qed.
Lemma m_fan_range : Forall (λ x, 0 ≤ x < 2 ^ 32) m_fan.
Proof using Hentries Hsorted Hn.
  apply Forall_fmap, Forall_true. intros b. simpl. pose proof (count_le_bounds (first_of <$> m_ids) b).
  destruct m_first as (Hz & _). lia.
Qed.
Lemma m_codes_range : Forall (λ x, 0 ≤ x < 2 ^ 32) (codes entries) ∧ length (codes entries) = length entries.
Proof using Hentries Hlarge.
  unfold codes. destruct (needs_large entries) eqn:En.
  - split; [|by rewrite offset_codes_length, length_fmap]. apply offset_codes_range; [|lia|done].
    apply Forall_fmap. exact m_offsets.
  - split; [|by rewrite length_fmap]. apply Forall_fmap. exact (no_large _ En m_offsets).
Qed.
Lemma m_pieces_length : length m_pieces = length entries ∧ Forall (λ p, length p = 8%nat) m_pieces.
Proof using Hentries Hlarge.
  destruct m_codes_range as [_ Hl]. unfold m_pieces. split; [rewrite length_zip_with; lia|].
  apply list.Forall_forall. intros p Hp. apply list_elem_of_lookup in Hp as [i Hi].
  apply lookup_zip_with_Some in Hi as (e & c & -> & _). unfold piece. by rewrite length_app, !length_to_be.
Qed.

Lemma names_nonempty : 0 < zlen names.
Proof using Hentries Hpos.
  clear -Hentries Hpos. destruct entries as [|e l]; [done|]. apply list.Forall_cons in Hentries as [(_ & _ & Hp & _) _]. lia.
Qed.
Lemma names_count : zlen names ≤ zlen (concat ((λ name, name ++ [0]) <$> names)).
Proof using.
  clear. induction names as [|name l IH]; [done|].
  rewrite fmap_cons, concat_cons, zlen_cons, !zlen_app. change (zlen [0]) with 1. pose proof (zlen_nonneg name). lia.
Qed.
Lemma m_needs_large : needs_large entries = true → 0 < zlen (w_larges entries).
Proof using.
  clear. intros Hl. apply existsb_exists in Hl as (e & He%list_elem_of_In & Ho%Z.ltb_lt).
  assert (entry_pack_offset e ∈ w_larges entries) as Hin.
  { unfold w_larges, larges. apply list_elem_of_fmap. exists (item_of e). split; [done|].
    apply list_elem_of_filter. split; [|by apply list_elem_of_fmap_2].
    unfold is_large, LARGE_OFFSET_THRESHOLD. simpl. apply Is_true_true. apply Z.ltb_lt. lia. }
  destruct (w_larges entries); [by apply elem_of_nil in Hin|]. rewrite zlen_cons. pose proof (zlen_nonneg l). lia.
Qed.

Lemma m_lengths :
  0 < zlen (index_names_write names) < 2 ^ 34 ∧ zlen (concat (to_be 4 <$> m_fan)) = 1024 ∧
  zlen (concat m_ids) = zlen entries * len_in_bytes k ∧ zlen (concat m_pieces) = zlen entries * 8 ∧
  zlen (concat (to_be 8 <$> w_larges entries)) = zlen (w_larges entries) * 8.
Proof using Hentries Hpos Hnlen Hlarge.
  split; [|split; [|split; [|split]]].
  - unfold index_names_write. rewrite zlen_app. pose proof names_nonempty. pose proof names_count.
    set (n := zlen (concat _)) in *. pose proof (padding_range n). unfold zlen at 1 2. rewrite length_replicate. lia.
  - rewrite (concat_zlen 4) by (apply lengths_to_be). unfold zlen, m_fan. by rewrite !length_fmap.
  - rewrite (concat_zlen _ _ m_ids_length). pose proof (len_in_bytes_range k). unfold m_ids, zlen. rewrite length_fmap. lia.
  - destruct m_pieces_length as [Hl H8]. rewrite (concat_zlen 8) by done. unfold zlen. lia.
  - rewrite (concat_zlen 8) by (apply lengths_to_be). unfold zlen. by rewrite length_fmap.
Qed.

Lemma m_contents_ok : Forall content_ok m_contents.
Proof using Hentries Hpos Hnlen Hlarge.
  destruct m_lengths as (H1 & H2 & H3 & H4 & H5). pose proof (len_in_bytes_range k).
  assert (0 < zlen entries) as H0.
  { clear -Hpos. destruct entries; [done|]. rewrite zlen_cons. pose proof (zlen_nonneg l). lia. }
  unfold m_contents. apply Forall_app. split.
  - repeat (apply list.Forall_cons; split; [split; [done|split; [done|cbn [snd]; nia]]|]). constructor.
  - destruct (needs_large entries) eqn:En; [|constructor]. apply m_needs_large in En.
    apply list.Forall_cons. split; [split; [done|split; [done|cbn [snd]; nia]]|constructor].
Qed.
Lemma m_kinds : NoDup (fst <$> m_contents).
Proof using.
  clear. unfold m_contents. rewrite fmap_app. destruct (needs_large entries);
    apply (bool_decide_unpack _); vm_compute; exact I.
Qed.
Lemma m_num : 4 ≤ zlen m_contents ≤ 5.
Proof using. clear. unfold m_contents. destruct (needs_large entries); vm_compute; split; discriminate. Qed.
Lemma m_header_length : zlen m_header = 12.
Proof using. done. Qed.

Lemma m_total : 0 ≤ total m_contents < 2 ^ 60.
Proof using Hentries Hpos Hnlen Hlarge Hn.
  destruct m_lengths as (H1 & H2 & H3 & H4 & H5). pose proof (len_in_bytes_range k).
  split; [apply total_nonneg|]. unfold m_contents, total. rewrite fmap_app, concat_app, zlen_app.
  cbn [fmap list_fmap concat snd]. rewrite !zlen_app. change (zlen []) with 0.
  destruct (needs_large entries); cbn [fmap list_fmap concat snd]; rewrite ?zlen_app; change (zlen []) with 0; nia.
Qed.
Lemma m_start : chunks_start m_header m_contents + total m_contents < 2 ^ 61.
Proof using Hentries Hpos Hnlen Hlarge Hn.
  pose proof m_total. pose proof m_num. unfold chunks_start, size_for_entries, ENTRY_SIZE.
  rewrite m_header_length. lia.
Qed.

(** Planning and writing produce this file. *)
Lemma m_plan : plan names entries k (num_large_offsets entries) =
  Ok {| will_write := true; Chunk.chunks := planned (m_contents) |}.
Proof using Hnames Hentries Hpos Hnlen Hlarge Hn.
  destruct m_lengths as (H1 & H2 & H3 & H4 & H5). pose proof (len_in_bytes_range k). pose proof (zlen_nonneg entries).
  pose proof (zlen_nonneg (w_larges entries)). unfold plan. rewrite names_storage; [|eapply Forall_impl; [|exact Hnames]; by intros n (_ & ? & _)|done].
  rewrite num_large_eq. unfold lookup_storage_size, offsets_storage_size, large_offsets_storage_size, op_mul.
  rewrite !checked_mul_in by nia. cbn [expect mbind outcome_bind].
  pose proof (plan_all_eq (E := mi_error) m_contents [] m_kinds) as Hp. revert Hp. unfold m_contents.
  change FANOUT_SIZE with 1024. change (4 + 4) with 8. rewrite <- H2, <- H3, <- H4.
  destruct (needs_large entries).
  - rewrite checked_mul_in by nia. cbn [expect mbind outcome_bind].
    replace (8 * zlen (w_larges entries)) with (zlen (concat (to_be 8 <$> w_larges entries))) by lia. auto.
  - auto.
Qed.

Lemma planned_size_eq {E} contents acc :
  0 ≤ acc → acc + total contents < 2 ^ 64 →
  foldl (λ acc e, acc ← acc; op_add 64 acc (offset e).2) (Ok acc) (planned contents) =
  Ok (E := E) (acc + total contents).
Proof.
  revert acc. induction contents as [|[kd d] contents IH]; intros acc H0 Hmax.
  - unfold total. cbn. change (zlen []) with 0. by rewrite Z.add_0_r.
  - rewrite total_cons in *. pose proof (zlen_nonneg d). pose proof (total_nonneg contents).
    cbn [planned fmap list_fmap foldl offset snd mbind outcome_bind]. unfold op_add at 2.
    rewrite checked_add_in by lia. cbn [expect]. fold (planned contents). rewrite IH by lia. f_equal. lia.
Qed.

Lemma m_content kd d :
  (kd, d) ∈ m_contents → chunk_content kd names entries (num_large_offsets entries) = Ok d.
Proof using Hentries Hsorted Hn Hlarge.
  unfold m_contents. rewrite elem_of_app. intros Hin. unfold chunk_content.
  destruct Hin as [Hin|Hin].
  - repeat (apply list.elem_of_cons in Hin as [[= -> ->] | Hin]; [|]); [done| | |
      |by apply elem_of_nil in Hin].
    + exact m_fan_write.
    + done.
    + exact (offsets_write_eq _ m_offsets Hlarge).
  - rewrite num_large_eq. destruct (needs_large entries); [|by apply elem_of_nil in Hin].
    apply list_elem_of_singleton in Hin as [= -> ->].
    change (large_offsets_write (E := mi_error) entries (zlen (w_larges entries)) =
            Ok (concat (to_be 8 <$> w_larges entries))).
    apply large_offsets_write_eq. lia.
Qed.

(** The loop that writes chunks, when it is never interrupted. *)
Lemma write_loop_eq should_interrupt cs c loads :
  (∀ i, should_interrupt i = false) →
  (∀ kd d, (kd, d) ∈ cs → chunk_content kd names entries (num_large_offsets entries) = Ok d) →
  match next_entry c with Some e => (offset e).2 = written_bytes c | None => True end →
  chunks_to_write c = planned cs → total cs < 2 ^ 64 →
  write_loop should_interrupt (S (length cs)) names entries (num_large_offsets entries) c loads =
  Ok (inner c ++ concat (snd <$> cs)).
Proof using.
  clear. intros Hint. revert c loads. induction cs as [|[kd d] cs IH]; intros c loads Hcont Hnext Hc Hmax.
  - cbn [write_loop length]. unfold next_chunk. rewrite Hc.
    destruct (next_entry c) as [e|]; [rewrite Hnext, Z.eqb_refl|]; cbn; by rewrite app_nil_r.
  - rewrite total_cons in Hmax. pose proof (zlen_nonneg d). pose proof (total_nonneg cs).
    cbn [length]. remember (S (length cs)) as fuel. cbn [write_loop]. unfold next_chunk. rewrite Hc.
    assert ((match next_entry c with
       | Some entry => assert_that ((offset entry).2 =? written_bytes c)
       | None => Ok () end) = Ok (E := mi_error) ()) as ->.
    { destruct (next_entry c) as [e|]; [by rewrite Hnext, Z.eqb_refl|done]. }
    cbn [mbind outcome_bind planned fmap list_fmap Chunk.kind].
    rewrite (Hcont kd d) by (by left). cbn [mbind outcome_bind]. unfold chunk_write, op_add. cbn [written_bytes].
    rewrite checked_add_in by lia. cbn [expect mbind outcome_bind]. rewrite Hint. cbn [negb ensure mbind outcome_bind].
    subst fuel. rewrite IH; [|intros; apply Hcont; by right|by simpl|done|lia]. cbn [inner]. by rewrite <- app_assoc.
Qed.

Lemma m_into_write {E} :
  ∃ c, into_write (E := E) {| will_write := true; Chunk.chunks := planned m_contents |} (m_header) HEADER_LEN = Ok c ∧
    next_entry c = None ∧ chunks_to_write c = planned m_contents ∧
    inner c ++ concat (snd <$> m_contents) = m_out.
Proof using Hentries Hpos Hnlen Hlarge Hn.
  pose proof m_start as Hst. pose proof m_total. unfold chunks_start in Hst. rewrite m_header_length in Hst.
  pose proof m_num. unfold into_write, num_chunks, op_add. cbn [will_write Chunk.chunks assert_that mbind outcome_bind].
  assert (zlen (planned m_contents) = zlen m_contents) as -> by (unfold zlen, planned; by rewrite length_fmap).
  change HEADER_LEN with 12 in *. unfold size_for_entries, ENTRY_SIZE in *.
  rewrite checked_add_in by lia. cbn [expect mbind outcome_bind].
  rewrite write_toc_eq by lia. cbn [mbind outcome_bind]. eexists. split; [done|]. split; [done|]. split; [done|].
  cbn [inner]. unfold m_out, placed_file, chunks_start, full_toc, size_for_entries, ENTRY_SIZE.
  rewrite m_header_length, app_nil_r. by rewrite <- !app_assoc.
Qed.

(** Reading it back, with the checksum at its end. *)
Context (sum : ObjectId) (Hsum : oid_ok sum ∧ Hash.kind sum = k) (p : path).
Definition m_data : bytes := placed_file m_header (as_slice sum) m_contents.

Lemma m_data_eq : m_out ++ as_slice sum = m_data.
Proof using. unfold m_out, m_data, placed_file. by rewrite app_nil_r, <- !app_assoc. Qed.
Lemma m_sum_length : zlen (as_slice sum) = len_in_bytes k.
Proof using Hsum. destruct Hsum as [[Hl _] Hk]. by rewrite Hl, Hk. Qed.
Lemma m_data_length : zlen m_data = chunks_start m_header m_contents + total m_contents + len_in_bytes k.
Proof using Hentries Hpos Hnlen Hlarge Hsum.
  unfold m_data. rewrite zlen_placed_file by (apply m_contents_ok). by rewrite m_sum_length.
Qed.

Lemma bytes_ok_concat (l : list bytes) : Forall bytes_ok l → bytes_ok (concat l).
Proof using. clear. induction 1; [constructor|]. by apply bytes_ok_app. Qed.
Lemma bytes_ok_full_toc start contents :
  Forall (λ c, bytes_ok c.1) contents → bytes_ok (full_toc start contents).
Proof using.
  clear. intros Hall. unfold full_toc. rewrite !bytes_ok_app. split; [|split; apply bytes_ok_to_be].
  revert start. induction Hall as [|[kd d] l Hk _ IH]; intros start; [constructor|].
  cbn [toc_bytes]. rewrite !bytes_ok_app. split; [done|]. split; [apply bytes_ok_to_be|apply IH].
Qed.

Lemma m_contents_bytes : Forall (λ c, bytes_ok c.1 ∧ bytes_ok c.2) m_contents.
Proof using Hnames Hentries Hlarge.
  assert (∀ n (l : list Z), bytes_ok (concat (to_be n <$> l))) as Hb.
  { intros n l. apply bytes_ok_concat, Forall_fmap, Forall_true. intros x. apply bytes_ok_to_be. }
  assert (∀ l : bytes, forallb (in_u 8) l = true → bytes_ok l) as Hc by (intros l; apply bytes_ok_bool).
  unfold m_contents. apply Forall_app. split.
  - repeat (apply list.Forall_cons; split; [split; cbn [fst snd]; [by apply Hc|]|]); [..|constructor].
    + unfold index_names_write. apply bytes_ok_app. split.
      * apply bytes_ok_concat, Forall_fmap. eapply Forall_impl; [|exact Hnames]. intros n (Hn' & _).
        apply bytes_ok_app. split; [done|]. by apply Hc.
      * apply Forall_replicate. by split.
    + apply Hb.
    + apply bytes_ok_concat, list.Forall_forall. intros x Hx. by apply m_ids_ok.
    + apply bytes_ok_concat, list.Forall_forall. intros x Hx. unfold m_pieces in Hx.
      apply list_elem_of_lookup in Hx as [i Hi]. apply lookup_zip_with_Some in Hi as (e & c & -> & _).
      apply bytes_ok_app. split; apply bytes_ok_to_be.
  - destruct (needs_large entries); [|constructor]. apply list.Forall_cons.
    split; [split; [by apply Hc|apply Hb]|constructor].
Qed.
Lemma m_bytes_ok : bytes_ok m_data.
Proof using Hnames Hentries Hlarge Hsum.
  unfold m_data, placed_file. rewrite !bytes_ok_app. pose proof m_contents_bytes as Hc.
  split; [|split; [|split]].
  - unfold m_header. pose proof m_num as Hnum. rewrite !bytes_ok_app.
    repeat split; try apply bytes_ok_to_be; try (constructor; [|constructor]; unfold is_byte; destruct k; simpl; lia).
    apply bytes_ok_bool. done.
  - apply bytes_ok_full_toc. eapply Forall_impl; [|exact Hc]. by intros c [? _].
  - apply bytes_ok_concat, Forall_fmap. eapply Forall_impl; [|exact Hc]. by intros c [_ ?].
  - by destruct Hsum as [[_ ?] _].
Qed.

Lemma m_read_header :
  read_header m_data = Ok (k, zlen m_contents, zlen names).
Proof using Hnlen.
  pose proof names_count as Hc. unfold m_data, placed_file, m_header.
  pose proof (zlen_nonneg names) as H0.
  assert (∃ i0 i1 i2 i3, to_be 4 (zlen names) = [i0; i1; i2; i3]) as (i0 & i1 & i2 & i3 & Hi).
  { pose proof (length_to_be 4 (zlen names)) as Hl. destruct (to_be 4 (zlen names)) as [|? [|? [|? [|? [|]]]]]; try done. eauto. }
  assert (zlen names < 2 ^ 32) as Hn32 by (lia).
  rewrite Hi.
  change (SIGNATURE ++ [1] ++ [kind_byte k] ++ [zlen m_contents] ++ [0] ++ [i0; i1; i2; i3])
    with (header_of 77 73 68 88 1 (kind_byte k) (zlen m_contents) 0 i0 i1 i2 i3).
  rewrite read_header_eq. change (bytes_eqb [77; 73; 68; 88] SIGNATURE) with true.
  cbn [ensure mbind outcome_bind Z.eqb Pos.eqb].
  rewrite kind_byte_from. cbn [ok_or mbind outcome_bind].
  rewrite <- Hi, from_to_be by done. done.
Qed.

(** What opening the file gives. *)
Record opened (f : File) : Prop := {
  op_from : from_data m_data p None = Ok f;
  op_data : data f = m_data;
  op_hash : object_hash f = k;
  op_hash_len : hash_len f = len_in_bytes k;
  op_num : num_objects f = zlen entries;
  op_indices : num_indices f = zlen names;
  op_fan : fan f = m_fan;
  op_names : index_names f = (λ name, [Normal name]) <$> names;
  op_lookup : get_range m_data (lookup_ofs f) (lookup_ofs f + zlen (concat m_ids)) = Some (concat m_ids);
  op_offsets : get_range m_data (offsets_ofs f) (offsets_ofs f + zlen (concat m_pieces)) = Some (concat m_pieces);
  op_large : if needs_large entries
    then ∃ s, large_offsets f = Some (s, s + zlen (w_larges entries) * 8) ∧
      get_range m_data s (s + zlen (w_larges entries) * 8) = Some (concat (to_be 8 <$> w_larges entries))
    else large_offsets f = None;
}.

Lemma m_fan_get : get m_fan 255 = Some (zlen entries).
Proof using Hentries Hsorted.
  unfold m_fan, get. cbn [Z.leb Z.compare]. rewrite list_lookup_fmap, lookup_seqZ_lt by lia.
  cbn [fmap option_fmap option_map]. f_equal. destruct m_first as (Hz & Hb & _).
  rewrite count_le_all; [done|]. eapply Forall_impl; [|exact Hb].
  unfold is_byte. intros x Hx. simpl. change (Z.to_nat 255) with 255%nat. lia.
Qed.
Lemma m_fan_read : fanout_from_bytes (concat (to_be 4 <$> m_fan)) = Some m_fan.
Proof using Hentries Hpos Hnlen Hlarge Hsorted Hn.
  unfold fanout_from_bytes. destruct m_lengths as (_ & -> & _). change (1024 =? FANOUT_SIZE) with true.
  cbv iota. rewrite chunks_concat by (done || apply lengths_to_be). f_equal. apply from_to_be4, m_fan_range.
Qed.

Lemma m_in :
  (INDEX_NAMES_ID, index_names_write names) ∈ m_contents ∧ (FANOUT_ID, concat (to_be 4 <$> m_fan)) ∈ m_contents ∧
  (LOOKUP_ID, concat m_ids) ∈ m_contents ∧ (OFFSETS_ID, concat m_pieces) ∈ m_contents.
Proof using.
  unfold m_contents. split; [|split; [|split]]; apply elem_of_app; left; [by left|..]; right; [by left|..]; right;
    [by left|right; by left].
Qed.
Lemma m_chunk_data kd d : (kd, d) ∈ m_contents → chunk_data (placed_index m_header m_contents) m_data kd = Ok d.
Proof using Hentries Hpos Hnlen Hlarge Hn Hsum.
  intros Hin. unfold chunk_data, m_data. pose proof m_start.
  by rewrite (data_by_id_placed m_header (as_slice sum) m_contents m_contents_ok m_kinds ltac:(lia) _ _ Hin).
Qed.
Lemma m_required kd d is_valid :
  (kd, d) ∈ m_contents → (∀ s, is_valid (s, s + zlen d) = true) →
  ∃ s, required_chunk (placed_index m_header m_contents) kd is_valid = Ok (s, s + zlen d) ∧
    get_range m_data s (s + zlen d) = Some d.
Proof using Hentries Hpos Hnlen Hlarge Hn Hsum.
  intros Hin Hv. pose proof m_start.
  destruct (validated_placed m_header (as_slice sum) m_contents m_contents_ok m_kinds ltac:(lia) kd d
    (valid_chunk kd is_valid) Hin) as (s & Hs & Hg & H0).
  exists s. split; [|done]. unfold required_chunk. rewrite Hs. unfold valid_chunk. by rewrite Hv.
Qed.

Lemma m_optional :
  ∃ o, optional_chunk (placed_index m_header m_contents) LARGE_OFFSETS_ID large_offsets_is_valid = Ok o ∧
    if needs_large entries
    then ∃ s, o = Some (s, s + zlen (w_larges entries) * 8) ∧
      get_range m_data s (s + zlen (w_larges entries) * 8) = Some (concat (to_be 8 <$> w_larges entries))
    else o = None.
Proof using Hentries Hpos Hnlen Hlarge Hn Hsum.
  pose proof m_start. destruct m_lengths as (_ & _ & _ & _ & H5).
  destruct (needs_large entries) eqn:En.
  - destruct (validated_placed m_header (as_slice sum) m_contents m_contents_ok m_kinds ltac:(lia) LARGE_OFFSETS_ID
      (concat (to_be 8 <$> w_larges entries)) (valid_chunk LARGE_OFFSETS_ID large_offsets_is_valid))
      as (s & Hs & Hg & H0).
    { unfold m_contents. rewrite En. apply elem_of_app. right. by left. }
    rewrite H5 in *. exists (Some (s, s + zlen (w_larges entries) * 8)). split.
    + unfold optional_chunk. rewrite Hs. unfold valid_chunk, large_offsets_is_valid, range_len. cbn [fst snd].
      replace (s + zlen (w_larges entries) * 8 - s) with (zlen (w_larges entries) * 8) by lia.
      by rewrite Z.mod_mul by lia.
    + exists s. split; [done|]. exact Hg.
  - exists None. split; [|done]. unfold optional_chunk. rewrite validated_not_placed; [done|].
    unfold m_contents. rewrite En. vm_compute. intros Hin.
    repeat (apply list.elem_of_cons in Hin as [Hin | Hin]; [discriminate Hin|]). by apply elem_of_nil in Hin.
Qed.

Lemma m_opened : ∃ f, opened f.
Proof using All.
  pose proof m_start as Hst. pose proof m_num as Hnum. pose proof m_data_length as Hz.
  pose proof (len_in_bytes_range k) as Hk. pose proof names_count as Hc. pose proof (zlen_nonneg names).
  pose proof (zlen_nonneg entries).
  destruct m_lengths as (H1 & H2 & H3 & H4 & _).
  assert (zlen m_data < 2 ^ 64) as H64 by lia.
  destruct m_in as (I1 & I2 & I3 & I4).
  destruct (m_required LOOKUP_ID (concat m_ids) (lookup_is_valid k (zlen entries)) I3) as (ls & Hls & Hlg).
  { intros s. unfold lookup_is_valid, range_len, saturating_mul. cbn [fst snd]. apply Z.eqb_eq. rewrite H3. nia. }
  destruct (m_required OFFSETS_ID (concat m_pieces) (offsets_is_valid (zlen entries)) I4) as (os & Hos & Hog).
  { intros s. unfold offsets_is_valid, range_len, saturating_mul. cbn [fst snd]. apply Z.eqb_eq. rewrite H4. nia. }
  destruct m_optional as (large & Hlo & Hlarge').
  eexists {| data := m_data; file_path := p; hash_len := len_in_bytes k; object_hash := k; fan := m_fan;
     index_names := (λ name, [Normal name]) <$> names; alloc_limit_bytes := None;
     lookup_ofs := ls; offsets_ofs := os; large_offsets := large;
     num_objects := zlen entries; num_indices := zlen names |}.
  split; try done. unfold from_data.
  rewrite (proj2 (Z.ltb_ge (zlen m_data) MIN_SIZE)).
  2:{ change MIN_SIZE with 1116. rewrite Hz. unfold chunks_start, size_for_entries, ENTRY_SIZE. rewrite m_header_length.
      assert (1025 ≤ total m_contents); [|lia]. unfold m_contents, total. rewrite fmap_app, concat_app, zlen_app.
      cbn [fmap list_fmap concat snd]. rewrite !zlen_app, H2.
      repeat match goal with |- context [zlen ?l] =>
        lazymatch goal with _ : 0 ≤ zlen l |- _ => fail | _ => pose proof (zlen_nonneg l) end end. lia. }
  cbn [negb ensure mbind outcome_bind]. rewrite m_read_header. cbn [mbind outcome_bind].
  change HEADER_LEN with (zlen m_header).
  assert (Chunk.from_bytes m_data (zlen m_header) (zlen m_contents) = Ok (placed_index m_header m_contents)) as ->
    by (apply from_bytes_placed; [apply m_contents_ok|apply m_kinds|lia|exact H64]).
  cbn [map_err mbind outcome_bind].
  rewrite (m_chunk_data _ _ I1).
  cbn [mbind outcome_bind]. rewrite names_roundtrip by (done || lia). cbn [mbind outcome_bind].
  rewrite (m_chunk_data _ _ I2).
  cbn [mbind outcome_bind]. rewrite m_fan_read. cbn [ok_or mbind outcome_bind]. rewrite m_fan_get.
  cbn [expect mbind outcome_bind]. assert (fan_is_monotonically_increasing m_fan = true) as -> by apply count_fan_mono. cbn [ensure mbind outcome_bind].
  rewrite Hls. cbn [mbind outcome_bind]. rewrite Hos. cbn [mbind outcome_bind]. rewrite Hlo. cbn [mbind outcome_bind].
  rewrite highest_placed by lia. cbn [map_err mbind outcome_bind].
  assert (get_from m_data (chunks_start m_header m_contents + total m_contents) = Some (as_slice sum)) as ->.
  { rewrite <- m_data_eq. replace (chunks_start m_header m_contents + total m_contents) with (zlen m_out).
    - apply get_from_app.
    - unfold m_out. rewrite zlen_placed_file by (apply m_contents_ok). change (zlen []) with 0. lia. }
  cbn [expect mbind outcome_bind]. rewrite m_sum_length, Z.eqb_refl. done.
Qed.

Section Access.
Context (f : File) (Hop : opened f).

Lemma m_ok : mi_ok f.
Proof using All.
  pose proof m_start. pose proof m_data_length. pose proof (len_in_bytes_range k).
  pose proof (mi_from_data_ok m_data p None m_bytes_ok ltac:(lia)) as Hs. rewrite (op_from f Hop) in Hs. by destruct Hs.
Qed.

(** A piece of a chunk is where its position says. *)
Lemma piece_in (d part : bytes) start o n :
  get_range d start (start + zlen part) = Some part → 0 ≤ o → o + n ≤ zlen part → 0 ≤ n →
  take (Z.to_nat n) (drop (Z.to_nat (start + o)) d) = take (Z.to_nat n) (drop (Z.to_nat o) part).
Proof using.
  clear. intros Hg H0 Hn Hn0. apply get_range_Some in Hg as (Hs & Hl & _ & ->).
  rewrite drop_take_drop by lia. f_equal. f_equal. lia.
Qed.

Lemma m_oid_at {E} i e :
  entries !! i = Some e → oid_at_index (E := E) f (Z.of_nat i) = Ok (as_slice (id e)).
Proof using All.
  intros He. apply lookup_lt_Some in He as Hi. pose proof (len_in_bytes_range k). destruct m_lengths as (_ & _ & H3 & _).
  destruct (mi_oid_at_ok f m_ok (E := E) (Z.of_nat i)) as (x & -> & _ & _ & Hx);
    [rewrite (op_num f Hop); unfold zlen; lia|]. f_equal. rewrite Hx, (op_hash_len f Hop), (op_data f Hop).
  rewrite (piece_in _ _ _ _ _ (op_lookup f Hop)); [|lia|rewrite H3; unfold zlen; nia|lia].
  rewrite <- (app_nil_r (concat m_ids)).
  replace (Z.to_nat (Z.of_nat i * len_in_bytes k)) with (i * Z.to_nat (len_in_bytes k))%nat by nia.
  apply concat_piece; [apply m_ids_length|]. unfold m_ids. by rewrite list_lookup_fmap, He.
Qed.

Lemma m_piece i e c :
  entries !! i = Some e → codes entries !! i = Some c →
  pack_of f (Z.of_nat i) = entry_pack_index e ∧ ofs32_of f (Z.of_nat i) = c.
Proof using All.
  intros He Hc. apply lookup_lt_Some in He as Hi. destruct m_lengths as (_ & _ & _ & H4 & _).
  destruct m_pieces_length as [_ H8]. pose proof names_count as Hcount.
  assert (take 8 (drop (Z.to_nat (offsets_ofs f + Z.of_nat i * 8)) m_data) = piece e c) as Hp.
  { change 8%nat with (Z.to_nat 8). rewrite (piece_in _ _ _ _ _ (op_offsets f Hop)); [|lia|rewrite H4; unfold zlen; lia|lia].
    rewrite <- (app_nil_r (concat m_pieces)).
    replace (Z.to_nat (Z.of_nat i * 8)) with (i * Z.to_nat 8)%nat by lia.
    apply concat_piece; [exact H8|]. unfold m_pieces. rewrite lookup_zip_with, He, Hc. done. }
  pose proof Hentries as Hall. rewrite Forall_lookup in Hall. destruct (Hall _ _ He) as (_ & _ & Hpi & _).
  destruct m_codes_range as [Hr _]. rewrite Forall_lookup in Hr. specialize (Hr _ _ Hc). simpl in Hr.
  pose proof (ok_offsets f m_ok) as [Ho0 _].
  unfold pack_of, ofs32_of, be_at. rewrite (op_data f Hop). split.
  - replace (take 4 _) with (take 4 (take 8 (drop (Z.to_nat (offsets_ofs f + Z.of_nat i * 8)) m_data)))
      by (by rewrite take_take).
    rewrite Hp. unfold piece. rewrite (take_app_le (to_be 4 _)) by (rewrite length_to_be; lia).
    rewrite take_ge by (rewrite length_to_be; lia). apply from_to_be. lia.
  - replace (Z.to_nat (offsets_ofs f + Z.of_nat i * 8 + 4)) with (Z.to_nat (offsets_ofs f + Z.of_nat i * 8) + 4)%nat by lia.
    rewrite <- drop_drop.
    replace (take 4 (drop 4 (drop (Z.to_nat (offsets_ofs f + Z.of_nat i * 8)) m_data)))
      with (drop 4 (take 8 (drop (Z.to_nat (offsets_ofs f + Z.of_nat i * 8)) m_data)))
      by (by rewrite skipn_firstn_comm).
    rewrite Hp. unfold piece. change 4%nat with (length (to_be 4 (entry_pack_index e))) at 1.
    rewrite drop_app_length. by apply from_to_be.
Qed.

Lemma m_pack_at i e :
  entries !! i = Some e →
  pack_id_and_pack_offset_at_index f (Z.of_nat i) = Ok (entry_pack_index e, entry_pack_offset e).
Proof using All.
  intros He. apply lookup_lt_Some in He as Hi.
  pose proof m_offsets as Ho. rewrite Forall_lookup in Ho. specialize (Ho _ _ He). simpl in Ho.
  pose proof Hentries as Hall. rewrite Forall_lookup in Hall. destruct (Hall _ _ He) as (_ & _ & Hpi & _).
  rewrite (pack_at_eq f m_ok) by (rewrite (op_num f Hop); unfold zlen; lia).
  destruct m_codes_range as [Hr Hcl]. destruct (lookup_lt_is_Some_2 (codes entries) i) as [c Hc]; [lia|].
  destruct (m_piece i e c He Hc) as [-> ->]. rewrite (op_indices f Hop).
  rewrite (proj2 (Z.leb_gt _ _)) by lia. pose proof (op_large f Hop) as Hl. unfold offset_of.
  unfold codes in Hc. destruct (needs_large entries) eqn:En.
  - destruct Hl as (s & -> & Hs). cbn [fst snd].
    destruct (offset_codes_lookup (item_of <$> entries) 0 i (item_of e)) as (c' & Hc' & Hspec);
      [by rewrite list_lookup_fmap, He|]. rewrite Hc in Hc'. injection Hc' as <-.
    pose proof (is_large_bounds (item_of e) ltac:(simpl; lia)) as Hb. cbn [item_offset item_of] in *.
    destruct (is_large (item_of e)).
    + destruct Hspec as (j & -> & Hj). apply lookup_lt_Some in Hj as Hjl.
      destruct (Z.ltb_spec (2 ^ 31 + 0 + Z.of_nat j) (2 ^ 31)); [lia|]. unfold range_len. cbn [fst snd].
      replace (s + zlen (w_larges entries) * 8 - s) with (zlen (w_larges entries) * 8) by lia.
      rewrite Z.div_mul by lia.
      destruct (Z.leb_spec (zlen (w_larges entries)) (2 ^ 31 + 0 + Z.of_nat j - 2 ^ 31));
        [unfold w_larges, zlen in *; lia|]. cbn [mbind outcome_bind]. do 2 f_equal.
      unfold be_at. rewrite (op_data f Hop). change 8%nat with (Z.to_nat 8).
      destruct m_lengths as (_ & _ & _ & _ & H5). rewrite <- H5 in Hs.
      rewrite (piece_in _ _ _ _ _ Hs); [|lia|rewrite H5; unfold w_larges, zlen in *; lia|lia].
      rewrite <- (app_nil_r (concat _)).
      replace (Z.to_nat ((2 ^ 31 + 0 + Z.of_nat j - 2 ^ 31) * 8)) with (j * Z.to_nat 8)%nat by lia.
      rewrite (concat_piece (Z.to_nat 8) _ _ j (to_be 8 (entry_pack_offset e))).
      * by apply from_to_be.
      * apply lengths_to_be.
      * unfold w_larges. by rewrite list_lookup_fmap, Hj.
    + subst c. destruct (Z.ltb_spec (entry_pack_offset e) (2 ^ 31)); [done|lia].
  - rewrite Hl. apply list_lookup_fmap_Some in Hc as (e' & -> & He'). simplify_eq. done.
Qed.

Lemma m_table_ok {E} : IdTableOk (table (E := E) f) k m_ids.
Proof using All.
  assert (zlen m_ids = zlen entries) as Hz by (unfold zlen, m_ids; by rewrite length_fmap).
  split; cbn [tab_num tab_at tab_fan table].
  - by rewrite Hz, (op_num f Hop).
  - by rewrite Hz.
  - intros i x Hx. unfold m_ids in Hx. apply list_lookup_fmap_Some in Hx as (e & -> & He). by apply m_oid_at.
  - apply m_ids_ok.
  - exact m_ids_sorted.
  - rewrite (op_fan f Hop). apply count_le_fan_ok. by destruct m_first as (_ & _ & ?).
Qed.

Lemma m_entry_at i e :
  entries !! i = Some e →
  entry_at_index f (Z.of_nat i) =
  Ok {| oid := id e; pack_offset := entry_pack_offset e; pack_index := entry_pack_index e |}.
Proof using All.
  intros He. apply lookup_lt_Some in He as Hi. unfold entry_at_index. rewrite (m_pack_at _ _ He).
  cbn [mbind outcome_bind]. rewrite (m_oid_at _ _ He). cbn [mbind outcome_bind].
  pose proof Hentries as Hall. rewrite Forall_lookup in Hall. destruct (Hall _ _ He) as ([Hl _] & Hk & _).
  destruct (from_bytes_or_panic_ok (E := mi_error) _ _ Hl) as (o & -> & Hs & Hko).
  cbn [mbind outcome_bind]. by rewrite (as_slice_inj o (id e)).
Qed.
Lemma m_iter :
  iter f = (λ e, Ok {| oid := id e; pack_offset := entry_pack_offset e; pack_index := entry_pack_index e |}) <$> entries.
Proof using All.
  unfold iter. rewrite (op_num f Hop). apply list_eq. intros i. rewrite !list_lookup_fmap.
  destruct (decide (i < length entries)%nat) as [Hi|Hi].
  - rewrite lookup_seqZ_lt by (unfold zlen; lia). destruct (lookup_lt_is_Some_2 entries i Hi) as [e He].
    rewrite He. cbn [fmap option_fmap option_map]. f_equal. rewrite Z.add_0_l. by apply m_entry_at.
  - rewrite lookup_seqZ_ge by (unfold zlen; lia). rewrite lookup_ge_None_2 by lia. done.
Qed.
End Access.
End Written.

(** ** Lemmas: collecting the entries of indices *)
Lemma iter_entries {E} f :
  index_ok f → ∃ es, PackIndex.iter (E := E) f = Ok es ∧
    ∀ e, e ∈ es → oid_ok (PackIndex.oid e) ∧ Hash.kind (PackIndex.oid e) = PackIndex.object_hash f ∧
      0 ≤ PackIndex.pack_offset e < 2 ^ 64.
Proof.
  intros Hf.
  assert (∃ es, PackIndex.iter (E := E) f = Ok es ∧ zlen es = PackIndex.num_objects f ∧
    ∀ i e, es !! i = Some e → entry_at (E := E) f (Z.of_nat i) e) as (es & Hes & Hl & Hall).
  { destruct (version f) eqn:Hv; [by apply iter_v1_ok|by apply iter_v2_ok]. }
  exists es. split; [done|]. intros e He. apply list_elem_of_lookup in He as [i Hi].
  destruct (Hall i e Hi) as (Hid & Hk & _ & Ho & _). split; [|done].
  apply lookup_lt_Some in Hi. destruct (PackIndex.oid_at_ok f Hf (E := E) (Z.of_nat i)) as (x & Hx & Hxl & Hb);
    [unfold zlen in Hl; lia|]. rewrite Hid in Hx. injection Hx as <-. split; [|done].
  by rewrite Hxl, Hk, (PackIndex.ok_hash_len f Hf).
Qed.

Section Collect.
Context (fs : FileSystem) (k : Kind).

(** The entries of the index at a path. *)
Definition index_entries (p : path) : list PackIndex.Entry :=
  match open_index fs p k with
  | Ok f => match PackIndex.iter (E := mi_error) f with Ok es => es | _ => [] end
  | _ => []
  end.
Definition mtime (p : path) : Z := default 0 (fs_modified fs p).
Definition tag (i : nat) (p : path) (e : PackIndex.Entry) : WEntry :=
  {| id := PackIndex.oid e; entry_pack_index := wrap 32 (Z.of_nat i);
     entry_pack_offset := PackIndex.pack_offset e; index_mtime := mtime p |}.
Fixpoint all_entries (paths : list path) (i : nat) : list WEntry :=
  match paths with
  | [] => []
  | p :: paths => (tag i p <$> index_entries p) ++ all_entries paths (S i)
  end.

Definition opens (p : path) : Prop :=
  ∃ d f, fs_read fs p = Some d ∧ bytes_ok d ∧ PackIndex.from_data d k = Ok f.

Lemma opens_index p :
  opens p → ∃ f, open_index fs p k = Ok f ∧ index_ok f ∧ PackIndex.object_hash f = k.
Proof.
  intros (d & f & Hd & Hb & Hf). exists f. unfold open_index. rewrite Hd. cbn [ok_or mbind outcome_bind].
  rewrite Hf. split; [done|]. destruct (PackIndex.from_data_ok d k Hb) as [_ Hok].
  destruct (Hok f Hf) as (Hi & _ & Hk). done.
Qed.
Lemma index_entries_ok p e :
  opens p → e ∈ index_entries p →
  oid_ok (PackIndex.oid e) ∧ Hash.kind (PackIndex.oid e) = k ∧ 0 ≤ PackIndex.pack_offset e < 2 ^ 64.
Proof.
  intros Hp He. destruct (opens_index p Hp) as (f & Hf & Hok & Hk). unfold index_entries in He. rewrite Hf in He.
  destruct (iter_entries (E := mi_error) f Hok) as (es & Hes & Hall). rewrite Hes in He. rewrite <- Hk. by apply Hall.
Qed.

Lemma collect_eq should_interrupt paths i acc :
  (∀ j, should_interrupt j = false) → Forall opens paths →
  collect_entries fs should_interrupt paths k i acc = Ok (acc ++ all_entries paths i).
Proof.
  intros Hint Hall. revert i acc. induction Hall as [|p paths Hp _ IH]; intros i acc; cbn [collect_entries all_entries].
  - by rewrite app_nil_r.
  - unfold index_entries. destruct (opens_index p Hp) as (f & -> & Hok & _). cbn [mbind outcome_bind].
    destruct (iter_entries (E := mi_error) f Hok) as (es & -> & _). cbn [mbind outcome_bind].
    rewrite Hint. cbn [negb ensure mbind outcome_bind]. rewrite IH. by rewrite <- app_assoc.
Qed.

Lemma all_entries_elem paths i e :
  e ∈ all_entries paths i ↔
  ∃ j p x, paths !! j = Some p ∧ x ∈ index_entries p ∧ e = tag (i + j) p x.
Proof.
  revert i. induction paths as [|q paths IH]; intros i; cbn [all_entries].
  - split; [by intros ?%elem_of_nil|]. by intros (j & p & x & ? & _).
  - rewrite elem_of_app, IH, list_elem_of_fmap. split.
    + intros [(x & -> & Hx)|(j & p & x & Hj & Hx & ->)].
      * exists 0%nat, q, x. split; [done|]. by rewrite Nat.add_0_r.
      * exists (S j), p, x. split; [done|]. split; [done|]. f_equal. lia.
    + intros ([|j] & p & x & Hj & Hx & ->); simplify_eq/=.
      * left. exists x. by rewrite Nat.add_0_r.
      * right. exists j, p, x. split; [done|]. split; [done|]. f_equal. lia.
Qed.
Lemma all_entries_length paths i : length (all_entries paths i) = length (concat (index_entries <$> paths)).
Proof.
  revert i. induction paths as [|p paths IH]; intros i; [done|].
  cbn [all_entries]. rewrite fmap_cons, concat_cons, !length_app, length_fmap, IH. done.
Qed.
End Collect.

Lemma length_concat_perm {A} (l l' : list (list A)) : l ≡ₚ l' → length (concat l) = length (concat l').
Proof. induction 1; simpl; rewrite ?length_app; lia. Qed.
Lemma length_merge l : (length (merge_entries l) ≤ length l)%nat.
Proof.
  unfold merge_entries. rewrite <- (sort_by_permutation entry_cmp l) at 2.
  destruct (sort_by entry_cmp l) as [|x s]; [done|]. cbn [dedup_by length]. pose proof (length_dedup_from same_id x s). lia.
Qed.
Lemma length_larges entries : (length (w_larges entries) ≤ length entries)%nat.
Proof.
  unfold w_larges, larges. rewrite length_fmap. etrans; [apply length_filter|]. by rewrite length_fmap.
Qed.

(** ** Lemmas: the names of the indices of one directory *)
Lemma path_cmp_app dir a b : path_cmp (dir ++ a) (dir ++ b) = path_cmp a b.
Proof. induction dir as [|x dir IH]; [done|]. simpl. by rewrite (proj2 (component_cmp_eq x x)). Qed.

Definition name_of (p : path) : bytes := default [] (file_name p).
Definition in_dir (dir p : path) : Prop := ∃ name, p = dir ++ [Normal name] ∧ name_ok name.

Lemma in_dir_name dir p :
  in_dir dir p → file_name p = Some (name_of p) ∧ name_ok (name_of p) ∧ p = dir ++ [Normal (name_of p)].
Proof.
  intros (name & -> & Hn).
  assert (file_name (dir ++ [Normal name]) = Some name) as Hf by (unfold file_name; by rewrite last_snoc).
  unfold name_of. rewrite Hf. done.
Qed.

Lemma sorted_names dir paths :
  Forall (in_dir dir) paths → NoDup paths →
  Sorted path_lt ((λ name, [Normal name]) <$> (name_of <$> sort_by path_cmp paths)).
Proof.
  intros Hdir Hnd. pose proof (sort_by_permutation path_cmp paths) as Hp. pose proof (sort_by_sorted path_cmp paths) as Hs.
  rewrite <- Hp in Hdir, Hnd. revert Hdir Hnd Hs. generalize (sort_by path_cmp paths). clear Hp paths.
  intros l Hdir Hnd Hs. apply StronglySorted_Sorted.
  induction Hs as [|p l Hs IH Hp]; [constructor|]. apply list.Forall_cons in Hdir as [Hd Hdir].
  apply list.NoDup_cons in Hnd as [Hpl Hnd]. rewrite !fmap_cons. constructor; [by apply IH|].
  rewrite !Forall_fmap. apply list.Forall_forall. intros q Hq. simpl.
  rewrite list.Forall_forall in Hp, Hdir. specialize (Hp q Hq). specialize (Hdir q Hq).
  destruct (in_dir_name dir p Hd) as (_ & _ & Ep), (in_dir_name dir q Hdir) as (_ & _ & Eq').
  unfold path_lt, ord_le in *. rewrite Ep, Eq', path_cmp_app in Hp.
  destruct (path_cmp [Normal (name_of p)] [Normal (name_of q)]) eqn:E; [|done|done].
  apply path_cmp_eq in E. destruct Hpl. rewrite Ep, E, <- Eq'. done.
Qed.

(** ** Writing and opening *)
Lemma id_unique l x y : StronglySorted id_lt l → x ∈ l → y ∈ l → id x = id y → x = y.
Proof.
  induction 1 as [|z l Hs IH Hz]; intros Hx Hy Heq; [by apply elem_of_nil in Hx|].
  rewrite list.Forall_forall in Hz. unfold id_lt in Hz.
  apply list.elem_of_cons in Hx as [-> | Hx], Hy as [-> | Hy]; [done| | |by apply IH].
  - specialize (Hz y Hy). by rewrite Heq, (proj2 (id_cmp_eq _ _)) in Hz.
  - specialize (Hz x Hx). by rewrite Heq, (proj2 (id_cmp_eq _ _)) in Hz.
Qed.

(** A directory of pack indices that can be merged: regular names, all files opening as
    indices of one hash kind, at least one object, and no more than the format can index. *)
Record pack_dir (fs : FileSystem) (k : Kind) (dir : path) (paths : list path) : Prop := {
  pd_paths : Forall (in_dir dir) paths;
  pd_nodup : NoDup paths;
  pd_open : Forall (opens fs k) paths;
  pd_some : ∃ p, p ∈ paths ∧ index_entries fs k p ≠ [];
  pd_count : zlen (concat (index_entries fs k <$> paths)) ≤ 2 ^ 31;
  pd_names : zlen (concat ((λ p, name_of p ++ [0]) <$> paths)) < 2 ^ 32;
}.

Section Merged.
Context (fs : FileSystem) (k : Kind) (dir : path) (paths : list path) (Hdir : pack_dir fs k dir paths).
Definition sorted_paths : list path := sort_by path_cmp paths.
Definition merged_names : list bytes := name_of <$> sorted_paths.
Definition merged_entries : list WEntry := merge_entries (all_entries fs k sorted_paths 0).

Lemma sorted_in p : p ∈ sorted_paths ↔ p ∈ paths.
Proof using. unfold sorted_paths. by rewrite (sort_by_permutation path_cmp paths). Qed.
Lemma sorted_opens : Forall (opens fs k) sorted_paths.
Proof using Hdir. unfold sorted_paths. rewrite (sort_by_permutation path_cmp paths). apply (pd_open _ _ _ _ Hdir). Qed.
Lemma sorted_dir : Forall (in_dir dir) sorted_paths.
Proof using Hdir. unfold sorted_paths. rewrite (sort_by_permutation path_cmp paths). apply (pd_paths _ _ _ _ Hdir). Qed.

Lemma merged_names_ok : Forall name_ok merged_names.
Proof using Hdir.
  unfold merged_names. apply Forall_fmap. eapply Forall_impl; [|exact sorted_dir].
  intros p Hp. by apply (in_dir_name dir).
Qed.
Lemma merged_names_sorted : Sorted path_lt ((λ name, [Normal name]) <$> merged_names).
Proof using Hdir. apply (sorted_names dir); [apply (pd_paths _ _ _ _ Hdir)|apply (pd_nodup _ _ _ _ Hdir)]. Qed.
Lemma merged_names_length : zlen (concat ((λ name, name ++ [0]) <$> merged_names)) < 2 ^ 32.
Proof using Hdir.
  pose proof (pd_names _ _ _ _ Hdir) as Hn. unfold merged_names. rewrite <- list_fmap_compose. unfold compose.
  unfold zlen in *. rewrite (length_concat_perm _ ((λ p, name_of p ++ [0]) <$> paths)); [done|].
  unfold sorted_paths. by rewrite (sort_by_permutation path_cmp paths).
Qed.
Lemma merged_names_count : zlen merged_names = zlen sorted_paths ∧ zlen sorted_paths < 2 ^ 32.
Proof using Hdir.
  assert (zlen merged_names = zlen sorted_paths) as Hz by (unfold merged_names, zlen; by rewrite length_fmap).
  split; [done|]. rewrite <- Hz. pose proof merged_names_length. pose proof (names_count merged_names). lia.
Qed.

(** An entry of the merged table comes from one of the indices. *)
Lemma merged_source e :
  e ∈ merged_entries → ∃ j q x, sorted_paths !! j = Some q ∧ x ∈ index_entries fs k q ∧ e = tag fs j q x ∧
    entry_pack_index e = Z.of_nat j.
Proof using Hdir.
  intros He. apply (merged_sub _ _ (merge_entries_merged _)), all_entries_elem in He as (j & q & x & Hj & Hx & ->).
  exists j, q, x. split; [done|]. split; [done|]. split; [done|]. cbn [entry_pack_index tag].
  apply lookup_lt_Some in Hj. destruct merged_names_count as [_ Hc]. apply wrap_small. unfold zlen in Hc. lia.
Qed.
Lemma merged_entries_ok : Forall (entry_ok k (zlen merged_names)) merged_entries.
Proof using Hdir.
  apply list.Forall_forall. intros e He. destruct (merged_source e He) as (j & q & x & Hj & Hx & -> & Hi).
  pose proof sorted_opens as Ho. rewrite list.Forall_forall in Ho. apply list_elem_of_lookup_2 in Hj as Hq.
  destruct (index_entries_ok fs k q x (Ho q Hq) Hx) as (Hoid & Hk & Hofs).
  apply lookup_lt_Some in Hj. destruct merged_names_count as [Hc _].
  split; [done|]. split; [done|]. split; [|done]. rewrite Hi, Hc. unfold zlen. lia.
Qed.
Lemma merged_some : merged_entries ≠ [].
Proof using Hdir.
  destruct (pd_some _ _ _ _ Hdir) as (q & Hq & Hne). apply sorted_in, list_elem_of_lookup in Hq as [j Hj].
  destruct (index_entries fs k q) as [|x l] eqn:Ei; [done|].
  destruct (merged_all _ _ (merge_entries_merged (all_entries fs k sorted_paths 0)) (tag fs j q x)) as (y & Hy & _).
  { apply all_entries_elem. exists j, q, x. split; [done|]. split; [rewrite Ei; by left|done]. }
  unfold merged_entries. intros He. rewrite He in Hy. by apply elem_of_nil in Hy.
Qed.
Lemma merged_count : zlen merged_entries ≤ 2 ^ 31.
Proof using Hdir.
  pose proof (pd_count _ _ _ _ Hdir) as Hc. pose proof (length_merge (all_entries fs k sorted_paths 0)) as Hl.
  rewrite all_entries_length in Hl.
  rewrite (length_concat_perm _ (index_entries fs k <$> paths)) in Hl
    by (unfold sorted_paths; by rewrite (sort_by_permutation path_cmp paths)).
  unfold merged_entries, zlen in *. lia.
Qed.
Lemma merged_large : zlen (w_larges merged_entries) ≤ 2 ^ 31.
Proof using Hdir. pose proof merged_count. pose proof (length_larges merged_entries). unfold zlen in *. lia. Qed.

(** Of the entries with one id, the one that is kept comes from the newest index. *)
Lemma merged_newest j q x j' q' x' :
  sorted_paths !! j = Some q → tag fs j q x ∈ merged_entries → entry_pack_index (tag fs j q x) = Z.of_nat j →
  sorted_paths !! j' = Some q' → x' ∈ index_entries fs k q' →
  as_slice (PackIndex.oid x') = as_slice (PackIndex.oid x) →
  mtime fs q' < mtime fs q ∨ mtime fs q' = mtime fs q ∧ (j ≤ j')%nat.
Proof using Hdir.
  intros Hj Hin Hidx Hj' Hx' Hid. pose proof (merge_entries_merged (all_entries fs k sorted_paths 0)) as Hm.
  destruct (merged_all _ _ Hm (tag fs j' q' x')) as (y & Hy & Hyid & Hle).
  { apply all_entries_elem. by exists j', q', x'. }
  pose proof merged_entries_ok as Hok. rewrite list.Forall_forall in Hok.
  destruct (Hok _ Hin) as (_ & K1 & _). destruct (Hok _ Hy) as (_ & K2 & _). rewrite Hyid in K2. cbn [id tag] in *.
  assert (PackIndex.oid x' = PackIndex.oid x) as Heq by (apply as_slice_inj; [congruence|done]).
  assert (y = tag fs j q x) as ->.
  { apply (id_unique _ _ _ (merged_sorted _ _ Hm) Hy Hin). rewrite Hyid. exact Heq. }
  unfold ord_le, entry_cmp in Hle. cbn [id tag] in Hle. rewrite Heq, (proj2 (id_cmp_eq _ _)) in Hle by done.
  cbn [then_with index_mtime tag entry_pack_index] in Hle, Hidx. rewrite Hidx in Hle.
  rewrite (wrap_small 32 (Z.of_nat j')) in Hle.
  2:{ destruct merged_names_count as [_ Hc]. apply lookup_lt_Some in Hj'. unfold zlen in Hc. lia. }
  destruct (Z.compare_spec (mtime fs q) (mtime fs q')); cbn [CompOpp then_with] in Hle; [|done|by left].
  right. split; [done|]. destruct (Z.compare_spec (Z.of_nat j) (Z.of_nat j')); [lia|lia|done].
Qed.

Lemma merged_write should_interrupt try_finalize sum :
  (∀ i, should_interrupt i = false) → try_finalize (m_out merged_names merged_entries k) = Ok sum →
  write_from_index_paths fs should_interrupt try_finalize paths k =
  Ok (m_out merged_names merged_entries k ++ as_slice sum, sum).
Proof using Hdir.
  intros Hint Hsum. unfold write_from_index_paths. fold sorted_paths.
  rewrite (mapM_Ok _ name_of).
  2:{ intros q Hq. pose proof sorted_dir as Hd. rewrite list.Forall_forall in Hd.
      destruct (in_dir_name dir q (Hd q Hq)) as (-> & _). done. }
  cbn [mbind outcome_bind]. rewrite (collect_eq fs k should_interrupt _ _ _ Hint sorted_opens).
  cbn [mbind outcome_bind app]. fold merged_entries. fold merged_names. rewrite Hint. cbn [negb ensure mbind outcome_bind].
  pose proof merged_names_ok as H1. pose proof merged_names_length as H3. pose proof merged_entries_ok as H4.
  pose proof (merged_sorted _ _ (merge_entries_merged (all_entries fs k sorted_paths 0))) as H5.
  pose proof merged_some as H6. pose proof merged_count as H7. pose proof merged_large as H8.
  assert (zlen merged_entries < 2 ^ 32) as H9 by lia.
  rewrite (m_plan _ _ _ H1 H3 H4 H6 H9 H8). cbn [mbind outcome_bind].
  pose proof (m_total _ _ _ H3 H4 H6 H9 H8) as Ht. pose proof (m_num merged_names merged_entries) as Hnum.
  unfold planned_storage_size. cbn [will_write Chunk.chunks assert_that mbind outcome_bind].
  rewrite planned_size_eq by lia. cbn [mbind outcome_bind]. change HEADER_LEN with 12. unfold op_add at 1.
  rewrite checked_add_in by lia. cbn [expect mbind outcome_bind]. unfold num_chunks. cbn [Chunk.chunks].
  assert (zlen (planned (m_contents merged_names merged_entries)) = zlen (m_contents merged_names merged_entries)) as ->
    by (unfold zlen, planned; by rewrite length_fmap).
  rewrite checked_in by lia. cbn [expect mbind outcome_bind]. unfold write_header. cbn [mbind outcome_bind].
  destruct merged_names_count as [Hc1 Hc2]. pose proof (zlen_nonneg sorted_paths).
  rewrite wrap_small by lia. rewrite <- Hc1. fold (kind_byte k).
  destruct (m_into_write _ _ _ H3 H4 H6 H9 H8 (E := mi_error)) as (c & Hc & Hne & Hcw & Hin).
  unfold m_header in Hc. rewrite Hc. cbn [mbind outcome_bind].
  assert (length (planned (m_contents merged_names merged_entries)) = length (m_contents merged_names merged_entries)) as ->
    by (unfold planned; by rewrite length_fmap).
  rewrite (write_loop_eq merged_names merged_entries should_interrupt (m_contents merged_names merged_entries));
    [|done|intros kd d; by apply (m_content _ _ _ H4 H5 H9 H8)|by rewrite Hne|done|lia].
  cbn [mbind outcome_bind]. rewrite Hin, Hsum. done.
Qed.
(** What opening the file that was written gives. *)
Record merged_file (sum : ObjectId) (p : path) (f : File) : Prop := {
  mf_from : from_data (m_out merged_names merged_entries k ++ as_slice sum) p None = Ok f;
  mf_ok : mi_ok f;
  mf_data : data f = m_out merged_names merged_entries k ++ as_slice sum;
  mf_path : file_path f = p;
  mf_hash : object_hash f = k;
  mf_num : num_objects f = zlen merged_entries;
  mf_names : index_names f = (λ q, [Normal (name_of q)]) <$> sorted_paths;
  mf_iter : Forall (λ x, ∃ e, x = Ok e) (iter f);
  mf_fan : fan f = m_fan merged_entries;
  mf_oid : ∀ i e, merged_entries !! i = Some e →
    oid_at_index (E := mi_error) f (Z.of_nat i) = Ok (as_slice (id e));
  mf_pack : ∀ i e, merged_entries !! i = Some e →
    pack_id_and_pack_offset_at_index f (Z.of_nat i) = Ok (entry_pack_index e, entry_pack_offset e);
  mf_table : IdTableOk (table (E := mi_error) f) k (m_ids merged_entries);
}.
Lemma merged_opened sum p : oid_ok sum ∧ Hash.kind sum = k → ∃ f, merged_file sum p f.
Proof using Hdir.
  intros Hsk. pose proof merged_names_ok as H1. pose proof merged_names_sorted as H2.
  pose proof merged_names_length as H3. pose proof merged_entries_ok as H4.
  pose proof (merged_sorted _ _ (merge_entries_merged (all_entries fs k sorted_paths 0))) as H5.
  pose proof merged_some as H6. pose proof merged_count as H7. pose proof merged_large as H8.
  assert (zlen merged_entries < 2 ^ 32) as H9 by lia.
  destruct (m_opened merged_names merged_entries k H1 H2 H3 H4 H5 H6 H9 H8 sum Hsk p) as [f Hop]. exists f.
  pose proof (m_bytes_ok merged_names merged_entries k H1 H4 H8 sum Hsk) as Hb.
  assert (zlen (m_data merged_names merged_entries k sum) < 2 ^ 64) as H64.
  { rewrite (m_data_length _ _ _ H3 H4 H6 H8 sum Hsk). pose proof (m_start _ _ _ H3 H4 H6 H9 H8).
    pose proof (len_in_bytes_range k). lia. }
  pose proof (mi_from_data_ok _ p None Hb H64) as Hs. rewrite (op_from _ _ _ _ _ _ Hop) in Hs. destruct Hs as (Hok & Hd & Hp).
  split; rewrite ?m_data_eq; try done.
  - apply (op_from _ _ _ _ _ _ Hop).
  - apply (op_hash _ _ _ _ _ _ Hop).
  - apply (op_num _ _ _ _ _ _ Hop).
  - rewrite (op_names _ _ _ _ _ _ Hop). unfold merged_names. by rewrite <- list_fmap_compose.
  - rewrite (m_iter _ _ k H1 H2 H3 H4 H5 H6 H9 H8 sum Hsk p f Hop). apply Forall_fmap, Forall_true.
    intros e. simpl. by eexists.
  - apply (op_fan _ _ _ _ _ _ Hop).
  - apply (m_oid_at _ _ k H1 H2 H3 H4 H5 H6 H9 H8 sum Hsk p f Hop).
  - apply (m_pack_at _ _ k H1 H2 H3 H4 H5 H6 H9 H8 sum Hsk p f Hop).
  - apply (m_table_ok _ _ k H1 H2 H3 H4 H5 H6 H9 H8 sum Hsk p f Hop).
Qed.
End Merged.

(** C28: different index files of one directory, with ASCII names that are not [.] or [..] and hold no NUL or
    separator, all of which open as indices of the kind, and which have together at least one object (see [empty_refused]), at most
    2^31 of them, and less than 4 gigabytes of names; the hasher gives ids of the kind. If it is not interrupted,
    [write_from_index_paths()] succeeds for them, and the bytes it writes are accepted by [File::from_data()]: the opened
    file names the indices in order, every entry of it is intact, and looking up an id finds,
    among all indices that contain it, the one modified last (of several, the first), with the
    offset that index has for it; an id that is not found is in none of them. *)
Theorem multi_index_roundtrip (fs : FileSystem) (should_interrupt : nat → bool)
    (try_finalize : bytes → outcome mi_error ObjectId) (k : Kind) (dir : path) (paths : list path) (p : path)
    (Hhasher : ∀ b, ∃ h, try_finalize b = Ok h ∧ oid_ok h ∧ Hash.kind h = k)
    (Hint : ∀ i, should_interrupt i = false) (Hdir : pack_dir fs k dir paths) :
  ∃ out sum f, write_from_index_paths fs should_interrupt try_finalize paths k = Ok (out, sum) ∧
    from_data out p None = Ok f ∧
    index_names f = (λ q, [Normal (name_of q)]) <$> sort_by path_cmp paths ∧
    Forall (λ x, ∃ e, x = Ok e) (iter f) ∧
    ∀ want, zlen want = len_in_bytes k → bytes_ok want →
      match file_lookup (E := mi_error) f want with
      | Ok (Some i) =>
          ∃ j q e, sort_by path_cmp paths !! j = Some q ∧ e ∈ index_entries fs k q ∧
            as_slice (PackIndex.oid e) = want ∧
            pack_id_and_pack_offset_at_index f i = Ok (Z.of_nat j, PackIndex.pack_offset e) ∧
            ∀ j' q' e', sort_by path_cmp paths !! j' = Some q' → e' ∈ index_entries fs k q' →
              as_slice (PackIndex.oid e') = want →
              mtime fs q' < mtime fs q ∨ mtime fs q' = mtime fs q ∧ (j ≤ j')%nat
      | Ok None => ∀ q e, q ∈ paths → e ∈ index_entries fs k q → as_slice (PackIndex.oid e) ≠ want
      | _ => False
      end.
Proof.
  destruct (Hhasher (m_out (merged_names paths) (merged_entries fs k paths) k)) as (sum & Hsum & Hsk).
  destruct (merged_opened fs k dir paths Hdir sum p Hsk) as [f Hmf].
  pose proof (merge_entries_merged (all_entries fs k (sorted_paths paths) 0)) as Hm.
  exists (m_out (merged_names paths) (merged_entries fs k paths) k ++ as_slice sum), sum, f.
  split; [by apply (merged_write fs k dir)|]. split; [apply (mf_from _ _ _ _ _ _ Hmf)|].
  split; [apply (mf_names _ _ _ _ _ _ Hmf)|]. split; [apply (mf_iter _ _ _ _ _ _ Hmf)|]. intros want Hl Hb.
  destruct (lookup_spec (E := mi_error) (table f) k _ want (mf_table _ _ _ _ _ _ Hmf) Hl Hb) as (r & Hr & Hspec).
  unfold file_lookup. rewrite Hr. destruct r as [i|].
  - destruct Hspec as [Hi Hi0]. unfold m_ids in Hi. apply list_lookup_fmap_Some in Hi as (e & -> & He).
    pose proof (mf_pack _ _ _ _ _ _ Hmf _ _ He) as Hp.
    rewrite Z2Nat.id in Hp by done. apply list_elem_of_lookup_2 in He as Hin.
    destruct (merged_source fs k dir paths Hdir e Hin) as (j & q & x & Hj & Hx & Ee & Hidx).
    exists j, q, x. rewrite Ee in Hp |- *. split; [done|]. split; [done|]. split; [done|]. split.
    { rewrite Hp, <- Hidx, Ee. done. }
    intros j' q' e' Hj' He' Hid. rewrite Ee in Hin, Hidx.
    by apply (merged_newest fs k dir paths Hdir j q x j' q' e').
  - intros q e Hq He Hid. apply Hspec. rewrite <- Hid.
    apply (sorted_in paths), list_elem_of_lookup in Hq as [j Hj].
    destruct (merged_all _ _ Hm (tag fs j q e)) as (y & Hy & Hyid & _).
    { apply all_entries_elem. by exists j, q, e. }
    unfold m_ids. apply list_elem_of_fmap. exists y. rewrite Hyid. done.
Qed.

(** ** Witness: two indices that share an object *)
Definition sample_dir : path := [RootDir; Normal [112]].
Definition index_a : path := sample_dir ++ [Normal [97; 46; 105; 100; 120]].
Definition index_b : path := sample_dir ++ [Normal [98; 46; 105; 100; 120]].
Definition sample_file_b : bytes :=
  match write_to (λ _, Ok (E := index_error) sample_hash)
    [{| item_offset := 50; item_id := OidSha1 (1 :: replicate 19 2); item_crc32 := 7 |}] sample_hash V2 with
  | Ok (out, _) => out
  | _ => []
  end.
Definition sample_fs : FileSystem :=
  {| fs_read := λ p, if bool_decide (p = index_a) then Some sample_file
                     else if bool_decide (p = index_b) then Some sample_file_b else None;
     fs_modified := λ p, if bool_decide (p = index_a) then Some 5 else Some 9 |}.
Definition sample_hasher : bytes → outcome mi_error ObjectId := λ _, Ok sample_hash.
Example sample_merge :
  match write_from_index_paths sample_fs (λ _, false) sample_hasher [index_b; index_a] Sha1 with
  | Ok (out, _) =>
      match from_data out sample_dir None with
      | Ok f => iter f =
          [Ok {| oid := OidSha1 (1 :: replicate 19 2); pack_offset := 50; pack_index := 1 |};
           Ok {| oid := OidSha1 (1 :: replicate 19 9); pack_offset := 2 ^ 40 + 3; pack_index := 0 |}]
      | _ => False
      end
  | _ => False
  end.
Proof. vm_compute. reflexivity. Qed.

(** A directory of empty indices is written as a file that cannot be opened. *)
Definition empty_fs : FileSystem :=
  {| fs_read := λ p,
       match write_to (λ _, Ok (E := index_error) sample_hash) [] sample_hash V2 with
       | Ok (out, _) => Some out | _ => None end;
     fs_modified := λ p, None |}.
Example empty_refused :
  match write_from_index_paths empty_fs (λ _, false) sample_hasher [index_a] Sha1 with
  | Ok (out, _) => from_data out sample_dir None = Err (BadChunkTable OffsetsNotIncrementing)
  | _ => False
  end.
Proof. vm_compute. reflexivity. Qed.

Lemma sample_pack_dir : pack_dir sample_fs Sha1 sample_dir [index_b; index_a].
Proof.
  split.
  - repeat constructor; eexists; (split; [reflexivity|]);
      (split; [apply bytes_ok_bool; reflexivity|]); repeat split; try discriminate;
      repeat constructor; discriminate.
  - apply (bool_decide_unpack _). vm_compute. exact I.
  - assert (∀ p d, fs_read sample_fs p = Some d → forallb (in_u 8) d = true →
      (match PackIndex.from_data d Sha1 with Ok _ => true | _ => false end) = true → opens sample_fs Sha1 p) as Ho.
    { intros p d Hd Hb Hf. destruct (PackIndex.from_data d Sha1) as [f| |] eqn:E; [|done|done].
      exists d, f. split; [done|]. split; [by apply bytes_ok_bool|done]. }
    constructor; [|constructor; [|constructor]]; (eapply Ho; [reflexivity|vm_compute; reflexivity|vm_compute; reflexivity]).
  - exists index_b. split; [by left|]. vm_compute. discriminate.
  - vm_compute. discriminate.
  - vm_compute. reflexivity.
Qed.

Lemma multi_index_roundtrip_witness :
  ∃ out sum f, write_from_index_paths sample_fs (λ _, false) sample_hasher [index_b; index_a] Sha1 = Ok (out, sum) ∧
    from_data out sample_dir None = Ok f ∧
    index_names f = (λ q, [Normal (name_of q)]) <$> sort_by path_cmp [index_b; index_a] ∧
    Forall (λ x, ∃ e, x = Ok e) (iter f) ∧
    ∀ want, zlen want = len_in_bytes Sha1 → bytes_ok want →
      match file_lookup (E := mi_error) f want with
      | Ok (Some i) =>
          ∃ j q e, sort_by path_cmp [index_b; index_a] !! j = Some q ∧ e ∈ index_entries sample_fs Sha1 q ∧
            as_slice (PackIndex.oid e) = want ∧
            pack_id_and_pack_offset_at_index f i = Ok (Z.of_nat j, PackIndex.pack_offset e) ∧
            ∀ j' q' e', sort_by path_cmp [index_b; index_a] !! j' = Some q' → e' ∈ index_entries sample_fs Sha1 q' →
              as_slice (PackIndex.oid e') = want →
              mtime sample_fs q' < mtime sample_fs q ∨ mtime sample_fs q' = mtime sample_fs q ∧ (j ≤ j')%nat
      | Ok None => ∀ q e, q ∈ [index_b; index_a] → e ∈ index_entries sample_fs Sha1 q → as_slice (PackIndex.oid e) ≠ want
      | _ => False
      end.
Proof.
  apply (multi_index_roundtrip sample_fs (λ _, false) sample_hasher Sha1 sample_dir [index_b; index_a] sample_dir).
  - intros b. exists sample_hash. split; [reflexivity|]. split; [|reflexivity].
    split; [reflexivity|]. apply bytes_ok_bool. vm_compute. reflexivity.
  - reflexivity.
  - exact sample_pack_dir.
Defined.
