(* ===== verification/MultiIndexVerify.v ===== *)
(** * [gix-pack/src/multi_index/verify.rs], [verify.rs]: verifying a multi-pack index

    [verify_integrity_fast] is [verify_integrity_inner] without the inspection of packs: the
    checksum of the file, the fan, the order of ids, and the offset of every object compared
    with the pack index it refers to. Its parameters are those of [MultiIndexWrite]. Reading
    a file fails only when it is missing or too short. *)

From stdpp Require Import sets sorting.
From S2P Require Import Prelude Slices Hash FanLookup Chunk PackIndex MultiIndex MultiIndexWrite.

(** ** [verify.rs] of the crate *)

(** [windows(2).enumerate().find_map(..)] *)
Fixpoint first_decrease (data : list Z) (win_index : Z) : option Z :=
  match data with
  | a :: ((b :: _) as rest) => if b <? a then Some win_index else first_decrease rest (win_index + 1)
  | _ => None
  end.
Definition verify_fan (data : list Z) : option Z := first_decrease data 0.

Definition BUF_SIZE : Z := 65535.

Section Verify.
Context (fs : FileSystem) (should_interrupt : nat → bool).
Context (hasher : Kind → bytes → outcome mi_error ObjectId).

(** The loop of [gix_hash::bytes_with_hasher]: the bytes handed to the hasher, and the
    number of loads of [should_interrupt] so far. *)
Fixpoint hash_blocks (fuel : nat) (read : bytes) (bytes_left : Z) (hashed : bytes) (loads : nat)
    : outcome mi_error bytes * nat :=
  match fuel with
  | O => (Panic, loads)
  | S fuel =>
      if 0 <? bytes_left then
        let n := Z.min BUF_SIZE bytes_left in
        match split_at_checked read n with
        | None => (Err IoFailed, loads)
        | Some (out, read) =>
            if should_interrupt loads then (Err Interrupted, S loads)
            else hash_blocks fuel read (bytes_left - n) (hashed ++ out) (S loads)
        end
      else (Ok hashed, loads)
  end.

Definition checksum_on_disk_or_mmap (data_path : path) (data : bytes) (expected : ObjectId)
    (object_hash : Kind) (loads : nat) : outcome mi_error (ObjectId * nat) :=
  data_len_without_trailer ← op_sub 64 (zlen data) (len_in_bytes object_hash);
  let '(on_disk, loads) :=
    match fs_read fs data_path with
    | None => (Err IoFailed, loads)
    | Some d => hash_blocks (S (length d)) d data_len_without_trailer [] loads
    end in
  actual ← match on_disk with
           | Ok content => hasher object_hash content
           | Err IoFailed =>
               content ← expect (get_range data 0 data_len_without_trailer);
               hasher object_hash content
           | Err e => Err e
           | Panic => Panic
           end;
  _ ← ensure (bool_decide (actual = expected)) ChecksumMismatch;
  Ok (actual, loads).

(** ** [multi_index/verify.rs] *)
Definition verify_checksum (f : File) (loads : nat) : outcome mi_error (ObjectId * nat) :=
  expected ← checksum f;
  checksum_on_disk_or_mmap (file_path f) (data f) expected (object_hash f) loads.

(** The loop over the positions that have a successor. *)
Fixpoint check_order (f : File) (todo : list Z) (pack_ids_and_offsets : list (Z * Z))
    : outcome mi_error (list (Z * Z)) :=
  match todo with
  | [] => Ok pack_ids_and_offsets
  | entry_index :: todo =>
      lhs ← oid_at_index f entry_index;
      rhs ← oid_at_index f (entry_index + 1);
      _ ← ensure (bool_decide (bytes_cmp rhs lhs = Gt)) (IdOutOfOrder entry_index);
      '(pack_id, _) ← pack_id_and_pack_offset_at_index f entry_index;
      check_order f todo (pack_ids_and_offsets ++ [(pack_id, entry_index)])
  end.

(** The entries of the multi-pack index that refer to one pack index. *)
Fixpoint check_offsets (f : File) (index : PackIndex.File) (entries : list Z) : outcome mi_error () :=
  match entries with
  | [] => Ok tt
  | entry_id :: entries =>
      oid ← oid_at_index f entry_id;
      '(_, expected_pack_offset) ← pack_id_and_pack_offset_at_index f entry_id;
      entry_in_bundle_index ← PackIndex.file_lookup index oid;
      entry_in_bundle_index ← ok_or (NotFoundInIndex oid) entry_in_bundle_index;
      actual_pack_offset ← PackIndex.pack_offset_at_index index entry_in_bundle_index;
      _ ← ensure (actual_pack_offset =? expected_pack_offset)
            (WrongPackOffset oid expected_pack_offset actual_pack_offset);
      check_offsets f index entries
  end.

(** The loop over the named indices; [pack_id] is the number of the next. *)
Fixpoint check_packs (f : File) (dir : path) (index_names : list path) (pack_id : Z)
    (pack_ids_slice : list (Z * Z)) (total_objects_checked : Z) (loads : nat) : outcome mi_error Z :=
  match index_names with
  | [] => Ok total_objects_checked
  | index_file_name :: index_names =>
      index ← open_index fs (join dir index_file_name) (object_hash f);
      slice_end ← partition_point pack_ids_slice (λ e, e.1 =? wrap 32 pack_id);
      let multi_index_entries_to_check := take (Z.to_nat slice_end) pack_ids_slice in
      let pack_ids_slice := drop (Z.to_nat slice_end) pack_ids_slice in
      _ ← check_offsets f index (snd <$> multi_index_entries_to_check);
      _ ← ensure (negb (should_interrupt loads)) Interrupted;
      total ← op_add 64 total_objects_checked (zlen multi_index_entries_to_check);
      check_packs f dir index_names (pack_id + 1) pack_ids_slice total (S loads)
  end.

Definition verify_integrity_fast (f : File) : outcome mi_error ObjectId :=
  dir ← ok_or NoParentDirectory (parent (file_path f));
  '(actual_index_checksum, loads) ← verify_checksum f 0;
  _ ← (match verify_fan (fan f) with Some first_invalid => Err (FanOutOfOrder first_invalid) | None => Ok tt end);
  _ ← ensure (negb (num_objects f =? 0)) NoObjects;
  last ← op_sub 32 (num_objects f) 1;
  pack_ids_and_offsets ← check_order f (seqZ 0 last) [];
  '(pack_id, _) ← pack_id_and_pack_offset_at_index f last;
  let pack_ids_and_offsets := sort_by_key fst (pack_ids_and_offsets ++ [(pack_id, last)]) in
  total_objects_checked ← check_packs f dir (index_names f) 0 pack_ids_and_offsets 0 loads;
  _ ← assert_that (num_objects f =? total_objects_checked);
  Ok actual_index_checksum.
End Verify.

(** ** Lemmas: checksums *)
Section Checksums.
Context (fs : FileSystem) (should_interrupt : nat → bool).
Context (hasher : Kind → bytes → outcome mi_error ObjectId).
Context (Hhasher : ∀ k b, hasher k b ≠ Panic).

Lemma hash_blocks_ok fuel read left hashed loads :
  (length read < fuel)%nat → 0 ≤ left →
  match (hash_blocks should_interrupt fuel read left hashed loads).1 with
  | Ok content => left ≤ zlen read ∧ content = hashed ++ take (Z.to_nat left) read
  | Err e => e = IoFailed ∨ e = Interrupted
  | Panic => False
  end.
Proof using.
  revert read left hashed loads. induction fuel as [|fuel IH]; intros read left hashed loads Hfuel Hleft; [lia|].
  cbn [hash_blocks]. destruct (Z.ltb_spec 0 left) as [Hpos|].
  2:{ cbn [fst]. replace left with 0 by lia. split; [apply zlen_nonneg|]. by rewrite take_0, app_nil_r. }
  assert (0 < Z.min BUF_SIZE left) as Hmin by (unfold BUF_SIZE; lia).
  destruct (split_at_checked read (Z.min BUF_SIZE left)) as [[out rest]|] eqn:Es; [|by left].
  apply split_at_Some in Es as [-> Hout].
  destruct (should_interrupt loads); [by right|].
  specialize (IH rest (left - Z.min BUF_SIZE left) (hashed ++ out) (S loads)).
  rewrite length_app in Hfuel. unfold zlen in Hout.
  destruct (hash_blocks should_interrupt fuel rest _ _ _) as [[content| |] ?]; cbn [fst] in *; try (apply IH; lia).
  destruct IH as [Hl ->]; [lia|lia|]. rewrite zlen_app. split; [unfold zlen in *; lia|].
  rewrite <- app_assoc. f_equal.
  rewrite take_app_ge by lia. f_equal. f_equal. lia.
Qed.

Lemma checksum_on_disk_ok p data expected k loads :
  len_in_bytes k ≤ zlen data < 2 ^ 64 →
  safe (checksum_on_disk_or_mmap fs should_interrupt hasher p data expected k loads) (λ '(actual, _),
    actual = expected ∧ ∃ content, hasher k content = Ok actual ∧
      (content = take (length data - Z.to_nat (len_in_bytes k)) data ∨
       ∃ d, fs_read fs p = Some d ∧ content = take (length data - Z.to_nat (len_in_bytes k)) d)).
Proof using Hhasher.
  intros Hlen. pose proof (len_in_bytes_range k) as Hk. unfold checksum_on_disk_or_mmap, op_sub.
  rewrite checked_sub_in by lia. cbn [expect mbind outcome_bind].
  set (n := zlen data - len_in_bytes k). assert (Z.to_nat n = (length data - Z.to_nat (len_in_bytes k))%nat) as Hn.
  { subst n. unfold zlen in *. lia. }
  set (on_disk := match fs_read fs p with None => _ | Some d => _ end).
  assert (match on_disk.1 with
    | Ok content => ∃ d, fs_read fs p = Some d ∧ content = take (length data - Z.to_nat (len_in_bytes k)) d
    | Err e => e = IoFailed ∨ e = Interrupted | Panic => False end) as Hd.
  { subst on_disk. destruct (fs_read fs p) as [d|] eqn:Ed; [|by left].
    pose proof (hash_blocks_ok (S (length d)) d n [] loads ltac:(lia) ltac:(subst n; lia)) as Hh.
    destruct (hash_blocks _ _ _ _ _ _) as [[content| |] ?]; cbn [fst] in *; [|done|done].
    destruct Hh as [_ ->]. exists d. by rewrite Hn. }
  destruct on_disk as [r loads']. cbn [fst] in Hd.
  assert (∀ content, (content = take (length data - Z.to_nat (len_in_bytes k)) data ∨
       ∃ d, fs_read fs p = Some d ∧ content = take (length data - Z.to_nat (len_in_bytes k)) d) →
    safe (actual ← hasher k content; _ ← ensure (bool_decide (actual = expected)) ChecksumMismatch; Ok (actual, loads'))
      (λ '(actual, _), actual = expected ∧ ∃ content, hasher k content = Ok actual ∧
      (content = take (length data - Z.to_nat (len_in_bytes k)) data ∨
       ∃ d, fs_read fs p = Some d ∧ content = take (length data - Z.to_nat (len_in_bytes k)) d))) as Hfin.
  { intros content Hc. pose proof (Hhasher k content). destruct (hasher k content) as [a| |] eqn:Ea; [|done|done].
    cbn [mbind outcome_bind]. apply safe_ensure. intros ->%bool_decide_eq_true. split; [done|]. eauto. }
  destruct r as [content|e|]; [by apply Hfin; right| |done].
  destruct Hd as [-> | ->]; [|done]. rewrite get_range_in by (subst n; lia). cbn [expect].
  rewrite Z.sub_0_r, drop_0, Hn. apply Hfin. by left.
Qed.
End Checksums.

(** ** Lemmas: the loops *)
Section Loops.
Context (f : File) (Hf : mi_ok f).
Definition id_of (i : Z) : bytes :=
  take (Z.to_nat (hash_len f)) (drop (Z.to_nat (lookup_ofs f + i * hash_len f)) (data f)).

Lemma id_at {E} i :
  0 ≤ i < num_objects f →
  oid_at_index (E := E) f i = Ok (id_of i) ∧ zlen (id_of i) = len_in_bytes (object_hash f) ∧ bytes_ok (id_of i).
Proof using Hf.
  intros Hi. destruct (mi_oid_at_ok f Hf (E := E) i Hi) as (x & -> & Hl & Hb & ->).
  by rewrite <- (ok_hash_len f Hf).
Qed.
Definition pack_ok (i : Z) : Prop :=
  0 ≤ pack_of f i < num_indices f ∧ ∃ o, pack_id_and_pack_offset_at_index f i = Ok (pack_of f i, o).
Lemma pack_at_safe i :
  0 ≤ i < num_objects f →
  safe (pack_id_and_pack_offset_at_index f i) (λ '(pk, o), pk = pack_of f i ∧ pack_ok i).
Proof using Hf.
  intros Hi. unfold pack_ok. rewrite (pack_at_eq f Hf i Hi).
  destruct (Z.leb_spec (num_indices f) (pack_of f i)); [done|].
  pose proof (offset_of_ok f Hf i Hi) as Ho. destruct (offset_of f (ofs32_of f i)) as [o| |]; [|done|done].
  cbn. split; [done|]. destruct (stored_range f Hf i Hi). split; [lia|by eexists].
Qed.

Lemma check_order_ok s m acc :
  0 ≤ s → 0 ≤ m → s + m < num_objects f →
  safe (check_order f (seqZ s m) acc) (λ l,
    l = acc ++ ((λ i, (pack_of f i, i)) <$> seqZ s m) ∧
    ∀ i, s ≤ i < s + m → bytes_cmp (id_of i) (id_of (i + 1)) = Lt ∧ pack_ok i).
Proof using Hf.
  intros Hs Hm. revert s acc Hs. pattern m. apply natlike_ind; [|clear m Hm|done].
  - intros s acc Hs _. cbn. rewrite app_nil_r. split; [done|lia].
  - intros m Hm IH s acc Hs Hn. rewrite seqZ_cons by lia. cbn [check_order].
    destruct (id_at (E := mi_error) s) as (-> & _); [lia|]. destruct (id_at (E := mi_error) (s + 1)) as (-> & _); [lia|].
    cbn [mbind outcome_bind]. apply safe_ensure. intros Hlt%bool_decide_eq_true. apply bytes_cmp_gt_lt in Hlt.
    eapply safe_bind; [apply pack_at_safe; lia|]. intros [pk o] [-> Hpk].
    replace (Z.pred (Z.succ m)) with m by lia. replace (Z.succ s) with (s + 1) by lia.
    eapply safe_impl; [apply (IH (s + 1) (acc ++ [(pack_of f s, s)])); lia|].
    intros l [-> Hi]. rewrite fmap_cons, <- app_assoc. split; [done|].
    intros i Hr. destruct (decide (i = s)) as [->|]; [done|]. apply Hi. lia.
Qed.

(** Position [i] of the multi-pack index agrees with the pack index. *)
Definition agrees (idx : PackIndex.File) (i : Z) : Prop :=
  ∃ pk o i', pack_id_and_pack_offset_at_index f i = Ok (pk, o) ∧
    PackIndex.oid_at_index (E := mi_error) idx i' = Ok (id_of i) ∧
    PackIndex.pack_offset_at_index (E := mi_error) idx i' = Ok o.

Lemma index_offset_at idx i :
  index_ok idx → 0 ≤ i < PackIndex.num_objects idx →
  ∃ o, PackIndex.pack_offset_at_index (E := mi_error) idx i = Ok o.
Proof using.
  intros Hi Hr.
  assert (∃ es, PackIndex.iter (E := mi_error) idx = Ok es ∧ zlen es = PackIndex.num_objects idx ∧
    ∀ i e, es !! i = Some e → entry_at (E := mi_error) idx (Z.of_nat i) e) as (es & _ & Hl & Hall).
  { destruct (version idx) eqn:Hv; [by apply iter_v1_ok|by apply iter_v2_ok]. }
  destruct (lookup_lt_is_Some_2 es (Z.to_nat i)) as [e He]; [unfold zlen in Hl; lia|].
  destruct (Hall _ _ He) as (_ & _ & Ho & _). rewrite Z2Nat.id in Ho by lia. by eexists.
Qed.

Lemma check_offsets_ok idx l :
  index_ok idx → PackIndex.object_hash idx = object_hash f →
  Forall (λ i, 0 ≤ i < num_objects f) l →
  safe (check_offsets f idx l) (λ _, Forall (agrees idx) l).
Proof using Hf.
  intros Hi Hk. induction 1 as [|i l Hr _ IH]; cbn [check_offsets]; [constructor|].
  destruct (id_at (E := mi_error) i Hr) as (-> & Hl & Hb). cbn [mbind outcome_bind].
  pose proof (pack_at_safe i Hr) as Hp.
  destruct (pack_id_and_pack_offset_at_index f i) as [[pk o]| |] eqn:Ep; [|done|done]. cbn [mbind outcome_bind].
  destruct (file_lookup_total (E := mi_error) idx (id_of i) Hi) as (r & -> & Hres);
    [by rewrite (PackIndex.ok_hash_len idx Hi), Hk|done|]. cbn [mbind outcome_bind].
  destruct r as [i'|]; [|done]. destruct Hres as [Hi' Hat]. cbn [ok_or mbind outcome_bind].
  destruct (index_offset_at idx i' Hi Hi') as [o' Ho']. rewrite Ho'. cbn [mbind outcome_bind].
  apply safe_ensure. intros ->%Z.eqb_eq. eapply safe_impl; [exact IH|]. intros u Hall.
  constructor; [|done]. by exists pk, o, i'.
Qed.
End Loops.

(** ** Lemmas: all indices *)
Section Packs.
Context (fs : FileSystem) (should_interrupt : nat → bool) (f : File) (dir : path).
Context (Hf : mi_ok f) (Hfs : ∀ q d, fs_read fs q = Some d → bytes_ok d).

Lemma open_index_ok q k :
  safe (open_index fs q k) (λ idx, index_ok idx ∧ PackIndex.object_hash idx = k).
Proof using Hfs.
  unfold open_index. apply safe_ok_or. intros d Hd. apply safe_map_err.
  destruct (PackIndex.from_data_ok d k (Hfs q d Hd)) as [Hnp Hok]. apply safe_iff. split; [done|].
  intros idx Hi. by destruct (Hok idx Hi) as (? & _ & ?).
Qed.

(** An entry is checked against the index its pack id refers to, [p] being the id of the
    first of [names]. *)
Definition checked_in (names : list path) (p : Z) (e : Z * Z) : Prop :=
  ∃ name idx, get names (e.1 - p) = Some name ∧ open_index fs (join dir name) (object_hash f) = Ok idx ∧
    agrees f idx e.2.

Lemma slice_parts {E} p (slice : list (Z * Z)) m :
  StronglySorted (λ a b, a.1 ≤ b.1) slice → Forall (λ e, p ≤ e.1 < p + m) slice →
  ∃ n, partition_point (E := E) slice (λ e, e.1 =? p) = Ok n ∧
    Forall (λ e, e.1 = p) (take (Z.to_nat n) slice) ∧
    Forall (λ e, p + 1 ≤ e.1 < p + m) (drop (Z.to_nat n) slice).
Proof using.
  intros Hs Hr. destruct (partition_point_spec (E := E) slice (λ e, e.1 =? p)) as (n & Hn & _).
  exists n. split; [done|]. apply partition_point_parts in Hn as [Ht Hd].
  - split; [eapply Forall_impl; [|exact Ht]; intros e He; by apply Z.eqb_eq|].
    apply (Forall_drop _ (Z.to_nat n)) in Hr. rewrite list.Forall_forall in Hd, Hr. apply list.Forall_forall.
    intros e He. specialize (Hd e He). apply Z.eqb_neq in Hd. specialize (Hr e He). simpl in *. lia.
  - intros i j x y Hij Hx Hy Hp. apply Z.eqb_eq in Hp. apply Z.eqb_eq.
    pose proof (sorted_lookup_lt _ _ i j x y Hs Hx Hy Hij) as Hle.
    rewrite list.Forall_forall in Hr. specialize (Hr x (list_elem_of_lookup_2 _ _ _ Hx)). simpl in *. lia.
Qed.

Lemma check_packs_ok names p slice total loads :
  0 ≤ p → p + zlen names ≤ 2 ^ 32 → 0 ≤ total → total + zlen slice < 2 ^ 64 →
  StronglySorted (λ a b, a.1 ≤ b.1) slice →
  Forall (λ e, p ≤ e.1 < p + zlen names ∧ 0 ≤ e.2 < num_objects f) slice →
  safe (check_packs fs should_interrupt f dir names p slice total loads) (λ t,
    t = total + zlen slice ∧ Forall (checked_in names p) slice).
Proof using Hf Hfs.
  revert p slice total loads. induction names as [|name names IH]; intros p slice total loads Hp Hmax Ht Ht64 Hs Hall.
  - cbn [check_packs safe]. change (zlen (@nil path)) with 0 in *.
    destruct slice as [|e l]; [split; [change (zlen []) with 0; lia|constructor]|].
    apply list.Forall_cons in Hall as [He _]. lia.
  - rewrite zlen_cons in *. pose proof (zlen_nonneg names). cbn [check_packs].
    pose proof (open_index_ok (join dir name) (object_hash f)) as Ho.
    destruct (open_index fs (join dir name) (object_hash f)) as [idx| |] eqn:Eo; [|done|done].
    destruct Ho as [Hidx Hk]. cbn [mbind outcome_bind]. rewrite wrap_small by lia.
    destruct (slice_parts (E := mi_error) p slice (1 + zlen names) Hs) as (n' & -> & Htake & Hdrop).
    { eapply Forall_impl; [|exact Hall]. naive_solver. }
    cbn [mbind outcome_bind]. set (n := Z.to_nat n') in *. pose proof Hall as Hall'. rewrite <- (take_drop n slice), Forall_app in Hall'. destruct Hall' as [Ha1 Ha2].
    eapply safe_bind.
    { apply (check_offsets_ok f Hf idx); [done|done|]. apply Forall_fmap. eapply Forall_impl; [|exact Ha1]. naive_solver. }
    intros u Hagree. apply safe_ensure. intros _.
    assert (zlen slice = zlen (take n slice) + zlen (drop n slice)) as Hz by (by rewrite <- zlen_app, take_drop).
    pose proof (zlen_nonneg (take n slice)). pose proof (zlen_nonneg (drop n slice)).
    unfold op_add. rewrite checked_add_in by lia. cbn [expect mbind outcome_bind].
    eapply safe_impl.
    { apply (IH (p + 1) (drop n slice)); [lia|lia|lia|lia| |].
      - rewrite <- (take_drop n slice) in Hs. by apply StronglySorted_app_1_r in Hs.
      - apply list.Forall_forall. intros e He. rewrite list.Forall_forall in Hdrop, Ha2.
        specialize (Hdrop e He). specialize (Ha2 e He). simpl in *. lia. }
    intros t [-> Hrest]. split; [lia|]. rewrite <- (take_drop n slice). apply Forall_app. split.
    + cbn beta in Hagree. rewrite Forall_fmap in Hagree. rewrite list.Forall_forall in Htake, Hagree. apply list.Forall_forall. intros e He.
      exists name, idx. rewrite (Htake e He), Z.sub_diag. split; [done|]. split; [done|]. by apply Hagree.
    + rewrite list.Forall_forall in Hdrop, Hrest. apply list.Forall_forall. intros e He.
      destruct (Hrest e He) as (name' & idx' & Hget & Hopen & Hag). exists name', idx'. split; [|done].
      specialize (Hdrop e He). apply get_Some in Hget as [_ Hget]. unfold get.
      destruct (Z.leb_spec 0 (e.1 - p)); [|lia].
      replace (Z.to_nat (e.1 - p)) with (S (Z.to_nat (e.1 - (p + 1)))) by lia. done.
Qed.
End Packs.

Lemma ids_increase f n :
  (∀ i, 0 ≤ i < n → bytes_cmp (id_of f i) (id_of f (i + 1)) = Lt) →
  ∀ i j, 0 ≤ i < j → j ≤ n → bytes_cmp (id_of f i) (id_of f j) = Lt.
Proof.
  intros Hstep i j Hij Hj.
  assert (∀ m, 0 ≤ m → i + 1 + m ≤ n → bytes_cmp (id_of f i) (id_of f (i + 1 + m)) = Lt) as Hm.
  { intros m Hm. pattern m. apply natlike_ind; [| |done].
    - intros. rewrite Z.add_0_r. apply Hstep. lia.
    - intros m' Hm' IH Hn. eapply bytes_cmp_lt_trans; [apply IH; lia|].
      replace (i + 1 + Z.succ m') with (i + 1 + m' + 1) by lia. apply Hstep. lia. }
  replace j with (i + 1 + (j - i - 1)) by lia. apply Hm; lia.
Qed.

(** What verification establishes about the checksum. *)
Definition checksum_of (fs : FileSystem) (hasher : Kind → bytes → outcome mi_error ObjectId) (f : File)
    (sum : ObjectId) : Prop :=
  checksum (E := mi_error) f = Ok sum ∧
  ∃ content, hasher (object_hash f) content = Ok sum ∧
    (content = take (length (data f) - Z.to_nat (hash_len f)) (data f) ∨
     ∃ d, fs_read fs (file_path f) = Some d ∧ content = take (length (data f) - Z.to_nat (hash_len f)) d).

Lemma verify_checksum_ok fs should_interrupt hasher f loads :
  mi_ok f → (∀ k b, hasher k b ≠ Panic) →
  safe (verify_checksum fs should_interrupt hasher f loads) (λ '(sum, _), checksum_of fs hasher f sum).
Proof.
  intros Hf Hh. unfold verify_checksum, checksum_of.
  destruct (mi_checksum_ok f Hf (E := mi_error)) as (sum & -> & _). cbn [mbind outcome_bind].
  rewrite (ok_hash_len f Hf). pose proof (ok_trailer f Hf) as Ht. pose proof (ok_len f Hf).
  eapply safe_impl; [apply checksum_on_disk_ok; [done|rewrite (ok_hash_len f Hf) in Ht; lia]|].
  intros [actual loads'] [-> Hc]. split; [done|exact Hc].
Qed.

(** C5: on any multi-pack index that opens, whatever is in the file system, fast verification
    returns without a panic; in particular its assertion that every object was visited holds.
    When it succeeds, the checksum at the end of the file is the hash of its content (the one
    on disk if it can be read), the ids are strictly increasing, and for every object the pack
    index that its entry refers to, opened next to the file, has the object at this offset. *)
Theorem multi_index_verified (fs : FileSystem) (should_interrupt : nat → bool)
    (hasher : Kind → bytes → outcome mi_error ObjectId) (bs : bytes) (p : path) (limit : option Z) (f : File)
    (Hfs : ∀ q d, fs_read fs q = Some d → bytes_ok d) (Hhasher : ∀ k b, hasher k b ≠ Panic)
    (Hb : bytes_ok bs) (Hlen : zlen bs < 2 ^ 64) (Hopen : from_data bs p limit = Ok f) :
  verify_integrity_fast fs should_interrupt hasher f ≠ Panic ∧
  ∀ sum, verify_integrity_fast fs should_interrupt hasher f = Ok sum →
    checksum_of fs hasher f sum ∧
    (∀ i j x y, 0 ≤ i < j → j < num_objects f →
       oid_at_index (E := mi_error) f i = Ok x → oid_at_index (E := mi_error) f j = Ok y →
       bytes_cmp x y = Lt) ∧
    ∃ dir, parent p = Some dir ∧
      ∀ i, 0 ≤ i < num_objects f →
        ∃ id pk o name idx i', oid_at_index (E := mi_error) f i = Ok id ∧
          pack_id_and_pack_offset_at_index f i = Ok (pk, o) ∧
          get (index_names f) pk = Some name ∧
          open_index fs (join dir name) (object_hash f) = Ok idx ∧
          PackIndex.oid_at_index (E := mi_error) idx i' = Ok id ∧
          PackIndex.pack_offset_at_index (E := mi_error) idx i' = Ok o.
Proof.
  pose proof (mi_from_data_ok bs p limit Hb Hlen) as Hs. rewrite Hopen in Hs. destruct Hs as (Hf & _ & Hp).
  apply safe_iff. unfold verify_integrity_fast. rewrite Hp.
  pose proof (mi_num_range f Hf) as Hn. pose proof (ok_names f Hf) as Hnames. pose proof (zlen_nonneg (index_names f)).
  apply safe_ok_or. intros dir Hdir.
  eapply safe_bind; [by apply verify_checksum_ok|]. intros [sum loads] Hsum.
  destruct (verify_fan (fan f)); [done|]. cbn [mbind outcome_bind]. apply safe_ensure.
  intros Hpos%negb_true_iff%Z.eqb_neq. unfold op_sub. rewrite checked_sub_in by lia. cbn [expect mbind outcome_bind].
  eapply safe_bind; [apply (check_order_ok f Hf); lia|]. intros l [-> Horder]. rewrite app_nil_l.
  eapply safe_bind; [apply pack_at_safe; [done|lia]|]. intros [pk o] [-> Hlast].
  set (all := ((λ i, (pack_of f i, i)) <$> seqZ 0 (num_objects f - 1)) ++ [(pack_of f (num_objects f - 1), num_objects f - 1)]).
  assert (all = (λ i, (pack_of f i, i)) <$> seqZ 0 (num_objects f)) as Hall.
  { subst all. replace (num_objects f) with (num_objects f - 1 + 1) at 4 by lia.
    rewrite seqZ_app by lia. rewrite fmap_app. f_equal. }
  pose proof (sort_by_key_perm fst all) as Hperm. pose proof (sort_by_key_sorted fst all) as Hsorted.
  assert (zlen (sort_by_key fst all) = num_objects f) as Hz.
  { unfold zlen. rewrite Hperm, Hall, length_fmap, length_seqZ. lia. }
  pose proof (ok_indices f Hf) as Hidx.
  eapply safe_bind.
  { apply (check_packs_ok fs should_interrupt f dir Hf Hfs); [lia|lia|lia|lia|exact Hsorted|].
    rewrite Hperm, Hall, Forall_fmap. apply list.Forall_forall. intros i Hi. apply elem_of_seqZ in Hi. simpl.
    assert (pack_ok f i) as [Hr _].
    { destruct (decide (i = num_objects f - 1)) as [->|]; [done|]. apply Horder. lia. }
    split; lia. }
  intros t [-> Hchecked]. rewrite Z.add_0_l, Hz, Z.eqb_refl. cbn [assert_that mbind outcome_bind safe].
  split; [done|]. split.
  - intros i j x y Hij Hj Hx Hy. destruct (id_at f Hf (E := mi_error) i) as (Ex & _); [lia|].
    destruct (id_at f Hf (E := mi_error) j) as (Ey & _); [lia|]. rewrite Ex in Hx. rewrite Ey in Hy.
    injection Hx as <-. injection Hy as <-. apply (ids_increase f (num_objects f - 1)); [|lia|lia].
    intros i' Hi'. apply Horder. lia.
  - exists dir. split; [done|]. intros i Hi. rewrite Hperm, Hall, Forall_fmap, list.Forall_forall in Hchecked.
    destruct (Hchecked i) as (name & idx & Hname & Hoi & pk & o' & i' & Hpk & Hid & Ho); [apply elem_of_seqZ; lia|].
    destruct (id_at f Hf (E := mi_error) i Hi) as (Hat & _). cbn [fst snd] in *. rewrite Z.sub_0_r in Hname.
    pose proof (pack_at_safe f Hf i Hi) as Hps. rewrite Hpk in Hps. destruct Hps as [-> _].
    by exists (id_of f i), (pack_of f i), o', name, idx, i'.
Qed.

(** ** Lemmas: verification succeeds on sound files *)
Lemma hash_blocks_eq should_interrupt fuel read left hashed loads :
  (∀ i, should_interrupt i = false) → (length read < fuel)%nat → 0 ≤ left ≤ zlen read →
  (hash_blocks should_interrupt fuel read left hashed loads).1 = Ok (hashed ++ take (Z.to_nat left) read).
Proof.
  intros Hint Hfuel Hleft. pose proof (hash_blocks_ok should_interrupt fuel read left hashed loads Hfuel ltac:(lia)) as Hok.
  assert (∃ c, (hash_blocks should_interrupt fuel read left hashed loads).1 = Ok c) as [c Hc].
  { clear Hok. revert read left hashed loads Hfuel Hleft.
    induction fuel as [|fuel IH]; intros read left hashed loads Hfuel Hleft; [lia|].
    cbn [hash_blocks]. destruct (Z.ltb_spec 0 left) as [Hpos|]; [|by eexists].
    assert (0 < Z.min BUF_SIZE left) as Hmin by (unfold BUF_SIZE; lia).
    rewrite split_at_in by lia. rewrite Hint. apply IH; unfold zlen in *; rewrite length_drop; lia. }
  rewrite Hc in Hok |- *. by destruct Hok as [_ ->].
Qed.
Lemma verify_fan_mono l : fan_is_monotonically_increasing l = true → verify_fan l = None.
Proof.
  unfold verify_fan. generalize 0. induction l as [|a l IH]; intros i; [done|]. destruct l as [|b l]; [done|].
  cbn [fan_is_monotonically_increasing first_decrease]. intros [Hab Hm]%andb_true_iff.
  destruct (b <? a); [done|]. by apply IH.
Qed.

Section Sound.
Context (fs : FileSystem) (should_interrupt : nat → bool) (f : File) (dir : path).
Context (Hf : mi_ok f) (Hint : ∀ i, should_interrupt i = false).
Context (Hpacks : ∀ i, 0 ≤ i < num_objects f → pack_ok f i).

Lemma check_order_eq s m acc :
  0 ≤ s → 0 ≤ m → s + m < num_objects f →
  (∀ i, s ≤ i < s + m → bytes_cmp (id_of f i) (id_of f (i + 1)) = Lt) →
  check_order f (seqZ s m) acc = Ok (acc ++ ((λ i, (pack_of f i, i)) <$> seqZ s m)).
Proof using Hf Hpacks.
  intros Hs Hm. revert s acc Hs. pattern m. apply natlike_ind; [|clear m Hm|done].
  - intros s acc Hs _ _. cbn. by rewrite app_nil_r.
  - intros m Hm IH s acc Hs Hn Hlt. rewrite seqZ_cons by lia. cbn [check_order].
    destruct (id_at f Hf (E := mi_error) s) as (-> & _); [lia|].
    destruct (id_at f Hf (E := mi_error) (s + 1)) as (-> & _); [lia|]. cbn [mbind outcome_bind].
    rewrite (bool_decide_eq_true_2 _ (proj2 (bytes_cmp_gt_lt _ _) (Hlt s ltac:(lia)))). cbn [ensure mbind outcome_bind].
    destruct (Hpacks s ltac:(lia)) as (_ & o & ->). cbn [mbind outcome_bind].
    replace (Z.pred (Z.succ m)) with m by lia. replace (Z.succ s) with (s + 1) by lia.
    rewrite IH by (lia || (intros; apply Hlt; lia)). by rewrite fmap_cons, <- app_assoc.
Qed.

(** The index finds the object at the offset of the entry. *)
Definition finds (idx : PackIndex.File) (i : Z) : Prop :=
  ∃ pk o i', pack_id_and_pack_offset_at_index f i = Ok (pk, o) ∧
    PackIndex.file_lookup (E := mi_error) idx (id_of f i) = Ok (Some i') ∧
    PackIndex.pack_offset_at_index (E := mi_error) idx i' = Ok o.
Lemma check_offsets_eq idx l :
  Forall (λ i, 0 ≤ i < num_objects f ∧ finds idx i) l → check_offsets f idx l = Ok tt.
Proof using Hf.
  induction 1 as [|i l [Hi (pk & o & i' & Hp & Hl & Ho)] _ IH]; cbn [check_offsets]; [done|].
  destruct (id_at f Hf (E := mi_error) i Hi) as (-> & _). cbn [mbind outcome_bind]. rewrite Hp. cbn [mbind outcome_bind].
  rewrite Hl. cbn [ok_or mbind outcome_bind]. rewrite Ho. cbn [mbind outcome_bind]. by rewrite Z.eqb_refl.
Qed.

Lemma check_packs_eq names p slice total loads :
  0 ≤ p → p + zlen names ≤ 2 ^ 32 → 0 ≤ total → total + zlen slice < 2 ^ 64 →
  StronglySorted (λ a b, a.1 ≤ b.1) slice →
  Forall (λ name, ∃ idx, open_index fs (join dir name) (object_hash f) = Ok idx) names →
  Forall (λ e, p ≤ e.1 < p + zlen names ∧ 0 ≤ e.2 < num_objects f ∧
    ∃ name idx, get names (e.1 - p) = Some name ∧ open_index fs (join dir name) (object_hash f) = Ok idx ∧
      finds idx e.2) slice →
  check_packs fs should_interrupt f dir names p slice total loads = Ok (total + zlen slice).
Proof using Hf Hint.
  revert p slice total loads. induction names as [|name names IH]; intros p slice total loads Hp Hmax Ht Ht64 Hs Hopen Hall.
  - cbn [check_packs]. destruct slice as [|e l]; [change (zlen []) with 0; by rewrite Z.add_0_r|].
    apply list.Forall_cons in Hall as [[He _] _]. change (zlen (@nil path)) with 0 in He. lia.
  - rewrite zlen_cons in *. pose proof (zlen_nonneg names). cbn [check_packs].
    apply list.Forall_cons in Hopen as [[idx Hidx] Hopen]. rewrite Hidx. cbn [mbind outcome_bind].
    rewrite wrap_small by lia.
    destruct (slice_parts (E := mi_error) p slice (1 + zlen names) Hs) as (n' & -> & Htake & Hdrop).
    { eapply Forall_impl; [|exact Hall]. naive_solver. }
    cbn [mbind outcome_bind]. set (n := Z.to_nat n') in *.
    pose proof Hall as Hall'. rewrite <- (take_drop n slice), Forall_app in Hall'. destruct Hall' as [Ha1 Ha2].
    rewrite list.Forall_forall in Htake, Hdrop, Ha1, Ha2.
    rewrite (check_offsets_eq idx).
    2:{ apply Forall_fmap, list.Forall_forall. intros e He. destruct (Ha1 e He) as (_ & Hr & name' & idx' & Hg & Ho & Hfd).
        split; [done|]. rewrite (Htake e He), Z.sub_diag in Hg. injection Hg as <-. simpl. congruence. }
    cbn [mbind outcome_bind]. rewrite Hint. cbn [negb ensure mbind outcome_bind].
    assert (zlen slice = zlen (take n slice) + zlen (drop n slice)) as Hz by (by rewrite <- zlen_app, take_drop).
    pose proof (zlen_nonneg (take n slice)). pose proof (zlen_nonneg (drop n slice)).
    unfold op_add. rewrite checked_add_in by lia. cbn [expect mbind outcome_bind].
    rewrite IH; [f_equal; lia|lia|lia|lia|lia| |done|].
    + rewrite <- (take_drop n slice) in Hs. by apply StronglySorted_app_1_r in Hs.
    + apply list.Forall_forall. intros e He. specialize (Hdrop e He). simpl in Hdrop.
      destruct (Ha2 e He) as (_ & Hr & name' & idx' & Hg & Ho & Hfd). split; [lia|]. split; [done|].
      exists name', idx'. split; [|done]. apply get_Some in Hg as [_ Hg].
      replace (Z.to_nat (e.1 - p)) with (S (Z.to_nat (e.1 - (p + 1)))) in Hg by lia.
      unfold get. destruct (Z.leb_spec 0 (e.1 - (p + 1))); [done|lia].
Qed.
End Sound.

(** ** A file that was written passes verification *)

(** A pack index as [PackIndex] writes it: its ids are in order, without repetition, and
    its fan counts them. *)
Definition sound_index (fs : FileSystem) (k : Kind) (q : path) : Prop :=
  ∃ idx ids, open_index fs q k = Ok idx ∧ IdTableOk (index_table (E := mi_error) idx) k ids ∧ NoDup ids.

Lemma sound_finds fs k q idx e :
  opens fs k q → sound_index fs k q → open_index fs q k = Ok idx → e ∈ index_entries fs k q →
  ∃ i, PackIndex.file_lookup (E := mi_error) idx (as_slice (PackIndex.oid e)) = Ok (Some i) ∧
    PackIndex.pack_offset_at_index (E := mi_error) idx i = Ok (PackIndex.pack_offset e).
Proof.
  intros Hop (idx' & ids & Hi & Htab & Hnd) Hidx He. rewrite Hidx in Hi. injection Hi as <-.
  destruct (index_entries_ok fs k q e Hop He) as ([Hl Hb] & Hk & _). rewrite Hk in Hl.
  destruct (opens_index fs k q Hop) as (f & Hf & Hok & _). rewrite Hidx in Hf. injection Hf as <-.
  unfold index_entries in He. rewrite Hidx in He.
  assert (∃ es, PackIndex.iter (E := mi_error) idx = Ok es ∧ zlen es = PackIndex.num_objects idx ∧
    ∀ i e, es !! i = Some e → entry_at (E := mi_error) idx (Z.of_nat i) e) as (es & Hes & Hel & Hall).
  { destruct (version idx) eqn:Hv; [by apply iter_v1_ok|by apply iter_v2_ok]. }
  rewrite Hes in He. apply list_elem_of_lookup in He as [j Hj]. destruct (Hall j e Hj) as (Hid & _ & Ho & _).
  apply lookup_lt_Some in Hj as Hjl.
  destruct (lookup_spec (E := mi_error) (index_table idx) k ids (as_slice (PackIndex.oid e)) Htab Hl Hb) as (r & Hr & Hres).
  pose proof (tab_num_ok (t := index_table (E := mi_error) idx) (k := k)) as Hnum. cbn [tab_num index_table] in Hnum.
  destruct (lookup_lt_is_Some_2 ids j) as [x Hx]; [unfold zlen in *; lia|].
  pose proof (tab_at_ok (t := index_table (E := mi_error) idx) (k := k) j x Hx) as Hat. cbn [tab_at index_table] in Hat.
  rewrite Hid in Hat. injection Hat as Hxe.
  destruct r as [i|]; [|destruct Hres; rewrite Hxe; by eapply list_elem_of_lookup_2].
  destruct Hres as [Hi Hi0]. rewrite Hxe in Hi.
  pose proof (NoDup_lookup ids _ _ _ Hnd Hi Hx) as Hij. assert (i = Z.of_nat j) as -> by lia.
  exists (Z.of_nat j). split; [exact Hr|done].
Qed.

Lemma join_name dir name : join dir [Normal name] = dir ++ [Normal name].
Proof. by destruct dir. Qed.

Section Saved.
Context (fs : FileSystem) (should_interrupt : nat → bool) (hasher : Kind → bytes → outcome mi_error ObjectId).
Context (k : Kind) (dir : path) (paths : list path) (name : bytes) (sum : ObjectId) (f : File).
Context (Hint : ∀ i, should_interrupt i = false) (Hdir : pack_dir fs k dir paths)
  (Hsound : Forall (sound_index fs k) paths) (Hsk : oid_ok sum ∧ Hash.kind sum = k)
  (Hmf : merged_file fs k paths sum (dir ++ [Normal name]) f).
Definition saved_out : bytes := m_out (merged_names paths) (merged_entries fs k paths) k.
Context (Hsum : hasher k saved_out = Ok sum)
  (Hdisk : ∀ d, fs_read fs (dir ++ [Normal name]) = Some d → d = saved_out ++ as_slice sum).

Lemma saved_checksum : ∃ loads, verify_checksum fs should_interrupt hasher f 0 = Ok (sum, loads).
Proof using All.
  pose proof (mf_ok _ _ _ _ _ _ Hmf) as Hf. pose proof (ok_hash_len f Hf) as Hhl.
  rewrite (mf_hash _ _ _ _ _ _ Hmf) in Hhl. pose proof (ok_len f Hf) as H64.
  pose proof (mf_data _ _ _ _ _ _ Hmf) as Hd. fold saved_out in Hd.
  assert (zlen (as_slice sum) = len_in_bytes k) as Hsl by (destruct Hsk as [[Hl _] <-]; done).
  pose proof (len_in_bytes_range k). pose proof (zlen_nonneg saved_out).
  assert (zlen (data f) = zlen saved_out + len_in_bytes k) as Hz by (rewrite Hd, zlen_app; lia).
  unfold verify_checksum. destruct (mi_checksum_ok f Hf (E := mi_error)) as (s & -> & Hk & Hs).
  assert (s = sum) as ->.
  { apply as_slice_inj.
    - rewrite Hk, (mf_hash _ _ _ _ _ _ Hmf). by destruct Hsk.
    - rewrite Hs, Hd, Hhl. unfold zlen in *. rewrite length_app.
      replace (length saved_out + length (as_slice sum) - Z.to_nat (len_in_bytes k))%nat with (length saved_out) by lia.
      apply drop_app_length. }
  cbn [mbind outcome_bind]. unfold checksum_on_disk_or_mmap, op_sub. rewrite (mf_hash _ _ _ _ _ _ Hmf).
  rewrite checked_sub_in by lia. cbn [expect mbind outcome_bind].
  replace (zlen (data f) - len_in_bytes k) with (zlen saved_out) by lia.
  assert (take (Z.to_nat (zlen saved_out)) (saved_out ++ as_slice sum) = saved_out) as Htake
    by (unfold zlen; rewrite Nat2Z.id; apply take_app_length).
  rewrite (mf_path _ _ _ _ _ _ Hmf). destruct (fs_read fs (dir ++ [Normal name])) as [d|] eqn:Ed.
  - rewrite (Hdisk d eq_refl). set (d' := saved_out ++ as_slice sum).
    pose proof (hash_blocks_eq should_interrupt (S (length d')) d' (zlen saved_out) [] 0 Hint ltac:(lia)) as Hh.
    destruct (hash_blocks _ _ _ _ _ _) as [r loads]. cbn [fst] in Hh. rewrite Hh.
    2:{ subst d'. rewrite zlen_app. lia. }
    subst d'. rewrite app_nil_l, Htake, Hsum. cbn [mbind outcome_bind].
    rewrite bool_decide_eq_true_2 by done. by eexists.
  - rewrite get_range_in by lia. cbn [expect mbind outcome_bind]. rewrite Z.sub_0_r, drop_0, Hd, Htake, Hsum.
    cbn [mbind outcome_bind]. rewrite bool_decide_eq_true_2 by done. by eexists.
Qed.

(** The entry at a position, and where it comes from. *)
Lemma saved_entry i :
  0 ≤ i < num_objects f →
  ∃ e j q x, merged_entries fs k paths !! Z.to_nat i = Some e ∧ id_of f i = as_slice (id e) ∧
    pack_id_and_pack_offset_at_index f i = Ok (Z.of_nat j, entry_pack_offset e) ∧ pack_of f i = Z.of_nat j ∧
    sorted_paths paths !! j = Some q ∧ x ∈ index_entries fs k q ∧ e = tag fs j q x.
Proof using Hdir Hmf.
  intros Hi. pose proof (mf_ok _ _ _ _ _ _ Hmf) as Hf.
  destruct (lookup_lt_is_Some_2 (merged_entries fs k paths) (Z.to_nat i)) as [e He];
    [rewrite (mf_num _ _ _ _ _ _ Hmf) in Hi; unfold zlen in Hi; lia|].
  apply list_elem_of_lookup_2 in He as Hin.
  destruct (merged_source fs k dir paths Hdir e Hin) as (j & q & x & Hj & Hx & Ee & Hidx).
  exists e, j, q, x. split; [done|].
  pose proof (mf_oid _ _ _ _ _ _ Hmf _ _ He) as Ho. pose proof (mf_pack _ _ _ _ _ _ Hmf _ _ He) as Hp.
  rewrite Z2Nat.id in Ho, Hp by lia. destruct (id_at f Hf (E := mi_error) i Hi) as (Hid & _).
  rewrite Hid in Ho. injection Ho as Ho. rewrite Hidx in Hp. split; [done|]. split; [done|]. split; [|done].
  pose proof (pack_at_safe f Hf i Hi) as Hps. rewrite Hp in Hps. by destruct Hps.
Qed.
Lemma saved_finds i :
  0 ≤ i < num_objects f →
  pack_ok f i ∧ ∃ name idx, get (index_names f) (pack_of f i) = Some name ∧
    open_index fs (join dir name) (object_hash f) = Ok idx ∧ finds f idx i.
Proof using Hdir Hsound Hmf.
  intros Hi. destruct (saved_entry i Hi) as (e & j & q & x & He & Hid & Hp & Hpk & Hj & Hx & Ee).
  pose proof (mf_ok _ _ _ _ _ _ Hmf) as Hf.
  pose proof (pack_at_safe f Hf i Hi) as Hps. rewrite Hp in Hps. destruct Hps as [_ Hpok]. split; [done|].
  apply list_elem_of_lookup_2 in Hj as Hq. apply (sorted_in paths) in Hq as Hq'.
  pose proof (sorted_dir fs k dir paths Hdir) as Hds. rewrite list.Forall_forall in Hds.
  destruct (in_dir_name dir q (Hds q Hq)) as (_ & _ & Eq').
  pose proof (pd_open _ _ _ _ Hdir) as Hops. rewrite list.Forall_forall in Hops.
  pose proof Hsound as Hso. rewrite list.Forall_forall in Hso.
  destruct (opens_index fs k q (Hops q Hq')) as (idx & Hidx & _).
  exists [Normal (name_of q)], idx. rewrite Hpk, (mf_names _ _ _ _ _ _ Hmf), (mf_hash _ _ _ _ _ _ Hmf), get_nat.
  split; [by rewrite list_lookup_fmap, Hj|].
  assert (join dir [Normal (name_of q)] = q) as -> by (by rewrite join_name, <- Eq').
  split; [done|].
  destruct (sound_finds fs k q idx x (Hops q Hq') (Hso q Hq') Hidx Hx) as (i' & Hl & Ho).
  exists (Z.of_nat j), (entry_pack_offset e), i'. split; [done|]. rewrite Hid, Ee. done.
Qed.

Lemma saved_increasing i :
  0 ≤ i < num_objects f - 1 → bytes_cmp (id_of f i) (id_of f (i + 1)) = Lt.
Proof using Hdir Hmf.
  intros Hi. destruct (saved_entry i ltac:(lia)) as (a & _ & _ & _ & Ha & Ia & _).
  destruct (saved_entry (i + 1) ltac:(lia)) as (b & _ & _ & _ & Hb & Ib & _).
  replace (Z.to_nat (i + 1)) with (S (Z.to_nat i)) in Hb by lia.
  pose proof (merged_sorted _ _ (merge_entries_merged (all_entries fs k (sorted_paths paths) 0))) as Hs.
  fold (merged_entries fs k paths) in Hs.
  assert (id_lt a b) as Hlt.
  { rewrite <- (take_drop_middle _ _ _ Ha) in Hs, Hb. apply StronglySorted_app_1_r in Hs.
    apply StronglySorted_inv in Hs as [_ Hall]. rewrite list.Forall_forall in Hall. apply Hall.
    rewrite lookup_app_r in Hb by (rewrite length_take; lia). rewrite length_take in Hb.
    apply lookup_lt_Some in Ha. replace (S (Z.to_nat i) - _)%nat with 1%nat in Hb by lia.
    by eapply (list_elem_of_lookup_2 _ 0%nat). }
  pose proof (merged_entries_ok fs k dir paths Hdir) as Hok. rewrite Forall_lookup in Hok.
  destruct (Hok _ _ Ha) as (_ & Ka & _). destruct (Hok _ _ Hb) as (_ & Kb & _).
  rewrite Ia, Ib. unfold id_lt in Hlt. destruct (id a), (id b); simpl in *; congruence.
Qed.

Lemma saved_verifies : verify_integrity_fast fs should_interrupt hasher f = Ok sum.
Proof using All.
  pose proof (mf_ok _ _ _ _ _ _ Hmf) as Hf. pose proof (mi_num_range f Hf) as Hn.
  assert (0 < num_objects f) as Hpos.
  { rewrite (mf_num _ _ _ _ _ _ Hmf). pose proof (merged_some fs k dir paths Hdir) as Hne.
    destruct (merged_entries fs k paths) as [|e l]; [done|]. rewrite zlen_cons. pose proof (zlen_nonneg l). lia. }
  unfold verify_integrity_fast. rewrite (mf_path _ _ _ _ _ _ Hmf). unfold parent. rewrite last_snoc, removelast_last.
  cbn [ok_or mbind outcome_bind]. destruct saved_checksum as [loads ->]. cbn [mbind outcome_bind].
  rewrite verify_fan_mono by (rewrite (mf_fan _ _ _ _ _ _ Hmf); apply count_fan_mono). cbn [mbind outcome_bind].
  rewrite (proj2 (Z.eqb_neq _ _)) by lia. cbn [negb ensure mbind outcome_bind]. unfold op_sub.
  rewrite checked_sub_in by lia. cbn [expect mbind outcome_bind].
  assert (∀ i, 0 ≤ i < num_objects f → pack_ok f i) as Hpacks by (intros i Hi; by apply saved_finds).
  rewrite (check_order_eq f Hf Hpacks) by (lia || (intros; apply saved_increasing; lia)). rewrite app_nil_l.
  cbn [mbind outcome_bind]. destruct (Hpacks (num_objects f - 1) ltac:(lia)) as (_ & o & ->). cbn [mbind outcome_bind].
  set (all := ((λ i, (pack_of f i, i)) <$> seqZ 0 (num_objects f - 1)) ++ [(pack_of f (num_objects f - 1), num_objects f - 1)]).
  assert (all = (λ i, (pack_of f i, i)) <$> seqZ 0 (num_objects f)) as Hall.
  { subst all. replace (num_objects f) with (num_objects f - 1 + 1) at 4 by lia.
    rewrite seqZ_app by lia. rewrite fmap_app. f_equal. }
  pose proof (sort_by_key_perm fst all) as Hperm.
  assert (zlen (sort_by_key fst all) = num_objects f) as Hz.
  { unfold zlen. rewrite Hperm, Hall, length_fmap, length_seqZ. lia. }
  pose proof (ok_names f Hf) as Hnames. pose proof (ok_indices f Hf).
  rewrite (check_packs_eq fs should_interrupt f dir Hf Hint); [|lia|lia|lia|lia|apply sort_by_key_sorted| |].
  - cbn [mbind outcome_bind]. by rewrite Z.add_0_l, Hz, Z.eqb_refl.
  - rewrite (mf_names _ _ _ _ _ _ Hmf), (mf_hash _ _ _ _ _ _ Hmf), Forall_fmap.
    pose proof (sorted_opens fs k dir paths Hdir) as Ho. pose proof (sorted_dir fs k dir paths Hdir) as Hd.
    rewrite list.Forall_forall in Ho, Hd. apply list.Forall_forall. intros q Hq. unfold compose.
    destruct (in_dir_name dir q (Hd q Hq)) as (_ & _ & Eq').
    assert (join dir [Normal (name_of q)] = q) as -> by (by rewrite join_name, <- Eq').
    destruct (opens_index fs k q (Ho q Hq)) as (idx & Hidx & _). by exists idx.
  - rewrite Hperm, Hall, Forall_fmap. apply list.Forall_forall. intros i Hi. apply elem_of_seqZ in Hi. simpl.
    destruct (saved_finds i ltac:(lia)) as [[Hr _] Hfd]. rewrite Z.sub_0_r. split; [lia|]. split; [lia|done].
Qed.
End Saved.

(** C29: a multi-pack index that was written from sound pack indices, saved (or not yet
    readable) in their directory and opened, passes verification, and the checksum is the one
    that writing returned. *)
Theorem multi_index_write_verifies (fs : FileSystem) (should_interrupt : nat → bool)
    (hasher : Kind → bytes → outcome mi_error ObjectId) (k : Kind) (dir : path) (paths : list path) (name : bytes)
    (Hhasher : ∀ b, ∃ h, hasher k b = Ok h ∧ oid_ok h ∧ Hash.kind h = k)
    (Hint : ∀ i, should_interrupt i = false) (Hdir : pack_dir fs k dir paths)
    (Hsound : Forall (sound_index fs k) paths)
    (Hdisk : ∀ d out sum, fs_read fs (dir ++ [Normal name]) = Some d →
       write_from_index_paths fs should_interrupt (hasher k) paths k = Ok (out, sum) → d = out) :
  ∃ out sum f, write_from_index_paths fs should_interrupt (hasher k) paths k = Ok (out, sum) ∧
    from_data out (dir ++ [Normal name]) None = Ok f ∧
    verify_integrity_fast fs should_interrupt hasher f = Ok sum.
Proof.
  destruct (Hhasher (saved_out fs k paths)) as (sum & Hsum & Hsk).
  destruct (merged_opened fs k dir paths Hdir sum (dir ++ [Normal name]) Hsk) as [f Hmf].
  pose proof (merged_write fs k dir paths Hdir should_interrupt (hasher k) sum Hint Hsum) as Hw.
  exists (saved_out fs k paths ++ as_slice sum), sum, f. split; [exact Hw|]. split; [apply (mf_from _ _ _ _ _ _ Hmf)|].
  eapply (saved_verifies fs should_interrupt hasher k dir paths name sum f); [done|done|done|done|done|done|].
  intros d Hd. exact (Hdisk d _ _ Hd Hw).
Qed.

(** ** Witnesses: the sample directory with the multi-pack index saved in it *)
Definition midx_name : bytes := [109; 105; 100; 120].
Definition midx_path : path := sample_dir ++ [Normal midx_name].
Definition sample_midx : bytes :=
  match write_from_index_paths sample_fs (λ _, false) sample_hasher [index_b; index_a] Sha1 with
  | Ok (out, _) => out
  | _ => []
  end.
Definition saved_fs : FileSystem :=
  {| fs_read := λ p, if bool_decide (p = midx_path) then Some sample_midx else fs_read sample_fs p;
     fs_modified := fs_modified sample_fs |}.
Definition const_hasher : Kind → bytes → outcome mi_error ObjectId := λ _, sample_hasher.

(** When an index is replaced by one that has the object elsewhere, verification says so. *)
Definition changed_fs : FileSystem :=
  {| fs_read := λ p, if bool_decide (p = index_b) then Some sample_file else fs_read saved_fs p;
     fs_modified := fs_modified saved_fs |}.
Example verify_detects :
  match from_data sample_midx midx_path None with
  | Ok f => verify_integrity_fast saved_fs (λ _, false) const_hasher f = Ok sample_hash ∧
      verify_integrity_fast changed_fs (λ _, false) const_hasher f =
        Err (WrongPackOffset (1 :: replicate 19 2) 50 12) ∧
      verify_integrity_fast saved_fs (λ i, bool_decide (i = 1)%nat) const_hasher f = Err Interrupted
  | _ => False
  end.
Proof. vm_compute. repeat split; reflexivity. Qed.

Lemma saved_bytes q d : fs_read saved_fs q = Some d → bytes_ok d.
Proof.
  assert (∀ (c : bool) (a : bytes) o, forallb (in_u 8) a = true → (∀ x, o = Some x → bytes_ok x) →
    (if c then Some a else o) = Some d → bytes_ok d) as Hif.
  { intros [] a o Ha Ho; [|apply Ho]. intros [= <-]. by apply bytes_ok_bool. }
  cbn [fs_read saved_fs sample_fs]. apply Hif; [vm_compute; reflexivity|].
  intros x. cbn [fs_read sample_fs]. destruct (bool_decide (q = index_a)).
  - intros [= <-]. apply bytes_ok_bool. vm_compute. reflexivity.
  - destruct (bool_decide (q = index_b)); [|done]. intros [= <-]. apply bytes_ok_bool. vm_compute. reflexivity.
Qed.
Lemma saved_pack_dir : pack_dir saved_fs Sha1 sample_dir [index_b; index_a].
Proof.
  destruct sample_pack_dir as [H1 H2 H3 H4 H5 H6].
  assert (∀ q, q ∈ [index_b; index_a] → fs_read saved_fs q = fs_read sample_fs q) as Hsame.
  { intros q Hq. cbn [fs_read saved_fs]. rewrite bool_decide_eq_false_2; [done|].
    apply list.elem_of_cons in Hq as [-> | Hq]; [discriminate|].
    apply list_elem_of_singleton in Hq as ->. discriminate. }
  assert (∀ q, q ∈ [index_b; index_a] → index_entries saved_fs Sha1 q = index_entries sample_fs Sha1 q) as Hes.
  { intros q Hq. unfold index_entries, open_index. by rewrite (Hsame q Hq). }
  split; [done|done| | | |done].
  - rewrite list.Forall_forall in *. intros q Hq. specialize (H3 q Hq). unfold opens in *. by rewrite (Hsame q Hq).
  - destruct H4 as (q & Hq & Hne). exists q. split; [done|]. by rewrite Hes.
  - assert (index_entries saved_fs Sha1 <$> [index_b; index_a] = index_entries sample_fs Sha1 <$> [index_b; index_a]) as ->;
      [|done]. apply list_fmap_ext. intros i q Hq. apply Hes. by eapply list_elem_of_lookup_2.
Qed.

(** An index written from entries in order is sound. *)
Lemma written_sound fs q k entries :
  Forall (item_ok k) entries → sorted_ids ((λ e, as_slice (item_id e)) <$> entries) →
  zlen entries < 2 ^ 32 → zlen (larges entries) ≤ LARGE_OFFSET_THRESHOLD →
  oid_ok sample_hash ∧ Hash.kind sample_hash = k → NoDup (w_ids entries) →
  open_index fs q k = Ok (w_file entries k sample_hash sample_hash) → sound_index fs k q.
Proof.
  intros H1 H2 H3 H4 H5 Hnd Ho. exists (w_file entries k sample_hash sample_hash), (w_ids entries).
  split; [done|]. split; [|done]. by apply w_table_ok.
Qed.
Lemma sorted_check (ids : list bytes) :
  forallb (λ i, match ids !! i, ids !! S i with
                | Some x, Some y => match bytes_cmp x y with Gt => false | _ => true end
                | _, _ => true end) (seq 0 (length ids)) = true →
  sorted_ids ids.
Proof.
  intros Hc i j x y Hij Hx Hy. rewrite forallb_forall in Hc.
  assert (∀ m z, ids !! (i + S m)%nat = Some z → bytes_le x z) as H.
  { induction m as [|m IH]; intros z Hz.
    - specialize (Hc i). rewrite Nat.add_1_r in Hz. rewrite Hx, Hz in Hc. unfold bytes_le. intros Hg. rewrite Hg in Hc.
      discriminate Hc. apply in_seq. apply lookup_lt_Some in Hx. lia.
    - apply lookup_lt_Some in Hz as Hl. destruct (lookup_lt_is_Some_2 ids (i + S m)) as [w Hw]; [lia|].
      specialize (IH w Hw). specialize (Hc (i + S m)%nat). replace (S (i + S m)) with (i + S (S m))%nat in Hc by lia.
      rewrite Hw, Hz in Hc. assert (bytes_le w z) as Hwz.
      { unfold bytes_le. intros Hg. rewrite Hg in Hc. discriminate Hc. apply in_seq. lia. }
      unfold bytes_le in *. intros Hg. apply bytes_cmp_gt_lt in Hg. apply (bytes_lt_le_trans _ _ w) in Hg; [|done].
      destruct (bytes_cmp w z) eqn:E; [|by rewrite bytes_cmp_antisym, E in Hg|done].
      apply bytes_cmp_eq in E as ->. by rewrite bytes_cmp_refl in Hg. }
  apply (H (j - i - 1)%nat). replace (i + S (j - i - 1))%nat with j by lia. done.
Qed.
Lemma sample_hash_ok : oid_ok sample_hash ∧ Hash.kind sample_hash = Sha1.
Proof. split; [|done]. split; [done|]. apply bytes_ok_bool. vm_compute. reflexivity. Qed.
Lemma saved_sound : Forall (sound_index saved_fs Sha1) [index_b; index_a].
Proof.
  assert (∀ b o, forallb (in_u 8) b = true → zlen b = 20 → 0 ≤ o < 2 ^ 64 →
    ∀ c, 0 ≤ c < 2 ^ 32 → item_ok Sha1 {| item_offset := o; item_id := OidSha1 b; item_crc32 := c |}) as Hi.
  { intros b o Hb Hl Ho c Hc. split; [split; [done|by apply bytes_ok_bool]|]. done. }
  constructor; [|constructor; [|constructor]].
  - apply (written_sound saved_fs index_b Sha1
      [{| item_offset := 50; item_id := OidSha1 (1 :: replicate 19 2); item_crc32 := 7 |}]).
    + constructor; [|constructor]. apply Hi; done || lia.
    + apply sorted_check. vm_compute. reflexivity.
    + vm_compute. reflexivity.
    + vm_compute. discriminate.
    + exact sample_hash_ok.
    + apply (bool_decide_unpack _). vm_compute. exact I.
    + vm_compute. reflexivity.
  - apply (written_sound saved_fs index_a Sha1 sample_entries).
    + constructor; [|constructor; [|constructor]]; apply Hi; done || lia.
    + apply sorted_check. vm_compute. reflexivity.
    + vm_compute. reflexivity.
    + vm_compute. discriminate.
    + exact sample_hash_ok.
    + apply (bool_decide_unpack _). vm_compute. exact I.
    + vm_compute. reflexivity.
Qed.

Lemma multi_index_write_verifies_witness :
  ∃ out sum f, write_from_index_paths saved_fs (λ _, false) (const_hasher Sha1) [index_b; index_a] Sha1 = Ok (out, sum) ∧
    from_data out (sample_dir ++ [Normal midx_name]) None = Ok f ∧
    verify_integrity_fast saved_fs (λ _, false) const_hasher f = Ok sum.
Proof.
  apply (multi_index_write_verifies saved_fs (λ _, false) const_hasher Sha1 sample_dir [index_b; index_a] midx_name).
  - intros b. exists sample_hash. split; [reflexivity|]. exact sample_hash_ok.
  - reflexivity.
  - exact saved_pack_dir.
  - exact saved_sound.
  - intros d out sum Hd Hw.
    assert (fs_read saved_fs midx_path = Some sample_midx) as Hm by reflexivity.
    assert (write_from_index_paths saved_fs (λ _, false) (const_hasher Sha1) [index_b; index_a] Sha1 =
            Ok (sample_midx, sample_hash)) as Hs by (vm_compute; reflexivity).
    unfold midx_path in Hm. congruence.
Defined.

Lemma multi_index_verified_witness :
  ∃ f, from_data sample_midx midx_path None = Ok f ∧
  verify_integrity_fast saved_fs (λ _, false) const_hasher f ≠ Panic ∧
  ∀ sum, verify_integrity_fast saved_fs (λ _, false) const_hasher f = Ok sum →
    checksum_of saved_fs const_hasher f sum ∧
    (∀ i j x y, 0 ≤ i < j → j < num_objects f →
       oid_at_index (E := mi_error) f i = Ok x → oid_at_index (E := mi_error) f j = Ok y →
       bytes_cmp x y = Lt) ∧
    ∃ dir, parent midx_path = Some dir ∧
      ∀ i, 0 ≤ i < num_objects f →
        ∃ id pk o name idx i', oid_at_index (E := mi_error) f i = Ok id ∧
          pack_id_and_pack_offset_at_index f i = Ok (pk, o) ∧
          get (index_names f) pk = Some name ∧
          open_index saved_fs (join dir name) (object_hash f) = Ok idx ∧
          PackIndex.oid_at_index (E := mi_error) idx i' = Ok id ∧
          PackIndex.pack_offset_at_index (E := mi_error) idx i' = Ok o.
Proof.
  assert (∃ f, from_data sample_midx midx_path None = Ok f) as [f Hf] by (vm_compute; eexists; reflexivity).
  exists f. split; [exact Hf|].
  apply (multi_index_verified saved_fs (λ _, false) const_hasher sample_midx midx_path None f).
  - exact saved_bytes.
  - discriminate.
  - apply (saved_bytes midx_path). reflexivity.
  - vm_compute. reflexivity.
  - exact Hf.
Defined.
