(* ===== verification/Validate.v ===== *)
(** * [gix-validate/src/{tag,reference,submodule}.rs]: names

    [name_inner] is the loop that validates a tag or reference name, or rebuilds
    it into a valid one: [out] is the rebuilt name, present when sanitizing. Its
    slices, early returns and in-place edits are kept. The specification of a
    valid name is a list of forbidden infixes, prefixes and suffixes. *)

From stdpp Require Import sets.
From S2P Require Import Prelude.

Inductive name_error :=
| InvalidByte (byte : Z)
| StartsWithSlash
| RepeatedSlash
| RepeatedDot
| LockFileSuffix
| ReflogPortion
| Asterisk
| StartsWithDot
| EndsWithDot
| EndsWithSlash
| Empty
| SomeLowercase
| Reserved (name : bytes)
| ParentComponent.

Definition LOCK : bytes := [46; 108; 111; 99; 107].
Definition HEAD_BRANCH : bytes :=
  [114; 101; 102; 115; 47; 104; 101; 97; 100; 115; 47; 72; 69; 65; 68].

(** [l.ends_with(t)] *)
Definition ends_with (l t : bytes) : bool :=
  (length t <=? length l)%nat && bytes_eqb (drop (length l - length t) l) t.

(** ** [tag.rs] *)
Inductive Mode := Sanitize | Validate.

Definition is_invalid_byte (b : Z) : bool :=
  (b =? 92) || (b =? 94) || (b =? 58) || (b =? 91) || (b =? 63) || (b =? 32) || (b =? 126)
  || ((0 <=? b) && (b <=? 31)) || (b =? 127).

(** [while out.ends_with(b".lock") { out.truncate(..) }]; each round removes five bytes. *)
Fixpoint strip_lock (fuel : nat) (out : bytes) : bytes :=
  match fuel with
  | O => out
  | S fuel => if ends_with out LOCK then strip_lock fuel (take (length out - length LOCK) out)
              else out
  end.

(** Push when sanitizing, fail when validating. *)
Definition push_or (out : option bytes) (b : Z) (e : name_error)
    : outcome name_error (option bytes) :=
  match out with Some out => Ok (Some (out ++ [b])) | None => Err e end.
Definition skip_or (out : option bytes) (e : name_error) : outcome name_error (option bytes) :=
  match out with Some out => Ok (Some out) | None => Err e end.
Definition strip_or (out : option bytes) (e : name_error) : outcome name_error (option bytes) :=
  match out with Some out => Ok (Some (strip_lock (length out) out)) | None => Err e end.

(** The last arm of the [match]: any byte that is fine by itself. *)
Definition plain_byte (input : bytes) (last byte_pos byte component_end : Z)
    (out : option bytes) : outcome name_error (Z * option bytes) :=
  '(component_end, out) ←
    (if byte =? 47 then
       let component_start := component_end in
       let component_end := byte_pos in
       slice ← expect (get_range input component_start component_end);
       out ← (if ends_with slice LOCK then strip_or out LockFileSuffix else Ok out);
       Ok (component_end, out)
     else Ok (component_end, out));
  let out := (λ out, out ++ [if (byte_pos =? 0) && (byte =? 46) then 45 else byte]) <$> out in
  out ← (if byte_pos =? last then
           slice ← expect (get_from input (component_end + 1));
           if ends_with slice LOCK then strip_or out LockFileSuffix else Ok out
         else Ok out);
  Ok (component_end, out).

(** One round of the loop: the new [component_end] and [out]. *)
Definition name_byte (input : bytes) (last byte_pos byte previous component_end : Z)
    (out : option bytes) : outcome name_error (Z * option bytes) :=
  let keep m := (out ← m; Ok (component_end, out)) in
  if is_invalid_byte byte then keep (push_or out 45 (InvalidByte byte))
  else if byte =? 42 then keep (push_or out 45 Asterisk)
  else if (byte =? 46) && (previous =? 46) then keep (skip_or out RepeatedDot)
  else if (byte =? 46) && (previous =? 47) then keep (push_or out 45 StartsWithDot)
  else if (byte =? 123) && (previous =? 64) then keep (push_or out 45 ReflogPortion)
  else if (byte =? 47) && (previous =? 47) then keep (skip_or out RepeatedSlash)
  else plain_byte input last byte_pos byte component_end out.

Fixpoint name_loop (input : bytes) (last : Z) (rest : bytes) (byte_pos previous component_end : Z)
    (out : option bytes) : outcome name_error (option bytes) :=
  match rest with
  | [] => Ok out
  | byte :: rest =>
      '(component_end, out) ← name_byte input last byte_pos byte previous component_end out;
      name_loop input last rest (byte_pos + 1) byte component_end out
  end.

(** [while out.last() == Some(&b'/') { out.pop(); }] and the same at the front. *)
Fixpoint pop_slashes (fuel : nat) (out : bytes) : bytes :=
  match fuel with
  | O => out
  | S fuel => if ends_with out [47] then pop_slashes fuel (take (length out - 1) out) else out
  end.
Fixpoint remove_slashes (out : bytes) : bytes :=
  match out with
  | 47 :: rest => remove_slashes rest
  | _ => out
  end.

Definition trim_slashes (out : bytes) : bytes :=
  let out := remove_slashes (pop_slashes (length out) out) in
  match out with [] => [45] | _ => out end.

(** What follows the loop. *)
Definition name_finish (input : bytes) (out : option bytes)
    : outcome name_error (option bytes) :=
  let out := trim_slashes <$> out in
  out ← (if bool_decide (head (default input out) = Some 46) then
           match out with
           | Some out => Ok (Some (<[0%nat := 45]> out))
           | None => Err StartsWithDot
           end
         else Ok out);
  if bool_decide (list.last (default input out) = Some 46) then
    match out with
    | Some out => Ok (Some (<[(length out - 1)%nat := 45]> out))
    | None => Err EndsWithDot
    end
  else Ok out.

Definition name_inner (input : bytes) (mode : Mode) : outcome name_error (option bytes) :=
  let out := match mode with Sanitize => Some [] | Validate => None end in
  if zlen input =? 0 then
    match out with Some out => Ok (Some out) | None => Err Empty end
  else if bool_decide (list.last input = Some 47) && bool_decide (out = None)
  then Err EndsWithSlash
  else if bool_decide (head input = Some 47) && bool_decide (out = None)
  then Err StartsWithSlash
  else
    out ← name_loop input (zlen input - 1) input 0 0 0 out;
    name_finish input out.

Definition tag_name (input : bytes) : outcome name_error bytes :=
  out ← name_inner input Validate;
  match out with None => Ok input | Some _ => Panic end.

(** ** [reference.rs] *)
Inductive RefMode := Complete | Partial | PartialSanitize.

Definition is_ascii_uppercase (c : Z) : bool := (65 <=? c) && (c <=? 90).

Definition validate (path : bytes) (mode : RefMode) : outcome name_error (option bytes) :=
  out ← name_inner path
    (match mode with Complete | Partial => Validate | PartialSanitize => Sanitize end);
  out ← (if bytes_eqb (default path out) [64] then
           match out with
           | Some out => Ok (Some (<[0%nat := 45]> out))
           | None => Err (Reserved path)
           end
         else Ok out);
  match mode with
  | Complete =>
      let input := default path out in
      let saw_slash := existsb (λ b, b =? 47) input in
      if negb saw_slash && negb (forallb (λ c, is_ascii_uppercase c || (c =? 95)) input)
      then Err SomeLowercase
      else Ok out
  | _ => Ok out
  end.

Definition reference_name (path : bytes) : outcome name_error bytes :=
  out ← validate path Complete;
  match out with None => Ok path | Some _ => Panic end.
Definition branch_name (path : bytes) : outcome name_error bytes :=
  path ← reference_name path;
  if bytes_eqb path HEAD_BRANCH then Err (Reserved path) else Ok path.
Definition name_partial (path : bytes) : outcome name_error bytes :=
  out ← validate path Partial;
  match out with None => Ok path | Some _ => Panic end.
(** Both [expect]s panic when there is nothing to unwrap. *)
Definition name_partial_or_sanitize (path : bytes) : outcome name_error bytes :=
  match validate path PartialSanitize with
  | Ok (Some name) => Ok (match name with [] => [45] | _ => name end)
  | _ => Panic
  end.

(** ** [submodule.rs] *)
Fixpoint split_components (name current : bytes) : list bytes :=
  match name with
  | [] => [current]
  | b :: name => if (b =? 47) || (b =? 92) then current :: split_components name []
                 else split_components name (current ++ [b])
  end.
Definition submodule_name (name : bytes) : outcome name_error bytes :=
  if zlen name =? 0 then Err Empty
  else if existsb (λ c, bytes_eqb c [46; 46]) (split_components name []) then Err ParentComponent
  else Ok name.

(** ** Specification *)
Definition has_suffix (l t : bytes) : Prop := ∃ a, l = a ++ t.
Definition has_infix (l t : bytes) : Prop := ∃ a b, l = a ++ t ++ b.

Definition forbidden_infixes : list bytes :=
  [[46; 46]; [47; 46]; [64; 123]; [47; 47]; LOCK ++ [47]].
Definition good_byte (b : Z) : Prop := is_invalid_byte b = false ∧ b ≠ 42.

(** A valid name: no control or special bytes, no [..], no component that starts
    with a dot, is empty or ends in [.lock], no [@{] and no dot at the end. *)
Record valid_name (s : bytes) : Prop := {
  vn_nonempty : s ≠ [];
  vn_bytes : Forall good_byte s;
  vn_infix : ∀ t, t ∈ forbidden_infixes → ¬ has_infix s t;
  vn_first : head s ≠ Some 46 ∧ head s ≠ Some 47;
  vn_last : list.last s ≠ Some 46 ∧ list.last s ≠ Some 47;
  vn_lock : ¬ has_suffix s LOCK;
}.

(** ** Lemmas: suffixes and infixes *)
Lemma suffix_nil l : has_suffix l [].
Proof. exists l. by rewrite app_nil_r. Qed.
Lemma suffix_snoc l c t d : has_suffix (l ++ [c]) (t ++ [d]) ↔ c = d ∧ has_suffix l t.
Proof.
  unfold has_suffix. split.
  - intros [a Ha]. rewrite app_assoc in Ha. apply app_inj_tail in Ha as [-> ->]. eauto.
  - intros [-> [a ->]]. exists a. by rewrite app_assoc.
Qed.
Lemma suffix_length l t : has_suffix l t → (length t ≤ length l)%nat.
Proof. intros [a ->]. rewrite length_app. lia. Qed.
Lemma ends_with_spec l t : ends_with l t = true ↔ has_suffix l t.
Proof.
  unfold ends_with, bytes_eqb. rewrite andb_true_iff, Nat.leb_le, bool_decide_eq_true. split.
  - intros [Hl Ht]. exists (take (length l - length t) l). rewrite <- Ht at 2. by rewrite take_drop.
  - intros [a ->]. rewrite length_app. split; [lia|].
    replace (length a + length t - length t)%nat with (length a) by lia. apply drop_app_length.
Qed.
Lemma ends_with_false l t : ends_with l t = false ↔ ¬ has_suffix l t.
Proof. rewrite <- ends_with_spec. by destruct (ends_with l t). Qed.

Lemma last_suffix l b : list.last l = Some b ↔ has_suffix l [b].
Proof.
  destruct l as [|x l _] using rev_ind.
  - split; [done|]. intros H%suffix_length. simpl in H. lia.
  - rewrite last_snoc. change [b] with ([] ++ [b]). rewrite suffix_snoc.
    split; [intros [= ->]; split; [done|apply suffix_nil]|by intros [-> _]].
Qed.

Lemma infix_snoc l c t :
  has_infix (l ++ [c]) t → has_infix l t ∨ has_suffix (l ++ [c]) t.
Proof.
  intros (a & b & H). destruct b as [|x b _] using rev_ind.
  - right. exists a. by rewrite app_nil_r in H.
  - left. exists a, b. rewrite !app_assoc in H. apply app_inj_tail in H as [-> _].
    by rewrite app_assoc.
Qed.
Lemma infix_sub a l b t : has_infix l t → has_infix (a ++ l ++ b) t.
Proof. intros (x & y & ->). exists (a ++ x), (y ++ b). by rewrite <- !app_assoc. Qed.
Lemma suffix_infix l t : has_suffix l t → has_infix l t.
Proof. intros [a ->]. exists a, []. by rewrite app_nil_r. Qed.

Definition infix_free (l : bytes) : Prop := ∀ t, t ∈ forbidden_infixes → ¬ has_infix l t.

Lemma infix_free_nil : infix_free [].
Proof.
  intros t Ht (a & b & H). destruct a; [|done]. destruct t; [|done].
  unfold forbidden_infixes in Ht. set_solver.
Qed.
Lemma infix_free_sub a l b : infix_free (a ++ l ++ b) → infix_free l.
Proof. intros H t Ht Hi. apply (H t Ht). by apply infix_sub. Qed.
Lemma infix_free_prefix l b : infix_free (l ++ b) → infix_free l.
Proof. apply (infix_free_sub []). Qed.
Lemma infix_free_suffix a l : infix_free (a ++ l) → infix_free l.
Proof. intros H. apply (infix_free_sub a l []). by rewrite app_nil_r. Qed.

(** Which bytes complete a forbidden infix. *)
Definition completes (l : bytes) (c : Z) : Prop :=
  (c = 46 ∧ has_suffix l [46]) ∨ (c = 46 ∧ has_suffix l [47]) ∨ (c = 123 ∧ has_suffix l [64]) ∨
  (c = 47 ∧ has_suffix l [47]) ∨ (c = 47 ∧ has_suffix l LOCK).

Lemma completes_spec l c :
  completes l c ↔ ∃ t, t ∈ forbidden_infixes ∧ has_suffix (l ++ [c]) t.
Proof.
  unfold completes, forbidden_infixes. split.
  - intros [[-> H]|[[-> H]|[[-> H]|[[-> H]|[-> H]]]]].
    + exists ([46] ++ [46]). rewrite suffix_snoc. set_solver.
    + exists ([47] ++ [46]). rewrite suffix_snoc. set_solver.
    + exists ([64] ++ [123]). rewrite suffix_snoc. set_solver.
    + exists ([47] ++ [47]). rewrite suffix_snoc. set_solver.
    + exists (LOCK ++ [47]). rewrite suffix_snoc. set_solver.
  - intros (t & Ht & H). rewrite !elem_of_cons in Ht.
    destruct Ht as [->|[->|[->|[->|[->|Ht]]]]]; [..|by apply elem_of_nil in Ht].
    + change [46; 46] with ([46] ++ [46]) in H. apply suffix_snoc in H. naive_solver.
    + change [47; 46] with ([47] ++ [46]) in H. apply suffix_snoc in H. naive_solver.
    + change [64; 123] with ([64] ++ [123]) in H. apply suffix_snoc in H. naive_solver.
    + change [47; 47] with ([47] ++ [47]) in H. apply suffix_snoc in H. naive_solver.
    + apply suffix_snoc in H. naive_solver.
Qed.

Lemma infix_free_snoc l c : infix_free (l ++ [c]) ↔ infix_free l ∧ ¬ completes l c.
Proof.
  split.
  - intros H. split; [by eapply infix_free_prefix|]. rewrite completes_spec.
    intros (t & Ht & Hs). apply (H t Ht). by apply suffix_infix.
  - intros [Hl Hc] t Ht [H|H]%infix_snoc; [by apply (Hl t Ht)|].
    apply Hc, completes_spec. eauto.
Qed.

(** ** Lemmas: the loop, over the bytes seen so far *)

(** [strip_lock] leaves no [.lock] at the end. *)
Lemma strip_lock_spec fuel out :
  (length out ≤ fuel)%nat →
  ∃ b, out = strip_lock fuel out ++ b ∧ ¬ has_suffix (strip_lock fuel out) LOCK ∧
    (b = [] ∨ ∃ b', b = LOCK ++ b').
Proof.
  revert out. induction fuel as [|fuel IH]; intros out Hf.
  - exists []. rewrite app_nil_r. split; [done|]. split; [|by left]. cbn [strip_lock].
    intros H%suffix_length. simpl in H. lia.
  - cbn [strip_lock]. destruct (ends_with out LOCK) eqn:E.
    + apply ends_with_spec in E as [a ->]. rewrite length_app.
      replace (length a + length LOCK - length LOCK)%nat with (length a) by lia.
      rewrite take_app_length. rewrite length_app in Hf. simpl in Hf.
      destruct (IH a ltac:(lia)) as (b & Ha & Hs & Hb). exists (b ++ LOCK).
      split; [by rewrite app_assoc, <- Ha|]. split; [done|]. right.
      destruct Hb as [->|[b' ->]]; [by exists []|]. exists (b' ++ LOCK). by rewrite app_assoc.
    + exists []. rewrite app_nil_r. split; [done|]. split; [by apply ends_with_false|by left].
Qed.

Definition last_lock (input : bytes) : bool := ends_with input LOCK && negb (bytes_eqb input LOCK).

(** One round, in terms of the prefix [p] before the byte [b]. *)
Definition plain_spec (p : bytes) (b : Z) (is_last : bool) (out : option bytes)
    : outcome name_error (option bytes) :=
  out ← (if (b =? 47) && ends_with p LOCK then strip_or out LockFileSuffix else Ok out);
  let out := (λ out, out ++ [if bool_decide (p = []) && (b =? 46) then 45 else b]) <$> out in
  if is_last && last_lock (p ++ [b]) then strip_or out LockFileSuffix else Ok out.
Definition byte_spec (p : bytes) (b : Z) (is_last : bool) (out : option bytes)
    : outcome name_error (option bytes) :=
  if is_invalid_byte b then push_or out 45 (InvalidByte b)
  else if b =? 42 then push_or out 45 Asterisk
  else if (b =? 46) && ends_with p [46] then skip_or out RepeatedDot
  else if (b =? 46) && ends_with p [47] then push_or out 45 StartsWithDot
  else if (b =? 123) && ends_with p [64] then push_or out 45 ReflogPortion
  else if (b =? 47) && ends_with p [47] then skip_or out RepeatedSlash
  else plain_spec p b is_last out.
Fixpoint loop_spec (p rest : bytes) (out : option bytes) : outcome name_error (option bytes) :=
  match rest with
  | [] => Ok out
  | b :: rest =>
      out ← byte_spec p b (bool_decide (rest = [])) out;
      loop_spec (p ++ [b]) rest out
  end.

Definition last0 (p : bytes) : Z := default 0 (list.last p).
Definition ce_ok (p : bytes) (ce : Z) : Prop :=
  0 ≤ ce ≤ zlen p ∧ (ce = 0 ∨ p !! Z.to_nat ce = Some 47).

Lemma last0_eqb p b : b ≠ 0 → (last0 p =? b) = ends_with p [b].
Proof.
  intros Hb. apply eq_true_iff_eq. rewrite Z.eqb_eq, ends_with_spec, <- last_suffix.
  unfold last0. destruct (list.last p); simpl; naive_solver.
Qed.

(** Cutting at or before a slash does not hide a [.lock] at the end. *)
Lemma drop_ends_with l m :
  ends_with (drop m l) LOCK = ends_with l LOCK && (m + 5 <=? length l)%nat.
Proof.
  apply eq_true_iff_eq. rewrite andb_true_iff, !ends_with_spec, Nat.leb_le. split.
  - intros H. split.
    + destruct H as [a Ha]. exists (take m l ++ a). by rewrite <- app_assoc, <- Ha, take_drop.
    + apply suffix_length in H. rewrite length_drop in H. simpl in H. lia.
  - intros [[a ->] Hm]. rewrite length_app in Hm. simpl in Hm. exists (drop m a).
    by rewrite drop_app_le by lia.
Qed.

Lemma lock_no_slash a i : (a ++ LOCK) !! i = Some 47 → (i < length a)%nat.
Proof.
  intros H. destruct (decide (i < length a)%nat); [done|]. exfalso.
  rewrite lookup_app_r in H by lia. destruct (i - length a)%nat as [|[|[|[|[|]]]]]; done.
Qed.

Lemma slash_cut l ce :
  ce_ok l ce → ends_with (drop (Z.to_nat ce) l) LOCK = ends_with l LOCK.
Proof.
  intros [Hr Hc]. rewrite drop_ends_with. destruct (ends_with l LOCK) eqn:E; [|done].
  apply Nat.leb_le. apply ends_with_spec in E as [a ->]. rewrite length_app. simpl.
  destruct Hc as [->|Hc]; [simpl; lia|]. apply lock_no_slash in Hc. lia.
Qed.
Lemma slash_cut_last l ce :
  ce_ok l ce → (Z.to_nat ce < length l)%nat →
  ends_with (drop (Z.to_nat (ce + 1)) l) LOCK = last_lock l.
Proof.
  intros [Hr Hc] Hlt. unfold last_lock. rewrite drop_ends_with.
  destruct (ends_with l LOCK) eqn:E; [|done]. apply ends_with_spec in E as [a ->]. cbn [andb].
  rewrite length_app. unfold bytes_eqb. apply eq_true_iff_eq.
  rewrite Nat.leb_le, negb_true_iff, bool_decide_eq_false. simpl.
  destruct Hc as [->|Hc].
  - destruct a as [|x a]; simpl; [naive_solver lia|]. split; [|lia].
    intros _ He. apply (f_equal length) in He. simpl in He. rewrite length_app in He. simpl in He. lia.
  - apply lock_no_slash in Hc. split; [|lia]. intros _ He. destruct a; simpl in *; [lia|].
    apply (f_equal length) in He. simpl in He. rewrite length_app in He. simpl in He. lia.
Qed.

Lemma zlen_snoc (p : bytes) b : zlen (p ++ [b]) = zlen p + 1.
Proof. unfold zlen. rewrite length_app. simpl. lia. Qed.
Lemma ce_ok_grow p b ce : ce_ok p ce → ce_ok (p ++ [b]) ce.
Proof.
  intros [H [->|Hl]]; (split; [rewrite zlen_snoc; lia|]); [by left|right].
  by apply lookup_app_l_Some.
Qed.
Lemma ce_ok_slash p : ce_ok (p ++ [47]) (zlen p).
Proof.
  split; [rewrite zlen_snoc; pose proof (zlen_nonneg p); lia|]. right.
  unfold zlen. rewrite Nat2Z.id. by apply list_lookup_middle.
Qed.

(** The two slices of the last arm always lie in the input. *)
Lemma plain_byte_spec p b rest ce out :
  ce_ok p ce → ∃ ce', ce_ok (p ++ [b]) ce' ∧
  plain_byte (p ++ b :: rest) (zlen (p ++ b :: rest) - 1) (zlen p) b ce out =
    (out ← plain_spec p b (bool_decide (rest = [])) out; Ok (ce', out)).
Proof.
  intros Hce. pose proof (zlen_nonneg p). pose proof (zlen_nonneg rest).
  exists (if b =? 47 then zlen p else ce).
  assert (Hce' : ce_ok (p ++ [b]) (if b =? 47 then zlen p else ce)).
  { destruct (Z.eqb_spec b 47) as [->|]; [apply ce_ok_slash|by apply ce_ok_grow]. }
  split; [done|]. unfold plain_byte, plain_spec.
  assert (Hlast : (zlen p =? zlen (p ++ b :: rest) - 1) = bool_decide (rest = [])).
  { rewrite zlen_app, zlen_cons. destruct rest; [rewrite zlen_nil|rewrite zlen_cons];
      rewrite ?bool_decide_eq_true_2, ?bool_decide_eq_false_2 by done;
      [apply Z.eqb_eq|apply Z.eqb_neq; pose proof (zlen_nonneg rest)]; lia. }
  assert (Hfirst : (zlen p =? 0) = bool_decide (p = [])).
  { destruct p; [done|]. rewrite bool_decide_eq_false_2 by done. apply Z.eqb_neq.
    rewrite zlen_cons. pose proof (zlen_nonneg p). lia. }
  rewrite Hlast, Hfirst.
  assert (Htail : ∀ ce o, ce_ok (p ++ [b]) ce → (Z.to_nat ce < length (p ++ [b]))%nat →
    (out ← (if bool_decide (rest = []) then
              slice ← expect (get_from (p ++ b :: rest) (ce + 1));
              if ends_with slice LOCK then strip_or o LockFileSuffix else Ok o
            else Ok o); Ok (ce, out)) =
    (out ← (if bool_decide (rest = []) && last_lock (p ++ [b]) then strip_or o LockFileSuffix
            else Ok o); Ok (ce, out))).
  { intros c o Hc Hlt. clear Hlast. destruct (bool_decide_reflect (rest = [])) as [->|]; [|done]. cbn [andb].
    rewrite get_from_in by (destruct Hc; rewrite zlen_snoc in *;
      rewrite length_app in Hlt; simpl in Hlt; unfold zlen in *; lia).
    cbn [expect mbind outcome_bind]. by rewrite slash_cut_last. }
  destruct (Z.eqb_spec b 47) as [->|Hb]; cbn [andb mbind outcome_bind].
  - rewrite get_range_in; [|destruct Hce; lia|rewrite zlen_app, zlen_cons; lia].
    cbn [expect mbind outcome_bind].
    replace (take _ _) with (drop (Z.to_nat ce) p).
    2: { destruct Hce as [Hr _]. unfold zlen in *. rewrite drop_app_le by lia.
         rewrite take_app_le by (rewrite length_drop; lia). symmetry. apply take_ge.
         rewrite length_drop. lia. }
    rewrite slash_cut by done.
    destruct (if ends_with p LOCK then _ else _); [|done..]. cbn [mbind outcome_bind].
    rewrite Htail; [done|done|]. rewrite length_app. simpl. unfold zlen. lia.
  - rewrite Htail; [done|by apply ce_ok_grow|]. rewrite length_app. simpl.
    destruct Hce. unfold zlen in *. lia.
Qed.

Lemma name_byte_spec p b rest ce out :
  ce_ok p ce → ∃ ce', ce_ok (p ++ [b]) ce' ∧
  name_byte (p ++ b :: rest) (zlen (p ++ b :: rest) - 1) (zlen p) b (last0 p) ce out =
    (out ← byte_spec p b (bool_decide (rest = [])) out; Ok (ce', out)).
Proof.
  intros Hce. unfold name_byte, byte_spec. rewrite !last0_eqb by done.
  repeat match goal with
  | |- context [if ?c then push_or _ _ _ else _] => destruct c
  | |- context [if ?c then skip_or _ _ else _] => destruct c
  end; try (exists ce; split; [by apply ce_ok_grow|done]).
  by apply plain_byte_spec.
Qed.

Lemma name_loop_spec rest : ∀ p ce out,
  ce_ok p ce →
  name_loop (p ++ rest) (zlen (p ++ rest) - 1) rest (zlen p) (last0 p) ce out =
    loop_spec p rest out.
Proof.
  induction rest as [|b rest IH]; intros p ce out Hce; cbn [name_loop loop_spec]; [done|].
  destruct (name_byte_spec p b rest ce out Hce) as (ce' & Hce' & ->).
  destruct (byte_spec _ _ _ _) as [o| |]; [|done..]. cbn [mbind outcome_bind].
  specialize (IH (p ++ [b]) ce' o Hce'). rewrite <- app_assoc in IH. simpl in IH.
  rewrite <- IH. f_equal.
  - by rewrite zlen_snoc.
  - unfold last0. by rewrite last_snoc.
Qed.

(** ** Lemmas: validation *)
Lemma byte_spec_validate p b l :
  (byte_spec p b l None = Ok None ∧
     good_byte b ∧ ¬ completes p b ∧ (l = true → last_lock (p ++ [b]) = false)) ∨
  ((∃ e, byte_spec p b l None = Err e) ∧
     ¬ (good_byte b ∧ ¬ completes p b ∧ (l = true → last_lock (p ++ [b]) = false))).
Proof.
  unfold byte_spec, plain_spec, push_or, skip_or, strip_or, good_byte, completes. cbn [fmap option_fmap option_map].
  rewrite <- !ends_with_spec.
  destruct (is_invalid_byte b); [right; split; [eauto|naive_solver]|].
  destruct (Z.eqb_spec b 42); [right; split; [eauto|naive_solver]|].
  repeat match goal with
  | |- context [if ?c && ?d then Err _ else _] =>
      destruct (c && d) eqn:?; [right; split; [eauto|]; rewrite andb_true_iff, Z.eqb_eq in *; tauto|]
  end.
  cbn [mbind outcome_bind].
  destruct (l && last_lock (p ++ [b])) eqn:Hll; [right|left]; (split; [eauto|]).
  - apply andb_true_iff in Hll as [Hl Hk]. intros (_ & _ & H). rewrite (H Hl) in Hk. done.
  - rewrite !andb_false_iff, !Z.eqb_neq in *.
    split; [done|]. split; [naive_solver congruence|]. intros ->. by destruct Hll.
Qed.

(** The loop accepts exactly when no byte is refused. *)
Lemma loop_spec_validate rest : ∀ p,
  infix_free p → Forall good_byte p →
  (loop_spec p rest None = Ok None ∧ infix_free (p ++ rest) ∧ Forall good_byte (p ++ rest) ∧
     (rest ≠ [] → last_lock (p ++ rest) = false)) ∨
  ((∃ e, loop_spec p rest None = Err e) ∧
   ¬ (infix_free (p ++ rest) ∧ Forall good_byte (p ++ rest) ∧ last_lock (p ++ rest) = false)).
Proof.
  induction rest as [|b rest IH]; intros p Hi Hg; cbn [loop_spec].
  - left. rewrite app_nil_r. naive_solver.
  - destruct (byte_spec_validate p b (bool_decide (rest = []))) as [(-> & Hb & Hc & Hl)|[[e ->] Hn]];
      cbn [mbind outcome_bind].
    + destruct (IH (p ++ [b])) as [(-> & H)|[[e ->] H]].
      * by apply infix_free_snoc.
      * apply Forall_app. auto.
      * left. rewrite <- app_assoc in H. split; [done|]. destruct H as (? & ? & Hlast).
        split; [done|]. split; [done|]. intros _. destruct rest; [by apply Hl|by apply Hlast].
      * right. rewrite <- app_assoc in H. eauto.
    + right. split; [eauto|]. intros (Hi' & Hg' & Hl'). apply Hn.
      rewrite cons_middle, app_assoc in Hi', Hg', Hl'.
      assert (infix_free (p ++ [b])) as [_ ?]%infix_free_snoc by (by eapply infix_free_prefix).
      apply Forall_app in Hg' as [[_ Hb%Forall_inv]%Forall_app _]. split; [done|]. split; [done|].
      intros ->%bool_decide_eq_true. by rewrite app_nil_r in Hl'.
Qed.

Lemma last_lock_spec s :
  head s ≠ Some 46 → last_lock s = false ↔ ¬ has_suffix s LOCK.
Proof.
  intros Hh. unfold last_lock. rewrite <- ends_with_false. destruct (ends_with s LOCK) eqn:E; [|done].
  cbn [andb]. rewrite negb_false_iff. unfold bytes_eqb. rewrite bool_decide_eq_true.
  split; [intros ->; done|done].
Qed.

(** Validation is the specification: [Ok(None)] for valid names, an error for others. *)
Lemma name_inner_validate s :
  (valid_name s ∧ name_inner s Validate = Ok None) ∨
  (¬ valid_name s ∧ ∃ e, name_inner s Validate = Err e).
Proof.
  unfold name_inner. destruct (Z.eqb_spec (zlen s) 0) as [Hz|Hz].
  { right. split; [|eauto]. intros [Hne _ _ _ _ _]. destruct s; [done|].
    rewrite zlen_cons in Hz. pose proof (zlen_nonneg s). lia. }
  assert (s ≠ []) by (by intros ->).
  rewrite (bool_decide_eq_true_2 (None = None)), !andb_true_r by done.
  destruct (bool_decide_reflect (list.last s = Some 47)).
  { right. split; [|eauto]. intros [_ _ _ _ [_ ?] _]. done. }
  destruct (bool_decide_reflect (head s = Some 47)).
  { right. split; [|eauto]. intros [_ _ _ [_ ?] _ _]. done. }
  pose proof (name_loop_spec s [] 0 None) as Hspec. simpl in Hspec.
  change (zlen []) with 0 in Hspec. change (last0 []) with 0 in Hspec.
  rewrite Hspec by (split; [done|by left]).
  unfold name_finish. cbn [fmap option_fmap option_map default].
  destruct (loop_spec_validate s []) as [(-> & Hi & Hg & Hl)|[[e ->] Hn]];
    [apply infix_free_nil|by constructor|..]; cbn [mbind outcome_bind]; simpl in *.
  - destruct (bool_decide_reflect (head s = Some 46)); cbn [mbind outcome_bind default].
    { right. split; [|eauto]. intros [_ _ _ [? _] _ _]. done. }
    destruct (bool_decide_reflect (list.last s = Some 46)).
    { right. split; [|eauto]. intros [_ _ _ _ [? _] _]. done. }
    left. split; [|done]. split; auto. apply last_lock_spec; auto.
  - right. split; [|eauto]. intros [_ ? ? [? _] _ ?]. apply Hn. repeat split; [done..|].
    by apply last_lock_spec.
Qed.

(** ** Lemmas: sanitizing

    [tracked] are the endings the loop decides by; what [out] ends with is also
    what the input read so far ends with. *)
Definition tracked : list bytes :=
  [[47]; [64]; [46]; [46; 108]; [46; 108; 111]; [46; 108; 111; 99]; LOCK].

Record clean (out : bytes) : Prop := {
  cl_bytes : Forall good_byte out;
  cl_infix : infix_free out;
  cl_head : head out ≠ Some 46;
}.
Record san (p out : bytes) : Prop := {
  san_clean : clean out;
  san_len : (length out ≤ length p)%nat;
  san_some : p ≠ [] → out ≠ [];
  san_tracked : ∀ t, t ∈ tracked → has_suffix out t → has_suffix p t;
}.

Lemma good_dash : good_byte 45.
Proof. by split. Qed.
Lemma head_snoc_ne (l : bytes) c :
  head l ≠ Some 46 → (l = [] → c ≠ 46) → head (l ++ [c]) ≠ Some 46.
Proof. destruct l; simpl; naive_solver. Qed.

Lemma clean_snoc out c :
  clean out → good_byte c → ¬ completes out c → (out = [] → c ≠ 46) → clean (out ++ [c]).
Proof.
  intros [Hb Hi Hh] Hc Hn He. split.
  - apply Forall_app. auto.
  - by apply infix_free_snoc.
  - by apply head_snoc_ne.
Qed.
Lemma clean_dash out : clean out → clean (out ++ [45]).
Proof.
  intros H. apply clean_snoc; [done|apply good_dash| |done]. unfold completes. naive_solver.
Qed.
Lemma clean_prefix a b : clean (a ++ b) → clean a.
Proof.
  intros [Hb Hi Hh]. split.
  - by apply Forall_app in Hb as [? _].
  - by eapply infix_free_prefix.
  - by destruct a.
Qed.

(** Every tracked ending is a byte after another tracked ending or none. *)
Lemma tracked_snoc t :
  t ∈ tracked → ∃ t' c, t = t' ++ [c] ∧ (t' = [] ∨ t' ∈ tracked) ∧ c ≠ 45 ∧
    (c = 46 → t = [46]) ∧ (c = 47 → t = [47]).
Proof.
  unfold tracked. rewrite !elem_of_cons, elem_of_nil.
  intros [->|[->|[->|[->|[->|[->|[->|[]]]]]]]].
  - exists [], 47. set_solver.
  - exists [], 64. set_solver.
  - exists [], 46. set_solver.
  - exists [46], 108. set_solver.
  - exists [46; 108], 111. set_solver.
  - exists [46; 108; 111], 99. set_solver.
  - exists [46; 108; 111; 99], 107. set_solver.
Qed.

Lemma san_dash p b out : san p out → san (p ++ [b]) (out ++ [45]).
Proof.
  intros [Hc Hl Hs Ht]. split.
  - by apply clean_dash.
  - rewrite !length_app. simpl. lia.
  - intros _. by destruct out.
  - intros t (t' & c & -> & _ & Hne & _)%tracked_snoc [Hc' _]%suffix_snoc. congruence.
Qed.
(** A repeated dot or slash is dropped. *)
Lemma san_skip p b out :
  b = 46 ∨ b = 47 → has_suffix p [b] → san p out → san (p ++ [b]) out.
Proof.
  intros Hb Hp [Hc Hl Hs Ht]. split; [done|rewrite length_app; simpl; lia|..].
  - intros _. apply Hs. intros ->. by apply suffix_length in Hp; simpl in Hp; lia.
  - intros t Hin Hsuf. specialize (Ht t Hin Hsuf).
    destruct (tracked_snoc t Hin) as (t' & c & -> & _ & _ & H46 & H47).
    assert (c = b) as ->.
    { destruct Ht as [a ->]. rewrite app_assoc in Hp. change [b] with ([] ++ [b]) in Hp.
      by apply suffix_snoc in Hp as [-> _]. }
    assert (t' ++ [b] = [b]) as -> by (destruct Hb; subst; auto).
    change [b] with ([] ++ [b]). apply suffix_snoc. split; [done|apply suffix_nil].
Qed.
Lemma san_push p b out :
  san p out → clean (out ++ [b]) → san (p ++ [b]) (out ++ [b]).
Proof.
  intros [Hc Hl Hs Ht] Hcl. split; [done|rewrite !length_app; simpl; lia|by destruct out|].
  intros t (t' & c & -> & Ht' & _)%tracked_snoc [<- Hsuf]%suffix_snoc.
  apply suffix_snoc. split; [done|]. destruct Ht' as [->|Ht']; [apply suffix_nil|by apply Ht].
Qed.
Lemma san_push_slash p out out' :
  clean (out' ++ [47]) → (length out' ≤ length p)%nat → out = out' ++ [47] → san (p ++ [47]) out.
Proof.
  intros Hcl Hl ->. split; [done|rewrite !length_app; simpl; lia|by destruct out'|].
  intros t (t' & c & -> & _ & _ & _ & H47)%tracked_snoc [<- _]%suffix_snoc.
  rewrite H47 by done. change [47] with ([] ++ [47]). apply suffix_snoc.
  split; [done|apply suffix_nil].
Qed.

(** Stripping [.lock] keeps the name clean and exposes neither [.lock] nor a slash. *)
Lemma strip_clean out :
  clean out → ∃ b, out = strip_lock (length out) out ++ b ∧
    clean (strip_lock (length out) out) ∧ ¬ has_suffix (strip_lock (length out) out) LOCK ∧
    (b = [] ∨ ¬ has_suffix (strip_lock (length out) out) [47]).
Proof.
  intros Hc. destruct (strip_lock_spec (length out) out (le_n _)) as (b & Hb & Hs & Hcase).
  set (o := strip_lock _ _) in *. exists b. split; [done|].
  split; [rewrite Hb in Hc; by eapply clean_prefix|]. split; [done|].
  destruct Hcase as [->|[b' ->]]; [by left|right]. intros [a Ha].
  apply (cl_infix _ Hc [47; 46]); [unfold forbidden_infixes; set_solver|].
  exists a, ([108; 111; 99; 107] ++ b'). rewrite Hb, Ha. unfold LOCK. by rewrite <- !app_assoc.
Qed.

Lemma san_not_tracked p out t :
  san p out → t ∈ tracked → ends_with p t = false → ¬ has_suffix out t.
Proof. intros Hs Ht He%ends_with_false Ho. by apply He, (san_tracked _ _ Hs). Qed.

Lemma good_byte_intro b : is_invalid_byte b = false → (b =? 42) = false → good_byte b.
Proof. intros ? ?%Z.eqb_neq. by split. Qed.

(** The end of the loop: a clean name with no [.lock] at its end. *)
Definition sanitized (out : bytes) : Prop := clean out ∧ ¬ has_suffix out LOCK.

Lemma san_last p out :
  san p out → last_lock p = false → sanitized out.
Proof.
  intros Hs Hl. split; [apply Hs|]. intros Ho.
  assert (has_suffix p LOCK) as Hp by (apply Hs; [unfold tracked; set_solver|done]).
  unfold last_lock in Hl. apply ends_with_spec in Hp. rewrite Hp in Hl. cbn [andb] in Hl.
  apply negb_false_iff in Hl. unfold bytes_eqb in Hl. apply bool_decide_eq_true in Hl as ->.
  destruct Ho as [a ->]. pose proof (san_len _ _ Hs) as Hlen. rewrite length_app in Hlen.
  destruct a; [|simpl in Hlen; lia]. by apply (cl_head _ (san_clean _ _ Hs)).
Qed.
Lemma san_last_other p b out :
  san (p ++ [b]) out → b ≠ 107 → sanitized out.
Proof.
  intros Hs Hb. apply (san_last _ _ Hs). unfold last_lock.
  assert (ends_with (p ++ [b]) LOCK = false) as ->; [|done]. apply ends_with_false.
  change LOCK with ([46; 108; 111; 99] ++ [107]). rewrite suffix_snoc. naive_solver.
Qed.

(** The last arm, before the [.lock] at the very end is looked at. *)
Lemma plain_push p b out :
  san p out → good_byte b →
  ((b =? 46) && ends_with p [46] = false) → ((b =? 46) && ends_with p [47] = false) →
  ((b =? 123) && ends_with p [64] = false) → ((b =? 47) && ends_with p [47] = false) →
  ∃ out1,
    (if (b =? 47) && ends_with p LOCK then strip_or (Some out) LockFileSuffix else Ok (Some out))
      = Ok (Some out1) ∧
    san (p ++ [b]) (out1 ++ [if bool_decide (p = []) && (b =? 46) then 45 else b]).
Proof.
  intros Hs Hg H1 H2 H3 H4.
  assert (Hnt : ∀ c t, (b =? c) && ends_with p t = false → t ∈ tracked → b = c → ¬ has_suffix out t).
  { intros c t Hc Ht ->. rewrite Z.eqb_refl in Hc. by apply (san_not_tracked p). }
  assert (Ht47 : [47] ∈ tracked) by (unfold tracked; set_solver).
  assert (Ht46 : [46] ∈ tracked) by (unfold tracked; set_solver).
  assert (Ht64 : [64] ∈ tracked) by (unfold tracked; set_solver).
  destruct ((b =? 47) && ends_with p LOCK) eqn:E.
  - apply andb_true_iff in E as [->%Z.eqb_eq Hp]. eexists. split; [done|].
    replace (bool_decide (p = []) && (47 =? 46)) with false by (by destruct (bool_decide _)).
    destruct (strip_clean out (san_clean _ _ Hs)) as (r & Ho & Hc & Hnl & Hcase).
    set (o := strip_lock _ _) in *. eapply (san_push_slash p _ o); [|..|done].
    + apply clean_snoc; [done|done| |done].
      intros [[? _]|[[? _]|[[? _]|[[_ H]|[_ H]]]]]; [done..| |done].
      destruct Hcase as [->|Hcase]; [|done]. rewrite app_nil_r in Ho.
      apply (Hnt 47 [47] H4 Ht47 eq_refl). by rewrite Ho.
    + pose proof (san_len _ _ Hs) as Hl. rewrite Ho, length_app in Hl. lia.
  - exists out. split; [done|].
    destruct (bool_decide (p = []) && (b =? 46)) eqn:E0; [by apply san_dash|].
    apply san_push; [done|]. apply clean_snoc; [apply Hs|done|..].
    + assert (Htl : LOCK ∈ tracked) by (unfold tracked; set_solver).
      intros [[Hb H]|[[Hb H]|[[Hb H]|[[Hb H]|[Hb H]]]]]; revert H;
        [apply (Hnt 46)|apply (Hnt 46)|apply (Hnt 123)|apply (Hnt 47)|apply (Hnt 47)]; done.
    + intros He ->. apply andb_false_iff in E0 as [E0|E0]; [|done].
      apply bool_decide_eq_false in E0. by apply (san_some _ _ Hs).
Qed.

Lemma byte_sanitize p b l out :
  san p out →
  ∃ out', byte_spec p b l (Some out) = Ok (Some out') ∧
    (l = false → san (p ++ [b]) out') ∧ (l = true → sanitized out').
Proof.
  intros Hs. unfold byte_spec, push_or, skip_or.
  assert (Hother : ∀ o, san (p ++ [b]) o → b ≠ 107 →
    (l = false → san (p ++ [b]) o) ∧ (l = true → sanitized o)).
  { intros o Ho Hb. split; [done|]. intros _. by eapply san_last_other. }
  assert (Hsuf : ∀ c t, (b =? c) && ends_with p t = true → b = c ∧ has_suffix p t).
  { intros c t [?%Z.eqb_eq ?%ends_with_spec]%andb_true_iff. done. }
  destruct (is_invalid_byte b) eqn:Hi.
  { eexists. split; [done|]. apply Hother; [by apply san_dash|]. by intros ->. }
  destruct (b =? 42) eqn:H42.
  { eexists. split; [done|]. apply Hother; [by apply san_dash|]. by intros ->. }
  destruct ((b =? 46) && ends_with p [46]) eqn:H1.
  { apply Hsuf in H1 as [-> H1]. eexists. split; [done|].
    apply Hother; [by apply san_skip; auto|done]. }
  destruct ((b =? 46) && ends_with p [47]) eqn:H2.
  { apply Hsuf in H2 as [-> H2]. eexists. split; [done|].
    apply Hother; [by apply san_dash|done]. }
  destruct ((b =? 123) && ends_with p [64]) eqn:H3.
  { apply Hsuf in H3 as [-> H3]. eexists. split; [done|].
    apply Hother; [by apply san_dash|done]. }
  destruct ((b =? 47) && ends_with p [47]) eqn:H4.
  { apply Hsuf in H4 as [-> H4]. eexists. split; [done|].
    apply Hother; [by apply san_skip; auto|done]. }
  destruct (plain_push p b out) as (o & He & Hs'); [done|by apply good_byte_intro|done..|].
  unfold plain_spec. rewrite He. cbn [mbind outcome_bind fmap option_fmap option_map].
  destruct l; cbn [andb]; [|eexists; split; [done|]; split; [done|done]].
  destruct (last_lock (p ++ [b])) eqn:Hl.
  - eexists. split; [done|]. split; [done|]. intros _.
    destruct (strip_clean _ (san_clean _ _ Hs')) as (? & _ & ? & ? & _). by split.
  - eexists. split; [done|]. split; [done|]. intros _. by eapply san_last.
Qed.

Lemma loop_sanitize rest : ∀ p out,
  san p out → rest ≠ [] →
  ∃ out', loop_spec p rest (Some out) = Ok (Some out') ∧ sanitized out'.
Proof.
  induction rest as [|b rest IH]; intros p out Hs Hne; [done|]. cbn [loop_spec].
  destruct (byte_sanitize p b (bool_decide (rest = [])) out Hs) as (o & -> & Hf & Ht).
  cbn [mbind outcome_bind]. destruct (bool_decide_reflect (rest = [])) as [->|Hr].
  - exists o. auto.
  - apply IH; auto.
Qed.

(** ** Lemmas: the end of [name_inner] when sanitizing *)
Lemma clean_suffix a b : clean (a ++ b) → head b ≠ Some 46 → clean b.
Proof.
  intros [Hb Hi _] Hh. split; [by apply Forall_app in Hb as [_ ?]| |done].
  by eapply infix_free_suffix.
Qed.

Lemma pop_slashes_spec fuel out :
  (length out ≤ fuel)%nat →
  ∃ b, out = pop_slashes fuel out ++ b ∧ ¬ has_suffix (pop_slashes fuel out) [47] ∧
    (b = [] ∨ ∃ b', b = 47 :: b').
Proof.
  revert out. induction fuel as [|fuel IH]; intros out Hf.
  - exists []. rewrite app_nil_r. split; [done|]. split; [|by left]. cbn [pop_slashes].
    intros H%suffix_length. simpl in H. lia.
  - cbn [pop_slashes]. destruct (ends_with out [47]) eqn:E.
    + apply ends_with_spec in E as [a ->]. rewrite length_app in *. simpl in Hf |- *.
      replace (length a + 1 - 1)%nat with (length a) by lia. rewrite take_app_length.
      destruct (IH a ltac:(lia)) as (b & Ha & Hs & Hb). exists (b ++ [47]).
      split; [by rewrite app_assoc, <- Ha|]. split; [done|]. right.
      destruct Hb as [->|[b' ->]]; [by exists []|]. by exists (b' ++ [47]).
    + exists []. rewrite app_nil_r. split; [done|]. split; [by apply ends_with_false|by left].
Qed.

Lemma remove_slashes_id out : head out ≠ Some 47 → remove_slashes out = out.
Proof.
  destruct out as [|b out]; [done|]. intros Hb.
  destruct b as [|b|b]; try done. repeat (destruct b as [b|b|]; try done).
Qed.
Lemma remove_slashes_spec out :
  ∃ a, out = a ++ remove_slashes out ∧ head (remove_slashes out) ≠ Some 47 ∧
    (a = [] ∨ has_suffix a [47]).
Proof.
  induction out as [|b out IH]; [exists []; auto|].
  destruct (decide (b = 47)) as [->|Hb].
  - destruct IH as (a & Ha & Hh & Hcase). exists (47 :: a). cbn [remove_slashes app].
    split; [by rewrite <- Ha|]. split; [done|]. right.
    destruct Hcase as [->|[x ->]]; [exists []|exists (47 :: x)]; done.
  - exists []. rewrite remove_slashes_id by (simpl; congruence).
    split; [done|]. split; [simpl; congruence|by left].
Qed.

Lemma lock_slash_free out b : infix_free (out ++ 47 :: b) → ¬ has_suffix out LOCK.
Proof.
  intros Hi Hs. rewrite cons_middle, app_assoc in Hi. apply infix_free_prefix in Hi.
  apply infix_free_snoc in Hi as [_ Hc]. apply Hc. unfold completes. naive_solver.
Qed.
Lemma suffix_app_r a b t : has_suffix b t → has_suffix (a ++ b) t.
Proof. intros [x ->]. exists (a ++ x). by rewrite app_assoc. Qed.

(** Trimming the slashes leaves a valid name, but for a dot at the end. *)
Lemma trim_slashes_spec out :
  sanitized out →
  let o := trim_slashes out in
  sanitized o ∧ o ≠ [] ∧ head o ≠ Some 47 ∧ ¬ has_suffix o [47].
Proof.
  intros [Hc Hl]. unfold trim_slashes.
  destruct (pop_slashes_spec (length out) out (le_n _)) as (b & Hb & Hs1 & Hcase).
  set (o1 := pop_slashes _ _) in *.
  assert (sanitized o1) as [Hc1 Hl1].
  { split; [rewrite Hb in Hc; by eapply clean_prefix|]. destruct Hcase as [->|[b' ->]].
    - by rewrite app_nil_r in Hb; rewrite <- Hb.
    - eapply lock_slash_free. rewrite <- Hb. apply Hc. }
  clearbody o1. clear b Hb Hcase Hc Hl.
  destruct (remove_slashes_spec o1) as (a & Ha & Hh & Hcase).
  set (o := remove_slashes o1) in *. clearbody o. subst o1.
  assert (head o ≠ Some 46).
  { destruct Hcase as [->|[x ->]]; [apply Hc1|]. intros Ho. destruct o as [|c o]; [done|].
    injection Ho as ->. apply (cl_infix _ Hc1 [47; 46]); [unfold forbidden_infixes; set_solver|].
    exists x, o. by rewrite <- !app_assoc. }
  assert (clean o) by (by eapply clean_suffix).
  destruct o as [|c o].
  - split; [split; [split|]|]; try done.
    + by repeat constructor.
    + apply (infix_free_snoc [] 45). split; [apply infix_free_nil|]. unfold completes. naive_solver.
    + intros Hx%suffix_length. simpl in Hx. lia.
    + repeat split; try done. by intros Hx%last_suffix.
  - split; [split; [done|]|].
    + intros Hx. by apply Hl1, suffix_app_r.
    + repeat split; [done..|]. intros Hx. by apply Hs1, suffix_app_r.
Qed.

Lemma head_lookup {A} (l : list A) : head l = l !! 0%nat.
Proof. by destruct l. Qed.

(** Replacing the last byte by a dash. *)
Lemma dash_last_valid o c :
  clean (o ++ [c]) → head (o ++ [c]) ≠ Some 47 → valid_name (o ++ [45]).
Proof.
  intros Hc Hh. apply clean_prefix in Hc as Ho. apply clean_dash in Ho as [Hg Hi H46]. split; try done.
  - by destruct o.
  - split; [done|]. destruct o; [done|exact Hh].
  - rewrite last_snoc. done.
  - change LOCK with ([46; 108; 111; 99] ++ [107]). rewrite suffix_snoc. naive_solver.
Qed.

Lemma name_finish_sanitize s out :
  sanitized out → ∃ o, name_finish s (Some out) = Ok (Some o) ∧ valid_name o.
Proof.
  intros Hs. unfold name_finish. cbn [fmap option_fmap option_map from_option id].
  destruct (trim_slashes_spec out Hs) as ([Hc Hl] & Hne & Hh & Ht).
  set (o := trim_slashes out) in *. clearbody o.
  rewrite (bool_decide_eq_false_2 (head o = _)) by apply Hc. cbn [mbind outcome_bind from_option id].
  destruct (bool_decide_reflect (list.last o = Some 46)) as [Hd|Hd].
  - eexists. split; [done|]. apply last_Some in Hd as [o' ->].
    rewrite length_app. simpl. replace (length o' + 1 - 1)%nat with (length o' + 0)%nat by lia.
    rewrite insert_app_r. by eapply dash_last_valid.
  - eexists. split; [done|]. split; try apply Hc; try done.
    + split; [apply Hc|done].
    + split; [done|]. by rewrite last_suffix.
Qed.

Lemma name_inner_sanitize s :
  s ≠ [] → ∃ o, name_inner s Sanitize = Ok (Some o) ∧ valid_name o.
Proof.
  intros Hne. unfold name_inner. destruct (Z.eqb_spec (zlen s) 0) as [Hz|_].
  { destruct s; [done|]. rewrite zlen_cons in Hz. pose proof (zlen_nonneg s). lia. }
  rewrite (bool_decide_eq_false_2 (Some [] = None)), !andb_false_r by done.
  pose proof (name_loop_spec s [] 0 (Some [])) as Hspec. simpl in Hspec.
  change (zlen []) with 0 in Hspec. change (last0 []) with 0 in Hspec.
  rewrite Hspec by (split; [done|by left]).
  destruct (loop_sanitize s [] []) as (o & -> & Ho); [|done|].
  - split; [split|..]; [constructor|apply infix_free_nil|done|done|done|].
    intros t _ Hs. exact Hs.
  - cbn [mbind outcome_bind]. by apply name_finish_sanitize.
Qed.

(** ** Lemmas: sanitizing changes nothing in a valid name *)
Lemma byte_sanitize_id p b l :
  good_byte b → ¬ completes p b → (p = [] → b ≠ 46) → (l = true → last_lock (p ++ [b]) = false) →
  byte_spec p b l (Some p) = Ok (Some (p ++ [b])).
Proof.
  intros [Hi H42] Hc He Hl. unfold byte_spec, plain_spec. rewrite Hi.
  destruct (Z.eqb_spec b 42) as [|_]; [done|].
  assert (Hf : ∀ c t, (b = c ∧ has_suffix p t → completes p b) → (b =? c) && ends_with p t = false).
  { intros c t Hct. apply not_true_iff_false.
    intros [?%Z.eqb_eq ?%ends_with_spec]%andb_true_iff. auto. }
  rewrite !Hf by (unfold completes; tauto). cbn [mbind outcome_bind fmap option_fmap option_map].
  replace (bool_decide (p = []) && (b =? 46)) with false.
  2: { symmetry. apply not_true_iff_false.
       intros [?%bool_decide_eq_true ?%Z.eqb_eq]%andb_true_iff. by apply He. }
  destruct l; [|done]. by rewrite Hl.
Qed.

Lemma loop_sanitize_id rest : ∀ p,
  infix_free (p ++ rest) → Forall good_byte (p ++ rest) → last_lock (p ++ rest) = false →
  head (p ++ rest) ≠ Some 46 → loop_spec p rest (Some p) = Ok (Some (p ++ rest)).
Proof.
  induction rest as [|b rest IH]; intros p Hi Hg Hl Hh; cbn [loop_spec]; [by rewrite app_nil_r|].
  rewrite (cons_middle b p rest), app_assoc in *. rewrite byte_sanitize_id.
  - cbn [mbind outcome_bind]. by apply IH.
  - by apply Forall_app in Hg as [[_ Hb%Forall_inv]%Forall_app _].
  - apply infix_free_prefix in Hi. by apply infix_free_snoc in Hi as [_ ?].
  - intros -> ->. done.
  - intros ->%bool_decide_eq_true. by rewrite app_nil_r in Hl.
Qed.

Lemma trim_slashes_id s :
  s ≠ [] → head s ≠ Some 47 → list.last s ≠ Some 47 → trim_slashes s = s.
Proof.
  intros Hne Hh Hl. unfold trim_slashes.
  assert (pop_slashes (length s) s = s) as ->.
  { destruct (length s); cbn [pop_slashes]; [done|]. destruct (ends_with s [47]) eqn:E; [|done].
    by apply ends_with_spec, last_suffix in E. }
  rewrite remove_slashes_id by done. by destruct s.
Qed.

Lemma name_inner_sanitize_id s : valid_name s → name_inner s Sanitize = Ok (Some s).
Proof.
  intros [Hne Hg Hi [H46 H47] [L46 L47] Hlock]. unfold name_inner.
  destruct (Z.eqb_spec (zlen s) 0) as [Hz|_].
  { destruct s; [done|]. rewrite zlen_cons in Hz. pose proof (zlen_nonneg s). lia. }
  rewrite (bool_decide_eq_false_2 (Some [] = None)), !andb_false_r by done.
  pose proof (name_loop_spec s [] 0 (Some [])) as Hspec. simpl in Hspec.
  change (zlen []) with 0 in Hspec. change (last0 []) with 0 in Hspec.
  rewrite Hspec by (split; [done|by left]).
  rewrite (loop_sanitize_id s []) by (simpl; try apply last_lock_spec; done).
  unfold name_finish. cbn [mbind outcome_bind fmap option_fmap option_map from_option id app].
  rewrite trim_slashes_id by done. rewrite (bool_decide_eq_false_2 (head s = _)) by done.
  cbn [mbind outcome_bind from_option id].
  by rewrite (bool_decide_eq_false_2 (list.last s = _)) by done.
Qed.

(** ** Properties *)

(** [f] returns exactly the names that satisfy [P], unchanged, refuses all others
    with an error and never panics. *)
Definition accepts_exactly (f : bytes → outcome name_error bytes) (P : bytes → Prop) : Prop :=
  ∀ s, (P s ∧ f s = Ok s) ∨ (¬ P s ∧ ∃ e, f s = Err e).

Definition valid_partial (s : bytes) : Prop := valid_name s ∧ s ≠ [64].
Definition upper_or_slash (s : bytes) : Prop :=
  47 ∈ s ∨ Forall (λ c, 65 ≤ c ≤ 90 ∨ c = 95) s.

Lemma upper_or_slash_spec s :
  negb (existsb (λ b, b =? 47) s) && negb (forallb (λ c, is_ascii_uppercase c || (c =? 95)) s)
    = false ↔ upper_or_slash s.
Proof.
  rewrite andb_false_iff, !negb_false_iff, existsb_exists, forallb_forall. unfold upper_or_slash.
  rewrite list.Forall_forall. setoid_rewrite <- list_elem_of_In.
  setoid_rewrite orb_true_iff. unfold is_ascii_uppercase. setoid_rewrite andb_true_iff.
  setoid_rewrite Z.eqb_eq. setoid_rewrite Z.leb_le. naive_solver.
Qed.

Lemma validate_partial s :
  (valid_partial s ∧ validate s Partial = Ok None) ∨
  (¬ valid_partial s ∧ ∃ e, validate s Partial = Err e).
Proof.
  unfold validate, valid_partial.
  destruct (name_inner_validate s) as [[Hv ->]|[Hv [e ->]]]; cbn [mbind outcome_bind from_option id].
  - unfold bytes_eqb. case_bool_decide; [right|left]; naive_solver.
  - right. naive_solver.
Qed.
Lemma validate_complete s :
  (valid_partial s ∧ upper_or_slash s ∧ validate s Complete = Ok None) ∨
  (¬ (valid_partial s ∧ upper_or_slash s) ∧ ∃ e, validate s Complete = Err e).
Proof.
  pose proof (validate_partial s) as Hp. unfold validate in *.
  destruct (name_inner s Validate) as [o| |]; cbn [mbind outcome_bind] in *;
    [|right; naive_solver|naive_solver].
  destruct (if bytes_eqb _ _ then _ else _) as [o'| |]; cbn [mbind outcome_bind] in *;
    [|right; naive_solver|naive_solver].
  destruct Hp as [[Hp [= ->]]|[_ [e [=]]]]. cbn [from_option id].
  pose proof (upper_or_slash_spec s) as Hu. destruct (negb _ && negb _).
  - right. naive_solver.
  - left. naive_solver.
Qed.

(** [name_partial_or_sanitize] never panics (neither [expect] can fail), its
    result always passes [name_partial], and a name that is already valid is
    returned as it is, so sanitizing twice is sanitizing once. *)
Theorem sanitize_gives_valid (s : bytes) :
  ∃ o, name_partial_or_sanitize s = Ok o ∧ name_partial o = Ok o ∧
       (name_partial s = Ok s → o = s).
Proof.
  assert (Hpart : ∀ o, valid_partial o ↔ name_partial o = Ok o).
  { intros o. unfold name_partial. destruct (validate_partial o) as [[? ->]|[? [e ->]]]; naive_solver. }
  setoid_rewrite <- Hpart. unfold name_partial_or_sanitize, validate.
  destruct (decide (s = [])) as [->|Hne].
  { exists [45]. split; [done|]. split; [apply Hpart; reflexivity|]. intros [[]]. done. }
  destruct (name_inner_sanitize s Hne) as (o & Ho & Hv). rewrite Ho.
  cbn [mbind outcome_bind from_option id].
  assert (Hid : valid_partial s → o = s).
  { intros [Hvs _]. rewrite name_inner_sanitize_id in Ho by done. congruence. }
  unfold bytes_eqb. case_bool_decide as Heq; cbn [mbind outcome_bind].
  - subst o. exists [45]. split; [done|]. split; [apply Hpart; reflexivity|].
    intros Hs. destruct Hs as [Hs Hne64]. by rewrite <- Hid in Hne64.
  - exists o. split; [|done]. destruct o; [by destruct (vn_nonempty _ Hv)|done].
Qed.

(** ** Submodule names *)
Definition sep (b : Z) : Prop := b = 47 ∨ b = 92.
(** [..] between separators or the ends of the name. *)
Definition has_parent (s : bytes) : Prop :=
  ∃ a b, s = a ++ [46; 46] ++ b ∧ (∀ x, list.last a = Some x → sep x) ∧
         (∀ x, head b = Some x → sep x).

Lemma first_sep_unique u : ∀ x v c b,
  u ++ x :: v = c ++ b → sep x → (∀ y, y ∈ u → ¬ sep y) → (∀ y, y ∈ c → ¬ sep y) →
  (∀ y, head b = Some y → sep y) → u = c.
Proof.
  induction u as [|y u IH]; intros x v c b Heq Hx Hu Hc Hb.
  - destruct c as [|z c]; [done|]. injection Heq as <- _. exfalso. apply (Hc x); [set_solver|done].
  - destruct c as [|z c]; simpl in Heq.
    + exfalso. apply (Hu y); [set_solver|]. apply Hb. by rewrite <- Heq.
    + injection Heq as <- Heq. f_equal. eapply IH; [done|done|set_solver|set_solver|done].
Qed.

Lemma split_components_elem name : ∀ current c,
  (∀ x, x ∈ current → ¬ sep x) →
  c ∈ split_components name current ↔
  (∃ b, current ++ name = c ++ b ∧ (∀ x, x ∈ c → ¬ sep x) ∧ (∀ x, head b = Some x → sep x)) ∨
  (∃ a s b, name = a ++ s :: c ++ b ∧ sep s ∧ (∀ x, x ∈ c → ¬ sep x) ∧
     (∀ x, head b = Some x → sep x)).
Proof.
  induction name as [|x name IH]; intros current c Hcur; cbn [split_components].
  - rewrite list_elem_of_singleton, app_nil_r. split.
    + intros ->. left. exists []. by rewrite app_nil_r.
    + intros [(b & -> & _ & Hb)|([|] & s & b & [=] & _)]. destruct b as [|y b]; [by rewrite app_nil_r|].
      exfalso. apply (Hcur y); [set_solver|]. by apply Hb.
  - assert (Hx : (x =? 47) || (x =? 92) = true ↔ sep x)
      by (unfold sep; rewrite orb_true_iff, !Z.eqb_eq; done).
    destruct ((x =? 47) || (x =? 92)).
    + assert (sep x) as Hsx by (by apply Hx). rewrite elem_of_cons, IH by set_solver.
      split.
      * intros [->|[(b & Hn & Hc & Hb)|(a & s & b & -> & ?)]].
        -- left. exists (x :: name). split; [done|]. split; [done|]. by intros ? [= <-].
        -- right. exists [], x, b. simpl in *. by rewrite Hn.
        -- right. exists (x :: a), s, b. done.
      * intros [(b & Hn & Hc & Hb)|(a & s & b & Hn & Hs & Hc & Hb)].
        -- left. symmetry. by eapply first_sep_unique.
        -- right. destruct a as [|y a]; injection Hn as -> ->; [left; eauto|right].
           exists a, s, b. done.
    + assert (¬ sep x) as Hsx by (rewrite <- Hx; done). rewrite IH by set_solver.
      rewrite <- app_assoc. simpl. split.
      * intros [H|(a & s & b & -> & ?)]; [by left|right]. by exists (x :: a), s, b.
      * intros [H|(a & s & b & Hn & Hs & ?)]; [by left|right].
        destruct a as [|y a]; injection Hn as -> ->; [done|]. by exists a, s, b.
Qed.

Lemma has_parent_spec s : [46; 46] ∈ split_components s [] ↔ has_parent s.
Proof.
  assert (Hdd : ∀ x, x ∈ [46; 46] → ¬ sep x).
  { unfold sep. intros x. rewrite !elem_of_cons, elem_of_nil. naive_solver. }
  rewrite split_components_elem by (intros x Hx; by apply elem_of_nil in Hx).
  unfold has_parent. split.
  - intros [(b & Heq & _ & Hb)|(a & x & b & -> & Hx & _ & Hb)].
    + exists [], b. done.
    + exists (a ++ [x]), b. rewrite <- app_assoc. split; [done|]. split; [|done].
      intros y. rewrite last_snoc. by intros [= <-].
  - intros (a & b & -> & Ha & Hb). destruct a as [|x a _] using rev_ind.
    + left. by exists b.
    + right. exists a, x, b. rewrite <- app_assoc. split; [done|]. split; [|done].
      apply Ha. apply last_snoc.
Qed.

Lemma submodule_name_exact :
  accepts_exactly submodule_name (λ s, s ≠ [] ∧ ¬ has_parent s).
Proof.
  intros s. unfold submodule_name. destruct (Z.eqb_spec (zlen s) 0) as [Hz|Hz].
  { destruct s; [right; naive_solver|]. rewrite zlen_cons in Hz. pose proof (zlen_nonneg s). lia. }
  assert (s ≠ []) by (by intros ->).
  assert (He : existsb (λ c, bytes_eqb c [46; 46]) (split_components s []) = true ↔ has_parent s).
  { rewrite existsb_exists, <- has_parent_spec. setoid_rewrite <- list_elem_of_In.
    unfold bytes_eqb. setoid_rewrite bool_decide_eq_true. naive_solver. }
  destruct (existsb _ _); [right|left]; naive_solver.
Qed.

(** C22: validation is exact. [tag::name] accepts exactly the valid names: those
    with no control or special byte, none of [..], [@{], empty components,
    components that start with a dot or end in [.lock], and no dot or slash at
    either end. [reference::name_partial] also refuses a lone [@],
    [reference::name] also refuses a name with no slash that is not all uppercase
    letters and underscores, and [branch_name] also refuses [refs/heads/HEAD].
    [submodule::name] accepts the nonempty names with no [..] component, where both
    kinds of slash separate components.
    What is accepted is returned unchanged, everything else is an error, and no
    input makes the slices of the loop panic. *)
Theorem names_validated :
  accepts_exactly tag_name valid_name ∧
  accepts_exactly name_partial valid_partial ∧
  accepts_exactly reference_name (λ s, valid_partial s ∧ upper_or_slash s) ∧
  accepts_exactly branch_name (λ s, (valid_partial s ∧ upper_or_slash s) ∧ s ≠ HEAD_BRANCH) ∧
  accepts_exactly submodule_name (λ s, s ≠ [] ∧ ¬ has_parent s).
Proof.
  assert (Href : accepts_exactly reference_name (λ s, valid_partial s ∧ upper_or_slash s)).
  { intros s. unfold reference_name.
    destruct (validate_complete s) as [(? & ? & ->)|[? [e ->]]]; cbn; naive_solver. }
  split; [|split; [|split; [done|split; [|apply submodule_name_exact]]]].
  - intros s. unfold tag_name. destruct (name_inner_validate s) as [[? ->]|[? [e ->]]]; cbn; eauto.
  - intros s. unfold name_partial. destruct (validate_partial s) as [[? ->]|[? [e ->]]]; cbn; eauto.
  - intros s. unfold branch_name.
    destruct (Href s) as [[? ->]|[? [e ->]]]; cbn [mbind outcome_bind]; [|right; naive_solver].
    unfold bytes_eqb. case_bool_decide; [right|left]; naive_solver.
Qed.
