(* ===== verification/PackedRefs.v ===== *)
(** * [gix-ref/src/store/packed]: the packed-refs file

    A buffer is the bytes of the file behind its header. Parsers return the rest of the input;
    errors are told apart only where the code does. References are found by a binary search
    over the bytes of the buffer, each of which stands for the record around it. *)

From stdpp Require Import sorting gmap.
From S2P Require Import Prelude Slices Hash Validate.

Inductive ref_error :=
| MalformedReference
| MalformedRecord
| InvalidHeader
| InvalidPackedReference (input : bytes) (line : Z)
| PeelFailed.

(** ** [parse.rs] *)
Definition is_hex_digit (b : Z) : bool :=
  ((48 <=? b) && (b <=? 57)) || ((97 <=? b) && (b <=? 102)) || ((65 <=? b) && (b <=? 70)).
Definition hex_hash (i : bytes) (object_hash : Kind) : outcome () (bytes * bytes) :=
  hex ← ok_or tt (get_range i 0 (len_in_hex object_hash));
  _ ← ensure (forallb is_hex_digit hex) tt;
  rest ← expect (get_from i (len_in_hex object_hash));
  Ok (hex, rest).
Definition newline (i : bytes) : outcome () bytes :=
  match strip_prefix i [13; 10] with
  | Some rest => Ok rest
  | None => ok_or tt (strip_prefix i [10])
  end.

(** ** [packed/decode/mod.rs] *)
Inductive Peeled := Unspecified | PartialPeel | Fully.
Record Header := { peeled : Peeled; sorted : bool }.
Record Reference := { ref_name : bytes; target : bytes; object : option bytes }.

Definition is_line_end (b : Z) : bool := (b =? 13) || (b =? 10).
Definition until_line_end_without_separator (input : bytes) : outcome () (bytes * bytes) :=
  line_end ← ok_or tt (position is_line_end input);
  out ← expect (get_range input 0 line_end);
  maybe_start_of_newline ← expect (get_from input line_end);
  rest ← newline maybe_start_of_newline;
  Ok (out, rest).

(** [split_str(b" ")] *)
Fixpoint split_spaces (l current : bytes) : list bytes :=
  match l with
  | [] => [current]
  | b :: l => if b =? 32 then current :: split_spaces l [] else split_spaces l (current ++ [b])
  end.
(** "# pack-refs with: " and the traits *)
Definition HEADER_PREFIX : bytes := [35; 32; 112; 97; 99; 107; 45; 114; 101; 102; 115; 32; 119; 105; 116; 104; 58; 32].
Definition FULLY_PEELED : bytes := [102; 117; 108; 108; 121; 45; 112; 101; 101; 108; 101; 100].
Definition PEELED : bytes := [112; 101; 101; 108; 101; 100].
Definition SORTED : bytes := [115; 111; 114; 116; 101; 100].
Definition header_token (h : Header) (token : bytes) : Header :=
  if bytes_eqb token FULLY_PEELED then {| peeled := Fully; sorted := sorted h |}
  else if bytes_eqb token PEELED then {| peeled := PartialPeel; sorted := sorted h |}
  else if bytes_eqb token SORTED then {| peeled := peeled h; sorted := true |}
  else h.
Definition header (input : bytes) : outcome () (Header * bytes) :=
  rest ← ok_or tt (strip_prefix input HEADER_PREFIX);
  '(traits, rest) ← until_line_end_without_separator rest;
  Ok (foldl header_token {| peeled := Unspecified; sorted := false |} (split_spaces traits []), rest).

Definition reference (input : bytes) (object_hash : Kind) : outcome ref_error (Reference * bytes) :=
  '(target, input) ← map_err (λ _, MalformedReference) (hex_hash input object_hash);
  input ← ok_or MalformedReference (strip_prefix input [32]);
  '(name, input) ← map_err (λ _, MalformedReference) (until_line_end_without_separator input);
  name ← map_err (λ _, MalformedReference) (reference_name name);
  match strip_prefix input [94] with
  | Some input =>
      '(object, input) ← map_err (λ _, MalformedReference) (hex_hash input object_hash);
      input ← map_err (λ _, MalformedReference) (newline input);
      Ok ({| ref_name := name; target := target; object := Some object |}, input)
  | None => Ok ({| ref_name := name; target := target; object := None |}, input)
  end.
(** An error is [None]. *)
Definition name_at_record_start (input : bytes) (object_hash : Kind) : outcome () bytes :=
  let hex_len := len_in_hex object_hash in
  _ ← ensure (bool_decide (get input hex_len = Some 32)) tt;
  after ← expect (get_from input (hex_len + 1));
  end_ ← ok_or tt (position is_line_end after);
  _ ← ensure (negb (end_ =? 0)) tt;
  at_end ← expect (get after end_);
  _ ← ensure (negb ((at_end =? 13) && negb (bool_decide (get after (end_ + 1) = Some 10)))) tt;
  expect (get_range after 0 end_).
Definition rfind_newline (l : bytes) : option Z := rposition (λ b, b =? 10) l.
Definition record_start_at_offset {E} (input : bytes) (offset : Z) : outcome E Z :=
  before ← expect (get_range input 0 offset);
  match rfind_newline before with
  | None => Ok 0
  | Some pos =>
      let candidate := pos + 1 in
      match get input candidate with
      | None => Ok 0
      | Some b =>
          if b =? 94 then
            line ← expect (get_range input 0 pos);
            Ok (match rfind_newline line with Some pos => pos + 1 | None => 0 end)
          else Ok candidate
      end
  end.
Definition record_at_offset {E} (input : bytes) (offset : Z) : outcome E bytes :=
  start ← record_start_at_offset input offset; expect (get_from input start).

(** ** [packed/find.rs] *)
Section Buffer.
Context (object_hash : Kind).

(** The bytes of the buffer, and whether a record was met that has not the shape of one. [inl] is the
    beginning of the record that matches, [inr] that of the one in front of which it could be inserted. *)
Definition compare_record (a full_name : bytes) (encountered_parse_failure : bool) (ofs : Z)
    : outcome ref_error (bool * comparison) :=
  line ← record_at_offset a ofs;
  match name_at_record_start line object_hash with
  | Ok name => Ok (encountered_parse_failure, bytes_cmp name full_name)
  | Err _ => Ok (true, bytes_cmp [] full_name)
  | Panic => Panic
  end.
Definition ref_binary_search_by (a full_name : bytes) : outcome ref_error (bool * (Z + Z)) :=
  '(encountered_parse_failure, r) ← binary_search_mut (seqZ 0 (zlen a)) (compare_record a full_name) false;
  match r with
  | inl pos => start ← record_start_at_offset a pos; Ok (encountered_parse_failure, inl start)
  | inr pos => start ← record_start_at_offset a pos; Ok (encountered_parse_failure, inr start)
  end.
Definition try_find_full_name (a name : bytes) : outcome ref_error (option Reference) :=
  '(parse_failure, r) ← ref_binary_search_by a name;
  match r with
  | inl line_start =>
      input ← expect (get_from a line_start);
      '(r, _) ← reference input object_hash;
      Ok (Some r)
  | inr _ => if parse_failure : bool then Err MalformedRecord else Ok None
  end.

(** ** [packed/iter.rs] *)
Record Iter := { cursor : bytes; prefix : option bytes; current_line : Z }.
Definition iter_new_with_prefix (packed : bytes) (prefix : option bytes) : outcome ref_error Iter :=
  match packed with
  | [] => Ok {| cursor := packed; prefix := prefix; current_line := 1 |}
  | b :: _ =>
      if b =? 35 then
        '(_, refs) ← map_err (λ _, InvalidHeader) (header packed);
        Ok {| cursor := refs; prefix := prefix; current_line := 2 |}
      else Ok {| cursor := packed; prefix := prefix; current_line := 1 |}
  end.
Definition iter_new (packed : bytes) : outcome ref_error Iter := iter_new_with_prefix packed None.
(** [starts_with_str] *)
Definition starts_with (l p : bytes) : bool := match strip_prefix l p with Some _ => true | None => false end.
(** The result is a reference or an error. *)
Definition iter_next (it : Iter) : outcome ref_error (Iter * option (outcome ref_error Reference)) :=
  match cursor it with
  | [] => Ok (it, None)
  | start =>
      match reference start object_hash with
      | Panic => Panic
      | Ok (r, rest) =>
          let line := current_line it + 1 + (if object r then 1 else 0) in
          let it := {| cursor := rest; prefix := prefix it; current_line := line |} in
          match prefix it with
          | Some p =>
              if negb (starts_with (ref_name r) p)
              then Ok ({| cursor := []; prefix := prefix it; current_line := line |}, None)
              else Ok (it, Some (Ok r))
          | None => Ok (it, Some (Ok r))
          end
      | Err _ =>
          '(failed_line, next_cursor) ←
            match position (λ b, b =? 10) start with
            | None => Ok (start, [])
            | Some pos => expect (split_at_checked start (pos + 1))
            end;
          Ok ({| cursor := next_cursor; prefix := prefix it; current_line := current_line it + 1 |},
              Some (Err (InvalidPackedReference (default failed_line (strip_suffix failed_line [10])) (current_line it))))
      end
  end.
(** All that the iterator yields; every step takes bytes. *)
Fixpoint iter_all (fuel : nat) (it : Iter) : outcome ref_error (list (outcome ref_error Reference)) :=
  match fuel with
  | O => Panic
  | S fuel =>
      '(it, r) ← iter_next it;
      match r with
      | None => Ok []
      | Some r => rest ← iter_all fuel it; Ok (r :: rest)
      end
  end.
Definition iterate (it : Iter) : outcome ref_error (list (outcome ref_error Reference)) :=
  iter_all (S (length (cursor it))) it.
(** [collect::<Result<Vec<_>>>()] *)
Fixpoint collect_results {E A} (l : list (outcome E A)) : outcome E (list A) :=
  match l with
  | [] => Ok []
  | r :: l => a ← r; rest ← collect_results l; Ok (a :: rest)
  end.

(** [Buffer::iter], [Buffer::iter_prefixed] *)
Definition buffer_iter (a : bytes) : outcome ref_error Iter := iter_new a.
Definition iter_prefixed (a p : bytes) : outcome ref_error Iter :=
  '(_, r) ← ref_binary_search_by a p;
  let first_record_with_prefix := match r with inl pos | inr pos => pos end in
  packed ← expect (get_from a first_record_with_prefix);
  iter_new_with_prefix packed (Some p).

(** ** [packed/buffer.rs] *)
Record Buffer := { data : bytes; offset : Z }.
Definition buffer_bytes (b : Buffer) : outcome ref_error bytes := expect (get_from (data b) (offset b)).
Definition serialize_entry (r : Reference) : bytes :=
  target r ++ [32] ++ ref_name r ++ [10]
  ++ match object r with Some object => [94] ++ object ++ [10] | None => [] end.
Definition open_with_backing (backing : bytes) : outcome ref_error Buffer :=
  '(offset, sorted) ←
    (if default 32 (head backing) =? 35 then
       '(h, input) ← map_err (λ _, InvalidHeader) (header backing);
       offset ← op_sub 64 (zlen backing) (zlen input);
       Ok (offset, sorted h)
     else Ok (0, false));
  if negb sorted then
    body ← expect (get_from backing offset);
    it ← iter_new body;
    results ← iterate it;
    entries ← collect_results results;
    let entries := sort_by (λ a b, bytes_cmp (ref_name a) (ref_name b)) entries in
    Ok {| data := concat (serialize_entry <$> entries); offset := 0 |}
  else Ok {| data := backing; offset := offset |}.
End Buffer.

(** ** Lemmas: the text of a reference *)
Definition hex_ok (k : Kind) (h : bytes) : Prop := zlen h = len_in_hex k ∧ Forall (λ b, is_hex_digit b = true) h.
Definition full_name (s : bytes) : Prop := reference_name s = Ok s.
Record ref_ok (k : Kind) (r : Reference) : Prop := {
  rf_target : hex_ok k (target r);
  rf_name : full_name (ref_name r);
  rf_object : ∀ o, object r = Some o → hex_ok k o;
}.
(** Lines end in LF or CRLF. *)
Definition cr (c : bytes) : Prop := c = [] ∨ c = [13].
Definition no_line_end (l : bytes) : Prop := Forall (λ b, is_line_end b = false) l.
Definition no_lf (l : bytes) : Prop := Forall (λ b, (b =? 10) = false) l.
Definition object_line (o : option bytes) (c : bytes) : bytes :=
  match o with Some o => [94] ++ o ++ c ++ [10] | None => [] end.
Definition ref_text (r : Reference) (t : bytes) : Prop :=
  ∃ c1 c2, cr c1 ∧ cr c2 ∧ t = (target r ++ [32] ++ ref_name r ++ c1) ++ [10] ++ object_line (object r) c2.

Lemma forallb_Forall_eq {A} (f : A → bool) l : forallb f l = true ↔ Forall (λ x, f x = true) l.
Proof. induction l as [|x l IH]; cbn; [done|]. by rewrite list.Forall_cons, andb_true_iff, IH. Qed.
Lemma hex_no_line_end k h : hex_ok k h → no_line_end h.
Proof. intros [_ H]. eapply Forall_impl; [|exact H]. intros b. unfold is_hex_digit, is_line_end. lia. Qed.
Lemma no_line_end_lf l : no_line_end l → no_lf l.
Proof. intros H. eapply Forall_impl; [|exact H]. intros b. unfold is_line_end. lia. Qed.
Lemma full_name_bytes s : full_name s → no_line_end s ∧ s ≠ [].
Proof.
  intros H. destruct names_validated as (_ & _ & Href & _). destruct (Href s) as [[[[Hv _] _] _]|[_ [e He]]];
    [|unfold full_name in H; congruence].
  split; [|by apply vn_nonempty]. eapply Forall_impl; [|apply (vn_bytes _ Hv)]. intros b [Hb _].
  unfold is_invalid_byte, is_line_end in *. destruct (Z.eqb_spec b 13), (Z.eqb_spec b 10); [lia|by subst b|by subst b|done].
Qed.

Lemma newline_spec i rest : newline i = Ok rest ↔ ∃ c, cr c ∧ i = c ++ [10] ++ rest.
Proof.
  unfold newline, cr. destruct (strip_prefix i [13; 10]) as [r|] eqn:E.
  - apply strip_prefix_Some in E as ->. split; [intros [= ->]; exists [13]; by auto|].
    intros (c & [-> | ->] & Hc); [done|]. cbn in Hc. by simplify_eq.
  - destruct (strip_prefix i [10]) as [r|] eqn:E'; cbn [ok_or].
    + apply strip_prefix_Some in E' as ->. split; [intros [= ->]; exists []; by auto|].
      intros (c & [-> | ->] & Hc); cbn in Hc; by simplify_eq.
    + split; [done|]. intros (c & [-> | ->] & ->); [by eapply strip_prefix_None in E'|by eapply strip_prefix_None in E].
Qed.
Lemma newline_safe i : newline i ≠ Panic.
Proof. unfold newline. destruct (strip_prefix _ _); [done|]. by destruct (strip_prefix _ _). Qed.
Lemma until_line_end_spec i out rest :
  until_line_end_without_separator i = Ok (out, rest) ↔ no_line_end out ∧ ∃ c, cr c ∧ i = out ++ c ++ [10] ++ rest.
Proof.
  unfold until_line_end_without_separator. split.
  - destruct (position is_line_end i) as [n|] eqn:E; [|done]. apply position_Some in E as (a & x & b & -> & <- & Hx & Ha).
    cbn [ok_or mbind outcome_bind]. rewrite (get_range_app [] a (x :: b)) by done. cbn [expect mbind outcome_bind].
    rewrite get_from_in by (rewrite zlen_app; pose proof (zlen_nonneg a); pose proof (zlen_nonneg (x :: b)); lia).
    cbn [expect mbind outcome_bind]. unfold zlen. rewrite Nat2Z.id, drop_app_length.
    destruct (newline (x :: b)) as [r| |] eqn:En; [|done|done]. intros [= <- <-]. split; [done|].
    apply newline_spec in En as (c & Hc & ->). by exists c.
  - intros (Ho & c & Hc & ->). assert (∃ x b, c ++ [10] ++ rest = x :: b ∧ is_line_end x = true) as (x & b & Hxb & Hx).
    { destruct Hc as [-> | ->]; by eexists _, _. }
    rewrite Hxb. rewrite position_app by done. cbn [ok_or mbind outcome_bind].
    rewrite (get_range_app [] out (x :: b)) by done. cbn [expect mbind outcome_bind].
    rewrite get_from_in by (rewrite zlen_app; pose proof (zlen_nonneg out); pose proof (zlen_nonneg (x :: b)); lia).
    cbn [expect mbind outcome_bind]. unfold zlen. rewrite Nat2Z.id, drop_app_length, <- Hxb.
    assert (newline (c ++ [10] ++ rest) = Ok rest) as -> by (apply newline_spec; by exists c). done.
Qed.
Lemma until_line_end_safe i : until_line_end_without_separator i ≠ Panic.
Proof.
  unfold until_line_end_without_separator. destruct (position is_line_end i) as [n|] eqn:E; [|done].
  apply position_bound in E. cbn [ok_or mbind outcome_bind]. rewrite get_range_in, get_from_in by lia.
  cbn [expect mbind outcome_bind]. pose proof (newline_safe (drop (Z.to_nat n) i)). by destruct (newline _).
Qed.
Lemma hex_hash_spec i k h rest : hex_hash i k = Ok (h, rest) ↔ hex_ok k h ∧ i = h ++ rest.
Proof.
  unfold hex_hash, hex_ok. assert (0 ≤ len_in_hex k) as Hk by (by destruct k). split.
  - destruct (get_range i 0 (len_in_hex k)) as [x|] eqn:E; [|done]. apply get_range_Some in E as (_ & Hl & Hx & ->).
    cbn [ok_or mbind outcome_bind]. destruct (forallb _ _) eqn:Ef; [|done]. apply forallb_Forall_eq in Ef.
    cbn [ensure mbind outcome_bind]. rewrite get_from_in by lia. intros [= <- <-]. change (Z.to_nat 0) with 0%nat in *. rewrite drop_0 in *.
    rewrite Z.sub_0_r in *. split; [done|]. by rewrite take_drop.
  - intros [[Hl Hh] ->]. rewrite (get_range_app [] h rest) by (done || lia). cbn [ok_or mbind outcome_bind].
    apply forallb_Forall_eq in Hh. rewrite Hh. cbn [ensure mbind outcome_bind]. rewrite <- Hl.
    rewrite get_from_in by (rewrite zlen_app; pose proof (zlen_nonneg h); pose proof (zlen_nonneg rest); lia).
    cbn [expect mbind outcome_bind]. unfold zlen. by rewrite Nat2Z.id, drop_app_length.
Qed.
Lemma hex_hash_returns i k : hex_hash i k ≠ Panic.
Proof.
  unfold hex_hash. assert (0 ≤ len_in_hex k) by (by destruct k). destruct (get_range i 0 (len_in_hex k)) as [x|] eqn:E; [|done].
  apply get_range_Some in E as (_ & Hl & _). cbn [ok_or mbind outcome_bind]. destruct (forallb _ _); [|done].
  cbn [ensure mbind outcome_bind]. by rewrite get_from_in by lia.
Qed.

(** What is parsed is the text of a reference, and in front of something else than an object line
    that of one without object. *)
Definition not_caret (rest : bytes) : Prop := head rest ≠ Some 94.
Lemma strip_caret rest : not_caret rest → strip_prefix rest [94] = None.
Proof. intros H. apply strip_prefix_None. intros r ->. by apply H. Qed.
Lemma reference_spec i k r rest :
  reference i k = Ok (r, rest) ↔
  ref_ok k r ∧ (object r = None → not_caret rest) ∧ ∃ t, ref_text r t ∧ i = t ++ rest.
Proof.
  unfold reference. split.
  - destruct (hex_hash i k) as [[h i1]| |] eqn:Eh; [|done|done]. apply hex_hash_spec in Eh as [Hh ->].
    cbn [map_err mbind outcome_bind]. destruct (strip_prefix i1 [32]) as [i2|] eqn:Es; [|done]. apply strip_prefix_Some in Es as ->.
    cbn [ok_or mbind outcome_bind]. destruct (until_line_end_without_separator i2) as [[n i3]| |] eqn:En; [|done|done].
    apply until_line_end_spec in En as (Hn & c & Hc & ->). cbn [map_err mbind outcome_bind].
    destruct (reference_name n) as [n'| |] eqn:Er; [|done|done]. cbn [map_err mbind outcome_bind].
    assert (n' = n ∧ full_name n) as [-> Hf].
    { destruct names_validated as (_ & _ & Href & _). destruct (Href n) as [[_ Hx]|[_ [e Hx]]]; [|congruence].
      unfold full_name. rewrite Hx in *. by simplify_eq. }
    destruct (strip_prefix i3 [94]) as [i4|] eqn:Ec.
    + apply strip_prefix_Some in Ec as ->. destruct (hex_hash i4 k) as [[o i5]| |] eqn:Eo; [|done|done].
      apply hex_hash_spec in Eo as [Ho ->]. cbn [map_err mbind outcome_bind].
      destruct (newline i5) as [i6| |] eqn:El; [|done|done]. apply newline_spec in El as (c' & Hc' & ->).
      intros [= <- <-]. split; [split; [done|done|by intros o' [= <-]]|]. split; [done|].
      eexists. split; [exists c, c'; done|]. cbn [object_line target ref_name object]. by rewrite <- !app_assoc.
    + intros [= <- <-]. split; [by split|]. split; [intros _ Hh'; destruct i3; [done|]; injection Hh' as ->; by eapply strip_prefix_None in Ec|].
      eexists. split; [exists c, []; split; [done|split; [by left|done]]|]. cbn [object_line target ref_name object].
      by rewrite app_nil_r, <- !app_assoc.
  - intros ([Ht Hn Ho] & Hc & t & (c1 & c2 & H1 & H2 & ->) & ->). rewrite <- !app_assoc.
    assert (∀ x, hex_hash (target r ++ x) k = Ok (target r, x)) as -> by (intros x; by apply hex_hash_spec).
    cbn [map_err mbind outcome_bind].
    assert (∀ x, strip_prefix ([32] ++ x) [32] = Some x) as -> by (intros x; by apply strip_prefix_Some). cbn [ok_or mbind outcome_bind].
    destruct (full_name_bytes _ Hn) as [Hnl _].
    assert (∀ x, until_line_end_without_separator (ref_name r ++ c1 ++ [10] ++ x) = Ok (ref_name r, x)) as ->.
    { intros x. apply until_line_end_spec. split; [done|]. by exists c1. }
    cbn [map_err mbind outcome_bind]. rewrite Hn. cbn [map_err mbind outcome_bind]. destruct r as [n g [o|]]; cbn [object object_line ref_name target] in *.
    + rewrite <- !app_assoc. assert (∀ x, strip_prefix ([94] ++ x) [94] = Some x) as -> by (intros x; by apply strip_prefix_Some).
      specialize (Ho o eq_refl). assert (∀ x, hex_hash (o ++ x) k = Ok (o, x)) as -> by (intros x; by apply hex_hash_spec).
      cbn [map_err mbind outcome_bind]. assert (∀ x, newline (c2 ++ [10] ++ x) = Ok x) as -> by (intros x; apply newline_spec; by exists c2).
      done.
    + cbn [app]. by rewrite strip_caret by auto.
Qed.
Lemma reference_safe i k : reference i k ≠ Panic.
Proof.
  unfold reference. pose proof (hex_hash_returns i k). destruct (hex_hash i k) as [[h i1]| |]; [|done|done]. cbn [map_err mbind outcome_bind].
  destruct (strip_prefix i1 [32]) as [i2|]; [|done]. cbn [ok_or mbind outcome_bind].
  pose proof (until_line_end_safe i2). destruct (until_line_end_without_separator i2) as [[n i3]| |]; [|done|done]. cbn [map_err mbind outcome_bind].
  destruct names_validated as (_ & _ & Href & _). destruct (Href n) as [[_ ->]|[_ [e ->]]]; [|done]. cbn [map_err mbind outcome_bind].
  destruct (strip_prefix i3 [94]) as [i4|]; [|done]. pose proof (hex_hash_returns i4 k). destruct (hex_hash i4 k) as [[o i5]| |]; [|done|done].
  cbn [map_err mbind outcome_bind]. pose proof (newline_safe i5). by destruct (newline i5).
Qed.

(** ** Lemmas: the record around a byte *)
Record shape (t : bytes) (first_line rest_line : bytes) : Prop := {
  sh_text : t = first_line ++ [10] ++ rest_line;
  sh_first : no_lf first_line;
  sh_head : ∃ b l, first_line = b :: l ∧ b ≠ 94;
  sh_rest : rest_line = [] ∨ ∃ o, rest_line = 94 :: o ++ [10] ∧ no_lf o;
}.
Lemma cr_no_lf c : cr c → no_lf c.
Proof. intros [-> | ->]; by repeat constructor. Qed.
Lemma ref_text_shape k r t : ref_ok k r → ref_text r t → ∃ a b, shape t a b.
Proof.
  intros [Ht Hn Ho] (c1 & c2 & H1 & H2 & ->). exists (target r ++ [32] ++ ref_name r ++ c1), (object_line (object r) c2). split; [done| | |].
  - unfold no_lf. rewrite !Forall_app. split; [by eapply no_line_end_lf, hex_no_line_end|]. split; [by repeat constructor|].
    split; [by apply no_line_end_lf, full_name_bytes|by apply cr_no_lf].
  - destruct Ht as [Hl Hh]. destruct (target r) as [|b l]; [by destruct k|]. exists b, (l ++ [32] ++ ref_name r ++ c1). split; [done|].
    intros ->. by apply list.Forall_cons in Hh as [? _].
  - destruct (object r) as [o|]; [right|by left]. exists (o ++ c2). cbn [object_line]. split; [by rewrite <- app_assoc|].
    unfold no_lf. rewrite Forall_app. split; [by eapply no_line_end_lf, hex_no_line_end, Ho|by apply cr_no_lf].
Qed.
(** Records begin where the buffer begins, or behind a line feed. *)
Definition at_line (pre : bytes) : Prop := pre = [] ∨ ∃ p, pre = p ++ [10].
Lemma no_lf_rfind pre l : at_line pre → no_lf l →
  rfind_newline (pre ++ l) = if decide (pre = []) then None else Some (zlen pre - 1).
Proof.
  intros [-> | [p ->]] Hl; unfold rfind_newline.
  - by rewrite rposition_None.
  - destruct (decide _) as [He|_]; [by destruct p|]. rewrite <- app_assoc. cbn [app]. rewrite rposition_app by done.
    rewrite zlen_app. do 2 f_equal. change (zlen [10]) with 1. lia.
Qed.
Lemma no_lf_take n l : no_lf l → no_lf (take n l).
Proof. apply Forall_take. Qed.
Lemma record_start_shape {E} pre t post first rest i :
  at_line pre → shape t first rest → 0 ≤ i < zlen t →
  record_start_at_offset (E := E) (pre ++ t ++ post) (zlen pre + i) = Ok (zlen pre).
Proof.
  intros Hpre [-> Hf (b0 & l0 & Hfirst & Hb0) Hr] Hi. unfold record_start_at_offset.
  set (t := first ++ [10] ++ rest) in *. pose proof (zlen_nonneg pre). pose proof (zlen_nonneg post). pose proof (zlen_nonneg first).
  assert (get_range (pre ++ t ++ post) 0 (zlen pre + i) = Some (pre ++ take (Z.to_nat i) t)) as ->.
  { rewrite <- (take_drop (Z.to_nat i) t) at 1. rewrite <- app_assoc, app_assoc. apply (get_range_app []); [done|].
    rewrite zlen_nil, zlen_app. unfold zlen in *. rewrite length_take. lia. }
  cbn [expect mbind outcome_bind]. destruct (Z.le_gt_cases i (zlen first)) as [Hle|Hgt].
  - assert (take (Z.to_nat i) t = take (Z.to_nat i) first) as ->.
    { unfold t. rewrite take_app_le; [done|]. unfold zlen in *. lia. }
    rewrite no_lf_rfind by (done || by apply no_lf_take). destruct (decide (pre = [])) as [->|Hne]; [done|].
    assert (get (pre ++ t ++ post) (zlen pre - 1 + 1) = Some b0) as ->.
    { replace (zlen pre - 1 + 1) with (zlen pre) by lia. unfold t. rewrite Hfirst. cbn [app]. apply get_app_mid. }
    destruct (Z.eqb_spec b0 94); [done|]. f_equal. lia.
  - assert (rest ≠ []) as Hne by (intros ->; unfold t, zlen in *; rewrite length_app in Hi; cbn [app length] in Hi; lia).
    destruct Hr as [->|(o & -> & Ho)]; [done|].
    assert (∃ q, take (Z.to_nat i) t = first ++ 10 :: q ∧ no_lf q) as (q & -> & Hq).
    { unfold t in *. rewrite take_app_ge by (unfold zlen in *; lia). exists (take (Z.to_nat i - length first - 1) (94 :: o)). split.
      - f_equal. assert (Z.to_nat i < length first + 1 + (1 + length o + 1))%nat.
        { unfold zlen in Hi. rewrite !length_app in Hi. cbn [length] in Hi. rewrite length_app in Hi. cbn [length] in Hi. lia. }
        destruct (Z.to_nat i - length first)%nat as [|n] eqn:En; [unfold zlen in *; lia|]. cbn [app take]. f_equal.
        rewrite app_comm_cons, take_app_le by (cbn [length]; unfold zlen in *; lia). f_equal. lia.
      - apply no_lf_take. by constructor. }
    unfold rfind_newline at 1. rewrite app_assoc, rposition_app by done. rewrite zlen_app.
    assert (get (pre ++ t ++ post) (zlen pre + zlen first + 1) = Some 94) as ->.
    { unfold t. rewrite <- !app_assoc, (app_assoc pre first), (app_assoc (pre ++ first) [10]). cbn [app].
      replace (zlen pre + zlen first + 1) with (zlen ((pre ++ first) ++ [10])) by (rewrite !zlen_app; done). apply get_app_mid. }
    cbn [Z.eqb Pos.eqb].
    rewrite <- zlen_app. unfold t. rewrite <- !app_assoc, (app_assoc pre first).
    rewrite <- (app_nil_l ((pre ++ first) ++ _)), (get_range_app [] (pre ++ first)) by done.
    cbn [expect mbind outcome_bind]. rewrite no_lf_rfind by done. destruct (decide (pre = [])) as [->|]; [done|]. f_equal. lia.
Qed.

(** ** Lemmas: a buffer of records *)
Definition record_of (k : Kind) (r : Reference) (t : bytes) : Prop := ref_ok k r ∧ ref_text r t.
Definition name_cmp (r s : Reference) : comparison := bytes_cmp (ref_name r) (ref_name s).

Lemma record_nonempty k r t : record_of k r t → ∃ b l, t = b :: l ∧ b ≠ 94.
Proof. intros [Hr Ht]. destruct (ref_text_shape _ _ _ Hr Ht) as (f & l & [-> _ (b & l' & -> & Hb) _]). by eexists _, _. Qed.
Lemma records_not_caret k rs ts : Forall2 (record_of k) rs ts → not_caret (concat ts).
Proof. destruct 1 as [|r t rs ts Hr _]; [done|]. destruct (record_nonempty _ _ _ Hr) as (b & l & -> & Hb). cbn. by intros [= ->]. Qed.
Lemma record_at_line k r t pre : record_of k r t → at_line (pre ++ t).
Proof.
  intros (_ & (c1 & c2 & _ & _ & ->)). right. destruct (object r) as [o|]; cbn [object_line].
  - exists (pre ++ (target r ++ [32] ++ ref_name r ++ c1) ++ [10] ++ [94] ++ o ++ c2). by rewrite <- !app_assoc.
  - exists (pre ++ (target r ++ [32] ++ ref_name r ++ c1)). by rewrite app_nil_r, <- !app_assoc.
Qed.
(** The record that a byte is in. *)
Fixpoint record_index (ts : list bytes) (i : Z) : nat :=
  match ts with
  | [] => 0
  | t :: ts => if i <? zlen t then 0 else S (record_index ts (i - zlen t))
  end.
Lemma record_index_mono ts : ∀ i j, i ≤ j → (record_index ts i ≤ record_index ts j)%nat.
Proof.
  induction ts as [|t ts IH]; intros i j Hij; cbn [record_index]; [done|].
  destruct (Z.ltb_spec i (zlen t)), (Z.ltb_spec j (zlen t)); [lia|lia|lia|]. specialize (IH (i - zlen t) (j - zlen t)). lia.
Qed.
Lemma record_index_onto k rs ts : Forall2 (record_of k) rs ts → ∀ n r, rs !! n = Some r →
  ∃ i, 0 ≤ i < zlen (concat ts) ∧ record_index ts i = n.
Proof.
  induction 1 as [|r t rs ts Hr Hrs IH]; intros n s Hn; [done|]. cbn [concat record_index]. rewrite zlen_app.
  destruct (record_nonempty _ _ _ Hr) as (b & l & -> & _). pose proof (zlen_nonneg l). pose proof (zlen_nonneg (concat ts)). rewrite zlen_cons.
  destruct n as [|n].
  - exists 0. split; [lia|]. by destruct (Z.ltb_spec 0 (1 + zlen l)); [|lia].
  - destruct (IH n s Hn) as (i & Hi & Hx). exists (i + (1 + zlen l)). split; [lia|].
    destruct (Z.ltb_spec (i + (1 + zlen l)) (1 + zlen l)); [lia|]. rewrite Z.add_simpl_r. by f_equal.
Qed.
Lemma record_index_spec ts : ∀ i, 0 ≤ i < zlen (concat ts) →
  ∃ t, ts !! record_index ts i = Some t ∧ 0 ≤ i - zlen (concat (take (record_index ts i) ts)) < zlen t.
Proof.
  induction ts as [|t ts IH]; intros i Hi; [unfold zlen in Hi; cbn in Hi; lia|]. cbn [concat record_index] in *. rewrite zlen_app in Hi.
  destruct (Z.ltb_spec i (zlen t)) as [Hlt|Hge]; [exists t; split; [done|]; change (zlen (concat (take 0 (t :: ts)))) with 0; lia|].
  destruct (IH (i - zlen t)) as (t' & Ht & Hb); [lia|]. exists t'. split; [done|]. cbn [take concat]. rewrite zlen_app. lia.
Qed.
Lemma concat_around ts n (t : bytes) : ts !! n = Some t → concat ts = concat (take n ts) ++ t ++ concat (drop (S n) ts).
Proof. intros Ht. rewrite <- (take_drop_middle _ _ _ Ht) at 1. by rewrite concat_app. Qed.
Lemma records_at_line k rs ts : Forall2 (record_of k) rs ts → at_line (concat ts).
Proof.
  intros H. destruct ts as [|t ts _] using rev_ind; [by left|]. rewrite concat_app. cbn [concat]. rewrite app_nil_r.
  apply Forall2_app_inv_r in H as (rs1 & rs2 & _ & H & _). apply Forall2_cons_inv_r in H as (r & ? & Hr & _). by eapply record_at_line.
Qed.

(** ** Lemmas: finding *)
Lemma name_at_record k r t rest : record_of k r t → name_at_record_start (t ++ rest) k = Ok (ref_name r).
Proof.
  intros [[[Hl Hh] Hn _] (c1 & c2 & H1 & _ & ->)]. unfold name_at_record_start. rewrite <- !app_assoc, <- Hl. cbn [app].
  rewrite get_app_mid, bool_decide_true by done. cbn [ensure mbind outcome_bind].
  replace (target r ++ 32 :: ref_name r ++ c1 ++ 10 :: object_line (object r) c2 ++ rest)
    with ((target r ++ [32]) ++ ref_name r ++ c1 ++ 10 :: object_line (object r) c2 ++ rest) by by rewrite <- app_assoc.
  replace (zlen (target r) + 1) with (zlen (target r ++ [32])) by by rewrite zlen_app. rewrite get_from_app. cbn [expect mbind outcome_bind].
  destruct (full_name_bytes _ Hn) as [Hnl Hne]. set (tail := object_line _ _ ++ rest).
  assert (∃ x b, c1 ++ 10 :: tail = x :: b ∧ is_line_end x = true ∧ (x = 13 → ∃ b', b = 10 :: b')) as (x & b & -> & Hx & Hcr).
  { destruct H1 as [-> | ->]; eexists _, _; (split; [done|]); (split; [done|]); [done|]. intros _. by eexists. }
  rewrite position_app by done. cbn [ok_or mbind outcome_bind].
  destruct (Z.eqb_spec (zlen (ref_name r)) 0) as [Hz|_]; [by destruct (ref_name r)|].
  cbn [negb ensure mbind outcome_bind]. rewrite get_app_mid. cbn [expect mbind outcome_bind].
  assert ((x =? 13) && negb (bool_decide (get (ref_name r ++ x :: b) (zlen (ref_name r) + 1) = Some 10)) = false) as ->.
  { destruct (Z.eqb_spec x 13) as [->|]; [|done]. destruct Hcr as [b' ->]; [done|]. rewrite (app_assoc _ [13] (10 :: b') : ref_name r ++ 13 :: 10 :: b' = _).
    replace (zlen (ref_name r) + 1) with (zlen (ref_name r ++ [13])) by by rewrite zlen_app. by rewrite get_app_mid, bool_decide_true. }
  cbn [negb ensure mbind outcome_bind]. rewrite <- (app_nil_l (_ ++ x :: b)), (get_range_app [] (ref_name r)) by done. done.
Qed.

Lemma record_at_spec k rs ts i : Forall2 (record_of k) rs ts → 0 ≤ i < zlen (concat ts) →
  let n := record_index ts i in
  ∃ r t, rs !! n = Some r ∧ ts !! n = Some t ∧ record_of k r t ∧ zlen (concat (take n ts)) ≤ i ∧
    ∀ E, record_start_at_offset (E := E) (concat ts) i = Ok (zlen (concat (take n ts))).
Proof.
  intros Hrs Hi n. destruct (record_index_spec _ _ Hi) as (t & Ht & Hb). fold n in Ht, Hb.
  destruct (Forall2_lookup_r _ _ _ _ _ Hrs Ht) as (r & Hr & Hrt). exists r, t. repeat (split; [done|]). split; [lia|]. intros E.
  destruct Hrt as [Hok Htx]. destruct (ref_text_shape _ _ _ Hok Htx) as (f & l & Hs).
  rewrite (concat_around _ _ _ Ht). set (a := concat (take n ts)) in *. replace i with (zlen a + (i - zlen a)) by lia.
  eapply record_start_shape; [|done|lia]. by eapply records_at_line, Forall2_take.
Qed.
Lemma compare_record_spec k rs ts i r name f : Forall2 (record_of k) rs ts → 0 ≤ i < zlen (concat ts) → rs !! record_index ts i = Some r →
  compare_record k (concat ts) name f i = Ok (f, bytes_cmp (ref_name r) name).
Proof.
  intros Hrs Hi Hr. destruct (record_at_spec _ _ _ _ Hrs Hi) as (r' & t & Hr' & Ht & Hrt & _ & Hs). simplify_eq.
  unfold compare_record, record_at_offset. rewrite Hs. cbn [mbind outcome_bind]. rewrite (concat_around _ _ _ Ht), get_from_app. cbn [expect mbind outcome_bind].
  by rewrite (name_at_record k r).
Qed.
Definition names_sorted (rs : list Reference) : Prop := StronglySorted (ord_le name_cmp) rs.
Lemma names_cut rs name n m r s : names_sorted rs → (n ≤ m)%nat → rs !! n = Some r → rs !! m = Some s →
  (bytes_cmp (ref_name r) name = Gt → bytes_cmp (ref_name s) name = Gt) ∧
  (bytes_cmp (ref_name s) name = Lt → bytes_cmp (ref_name r) name = Lt).
Proof.
  intros Hs Hnm Hr Hm. assert (ord_le bytes_cmp (ref_name r) (ref_name s)) as Hle.
  { destruct (decide (n = m)) as [->|Hne]; [simplify_eq; apply ord_le_refl; apply _|].
    apply (sorted_lookup_lt _ _ n m _ _ Hs Hr Hm). lia. }
  split; intros H; [destruct (bytes_cmp (ref_name s) name) eqn:E|destruct (bytes_cmp (ref_name r) name) eqn:E]; try done; exfalso.
  1,2: assert (ord_le bytes_cmp (ref_name r) name) as Hx by (transitivity (ref_name s); [done|unfold ord_le; by rewrite E]); by apply Hx.
  all: assert (ord_le bytes_cmp name (ref_name s)) as Hx by
    (transitivity (ref_name r); [unfold ord_le; by rewrite (ord_antisym (ref_name r) name), E|done]).
  all: apply Hx; by rewrite (ord_antisym (ref_name s) name), H.
Qed.
Lemma search_cuts rs ts name c n : names_sorted rs →
  (∀ i r, rs !! record_index ts i = Some r → c i = bytes_cmp (ref_name r) name) →
  (∀ i, i ∈ seqZ 0 n → ∃ r, rs !! record_index ts i = Some r) → cuts (seqZ 0 n) c.
Proof.
  intros Hs Hc Hin i j x y Hij Hx Hy.
  destruct (Hin x) as [r Hr]; [by eapply list_elem_of_lookup_2|]. destruct (Hin y) as [s Hr']; [by eapply list_elem_of_lookup_2|].
  rewrite (Hc x r Hr), (Hc y s Hr'). apply lookup_seqZ in Hx as [-> _], Hy as [-> _].
  apply (names_cut rs name (record_index ts (0 + Z.of_nat i)) (record_index ts (0 + Z.of_nat j))); [done| |done|done].
  apply record_index_mono. lia.
Qed.
Lemma record_start_end {E} k rs ts : Forall2 (record_of k) rs ts → record_start_at_offset (E := E) (concat ts) (zlen (concat ts)) = Ok 0.
Proof.
  intros Hrs. pose proof (records_at_line _ _ _ Hrs) as Ha. set (a := concat ts) in *. unfold record_start_at_offset.
  pose proof (zlen_nonneg a). rewrite get_range_in by lia. cbn [expect mbind outcome_bind].
  rewrite drop_0, take_ge by (unfold zlen; lia). rewrite <- (app_nil_r a) at 1. rewrite no_lf_rfind by (done || constructor).
  destruct (decide _); [done|]. by rewrite get_None by lia.
Qed.
(** What the search ends with in a buffer of records: one that is equal, or the first one that is greater, or
    the beginning of the buffer when none is. *)
Lemma search_records k rs ts name : Forall2 (record_of k) rs ts → names_sorted rs →
  (∃ n r, rs !! n = Some r ∧ ref_name r = name ∧
     ref_binary_search_by k (concat ts) name = Ok (false, inl (zlen (concat (take n ts))))) ∨
  (∃ n, (n ≤ length rs)%nat ∧ (∀ m r, rs !! m = Some r → bytes_cmp (ref_name r) name = if decide (m < n)%nat then Lt else Gt) ∧
     ref_binary_search_by k (concat ts) name = Ok (false, inr (if decide (n = length rs) then 0 else zlen (concat (take n ts))))).
Proof.
  intros Hrs Hsort. set (a := concat ts). pose (c i := match rs !! record_index ts i with Some r => bytes_cmp (ref_name r) name | None => Eq end).
  assert (∀ i, i ∈ seqZ 0 (zlen a) → 0 ≤ i < zlen a ∧ ∃ r, rs !! record_index ts i = Some r) as Hin.
  { intros i Hi%elem_of_seqZ. split; [lia|]. destruct (record_at_spec k rs ts i Hrs) as (r & ? & Hr & _); [unfold a in *; lia|]. by exists r. }
  assert (∀ f i, i ∈ seqZ 0 (zlen a) → compare_record k a name f i = Ok (f, c i)) as Hcmp.
  { intros f i Hi. destruct (Hin i Hi) as [Hi' [r Hr]]. unfold c. rewrite Hr. by eapply compare_record_spec. }
  assert (∀ i, 0 ≤ i < zlen a → get (seqZ 0 (zlen a)) i = Some i) as Hget.
  { intros i Hi. assert (zlen (seqZ 0 (zlen a)) = zlen a) as Hl by (unfold zlen at 1; rewrite length_seqZ; lia).
    destruct (get_in (seqZ 0 (zlen a)) i) as (x & Hx & Hxi); [lia|]. apply lookup_seqZ in Hxi as [-> _]. rewrite Hx. f_equal. lia. }
  unfold ref_binary_search_by. destruct (binary_search_mut_result (seqZ 0 (zlen a)) c (compare_record k a name) (λ s _, s) false) as (st & r & Heq & Hres);
    [intros s i Hi; by apply Hcmp|]. rewrite Heq. cbn [mbind outcome_bind].
  assert (st = false) as ->.
  { eapply (binary_search_mut_state (seqZ 0 (zlen a)) _ (λ s, s = false)); [|done|exact Heq].
    intros s x s' o Hx He ->. rewrite Hcmp in He by done. by simplify_eq. }
  destruct r as [i|i]; cbn [search_result] in Hres.
  - destruct Hres as (x & Hx & Hc). apply get_Some in Hx as [Hx Hxi]. assert (x ∈ seqZ 0 (zlen a)) as [Hxin [r Hr]]%Hin by (by eapply list_elem_of_lookup_2).
    apply lookup_seqZ in Hxi as [-> Hlt]. rewrite Z2Nat.id, Z.add_0_l in * by lia.
    destruct (record_at_spec k rs ts i Hrs) as (r' & t & Hr' & Ht & Hrt & _ & Hs); [done|]. simplify_eq.
    left. exists (record_index ts i), r. unfold c in Hc. rewrite Hr in Hc. apply bytes_cmp_eq in Hc. fold a in Hs. by rewrite Hs.
  - destruct Hres as [Hi Hc]. right.
    assert (zlen (seqZ 0 (zlen a)) = zlen a) as Hl by (unfold zlen at 1; rewrite length_seqZ; pose proof (zlen_nonneg a); lia). rewrite Hl in Hi.
    assert (∀ j r, 0 ≤ j < zlen a → rs !! record_index ts j = Some r → bytes_cmp (ref_name r) name = if j <? i then Lt else Gt) as Hj.
    { intros j r Hj Hr. assert (cuts (seqZ 0 (zlen a)) c) as Hcut.
      { apply (search_cuts rs ts name); [done|intros x r' Hx; unfold c; by rewrite Hx|]. intros x Hx. by apply Hin. }
      rewrite <- (Hc Hcut j j (Hget j Hj)). unfold c. by rewrite Hr. }
    exists (if decide (i = zlen a) then length rs else record_index ts i). destruct (decide (i = zlen a)) as [->|Hne].
    + split; [done|]. split; [|unfold a; by rewrite decide_True, (record_start_end k rs)].
      intros m r Hm. destruct (record_index_onto k rs ts Hrs m r Hm) as (j & Hj' & <-). rewrite (Hj j r) by done.
      apply lookup_lt_Some in Hm as Hlt. rewrite decide_True by done. unfold a. destruct (Z.ltb_spec j (zlen (concat ts))); [done|lia].
    + destruct (record_at_spec k rs ts i Hrs) as (r & t & Hr & _ & _ & _ & Hs); [unfold a in *; lia|]. apply lookup_lt_Some in Hr as Hlt.
      split; [lia|]. fold a in Hs. rewrite Hs, decide_False by lia. split; [|done]. intros m s Hm.
      destruct (decide (m = record_index ts i)) as [->|Hmn]; [rewrite (Hj i s), decide_False by (done || lia); by rewrite Z.ltb_irrefl|].
      destruct (record_index_onto k rs ts Hrs m s Hm) as (j & Hj' & <-). rewrite (Hj j s) by done.
      destruct (Z.ltb_spec j i), (decide (record_index ts j < record_index ts i)%nat) as [|Hge]; try done; exfalso.
      * pose proof (record_index_mono ts j i). lia.
      * pose proof (record_index_mono ts i j). lia.
Qed.

(** ** Lemmas: iterating *)
Lemma iter_next_record k r t rest n : record_of k r t → not_caret rest →
  ∃ n', iter_next k {| cursor := t ++ rest; prefix := None; current_line := n |} = Ok ({| cursor := rest; prefix := None; current_line := n' |}, Some (Ok r)).
Proof.
  intros [Hr Ht] Hc. assert (reference (t ++ rest) k = Ok (r, rest)) as Hp by (apply reference_spec; split; [done|]; split; [done|]; by exists t).
  destruct (record_nonempty k r t) as (b & l & -> & _); [done|]. eexists. unfold iter_next. cbn [cursor app current_line prefix].
  change (b :: l ++ rest) with ((b :: l) ++ rest). rewrite Hp. done.
Qed.
Lemma iter_all_records k rs ts : Forall2 (record_of k) rs ts → ∀ n fuel, (length (concat ts) < fuel)%nat →
  iter_all k fuel {| cursor := concat ts; prefix := None; current_line := n |} = Ok (Ok <$> rs).
Proof.
  induction 1 as [|r t rs ts Hr Hrs IH]; intros n [|fuel] Hf; cbn [concat length] in Hf; try lia; [done|]. cbn [concat iter_all].
  destruct (iter_next_record k r t (concat ts) n) as [n' ->]; [done|by eapply records_not_caret|]. cbn [mbind outcome_bind].
  rewrite IH; [done|]. destruct (record_nonempty k r t) as (b & l & -> & _); [done|]. rewrite length_app in Hf. cbn [length] in Hf. lia.
Qed.
Lemma iterate_records k rs ts n : Forall2 (record_of k) rs ts →
  iterate k {| cursor := concat ts; prefix := None; current_line := n |} = Ok (Ok <$> rs).
Proof. intros H. unfold iterate. cbn [cursor]. eapply iter_all_records; [done|lia]. Qed.
(** The only buffers that are iterated without error are those of records. *)
Lemma iter_all_inv k fuel : ∀ a n rs, iter_all k fuel {| cursor := a; prefix := None; current_line := n |} = Ok (Ok <$> rs) →
  ∃ ts, Forall2 (record_of k) rs ts ∧ a = concat ts.
Proof.
  induction fuel as [|fuel IH]; intros a n rs; cbn [iter_all]; [done|]. unfold iter_next. cbn [cursor prefix current_line].
  destruct a as [|b a]; [intros [= H]; destruct rs; [by exists []|done]|].
  destruct (reference (b :: a) k) as [[r rest]|e|] eqn:Hp; [| |done]; cbn [mbind outcome_bind].
  - set (n' := n + 1 + _). destruct (iter_all _ _ _) as [l| |] eqn:Hl; [|done|done]. cbn [mbind outcome_bind]. intros [= H].
    destruct rs as [|r' rs]; [done|]. cbn in H. simplify_eq. destruct (IH _ _ _ Hl) as (ts & Hts & ->).
    apply reference_spec in Hp as (Hr & _ & t & Ht & ->). exists (t :: ts). by split; [constructor|].
  - set (sp := match position _ _ with Some _ => _ | None => _ end). destruct sp as [[fl nc]| |]; [|done|done]. cbn [mbind outcome_bind].
    destruct (iter_all _ _ _) as [l| |]; [|done|done]. cbn [mbind outcome_bind]. intros [= H]. by destruct rs.
Qed.
Lemma iterate_inv k a n rs : iterate k {| cursor := a; prefix := None; current_line := n |} = Ok (Ok <$> rs) →
  ∃ ts, Forall2 (record_of k) rs ts ∧ a = concat ts.
Proof. apply iter_all_inv. Qed.

Lemma iterated_records k a rs : (it ← buffer_iter a; iterate k it) = Ok (Ok <$> rs) → head a ≠ Some 35 →
  ∃ ts, Forall2 (record_of k) rs ts ∧ a = concat ts.
Proof.
  intros Hit Hhead. assert (∃ n, buffer_iter a = Ok {| cursor := a; prefix := None; current_line := n |}) as [n Hn].
  { unfold buffer_iter, iter_new, iter_new_with_prefix. destruct a as [|b a]; [by exists 1|]. destruct (Z.eqb_spec b 35) as [->|]; [done|by exists 1]. }
  rewrite Hn in Hit. cbn [mbind outcome_bind] in Hit. by eapply iterate_inv.
Qed.


(** Iterating over a buffer yields references in the order of their names: then looking a name up finds one that is
    iterated over and has it, or there is none. *)
Lemma find_records k a rs name :
  (it ← buffer_iter a; iterate k it) = Ok (Ok <$> rs) → head a ≠ Some 35 → names_sorted rs →
  ∃ found, try_find_full_name k a name = Ok found ∧
    match found with Some r => r ∈ rs ∧ ref_name r = name | None => ∀ r, r ∈ rs → ref_name r ≠ name end.
Proof.
  intros Hit Hhead Hs. destruct (iterated_records _ _ _ Hit Hhead) as (ts & Hts & ->).
  unfold try_find_full_name. destruct (search_records k rs ts name Hts Hs) as [(m & r & Hr & Hname & ->)|(m & Hm & Hcmp & ->)]; cbn [mbind outcome_bind].
  - destruct (Forall2_lookup_l _ _ _ _ _ Hts Hr) as (t & Ht & Hrt). rewrite (concat_around _ _ _ Ht), get_from_app. cbn [expect mbind outcome_bind].
    assert (∀ rest, not_caret rest → reference (t ++ rest) k = Ok (r, rest)) as ->.
    { intros rest Hc. destruct Hrt. apply reference_spec. split; [done|]; split; [done|]; by exists t. }
    + cbn [mbind outcome_bind]. exists (Some r). split; [done|]. split; [by eapply list_elem_of_lookup_2|done].
    + by eapply records_not_caret, Forall2_drop.
  - exists None. split; [done|]. intros r Hin <-. apply list_elem_of_lookup_1 in Hin as [j Hj]. specialize (Hcmp j r Hj).
    assert (bytes_cmp (ref_name r) (ref_name r) = Eq) as Heq by (by apply bytes_cmp_eq). rewrite Heq in Hcmp. by destruct (decide _).
Qed.

(** ** Lemmas: opening a file *)
Lemma collect_results_ok {E A} (l : list (outcome E A)) xs : collect_results l = Ok xs ↔ l = Ok <$> xs.
Proof.
  revert xs. induction l as [|r l IH]; intros xs; cbn [collect_results]; [split; [by intros [= <-]|by destruct xs]|].
  destruct r as [a|e|]; cbn [mbind outcome_bind]; [|by split; [|destruct xs]..].
  destruct (collect_results l) as [ys| |]; cbn [mbind outcome_bind].
  - split; [intros [= <-]; cbn; f_equal; by apply IH|]. destruct xs as [|x xs]; [done|]. cbn. intros [= -> H]. apply IH in H. by simplify_eq.
  - split; [done|]. destruct xs as [|x xs]; [done|]. cbn. intros [= -> H]. by apply IH in H.
  - split; [done|]. destruct xs as [|x xs]; [done|]. cbn. intros [= -> H]. by apply IH in H.
Qed.
Lemma serialize_entry_text k r : ref_ok k r → record_of k r (serialize_entry r).
Proof.
  intros Hr. split; [done|]. exists [], []. split; [by left|]. split; [by left|]. unfold serialize_entry, object_line.
  rewrite app_nil_r, <- !app_assoc. by destruct (object r).
Qed.
Lemma serialize_records k rs : Forall (ref_ok k) rs → Forall2 (record_of k) rs (serialize_entry <$> rs).
Proof. induction 1 as [|r rs Hr _ IH]; constructor; [by apply serialize_entry_text|done]. Qed.
Lemma records_ok k rs ts : Forall2 (record_of k) rs ts → Forall (ref_ok k) rs.
Proof. induction 1 as [|r t rs ts [Hr _] _ IH]; by constructor. Qed.
Lemma iter_new_records k rs ts : Forall2 (record_of k) rs ts → ∀ p,
  iter_new_with_prefix (concat ts) p = Ok {| cursor := concat ts; prefix := p; current_line := 1 |} ∧ head (concat ts) ≠ Some 35.
Proof.
  intros H p. destruct H as [|r t rs ts [Hr Ht] _]; [done|]. destruct Ht as (c1 & c2 & _ & _ & ->). destruct Hr as [[Hl Hh] _ _].
  cbn [concat]. rewrite <- !app_assoc. destruct (target r) as [|b l]; [by destruct k|]. apply list.Forall_cons in Hh as [Hb _].
  cbn [app iter_new_with_prefix head]. destruct (Z.eqb_spec b 35) as [->|]; [done|]. split; [done|]. by intros [= ->].
Qed.
(** The header of a file is a prefix of it. *)
Lemma header_suffix file h rest : header file = Ok (h, rest) → ∃ pre, file = pre ++ rest.
Proof.
  unfold header. destruct (strip_prefix file HEADER_PREFIX) as [i|] eqn:E; [|done]. apply strip_prefix_Some in E as ->. cbn [ok_or mbind outcome_bind].
  destruct (until_line_end_without_separator i) as [[t r]| |] eqn:E; [|done|done]. apply until_line_end_spec in E as (_ & c & _ & ->).
  intros [= _ <-]. exists (HEADER_PREFIX ++ t ++ c ++ [10]). by rewrite <- !app_assoc.
Qed.
Lemma header_safe file : header file ≠ Panic.
Proof.
  unfold header. destruct (strip_prefix _ _) as [i|]; [|done]. cbn [ok_or mbind outcome_bind]. pose proof (until_line_end_safe i).
  by destruct (until_line_end_without_separator i) as [[t r]| |].
Qed.
Definition declared_sorted (file : bytes) : Prop := ∃ h rest, header file = Ok (h, rest) ∧ sorted h = true.
(** The bytes behind the header, and whether it declares the references to be sorted. *)
Definition body_of (file : bytes) (body : bytes) (is_sorted : bool) : Prop :=
  if decide (head file = Some 35) then ∃ h, header file = Ok (h, body) ∧ is_sorted = sorted h else body = file ∧ is_sorted = false.
Lemma open_body k file body s : body_of file body s → zlen file < 2 ^ 64 →
  open_with_backing k file =
    if s then Ok {| data := file; offset := zlen file - zlen body |}
    else it ← iter_new body; results ← iterate k it; entries ← collect_results results;
         Ok {| data := concat (serialize_entry <$> sort_by name_cmp entries); offset := 0 |}.
Proof.
  unfold body_of, open_with_backing. intros Hb Hlen. destruct (decide _) as [Hh|Hh].
  - destruct Hb as (h & Hh' & ->). destruct (header_suffix _ _ _ Hh') as [pre Hpre]. pose proof (zlen_nonneg pre). pose proof (zlen_nonneg body).
    rewrite Hh. change (default 32 (Some 35) =? 35) with true. rewrite Hh'. cbn [map_err mbind outcome_bind].
    assert (zlen file = zlen pre + zlen body) as Hz by (by rewrite Hpre, zlen_app).
    unfold op_sub. rewrite checked_sub_in by lia. cbn [expect mbind outcome_bind]. destruct (sorted h); cbn [negb]; [done|].
    rewrite Hz, Z.add_simpl_r, Hpre, get_from_app. done.
  - destruct Hb as [-> ->]. destruct (default 32 (head file) =? 35) eqn:E.
    { destruct file as [|b file]; [done|]. cbn in E. apply Z.eqb_eq in E as ->. done. }
    cbn [mbind outcome_bind negb]. rewrite get_from_in by (pose proof (zlen_nonneg file); lia). by rewrite drop_0.
Qed.
Lemma body_suffix file body s : body_of file body s → ∃ pre, file = pre ++ body.
Proof.
  unfold body_of. destruct (decide _); [intros (h & H & _); by eapply header_suffix|]. intros [-> _]. by exists [].
Qed.
Lemma file_records k file rs : (it ← iter_new file; iterate k it) = Ok (Ok <$> rs) →
  ∃ body s ts, body_of file body s ∧ Forall2 (record_of k) rs ts ∧ body = concat ts.
Proof.
  unfold iter_new, iter_new_with_prefix, body_of. destruct file as [|b file].
  - intros H. cbn [mbind outcome_bind] in H. apply iterate_inv in H as (ts & Hts & Heq). exists [], false, ts. by rewrite decide_False.
  - cbn [head]. destruct (Z.eqb_spec b 35) as [->|Hb].
    + destruct (header (35 :: file)) as [[h body]| |] eqn:Hh; [|done|done]. cbn [map_err mbind outcome_bind].
      intros (ts & Hts & ->)%iterate_inv. exists (concat ts), (sorted h), ts. rewrite decide_True by done. split; [by exists h|done].
    + cbn [mbind outcome_bind]. intros (ts & Hts & Heq)%iterate_inv. exists (b :: file), false, ts. rewrite decide_False by congruence. done.
Qed.
Lemma buffer_bytes_behind pre body : buffer_bytes {| data := pre ++ body; offset := zlen (pre ++ body) - zlen body |} = Ok body.
Proof. unfold buffer_bytes. cbn [data offset]. rewrite zlen_app, Z.add_simpl_r. by rewrite get_from_app. Qed.

(** ** Lemmas: all references with a prefix *)
Lemma starts_with_spec l p : starts_with l p = true ↔ ∃ r, l = p ++ r.
Proof.
  unfold starts_with. destruct (strip_prefix l p) as [r|] eqn:E.
  - apply strip_prefix_Some in E as ->. split; [by exists r|done].
  - split; [done|]. intros [r ->]. by eapply strip_prefix_None in E.
Qed.
Lemma bytes_cmp_common p a b : bytes_cmp (p ++ a) (p ++ b) = bytes_cmp a b.
Proof. by rewrite bytes_cmp_app, bytes_cmp_refl. Qed.
(** Names that begin with [p] follow each other, behind those that are less than [p]. *)
Lemma starts_with_ge x p : starts_with x p = true → bytes_cmp x p ≠ Lt.
Proof. intros [r ->]%starts_with_spec. rewrite <- (app_nil_r p) at 2. rewrite bytes_cmp_common. by destruct r. Qed.
Lemma starts_with_between p x y : bytes_cmp x p ≠ Lt → bytes_cmp x y ≠ Gt → starts_with y p = true → starts_with x p = true.
Proof.
  intros Hp Hxy [r ->]%starts_with_spec. apply starts_with_spec. revert x Hp Hxy.
  induction p as [|b p IH]; intros x Hp Hxy; [by exists x|]. destruct x as [|c x]; [done|]. cbn [app bytes_cmp] in *.
  destruct (Z.compare_spec c b) as [->|Hlt|Hgt]; [|done|done]. destruct (IH x) as [s ->]; [done|done|]. by exists s.
Qed.
Definition prefix_together (p : bytes) : list Reference → Prop :=
  StronglySorted (λ r s, starts_with (ref_name r) p = false → starts_with (ref_name s) p = false).
Lemma prefix_together_ge p rs : names_sorted rs → (∀ r, r ∈ rs → bytes_cmp (ref_name r) p ≠ Lt) → prefix_together p rs.
Proof.
  induction 1 as [|r rs _ IH Hr]; intros Hp; constructor; [apply IH; intros s Hs; apply Hp; by right|]. eapply Forall_impl; [|exact Hr].
  intros s Hrs Hf. apply not_true_is_false. intros Ht. rewrite (starts_with_between p (ref_name r) (ref_name s)) in Hf; [done| |done|done].
  apply Hp. by left.
Qed.
Lemma prefix_together_lt p rs : (∀ r, r ∈ rs → bytes_cmp (ref_name r) p = Lt) → prefix_together p rs.
Proof.
  induction rs as [|r rs IH]; intros Hp; constructor; [apply IH; intros s Hs; apply Hp; by right|]. rewrite list.Forall_forall.
  intros s Hs _. apply not_true_is_false. intros Ht%starts_with_ge. apply Ht, Hp. by right.
Qed.
Lemma filter_nothing {A} (P : A → Prop) `{∀ x, Decision (P x)} l : (∀ x, x ∈ l → ¬ P x) → filter P l = [].
Proof.
  induction l as [|x l IH]; intros Hn; [done|]. rewrite filter_cons_False by (apply Hn; by left). apply IH. intros y Hy. apply Hn. by right.
Qed.
(** Iterating with a prefix goes on until a name does not have it. *)
Lemma iter_prefix_records k p rs ts : Forall2 (record_of k) rs ts → ∀ n fuel, (length (concat ts) < fuel)%nat → prefix_together p rs →
  iter_all k fuel {| cursor := concat ts; prefix := Some p; current_line := n |} = Ok (Ok <$> filter (λ r, starts_with (ref_name r) p = true) rs).
Proof.
  induction 1 as [|r t rs ts Hr Hrs IH]; intros n [|fuel] Hf Hs; cbn [concat length] in Hf; try lia; [done|]. cbn [concat iter_all].
  assert (reference (t ++ concat ts) k = Ok (r, concat ts)) as Hx.
  { destruct Hr. apply reference_spec. split; [done|]. split; [intros _; by eapply records_not_caret|]. by exists t. }
  destruct (record_nonempty k r t) as (b & l & -> & _); [done|]. unfold iter_next. cbn [cursor prefix current_line app].
  change (b :: l ++ concat ts) with ((b :: l) ++ concat ts). rewrite Hx. apply StronglySorted_inv in Hs as [Hs Hle].
  destruct (starts_with (ref_name r) p) eqn:Hw; cbn [negb mbind outcome_bind].
  - rewrite filter_cons_True by done. rewrite IH; [done|rewrite length_app in Hf; cbn [length] in Hf; lia|done].
  - rewrite filter_cons_False by congruence. rewrite filter_nothing; [done|]. intros s Hin Ht.
    rewrite list.Forall_forall in Hle. specialize (Hle s Hin eq_refl). congruence.
Qed.

Definition names_increasing (rs : list Reference) : Prop := StronglySorted (λ r s, name_cmp r s = Lt) rs.
Lemma names_increasing_sorted rs : names_increasing rs → names_sorted rs.
Proof. induction 1 as [|r rs _ IH Hr]; constructor; [done|]. eapply Forall_impl; [|exact Hr]. intros s Hs. cbn in Hs. unfold ord_le. congruence. Qed.
Lemma filter_skip {A} (P : A → Prop) `{∀ x, Decision (P x)} l n :
  (∀ m x, l !! m = Some x → (m < n)%nat → ¬ P x) → filter P l = filter P (drop n l).
Proof.
  revert n. induction l as [|x l IH]; intros [|n] Hn; try done. cbn [drop]. rewrite filter_cons_False by (apply (Hn 0%nat); [done|lia]).
  apply IH. intros m y Hy Hm. apply (Hn (S m)); [done|lia].
Qed.

(** ** Properties *)

(** In a buffer whose names increase, the iterator for a prefix yields precisely the references whose names
    begin with it. *)
Theorem packed_prefix_exact k a rs p :
  (it ← buffer_iter a; iterate k it) = Ok (Ok <$> rs) → head a ≠ Some 35 → names_increasing rs →
  (it ← iter_prefixed k a p; iterate k it) = Ok (Ok <$> filter (λ r, starts_with (ref_name r) p = true) rs).
Proof.
  intros Hit Hhead Hinc. pose proof (names_increasing_sorted _ Hinc) as Hs. destruct (iterated_records _ _ _ Hit Hhead) as (ts & Hts & ->).
  unfold iter_prefixed.
  assert (∃ n, (∀ m r, rs !! m = Some r → bytes_cmp (ref_name r) p = Lt ↔ (m < n)%nat) ∧ (n ≤ length rs)%nat ∧
    ∃ s, ref_binary_search_by k (concat ts) p = Ok s ∧
      (match s.2 with inl pos | inr pos => pos end = zlen (concat (take n ts)) ∨ n = length rs ∧ match s.2 with inl pos | inr pos => pos end = 0))
    as (n & Hn & Hlen & s & -> & Hpos).
  { destruct (search_records k rs ts p Hts Hs) as [(n & r & Hr & Hname & Hb)|(n & Hn & Hcmp & Hb)].
    - apply lookup_lt_Some in Hr as Hlt. exists n. split; [|split; [lia|by eexists; split; [exact Hb|left]]]. intros m s Hm. subst p.
      destruct (Nat.lt_trichotomy m n) as [Hmn|[->|Hmn]].
      + split; [done|]. intros _. by apply (sorted_lookup_lt _ _ m n _ _ Hinc Hm Hr).
      + simplify_eq. rewrite bytes_cmp_refl. split; [done|lia].
      + pose proof (sorted_lookup_lt _ _ n m _ _ Hinc Hr Hm Hmn) as Hx. unfold name_cmp in Hx. rewrite (bytes_cmp_antisym (ref_name r)), Hx. split; [done|lia].
    - exists n. split; [|split; [done|]].
      + intros m r Hm. rewrite (Hcmp m r Hm). destruct (decide (m < n)%nat) as [Hx|Hx]; split; intros Hy; [exact Hx|done|discriminate Hy|by destruct Hx].
      + eexists. split; [exact Hb|]. cbn. destruct (decide _); [by right|by left]. }
  cbn [mbind outcome_bind]. destruct s as [f s]; cbn [snd] in Hpos.
  rewrite (filter_skip _ rs n) by (intros m r Hm Hlt Hw; apply starts_with_ge in Hw; by apply Hw, (Hn m r)).
  assert (∀ m, Forall2 (record_of k) (drop m rs) (drop m ts)) as Hdrop by (intros m; by apply Forall2_drop).
  assert (∀ m, names_sorted (drop m rs)) as Hsd by (intros m; eapply StronglySorted_app_1_r; by rewrite (take_drop m rs)).
  assert (∀ r, r ∈ drop n rs → bytes_cmp (ref_name r) p ≠ Lt) as Hge.
  { intros r [m Hm]%list_elem_of_lookup_1 Hlt. rewrite lookup_drop in Hm. apply (Hn _ _ Hm) in Hlt. lia. }
  destruct Hpos as [-> | [-> ->]].
  - rewrite <- (take_drop n ts) at 1. rewrite concat_app, get_from_app. cbn [expect mbind outcome_bind].
    destruct (iter_new_records _ _ _ (Hdrop n) (Some p)) as [-> _]. cbn [mbind outcome_bind]. unfold iterate. cbn [cursor].
    eapply iter_prefix_records; [done|lia|by apply prefix_together_ge].
  - rewrite get_from_in by (pose proof (zlen_nonneg (concat ts)); lia). cbn [expect mbind outcome_bind]. rewrite drop_0.
    destruct (iter_new_records _ _ _ Hts (Some p)) as [-> _]. cbn [mbind outcome_bind]. unfold iterate. cbn [cursor].
    rewrite <- (filter_skip _ rs (length rs)) by (intros m r Hm Hlt Hw; apply starts_with_ge in Hw; by apply Hw, (Hn m r)).
    eapply iter_prefix_records; [done|lia|]. apply prefix_together_lt. intros r [m Hm]%list_elem_of_lookup_1.
    apply (Hn _ _ Hm). by apply lookup_lt_Some in Hm.
Qed.

(** C15: A file over which the iterator goes without error, and whose references are in order if its header says so: it is
    opened, sorted in memory if need be, iterating over the buffer yields the same references in the order of their
    names, and looking up any name in the buffer finds one of those in the file that have it, or there are none. *)
Theorem packed_open_find k file rs :
  (it ← iter_new file; iterate k it) = Ok (Ok <$> rs) → (declared_sorted file → names_sorted rs) → zlen file < 2 ^ 64 →
  ∃ b a rs', open_with_backing k file = Ok b ∧ buffer_bytes b = Ok a ∧
    (it ← buffer_iter a; iterate k it) = Ok (Ok <$> rs') ∧ rs' ≡ₚ rs ∧ names_sorted rs' ∧
    ∀ name, ∃ found, try_find_full_name k a name = Ok found ∧
      match found with Some r => r ∈ rs ∧ ref_name r = name | None => ∀ r, r ∈ rs → ref_name r ≠ name end.
Proof.
  intros Hit Hdecl Hlen. destruct (file_records _ _ _ Hit) as (body & s & ts & Hbody & Hts & ->).
  assert (∃ b ts' rs', open_with_backing k file = Ok b ∧ buffer_bytes b = Ok (concat ts') ∧ Forall2 (record_of k) rs' ts' ∧ rs' ≡ₚ rs ∧ names_sorted rs')
    as (b & ts' & rs' & Hopen & Hb & Hts' & Hperm & Hsort).
  { rewrite (open_body k file _ s Hbody Hlen). destruct s.
    - destruct (body_suffix _ _ _ Hbody) as [pre ->]. eexists _, ts, rs. split; [done|]. split; [apply buffer_bytes_behind|]. split; [done|]. split; [done|].
      apply Hdecl. unfold body_of in Hbody. destruct (decide _); [|by destruct Hbody]. destruct Hbody as (h & Hh & Hs). by eexists _, _.
    - destruct (iter_new_records _ _ _ Hts None) as [Hn _]. unfold iter_new. rewrite Hn. cbn [mbind outcome_bind]. rewrite (iterate_records _ _ _ _ Hts). cbn [mbind outcome_bind].
      assert (collect_results (Ok (E := ref_error) <$> rs) = Ok rs) as -> by by apply collect_results_ok. cbn [mbind outcome_bind].
      exists {| data := concat (serialize_entry <$> sort_by name_cmp rs); offset := 0 |}, (serialize_entry <$> sort_by name_cmp rs), (sort_by name_cmp rs).
      split; [done|]. split.
      + unfold buffer_bytes. cbn [data offset]. rewrite get_from_in by (pose proof (zlen_nonneg (concat (serialize_entry <$> sort_by name_cmp rs))); lia). by rewrite drop_0.
      + assert (sort_by name_cmp rs ≡ₚ rs) as Hp by apply sort_by_permutation. split; [|split; [done|apply sort_by_sorted, comap_laws, _]].
        apply serialize_records. rewrite Hp. by eapply records_ok. }
  destruct (iter_new_records _ _ _ Hts' None) as [Hn Hhead].
  assert ((it ← buffer_iter (concat ts'); iterate k it) = Ok (Ok <$> rs')) as Hit'.
  { unfold buffer_iter, iter_new. rewrite Hn. cbn [mbind outcome_bind]. by apply iterate_records. }
  exists b, (concat ts'), rs'. repeat (split; [done|]). intros name. destruct (find_records k (concat ts') rs' name Hit' Hhead Hsort) as (found & Hf & Hspec).
  exists found. split; [done|]. destruct found as [r|]; [by rewrite <- Hperm|]. intros r. rewrite <- Hperm. by apply Hspec.
Qed.

(** ** Lemmas: safety *)
Lemma iter_next_safe k it : ∃ it' r, iter_next k it = Ok (it', r) ∧ (r ≠ None → (length (cursor it') < length (cursor it))%nat) ∧ r ≠ Some Panic.
Proof.
  unfold iter_next. destruct it as [c p n]. cbn [cursor prefix current_line]. destruct c as [|b c]; [by eexists _, _|].
  pose proof (reference_safe (b :: c) k). destruct (reference (b :: c) k) as [[r rest]|e|] eqn:Hr; [| |done].
  - apply reference_spec in Hr as (Hok & _ & t & Ht & Heq). destruct (record_nonempty k r t) as (x & l & -> & _); [done|].
    assert (length rest < length (b :: c))%nat as Hlt by (rewrite Heq, length_app; cbn [length]; lia).
    destruct p as [p|]; [|by eexists _, _]. destruct (negb _); [by eexists _, _|by eexists _, _].
  - set (sp := match position _ _ with Some _ => _ | None => _ end).
    assert (∃ l nc, sp = Ok (l, nc) ∧ (length nc < length (b :: c))%nat) as (l & nc & -> & Hlt).
    { unfold sp. destruct (position _ _) as [pos|] eqn:Ep; [|by exists (b :: c), []; split; [|cbn [length]; lia]].
      apply position_bound in Ep. rewrite split_at_in by lia. eexists _, _. split; [done|]. rewrite length_drop. unfold zlen in Ep. lia. }
    by eexists _, _.
Qed.
Lemma iter_all_safe k fuel : ∀ it, (length (cursor it) < fuel)%nat → ∃ l, iter_all k fuel it = Ok l ∧ Forall (λ r, r ≠ Panic) l.
Proof.
  induction fuel as [|fuel IH]; intros it Hf; [lia|]. cbn [iter_all]. destruct (iter_next_safe k it) as (it' & r & -> & Hlt & Hp).
  cbn [mbind outcome_bind]. destruct r as [r|]; [|by eexists]. specialize (Hlt ltac:(done)). destruct (IH it') as (l & -> & Hl); [lia|].
  eexists. split; [done|]. constructor; [congruence|done].
Qed.
Lemma iterate_safe k it : ∃ l, iterate k it = Ok l ∧ Forall (λ r, r ≠ Panic) l.
Proof. apply iter_all_safe. lia. Qed.
Lemma iter_new_safe a p : iter_new_with_prefix a p ≠ Panic.
Proof.
  unfold iter_new_with_prefix. destruct a as [|b a]; [done|]. destruct (b =? 35); [|done]. pose proof (header_safe (b :: a)).
  by destruct (header (b :: a)) as [[h r]| |].
Qed.
Lemma iter_new_iterate_safe k a p : (it ← iter_new_with_prefix a p; iterate k it) ≠ Panic.
Proof.
  pose proof (iter_new_safe a p). destruct (iter_new_with_prefix a p) as [it| |]; [|done|done]. cbn [mbind outcome_bind].
  by destruct (iterate_safe k it) as (l & -> & _).
Qed.
Lemma collect_results_safe {E A} (l : list (outcome E A)) : Forall (λ r, r ≠ Panic) l → collect_results l ≠ Panic.
Proof.
  induction 1 as [|r l Hr _ IH]; cbn [collect_results]; [done|]. destruct r; [|done|done]. cbn [mbind outcome_bind]. by destruct (collect_results l).
Qed.
Lemma rfind_newline_bound l pos : rfind_newline l = Some pos → 0 ≤ pos < zlen l.
Proof.
  intros (a & x & b & -> & <- & _)%rposition_Some. rewrite zlen_app, zlen_cons. pose proof (zlen_nonneg a). pose proof (zlen_nonneg b). lia.
Qed.
Lemma record_start_safe a ofs : 0 ≤ ofs ≤ zlen a → ∃ start, 0 ≤ start ≤ zlen a ∧ ∀ E, record_start_at_offset (E := E) a ofs = Ok start.
Proof.
  intros Hofs. unfold record_start_at_offset. rewrite get_range_in by lia. cbn [expect mbind outcome_bind].
  destruct (rfind_newline _) as [pos|] eqn:Ep; [|exists 0; split; [lia|done]]. apply rfind_newline_bound in Ep.
  assert (0 ≤ pos < zlen a) as Hpos by (unfold zlen in *; rewrite length_take, length_drop in Ep; lia).
  destruct (get a (pos + 1)) as [x|] eqn:Hx; [|exists 0; split; [lia|done]]. apply get_Some in Hx as [_ Hx%lookup_lt_Some].
  destruct (x =? 94); [|exists (pos + 1); split; [unfold zlen; lia|done]]. rewrite get_range_in by lia. cbn [expect mbind outcome_bind].
  destruct (rfind_newline _) as [pos'|] eqn:Ep'; [|exists 0; split; [lia|done]]. apply rfind_newline_bound in Ep'.
  exists (pos' + 1). split; [|done]. unfold zlen in *. rewrite length_take, length_drop in Ep'. lia.
Qed.
Lemma name_at_record_safe i k : name_at_record_start i k ≠ Panic.
Proof.
  unfold name_at_record_start. assert (0 ≤ len_in_hex k) by by destruct k. destruct (bool_decide _) eqn:E; [|done]. apply bool_decide_eq_true in E.
  apply get_Some in E as [_ Hlt%lookup_lt_Some]. cbn [ensure mbind outcome_bind]. rewrite get_from_in by (unfold zlen; lia). cbn [expect mbind outcome_bind].
  destruct (position is_line_end _) as [end_|] eqn:Ep; [|done]. apply position_bound in Ep. cbn [ok_or mbind outcome_bind].
  destruct (end_ =? 0); [done|]. cbn [negb ensure mbind outcome_bind]. destruct (get_in _ end_ Ep) as (x & -> & _). cbn [expect mbind outcome_bind].
  destruct (negb _); [|done]. cbn [ensure mbind outcome_bind]. by rewrite get_range_in by lia.
Qed.
Lemma ref_search_safe k a name : ∃ f r, ref_binary_search_by k a name = Ok (f, r) ∧ 0 ≤ match r with inl pos | inr pos => pos end ≤ zlen a.
Proof.
  unfold ref_binary_search_by. pose proof (zlen_nonneg a).
  assert (zlen (seqZ 0 (zlen a)) = zlen a) as Hl by (unfold zlen at 1; rewrite length_seqZ; lia).
  pose (read i := start ← record_start_at_offset (E := ref_error) a i; line ← expect (get_from a start); map_err (λ _, PeelFailed) (name_at_record_start line k)).
  destruct (binary_search_mut_result (seqZ 0 (zlen a)) (λ i, bytes_cmp (match read i with Ok n => n | _ => [] end) name) (compare_record k a name)
    (λ s i, match read i with Ok _ => s | _ => true end) false) as (f & r & -> & Hr).
  - intros s i Hi%elem_of_seqZ. unfold compare_record, record_at_offset, read. destruct (record_start_safe a i) as (start & Hs & ->); [lia|].
    cbn [mbind outcome_bind]. rewrite get_from_in by lia. cbn [expect mbind outcome_bind]. set (line := drop _ a).
    pose proof (name_at_record_safe line k). by destruct (name_at_record_start line k).
  - cbn [mbind outcome_bind]. rewrite Hl in Hr || idtac. destruct r as [i|i]; cbn [search_result] in Hr.
    + destruct Hr as (x & Hx & _). apply get_Some in Hx as [Hi Hx%lookup_lt_Some]. rewrite length_seqZ in Hx.
      destruct (record_start_safe a i) as (start & Hs & ->); [lia|]. by eexists _, _.
    + destruct Hr as [Hi _]. destruct (record_start_safe a i) as (start & Hs & ->); [lia|]. by eexists _, _.
Qed.

Lemma open_cases file : (∃ body s, body_of file body s) ∨ (head file = Some 35 ∧ ∀ h, header file ≠ Ok h).
Proof.
  unfold body_of. destruct (decide _) as [Hh|Hh]; [|left; by exists file, false].
  destruct (header file) as [[h r]| |]; [left; by exists r, (sorted h), h|by right..].
Qed.

(** C25: Whatever bytes are opened, iterated over and searched, whatever names are looked up, nothing panics: indices are in
    bounds, iterating and searching end, errors are returned. *)
Theorem packed_refs_safe k file : zlen file < 2 ^ 64 →
  (it ← iter_new file; iterate k it) ≠ Panic ∧ open_with_backing k file ≠ Panic ∧
  ∀ b, open_with_backing k file = Ok b → ∃ a, buffer_bytes b = Ok a ∧
    (it ← buffer_iter a; iterate k it) ≠ Panic ∧
    ∀ name, try_find_full_name k a name ≠ Panic ∧ (it ← iter_prefixed k a name; iterate k it) ≠ Panic.
Proof.
  intros Hlen. split; [apply iter_new_iterate_safe|].
  assert (∀ a, (it ← buffer_iter a; iterate k it) ≠ Panic ∧
    ∀ name, try_find_full_name k a name ≠ Panic ∧ (it ← iter_prefixed k a name; iterate k it) ≠ Panic) as Hbuf.
  { intros a. split; [apply iter_new_iterate_safe|]. intros name. unfold try_find_full_name, iter_prefixed.
    destruct (ref_search_safe k a name) as (f & r & -> & Hr). cbn [mbind outcome_bind]. split.
    - destruct r as [pos|pos]; [|by destruct f]. rewrite get_from_in by lia. cbn [expect mbind outcome_bind]. set (i := drop _ a).
      pose proof (reference_safe i k). by destruct (reference i k) as [[r rest]| |].
    - rewrite get_from_in by done. cbn [expect mbind outcome_bind]. apply iter_new_iterate_safe. }
  destruct (open_cases file) as [(body & s & Hb)|Hno].
  - rewrite (open_body k file body s Hb Hlen). destruct s.
    + split; [done|]. intros b [= <-]. destruct (body_suffix _ _ _ Hb) as [pre ->]. exists body. split; [apply buffer_bytes_behind|apply Hbuf].
    + pose proof (iter_new_safe body None). unfold iter_new. destruct (iter_new_with_prefix body None) as [it| |]; [|done|done]. cbn [mbind outcome_bind].
      destruct (iterate_safe k it) as (l & -> & Hl). cbn [mbind outcome_bind].
      apply collect_results_safe in Hl. destruct (collect_results l) as [es| |]; [|done|done]. cbn [mbind outcome_bind]. split; [done|]. intros b [= <-].
      eexists. split; [|apply Hbuf]. unfold buffer_bytes. cbn [data offset]. rewrite get_from_in; [done|]. split; [lia|apply zlen_nonneg].
  - unfold open_with_backing. destruct Hno as [Hh He]. rewrite Hh. change (default 32 (Some 35) =? 35) with true.
    pose proof (header_safe file). destruct (header file) as [h|e|]; [by destruct (He h)|done|done].
Qed.


(** ** Witnesses *)
Definition refs_a : Reference := {| ref_name := [114; 101; 102; 115; 47; 97]; target := replicate 40 48; object := None |}.
Definition refs_t : Reference := {| ref_name := [114; 101; 102; 115; 47; 116]; target := replicate 40 49; object := Some (replicate 40 50) |}.
(** The header "# pack-refs with: peeled ", then two references out of order, the first line of which ends in CRLF. *)
Definition unsorted_file : bytes :=
  HEADER_PREFIX ++ PEELED ++ [32; 10]
  ++ target refs_t ++ [32] ++ ref_name refs_t ++ [13; 10] ++ [94] ++ replicate 40 50 ++ [10] ++ serialize_entry refs_a.
Lemma packed_open_find_witness :
  ((it ← iter_new unsorted_file; iterate Sha1 it) = Ok (Ok <$> [refs_t; refs_a]) ∧ zlen unsorted_file < 2 ^ 64) ∧
  ∃ b a rs', open_with_backing Sha1 unsorted_file = Ok b ∧ buffer_bytes b = Ok a ∧
    (it ← buffer_iter a; iterate Sha1 it) = Ok (Ok <$> rs') ∧ rs' ≡ₚ [refs_t; refs_a] ∧ names_sorted rs' ∧
    ∀ name, ∃ found, try_find_full_name Sha1 a name = Ok found ∧
      match found with Some r => r ∈ [refs_t; refs_a] ∧ ref_name r = name | None => ∀ r, r ∈ [refs_t; refs_a] → ref_name r ≠ name end.
Proof.
  assert ((it ← iter_new unsorted_file; iterate Sha1 it) = Ok (Ok <$> [refs_t; refs_a])) as Hit by (vm_compute; reflexivity).
  assert (zlen unsorted_file < 2 ^ 64) as Hlen by (vm_compute; reflexivity).
  split; [exact (conj Hit Hlen)|]. apply (packed_open_find Sha1 unsorted_file [refs_t; refs_a] Hit); [|exact Hlen].
  intros (h & rest & Hh & Hs). exfalso. vm_compute in Hh. injection Hh as <- <-. discriminate Hs.
Defined.
Lemma packed_refs_safe_witness : zlen unsorted_file < 2 ^ 64 ∧
  (it ← iter_new unsorted_file; iterate Sha1 it) ≠ Panic.
Proof.
  assert (zlen unsorted_file < 2 ^ 64) as Hlen by (vm_compute; reflexivity). split; [exact Hlen|].
  apply (packed_refs_safe Sha1 unsorted_file Hlen).
Defined.
Lemma packed_prefix_exact_witness :
  (it ← iter_prefixed Sha1 (concat (serialize_entry <$> [refs_a; refs_t])) (ref_name refs_t); iterate Sha1 it)
    = Ok (Ok <$> filter (λ r, starts_with (ref_name r) (ref_name refs_t) = true) [refs_a; refs_t]).
Proof.
  apply (packed_prefix_exact Sha1 (concat (serialize_entry <$> [refs_a; refs_t])) [refs_a; refs_t]); [vm_compute; reflexivity|discriminate|].
  repeat constructor.
Defined.
Example lookup_in_unsorted_file :
  (b ← open_with_backing Sha1 unsorted_file; a ← buffer_bytes b; try_find_full_name Sha1 a (ref_name refs_t)) = Ok (Some refs_t).
Proof. vm_compute. reflexivity. Qed.
