(* ===== verification/RefNames.v ===== *)
(** * [gix-ref]: names of references

    The categories of full names, the names that a partial name may stand for, namespaces, and the lookup of
    partial names in packed references. Names are bytes; the texts of the source are written as such. *)

From Stdlib Require Strings.String Strings.Ascii.
From S2P Require Import Prelude Slices Validate Hash PackedRefs.

Module Text.
Import Strings.String Strings.Ascii.
Definition text (s : string) : bytes := (λ c, Z.of_N (N_of_ascii c)) <$> list_ascii_of_string s.
Definition REFS := Eval vm_compute in text "refs/".
Definition REFS_TAGS := Eval vm_compute in text "refs/tags/".
Definition REFS_HEADS := Eval vm_compute in text "refs/heads/".
Definition REFS_REMOTES := Eval vm_compute in text "refs/remotes/".
Definition REFS_NOTES := Eval vm_compute in text "refs/notes/".
Definition MAIN_WORKTREE := Eval vm_compute in text "main-worktree/".
Definition MAIN_WORKTREE_REFS := Eval vm_compute in text "main-worktree/refs/".
Definition WORKTREES := Eval vm_compute in text "worktrees/".
Definition REFS_BISECT := Eval vm_compute in text "refs/bisect/".
Definition REFS_REWRITTEN := Eval vm_compute in text "refs/rewritten/".
Definition REFS_WORKTREE := Eval vm_compute in text "refs/worktree/".
Definition NOTES := Eval vm_compute in text "notes/".
Definition BISECT := Eval vm_compute in text "bisect/".
Definition REWRITTEN := Eval vm_compute in text "rewritten/".
Definition WORKTREE := Eval vm_compute in text "worktree/".
Definition REFS_NAMESPACES := Eval vm_compute in text "refs/namespaces/".
Definition TAGS := Eval vm_compute in text "tags".
Definition HEADS := Eval vm_compute in text "heads".
Definition REMOTES := Eval vm_compute in text "remotes".
Definition refs_heads_refs_heads_a := Eval vm_compute in text "refs/heads/refs/heads/a".
Definition refs_heads_a := Eval vm_compute in text "refs/heads/a".
Definition a_b := Eval vm_compute in text "a/b".
End Text.
Import Text.

(** ** [lib.rs], [name.rs] *)
Inductive Category :=
| Tag | LocalBranch | RemoteBranch | Note | PseudoRef | MainPseudoRef | MainRef
| LinkedPseudoRef (name : bytes) | LinkedRef (name : bytes)
| Bisect | Rewritten | WorktreePrivate.
Definition category_prefix (c : Category) : bytes :=
  match c with
  | Tag => REFS_TAGS
  | LocalBranch => REFS_HEADS
  | RemoteBranch => REFS_REMOTES
  | Note => REFS_NOTES
  | MainPseudoRef => MAIN_WORKTREE
  | MainRef => MAIN_WORKTREE_REFS
  | PseudoRef => []
  | LinkedPseudoRef _ => WORKTREES
  | LinkedRef _ => WORKTREES
  | Bisect => REFS_BISECT
  | Rewritten => REFS_REWRITTEN
  | WorktreePrivate => REFS_WORKTREE
  end.
Definition is_worktree_private (c : Category) : bool :=
  match c with
  | MainPseudoRef | PseudoRef | LinkedPseudoRef _ | WorktreePrivate | Rewritten | Bisect => true
  | _ => false
  end.
Definition is_remote_tracking_branch (c : Category) : bool := match c with RemoteBranch => true | _ => false end.
Definition is_pseudo_ref (name : bytes) : bool := forallb (λ b, ((65 <=? b) && (b <=? 90)) || (b =? 95)) name.
Definition looks_like_full_name (name : bytes) (consider_pseudo_ref : bool) : bool :=
  starts_with name REFS || starts_with name (category_prefix MainPseudoRef) || starts_with name (category_prefix (LinkedPseudoRef []))
  || (consider_pseudo_ref && is_pseudo_ref name).
Definition construct_full_name_ref (name inbetween : bytes) (consider_pseudo_ref : bool) : bytes :=
  (if negb (looks_like_full_name name consider_pseudo_ref) then REFS else [])
  ++ (match inbetween with [] => [] | _ => inbetween ++ [47] end) ++ name.
Definition join (name component : bytes) : outcome name_error bytes :=
  let b := name ++ [47] ++ component in _ ← name_partial b; Ok b.

(** ** [fullname.rs] *)
Definition try_categories (cs : list Category) (name : bytes) (short : Category → bytes → outcome () bytes) : outcome () (option (Category * bytes)) :=
  match List.find (λ c, starts_with name (category_prefix c)) cs with
  | Some c => s ← short c name; Ok (Some (c, s))
  | None => Ok None
  end.
Definition without_prefix (p name : bytes) : outcome () bytes := expect (strip_prefix name p).
Definition category_and_short_name (name : bytes) : outcome () (option (Category * bytes)) :=
  branch ← try_categories [Tag; LocalBranch; RemoteBranch] name (λ c, without_prefix (category_prefix c));
  match branch with
  | Some r => Ok (Some r)
  | None =>
      other ← try_categories [Note; Bisect; WorktreePrivate; Rewritten] name (λ _, without_prefix REFS);
      match other with
      | Some r => Ok (Some r)
      | None =>
          if is_pseudo_ref name then Ok (Some (PseudoRef, name))
          else
            match strip_prefix name (category_prefix MainPseudoRef) with
            | Some shortened =>
                Ok (if starts_with shortened REFS then Some (MainRef, shortened)
                    else if is_pseudo_ref shortened then Some (MainPseudoRef, shortened) else None)
            | None =>
                match strip_prefix name (category_prefix (LinkedPseudoRef [])) with
                | Some shortened_with_worktree_name =>
                    match position (λ b, b =? 47) shortened_with_worktree_name with
                    | Some pos =>
                        name ← expect (get_range shortened_with_worktree_name 0 pos);
                        shortened ← expect (get_from shortened_with_worktree_name (pos + 1));
                        Ok (if starts_with shortened REFS then Some (LinkedRef name, shortened)
                            else if is_pseudo_ref shortened then Some (LinkedPseudoRef name, shortened) else None)
                    | None => Ok None
                    end
                | None => Ok None
                end
            end
      end
  end.
Definition shorten (name : bytes) : outcome () bytes :=
  c ← category_and_short_name name; Ok (match c with Some (_, short) => short | None => name end).
Definition unless_prefix (p name : bytes) : bytes := default name (strip_prefix name p).
Definition to_full_name (c : Category) (short_name : bytes) : outcome name_error bytes :=
  let out := match c with LinkedPseudoRef name | LinkedRef name => category_prefix c ++ name ++ [47] | _ => category_prefix c end in
  let partial_name :=
    match c with
    | Note => unless_prefix NOTES short_name
    | MainRef => unless_prefix REFS short_name
    | Bisect => unless_prefix BISECT short_name
    | Rewritten => unless_prefix REWRITTEN short_name
    | WorktreePrivate => unless_prefix WORKTREE short_name
    | _ => short_name
    end in
  if bool_decide (out = []) || negb (starts_with partial_name out) then reference_name (out ++ partial_name)
  else reference_name partial_name.
(** [rsplitn(2, '/')] *)
Definition file_name (name : bytes) : outcome () bytes :=
  match rposition (λ b, b =? 47) name with
  | Some pos => expect (get_from name (pos + 1))
  | None => Ok name
  end.

(** ** [namespace.rs] *)
Fixpoint split_slashes (l current : bytes) : list bytes :=
  match l with
  | [] => [current]
  | b :: l => if b =? 47 then current :: split_slashes l [] else split_slashes l (current ++ [b])
  end.
Definition expand (namespace : bytes) : outcome name_error bytes :=
  namespace ← name_partial namespace;
  Ok (concat ((λ component, REFS_NAMESPACES ++ component ++ [47]) <$> split_slashes namespace [])).
Definition into_namespaced_name (namespace name : bytes) : bytes := namespace ++ name.
Definition prefix_namespace (name namespace : bytes) : bytes :=
  if negb (starts_with name namespace) then namespace ++ name else name.
(** [copy_within] to the front, and [resize]. *)
Definition strip_namespace (name namespace : bytes) : outcome () bytes :=
  if starts_with name namespace then
    rest ← expect (get_from name (zlen namespace));
    new_len ← op_sub 64 (zlen name) (zlen namespace);
    expect (get_range (rest ++ drop (length rest) name) 0 new_len)
  else Ok name.

(** ** [store/packed/find.rs] *)
Definition transform_full_name_for_lookup (name : bytes) : outcome () (option bytes) :=
  c ← category_and_short_name name;
  Ok (match c with
      | Some (c, sn) =>
          match c with
          | MainRef | LinkedRef _ => Some sn
          | Tag | RemoteBranch | LocalBranch | Bisect | Rewritten | Note => Some name
          | MainPseudoRef | PseudoRef | LinkedPseudoRef _ | WorktreePrivate => None
          end
      | None => Some name
      end).
Section Find.
Context (object_hash : Kind).
Fixpoint try_find_loop (a name : bytes) (inbetweens : list bytes) : outcome ref_error (option Reference) :=
  match inbetweens with
  | [] => Ok None
  | inbetween :: inbetweens =>
      if looks_like_full_name name false then
        match transform_full_name_for_lookup name with
        | Ok None => Ok None
        | Ok (Some name) => try_find_full_name object_hash a name
        | _ => Panic
        end
      else
        r ← try_find_full_name object_hash a (construct_full_name_ref name inbetween false);
        match r with
        | Some r => Ok (Some r)
        | None => try_find_loop a name inbetweens
        end
  end.
Definition try_find (a name : bytes) : outcome ref_error (option Reference) :=
  name ← map_err (λ _, MalformedReference) (name_partial name);
  try_find_loop a name [[]; TAGS; HEADS; REMOTES].
End Find.

Example inverse_fails : category_and_short_name refs_heads_refs_heads_a = Ok (Some (LocalBranch, refs_heads_a)) ∧ to_full_name LocalBranch refs_heads_a = Ok refs_heads_a.
Proof. split; vm_compute; reflexivity. Qed.
Example expand_ends_in_slash : (list.last <$> expand a_b) = Ok (Some 47).
Proof. vm_compute. reflexivity. Qed.

(** ** Lemmas *)
Lemma starts_with_app p r : starts_with (p ++ r) p = true.
Proof. apply starts_with_spec. by exists r. Qed.
Lemma strip_prefix_app p r : strip_prefix (p ++ r) p = Some r.
Proof. by apply strip_prefix_Some. Qed.
(** What [to_full_name] puts in front. *)
Definition category_base (c : Category) : bytes :=
  match c with LinkedPseudoRef name | LinkedRef name => WORKTREES ++ name ++ [47] | _ => category_prefix c end.
(** What it puts behind it. *)
Definition category_rest (c : Category) (short : bytes) : bytes :=
  match c with
  | Note => unless_prefix NOTES short
  | MainRef => unless_prefix REFS short
  | Bisect => unless_prefix BISECT short
  | Rewritten => unless_prefix REWRITTEN short
  | WorktreePrivate => unless_prefix WORKTREE short
  | _ => short
  end.
Lemma to_full_name_eq c short : to_full_name c short =
  reference_name (if bool_decide (category_base c = []) || negb (starts_with (category_rest c short) (category_base c))
                  then category_base c ++ category_rest c short else category_rest c short).
Proof. unfold to_full_name. destruct c; cbn [category_base category_rest category_prefix]; by destruct (bool_decide _ || _). Qed.
Lemma try_categories_spec cs name short : (∀ c, c ∈ cs → starts_with name (category_prefix c) = true → ∃ s, short c name = Ok s) →
  (∃ c s, c ∈ cs ∧ starts_with name (category_prefix c) = true ∧ short c name = Ok s ∧ try_categories cs name short = Ok (Some (c, s))) ∨
  try_categories cs name short = Ok None.
Proof.
  intros Hs. unfold try_categories. destruct (List.find _ cs) as [c|] eqn:E; [left|by right]. apply List.find_some in E as [Hin Hst].
  apply list_elem_of_In in Hin. destruct (Hs c Hin Hst) as [s Hc]. exists c, s. rewrite Hc. done.
Qed.
(** The categories inside of [refs/] whose short names keep a part of the prefix. *)
Lemma shared_prefix c : c ∈ [Note; Bisect; WorktreePrivate; Rewritten] →
  ∃ t, category_prefix c = REFS ++ t ∧ ∀ r, category_rest c (t ++ r) = r ∧ category_base c = category_prefix c.
Proof.
  intros Hin. apply list.elem_of_cons in Hin as [->|Hin]; [exists NOTES; split; [done|]|].
  2: apply list.elem_of_cons in Hin as [->|Hin]; [exists BISECT; split; [done|]|].
  3: apply list.elem_of_cons in Hin as [->|Hin]; [exists WORKTREE; split; [done|]|].
  4: apply list.elem_of_cons in Hin as [->|Hin]; [exists REWRITTEN; split; [done|]|].
  all: try by apply list.not_elem_of_nil in Hin.
  all: intros r; split; [|done]; cbn [category_rest]; unfold unless_prefix; by rewrite strip_prefix_app.
Qed.
Lemma category_cases name : category_and_short_name name = Ok None ∨
  ∃ c s, category_and_short_name name = Ok (Some (c, s)) ∧ name = category_base c ++ category_rest c s.
Proof.
  unfold category_and_short_name.
  destruct (try_categories_spec [Tag; LocalBranch; RemoteBranch] name (λ c, without_prefix (category_prefix c))) as [(c & s & Hin & _ & Hs & ->)| ->].
  { intros c _ [r ->]%starts_with_spec. unfold without_prefix. rewrite strip_prefix_app. by eexists. }
  { right. cbn [mbind outcome_bind]. exists c, s. split; [done|]. unfold without_prefix in Hs. destruct (strip_prefix _ _) as [r|] eqn:E; [|done].
    apply strip_prefix_Some in E as ->. injection Hs as <-. repeat (apply list.elem_of_cons in Hin as [->|Hin]; [done|]). by apply list.not_elem_of_nil in Hin. }
  cbn [mbind outcome_bind].
  destruct (try_categories_spec [Note; Bisect; WorktreePrivate; Rewritten] name (λ _, without_prefix REFS)) as [(c & s & Hin & Hst & Hs & ->)| ->].
  { intros c Hin [r ->]%starts_with_spec. destruct (shared_prefix c Hin) as (t & -> & _). unfold without_prefix. rewrite <- app_assoc, strip_prefix_app. by eexists. }
  { right. cbn [mbind outcome_bind]. exists c, s. split; [done|]. apply starts_with_spec in Hst as [r ->].
    destruct (shared_prefix c Hin) as (t & Ht & Hr). unfold without_prefix in Hs. rewrite Ht, <- app_assoc, strip_prefix_app in Hs. injection Hs as <-.
    destruct (Hr r) as [-> ->]. done. }
  cbn [mbind outcome_bind]. destruct (is_pseudo_ref name); [right; by exists PseudoRef, name|].
  destruct (strip_prefix name (category_prefix MainPseudoRef)) as [s|] eqn:E.
  { apply strip_prefix_Some in E as ->. destruct (starts_with s REFS) eqn:Er.
    - right. exists MainRef, s. split; [done|]. apply starts_with_spec in Er as [r ->]. cbn [category_rest]. unfold unless_prefix. by rewrite strip_prefix_app.
    - destruct (is_pseudo_ref s); [right; by exists MainPseudoRef, s|by left]. }
  destruct (strip_prefix name (category_prefix (LinkedPseudoRef []))) as [s|] eqn:E'; [|by left]. apply strip_prefix_Some in E' as ->.
  destruct (position _ s) as [pos|] eqn:Ep; [|by left]. apply position_Some in Ep as (w & x & r & -> & <- & Hx & _). apply Z.eqb_eq in Hx as ->.
  rewrite get_range_head. cbn [expect mbind outcome_bind]. replace (zlen w + 1) with (zlen (w ++ [47])) by by rewrite zlen_app.
  replace (w ++ 47 :: r) with ((w ++ [47]) ++ r) by by rewrite <- app_assoc. rewrite get_from_app. cbn [expect mbind outcome_bind].
  destruct (starts_with r REFS); [right; exists (LinkedRef w), r|destruct (is_pseudo_ref r); [right; exists (LinkedPseudoRef w), r|by left]];
    (split; [done|]); cbn [category_base category_rest category_prefix]; by rewrite <- !app_assoc.
Qed.

(** ** Properties *)

(** Every name is classified or not, without a panic. From the category of a valid name and its short name [to_full_name] makes the
    name again, except when behind the prefix of the category the name begins with that prefix once more: then it
    takes the rest for the full name. *)
Theorem category_roundtrip (name : bytes) : reference_name name = Ok name →
  category_and_short_name name = Ok None ∨
  ∃ c short rest, category_and_short_name name = Ok (Some (c, short)) ∧ name = category_base c ++ rest ∧
    to_full_name c short = if bool_decide (category_base c ≠ []) && starts_with rest (category_base c) then reference_name rest else Ok name.
Proof.
  intros Hv. destruct (category_cases name) as [Hn|(c & s & Hc & Hn)]; [by left|right]. exists c, s, (category_rest c s). split; [done|]. split; [done|].
  rewrite to_full_name_eq, <- Hn. destruct (decide (category_base c = [])) as [He|He].
  - rewrite bool_decide_true, (bool_decide_false (category_base c ≠ [])) by (done || naive_solver). done.
  - rewrite bool_decide_false, bool_decide_true by done. cbn [orb andb]. by destruct (starts_with _ _).
Qed.
Lemma category_roundtrip_witness :
  reference_name refs_heads_a = Ok refs_heads_a ∧
  (category_and_short_name refs_heads_a = Ok None ∨
   ∃ c short rest, category_and_short_name refs_heads_a = Ok (Some (c, short)) ∧ refs_heads_a = category_base c ++ rest ∧
     to_full_name c short = if bool_decide (category_base c ≠ []) && starts_with rest (category_base c) then reference_name rest else Ok refs_heads_a).
Proof.
  assert (reference_name refs_heads_a = Ok refs_heads_a) as H by (vm_compute; reflexivity). split; [exact H|]. exact (category_roundtrip refs_heads_a H).
Defined.

Lemma transform_cases name : transform_full_name_for_lookup name = Ok None ∨ ∃ n, transform_full_name_for_lookup name = Ok (Some n).
Proof.
  unfold transform_full_name_for_lookup. destruct (category_cases name) as [->|(c & s & -> & _)]; cbn [mbind outcome_bind]; [by right; eexists|].
  destruct c; (by left) || by right; eexists.
Qed.
Lemma try_find_loop_partial k a (rs : list Reference) name (ins : list bytes) : looks_like_full_name name false = false →
  (∀ n, ∃ found, try_find_full_name k a n = Ok found ∧
    match found with Some r => r ∈ rs ∧ ref_name r = n | None => ∀ r, r ∈ rs → ref_name r ≠ n end) →
  let names := (λ i, construct_full_name_ref name i false) <$> ins in
  ∃ found, try_find_loop k a name ins = Ok found ∧
    match found with
    | Some r => r ∈ rs ∧ ∃ i, names !! i = Some (ref_name r) ∧ ∀ j n s, (j < i)%nat → names !! j = Some n → s ∈ rs → ref_name s ≠ n
    | None => ∀ n s, n ∈ names → s ∈ rs → ref_name s ≠ n
    end.
Proof.
  intros Hl Hfind names. subst names. induction ins as [|i ins IH]; cbn [try_find_loop fmap list_fmap].
  { exists None. split; [done|]. by intros n s Hin%list.not_elem_of_nil. }
  rewrite Hl. destruct (Hfind (construct_full_name_ref name i false)) as (found & -> & Hf). cbn [mbind outcome_bind]. destruct found as [r|].
  - exists (Some r). split; [done|]. destruct Hf as [Hin <-]. split; [done|]. exists 0%nat. split; [done|]. intros j. lia.
  - destruct IH as (found & -> & IH). exists found. split; [done|]. destruct found as [r|].
    + destruct IH as [Hin (m & Hm & Hbefore)]. split; [done|]. exists (S m). split; [done|]. intros [|j] n s Hj Hn Hs.
      * cbn in Hn. injection Hn as <-. by apply Hf.
      * apply (Hbefore j n s); [lia|done|done].
    + intros n s [->|Hn]%list.elem_of_cons Hs; [by apply Hf|by apply IH].
Qed.
(** The names that a partial name is looked up as, in this order. *)
Definition lookup_names (name : bytes) : list bytes :=
  if looks_like_full_name name false
  then match transform_full_name_for_lookup name with Ok (Some n) => [n] | _ => [] end
  else (λ i, construct_full_name_ref name i false) <$> [[]; TAGS; HEADS; REMOTES].
(** Of the references in a sorted buffer a partial name finds the one for the first of the names it may stand for: itself if it looks
    like a full name, without what names a worktree, or else behind [refs/], [refs/tags/], [refs/heads/] and [refs/remotes/]. *)
Theorem packed_try_find_exact k a rs name :
  (it ← buffer_iter a; iterate k it) = Ok (Ok <$> rs) → head a ≠ Some 35 → names_sorted rs → name_partial name = Ok name →
  ∃ found, try_find k a name = Ok found ∧
    match found with
    | Some r => r ∈ rs ∧ ∃ i, lookup_names name !! i = Some (ref_name r) ∧
        ∀ j n s, (j < i)%nat → lookup_names name !! j = Some n → s ∈ rs → ref_name s ≠ n
    | None => ∀ n s, n ∈ lookup_names name → s ∈ rs → ref_name s ≠ n
    end.
Proof.
  intros Hit Hhead Hs Hname. unfold try_find. rewrite Hname. cbn [map_err mbind outcome_bind]. unfold lookup_names.
  pose proof (λ n, find_records k a rs n Hit Hhead Hs) as Hfind. destruct (looks_like_full_name name false) eqn:Hl; [|by apply try_find_loop_partial].
  cbn [try_find_loop]. rewrite Hl. destruct (transform_cases name) as [->|[n ->]].
  - exists None. split; [done|]. by intros n s Hin%list.not_elem_of_nil.
  - destruct (Hfind n) as (found & -> & Hf). exists found. split; [done|]. destruct found as [r|].
    + destruct Hf as [Hin <-]. split; [done|]. exists 0%nat. split; [done|]. intros j. lia.
    + intros m s Hm%list_elem_of_singleton Hin. subst m. by apply Hf.
Qed.
Definition sample_refs : list Reference := [{| ref_name := refs_heads_a; target := replicate 40 48; object := None |}].
Lemma packed_try_find_exact_witness :
  (it ← buffer_iter (concat (serialize_entry <$> sample_refs)); iterate Sha1 it) = Ok (Ok <$> sample_refs) ∧
  ∃ found, try_find Sha1 (concat (serialize_entry <$> sample_refs)) a_b = Ok found ∧
    match found with
    | Some r => r ∈ sample_refs ∧ ∃ i, lookup_names a_b !! i = Some (ref_name r) ∧
        ∀ j n s, (j < i)%nat → lookup_names a_b !! j = Some n → s ∈ sample_refs → ref_name s ≠ n
    | None => ∀ n s, n ∈ lookup_names a_b → s ∈ sample_refs → ref_name s ≠ n
    end.
Proof.
  assert ((it ← buffer_iter (concat (serialize_entry <$> sample_refs)); iterate Sha1 it) = Ok (Ok <$> sample_refs)) as Hit by (vm_compute; reflexivity).
  split; [exact Hit|]. apply (packed_try_find_exact Sha1 (concat (serialize_entry <$> sample_refs)) sample_refs a_b Hit);
    [discriminate|repeat constructor|vm_compute; reflexivity].
Defined.

(** Taking a namespace off a name that was put into it gives the name back, and a name that is in the namespace already is not
    put into it again. *)
Lemma strip_namespace_app namespace name : zlen (namespace ++ name) < 2 ^ 64 → strip_namespace (namespace ++ name) namespace = Ok name.
Proof.
  intros Hlen. unfold strip_namespace. rewrite starts_with_app, get_from_app. cbn [expect mbind outcome_bind]. rewrite zlen_app in *.
  pose proof (zlen_nonneg name). pose proof (zlen_nonneg namespace). rewrite op_sub_ok by lia. cbn [mbind outcome_bind].
  replace (zlen namespace + zlen name - zlen namespace) with (zlen name) by lia. by rewrite get_range_head.
Qed.
Lemma namespace_roundtrip namespace name : zlen (namespace ++ name) < 2 ^ 64 →
  strip_namespace (into_namespaced_name namespace name) namespace = Ok name ∧
  (starts_with name namespace = false → strip_namespace (prefix_namespace name namespace) namespace = Ok name) ∧
  prefix_namespace (prefix_namespace name namespace) namespace = prefix_namespace name namespace.
Proof.
  intros Hlen. split; [by apply strip_namespace_app|]. split.
  - intros Hs. unfold prefix_namespace. rewrite Hs. by apply strip_namespace_app.
  - unfold prefix_namespace at 1. destruct (starts_with (prefix_namespace name namespace) namespace) eqn:E; [done|]. unfold prefix_namespace in E.
    destruct (starts_with name namespace) eqn:E'; cbn [negb] in E; [congruence|]. by rewrite starts_with_app in E.
Qed.
