(* ===== verification/PathComponent.v ===== *)
(** * [gix-validate/src/path.rs]: path components

    [component] decides whether a tree entry may become a file or directory. The
    iterator [bstr::chars] is code of another package: it is the parameter
    [chars], and what is needed of it (ASCII decodes to itself) is a hypothesis
    of the theorem that needs it. The specification says which names are refused
    as sets of strings; the code walks over bytes. *)

From stdpp Require Import sets.
From S2P Require Import Prelude.

Inductive component_error :=
| Empty
| PathSeparator
| WindowsPathPrefix
| WindowsReservedName
| WindowsIllegalCharacter
| DotGitDir
| SymlinkedGitModules
| Relative.

Record Options := {
  protect_windows : bool;
  protect_hfs : bool;
  protect_ntfs : bool;
}.
Definition default_options : Options :=
  {| protect_windows := true; protect_hfs := true; protect_ntfs := true |}.

Inductive Mode := Symlink.
#[export] Instance Mode_eq_dec : EqDecision Mode.
Proof. solve_decision. Defined.

(** [u8::to_ascii_lowercase] and [eq_ignore_ascii_case] on slices. *)
Definition lower (c : Z) : Z := if (65 <=? c) && (c <=? 90) then c + 32 else c.
Definition eq_ic (a b : bytes) : bool := bytes_eqb (lower <$> a) (lower <$> b).
Definition is_ascii_digit (c : Z) : bool := (48 <=? c) && (c <=? 57).

Definition AUX : bytes := [65; 85; 88].
Definition NUL : bytes := [78; 85; 76].
Definition PRN : bytes := [80; 82; 78].
Definition COM : bytes := [67; 79; 77].
Definition LPT : bytes := [76; 80; 84].
Definition CON : bytes := [67; 79; 78].
Definition IN_D : bytes := [73; 78; 36].
Definition OUT_D : bytes := [79; 85; 84; 36].
Definition GIT : bytes := [103; 105; 116].
Definition GITMODULES : bytes := [103; 105; 116; 109; 111; 100; 117; 108; 101; 115].
Definition GIT_TILDE : bytes := [103; 105; 116; 126; 49].
Definition GI7EBA : bytes := [103; 105; 55; 101; 98; 97].

Definition is_symlink (mode : option Mode) : bool := bool_decide (mode = Some Symlink).

Definition opt_is {A} (o : option A) (p : A → bool) : bool :=
  match o with Some a => p a | None => false end.

Fixpoint done_ntfs_loop (input : bytes) : bool :=
  match input with
  | [] => true
  | b :: rest => if b =? 58 then true
                 else if negb (b =? 32) && negb (b =? 46) then false
                 else done_ntfs_loop rest
  end.
Definition is_done_ntfs (input : option bytes) : bool :=
  match input with None => true | Some input => done_ntfs_loop input end.

(** [input.bytes().take_while(|b| *b == b' ').count()] *)
Fixpoint count_spaces (input : bytes) : Z :=
  match input with
  | b :: rest => if b =? 32 then 1 + count_spaces rest else 0
  | [] => 0
  end.
Definition is_done_windows (input : option bytes) : bool :=
  match input with
  | None => true
  | Some input =>
      match get input (count_spaces input) with
      | None => true
      | Some next => (next =? 46) || (next =? 58)
      end
  end.

Definition is_win_device (input : bytes) : bool :=
  match get_range input 0 3 with
  | None => false
  | Some in3 =>
      if eq_ic in3 AUX && is_done_windows (get_from input 3) then true
      else if eq_ic in3 NUL && is_done_windows (get_from input 3) then true
      else if eq_ic in3 PRN && is_done_windows (get_from input 3) then true
      else if eq_ic in3 COM && opt_is (get input 3) (λ n, (49 <=? n) && (n <=? 57))
              && is_done_windows (get_from input 4) then true
      else if eq_ic in3 LPT && opt_is (get input 3) is_ascii_digit
              && is_done_windows (get_from input 4) then true
      else if eq_ic in3 CON
              && (is_done_windows (get_from input 3)
                  || (opt_is (get_range input 3 6) (λ n, eq_ic n IN_D)
                      && is_done_windows (get_from input 6))
                  || (opt_is (get_range input 3 7) (λ n, eq_ic n OUT_D)
                      && is_done_windows (get_from input 7))) then true
      else false
  end.

Definition illegal_windows : bytes := [58; 60; 62; 34; 124; 63; 42].
Definition check_win_devices_and_illegal_characters (input : bytes) : option component_error :=
  if is_win_device input then Some WindowsReservedName
  else if existsb (λ b, (b <? 32) || existsb (λ c, c =? b) illegal_windows) input
  then Some WindowsIllegalCharacter
  else if bool_decide (list.last input = Some 46) || bool_decide (list.last input = Some 32)
  then Some WindowsIllegalCharacter
  else None.

Definition ignorable : list Z :=
  [0x200c; 0x200d; 0x200e; 0x200f; 0x202a; 0x202b; 0x202c; 0x202d; 0x202e;
   0x206a; 0x206b; 0x206c; 0x206d; 0x206e; 0x206f; 0xfeff].

(** The [loop] over [(comp.next(), input.next())]. *)
Fixpoint hfs_loop (comp input : list Z) : bool :=
  match comp, input with
  | a :: comp, b :: input => if negb (lower a =? lower b) then false else hfs_loop comp input
  | [], [] => true
  | _, _ => false
  end.
Definition is_dot_hfs (chars : bytes → list Z) (input search_case_insensitive : bytes) : bool :=
  match filter (λ c, c ∉ ignorable) (chars input) with
  | 46 :: input => hfs_loop search_case_insensitive input
  | _ => false
  end.

Definition is_dot_git_ntfs (input : bytes) : bool :=
  if opt_is (get_range input 0 4) (λ input, eq_ic input (46 :: GIT))
  then is_done_ntfs (get_from input 4)
  else if opt_is (get_range input 0 5) (λ input, eq_ic input GIT_TILDE)
  then is_done_ntfs (get_from input 5)
  else false.

(** [while pos < 8]: each round advances [pos], so eight rounds of fuel suffice.
    [None] is [return false]; [Some pos] leaves the loop. *)
Fixpoint shortname_loop (fuel : nat) (input prefix : bytes) (saw_tilde : bool) (pos : Z)
    : option Z :=
  match fuel with
  | O => Some pos
  | S fuel =>
      if pos <? 8 then
        match get input pos with
        | None => None
        | Some b =>
            if saw_tilde then
              if negb (is_ascii_digit b) then None
              else shortname_loop fuel input prefix true (pos + 1)
            else if b =? 126 then
              match get input (pos + 1) with
              | None => None
              | Some b =>
                  if negb ((49 <=? b) && (b <=? 57)) then None
                  else shortname_loop fuel input prefix true (pos + 1 + 1)
              end
            else if (6 <=? pos) || (Z.land b 128 =? 128)
                    || (match get prefix pos with
                        | None => true
                        | Some ob => negb (lower b =? lower ob)
                        end)
            then None
            else shortname_loop fuel input prefix false (pos + 1)
        end
      else Some pos
  end.

Definition is_dot_ntfs (input search_case_insensitive ntfs_shortname_prefix : bytes) : bool :=
  if bool_decide (head input = Some 46) then
    let end_pos := 1 + zlen search_case_insensitive in
    if opt_is (get_range input 1 end_pos) (λ input, eq_ic input search_case_insensitive)
    then is_done_ntfs (get_from input end_pos)
    else false
  else if
    match get_range search_case_insensitive 0 6, get_range input 0 6 with
    | Some ntfs_prefix, Some first_6_of_input =>
        eq_ic first_6_of_input ntfs_prefix
        && bool_decide (get input 6 = Some 126)
        && opt_is (get input 7) (λ num, (49 <=? num) && (num <=? 52))
    | _, _ => false
    end
  then is_done_ntfs (get_from input 8)
  else
    match shortname_loop 8 input ntfs_shortname_prefix false 0 with
    | None => false
    | Some pos => is_done_ntfs (get_from input pos)
    end.

Definition component (chars : bytes → list Z) (input : bytes) (mode : option Mode)
    (o : Options) : outcome component_error bytes :=
  if zlen input =? 0 then Err Empty
  else if bytes_eqb input [46; 46] || bytes_eqb input [46] then Err Relative
  else
    _ ← (if protect_windows o then
           if existsb (λ b, (b =? 47) || (b =? 92)) input then Err PathSeparator
           else if bool_decide (chars input !! 1%nat = Some 58) then Err WindowsPathPrefix
           else Ok tt
         else if existsb (λ b, b =? 47) input then Err PathSeparator else Ok tt);
    _ ← (if protect_hfs o then
           if is_dot_hfs chars input GIT then Err DotGitDir
           else if is_symlink mode && is_dot_hfs chars input GITMODULES
           then Err SymlinkedGitModules
           else Ok tt
         else Ok tt);
    _ ← (if protect_ntfs o then
           if is_dot_git_ntfs input then Err DotGitDir
           else if is_symlink mode && is_dot_ntfs input GITMODULES GI7EBA
           then Err SymlinkedGitModules
           else if protect_windows o then
             match check_win_devices_and_illegal_characters input with
             | Some err => Err err
             | None => Ok tt
             end
           else Ok tt
         else Ok tt);
    _ ← (if negb (protect_hfs o || protect_ntfs o) then
           if eq_ic input (46 :: GIT) then Err DotGitDir
           else if is_symlink mode && eq_ic input (46 :: GITMODULES)
           then Err SymlinkedGitModules
           else Ok tt
         else Ok tt);
    Ok input.

(** ** Specification *)

(** Equal but for ASCII case. *)
Definition same (a b : bytes) : Prop := lower <$> a = lower <$> b.

(** What NTFS and Windows ignore at the end of a name. *)
Definition ntfs_tail (r : bytes) : Prop :=
  ∃ j k, r = j ++ k ∧ Forall (λ b, b = 32 ∨ b = 46) j ∧ (k = [] ∨ head k = Some 58).
Definition windows_tail (r : bytes) : Prop :=
  ∃ j k, r = j ++ k ∧ Forall (λ b, b = 32) j ∧ (k = [] ∨ head k = Some 46 ∨ head k = Some 58).
(** [input] is [base], whatever its case, and a tail that is ignored. *)
Definition named (tail : bytes → Prop) (input base : bytes) : Prop :=
  ∃ b r, input = b ++ r ∧ same b base ∧ tail r.

Definition windows_devices : list bytes :=
  [AUX; NUL; PRN; CON; CON ++ IN_D; CON ++ OUT_D]
  ++ ((λ d, COM ++ [d]) <$> seqZ 49 9) ++ ((λ d, LPT ++ [d]) <$> seqZ 48 10).
Definition windows_device (input : bytes) : Prop :=
  ∃ base, base ∈ windows_devices ∧ named windows_tail input base.

(** [.gitmodules], its first four short names, and the hashed short names that
    NTFS falls back to: a part of [prefix], a tilde and a number, in 8 bytes. *)
Definition hashed_short_name (prefix s : bytes) : Prop :=
  ∃ k b d ds, s = b ++ 126 :: d :: ds ∧ same b (take k prefix) ∧ length b = k ∧
    49 ≤ d ≤ 57 ∧ Forall (λ d, 48 ≤ d ≤ 57) ds ∧ length s = 8%nat.
Definition ntfs_alias (input search prefix : bytes) : Prop :=
  named ntfs_tail input (46 :: search) ∨
  (∃ d, 49 ≤ d ≤ 52 ∧ named ntfs_tail input (take 6 search ++ [126; d])) ∨
  (∃ s r, input = s ++ r ∧ hashed_short_name prefix s ∧ ntfs_tail r).

(** ** Lemmas: tails *)
Lemma done_ntfs_spec r : done_ntfs_loop r = true ↔ ntfs_tail r.
Proof.
  unfold ntfs_tail. split.
  - induction r as [|b r IH]; cbn [done_ntfs_loop]; intros H.
    + exists [], []. auto.
    + destruct (Z.eqb_spec b 58) as [->|]; [exists [], (58 :: r); auto|].
      destruct (negb (b =? 32) && negb (b =? 46)) eqn:E; [done|].
      destruct (IH H) as (j & k & -> & Hj & Hk). exists (b :: j), k. split; [done|].
      split; [|done]. constructor; [|done]. zb; try done; auto.
  - intros (j & k & -> & Hj & Hk). induction Hj as [|b j Hb Hj IH]; cbn [done_ntfs_loop app].
    + destruct k as [|b k]; [done|]. destruct Hk as [|[= ->]]; done.
    + by destruct Hb as [-> | ->].
Qed.

Lemma done_windows_spec r : is_done_windows (Some r) = true ↔ windows_tail r.
Proof.
  unfold is_done_windows, windows_tail.
  assert (Hget : ∀ b r, get (b :: r) (1 + count_spaces r) = get r (count_spaces r)).
  { intros b k. assert (0 ≤ count_spaces k) by (induction k as [|c k]; simpl; [done|]; case_match; lia).
    unfold get. zb; try lia. by replace (Z.to_nat _) with (S (Z.to_nat (count_spaces k))) by lia. }
  split.
  - induction r as [|b r IH]; cbn [count_spaces]; intros H; [exists [], []; auto|].
    destruct (Z.eqb_spec b 32) as [->|Hb].
    + rewrite Hget in H. destruct (IH H) as (j & k & -> & Hj & Hk). exists (32 :: j), k. auto.
    + exists [], (b :: r). split; [done|]. split; [constructor|]. right. simpl.
      change (get (b :: r) 0) with (Some b) in H. cbn [opt_is] in H.
      apply orb_true_iff in H. rewrite !Z.eqb_eq in H. naive_solver.
  - intros (j & k & -> & Hj & Hk). induction Hj as [|b j -> Hj IH]; cbn [count_spaces app].
    + destruct k as [|b k]; [done|]. cbn [count_spaces]. simpl in Hk.
      destruct Hk as [Hk|Hk]; [done|]. destruct (Z.eqb_spec b 32) as [->|]; [naive_solver|].
      change (get (b :: k) 0) with (Some b). cbn [opt_is]. rewrite orb_true_iff, !Z.eqb_eq. naive_solver.
    + rewrite Z.eqb_refl, Hget. apply IH.
Qed.

(** ** Lemmas: prefixes, whatever their case *)
Lemma eq_ic_spec a b : eq_ic a b = true ↔ same a b.
Proof. apply bool_decide_eq_true. Qed.
Lemma same_length a b : same a b → length a = length b.
Proof. intros H. apply (f_equal length) in H. by rewrite !length_fmap in H. Qed.
Lemma same_app a a' b b' : length a = length b → same (a ++ a') (b ++ b') ↔ same a b ∧ same a' b'.
Proof.
  intros Hl. unfold same. rewrite !fmap_app. split; [|by intros [-> ->]].
  intros H. apply app_inj_1 in H; [done|]. by rewrite !length_fmap.
Qed.

(** A test on the slice [i..j] and on what follows it. *)
Lemma slice_cases (input : bytes) i j :
  0 ≤ i ≤ j →
  (zlen input < j ∧ get_range input i j = None) ∨
  (∃ a b c, input = a ++ b ++ c ∧ zlen a = i ∧ zlen b = j - i ∧
     get_range input i j = Some b ∧ get_from input j = Some c).
Proof.
  intros Hij. destruct (Z.lt_ge_cases (zlen input) j) as [Hlt|Hge].
  - left. split; [done|]. by apply get_range_None.
  - right. exists (take (Z.to_nat i) input), (take (Z.to_nat (j - i)) (drop (Z.to_nat i) input)),
      (drop (Z.to_nat j) input).
    rewrite get_range_in, get_from_in by lia. unfold zlen in *.
    replace (Z.to_nat j) with (Z.to_nat i + Z.to_nat (j - i))%nat by lia.
    rewrite <- drop_drop, take_drop, take_drop. rewrite !length_take, length_drop.
    repeat split; lia.
Qed.

Lemma prefix_test tail (f : option bytes → bool) (input base : bytes) :
  (∀ r, f (Some r) = true ↔ tail r) →
  opt_is (get_range input 0 (zlen base)) (λ b, eq_ic b base) && f (get_from input (zlen base)) = true
    ↔ named tail input base.
Proof.
  intros Hf. unfold named. pose proof (zlen_nonneg base).
  destruct (slice_cases input 0 (zlen base) ltac:(lia)) as [[Hlt ->]|(a & b & c & -> & Ha & Hb & -> & ->)].
  - split; [done|]. intros (b & r & -> & Hs%same_length & _). unfold zlen in Hlt.
    rewrite length_app in Hlt. lia.
  - assert (a = []) as -> by (destruct a; [done|]; rewrite zlen_cons in Ha; pose proof (zlen_nonneg a); lia).
    cbn [opt_is app]. rewrite andb_true_iff, eq_ic_spec, Hf. split; [eauto|].
    intros (b' & r & Heq & Hs & Hr). apply app_inj_1 in Heq as [-> ->]; [done|].
    apply same_length in Hs. unfold zlen in Hb. lia.
Qed.

Lemma named_app tail (a r base ext : bytes) :
  length a = length base →
  named tail (a ++ r) (base ++ ext) ↔ same a base ∧ named tail r ext.
Proof.
  intros Hl. unfold named. split.
  - intros (b & t & Heq & Hs & Ht).
    assert (length base ≤ length b)%nat as Hb by (apply same_length in Hs; rewrite length_app in Hs; lia).
    rewrite <- (take_drop (length base) b) in Heq, Hs. rewrite <- app_assoc in Heq.
    assert (length (take (length base) b) = length base) as Hlen by (rewrite length_take; lia).
    apply app_inj_1 in Heq as [-> ->]; [|lia]. apply same_app in Hs as [Hs1 Hs2]; [|done].
    split; [exact Hs1|]. exists (drop (length base) b), t. done.
  - intros (Hs & b & t & -> & Hb & Ht). exists (a ++ b), t. rewrite <- app_assoc.
    split; [done|]. split; [|done]. by apply same_app.
Qed.
Lemma named_nil tail r : named tail r [] ↔ tail r.
Proof.
  unfold named. split.
  - intros (b & t & -> & Hs%same_length & Ht). by destruct b.
  - intros Ht. by exists [], r.
Qed.
(** Digits have no case. *)
Lemma lower_id c : ¬ 65 ≤ c ≤ 90 → ¬ 97 ≤ c ≤ 122 → ∀ b, lower b = c ↔ b = c.
Proof. intros ? ? b. unfold lower. split; zb; lia. Qed.
Lemma named_byte tail r d :
  48 ≤ d ≤ 57 → named tail r [d] ↔ ∃ t, r = d :: t ∧ tail t.
Proof.
  intros Hd. unfold named, same. split.
  - intros (b & t & -> & Hs & Ht). destruct b as [|c [|]]; try done. injection Hs as Hc.
    assert (lower d = d) as Hdd by (apply lower_id; lia). rewrite Hdd in Hc.
    rewrite (lower_id d) in Hc by lia. subst c. by exists t.
  - intros (t & -> & Ht). by exists [d], t.
Qed.

Lemma get_app_off {A} (a r : list A) i : 0 ≤ i → get (a ++ r) (zlen a + i) = get r i.
Proof.
  intros Hi. unfold get, zlen. zb; try lia.
  rewrite lookup_app_r by lia. f_equal. lia.
Qed.
Lemma get_range_app_off {A} (a r : list A) i j :
  0 ≤ i → get_range (a ++ r) (zlen a + i) (zlen a + j) = get_range r i j.
Proof.
  intros Hi. unfold get_range. rewrite zlen_app. pose proof (zlen_nonneg a). zb; try lia; [|done..].
  f_equal. replace (zlen a + j - (zlen a + i)) with (j - i) by lia. f_equal.
  replace (Z.to_nat (zlen a + i)) with (length a + Z.to_nat i)%nat by (unfold zlen; lia).
  by rewrite <- drop_drop, drop_app_length.
Qed.
Lemma get_from_app_off {A} (a r : list A) i :
  0 ≤ i → get_from (a ++ r) (zlen a + i) = get_from r i.
Proof. intros. unfold get_from. by rewrite zlen_app, get_range_app_off. Qed.

Lemma digit_test (r : bytes) (p : Z → bool) :
  opt_is (get r 0) p && is_done_windows (get_from r 1) = true ↔
  ∃ d t, r = d :: t ∧ p d = true ∧ windows_tail t.
Proof.
  destruct r as [|d t].
  - split; [done|]. by intros (? & ? & ? & _).
  - change (get (d :: t) 0) with (Some d). rewrite get_from_in by (rewrite zlen_cons; pose proof (zlen_nonneg t); lia).
    change (drop (Z.to_nat 1) (d :: t)) with t. cbn [opt_is].
    rewrite andb_true_iff, done_windows_spec. naive_solver.
Qed.

(** The device names, by the three bytes they start with. *)
Lemma windows_device_split (a r : bytes) :
  length a = 3%nat →
  windows_device (a ++ r) ↔
    (same a AUX ∧ windows_tail r) ∨ (same a NUL ∧ windows_tail r) ∨ (same a PRN ∧ windows_tail r) ∨
    (same a COM ∧ ∃ d t, r = d :: t ∧ 49 ≤ d ≤ 57 ∧ windows_tail t) ∨
    (same a LPT ∧ ∃ d t, r = d :: t ∧ 48 ≤ d ≤ 57 ∧ windows_tail t) ∨
    (same a CON ∧ (windows_tail r ∨ named windows_tail r IN_D ∨ named windows_tail r OUT_D)).
Proof.
  intros Ha. unfold windows_device, windows_devices.
  assert (H3 : ∀ base, length base = 3%nat →
    named windows_tail (a ++ r) base ↔ same a base ∧ windows_tail r).
  { intros base Hb. rewrite <- (app_nil_r base) at 1. rewrite named_app by lia. by rewrite named_nil. }
  assert (Hd : ∀ base d, length base = 3%nat → 48 ≤ d ≤ 57 →
    named windows_tail (a ++ r) (base ++ [d]) ↔ same a base ∧ ∃ t, r = d :: t ∧ windows_tail t).
  { intros base d Hb Hd. rewrite named_app by lia. by rewrite named_byte. }
  split.
  - intros (base & Hin & Hn). rewrite !elem_of_app, !list_elem_of_fmap in Hin.
    destruct Hin as [Hin|[(d & -> & Hin%elem_of_seqZ)|(d & -> & Hin%elem_of_seqZ)]].
    + rewrite !elem_of_cons, elem_of_nil in Hin.
      destruct Hin as [->|[->|[->|[->|[->|[->|[]]]]]]];
        rewrite ?H3, ?named_app in Hn by done; tauto.
    + rewrite Hd in Hn by (done || lia). destruct Hn as (? & t & -> & ?). do 3 right. left.
      split; [done|]. exists d, t. repeat split; done || lia.
    + rewrite Hd in Hn by (done || lia). destruct Hn as (? & t & -> & ?). do 4 right. left.
      split; [done|]. exists d, t. repeat split; done || lia.
  - assert (Hmem : ∀ base, base ∈ [AUX; NUL; PRN; CON; CON ++ IN_D; CON ++ OUT_D] →
      named windows_tail (a ++ r) base → ∃ base, base ∈ windows_devices ∧ named windows_tail (a ++ r) base).
    { intros base Hb Hn. exists base. split; [|done]. unfold windows_devices. rewrite elem_of_app. auto. }
    intros [H|[H|[H|[[Hs (d & t & -> & Hr & Ht)]|[[Hs (d & t & -> & Hr & Ht)]|[Hs H]]]]]].
    + apply (Hmem AUX); [set_solver|]. by apply H3.
    + apply (Hmem NUL); [set_solver|]. by apply H3.
    + apply (Hmem PRN); [set_solver|]. by apply H3.
    + exists (COM ++ [d]). split; [|apply Hd; eauto; lia]. rewrite !elem_of_app, !list_elem_of_fmap.
      right; left. exists d. split; [done|]. apply elem_of_seqZ. lia.
    + exists (LPT ++ [d]). split; [|apply Hd; eauto; lia]. rewrite !elem_of_app, !list_elem_of_fmap.
      right; right. exists d. split; [done|]. apply elem_of_seqZ. lia.
    + destruct H as [H|[H|H]].
      * apply (Hmem CON); [set_solver|]. by apply H3.
      * apply (Hmem (CON ++ IN_D)); [set_solver|]. by apply named_app.
      * apply (Hmem (CON ++ OUT_D)); [set_solver|]. by apply named_app.
Qed.

Lemma device_min_length input : windows_device input → 3 ≤ zlen input.
Proof.
  intros (base & Hin & b & r & -> & Hs%same_length & _).
  assert (3 ≤ length base)%nat.
  { unfold windows_devices in Hin. rewrite !elem_of_app, !list_elem_of_fmap, !elem_of_cons, elem_of_nil in Hin.
    destruct Hin as [[->|[->|[->|[->|[->|[->|[]]]]]]]|[(d & -> & _)|(d & -> & _)]]; simpl; lia. }
  unfold zlen. rewrite length_app. lia.
Qed.

Lemma is_win_device_spec input : is_win_device input = true ↔ windows_device input.
Proof.
  unfold is_win_device.
  destruct (slice_cases input 0 3 ltac:(lia)) as [[Hlt ->]|(e & a & r & -> & He & Ha & -> & Hr)].
  { split; [done|]. intros H%device_min_length. lia. }
  assert (e = []) as -> by (destruct e; [done|]; rewrite zlen_cons in He; pose proof (zlen_nonneg e); lia).
  cbn [app] in *. rewrite Hr. rewrite windows_device_split by (unfold zlen in Ha; lia).
  replace 3 with (zlen a + 0) by lia. replace 4 with (zlen a + 1) by lia.
  replace 6 with (zlen a + 3) by lia. replace 7 with (zlen a + 4) by lia.
  rewrite !get_app_off, !get_range_app_off, !get_from_app_off by lia.
  assert (Hif : ∀ (c d : bool), (if c then true else d) = true ↔ c = true ∨ d = true) by (intros [] []; naive_solver).
  rewrite !Hif. rewrite <- !andb_assoc, !(andb_true_iff (eq_ic _ _)), !eq_ic_spec, !digit_test.
  rewrite !orb_true_iff, (prefix_test windows_tail is_done_windows r IN_D done_windows_spec),
    (prefix_test windows_tail is_done_windows r OUT_D done_windows_spec), done_windows_spec.
  unfold is_ascii_digit. setoid_rewrite andb_true_iff. setoid_rewrite Z.leb_le.
  split; naive_solver.
Qed.

(** ** Lemmas: names that NTFS takes for [.git] and [.gitmodules] *)
Lemma done_ntfs_some r : is_done_ntfs (Some r) = true ↔ ntfs_tail r.
Proof. apply done_ntfs_spec. Qed.

Lemma named_head tail input base c d :
  named tail input (c :: base) → head input = Some d → lower d = lower c.
Proof. intros (b & r & -> & Hs & _) Hh. destruct b as [|x b]; [done|]. injection Hs as ?. by injection Hh as <-. Qed.

Lemma is_dot_git_ntfs_spec input :
  is_dot_git_ntfs input = true ↔ named ntfs_tail input (46 :: GIT) ∨ named ntfs_tail input GIT_TILDE.
Proof.
  unfold is_dot_git_ntfs.
  rewrite <- (prefix_test ntfs_tail is_done_ntfs input (46 :: GIT) done_ntfs_some).
  rewrite <- (prefix_test ntfs_tail is_done_ntfs input GIT_TILDE done_ntfs_some).
  change (zlen (46 :: GIT)) with 4. change (zlen GIT_TILDE) with 5. rewrite !andb_true_iff.
  destruct (opt_is _ (λ b, eq_ic b (46 :: GIT))) eqn:E1;
    [|destruct (opt_is _ (λ b, eq_ic b GIT_TILDE)); intuition congruence].
  destruct (opt_is _ (λ b, eq_ic b GIT_TILDE)) eqn:E2; [|intuition congruence].
  exfalso. destruct (get_range input 0 4) as [u|] eqn:Hu; [|done].
  destruct (get_range input 0 5) as [v|] eqn:Hv; [|done]. cbn [opt_is] in E1, E2.
  apply eq_ic_spec in E1, E2. apply get_range_Some in Hu as (_ & _ & _ & ->), Hv as (_ & _ & _ & ->).
  destruct input as [|x input]; [done|]. injection E1 as E1 _. injection E2 as E2 _. rewrite E1 in E2. done.
Qed.

Lemma digits_loop fuel : ∀ p rest prefix,
  (length p ≤ 8)%nat → (8 ≤ length p + fuel)%nat →
  (shortname_loop fuel (p ++ rest) prefix true (zlen p) = Some 8 ∧
     ∃ ds t, rest = ds ++ t ∧ (length p + length ds = 8)%nat ∧ Forall (λ d, 48 ≤ d ≤ 57) ds) ∨
  (shortname_loop fuel (p ++ rest) prefix true (zlen p) = None ∧
     ¬ ∃ ds t, rest = ds ++ t ∧ (length p + length ds = 8)%nat ∧ Forall (λ d, 48 ≤ d ≤ 57) ds).
Proof.
  induction fuel as [|fuel IH]; intros p rest prefix Hp Hf; cbn [shortname_loop].
  { left. split; [f_equal; unfold zlen; lia|]. exists [], rest. repeat split; [simpl; lia|constructor]. }
  destruct (Z.ltb_spec (zlen p) 8) as [Hlt|Hge].
  2: { left. split; [f_equal; unfold zlen in *; lia|]. exists [], rest.
       unfold zlen in Hge. repeat split; [simpl; lia|constructor]. }
  unfold zlen in Hlt. destruct rest as [|b rest].
  { rewrite app_nil_r, get_None by lia. right. split; [done|].
    intros ([|? ds] & t & He & Hl & _); [simpl in Hl; lia|done]. }
  rewrite get_app_mid. unfold is_ascii_digit.
  destruct (negb _) eqn:Ed.
  - right. split; [done|]. intros ([|d ds] & t & He & Hl & Hd); [simpl in Hl; lia|].
    injection He as <- _. apply list.Forall_cons in Hd as [Hd _].
    apply negb_true_iff in Ed. zb; done || lia.
  - replace (zlen p + 1) with (zlen (p ++ [b])) by (rewrite zlen_app; done).
    rewrite cons_middle, app_assoc.
    assert (Hlen : length (p ++ [b]) = S (length p)) by (rewrite length_app; simpl; lia).
    destruct (IH (p ++ [b]) rest prefix) as [[-> H]|[-> H]]; [lia|lia|left|right]; (split; [done|]).
    + destruct H as (ds & t & -> & Hl & Hd). exists (b :: ds), t. simpl.
      split; [done|]. split; [lia|]. constructor; [|done]. apply negb_false_iff in Ed. zb; done || lia.
    + intros ([|d ds] & t & He & Hl & Hd); [simpl in Hl; lia|]. injection He as <- ->.
      apply list.Forall_cons in Hd as [_ Hd]. apply H. exists ds, t. simpl in Hl. split; [done|]. split; [lia|done].
Qed.

(** What is left of a hashed short name after [p], a part of the prefix. *)
Definition short_rest (prefix p rest : bytes) : Prop :=
  ∃ b d ds t, rest = b ++ 126 :: d :: ds ++ t ∧ same b (take (length b) (drop (length p) prefix)) ∧
    49 ≤ d ≤ 57 ∧ Forall (λ d, 48 ≤ d ≤ 57) ds ∧ (length p + length b + 2 + length ds = 8)%nat.

Lemma short_rest_tilde prefix p rest :
  Forall (λ c, lower c ≠ 126) prefix →
  short_rest prefix p (126 :: rest) ↔
  ∃ d r, rest = d :: r ∧ 49 ≤ d ≤ 57 ∧
    ∃ ds t, r = ds ++ t ∧ (length (p ++ [126%Z; d]) + length ds = 8)%nat ∧ Forall (λ d, 48 ≤ d ≤ 57) ds.
Proof.
  intros Hpre. rewrite list.Forall_forall in Hpre. unfold short_rest. split.
  - intros (b & d & ds & t & He & Hs & Hd & Hds & Hl). destruct b as [|x b].
    + injection He as ->. exists d, (ds ++ t). split; [done|]. split; [done|]. exists ds, t.
      rewrite length_app. simpl in *. split; [done|]. split; [lia|done].
    + injection He as <- _. exfalso. destruct (drop (length p) prefix) as [|y q] eqn:Hq; [done|].
      injection Hs as Hs _. change (lower 126) with 126 in Hs. apply (Hpre y); [|done].
      rewrite <- (take_drop (length p) prefix), Hq. set_solver.
  - intros (d & r & -> & Hd & ds & t & -> & Hl & Hds). exists [], d, ds, t.
    rewrite length_app in Hl. simpl in *. repeat split; try done; lia.
Qed.
Lemma short_rest_other prefix p c rest :
  c ≠ 126 →
  short_rest prefix p (c :: rest) ↔
  (∃ y, prefix !! length p = Some y ∧ lower c = lower y) ∧ short_rest prefix (p ++ [c]) rest.
Proof.
  intros Hc. unfold short_rest. split.
  - intros (b & d & ds & t & He & Hs & Hd & Hds & Hl). destruct b as [|x b]; [injection He as -> _; done|].
    injection He as <- ->. destruct (drop (length p) prefix) as [|y q] eqn:Hq; [done|].
    injection Hs as Hy Hs. split.
    + exists y. split; [|done]. rewrite <- (Nat.add_0_r (length p)), <- lookup_drop, Hq. done.
    + exists b, d, ds, t. rewrite length_app. simpl in *.
      rewrite <- drop_drop, Hq. simpl. repeat split; try done; lia.
  - intros ((y & Hy & Hcy) & b & d & ds & t & -> & Hs & Hd & Hds & Hl).
    exists (c :: b), d, ds, t. rewrite length_app in *. simpl in *.
    rewrite (drop_S _ _ _ Hy). simpl. rewrite Nat.add_1_r in Hs.
    split; [done|]. split; [unfold same in *; by rewrite !fmap_cons, Hcy, Hs|].
    split; [done|]. split; [done|lia].
Qed.

Lemma ascii_land b y : 0 ≤ y < 128 → lower b = lower y → Z.land b 128 =? 128 = false.
Proof.
  intros Hy Hb. assert (0 ≤ b < 128) by (unfold lower in Hb; zb; lia).
  rewrite land_128 by (unfold is_byte; lia). by destruct (Z.ltb_spec b 128); [|lia].
Qed.

Lemma shortname_loop_spec fuel : ∀ p rest prefix,
  length prefix = 6%nat → Forall (λ c, 0 ≤ c < 128 ∧ lower c ≠ 126) prefix →
  (length p ≤ 6)%nat → (8 ≤ length p + fuel)%nat →
  (shortname_loop fuel (p ++ rest) prefix false (zlen p) = Some 8 ∧ short_rest prefix p rest) ∨
  (shortname_loop fuel (p ++ rest) prefix false (zlen p) = None ∧ ¬ short_rest prefix p rest).
Proof.
  induction fuel as [|fuel IH]; intros p rest prefix Hl6 Hpre Hp Hf; [lia|]. cbn [shortname_loop].
  assert (zlen p <? 8 = true) as -> by (unfold zlen; apply Z.ltb_lt; lia).
  destruct rest as [|c rest].
  { rewrite app_nil_r, get_None by lia. right. split; [done|].
    intros ([|] & d & ds & t & He & _); done. }
  rewrite get_app_mid. destruct (Z.eqb_spec c 126) as [->|Hc].
  - rewrite short_rest_tilde by (eapply Forall_impl; [|exact Hpre]; naive_solver).
    destruct rest as [|d r].
    { rewrite get_None by (rewrite zlen_app; done). right. split; [done|]. by intros (? & ? & ? & _). }
    rewrite cons_middle, app_assoc. replace (zlen p + 1) with (zlen (p ++ [126])) by (by rewrite zlen_app).
    rewrite get_app_mid. rewrite cons_middle, app_assoc, <- (app_assoc p). cbn [app].
    replace (zlen (p ++ [126]) + 1) with (zlen (p ++ [126; d]))
      by (unfold zlen; rewrite !length_app; simpl; lia).
    destruct (negb _) eqn:Ed.
    + right. split; [done|]. intros (d' & r' & [= <- <-] & Hd & _).
      apply negb_true_iff in Ed. zb; done || lia.
    + assert (49 ≤ d ≤ 57) by (apply negb_false_iff in Ed; zb; done || lia).
      destruct (digits_loop fuel (p ++ [126; d]) r prefix) as [[-> H1]|[-> H1]];
        [rewrite length_app; simpl; lia..|left|right]; naive_solver.
  - rewrite short_rest_other by done.
    destruct (prefix !! length p) as [y|] eqn:Hy.
    + assert (0 ≤ y < 128 ∧ lower y ≠ 126) as [Hy128 _]
        by (rewrite list.Forall_forall in Hpre; apply Hpre; by eapply list_elem_of_lookup_2).
      assert (length p < 6)%nat by (apply lookup_lt_Some in Hy; lia).
      assert (6 <=? zlen p = false) as -> by (unfold zlen; apply Z.leb_gt; lia).
      replace (get prefix (zlen p)) with (Some y) by (unfold zlen; by rewrite get_nat).
      destruct (Z.eqb_spec (lower c) (lower y)) as [Heq|Hne].
      * rewrite (ascii_land c y) by done. cbn [orb negb].
        rewrite cons_middle, app_assoc. replace (zlen p + 1) with (zlen (p ++ [c])) by (by rewrite zlen_app).
        destruct (IH (p ++ [c]) rest prefix) as [[-> H1]|[-> H1]];
          [done|done|rewrite length_app; simpl; lia..|left|right]; naive_solver.
      * cbn [negb]. rewrite orb_true_r. right. naive_solver.
    + assert (6 <=? zlen p = true) as ->.
      { apply lookup_ge_None in Hy. unfold zlen. apply Z.leb_le. lia. }
      right. naive_solver.
Qed.

Lemma hashed_short_rest prefix input :
  (∃ s r, input = s ++ r ∧ hashed_short_name prefix s ∧ ntfs_tail r) ↔
  short_rest prefix [] input ∧ is_done_ntfs (get_from input 8) = true.
Proof.
  assert (Htail : ∀ s r : bytes, length s = 8%nat → get_from (s ++ r) 8 = Some r).
  { intros s r Hs. rewrite get_from_in by (rewrite zlen_app; pose proof (zlen_nonneg r); unfold zlen in *; lia).
    f_equal. change (Z.to_nat 8) with 8%nat. by rewrite <- Hs, drop_app_length. }
  unfold hashed_short_name, short_rest. split.
  - intros (s & r & -> & (k & b & d & ds & -> & Hb & <- & Hd & Hds & Hl) & Hr). split.
    + exists b, d, ds, r. rewrite <- app_assoc. split; [done|]. split; [done|]. split; [done|].
      split; [done|]. rewrite length_app in Hl. simpl in *. lia.
    + rewrite Htail by done. by apply done_ntfs_some.
  - intros [(b & d & ds & t & -> & Hb & Hd & Hds & Hl) Ht].
    assert (length (b ++ 126 :: d :: ds) = 8%nat) as Hl8 by (rewrite length_app; simpl in *; lia).
    exists (b ++ 126 :: d :: ds), t. rewrite <- app_assoc. split; [done|]. split.
    + exists (length b), b, d, ds. done.
    + replace (b ++ 126 :: d :: ds ++ t) with ((b ++ 126 :: d :: ds) ++ t) in Ht by (by rewrite <- app_assoc).
      rewrite Htail in Ht by done. by apply done_ntfs_some.
Qed.

(** The first four short names: the test on the first eight bytes. *)
Definition short_name_test (input prefix : bytes) : bool :=
  match get_range input 0 6 with
  | Some first_6_of_input =>
      eq_ic first_6_of_input prefix
      && bool_decide (get input 6 = Some 126)
      && opt_is (get input 7) (λ num, (49 <=? num) && (num <=? 52))
  | None => false
  end.
Lemma short_name_test_spec input prefix :
  length prefix = 6%nat →
  short_name_test input prefix = true ↔
  ∃ a d r, input = a ++ 126 :: d :: r ∧ same a prefix ∧ 49 ≤ d ≤ 52.
Proof.
  intros Hp. unfold short_name_test.
  destruct (slice_cases input 0 6 ltac:(lia)) as [[Hlt ->]|(e & a & r & -> & He & Ha & -> & _)].
  { split; [done|]. intros (a & d & r & -> & Hs%same_length & _). unfold zlen in Hlt.
    rewrite length_app in Hlt. lia. }
  assert (e = []) as -> by (destruct e; [done|]; rewrite zlen_cons in He; pose proof (zlen_nonneg e); lia).
  cbn [app]. replace 6 with (zlen a + 0) by lia. replace 7 with (zlen a + 1) by lia.
  rewrite !get_app_off, !andb_true_iff, eq_ic_spec, bool_decide_eq_true by lia. split.
  - intros [[Hs Ht] Hd]. destruct r as [|x [|d r]]; [done|done|].
    injection Ht as ->. exists a, d, r. split; [done|]. split; [done|].
    change (get (126 :: d :: r) 1) with (Some d) in Hd. cbn [opt_is] in Hd. zb; done || lia.
  - intros (a' & d & r' & Heq & Hs & Hd). apply app_inj_1 in Heq as [-> ->].
    + split; [done|]. change (get (126 :: d :: r') 1) with (Some d). cbn [opt_is]. zb; done || lia.
    + apply same_length in Hs. unfold zlen in Ha. lia.
Qed.

Lemma short_name_named input prefix :
  length prefix = 6%nat →
  (∃ d, 49 ≤ d ≤ 52 ∧ named ntfs_tail input (prefix ++ [126; d])) ↔
  short_name_test input prefix = true ∧ is_done_ntfs (get_from input 8) = true.
Proof.
  intros Hp. rewrite short_name_test_spec by done.
  assert (Htail : ∀ (a : bytes) d (r : bytes), same a prefix → get_from (a ++ 126 :: d :: r) 8 = Some r).
  { intros a d r Ha%same_length. rewrite get_from_in
      by (rewrite zlen_app, !zlen_cons; pose proof (zlen_nonneg r); unfold zlen in *; lia).
    f_equal. change (Z.to_nat 8) with (6 + 2)%nat. rewrite <- Hp, <- Ha, <- drop_drop.
    by rewrite drop_app_length. }
  split.
  - intros (d & Hd & b & r & -> & Hb & Hr). unfold same in Hb. rewrite fmap_app in Hb.
    apply fmap_app_inv in Hb as (a & e & Ha & He & ->).
    destruct e as [|x [|y [|]]]; try done. injection He as Hx Hy.
    change (lower 126) with 126 in Hx. symmetry in Hx, Hy, Ha. rewrite (lower_id 126) in Hx by lia.
    assert (lower d = d) as Hdd by (apply lower_id; lia). rewrite Hdd, (lower_id d) in Hy by lia. subst.
    rewrite <- app_assoc. cbn [app]. rewrite Htail by done. split; [|by apply done_ntfs_some].
    exists a, d, r. done.
  - intros [(a & d & r & -> & Ha & Hd) Ht]. rewrite Htail in Ht by done. exists d. split; [done|].
    exists (a ++ [126; d]), r. rewrite <- app_assoc. split; [done|]. split; [|by apply done_ntfs_some].
    apply same_app; [by apply same_length|done].
Qed.

(** No name that starts with a dot is a short name. *)
Lemma dot_not_short r :
  (∃ d, 49 ≤ d ≤ 52 ∧ named ntfs_tail (46 :: r) (take 6 GITMODULES ++ [126; d])) ∨
  (∃ s t, 46 :: r = s ++ t ∧ hashed_short_name GI7EBA s ∧ ntfs_tail t) → False.
Proof.
  intros [(d & _ & Hn)|(s & t & Heq & (k & b & d & ds & -> & Hb & Hk & _) & _)].
  - by apply (named_head _ _ _ _ 46) in Hn.
  - destruct b as [|x b]; [done|]. injection Heq as <- _. destruct k as [|k]; [done|].
    by injection Hb.
Qed.

Lemma is_dot_ntfs_spec input :
  is_dot_ntfs input GITMODULES GI7EBA = true ↔ ntfs_alias input GITMODULES GI7EBA.
Proof.
  unfold is_dot_ntfs, ntfs_alias. destruct (bool_decide_reflect (head input = Some 46)) as [Hh|Hh].
  - destruct input as [|x r]; [done|]. injection Hh as ->.
    change (46 :: r) with ([46] ++ r). change (1 + zlen GITMODULES) with (zlen [46] + zlen GITMODULES).
    change 1 with (zlen [46] + 0). rewrite get_range_app_off, get_from_app_off by done.
    change (46 :: GITMODULES) with ([46] ++ GITMODULES). rewrite named_app by done.
    rewrite <- (prefix_test ntfs_tail is_done_ntfs r GITMODULES done_ntfs_some).
    pose proof (dot_not_short r) as Hno. simpl app in *. rewrite andb_true_iff.
    destruct (opt_is _ _); unfold same; intuition congruence.
  - rewrite hashed_short_rest, short_name_named by done.
    assert (Hno : ¬ named ntfs_tail input (46 :: GITMODULES)).
    { intros (b & r & -> & Hs & _). destruct b as [|x b]; [done|]. injection Hs as Hx _.
      change (lower 46) with 46 in Hx. rewrite (lower_id 46) in Hx by lia. by subst. }
    change (get_range GITMODULES 0 6) with (Some (take 6 GITMODULES)).
    cbv iota beta. fold (short_name_test input (take 6 GITMODULES)).
    pose proof (shortname_loop_spec 8 [] input GI7EBA) as Hloop. cbn [app] in Hloop.
    change (zlen []) with 0 in Hloop.
    destruct Hloop as [[Hr Hs]|[Hr Hs]]; [done|by apply (bool_decide_unpack _)|simpl; lia|simpl; lia|..];
      rewrite Hr; destruct (short_name_test _ _); intuition congruence.
Qed.

(** ** Lemmas: HFS+ *)
Lemma hfs_loop_spec a : ∀ b, hfs_loop a b = true ↔ same b a.
Proof.
  induction a as [|x a IH]; intros [|y b]; cbn [hfs_loop]; unfold same; try done.
  rewrite !fmap_cons. destruct (Z.eqb_spec (lower x) (lower y)) as [E|E]; cbn [negb].
  - rewrite IH, E. unfold same. split; [by intros ->|by intros [= ->]].
  - split; [done|]. intros [= ? _]. congruence.
Qed.
Definition hfs_alias (chars : bytes → list Z) (input name : bytes) : Prop :=
  same (filter (λ c, c ∉ ignorable) (chars input)) name.
Lemma is_dot_hfs_spec chars input s :
  is_dot_hfs chars input s = true ↔ hfs_alias chars input (46 :: s).
Proof.
  unfold is_dot_hfs, hfs_alias. set (l := filter _ _). clearbody l. destruct l as [|x l]; [done|].
  unfold same. rewrite !fmap_cons. change (lower 46) with 46.
  destruct (decide (x = 46)) as [->|Hx].
  - rewrite hfs_loop_spec. unfold same. change (lower 46) with 46. split; [by intros ->|by intros [= ->]].
  - split; [|intros [= Hl _]; rewrite (lower_id 46) in Hl by lia; done].
    destruct x as [|x|x]; try done. repeat (destruct x as [x|x|]; try done).
Qed.

(** ** Properties *)

(** The names [component] lets through. *)
Record component_ok (chars : bytes → list Z) (mode : option Mode) (o : Options) (s : bytes)
    : Prop := {
  co_name : s ≠ [] ∧ s ≠ [46] ∧ s ≠ [46; 46];
  co_slash : 47 ∉ s;
  co_windows : protect_windows o = true → 92 ∉ s ∧ chars s !! 1%nat ≠ Some 58;
  co_hfs : protect_hfs o = true →
    ¬ hfs_alias chars s (46 :: GIT) ∧
    (mode = Some Symlink → ¬ hfs_alias chars s (46 :: GITMODULES));
  co_ntfs : protect_ntfs o = true →
    ¬ named ntfs_tail s (46 :: GIT) ∧ ¬ named ntfs_tail s GIT_TILDE ∧
    (mode = Some Symlink → ¬ ntfs_alias s GITMODULES GI7EBA);
  co_device : protect_ntfs o = true → protect_windows o = true →
    ¬ windows_device s ∧ Forall (λ b, 32 ≤ b ∧ b ∉ illegal_windows) s ∧
    list.last s ≠ Some 46 ∧ list.last s ≠ Some 32;
  co_plain : protect_hfs o = false → protect_ntfs o = false →
    ¬ same s (46 :: GIT) ∧ (mode = Some Symlink → ¬ same s (46 :: GITMODULES));
}.

Lemma existsb_byte (s : bytes) c : existsb (λ b, b =? c) s = true ↔ c ∈ s.
Proof.
  rewrite existsb_exists. setoid_rewrite <- list_elem_of_In. setoid_rewrite Z.eqb_eq. naive_solver.
Qed.
Lemma existsb_two (s : bytes) c d : existsb (λ b, (b =? c) || (b =? d)) s = true ↔ c ∈ s ∨ d ∈ s.
Proof.
  rewrite existsb_exists. setoid_rewrite <- list_elem_of_In. setoid_rewrite orb_true_iff.
  setoid_rewrite Z.eqb_eq. naive_solver.
Qed.
Lemma illegal_spec (s : bytes) :
  existsb (λ b, (b <? 32) || existsb (λ c, c =? b) illegal_windows) s = false ↔
  Forall (λ b, 32 ≤ b ∧ b ∉ illegal_windows) s.
Proof.
  rewrite <- not_true_iff_false, existsb_exists, list.Forall_forall.
  setoid_rewrite <- list_elem_of_In. setoid_rewrite orb_true_iff. setoid_rewrite existsb_byte.
  setoid_rewrite Z.ltb_lt. split.
  - intros H b Hb. destruct (Z.lt_ge_cases b 32); [naive_solver|]. split; [lia|naive_solver].
  - intros H (b & Hb & Hbad). destruct (H b Hb). naive_solver lia.
Qed.

Lemma check_win_spec s :
  (check_win_devices_and_illegal_characters s = None ∧
    ¬ windows_device s ∧ Forall (λ b, 32 ≤ b ∧ b ∉ illegal_windows) s ∧
    list.last s ≠ Some 46 ∧ list.last s ≠ Some 32) ∨
  ((∃ e, check_win_devices_and_illegal_characters s = Some e) ∧
   ¬ (¬ windows_device s ∧ Forall (λ b, 32 ≤ b ∧ b ∉ illegal_windows) s ∧
      list.last s ≠ Some 46 ∧ list.last s ≠ Some 32)).
Proof.
  unfold check_win_devices_and_illegal_characters. rewrite <- is_win_device_spec, <- illegal_spec.
  destruct (is_win_device s); [right; naive_solver|].
  destruct (existsb _ s); [right; naive_solver|].
  destruct (bool_decide_reflect (list.last s = Some 46)); [right; naive_solver|].
  destruct (bool_decide_reflect (list.last s = Some 32)); [right; naive_solver|left].
  split; [done|]. split; [done|]. auto.
Qed.

Lemma is_symlink_spec mode : is_symlink mode = true ↔ mode = Some Symlink.
Proof. apply bool_decide_eq_true. Qed.

(** A stage of [component]: it passes exactly when [P] holds, and else fails. *)
Definition stage (m : outcome component_error unit) (P : Prop) : Prop :=
  (m = Ok tt ∧ P) ∨ ((∃ e, m = Err e) ∧ ¬ P).

Lemma stage_bind {A} m P (k : outcome component_error A) (Q : A → Prop) (R : Prop) :
  stage m P →
  (P → (∃ a, k = Ok a ∧ Q a ∧ R) ∨ ((∃ e, k = Err e) ∧ ¬ R)) →
  (∃ a, (_ ← m; k) = Ok a ∧ Q a ∧ P ∧ R) ∨ ((∃ e, (_ ← m; k) = Err e) ∧ ¬ (P ∧ R)).
Proof.
  intros [[-> HP]|[[e ->] HP]] Hk; cbn [mbind outcome_bind].
  - destruct (Hk HP) as [(a & -> & ? & ?)|[[e ->] ?]]; [left|right]; naive_solver.
  - right. naive_solver.
Qed.

Section Stages.
Context (mode : option Mode) (o : Options) (s : bytes).

Lemma stage_ntfs :
  stage (if protect_ntfs o then
           if is_dot_git_ntfs s then Err DotGitDir
           else if is_symlink mode && is_dot_ntfs s GITMODULES GI7EBA
           then Err SymlinkedGitModules
           else if protect_windows o then
             match check_win_devices_and_illegal_characters s with
             | Some err => Err err
             | None => Ok tt
             end
           else Ok tt
         else Ok tt)
    ((protect_ntfs o = true → ¬ named ntfs_tail s (46 :: GIT) ∧ ¬ named ntfs_tail s GIT_TILDE ∧
       (mode = Some Symlink → ¬ ntfs_alias s GITMODULES GI7EBA)) ∧
     (protect_ntfs o = true → protect_windows o = true →
       ¬ windows_device s ∧ Forall (λ b, 32 ≤ b ∧ b ∉ illegal_windows) s ∧
       list.last s ≠ Some 46 ∧ list.last s ≠ Some 32)).
Proof.
  unfold stage. rewrite <- is_dot_ntfs_spec, <- is_symlink_spec.
  pose proof (is_dot_git_ntfs_spec s) as Hgit. pose proof (check_win_spec s) as Hwin.
  set (W := ¬ windows_device s ∧ _) in *. clearbody W.
  destruct (protect_ntfs o); [|left; naive_solver].
  destruct (is_dot_git_ntfs s); [right; split; [eauto|]; intuition congruence|].
  destruct (is_symlink mode && is_dot_ntfs s GITMODULES GI7EBA) eqn:Hm.
  { right. split; [eauto|]. apply andb_true_iff in Hm. intuition congruence. }
  apply andb_false_iff in Hm.
  destruct (protect_windows o); [|left; intuition congruence].
  destruct Hwin as [[-> Hw]|[[e ->] Hw]]; [left|right; split; [eauto|]]; intuition congruence.
Qed.

Lemma stage_plain :
  stage (if negb (protect_hfs o || protect_ntfs o) then
           if eq_ic s (46 :: GIT) then Err DotGitDir
           else if is_symlink mode && eq_ic s (46 :: GITMODULES)
           then Err SymlinkedGitModules
           else Ok tt
         else Ok tt)
    (protect_hfs o = false → protect_ntfs o = false →
       ¬ same s (46 :: GIT) ∧ (mode = Some Symlink → ¬ same s (46 :: GITMODULES))).
Proof.
  unfold stage. rewrite <- !eq_ic_spec, <- is_symlink_spec.
  destruct (protect_hfs o), (protect_ntfs o); cbn [orb negb]; try (left; naive_solver).
  destruct (eq_ic s (46 :: GIT)), (is_symlink mode), (eq_ic s (46 :: GITMODULES)); cbn [andb];
    
    first [left; split; [done|intuition congruence] | right; split; [by eauto|intuition congruence]].
Qed.
Context (chars : bytes → list Z).

Lemma stage_separators :
  stage (if protect_windows o then
           if existsb (λ b, (b =? 47) || (b =? 92)) s then Err PathSeparator
           else if bool_decide (chars s !! 1%nat = Some 58) then Err WindowsPathPrefix
           else Ok tt
         else if existsb (λ b, b =? 47) s then Err PathSeparator else Ok tt)
    (47 ∉ s ∧ (protect_windows o = true → 92 ∉ s ∧ chars s !! 1%nat ≠ Some 58)).
Proof.
  unfold stage. destruct (protect_windows o).
  - pose proof (existsb_two s 47 92). destruct (existsb _ s); [right; naive_solver|].
    destruct (bool_decide_reflect (chars s !! 1%nat = Some 58)); [right; naive_solver|left].
    split; [done|]. intuition congruence.
  - pose proof (existsb_byte s 47). destruct (existsb _ s); [right; naive_solver|left].
    split; [done|]. intuition congruence.
Qed.

Lemma stage_hfs :
  stage (if protect_hfs o then
           if is_dot_hfs chars s GIT then Err DotGitDir
           else if is_symlink mode && is_dot_hfs chars s GITMODULES
           then Err SymlinkedGitModules
           else Ok tt
         else Ok tt)
    (protect_hfs o = true → ¬ hfs_alias chars s (46 :: GIT) ∧
       (mode = Some Symlink → ¬ hfs_alias chars s (46 :: GITMODULES))).
Proof.
  unfold stage. rewrite <- !is_dot_hfs_spec, <- is_symlink_spec.
  destruct (protect_hfs o), (is_dot_hfs chars s GIT), (is_symlink mode),
    (is_dot_hfs chars s GITMODULES); cbn [andb]; 
    first [left; split; [done|intuition congruence] | right; split; [by eauto|intuition congruence]].
Qed.

End Stages.

Lemma component_spec chars mode o s :
  (component_ok chars mode o s ∧ component chars s mode o = Ok s) ∨
  (¬ component_ok chars mode o s ∧ ∃ e, component chars s mode o = Err e).
Proof.
  unfold component. destruct (Z.eqb_spec (zlen s) 0) as [Hz|Hz].
  { right. split; [|eauto]. intros [[Hne _] _ _ _ _ _ _]. destruct s; [done|].
    rewrite zlen_cons in Hz. pose proof (zlen_nonneg s). lia. }
  assert (Hne : s ≠ []) by (by intros ->). unfold bytes_eqb.
  destruct (bool_decide_reflect (s = [46; 46])); cbn [orb].
  { right. split; [|eauto]. by intros [(_ & _ & ?) _ _ _ _ _ _]. }
  destruct (bool_decide_reflect (s = [46])).
  { right. split; [|eauto]. by intros [(_ & ? & _) _ _ _ _ _ _]. }
  assert (H : (∃ a, (Ok s : outcome component_error bytes) = Ok a ∧ a = s ∧ True) ∨
              ((∃ e, (Ok s : outcome component_error bytes) = Err e) ∧ ¬ True)) by (left; eauto).
  apply (λ H, stage_bind _ _ _ _ _ (stage_plain mode o s) (λ _, H)) in H.
  apply (λ H, stage_bind _ _ _ _ _ (stage_ntfs mode o s) (λ _, H)) in H.
  apply (λ H, stage_bind _ _ _ _ _ (stage_hfs mode o s chars) (λ _, H)) in H.
  apply (λ H, stage_bind _ _ _ _ _ (stage_separators o s chars) (λ _, H)) in H.
  destruct H as [(a & -> & -> & (? & ?) & ? & (? & ?) & ? & _)|[[e ->] Hn]].
  - left. split; [|done]. by split.
  - right. split; [|eauto]. intros [? ? ? ? ? ? ?]. by apply Hn.
Qed.

(** C24: [component] is exact for every combination of its options. It returns
    its input unchanged when it is a plain file name: not empty, [.] or [..], with
    no slash, and, where the options ask for it, no backslash or drive prefix, no
    name that HFS+ or NTFS would take for [.git] (or, for a symlink,
    [.gitmodules]) after ignoring case, invisible code points, trailing dots and
    spaces, streams and short names, no Windows device and no character or ending
    that Windows refuses. Every other name is an error, and no slice is out of
    bounds. *)
Theorem component_exact (chars : bytes → list Z) (mode : option Mode) (o : Options) (s : bytes) :
  (component_ok chars mode o s ∧ component chars s mode o = Ok s) ∨
  (¬ component_ok chars mode o s ∧ ∃ e, component chars s mode o = Err e).
Proof. apply component_spec. Qed.

(** [bstr]'s [chars] decodes ASCII to itself. *)
Definition chars_ascii (chars : bytes → list Z) : Prop :=
  ∀ s, Forall (λ b, 0 ≤ b < 128) s → chars s = s.

Lemma same_ascii s base : Forall (λ b, 0 ≤ b < 128) base → same s base → Forall (λ b, 0 ≤ b < 128) s.
Proof.
  intros Hb. revert s. induction Hb as [|c base Hc Hb IH]; intros [|x s] Hs; try done.
  injection Hs as Hx Hs. constructor; [|by apply IH]. unfold lower in Hx. zb; lia.
Qed.
Lemma ascii_not_ignorable (s : bytes) :
  Forall (λ b, 0 ≤ b < 128) s → filter (λ c, c ∉ ignorable) s = s.
Proof.
  intros Hs. induction Hs as [|x s Hx Hs IH]; [done|]. rewrite filter_cons_True, IH; [done|].
  unfold ignorable. rewrite !elem_of_cons, elem_of_nil. lia.
Qed.
Lemma ascii_hfs_alias chars s base :
  chars_ascii chars → Forall (λ b, 0 ≤ b < 128) base → same s base → hfs_alias chars s base.
Proof.
  intros Hch Hb Hs. unfold hfs_alias. pose proof (same_ascii _ _ Hb Hs) as Ha.
  by rewrite Hch, ascii_not_ignorable by done.
Qed.
Lemma same_named s base : same s base → named ntfs_tail s base.
Proof.
  intros Hs. exists s, []. rewrite app_nil_r. split; [done|]. split; [done|].
  exists [], []. auto.
Qed.

(** whatever the options, no accepted component is [.git] in any case, and no
    accepted symlink is [.gitmodules] in any case: each of the three checks that
    may be selected covers these names. *)
Theorem dot_git_refused (chars : bytes → list Z) (mode : option Mode) (o : Options) (s out : bytes) :
  chars_ascii chars →
  component chars s mode o = Ok out →
  ¬ same s (46 :: GIT) ∧ (mode = Some Symlink → ¬ same s (46 :: GITMODULES)).
Proof.
  intros Hch Hok. destruct (component_spec chars mode o s) as [[Hc _]|[_ [e He]]]; [|congruence].
  assert (Forall (λ b, 0 ≤ b < 128) (46 :: GIT)) by (by apply (bool_decide_unpack _)).
  assert (Forall (λ b, 0 ≤ b < 128) (46 :: GITMODULES)) by (by apply (bool_decide_unpack _)).
  destruct (protect_hfs o) eqn:Hh.
  { destruct (co_hfs _ _ _ _ Hc Hh) as [H1 H2].
    split; [|intros Hm]; intros Hs; [apply H1|apply (H2 Hm)]; by apply ascii_hfs_alias. }
  destruct (protect_ntfs o) eqn:Hn; [|by apply (co_plain _ _ _ _ Hc)].
  destruct (co_ntfs _ _ _ _ Hc Hn) as (H1 & _ & H2).
  split; [|intros Hm]; intros Hs; [apply H1|apply (H2 Hm); left]; by apply same_named.
Qed.
Lemma dot_git_refused_witness :
  component (λ s, s) [46; 103; 105; 116; 120] (Some Symlink) default_options =
    Ok [46; 103; 105; 116; 120] ∧
  ¬ same [46; 103; 105; 116; 120] (46 :: GIT) ∧
  (Some Symlink = Some Symlink → ¬ same [46; 103; 105; 116; 120] (46 :: GITMODULES)).
Proof.
  assert (Hc : component (λ s, s) [46; 103; 105; 116; 120] (Some Symlink) default_options =
    Ok [46; 103; 105; 116; 120]) by (vm_compute; reflexivity).
  split; [exact Hc|].
  apply (dot_git_refused (λ s, s) (Some Symlink) default_options _ [46; 103; 105; 116; 120]);
    [intros s _; reflexivity|exact Hc].
Defined.
