(* ===== verification/Ewah.v ===== *)
(** * [gix-bitmap/src/ewah.rs]: EWAH bitmaps

    A bitmap is a list of 64-bit words. A marker word holds a run (a bit and how
    many words it fills) and the number of literal words that follow it. The
    callback of [for_each_set_bit] is a function on a state of its own that may
    stop the iteration, so that what it did before an error is part of the result. *)

From S2P Require Import Prelude.

Inductive ewah_error :=
| EofBits
| EofChunkLength
| ChunkLengthOverflow
| EofBitData
| EofRunLengthWidth
| RlwOutside
| LiteralOverflow
| LiteralExceeds
| WordCountTooLarge
| RlwTooLarge.

Record Vec := {
  num_bits : Z;
  bits : list Z;
  rlw : Z;
}.

Definition RLW_RUNNING_BITS : Z := 4 * 8.
Definition RLW_LARGEST_RUNNING_COUNT : Z := Z.shiftl 1 RLW_RUNNING_BITS - 1.
Definition rlw_literal_words (w : Z) : Z := Z.shiftr w (1 + RLW_RUNNING_BITS).
Definition rlw_running_len (w : Z) : Z := Z.land (Z.shiftr w 1) RLW_LARGEST_RUNNING_COUNT.
Definition rlw_running_len_bits (w : Z) : Z := rlw_running_len w * 64.
Definition rlw_runbit_is_set (w : Z) : bool := Z.land w 1 =? 1.

(** [gix-bitmap/src/lib.rs], [decode::u32]. *)
Definition decode_u32 (data : bytes) : option (Z * bytes) :=
  '(num, data) ← split_at_checked data 4; Some (from_be num, data).

(** [while pos < words.len()]: a round moves [pos] forward, so that the number of
    words is enough fuel. *)
Fixpoint validate_loop (fuel : nat) (words : list Z) (pos : Z) : outcome ewah_error unit :=
  match fuel with
  | O => Ok tt
  | S fuel =>
      if pos <? zlen words then
        word ← expect (get words pos);
        let literal_words := rlw_literal_words word in
        pos ← ok_or LiteralOverflow
                (pos ← checked_add 64 pos 1; checked_add 64 pos literal_words);
        if zlen words <? pos then Err LiteralExceeds
        else validate_loop fuel words pos
      else Ok tt
  end.
Definition validate_words (words : list Z) (rlw : Z) : outcome ewah_error unit :=
  if zlen words =? 0 then
    if rlw =? 0 then Ok tt else Err RlwOutside
  else if zlen words <=? rlw then Err RlwOutside
  else validate_loop (length words) words 0.

(** [for _ in 0..len]: cut eight bytes off and push them as a word. *)
Fixpoint read_words (len : nat) (bits : bytes) : outcome ewah_error (list Z) :=
  match len with
  | O => Ok []
  | S len =>
      '(bit_num, rest) ← expect (split_at_checked bits 8);
      buf ← read_words len rest;
      Ok (from_be bit_num :: buf)
  end.

Definition decode (data : bytes) : outcome ewah_error (Vec * bytes) :=
  '(num_bits, data) ← ok_or EofBits (decode_u32 data);
  '(len, data) ← ok_or EofChunkLength (decode_u32 data);
  word_bytes_len ← ok_or ChunkLengthOverflow (checked_mul 64 len 8);
  '(bits, data) ← ok_or EofBitData (split_at_checked data word_bytes_len);
  buf ← read_words (Z.to_nat len) bits;
  '(rlw, data) ← ok_or EofRunLengthWidth (decode_u32 data);
  _ ← validate_words buf rlw;
  Ok ({| num_bits := num_bits; bits := buf; rlw := rlw |}, data).

Definition write_to (v : Vec) : outcome ewah_error bytes :=
  len ← ok_or WordCountTooLarge (checked 32 (zlen (bits v)));
  rlw ← ok_or RlwTooLarge (checked 32 (rlw v));
  Ok (to_be 4 (num_bits v) ++ to_be 4 len ++ concat (to_be 8 <$> bits v) ++ to_be 4 rlw).

(** [bits.chunks(64)], the last chunk may be shorter. *)
Fixpoint chunks_64 (fuel : nat) (l : list bool) : list (list bool) :=
  match fuel, l with
  | S fuel, _ :: _ => take 64 l :: chunks_64 fuel (drop 64 l)
  | _, _ => []
  end.
(** The [fold] over a chunk, [idx] counting up. *)
Fixpoint chunk_word (chunk : list bool) (idx word : Z) : Z :=
  match chunk with
  | [] => word
  | bit :: chunk =>
      chunk_word chunk (idx + 1) (if bit : bool then Z.lor word (Z.shiftl 1 idx) else word)
  end.
Definition from_bits (bits : list bool) : option Vec :=
  let literal_words := (λ chunk, chunk_word chunk 0 0) <$> chunks_64 (length bits) bits in
  num_bits ← checked 32 (zlen bits);
  Some {| num_bits := num_bits;
          bits := wrap 64 (Z.shiftl (zlen literal_words) (1 + RLW_RUNNING_BITS)) :: literal_words;
          rlw := 0 |}.

Section ForEach.
Context {S : Type} (f : S → Z → S * bool) (nb : Z).

(** [for _ in 0..len { f(index)?; index += 1 }] *)
Fixpoint run_loop (len : nat) (index : Z) (s : S) : S * bool :=
  match len with
  | O => (s, true)
  | Datatypes.S len =>
      let '(s, go) := f s index in
      if go : bool then run_loop len (index + 1) s else (s, false)
  end.
(** [for bit_index in 0..bits_in_word] *)
Fixpoint bit_loop (word : Z) (n : nat) (bit_index index : Z) (s : S) : S * bool :=
  match n with
  | O => (s, true)
  | Datatypes.S n =>
      if negb (Z.land word (Z.shiftl 1 bit_index) =? 0) then
        let '(s, go) := f s index in
        if go : bool then bit_loop word n (bit_index + 1) (index + 1) s else (s, false)
      else bit_loop word n (bit_index + 1) (index + 1) s
  end.
(** [for _ in 0..rlw_literal_words(word)]; the words left and the new [index]. *)
Fixpoint literal_loop (iter : list Z) (n index : Z) (s : S) : S * option (list Z * Z) :=
  if n <=? 0 then (s, Some (iter, index))
  else match iter with
  | [] => (s, None)
  | word :: iter =>
      match checked_sub 64 nb index with
      | None => (s, None)
      | Some remaining =>
          if remaining =? 0 then (s, None)
          else
            let bits_in_word := Z.min remaining 64 in
            if (bits_in_word <? 64) && negb (Z.shiftr word bits_in_word =? 0) then (s, None)
            else
              let '(s, go) := bit_loop word (Z.to_nat bits_in_word) 0 index s in
              if go : bool then literal_loop iter (n - 1) (index + bits_in_word) s else (s, None)
      end
  end.
(** [while let Some(word) = iter.next()]: every round takes a word. *)
Fixpoint words_loop (fuel : nat) (iter : list Z) (index : Z) (s : S) : S * bool :=
  match fuel, iter with
  | _, [] => (s, true)
  | O, _ => (s, true)
  | Datatypes.S fuel, word :: iter =>
      let len := rlw_running_len_bits word in
      match checked_add 64 index len with
      | None => (s, false)
      | Some end_ =>
          if nb <? end_ then (s, false)
          else
            let '(s, go) := if rlw_runbit_is_set word then run_loop (Z.to_nat len) index s
                            else (s, true) in
            if go : bool then
              match literal_loop iter (rlw_literal_words word) end_ s with
              | (s, None) => (s, false)
              | (s, Some (iter, index)) => words_loop fuel iter index s
              end
            else (s, false)
      end
  end.
End ForEach.

Definition for_each_set_bit {S} (f : S → Z → S * bool) (v : Vec) (s : S) : S * bool :=
  words_loop f (num_bits v) (length (bits v)) (bits v) 0 s.

(** The callback of the tests: push the index, go on. *)
Definition collect (s : list Z) (index : Z) : list Z * bool := (s ++ [index], true).

Example test_bitmap :
  for_each_set_bit collect {| num_bits := 128;
    bits := [0x0000000400000000; 0x8000000000000001; 2]; rlw := 0 |} [] = ([0; 63; 65], true).
Proof. vm_compute. reflexivity. Qed.
Example test_padding :
  for_each_set_bit collect {| num_bits := 2; bits := [2 ^ 33; 2 ^ 64 - 1]; rlw := 0 |} [] = ([], false).
Proof. vm_compute. reflexivity. Qed.

(** ** Specification: the words of a bitmap *)
Definition is_word (w : Z) : Prop := 0 ≤ w < 2 ^ 64.

(** Markers, each followed by as many literal words as it says. *)
Inductive marker_chain : list Z → Prop :=
| chain_nil : marker_chain []
| chain_cons m lits rest :
    rlw_literal_words m = zlen lits → marker_chain rest → marker_chain (m :: lits ++ rest).

Record vec_ok (v : Vec) : Prop := {
  vo_num_bits : 0 ≤ num_bits v < 2 ^ 32;
  vo_words : Forall is_word (bits v);
  vo_len : zlen (bits v) < 2 ^ 32;
  vo_chain : marker_chain (bits v);
  vo_rlw : 0 ≤ rlw v < Z.max 1 (zlen (bits v)) ∧ rlw v < 2 ^ 32;
}.

(** ** Lemmas: validation *)
Lemma literal_words_nonneg w : 0 ≤ w → 0 ≤ rlw_literal_words w.
Proof. intros. unfold rlw_literal_words. by apply Z.shiftr_nonneg. Qed.

Lemma marker_chain_cons w r :
  0 ≤ w →
  marker_chain (w :: r) ↔
    rlw_literal_words w ≤ zlen r ∧ marker_chain (drop (Z.to_nat (rlw_literal_words w)) r).
Proof.
  intros Hw. pose proof (literal_words_nonneg w Hw). split.
  - inversion_clear 1 as [|m lits rest Hl Hc]. rewrite Hl. unfold zlen.
    rewrite Nat2Z.id, drop_app_length, length_app. split; [lia|done].
  - intros [Hl Hc]. rewrite <- (take_drop (Z.to_nat (rlw_literal_words w)) r).
    constructor; [|done]. unfold zlen in *. rewrite length_take. lia.
Qed.

Lemma validate_loop_spec fuel : ∀ p rest,
  Forall is_word rest → zlen (p ++ rest) < 2 ^ 64 → (length rest ≤ fuel)%nat →
  (validate_loop fuel (p ++ rest) (zlen p) = Ok tt ∧ marker_chain rest) ∨
  ((∃ e, validate_loop fuel (p ++ rest) (zlen p) = Err e) ∧ ¬ marker_chain rest).
Proof.
  induction fuel as [|fuel IH]; intros p rest Hw Hlen Hf; cbn [validate_loop].
  { destruct rest; [|simpl in Hf; lia]. left. split; [done|constructor]. }
  pose proof (zlen_nonneg p). rewrite zlen_app in Hlen |- *.
  destruct rest as [|w r].
  { rewrite zlen_nil. destruct (Z.ltb_spec (zlen p) (zlen p + 0)); [lia|]. left. split; [done|constructor]. }
  pose proof (zlen_nonneg r). rewrite zlen_cons in Hlen |- *.
  destruct (Z.ltb_spec (zlen p) (zlen p + (1 + zlen r))); [|lia].
  rewrite get_app_mid. cbn [expect mbind outcome_bind].
  apply list.Forall_cons in Hw as [Hw Hr]. unfold is_word in Hw.
  rewrite marker_chain_cons by lia. pose proof (literal_words_nonneg w ltac:(lia)).
  set (n := rlw_literal_words w) in *. clearbody n.
  rewrite checked_add_in by lia. cbn [mbind option_bind].
  destruct (decide (zlen p + 1 + n < 2 ^ 64)) as [Hb|Hb].
  2: { unfold checked_add. rewrite checked_out by lia. right. split; [by eexists|]. lia. }
  rewrite checked_add_in by lia. cbn [mbind outcome_bind ok_or].
  destruct (Z.ltb_spec (zlen p + (1 + zlen r)) (zlen p + 1 + n)).
  { right. split; [by eexists|]. lia. }
  set (k := Z.to_nat n) in *.
  assert (Hsplit : p ++ w :: r = (p ++ w :: take k r) ++ drop k r).
  { rewrite <- app_assoc. cbn [app]. by rewrite take_drop. }
  assert (Hpos : zlen p + 1 + n = zlen (p ++ w :: take k r)).
  { rewrite zlen_app, zlen_cons. unfold zlen in *. rewrite length_take. lia. }
  rewrite Hsplit, Hpos.
  destruct (IH (p ++ w :: take k r) (drop k r)) as [[-> ?]|[He ?]].
  - by apply Forall_drop.
  - rewrite <- Hsplit, zlen_app, zlen_cons. lia.
  - rewrite length_drop. simpl in Hf. lia.
  - left. split; [done|]. split; [lia|done].
  - right. split; [done|]. tauto.
Qed.

Lemma validate_words_spec words r :
  Forall is_word words → zlen words < 2 ^ 64 → 0 ≤ r →
  (validate_words words r = Ok tt ∧ marker_chain words ∧ r < Z.max 1 (zlen words)) ∨
  ((∃ e, validate_words words r = Err e) ∧ ¬ (marker_chain words ∧ r < Z.max 1 (zlen words))).
Proof.
  intros Hw Hlen Hr. unfold validate_words. pose proof (zlen_nonneg words).
  destruct (Z.eqb_spec (zlen words) 0) as [Hz|Hz].
  - destruct words; [|rewrite zlen_cons in Hz; pose proof (zlen_nonneg words); lia].
    destruct (Z.eqb_spec r 0) as [->|Hr0]; [left|right].
    + split; [done|]. split; [constructor|done].
    + split; [by eexists|]. simpl in *. lia.
  - destruct (Z.leb_spec (zlen words) r); [right; split; [by eexists|]; lia|].
    destruct (validate_loop_spec (length words) [] words) as [[Hv ?]|[Hv ?]]; try done;
      simpl in Hv; change (zlen []) with 0 in Hv; [left|right].
    + split; [done|]. split; [done|]. lia.
    + split; [done|]. tauto.
Qed.

(** ** Lemmas: reading and writing words *)
Lemma decode_u32_spec data n rest :
  bytes_ok data → decode_u32 data = Some (n, rest) ↔ data = to_be 4 n ++ rest ∧ 0 ≤ n < 2 ^ 32.
Proof.
  intros Hd. unfold decode_u32. split.
  - destruct (split_at_checked data 4) as [[a b]|] eqn:E; [|done]. cbn [mbind option_bind].
    intros [= <- <-].
    apply split_at_Some in E as [-> Ha]. apply bytes_ok_app in Hd as [Hd _].
    assert (length a = 4%nat) as Hl by (unfold zlen in Ha; lia). rewrite <- Hl, to_from_be by done.
    split; [done|]. pose proof (from_be_bound a Hd). rewrite Ha in *. done.
  - intros [-> Hn]. rewrite (split_at_app (to_be 4 n)) by (by rewrite zlen_to_be).
    cbn [mbind option_bind]. by rewrite from_to_be.
Qed.

Lemma word_bytes_ok ws : bytes_ok (concat (to_be 8 <$> ws)).
Proof. apply Forall_concat, Forall_fmap, Forall_forall. intros w _. apply bytes_ok_to_be. Qed.
Lemma zlen_words ws : zlen (concat (to_be 8 <$> ws)) = 8 * zlen ws.
Proof.
  unfold zlen. rewrite (length_concat_const 8), length_fmap; [lia|].
  apply Forall_fmap, Forall_forall. intros w _. apply length_to_be.
Qed.

Lemma read_words_spec len : ∀ bs,
  bytes_ok bs → zlen bs = 8 * Z.of_nat len →
  ∃ ws, read_words len bs = Ok ws ∧ length ws = len ∧ Forall is_word ws ∧
        bs = concat (to_be 8 <$> ws).
Proof.
  induction len as [|len IH]; intros bs Hb Hl; cbn [read_words].
  - exists []. destruct bs; [done|]. unfold zlen in Hl. simpl in Hl. lia.
  - rewrite split_at_in by lia. cbn [expect mbind outcome_bind].
    rewrite <- (take_drop (Z.to_nat 8) bs) in Hb. apply bytes_ok_app in Hb as [Ha Hr].
    assert (length (take (Z.to_nat 8) bs) = 8%nat) as H8 by (rewrite length_take; unfold zlen in Hl; lia).
    destruct (IH (drop (Z.to_nat 8) bs)) as (ws & -> & Hlen & Hws & Heq); [done| |].
    { unfold zlen in *. rewrite length_drop. lia. }
    cbn [mbind outcome_bind]. exists (from_be (take (Z.to_nat 8) bs) :: ws). split; [done|].
    split; [simpl; lia|]. split.
    + constructor; [|done]. pose proof (from_be_bound _ Ha) as Hbound. unfold zlen in Hbound.
      rewrite H8 in Hbound. unfold is_word. change (2 ^ 64) with (256 ^ Z.of_nat 8). done.
    + rewrite fmap_cons. cbn [concat]. rewrite <- Heq. rewrite <- H8 at 1.
      by rewrite to_from_be, take_drop by done.
Qed.

Lemma words_inj ws : ∀ ws',
  length ws = length ws' → Forall is_word ws → Forall is_word ws' →
  concat (to_be 8 <$> ws) = concat (to_be 8 <$> ws') → ws = ws'.
Proof.
  induction ws as [|w ws IH]; intros [|w' ws'] Hl Hw Hw' Heq; try done.
  apply list.Forall_cons in Hw as [Hw Hws], Hw' as [Hw' Hws']. rewrite !fmap_cons in Heq.
  cbn [concat] in Heq. apply app_inj_1 in Heq as [Hh Ht]; [|by rewrite !length_to_be].
  f_equal; [|apply IH; [simpl in Hl; lia|done..]].
  apply (f_equal from_be) in Hh. unfold is_word in *.
  by rewrite !from_to_be in Hh by (change (256 ^ Z.of_nat 8) with (2 ^ 64); done).
Qed.

(** The bytes of a bitmap. *)
Definition vec_bytes (v : Vec) : bytes :=
  to_be 4 (num_bits v) ++ to_be 4 (zlen (bits v)) ++ concat (to_be 8 <$> bits v) ++ to_be 4 (rlw v).

Lemma write_to_ok v : vec_ok v → write_to v = Ok (vec_bytes v).
Proof.
  intros [_ _ Hl _ Hr]. unfold write_to. pose proof (zlen_nonneg (bits v)).
  by rewrite !checked_in by lia.
Qed.

Lemma decode_u32_app n rest : 0 ≤ n < 2 ^ 32 → decode_u32 (to_be 4 n ++ rest) = Some (n, rest).
Proof.
  intros Hn. unfold decode_u32. rewrite (split_at_app (to_be 4 n)) by (by rewrite zlen_to_be).
  cbn [mbind option_bind]. by rewrite from_to_be.
Qed.

Lemma decode_complete v rest : vec_ok v → decode (vec_bytes v ++ rest) = Ok (v, rest).
Proof.
  intros [Hn Hw Hl Hc Hr]. unfold decode, vec_bytes. rewrite <- !app_assoc.
  pose proof (zlen_nonneg (bits v)). rewrite decode_u32_app by done. cbn [ok_or mbind outcome_bind].
  rewrite decode_u32_app by done. cbn [ok_or mbind outcome_bind].
  rewrite checked_mul_in by lia. cbn [ok_or mbind outcome_bind].
  rewrite split_at_app by (rewrite zlen_words; lia). cbn [ok_or mbind outcome_bind].
  destruct (read_words_spec (Z.to_nat (zlen (bits v))) (concat (to_be 8 <$> bits v)))
    as (ws & -> & Hlen & Hws & Heq); [apply word_bytes_ok|rewrite zlen_words; lia|].
  cbn [mbind outcome_bind]. rewrite decode_u32_app by lia. cbn [ok_or mbind outcome_bind].
  apply words_inj in Heq as <-; [|unfold zlen in Hlen; lia|done..].
  destruct (validate_words_spec (bits v) (rlw v)) as [[-> _]|[_ Hf]]; [done|lia|lia|..].
  - by destruct v.
  - exfalso. apply Hf. split; [done|]. lia.
Qed.

Lemma decode_sound data :
  bytes_ok data →
  (∃ v rest, decode data = Ok (v, rest) ∧ vec_ok v ∧ data = vec_bytes v ++ rest) ∨
  (∃ e, decode data = Err e).
Proof.
  intros Hd. unfold decode.
  destruct (decode_u32 data) as [[n d1]|] eqn:E1; [|right; by eexists].
  apply decode_u32_spec in E1 as [-> Hn]; [|done]. apply bytes_ok_app in Hd as [_ Hd].
  cbn [ok_or mbind outcome_bind].
  destruct (decode_u32 d1) as [[len d2]|] eqn:E2; [|right; by eexists].
  apply decode_u32_spec in E2 as [-> Hlen]; [|done]. apply bytes_ok_app in Hd as [_ Hd].
  cbn [ok_or mbind outcome_bind]. rewrite checked_mul_in by lia. cbn [ok_or mbind outcome_bind].
  destruct (split_at_checked d2 (len * 8)) as [[bs d3]|] eqn:E3; [|right; by eexists].
  apply split_at_Some in E3 as [-> Hbs]. apply bytes_ok_app in Hd as [Hb Hd].
  cbn [ok_or mbind outcome_bind].
  destruct (read_words_spec (Z.to_nat len) bs Hb) as (ws & -> & Hl & Hws & ->); [lia|].
  assert (len = zlen ws) as -> by (unfold zlen; lia). cbn [mbind outcome_bind].
  destruct (decode_u32 d3) as [[r d4]|] eqn:E4; [|right; by eexists].
  apply decode_u32_spec in E4 as [-> Hr]; [|done]. cbn [ok_or mbind outcome_bind].
  destruct (validate_words_spec ws r) as [(-> & Hc & Hm)|[[e ->] _]]; [done|lia|lia|left|right; by eexists].
  cbn [mbind outcome_bind]. eexists _, d4. split; [done|]. split.
  - split; cbn [num_bits bits rlw]; done || lia.
  - unfold vec_bytes. cbn [num_bits bits rlw]. by rewrite <- !app_assoc.
Qed.

(** C26: decoding is exact. [decode] returns a bitmap and the rest of the input
    exactly when the input starts with what [write_to] writes for that bitmap and
    the bitmap is well-formed: its markers chain through its words, the offset of its last marker
    is that of a word (or 0 if it has none), and its counts fit 32 bits. Every other input is an
    error, never a panic. So bitmaps survive a round trip in both directions. *)
Theorem ewah_decode_exact (data : bytes) :
  bytes_ok data →
  (∀ v rest, decode data = Ok (v, rest) ↔
     vec_ok v ∧ ∃ out, write_to v = Ok out ∧ data = out ++ rest) ∧
  decode data ≠ Panic.
Proof.
  intros Hd. pose proof (decode_sound data Hd) as Hs. split; [|by destruct Hs as [(? & ? & -> & _)|[? ->]]].
  intros v rest. split.
  - intros He. destruct Hs as [(v' & rest' & He' & Hv & Heq)|[e He']]; rewrite He in He'; [|done].
    injection He' as <- <-. split; [done|]. exists (vec_bytes v). by rewrite write_to_ok.
  - intros (Hv & out & Hw & ->). rewrite write_to_ok in Hw by done. injection Hw as <-.
    by apply decode_complete.
Qed.

Definition sample_vec : Vec :=
  {| num_bits := 128; bits := [0x0000000400000000; 0x8000000000000001; 2]; rlw := 0 |}.
Lemma ewah_decode_exact_witness :
  ∃ data, bytes_ok data ∧
    (∀ v rest, decode data = Ok (v, rest) ↔
       vec_ok v ∧ ∃ out, write_to v = Ok out ∧ data = out ++ rest) ∧
    decode data ≠ Panic ∧ decode data = Ok (sample_vec, [170; 187]).
Proof.
  exists (vec_bytes sample_vec ++ [170; 187]).
  assert (Hok : bytes_ok (vec_bytes sample_vec ++ [170; 187])).
  { apply (bool_decide_unpack _). vm_compute. exact I. }
  split; [exact Hok|].
  destruct (ewah_decode_exact (vec_bytes sample_vec ++ [170; 187]) Hok) as [H1 H2].
  split; [exact H1|]. split; [exact H2|]. vm_compute. reflexivity.
Defined.

(** ** Specification: the bits of a bitmap

    A bitmap as segments: a run of [run_words] words that all hold [run_bit],
    then literal words. *)
Record segment := {
  run_bit : bool;
  run_words : Z;
  literals : list Z;
}.
Definition segment_ok (g : segment) : Prop :=
  0 ≤ run_words g < 2 ^ 32 ∧ zlen (literals g) < 2 ^ 31 ∧ Forall is_word (literals g).
Definition marker (g : segment) : Z :=
  (if run_bit g then 1 else 0) + 2 * run_words g + 2 ^ 33 * zlen (literals g).
Definition encode_segments (gs : list segment) : list Z :=
  concat ((λ g, marker g :: literals g) <$> gs).

Definition word_bits (w : Z) (n : nat) : list bool := (λ i, Z.testbit w i) <$> seqZ 0 (Z.of_nat n).
Definition segment_bits (g : segment) : list bool :=
  replicate (Z.to_nat (run_words g * 64)) (run_bit g)
  ++ concat ((λ w, word_bits w 64) <$> literals g).
Definition segments_bits (gs : list segment) : list bool := concat (segment_bits <$> gs).

(** Call [f] with the index of each set bit, until it stops. *)
Fixpoint visit {S} (f : S → Z → S * bool) (l : list bool) (index : Z) (s : S) : S * bool :=
  match l with
  | [] => (s, true)
  | true :: l => let '(s, go) := f s index in
                 if go : bool then visit f l (index + 1) s else (s, false)
  | false :: l => visit f l (index + 1) s
  end.

(** ** Lemmas: marker fields *)
Lemma marker_fields g :
  segment_ok g →
  rlw_literal_words (marker g) = zlen (literals g) ∧
  rlw_running_len_bits (marker g) = run_words g * 64 ∧
  rlw_runbit_is_set (marker g) = run_bit g.
Proof.
  intros (Hr & Hl & _). pose proof (zlen_nonneg (literals g)) as H0.
  unfold rlw_literal_words, rlw_running_len_bits, rlw_running_len, rlw_runbit_is_set, marker.
  set (b := if run_bit g then 1 else 0). assert (Hb : 0 ≤ b ≤ 1) by (subst b; destruct (run_bit g); lia).
  set (c := zlen (literals g)) in *. clearbody c. set (r := run_words g) in *. clearbody r.
  change (1 + RLW_RUNNING_BITS) with 33. rewrite !Z.shiftr_div_pow2 by lia.
  rewrite (land_low _ 32) by done. change (Z.land (b + 2 * r + 2 ^ 33 * c) 1)
    with (Z.land (b + 2 * r + 2 ^ 33 * c) (Z.ones 1)). rewrite Z.land_ones by lia.
  change (2 ^ 33) with 8589934592 in *. change (2 ^ 32) with 4294967296 in *.
  change (2 ^ 1) with 2. repeat split.
  - symmetry. apply (Z.div_unique _ _ c (b + 2 * r)); lia.
  - f_equal. rewrite <- (Z.div_unique (b + 2 * r + 8589934592 * c) 2 (r + 4294967296 * c) b) by lia.
    symmetry. apply (Z.mod_unique _ _ c r); lia.
  - rewrite <- (Z.mod_unique (b + 2 * r + 8589934592 * c) 2 (r + 4294967296 * c) b) by lia.
    subst b. by destruct (run_bit g).
Qed.

(** ** Lemmas: visiting *)
Lemma visit_app {S} (f : S → Z → S * bool) l : ∀ k index s,
  visit f (l ++ k) index s =
    let '(s, go) := visit f l index s in
    if go : bool then visit f k (index + zlen l) s else (s, false).
Proof.
  induction l as [|b l IH]; intros k index s; cbn [visit app].
  - by rewrite zlen_nil, Z.add_0_r.
  - rewrite zlen_cons. destruct b.
    + destruct (f s index) as [s' []]; [|done]. rewrite IH.
      destruct (visit f l (index + 1) s') as [s'' []]; [|done]. f_equal. lia.
    + rewrite IH. destruct (visit f l (index + 1) s) as [s'' []]; [|done]. f_equal. lia.
Qed.
Lemma visit_false {S} (f : S → Z → S * bool) l : ∀ index s,
  Forall (λ b, b = false) l → visit f l index s = (s, true).
Proof.
  induction l as [|b l IH]; intros index s Hl; [done|].
  apply list.Forall_cons in Hl as [-> Hl]. by apply IH.
Qed.
Lemma run_loop_visit {S} (f : S → Z → S * bool) n : ∀ index s,
  run_loop f n index s = visit f (replicate n true) index s.
Proof.
  induction n as [|n IH]; intros index s; cbn [run_loop replicate visit]; [done|].
  destruct (f s index) as [s' []]; [|done]. apply IH.
Qed.

Lemma testbit_land w i : 0 ≤ i → negb (Z.land w (Z.shiftl 1 i) =? 0) = Z.testbit w i.
Proof.
  intros Hi. assert (H : Z.land w (Z.shiftl 1 i) = if Z.testbit w i then Z.shiftl 1 i else 0).
  { apply Z.bits_inj'. intros n Hn. rewrite Z.land_spec, Z.shiftl_1_l, Z.pow2_bits_eqb by lia.
    destruct (Z.eqb_spec i n) as [->|Hne].
    - destruct (Z.testbit w n); [by rewrite Z.pow2_bits_true by lia|by rewrite Z.bits_0].
    - rewrite andb_false_r. destruct (Z.testbit w i); [by rewrite Z.pow2_bits_false by lia|by rewrite Z.bits_0]. }
  rewrite H. destruct (Z.testbit w i); [|done]. rewrite Z.shiftl_1_l.
  pose proof (Z.pow_pos_nonneg 2 i). destruct (Z.eqb_spec (2 ^ i) 0); [lia|done].
Qed.
Lemma bit_loop_visit {S} (f : S → Z → S * bool) w n : ∀ i index s,
  0 ≤ i →
  bit_loop f w n i index s = visit f ((λ j, Z.testbit w j) <$> seqZ i (Z.of_nat n)) index s.
Proof.
  induction n as [|n IH]; intros i index s Hi; cbn [bit_loop]; [done|].
  rewrite Nat2Z.inj_succ, seqZ_cons by lia. rewrite fmap_cons, testbit_land by done. cbn [visit].
  rewrite Z.pred_succ. destruct (Z.testbit w i).
  - destruct (f s index) as [s' []]; [|done]. apply IH. lia.
  - apply IH. lia.
Qed.

(** ** Lemmas: literal words, the last of which may be cut short *)
Lemma length_word_bits w n : length (word_bits w n) = n.
Proof. unfold word_bits. rewrite length_fmap, length_seqZ. lia. Qed.
Lemma word_bits_split w n :
  (n ≤ 64)%nat → ∃ hi, word_bits w 64 = word_bits w n ++ hi ∧ length hi = (64 - n)%nat ∧
    (∀ j, (j < 64 - n)%nat → hi !! j = Some (Z.testbit w (Z.of_nat (n + j)))).
Proof.
  intros Hn. exists ((λ i, Z.testbit w i) <$> seqZ (Z.of_nat n) (64 - Z.of_nat n)). split.
  - unfold word_bits. rewrite <- fmap_app. f_equal. change (Z.of_nat 64) with 64.
    rewrite <- (Z.add_0_l (Z.of_nat n)) at 2. rewrite <- seqZ_app by lia. f_equal. lia.
  - rewrite length_fmap, length_seqZ. split; [lia|]. intros j Hj.
    rewrite list_lookup_fmap, lookup_seqZ_lt by lia. simpl. do 2 f_equal. lia.
Qed.
Lemma shiftr_zero w n :
  is_word w → (n ≤ 64)%nat → (∀ j, (j < 64 - n)%nat → Z.testbit w (Z.of_nat (n + j)) = false) →
  Z.shiftr w (Z.of_nat n) = 0.
Proof.
  intros Hw Hn Hj. apply Z.bits_inj'. intros i Hi. rewrite Z.shiftr_spec, Z.bits_0 by lia.
  destruct (Z.lt_ge_cases (i + Z.of_nat n) 64) as [Hlt|Hge].
  - replace (i + Z.of_nat n) with (Z.of_nat (n + Z.to_nat i)) by lia. apply Hj. lia.
  - unfold is_word in Hw. destruct (decide (w = 0)) as [->|]; [by rewrite Z.bits_0|].
    apply Z.bits_above_log2; [lia|]. enough (Z.log2 w < 64) by lia. apply Z.log2_lt_pow2; lia.
Qed.

Definition words_bits (ws : list Z) : list bool := concat ((λ w, word_bits w 64) <$> ws).
Lemma zlen_words_bits ws : zlen (words_bits ws) = 64 * zlen ws.
Proof.
  unfold zlen, words_bits. rewrite (length_concat_const 64), length_fmap; [lia|].
  apply Forall_fmap, Forall_forall. intros w _. apply length_word_bits.
Qed.
Lemma zlen_segment_bits g :
  segment_ok g → zlen (segment_bits g) = 64 * run_words g + 64 * zlen (literals g).
Proof.
  intros ((? & _) & _). unfold segment_bits. fold (words_bits (literals g)).
  rewrite zlen_app, zlen_words_bits. unfold zlen at 1. rewrite length_replicate. lia.
Qed.
Lemma segments_bits_words gs :
  Forall segment_ok gs → ∃ n, 0 ≤ n ∧ zlen (segments_bits gs) = 64 * n.
Proof.
  induction 1 as [|g gs Hg Hgs (n & Hn & IH)]; [by exists 0|].
  exists (run_words g + zlen (literals g) + n). unfold segments_bits in *. rewrite fmap_cons.
  cbn [concat]. rewrite zlen_app, IH, zlen_segment_bits by done. destruct Hg as ((? & _) & _).
  pose proof (zlen_nonneg (literals g)). lia.
Qed.

Section Walk.
Context {S : Type} (f : S → Z → S * bool) (nb pad : Z).
Context (Hnb : 0 ≤ nb < 2 ^ 32) (Hpad : 0 ≤ pad < 64).

(** The bits [l] from bit [i] on: they end in at most 63 bits of zero padding. *)
Definition padded (i : Z) (l : list bool) : Prop :=
  0 ≤ i ∧ i + zlen l = nb + pad ∧ Forall (λ b, b = false) (drop (Z.to_nat (nb - i)) l).

Lemma padded_app i l k : padded i (l ++ k) → padded (i + zlen l) k.
Proof.
  intros (Hi & Hl & Hf). rewrite zlen_app in Hl. pose proof (zlen_nonneg l).
  split; [lia|]. split; [lia|].
  destruct (Z.le_gt_cases (zlen l) (nb - i)) as [Hle|Hgt].
  - replace (Z.to_nat (nb - i)) with (length l + Z.to_nat (nb - (i + zlen l)))%nat in Hf
      by (unfold zlen in *; lia).
    by rewrite <- drop_drop, drop_app_length in Hf.
  - rewrite drop_app_le in Hf by (unfold zlen in *; lia). apply Forall_app in Hf as [_ Hf].
    by replace (Z.to_nat (nb - (i + zlen l))) with 0%nat by lia.
Qed.

(** One literal word at bit [i]. *)
Lemma literal_word i w k m :
  is_word w → padded i (word_bits w 64 ++ k) → 0 ≤ zlen k → m = Z.min (nb - i) 64 →
  0 < m ≤ 64 ∧ i < nb ∧ i + m = Z.min (i + 64) nb ∧ Z.shiftr w m = (if m <? 64 then 0 else Z.shiftr w m) ∧
  ∀ s, bit_loop f w (Z.to_nat m) 0 i s = visit f (word_bits w 64) i s.
Proof.
  intros Hw (Hi & Hl & Hf) Hk Hm. rewrite zlen_app in Hl. unfold zlen at 1 in Hl.
  rewrite length_word_bits in Hl. split; [lia|]. split; [lia|]. split; [lia|].
  destruct (word_bits_split w (Z.to_nat m)) as (hi & Hsplit & Hlen & Hbits); [lia|].
  assert (Hhi : Forall (λ b, b = false) hi).
  { destruct (Z.lt_ge_cases m 64) as [Hlt|Hge]; [|by destruct hi; [constructor|simpl in Hlen; lia]].
    rewrite Hsplit, <- app_assoc in Hf. replace (Z.to_nat (nb - i)) with (Z.to_nat m) in Hf by lia.
    rewrite <- (length_word_bits w (Z.to_nat m)) in Hf at 1. rewrite drop_app_length in Hf.
    by apply Forall_app in Hf as [Hf _]. }
  split.
  - destruct (Z.ltb_spec m 64); [|done]. rewrite <- (Z2Nat.id m) by lia.
    apply shiftr_zero; [done|lia|]. intros j Hj. specialize (Hbits j ltac:(lia)).
    apply (Forall_lookup_1 _ _ _ _ Hhi Hbits).
  - intros s. rewrite bit_loop_visit by done. rewrite Hsplit, visit_app. fold (word_bits w (Z.to_nat m)).
    destruct (visit f (word_bits w (Z.to_nat m)) i s) as [s' []]; [|done]. by rewrite visit_false.
Qed.

Lemma literal_loop_spec lits : ∀ rest k i s,
  Forall is_word lits → padded i (words_bits lits ++ k) →
  literal_loop f nb (lits ++ rest) (zlen lits) (Z.min i nb) s =
    let '(s, go) := visit f (words_bits lits) i s in
    if go : bool then (s, Some (rest, Z.min (i + zlen (words_bits lits)) nb)) else (s, None).
Proof.
  induction lits as [|w lits IH]; intros rest k i s Hw Hp.
  - unfold words_bits. simpl. rewrite zlen_nil, Z.add_0_r. by destruct rest.
  - apply list.Forall_cons in Hw as [Hw Hlits].
    assert (Hwb : words_bits (w :: lits) = word_bits w 64 ++ words_bits lits) by done.
    rewrite Hwb in *. rewrite <- app_assoc in Hp. cbn [literal_loop app]. rewrite zlen_cons.
    pose proof (zlen_nonneg lits). destruct (Z.leb_spec (1 + zlen lits) 0); [lia|].
    destruct (literal_word i w _ _ Hw Hp (zlen_nonneg _) eq_refl) as (Hm & Hlt & Hnext & Hsh & Hbit).
    rewrite (Z.min_l i nb) by lia. destruct Hp as [Hi Hp']. pose proof (conj Hi Hp' : padded _ _) as Hp.
    rewrite checked_sub_in by lia. destruct (Z.eqb_spec (nb - i) 0); [lia|]. cbv zeta.
    set (m := Z.min (nb - i) 64) in *. clearbody m.
    assert ((m <? 64) && negb (Z.shiftr w m =? 0) = false) as ->.
    { destruct (m <? 64); [|done]. by rewrite Hsh. }
    rewrite Hbit, visit_app. destruct (visit f (word_bits w 64) i s) as [s' []]; [|done].
    rewrite Hnext. replace (1 + zlen lits - 1) with (zlen lits) by lia.
    apply padded_app in Hp. assert (H64 : zlen (word_bits w 64) = 64)
      by (unfold zlen; by rewrite length_word_bits).
    rewrite H64 in Hp |- *. rewrite (IH rest k) by done.
    rewrite zlen_app, H64. destruct (visit f (words_bits lits) (i + 64) s') as [s'' []]; [|done].
    do 3 f_equal. lia.
Qed.

(** Every run ends inside the bitmap. *)
Definition runs_fit (i : Z) (gs : list segment) : Prop :=
  ∀ a g b, gs = a ++ g :: b → run_words g ≠ 0 →
  i + zlen (segments_bits a) + run_words g * 64 ≤ nb.

Lemma words_loop_spec gs : ∀ fuel i s,
  Forall segment_ok gs → padded i (segments_bits gs) → runs_fit i gs →
  (length (encode_segments gs) ≤ fuel)%nat →
  words_loop f nb fuel (encode_segments gs) (Z.min i nb) s = visit f (segments_bits gs) i s.
Proof.
  induction gs as [|g gs IH]; intros fuel i s Hok Hp Hfit Hf.
  { by destruct fuel. }
  apply list.Forall_cons in Hok as [Hg Hgs].
  assert (He : encode_segments (g :: gs) = marker g :: literals g ++ encode_segments gs) by done.
  assert (Hb : segments_bits (g :: gs) =
    replicate (Z.to_nat (run_words g * 64)) (run_bit g) ++ words_bits (literals g) ++ segments_bits gs)
    by (unfold segments_bits, segment_bits; rewrite fmap_cons; cbn [concat]; by rewrite <- app_assoc).
  rewrite He in *. rewrite Hb in *. destruct fuel as [|fuel]; [simpl in Hf; lia|]. cbn [words_loop].
  destruct (marker_fields g Hg) as (-> & -> & ->).
  pose proof Hg as ((Hr & Hr32) & _ & Hw).
  set (r := run_words g) in *. set (run := replicate (Z.to_nat (r * 64)) (run_bit g)) in *.
  assert (Hrl : zlen run = r * 64) by (unfold zlen, run; rewrite length_replicate; lia).
  assert (Hi : 0 ≤ i) by apply Hp. assert (0 ≤ Z.min i nb) by lia.
  rewrite checked_add_in by lia.
  assert (Hend : Z.min i nb + r * 64 = Z.min (i + r * 64) nb).
  { destruct (decide (r = 0)) as [->|Hr0]; [lia|].
    specialize (Hfit [] g gs eq_refl Hr0). change (zlen (segments_bits [])) with 0 in Hfit. lia. }
  rewrite Hend. destruct (Z.ltb_spec nb (Z.min (i + r * 64) nb)); [lia|].
  rewrite visit_app.
  assert (Hrun : (if run_bit g then run_loop f (Z.to_nat (r * 64)) (Z.min i nb) s else (s, true)) =
    visit f run i s).
  { unfold run. destruct (run_bit g).
    - rewrite run_loop_visit. destruct (decide (r = 0)) as [->|Hr0]; [done|].
      specialize (Hfit [] g gs eq_refl Hr0). change (zlen (segments_bits [])) with 0 in Hfit.
      f_equal. lia.
    - rewrite visit_false; [done|]. by apply Forall_replicate. }
  rewrite Hrun. destruct (visit f run i s) as [s' []]; [|done].
  apply padded_app in Hp. rewrite Hrl in Hp |- *.
  rewrite (literal_loop_spec _ _ (segments_bits gs)) by done. rewrite visit_app.
  destruct (visit f (words_bits (literals g)) (i + r * 64) s') as [s'' []]; [|done].
  apply padded_app in Hp. apply IH; [done|done| |].
  - intros a g' b -> Hne. specialize (Hfit (g :: a) g' b eq_refl Hne).
    assert (zlen (segments_bits (g :: a)) = r * 64 + zlen (words_bits (literals g)) + zlen (segments_bits a)).
    { unfold segments_bits. rewrite fmap_cons. cbn [concat]. rewrite zlen_app, zlen_segment_bits by done.
      rewrite zlen_words_bits. unfold r. lia. }
    lia.
  - cbn [length] in Hf. rewrite length_app in Hf. lia.
Qed.
End Walk.

(** ** Lemmas: [from_bits] *)
Lemma chunk_word_spec chunk : ∀ idx word,
  0 ≤ idx → 0 ≤ word < 2 ^ idx →
  0 ≤ chunk_word chunk idx word < 2 ^ (idx + zlen chunk) ∧
  ∀ i, 0 ≤ i → Z.testbit (chunk_word chunk idx word) i =
    if i <? idx then Z.testbit word i else default false (chunk !! Z.to_nat (i - idx)).
Proof.
  induction chunk as [|b chunk IH]; intros idx word Hidx Hword; cbn [chunk_word].
  - change (zlen (@nil bool)) with 0. rewrite Z.add_0_r. split; [done|]. intros i Hi. destruct (Z.ltb_spec i idx); [done|].
    cbn [lookup list_lookup]. destruct (decide (word = 0)) as [->|]; [by rewrite Z.bits_0|].
    rewrite lookup_nil. apply Z.bits_above_log2; [lia|].
    enough (Z.log2 word < idx) by lia. apply Z.log2_lt_pow2; lia.
  - set (word' := if b then _ else word).
    assert (Hw' : word' = word + (if b then 2 ^ idx else 0)).
    { subst word'. destruct b; [|lia]. rewrite Z.shiftl_1_l. rewrite <- (Z.mul_1_l (2 ^ idx)).
      by apply lor_low_high. }
    assert (Hlow : 0 ≤ word' < 2 ^ (idx + 1)).
    { rewrite Z.pow_add_r, Z.pow_1_r by lia. destruct b; lia. }
    destruct (IH (idx + 1) word' ltac:(lia) Hlow) as [Hr Hbits]. rewrite zlen_cons.
    split; [by replace (idx + (1 + zlen chunk)) with (idx + 1 + zlen chunk) by lia|].
    intros i Hi. rewrite Hbits by done.
    assert (Hbit : Z.testbit word' i = Z.testbit word i || (b && (i =? idx))).
    { subst word'. destruct b; [|by rewrite orb_false_r].
      rewrite Z.lor_spec, Z.shiftl_1_l, Z.pow2_bits_eqb by lia. by rewrite Z.eqb_sym. }
    destruct (Z.ltb_spec i (idx + 1)), (Z.ltb_spec i idx); try lia.
    + rewrite Hbit. destruct (Z.eqb_spec i idx); [lia|]. by rewrite andb_false_r, orb_false_r.
    + assert (i = idx) as -> by lia. rewrite Hbit, Z.eqb_refl, Z.sub_diag. simpl.
      replace (Z.testbit word idx) with false; [by destruct b|]. symmetry.
      destruct (decide (word = 0)) as [->|]; [by rewrite Z.bits_0|].
      apply Z.bits_above_log2; [lia|]. apply Z.log2_lt_pow2; lia.
    + replace (Z.to_nat (i - idx)) with (S (Z.to_nat (i - (idx + 1)))) by lia. done.
Qed.

Lemma chunk_word_bits chunk :
  (length chunk ≤ 64)%nat →
  is_word (chunk_word chunk 0 0) ∧
  word_bits (chunk_word chunk 0 0) 64 = chunk ++ replicate (64 - length chunk) false.
Proof.
  intros Hl. destruct (chunk_word_spec chunk 0 0) as [Hr Hb]; [done|done|]. split.
  - unfold is_word. split; [lia|]. eapply Z.lt_le_trans; [apply Hr|].
    apply Z.pow_le_mono_r; unfold zlen; lia.
  - apply list_eq. intros i. unfold word_bits. rewrite list_lookup_fmap.
    destruct (decide (i < 64)%nat) as [Hi|Hi].
    + rewrite lookup_seqZ_lt by lia. cbn [fmap option_fmap option_map]. rewrite Hb by lia.
      destruct (Z.ltb_spec (0 + Z.of_nat i) 0); [lia|].
      replace (Z.to_nat (0 + Z.of_nat i - 0)) with i by lia.
      destruct (decide (i < length chunk)%nat) as [Hlt|Hge].
      * rewrite lookup_app_l by done. destruct (lookup_lt_is_Some_2 _ _ Hlt) as [b ->]. done.
      * rewrite (lookup_ge_None_2 chunk) by lia. rewrite lookup_app_r by lia.
        rewrite lookup_replicate_2 by lia. done.
    + rewrite lookup_seqZ_ge by lia. symmetry. apply lookup_ge_None.
      rewrite length_app, length_replicate. lia.
Qed.

Lemma chunks_64_bits fuel : ∀ l,
  (length l ≤ fuel)%nat →
  ∃ pad : nat, (pad < 64)%nat ∧
    Forall is_word ((λ chunk, chunk_word chunk 0 0) <$> chunks_64 fuel l) ∧
    words_bits ((λ chunk, chunk_word chunk 0 0) <$> chunks_64 fuel l) = l ++ replicate pad false.
Proof.
  induction fuel as [|fuel IH]; intros l Hl; cbn [chunks_64].
  { destruct l; [|simpl in Hl; lia]. exists 0%nat. split; [lia|]. split; [constructor|done]. }
  destruct l as [|b l].
  { exists 0%nat. split; [lia|]. split; [constructor|done]. }
  set (k := b :: l) in *. assert (0 < length k)%nat by (subst k; simpl; lia). clearbody k. clear b l.
  destruct (chunk_word_bits (take 64 k)) as [Hw Hbits]; [rewrite length_take; lia|].
  rewrite fmap_cons. unfold words_bits. rewrite fmap_cons. cbn [concat].
  fold (words_bits ((λ chunk, chunk_word chunk 0 0) <$> chunks_64 fuel (drop 64 k))).
  destruct (IH (drop 64 k)) as (pad & Hpad & Hall & Heq); [rewrite length_drop; lia|].
  rewrite Hbits, Heq. destruct (decide (64 ≤ length k)%nat) as [Hge|Hlt].
  - exists pad. split; [done|]. split; [by constructor|].
    rewrite length_take. replace (64 - _)%nat with 0%nat by lia. cbn [replicate].
    by rewrite app_nil_r, app_assoc, take_drop.
  - exists (64 - length k)%nat. split; [lia|]. split; [by constructor|].
    assert (Hd : drop 64 k = []) by (apply drop_ge; lia). rewrite Hd in *.
    rewrite take_ge by lia. replace pad with 0%nat; [by rewrite !app_nil_r|].
    destruct fuel; cbn [chunks_64] in Heq; apply (f_equal length) in Heq;
      cbn [app words_bits fmap list_fmap concat length] in Heq; rewrite length_replicate in Heq; done.
Qed.

(** ** Properties *)
Definition pad_ok (nb : Z) (l : list bool) : Prop :=
  0 ≤ nb < 2 ^ 32 ∧ nb ≤ zlen l < nb + 64 ∧ Forall (λ b, b = false) (drop (Z.to_nat nb) l).

Lemma for_each_segments {S} (f : S → Z → S * bool) (s : S) nb gs r :
  Forall segment_ok gs → pad_ok nb (segments_bits gs) → runs_fit nb 0 gs →
  for_each_set_bit f {| num_bits := nb; bits := encode_segments gs; rlw := r |} s =
    visit f (take (Z.to_nat nb) (segments_bits gs)) 0 s.
Proof.
  intros Hok (Hnb & Hl & Hf) Hfit. unfold for_each_set_bit. cbn [num_bits bits].
  replace 0 with (Z.min 0 nb) at 1 by lia.
  rewrite (words_loop_spec f nb (zlen (segments_bits gs) - nb) ltac:(lia) ltac:(lia)) by
    first [done | split; [done|split; [lia|by rewrite Z.sub_0_r]]].
  rewrite <- (take_drop (Z.to_nat nb) (segments_bits gs)) at 1. rewrite visit_app.
  destruct (visit f (take _ _) 0 s) as [s' []]; [|done]. by rewrite visit_false.
Qed.

(** [for_each_set_bit] calls its callback for exactly the set bits, in order
    and until the callback stops it, for every bitmap written as runs and literal
    words: the bits of a run are all set or all clear, those of a literal word are
    read from its low bit up, and the zero padding of the last word is not visited. *)
Theorem for_each_visits_set_bits {S} (f : S → Z → S * bool) (s : S) (nb : Z) (gs : list segment)
    (r : Z) :
  Forall segment_ok gs → pad_ok nb (segments_bits gs) → runs_fit nb 0 gs →
  for_each_set_bit f {| num_bits := nb; bits := encode_segments gs; rlw := r |} s =
    visit f (take (Z.to_nat nb) (segments_bits gs)) 0 s.
Proof. apply for_each_segments. Qed.
Definition sample_segments : list segment :=
  [{| run_bit := true; run_words := 1; literals := [5] |};
   {| run_bit := false; run_words := 1; literals := [3] |}].
Lemma for_each_visits_set_bits_witness :
  for_each_set_bit collect
    {| num_bits := 194; bits := encode_segments sample_segments; rlw := 0 |} [] =
  visit collect (take (Z.to_nat 194) (segments_bits sample_segments)) 0 [].
Proof.
  apply (for_each_visits_set_bits collect [] 194 sample_segments 0).
  - repeat constructor; done.
  - split; [done|]. split; [vm_compute; split; [discriminate|reflexivity]|].
    apply (bool_decide_unpack _). vm_compute. exact I.
  - intros a g b Heq _. destruct a as [|x [|y [|z a]]].
    + injection Heq as <- _. vm_compute. discriminate.
    + injection Heq as <- <- _. vm_compute. discriminate.
    + discriminate Heq.
    + discriminate Heq.
Defined.

(** [from_bits] fails exactly when there are more than [u32::MAX] bits;
    otherwise its bitmap is one [decode] accepts, and iterating over it visits
    exactly the positions of the given bits that are set. *)
Theorem from_bits_correct {S} (f : S → Z → S * bool) (s : S) (l : list bool) :
  (2 ^ 32 ≤ zlen l ∧ from_bits l = None) ∨
  (zlen l < 2 ^ 32 ∧ ∃ v, from_bits l = Some v ∧ vec_ok v ∧ for_each_set_bit f v s = visit f l 0 s).
Proof.
  unfold from_bits. pose proof (zlen_nonneg l).
  destruct (Z.lt_ge_cases (zlen l) (2 ^ 32)) as [Hlt|Hge].
  2: { left. split; [done|]. by rewrite checked_out by lia. }
  right. split; [done|]. rewrite checked_in by lia. cbn [mbind option_bind].
  destruct (chunks_64_bits (length l) l (le_n _)) as (pad & Hpad & Hw & Hbits).
  set (ws := (λ chunk, chunk_word chunk 0 0) <$> chunks_64 (length l) l) in *. clearbody ws.
  assert (Hlen : 64 * zlen ws = zlen l + Z.of_nat pad).
  { rewrite <- zlen_words_bits, Hbits, zlen_app. unfold zlen at 2. by rewrite length_replicate. }
  pose proof (zlen_nonneg ws). set (g := {| run_bit := false; run_words := 0; literals := ws |}).
  assert (Hg : segment_ok g) by (split; [done|]; split; [simpl; lia|done]).
  assert (Hm : wrap 64 (Z.shiftl (zlen ws) (1 + RLW_RUNNING_BITS)) = marker g).
  { change (1 + RLW_RUNNING_BITS) with 33. rewrite Z.shiftl_mul_pow2 by lia.
    rewrite wrap_small by lia. unfold marker. simpl run_bit. simpl run_words. simpl literals. lia. }
  assert (He : marker g :: ws = encode_segments [g])
    by (unfold encode_segments; simpl; by rewrite app_nil_r).
  assert (Hb : segments_bits [g] = l ++ replicate pad false)
    by (unfold segments_bits; simpl; rewrite app_nil_r; exact Hbits).
  rewrite Hm, He. eexists. split; [done|]. split.
  - destruct (marker_fields g Hg) as (Hlit & _). split; cbn [num_bits bits rlw].
    + lia.
    + rewrite <- He. constructor; [|done]. unfold is_word, marker. simpl. lia.
    + rewrite <- He, zlen_cons. lia.
    + rewrite <- He, <- (app_nil_r ws). constructor; [done|constructor].
    + rewrite <- He, zlen_cons. lia.
  - rewrite for_each_segments.
    + rewrite Hb. unfold zlen. by rewrite Nat2Z.id, take_app_length.
    + by constructor.
    + rewrite Hb. split; [lia|]. rewrite zlen_app. unfold zlen. rewrite length_replicate.
      split; [lia|]. rewrite Nat2Z.id, drop_app_length. by apply Forall_replicate.
    + intros [|x [|y a]] g' b Heq Hne; try done. by injection Heq as <- _.
Qed.

(** ** What the callback keeps is kept, whatever the words *)
Section Preserves.
Context {S : Type} (f : S → Z → S * bool) (nb : Z) (P : S → Prop) (Hf : ∀ s i, P s → P (f s i).1).
Lemma run_loop_preserves n : ∀ index s, P s → P (run_loop f n index s).1.
Proof using Hf.
  induction n as [|n IH]; intros index s Hs; [done|]. cbn [run_loop]. pose proof (Hf s index Hs) as H.
  destruct (f s index) as [s' [|]]; [by apply IH|done].
Qed.
Lemma bit_loop_preserves word n : ∀ bit index s, P s → P (bit_loop f word n bit index s).1.
Proof using Hf.
  induction n as [|n IH]; intros bit index s Hs; [done|]. cbn [bit_loop]. destruct (negb _); [|by apply IH].
  pose proof (Hf s index Hs) as H. destruct (f s index) as [s' [|]]; [by apply IH|done].
Qed.
Lemma literal_loop_preserves iter : ∀ n index s, P s → P (literal_loop f nb iter n index s).1.
Proof using Hf.
  induction iter as [|w iter IH]; intros n index s Hs; cbn [literal_loop]; destruct (n <=? 0); try done.
  destruct (checked_sub 64 nb index) as [r|]; [|done]. destruct (r =? 0); [done|]. destruct (_ && _); [done|].
  pose proof (bit_loop_preserves w (Z.to_nat (Z.min r 64)) 0 index s Hs) as H.
  destruct (bit_loop f w _ 0 index s) as [s' [|]]; [by apply IH|done].
Qed.
Lemma words_loop_preserves fuel : ∀ iter index s, P s → P (words_loop f nb fuel iter index s).1.
Proof using Hf.
  induction fuel as [|fuel IH]; intros [|w iter] index s Hs; try done. cbn [words_loop].
  destruct (checked_add 64 index _) as [e|]; [|done]. destruct (nb <? e); [done|].
  assert (P (if rlw_runbit_is_set w then run_loop f (Z.to_nat (rlw_running_len_bits w)) index s else (s, true)).1) as H
    by (destruct (rlw_runbit_is_set w); [by apply run_loop_preserves|done]).
  destruct (if rlw_runbit_is_set w then _ else _) as [s' [|]]; [|done]. cbn [fst] in H.
  pose proof (literal_loop_preserves iter (rlw_literal_words w) e s' H) as H'.
  destruct (literal_loop f nb iter _ e s') as [s2 [[it ix]|]]; [by apply IH|done].
Qed.
End Preserves.
Lemma for_each_preserves {S} (f : S → Z → S * bool) v (P : S → Prop) s :
  (∀ s i, P s → P (f s i).1) → P s → P (for_each_set_bit f v s).1.
Proof. intros Hf Hs. by apply (words_loop_preserves f (num_bits v) P Hf). Qed.
