(* ===== verification/InOrder.v ===== *)
(** * [gix-parallel/src/in_order.rs]: results in the order of their ids

    [inner] is what the wrapped iterator will yield, where pulling an element can panic. The
    iterator yields [Ok] and [Err] values; [next] returns the new state and the value. *)

From stdpp Require Import gmap.
From S2P Require Import Prelude.

Section InOrder.
Context {E T : Type}.

Record InOrderIter := {
  inner : list (outcome E (nat * T));
  store : gmap nat T;
  next_chunk : nat;
  is_done : bool;
}.
Definition in_order (iter : list (outcome E (nat * T))) : InOrderIter :=
  {| inner := iter; store := ∅; next_chunk := 0; is_done := false |}.

(** [loop], on what is left to pull. *)
Fixpoint find_next_in_sequence {F} (inner : list (outcome E (nat * T))) (store : gmap nat T) (next_chunk : nat)
    : outcome F (InOrderIter * option (outcome E T)) :=
  match inner with
  | Ok (c, v) :: inner =>
      match (c ?= next_chunk)%nat with
      | Eq => Ok ({| inner := inner; store := store; next_chunk := S next_chunk; is_done := false |}, Some (Ok v))
      | Lt => Panic
      | Gt =>
          _ ← assert_that (bool_decide (store !! c = None));
          let store := <[c := v]> store in
          match store !! next_chunk with
          | Some v => Ok ({| inner := inner; store := delete next_chunk store; next_chunk := S next_chunk;
                             is_done := false |}, Some (Ok v))
          | None => find_next_in_sequence inner store next_chunk
          end
      end
  | Err e :: inner =>
      Ok ({| inner := inner; store := ∅; next_chunk := next_chunk; is_done := true |}, Some (Err e))
  | Panic :: _ => Panic
  | [] =>
      match store !! next_chunk with
      | Some v => Ok ({| inner := []; store := delete next_chunk store; next_chunk := S next_chunk;
                         is_done := false |}, Some (Ok v))
      | None =>
          _ ← assert_that (bool_decide (store = ∅));
          Ok ({| inner := []; store := store; next_chunk := next_chunk; is_done := false |}, None)
      end
  end.
Definition in_order_next {F} (it : InOrderIter) : outcome F (InOrderIter * option (outcome E T)) :=
  if is_done it then Ok (it, None) else find_next_in_sequence (inner it) (store it) (next_chunk it).

(** All that the iterator yields, by calls of [next] until there is nothing more. *)
Fixpoint in_order_all {F} (fuel : nat) (it : InOrderIter) : outcome F (list (outcome E T)) :=
  match fuel with
  | O => Panic
  | S fuel =>
      '(it, r) ← in_order_next it;
      match r with
      | None => Ok []
      | Some v => rest ← in_order_all fuel it; Ok (v :: rest)
      end
  end.
End InOrder.
Arguments InOrderIter : clear implicits.

Lemma in_order_all_cons {E F T} fuel (it : InOrderIter E T) rs :
  in_order_all (F := F) (S fuel) it = Ok rs →
  ∃ it' r, in_order_next (F := F) it = Ok (it', r) ∧
    match rs with
    | [] => r = None
    | v :: rs => r = Some v ∧ in_order_all (F := F) fuel it' = Ok rs
    end.
Proof.
  cbn [in_order_all]. intros H. destruct (in_order_next it) as [[it' r]| |]; [|done|done]. exists it', r. split; [done|].
  cbn [mbind outcome_bind] in H. destruct r as [v|]; [|by injection H as <-].
  destruct (in_order_all fuel it') as [rs'| |]; [|done|done]. cbn [mbind outcome_bind] in H. by injection H as <-.
Qed.

(** ** The order of the sequence *)
Section Order.
Context {E T : Type}.
Context (vs : list T) (tail : list (outcome E (nat * T))).
Context (Htail : tail = [] ∨ ∃ e rest, tail = Err e :: rest).

(** What is stored and what will arrive in front of [tail] are values from the next one on, each once;
    all of them if there is no error. *)
Record sequence_ok (st : gmap nat T) (n : nat) (l : list (nat * T)) : Prop := {
  so_ids : NoDup (l.*1);
  so_store : ∀ c, c ∈ l.*1 → st !! c = None;
  so_arrives : ∀ c v, (c, v) ∈ l → (n ≤ c)%nat ∧ vs !! c = Some v;
  so_stored : ∀ c v, st !! c = Some v → (n ≤ c)%nat ∧ vs !! c = Some v;
  so_all : tail = [] → ∀ c, (n ≤ c < length vs)%nat → c ∈ l.*1 ∨ is_Some (st !! c);
}.

Definition next_ok {F} (n : nat) (r : outcome F (InOrderIter E T * option (outcome E T))) : Prop :=
  match r with
  | Ok (it, Some (Ok v)) =>
      vs !! n = Some v ∧ is_done it = false ∧ next_chunk it = S n ∧
      ∃ l, inner it = (Ok <$> l) ++ tail ∧ sequence_ok (store it) (S n) l
  | Ok (it, Some (Err e)) => is_done it = true ∧ ∃ rest, tail = Err e :: rest
  | Ok (_, None) => tail = [] ∧ (length vs ≤ n)%nat
  | _ => False
  end.

(** Giving out a stored value keeps the invariant. *)
Lemma sequence_take st n l v :
  sequence_ok st n l → st !! n = Some v → vs !! n = Some v ∧ sequence_ok (delete n st) (S n) l.
Proof.
  intros [H1 H2 H3 H4 H5] Hv. destruct (H4 n v Hv) as [_ Hvs]. split; [done|].
  split; [done|intros c Hc; rewrite lookup_delete_None; auto| | |].
  - intros c w Hc. destruct (H3 c w Hc). split; [|done]. enough (c ≠ n) by lia. intros ->.
    rewrite H2 in Hv; [done|]. apply list_elem_of_fmap. by exists (n, w).
  - intros c w [Hne Hc]%lookup_delete_Some. destruct (H4 c w Hc). split; [lia|done].
  - intros Ht c Hc. destruct (H5 Ht c) as [Hin|Hs]; [lia|by left|]. right. rewrite lookup_delete_ne by lia. done.
Qed.
Lemma sequence_stored_next {F} st n l v :
  sequence_ok st n l → st !! n = Some v →
  next_ok (F := F) n (Ok ({| inner := (Ok <$> l) ++ tail; store := delete n st; next_chunk := S n; is_done := false |}, Some (Ok v))).
Proof. intros Hs Hv. destruct (sequence_take st n l v Hs Hv) as [H1 H2]. repeat split; [done|]. by exists l. Qed.

Lemma find_next_ok {F} l : ∀ st n,
  sequence_ok st n l → next_ok (F := F) n (find_next_in_sequence ((Ok <$> l) ++ tail) st n).
Proof.
  induction l as [|[c v] l IH]; intros st n Hs.
  { cbn [fmap list_fmap app]. destruct Htail as [Ht|(e & rest & Ht)]; rewrite Ht; cbn [find_next_in_sequence].
    - destruct (st !! n) as [v|] eqn:Hv; [by apply (sequence_stored_next (F := F) st n []) in Hv; [rewrite Ht in Hv|]|].
      assert (length vs ≤ n)%nat as Hn.
      { apply Nat.nlt_ge. intros Hlt. destruct (so_all _ _ _ Hs Ht n) as [Hin|[w Hw]]; [lia|by apply not_elem_of_nil in Hin|congruence]. }
      assert (st = ∅) as ->.
      { apply map_empty. intros c. destruct (st !! c) as [w|] eqn:Hw; [|done].
        apply (so_stored _ _ _ Hs) in Hw as [Hc Hw]. apply lookup_lt_Some in Hw. lia. }
      rewrite bool_decide_true by done. done.
    - split; [done|]. by exists rest. }
  cbn [fmap list_fmap app find_next_in_sequence]. destruct Hs as [H1 H2 H3 H4 H5]. cbn [fmap list_fmap fst] in *.
  apply list.NoDup_cons in H1 as [Hnin H1]. destruct (H3 c v ltac:(by left)) as [Hc Hv].
  destruct (Nat.compare_spec c n) as [->|Hlt|Hgt]; [|lia|].
  - repeat split; [done|]. exists l. split; [done|]. cbn [store]. split; [done| | | |].
    + intros c Hin. apply H2. by right.
    + intros c w Hin. destruct (H3 c w ltac:(by right)). split; [|done]. enough (c ≠ n) by lia. intros ->.
      apply Hnin, list_elem_of_fmap. by exists (n, w).
    + intros c w Hw. destruct (H4 c w Hw). split; [|done]. enough (c ≠ n) by lia. intros ->. rewrite H2 in Hw; [done|by left].
    + intros Ht c Hcc. destruct (H5 Ht c) as [[->|Hin]%elem_of_cons|Hs]; [lia|lia|by left|by right].
  - rewrite bool_decide_true by (apply H2; by left). cbn [assert_that mbind outcome_bind].
    assert (sequence_ok (<[c:=v]> st) n l) as Hs.
    { split; [done| | | |].
      - intros c' Hin. rewrite lookup_insert_ne; [apply H2; by right|]. by intros ->.
      - intros c' w Hin. apply H3. by right.
      - intros c' w [[-> ->]|[_ Hw]]%lookup_insert_Some; [done|by apply H4].
      - intros Ht c' Hcc. destruct (H5 Ht c' Hcc) as [[->|Hin]%elem_of_cons|[w Hw]]; [|by left|].
        + right. rewrite lookup_insert_eq. done.
        + right. destruct (decide (c = c')) as [->|]; [rewrite lookup_insert_eq|rewrite lookup_insert_ne by done]; done. }
    destruct (<[c:=v]> st !! n) as [w|] eqn:Hw; [by apply sequence_stored_next|by apply IH].
Qed.

Lemma in_order_all_ok {F} fuel : ∀ it l,
  inner it = (Ok <$> l) ++ tail → is_done it = false → sequence_ok (store it) (next_chunk it) l →
  (next_chunk it ≤ length vs)%nat → (S (length vs) < fuel + next_chunk it)%nat →
  ∃ m, in_order_all (F := F) fuel it = Ok ((Ok <$> take m (drop (next_chunk it) vs)) ++
         match tail with Err e :: _ => [Err e] | _ => [] end) ∧ (tail = [] → (length vs ≤ next_chunk it + m)%nat).
Proof.
  induction fuel as [|fuel IH]; intros it l Hi Hd Hs Hn Hf; [lia|]. cbn [in_order_all]. unfold in_order_next. rewrite Hd, Hi.
  pose proof (find_next_ok (F := F) l _ _ Hs) as Hok.
  destruct (find_next_in_sequence _ _ _) as [[it' [r|]]| |]; cbn [mbind outcome_bind]; [|..|done|done].
  2:{ destruct Hok as [Ht Hl]. exists 0%nat. rewrite Ht. split; [done|]. intros _. lia. }
  destruct r as [v|e|]; [| |done].
  - destruct Hok as (Hv & Hd' & Hn' & l' & Hi' & Hs'). apply lookup_lt_Some in Hv as Hlt.
    destruct (IH it' l') as (m & -> & Hm); [done|done|by rewrite Hn'|lia|lia|].
    exists (S m). rewrite Hn' in *. rewrite (drop_S vs v (next_chunk it)) by done. cbn [mbind outcome_bind take fmap list_fmap app]. split; [done|]. intros Ht. specialize (Hm Ht). lia.
  - destruct Hok as (Hd' & rest & Ht). exists 0%nat. rewrite Ht. split; [|done].
    destruct fuel as [|fuel]; [lia|]. cbn [in_order_all]. unfold in_order_next. rewrite Hd'. done.
Qed.
End Order.

(** The values of a sequence with their ids. *)
Definition numbered {T} (vs : list T) : list (nat * T) := zip (seq 0 (length vs)) vs.

Lemma numbered_ids {T} (vs : list T) : (numbered vs).*1 = seq 0 (length vs).
Proof. apply fst_zip. by rewrite length_seq. Qed.
Lemma numbered_value {T} (vs : list T) c v : (c, v) ∈ numbered vs → vs !! c = Some v.
Proof.
  intros (i & Hi)%list_elem_of_lookup. apply lookup_zip_Some in Hi as [Hc Hv]. by apply lookup_seq in Hc as [-> _].
Qed.
(** Values that arrive in any order, each at most once, are such a sequence. *)
Lemma sequence_start {E T} (vs : list T) (tail : list (outcome E (nat * T))) (l l' : list (nat * T)) :
  l ++ l' ≡ₚ numbered vs → (tail = [] → l' = []) → sequence_ok vs tail ∅ 0 l.
Proof.
  intros Hp Ht. assert (NoDup (l.*1 ++ l'.*1)) as Hnd.
  { rewrite <- fmap_app, Hp, numbered_ids. apply NoDup_seq. }
  apply list.NoDup_app in Hnd as [Hnd _]. split; [exact Hnd|done| |done|].
  - intros c v Hin. split; [lia|]. apply numbered_value. rewrite <- Hp. apply elem_of_app. by left.
  - intros Htn c Hc. rewrite (Ht Htn), app_nil_r in Hp. left. rewrite Hp, numbered_ids. apply elem_of_seq. lia.
Qed.

(** Whatever the order in which the results of a sequence arrive with their ids, they come out in the order
    of the sequence, all of them, and without a panic. *)
Lemma in_order_exact {E F T} (vs : list T) (l : list (nat * T)) :
  l ≡ₚ numbered vs → in_order_all (E := E) (F := F) (S (S (length vs))) (in_order (Ok <$> l)) = Ok (Ok <$> vs).
Proof.
  intros Hl. destruct (in_order_all_ok vs (E := E) (F := F) [] (or_introl eq_refl) (S (S (length vs))) (in_order (Ok <$> l)) l)
    as (m & -> & Hm); [by rewrite app_nil_r|done| |cbn [next_chunk in_order]; lia|cbn [next_chunk in_order]; lia|].
  - apply (sequence_start vs [] l []); [by rewrite app_nil_r|done].
  - cbn [next_chunk in_order] in *. rewrite drop_0, take_ge by (specialize (Hm eq_refl); lia). by rewrite app_nil_r.
Qed.
(** An error ends the iteration: what came out before it is the beginning of the sequence. *)
Lemma in_order_error {E F T} (vs : list T) (l l' : list (nat * T)) (e : E) rest :
  l ++ l' ≡ₚ numbered vs →
  ∃ m, in_order_all (F := F) (S (S (length vs))) (in_order ((Ok <$> l) ++ Err e :: rest)) = Ok ((Ok <$> take m vs) ++ [Err e]).
Proof.
  intros Hl. destruct (in_order_all_ok (F := F) vs (Err e :: rest) (or_intror (ex_intro _ e (ex_intro _ rest eq_refl)))
    (S (S (length vs))) (in_order ((Ok <$> l) ++ Err e :: rest)) l) as (m & Hm & _); [done|done| |cbn [next_chunk in_order]; lia|cbn [next_chunk in_order]; lia|].
  - by apply (sequence_start vs (Err e :: rest) l l').
  - by exists m.
Qed.

Example in_order_sample :
  in_order_all (E := ()) (F := ()) 5 (in_order [Ok (2%nat, 30); Ok (0%nat, 10); Ok (1%nat, 20)]) = Ok [Ok 10; Ok 20; Ok 30].
Proof. vm_compute. reflexivity. Qed.
