(* ===== verification/GitIndex.v ===== *)
(** * [gix-index]: the entries of the index file

    [State] is the index in memory: entries refer to their paths by ranges of one buffer,
    the path backing. [decode_entries] is the part of [State::from_bytes] that reads header
    and entries with one thread, [write_entries_block] the part of [State::write_to] that
    writes them; extensions are data here, their formats are in [GitIndexExtensions]. A flag set or a mode
    is the number of its bits; positions of pointers are distances from the beginning of an
    entry. Vectors can be reserved. *)

From S2P Require Import Prelude Slices Hash Ewah PackEntry.

(** ** Data *)
Inductive Version := V2 | V3 | V4.
#[export] Instance Version_eq_dec : EqDecision Version.
Proof. solve_decision. Defined.

Record Time := { secs : Z; nsecs : Z }.
Record Stat := {
  mtime : Time;
  ctime : Time;
  dev : Z;
  ino : Z;
  uid : Z;
  gid : Z;
  size : Z;
}.
Record Entry := {
  stat : Stat;
  id : ObjectId;
  flags : Z;
  mode : Z;
  path : Z * Z;
}.
#[export] Instance Time_eq_dec : EqDecision Time.
Proof. solve_decision. Defined.
#[export] Instance Stat_eq_dec : EqDecision Stat.
Proof. solve_decision. Defined.
#[export] Instance Entry_eq_dec : EqDecision Entry.
Proof. solve_decision. Defined.

(** [extension/mod.rs] and the modules of the extensions *)
Inductive Tree := {
  tree_name : bytes;
  tree_id : ObjectId;
  num_entries : option Z;
  children : list Tree;
}.
Record Bitmaps := { delete_bitmap : Ewah.Vec; replace_bitmap : Ewah.Vec }.
Record Link := { shared_index_checksum : ObjectId; bitmaps : option Bitmaps }.
Record UndoStage := { undo_mode : Z; undo_id : ObjectId }.
Record ResolvePath := { undo_name : bytes; stages : list (option UndoStage) }.
Record OidStat := { oid_stat : Stat; oid_stat_id : ObjectId }.
Record Directory := {
  dir_name : bytes;
  untracked_entries : list bytes;
  sub_directories : list Z;
  dir_stat : option Stat;
  exclude_file_oid : option ObjectId;
  check_only : bool;
}.
Record UntrackedCache := {
  identifier : bytes;
  info_exclude : option OidStat;
  excludes_file : option OidStat;
  exclude_filename_per_dir : bytes;
  dir_flags : Z;
  directories : list Directory;
}.
Inductive Token := TokenV1 (nanos_since_1970 : Z) | TokenV2 (token : bytes).
Record FsMonitor := { token : Token; entry_dirty : Ewah.Vec }.

Record State := {
  object_hash : Kind;
  version : Version;
  entries : list Entry;
  path_backing : bytes;
  is_sparse : bool;
  end_of_index_at_decode_time : bool;
  offset_table_at_decode_time : bool;
  tree : option Tree;
  link : option Link;
  resolve_undo : option (list ResolvePath);
  untracked : option UntrackedCache;
  fs_monitor : option FsMonitor;
}.

(** ** [entry/flags.rs], [entry/mod.rs]: flags and modes *)
Definition PATH_LEN : Z := 0x0fff.
Definition STAGE_MASK : Z := 0x3000.
Definition EXTENDED : Z := 0x4000.
Definition REMOVE : Z := 0x20000.
Definition INTENT_TO_ADD : Z := 2 ^ 29.
Definition SKIP_WORKTREE : Z := 2 ^ 30.
(** The union of all flags. *)
Definition ALL_FLAGS : Z := 2 ^ 32 - 1.

Definition MODE_DIR : Z := 0x4000.
Definition MODE_FILE : Z := 0x81a4.
Definition MODE_FILE_EXECUTABLE : Z := 0x81ed.
Definition MODE_SYMLINK : Z := 0xa000.
Definition MODE_COMMIT : Z := 0xe000.
Definition ALL_MODES : Z :=
  Z.lor MODE_DIR (Z.lor MODE_FILE (Z.lor MODE_FILE_EXECUTABLE (Z.lor MODE_SYMLINK MODE_COMMIT))).
Definition mode_is_sparse (m : Z) : bool := m =? MODE_DIR.
Definition mode_is_submodule (m : Z) : bool := m =? Z.lor MODE_DIR MODE_SYMLINK.

(** [contains] and [from_bits] of a flag set. *)
Definition contains (bits f : Z) : bool := Z.land bits f =? f.
Definition from_bits (all bits : Z) : option Z :=
  if Z.land bits (Z.lnot all) =? 0 then Some bits else None.

Definition stage_raw (f : Z) : Z := Z.shiftr (Z.land f STAGE_MASK) 12.
Definition to_storage (f : Z) : Z := wrap 16 (Z.land f (Z.lnot PATH_LEN)).
(** [at_rest::FlagsExtended] *)
Definition extended_from_bits (bits : Z) : option Z :=
  from_bits (Z.lor (Z.shiftr INTENT_TO_ADD 16) (Z.shiftr SKIP_WORKTREE 16)) bits.
Definition extended_from_flags (f : Z) : Z :=
  wrap 16 (Z.shiftr (Z.land f (Z.lor INTENT_TO_ADD SKIP_WORKTREE)) 16).
Definition extended_to_flags (bits : Z) : option Z := from_bits ALL_FLAGS (Z.shiftl bits 16).

(** ** [lib.rs]: reading *)
Inductive index_error :=
| TooSmall
| SignatureMismatch
| VersionUnsupported (v : Z)
| TooManyEntries
| AllocationFailed
| BadEntry (idx : Z)
| InvalidInput
| IndexTooLarge.

Definition read_u32 (data : bytes) : option (Z * bytes) :=
  '(num, data) ← split_at_checked data 4; Some (from_be num, data).
Definition read_u16 (data : bytes) : option (Z * bytes) :=
  '(num, data) ← split_at_checked data 2; Some (from_be num, data).
Definition var_int (data : bytes) : outcome () (Z * bytes) :=
  match leb64_from_read data with
  | Ok (num, consumed, _) => data ← expect (get_from data consumed); Ok (num, data)
  | Err _ => Err tt
  | Panic => Panic
  end.
Definition split_at_byte_exclusive (data : bytes) (b : Z) : option (bytes * bytes) :=
  if zlen data <? 2 then None
  else match position (λ x, x =? b) data with
       | Some idx => Some (take (Z.to_nat idx) data, drop (S (Z.to_nat idx)) data)
       | None => None
       end.

(** ** [decode/header.rs] *)
Definition HEADER_SIZE : Z := 4 + 4 + 4.
Definition SIGNATURE : bytes := [68; 73; 82; 67].
Definition header_decode (data : bytes) (object_hash : Kind) : outcome index_error (Version * Z * bytes) :=
  _ ← ensure (negb (zlen data <? 3 * 4 + len_in_bytes object_hash)) TooSmall;
  '(signature, data) ← expect (split_at_checked data 4);
  _ ← ensure (bytes_eqb signature SIGNATURE) SignatureMismatch;
  '(version, data) ← expect (split_at_checked data 4);
  let version := from_be version in
  version ← (if version =? 2 then Ok V2 else if version =? 3 then Ok V3
             else if version =? 4 then Ok V4 else Err (VersionUnsupported version));
  '(entries, data) ← expect (split_at_checked data 4);
  Ok (version, from_be entries, data).

(** ** [decode/entries.rs] *)
Definition AVERAGE_V4_DELTA_PATH_LEN_IN_BYTES : Z := 80.
Definition saturating_sub (a b : Z) : Z := Z.max 0 (a - b).
Definition entries_block_size_in_bytes (on_disk_size : Z) (offset_to_extensions : option Z)
    (object_hash : Kind) : Z :=
  saturating_sub (match offset_to_extensions with
                  | Some offset => offset
                  | None => saturating_sub on_disk_size (len_in_bytes object_hash)
                  end) HEADER_SIZE.
Definition on_disk_entry_sans_path (object_hash : Kind) : Z :=
  8 + 8 + 4 * 6 + 2 + len_in_bytes object_hash.
Definition next_multiple_of (a n : Z) : Z := (a + (n - 1)) / n * n.
Definition min_entry_size_in_bytes (object_hash : Kind) (version : Version) : Z :=
  let size := on_disk_entry_sans_path object_hash in
  match version with V2 | V3 => next_multiple_of size 8 | V4 => size + 2 end.
Definition max_entries_possible (on_disk_size : Z) (offset_to_extensions : option Z)
    (object_hash : Kind) (version : Version) : Z :=
  entries_block_size_in_bytes on_disk_size offset_to_extensions object_hash
    / min_entry_size_in_bytes object_hash version.
Definition estimate_path_storage_requirements_in_bytes (num_entries on_disk_size : Z)
    (offset_to_extensions : option Z) (object_hash : Kind) (version : Version) : Z :=
  let size_of_entries_block := entries_block_size_in_bytes on_disk_size offset_to_extensions object_hash in
  match version with
  | V3 | V2 => saturating_sub size_of_entries_block (num_entries * on_disk_entry_sans_path object_hash)
  | V4 =>
      Z.min (saturating_sub size_of_entries_block (num_entries * (on_disk_entry_sans_path object_hash + 2)))
        (num_entries * AVERAGE_V4_DELTA_PATH_LEN_IN_BYTES)
  end.

(** [skip_padding]; [consumed] is the distance of [data] from the first byte of the entry. *)
Definition skip_padding (data : bytes) (consumed : Z) : option bytes :=
  let c_padding := Z.land (consumed + 8) (Z.lnot 7) in
  get_from data (c_padding - consumed).

(** The path of an entry of version 4: what is left of the previous path after [strip_len]
    bytes were taken off its end, and a suffix. *)
Definition load_delta_path (data path_backing : bytes) (prev_path : option (Z * Z))
    : outcome () (bytes * bytes) :=
  '(strip_len, data) ← var_int data;
  path_backing ←
    match prev_path with
    | Some (prev_start, prev_end) =>
        end_ ← ok_or tt (checked_sub 64 prev_end strip_len);
        copy_len ← ok_or tt (checked_sub 64 end_ prev_start);
        if 0 <? copy_len then
          buf ← expect (get_range path_backing prev_start end_);
          Ok (path_backing ++ buf)
        else Ok path_backing
    | None => Ok path_backing
    end;
  '(path, data) ← ok_or tt (split_at_byte_exclusive data 0);
  Ok (path_backing ++ path, data).
(** The path of an entry of the other versions. *)
Definition load_path (data path_backing : bytes) (flags entry_len : Z) : outcome () (bytes * bytes) :=
  '(path, data) ←
    (if contains flags PATH_LEN then ok_or tt (split_at_byte_exclusive data 0)
     else
       let path_len := Z.land flags PATH_LEN in
       '(path, data) ← ok_or tt (split_at_checked data path_len);
       data ← ok_or tt (skip_padding data (entry_len - zlen data));
       Ok (path, data));
  Ok (path_backing ++ path, data).
Definition load_flags (data : bytes) : option (Z * bytes) :=
  '(flags, data) ← read_u16 data;
  if contains flags EXTENDED then
    '(extended_flags, data) ← read_u16 data;
    extended_flags ← extended_from_bits extended_flags;
    extended_flags ← extended_to_flags extended_flags;
    Some (Z.lor flags extended_flags, data)
  else Some (flags, data).

Definition load_one (data path_backing : bytes) (hash_len : Z) (has_delta_paths : bool)
    (prev_path : option (Z * Z)) : outcome () (Entry * bytes * bytes) :=
  let entry_len := zlen data in
  '(ctime_secs, data) ← ok_or tt (read_u32 data);
  '(ctime_nsecs, data) ← ok_or tt (read_u32 data);
  '(mtime_secs, data) ← ok_or tt (read_u32 data);
  '(mtime_nsecs, data) ← ok_or tt (read_u32 data);
  '(dev, data) ← ok_or tt (read_u32 data);
  '(ino, data) ← ok_or tt (read_u32 data);
  '(mode, data) ← ok_or tt (read_u32 data);
  '(uid, data) ← ok_or tt (read_u32 data);
  '(gid, data) ← ok_or tt (read_u32 data);
  '(size, data) ← ok_or tt (read_u32 data);
  '(hash, data) ← ok_or tt (split_at_checked data hash_len);
  '(flags, data) ← ok_or tt (load_flags data);
  let start := zlen path_backing in
  '(path_backing, data) ←
    (if has_delta_paths then load_delta_path data path_backing prev_path
     else load_path data path_backing flags entry_len);
  id ← from_bytes_or_panic hash;
  Ok ({| stat := {| ctime := {| secs := ctime_secs; nsecs := ctime_nsecs |};
                    mtime := {| secs := mtime_secs; nsecs := mtime_nsecs |};
                    dev := dev; ino := ino; uid := uid; gid := gid; size := size |};
         id := id;
         flags := Z.land flags (Z.lnot PATH_LEN);
         mode := Z.land mode ALL_MODES;
         path := (start, zlen path_backing) |}, path_backing, data).

(** [for idx in 0..num_entries] of [chunk], with [todo] entries left to read. *)
Fixpoint chunk_loop (todo : nat) (idx : Z) (data : bytes) (entries : list Entry) (path_backing : bytes)
    (hash_len : Z) (has_delta_paths : bool) (prev_path : option (Z * Z)) (is_sparse : bool)
    : outcome index_error (list Entry * bytes * bool * bytes) :=
  match todo with
  | O => Ok (entries, path_backing, is_sparse, data)
  | S todo =>
      '(entry, path_backing, data) ←
        map_err (λ _, BadEntry idx) (load_one data path_backing hash_len has_delta_paths prev_path);
      chunk_loop todo (idx + 1) data (entries ++ [entry]) path_backing hash_len has_delta_paths
        (Some (path entry)) (is_sparse || mode_is_sparse (mode entry))
  end.
Definition chunk (data : bytes) (entries : list Entry) (path_backing : bytes) (num_entries : Z)
    (object_hash : Kind) (version : Version) : outcome index_error (list Entry * bytes * bool * bytes) :=
  chunk_loop (Z.to_nat num_entries) 0 data entries path_backing (len_in_bytes object_hash)
    (bool_decide (version = V4)) None false.

(** ** [decode/mod.rs]

    [size_of::<Entry>()] *)
Definition ENTRY_SIZE : Z := 96.
Definition ensure_in_alloc_limit (size : Z) (limit : option Z) : outcome index_error () :=
  match limit with
  | Some limit => if limit <? size then Err AllocationFailed else Ok tt
  | None => Ok tt
  end.
(** What is known before entries are read; [start_of_extensions] is what the end-of-index extension says. *)
Definition entries_head (data : bytes) (start_of_extensions : option Z) (object_hash : Kind) (limit : option Z)
    : outcome index_error (Version * Z * bytes) :=
  '(version, num_entries, post_header_data) ← header_decode data object_hash;
  _ ← ensure (negb (max_entries_possible (zlen data) start_of_extensions object_hash version <? num_entries))
        TooManyEntries;
  let path_backing_buffer_size :=
    estimate_path_storage_requirements_in_bytes num_entries (zlen data) start_of_extensions object_hash version in
  entries_size ← ok_or AllocationFailed (checked_mul 64 num_entries ENTRY_SIZE);
  _ ← ensure_in_alloc_limit entries_size limit;
  _ ← ensure_in_alloc_limit path_backing_buffer_size limit;
  Ok (version, num_entries, post_header_data).
(** Up to the extensions. *)
Definition decode_entries (data : bytes) (start_of_extensions : option Z) (object_hash : Kind)
    (limit : option Z) : outcome index_error (Version * list Entry * bytes * bool * bytes) :=
  '(version, num_entries, post_header_data) ← entries_head data start_of_extensions object_hash limit;
  '(entries, path_backing, is_sparse, data) ← chunk post_header_data [] [] num_entries object_hash version;
  Ok (version, entries, path_backing, is_sparse, data).

(** ** Writing

    [CountBytes] of [write.rs]: a writer that fails when it has taken 4 gigabytes. *)
Record CountBytes := { count : Z; inner : bytes }.
Definition write_all (buf : bytes) (out : CountBytes) : outcome index_error CountBytes :=
  if zlen buf =? 0 then Ok out
  else
    written ← expect (checked 32 (zlen buf));
    count ← ok_or IndexTooLarge (checked_add 32 (count out) written);
    Ok {| count := count; inner := inner out ++ buf |}.
(** Calls of [write_all] one after the other. *)
Fixpoint write_seq (bufs : list bytes) (out : CountBytes) : outcome index_error CountBytes :=
  match bufs with
  | [] => Ok out
  | buf :: bufs => out ← write_all buf out; write_seq bufs out
  end.

(** [lib.rs], [write_var_int]: the bytes of the vector, in the order of their reversal. *)
Fixpoint var_int_loop (fuel : nat) (value : Z) (acc : bytes) : bytes :=
  match fuel with
  | O => acc
  | S fuel =>
      let value := Z.shiftr value 7 in
      if value =? 0 then acc
      else
        let value := value - 1 in
        var_int_loop fuel value (Z.lor (Z.land value 127) 128 :: acc)
  end.
(** A [u64] has at most ten groups of seven bits. *)
Definition var_int_bytes (value : Z) : bytes := var_int_loop 10 value [Z.land value 127].
Definition write_var_int (value : Z) (out : CountBytes) : outcome index_error CountBytes :=
  write_seq ((λ b, [b]) <$> var_int_bytes value) out.

(** [entry/mod.rs], [path_in] *)
Definition path_in {E} (e : Entry) (backing : bytes) : outcome E bytes :=
  expect (get_range backing (path e).1 (path e).2).

(** [entry/write.rs] *)
Definition write_header_to (e : Entry) (st : State) (out : CountBytes) : outcome index_error CountBytes :=
  let stat := stat e in
  out ← write_seq [to_be 4 (secs (ctime stat)); to_be 4 (nsecs (ctime stat));
                   to_be 4 (secs (mtime stat)); to_be 4 (nsecs (mtime stat));
                   to_be 4 (dev stat); to_be 4 (ino stat); to_be 4 (mode e);
                   to_be 4 (uid stat); to_be 4 (gid stat); to_be 4 (size stat)] out;
  let id := as_slice (id e) in
  _ ← ensure (zlen id =? len_in_bytes (object_hash st)) InvalidInput;
  out ← write_all id out;
  path ← path_in e (path_backing st);
  let path_len := if PATH_LEN <=? zlen path then PATH_LEN else zlen path in
  out ← write_all (to_be 2 (Z.lor (to_storage (flags e)) path_len)) out;
  if contains (flags e) EXTENDED then write_all (to_be 2 (extended_from_flags (flags e))) out
  else Ok out.
Definition write_to (e : Entry) (st : State) (out : CountBytes) : outcome index_error CountBytes :=
  out ← write_header_to e st out;
  path ← path_in e (path_backing st);
  write_seq [path; [0]] out.

(** [zip], [take_while] and [count] *)
Fixpoint common_prefix_len (previous current : bytes) : Z :=
  match previous, current with
  | a :: previous, b :: current => if a =? b then 1 + common_prefix_len previous current else 0
  | _, _ => 0
  end.
Definition write_v4_to (e : Entry) (st : State) (previous_path : option bytes) (out : CountBytes)
    : outcome index_error CountBytes :=
  out ← write_header_to e st out;
  path ← path_in e (path_backing st);
  let common_prefix_len :=
    match previous_path with Some previous_path => common_prefix_len previous_path path | None => 0 end in
  strip_len ←
    match previous_path with
    | Some previous_path => op_sub 64 (zlen previous_path) common_prefix_len
    | None => Ok 0
    end;
  out ← write_var_int strip_len out;
  suffix ← expect (get_from path common_prefix_len);
  write_seq [suffix; [0]] out.

(** [write.rs] *)
Definition detect_required_version (st : State) : Version :=
  match version st with
  | V4 => V4
  | _ => if existsb (λ e, contains (flags e) EXTENDED) (entries st) then V3 else V2
  end.
Definition header (version : Version) (num_entries : Z) (out : CountBytes) : outcome index_error CountBytes :=
  let version := match version with V2 => to_be 4 2 | V3 => to_be 4 3 | V4 => to_be 4 4 end in
  write_seq [SIGNATURE; version; to_be 4 num_entries] out.
Fixpoint write_entries (es : list Entry) (st : State) (version : Version) (header_size : Z)
    (previous_path : option bytes) (out : CountBytes) : outcome index_error CountBytes :=
  match es with
  | [] => Ok out
  | entry :: es =>
      if contains (flags entry) REMOVE then write_entries es st version header_size previous_path out
      else
        match version with
        | V4 =>
            out ← write_v4_to entry st previous_path out;
            path ← path_in entry (path_backing st);
            write_entries es st version header_size (Some path) out
        | _ =>
            out ← write_to entry st out;
            n ← op_sub 32 (count out) header_size;
            let n := n mod 8 in
            out ← (if n =? 0 then Ok out
                   else padding ← expect (get_from (replicate 8 0) n); write_all padding out);
            write_entries es st version header_size previous_path out
        end
  end.
(** [State::write_to], up to the extensions. *)
Definition write_entries_block (st : State) : outcome index_error CountBytes :=
  let version := detect_required_version st in
  num_entries ← expect (checked 32 (zlen (entries st)));
  removed_entries ← expect (checked 32 (zlen (filter (λ e, contains (flags e) REMOVE = true) (entries st))));
  n ← op_sub 32 num_entries removed_entries;
  out ← header version n {| count := 0; inner := [] |};
  write_entries (entries st) st version (count out) None out.

(** ** Lemmas: flags *)

(** What is stored of the flags of an entry. *)
Definition STORED : Z := 0xf000.
Definition STORED_EXTENDED : Z := 0x60000000.
Definition stored_flags (f : Z) : Z :=
  Z.lor (Z.land f STORED) (if contains f EXTENDED then Z.land f STORED_EXTENDED else 0).

Lemma land_const f a b : Z.land (Z.land f a) b = Z.land f (Z.land a b).
Proof. symmetry. apply Z.land_assoc. Qed.
Lemma path_len_land n a : 0 ≤ n < 4096 → Z.land n a = Z.land n (Z.land PATH_LEN a).
Proof.
  intros Hn. rewrite Z.land_assoc. f_equal. unfold PATH_LEN.
  rewrite (land_low n 12) by done. symmetry. by apply Z.mod_small.
Qed.
Lemma to_storage_eq f : to_storage f = Z.land f STORED.
Proof. unfold to_storage, wrap. rewrite <- (land_low _ 16 0xffff) by done. by rewrite land_const. Qed.
Lemma stored_flags_range f : 0 ≤ Z.land f STORED < 2 ^ 16.
Proof.
  replace (Z.land f STORED) with (Z.land f STORED mod 2 ^ 16); [by apply Z.mod_pos_bound|].
  rewrite <- (land_low _ 16 0xffff) by done. by rewrite land_const.
Qed.

(** The flags as the reader sees them before the length of the path is removed. *)
Definition flag_word (f plen : Z) : Z := Z.lor (to_storage f) plen.
Definition loaded_flags (f plen : Z) : Z :=
  if contains f EXTENDED then Z.lor (flag_word f plen) (Z.land f STORED_EXTENDED) else flag_word f plen.

Section Flags.
Context (f plen : Z) (Hp : 0 ≤ plen < 4096).
Lemma flag_word_land a :
  Z.land (flag_word f plen) a = Z.lor (Z.land f (Z.land STORED a)) (Z.land plen (Z.land PATH_LEN a)).
Proof using Hp.
  unfold flag_word. by rewrite to_storage_eq, Z.land_lor_distr_l, land_const, (path_len_land plen a).
Qed.
Lemma flag_word_range : 0 ≤ flag_word f plen < 2 ^ 16.
Proof using Hp.
  assert (flag_word f plen = flag_word f plen mod 2 ^ 16) as ->; [|by apply Z.mod_pos_bound].
  rewrite <- (land_low _ 16 0xffff) by done. rewrite flag_word_land.
  change (Z.land STORED 0xffff) with STORED. change (Z.land PATH_LEN 0xffff) with PATH_LEN.
  unfold flag_word. rewrite to_storage_eq. f_equal. unfold PATH_LEN.
  rewrite (land_low plen 12) by done. symmetry. by apply Z.mod_small.
Qed.
Lemma flag_word_extended : contains (flag_word f plen) EXTENDED = contains f EXTENDED.
Proof using Hp.
  unfold contains. rewrite flag_word_land. change (Z.land STORED EXTENDED) with EXTENDED.
  change (Z.land PATH_LEN EXTENDED) with 0. by rewrite Z.land_0_r, Z.lor_0_r.
Qed.
Lemma plen_land : Z.land plen PATH_LEN = plen.
Proof using Hp. unfold PATH_LEN. rewrite (land_low plen 12) by done. by apply Z.mod_small. Qed.
Lemma loaded_flags_len : Z.land (loaded_flags f plen) PATH_LEN = plen.
Proof using Hp.
  unfold loaded_flags. assert (Z.land (flag_word f plen) PATH_LEN = plen) as Hw.
  { rewrite flag_word_land. change (Z.land STORED PATH_LEN) with 0. rewrite Z.land_0_r, Z.lor_0_l. apply plen_land. }
  destruct (contains f EXTENDED); [|done]. rewrite Z.land_lor_distr_l, Hw, land_const.
  change (Z.land STORED_EXTENDED PATH_LEN) with 0. by rewrite Z.land_0_r, Z.lor_0_r.
Qed.
Lemma loaded_flags_stored : Z.land (loaded_flags f plen) (Z.lnot PATH_LEN) = stored_flags f.
Proof using Hp.
  unfold loaded_flags, stored_flags. assert (Z.land (flag_word f plen) (Z.lnot PATH_LEN) = Z.land f STORED) as Hw.
  { rewrite flag_word_land. change (Z.land STORED (Z.lnot PATH_LEN)) with STORED.
    change (Z.land PATH_LEN (Z.lnot PATH_LEN)) with 0. by rewrite Z.land_0_r, Z.lor_0_r. }
  destruct (contains f EXTENDED); [|by rewrite Hw, Z.lor_0_r]. rewrite Z.land_lor_distr_l, Hw, land_const. done.
Qed.
End Flags.

(** The extended flags survive storage in 16 bits. *)
Lemma extended_flags_roundtrip f :
  0 ≤ extended_from_flags f < 2 ^ 16 ∧
  extended_from_bits (extended_from_flags f) = Some (extended_from_flags f) ∧
  extended_to_flags (extended_from_flags f) = Some (Z.land f STORED_EXTENDED).
Proof.
  split; [apply Z.mod_pos_bound; lia|].
  assert (extended_from_flags f = Z.land (Z.shiftr f 16) 0x6000) as ->.
  { unfold extended_from_flags. rewrite wrap_small; [by rewrite Z.shiftr_land|].
    rewrite Z.shiftr_land. change (Z.shiftr _ 16) with 0x6000 at 2.
    assert (∀ x, 0 ≤ Z.land x 0x6000 < 2 ^ 16) as H; [|apply H]. intros x.
    replace (Z.land x 0x6000) with (Z.land x 0x6000 mod 2 ^ 16); [by apply Z.mod_pos_bound|].
    rewrite <- (land_low _ 16 0xffff) by done. by rewrite land_const. }
  split.
  - unfold extended_from_bits, from_bits. by rewrite land_const, Z.land_0_r.
  - unfold extended_to_flags, from_bits.
    assert (Z.shiftl (Z.land (Z.shiftr f 16) 0x6000) 16 = Z.land f STORED_EXTENDED) as ->.
    { rewrite Z.shiftl_land, <- Z.ldiff_ones_r, Z.ldiff_land by lia. by rewrite land_const. }
    by rewrite land_const, Z.land_0_r.
Qed.

(** ** Lemmas: writing

    What a sequence of writes does: all bytes are appended, unless they exceed the limit. *)
Definition emit (buf : bytes) (out : CountBytes) : outcome index_error CountBytes :=
  if count out + zlen buf <? 2 ^ 32 then Ok {| count := count out + zlen buf; inner := inner out ++ buf |}
  else Err IndexTooLarge.
Definition out_ok (out : CountBytes) : Prop := count out = zlen (inner out) ∧ count out < 2 ^ 32.

Lemma emit_emit {B} a b out (k : CountBytes → outcome index_error B) :
  (o ← emit a out; o ← emit b o; k o) = (o ← emit (a ++ b) out; k o).
Proof.
  unfold emit. rewrite zlen_app. pose proof (zlen_nonneg b).
  destruct (Z.ltb_spec (count out + zlen a) (2 ^ 32)); cbn [mbind outcome_bind count inner].
  - rewrite <- Z.add_assoc, <- app_assoc. done.
  - destruct (Z.ltb_spec (count out + (zlen a + zlen b)) (2 ^ 32)); [lia|done].
Qed.
Lemma emit_emit_end a b out : (o ← emit a out; emit b o) = emit (a ++ b) out.
Proof.
  pose proof (emit_emit a b out Ok) as H. unfold mbind, outcome_bind in *.
  destruct (emit (a ++ b) out), (emit a out) as [o| |]; try done; by destruct (emit b o).
Qed.
Lemma emit_ok a out o : out_ok out → emit a out = Ok o → out_ok o ∧ inner o = inner out ++ a ∧ count o = count out + zlen a.
Proof.
  unfold emit, out_ok. intros [Hc _]. destruct (Z.ltb_spec (count out + zlen a) (2 ^ 32)); [|done].
  intros [= <-]. cbn. rewrite zlen_app, Hc. split; [split; [done|lia]|done].
Qed.
Lemma emit_nil out : out_ok out → emit [] out = Ok out.
Proof.
  intros [Hc Hl]. unfold emit. rewrite zlen_nil, Z.add_0_r, app_nil_r.
  destruct (Z.ltb_spec (count out) (2 ^ 32)); [|lia]. by destruct out.
Qed.

Lemma write_all_emit buf out : out_ok out → zlen buf < 2 ^ 32 → write_all buf out = emit buf out.
Proof.
  intros Ho Hl. unfold write_all. destruct (Z.eqb_spec (zlen buf) 0) as [Hz|Hz].
  { destruct buf; [|rewrite zlen_cons in Hz; pose proof (zlen_nonneg buf); lia]. by rewrite emit_nil. }
  pose proof (zlen_nonneg buf). destruct Ho as [Hc Hlt]. pose proof (zlen_nonneg (inner out)).
  rewrite checked_in by lia. cbn [expect mbind outcome_bind]. unfold emit.
  destruct (Z.ltb_spec (count out + zlen buf) (2 ^ 32)).
  - by rewrite checked_add_in by lia.
  - unfold checked_add. by rewrite checked_out by lia.
Qed.
Lemma write_seq_emit bufs out :
  out_ok out → Forall (λ b, zlen b < 2 ^ 32) bufs → write_seq bufs out = emit (concat bufs) out.
Proof.
  intros Ho Hb. revert out Ho. induction Hb as [|b bufs Hl _ IH]; intros out Ho; cbn [write_seq concat].
  { by rewrite emit_nil. }
  rewrite write_all_emit by done. rewrite <- emit_emit_end. destruct (emit b out) as [o| |] eqn:E; [|done|done].
  cbn [mbind outcome_bind]. apply IH. by apply (emit_ok b out).
Qed.
Lemma emit_bind_out {B} a out (k k' : CountBytes → outcome index_error B) :
  out_ok out → (∀ o, out_ok o → count o = count out + zlen a → k o = k' o) →
  (o ← emit a out; k o) = (o ← emit a out; k' o).
Proof.
  intros Ho Hk. destruct (emit a out) as [o| |] eqn:E; [|done|done]. cbn [mbind outcome_bind].
  apply emit_ok in E as (Hok & _ & Hc); auto.
Qed.

(** The numbers of an entry are in their ranges, its id is of the kind of the index, and its
    path, without a NUL byte, is in the path backing. *)
Definition u32_ok (x : Z) : Prop := 0 ≤ x < 2 ^ 32.
Definition stat_ok (s : Stat) : Prop :=
  Forall u32_ok [secs (ctime s); nsecs (ctime s); secs (mtime s); nsecs (mtime s);
                 dev s; ino s; uid s; gid s; size s].
Record entry_ok (k : Kind) (backing : bytes) (e : Entry) (p : bytes) : Prop := {
  eo_stat : stat_ok (stat e);
  eo_id : oid_ok (id e);
  eo_kind : Hash.kind (id e) = k;
  eo_flags : u32_ok (flags e);
  eo_mode : Z.land (mode e) ALL_MODES = mode e;
  eo_path : get_range backing (path e).1 (path e).2 = Some p;
  eo_nul : Forall (λ b, b ≠ 0) p;
  eo_bytes : bytes_ok p;
  eo_len : zlen p < 2 ^ 32;
}.

Definition stored_len (p : bytes) : Z := if PATH_LEN <=? zlen p then PATH_LEN else zlen p.
Definition stat_bytes (e : Entry) : list bytes :=
  [to_be 4 (secs (ctime (stat e))); to_be 4 (nsecs (ctime (stat e)));
   to_be 4 (secs (mtime (stat e))); to_be 4 (nsecs (mtime (stat e)));
   to_be 4 (dev (stat e)); to_be 4 (ino (stat e)); to_be 4 (mode e);
   to_be 4 (uid (stat e)); to_be 4 (gid (stat e)); to_be 4 (size (stat e))].
Definition extended_bytes (e : Entry) : bytes :=
  if contains (flags e) EXTENDED then to_be 2 (extended_from_flags (flags e)) else [].
Definition entry_head (e : Entry) (p : bytes) : bytes :=
  concat (stat_bytes e) ++ as_slice (id e) ++ to_be 2 (flag_word (flags e) (stored_len p)) ++ extended_bytes e.

Lemma stored_len_range p : 0 ≤ stored_len p < 4096.
Proof. unfold stored_len, PATH_LEN. pose proof (zlen_nonneg p). destruct (Z.leb_spec 0xfff (zlen p)); lia. Qed.
Lemma mode_range m : Z.land m ALL_MODES = m → u32_ok m.
Proof.
  intros <-. unfold u32_ok. replace (Z.land m ALL_MODES) with (Z.land m ALL_MODES mod 2 ^ 32); [by apply Z.mod_pos_bound|].
  rewrite <- (land_low _ 32 (2 ^ 32 - 1)) by done. by rewrite land_const.
Qed.

Section WriteEntry.
Context (st : State) (e : Entry) (p : bytes) (He : entry_ok (object_hash st) (path_backing st) e p).

Lemma id_length : zlen (as_slice (id e)) = len_in_bytes (object_hash st).
Proof using He. rewrite <- (eo_kind _ _ _ _ He). apply (eo_id _ _ _ _ He). Qed.
Lemma path_in_ok {E} : path_in (E := E) e (path_backing st) = Ok p.
Proof using He. unfold path_in. by rewrite (eo_path _ _ _ _ He). Qed.

Lemma write_header_emit out : out_ok out → write_header_to e st out = emit (entry_head e p) out.
Proof using He.
  intros Ho. unfold write_header_to. pose proof (len_in_bytes_range (object_hash st)).
  rewrite write_seq_emit by (done || (repeat constructor; rewrite zlen_to_be; lia)).
  unfold entry_head. rewrite <- emit_emit_end. apply emit_bind_out; [done|]. intros o Ho' _.
  rewrite id_length, Z.eqb_refl. cbn [ensure mbind outcome_bind].
  rewrite write_all_emit by (done || rewrite id_length; lia). rewrite <- emit_emit_end.
  apply emit_bind_out; [done|]. intros o' Ho'' _. rewrite path_in_ok. cbn [mbind outcome_bind].
  fold (stored_len p). fold (flag_word (flags e) (stored_len p)).
  rewrite write_all_emit by (done || rewrite zlen_to_be; lia). rewrite <- emit_emit_end.
  apply emit_bind_out; [done|]. intros o'' Ho''' _. unfold extended_bytes.
  destruct (contains (flags e) EXTENDED); [|by rewrite emit_nil].
  apply write_all_emit; [done|rewrite zlen_to_be; lia].
Qed.
End WriteEntry.

(** The bytes of entries, each with its path. *)
Definition padded_entry (e : Entry) (p : bytes) : bytes :=
  let n := zlen (entry_head e p) + zlen p in
  entry_head e p ++ p ++ replicate (Z.to_nat (8 - n mod 8)) 0.
Definition delta_len (prev : option bytes) (p : bytes) : Z :=
  match prev with Some q => common_prefix_len q p | None => 0 end.
Definition strip_len (prev : option bytes) (p : bytes) : Z :=
  match prev with Some q => zlen q - common_prefix_len q p | None => 0 end.
Definition delta_entry (prev : option bytes) (e : Entry) (p : bytes) : bytes :=
  entry_head e p ++ var_int_bytes (strip_len prev p) ++ drop (Z.to_nat (delta_len prev p)) p ++ [0].
Fixpoint entries_bytes (v : Version) (prev : option bytes) (l : list (Entry * bytes)) : bytes :=
  match l with
  | [] => []
  | (e, p) :: l =>
      match v with V4 => delta_entry prev e p | _ => padded_entry e p end ++ entries_bytes v (Some p) l
  end.

Lemma common_prefix_range q p : 0 ≤ common_prefix_len q p ≤ zlen q ∧ common_prefix_len q p ≤ zlen p.
Proof.
  revert p. induction q as [|a q IH]; intros [|b p]; cbn [common_prefix_len]; autorewrite with gix;
    try (pose proof (zlen_nonneg q)); try (pose proof (zlen_nonneg p)); [lia..|].
  destruct (a =? b); [specialize (IH p)|]; lia.
Qed.
Lemma common_prefix_take q p :
  take (Z.to_nat (common_prefix_len q p)) q = take (Z.to_nat (common_prefix_len q p)) p.
Proof.
  revert p. induction q as [|a q IH]; intros [|b p]; cbn [common_prefix_len]; try done.
  destruct (Z.eqb_spec a b) as [->|]; [|done]. pose proof (common_prefix_range q p).
  replace (Z.to_nat (1 + common_prefix_len q p)) with (S (Z.to_nat (common_prefix_len q p))) by lia.
  simpl. f_equal. apply IH.
Qed.
Lemma delta_len_range prev p : 0 ≤ delta_len prev p ≤ zlen p.
Proof.
  pose proof (zlen_nonneg p). destruct prev as [q|]; cbn [delta_len]; [|lia]. pose proof (common_prefix_range q p). lia.
Qed.

Lemma var_int_leb64 slots fuel n acc buf :
  leb64_loop slots n acc = (0, buf) → (slots < fuel)%nat → var_int_loop fuel n acc = buf.
Proof.
  revert fuel n acc. induction slots as [|slots IH]; intros [|fuel] n acc Hl Hf; try lia; cbn [var_int_loop].
  - injection Hl as -> ->. done.
  - cbn [leb64_loop] in Hl. destruct (Z.eqb_spec (Z.shiftr n 7) 0) as [Hz|Hz]; [by injection Hl|].
    apply IH; [|lia]. rewrite Z.lor_comm. rewrite <- Hl. do 3 f_equal.
    rewrite !land_127. unfold wrap. change (2 ^ 8) with (128 * 2). rewrite Z.rem_mul_r by lia.
    rewrite Z.mul_comm, Z_mod_plus_full. by rewrite Z.mod_mod.
Qed.
Lemma var_int_encode {E} n : 0 ≤ n < 2 ^ 64 → leb64_encode (E := E) n = Ok (var_int_bytes n).
Proof.
  intros Hn. destruct (leb64_encode_roundtrip (E := E) n [] Hn) as (buf & Hbuf & _). rewrite Hbuf. f_equal.
  unfold leb64_encode in Hbuf. destruct (leb64_loop 9 n _) as [rest b] eqn:El.
  unfold assert_that in Hbuf. destruct (Z.eqb_spec rest 0) as [->|]; [|done]. injection Hbuf as <-.
  symmetry. unfold var_int_bytes. rewrite <- (var_int_leb64 9 10 n [Z.land (wrap 8 n) 127] b El) by lia.
  do 2 f_equal. rewrite !land_127. unfold wrap. change (2 ^ 8) with (128 * 2).
  rewrite Z.rem_mul_r, (Z.mul_comm 128), Z_mod_plus_full by lia. by rewrite Z.mod_mod.
Qed.
Lemma var_int_roundtrip n data : 0 ≤ n < 2 ^ 64 → var_int (var_int_bytes n ++ data) = Ok (n, data).
Proof.
  intros Hn. unfold var_int. destruct (leb64_encode_roundtrip (E := ()) n data Hn) as (buf & Hbuf & Hp).
  rewrite var_int_encode in Hbuf by done. injection Hbuf as <-.
  rewrite leb64_from_read_eq, Hp. cbn [streamed]. by rewrite get_from_app.
Qed.
Lemma var_int_length n : 0 ≤ n < 2 ^ 64 → 1 ≤ zlen (var_int_bytes n) ≤ 10.
Proof.
  intros Hn. split; [|by apply (leb64_encode_length (E := ()) n), var_int_encode].
  unfold var_int_bytes. generalize 10%nat. intros fuel.
  assert (∀ fuel v acc, 1 ≤ zlen acc → 1 ≤ zlen (var_int_loop fuel v acc)) as H; [|by apply H].
  clear. induction fuel as [|fuel IH]; intros v acc Ha; cbn [var_int_loop]; [done|].
  destruct (_ =? 0); [done|]. apply IH. rewrite zlen_cons. lia.
Qed.

(** The entries that are written. *)
Definition kept (es : list Entry) : list Entry := filter (λ e, contains (flags e) REMOVE = false) es.
Definition entries_ok (st : State) (es : list Entry) (ps : list bytes) : Prop :=
  Forall2 (entry_ok (object_hash st) (path_backing st)) es ps.

Lemma write_padded_emit st e p out m {B} (k : CountBytes → outcome index_error B) :
  entry_ok (object_hash st) (path_backing st) e p → out_ok out → count out = 12 + 8 * m → 0 ≤ m →
  (out ← write_to e st out;
   n ← op_sub 32 (count out) 12;
   let n := n mod 8 in
   out ← (if n =? 0 then Ok out else padding ← expect (get_from (replicate 8 0) n); write_all padding out);
   k out) = (o ← emit (padded_entry e p) out; k o).
Proof.
  intros He Ho Hm Hm0. unfold write_to. rewrite (write_header_emit st e p He) by done.
  unfold padded_entry. set (h := entry_head e p). set (n := zlen h + zlen p).
  pose proof (zlen_nonneg h). pose proof (zlen_nonneg p).
  assert ((o ← emit h out; path ← path_in e (path_backing st); write_seq [path; [0]] o) = emit (h ++ p ++ [0]) out) as ->.
  { rewrite <- emit_emit_end. apply emit_bind_out; [done|]. intros o Ho' _. rewrite (path_in_ok st e p He).
    cbn [mbind outcome_bind]. rewrite write_seq_emit; [by cbn [concat]; rewrite app_nil_r|done|].
    constructor; [apply (eo_len _ _ _ _ He)|]. by constructor. }
  assert (h ++ p ++ replicate (Z.to_nat (8 - n mod 8)) 0 = (h ++ p ++ [0]) ++ replicate (Z.to_nat (7 - n mod 8)) 0) as ->.
  { pose proof (Z.mod_pos_bound n 8 ltac:(lia)). rewrite <- !app_assoc. do 2 f_equal.
    replace (Z.to_nat (8 - n mod 8)) with (S (Z.to_nat (7 - n mod 8))) by lia. done. }
  rewrite <- (emit_emit (h ++ p ++ [0])). apply emit_bind_out; [done|]. intros o Ho' Hc.
  rewrite !zlen_app, (zlen_cons 0 []), zlen_nil in Hc. destruct Ho' as [Hco Hlt].
  unfold op_sub. rewrite checked_sub_in by lia. cbn [expect mbind outcome_bind].
  replace ((count o - 12) mod 8) with ((n + 1) mod 8).
  2:{ replace (count o - 12) with (n + 1 + m * 8) by lia. by rewrite Z_mod_plus_full. }
  assert (o_ok : out_ok o) by done.
  destruct (Z.eqb_spec ((n + 1) mod 8) 0) as [Hz|Hz].
  - replace (7 - n mod 8) with 0 by (Z.div_mod_to_equations; lia). by rewrite emit_nil.
  - assert (Hr : (n + 1) mod 8 = n mod 8 + 1) by (Z.div_mod_to_equations; lia). rewrite Hr.
    pose proof (Z.mod_pos_bound n 8 ltac:(lia)).
    rewrite get_from_in by (change (zlen (replicate 8 0)) with 8; lia). cbn [expect mbind outcome_bind].
    rewrite drop_replicate. replace (8 - Z.to_nat (n mod 8 + 1))%nat with (Z.to_nat (7 - n mod 8)) by lia.
    rewrite write_all_emit; [done|done|]. unfold zlen. rewrite length_replicate. lia.
Qed.

Lemma write_delta_emit st e p prev out :
  entry_ok (object_hash st) (path_backing st) e p → out_ok out →
  (∀ q, prev = Some q → zlen q < 2 ^ 32) →
  write_v4_to e st prev out = emit (delta_entry prev e p) out.
Proof.
  intros He Ho Hq. unfold write_v4_to. rewrite (write_header_emit st e p He) by done.
  unfold delta_entry. rewrite <- emit_emit_end. apply emit_bind_out; [done|]. intros o Ho' _.
  rewrite (path_in_ok st e p He). cbn [mbind outcome_bind]. fold (delta_len prev p).
  assert (match prev with Some q => op_sub (E := index_error) 64 (zlen q) (delta_len prev p) | None => Ok 0 end
    = Ok (strip_len prev p) ∧ 0 ≤ strip_len prev p < 2 ^ 32) as [-> Hs].
  { destruct prev as [q|]; cbn [delta_len strip_len]; [|done]. specialize (Hq q eq_refl).
    pose proof (common_prefix_range q p). split; [|lia]. unfold op_sub. by rewrite checked_sub_in by lia. }
  cbn [mbind outcome_bind]. unfold write_var_int.
  rewrite write_seq_emit; [|done|apply Forall_fmap, Forall_true; intros b; done].
  assert (concat ((λ b, [b]) <$> var_int_bytes (strip_len prev p)) = var_int_bytes (strip_len prev p)) as ->.
  { generalize (var_int_bytes (strip_len prev p)). intros l. induction l as [|b l IH]; cbn; congruence. }
  rewrite <- emit_emit_end. apply emit_bind_out; [done|]. intros o' Ho'' _.
  pose proof (delta_len_range prev p). rewrite get_from_in by lia. cbn [expect mbind outcome_bind].
  rewrite write_seq_emit; [by cbn [concat]; rewrite app_nil_r|done|].
  constructor; [|by constructor]. pose proof (eo_len _ _ _ _ He). unfold zlen in *. rewrite length_drop. lia.
Qed.

Lemma padded_entry_length e p : zlen (padded_entry e p) mod 8 = 0 ∧ zlen (entry_head e p) + zlen p < zlen (padded_entry e p).
Proof.
  unfold padded_entry. set (n := zlen (entry_head e p) + zlen p).
  rewrite !zlen_app. unfold zlen at 3 6. rewrite length_replicate.
  pose proof (Z.mod_pos_bound n 8 ltac:(lia)). rewrite Z2Nat.id by lia.
  replace (zlen (entry_head e p) + (zlen p + (8 - n mod 8))) with (n + (8 - n mod 8)) by (unfold n; lia).
  split; [|lia]. Z.div_mod_to_equations; lia.
Qed.

Lemma entries_bytes_prev v a b l : v ≠ V4 → entries_bytes v a l = entries_bytes v b l.
Proof. by destruct l as [|[e p] l], v. Qed.

Lemma write_entries_emit st v es : ∀ ps prev out,
  entries_ok st (kept es) ps → out_ok out → (v ≠ V4 → 12 ≤ count out ∧ (count out - 12) mod 8 = 0) →
  (∀ q, prev = Some q → zlen q < 2 ^ 32) →
  write_entries es st v 12 prev out = emit (entries_bytes v prev (zip (kept es) ps)) out.
Proof.
  induction es as [|e es IH]; intros ps prev out Hall Ho Hc Hq.
  { apply Forall2_nil_inv_l in Hall as ->. cbn. by rewrite emit_nil. }
  cbn [write_entries]. unfold kept in *. rewrite filter_cons in *.
  destruct (contains (flags e) REMOVE) eqn:Er; case_decide; try done.
  { by apply IH. }
  apply Forall2_cons_inv_l in Hall as (p & ps' & He & Hall & ->). cbn [zip_with entries_bytes].
  destruct v.
  3:{ rewrite (write_delta_emit st e p) by done. rewrite <- emit_emit_end.
      apply emit_bind_out; [done|]. intros o Ho' _. rewrite (path_in_ok st e p He). cbn [mbind outcome_bind].
      apply IH; [done|done|done|]. intros q [= <-]. apply (eo_len _ _ _ _ He). }
  all: destruct (Hc ltac:(done)) as [Hc1 Hc2].
  all: assert (count out = 12 + 8 * ((count out - 12) / 8)) as Hm by (Z.div_mod_to_equations; lia).
  all: rewrite (write_padded_emit st e p out _ _ He Ho Hm) by (apply Z.div_pos; lia).
  all: rewrite <- emit_emit_end; apply emit_bind_out; [done|]; intros o Ho' Hco.
  all: rewrite (entries_bytes_prev _ (Some p) prev) by done; apply IH; [done|done| |done].
  all: intros _; destruct (padded_entry_length e p) as [Hp _]; pose proof (zlen_nonneg (padded_entry e p)).
  all: split; [lia|Z.div_mod_to_equations; lia].
Qed.

(** ** Lemmas: reading back *)
Lemma read_u32_to_be x d : u32_ok x → read_u32 (to_be 4 x ++ d) = Some (x, d).
Proof.
  intros Hx. unfold read_u32. rewrite split_at_app by by rewrite zlen_to_be.
  cbn [mbind option_bind]. by rewrite from_to_be by exact Hx.
Qed.
Lemma read_u16_to_be x d : 0 ≤ x < 2 ^ 16 → read_u16 (to_be 2 x ++ d) = Some (x, d).
Proof.
  intros Hx. unfold read_u16. rewrite split_at_app by by rewrite zlen_to_be.
  cbn [mbind option_bind]. by rewrite from_to_be by exact Hx.
Qed.
Lemma load_flags_ok e plen d :
  0 ≤ plen < 4096 →
  load_flags (to_be 2 (flag_word (flags e) plen) ++ extended_bytes e ++ d) = Some (loaded_flags (flags e) plen, d).
Proof.
  intros Hp. unfold load_flags. rewrite read_u16_to_be by by apply flag_word_range. cbn [mbind option_bind].
  rewrite flag_word_extended by done. unfold extended_bytes, loaded_flags.
  destruct (contains (flags e) EXTENDED); [|done].
  destruct (extended_flags_roundtrip (flags e)) as (Hr & Hb & Ht).
  rewrite read_u16_to_be by done. cbn [mbind option_bind]. rewrite Hb. cbn [mbind option_bind]. by rewrite Ht.
Qed.

(** The entry that is read for [e], with its path in [start..end]. *)
Definition decoded (e : Entry) (start_ end_ : Z) : Entry :=
  {| stat := stat e; id := id e; flags := stored_flags (flags e); mode := mode e; path := (start_, end_) |}.

Lemma load_one_head k backing0 e p d backing delta prev :
  entry_ok k backing0 e p →
  load_one (entry_head e p ++ d) backing (len_in_bytes k) delta prev =
  ('(b, d') ← (if delta then load_delta_path d backing prev
               else load_path d backing (loaded_flags (flags e) (stored_len p)) (zlen (entry_head e p) + zlen d));
   Ok (decoded e (zlen backing) (zlen b), b, d')).
Proof.
  intros He. unfold load_one. rewrite zlen_app. pose proof (stored_len_range p) as Hpl.
  assert (entry_head e p ++ d = to_be 4 (secs (ctime (stat e))) ++ to_be 4 (nsecs (ctime (stat e))) ++
    to_be 4 (secs (mtime (stat e))) ++ to_be 4 (nsecs (mtime (stat e))) ++ to_be 4 (dev (stat e)) ++
    to_be 4 (ino (stat e)) ++ to_be 4 (mode e) ++ to_be 4 (uid (stat e)) ++ to_be 4 (gid (stat e)) ++
    to_be 4 (size (stat e)) ++ as_slice (id e) ++ to_be 2 (flag_word (flags e) (stored_len p)) ++
    extended_bytes e ++ d) as ->.
  { unfold entry_head, stat_bytes. cbn [concat]. rewrite app_nil_r, <- !app_assoc. done. }
  pose proof (eo_stat _ _ _ _ He) as Hst. unfold stat_ok in Hst. rewrite !list.Forall_cons in Hst.
  destruct Hst as (?&?&?&?&?&?&?&?&?&_).
  pose proof (mode_range _ (eo_mode _ _ _ _ He)).
  do 10 (rewrite read_u32_to_be by done; cbn [ok_or mbind outcome_bind]).
  rewrite split_at_app by (rewrite <- (eo_kind _ _ _ _ He); symmetry; apply (eo_id _ _ _ _ He)). cbn [ok_or mbind outcome_bind].
  rewrite load_flags_ok by done. cbn [ok_or mbind outcome_bind].
  destruct (if delta then _ else _) as [[b d']| |]; [|done|done]. cbn [mbind outcome_bind].
  rewrite from_bytes_or_panic_slice by apply (eo_id _ _ _ _ He). cbn [mbind outcome_bind].
  rewrite loaded_flags_stored by done. rewrite (eo_mode _ _ _ _ He). unfold decoded.
  by destruct (stat e) as [[] [] ? ? ? ? ?].
Qed.

Lemma split_nul p rest :
  Forall (λ b, b ≠ 0) p → 1 ≤ zlen rest → split_at_byte_exclusive (p ++ 0 :: rest) 0 = Some (p, rest).
Proof.
  intros Hp Hr. unfold split_at_byte_exclusive. rewrite zlen_app, zlen_cons. pose proof (zlen_nonneg p).
  destruct (Z.ltb_spec (zlen p + (1 + zlen rest)) 2); [lia|].
  rewrite position_app; [|eapply Forall_impl; [|exact Hp]; intros b Hb; by apply Z.eqb_neq|done].
  unfold zlen. rewrite Nat2Z.id, take_app_length. f_equal. f_equal.
  replace (S (length p)) with (length (p ++ [0])) by (rewrite length_app; simpl; lia).
  replace (p ++ 0 :: rest) with ((p ++ [0]) ++ rest) by by rewrite <- app_assoc. by rewrite drop_app_length.
Qed.

Lemma land_lnot_7 n : Z.land n (Z.lnot 7) = n - n mod 8.
Proof.
  rewrite <- Z.ldiff_land. change 7 with (Z.ones 3). rewrite Z.ldiff_ones_r, Z.shiftr_div_pow2, Z.shiftl_mul_pow2 by lia.
  change (2 ^ 3) with 8. pose proof (Z.div_mod n 8 ltac:(lia)). lia.
Qed.

Lemma load_padded k backing0 e p rest backing prev :
  entry_ok k backing0 e p → zlen p < PATH_LEN →
  load_one (padded_entry e p ++ rest) backing (len_in_bytes k) false prev =
  Ok (decoded e (zlen backing) (zlen (backing ++ p)), backing ++ p, rest).
Proof.
  intros He Hp. unfold padded_entry. set (n := zlen (entry_head e p) + zlen p).
  rewrite <- !app_assoc. rewrite (load_one_head _ _ _ _ _ _ _ _ He). unfold load_path.
  assert (stored_len p = zlen p) as Hs. { unfold stored_len. destruct (Z.leb_spec PATH_LEN (zlen p)); [lia|done]. }
  pose proof (stored_len_range p) as Hr. rewrite Hs in Hr.
  unfold contains. rewrite Hs, loaded_flags_len by done.
  destruct (Z.eqb_spec (zlen p) PATH_LEN); [lia|]. rewrite split_at_app by done. cbn [ok_or mbind outcome_bind].
  pose proof (Z.mod_pos_bound n 8 ltac:(lia)). rewrite !zlen_app.
  replace (zlen (entry_head e p) + (zlen p + _) - _) with n by (unfold n; lia).
  unfold skip_padding. rewrite land_lnot_7.
  replace (n + 8 - (n + 8) mod 8 - n) with (8 - n mod 8)
    by (replace (n + 8) with (n + 1 * 8) by lia; rewrite Z_mod_plus_full; lia).
  set (pad := replicate _ 0). replace (8 - n mod 8) with (zlen pad) by (unfold pad, zlen; rewrite length_replicate; lia).
  rewrite get_from_app. cbn [ok_or mbind outcome_bind]. by rewrite zlen_app.
Qed.

(** What the reader knows of the previous path. *)
Definition prev_ok (backing : bytes) (range : option (Z * Z)) (prev : option bytes) : Prop :=
  match range, prev with
  | Some (s, t), Some q => get_range backing s t = Some q ∧ zlen backing < 2 ^ 64
  | None, None => True
  | _, _ => False
  end.

Lemma load_delta k backing0 e p rest backing range prev :
  entry_ok k backing0 e p → prev_ok backing range prev → (∀ q, prev = Some q → zlen q < 2 ^ 32) → 1 ≤ zlen rest →
  load_one (delta_entry prev e p ++ rest) backing (len_in_bytes k) true range =
  Ok (decoded e (zlen backing) (zlen (backing ++ p)), backing ++ p, rest).
Proof.
  intros He Hprev Hq Hr. unfold delta_entry. rewrite <- !app_assoc. rewrite (load_one_head _ _ _ _ _ _ _ _ He).
  unfold load_delta_path. rewrite var_int_roundtrip.
  2:{ destruct prev as [q|]; cbn [strip_len]; [|lia]. pose proof (common_prefix_range q p). specialize (Hq q eq_refl). lia. }
  cbn [mbind outcome_bind].
  assert (∀ b : bytes, ('(path, data) ← ok_or tt (split_at_byte_exclusive (drop (Z.to_nat (delta_len prev p)) p ++ [0] ++ rest) 0);
    Ok (E := ()) (b ++ path, data)) = Ok (b ++ drop (Z.to_nat (delta_len prev p)) p, rest)) as Hsuffix.
  { intros b. cbn [app]. rewrite split_nul; [done|apply Forall_drop, (eo_nul _ _ _ _ He)|done]. }
  assert (take (Z.to_nat (delta_len prev p)) p ++ drop (Z.to_nat (delta_len prev p)) p = p) as Htd by apply take_drop.
  destruct range as [[s t]|], prev as [q|]; cbn [prev_ok delta_len strip_len] in *; try done.
  - destruct Hprev as [Hg Hb]. apply get_range_Some in Hg as Hgs. pose proof (common_prefix_range q p) as Hc.
    pose proof (common_prefix_take q p) as Ht. set (c := common_prefix_len q p) in *.
    destruct Hgs as (Hs & Hsb & Hql & Hqe). replace t with (s + zlen q) in * by lia.
    rewrite checked_sub_in by lia. cbn [ok_or mbind outcome_bind].
    replace (s + zlen q - (zlen q - c)) with (s + c) by lia.
    rewrite checked_sub_in by lia. cbn [ok_or mbind outcome_bind].
    replace (s + c - s) with c by lia. destruct (Z.ltb_spec 0 c).
    + assert (get_range backing s (s + c) = Some (take (Z.to_nat c) p)) as ->.
      { rewrite get_range_in by lia. f_equal. rewrite <- Ht, Hqe, take_take. f_equal. lia. }
      cbn [expect mbind outcome_bind]. rewrite Hsuffix. cbn [mbind outcome_bind]. by rewrite <- app_assoc, Htd.
    + cbn [mbind outcome_bind]. rewrite Hsuffix. cbn [mbind outcome_bind]. by replace (Z.to_nat c) with 0%nat by lia.
  - cbn [mbind outcome_bind]. rewrite Hsuffix. done.
Qed.

Fixpoint decoded_all (l : list (Entry * bytes)) (start_ : Z) : list Entry :=
  match l with
  | [] => []
  | (e, p) :: l => decoded e start_ (start_ + zlen p) :: decoded_all l (start_ + zlen p)
  end.
(** Only version 4 can hold paths that do not fit the length field. *)
Definition pair_ok (k : Kind) (backing : bytes) (v : Version) (ep : Entry * bytes) : Prop :=
  entry_ok k backing ep.1 ep.2 ∧ (v ≠ V4 → zlen ep.2 < PATH_LEN).
Definition sparse_pairs (l : list (Entry * bytes)) : bool := existsb (λ ep, mode_is_sparse (mode ep.1)) l.

Lemma get_range_start {A} (l : list A) n :
  0 ≤ n → get_range l 0 n = if n <=? zlen l then Some (take (Z.to_nat n) l) else None.
Proof.
  intros Hn. destruct (Z.leb_spec n (zlen l)).
  - rewrite get_range_in by lia. by rewrite Z.sub_0_r, drop_0.
  - by apply get_range_None.
Qed.
Lemma get_range_end {A} (a b : list A) : get_range (a ++ b) (zlen a) (zlen (a ++ b)) = Some b.
Proof. rewrite <- (app_nil_r (a ++ b)) at 1. rewrite <- app_assoc. apply get_range_app; [done|by rewrite zlen_app]. Qed.

Lemma chunk_loop_ok k backing0 v l : ∀ idx acc backing range prev sparse rest,
  Forall (pair_ok k backing0 v) l → (v = V4 → prev_ok backing range prev) →
  (∀ q, prev = Some q → zlen q < 2 ^ 32) → 1 ≤ zlen rest → zlen backing + zlen (concat (l.*2)) < 2 ^ 64 →
  chunk_loop (length l) idx (entries_bytes v prev l ++ rest) acc backing (len_in_bytes k)
    (bool_decide (v = V4)) range sparse =
  Ok (acc ++ decoded_all l (zlen backing), backing ++ concat (l.*2), sparse || sparse_pairs l, rest).
Proof.
  induction l as [|[e p] l IH]; intros idx acc backing range prev sparse rest Hall Hprev Hq Hr Hlen.
  { cbn. by rewrite !app_nil_r, orb_false_r. }
  apply list.Forall_cons in Hall as [[He Hp] Hall]. cbn [fst snd fmap list_fmap concat] in *. rewrite zlen_app in Hlen.
  pose proof (zlen_nonneg backing). pose proof (zlen_nonneg p). pose proof (zlen_nonneg (concat l.*2)).
  cbn [length chunk_loop entries_bytes]. rewrite <- app_assoc.
  assert (load_one (match v with V4 => delta_entry prev e p | _ => padded_entry e p end ++
    entries_bytes v (Some p) l ++ rest) backing (len_in_bytes k) (bool_decide (v = V4)) range =
    Ok (decoded e (zlen backing) (zlen (backing ++ p)), backing ++ p, entries_bytes v (Some p) l ++ rest)) as ->.
  { destruct v; cbn [bool_decide]; [by apply (load_padded k backing0); [|apply Hp]..|].
    apply (load_delta k backing0); auto. rewrite zlen_app. pose proof (zlen_nonneg (entries_bytes V4 (Some p) l)). lia. }
  cbn [map_err mbind outcome_bind]. rewrite IH; [|done| |intros q [= <-]; apply (eo_len _ _ _ _ He)|done|rewrite zlen_app; lia].
  - cbn [decoded_all sparse_pairs existsb mode path decoded fst]. rewrite zlen_app, <- !app_assoc, orb_assoc. done.
  - intros _. cbn [prev_ok path decoded]. split; [apply get_range_end|rewrite zlen_app; lia].
Qed.

(** What is the same of an entry that was read back. *)
Record same_entry (st : State) (backing : bytes) (e e' : Entry) : Prop := {
  se_stat : stat e' = stat e;
  se_id : id e' = id e;
  se_mode : mode e' = mode e;
  se_flags : flags e' = stored_flags (flags e);
  se_path : path_in (E := index_error) e' backing = path_in e (path_backing st);
}.
Lemma decoded_all_same st v l a :
  Forall (pair_ok (object_hash st) (path_backing st) v) l →
  Forall2 (same_entry st (a ++ concat (l.*2))) (l.*1) (decoded_all l (zlen a)).
Proof.
  revert a. induction l as [|[e p] l IH]; intros a Hall; cbn [fmap list_fmap fst snd concat decoded_all]; [constructor|].
  apply list.Forall_cons in Hall as [[He _] Hall]. cbn [fst snd] in He. constructor.
  - split; try done. unfold path_in. cbn [path decoded fst snd]. rewrite (eo_path _ _ _ _ He).
    cbn [expect]. by rewrite (get_range_app a p) by done.
  - rewrite app_assoc, <- zlen_app. by apply IH.
Qed.

Lemma entry_head_length k backing e p :
  entry_ok k backing e p → on_disk_entry_sans_path k ≤ zlen (entry_head e p) ≤ on_disk_entry_sans_path k + 2.
Proof.
  intros He. unfold entry_head, stat_bytes, on_disk_entry_sans_path, extended_bytes. cbn [concat].
  rewrite !zlen_app, !zlen_to_be, zlen_nil, (proj1 (eo_id _ _ _ _ He)), (eo_kind _ _ _ _ He).
  destruct (contains (flags e) EXTENDED); [rewrite zlen_to_be|change (zlen []) with 0]; lia.
Qed.
Lemma entries_bytes_length k backing v l prev :
  Forall (pair_ok k backing v) l → (∀ q, prev = Some q → zlen q < 2 ^ 32) →
  zlen l * min_entry_size_in_bytes k v ≤ zlen (entries_bytes v prev l)
    ≤ zlen l * (on_disk_entry_sans_path k + 13) + zlen (concat (l.*2)).
Proof.
  revert prev. induction l as [|[e p] l IH]; intros prev Hall Hq; [done|].
  apply list.Forall_cons in Hall as [[He _] Hall]. cbn [fst snd] in He. cbn [fmap list_fmap fst snd concat entries_bytes] in *.
  rewrite zlen_cons, !zlen_app. specialize (IH (Some p) Hall ltac:(intros q [= <-]; apply (eo_len _ _ _ _ He))).
  apply entry_head_length in He as Hh. pose proof (zlen_nonneg p).
  assert (min_entry_size_in_bytes k v ≤ zlen (match v with V4 => delta_entry prev e p | _ => padded_entry e p end)
    ≤ on_disk_entry_sans_path k + 13 + zlen p) as Hone; [|lia].
  assert (∀ n, next_multiple_of n 8 = n + 7 - (n + 7) mod 8) as Hnm.
  { intros n. unfold next_multiple_of. pose proof (Z.div_mod (n + (8 - 1)) 8 ltac:(lia)).
    replace (n + (8 - 1)) with (n + 7) in * by lia. lia. }
  destruct v; cbn [min_entry_size_in_bytes].
  3:{ unfold delta_entry. rewrite !zlen_app. pose proof (delta_len_range prev p).
      assert (zlen [0] = 1) as -> by done. 
      assert (0 ≤ zlen (drop (Z.to_nat (delta_len prev p)) p) ≤ zlen p) by (unfold zlen; rewrite length_drop; lia).
      assert (1 ≤ zlen (var_int_bytes (strip_len prev p)) ≤ 10); [|lia].
      apply var_int_length. destruct prev as [q|]; cbn [strip_len]; [|lia].
      pose proof (common_prefix_range q p). specialize (Hq q eq_refl). lia. }
  all: destruct (padded_entry_length e p) as [Hm Hlt]; rewrite Hnm.
  all: assert (zlen (padded_entry e p) ≤ zlen (entry_head e p) + zlen p + 8) by
    (unfold padded_entry; rewrite !zlen_app; pose proof (Z.mod_pos_bound (zlen (entry_head e p) + zlen p) 8 ltac:(lia));
     set (n := Z.to_nat _); assert (zlen (replicate n 0) = Z.of_nat n) as -> by (unfold zlen; by rewrite length_replicate); lia).
  all: split; [|lia]; Z.div_mod_to_equations; lia.
Qed.

Definition version_number (v : Version) : Z := match v with V2 => 2 | V3 => 3 | V4 => 4 end.
Definition header_bytes (v : Version) (n : Z) : bytes := SIGNATURE ++ to_be 4 (version_number v) ++ to_be 4 n.

Lemma header_decode_ok v n k rest :
  u32_ok n → len_in_bytes k ≤ zlen rest → header_decode (header_bytes v n ++ rest) k = Ok (v, n, rest).
Proof.
  intros Hn Hr. unfold header_decode, header_bytes. rewrite !zlen_app, !zlen_to_be.
  change (zlen SIGNATURE) with 4. destruct (Z.ltb_spec (4 + (Z.of_nat 4 + Z.of_nat 4) + zlen rest) (3 * 4 + len_in_bytes k)); [lia|].
  cbn [negb ensure mbind outcome_bind]. rewrite <- !app_assoc. rewrite split_at_app by done. cbn [expect mbind outcome_bind].
  unfold bytes_eqb. rewrite bool_decide_true by done. cbn [ensure mbind outcome_bind].
  rewrite split_at_app by by rewrite zlen_to_be. cbn [expect mbind outcome_bind].
  rewrite from_to_be by by destruct v.
  assert ((if version_number v =? 2 then Ok V2 else if version_number v =? 3 then Ok V3
    else if version_number v =? 4 then Ok V4 else Err (VersionUnsupported (version_number v))) = Ok v) as -> by by destruct v.
  cbn [mbind outcome_bind]. rewrite split_at_app by by rewrite zlen_to_be. cbn [expect mbind outcome_bind].
  by rewrite from_to_be by exact Hn.
Qed.

Lemma kept_count es :
  zlen es - zlen (filter (λ e, contains (flags e) REMOVE = true) es) = zlen (kept es).
Proof.
  unfold kept, zlen. induction es as [|e es IH]; [done|]. rewrite !filter_cons.
  destruct (contains (flags e) REMOVE); repeat case_decide; try done; cbn [length]; lia.
Qed.
Lemma zlen_filter_le {A} (P : A → Prop) `{!∀ x, Decision (P x)} l : zlen (filter P l) ≤ zlen l.
Proof. unfold zlen. pose proof (length_filter P l). lia. Qed.

Lemma write_block_emit st ps :
  entries_ok st (kept (entries st)) ps → zlen (entries st) < 2 ^ 32 →
  write_entries_block st =
  emit (header_bytes (detect_required_version st) (zlen (kept (entries st))) ++
        entries_bytes (detect_required_version st) None (zip (kept (entries st)) ps)) {| count := 0; inner := [] |}.
Proof.
  intros Hall Hn. unfold write_entries_block. set (v := detect_required_version st).
  pose proof (zlen_nonneg (entries st)). pose proof (zlen_filter_le (λ e, contains (flags e) REMOVE = true) (entries st)).
  pose proof (zlen_nonneg (filter (λ e, contains (flags e) REMOVE = true) (entries st))).
  rewrite !checked_in by lia. cbn [expect mbind outcome_bind]. unfold op_sub.
  rewrite checked_sub_in by lia. cbn [expect mbind outcome_bind]. rewrite kept_count.
  assert (out_ok {| count := 0; inner := [] |}) as Ho by done.
  assert (header v (zlen (kept (entries st))) {| count := 0; inner := [] |} =
    emit (header_bytes v (zlen (kept (entries st)))) {| count := 0; inner := [] |}) as ->.
  { unfold header. rewrite write_seq_emit; [|done|by destruct v; repeat constructor]. f_equal.
    cbn [concat]. rewrite app_nil_r. by destruct v. }
  rewrite <- emit_emit_end. apply emit_bind_out; [done|]. intros o Ho' Hc.
  assert (count o = 12) as Hc12 by (rewrite Hc; unfold header_bytes; by rewrite !zlen_app, !zlen_to_be).
  rewrite Hc12. apply write_entries_emit; [done|done| |done]. intros _. rewrite Hc12. done.
Qed.

Lemma zip_fst_snd {A B} (l : list A) (k : list B) :
  length l = length k → (zip l k).*1 = l ∧ (zip l k).*2 = k.
Proof. revert k. induction l as [|x l IH]; intros [|y k]; cbn; try done. intros [= Hl]. by destruct (IH k Hl) as [-> ->]. Qed.

Lemma block_pairs st ps :
  entries_ok st (kept (entries st)) ps →
  (detect_required_version st ≠ V4 → Forall (λ p, zlen p < PATH_LEN) ps) →
  Forall (pair_ok (object_hash st) (path_backing st) (detect_required_version st)) (zip (kept (entries st)) ps).
Proof.
  intros Hall Hlong. apply Forall_lookup. intros i [e p] Hi. apply lookup_zip_Some in Hi as [Hei Hpi].
  split; [by apply (Forall2_lookup_lr _ _ _ i e p Hall)|]. intros Hv. specialize (Hlong Hv).
  rewrite Forall_lookup in Hlong. by apply (Hlong i).
Qed.
(** The block takes at most 87 bytes per entry besides its path. *)
Lemma block_written st ps :
  entries_ok st (kept (entries st)) ps → zlen (entries st) < 2 ^ 32 →
  (detect_required_version st ≠ V4 → Forall (λ p, zlen p < PATH_LEN) ps) →
  ∃ block, write_entries_block st = emit block {| count := 0; inner := [] |} ∧
    12 ≤ zlen block ≤ 12 + 87 * zlen ps + zlen (concat ps).
Proof.
  intros Hall Hn Hlong. eexists. split; [by apply write_block_emit|]. apply Forall2_length in Hall as Hlen.
  destruct (zip_fst_snd _ _ Hlen) as [_ Hz2].
  pose proof (entries_bytes_length _ _ _ _ None (block_pairs st ps Hall Hlong) ltac:(done)) as Hsz. rewrite Hz2 in Hsz.
  assert (zlen (zip (kept (entries st)) ps) = zlen ps) as Hl by (unfold zlen; rewrite length_zip_with; lia). rewrite Hl in Hsz.
  rewrite zlen_app. unfold header_bytes at 1 2. rewrite !zlen_app, !zlen_to_be. change (zlen SIGNATURE) with 4.
  pose proof (zlen_nonneg (entries_bytes (detect_required_version st) None (zip (kept (entries st)) ps))).
  pose proof (zlen_nonneg ps). assert (on_disk_entry_sans_path (object_hash st) ≤ 74) by (by destruct (object_hash st)). nia.
Qed.

(** The entries of an index, in each version of the format, are written and read back:
    the entries that are not marked as removed come back in order, with their stat data, ids,
    modes, paths and stored flags, whatever follows them, and whether or not the end of the
    entries is known. Writing fails only when 4 gigabytes are exceeded. Before version 4 paths must be
    shorter than 4095 bytes. *)
Theorem index_entries_roundtrip (st : State) (ps : list bytes)
    (Hall : entries_ok st (kept (entries st)) ps) (Hn : zlen (entries st) < 2 ^ 32)
    (Hlong : detect_required_version st ≠ V4 → Forall (λ p, zlen p < PATH_LEN) ps) :
  match write_entries_block st with
  | Ok out =>
      ∀ rest ofs, len_in_bytes (object_hash st) ≤ zlen rest → ofs = None ∨ ofs = Some (zlen (inner out)) →
      ∃ es backing, decode_entries (inner out ++ rest) ofs (object_hash st) None =
          Ok (detect_required_version st, es, backing, existsb (λ e, mode_is_sparse (mode e)) es, rest) ∧
        Forall2 (same_entry st backing) (kept (entries st)) es
  | Err e => e = IndexTooLarge ∧ 2 ^ 32 ≤ 12 + 87 * zlen ps + zlen (concat ps)
  | Panic => False
  end.
Proof.
  pose proof (zlen_filter_le (λ e, contains (flags e) REMOVE = false) (entries st)) as Hk. fold (kept (entries st)) in Hk.
  pose proof (zlen_nonneg (kept (entries st))). apply Forall2_length in Hall as Hlen.
  destruct (zip_fst_snd _ _ Hlen) as [Hz1 Hz2]. set (l := zip (kept (entries st)) ps) in *.
  set (v := detect_required_version st) in *. set (k := object_hash st) in *.
  pose proof (block_pairs st ps Hall Hlong) as Hpairs. fold k v l in Hpairs.
  assert (zlen l = zlen (kept (entries st))) as Hll.
  { unfold l, zlen. rewrite length_zip_with. lia. }
  assert (zlen ps = zlen l) as Hps by (unfold zlen in *; lia).
  pose proof (entries_bytes_length k (path_backing st) v l None Hpairs ltac:(done)) as Hsz. rewrite Hz2 in Hsz.
  assert (zlen (header_bytes v (zlen (kept (entries st)))) = 12) as Hh.
  { unfold header_bytes. by rewrite !zlen_app, !zlen_to_be. }
  rewrite (write_block_emit st ps Hall Hn). fold v l. unfold emit. cbn [count inner app].
  rewrite zlen_app, Hh. destruct (Z.ltb_spec (0 + (12 + zlen (entries_bytes v None l))) (2 ^ 32)) as [Hok|Hbig].
  2:{ split; [done|]. assert (on_disk_entry_sans_path k ≤ 74) by (by destruct k). nia. }
  cbn [inner]. intros rest ofs Hrest Hofs. unfold decode_entries, entries_head. rewrite <- app_assoc.
  pose proof (zlen_nonneg (entries_bytes v None l)).
  rewrite header_decode_ok; [|unfold u32_ok; lia|rewrite zlen_app; lia]. cbn [mbind outcome_bind].
  rewrite !zlen_app, Hh, <- Hll.
  assert (0 < min_entry_size_in_bytes k v) as Hmin by (by destruct k, v).
  assert (zlen l ≤ max_entries_possible (12 + (zlen (entries_bytes v None l) + zlen rest)) ofs k v) as Hmax.
  { unfold max_entries_possible, entries_block_size_in_bytes, saturating_sub, HEADER_SIZE.
    apply Z.div_le_lower_bound; [done|]. destruct Hofs as [-> | ->]; [lia|]. rewrite zlen_app, Hh. lia. }
  destruct (Z.ltb_spec (max_entries_possible (12 + (zlen (entries_bytes v None l) + zlen rest)) ofs k v) (zlen l)); [lia|].
  cbn [negb ensure mbind outcome_bind]. rewrite checked_mul_in by (unfold ENTRY_SIZE; lia).
  cbn [ok_or mbind outcome_bind ensure_in_alloc_limit]. unfold chunk.
  replace (Z.to_nat (zlen l)) with (length l) by (unfold zlen; lia).
  assert (zlen (concat l.*2) < 2 ^ 64) as H64.
  { assert (∀ qs : list bytes, Forall (λ p, zlen p < 2 ^ 32) qs → zlen (concat qs) ≤ 2 ^ 32 * zlen qs) as Hsum.
    { clear. induction 1 as [|p qs Hp _ IH]; [done|]. cbn [concat]. rewrite zlen_app, zlen_cons. lia. }
    rewrite Hz2. specialize (Hsum ps). assert (Forall (λ p, zlen p < 2 ^ 32) ps) as Hs.
    { eapply Forall2_Forall_r; [exact Hall|]. apply Forall_true. intros e p He. apply (eo_len _ _ _ _ He). }
    specialize (Hsum Hs). lia. }
  pose proof (len_in_bytes_range k).
  rewrite (chunk_loop_ok k (path_backing st) v l 0 [] [] None None false rest Hpairs);
    [|done|done|lia|by rewrite zlen_nil].
  cbn [mbind outcome_bind app orb]. change (zlen (@nil Z)) with 0.
  exists (decoded_all l 0), (concat l.*2). split.
  - do 3 f_equal. unfold sparse_pairs. generalize 0. clear. induction l as [|[e p] l IH]; [done|].
    intros s. cbn [existsb decoded_all mode decoded fst]. by rewrite (IH (s + zlen p)).
  - rewrite <- Hz1. apply (decoded_all_same st v l [] Hpairs).
Qed.

(** ** Lemmas: reading is safe *)
Definition suffix_of (d data : bytes) : Prop := ∃ used, data = used ++ d.
Lemma suffix_trans a b c : suffix_of a b → suffix_of b c → suffix_of a c.
Proof. intros [x ->] [y ->]. exists (y ++ x). by rewrite app_assoc. Qed.
Lemma suffix_refl a : suffix_of a a.
Proof. by exists []. Qed.
Lemma suffix_drop n (a : bytes) : suffix_of (drop n a) a.
Proof. exists (take n a). by rewrite take_drop. Qed.
Lemma suffix_bytes_ok a b : suffix_of a b → bytes_ok b → bytes_ok a.
Proof. intros [x ->] [_ H]%bytes_ok_app. done. Qed.
Lemma suffix_get_from (a : bytes) i d : get_from a i = Some d → suffix_of d a.
Proof.
  unfold get_from. intros (Hi & Hj & Hl & ->)%get_range_Some. rewrite take_ge; [apply suffix_drop|].
  unfold zlen in *. rewrite length_drop. lia.
Qed.
Lemma suffix_split (a : bytes) i x d : split_at_checked a i = Some (x, d) → suffix_of d a.
Proof. intros [-> _]%split_at_Some. by exists x. Qed.
Lemma suffix_read_u32 data x d : read_u32 data = Some (x, d) → suffix_of d data.
Proof.
  unfold read_u32. destruct (split_at_checked data 4) as [[num r]|] eqn:E; [|done]. intros [= _ <-]. by eapply suffix_split.
Qed.
Lemma suffix_read_u16 data x d : read_u16 data = Some (x, d) → suffix_of d data.
Proof.
  unfold read_u16. destruct (split_at_checked data 2) as [[num r]|] eqn:E; [|done]. intros [= _ <-]. by eapply suffix_split.
Qed.
Lemma suffix_load_flags data x d : load_flags data = Some (x, d) → suffix_of d data.
Proof.
  unfold load_flags. destruct (read_u16 data) as [[f r]|] eqn:E; [|done]. cbn [mbind option_bind].
  apply suffix_read_u16 in E. destruct (contains f EXTENDED); [|by intros [= _ <-]].
  destruct (read_u16 r) as [[x' r']|] eqn:E'; [|done]. cbn [mbind option_bind]. apply suffix_read_u16 in E'.
  destruct (extended_from_bits x'); [|done]. cbn [mbind option_bind].
  destruct (extended_to_flags _); [|done]. intros [= _ <-]. by eapply suffix_trans.
Qed.
Lemma suffix_split_byte data b x d : split_at_byte_exclusive data b = Some (x, d) → suffix_of d data.
Proof.
  unfold split_at_byte_exclusive. destruct (_ <? 2); [done|]. destruct (position _ _); [|done].
  intros [= _ <-]. apply suffix_drop.
Qed.

Lemma leb64_value data n i r : leb64_from_read data = Ok (n, i, r) → 0 ≤ n ∧ 0 ≤ i ≤ zlen data.
Proof.
  rewrite leb64_from_read_eq. destruct (parse_leb64 data) as [[v c]| |] eqn:E; [|done|done]. cbn [streamed].
  intros [= <- <- _]. destruct data as [|b data]; [done|]. cbn [parse_leb64] in E.
  apply parse_leb64_loop_count in E as Hc. rewrite zlen_cons. split; [|lia].
  assert (0 ≤ Z.land b 127) as Hb by (rewrite land_127; by apply Z.mod_pos_bound).
  revert E Hb. generalize (Z.land b 127), 1. clear. revert b. induction data as [|x data IH]; intros b v0 i;
    cbn [parse_leb64_loop]; destruct (Z.land b 128 =? 0); try done; try (by intros [= <- _]).
  intros E Hv. unfold ok_or in E. destruct (checked_add 64 v0 1) as [y|]; [|done]. cbn [mbind option_bind] in E.
  destruct (checked_shl 64 y 7) as [z|]; [|done]. cbn [mbind option_bind] in E.
  destruct (checked_add 64 z (Z.land x 127)) as [w|] eqn:Ew; [|done]. cbn [mbind outcome_bind] in E.
  apply checked_Some in Ew as [<- Hw]. eapply IH; [exact E|lia].
Qed.
Lemma var_int_safe data : safe (var_int data) (λ '(n, d), 0 ≤ n ∧ suffix_of d data).
Proof.
  unfold var_int. destruct (leb64_from_read data) as [[[n i] r]| |] eqn:E; [|done|].
  - apply leb64_value in E as [Hn Hi]. rewrite get_from_in by lia. cbn [expect mbind outcome_bind].
    split; [done|]. apply suffix_drop.
  - rewrite leb64_from_read_eq in E. destruct (parse_leb64 data) as [[? ?]| |] eqn:E'; try done.
    exfalso. clear E. destruct data as [|b data]; [done|]. cbn [parse_leb64] in E'. revert E'.
    generalize (Z.land b 127), 1. revert b. induction data as [|x data IH]; intros b v i; cbn [parse_leb64_loop];
      destruct (Z.land b 128 =? 0); try done. destruct (checked_add 64 v 1 ≫= _); [|done]. apply IH.
Qed.

(** The paths of entries tile the backing. *)
Definition tiles (backing : bytes) (es : list Entry) (ps : list bytes) : Prop :=
  Forall2 (λ e p, path_in (E := index_error) e backing = Ok p) es ps ∧ backing = concat ps.
Definition last_range (es : list Entry) : option (Z * Z) := path <$> list.last es.

Definition path_result (data backing : bytes) (r : bytes * bytes) : Prop :=
  (∃ p, r.1 = backing ++ p) ∧ suffix_of r.2 data.
Lemma load_delta_path_safe data backing prev :
  match prev with Some (s, t) => 0 ≤ s ≤ t ∧ t ≤ zlen backing | None => True end →
  safe (load_delta_path data backing prev) (path_result data backing).
Proof.
  intros Hprev. unfold load_delta_path. eapply safe_bind; [apply var_int_safe|]. intros [n d] [Hn Hd].
  eapply (safe_bind _ _ (λ b, ∃ p, b = backing ++ p)).
  - assert (∃ p, backing = backing ++ p) as Hnil by (exists []; by rewrite app_nil_r).
    destruct prev as [[s t]|]; [|done].
    apply safe_ok_or. intros e [<- He]%checked_Some. apply safe_ok_or. intros c [<- Hc]%checked_Some.
    destruct (0 <? _); [|done]. rewrite get_range_in by lia. cbn. by eexists.
  - intros b [p ->]. apply safe_ok_or. intros [q r] Hq. apply suffix_split_byte in Hq.
    split; cbn [fst snd]; [exists (p ++ q); by rewrite app_assoc|by eapply suffix_trans].
Qed.
Lemma load_path_safe data backing flags n : safe (load_path data backing flags n) (path_result data backing).
Proof.
  unfold load_path. eapply (safe_bind _ _ (λ '(_, d), suffix_of d data)).
  - destruct (contains flags PATH_LEN).
    + destruct (split_at_byte_exclusive data 0) as [[p d]|] eqn:E; [|done]. cbn. by eapply suffix_split_byte.
    + apply safe_ok_or. intros [p d] E. apply suffix_split in E. apply safe_ok_or. intros d' E'.
      apply suffix_get_from in E'. cbn. by eapply suffix_trans.
  - intros [p d] Hd. split; [by exists p|done].
Qed.
Lemma load_one_safe data backing k delta prev :
  bytes_ok data → match prev with Some (s, t) => 0 ≤ s ≤ t ∧ t ≤ zlen backing | None => True end →
  safe (load_one data backing (len_in_bytes k) delta prev) (λ '(e, b, d),
    path_result data backing (b, d) ∧ path e = (zlen backing, zlen b) ∧ oid_ok (id e) ∧ Hash.kind (id e) = k).
Proof.
  intros Hb Hprev. unfold load_one.
  do 10 (apply safe_ok_or; intros [? ?] ?%suffix_read_u32).
  apply safe_ok_or. intros [hash d] Hs. apply split_at_Some in Hs as Hh. apply suffix_split in Hs.
  apply safe_ok_or. intros [f d'] Hf%suffix_load_flags.
  assert (∀ x, suffix_of x d' → suffix_of x data) as Htr by (intros x Hx; repeat (eapply suffix_trans; [eassumption|]); apply suffix_refl).
  eapply (safe_bind _ _ (path_result d' backing)).
  { destruct delta; [by apply load_delta_path_safe|apply load_path_safe]. }
  intros [b r] [Hp Hr]. destruct Hh as [Hdh Hlh]. subst.
  destruct (from_bytes_or_panic_ok (E := ()) hash k) as (i & -> & Hi & Hk); [done|].
  cbn [mbind outcome_bind safe]. split; [split; [done|by apply Htr]|]. split; [done|]. split; [|done].
  unfold oid_ok. cbn [id]. rewrite Hi, Hk. split; [done|].
  match goal with H : suffix_of (hash ++ d) ?y |- _ => assert (bytes_ok (hash ++ d)) as Hbh end.
  { eapply suffix_bytes_ok; [|exact Hb]. repeat (eapply suffix_trans; [eassumption|]); apply suffix_refl. }
  by apply bytes_ok_app in Hbh as [? _].
Qed.

Definition decoded_ok (k : Kind) (e : Entry) : Prop := oid_ok (id e) ∧ Hash.kind (id e) = k.

Lemma path_in_app {E} e a b p : path_in (E := E) e a = Ok p → path_in (E := E) e (a ++ b) = Ok p.
Proof.
  unfold path_in. destruct (get_range a _ _) as [q|] eqn:Eq; [|done]. intros [= <-].
  apply get_range_Some in Eq as (Hi & Hj & _ & ->). pose proof (zlen_nonneg b).
  rewrite get_range_in by (rewrite ?zlen_app; lia).
  cbn [expect]. f_equal. unfold zlen in *. rewrite drop_app_le by lia. rewrite take_app_le; [done|rewrite length_drop; lia].
Qed.

Lemma tiles_snoc backing es ps e p :
  tiles backing es ps → path e = (zlen backing, zlen (backing ++ p)) →
  tiles (backing ++ p) (es ++ [e]) (ps ++ [p]).
Proof.
  intros [Hall ->] Hp. split; [|by rewrite concat_app; cbn; rewrite app_nil_r]. apply Forall2_app.
  - eapply list.Forall2_impl; [exact Hall|]. intros x y. apply path_in_app.
  - constructor; [|constructor]. unfold path_in. rewrite Hp. cbn [fst snd]. by rewrite get_range_end.
Qed.
Lemma tiles_last backing es ps :
  tiles backing es ps → match last_range es with Some (s, t) => 0 ≤ s ≤ t ∧ t ≤ zlen backing | None => True end.
Proof.
  intros [Hall _]. unfold last_range. destruct (list.last es) as [e|] eqn:E; [|done]. cbn.
  apply list.last_Some in E as [es' ->]. apply Forall2_app_inv_l in Hall as (? & ? & _ & H & _).
  apply Forall2_cons_inv_l in H as (p & ? & H & _). unfold path_in in H.
  destruct (path e) as [s t]. cbn [fst snd] in H. destruct (get_range backing s t) eqn:G; [|done].
  apply get_range_Some in G. lia.
Qed.

Lemma chunk_loop_safe k delta todo : ∀ idx data es backing sparse ps,
  bytes_ok data → tiles backing es ps → Forall (decoded_ok k) es → sparse = existsb (λ e, mode_is_sparse (mode e)) es →
  safe (chunk_loop todo idx data es backing (len_in_bytes k) delta (last_range es) sparse)
    (λ '(es', backing', sparse', rest), suffix_of rest data ∧ length es' = (length es + todo)%nat ∧
      (∃ ps', tiles backing' es' ps') ∧ Forall (decoded_ok k) es' ∧
      sparse' = existsb (λ e, mode_is_sparse (mode e)) es').
Proof.
  induction todo as [|todo IH]; intros idx data es backing sparse ps Hb Ht Hk Hs; cbn [chunk_loop].
  { split; [apply suffix_refl|]. split; [lia|]. by eauto. }
  eapply safe_bind; [apply safe_map_err, load_one_safe; [done|by eapply tiles_last]|].
  intros [[e b] d] ([[p Hp] Hd] & Hpath & Hid & Hkind). cbn [fst snd] in Hp, Hd. subst b.
  assert (Some (path e) = last_range (es ++ [e])) as -> by (unfold last_range; by rewrite last_snoc).
  eapply safe_impl; [apply (IH _ _ _ _ _ (ps ++ [p]))|].
  - by eapply suffix_bytes_ok.
  - by apply tiles_snoc.
  - apply Forall_app. split; [done|]. constructor; [done|constructor].
  - rewrite existsb_app, Hs. cbn [existsb]. by rewrite orb_false_r.
  - intros [[[es' backing'] sparse'] rest] (Hr & Hl & H). rewrite length_app in Hl. cbn [length] in Hl.
    split; [by eapply suffix_trans|]. split; [lia|done].
Qed.

Lemma header_decode_safe data k :
  bytes_ok data →
  safe (header_decode data k) (λ '(v, n, post), ∃ head, data = head ++ post ∧ zlen head = 12 ∧
    n = from_be (drop 8 head) ∧ u32_ok n).
Proof.
  intros Hb. unfold header_decode. pose proof (len_in_bytes_range k).
  destruct (Z.ltb_spec (zlen data) (3 * 4 + len_in_bytes k)); cbn [negb ensure mbind outcome_bind]; [done|].
  rewrite split_at_in by lia. cbn [expect mbind outcome_bind]. apply safe_ensure. intros _.
  rewrite split_at_in by (unfold zlen in *; rewrite length_drop; lia). cbn [expect mbind outcome_bind].
  eapply (safe_bind _ _ (λ _, True)); [by repeat destruct (_ =? _)|]. intros v _.
  rewrite split_at_in by (unfold zlen in *; rewrite !length_drop; lia). cbn [expect mbind outcome_bind safe].
  rewrite !drop_drop. change (Z.to_nat 4 + Z.to_nat 4)%nat with 8%nat. change (8 + Z.to_nat 4)%nat with 12%nat.
  exists (take 12 data). rewrite take_drop. split; [done|].
  split; [unfold zlen in *; rewrite length_take; lia|]. rewrite skipn_firstn_comm. split; [done|].
  change 4%nat with (Z.to_nat 4). apply from_be_u32; [|unfold zlen in *; rewrite length_take, length_drop; lia].
  by apply Forall_take, Forall_drop.
Qed.

Lemma entries_head_safe data ofs k limit :
  bytes_ok data →
  safe (entries_head data ofs k limit) (λ '(v, n, post),
    (∃ head, data = head ++ post ∧ zlen head = 12 ∧ n = from_be (drop 8 head) ∧ u32_ok n) ∧
    n ≤ max_entries_possible (zlen data) ofs k v).
Proof.
  intros Hb. unfold entries_head. eapply safe_bind; [by apply header_decode_safe|].
  intros [[v n] post] Hh. apply safe_ensure. intros Hmax.
  apply safe_ok_or. intros size _. eapply (safe_bind _ _ (λ _, True)).
  { destruct limit as [l|]; [|done]. cbn. by destruct (l <? size). }
  intros _ _. eapply (safe_bind _ _ (λ _, True)).
  { destruct limit as [l|]; [|done]. cbn [ensure_in_alloc_limit]. by destruct (l <? _). }
  intros _ _. split; [exact Hh|]. by destruct (Z.ltb_spec (max_entries_possible (zlen data) ofs k v) n).
Qed.

(** Whatever the bytes, reading the header and the entries of an index returns without a
    panic, with an error or with as many entries as the header announces: their ids are of the
    kind of the index, every path range lies in the path backing, which is exactly the
    concatenation of the paths, the sparse flag says whether one of the entries is a directory,
    and the rest is where the reader stopped. *)
Theorem index_entries_safe (data : bytes) (ofs : option Z) (k : Kind) (limit : option Z)
    (Hb : bytes_ok data) :
  safe (decode_entries data ofs k limit) (λ '(v, es, backing, sparse, rest),
    (∃ head body, data = head ++ body ++ rest ∧ zlen head = 12 ∧
       zlen es = from_be (drop 8 head) ∧ zlen es ≤ max_entries_possible (zlen data) ofs k v) ∧
    Forall (λ e, oid_ok (id e) ∧ Hash.kind (id e) = k) es ∧
    (∃ ps, Forall2 (λ e p, path_in (E := index_error) e backing = Ok p) es ps ∧ backing = concat ps) ∧
    sparse = existsb (λ e, mode_is_sparse (mode e)) es).
Proof.
  unfold decode_entries. eapply safe_bind; [by apply entries_head_safe|].
  intros [[v n] post] [(head & -> & Hh & Hn & Hr) Hmax]. apply bytes_ok_app in Hb as [_ Hb].
  pose proof (chunk_loop_safe k (bool_decide (v = V4)) (Z.to_nat n) 0 post [] [] false []) as Hc.
  eapply safe_bind; [apply Hc; [done|split; [constructor|done]|constructor|done]|].
  intros [[[es backing] sparse] rest] ([body ->] & Hl & [ps Hps] & Hk & Hs). cbn [safe].
  unfold u32_ok in Hr. assert (zlen es = n) as Hes by (unfold zlen; rewrite Hl; cbn [length]; lia).
  split; [|by eauto]. exists head, body. split; [done|]. split; [done|]. split; [by rewrite Hes|].
  by rewrite Hes.
Qed.

(** ** Examples *)
Definition sample_stat : Stat :=
  {| mtime := {| secs := 1700000000; nsecs := 5 |}; ctime := {| secs := 1700000001; nsecs := 6 |};
     dev := 1; ino := 2; uid := 1000; gid := 1000; size := 7 |}.
Definition sample_entry (f m start_ end_ : Z) : Entry :=
  {| stat := sample_stat; id := OidSha1 (replicate 20 7); flags := f; mode := m; path := (start_, end_) |}.
Definition state_of (v : Version) (es : list Entry) (backing : bytes) : State :=
  {| object_hash := Sha1; version := v; entries := es; path_backing := backing; is_sparse := false;
     end_of_index_at_decode_time := false; offset_table_at_decode_time := false; tree := None; link := None;
     resolve_undo := None; untracked := None; fs_monitor := None |}.
(** "a/b", and "a/cd", which is marked as added later. *)
Definition sample_backing : bytes := [97; 47; 98; 97; 47; 99; 100].
Definition sample_entries : list Entry :=
  [sample_entry 0 MODE_FILE 0 3; sample_entry (Z.lor EXTENDED INTENT_TO_ADD) MODE_SYMLINK 3 7].
Definition sample_state (v : Version) : State := state_of v sample_entries sample_backing.
Definition sample_paths : list bytes := [[97; 47; 98]; [97; 47; 99; 100]].

Lemma sample_entries_ok v : entries_ok (sample_state v) (kept (entries (sample_state v))) sample_paths.
Proof.
  change (kept (entries (sample_state v))) with sample_entries.
  repeat constructor; try (apply (bool_decide_unpack _); vm_compute; exact I); vm_compute; intuition discriminate.
Qed.
Lemma index_entries_roundtrip_witness :
  let st := sample_state V4 in
  match write_entries_block st with
  | Ok out =>
      ∀ rest ofs, len_in_bytes (object_hash st) ≤ zlen rest → ofs = None ∨ ofs = Some (zlen (inner out)) →
      ∃ es backing, decode_entries (inner out ++ rest) ofs (object_hash st) None =
          Ok (detect_required_version st, es, backing, existsb (λ e, mode_is_sparse (mode e)) es, rest) ∧
        Forall2 (same_entry st backing) (kept (entries st)) es
  | Err e => e = IndexTooLarge ∧ 2 ^ 32 ≤ 12 + 87 * zlen sample_paths + zlen (concat sample_paths)
  | Panic => False
  end.
Proof.
  apply (index_entries_roundtrip (sample_state V4) sample_paths).
  - apply sample_entries_ok.
  - reflexivity.
  - intros H. exfalso. apply H. reflexivity.
Defined.

(** The bytes of the sample in version 3, and what is read from them. *)
Example sample_written :
  (out ← write_entries_block (sample_state V2);
   '(v, es, backing, _, rest) ← decode_entries (inner out ++ replicate 20 1) None Sha1 None;
   Ok (zlen (inner out), v, es, backing, rest)) =
  Ok (156, V3, sample_entries, sample_backing, replicate 20 1).
Proof. vm_compute. reflexivity. Qed.

Lemma index_entries_safe_witness :
  safe (decode_entries (header_bytes V2 0 ++ replicate 20 1) None Sha1 None) (λ '(v, es, backing, sparse, rest),
    (∃ head body, header_bytes V2 0 ++ replicate 20 1 = head ++ body ++ rest ∧ zlen head = 12 ∧
       zlen es = from_be (drop 8 head) ∧
       zlen es ≤ max_entries_possible (zlen (header_bytes V2 0 ++ replicate 20 1)) None Sha1 v) ∧
    Forall (λ e, oid_ok (id e) ∧ Hash.kind (id e) = Sha1) es ∧
    (∃ ps, Forall2 (λ e p, path_in (E := index_error) e backing = Ok p) es ps ∧ backing = concat ps) ∧
    sparse = existsb (λ e, mode_is_sparse (mode e)) es).
Proof.
  apply (index_entries_safe (header_bytes V2 0 ++ replicate 20 1) None Sha1 None).
  apply (bool_decide_unpack _). vm_compute. exact I.
Defined.

(** Before version 4, an entry with a path of 4095 bytes or more is written with padding, which
    the reader does not skip for such paths: the entry behind it cannot be read. *)
Example long_path_not_skipped :
  (out ← write_entries_block (state_of V2 [sample_entry 0 MODE_FILE 0 4100; sample_entry 0 MODE_FILE 0 1] (replicate 4100 97));
   decode_entries (inner out ++ replicate 20 1) None Sha1 None) = Err (BadEntry 1).
Proof. vm_compute. reflexivity. Qed.
