(* ===== verification/GitIndexAccess.v ===== *)
(** * [gix-index/src/access/mod.rs], [verify.rs]: access to the index and its mutation

    The operations of [State] on entries that are sorted by path and stage. A path that an
    entry refers to is a slice of the path backing, so that every comparison may panic. A
    stage is its number: the two bits of [stage_raw] leave the last arm of [stage()]
    unreachable. A closure is a function on its state. *)

From stdpp Require Import gmap sorting.
From S2P Require Import Prelude Slices Hash Ewah PackEntry GitIndex.

Inductive access_error := OutOfOrder (idx : Z).

(** ** [entry/mod.rs] *)
Definition entry_path (st : State) (e : Entry) : outcome access_error bytes := path_in e (path_backing st).
Definition stage (e : Entry) : Z := stage_raw (flags e).
Definition cmp_filepaths (a b : bytes) : comparison :=
  let common_len := Z.min (zlen a) (zlen b) in
  then_with (bytes_cmp (take (Z.to_nat common_len) a) (take (Z.to_nat common_len) b)) (zlen a ?= zlen b).
Definition entry_is_dir (e : Entry) : bool := mode_is_sparse (mode e) || mode_is_submodule (mode e).

(** ** Lookups *)

(** [enumerate()] of a slice that starts at position [start_]. *)
Definition enumerate_from {A} (start_ : Z) (l : list A) : list (Z * A) := zip (seqZ start_ (zlen l)) l.
(** [take_while(|(_, e)| e.path(self) == path)] and then [find_map(..)], or [last()]. *)
Fixpoint find_stage (st : State) (l : list (Z * Entry)) (p : bytes) (wanted_stage : Z)
    : outcome access_error (option Z) :=
  match l with
  | [] => Ok None
  | (idx, e) :: l =>
      q ← entry_path st e;
      if bytes_eqb q p then
        if stage e =? wanted_stage then Ok (Some idx) else find_stage st l p wanted_stage
      else Ok None
  end.
Fixpoint last_same (st : State) (l : list (Z * Entry)) (p : bytes) (acc : option Z)
    : outcome access_error (option Z) :=
  match l with
  | [] => Ok acc
  | (idx, e) :: l =>
      q ← entry_path st e;
      if bytes_eqb q p then last_same st l p (Some idx) else Ok acc
  end.

Definition walk_entry_stages (st : State) (p : bytes) (base : Z) (direction : comparison)
    : outcome access_error (option Z) :=
  match direction with
  | Gt =>
      match get_from (entries st) (base + 1) with
      | None => Ok None
      | Some l => last_same st (enumerate_from (base + 1) l) p None
      end
  | Eq => Ok (Some base)
  | Lt =>
      l ← expect (get_range (entries st) 0 base);
      last_same st (reverse (enumerate_from 0 l)) p None
  end.
Definition entry_index_by_idx_and_stage (st : State) (p : bytes) (idx wanted_stage : Z) (stage_cmp : comparison)
    : outcome access_error (option Z) :=
  match stage_cmp with
  | Gt =>
      l ← expect (get_range (entries st) 0 idx);
      find_stage st (reverse (enumerate_from 0 l)) p wanted_stage
  | Eq => Ok (Some idx)
  | Lt =>
      match get_from (entries st) (idx + 1) with
      | None => Ok None
      | Some l => find_stage st (enumerate_from (idx + 1) l) p wanted_stage
      end
  end.

(** The closure of the searches that compare paths and remember something of an equal one. *)
Definition compare_path {St} (st : State) (p : bytes) (h : Entry → St) (s : St) (e : Entry)
    : outcome access_error (St * comparison) :=
  q ← entry_path st e;
  let res := bytes_cmp q p in
  Ok (match res with Eq => h e | _ => s end, res).

Definition entry_index_by_path_and_stage (st : State) (p : bytes) (wanted : Z) : outcome access_error (option Z) :=
  '(stage_cmp, r) ← binary_search_mut (entries st) (compare_path st p (λ e, stage e ?= wanted)) Eq;
  match r with
  | inr _ => Ok None
  | inl idx => entry_index_by_idx_and_stage st p idx wanted stage_cmp
  end.
Definition entry_by_path_and_stage (st : State) (p : bytes) (wanted : Z) : outcome access_error (option Entry) :=
  idx ← entry_index_by_path_and_stage st p wanted;
  match idx with
  | None => Ok None
  | Some idx => e ← expect (get (entries st) idx); Ok (Some e)
  end.
Definition entry_index_by_path_and_stage_bounded (st : State) (p : bytes) (wanted upper_bound : Z)
    : outcome access_error (option Z) :=
  es ← expect (get_range (entries st) 0 upper_bound);
  r ← binary_search_with es (λ e, q ← entry_path st e; Ok (then_with (bytes_cmp q p) (stage e ?= wanted)));
  Ok (match r with inl i => Some i | inr _ => None end).
Definition entry_by_path (st : State) (p : bytes) : outcome access_error (option Entry) :=
  '(stage_at_index, r) ← binary_search_mut (entries st) (compare_path st p stage) 0;
  match r with
  | inr _ => Ok None
  | inl idx =>
      idx ← (if (stage_at_index =? 0) || (stage_at_index =? 2) then Ok (Some idx)
             else entry_index_by_idx_and_stage st p idx 2 (stage_at_index ?= 2));
      match idx with
      | None => Ok None
      | Some idx => e ← expect (get (entries st) idx); Ok (Some e)
      end
  end.
Definition entry_index_by_path (st : State) (p : bytes) : outcome access_error (Z + Z) :=
  binary_search_with (entries st) (λ e, q ← entry_path st e; Ok (bytes_cmp q p)).
Definition entry_range (st : State) (p : bytes) : outcome access_error (option (Z * Z)) :=
  '(_, r) ← binary_search_mut (entries st) (compare_path st p stage) 0;
  match r with
  | inr _ => Ok None
  | inl idx =>
      lo ← walk_entry_stages st p idx Lt;
      hi ← walk_entry_stages st p idx Gt;
      Ok (Some (default idx lo, default idx hi + 1))
  end.

(** The loop over the entries behind the place where the directory would be. *)
Fixpoint closest_loop (st : State) (l : list Entry) (directory : bytes) : outcome access_error (option Entry) :=
  match l with
  | [] => Ok None
  | entry :: l =>
      path ← entry_path st entry;
      match get_range path 0 (zlen directory) with
      | None => Ok None
      | Some start_ =>
          if negb (bytes_eqb start_ directory) then Ok None
          else match get path (zlen directory) with
               | None => Ok None
               | Some dir_char =>
                   if 47 <? dir_char then Ok None
                   else if dir_char <? 47 then closest_loop st l directory
                   else Ok (Some entry)
               end
      end
  end.
Definition entry_closest_to_directory_or_directory (st : State) (directory : bytes)
    : outcome access_error (option Entry) :=
  r ← entry_index_by_path st directory;
  match r with
  | inl idx => e ← expect (get (entries st) idx); Ok (if entry_is_dir e then Some e else None)
  | inr idx => l ← expect (get_from (entries st) idx); closest_loop st l directory
  end.
Definition path_is_directory (st : State) (p : bytes) : outcome access_error bool :=
  e ← entry_closest_to_directory_or_directory st p;
  Ok (match e with Some _ => true | None => false end).

Definition before_prefix (st : State) (prefix : bytes) (e : Entry) : outcome access_error bool :=
  q ← entry_path st e;
  match get_range q 0 (zlen prefix) with
  | None =>
      start_ ← expect (get_range prefix 0 ((path e).2 - (path e).1));
      Ok (match bytes_cmp q start_ with Gt => false | _ => true end)
  | Some start_ => Ok (match bytes_cmp start_ prefix with Lt => true | _ => false end)
  end.
Definition at_prefix (st : State) (prefix : bytes) (e : Entry) : outcome access_error bool :=
  q ← entry_path st e;
  Ok (match get_range q 0 (zlen prefix) with
      | Some start_ => match bytes_cmp start_ prefix with Gt => false | _ => true end
      | None => false
      end).
Definition prefixed_entries_range (st : State) (prefix : bytes) : outcome access_error (option (Z * Z)) :=
  if zlen prefix =? 0 then Ok (Some (0, zlen (entries st)))
  else
    low ← partition_point_with (entries st) (before_prefix st prefix);
    above ← expect (get_from (entries st) low);
    n ← partition_point_with above (at_prefix st prefix);
    let high := low + n in
    match get (entries st) low with
    | None => Ok None
    | Some low_entry =>
        low ← (if negb (stage low_entry =? 0) then
                 q ← entry_path st low_entry;
                 l ← walk_entry_stages st q low Lt;
                 Ok (default low l)
               else Ok low);
        high ← match get (entries st) high with
               | Some high_entry =>
                   if negb (stage high_entry =? 0) then
                     q ← entry_path st high_entry;
                     l ← walk_entry_stages st q high Lt;
                     Ok (default high l)
                   else Ok high
               | None => Ok high
               end;
        Ok (if low =? high then None else Some (low, high))
    end.
Definition prefixed_entries (st : State) (prefix : bytes) : outcome access_error (option (list Entry)) :=
  r ← prefixed_entries_range st prefix;
  match r with
  | None => Ok None
  | Some (lo, hi) => l ← expect (get_range (entries st) lo hi); Ok (Some l)
  end.

(** ** [verify.rs] *)
Fixpoint verify_loop (st : State) (l : list Entry) (idx : Z) (previous : option Entry)
    : outcome access_error () :=
  match l with
  | [] => Ok tt
  | entry :: l =>
      _ ← match previous with
          | None => Ok tt
          | Some prev =>
              lhs ← entry_path st prev;
              rhs ← entry_path st entry;
              ensure (bool_decide (then_with (cmp_filepaths lhs rhs) (stage prev ?= stage entry) = Lt))
                (OutOfOrder idx)
          end;
      verify_loop st l (idx + 1) (Some entry)
  end.
Definition verify_entries (st : State) : outcome access_error () := verify_loop st (entries st) 0 None.

(** ** Mutation *)
Definition set_entries (st : State) (es : list Entry) (backing : bytes) : State :=
  {| object_hash := object_hash st; version := version st; entries := es; path_backing := backing;
     is_sparse := is_sparse st; end_of_index_at_decode_time := end_of_index_at_decode_time st;
     offset_table_at_decode_time := offset_table_at_decode_time st; tree := tree st; link := link st;
     resolve_undo := resolve_undo st; untracked := untracked st; fs_monitor := fs_monitor st |}.
Definition set_sparse (st : State) (b : bool) : State :=
  {| object_hash := object_hash st; version := version st; entries := entries st; path_backing := path_backing st;
     is_sparse := b; end_of_index_at_decode_time := end_of_index_at_decode_time st;
     offset_table_at_decode_time := offset_table_at_decode_time st; tree := tree st; link := link st;
     resolve_undo := resolve_undo st; untracked := untracked st; fs_monitor := fs_monitor st |}.
Definition set_tree (st : State) (t : option Tree) : State :=
  {| object_hash := object_hash st; version := version st; entries := entries st; path_backing := path_backing st;
     is_sparse := is_sparse st; end_of_index_at_decode_time := end_of_index_at_decode_time st;
     offset_table_at_decode_time := offset_table_at_decode_time st; tree := t; link := link st;
     resolve_undo := resolve_undo st; untracked := untracked st; fs_monitor := fs_monitor st |}.
Definition invalidate_entry_cache_extensions (st : State) : State :=
  {| object_hash := object_hash st; version := version st; entries := entries st; path_backing := path_backing st;
     is_sparse := is_sparse st; end_of_index_at_decode_time := false; offset_table_at_decode_time := false;
     tree := tree st; link := None; resolve_undo := None; untracked := None; fs_monitor := None |}.
Definition refresh_sparse_state (st : State) : State :=
  set_sparse st (existsb (λ e, mode_is_sparse (mode e)) (entries st)).

Definition set_num_entries (t : Tree) (n : option Z) : Tree :=
  {| tree_name := tree_name t; tree_id := tree_id t; num_entries := n; children := children t |}.
(** The component before the first slash, and what is behind it. *)
Definition split_slash (p : bytes) : option (bytes * bytes) :=
  match position (λ b, b =? 47) p with
  | Some slash_pos => Some (take (Z.to_nat slash_pos) p, drop (S (Z.to_nat slash_pos)) p)
  | None => None
  end.
(** The loop over children stops at the first with the name. *)
Fixpoint invalidate_tree_node_recursive (t : Tree) (p : bytes) : Tree :=
  {| tree_name := tree_name t; tree_id := tree_id t; num_entries := None;
     children :=
       match split_slash p with
       | None => children t
       | Some (component, rest) =>
           (fix go (cs : list Tree) : list Tree :=
              match cs with
              | [] => []
              | child :: cs =>
                  if bytes_eqb (tree_name child) component
                  then invalidate_tree_node_recursive child rest :: cs
                  else child :: go cs
              end) (children t)
       end |}.
Definition invalidate_tree_at_path (st : State) (p : bytes) : State :=
  set_tree st ((λ t, invalidate_tree_node_recursive t p) <$> tree st).

Definition dangerously_push_entry (st : State) (s : Stat) (i : ObjectId) (f m : Z) (p : bytes) : State :=
  let path_start := zlen (path_backing st) in
  let backing := path_backing st ++ p in
  let st := set_entries st
    (entries st ++ [{| stat := s; id := i; flags := f; mode := m; path := (path_start, zlen backing) |}]) backing in
  let st := invalidate_entry_cache_extensions st in
  if mode_is_sparse m then set_sparse st true else st.

(** The paths of all entries are compared as soon as there are two. *)
Definition sort_entries (st : State) : outcome access_error State :=
  _ ← (if 1 <? zlen (entries st) then mapM (entry_path st) (entries st) else Ok []);
  let path_of e := default [] (get_range (path_backing st) (path e).1 (path e).2) in
  let es := sort_by (λ a b, then_with (cmp_filepaths (path_of a) (path_of b)) (stage a ?= stage b)) (entries st) in
  Ok (invalidate_entry_cache_extensions (set_entries st es (path_backing st))).

(** [retain_mut]; the closure may change the entries it keeps. *)
Fixpoint retain_loop {St} (st : State) (should_remove : St → Z → bytes → Entry → St * Entry * bool)
    (s : St) (l : list Entry) (index : Z) (any_removed removed_sparse_entry : bool)
    : outcome access_error (St * list Entry * bool * bool) :=
  match l with
  | [] => Ok (s, [], any_removed, removed_sparse_entry)
  | e :: l =>
      p ← entry_path st e;
      let '(s, e, remove) := should_remove s index p e in
      if remove : bool then
        retain_loop st should_remove s l (index + 1) true (removed_sparse_entry || mode_is_sparse (mode e))
      else
        '(s, l, any_removed, removed_sparse_entry) ←
          retain_loop st should_remove s l (index + 1) any_removed removed_sparse_entry;
        Ok (s, e :: l, any_removed, removed_sparse_entry)
  end.
Definition remove_entries {St} (st : State) (should_remove : St → Z → bytes → Entry → St * Entry * bool) (s : St)
    : outcome access_error (St * State) :=
  '(s, es, any_removed, removed_sparse_entry) ← retain_loop st should_remove s (entries st) 0 false false;
  let st := set_entries st es (path_backing st) in
  Ok (s,
      if any_removed : bool then
        let st := invalidate_entry_cache_extensions st in
        let st := set_tree st ((λ t, set_num_entries t None) <$> tree st) in
        if removed_sparse_entry : bool then refresh_sparse_state st else st
      else st).

(** [Vec::remove] *)
Definition remove_at {A} (l : list A) (index : Z) : outcome access_error (A * list A) :=
  x ← expect (get l index); Ok (x, take (Z.to_nat index) l ++ drop (S (Z.to_nat index)) l).
Definition remove_entry_at_index (st : State) (index : Z) : outcome access_error (Entry * State) :=
  e ← expect (get (entries st) index);
  let was_sparse := mode_is_sparse (mode e) in
  p ← entry_path st e;
  let st := invalidate_tree_at_path st p in
  '(removed, es) ← remove_at (entries st) index;
  let st := invalidate_entry_cache_extensions (set_entries st es (path_backing st)) in
  Ok (removed, if was_sparse then refresh_sparse_state st else st).

(** [Vec::insert], which panics behind the end. *)
Definition insert_at {A} (l : list A) (index : Z) (x : A) : outcome access_error (list A) :=
  '(a, b) ← expect (split_at_checked l index); Ok (a ++ x :: b).
Definition replace_at {A} (l : list A) (index : Z) (x : A) : list A := <[Z.to_nat index := x]> l.

Definition add_entry (st : State) (s : Stat) (i : ObjectId) (f m : Z) (p : bytes)
    : outcome access_error (option Entry * State) :=
  let st := invalidate_tree_at_path st p in
  let wanted := stage_raw f in
  r ← binary_search_with (entries st)
        (λ e, q ← entry_path st e; Ok (then_with (cmp_filepaths q p) (stage e ?= wanted)));
  '(replaced, st) ←
    match r with
    | inl existing_idx =>
        old ← expect (get (entries st) existing_idx);
        let had_sparse_entry := mode_is_sparse (mode old) in
        let new_entry := {| stat := s; id := i; flags := f; mode := m; path := path old |} in
        let st := set_entries st (replace_at (entries st) existing_idx new_entry) (path_backing st) in
        Ok (Some old, if had_sparse_entry && negb (mode_is_sparse m) then refresh_sparse_state st else st)
    | inr insert_idx =>
        let path_start := zlen (path_backing st) in
        let backing := path_backing st ++ p in
        let new_entry := {| stat := s; id := i; flags := f; mode := m; path := (path_start, zlen backing) |} in
        es ← insert_at (entries st) insert_idx new_entry;
        Ok (None, set_entries st es backing)
    end;
  let st := invalidate_entry_cache_extensions st in
  Ok (replaced, if mode_is_sparse m then set_sparse st true else st).

Definition remove_entry_by_path_and_stage (st : State) (p : bytes) (wanted : Z)
    : outcome access_error (option Entry * State) :=
  idx ← entry_index_by_path_and_stage st p wanted;
  match idx with
  | None => Ok (None, st)
  | Some idx =>
      let st := invalidate_tree_at_path st p in
      e ← expect (get (entries st) idx);
      let was_sparse := mode_is_sparse (mode e) in
      '(removed, es) ← remove_at (entries st) idx;
      let st := invalidate_entry_cache_extensions (set_entries st es (path_backing st)) in
      Ok (Some removed, if was_sparse then refresh_sparse_state st else st)
  end.

(** ** The state as a sorted table *)
Definition path_of (st : State) (e : Entry) : bytes :=
  default [] (get_range (path_backing st) (path e).1 (path e).2).
Definition key (st : State) (e : Entry) : bytes * Z := (path_of st e, stage e).
Definition key_cmp (a b : bytes * Z) : comparison := then_with (bytes_cmp a.1 b.1) (a.2 ?= b.2).
Definition range_ok (st : State) (e : Entry) : Prop :=
  is_Some (get_range (path_backing st) (path e).1 (path e).2).
Definition keys_sorted (st : State) : Prop := StronglySorted (λ a b, key_cmp a b = Lt) (key st <$> entries st).

(** What every operation relies on and keeps: paths are in the backing, entries are strictly
    sorted by path and stage, and the index is marked as sparse if it holds a directory. *)
Record state_ok (st : State) : Prop := {
  so_ranges : Forall (range_ok st) (entries st);
  so_sorted : keys_sorted st;
  so_sparse : existsb (λ e, mode_is_sparse (mode e)) (entries st) = true → is_sparse st = true;
}.

(** ** Lemmas: order *)
Lemma cmp_filepaths_eq a b : cmp_filepaths a b = bytes_cmp a b.
Proof.
  unfold cmp_filepaths. replace (Z.to_nat (Z.min (zlen a) (zlen b))) with (length a `min` length b)%nat by (unfold zlen; lia).
  unfold zlen. revert b. induction a as [|x a IH]; intros [|y b]; try done; cbn [length Nat.min take bytes_cmp then_with].
  destruct (x ?= y); try done. rewrite <- IH. by rewrite !Nat2Z.inj_compare.
Qed.
#[export] Instance key_cmp_laws : OrdLaws key_cmp.
Proof. apply (then_laws (λ a b : bytes * Z, bytes_cmp a.1 b.1)); apply _. Qed.
Lemma key_cmp_eq a b : key_cmp a b = Eq ↔ a = b.
Proof.
  unfold key_cmp, then_with. destruct a as [p x], b as [q y]; simpl.
  destruct (bytes_cmp p q) eqn:E.
  - apply bytes_cmp_eq in E as ->. rewrite Z.compare_eq_iff. split; congruence.
  - split; [done|]. intros [= -> ->]. by rewrite bytes_cmp_refl in E.
  - split; [done|]. intros [= -> ->]. by rewrite bytes_cmp_refl in E.
Qed.
Lemma entry_path_ok st e : range_ok st e → entry_path st e = Ok (path_of st e).
Proof. intros [p Hp]. unfold entry_path, path_in, path_of. by rewrite Hp. Qed.

Section Ok.
Context (st : State) (Hst : state_ok st).

Lemma range_in e : e ∈ entries st → range_ok st e.
Proof using Hst. intros He. pose proof (so_ranges st Hst) as H. rewrite list.Forall_forall in H. by apply H. Qed.
Lemma path_in_state e : e ∈ entries st → entry_path st e = Ok (path_of st e).
Proof using Hst. intros He. by apply entry_path_ok, range_in. Qed.
Lemma get_elem i e : get (entries st) i = Some e → e ∈ entries st.
Proof using. intros [_ H]%get_Some. by eapply list_elem_of_lookup_2. Qed.

Lemma keys_cut k : cuts (entries st) (λ e, key_cmp (key st e) k).
Proof using Hst. apply (sorted_cuts key_cmp). apply sorted_lt_le, (so_sorted st Hst). Qed.
Lemma paths_cut p : cuts (entries st) (λ e, bytes_cmp (path_of st e) p).
Proof using Hst.
  apply (sorted_cuts bytes_cmp). pose proof (sorted_lt_le _ _ (so_sorted st Hst)) as Hs.
  replace (path_of st <$> entries st) with (fst <$> (key st <$> entries st)) by by rewrite <- list_fmap_compose.
  induction Hs as [|x l Hs IH Hx]; cbn; constructor; [done|]. apply Forall_fmap. eapply Forall_impl; [|exact Hx].
  intros y Hy Hg. apply Hy. unfold key_cmp. by rewrite Hg.
Qed.
Lemma keys_lt i j a b :
  get (entries st) i = Some a → get (entries st) j = Some b → i < j → key_cmp (key st a) (key st b) = Lt.
Proof using Hst.
  intros [? Ha]%get_Some [? Hb]%get_Some Hij.
  eapply (sorted_lookup_lt _ _ (Z.to_nat i) (Z.to_nat j) _ _ (so_sorted st Hst)); [..|lia];
    by rewrite list_lookup_fmap, ?Ha, ?Hb.
Qed.
Lemma key_inj a b : a ∈ entries st → b ∈ entries st → key st a = key st b → a = b.
Proof using Hst.
  intros [i Ha]%list_elem_of_lookup [j Hb]%list_elem_of_lookup Hk.
  destruct (Nat.lt_trichotomy i j) as [H|[->|H]]; [|congruence|].
  - pose proof (keys_lt (Z.of_nat i) (Z.of_nat j) a b ltac:(by rewrite get_nat) ltac:(by rewrite get_nat) ltac:(lia)) as Hc.
    rewrite Hk in Hc. by rewrite (proj2 (key_cmp_eq _ _) eq_refl) in Hc.
  - pose proof (keys_lt (Z.of_nat j) (Z.of_nat i) b a ltac:(by rewrite get_nat) ltac:(by rewrite get_nat) ltac:(lia)) as Hc.
    rewrite Hk in Hc. by rewrite (proj2 (key_cmp_eq _ _) eq_refl) in Hc.
Qed.
(** Entries between two entries with one path have this path. *)
Lemma path_between i j m a b e :
  get (entries st) i = Some a → get (entries st) j = Some b → get (entries st) m = Some e →
  i ≤ m ≤ j → path_of st a = path_of st b → path_of st e = path_of st b.
Proof using Hst.
  intros Ha Hb He Hm Hp. pose proof (paths_cut (path_of st b)) as Hc.
  destruct (decide (m = j)) as [->|]; [congruence|]. destruct (decide (m = i)) as [->|]; [congruence|].
  apply get_Some in Ha as [? Ha], Hb as [? Hb], He as [? He].
  destruct (Hc (Z.to_nat m) (Z.to_nat j) e b ltac:(lia) He Hb) as [Hg _].
  destruct (Hc (Z.to_nat i) (Z.to_nat m) a e ltac:(lia) Ha He) as [_ Hl].
  rewrite bytes_cmp_refl in Hg. rewrite Hp, bytes_cmp_refl in Hl. apply bytes_cmp_eq.
  destruct (bytes_cmp (path_of st e) (path_of st b)); [done|by specialize (Hl eq_refl)|by specialize (Hg eq_refl)].
Qed.
End Ok.

(** ** Lemmas: walking over the entries with one path *)
Lemma enumerate_lookup {A} s (l : list A) t : enumerate_from s l !! t = (λ x, (s + Z.of_nat t, x)) <$> l !! t.
Proof.
  unfold enumerate_from. destruct (l !! t) as [x|] eqn:E; cbn.
  - apply lookup_zip_with_Some. exists (s + Z.of_nat t), x. split; [done|]. split; [|done].
    apply lookup_seqZ. apply lookup_lt_Some in E. unfold zlen. lia.
  - apply lookup_zip_with_None. by right.
Qed.
(** The entries above and below a position, from it on. *)
Lemma above_lookup {A} (l : list A) i t p :
  0 ≤ i ≤ zlen l → enumerate_from i (drop (Z.to_nat i) l) !! t = Some p ↔
  p.1 = i + Z.of_nat t ∧ get l (i + Z.of_nat t) = Some p.2.
Proof.
  intros Hi. rewrite enumerate_lookup, lookup_drop. unfold get. destruct (Z.leb_spec 0 (i + Z.of_nat t)); [|lia].
  replace (Z.to_nat (i + Z.of_nat t)) with (Z.to_nat i + t)%nat by lia. destruct p as [j x], (l !! _); cbn; naive_solver.
Qed.
Lemma below_lookup {A} (l : list A) i t p :
  0 ≤ i ≤ zlen l → reverse (enumerate_from 0 (take (Z.to_nat i) l)) !! t = Some p ↔
  p.1 = i - 1 - Z.of_nat t ∧ Z.of_nat t < i ∧ get l (i - 1 - Z.of_nat t) = Some p.2.
Proof.
  intros Hi. assert (length (enumerate_from 0 (take (Z.to_nat i) l)) = Z.to_nat i) as Hlen.
  { unfold enumerate_from. rewrite length_zip_with, length_seqZ. unfold zlen in *. rewrite length_take. lia. }
  destruct (decide (t < Z.to_nat i)%nat) as [Ht|Ht].
  2:{ rewrite lookup_ge_None_2 by (rewrite length_reverse; lia). split; [done|lia]. }
  rewrite reverse_lookup by lia. rewrite Hlen, enumerate_lookup, lookup_take_lt by lia.
  unfold get. destruct (Z.leb_spec 0 (i - 1 - Z.of_nat t)); [|lia].
  replace (Z.to_nat (i - 1 - Z.of_nat t)) with (Z.to_nat i - S t)%nat by lia.
  destruct p as [j x], (l !! _) as [y|] eqn:E; cbn; [|naive_solver].
  split; [intros [= <- <-]|intros (-> & _ & [= ->])]; [split; [lia|split; [lia|done]]|f_equal; f_equal; lia].
Qed.

Lemma find_stage_spec st l p w :
  Forall (λ x, range_ok st x.2) l →
  ∃ r, find_stage st l p w = Ok r ∧
    match r with
    | Some idx => ∃ e, (idx, e) ∈ l ∧ key st e = (p, w)
    | None => ∀ t x, l !! t = Some x → key st x.2 = (p, w) →
        ∃ u y, (u < t)%nat ∧ l !! u = Some y ∧ path_of st y.2 ≠ p
    end.
Proof.
  induction 1 as [|[idx e] l He _ IH]; cbn [find_stage]; [by exists None|].
  rewrite (entry_path_ok st e He). cbn [mbind outcome_bind]. unfold bytes_eqb.
  destruct (decide (path_of st e = p)) as [Hp|Hp].
  - rewrite bool_decide_true by done. destruct (Z.eqb_spec (stage e) w) as [Hw|Hw].
    + exists (Some idx). split; [done|]. exists e. split; [by left|]. unfold key. congruence.
    + destruct IH as (r & -> & Hr). exists r. split; [done|]. destruct r as [i|].
      * destruct Hr as (x & Hx & Hk). exists x. split; [by right|done].
      * intros [|t] x Hx Hk; cbn in Hx.
        -- injection Hx as <-. unfold key in Hk. cbn in Hk. congruence.
        -- destruct (Hr t x Hx Hk) as (u & y & Hu & Hy & Hn). exists (S u), y. split; [lia|done].
  - rewrite bool_decide_false by done. exists None. split; [done|]. intros [|t] x Hx Hk.
    + cbn in Hx. injection Hx as <-. unfold key in Hk. cbn in Hk. congruence.
    + exists 0%nat, (idx, e). split; [lia|done].
Qed.
Lemma last_same_spec st l p acc :
  Forall (λ x, range_ok st x.2) l →
  ∃ n, (n ≤ length l)%nat ∧
    last_same st l p acc = Ok (match n with O => acc | S m => fst <$> l !! m end) ∧
    (∀ t x, (t < n)%nat → l !! t = Some x → path_of st x.2 = p) ∧
    (∀ x, l !! n = Some x → path_of st x.2 ≠ p).
Proof.
  intros Hl. revert acc. induction Hl as [|[idx e] l He _ IH]; intros acc; cbn [last_same].
  { exists 0%nat. by repeat split; [cbn..|intros; lia|]. }
  rewrite (entry_path_ok st e He). cbn [mbind outcome_bind]. unfold bytes_eqb.
  destruct (decide (path_of st e = p)) as [Hp|Hp].
  - rewrite bool_decide_true by done. destruct (IH (Some idx)) as (n & Hn & -> & Hin & Hout). exists (S n).
    split; [cbn; lia|]. split; [by destruct n|]. split; [|exact Hout].
    intros [|t] x Ht Hx; [by injection Hx as <-|]. apply (Hin t); [lia|done].
  - rewrite bool_decide_false by done. exists 0%nat. split; [lia|]. split; [done|]. split; [intros; lia|].
    intros x [= <-]. done.
Qed.

Section Walk.
Context (st : State) (Hst : state_ok st).
Lemma above_ok i : Forall (λ x, range_ok st x.2) (enumerate_from i (drop (Z.to_nat i) (entries st))).
Proof using Hst.
  apply Forall_lookup. intros t [j e] Hx. rewrite enumerate_lookup, lookup_drop in Hx.
  destruct (entries st !! _) as [y|] eqn:E; [|done]. injection Hx as <- <-. apply range_in; [done|].
  by eapply list_elem_of_lookup_2.
Qed.
Lemma below_ok i : Forall (λ x, range_ok st x.2) (reverse (enumerate_from 0 (take (Z.to_nat i) (entries st)))).
Proof using Hst.
  apply Forall_reverse, Forall_lookup. intros t [j e] Hx. rewrite enumerate_lookup in Hx.
  destruct (take _ _ !! _) as [y|] eqn:E; [|done]. injection Hx as <- <-. apply lookup_take_Some in E as [E _].
  apply range_in; [done|]. by eapply list_elem_of_lookup_2.
Qed.

(** From an entry with the path, the search finds the wanted stage of it, or there is none. *)
Lemma by_idx_and_stage_spec p i e w :
  get (entries st) i = Some e → path_of st e = p →
  ∃ r, entry_index_by_idx_and_stage st p i w (stage e ?= w) = Ok r ∧
    match r with
    | Some j => ∃ x, get (entries st) j = Some x ∧ key st x = (p, w)
    | None => ∀ x, x ∈ entries st → key st x ≠ (p, w)
    end.
Proof using Hst.
  intros Hi Hp. pose proof Hi as [Hi0 Hil]%get_Some. apply lookup_lt_Some in Hil as Hilt.
  assert (∀ j x, get (entries st) j = Some x → key st x = (p, w) → stage e ≠ w →
    (stage e < w → i < j) ∧ (w < stage e → j < i)) as Hside.
  { intros j x Hj Hk Hne. injection Hk as Hkp Hks. split; intros Hs.
    - destruct (Z.lt_trichotomy i j) as [|[->|Hji]]; [done|congruence|].
      pose proof (keys_lt st Hst j i x e Hj Hi Hji) as Hlt. unfold key_cmp, key in Hlt. cbn [fst snd] in Hlt.
      rewrite Hkp, Hp, bytes_cmp_refl in Hlt. cbn [then_with] in Hlt. apply -> Z.compare_lt_iff in Hlt. lia.
    - destruct (Z.lt_trichotomy i j) as [Hij|[->|]]; [|congruence|done].
      pose proof (keys_lt st Hst i j e x Hi Hj Hij) as Hlt. unfold key_cmp, key in Hlt. cbn [fst snd] in Hlt.
      rewrite Hkp, Hp, bytes_cmp_refl in Hlt. cbn [then_with] in Hlt. apply -> Z.compare_lt_iff in Hlt. lia. }
  unfold entry_index_by_idx_and_stage. destruct (Z.compare_spec (stage e) w) as [He|Hlt|Hgt].
  - exists (Some i). split; [done|]. exists e. split; [done|]. unfold key. congruence.
  - rewrite get_from_in by (unfold zlen; lia).
    destruct (find_stage_spec st _ p w (above_ok (i + 1))) as (r & -> & Hr). exists r. split; [done|]. destruct r as [j|].
    + destruct Hr as (x & [t Hx]%list_elem_of_lookup & Hk). apply above_lookup in Hx as [Hj Hx]; [|unfold zlen; lia].
      cbn in Hj, Hx. subst j. by exists x.
    + intros x [m Hm]%list_elem_of_lookup Hk. rewrite <- get_nat in Hm.
      destruct (Hside _ x Hm Hk) as [Hm1 _]; [lia|]. specialize (Hm1 Hlt).
      destruct (Hr (m - Z.to_nat (i + 1))%nat (Z.of_nat m, x)) as (u & [j y] & Hu & Hy & Hn); [|done|].
      { apply above_lookup; [unfold zlen; lia|]. cbn. replace (i + 1 + Z.of_nat (m - Z.to_nat (i + 1))) with (Z.of_nat m) by lia. done. }
      apply above_lookup in Hy as [_ Hy]; [|unfold zlen; lia]. cbn in Hy, Hn. apply Hn.
      injection Hk as Hkp _. rewrite <- Hkp.
      eapply (path_between st Hst i (Z.of_nat m)); [exact Hi|exact Hm|exact Hy|lia|congruence].
  - rewrite get_range_in by (unfold zlen; lia). cbn [expect mbind outcome_bind]. rewrite Z.sub_0_r, drop_0.
    destruct (find_stage_spec st _ p w (below_ok i)) as (r & -> & Hr). exists r. split; [done|]. destruct r as [j|].
    + destruct Hr as (x & [t Hx]%list_elem_of_lookup & Hk). apply below_lookup in Hx as (Hj & _ & Hx); [|unfold zlen; lia].
      cbn in Hj, Hx. subst j. by exists x.
    + intros x [m Hm]%list_elem_of_lookup Hk. rewrite <- get_nat in Hm.
      destruct (Hside _ x Hm Hk) as [_ Hm1]; [lia|]. specialize (Hm1 Hgt).
      destruct (Hr (Z.to_nat (i - 1) - m)%nat (Z.of_nat m, x)) as (u & [j y] & Hu & Hy & Hn); [|done|].
      { apply below_lookup; [unfold zlen; lia|]. cbn. replace (i - 1 - Z.of_nat (Z.to_nat (i - 1) - m)) with (Z.of_nat m) by lia.
        split; [done|]. split; [lia|done]. }
      apply below_lookup in Hy as (_ & Hui & Hy); [|unfold zlen; lia]. cbn in Hy, Hn. apply Hn.
      rewrite <- Hp. eapply (path_between st Hst (Z.of_nat m) i); [exact Hm|exact Hi|exact Hy|lia|].
      injection Hk as Hkp _. congruence.
Qed.

(** The search for a path alone. *)
Lemma path_search_spec {St} p (h : Entry → St) s :
  ∃ s' r, binary_search_mut (entries st) (compare_path st p h) s = Ok (s', r) ∧
    match r with
    | inl i => ∃ e, get (entries st) i = Some e ∧ path_of st e = p ∧ s' = h e
    | inr i => 0 ≤ i ≤ zlen (entries st) ∧
        ∀ j e, get (entries st) j = Some e → bytes_cmp (path_of st e) p = if j <? i then Lt else Gt
    end.
Proof using Hst.
  destruct (binary_search_mut_spec (entries st) (λ e, bytes_cmp (path_of st e) p) (compare_path st p h) h s)
    as (s' & r & Hr & Hres & Hlast).
  { intros s0 e He. unfold compare_path. by rewrite (path_in_state st Hst e He). }
  exists s', r. split; [done|]. destruct r as [i|i]; cbn [search_result] in Hres.
  - destruct Hres as (e & He & Hp). exists e. split; [done|]. split; [by apply bytes_cmp_eq|]. by apply (Hlast i).
  - destruct Hres as [Hi Hc]. split; [done|]. by apply Hc, paths_cut.
Qed.

Lemma index_by_path_and_stage_spec p w :
  ∃ r, entry_index_by_path_and_stage st p w = Ok r ∧
    match r with
    | Some j => ∃ x, get (entries st) j = Some x ∧ key st x = (p, w)
    | None => ∀ x, x ∈ entries st → key st x ≠ (p, w)
    end.
Proof using Hst.
  unfold entry_index_by_path_and_stage. destruct (path_search_spec p (λ e, stage e ?= w) Eq) as (s & r & -> & Hr).
  cbn [mbind outcome_bind]. destruct r as [i|i].
  - destruct Hr as (e & He & Hp & ->). by apply by_idx_and_stage_spec.
  - exists None. split; [done|]. intros x [j Hj]%list_elem_of_lookup Hk. destruct Hr as [_ Hr].
    specialize (Hr (Z.of_nat j) x ltac:(by rewrite get_nat)). injection Hk as Hkp _.
    rewrite Hkp, bytes_cmp_refl in Hr. by destruct (_ <? _).
Qed.
End Walk.

(** ** The index as a map

    What an index promises: entries by path and stage. *)
Definition entry_data (e : Entry) : Stat * ObjectId * Z * Z := (stat e, id e, flags e, mode e).
Definition index_map (st : State) : gmap (bytes * Z) (Stat * ObjectId * Z * Z) :=
  list_to_map ((λ e, (key st e, entry_data e)) <$> entries st).

Lemma key_ext st st' e : path_backing st' = path_backing st → key st' e = key st e.
Proof. intros H. unfold key, path_of. by rewrite H. Qed.
Lemma state_ok_ext st st' :
  entries st' = entries st → path_backing st' = path_backing st → is_sparse st' = is_sparse st →
  state_ok st → state_ok st'.
Proof.
  intros He Hb Hs [H1 H2 H3]. split; unfold keys_sorted, range_ok in *; rewrite ?He, ?Hs, ?Hb; try done.
  erewrite list_fmap_ext; [exact H2|]. intros i e _. by apply key_ext.
Qed.

Lemma key_index_inj st i j a b :
  state_ok st → entries st !! i = Some a → entries st !! j = Some b → key st a = key st b → i = j.
Proof.
  intros Hst Ha Hb Hk.
  assert (∀ i j a b, entries st !! i = Some a → entries st !! j = Some b → (i < j)%nat → key st a ≠ key st b) as Hne.
  { clear - Hst. intros i j a b Ha Hb Hij Hk.
    pose proof (keys_lt st Hst (Z.of_nat i) (Z.of_nat j) a b ltac:(by rewrite get_nat) ltac:(by rewrite get_nat) ltac:(lia)) as Hc.
    rewrite Hk in Hc. by rewrite (proj2 (key_cmp_eq _ _) eq_refl) in Hc. }
  destruct (Nat.lt_trichotomy i j) as [H|[->|H]]; [|done|].
  - by destruct (Hne i j a b).
  - by destruct (Hne j i b a).
Qed.
Lemma keys_nodup st : state_ok st → NoDup (key st <$> entries st).
Proof.
  intros Hst. apply NoDup_alt. intros i j k Hi Hj.
  apply list_lookup_fmap_Some in Hi as (a & -> & Ha), Hj as (b & Hk & Hb). by eapply key_index_inj.
Qed.
Lemma index_map_lookup st k d :
  state_ok st → index_map st !! k = Some d ↔ ∃ e, e ∈ entries st ∧ key st e = k ∧ entry_data e = d.
Proof.
  intros Hst. unfold index_map. rewrite <- elem_of_list_to_map.
  - rewrite list_elem_of_fmap. split; intros (e & H); [exists e|exists e]; naive_solver.
  - rewrite <- list_fmap_compose. by apply keys_nodup.
Qed.
Lemma index_map_None st k : state_ok st → index_map st !! k = None ↔ ∀ e, e ∈ entries st → key st e ≠ k.
Proof.
  intros Hst. split.
  - intros Hn e He Hk. assert (index_map st !! k = Some (entry_data e)) by (apply index_map_lookup; eauto). congruence.
  - intros Hno. destruct (index_map st !! k) as [d|] eqn:E; [|done].
    apply index_map_lookup in E as (e & He & Hk & _); [|done]. by destruct (Hno e He).
Qed.
Lemma index_map_eq st m :
  state_ok st → (∀ k d, m !! k = Some d ↔ ∃ e, e ∈ entries st ∧ key st e = k ∧ entry_data e = d) → index_map st = m.
Proof. intros Hst Hm. apply map_eq. intros k. apply option_eq. intros d. by rewrite Hm, index_map_lookup. Qed.

Lemma sorted_insert {A} (R : A → A → Prop) a k b :
  StronglySorted R (a ++ b) → Forall (λ x, R x k) a → Forall (R k) b → StronglySorted R (a ++ k :: b).
Proof.
  induction a as [|x a IH]; cbn; intros Hs Ha Hb; [by constructor|].
  apply StronglySorted_inv in Hs as [Hs Hx]. apply list.Forall_cons in Ha as [Hxk Ha]. constructor; [by apply IH|].
  apply Forall_app in Hx as [Hxa Hxb]. apply Forall_app. split; [done|]. by constructor.
Qed.
Lemma sorted_delete {A} (R : A → A → Prop) a x b : StronglySorted R (a ++ x :: b) → StronglySorted R (a ++ b).
Proof.
  induction a as [|y a IH]; cbn; intros Hs; apply StronglySorted_inv in Hs as [Hs Hy]; [done|].
  constructor; [by apply IH|]. rewrite Forall_app, list.Forall_cons in Hy. apply Forall_app. naive_solver.
Qed.

(** *** Removing an entry *)
Lemma remove_at_ok st i e sparse :
  state_ok st → get (entries st) i = Some e →
  let es := take (Z.to_nat i) (entries st) ++ drop (S (Z.to_nat i)) (entries st) in
  ∀ st', entries st' = es → path_backing st' = path_backing st →
    is_sparse st' = (if mode_is_sparse (mode e) then existsb (λ e, mode_is_sparse (mode e)) es else sparse) →
    (is_sparse st = true → sparse = true) →
    state_ok st' ∧ index_map st' = delete (key st e) (index_map st).
Proof.
  intros Hst Hi es st' He Hb Hs Hsp. apply get_Some in Hi as [_ Hi].
  pose proof (take_drop_middle _ _ _ Hi) as Hmid.
  assert (∀ x, x ∈ es ↔ x ∈ entries st ∧ key st x ≠ key st e) as Hin.
  { intros x. unfold es. split.
    - intros Hx. split; [rewrite <- Hmid; apply elem_of_app in Hx; apply elem_of_app; rewrite list.elem_of_cons; tauto|].
      intros Hk. apply elem_of_app in Hx as [[j Hj]%list_elem_of_lookup|[j Hj]%list_elem_of_lookup].
      + apply lookup_take_Some in Hj as [Hj Hlt]. pose proof (key_index_inj st _ _ _ _ Hst Hj Hi Hk). lia.
      + rewrite lookup_drop in Hj. pose proof (key_index_inj st _ _ _ _ Hst Hj Hi Hk). lia.
    - intros [Hx Hk]. rewrite <- Hmid, elem_of_app, list.elem_of_cons in Hx. rewrite elem_of_app.
      destruct Hx as [|[->|]]; [tauto|done|tauto]. }
  assert (state_ok st') as Hok.
  { split.
    - rewrite He. apply list.Forall_forall. intros x [Hx _]%Hin. unfold range_ok. rewrite Hb. by apply range_in.
    - unfold keys_sorted. rewrite He, (list_fmap_ext (key st') (key st)) by (intros ? x _; by apply key_ext).
      pose proof (so_sorted st Hst) as Hss. unfold keys_sorted in Hss. rewrite <- Hmid, fmap_app, fmap_cons in Hss.
      unfold es. rewrite fmap_app. by eapply sorted_delete.
    - rewrite He, Hs. destruct (mode_is_sparse (mode e)); [done|]. intros Hex. apply Hsp, (so_sparse st Hst).
      apply existsb_exists in Hex as (x & Hx & Hm). apply existsb_exists. exists x. split; [|done].
      apply list_elem_of_In. apply list_elem_of_In in Hx. by apply Hin. }
  split; [done|]. apply index_map_eq; [done|]. intros k d. rewrite lookup_delete_Some, index_map_lookup, He by done.
  split.
  - intros (Hk & x & Hx & Hkx & Hd). exists x. rewrite Hin, (key_ext st st') by done. split; [split; [done|congruence]|done].
  - intros (x & Hx & Hkx & Hd). rewrite (key_ext st st') in Hkx by done. apply Hin in Hx as [Hx Hne]. split; [congruence|]. eauto.
Qed.

Lemma remove_by_path_and_stage_spec st p w :
  state_ok st →
  ∃ old st', remove_entry_by_path_and_stage st p w = Ok (old, st') ∧ state_ok st' ∧
    index_map st' = delete (p, w) (index_map st) ∧ entry_data <$> old = index_map st !! (p, w).
Proof.
  intros Hst. unfold remove_entry_by_path_and_stage.
  destruct (index_by_path_and_stage_spec st Hst p w) as (r & -> & Hr). cbn [mbind outcome_bind]. destruct r as [i|].
  - destruct Hr as (e & Hi & Hk). cbn [entries invalidate_tree_at_path set_tree path_backing]. unfold remove_at.
    rewrite Hi. cbn [expect mbind outcome_bind].
    eexists (Some e), _. split; [done|].
    destruct (remove_at_ok st i e (is_sparse st) Hst Hi
      (let st0 := invalidate_entry_cache_extensions (set_entries (invalidate_tree_at_path st p)
         (take (Z.to_nat i) (entries st) ++ drop (S (Z.to_nat i)) (entries st)) (path_backing st)) in
       if mode_is_sparse (mode e) then refresh_sparse_state st0 else st0)) as [Hok Hm];
      [by destruct (mode_is_sparse (mode e))..|done|]. rewrite Hk in Hm.
    split; [exact Hok|]. split; [exact Hm|]. symmetry. apply index_map_lookup; [done|]. exists e.
    split; [by eapply get_elem|done].
  - exists None, st. split; [done|]. split; [done|]. apply index_map_None in Hr; [|done]. rewrite Hr.
    split; [|done]. by rewrite delete_id.
Qed.
Lemma remove_at_index_spec st i e :
  state_ok st → get (entries st) i = Some e →
  ∃ st', remove_entry_at_index st i = Ok (e, st') ∧ state_ok st' ∧ index_map st' = delete (key st e) (index_map st).
Proof.
  intros Hst Hi. unfold remove_entry_at_index. rewrite Hi. cbn [expect mbind outcome_bind].
  rewrite (path_in_state st Hst e) by (by eapply get_elem). cbn [mbind outcome_bind].
  cbn [entries invalidate_tree_at_path set_tree path_backing]. unfold remove_at. rewrite Hi. cbn [expect mbind outcome_bind].
  eexists. split; [done|].
  by apply (remove_at_ok st i e (is_sparse st) Hst Hi
      (let st0 := invalidate_entry_cache_extensions (set_entries (invalidate_tree_at_path st (path_of st e))
         (take (Z.to_nat i) (entries st) ++ drop (S (Z.to_nat i)) (entries st)) (path_backing st)) in
       if mode_is_sparse (mode e) then refresh_sparse_state st0 else st0)); destruct (mode_is_sparse (mode e)).
Qed.

(** *** Adding an entry *)
Lemma key_grows st st' p e :
  range_ok st e → path_backing st' = path_backing st ++ p → range_ok st' e ∧ key st' e = key st e.
Proof.
  intros [q Hq] Hb. pose proof (path_in_app (E := ()) e (path_backing st) p q) as Hpa. unfold path_in in Hpa. rewrite Hq in Hpa.
  unfold range_ok, key, path_of. rewrite Hb, Hq. destruct (get_range (path_backing st ++ p) _ _); cbn in Hpa |- *.
  - injection (Hpa eq_refl) as ->. split; [by eexists|done].
  - by specialize (Hpa eq_refl).
Qed.
Section Add.
Context (st : State) (Hst : state_ok st) (s : Stat) (i : ObjectId) (f m : Z) (p : bytes).

Lemma replace_ok n old st' :
  get (entries st) n = Some old → key st old = (p, stage_raw f) →
  let new := {| stat := s; id := i; flags := f; mode := m; path := path old |} in
  entries st' = replace_at (entries st) n new → path_backing st' = path_backing st →
  (existsb (λ e, mode_is_sparse (mode e)) (entries st') = true → is_sparse st' = true) →
  state_ok st' ∧ index_map st' = <[(p, stage_raw f) := (s, i, f, m)]> (index_map st).
Proof using Hst.
  intros Hn Hk new He Hb Hsp. pose proof Hn as [Hn0 Hl]%get_Some. unfold replace_at in He. apply lookup_lt_Some in Hl as Hlt.
  assert (key st new = (p, stage_raw f)) as Hnew.
  { injection Hk as Hp _. by rewrite <- Hp. }
  assert (∀ x, x ∈ entries st' ↔ x = new ∨ x ∈ entries st ∧ key st x ≠ (p, stage_raw f)) as Hin.
  { intros x. rewrite He. split.
    - intros [j Hj]%list_elem_of_lookup. destruct (decide (j = Z.to_nat n)) as [->|Hne].
      + rewrite list_lookup_insert_eq in Hj by done. left. congruence.
      + rewrite list_lookup_insert_ne in Hj by done. right. split; [by eapply list_elem_of_lookup_2|].
        intros Hkx. apply Hne. eapply key_index_inj; [done|exact Hj|exact Hl|congruence].
    - intros [->|[[j Hj]%list_elem_of_lookup Hkx]].
      + eapply (list_elem_of_lookup_2 _ (Z.to_nat n)). by rewrite list_lookup_insert_eq.
      + apply (list_elem_of_lookup_2 _ j). rewrite list_lookup_insert_ne; [done|]. intros <-. congruence. }
  assert (state_ok st') as Hok.
  { split; [| |done].
    - apply list.Forall_forall. intros x Hx. unfold range_ok. rewrite Hb. apply Hin in Hx as [->|[Hx _]]; [|by apply range_in].
      cbn [path]. apply (range_in st Hst old). by eapply list_elem_of_lookup_2.
    - unfold keys_sorted. rewrite (list_fmap_ext (key st') (key st)) by (intros ? x _; by apply key_ext).
      rewrite He, list_fmap_insert, Hnew, <- Hk. rewrite list_insert_id by (by rewrite list_lookup_fmap, Hl).
      apply (so_sorted st Hst). }
  split; [done|]. apply index_map_eq; [done|]. intros k d. rewrite lookup_insert_Some, index_map_lookup by done. split.
  - intros [[<- <-]|(Hne & x & Hx & Hkx & Hd)].
    + exists new. rewrite Hin, (key_ext st st') by done. split; [by left|done].
    + exists x. rewrite Hin, (key_ext st st') by done. split; [right; split; [done|congruence]|done].
  - intros (x & Hx & Hkx & Hd). rewrite (key_ext st st') in Hkx by done. apply Hin in Hx as [->|[Hx Hne]].
    + left. split; [congruence|]. by rewrite <- Hd.
    + right. split; [congruence|]. eauto.
Qed.

Lemma insert_ok n st' :
  0 ≤ n ≤ zlen (entries st) →
  (∀ j e, get (entries st) j = Some e → key_cmp (key st e) (p, stage_raw f) = if j <? n then Lt else Gt) →
  let new := {| stat := s; id := i; flags := f; mode := m;
                path := (zlen (path_backing st), zlen (path_backing st ++ p)) |} in
  entries st' = take (Z.to_nat n) (entries st) ++ new :: drop (Z.to_nat n) (entries st) →
  path_backing st' = path_backing st ++ p →
  (existsb (λ e, mode_is_sparse (mode e)) (entries st') = true → is_sparse st' = true) →
  state_ok st' ∧ index_map st' = <[(p, stage_raw f) := (s, i, f, m)]> (index_map st).
Proof using Hst.
  intros Hn Hcut new He Hb Hsp.
  assert (range_ok st' new ∧ key st' new = (p, stage_raw f)) as [Hrnew Hnew].
  { unfold range_ok, key, path_of, stage, new. cbn [path flags fst snd]. rewrite Hb, get_range_end. split; [by eexists|done]. }
  assert (∀ x, x ∈ entries st → range_ok st' x ∧ key st' x = key st x) as Hold.
  { intros x Hx. by apply (key_grows st st' p); [apply range_in|]. }
  assert (∀ x, x ∈ entries st' ↔ x = new ∨ x ∈ entries st) as Hin.
  { intros x. rewrite He, elem_of_app, list.elem_of_cons.
    rewrite <- (take_drop (Z.to_nat n) (entries st)) at 3. rewrite elem_of_app. tauto. }
  assert (∀ x, x ∈ entries st → key st x ≠ (p, stage_raw f)) as Hno.
  { intros x [j Hj]%list_elem_of_lookup Hk. specialize (Hcut (Z.of_nat j) x ltac:(by rewrite get_nat)).
    rewrite Hk, (proj2 (key_cmp_eq _ _) eq_refl) in Hcut. by destruct (_ <? _). }
  assert (state_ok st') as Hok.
  { split; [| |done].
    - apply list.Forall_forall. intros x [->|Hx]%Hin; [done|by apply Hold].
    - unfold keys_sorted. rewrite He, fmap_app, fmap_cons, Hnew.
      assert (∀ l : list Entry, (∀ x, x ∈ l → x ∈ entries st) → key st' <$> l = key st <$> l) as Hkeys.
      { intros l Hl. apply list_fmap_ext. intros ? x Hx. apply Hold, Hl. by eapply list_elem_of_lookup_2. }
      rewrite !Hkeys by (intros x Hx; rewrite <- (take_drop (Z.to_nat n) (entries st)); apply elem_of_app; tauto).
      apply sorted_insert.
      + rewrite <- fmap_app, take_drop. apply (so_sorted st Hst).
      + apply Forall_fmap, Forall_lookup. intros j x Hx. apply lookup_take_Some in Hx as [Hx Hj].
        specialize (Hcut (Z.of_nat j) x ltac:(by rewrite get_nat)). destruct (Z.ltb_spec (Z.of_nat j) n); [done|lia].
      + apply Forall_fmap, Forall_lookup. intros j x Hx. rewrite lookup_drop in Hx.
        specialize (Hcut (Z.of_nat (Z.to_nat n + j)) x ltac:(by rewrite get_nat)).
        destruct (Z.ltb_spec (Z.of_nat (Z.to_nat n + j)) n); [lia|].
        cbn. by rewrite (ord_antisym (cmp := key_cmp) (key st x)), Hcut. }
  split; [done|]. apply index_map_eq; [done|]. intros k d. rewrite lookup_insert_Some, index_map_lookup by done. split.
  - intros [[<- <-]|(Hne & x & Hx & Hkx & Hd)].
    + exists new. rewrite Hin. split; [by left|done].
    + exists x. rewrite Hin. split; [by right|]. split; [|done]. by rewrite (proj2 (Hold x Hx)).
  - intros (x & [->|Hx]%Hin & Hkx & Hd).
    + left. split; [congruence|]. by rewrite <- Hd.
    + rewrite (proj2 (Hold x Hx)) in Hkx. right. split; [intros <-; by apply (Hno x)|]. eauto.
Qed.
End Add.

Lemma add_entry_spec st s i f m p :
  state_ok st →
  ∃ old st', add_entry st s i f m p = Ok (old, st') ∧ state_ok st' ∧
    index_map st' = <[(p, stage_raw f) := (s, i, f, m)]> (index_map st) ∧
    entry_data <$> old = index_map st !! (p, stage_raw f).
Proof.
  intros Hst. unfold add_entry. set (st0 := invalidate_tree_at_path st p).
  assert (state_ok st0) as H0 by by apply (state_ok_ext st).
  destruct (binary_search_with_spec (entries st0) (λ e, key_cmp (key st0 e) (p, stage_raw f))
    (λ e, q ← entry_path st0 e; Ok (then_with (cmp_filepaths q p) (stage e ?= stage_raw f)))) as (r & -> & Hr).
  { intros e He. rewrite (path_in_state st0 H0 e He). cbn [mbind outcome_bind]. by rewrite cmp_filepaths_eq. }
  cbn [mbind outcome_bind]. change (index_map st) with (index_map st0). destruct r as [n|n]; cbn [search_result] in Hr.
  - destruct Hr as (old & Hn & Hk). apply key_cmp_eq in Hk. rewrite Hn. cbn [expect mbind outcome_bind].
    eexists (Some old), _. split; [done|]. apply Logic.and_assoc. split.
    + eapply (replace_ok st0 H0 s i f m p n old); [done|done|by repeat case_match|by repeat case_match|].
      destruct (mode_is_sparse m) eqn:Em; [done|]. destruct (mode_is_sparse (mode old)) eqn:Eo; cbn [andb negb]; [done|].
      intros Hex. apply (so_sparse st0 H0). cbn [entries set_entries invalidate_entry_cache_extensions] in Hex.
      apply existsb_exists in Hex as (x & Hx & Hm). apply existsb_exists. exists x. split; [|done].
      apply list_elem_of_In in Hx. apply list_elem_of_In. unfold replace_at in Hx.
      apply list_elem_of_lookup in Hx as [j Hj]. destruct (decide (j = Z.to_nat n)) as [->|].
      * apply get_Some in Hn as [_ Hn]. apply lookup_lt_Some in Hn. rewrite list_lookup_insert_eq in Hj by done.
        injection Hj as <-. cbn in Hm. congruence.
      * rewrite list_lookup_insert_ne in Hj by done. by eapply list_elem_of_lookup_2.
    + symmetry. apply index_map_lookup; [done|]. exists old. split; [by eapply get_elem|done].
  - destruct Hr as [Hn Hcut]. specialize (Hcut (keys_cut st0 H0 _)). unfold insert_at.
    rewrite split_at_in by done. cbn [expect mbind outcome_bind]. eexists None, _. split; [done|].
    apply Logic.and_assoc. split.
    + eapply (insert_ok st0 H0 s i f m p n); [done|done|by case_match|by case_match|].
      destruct (mode_is_sparse m) eqn:Em; [done|]. intros Hex. apply (so_sparse st0 H0).
      cbn [entries set_entries invalidate_entry_cache_extensions] in Hex.
      rewrite existsb_app in Hex. cbn [existsb mode] in Hex. rewrite Em in Hex. cbn [orb] in Hex.
      rewrite <- existsb_app, take_drop in Hex. done.
    + symmetry. apply index_map_None; [done|]. intros e [j Hj]%list_elem_of_lookup Hk.
      specialize (Hcut (Z.of_nat j) e ltac:(by rewrite get_nat)). cbn beta in Hcut.
      rewrite Hk, (proj2 (key_cmp_eq _ _) eq_refl) in Hcut. by destruct (_ <? _).
Qed.

(** *** Removing entries by a predicate on path and data *)
Definition closure_of (pred : bytes → Stat * ObjectId * Z * Z → bool) (u : ()) (_ : Z) (p : bytes) (e : Entry)
    : () * Entry * bool := (u, e, pred p (entry_data e)).

Section RemoveIf.
Context (pred : bytes → Stat * ObjectId * Z * Z → bool).
Definition retained (st : State) (e : Entry) : bool := negb (pred (path_of st e) (entry_data e)).

Lemma retain_loop_spec st l : ∀ index any sparse,
  Forall (range_ok st) l →
  retain_loop st (closure_of pred) tt l index any sparse =
    Ok (tt, List.filter (retained st) l, any || existsb (λ e, negb (retained st e)) l,
        sparse || existsb (λ e, negb (retained st e) && mode_is_sparse (mode e)) l).
Proof.
  induction l as [|e l IH]; intros index any sparse Hl; cbn [retain_loop List.filter existsb].
  { by rewrite !orb_false_r. }
  apply list.Forall_cons in Hl as [He Hl]. rewrite (entry_path_ok st e He). cbn [mbind outcome_bind closure_of].
  assert (retained st e = negb (pred (path_of st e) (entry_data e))) as -> by done.
  destruct (pred (path_of st e) (entry_data e)); cbn [negb andb orb].
  - rewrite IH by done. by rewrite orb_true_r, orb_assoc.
  - rewrite IH by done. done.
Qed.
Lemma filter_none {A} (f : A → bool) l : existsb (λ x, negb (f x)) l = false → List.filter f l = l.
Proof.
  induction l as [|x l IH]; cbn; [done|]. destruct (f x); cbn; [|done]. intros H. by rewrite IH.
Qed.
Lemma sorted_filter {A B} (R : B → B → Prop) (g : A → B) (f : A → bool) (l : list A) :
  StronglySorted R (g <$> l) → StronglySorted R (g <$> List.filter f l).
Proof.
  induction l as [|x l IH]; cbn; [done|]. intros [Hs Hx]%StronglySorted_inv. destruct (f x); [|by apply IH].
  cbn. constructor; [by apply IH|]. rewrite list.Forall_forall in Hx |- *. intros y (z & -> & Hz)%list_elem_of_fmap.
  apply Hx, list_elem_of_fmap. exists z. split; [done|]. apply list_elem_of_In, filter_In in Hz as [Hz _].
  by apply list_elem_of_In.
Qed.
Lemma filter_keeps_ok st st' :
  state_ok st → entries st' = List.filter (retained st) (entries st) → path_backing st' = path_backing st →
  (existsb (λ e, mode_is_sparse (mode e)) (entries st') = true → is_sparse st' = true) →
  state_ok st' ∧ index_map st' = filter (λ kd, pred kd.1.1 kd.2 = false) (index_map st).
Proof.
  intros Hst He Hb Hsp.
  assert (∀ x, x ∈ entries st' ↔ x ∈ entries st ∧ pred (path_of st x) (entry_data x) = false) as Hin.
  { intros x. rewrite He, !list_elem_of_In, filter_In. unfold retained. by rewrite negb_true_iff. }
  assert (state_ok st') as Hok.
  { split; [| |done].
    - apply list.Forall_forall. intros x [Hx _]%Hin. unfold range_ok. rewrite Hb. by apply range_in.
    - unfold keys_sorted. rewrite He, (list_fmap_ext (key st') (key st)) by (intros ? x _; by apply key_ext).
      apply sorted_filter, (so_sorted st Hst). }
  split; [done|]. apply index_map_eq; [done|]. intros k d. rewrite map_lookup_filter_Some, index_map_lookup by done. split.
  - intros [(x & Hx & <- & <-) Hp]. exists x. rewrite Hin, (key_ext st st') by done. done.
  - intros (x & [Hx Hp]%Hin & Hk & <-). rewrite (key_ext st st') in Hk by done. subst k. split; [by exists x|done].
Qed.
Lemma remove_entries_spec st :
  state_ok st →
  ∃ st', remove_entries st (closure_of pred) tt = Ok (tt, st') ∧ state_ok st' ∧
    index_map st' = filter (λ kd, pred kd.1.1 kd.2 = false) (index_map st).
Proof.
  intros Hst. unfold remove_entries. rewrite retain_loop_spec by apply (so_ranges st Hst). cbn [mbind outcome_bind orb].
  eexists. split; [done|]. destruct (existsb (λ e, negb (retained st e)) (entries st)) eqn:Eany.
  - destruct (existsb (λ e, negb (retained st e) && mode_is_sparse (mode e)) (entries st)).
    + by apply filter_keeps_ok.
    + apply filter_keeps_ok; [done..|]. cbn [entries is_sparse set_tree invalidate_entry_cache_extensions set_entries].
      intros (x & [Hx _]%filter_In & Hm)%existsb_exists. apply (so_sparse st Hst), existsb_exists. eauto.
  - apply filter_keeps_ok; [done..|]. cbn [entries is_sparse set_entries]. rewrite filter_none by done. apply (so_sparse st Hst).
Qed.
End RemoveIf.

(** ** The index implements a map

    Operations in any order, on the index and on the map. *)
Inductive index_op :=
  | OpAdd (s : Stat) (i : ObjectId) (f m : Z) (p : bytes)
  | OpRemove (p : bytes) (stage : Z)
  | OpRemoveIf (pred : bytes → Stat * ObjectId * Z * Z → bool).

Definition run_op (st : State) (op : index_op) : outcome access_error (option Entry * State) :=
  match op with
  | OpAdd s i f m p => add_entry st s i f m p
  | OpRemove p w => remove_entry_by_path_and_stage st p w
  | OpRemoveIf pred => '(_, st) ← remove_entries st (closure_of pred) tt; Ok (None, st)
  end.
Fixpoint run_ops (st : State) (ops : list index_op) : outcome access_error (list (option Entry) * State) :=
  match ops with
  | [] => Ok ([], st)
  | op :: ops =>
      '(out, st) ← run_op st op;
      '(outs, st) ← run_ops st ops;
      Ok (out :: outs, st)
  end.

Definition entry_map := gmap (bytes * Z) (Stat * ObjectId * Z * Z).
Definition spec_op (m : entry_map) (op : index_op) : option (Stat * ObjectId * Z * Z) * entry_map :=
  match op with
  | OpAdd s i f mo p => (m !! (p, stage_raw f), <[(p, stage_raw f) := (s, i, f, mo)]> m)
  | OpRemove p w => (m !! (p, w), delete (p, w) m)
  | OpRemoveIf pred => (None, filter (λ kd, pred kd.1.1 kd.2 = false) m)
  end.
Fixpoint spec_ops (m : entry_map) (ops : list index_op) : list (option (Stat * ObjectId * Z * Z)) * entry_map :=
  match ops with
  | [] => ([], m)
  | op :: ops => let '(out, m) := spec_op m op in let '(outs, m) := spec_ops m ops in (out :: outs, m)
  end.

Lemma run_op_refines st op :
  state_ok st →
  ∃ out st', run_op st op = Ok (out, st') ∧ state_ok st' ∧
    spec_op (index_map st) op = (entry_data <$> out, index_map st').
Proof.
  intros Hst. destruct op as [s i f m p|p w|pred]; cbn [run_op spec_op].
  - destruct (add_entry_spec st s i f m p Hst) as (old & st' & -> & Hok & Hm & Ho). exists old, st'. by rewrite Hm, Ho.
  - destruct (remove_by_path_and_stage_spec st p w Hst) as (old & st' & -> & Hok & Hm & Ho). exists old, st'. by rewrite Hm, Ho.
  - destruct (remove_entries_spec pred st Hst) as (st' & -> & Hok & Hm). exists None, st'. by rewrite Hm.
Qed.
Lemma run_ops_refines st ops :
  state_ok st →
  ∃ outs st', run_ops st ops = Ok (outs, st') ∧ state_ok st' ∧
    spec_ops (index_map st) ops = ((λ o : option Entry, entry_data <$> o) <$> outs, index_map st').
Proof.
  revert st. induction ops as [|op ops IH]; intros st Hst; cbn [run_ops spec_ops]; [by exists [], st|].
  destruct (run_op_refines st op Hst) as (out & st1 & -> & H1 & ->). cbn [mbind outcome_bind].
  destruct (IH st1 H1) as (outs & st2 & -> & H2 & ->). by exists (out :: outs), st2.
Qed.
Lemma entry_by_path_and_stage_spec st p w :
  state_ok st → ∃ r, entry_by_path_and_stage st p w = Ok r ∧ entry_data <$> r = index_map st !! (p, w).
Proof.
  intros Hst. unfold entry_by_path_and_stage.
  destruct (index_by_path_and_stage_spec st Hst p w) as ([i|] & -> & Hr); cbn [mbind outcome_bind].
  - destruct Hr as (e & He & Hk). rewrite He. cbn [expect mbind outcome_bind]. exists (Some e). split; [done|].
    symmetry. apply index_map_lookup; [done|]. exists e. split; [by eapply get_elem|done].
  - exists None. split; [done|]. symmetry. by apply index_map_None.
Qed.

(** C6: starting from an index whose entries are sorted by path and stage, whose paths are in
    the backing and which is marked as sparse if it holds a directory, any sequence of
    additions, removals by path and stage and removals by a predicate succeeds: the entries
    that are replaced or removed are those that a finite map from path and stage gives for the
    same operations, and afterwards the index has the same three properties and a lookup of any
    path and stage returns what the map has. *)
Theorem index_ops_refine_map (st : State) (ops : list index_op) (Hst : state_ok st) :
  ∃ outs st', run_ops st ops = Ok (outs, st') ∧ state_ok st' ∧
    let '(souts, m) := spec_ops (index_map st) ops in
    (λ o : option Entry, entry_data <$> o) <$> outs = souts ∧
    ∀ p w, ∃ r, entry_by_path_and_stage st' p w = Ok r ∧ entry_data <$> r = m !! (p, w).
Proof.
  destruct (run_ops_refines st ops Hst) as (outs & st' & Hr & Hok & ->). exists outs, st'.
  split; [done|]. split; [done|]. split; [done|]. intros p w. by apply entry_by_path_and_stage_spec.
Qed.

(** ** Verification *)
Lemma key_sorted_snoc st (l : list Entry) e :
  StronglySorted (λ a b, key_cmp a b = Lt) (key st <$> l) →
  (∀ x, list.last l = Some x → key_cmp (key st x) (key st e) = Lt) →
  StronglySorted (λ a b, key_cmp a b = Lt) (key st <$> (l ++ [e])).
Proof.
  intros Hs Hl. rewrite fmap_app. cbn. apply (sorted_insert _ _ _ []); [by rewrite app_nil_r| |constructor].
  destruct l as [|x l _] using rev_ind; [constructor|]. rewrite last_snoc in Hl. specialize (Hl x eq_refl).
  rewrite fmap_app in Hs |- *. apply Forall_app. split; [|by repeat constructor]. cbn in Hs.
  apply Forall_lookup. intros j k Hj. apply (ord_trans (cmp := key_cmp) _ (key st x)); [|done].
  apply (sorted_lookup_lt _ _ j (length (key st <$> l)) k (key st x) Hs); [by rewrite lookup_app_l by (by eapply lookup_lt_Some)| |by eapply lookup_lt_Some].
  by rewrite list_lookup_middle.
Qed.
Lemma verify_loop_spec st done_ l :
  Forall (range_ok st) (done_ ++ l) → StronglySorted (λ a b, key_cmp a b = Lt) (key st <$> done_) →
  match verify_loop st l (zlen done_) (list.last done_) with
  | Ok _ => StronglySorted (λ a b, key_cmp a b = Lt) (key st <$> (done_ ++ l))
  | Err (OutOfOrder i) => ∃ a b, get (done_ ++ l) (i - 1) = Some a ∧ get (done_ ++ l) i = Some b ∧
      key_cmp (key st a) (key st b) ≠ Lt ∧
      StronglySorted (λ a b, key_cmp a b = Lt) (key st <$> take (Z.to_nat i) (done_ ++ l))
  | Panic => False
  end.
Proof.
  revert done_. induction l as [|e l IH]; intros done_ Hr Hs; cbn [verify_loop]; [by rewrite app_nil_r|].
  replace (done_ ++ e :: l) with ((done_ ++ [e]) ++ l) in * by by rewrite <- app_assoc.
  specialize (IH (done_ ++ [e]) Hr). rewrite last_snoc, zlen_app in IH. cbn [zlen length] in IH.
  destruct (list.last done_) as [x|] eqn:El; [|apply IH, key_sorted_snoc; [done|congruence]].
  apply Forall_app in Hr as [[Hd [He _]%list.Forall_cons]%Forall_app _].
  assert (x ∈ done_) as Hx by by apply last_Some_elem_of.
  rewrite list.Forall_forall in Hd. rewrite !entry_path_ok by auto. cbn [mbind outcome_bind].
  rewrite cmp_filepaths_eq. change (then_with _ _) with (key_cmp (key st x) (key st e)). unfold ensure.
  destruct (decide (key_cmp (key st x) (key st e) = Lt)) as [Hlt|Hlt].
  - rewrite bool_decide_true by done. cbn [mbind outcome_bind]. apply IH, key_sorted_snoc; [done|].
    intros y Hy. by replace y with x by congruence.
  - rewrite bool_decide_false by done. cbn [mbind outcome_bind]. exists x, e. rewrite <- app_assoc. cbn [app].
    apply last_Some in El as [d' ->]. rewrite zlen_app. cbn [zlen length]. unfold zlen.
    replace (Z.to_nat _) with (length (d' ++ [x])) by (rewrite length_app; cbn; lia). rewrite take_app_length.
    split; [|split; [|done]].
    + cbn [length]. replace (_ - 1) with (Z.of_nat (length d')) by lia. rewrite get_nat, <- app_assoc. by apply list_lookup_middle.
    + rewrite <- Nat2Z.inj_add, <- length_app, get_nat. by apply list_lookup_middle.
Qed.

(** On an index whose paths are in the backing, [verify_entries] returns without a panic. It
    accepts the entries only if they are strictly sorted by path and stage, and they are then
    exactly the entries that lookups and mutation rely on; otherwise it names the first entry
    that is not above the one before it. *)
Theorem verify_entries_exact (st : State) (Hr : Forall (range_ok st) (entries st)) :
  match verify_entries st with
  | Ok _ => keys_sorted st
  | Err (OutOfOrder i) =>
      ∃ a b, get (entries st) (i - 1) = Some a ∧ get (entries st) i = Some b ∧
        key_cmp (key st a) (key st b) ≠ Lt ∧
        StronglySorted (λ a b, key_cmp a b = Lt) (key st <$> take (Z.to_nat i) (entries st))
  | Panic => False
  end.
Proof. apply (verify_loop_spec st []); [done|constructor]. Qed.

(** ** Entries with a prefix *)
Definition starts_with (p : bytes) (q : bytes) : bool :=
  match strip_prefix q p with Some _ => true | None => false end.

Lemma starts_with_true p q : starts_with p q = true ↔ ∃ r, q = p ++ r.
Proof.
  unfold starts_with. destruct (strip_prefix q p) as [r|] eqn:E.
  - apply strip_prefix_Some in E. split; [by eauto|done].
  - rewrite strip_prefix_None in E. split; [done|]. intros [r Hr]. by destruct (E r).
Qed.
(** What is between a prefix and a path with it has the prefix. *)
Lemma between_prefix p q r :
  ord_le bytes_cmp p q → ord_le bytes_cmp q (p ++ r) → ∃ s, q = p ++ s.
Proof.
  unfold ord_le. revert q. induction p as [|x p IH]; intros q Hlo Hhi; [by exists q|].
  destruct q as [|y q]; cbn in Hlo, Hhi; [done|]. rewrite (Z.compare_antisym x y) in Hhi.
  destruct (Z.compare_spec x y) as [->|H|H]; cbn in Hhi; [|done..].
  destruct (IH q Hlo Hhi) as [s ->]. by exists s.
Qed.
Lemma prefix_le p r : ord_le bytes_cmp p (p ++ r).
Proof. unfold ord_le. induction p as [|x p IH]; [by destruct r|]. cbn. by rewrite Z.compare_refl. Qed.

Lemma before_prefix_ok st prefix e :
  range_ok st e → before_prefix st prefix e = Ok (bool_decide (bytes_cmp (path_of st e) prefix = Lt)).
Proof.
  intros He. unfold before_prefix. rewrite (entry_path_ok st e He). cbn [mbind outcome_bind].
  pose proof (zlen_nonneg prefix). pose proof (zlen_nonneg (path_of st e)). rewrite get_range_start by done.
  rewrite <- cmp_filepaths_eq. unfold cmp_filepaths. destruct (Z.leb_spec (zlen prefix) (zlen (path_of st e))).
  - rewrite Z.min_r by done. rewrite (take_ge prefix) by (unfold zlen; lia). f_equal.
    destruct (bytes_cmp _ _); cbn [then_with]; [|done..]. symmetry. apply bool_decide_false. intros Hc. apply -> Z.compare_lt_iff in Hc. lia.
  - rewrite Z.min_l by lia. rewrite (take_ge (path_of st e)) by (unfold zlen; lia).
    assert ((path e).2 - (path e).1 = zlen (path_of st e)) as ->.
    { destruct He as [q Hq]. unfold path_of. rewrite Hq. cbn. by apply get_range_Some in Hq as (_ & _ & -> & _). }
    rewrite get_range_start by done. destruct (Z.leb_spec (zlen (path_of st e)) (zlen prefix)); [|lia].
    cbn [expect mbind outcome_bind]. f_equal. destruct (bytes_cmp _ _); cbn [then_with]; [|done..].
    symmetry. apply bool_decide_true. by apply Z.compare_lt_iff.
Qed.
Lemma at_prefix_ok st prefix e :
  range_ok st e → ord_le bytes_cmp prefix (path_of st e) →
  at_prefix st prefix e = Ok (starts_with prefix (path_of st e)).
Proof.
  intros He Hle. unfold at_prefix. rewrite (entry_path_ok st e He). cbn [mbind outcome_bind]. f_equal.
  rewrite get_range_start by apply zlen_nonneg. destruct (Z.leb_spec (zlen prefix) (zlen (path_of st e))) as [Hlen|Hlen].
  - destruct (bool_decide (take (Z.to_nat (zlen prefix)) (path_of st e) = prefix)) eqn:Et.
    + apply bool_decide_eq_true in Et. rewrite Et, bytes_cmp_refl. symmetry. apply starts_with_true.
      exists (drop (Z.to_nat (zlen prefix)) (path_of st e)). rewrite <- Et at 1. by rewrite take_drop.
    + apply bool_decide_eq_false in Et. assert (starts_with prefix (path_of st e) = false) as ->.
      { apply not_true_iff_false. intros [r Hr]%starts_with_true. apply Et. rewrite Hr. unfold zlen.
        by rewrite Nat2Z.id, take_app_length. }
      unfold ord_le in Hle. rewrite (ord_antisym (path_of st e)), <- cmp_filepaths_eq in Hle. unfold cmp_filepaths in Hle.
      rewrite Z.min_r, (take_ge prefix) in Hle by (unfold zlen in *; lia).
      destruct (bytes_cmp _ _) eqn:Ec; [|done..]. by apply bytes_cmp_eq in Ec.
  - symmetry. apply not_true_iff_false. intros [r Hr]%starts_with_true. rewrite Hr, zlen_app in Hlen. unfold zlen in Hlen. lia.
Qed.

(** A list that a predicate holds on exactly between two positions. *)
Lemma filter_range {A} (f : A → bool) l lo hi :
  0 ≤ lo ≤ hi → hi ≤ zlen l → (∀ j x, get l j = Some x → f x = (lo <=? j) && (j <? hi)) →
  List.filter f l = take (Z.to_nat (hi - lo)) (drop (Z.to_nat lo) l).
Proof.
  intros Hlo Hhi Hf.
  assert (∀ (m : list A) b, (∀ i x, m !! i = Some x → f x = b) → List.filter f m = if b then m else []) as Hall.
  { clear. induction m as [|x m IH]; intros b Hm; [by destruct b|]. cbn. rewrite (Hm 0%nat x eq_refl).
    rewrite (IH b) by (intros i y Hy; by apply (Hm (S i))). by destruct b. }
  rewrite <- (take_drop (Z.to_nat lo) l) at 1. rewrite <- (take_drop (Z.to_nat (hi - lo)) (drop (Z.to_nat lo) l)) at 1.
  rewrite !List.filter_app, (Hall (take (Z.to_nat lo) l) false), (Hall (take _ _) true), (Hall _ false).
  - by rewrite app_nil_r.
  - intros i x Hx. rewrite !lookup_drop, <- get_nat in Hx. rewrite (Hf _ _ Hx). zb; done || lia.
  - intros i x [Hx Hi]%lookup_take_Some. rewrite lookup_drop, <- get_nat in Hx. rewrite (Hf _ _ Hx). zb; done || lia.
  - intros i x [Hx Hi]%lookup_take_Some. rewrite <- get_nat in Hx. rewrite (Hf _ _ Hx). zb; done || lia.
Qed.

Section Prefix.
Context (st : State) (Hst : state_ok st).

(** No entry right below has the path. *)
Lemma walk_lt_none i e :
  get (entries st) i = Some e → (∀ x, get (entries st) (i - 1) = Some x → path_of st x ≠ path_of st e) →
  walk_entry_stages st (path_of st e) i Lt = Ok None.
Proof using Hst.
  intros [Hi _]%get_Some Hx. unfold walk_entry_stages. rewrite get_range_in by lia. cbn [expect mbind outcome_bind].
  rewrite Z.sub_0_r, drop_0. destruct (last_same_spec st _ (path_of st e) None (below_ok st Hst i)) as ([|n] & Hn & -> & Hin & _); [done|].
  exfalso. destruct (lookup_lt_is_Some_2 (reverse (enumerate_from 0 (take (Z.to_nat i) (entries st)))) 0) as [[j x] Hj]; [lia|].
  specialize (Hin 0%nat _ ltac:(lia) Hj). apply below_lookup in Hj as (_ & _ & Hj); [|lia].
  rewrite Z.sub_0_r in Hj. by apply (Hx x).
Qed.

Lemma paths_sorted i j a b :
  get (entries st) i = Some a → get (entries st) j = Some b → i ≤ j → ord_le bytes_cmp (path_of st a) (path_of st b).
Proof using Hst.
  intros Ha Hb Hij Hg. destruct (decide (i = j)) as [->|].
  - replace b with a in Hg by congruence. by rewrite bytes_cmp_refl in Hg.
  - pose proof (keys_lt st Hst i j a b Ha Hb ltac:(lia)) as Hk. unfold key_cmp, key in Hk. cbn in Hk. by rewrite Hg in Hk.
Qed.

Context (prefix : bytes).
Definition has_prefix (e : Entry) : bool := starts_with prefix (path_of st e).
Lemma not_before e : bytes_cmp (path_of st e) prefix ≠ Lt ↔ ord_le bytes_cmp prefix (path_of st e).
Proof using. unfold ord_le. rewrite (ord_antisym (path_of st e) prefix). by destruct (bytes_cmp _ _). Qed.
Lemma has_prefix_le e : has_prefix e = true → ord_le bytes_cmp prefix (path_of st e).
Proof using. intros [r ->]%starts_with_true. apply prefix_le. Qed.

Lemma low_spec :
  ∃ low, partition_point_with (entries st) (before_prefix st prefix) = Ok low ∧ 0 ≤ low ≤ zlen (entries st) ∧
    ∀ j e, get (entries st) j = Some e → bool_decide (bytes_cmp (path_of st e) prefix = Lt) = (j <? low).
Proof using Hst.
  destruct (partition_point_with_spec (entries st) (λ e, bool_decide (bytes_cmp (path_of st e) prefix = Lt)) (before_prefix st prefix))
    as (low & Hl & Hr & Hs); [by intros e He; apply before_prefix_ok, range_in|].
  exists low. split; [done|]. split; [done|]. apply Hs. intros i j x y Hij Hx Hy. rewrite !bool_decide_eq_true. intros Hlt.
  rewrite <- get_nat in Hx, Hy.
  eapply (ord_le_lt bytes_cmp); [eapply paths_sorted; [exact Hx|exact Hy|lia]|done].
Qed.
Lemma high_spec low :
  0 ≤ low ≤ zlen (entries st) →
  (∀ j e, get (entries st) j = Some e → bool_decide (bytes_cmp (path_of st e) prefix = Lt) = (j <? low)) →
  ∃ n, partition_point_with (drop (Z.to_nat low) (entries st)) (at_prefix st prefix) = Ok n ∧
    0 ≤ n ∧ low + n ≤ zlen (entries st) ∧
    ∀ j e, get (entries st) j = Some e → has_prefix e = (low <=? j) && (j <? low + n).
Proof using Hst.
  intros Hl Hlow.
  assert (∀ i e, drop (Z.to_nat low) (entries st) !! i = Some e →
    get (entries st) (low + Z.of_nat i) = Some e ∧ ord_le bytes_cmp prefix (path_of st e)) as Habove.
  { intros i e Hi. rewrite lookup_drop, <- get_nat in Hi. replace (Z.of_nat _) with (low + Z.of_nat i) in Hi by lia.
    split; [done|]. apply not_before. rewrite <- (bool_decide_eq_false _), (Hlow _ _ Hi). zb; done || lia. }
  destruct (partition_point_with_spec (drop (Z.to_nat low) (entries st)) has_prefix (at_prefix st prefix)) as (n & Hn & Hr & Hs).
  { intros e [i Hi]%list_elem_of_lookup. destruct (Habove i e Hi) as [Hg Hle]. apply at_prefix_ok; [|done].
    eapply range_in; [done|]. by eapply get_elem. }
  exists n. split; [done|]. unfold zlen in Hr. rewrite length_drop in Hr. unfold zlen in Hl |- *. split; [lia|]. split; [lia|].
  assert (∀ j x, get (drop (Z.to_nat low) (entries st)) j = Some x → has_prefix x = (j <? n)) as Hs'.
  { apply Hs. intros i j x y Hij Hx Hy [r Hyr]%starts_with_true. apply starts_with_true.
    destruct (Habove i x Hx) as [Hgx Hlx], (Habove j y Hy) as [Hgy _]. apply (between_prefix _ _ r); [done|].
    rewrite <- Hyr. eapply paths_sorted; [exact Hgx|exact Hgy|lia]. }
  intros j e Hj. destruct (Z.leb_spec low j) as [Hlj|Hlj]; cbn [andb].
  - pose proof Hj as [Hj0 Hjl]%get_Some. rewrite (Hs' (j - low) e); [zb; done || lia|].
    replace (j - low) with (Z.of_nat (Z.to_nat j - Z.to_nat low)) by lia. rewrite get_nat, lookup_drop.
    by replace (Z.to_nat low + _)%nat with (Z.to_nat j) by lia.
  - apply not_true_iff_false. intros Hp%has_prefix_le%not_before. apply Hp, (bool_decide_eq_true_1 _). rewrite (Hlow j e Hj). zb; done || lia.
Qed.
End Prefix.

(** C23: in a sorted index, [prefixed_entries] returns without a panic, for any prefix, exactly
    the entries whose path starts with it, at all stages and in their order, and [None] if there
    are none of them (but the empty prefix gives all entries). *)
Theorem prefixed_entries_exact (st : State) (prefix : bytes) (Hst : state_ok st) :
  prefixed_entries st prefix =
    let l := List.filter (has_prefix st prefix) (entries st) in
    Ok (if bool_decide (prefix ≠ [] ∧ l = []) then None else Some l).
Proof.
  unfold prefixed_entries, prefixed_entries_range. cbn zeta. destruct prefix as [|b prefix'].
  { change (zlen [] =? 0) with true. cbn [mbind outcome_bind]. rewrite get_range_in by (unfold zlen; lia).
    rewrite Z.sub_0_r, drop_0, take_ge by (unfold zlen; lia). cbn [expect mbind outcome_bind].
    rewrite bool_decide_false by naive_solver. do 2 f_equal. symmetry. apply forallb_filter_id, forallb_forall.
    intros x _. apply starts_with_true. by exists (path_of st x). }
  set (prefix := b :: prefix'). replace (zlen prefix =? 0) with false by (unfold zlen; cbn [length prefix]; zb; done || lia).
  destruct (low_spec st Hst prefix) as (low & -> & Hl & Hlow). cbn [mbind outcome_bind].
  rewrite get_from_in by done. cbn [expect mbind outcome_bind].
  destruct (high_spec st Hst prefix low Hl Hlow) as (n & -> & Hn & Hhigh & Hp). cbn [mbind outcome_bind].
  rewrite (filter_range (has_prefix st prefix) (entries st) low (low + n)) by (done || lia).
  replace (low + n - low) with n by lia.
  (* the entry before a position on the other side of it has another path *)
  assert (∀ i e, i = low ∨ i = low + n → get (entries st) i = Some e → negb (stage e =? 0) = true →
    (q ← entry_path st e; l ← walk_entry_stages st q i Lt; Ok (default i l)) = Ok i) as Hwalk.
  { intros i e Hi He _. rewrite (path_in_state st Hst e) by (by eapply get_elem). cbn [mbind outcome_bind].
    rewrite walk_lt_none; [done|done|done|]. intros x Hx Heq.
    assert (has_prefix st prefix x = has_prefix st prefix e) as Hpp by (unfold has_prefix; by rewrite Heq).
    rewrite (Hp _ _ Hx), (Hp _ _ He) in Hpp. pose proof (Hlow _ _ Hx) as H1. pose proof (Hlow _ _ He) as H2.
    rewrite Heq in H1. rewrite H1 in H2. destruct Hi as [->| ->]; zb; done || lia. }
  destruct (get (entries st) low) as [e|] eqn:El.
  2:{ assert (low = zlen (entries st)) as ->.
      { destruct (decide (low = zlen (entries st))); [done|]. destruct (get_in (entries st) low) as (y & Hy & _); [lia|congruence]. }
      cbn [mbind outcome_bind]. replace n with 0 by lia. by rewrite bool_decide_true. }
  transitivity (r ← Ok (if low =? low + n then None else Some (low, low + n));
    match r with None => Ok None | Some (lo, hi) => l ← expect (get_range (entries st) lo hi); Ok (Some l) end : outcome access_error _).
  { f_equal. destruct (negb (stage e =? 0)) eqn:Es; [rewrite (Hwalk low e) by auto|]; cbn [mbind outcome_bind].
    all: destruct (get (entries st) (low + n)) as [h|] eqn:Eh; [|done].
    all: destruct (negb (stage h =? 0)) eqn:Et; [rewrite (Hwalk (low + n) h) by auto|]; done. }
  cbn [mbind outcome_bind]. destruct (Z.eqb_spec low (low + n)).
  - replace n with 0 by lia. by rewrite bool_decide_true.
  - rewrite get_range_in by lia. replace (low + n - low) with n by lia. cbn [expect mbind outcome_bind].
    rewrite bool_decide_false; [done|]. intros [_ Hnil]. apply (f_equal length) in Hnil.
    rewrite length_take, length_drop in Hnil. unfold zlen in *. cbn in Hnil. lia.
Qed.

(** ** Directories *)
Definition slash : Z := 47.
Lemma find_app_none {A} (f : A → bool) a b : (∀ x, x ∈ a → f x = false) → List.find f (a ++ b) = List.find f b.
Proof.
  induction a as [|x a IH]; cbn; intros H; [done|]. rewrite (H x) by by left. apply IH. intros y Hy. apply H. by right.
Qed.
Lemma find_none {A} (f : A → bool) l : (∀ x, x ∈ l → f x = false) → List.find f l = None.
Proof. intros H. rewrite <- (app_nil_r l). by rewrite find_app_none. Qed.
Lemma sorted_by_lookup {A B} (R : B → B → Prop) (g : A → B) (l : list A) :
  (∀ j k a b, (j < k)%nat → l !! j = Some a → l !! k = Some b → R (g a) (g b)) → StronglySorted R (g <$> l).
Proof.
  induction l as [|x l IH]; intros H; cbn; constructor.
  - apply IH. intros j k a b Hjk Ha Hb. apply (H (S j) (S k)); [lia|done..].
  - apply Forall_fmap, Forall_lookup. intros k y Hy. apply (H 0%nat (S k)); [lia|done..].
Qed.

(** From sorted entries above the directory, the loop finds the first one inside it. *)
Lemma closest_loop_spec st d l :
  Forall (range_ok st) l → StronglySorted (ord_le bytes_cmp) (path_of st <$> l) →
  (∀ e, e ∈ l → bytes_cmp d (path_of st e) = Lt) →
  closest_loop st l d = Ok (List.find (λ e, starts_with (d ++ [slash]) (path_of st e)) l).
Proof.
  induction l as [|e l IH]; intros Hr Hs Hd; cbn [closest_loop List.find]; [done|].
  apply list.Forall_cons in Hr as [He Hr]. rewrite fmap_cons in Hs. apply StronglySorted_inv in Hs as [Hs He2].
  assert (∀ x, x ∈ l → ord_le bytes_cmp (path_of st e) (path_of st x)) as Hge.
  { intros x Hx. rewrite list.Forall_forall in He2. by apply He2, list_elem_of_fmap_2. }
  specialize (IH Hr Hs ltac:(intros x Hx; apply Hd; by right)). pose proof (Hd e ltac:(by left)) as Hde.
  assert (ord_le bytes_cmp d (path_of st e)) as Hle by (unfold ord_le; by rewrite Hde).
  rewrite (entry_path_ok st e He). cbn [mbind outcome_bind].
  (* if this entry is out of the directory for good, so are the ones behind it *)
  assert (∀ c s, path_of st e = d ++ c :: s → starts_with (d ++ [slash]) (path_of st e) = (c =? slash)) as Hstart.
  { intros c s Hq. destruct (Z.eqb_spec c slash) as [->|Hc].
    - apply starts_with_true. exists s. by rewrite Hq, <- app_assoc.
    - apply not_true_iff_false. intros [r Hr']%starts_with_true. rewrite Hq, <- app_assoc in Hr'.
      apply app_inv_head in Hr'. cbn in Hr'. congruence. }
  assert (starts_with d (path_of st e) = false →
    List.find (λ e, starts_with (d ++ [slash]) (path_of st e)) (e :: l) = None) as Hout.
  { intros Hno. apply find_none. intros x Hx. apply not_true_iff_false. intros [r Hxr]%starts_with_true.
    apply not_true_iff_false in Hno. apply Hno, starts_with_true. rewrite <- app_assoc in Hxr.
    apply list.elem_of_cons in Hx as [->|Hx]; [by exists ([slash] ++ r)|]. apply (between_prefix d _ ([slash] ++ r)); [done|].
    rewrite <- Hxr. by apply Hge. }
  rewrite get_range_start by apply zlen_nonneg. destruct (Z.leb_spec (zlen d) (zlen (path_of st e))) as [Hlen|Hlen].
  2:{ rewrite <- Hout; [done|]. apply not_true_iff_false. intros [r Hr']%starts_with_true.
      rewrite Hr', zlen_app in Hlen. pose proof (zlen_nonneg r). lia. }
  unfold bytes_eqb. destruct (bool_decide (take _ _ = d)) eqn:Et; cbn [negb].
  2:{ rewrite <- Hout; [done|]. apply not_true_iff_false. intros [r Hr']%starts_with_true.
      apply bool_decide_eq_false in Et. apply Et. rewrite Hr'. unfold zlen. by rewrite Nat2Z.id, take_app_length. }
  apply bool_decide_eq_true in Et. unfold zlen in Et. rewrite Nat2Z.id in Et.
  destruct (drop (length d) (path_of st e)) as [|c s] eqn:Ed.
  { assert (path_of st e = d) as Heq by by rewrite <- (take_drop (length d) (path_of st e)), Et, Ed, app_nil_r.
    by rewrite Heq, bytes_cmp_refl in Hde. }
  assert (path_of st e = d ++ c :: s) as Hq by by rewrite <- (take_drop (length d) (path_of st e)), Et, Ed.
  rewrite (Hstart c s Hq), Hq, get_app_mid. unfold slash.
  destruct (Z.ltb_spec 47 c); [|destruct (Z.ltb_spec c 47)].
  - replace (c =? 47) with false by (zb; done || lia). f_equal. symmetry. apply find_none. intros x Hx.
    apply not_true_iff_false. intros [r Hxr]%starts_with_true. specialize (Hge x Hx).
    rewrite Hq, Hxr, <- app_assoc in Hge. apply Hge.
    clear - H. induction d as [|y d IHd]; cbn; [|by rewrite Z.compare_refl].
    unfold slash. by rewrite (proj2 (Z.compare_gt_iff c 47)).
  - replace (c =? 47) with false by (zb; done || lia). exact IH.
  - by replace (c =? 47) with true by (zb; done || lia).
Qed.

(** In a sorted index, the lookup of a directory returns without a panic: an entry with this
    very path if there is one and it is a sparse directory or a submodule, nothing if it is
    another kind of entry, and if there is no entry with the path, the first entry whose path
    is below the directory, if any. *)
Theorem directory_lookup_exact (st : State) (directory : bytes) (Hst : state_ok st) :
  ∃ r, entry_closest_to_directory_or_directory st directory = Ok r ∧
    ((∃ e, e ∈ entries st ∧ path_of st e = directory ∧ r = if entry_is_dir e then Some e else None) ∨
     (∀ e, e ∈ entries st → path_of st e ≠ directory) ∧
     r = List.find (λ e, starts_with (directory ++ [slash]) (path_of st e)) (entries st)).
Proof.
  unfold entry_closest_to_directory_or_directory, entry_index_by_path.
  destruct (binary_search_with_spec (entries st) (λ e, bytes_cmp (path_of st e) directory)
    (λ e, q ← entry_path st e; Ok (bytes_cmp q directory))) as (r & -> & Hr).
  { intros e He. by rewrite (path_in_state st Hst e He). }
  cbn [mbind outcome_bind]. destruct r as [i|i]; cbn [search_result] in Hr.
  { destruct Hr as (e & He & Hp). rewrite He. cbn [expect mbind outcome_bind]. eexists. split; [done|]. left.
    exists e. split; [by eapply get_elem|]. split; [by apply bytes_cmp_eq|done]. }
  destruct Hr as [Hi Hcut]. specialize (Hcut (paths_cut st Hst directory)). rewrite get_from_in by done.
  cbn [expect mbind outcome_bind].
  assert (∀ j e, get (entries st) j = Some e → bytes_cmp (path_of st e) directory = Lt → starts_with (directory ++ [slash]) (path_of st e) = false) as Hlow.
  { intros j e _ Hlt. apply not_true_iff_false. intros [r Hr]%starts_with_true. rewrite <- app_assoc in Hr.
    pose proof (prefix_le directory ([slash] ++ r)) as Hle. rewrite <- Hr in Hle. unfold ord_le in Hle.
    rewrite (ord_antisym (path_of st e)), Hlt in Hle. done. }
  rewrite closest_loop_spec.
  - eexists. split; [done|]. right. split.
    + intros e [j Hj]%list_elem_of_lookup Hp. rewrite <- get_nat in Hj. specialize (Hcut _ _ Hj). cbn beta in Hcut.
      rewrite Hp, bytes_cmp_refl in Hcut. by destruct (_ <? _).
    + rewrite <- (take_drop (Z.to_nat i) (entries st)) at 2. symmetry. apply find_app_none.
      intros e [j Hj]%list_elem_of_lookup. apply lookup_take_Some in Hj as [Hj Hlt]. rewrite <- get_nat in Hj.
      apply (Hlow _ e Hj). rewrite (Hcut _ _ Hj). zb; done || lia.
  - apply Forall_drop, (so_ranges st Hst).
  - apply sorted_by_lookup.
    intros j k a b Hjk Ha Hb. rewrite lookup_drop, <- get_nat in Ha, Hb. eapply paths_sorted; [done|exact Ha|exact Hb|lia].
  - intros e [j Hj]%list_elem_of_lookup. rewrite lookup_drop, <- get_nat in Hj. rewrite (ord_antisym (path_of st e)).
    specialize (Hcut _ _ Hj). cbn beta in Hcut. rewrite Hcut. zb; done || lia.
Qed.

(** ** Entries that were pushed are sorted in *)
Definition pushed_ok (st : State) : Prop :=
  Forall (range_ok st) (entries st) ∧
  (existsb (λ e, mode_is_sparse (mode e)) (entries st) = true → is_sparse st = true).
Definition push_all (st : State) (l : list (Stat * ObjectId * Z * Z * bytes)) : State :=
  foldl (λ st '(s, i, f, m, p), dangerously_push_entry st s i f m p) st l.

Lemma push_entry_ok st s i f m p :
  pushed_ok st →
  let st' := dangerously_push_entry st s i f m p in
  pushed_ok st' ∧
  (λ e, (key st' e, entry_data e)) <$> entries st' =
    ((λ e, (key st e, entry_data e)) <$> entries st) ++ [((p, stage_raw f), (s, i, f, m))].
Proof.
  intros [Hr Hs] st'. rewrite list.Forall_forall in Hr.
  set (new := {| stat := s; id := i; flags := f; mode := m; path := (zlen (path_backing st), zlen (path_backing st ++ p)) |}).
  assert (entries st' = entries st ++ [new]) as He by (unfold st', dangerously_push_entry; by destruct (mode_is_sparse m)).
  assert (path_backing st' = path_backing st ++ p) as Hb by (unfold st', dangerously_push_entry; by destruct (mode_is_sparse m)).
  assert (range_ok st' new ∧ key st' new = (p, stage_raw f)) as [Hrn Hkn].
  { unfold range_ok, key, path_of, stage, new. cbn [path flags fst snd]. rewrite Hb, get_range_end. split; [by eexists|done]. }
  split; [split|].
  - rewrite He. apply Forall_app. split; [|by repeat constructor]. apply list.Forall_forall. intros x Hx.
    by apply (key_grows st st' p); [apply Hr|].
  - rewrite He, existsb_app. cbn [existsb new mode]. unfold st', dangerously_push_entry.
    destruct (mode_is_sparse m); cbn [is_sparse set_sparse invalidate_entry_cache_extensions set_entries]; [done|].
    by rewrite !orb_false_r.
  - rewrite He, fmap_app. cbn. rewrite Hkn. f_equal. apply list_fmap_ext. intros j x Hx.
    destruct (key_grows st st' p x) as [_ ->]; [|done..]. apply Hr. by eapply list_elem_of_lookup_2.
Qed.
Lemma push_all_ok l : ∀ st, pushed_ok st →
  pushed_ok (push_all st l) ∧
  (λ e, (key (push_all st l) e, entry_data e)) <$> entries (push_all st l) =
    ((λ e, (key st e, entry_data e)) <$> entries st) ++
    ((λ '(s, i, f, m, p), ((p, stage_raw f), (s, i, f, m))) <$> l).
Proof.
  induction l as [|[[[[s i] f] m] p] l IH]; intros st Hst; cbn [push_all foldl]; [by rewrite app_nil_r|].
  destruct (push_entry_ok st s i f m p Hst) as [H1 H2]. destruct (IH _ H1) as [H3 H4]. split; [exact H3|].
  etransitivity; [exact H4|]. rewrite H2, <- app_assoc. done.
Qed.

Lemma sort_by_ext {A} (c d : A → A → comparison) l : (∀ a b, c a b = d a b) → sort_by c l = sort_by d l.
Proof.
  intros H. unfold sort_by. induction l as [|x l IH]; cbn; [done|]. rewrite IH. generalize (foldr (insert_by d) [] l).
  induction l0 as [|y m IHm]; cbn; [done|]. by rewrite H, IHm.
Qed.
Lemma sort_entries_ok st :
  pushed_ok st →
  ∃ st', sort_entries st = Ok st' ∧ pushed_ok st' ∧ path_backing st' = path_backing st ∧
    entries st' ≡ₚ entries st ∧ StronglySorted (ord_le key_cmp) (key st' <$> entries st').
Proof.
  intros [Hr Hs]. unfold sort_entries. assert (∃ ps, mapM (entry_path st) (entries st) = Ok ps) as [ps Hps].
  { apply mapM_total. intros x Hx. rewrite list.Forall_forall in Hr. eexists. by apply entry_path_ok, Hr. }
  set (sorted := sort_by _ _). assert (sorted ≡ₚ entries st) as Hp by apply sort_by_permutation.
  exists (invalidate_entry_cache_extensions (set_entries st sorted (path_backing st))).
  split; [destruct (1 <? _); [by rewrite Hps|done]|]. split; [split|split; [done|split; [done|]]].
  - cbn [entries invalidate_entry_cache_extensions set_entries]. apply list.Forall_forall. intros x Hx. rewrite Hp in Hx.
    rewrite list.Forall_forall in Hr. by apply Hr.
  - cbn [entries is_sparse invalidate_entry_cache_extensions set_entries]. intros (x & Hx & Hm)%existsb_exists.
    apply Hs, existsb_exists. exists x. split; [|done]. apply list_elem_of_In. rewrite <- Hp. by apply list_elem_of_In.
  - cbn [entries invalidate_entry_cache_extensions set_entries].
    pose proof (sort_by_sorted (λ a b, key_cmp (key st a) (key st b)) (entries st)) as Hss.
    replace (sort_by _ _) with sorted in Hss by (apply sort_by_ext; intros a b; by rewrite cmp_filepaths_eq).
    apply sorted_by_lookup. intros j k a b Hjk Ha Hb. rewrite !(key_ext st) by done.
    by apply (sorted_lookup_lt _ _ j k a b Hss).
Qed.

(** From a sorted index, pushing any entries and then sorting succeeds: the entries are those
    of before and those that were pushed, with their data, paths and stages, in order of path and
    stage, and if no path is there twice at one stage, lookups and mutation work as before. *)
Theorem push_and_sort_restores (st : State) (l : list (Stat * ObjectId * Z * Z * bytes)) (Hst : state_ok st) :
  ∃ st', sort_entries (push_all st l) = Ok st' ∧
    StronglySorted (ord_le key_cmp) (key st' <$> entries st') ∧
    (λ e, (key st' e, entry_data e)) <$> entries st' ≡ₚ
      ((λ e, (key st e, entry_data e)) <$> entries st) ++
      ((λ '(s, i, f, m, p), ((p, stage_raw f), (s, i, f, m))) <$> l) ∧
    (NoDup (key st' <$> entries st') → state_ok st').
Proof.
  destruct (push_all_ok l st) as [H1 H2]; [by split; apply Hst|].
  destruct (sort_entries_ok _ H1) as (st' & Hrun & [Hr Hs] & Hb & Hp & Hsort). exists st'.
  split; [done|]. split; [done|]. split.
  - rewrite <- H2. rewrite Hp. erewrite list_fmap_ext; [done|]. intros i x _. by rewrite (key_ext (push_all st l)).
  - intros Hnd. split; [done| |done]. unfold keys_sorted. clear -Hsort Hnd.
    induction Hsort as [|k ks Hks IH Hk]; [constructor|]. apply list.NoDup_cons in Hnd as [Hn Hnd].
    constructor; [by apply IH|]. rewrite list.Forall_forall in Hk |- *. intros x Hx. specialize (Hk x Hx).
    unfold ord_le in Hk. destruct (key_cmp k x) eqn:Ec; [|done..]. apply key_cmp_eq in Ec as ->. done.
Qed.

(** ** Examples *)
Lemma sample_state_ok : state_ok (sample_state V2).
Proof.
  split.
  - apply (bool_decide_unpack _). vm_compute. exact I.
  - unfold keys_sorted. vm_compute. repeat constructor.
  - vm_compute. done.
Qed.
(** The directory of both entries of the sample. *)
Definition sample_dir : bytes := [97].
Definition sample_ops : list index_op :=
  [OpAdd sample_stat (OidSha1 (replicate 20 9)) 0 MODE_FILE [98]; OpRemove [97; 47; 98] 0;
   OpAdd sample_stat (OidSha1 (replicate 20 8)) 0x1000 MODE_FILE [98]; OpRemoveIf (λ p _, bool_decide (p = [97; 47; 99; 100]))].

Lemma index_ops_refine_map_witness :
  ∃ outs st', run_ops (sample_state V2) sample_ops = Ok (outs, st') ∧ state_ok st' ∧
    let '(souts, m) := spec_ops (index_map (sample_state V2)) sample_ops in
    (λ o : option Entry, entry_data <$> o) <$> outs = souts ∧
    ∀ p w, ∃ r, entry_by_path_and_stage st' p w = Ok r ∧ entry_data <$> r = m !! (p, w).
Proof. apply (index_ops_refine_map (sample_state V2) sample_ops), sample_state_ok. Defined.
Lemma verify_entries_exact_witness :
  let st := state_of V2 (reverse sample_entries) sample_backing in
  match verify_entries st with
  | Ok _ => keys_sorted st
  | Err (OutOfOrder i) =>
      ∃ a b, get (entries st) (i - 1) = Some a ∧ get (entries st) i = Some b ∧
        key_cmp (key st a) (key st b) ≠ Lt ∧
        StronglySorted (λ a b, key_cmp a b = Lt) (key st <$> take (Z.to_nat i) (entries st))
  | Panic => False
  end.
Proof.
  apply (verify_entries_exact (state_of V2 (reverse sample_entries) sample_backing)).
  apply (bool_decide_unpack _). vm_compute. exact I.
Defined.
Lemma prefixed_entries_exact_witness :
  prefixed_entries (sample_state V2) [97; 47; 98] = Ok (Some [sample_entry 0 MODE_FILE 0 3]).
Proof. rewrite (prefixed_entries_exact (sample_state V2) [97; 47; 98] sample_state_ok). vm_compute. reflexivity. Defined.
Lemma directory_lookup_exact_witness :
  ∃ r, entry_closest_to_directory_or_directory (sample_state V2) sample_dir = Ok r ∧
    ((∃ e, e ∈ entries (sample_state V2) ∧ path_of (sample_state V2) e = sample_dir ∧ r = if entry_is_dir e then Some e else None) ∨
     (∀ e, e ∈ entries (sample_state V2) → path_of (sample_state V2) e ≠ sample_dir) ∧
     r = List.find (λ e, starts_with (sample_dir ++ [slash]) (path_of (sample_state V2) e)) (entries (sample_state V2))).
Proof. apply (directory_lookup_exact (sample_state V2) sample_dir), sample_state_ok. Defined.
Definition sample_pushes : list (Stat * ObjectId * Z * Z * bytes) :=
  [(sample_stat, OidSha1 (replicate 20 9), 0, MODE_FILE, [97]); (sample_stat, OidSha1 (replicate 20 8), 0, MODE_FILE, [97; 47; 98; 98])].
Lemma push_and_sort_restores_witness :
  ∃ st', sort_entries (push_all (sample_state V2) sample_pushes) = Ok st' ∧
    StronglySorted (ord_le key_cmp) (key st' <$> entries st') ∧
    (λ e, (key st' e, entry_data e)) <$> entries st' ≡ₚ
      ((λ e, (key (sample_state V2) e, entry_data e)) <$> entries (sample_state V2)) ++
      ((λ '(s, i, f, m, p), ((p, stage_raw f), (s, i, f, m))) <$> sample_pushes) ∧
    (NoDup (key st' <$> entries st') → state_ok st').
Proof. apply (push_and_sort_restores (sample_state V2) sample_pushes), sample_state_ok. Defined.

(** The lookups on the sample, and where its entries are out of order. *)
Example sample_lookups :
  entry_index_by_path_and_stage (sample_state V2) [97; 47; 99; 100] 0 = Ok (Some 1) ∧
  path_is_directory (sample_state V2) sample_dir = Ok true ∧
  entry_range (sample_state V2) [97; 47; 98] = Ok (Some (0, 1)) ∧
  verify_entries (state_of V2 (reverse sample_entries) sample_backing) = Err (OutOfOrder 1).
Proof. vm_compute. done. Qed.

(** [remove_entries] invalidates the root of the cached tree only: the directory whose entry is
    gone keeps its count, as it does not with [remove_entry_by_path_and_stage]. *)
Definition sample_tree : Tree :=
  {| tree_name := []; tree_id := OidSha1 (replicate 20 1); num_entries := Some 2;
     children := [{| tree_name := sample_dir; tree_id := OidSha1 (replicate 20 2); num_entries := Some 2; children := [] |}] |}.
Example remove_entries_keeps_subtree_count :
  let st := set_tree (sample_state V2) (Some sample_tree) in
  let counts (r : outcome access_error State) :=
    match r with Ok st => (λ t, (num_entries t, num_entries <$> children t)) <$> tree st | _ => None end in
  counts ('(_, st) ← remove_entries st (closure_of (λ p _, bool_decide (p = [97; 47; 98]))) tt; Ok st) =
    Some (None, [Some 2]) ∧
  counts ('(_, st) ← remove_entry_by_path_and_stage st [97; 47; 98] 0; Ok st) = Some (None, [None]).
Proof. vm_compute. done. Qed.
