(* ===== verification/GitIndexExtensions.v ===== *)
(** * [gix-index/src/extension]: the extensions of the index

    Each extension is a signature of four bytes, a length and a payload. A decoder that returns
    [None] is an outcome with an error without content, as slicing and ids of a wrong length
    panic. Vectors can be reserved: where a reservation of too much memory fails, the loop
    behind it would run out of data and fail in the same way. *)

From stdpp Require Import sorting.
From S2P Require Import Prelude Slices Btoi Hash Ewah PackEntry GitIndex.

Inductive extension_error :=
| LinkTooShort
| LinkDeleteCorrupt
| LinkReplaceCorrupt
| LinkTrailing
| MandatoryUnknown (signature : bytes)
| HasherFailed
| WriteInvalid
| ExtensionTooLarge
| WriteFailed (e : index_error).

(** ** Loops and limits *)

(** [for _ in 0..count]: the body consumes data or fails, so that one round more than there are
    bytes is enough fuel. *)
Fixpoint for_count {St} (body : St → bytes → outcome () (St * bytes)) (fuel : nat) (count : Z) (s : St) (data : bytes)
    : outcome () (St * bytes) :=
  if count <=? 0 then Ok (s, data)
  else match fuel with
       | O => Panic
       | S fuel => '(s, data) ← body s data; for_count body fuel (count - 1) s data
       end.
(** [Vec::push] of what a read returns. *)
Definition pushes {A} (read : bytes → outcome () (A * bytes)) (l : list A) (data : bytes)
    : outcome () (list A * bytes) :=
  '(x, data) ← read data; Ok (l ++ [x], data).
Definition saturating_mul (a b : Z) : Z := Z.min (2 ^ 64 - 1) (a * b).
Definition over_limit (limit : option Z) (size : Z) : bool :=
  match limit with Some limit => limit <? size | None => false end.
(** [Result::ok] of a decoder. *)
Definition to_option {E F A} (m : outcome E A) : outcome F (option A) :=
  match m with Ok a => Ok (Some a) | Err _ => Ok None | Panic => Panic end.
Definition lift_opt {A} (o : option A) : outcome () A := ok_or tt o.
(** A closure of [for_each_set_bit] that may fail. *)
Definition for_each_bit {St} (step : St → Z → outcome () St) (v : Ewah.Vec) (s : St) : outcome () St :=
  let '(r, go) :=
    for_each_set_bit (λ r i, match r with
                             | Ok s => match step s i with Ok s => (Ok s, true) | o => (o, false) end
                             | o => (o, false)
                             end) v (Ok s) in
  if go : bool then r else match r with Panic => Panic | _ => Err tt end.

(** [itoa] and [{:o}]: the digits of a number. *)
Fixpoint format_loop (fuel : nat) (radix n : Z) (acc : bytes) : bytes :=
  match fuel with
  | O => acc
  | S fuel =>
      let acc := (48 + n mod radix) :: acc in
      if n <? radix then acc else format_loop fuel radix (n / radix) acc
  end.
(** Numbers of at most 64 bits have at most 64 digits. *)
Definition format (radix n : Z) : bytes := format_loop 64 radix n [].
Definition format_signed (n : Z) : bytes := if n <? 0 then 45 :: format 10 (- n) else format 10 n.
(** [u32::from_str_radix(.., 8)]: a plus sign is accepted; bytes that are not UTF-8 are no digits. *)
Definition parse_octal (src : bytes) : option Z :=
  let digits := match src with b :: rest => if b =? 43 then rest else src | [] => [] end in
  v ← value 8 digits; checked 32 v.

(** ** [iter.rs], [decode.rs] *)
Definition EXT_MIN_SIZE : Z := 4 + 4.
Record Iter := { iter_data : bytes; consumed : Z }.
Definition iter_new (data : bytes) : Iter := {| iter_data := data; consumed := 0 |}.
Definition iter_new_without_checksum (data : bytes) (object_hash : Kind) : option Iter :=
  end_ ← checked_sub 64 (zlen data) (len_in_bytes object_hash);
  Some {| iter_data := take (Z.to_nat end_) data; consumed := 0 |}.
Definition iter_next {E} (it : Iter) : outcome E (Iter * option (bytes * bytes)) :=
  if zlen (iter_data it) <? 4 + 4 then Ok (it, None)
  else
    '(signature, data) ← expect (split_at_checked (iter_data it) 4);
    '(size, data) ← expect (split_at_checked data 4);
    let consumed := consumed it + (4 + 4) in
    let size := from_be size in
    match get_range data 0 size with
    | Some ext_data =>
        rest ← expect (get_from data size);
        Ok ({| iter_data := rest; consumed := consumed + size |}, Some (signature, ext_data))
    | None => Ok ({| iter_data := []; consumed := consumed |}, None)
    end.
(** [extension::decode::header] *)
Definition extension_header {E} (data : bytes) : outcome E (bytes * Z * bytes) :=
  '(signature, data) ← expect (split_at_checked data 4);
  '(size, data) ← expect (split_at_checked data 4);
  Ok (signature, from_be size, data).

(** ** [index_entry_offset_table.rs] *)
Definition IEOT_SIGNATURE : bytes := [73; 69; 79; 84].
Record Offset := { from_beginning_of_file : Z; offset_num_entries : Z }.
Definition read_offset (data : bytes) : outcome () (Offset * bytes) :=
  '(offset, chunk) ← lift_opt (read_u32 data);
  '(num_entries, chunk) ← lift_opt (read_u32 chunk);
  Ok ({| from_beginning_of_file := offset; offset_num_entries := num_entries |}, chunk).
Definition ieot_decode (data : bytes) : outcome () (list Offset) :=
  '(version, data) ← lift_opt (read_u32 data);
  _ ← ensure (version =? 1) tt;
  let num_offsets := zlen data / 8 in
  _ ← ensure (negb ((num_offsets =? 0) || negb (zlen data mod 8 =? 0))) tt;
  '(out, data) ← for_count (pushes read_offset) (S (length data)) num_offsets [] data;
  _ ← assert_that (zlen data =? 0);
  Ok out.
(** [find_map] over the extensions; there are at most as many as bytes. *)
Fixpoint find_extension (fuel : nat) (it : Iter) (signature : bytes) : outcome () (option bytes) :=
  match fuel with
  | O => Ok None
  | S fuel =>
      '(it, next) ← iter_next it;
      match next with
      | None => Ok None
      | Some (sig, ext_data) =>
          if bytes_eqb sig signature then Ok (Some ext_data) else find_extension fuel it signature
      end
  end.
Definition ieot_find (extensions : bytes) (object_hash : Kind) : outcome () (list Offset) :=
  it ← lift_opt (iter_new_without_checksum extensions object_hash);
  ext_data ← find_extension (S (length extensions)) it IEOT_SIGNATURE;
  ext_data ← lift_opt ext_data;
  ieot_decode ext_data.

(** ** [end_of_index_entry] *)
Definition EOIE_SIGNATURE : bytes := [69; 79; 73; 69].
Definition EOIE_MIN_SIZE : Z := 4 + len_in_bytes shortest.
Definition EOIE_MIN_SIZE_WITH_HEADER : Z := EXT_MIN_SIZE + EOIE_MIN_SIZE.

Section Eoie.
(** The hash of the bytes that a hasher was updated with. *)
Context (try_finalize : Kind → bytes → outcome extension_error ObjectId).

(** The loop over extensions: what is hashed, and where the last of them ends. *)
Fixpoint eoie_loop (fuel : nat) (it : Iter) (hashed : bytes) (last_end : option Z)
    : outcome extension_error (bytes * option Z) :=
  match fuel with
  | O => Ok (hashed, last_end)
  | S fuel =>
      '(it, next) ← iter_next it;
      match next with
      | None => Ok (hashed, last_end)
      | Some (signature, chunk) =>
          eoie_loop fuel it (hashed ++ signature ++ to_be 4 (wrap 32 (zlen chunk))) (Some (consumed it))
      end
  end.
Definition eoie_decode (data : bytes) (object_hash : Kind) : outcome extension_error (option Z) :=
  let hash_len := len_in_bytes object_hash in
  if zlen data <? EOIE_MIN_SIZE_WITH_HEADER + hash_len then Ok None
  else
    start_of_eoie ← op_sub 64 (zlen data) EOIE_MIN_SIZE_WITH_HEADER;
    start_of_eoie ← op_sub 64 start_of_eoie hash_len;
    ext_data ← expect (get_range data start_of_eoie (zlen data - hash_len));
    '(signature, ext_size, ext_data) ← extension_header ext_data;
    if negb (bytes_eqb signature EOIE_SIGNATURE) || negb (ext_size =? EOIE_MIN_SIZE) then Ok None
    else
      '(offset, checksum) ← expect (split_at_checked ext_data 4);
      match try_from_bytes checksum with
      | Panic => Panic
      | Err _ => Ok None
      | Ok checksum =>
          let offset := from_be offset in
          if (offset <? HEADER_SIZE) || (start_of_eoie <? offset) || negb (bool_decide (Hash.kind checksum = object_hash))
          then Ok None
          else
            extensions ← expect (get_range data offset start_of_eoie);
            '(hashed, last_end) ← eoie_loop (length extensions) (iter_new extensions) [] None;
            actual ← try_finalize object_hash hashed;
            if negb (bool_decide (actual = checksum)) then Ok None
            else Ok (match last_end with
                     | Some last_end => if offset + last_end =? start_of_eoie then Some offset else None
                     | None => None
                     end)
      end.
Definition eoie_bytes (object_hash : Kind) (offset_to_extensions : Z) (prior_extensions : list (bytes * Z))
    : outcome extension_error bytes :=
  let hashed := concat ((λ '(signature, size), signature ++ to_be 4 size) <$> prior_extensions) in
  hash ← try_finalize object_hash hashed;
  Ok (EOIE_SIGNATURE ++ to_be 4 (4 + len_in_bytes object_hash) ++ to_be 4 offset_to_extensions ++ as_slice hash).
End Eoie.

(** ** [tree/decode.rs], [tree/write.rs] *)
Definition TREE_SIGNATURE : bytes := [84; 82; 69; 69].
(** [size_of::<Tree>()] *)
Definition TREE_SIZE : Z := 104.

(** Every node takes bytes, so that the number of bytes bounds the depth. *)
Fixpoint one_recursive (fuel : nat) (hash_len : Z) (limit : option Z) (data : bytes) : outcome () (Tree * bytes) :=
  match fuel with
  | O => Panic
  | S fuel =>
      '(path, data) ← lift_opt (split_at_byte_exclusive data 0);
      '(entry_count, data) ← lift_opt (split_at_byte_exclusive data 32);
      num_entries ← map_err (λ _, tt) (to_signed i32 entry_count);
      '(subtree_count, data) ← lift_opt (split_at_byte_exclusive data 10);
      subtree_count ← map_err (λ _, tt) (to_unsigned usize subtree_count);
      _ ← ensure (negb (over_limit limit (saturating_mul subtree_count TREE_SIZE))) tt;
      '(id, data) ←
        (if 0 <=? num_entries then
           '(hash, data) ← lift_opt (split_at_checked data hash_len);
           id ← from_bytes_or_panic hash;
           Ok (id, data)
         else
           k ← expect (from_hex_len (hash_len * 2));
           Ok (null k, data));
      '(subtrees, data) ←
        for_count (pushes (one_recursive fuel hash_len limit)) (S (length data)) subtree_count [] data;
      let sorted := sort_by (λ a b, bytes_cmp (tree_name a) (tree_name b)) subtrees in
      let unique := dedup_by (λ a b, bytes_eqb (tree_name a) (tree_name b)) sorted in
      _ ← ensure (zlen sorted =? zlen unique) tt;
      Ok ({| tree_name := path; tree_id := id;
             num_entries := (if 0 <=? num_entries then Some num_entries else None); children := unique |}, data)
  end.
Definition tree_decode (data : bytes) (object_hash : Kind) (limit : option Z) : outcome () Tree :=
  '(tree, data) ← one_recursive (S (length data)) (len_in_bytes object_hash) limit data;
  _ ← ensure (zlen data =? 0) tt;
  Ok tree.

Definition tree_head (t : Tree) : bytes :=
  tree_name t ++ [0] ++ format_signed (default (-1) (num_entries t)) ++ [32]
  ++ format 10 (zlen (children t)) ++ [10].
(** With the hash kind of the index, the ids must be of it. *)
Fixpoint tree_entry (object_hash : option Kind) (t : Tree) : outcome extension_error bytes :=
  own ←
    match num_entries t with
    | Some _ =>
        _ ← ensure (match object_hash with
                     | Some k => bool_decide (Hash.kind (tree_id t) = k)
                     | None => true
                     end) WriteInvalid;
        Ok (tree_head t ++ as_slice (tree_id t))
    | None => Ok (tree_head t)
    end;
  (fix go (cs : list Tree) (out : bytes) : outcome extension_error bytes :=
     match cs with
     | [] => Ok out
     | c :: cs => child ← tree_entry object_hash c; go cs (out ++ child)
     end) (children t) own.

(** Signature, size and payload, once the payload is complete. *)
Definition write_extension (signature data : bytes) (too_large : outcome extension_error Z) (out : CountBytes)
    : outcome extension_error CountBytes :=
  size ← match checked 32 (zlen data) with Some n => Ok n | None => too_large end;
  map_err WriteFailed (write_seq [signature; to_be 4 size; data] out).
Definition tree_write_to_inner (t : Tree) (object_hash : option Kind) (out : CountBytes)
    : outcome extension_error CountBytes :=
  entries ← tree_entry object_hash t;
  write_extension TREE_SIGNATURE entries (Err ExtensionTooLarge) out.

(** ** [resolve_undo.rs] *)
Definition REUC_SIGNATURE : bytes := [82; 69; 85; 67].
Definition read_mode (data : bytes) : outcome () (Z * bytes) :=
  '(mode_ascii, rest) ← lift_opt (split_at_byte_exclusive data 0);
  mode ← lift_opt (parse_octal mode_ascii);
  Ok (mode, rest).
(** [modes.iter().zip(stages.iter_mut())] *)
Fixpoint read_stages (hash_len : Z) (modes : list Z) (data : bytes)
    : outcome () (list (option UndoStage) * bytes) :=
  match modes with
  | [] => Ok ([], data)
  | mode :: modes =>
      '(stage, data) ←
        (if mode =? 0 then Ok (None, data)
         else
           '(hash, rest) ← lift_opt (split_at_checked data hash_len);
           id ← from_bytes_or_panic hash;
           Ok (Some {| undo_mode := mode; undo_id := id |}, rest));
      '(stages, data) ← read_stages hash_len modes data;
      Ok (stage :: stages, data)
  end.
Definition read_resolve_path (hash_len : Z) (data : bytes) : outcome () (ResolvePath * bytes) :=
  '(path, data) ← lift_opt (split_at_byte_exclusive data 0);
  '(m0, data) ← read_mode data;
  '(m1, data) ← read_mode data;
  '(m2, data) ← read_mode data;
  '(stages, data) ← read_stages hash_len [m0; m1; m2] data;
  Ok ({| undo_name := path; stages := stages |}, data).
(** [while !data.is_empty()]: every path takes bytes. *)
Fixpoint resolve_undo_loop (fuel : nat) (hash_len : Z) (data : bytes) (out : list ResolvePath)
    : outcome () (list ResolvePath) :=
  match data with
  | [] => Ok out
  | _ =>
      match fuel with
      | O => Panic
      | S fuel =>
          '(path, data) ← read_resolve_path hash_len data;
          resolve_undo_loop fuel hash_len data (out ++ [path])
      end
  end.
Definition resolve_undo_decode (data : bytes) (object_hash : Kind) : outcome () (list ResolvePath) :=
  resolve_undo_loop (length data) (len_in_bytes object_hash) data [].

Definition stage_mode (s : option UndoStage) : Z := match s with Some s => undo_mode s | None => 0 end.
Fixpoint stage_ids (object_hash : Kind) (l : list (option UndoStage)) : outcome extension_error bytes :=
  match l with
  | [] => Ok []
  | None :: l => stage_ids object_hash l
  | Some s :: l =>
      _ ← ensure (bool_decide (Hash.kind (undo_id s) = object_hash)) WriteInvalid;
      rest ← stage_ids object_hash l;
      Ok (as_slice (undo_id s) ++ rest)
  end.
Fixpoint resolve_undo_entries (object_hash : Kind) (paths : list ResolvePath) : outcome extension_error bytes :=
  match paths with
  | [] => Ok []
  | p :: paths =>
      ids ← stage_ids object_hash (stages p);
      rest ← resolve_undo_entries object_hash paths;
      Ok (undo_name p ++ [0] ++ concat ((λ s, format 8 (stage_mode s) ++ [0]) <$> stages p) ++ ids ++ rest)
  end.
Definition resolve_undo_write_to (paths : list ResolvePath) (object_hash : Kind) (out : CountBytes)
    : outcome extension_error CountBytes :=
  entries ← resolve_undo_entries object_hash paths;
  write_extension REUC_SIGNATURE entries Panic out.

(** ** [fs_monitor.rs] *)
Definition FSMN_SIGNATURE : bytes := [70; 83; 77; 78].
Definition read_u64 (data : bytes) : option (Z * bytes) :=
  '(num, data) ← split_at_checked data 8; Some (from_be num, data).
Definition read_bitmap (data : bytes) : outcome () (Ewah.Vec * bytes) := map_err (λ _, tt) (Ewah.decode data).
Definition fs_monitor_decode (data : bytes) : outcome () FsMonitor :=
  '(version, data) ← lift_opt (read_u32 data);
  '(token, data) ←
    (if version =? 1 then
       '(nanos, data) ← lift_opt (read_u64 data); Ok (TokenV1 nanos, data)
     else if version =? 2 then
       '(token, data) ← lift_opt (split_at_byte_exclusive data 0); Ok (TokenV2 token, data)
     else Err tt);
  '(ewah_size, data) ← lift_opt (read_u32 data);
  '(bitmap, data) ← lift_opt (split_at_checked data ewah_size);
  '(entry_dirty, bitmap_rest) ← read_bitmap bitmap;
  _ ← ensure (negb (negb (zlen bitmap_rest =? 0) || negb (zlen data =? 0))) tt;
  Ok {| token := token; entry_dirty := entry_dirty |}.
Definition bitmap_bytes (v : Ewah.Vec) : outcome extension_error bytes := map_err (λ _, WriteInvalid) (Ewah.write_to v).
Definition fs_monitor_write_to (f : FsMonitor) (out : CountBytes) : outcome extension_error CountBytes :=
  let data := match token f with
              | TokenV1 nanos => to_be 4 1 ++ to_be 8 nanos
              | TokenV2 token => to_be 4 2 ++ token ++ [0]
              end in
  bitmap ← bitmap_bytes (entry_dirty f);
  size ← expect (checked 32 (zlen bitmap));
  write_extension FSMN_SIGNATURE (data ++ to_be 4 size ++ bitmap) Panic out.

(** ** [link.rs] *)
Definition LINK_SIGNATURE : bytes := [108; 105; 110; 107].
Definition link_decode (data : bytes) (object_hash : Kind) : outcome extension_error Link :=
  '(id, data) ← ok_or LinkTooShort (split_at_checked data (len_in_bytes object_hash));
  id ← from_bytes_or_panic id;
  if zlen data =? 0 then Ok {| shared_index_checksum := id; bitmaps := None |}
  else
    '(delete, data) ← map_err (λ _, LinkDeleteCorrupt) (Ewah.decode data);
    '(replace, data) ← map_err (λ _, LinkReplaceCorrupt) (Ewah.decode data);
    _ ← ensure (zlen data =? 0) LinkTrailing;
    Ok {| shared_index_checksum := id; bitmaps := Some {| delete_bitmap := delete; replace_bitmap := replace |} |}.
Definition link_write_to (l : Link) (object_hash : Kind) (out : CountBytes) : outcome extension_error CountBytes :=
  let checksum := as_slice (shared_index_checksum l) in
  _ ← ensure (zlen checksum =? len_in_bytes object_hash) WriteInvalid;
  data ← match bitmaps l with
         | Some b =>
             delete ← bitmap_bytes (delete_bitmap b);
             replace ← bitmap_bytes (replace_bitmap b);
             Ok (checksum ++ delete ++ replace)
         | None => Ok checksum
         end;
  write_extension LINK_SIGNATURE data (Err ExtensionTooLarge) out.

(** ** [sparse.rs] *)
Definition SPARSE_SIGNATURE : bytes := [115; 100; 105; 114].
Definition sparse_write_to (out : CountBytes) : outcome extension_error CountBytes :=
  map_err WriteFailed (write_seq [SPARSE_SIGNATURE; to_be 4 0] out).

(** ** Lemmas: readers take bytes *)
Definition shorter (d data : bytes) : Prop := suffix_of d data ∧ (length d < length data)%nat.
Lemma shorter_trans a b c : shorter a b → shorter b c → shorter a c.
Proof. intros [H1 H2] [H3 H4]. split; [by eapply suffix_trans|lia]. Qed.
Lemma shorter_suffix a b c : shorter a b → suffix_of b c → shorter a c.
Proof. intros [H1 H2] H3. split; [by eapply suffix_trans|]. destruct H3 as [x ->]. rewrite length_app. lia. Qed.
Lemma suffix_shorter a b c : suffix_of a b → shorter b c → shorter a c.
Proof. intros H1 [H3 H4]. split; [by eapply suffix_trans|]. destruct H1 as [x ->]. rewrite length_app in H4. lia. Qed.
Lemma shorter_is_suffix a b : shorter a b → suffix_of a b.
Proof. by intros [H _]. Qed.
Lemma suffix_of_length a b : suffix_of a b → (length a ≤ length b)%nat.
Proof. intros [x ->]. rewrite length_app. lia. Qed.
Create HintDb reads.
#[export] Hint Resolve shorter_is_suffix suffix_refl : reads.
#[export] Hint Extern 2 (shorter _ _) => (eapply shorter_trans; [eassumption|]) : reads.
#[export] Hint Extern 2 (suffix_of _ _) => (eapply suffix_trans; [eassumption|]) : reads.

(** What a reader leaves. *)
Definition rest_of {A} (data : bytes) (r : A * bytes) : Prop := shorter r.2 data.

Lemma split_byte_reads data b : safe (lift_opt (split_at_byte_exclusive data b)) (rest_of data).
Proof.
  unfold lift_opt. destruct (split_at_byte_exclusive data b) as [[x d]|] eqn:E; [|done]. cbn [ok_or safe]. unfold rest_of. cbn [fst snd].
  split; [by eapply suffix_split_byte|]. unfold split_at_byte_exclusive in E. destruct (Z.ltb_spec (zlen data) 2); [done|].
  destruct (position _ _); [|done]. injection E as <- <-. rewrite length_drop. unfold zlen in *. cbn. lia.
Qed.
Lemma split_reads data n : 0 < n → safe (lift_opt (split_at_checked data n)) 
    (λ r, rest_of data r ∧ data = r.1 ++ r.2 ∧ zlen r.1 = n).
Proof.
  intros Hn. unfold lift_opt. destruct (split_at_checked data n) as [[x d]|] eqn:E; [|done]. cbn [ok_or safe]. unfold rest_of. cbn [fst snd].
  pose proof E as [-> Hx]%split_at_Some. split; [|done]. split; [by exists x|]. rewrite length_app. unfold zlen in *. cbn. lia.
Qed.
Lemma read_u32_reads data : safe (lift_opt (read_u32 data)) (rest_of data).
Proof.
  unfold read_u32. pose proof (split_reads data 4 ltac:(lia)) as H. unfold lift_opt in *.
  destruct (split_at_checked data 4) as [[x d]|]; [|done]. apply H.
Qed.
Lemma read_u64_reads data : safe (lift_opt (read_u64 data)) (rest_of data).
Proof.
  unfold read_u64. pose proof (split_reads data 8 ltac:(lia)) as H. unfold lift_opt in *.
  destruct (split_at_checked data 8) as [[x d]|]; [|done]. apply H.
Qed.
Lemma var_int_reads data : safe (var_int data) (λ r, 0 ≤ r.1 ∧ rest_of data r).
Proof.
  pose proof (var_int_safe data) as Hs. unfold var_int in *.
  destruct (leb64_from_read data) as [[[n i] r]| |] eqn:E; [|done..].
  rewrite leb64_from_read_eq in E. destruct (parse_leb64 data) as [[v c]| |] eqn:Ep; [|done..]. cbn in E. injection E as <- <- <-.
  destruct (get_from data c) as [d|] eqn:Eg; [|done]. cbn [expect mbind outcome_bind] in *. destruct Hs as [Hn Hd].
  split; [done|]. split; [done|]. cbn [snd]. destruct data as [|b data]; [done|]. cbn [parse_leb64] in Ep.
  apply parse_leb64_loop_count in Ep. unfold get_from in Eg. apply get_range_Some in Eg as (_ & _ & Hl & _).
  unfold zlen in *. lia.
Qed.
Lemma bitmap_reads data : bytes_ok data → safe (read_bitmap data) (λ r, rest_of data r ∧ vec_ok r.1).
Proof.
  intros Hd. unfold read_bitmap. destruct (decode_sound data Hd) as [(v & rest & -> & Hv & ->)|[e ->]]; [|done].
  cbn [map_err safe]. split; [|done]. split; [by exists (vec_bytes v)|]. unfold vec_bytes. cbn [snd]. rewrite !length_app.
  rewrite !length_to_be. lia.
Qed.
Lemma oid_reads {E} data n k :
  n = len_in_bytes k → zlen data = n → ∃ i, from_bytes_or_panic (E := E) data = Ok i ∧ as_slice i = data ∧ Hash.kind i = k.
Proof. intros -> Hn. by apply from_bytes_or_panic_ok. Qed.

Lemma for_count_reads {St} (body : St → bytes → outcome () (St * bytes)) (I : St → Prop) base fuel : ∀ count s data,
  (∀ s d, I s → suffix_of d base → safe (body s d) (λ r, I r.1 ∧ rest_of d r)) →
  I s → suffix_of data base → (length data < fuel)%nat →
  safe (for_count body fuel count s data) (λ r, I r.1 ∧ suffix_of r.2 data).
Proof.
  induction fuel as [|fuel IH]; intros count s data Hbody Hs Hd Hf; [lia|]. cbn [for_count].
  destruct (count <=? 0); [split; [done|apply suffix_refl]|].
  eapply safe_bind; [by apply Hbody|]. intros [s' d'] [Hs' Hr]. cbn [fst] in Hs'. unfold rest_of in Hr. cbn [snd] in Hr.
  eapply safe_impl; [apply (IH (count - 1) s' d'); [done|done| |destruct Hr; lia]|].
  - eapply suffix_trans; [by apply shorter_is_suffix|done].
  - intros [s2 d2] [H2 H3]. split; [done|]. eapply suffix_trans; [exact H3|]. by apply shorter_is_suffix.
Qed.
Lemma pushes_reads {A} (read : bytes → outcome () (A * bytes)) (P : A → Prop) l data :
  Forall P l → safe (read data) (λ r, rest_of data r ∧ P r.1) →
  safe (pushes read l data) (λ r, Forall P r.1 ∧ rest_of data r).
Proof.
  intros Hl Hr. unfold pushes. eapply safe_bind; [exact Hr|]. intros [x d] [H1 H2]. split; [|exact H1].
  apply Forall_app. by repeat constructor.
Qed.

(** ** Trees: what is read *)
Definition name_lt (a b : Tree) : Prop := bytes_cmp (tree_name a) (tree_name b) = Lt.
Inductive tree_ok (k : Kind) : Tree → Prop :=
| tree_ok_intro t :
    bytes_ok (tree_name t) → 0 ∉ tree_name t → oid_ok (tree_id t) → Hash.kind (tree_id t) = k →
    match num_entries t with Some n => 0 ≤ n < 2 ^ 31 | None => tree_id t = null k end →
    StronglySorted name_lt (children t) → Forall (tree_ok k) (children t) → tree_ok k t.

Lemma split_byte_name data b x d :
  split_at_byte_exclusive data b = Some (x, d) → data = x ++ [b] ++ d ∧ b ∉ x.
Proof.
  unfold split_at_byte_exclusive. destruct (_ <? 2); [done|]. destruct (position (λ x, x =? b) data) as [i|] eqn:E; [|done].
  intros [= <- <-]. apply position_Some in E as (a & c & r & -> & Hi & Hc & Hn). apply Z.eqb_eq in Hc as ->.
  unfold zlen in Hi. subst i. rewrite Nat2Z.id, take_app_length.
  replace (S (length a)) with (length a + 1)%nat by lia. rewrite drop_app_add. cbn. split; [done|].
  intros Hb. rewrite list.Forall_forall in Hn. specialize (Hn b Hb). by rewrite Z.eqb_refl in Hn.
Qed.
Lemma name_reads data b :
  bytes_ok data →
  safe (lift_opt (split_at_byte_exclusive data b)) (λ r, rest_of data r ∧ bytes_ok r.1 ∧ bytes_ok r.2 ∧ b ∉ r.1).
Proof.
  intros Hb. pose proof (split_byte_reads data b) as Hr. unfold lift_opt in *.
  destruct (split_at_byte_exclusive data b) as [[x d]|] eqn:E; [|done]. apply split_byte_name in E as [-> Hn].
  split; [exact Hr|]. apply bytes_ok_app in Hb as [Hx Hd]. split; [done|]. split; [|done]. by apply bytes_ok_app in Hd as [_ Hd].
Qed.
Lemma hash_reads k data :
  bytes_ok data →
  safe ('(hash, data) ← lift_opt (split_at_checked data (len_in_bytes k)); id ← from_bytes_or_panic hash; Ok (id, data))
    (λ r, rest_of data r ∧ bytes_ok r.2 ∧ oid_ok r.1 ∧ Hash.kind r.1 = k).
Proof.
  intros Hb. eapply safe_bind; [apply split_reads; pose proof (len_in_bytes_range k); lia|].
  intros [h d] (Hr & -> & Hl). cbn [fst snd] in *. destruct (oid_reads (E := ()) h _ k eq_refl Hl) as (i & -> & Hs & Hk).
  apply bytes_ok_app in Hb as [Hh Hd].
  cbn [mbind outcome_bind safe fst snd]. split; [exact Hr|]. split; [done|]. split; [|done]. split; by rewrite Hs, ?Hk.
Qed.
Lemma null_ok k : oid_ok (null k) ∧ Hash.kind (null k) = k.
Proof. destruct k; split; try done; split; try done; apply (bool_decide_unpack _); vm_compute; exact I. Qed.
Lemma from_hex_len_of k : from_hex_len (len_in_bytes k * 2) = Some k.
Proof. by destruct k. Qed.

(** Children that were read are sorted and checked to have different names. *)
Lemma unique_children subtrees k :
  Forall (tree_ok k) subtrees →
  let sorted := sort_by (λ a b, bytes_cmp (tree_name a) (tree_name b)) subtrees in
  let unique := dedup_by (λ a b, bytes_eqb (tree_name a) (tree_name b)) sorted in
  zlen sorted =? zlen unique = true → unique = sorted ∧ StronglySorted name_lt unique ∧ Forall (tree_ok k) unique.
Proof.
  intros Hall sorted unique Hlen. apply Z.eqb_eq in Hlen.
  destruct (dedup_strict (λ a b, bytes_cmp (tree_name a) (tree_name b)) (λ a b, bytes_eqb (tree_name a) (tree_name b)) sorted)
    as [H1 H2].
  - intros x y Hxy Heq. apply bytes_cmp_eq in Heq. unfold bytes_eqb in Hxy. by apply bool_decide_eq_false in Hxy.
  - apply sort_by_sorted, _.
  - unfold zlen in Hlen. unfold unique in Hlen. lia.
  - fold unique in H1. rewrite H1. split; [done|]. split; [exact H2|]. unfold sorted. by rewrite sort_by_permutation.
Qed.

Lemma one_recursive_reads k limit fuel : ∀ data,
  bytes_ok data → (length data < fuel)%nat →
  safe (one_recursive fuel (len_in_bytes k) limit data) (λ r, rest_of data r ∧ tree_ok k r.1).
Proof.
  induction fuel as [|fuel IH]; intros data Hb Hf; [lia|]. cbn [one_recursive].
  eapply safe_bind; [by apply name_reads|]. intros [path d1] (R1 & Hp & B1 & Hn). cbn [fst snd] in *.
  eapply safe_bind; [by apply name_reads|]. intros [cnt d2] (R2 & _ & B2 & _). cbn [fst snd] in *.
  destruct (to_signed_with_radix_exact i32 cnt 10 ltac:(lia)) as [Hsig Hnp].
  unfold to_signed at 1. destruct (to_signed_with_radix i32 cnt 10) as [n| |] eqn:En; [|done|done]. cbn [map_err mbind outcome_bind].
  destruct (proj1 (Hsig n) eq_refl) as [_ Hnr]. cbn [MIN MAX i32] in Hnr.
  eapply safe_bind; [by apply name_reads|]. intros [sub d3] (R3 & _ & B3 & _). cbn [fst snd] in *.
  unfold to_unsigned at 1. pose proof (to_unsigned_no_panic (I := usize) sub 10 ltac:(lia)) as Hup.
  destruct (to_unsigned_with_radix usize sub 10) as [c| |]; [|done|done]. cbn [map_err mbind outcome_bind].
  apply safe_ensure. intros _.
  eapply (safe_bind _ _ (λ r, suffix_of r.2 d3 ∧ bytes_ok r.2 ∧ oid_ok r.1 ∧ Hash.kind r.1 = k ∧ (n < 0 → r.1 = null k))).
  { destruct (Z.leb_spec 0 n).
    - eapply safe_impl; [by apply hash_reads|]. intros [i d] (R & B & Ho & Hk). cbn [fst snd] in *.
      split; [by apply shorter_is_suffix|]. split; [done|]. split; [done|]. split; [done|]. lia.
    - rewrite from_hex_len_of. cbn [expect mbind outcome_bind safe fst snd]. destruct (null_ok k).
      split; [apply suffix_refl|done]. }
  intros [i d4] (R4 & B4 & Ho & Hk & Hnull). cbn [fst snd] in *. unfold rest_of in *. cbn [fst snd] in *.
  assert (shorter d4 data) as R by (eapply suffix_shorter; [exact R4|]; eauto using shorter_trans).
  eapply safe_bind.
  { apply (for_count_reads _ (Forall (tree_ok k)) d4); [|constructor|apply suffix_refl|lia].
    intros l d Hl Hd. apply pushes_reads; [done|]. apply IH; [by eapply suffix_bytes_ok|].
    apply suffix_of_length in Hd. destruct R. lia. }
  intros [subtrees d5] [Hsub R5]. cbn [fst snd] in *. apply safe_ensure. intros Hlen.
  destruct (unique_children subtrees k Hsub Hlen) as (_ & Hss & Hall). cbn [safe fst snd].
  split; [by eapply suffix_shorter|]. constructor; cbn [tree_name tree_id num_entries children]; try done.
  destruct (Z.leb_spec 0 n); [lia|auto].
Qed.
Lemma tree_decode_safe data k limit : bytes_ok data → safe (tree_decode data k limit) (tree_ok k).
Proof.
  intros Hb. unfold tree_decode. eapply safe_bind; [apply one_recursive_reads; [done|lia]|].
  intros [t d] [_ Ht]. by apply safe_ensure.
Qed.

(** ** The other extensions: what is read *)
Definition stage_ok (k : Kind) (s : option UndoStage) : Prop :=
  match s with Some s => 0 < undo_mode s < 2 ^ 32 ∧ oid_ok (undo_id s) ∧ Hash.kind (undo_id s) = k | None => True end.
Record resolve_ok (k : Kind) (p : ResolvePath) : Prop := {
  ro_name : bytes_ok (undo_name p);
  ro_zero : 0 ∉ undo_name p;
  ro_len : length (stages p) = 3%nat;
  ro_stages : Forall (stage_ok k) (stages p);
}.
Definition token_ok (t : Token) : Prop :=
  match t with TokenV1 n => 0 ≤ n < 2 ^ 64 | TokenV2 t => bytes_ok t ∧ 0 ∉ t end.
Record fsm_ok (f : FsMonitor) : Prop := { fo_token : token_ok (token f); fo_bitmap : vec_ok (entry_dirty f) }.
Record link_ok (k : Kind) (l : Link) : Prop := {
  lo_id : oid_ok (shared_index_checksum l);
  lo_kind : Hash.kind (shared_index_checksum l) = k;
  lo_bitmaps : ∀ b, bitmaps l = Some b → vec_ok (delete_bitmap b) ∧ vec_ok (replace_bitmap b);
}.

Lemma rest_bytes_ok {A} data (r : A * bytes) : bytes_ok data → rest_of data r → bytes_ok r.2.
Proof. intros Hb [H _]. by eapply suffix_bytes_ok. Qed.
Lemma parse_octal_range src v : parse_octal src = Some v → 0 ≤ v < 2 ^ 32.
Proof.
  unfold parse_octal. destruct (value 8 _); [|done]. cbn [mbind option_bind]. intros [-> H]%checked_Some. done.
Qed.
Lemma read_mode_reads data :
  bytes_ok data → safe (read_mode data) (λ r, rest_of data r ∧ bytes_ok r.2 ∧ 0 ≤ r.1 < 2 ^ 32).
Proof.
  intros Hb. unfold read_mode. eapply safe_bind; [by apply name_reads|]. intros [m d] (R & _ & B & _). cbn [fst snd] in *.
  unfold lift_opt. destruct (parse_octal m) as [v|] eqn:E; [|done]. cbn [ok_or mbind outcome_bind safe fst snd].
  split; [exact R|]. split; [done|]. by eapply parse_octal_range.
Qed.
Lemma read_stages_reads k modes : ∀ data,
  bytes_ok data → Forall (λ m, 0 ≤ m < 2 ^ 32) modes →
  safe (read_stages (len_in_bytes k) modes data)
    (λ r, suffix_of r.2 data ∧ length r.1 = length modes ∧ Forall (stage_ok k) r.1).
Proof.
  induction modes as [|m modes IH]; intros data Hb Hm; cbn [read_stages].
  { cbn. split; [apply suffix_refl|]. split; [done|constructor]. }
  apply list.Forall_cons in Hm as [Hm Hms].
  eapply (safe_bind _ _ (λ r, suffix_of r.2 data ∧ stage_ok k r.1)).
  { destruct (Z.eqb_spec m 0); [split; [apply suffix_refl|done]|].
    pose proof (hash_reads k data Hb) as Hh. unfold lift_opt in *. destruct (split_at_checked data _) as [[h d]|]; [|done].
    cbn [ok_or mbind outcome_bind] in *. destruct (from_bytes_or_panic h) as [i| |]; [|done..].
    cbn [mbind outcome_bind safe fst snd] in *. destruct Hh as ([R _] & _ & Ho & Hk). split; [done|]. cbn. split; [lia|done]. }
  intros [s d] [R Hs]. cbn [fst snd] in *. eapply safe_bind; [apply IH; [by eapply suffix_bytes_ok|done]|].
  intros [ss d'] (R' & Hl & Hss). cbn [safe fst snd] in *. split; [by eapply suffix_trans|]. split; [cbn; lia|by constructor].
Qed.
Lemma read_resolve_path_reads k data :
  bytes_ok data → safe (read_resolve_path (len_in_bytes k) data) (λ r, rest_of data r ∧ resolve_ok k r.1).
Proof.
  intros Hb. unfold read_resolve_path.
  eapply safe_bind; [by apply name_reads|]. intros [p d0] (R0 & Hp & B0 & Hn). cbn [fst snd] in *.
  eapply safe_bind; [by apply read_mode_reads|]. intros [m0 d1] (R1 & B1 & H0). cbn [fst snd] in *.
  eapply safe_bind; [by apply read_mode_reads|]. intros [m1 d2] (R2 & B2 & H1). cbn [fst snd] in *.
  eapply safe_bind; [by apply read_mode_reads|]. intros [m2 d3] (R3 & B3 & H2). cbn [fst snd] in *.
  eapply safe_bind; [apply read_stages_reads; [done|do 3 (constructor; [done|]); constructor]|]. intros [ss d4] (R4 & Hl & Hs). cbn [safe fst snd] in *.
  unfold rest_of in *. cbn [fst snd] in *. split; [eapply suffix_shorter; [exact R4|]; eauto using shorter_trans|].
  by split.
Qed.
Lemma resolve_undo_loop_safe k fuel : ∀ data out,
  bytes_ok data → (length data ≤ fuel)%nat → Forall (resolve_ok k) out →
  safe (resolve_undo_loop fuel (len_in_bytes k) data out) (Forall (resolve_ok k)).
Proof.
  induction fuel as [|fuel IH]; intros data out Hb Hf Ho; destruct data as [|b data]; cbn [resolve_undo_loop]; try done.
  { cbn in Hf. lia. }
  eapply safe_bind; [by apply read_resolve_path_reads|]. intros [p d] [R Hp]. cbn [fst] in Hp.
  apply IH; [by eapply (rest_bytes_ok _ (p, d))|destruct R; cbn in *; lia|]. apply Forall_app_2; [done|by apply Forall_singleton].
Qed.
Lemma resolve_undo_decode_safe data k : bytes_ok data → safe (resolve_undo_decode data k) (Forall (resolve_ok k)).
Proof. intros Hb. by apply resolve_undo_loop_safe. Qed.

Lemma read_u64_range data x d : bytes_ok data → read_u64 data = Some (x, d) → 0 ≤ x < 2 ^ 64.
Proof.
  intros Hb. unfold read_u64. destruct (split_at_checked data 8) as [[n r]|] eqn:E; [|done]. cbn [mbind option_bind].
  intros [= <- _]. apply split_at_Some in E as [-> Hn]. apply bytes_ok_app in Hb as [Hb _]. by apply from_be_u64.
Qed.
Lemma fs_monitor_decode_safe data : bytes_ok data → safe (fs_monitor_decode data) fsm_ok.
Proof.
  intros Hb. unfold fs_monitor_decode.
  eapply safe_bind; [apply read_u32_reads|]. intros [v d0] R0. pose proof (rest_bytes_ok _ _ Hb R0) as B0. cbn [snd] in B0.
  eapply (safe_bind _ _ (λ r, bytes_ok r.2 ∧ token_ok r.1)).
  { destruct (v =? 1); [|destruct (v =? 2); [|done]].
    - pose proof (read_u64_reads d0) as R. unfold lift_opt in *. destruct (read_u64 d0) as [[n d]|] eqn:E; [|done].
      cbn [ok_or mbind outcome_bind safe fst snd] in *. split; [by eapply (rest_bytes_ok _ (n, d))|]. by eapply read_u64_range.
    - eapply safe_bind; [by apply name_reads|]. intros [t d] (R & Ht & B & Hn). by split. }
  intros [t d1] [B1 Ht]. cbn [fst snd] in *.
  eapply safe_bind; [apply read_u32_reads|]. intros [n d2] R2. pose proof (rest_bytes_ok _ _ B1 R2) as B2. cbn [snd] in B2.
  unfold lift_opt at 1. destruct (split_at_checked d2 n) as [[bm d3]|] eqn:E; [|done]. cbn [ok_or mbind outcome_bind].
  apply split_at_Some in E as [-> _]. apply bytes_ok_app in B2 as [Bm _].
  eapply safe_bind; [by apply bitmap_reads|]. intros [bv br] [_ Hv]. apply safe_ensure. intros _. by split.
Qed.
Lemma link_decode_safe data k : bytes_ok data → safe (link_decode data k) (link_ok k).
Proof.
  intros Hb. unfold link_decode. apply safe_ok_or. intros [h d] E. apply split_at_Some in E as [-> Hl].
  apply bytes_ok_app in Hb as [Hh Hd]. destruct (oid_reads (E := extension_error) h _ k eq_refl Hl) as (i & -> & Hs & Hk).
  cbn [mbind outcome_bind]. assert (oid_ok i) as Hi by (split; by rewrite Hs, ?Hk).
  destruct (zlen d =? 0); [by split|].
  destruct (decode_sound d Hd) as [(v & r & -> & Hv & ->)|[e ->]]; [|done]. cbn [map_err mbind outcome_bind].
  apply bytes_ok_app in Hd as [_ Hr].
  destruct (decode_sound r Hr) as [(v' & r' & -> & Hv' & ->)|[e ->]]; [|done]. cbn [map_err mbind outcome_bind].
  apply safe_ensure. intros _. split; [done|done|]. intros b [= <-]. done.
Qed.

(** ** Iterating over extensions *)
Definition ext_bytes (e : bytes * bytes) : bytes := e.1 ++ to_be 4 (zlen e.2) ++ e.2.

(** A step takes an extension, or ends. *)
Lemma iter_next_spec {E} it :
  bytes_ok (iter_data it) →
  ∃ it' r, iter_next (E := E) it = Ok (it', r) ∧
    match r with
    | Some e => zlen e.1 = 4 ∧ iter_data it = ext_bytes e ++ iter_data it' ∧
                consumed it' = consumed it + zlen (ext_bytes e) ∧ bytes_ok e.1 ∧ bytes_ok e.2
    | None => consumed it ≤ consumed it' ≤ consumed it + zlen (iter_data it)
    end.
Proof.
  intros Hb. unfold iter_next. pose proof (zlen_nonneg (iter_data it)). destruct (Z.ltb_spec (zlen (iter_data it)) (4 + 4)).
  { eexists it, None. split; [done|]. lia. }
  rewrite (split_at_in _ 4) by lia. cbn [expect mbind outcome_bind].
  rewrite (split_at_in _ 4) by (unfold zlen in *; rewrite length_drop; lia). cbn [expect mbind outcome_bind].
  set (sig := take (Z.to_nat 4) (iter_data it)). set (r := drop (Z.to_nat 4) (iter_data it)).
  set (sz := take (Z.to_nat 4) r). set (d := drop (Z.to_nat 4) r).
  assert (iter_data it = sig ++ sz ++ d) as Hd by (unfold sz, d, r, sig; by rewrite !take_drop).
  assert (zlen sig = 4 ∧ zlen sz = 4) as [Hsig Hsz].
  { unfold sig, sz, r, zlen in *. rewrite !length_take, length_drop. lia. }
  rewrite Hd, !bytes_ok_app in Hb. destruct Hb as (Bs & Bz & Bd).
  pose proof (from_be_u32 sz Bz Hsz) as Hr. rewrite get_range_start by lia.
  destruct (Z.leb_spec (from_be sz) (zlen d)).
  - rewrite get_from_in by lia. cbn [expect mbind outcome_bind]. eexists _, (Some (_, _)). split; [done|].
    cbn [fst snd iter_data consumed]. unfold ext_bytes. cbn [fst snd].
    assert (zlen (take (Z.to_nat (from_be sz)) d) = from_be sz) as Hl by (unfold zlen in *; rewrite length_take; lia).
    rewrite Hl. assert (to_be 4 (from_be sz) = sz) as -> by (replace 4%nat with (length sz) by (unfold zlen in Hsz; lia); by apply to_from_be).
    split; [done|]. split; [by rewrite <- !app_assoc, take_drop|]. rewrite !zlen_app, Hl.
    split; [lia|]. split; [done|]. by apply Forall_take.
  - eexists _, None. split; [done|]. cbn [consumed]. rewrite Hd, !zlen_app. pose proof (zlen_nonneg d). lia.
Qed.

(** ** The end of index extension *)
Lemma eoie_loop_safe fuel : ∀ it hashed last_end,
  bytes_ok (iter_data it) → safe (eoie_loop fuel it hashed last_end) (λ _, True).
Proof.
  induction fuel as [|fuel IH]; intros it hashed last_end Hb; [done|]. cbn [eoie_loop].
  destruct (iter_next_spec (E := extension_error) it Hb) as (it' & r & -> & Hr). cbn [mbind outcome_bind].
  destruct r as [[sig chunk]|]; [|done]. destruct Hr as (_ & Hd & _). apply IH. rewrite Hd in Hb. by apply bytes_ok_app in Hb as [_ Hb].
Qed.
Lemma eoie_decode_safe try_finalize data k :
  bytes_ok data → zlen data < 2 ^ 64 → (∀ b, try_finalize k b ≠ Panic) →
  safe (eoie_decode try_finalize data k) (λ o, ∀ ofs, o = Some ofs →
    HEADER_SIZE ≤ ofs ∧ ofs + 32 + len_in_bytes k ≤ zlen data ∧ k = Sha1).
Proof.
  intros Hb Hlen Hh. unfold eoie_decode. pose proof (len_in_bytes_range k) as Hk. pose proof (zlen_nonneg data).
  assert (EOIE_MIN_SIZE_WITH_HEADER = 32) as Hm by done. rewrite Hm. assert (EOIE_MIN_SIZE = 24) as Hm' by done.
  destruct (Z.ltb_spec (zlen data) (32 + len_in_bytes k)); [done|].
  unfold op_sub, checked_sub. rewrite !checked_in by lia. cbn [expect mbind outcome_bind]. rewrite !checked_in by lia.
  cbn [expect mbind outcome_bind]. set (start := zlen data - 32 - len_in_bytes k).
  rewrite get_range_in by lia. cbn [expect mbind outcome_bind]. unfold extension_header.
  set (ext := take _ _). assert (zlen ext = 32) as He.
  { unfold ext, start, zlen in *. rewrite length_take, length_drop. lia. }
  assert (bytes_ok ext) as Be by by apply Forall_take, Forall_drop.
  rewrite (split_at_in _ 4) by lia. cbn [expect mbind outcome_bind].
  rewrite (split_at_in _ 4) by (unfold zlen in *; rewrite length_drop; lia). cbn [expect mbind outcome_bind].
  destruct (_ || _); [done|]. rewrite drop_drop.
  rewrite (split_at_in _ 4) by (unfold zlen in *; rewrite length_drop; lia). cbn [expect mbind outcome_bind]. rewrite drop_drop.
  destruct (try_from_bytes _) as [c| |] eqn:Ec; [|done|].
  2:{ unfold try_from_bytes in Ec. repeat case_match; done. }
  assert (Hash.kind c = Sha1) as Hc.
  { unfold try_from_bytes in Ec. unfold zlen in Ec, He. rewrite length_drop in Ec.
    replace (Z.of_nat (length ext - _)) with 20 in Ec by lia. cbn in Ec. by injection Ec as <-. }
  destruct (_ || _) eqn:Eo; [done|]. apply orb_false_iff in Eo as [[Eo1 Eo2]%orb_false_iff Ek].
  apply Z.ltb_ge in Eo1, Eo2. apply negb_false_iff, bool_decide_eq_true in Ek. unfold HEADER_SIZE in *.
  rewrite get_range_in by lia. cbn [expect mbind outcome_bind].
  eapply safe_bind; [by apply eoie_loop_safe, Forall_take, Forall_drop|]. intros [h l] _.
  specialize (Hh h). destruct (try_finalize k h) as [a| |]; [|done|done]. cbn [mbind outcome_bind].
  destruct (negb _); [done|]. cbn [safe]. intros ofs Hofs. destruct l as [l|]; [|done]. destruct (_ =? _); [|done].
  apply (inj Some) in Hofs. subst start. split; [lia|]. split; [lia|congruence].
Qed.

(** ** Numbers as text *)
Lemma value_from_app radix a b acc : value_from radix acc (a ++ b) = v ← value_from radix acc a; value_from radix v b.
Proof.
  revert acc. induction a as [|x a IH]; intros acc; cbn; [done|]. destruct (to_digit x radix); cbn; [apply IH|done].
Qed.
Lemma to_digit_digit d radix : 0 ≤ d < radix → radix ≤ 10 → to_digit (48 + d) radix = Some d.
Proof. intros Hd Hr. unfold to_digit. zb; try lia; f_equal; lia. Qed.

Section Format.
Context (radix : Z) (Hradix : 2 ≤ radix ≤ 10).
Lemma format_loop_spec fuel : ∀ n acc,
  0 ≤ n < radix ^ Z.of_nat fuel → fuel ≠ O →
  ∃ ds, format_loop fuel radix n acc = ds ++ acc ∧ value_from radix 0 ds = Some n ∧
    Forall (λ b, 48 ≤ b < 58) ds ∧ ds ≠ [].
Proof using Hradix.
  induction fuel as [|fuel IH]; intros n acc Hn Hf; [done|]. cbn [format_loop].
  pose proof (Z.mod_pos_bound n radix ltac:(lia)) as Hm. pose proof (Z.div_mod n radix ltac:(lia)) as Hdm.
  destruct (Z.ltb_spec n radix).
  - exists [48 + n mod radix]. split; [done|]. rewrite Z.mod_small by lia. cbn. rewrite to_digit_digit by lia. cbn.
    split; [done|]. split; [|done]. repeat constructor; lia.
  - rewrite Nat2Z.inj_succ, Z.pow_succ_r in Hn by lia.
    assert (1 ≤ n / radix) by (apply Z.div_le_lower_bound; lia).
    assert (n / radix < radix ^ Z.of_nat fuel) by (apply Z.div_lt_upper_bound; lia).
    assert (fuel ≠ O) by (intros ->; cbn in *; lia).
    destruct (IH (n / radix) (48 + n mod radix :: acc)) as (ds & -> & Hv & Hd & Hne); [lia|done|].
    exists (ds ++ [48 + n mod radix]). rewrite <- app_assoc. split; [done|]. rewrite value_from_app, Hv. cbn [mbind option_bind].
    cbn [value_from]. rewrite to_digit_digit by lia. cbn [mbind option_bind]. split; [f_equal; lia|].
    split; [apply Forall_app_2; [done|repeat constructor; lia]|]. by destruct ds.
Qed.
Lemma format_spec n :
  0 ≤ n < 2 ^ 64 →
  value radix (format radix n) = Some n ∧ Forall (λ b, 48 ≤ b < 58) (format radix n) ∧ format radix n ≠ [].
Proof using Hradix.
  intros Hn. unfold format. assert (2 ^ 64 ≤ radix ^ Z.of_nat 64) by (apply Z.pow_le_mono_l; lia).
  destruct (format_loop_spec 64 n []) as (ds & -> & Hv & Hd & Hne); [lia|done|]. rewrite app_nil_r.
  split; [|done]. unfold value. by destruct ds.
Qed.
End Format.

Lemma digits_not x l : Forall (λ b, 48 ≤ b < 58) l → ¬ 48 ≤ x < 58 → x ∉ l.
Proof. intros Hl Hx Hin. rewrite list.Forall_forall in Hl. specialize (Hl x Hin). lia. Qed.
Lemma format_unsigned n : 0 ≤ n < 2 ^ 64 → to_unsigned usize (format 10 n) = Ok n.
Proof.
  intros Hn. destruct (format_spec 10 ltac:(lia) n Hn) as (Hv & _ & _). unfold to_unsigned.
  apply to_unsigned_with_radix_spec; [lia|]. split; [done|]. cbn [MAX usize]. lia.
Qed.
Lemma format_signed_spec n : -1 ≤ n < 2 ^ 31 → to_signed i32 (format_signed n) = Ok n.
Proof.
  intros Hn. unfold to_signed. destruct (to_signed_with_radix_exact i32 (format_signed n) 10 ltac:(lia)) as [Hs _]. apply Hs.
  cbn [MIN MAX i32]. split; [|lia]. unfold format_signed. destruct (Z.ltb_spec n 0).
  - assert (n = -1) as -> by lia. vm_compute. done.
  - destruct (format_spec 10 ltac:(lia) n ltac:(lia)) as (Hv & Hd & Hne). unfold signed_value.
    destruct (format 10 n) as [|c r]; [done|]. apply list.Forall_cons in Hd as [Hc _].
    destruct (Z.eqb_spec c 43); [lia|]. destruct (Z.eqb_spec c 45); [lia|done].
Qed.
Lemma format_signed_no n x : -1 ≤ n < 2 ^ 31 → x ≠ 45 → ¬ 48 ≤ x < 58 → x ∉ format_signed n.
Proof.
  intros Hn H45 Hx. unfold format_signed. destruct (Z.ltb_spec n 0).
  - intros [->|Hin]%list.elem_of_cons; [done|]. revert Hin. apply digits_not; [|done].
    apply (format_spec 10 ltac:(lia) (- n)). lia.
  - apply digits_not; [|done]. apply (format_spec 10 ltac:(lia) n). lia.
Qed.
Lemma format_octal n : 0 ≤ n < 2 ^ 32 → parse_octal (format 8 n) = Some n.
Proof.
  intros Hn. destruct (format_spec 8 ltac:(lia) n ltac:(lia)) as (Hv & Hd & Hne). unfold parse_octal.
  destruct (format 8 n) as [|c r]; [done|]. apply list.Forall_cons in Hd as [Hc _].
  destruct (Z.eqb_spec c 43); [lia|]. rewrite Hv. cbn [mbind option_bind]. by apply checked_in.
Qed.
Lemma split_byte_app x b rest : b ∉ x → x ++ [b] ++ rest ≠ [b] → split_at_byte_exclusive (x ++ [b] ++ rest) b = Some (x, rest).
Proof.
  intros Hx Hne. unfold split_at_byte_exclusive.
  assert (2 ≤ zlen (x ++ [b] ++ rest)).
  { unfold zlen. rewrite !length_app. cbn. destruct x, rest; cbn in *; try lia. congruence. }
  destruct (Z.ltb_spec (zlen (x ++ [b] ++ rest)) 2); [lia|].
  assert (position (λ y, y =? b) (x ++ [b] ++ rest) = Some (zlen x)) as ->.
  { apply position_Some. exists x, b, rest. split; [done|]. split; [done|]. split; [apply Z.eqb_refl|].
    apply list.Forall_forall. intros y Hy. apply Z.eqb_neq. intros ->. done. }
  unfold zlen. rewrite Nat2Z.id, take_app_length. replace (S (length x)) with (length x + 1)%nat by lia.
  by rewrite drop_app_add.
Qed.

(** ** Trees: what is written *)
Section TreeInd.
Context (P : Tree → Prop) (HP : ∀ t, Forall P (children t) → P t).
Fixpoint Tree_nested_ind (t : Tree) : P t :=
  HP t ((fix go (cs : list Tree) : Forall P cs :=
           match cs with
           | [] => Forall_nil_2 _
           | c :: cs => Forall_cons_2 _ _ _ (Tree_nested_ind c) (go cs)
           end) (children t)).
End TreeInd.

Lemma tree_ok_inv k t :
  tree_ok k t →
  0 ∉ tree_name t ∧ oid_ok (tree_id t) ∧ Hash.kind (tree_id t) = k ∧
  match num_entries t with Some n => 0 ≤ n < 2 ^ 31 | None => tree_id t = null k end ∧
  StronglySorted name_lt (children t) ∧ Forall (tree_ok k) (children t).
Proof. by intros []. Qed.
Fixpoint tree_text (t : Tree) : bytes :=
  tree_head t ++ (match num_entries t with Some _ => as_slice (tree_id t) | None => [] end)
  ++ concat (List.map tree_text (children t)).

Lemma tree_entry_ok k t : tree_ok k t → tree_entry (Some k) t = Ok (tree_text t).
Proof.
  induction t as [t IH] using Tree_nested_ind. intros Ht. apply tree_ok_inv in Ht as (_ & _ & Hk & _ & _ & Hall).
  rewrite <- (List.app_nil_r (tree_text t)).
  assert (∀ cs out, Forall (λ c, tree_ok k c → tree_entry (Some k) c = Ok (tree_text c)) cs → Forall (tree_ok k) cs →
    (fix go (cs : list Tree) (out : bytes) : outcome extension_error bytes :=
       match cs with [] => Ok out | c :: cs => child ← tree_entry (Some k) c; go cs (out ++ child) end) cs out
    = Ok (out ++ concat (List.map tree_text cs))) as Hgo.
  { clear. induction cs as [|c cs IHc]; intros out H1 H2; cbn [List.map concat]; [by rewrite app_nil_r|].
    apply list.Forall_cons in H1 as [Hc H1], H2 as [Hc2 H2]. rewrite (Hc Hc2). cbn [mbind outcome_bind].
    rewrite IHc by done. by rewrite app_assoc. }
  rewrite app_nil_r. destruct t as [nm i ne cs]. cbn [tree_entry tree_text children num_entries tree_id] in *.
  destruct ne as [n|].
  - rewrite bool_decide_true by done. cbn [ensure mbind outcome_bind]. rewrite Hgo by done. by rewrite <- app_assoc.
  - cbn [mbind outcome_bind]. rewrite Hgo by done. done.
Qed.

Lemma strongly_sorted_impl {A} (R S : A → A → Prop) l :
  (∀ x y, R x y → S x y) → StronglySorted R l → StronglySorted S l.
Proof. intros H. induction 1 as [|x l Hs IH Hx]; constructor; [done|]. eapply Forall_impl; [|exact Hx]. intros y. apply H. Qed.
Lemma sort_by_id {A} (cmp : A → A → comparison) l : StronglySorted (λ x y, cmp x y = Lt) l → sort_by cmp l = l.
Proof.
  unfold sort_by. induction 1 as [|x l Hs IH Hx]; cbn; [done|]. rewrite IH. destruct l as [|y l]; [done|].
  cbn. apply list.Forall_cons in Hx as [-> _]. done.
Qed.
Lemma dedup_by_id {A} (same : A → A → bool) l :
  StronglySorted (λ x y, same x y = false) l → dedup_by same l = l.
Proof.
  destruct l as [|x l]; [done|]. cbn. intros [Hs Hx]%StronglySorted_inv. f_equal. revert x Hx.
  induction Hs as [|y l Hs IH Hy]; intros x Hx; [done|]. cbn. apply list.Forall_cons in Hx as [-> _]. f_equal. by apply IH.
Qed.

Lemma tree_text_pos t : (2 ≤ length (tree_text t))%nat.
Proof.
  destruct t as [nm i ne cs]. cbn [tree_text]. unfold tree_head. rewrite !length_app. cbn [length]. lia.
Qed.
Lemma for_count_pushes {A} (read : bytes → outcome () (A * bytes)) (text : A → bytes) xs : ∀ fuel acc rest,
  (∀ x r, x ∈ xs → read (text x ++ r) = Ok (x, r)) → (length xs < fuel)%nat →
  for_count (pushes read) fuel (zlen xs) acc (concat (List.map text xs) ++ rest) = Ok (acc ++ xs, rest).
Proof.
  induction xs as [|x xs IH]; intros fuel acc rest Hr Hf; destruct fuel as [|fuel]; try (cbn in Hf; lia).
  { cbn. by rewrite app_nil_r. }
  cbn [for_count]. destruct (Z.leb_spec (zlen (x :: xs)) 0); [unfold zlen in *; cbn in *; lia|].
  cbn [List.map concat]. rewrite <- app_assoc.
  assert (∀ r, pushes read acc (text x ++ r) = Ok (acc ++ [x], r)) as -> by (intros r; unfold pushes; by rewrite Hr by by left).
  cbn [mbind outcome_bind].
  replace (zlen (x :: xs) - 1) with (zlen xs) by (unfold zlen; cbn [length]; lia).
  rewrite IH; [by rewrite <- app_assoc|intros; apply Hr; by right|cbn in Hf; lia].
Qed.
Lemma concat_text_length {A} (text : A → bytes) xs :
  (∀ x, x ∈ xs → 1 ≤ length (text x))%nat → (length xs ≤ length (concat (List.map text xs)))%nat.
Proof.
  induction xs as [|x xs IH]; intros H; cbn; [lia|]. rewrite length_app. pose proof (H x ltac:(by left)).
  pose proof (IH ltac:(intros; apply H; by right)). lia.
Qed.
Lemma concat_text_elem {A} (text : A → bytes) xs x :
  x ∈ xs → (length (text x) ≤ length (concat (List.map text xs)))%nat.
Proof.
  induction xs as [|y xs IH]; [by intros ?%not_elem_of_nil|]. cbn. rewrite length_app.
  intros [->|Hx]%list.elem_of_cons; [lia|]. specialize (IH Hx). lia.
Qed.

Lemma one_recursive_text k t : ∀ fuel rest,
  tree_ok k t → (length (tree_text t) < fuel)%nat → zlen (tree_text t) < 2 ^ 64 →
  one_recursive fuel (len_in_bytes k) None (tree_text t ++ rest) = Ok (t, rest).
Proof.
  induction t as [t IH] using Tree_nested_ind. intros [|fuel] rest Ht Hf Hlen; [lia|].
  apply tree_ok_inv in Ht as (Hn0 & Hoid & Hk & Hne & Hss & Hall). rewrite list.Forall_forall in IH, Hall.
  destruct t as [nm i ne cs]. cbn [tree_name tree_id num_entries children] in *. cbn [tree_text] in *.
  cbn [tree_name tree_id num_entries children] in *. unfold tree_head in *. cbn [tree_name num_entries children] in *.
  set (sub := concat (List.map tree_text cs)) in *. rewrite <- !app_assoc. cbn [one_recursive]. unfold lift_opt.
  assert (-1 ≤ default (-1) ne < 2 ^ 31) as Hd by (destruct ne; cbn; lia).
  assert (length cs ≤ length sub)%nat as Hcs by (apply concat_text_length; intros x _; pose proof (tree_text_pos x); lia).
  unfold zlen in Hlen. rewrite !length_app in Hlen. rewrite !length_app in Hf. cbn [length] in Hlen, Hf.
  assert (0 ≤ zlen cs < 2 ^ 64) as Hz by (unfold zlen; lia).
  destruct (format_spec 10 ltac:(lia) (zlen cs) Hz) as (_ & Hdig & Hnn).
  rewrite split_byte_app; [|done|].
  2:{ intros He. apply (f_equal length) in He. rewrite !length_app in He. cbn in He. lia. }
  cbn [ok_or mbind outcome_bind]. rewrite split_byte_app; [|by apply format_signed_no; lia|].
  2:{ intros He. apply (f_equal length) in He. rewrite !length_app in He. cbn in He. lia. }
  cbn [ok_or mbind outcome_bind]. rewrite format_signed_spec by done. cbn [map_err mbind outcome_bind].
  rewrite split_byte_app; [|apply digits_not; [done|lia]|].
  2:{ intros He. destruct (format 10 (zlen cs)); [done|]. apply (f_equal length) in He. cbn in He. rewrite !length_app in He. cbn in He. lia. }
  cbn [ok_or mbind outcome_bind]. rewrite format_unsigned by done. cbn [map_err mbind outcome_bind over_limit negb ensure].
  set (hash := match ne with Some _ => as_slice i | None => [] end).
  transitivity ('(subtrees, data) ← for_count (pushes (one_recursive fuel (len_in_bytes k) None)) (S (length (sub ++ rest))) (zlen cs) [] (sub ++ rest);
    let sorted := sort_by (λ a b, bytes_cmp (tree_name a) (tree_name b)) subtrees in
    let unique := dedup_by (λ a b, bytes_eqb (tree_name a) (tree_name b)) sorted in
    _ ← ensure (zlen sorted =? zlen unique) tt;
    Ok ({| tree_name := nm; tree_id := i; num_entries := ne; children := unique |}, data) : outcome () (Tree * bytes)).
  { unfold hash. destruct ne as [n|].
    - change (default (-1) (Some n)) with n. destruct (Z.leb_spec 0 n); [|lia]. rewrite split_at_app by (destruct Hoid as [-> _]; by rewrite Hk). cbn [ok_or mbind outcome_bind].
      rewrite from_bytes_or_panic_slice by done. cbn [mbind outcome_bind]. done.
    - change (default (-1) None) with (-1). destruct (Z.leb_spec 0 (-1)); [lia|]. rewrite from_hex_len_of. cbn [expect mbind outcome_bind app]. by rewrite Hne. }
  assert (∀ c r, c ∈ cs → one_recursive fuel (len_in_bytes k) None (tree_text c ++ r) = Ok (c, r)) as Hread.
  { intros c r Hc. pose proof (concat_text_elem tree_text cs c Hc) as Hcl. fold sub in Hcl.
    apply IH; [done|by apply Hall|lia|unfold zlen; lia]. }
  unfold sub. rewrite for_count_pushes; [|done|rewrite length_app; fold sub; lia]. cbn [mbind outcome_bind app]. cbn zeta.
  rewrite sort_by_id by done. rewrite dedup_by_id.
  - rewrite Z.eqb_refl. cbn [ensure mbind outcome_bind]. done.
  - eapply strongly_sorted_impl; [|exact Hss]. intros a b Hab. unfold name_lt in Hab. unfold bytes_eqb.
    apply bool_decide_eq_false. intros He. by rewrite He, bytes_cmp_refl in Hab.
Qed.
Lemma tree_decode_text k t : tree_ok k t → zlen (tree_text t) < 2 ^ 64 → tree_decode (tree_text t) k None = Ok t.
Proof.
  intros Ht Hl. unfold tree_decode. rewrite <- (app_nil_r (tree_text t)) at 2. rewrite one_recursive_text by (done || lia). done.
Qed.

(** ** The other extensions: what is written *)
Definition stage_text (s : option UndoStage) : bytes := format 8 (stage_mode s) ++ [0].
Definition stage_id (s : option UndoStage) : bytes := match s with Some s => as_slice (undo_id s) | None => [] end.
Definition resolve_text (p : ResolvePath) : bytes :=
  undo_name p ++ [0] ++ concat (stage_text <$> stages p) ++ concat (stage_id <$> stages p).

Lemma resolve_undo_entries_ok k paths :
  Forall (resolve_ok k) paths → resolve_undo_entries k paths = Ok (concat (List.map resolve_text paths)).
Proof.
  induction 1 as [|p paths [_ _ _ Hs] _ IH]; cbn [resolve_undo_entries List.map concat]; [done|].
  assert (stage_ids k (stages p) = Ok (concat (stage_id <$> stages p))) as ->.
  { induction Hs as [|s l Hs _ IHs]; [done|]. cbn [stage_ids]. destruct s as [s|]; [|exact IHs].
    destruct Hs as (_ & _ & Hk). rewrite bool_decide_true by done. cbn [ensure mbind outcome_bind]. by rewrite IHs. }
  cbn [mbind outcome_bind]. rewrite IH. cbn [mbind outcome_bind]. unfold resolve_text. by rewrite <- !app_assoc.
Qed.
Lemma read_mode_text k s rest : stage_ok k s → read_mode (stage_text s ++ rest) = Ok (stage_mode s, rest).
Proof.
  intros Hs. unfold read_mode, stage_text, lift_opt.
  assert (0 ≤ stage_mode s < 2 ^ 32) as Hm by (destruct s as [s|]; cbn; [destruct Hs; lia|lia]).
  destruct (format_spec 8 ltac:(lia) (stage_mode s) ltac:(lia)) as (_ & Hd & Hne).
  rewrite <- app_assoc, split_byte_app; [|apply digits_not; [done|lia]|].
  2:{ intros He. destruct (format 8 (stage_mode s)); [done|]. apply (f_equal length) in He. cbn in He. rewrite length_app in He. cbn in He. lia. }
  cbn [ok_or mbind outcome_bind]. rewrite format_octal by done. done.
Qed.
Lemma read_stages_text k l : ∀ rest,
  Forall (stage_ok k) l →
  read_stages (len_in_bytes k) (stage_mode <$> l) (concat (stage_id <$> l) ++ rest) = Ok (l, rest).
Proof.
  induction l as [|s l IH]; intros rest Hl; [done|]. apply list.Forall_cons in Hl as [Hs Hl].
  rewrite !fmap_cons. cbn [concat read_stages]. rewrite <- app_assoc. destruct s as [s|]; cbn [stage_mode stage_id].
  - destruct Hs as (Hm & Ho & Hk). destruct (Z.eqb_spec (undo_mode s) 0); [lia|]. unfold lift_opt.
    rewrite split_at_app by (destruct Ho as [-> _]; by rewrite Hk). cbn [ok_or mbind outcome_bind].
    rewrite from_bytes_or_panic_slice by done. cbn [mbind outcome_bind]. rewrite IH by done. by destruct s.
  - cbn [mbind outcome_bind Z.eqb app]. by rewrite IH.
Qed.
Lemma read_resolve_path_text k p rest :
  resolve_ok k p → read_resolve_path (len_in_bytes k) (resolve_text p ++ rest) = Ok (p, rest).
Proof.
  intros [_ Hz Hl Hs]. destruct p as [nm st]. cbn [undo_name stages] in *. unfold read_resolve_path, resolve_text. cbn [undo_name stages].
  destruct st as [|a [|b [|c [|? ?]]]]; try done.
  apply list.Forall_cons in Hs as [Ha Hs]. pose proof Hs as [Hb Hs']%list.Forall_cons. apply list.Forall_cons in Hs' as [Hc _].
  rewrite <- !app_assoc. unfold lift_opt. rewrite split_byte_app; [|done|].
  2:{ intros He. apply (f_equal length) in He. unfold stage_text in He. cbn in He. rewrite !length_app in He. cbn in He. rewrite !length_app in He. cbn in He. lia. }
  cbn [ok_or mbind outcome_bind]. rewrite !fmap_cons. cbn [concat]. rewrite <- !app_assoc.
  rewrite (read_mode_text k) by done. cbn [mbind outcome_bind]. rewrite (read_mode_text k) by done. cbn [mbind outcome_bind].
  rewrite (read_mode_text k) by done. cbn [mbind outcome_bind fmap list_fmap concat app].
  pose proof (read_stages_text k [a; b; c] rest) as Hr. rewrite !fmap_cons in Hr. cbn [fmap list_fmap concat] in Hr.
  rewrite <- !app_assoc in Hr. cbn [app] in Hr. rewrite Hr by (by repeat (apply Forall_cons_2; [done|])). done.
Qed.
Lemma resolve_text_pos p : (1 ≤ length (resolve_text p))%nat.
Proof. unfold resolve_text. rewrite !length_app. cbn. lia. Qed.
Lemma resolve_undo_loop_text k paths : ∀ fuel out,
  Forall (resolve_ok k) paths → (length (concat (List.map resolve_text paths)) ≤ fuel)%nat →
  resolve_undo_loop fuel (len_in_bytes k) (concat (List.map resolve_text paths)) out = Ok (out ++ paths).
Proof.
  induction paths as [|p paths IH]; intros fuel out Hall Hf; cbn [List.map concat] in *.
  { destruct fuel; cbn; by rewrite app_nil_r. }
  apply list.Forall_cons in Hall as [Hp Hall]. rewrite length_app in Hf. pose proof (resolve_text_pos p).
  destruct fuel as [|fuel]; [lia|]. cbn [resolve_undo_loop].
  destruct (resolve_text p ++ concat (List.map resolve_text paths)) eqn:E.
  { apply (f_equal length) in E. rewrite length_app in E. cbn in E. lia. }
  rewrite <- E, (read_resolve_path_text k) by done. cbn [mbind outcome_bind]. rewrite IH by (done || lia). by rewrite <- app_assoc.
Qed.
Lemma resolve_undo_decode_text k paths :
  Forall (resolve_ok k) paths → resolve_undo_decode (concat (List.map resolve_text paths)) k = Ok paths.
Proof. intros Hp. unfold resolve_undo_decode. by rewrite resolve_undo_loop_text. Qed.

Definition fsm_text (f : FsMonitor) : bytes :=
  match token f with
  | TokenV1 nanos => to_be 4 1 ++ to_be 8 nanos
  | TokenV2 token => to_be 4 2 ++ token ++ [0]
  end ++ to_be 4 (zlen (vec_bytes (entry_dirty f))) ++ vec_bytes (entry_dirty f).
Lemma read_u32_be n rest : 0 ≤ n < 2 ^ 32 → lift_opt (read_u32 (to_be 4 n ++ rest)) = Ok (n, rest).
Proof. intros Hn. unfold lift_opt. change read_u32 with decode_u32. by rewrite decode_u32_app. Qed.
Lemma fs_monitor_decode_text f :
  fsm_ok f → zlen (vec_bytes (entry_dirty f)) < 2 ^ 32 → fs_monitor_decode (fsm_text f) = Ok f.
Proof.
  intros [Ht Hv] Hl. unfold fs_monitor_decode, fsm_text. destruct f as [t v]. cbn [token entry_dirty] in *.
  pose proof (zlen_nonneg (vec_bytes v)).
  assert (∀ t', ('(ewah_size, data) ← lift_opt (read_u32 (to_be 4 (zlen (vec_bytes v)) ++ vec_bytes v));
    '(bitmap, data) ← lift_opt (split_at_checked data ewah_size);
    '(entry_dirty, bitmap_rest) ← read_bitmap bitmap;
    _ ← ensure (negb (negb (zlen bitmap_rest =? 0) || negb (zlen data =? 0))) tt;
    Ok {| token := t'; entry_dirty := entry_dirty |}) = Ok {| token := t'; entry_dirty := v |} :> outcome () FsMonitor) as Hrest.
  { intros t'. rewrite read_u32_be by lia. cbn [mbind outcome_bind]. unfold lift_opt.
    rewrite <- (app_nil_r (vec_bytes v)) at 1. rewrite split_at_app by done. cbn [ok_or mbind outcome_bind].
    unfold read_bitmap. rewrite <- (app_nil_r (vec_bytes v)), decode_complete by done. done. }
  destruct t as [n|t]; cbn [token_ok] in Ht.
  - rewrite <- !app_assoc, read_u32_be by lia. cbn [mbind outcome_bind Z.eqb Pos.eqb]. unfold lift_opt at 1, read_u64.
    rewrite split_at_app by (by rewrite zlen_to_be). cbn [mbind option_bind ok_or outcome_bind]. rewrite from_to_be by done.
    apply Hrest.
  - rewrite <- !app_assoc, read_u32_be by lia. cbn [mbind outcome_bind Z.eqb Pos.eqb]. unfold lift_opt at 1.
    rewrite split_byte_app; [|tauto|].
    2:{ intros He. apply (f_equal length) in He. rewrite !length_app, length_to_be in He. cbn in He. lia. }
    cbn [mbind ok_or outcome_bind]. apply Hrest.
Qed.

Definition link_text (l : Link) : bytes :=
  as_slice (shared_index_checksum l)
  ++ match bitmaps l with Some b => vec_bytes (delete_bitmap b) ++ vec_bytes (replace_bitmap b) | None => [] end.
Lemma link_decode_text k l : link_ok k l → link_decode (link_text l) k = Ok l.
Proof.
  intros [Ho Hk Hb]. destruct l as [c b]. cbn [shared_index_checksum bitmaps] in *. unfold link_decode, link_text. cbn [shared_index_checksum bitmaps].
  rewrite split_at_app by (destruct Ho as [-> _]; by rewrite Hk). cbn [ok_or mbind outcome_bind].
  rewrite from_bytes_or_panic_slice by done. cbn [mbind outcome_bind]. destruct b as [[d r]|]; [|done].
  destruct (Hb _ eq_refl) as [Hd Hr]. cbn [delete_bitmap replace_bitmap] in *.
  destruct (Z.eqb_spec (zlen (vec_bytes d ++ vec_bytes r)) 0) as [He|_].
  { unfold zlen, vec_bytes in He. rewrite !length_app, !length_to_be in He. lia. }
  rewrite decode_complete by done. cbn [map_err mbind outcome_bind].
  rewrite <- (app_nil_r (vec_bytes r)), decode_complete by done. done.
Qed.
