(* ===== verification/GitIndexUntracked.v ===== *)
(** * [gix-index/src/extension/untracked_cache.rs]: the untracked cache

    Directories are in one vector, in the order in which they are read; a directory refers to
    its sub-directories by position. *)

From S2P Require Import Prelude Slices Hash Ewah PackEntry GitIndex GitIndexExtensions.

Definition UNTR_SIGNATURE : bytes := [85; 78; 84; 82].
(** [size_of] of a directory, a name and a position *)
Definition DIRECTORY_SIZE : Z := 152.
Definition BSTRING_SIZE : Z := 24.
Definition USIZE_SIZE : Z := 8.

(** ** Reading *)

(** [decode::stat] of [decode/mod.rs] *)
Definition decode_stat (data : bytes) : option (Stat * bytes) :=
  '(ctime_secs, data) ← read_u32 data;
  '(ctime_nsecs, data) ← read_u32 data;
  '(mtime_secs, data) ← read_u32 data;
  '(mtime_nsecs, data) ← read_u32 data;
  '(dev, data) ← read_u32 data;
  '(ino, data) ← read_u32 data;
  '(uid, data) ← read_u32 data;
  '(gid, data) ← read_u32 data;
  '(size, data) ← read_u32 data;
  Some ({| mtime := {| secs := mtime_secs; nsecs := mtime_nsecs |};
           ctime := {| secs := ctime_secs; nsecs := ctime_nsecs |};
           dev := dev; ino := ino; uid := uid; gid := gid; size := size |}, data).

Definition read_name (data : bytes) : outcome () (bytes * bytes) := lift_opt (split_at_byte_exclusive data 0).
(** [directories[index].sub_directories.push(subdir_index)] *)
Definition push_subdir (directories : list Directory) (index subdir_index : Z) : outcome () (list Directory) :=
  d ← expect (get directories index);
  Ok (<[Z.to_nat index :=
        {| dir_name := dir_name d; untracked_entries := untracked_entries d;
           sub_directories := sub_directories d ++ [subdir_index]; dir_stat := dir_stat d;
           exclude_file_oid := exclude_file_oid d; check_only := check_only d |}]> directories).

(** A block takes bytes, so that the number of bytes bounds the depth. *)
Fixpoint decode_directory_block (fuel : nat) (limit : option Z) (directories : list Directory) (data : bytes)
    : outcome () (list Directory * bytes) :=
  match fuel with
  | O => Panic
  | S fuel =>
      '(num_untracked, data) ← var_int data;
      '(num_dirs, data) ← var_int data;
      '(name, data) ← read_name data;
      let max_entries_from_remaining_data := zlen data / 2 in
      _ ← ensure (negb ((max_entries_from_remaining_data <? num_untracked)
                        || (max_entries_from_remaining_data <? num_dirs))) tt;
      _ ← ensure (negb (over_limit limit (saturating_mul num_untracked BSTRING_SIZE)
                        || over_limit limit (saturating_mul num_dirs USIZE_SIZE))) tt;
      '(untracked, data) ← for_count (pushes read_name) (S (length data)) num_untracked [] data;
      let index := zlen directories in
      let directories := directories ++
        [{| dir_name := name; untracked_entries := untracked; sub_directories := []; dir_stat := None;
            exclude_file_oid := None; check_only := false |}] in
      for_count (λ directories data,
          let subdir_index := zlen directories in
          '(directories, rest) ← decode_directory_block fuel limit directories data;
          directories ← push_subdir directories index subdir_index;
          Ok (directories, rest))
        (S (length data)) num_dirs directories data
  end.

Definition set_check_only (directories : list Directory) (index : Z) : outcome () (list Directory) :=
  d ← lift_opt (get directories index);
  Ok (<[Z.to_nat index :=
        {| dir_name := dir_name d; untracked_entries := untracked_entries d; sub_directories := sub_directories d;
           dir_stat := dir_stat d; exclude_file_oid := exclude_file_oid d; check_only := true |}]> directories).
Definition set_stat (s : list Directory * bytes) (index : Z) : outcome () (list Directory * bytes) :=
  let '(directories, data) := s in
  d ← lift_opt (get directories index);
  '(stat, rest) ← lift_opt (decode_stat data);
  Ok (<[Z.to_nat index :=
        {| dir_name := dir_name d; untracked_entries := untracked_entries d; sub_directories := sub_directories d;
           dir_stat := Some stat; exclude_file_oid := exclude_file_oid d; check_only := check_only d |}]> directories, rest).
Definition set_oid (hash_len : Z) (s : list Directory * bytes) (index : Z) : outcome () (list Directory * bytes) :=
  let '(directories, data) := s in
  d ← lift_opt (get directories index);
  '(hash, rest) ← lift_opt (split_at_checked data hash_len);
  id ← from_bytes_or_panic hash;
  Ok (<[Z.to_nat index :=
        {| dir_name := dir_name d; untracked_entries := untracked_entries d; sub_directories := sub_directories d;
           dir_stat := dir_stat d; exclude_file_oid := Some id; check_only := check_only d |}]> directories, rest).

(** What the bitmaps say of the directories. *)
Definition decode_bitmaps (hash_len num_directory_blocks : Z) (directories : list Directory) (data : bytes)
    : outcome () (list Directory) :=
  '(valid, data) ← read_bitmap data;
  '(check_only, data) ← read_bitmap data;
  '(hash_valid, data) ← read_bitmap data;
  _ ← ensure (negb ((num_directory_blocks <? num_bits valid) || (num_directory_blocks <? num_bits check_only)
                    || (num_directory_blocks <? num_bits hash_valid))) tt;
  directories ← for_each_bit set_check_only check_only directories;
  '(directories, data) ← for_each_bit set_stat valid (directories, data);
  '(directories, data) ← for_each_bit (set_oid hash_len) hash_valid (directories, data);
  _ ← ensure (zlen data =? 1) tt;
  Ok directories.

Definition untracked_decode (data : bytes) (object_hash : Kind) (limit : option Z) : outcome () UntrackedCache :=
  _ ← ensure (match list.last data with Some b => b =? 0 | None => false end) tt;
  '(identifier_len, data) ← var_int data;
  '(identifier, data) ← lift_opt (split_at_checked data identifier_len);
  let hash_len := len_in_bytes object_hash in
  '(info_exclude_stat, data) ← lift_opt (decode_stat data);
  '(excludes_file_stat, data) ← lift_opt (decode_stat data);
  '(dir_flags, data) ← lift_opt (read_u32 data);
  '(info_exclude_hash, data) ← lift_opt (split_at_checked data hash_len);
  '(excludes_file_hash, data) ← lift_opt (split_at_checked data hash_len);
  info_exclude_id ← from_bytes_or_panic info_exclude_hash;
  excludes_file_id ← from_bytes_or_panic excludes_file_hash;
  '(exclude_filename_per_dir, data) ← read_name data;
  '(num_directory_blocks, data) ← var_int data;
  let res directories :=
    {| identifier := identifier;
       info_exclude := (if negb (is_null info_exclude_id)
                        then Some {| oid_stat := info_exclude_stat; oid_stat_id := info_exclude_id |} else None);
       excludes_file := (if negb (is_null excludes_file_id)
                         then Some {| oid_stat := excludes_file_stat; oid_stat_id := excludes_file_id |} else None);
       exclude_filename_per_dir := exclude_filename_per_dir; dir_flags := dir_flags; directories := directories |} in
  if num_directory_blocks =? 0 then _ ← ensure (zlen data =? 0) tt; Ok (res [])
  else
    _ ← ensure (negb (zlen data <? num_directory_blocks)) tt;
    _ ← ensure (negb (over_limit limit (saturating_mul num_directory_blocks DIRECTORY_SIZE))) tt;
    '(directories, data) ← decode_directory_block (S (length data)) limit [] data;
    _ ← ensure (zlen directories =? num_directory_blocks) tt;
    directories ← decode_bitmaps hash_len num_directory_blocks directories data;
    Ok (res directories).

(** ** Writing *)
Definition stat_be (s : Stat) : bytes :=
  to_be 4 (secs (ctime s)) ++ to_be 4 (nsecs (ctime s)) ++ to_be 4 (secs (mtime s)) ++ to_be 4 (nsecs (mtime s))
  ++ to_be 4 (dev s) ++ to_be 4 (ino s) ++ to_be 4 (uid s) ++ to_be 4 (gid s) ++ to_be 4 (size s).
Definition default_stat : Stat :=
  {| mtime := {| secs := 0; nsecs := 0 |}; ctime := {| secs := 0; nsecs := 0 |}; dev := 0; ino := 0; uid := 0;
     gid := 0; size := 0 |}.
Definition object_id_bytes (id : ObjectId) (object_hash : Kind) : outcome extension_error bytes :=
  _ ← ensure (zlen (as_slice id) =? len_in_bytes object_hash) WriteInvalid;
  Ok (as_slice id).

(** [visit]: the active directories are on one path, so that there are no more of them than
    directories. *)
Fixpoint visit_directory (fuel : nat) (directories : list Directory) (index : Z) (marks : list bool * list bool)
    : outcome extension_error (list bool * list bool) :=
  match fuel with
  | O => Panic
  | S fuel =>
      let '(active, visited) := marks in
      directory ← ok_or WriteInvalid (get directories index);
      is_active ← expect (get active index);
      _ ← ensure (negb is_active) WriteInvalid;
      is_visited ← expect (get visited index);
      _ ← ensure (negb is_visited) WriteInvalid;
      '(active, visited) ←
        (fix go (subs : list Z) (marks : list bool * list bool) : outcome extension_error (list bool * list bool) :=
           match subs with
           | [] => Ok marks
           | subdir_index :: subs => marks ← visit_directory fuel directories subdir_index marks; go subs marks
           end) (sub_directories directory) (<[Z.to_nat index := true]> active, visited);
      Ok (<[Z.to_nat index := false]> active, <[Z.to_nat index := true]> visited)
  end.
Definition validate_directory_graph (directories : list Directory) : outcome extension_error () :=
  let none := replicate (length directories) false in
  '(_, visited) ← visit_directory (S (S (length directories))) directories 0 (none, none);
  ensure (forallb (λ seen, seen) visited) WriteInvalid.

Fixpoint directory_block (fuel : nat) (directories : list Directory) (index : Z) : outcome extension_error bytes :=
  match fuel with
  | O => Panic
  | S fuel =>
      directory ← expect (get directories index);
      let own := var_int_bytes (zlen (untracked_entries directory)) ++ var_int_bytes (zlen (sub_directories directory))
                 ++ dir_name directory ++ [0] ++ concat ((λ e, e ++ [0]) <$> untracked_entries directory) in
      (fix go (subs : list Z) (out : bytes) : outcome extension_error bytes :=
         match subs with
         | [] => Ok out
         | subdir_index :: subs => b ← directory_block fuel directories subdir_index; go subs (out ++ b)
         end) (sub_directories directory) own
  end.

(** [words[index / 64] |= 1 << (index % 64)] *)
Fixpoint set_words (indices : list Z) (words : list Z) : outcome extension_error (list Z) :=
  match indices with
  | [] => Ok words
  | index :: indices =>
      w ← expect (get words (index / 64));
      set_words indices (<[Z.to_nat (index / 64) := Z.lor w (Z.shiftl 1 (index mod 64))]> words)
  end.
Definition write_bitmap (num_bits : Z) (set_indices : list Z) : outcome extension_error bytes :=
  let num_words := (num_bits + 63) / 64 in
  words ← set_words set_indices (replicate (Z.to_nat num_words) 0);
  num_bits ← expect (checked 32 num_bits);
  len ← expect (checked 32 (num_words + 1));
  Ok (to_be 4 num_bits ++ to_be 4 len ++ to_be 8 (wrap 64 (Z.shiftl num_words 33)) ++ concat (to_be 8 <$> words) ++ to_be 4 0).
(** [enumerate().filter_map(..)] *)
Definition indices_of (f : Directory → bool) (directories : list Directory) : list Z :=
  fst <$> List.filter (λ id, f id.2) (zip (seqZ 0 (zlen directories)) directories).
Fixpoint oid_bytes (object_hash : Kind) (directories : list Directory) : outcome extension_error bytes :=
  match directories with
  | [] => Ok []
  | d :: directories =>
      own ← match exclude_file_oid d with Some id => object_id_bytes id object_hash | None => Ok [] end;
      rest ← oid_bytes object_hash directories;
      Ok (own ++ rest)
  end.

Definition untracked_bytes (u : UntrackedCache) (object_hash : Kind) : outcome extension_error bytes :=
  let stat_of o := match o with Some e => oid_stat e | None => default_stat end in
  let id_of o := match o with Some e => oid_stat_id e | None => null object_hash end in
  id1 ← object_id_bytes (id_of (info_exclude u)) object_hash;
  id2 ← object_id_bytes (id_of (excludes_file u)) object_hash;
  let data := var_int_bytes (zlen (identifier u)) ++ identifier u ++ stat_be (stat_of (info_exclude u))
              ++ stat_be (stat_of (excludes_file u)) ++ to_be 4 (dir_flags u) ++ id1 ++ id2
              ++ exclude_filename_per_dir u ++ [0] ++ var_int_bytes (zlen (directories u)) in
  match directories u with
  | [] => Ok data
  | _ :: _ =>
      let ds := directories u in
      _ ← validate_directory_graph ds;
      blocks ← directory_block (S (length ds)) ds 0;
      valid ← write_bitmap (zlen ds) (indices_of (λ d, bool_decide (is_Some (dir_stat d))) ds);
      check ← write_bitmap (zlen ds) (indices_of check_only ds);
      hashes ← write_bitmap (zlen ds) (indices_of (λ d, bool_decide (is_Some (exclude_file_oid d))) ds);
      ids ← oid_bytes object_hash ds;
      Ok (data ++ blocks ++ valid ++ check ++ hashes
          ++ concat ((λ d, match dir_stat d with Some s => stat_be s | None => [] end) <$> ds) ++ ids ++ [0])
  end.
Definition untracked_write_to (u : UntrackedCache) (object_hash : Kind) (out : CountBytes)
    : outcome extension_error CountBytes :=
  data ← untracked_bytes u object_hash;
  write_extension UNTR_SIGNATURE data Panic out.

(** ** Reading is safe *)
Lemma for_each_bit_safe {St} (step : St → Z → outcome () St) v s (P : St → Prop) :
  (∀ s i, P s → safe (step s i) P) → P s → safe (for_each_bit step v s) P.
Proof.
  intros Hstep Hs. unfold for_each_bit.
  pose proof (for_each_preserves (λ r i, match r with
    | Ok s => match step s i with Ok s => (Ok s, true) | o => (o, false) end | o => (o, false) end) v (λ r, safe r P) (Ok s)) as H.
  destruct (for_each_set_bit _ v (Ok s)) as [r [|]]; cbn [fst] in H.
  - apply H; [|done]. intros r' i Hr'. destruct r' as [s'| |]; [|done..]. specialize (Hstep s' i Hr'). by destruct (step s' i).
  - destruct r; [done|done|]. apply H; [|done]. intros r' i Hr'. destruct r' as [s'| |]; [|done..].
    specialize (Hstep s' i Hr'). by destruct (step s' i).
Qed.
Lemma decode_stat_reads data : safe (lift_opt (decode_stat data)) (rest_of data).
Proof.
  unfold lift_opt, decode_stat.
  do 9 (match goal with |- context [read_u32 ?d] =>
    let R := fresh "R" in pose proof (read_u32_reads d) as R; unfold lift_opt in R;
    destruct (read_u32 d) as [[? ?]|]; [|done]; cbn [ok_or mbind option_bind safe] in R |- *; unfold rest_of in R; cbn [snd] in R end).
  cbn [ok_or safe]. unfold rest_of. cbn [snd]. eauto 12 using shorter_trans.
Qed.

Definition more (n : Z) (ds : list Directory) : Prop := n < zlen ds.
Lemma push_subdir_safe ds index sub n :
  0 ≤ index < zlen ds → more n ds → safe (push_subdir ds index sub) (λ ds', zlen ds' = zlen ds).
Proof.
  intros Hi _. unfold push_subdir. destruct (get_in ds index Hi) as (d & -> & _). cbn [expect mbind outcome_bind safe].
  unfold zlen. by rewrite length_insert.
Qed.
Lemma decode_directory_block_reads limit fuel : ∀ ds data,
  bytes_ok data → (length data < fuel)%nat →
  safe (decode_directory_block fuel limit ds data) (λ r, zlen ds < zlen r.1 ∧ rest_of data r).
Proof.
  induction fuel as [|fuel IH]; intros ds data Hb Hf; [lia|]. cbn [decode_directory_block].
  eapply safe_bind; [apply var_int_reads|]. intros [nu d0] [Hn0 R0]. pose proof (rest_bytes_ok _ _ Hb R0) as B0.
  eapply safe_bind; [apply var_int_reads|]. intros [nd d1] [Hn1 R1]. pose proof (rest_bytes_ok _ _ B0 R1) as B1.
  unfold read_name. eapply safe_bind; [by apply name_reads|]. intros [name d2] (R2 & _ & B2 & _).
  unfold rest_of in *. cbn [fst snd] in *.
  apply safe_ensure. intros _. apply safe_ensure. intros _.
  eapply safe_bind.
  { apply (for_count_reads (pushes read_name) (λ _, True) d2); [|done|apply suffix_refl|lia]. intros l d _ _.
    eapply safe_impl; [apply (pushes_reads read_name (λ _, True) l d); [by apply Forall_true|]|].
    - eapply safe_impl; [apply split_byte_reads|]. intros [x r] Hr. done.
    - intros [x r] [_ H]. done. }
  intros [unt d3] [_ R3]. cbn [fst snd] in *.
  assert (shorter d3 data) as R by (eapply suffix_shorter; [exact R3|]; eauto using shorter_trans).
  match goal with |- safe (for_count _ _ _ (ds ++ [?x]) _) _ => set (dir := x) end.
  eapply safe_impl; [apply (for_count_reads _ (λ ds', zlen ds < zlen ds') d3)|].
  - intros ds' d Hds Hd. cbn beta. eapply safe_bind; [apply IH; [|]|].
    + eapply suffix_bytes_ok; [|exact Hb]. eapply suffix_trans; [exact Hd|]. by apply shorter_is_suffix.
    + apply suffix_of_length in Hd. destruct R. lia.
    + intros [ds2 r] [Hl Hr]. cbn [fst snd] in *. cbn beta in *. pose proof (zlen_nonneg ds).
      eapply safe_bind; [apply (push_subdir_safe ds2 (zlen ds) (zlen ds') (zlen ds)); [lia|unfold more; lia]|].
      intros ds3 Hl3. cbn beta in Hl3. cbn [safe fst snd]. split; [lia|exact Hr].
  - unfold zlen. rewrite length_app. cbn [length]. lia.
  - apply suffix_refl.
  - lia.
  - intros [ds' d4] [Hl R4]. cbn [fst snd] in *. split; [done|]. by eapply suffix_shorter.
Qed.
Lemma decode_bitmaps_safe k n ds data :
  bytes_ok data → safe (decode_bitmaps (len_in_bytes k) n ds data) (λ ds', zlen ds' = zlen ds).
Proof.
  intros Hb. unfold decode_bitmaps.
  eapply safe_bind; [by apply bitmap_reads|]. intros [v1 d1] [R1 _]. pose proof (rest_bytes_ok _ _ Hb R1) as B1.
  eapply safe_bind; [by apply bitmap_reads|]. intros [v2 d2] [R2 _]. pose proof (rest_bytes_ok _ _ B1 R2) as B2.
  eapply safe_bind; [by apply bitmap_reads|]. intros [v3 d3] [R3 _]. pose proof (rest_bytes_ok _ _ B2 R3) as B3.
  apply safe_ensure. intros _.
  eapply safe_bind; [apply (for_each_bit_safe set_check_only v2 ds (λ ds', zlen ds' = zlen ds)); [|done]|].
  { intros ds' i Hl. unfold set_check_only. apply safe_ok_or. intros d _. cbn. unfold zlen in *. by rewrite length_insert. }
  intros ds1 H1.
  eapply safe_bind; [apply (for_each_bit_safe set_stat v1 (ds1, d3) (λ r, zlen r.1 = zlen ds ∧ bytes_ok r.2)); [|done]|].
  { intros [ds' d] i [Hl Hd]. unfold set_stat. apply safe_ok_or. intros x _.
    eapply safe_bind; [apply decode_stat_reads|]. intros [st r] R. cbn [safe fst snd].
    split; [unfold zlen in *; by rewrite length_insert|by apply (rest_bytes_ok d (st, r))]. }
  intros [ds2 d4] [H2 B4]. cbn [fst snd] in *.
  eapply safe_bind; [apply (for_each_bit_safe (set_oid (len_in_bytes k)) v3 (ds2, d4) (λ r, zlen r.1 = zlen ds ∧ bytes_ok r.2)); [|done]|].
  { intros [ds' d] i [Hl Hd]. unfold set_oid. apply safe_ok_or. intros x _. cbn [fst snd] in *.
    eapply safe_bind; [apply split_reads; pose proof (len_in_bytes_range k); lia|]. intros [h r] (R & -> & Hh). cbn [fst snd] in *.
    destruct (oid_reads (E := ()) h _ k eq_refl Hh) as (o & -> & _). cbn [mbind outcome_bind safe fst snd].
    split; [unfold zlen in *; by rewrite length_insert|]. by apply bytes_ok_app in Hd as [_ Hd]. }
  intros [ds3 d5] [H3 _]. apply safe_ensure. intros _. done.
Qed.
Lemma untracked_decode_safe data k limit : bytes_ok data → safe (untracked_decode data k limit) (λ _, True).
Proof.
  intros Hb. unfold untracked_decode. apply safe_ensure. intros _.
  eapply safe_bind; [apply var_int_reads|]. intros [il d0] [Hn0 R0]. pose proof (rest_bytes_ok _ _ Hb R0) as B0. cbn [snd] in B0.
  apply safe_ok_or. intros [ident d1] E1. apply split_at_Some in E1 as [-> _]. apply bytes_ok_app in B0 as [_ B1].
  eapply safe_bind; [apply decode_stat_reads|]. intros [s1 d2] R2. pose proof (rest_bytes_ok _ _ B1 R2) as B2.
  eapply safe_bind; [apply decode_stat_reads|]. intros [s2 d3] R3. pose proof (rest_bytes_ok _ _ B2 R3) as B3.
  eapply safe_bind; [apply read_u32_reads|]. intros [fl d4] R4. pose proof (rest_bytes_ok _ _ B3 R4) as B4. cbn [snd] in *.
  pose proof (len_in_bytes_range k) as Hk.
  eapply safe_bind; [apply split_reads; lia|]. intros [h1 d5] (_ & -> & H1). apply bytes_ok_app in B4 as [_ B5]. cbn [fst snd] in *.
  eapply safe_bind; [apply split_reads; lia|]. intros [h2 d6] (_ & -> & H2). apply bytes_ok_app in B5 as [_ B6]. cbn [fst snd] in *.
  destruct (oid_reads (E := ()) h1 _ k eq_refl H1) as (i1 & -> & _). cbn [mbind outcome_bind].
  destruct (oid_reads (E := ()) h2 _ k eq_refl H2) as (i2 & -> & _). cbn [mbind outcome_bind].
  unfold read_name. eapply safe_bind; [by apply name_reads|]. intros [nm d7] (_ & _ & B7 & _). cbn [fst snd] in *.
  eapply safe_bind; [apply var_int_reads|]. intros [nb d8] [_ R8]. pose proof (rest_bytes_ok _ _ B7 R8) as B8. cbn [snd] in *.
  destruct (nb =? 0); [by apply safe_ensure|]. apply safe_ensure. intros _. apply safe_ensure. intros _.
  eapply safe_bind; [apply decode_directory_block_reads; [done|lia]|]. intros [ds d9] [_ R9].
  pose proof (rest_bytes_ok _ _ B8 R9) as B9. cbn [snd] in *. apply safe_ensure. intros _.
  eapply safe_bind; [by apply decode_bitmaps_safe|]. done.
Qed.

(** A cache of two directories, one in the other, is written and read back. *)
Definition sample_cache : UntrackedCache :=
  {| identifier := [120; 0]; info_exclude := None;
     excludes_file := Some {| oid_stat := sample_stat; oid_stat_id := OidSha1 (replicate 20 3) |};
     exclude_filename_per_dir := [46; 103]; dir_flags := 6;
     directories :=
       [{| dir_name := []; untracked_entries := [[97]; [98; 99]]; sub_directories := [1]; dir_stat := Some sample_stat;
           exclude_file_oid := None; check_only := false |};
        {| dir_name := [100]; untracked_entries := []; sub_directories := []; dir_stat := None;
           exclude_file_oid := Some (OidSha1 (replicate 20 4)); check_only := true |}] |}.
Example cache_written_and_read :
  match untracked_bytes sample_cache Sha1 with
  | Ok data => untracked_decode data Sha1 None = Ok sample_cache
  | _ => False
  end.
Proof. vm_compute. reflexivity. Qed.
(** A directory that is its own sub-directory is not written. *)
Example cyclic_cache :
  validate_directory_graph [{| dir_name := []; untracked_entries := []; sub_directories := [0]; dir_stat := None;
                               exclude_file_oid := None; check_only := false |}] = Err WriteInvalid.
Proof. reflexivity. Qed.
