(* ===== verification/GitIndexFile.v ===== *)
(** * [gix-index/src/decode/mod.rs], [write.rs], [file/]: the index file

    [from_bytes] is [State::from_bytes] with one thread; the time of the file, which is passed
    through, is left out. The hasher is a parameter. *)

From S2P Require Import Prelude Slices Btoi Hash Ewah PackEntry GitIndex GitIndexExtensions GitIndexUntracked GitIndexAccess.

Inductive file_error :=
| BadEntries (e : index_error)
| BadExtension (e : extension_error)
| BadTrailer (len : Z)
| SharedChecksumMismatch.

(** ** [extension/decode.rs] *)
Record Outcome := {
  o_tree : option Tree;
  o_link : option Link;
  o_resolve_undo : option (list ResolvePath);
  o_untracked : option UntrackedCache;
  o_fs_monitor : option FsMonitor;
  o_is_sparse : bool;
  o_offset_table : bool;
  o_end_of_index : bool;
}.
Definition default_outcome : Outcome :=
  {| o_tree := None; o_link := None; o_resolve_undo := None; o_untracked := None; o_fs_monitor := None;
     o_is_sparse := false; o_offset_table := false; o_end_of_index := false |}.

Section Fields.
Context (o : Outcome).
Definition with_tree (x : option Tree) : Outcome :=
  {| o_tree := x; o_link := o_link o; o_resolve_undo := o_resolve_undo o; o_untracked := o_untracked o;
     o_fs_monitor := o_fs_monitor o; o_is_sparse := o_is_sparse o; o_offset_table := o_offset_table o;
     o_end_of_index := o_end_of_index o |}.
Definition with_link (x : option Link) : Outcome :=
  {| o_tree := o_tree o; o_link := x; o_resolve_undo := o_resolve_undo o; o_untracked := o_untracked o;
     o_fs_monitor := o_fs_monitor o; o_is_sparse := o_is_sparse o; o_offset_table := o_offset_table o;
     o_end_of_index := o_end_of_index o |}.
Definition with_resolve_undo (x : option (list ResolvePath)) : Outcome :=
  {| o_tree := o_tree o; o_link := o_link o; o_resolve_undo := x; o_untracked := o_untracked o;
     o_fs_monitor := o_fs_monitor o; o_is_sparse := o_is_sparse o; o_offset_table := o_offset_table o;
     o_end_of_index := o_end_of_index o |}.
Definition with_untracked (x : option UntrackedCache) : Outcome :=
  {| o_tree := o_tree o; o_link := o_link o; o_resolve_undo := o_resolve_undo o; o_untracked := x;
     o_fs_monitor := o_fs_monitor o; o_is_sparse := o_is_sparse o; o_offset_table := o_offset_table o;
     o_end_of_index := o_end_of_index o |}.
Definition with_fs_monitor (x : option FsMonitor) : Outcome :=
  {| o_tree := o_tree o; o_link := o_link o; o_resolve_undo := o_resolve_undo o; o_untracked := o_untracked o;
     o_fs_monitor := x; o_is_sparse := o_is_sparse o; o_offset_table := o_offset_table o;
     o_end_of_index := o_end_of_index o |}.
Definition with_sparse : Outcome :=
  {| o_tree := o_tree o; o_link := o_link o; o_resolve_undo := o_resolve_undo o; o_untracked := o_untracked o;
     o_fs_monitor := o_fs_monitor o; o_is_sparse := true; o_offset_table := o_offset_table o;
     o_end_of_index := o_end_of_index o |}.
Definition with_offset_table : Outcome :=
  {| o_tree := o_tree o; o_link := o_link o; o_resolve_undo := o_resolve_undo o; o_untracked := o_untracked o;
     o_fs_monitor := o_fs_monitor o; o_is_sparse := o_is_sparse o; o_offset_table := true;
     o_end_of_index := o_end_of_index o |}.
Definition with_end_of_index : Outcome :=
  {| o_tree := o_tree o; o_link := o_link o; o_resolve_undo := o_resolve_undo o; o_untracked := o_untracked o;
     o_fs_monitor := o_fs_monitor o; o_is_sparse := o_is_sparse o; o_offset_table := o_offset_table o;
     o_end_of_index := true |}.
End Fields.

(** One round of the loop over extensions. *)
Definition decode_extension (object_hash : Kind) (limit : option Z) (ext : Outcome) (signature ext_data : bytes)
    : outcome extension_error Outcome :=
  if bytes_eqb signature TREE_SIGNATURE then
    t ← to_option (tree_decode ext_data object_hash limit); Ok (with_tree ext t)
  else if bytes_eqb signature REUC_SIGNATURE then
    r ← to_option (resolve_undo_decode ext_data object_hash); Ok (with_resolve_undo ext r)
  else if bytes_eqb signature UNTR_SIGNATURE then
    u ← to_option (untracked_decode ext_data object_hash limit); Ok (with_untracked ext u)
  else if bytes_eqb signature FSMN_SIGNATURE then
    f ← to_option (fs_monitor_decode ext_data); Ok (with_fs_monitor ext f)
  else if bytes_eqb signature EOIE_SIGNATURE then Ok (with_end_of_index ext)
  else if bytes_eqb signature IEOT_SIGNATURE then Ok (with_offset_table ext)
  else
    first ← expect (get signature 0);
    if (97 <=? first) && (first <=? 122) then
      if bytes_eqb signature LINK_SIGNATURE then
        l ← link_decode ext_data object_hash; Ok (with_link ext (Some l))
      else if bytes_eqb signature SPARSE_SIGNATURE then
        _ ← ensure (zlen ext_data =? 0) (MandatoryUnknown signature);
        Ok (with_sparse ext)
      else Err (MandatoryUnknown signature)
    else Ok ext.
(** Every extension takes bytes. *)
Fixpoint decode_all_loop (fuel : nat) (object_hash : Kind) (limit : option Z) (it : Iter) (ext : Outcome)
    : outcome extension_error (Iter * Outcome) :=
  match fuel with
  | O => Panic
  | S fuel =>
      '(it, next) ← iter_next it;
      match next with
      | None => Ok (it, ext)
      | Some (signature, ext_data) =>
          ext ← decode_extension object_hash limit ext signature ext_data;
          decode_all_loop fuel object_hash limit it ext
      end
  end.
Definition decode_all (maybe_beginning_of_extensions : bytes) (object_hash : Kind) (limit : option Z)
    : outcome extension_error (Outcome * bytes) :=
  match iter_new_without_checksum maybe_beginning_of_extensions object_hash with
  | None => Ok (default_outcome, maybe_beginning_of_extensions)
  | Some it =>
      '(it, ext) ← decode_all_loop (S (length maybe_beginning_of_extensions)) object_hash limit it default_outcome;
      rest ← expect (get_from maybe_beginning_of_extensions (consumed it));
      Ok (ext, rest)
  end.

(** ** [decode/mod.rs] *)
Section File.
Context (try_finalize : Kind → bytes → outcome extension_error ObjectId).

(** The trailer, and the state with all that was read; [data] is what is behind the extensions. *)
Definition assemble (object_hash : Kind) (expected_checksum : option ObjectId) (version : Version)
    (entries : list Entry) (path_backing : bytes) (is_sparse : bool) (ext : Outcome) (data : bytes)
    : outcome file_error (State * option ObjectId) :=
  _ ← ensure (zlen data =? len_in_bytes object_hash) (BadTrailer (zlen data));
  checksum ← from_bytes_or_panic data;
  let checksum := if negb (is_null checksum) then Some checksum else None in
  _ ← match expected_checksum, checksum with
      | Some expected, Some actual => ensure (bool_decide (actual = expected)) SharedChecksumMismatch
      | _, _ => Ok tt
      end;
  Ok ({| object_hash := object_hash; version := version; entries := entries; path_backing := path_backing;
         is_sparse := is_sparse || o_is_sparse ext; end_of_index_at_decode_time := o_end_of_index ext;
         offset_table_at_decode_time := o_offset_table ext; tree := o_tree ext; link := o_link ext;
         resolve_undo := o_resolve_undo ext; untracked := o_untracked ext; fs_monitor := o_fs_monitor ext |}, checksum).
(** With one thread. *)
Definition from_bytes (data : bytes) (object_hash : Kind) (expected_checksum : option ObjectId) (limit : option Z)
    : outcome file_error (State * option ObjectId) :=
  _ ← map_err BadEntries (header_decode data object_hash);
  start_of_extensions ← map_err BadExtension (eoie_decode try_finalize data object_hash);
  '(version, entries, path_backing, is_sparse, data) ←
    map_err BadEntries (decode_entries data start_of_extensions object_hash limit);
  '(ext, data) ← map_err BadExtension (decode_all data object_hash limit);
  assemble object_hash expected_checksum version entries path_backing is_sparse ext data.

(** ** [write.rs] *)
Inductive Extensions :=
| All
| Given (tree_cache resolve_undo fs_monitor untracked end_of_index_entry : bool)
| NoExtensions.
Definition should_write (e : Extensions) (signature : bytes) : bool :=
  match e with
  | NoExtensions => false
  | All => true
  | Given tree_cache resolve_undo fs_monitor untracked end_of_index_entry =>
      if bytes_eqb signature TREE_SIGNATURE then tree_cache
      else if bytes_eqb signature REUC_SIGNATURE then resolve_undo
      else if bytes_eqb signature FSMN_SIGNATURE then fs_monitor
      else if bytes_eqb signature UNTR_SIGNATURE then untracked
      else if bytes_eqb signature EOIE_SIGNATURE then end_of_index_entry
      else false
  end.

(** The closures, in order: [None] when there is nothing to write. *)
Definition extension_writers (st : State) (extensions : Extensions)
    : list (bytes * option (CountBytes → outcome extension_error CountBytes)) :=
  let guarded signature (w : option (CountBytes → outcome extension_error CountBytes)) :=
    (signature, if should_write extensions signature then w else None) in
  [(LINK_SIGNATURE, (λ l, link_write_to l (object_hash st)) <$> link st);
   guarded TREE_SIGNATURE ((λ t, tree_write_to_inner t (Some (object_hash st))) <$> tree st);
   guarded REUC_SIGNATURE ((λ r, resolve_undo_write_to r (object_hash st)) <$> resolve_undo st);
   guarded FSMN_SIGNATURE (fs_monitor_write_to <$> fs_monitor st);
   guarded UNTR_SIGNATURE ((λ u, untracked_write_to u (object_hash st)) <$> untracked st);
   (SPARSE_SIGNATURE, if is_sparse st then Some sparse_write_to else None)].
Fixpoint write_extensions_loop
    (writers : list (bytes * option (CountBytes → outcome extension_error CountBytes)))
    (out : CountBytes) (offset_to_previous_ext : Z) (toc : list (bytes * Z))
    : outcome extension_error (list (bytes * Z) * CountBytes) :=
  match writers with
  | [] => Ok (toc, out)
  | (_, None) :: writers => write_extensions_loop writers out offset_to_previous_ext toc
  | (signature, Some write_ext) :: writers =>
      out ← write_ext out;
      let offset_past_ext := count out in
      ext_size ← op_sub 32 offset_past_ext offset_to_previous_ext;
      ext_size ← op_sub 32 ext_size EXT_MIN_SIZE;
      write_extensions_loop writers out offset_past_ext (toc ++ [(signature, ext_size)])
  end.

Record Options := { extensions : Extensions; skip_hash : bool; skip_stale_tree_cache : bool }.
Definition effective_extensions (o : Options) : Extensions :=
  if skip_stale_tree_cache o then
    match extensions o with
    | All => Given false true true true true
    | Given _ resolve_undo fs_monitor untracked end_of_index_entry =>
        Given false resolve_undo fs_monitor untracked end_of_index_entry
    | NoExtensions => NoExtensions
    end
  else extensions o.

(** The bytes of [State::write_to]; those of the end-of-index extension are not counted. *)
Definition state_write_to (st : State) (o : Options) : outcome file_error bytes :=
  out ← map_err BadEntries (write_entries_block st);
  let offset_to_extensions := count out in
  let ext := effective_extensions o in
  '(toc, out) ← map_err BadExtension (write_extensions_loop (extension_writers st ext) out offset_to_extensions []);
  if (0 <? zlen (entries st)) && should_write ext EOIE_SIGNATURE && negb (zlen toc =? 0) then
    eoie ← map_err BadExtension (eoie_bytes try_finalize (object_hash st) offset_to_extensions toc);
    Ok (inner out ++ eoie)
  else Ok (inner out).
(** [File::write_to] *)
Definition file_write_to (st : State) (o : Options) : outcome file_error (bytes * Version * ObjectId) :=
  out ← state_write_to st o;
  hash ← (if skip_hash o then Ok (null (object_hash st))
          else map_err BadExtension (try_finalize (object_hash st) out));
  Ok (out ++ as_slice hash, detect_required_version st, hash).
End File.

(** ** Reading is safe *)
Lemma to_option_safe {E F A} (m : outcome E A) (P : A → Prop) :
  safe m P → safe (to_option (F := F) m) (λ o, ∀ a, o = Some a → P a).
Proof. destruct m; cbn; [|done|done]. by intros H a' [= <-]. Qed.

(** What is known of the extensions that were read. *)
Record outcome_ok (k : Kind) (o : Outcome) : Prop := {
  oo_tree : ∀ t, o_tree o = Some t → tree_ok k t;
  oo_link : ∀ l, o_link o = Some l → link_ok k l;
  oo_resolve_undo : ∀ r, o_resolve_undo o = Some r → Forall (resolve_ok k) r;
  oo_fs_monitor : ∀ f, o_fs_monitor o = Some f → fsm_ok f;
}.
Lemma decode_extension_safe k limit ext signature data :
  bytes_ok data → zlen signature = 4 → outcome_ok k ext →
  safe (decode_extension k limit ext signature data) (outcome_ok k).
Proof.
  intros Hb Hl [H1 H2 H3 H4]. unfold decode_extension.
  destruct (bytes_eqb signature TREE_SIGNATURE).
  { eapply safe_bind; [by apply to_option_safe, tree_decode_safe|]. intros t Ht. by split. }
  destruct (bytes_eqb signature REUC_SIGNATURE).
  { eapply safe_bind; [by apply to_option_safe, resolve_undo_decode_safe|]. intros t Ht. by split. }
  destruct (bytes_eqb signature UNTR_SIGNATURE).
  { eapply safe_bind; [by apply to_option_safe, untracked_decode_safe|]. intros t Ht. by split. }
  destruct (bytes_eqb signature FSMN_SIGNATURE).
  { eapply safe_bind; [by apply to_option_safe, fs_monitor_decode_safe|]. intros t Ht. by split. }
  destruct (bytes_eqb signature EOIE_SIGNATURE); [by split|]. destruct (bytes_eqb signature IEOT_SIGNATURE); [by split|].
  destruct (get_in signature 0) as (first & -> & _); [lia|]. cbn [expect mbind outcome_bind].
  destruct (_ && _); [|by split]. destruct (bytes_eqb signature LINK_SIGNATURE).
  { eapply safe_bind; [by apply link_decode_safe|]. intros l Hlk. split; [done| |done|done]. by intros l' [= <-]. }
  destruct (bytes_eqb signature SPARSE_SIGNATURE); [|done]. apply safe_ensure. by split.
Qed.
Lemma ext_bytes_len e : 8 ≤ zlen e.1 + 4 → zlen (ext_bytes e) = zlen e.1 + 4 + zlen e.2.
Proof. intros _. unfold ext_bytes. rewrite !zlen_app, zlen_to_be. lia. Qed.
Lemma decode_all_loop_safe k limit base fuel : ∀ it ext,
  bytes_ok (iter_data it) → (length (iter_data it) < fuel)%nat → outcome_ok k ext →
  0 ≤ consumed it → consumed it + zlen (iter_data it) ≤ base →
  safe (decode_all_loop fuel k limit it ext) (λ r, outcome_ok k r.2 ∧ 0 ≤ consumed r.1 ≤ base).
Proof.
  induction fuel as [|fuel IH]; intros it ext Hb Hf Ho H0 Hc; [lia|]. cbn [decode_all_loop].
  destruct (iter_next_spec (E := extension_error) it Hb) as (it' & r & -> & Hr). cbn [mbind outcome_bind].
  destruct r as [[sig data]|]; [|cbn; split; [done|lia]]. destruct Hr as (Hsig & Hd & Hcons & Bs & Bd). cbn [fst snd] in *.
  rewrite Hd in Hb, Hc, Hf. apply bytes_ok_app in Hb as [_ Hb]. rewrite zlen_app, ext_bytes_len in Hc by (cbn; lia).
  rewrite ext_bytes_len in Hcons by (cbn; lia). cbn [fst snd] in *. pose proof (zlen_nonneg data).
  eapply safe_bind; [by apply decode_extension_safe|]. intros ext' He. apply IH; [done| |done|lia|lia].
  rewrite length_app in Hf. unfold ext_bytes in Hf. cbn [fst snd] in Hf. rewrite !length_app, length_to_be in Hf. lia.
Qed.
Lemma decode_all_safe k limit data :
  bytes_ok data → safe (decode_all data k limit) (λ r, outcome_ok k r.1 ∧ suffix_of r.2 data).
Proof.
  intros Hb. unfold decode_all, iter_new_without_checksum. destruct (checked_sub 64 (zlen data) (len_in_bytes k)) as [e|] eqn:E.
  2:{ cbn. split; [by split|apply suffix_refl]. }
  apply checked_Some in E as [<- He]. cbn [mbind option_bind]. pose proof (len_in_bytes_range k).
  eapply safe_bind; [apply (decode_all_loop_safe k limit (zlen data))|].
  - by apply Forall_take.
  - cbn [iter_data]. rewrite length_take. lia.
  - by split.
  - done.
  - cbn [iter_data consumed]. unfold zlen in *. rewrite length_take. lia.
  - intros [it ext] [Ho Hc]. cbn [fst snd] in *. rewrite get_from_in by done. cbn [expect mbind outcome_bind safe fst snd].
    split; [done|]. apply suffix_drop.
Qed.

(** What is known of a state that was read: entries as [index_entries_safe] says, and extensions. *)
Record read_ok (k : Kind) (st : State) : Prop := {
  rd_hash : object_hash st = k;
  rd_ids : Forall (λ e, oid_ok (id e) ∧ Hash.kind (id e) = k) (entries st);
  rd_ranges : Forall (range_ok st) (entries st);
  rd_sparse : existsb (λ e, mode_is_sparse (mode e)) (entries st) = true → is_sparse st = true;
  rd_tree : ∀ t, tree st = Some t → tree_ok k t;
  rd_link : ∀ l, link st = Some l → link_ok k l;
  rd_resolve_undo : ∀ r, resolve_undo st = Some r → Forall (resolve_ok k) r;
  rd_fs_monitor : ∀ f, fs_monitor st = Some f → fsm_ok f;
}.

(** C1: whatever the bytes, the expected checksum and the allocation limit, reading an index file
    returns without a panic, with an error or with a state whose ids are of the kind of the index,
    whose paths are in the path backing, which is marked as sparse if an entry is a directory, and
    whose extensions are well-formed. Verification of its entries then returns, and if it succeeds
    the state is one on which lookups and mutation work as on a map. *)
Theorem index_file_safe (try_finalize : Kind → bytes → outcome extension_error ObjectId) (data : bytes) (k : Kind)
    (expected : option ObjectId) (limit : option Z)
    (Hb : bytes_ok data) (Hlen : zlen data < 2 ^ 64) (Hhasher : ∀ b, try_finalize k b ≠ Panic) :
  safe (from_bytes try_finalize data k expected limit) (λ '(st, _),
    read_ok k st ∧ verify_entries st ≠ Panic ∧ (verify_entries st = Ok tt → state_ok st)).
Proof.
  unfold from_bytes, assemble. eapply safe_bind; [by apply safe_map_err, header_decode_safe|]. intros _ _.
  eapply safe_bind; [by apply safe_map_err, eoie_decode_safe|]. intros ofs _.
  eapply safe_bind; [by apply safe_map_err, index_entries_safe|].
  intros [[[[v es] backing] sparse] rest] ((head & body & Hd & _) & Hids & (ps & Hps & _) & Hsp).
  assert (bytes_ok rest) as Br by (rewrite Hd, !bytes_ok_app in Hb; tauto).
  eapply safe_bind; [by apply safe_map_err, decode_all_safe|]. intros [ext d] [[H1 H2 H3 H4] _]. cbn [fst] in *.
  apply safe_ensure. intros Hl. apply Z.eqb_eq in Hl.
  destruct (oid_reads (E := file_error) d _ k eq_refl Hl) as (sum & -> & _). cbn [mbind outcome_bind].
  eapply (safe_bind _ _ (λ _, True)).
  { destruct expected, (negb (is_null sum)); try done. cbn. by destruct (bool_decide _). }
  intros _ _. cbn [safe]. match goal with |- read_ok k ?s ∧ _ => set (st := s) end.
  assert (Forall (range_ok st) es) as Hr.
  { apply Forall_lookup. intros i e He. destruct (Forall2_lookup_l _ _ _ _ _ Hps He) as (p & _ & Hp).
    unfold range_ok, st. cbn [path_backing]. unfold path_in in Hp. destruct (get_range _ _ _) as [q|]; [by eexists|done]. }
  assert (existsb (λ e, mode_is_sparse (mode e)) es = true → is_sparse st = true) as Hsp'.
  { unfold st. cbn [is_sparse]. rewrite Hsp. by intros ->. }
  split; [by split|]. pose proof (verify_entries_exact st Hr) as Hv. destruct (verify_entries st) as [[]| |]; [|done|done].
  split; [done|]. intros _. by split.
Qed.

(** ** Extensions in a row *)
Definition ext_ok (e : bytes * bytes) : Prop := zlen e.1 = 4 ∧ zlen e.2 < 2 ^ 32.
Definition ext_block (es : list (bytes * bytes)) : bytes := concat (List.map ext_bytes es).

Lemma ext_bytes_pos e : ext_ok e → (8 ≤ length (ext_bytes e))%nat.
Proof. intros [H _]. unfold ext_bytes, zlen in *. rewrite !length_app, length_to_be. lia. Qed.
Lemma ext_block_length es : Forall ext_ok es → (length es ≤ length (ext_block es))%nat.
Proof.
  induction 1 as [|e es He _ IH]; [done|]. unfold ext_block in *. cbn [List.map concat length].
  rewrite length_app. pose proof (ext_bytes_pos e He). lia.
Qed.
Lemma iter_next_ext {E} e rest c :
  ext_ok e →
  iter_next (E := E) {| iter_data := ext_bytes e ++ rest; consumed := c |} =
  Ok ({| iter_data := rest; consumed := c + zlen (ext_bytes e) |}, Some e).
Proof.
  intros He. pose proof (ext_bytes_pos e He). destruct e as [sig d]. destruct He as [Hs Hd]. cbn [fst snd] in *.
  pose proof (zlen_nonneg d). pose proof (zlen_nonneg rest). unfold iter_next. cbn [iter_data consumed].
  destruct (Z.ltb_spec (zlen (ext_bytes (sig, d) ++ rest)) (4 + 4)) as [Hlt|_]; [rewrite zlen_app in Hlt; unfold zlen in *; lia|].
  unfold ext_bytes. cbn [fst snd]. rewrite <- !app_assoc, split_at_app by done. cbn [expect mbind outcome_bind].
  rewrite split_at_app by by rewrite zlen_to_be. cbn [expect mbind outcome_bind]. rewrite from_to_be by lia.
  rewrite get_range_start by lia. rewrite zlen_app. destruct (Z.leb_spec (zlen d) (zlen d + zlen rest)); [|lia].
  rewrite get_from_in by (rewrite zlen_app; lia). cbn [expect mbind outcome_bind]. rewrite !zlen_app, zlen_to_be.
  replace (Z.to_nat (zlen d)) with (length d) by (unfold zlen; lia). rewrite drop_app_length, take_app_length.
  do 2 f_equal. f_equal. lia.
Qed.

(** What the end-of-index extension hashes. *)
Definition ext_heads (es : list (bytes * bytes)) : bytes :=
  concat (List.map (λ e : bytes * bytes, e.1 ++ to_be 4 (zlen e.2)) es).
Lemma eoie_loop_block es : ∀ fuel c hashed last_end,
  Forall ext_ok es → (length es ≤ fuel)%nat →
  eoie_loop fuel {| iter_data := ext_block es; consumed := c |} hashed last_end =
  Ok (hashed ++ ext_heads es, if es is [] then last_end else Some (c + zlen (ext_block es))).
Proof.
  induction es as [|e es IH]; intros fuel c hashed last_end He Hf.
  { unfold ext_heads. cbn [List.map concat]. rewrite app_nil_r. by destruct fuel. }
  destruct fuel as [|fuel]; cbn [length] in Hf; [lia|]. apply Forall_cons_1 in He as [He Hes]. cbn [eoie_loop].
  unfold ext_block, ext_heads. cbn [List.map concat]. fold (ext_block es) (ext_heads es).
  rewrite iter_next_ext by done. cbn [mbind outcome_bind]. destruct e as [sig d]. destruct He as [Hs Hd]. cbn [fst snd consumed] in *.
  pose proof (zlen_nonneg d). rewrite wrap_small by lia. rewrite IH by (done || lia). rewrite <- !app_assoc, zlen_app.
  f_equal. f_equal. destruct es; f_equal; [change (ext_block []) with (@nil Z); rewrite zlen_nil|]; lia.
Qed.

(** Decoding the extensions of a list one after the other. *)
Fixpoint decode_list (k : Kind) (limit : option Z) (ext : Outcome) (es : list (bytes * bytes)) : outcome extension_error Outcome :=
  match es with
  | [] => Ok ext
  | (signature, data) :: es => ext ← decode_extension k limit ext signature data; decode_list k limit ext es
  end.
Lemma decode_all_loop_block k limit es : ∀ fuel c ext ext',
  Forall ext_ok es → (length es < fuel)%nat → decode_list k limit ext es = Ok ext' →
  decode_all_loop fuel k limit {| iter_data := ext_block es; consumed := c |} ext =
  Ok ({| iter_data := []; consumed := c + zlen (ext_block es) |}, ext').
Proof.
  induction es as [|[sig d] es IH]; intros fuel c ext ext' He Hf Hd; (destruct fuel as [|fuel]; [cbn in Hf; lia|]); cbn [decode_all_loop].
  { injection Hd as <-. change (ext_block []) with (@nil Z). rewrite zlen_nil, Z.add_0_r. done. }
  apply Forall_cons_1 in He as [He Hes]. unfold ext_block. cbn [List.map concat length] in *. fold (ext_block es).
  rewrite iter_next_ext by done. cbn [mbind outcome_bind decode_list] in *.
  destruct (decode_extension k limit ext sig d) as [ext1| |]; [|done|done]. cbn [mbind outcome_bind] in *.
  rewrite (IH _ _ _ ext') by (done || lia). rewrite zlen_app. do 3 f_equal. lia.
Qed.
Lemma decode_all_block k limit es trailer ext :
  Forall ext_ok es → zlen trailer = len_in_bytes k → zlen (ext_block es ++ trailer) < 2 ^ 64 →
  decode_list k limit default_outcome es = Ok ext →
  decode_all (ext_block es ++ trailer) k limit = Ok (ext, trailer).
Proof.
  intros He Ht H64 Hd. rewrite zlen_app in H64. pose proof (zlen_nonneg (ext_block es)). pose proof (zlen_nonneg trailer).
  unfold decode_all, iter_new_without_checksum. rewrite zlen_app, checked_sub_in by lia. cbn [mbind option_bind].
  replace (Z.to_nat _) with (length (ext_block es)) by (unfold zlen in *; lia). rewrite take_app_length.
  rewrite (decode_all_loop_block k limit es _ 0 _ ext); [|done| |done].
  2:{ pose proof (ext_block_length es He). rewrite length_app. lia. }
  cbn [mbind outcome_bind consumed]. rewrite get_from_in by (rewrite zlen_app; lia). cbn [expect mbind outcome_bind].
  replace (Z.to_nat _) with (length (ext_block es)) by (unfold zlen in *; lia). by rewrite drop_app_length.
Qed.

(** ** Writing extensions *)
Definition written {A} (o : Options) (signature : bytes) (x : option A) : option A :=
  if should_write (effective_extensions o) signature then x else None.
(** The payloads, in the order of the writers; [None] if there is nothing to write,
    as for an untracked cache here. *)
Definition payloads (st : State) (o : Options) : list (bytes * option bytes) :=
  [(LINK_SIGNATURE, link_text <$> link st);
   (TREE_SIGNATURE, tree_text <$> written o TREE_SIGNATURE (tree st));
   (REUC_SIGNATURE, (λ r, concat (List.map resolve_text r)) <$> written o REUC_SIGNATURE (resolve_undo st));
   (FSMN_SIGNATURE, fsm_text <$> written o FSMN_SIGNATURE (fs_monitor st));
   (UNTR_SIGNATURE, None);
   (SPARSE_SIGNATURE, if is_sparse st then Some [] else None)].
Definition present (l : list (bytes * option bytes)) : list (bytes * bytes) :=
  omap (λ '(s, p), pair s <$> p) l.

(** A writer that appends an extension. *)
Definition appends (w : bytes * option (CountBytes → outcome extension_error CountBytes)) (p : bytes * option bytes) : Prop :=
  w.1 = p.1 ∧ zlen p.1 = 4 ∧
  match w.2, p.2 with
  | Some w, Some d =>
      ∀ out, out_ok out → count out + zlen (ext_bytes (p.1, d)) < 2 ^ 32 →
      w out = Ok {| count := count out + zlen (ext_bytes (p.1, d)); inner := inner out ++ ext_bytes (p.1, d) |}
  | None, None => True
  | _, _ => False
  end.
Lemma write_extension_appends sig d e out :
  zlen sig = 4 → out_ok out → count out + zlen (ext_bytes (sig, d)) < 2 ^ 32 →
  write_extension sig d e out =
  Ok {| count := count out + zlen (ext_bytes (sig, d)); inner := inner out ++ ext_bytes (sig, d) |}.
Proof.
  intros Hs Ho Hl. pose proof (zlen_nonneg d). pose proof Ho as [Hc _]. pose proof (zlen_nonneg (inner out)).
  assert (zlen (ext_bytes (sig, d)) = 8 + zlen d) as He by (unfold ext_bytes; rewrite !zlen_app, zlen_to_be; cbn [fst snd]; lia).
  unfold write_extension. rewrite checked_in by lia. cbn [mbind outcome_bind].
  rewrite write_seq_emit; [|done|repeat constructor; rewrite ?zlen_to_be; lia].
  cbn [concat]. rewrite app_nil_r. change (sig ++ to_be 4 (zlen d) ++ d) with (ext_bytes (sig, d)). unfold emit.
  by destruct (Z.ltb_spec (count out + zlen (ext_bytes (sig, d))) (2 ^ 32)); [|lia].
Qed.
Lemma bitmap_bytes_ok v : vec_ok v → bitmap_bytes v = Ok (vec_bytes v).
Proof. intros Hv. unfold bitmap_bytes. by rewrite write_to_ok. Qed.
Lemma fsm_text_bitmap f : zlen (vec_bytes (entry_dirty f)) ≤ zlen (fsm_text f).
Proof. unfold fsm_text. rewrite !zlen_app. pose proof (zlen_nonneg (match token f with TokenV1 nanos => to_be 4 1 ++ to_be 8 nanos | TokenV2 token => to_be 4 2 ++ token ++ [0] end)). pose proof (zlen_nonneg (to_be 4 (zlen (vec_bytes (entry_dirty f))))). lia. Qed.

(** The extensions of a state are well-formed. *)
Record extensions_ok (st : State) : Prop := {
  xo_tree : ∀ t, tree st = Some t → tree_ok (object_hash st) t;
  xo_link : ∀ l, link st = Some l → link_ok (object_hash st) l;
  xo_resolve_undo : ∀ r, resolve_undo st = Some r → Forall (resolve_ok (object_hash st)) r;
  xo_fs_monitor : ∀ f, fs_monitor st = Some f → fsm_ok f;
}.
Section Appends.
Context (k : Kind) (out : CountBytes) (Ho : out_ok out).
Lemma link_appends l :
  link_ok k l → count out + zlen (ext_bytes (LINK_SIGNATURE, link_text l)) < 2 ^ 32 →
  link_write_to l k out = Ok {| count := count out + zlen (ext_bytes (LINK_SIGNATURE, link_text l));
                                inner := inner out ++ ext_bytes (LINK_SIGNATURE, link_text l) |}.
Proof.
  intros [[Hi _] Hk Hb] Hl. unfold link_write_to. rewrite Hi, Hk, Z.eqb_refl. cbn [ensure mbind outcome_bind].
  unfold link_text in *. destruct (bitmaps l) as [b|].
  - destruct (Hb _ eq_refl) as [Hd Hr]. rewrite !bitmap_bytes_ok by done. cbn [mbind outcome_bind].
    by apply write_extension_appends.
  - rewrite app_nil_r in *. cbn [mbind outcome_bind]. by apply write_extension_appends.
Qed.
Lemma tree_appends t :
  tree_ok k t → count out + zlen (ext_bytes (TREE_SIGNATURE, tree_text t)) < 2 ^ 32 →
  tree_write_to_inner t (Some k) out = Ok {| count := count out + zlen (ext_bytes (TREE_SIGNATURE, tree_text t));
                                             inner := inner out ++ ext_bytes (TREE_SIGNATURE, tree_text t) |}.
Proof.
  intros Ht Hl. unfold tree_write_to_inner. rewrite tree_entry_ok by done. by apply write_extension_appends.
Qed.
Lemma resolve_undo_appends r :
  let d := concat (List.map resolve_text r) in
  Forall (resolve_ok k) r → count out + zlen (ext_bytes (REUC_SIGNATURE, d)) < 2 ^ 32 →
  resolve_undo_write_to r k out = Ok {| count := count out + zlen (ext_bytes (REUC_SIGNATURE, d));
                                        inner := inner out ++ ext_bytes (REUC_SIGNATURE, d) |}.
Proof.
  intros d Hr Hl. unfold resolve_undo_write_to. rewrite resolve_undo_entries_ok by done. by apply write_extension_appends.
Qed.
Lemma ext_size_small sig d : count out + zlen (ext_bytes (sig, d)) < 2 ^ 32 → zlen d < 2 ^ 32.
Proof.
  destruct Ho as [Hc _]. pose proof (zlen_nonneg (inner out)). pose proof (zlen_nonneg sig). unfold ext_bytes.
  rewrite !zlen_app, zlen_to_be. cbn [fst snd]. lia.
Qed.
Lemma fs_monitor_appends f :
  fsm_ok f → count out + zlen (ext_bytes (FSMN_SIGNATURE, fsm_text f)) < 2 ^ 32 →
  fs_monitor_write_to f out = Ok {| count := count out + zlen (ext_bytes (FSMN_SIGNATURE, fsm_text f));
                                    inner := inner out ++ ext_bytes (FSMN_SIGNATURE, fsm_text f) |}.
Proof.
  intros [_ Hv] Hl. unfold fs_monitor_write_to. rewrite bitmap_bytes_ok by done. cbn [mbind outcome_bind].
  pose proof (ext_size_small _ _ Hl). pose proof (fsm_text_bitmap f). pose proof (zlen_nonneg (vec_bytes (entry_dirty f))).
  rewrite checked_in by lia. cbn [expect mbind outcome_bind]. by apply write_extension_appends.
Qed.
Lemma sparse_appends :
  count out + zlen (ext_bytes (SPARSE_SIGNATURE, [])) < 2 ^ 32 →
  sparse_write_to out = Ok {| count := count out + zlen (ext_bytes (SPARSE_SIGNATURE, []));
                              inner := inner out ++ ext_bytes (SPARSE_SIGNATURE, []) |}.
Proof.
  intros Hl. unfold sparse_write_to. rewrite write_seq_emit; [|done|by repeat constructor]. unfold emit.
  change (concat [SPARSE_SIGNATURE; to_be 4 0]) with (ext_bytes (SPARSE_SIGNATURE, [])).
  by destruct (Z.ltb_spec (count out + zlen (ext_bytes (SPARSE_SIGNATURE, []))) (2 ^ 32)); [|lia].
Qed.
End Appends.

Lemma writers_append st o :
  extensions_ok st → written o UNTR_SIGNATURE (untracked st) = None →
  Forall2 appends (extension_writers st (effective_extensions o)) (payloads st o).
Proof.
  intros [H1 H2 H3 H4] Hu. unfold extension_writers, payloads, written in *.
  repeat constructor; cbn [fst snd]; repeat (case_match; simplify_option_eq; try done); intros out Ho Hl;
    first [apply link_appends | apply tree_appends | apply resolve_undo_appends | apply fs_monitor_appends | apply sparse_appends]; auto.
Qed.

Lemma write_extensions_block ws ps out toc :
  Forall2 appends ws ps → out_ok out → count out + zlen (ext_block (present ps)) < 2 ^ 32 →
  write_extensions_loop ws out (count out) toc =
  Ok (toc ++ List.map (λ e : bytes * bytes, (e.1, zlen e.2)) (present ps),
      {| count := count out + zlen (ext_block (present ps)); inner := inner out ++ ext_block (present ps) |}).
Proof.
  intros H. revert out toc. induction H as [|[sig w] [sig' d] ws ps (Hs & H4 & Hw) _ IH]; intros out toc Ho Hl; cbn [fst snd] in *.
  { cbn. rewrite Z.add_0_r, !app_nil_r. by destruct out. }
  subst sig'. destruct w as [w|], d as [d|]; try done; cbn [write_extensions_loop].
  2:{ by apply IH. }
  change (present ((sig, Some d) :: ps)) with ((sig, d) :: present ps) in *.
  unfold ext_block in *. cbn [List.map concat] in *. fold (ext_block (present ps)) in *. rewrite zlen_app in Hl.
  pose proof (zlen_nonneg (ext_block (present ps))). pose proof (zlen_nonneg (ext_bytes (sig, d))). pose proof Ho as [Hc _].
  pose proof (zlen_nonneg (inner out)). pose proof (zlen_nonneg d).
  assert (zlen (ext_bytes (sig, d)) = 8 + zlen d) as He by (unfold ext_bytes; rewrite !zlen_app, zlen_to_be; cbn [fst snd]; lia).
  rewrite Hw by (done || lia). cbn [mbind outcome_bind count]. unfold op_sub.
  rewrite checked_sub_in by lia. cbn [expect mbind outcome_bind]. unfold EXT_MIN_SIZE. rewrite checked_sub_in by lia.
  cbn [expect mbind outcome_bind].
  match goal with |- write_extensions_loop _ ?o _ ?t = _ => specialize (IH o t) end. cbn [count inner] in IH.
  rewrite IH; [|split; cbn [count inner]; rewrite ?zlen_app; lia|lia].
  rewrite zlen_app, <- !app_assoc. cbn [app fst snd]. do 3 f_equal; [do 2 f_equal; lia|lia].
Qed.

(** ** Reading extensions that were written *)
Lemma decode_written {A} k ext (text : A → bytes) (set : Outcome → option A → Outcome) sig x es :
  (∀ a, x = Some a → decode_extension k None ext sig (text a) = Ok (set ext (Some a))) →
  (x = None → set ext None = ext) →
  decode_list k None ext (present [(sig, text <$> x)] ++ es) = decode_list k None (set ext x) es.
Proof.
  intros Hs Hn. destruct x as [a|]; cbn; [by rewrite Hs|by rewrite Hn].
Qed.
Lemma present_cons p l : present (p :: l) = present [p] ++ present l.
Proof. destruct p as [s [d|]]; done. Qed.
Lemma present_cons_cons p q l : present (p :: q :: l) = present [p] ++ present (q :: l).
Proof. apply present_cons. Qed.
(** What is read. *)
Definition read_outcome (st : State) (o : Options) : Outcome :=
  {| o_tree := written o TREE_SIGNATURE (tree st); o_link := link st;
     o_resolve_undo := written o REUC_SIGNATURE (resolve_undo st); o_untracked := None;
     o_fs_monitor := written o FSMN_SIGNATURE (fs_monitor st); o_is_sparse := is_sparse st;
     o_offset_table := false; o_end_of_index := false |}.
Lemma written_Some {A} o sig (x : option A) a : written o sig x = Some a → x = Some a.
Proof. unfold written. by destruct (should_write _ _). Qed.
Lemma present_small l : (zlen (ext_block (present l)) < 2 ^ 32) → ∀ s d, (s, Some d) ∈ l → zlen d < 2 ^ 32.
Proof.
  induction l as [|[s' d'] l IH]; intros Hl s d Hin; [by apply not_elem_of_nil in Hin|]. rewrite present_cons in Hl.
  unfold ext_block in *. rewrite map_app, concat_app, zlen_app in Hl.
  pose proof (zlen_nonneg (concat (List.map ext_bytes (present l)))).
  pose proof (zlen_nonneg (concat (List.map ext_bytes (present [(s', d')])))).
  apply elem_of_cons in Hin as [[= <- <-]|Hin]; [|eapply IH; [lia|done]].
  change (present [(s, Some d)]) with [(s, d)] in Hl. cbn [List.map concat] in Hl. rewrite app_nil_r in Hl. unfold ext_bytes at 1 in Hl. cbn [fst snd] in Hl. rewrite !zlen_app, zlen_to_be in Hl.
  pose proof (zlen_nonneg s). pose proof (zlen_nonneg d). lia.
Qed.
Section Signatures.
Context (k : Kind) (limit : option Z) (ext : Outcome) (d : bytes).
Lemma decode_link : decode_extension k limit ext LINK_SIGNATURE d = l ← link_decode d k; Ok (with_link ext (Some l)).
Proof. reflexivity. Qed.
Lemma decode_tree : decode_extension k limit ext TREE_SIGNATURE d = t ← to_option (tree_decode d k limit); Ok (with_tree ext t).
Proof. reflexivity. Qed.
Lemma decode_resolve_undo :
  decode_extension k limit ext REUC_SIGNATURE d = r ← to_option (resolve_undo_decode d k); Ok (with_resolve_undo ext r).
Proof. reflexivity. Qed.
Lemma decode_fs_monitor :
  decode_extension k limit ext FSMN_SIGNATURE d = f ← to_option (fs_monitor_decode d); Ok (with_fs_monitor ext f).
Proof. reflexivity. Qed.
End Signatures.
Lemma decode_payloads st o es :
  extensions_ok st → zlen (ext_block (present (payloads st o))) < 2 ^ 32 →
  decode_list (object_hash st) None default_outcome (present (payloads st o) ++ es) =
  decode_list (object_hash st) None (read_outcome st o) es.
Proof.
  intros [H1 H2 H3 H4] Hl. pose proof (present_small _ Hl) as Hsmall. clear Hl. unfold payloads in *.
  rewrite !present_cons_cons, <- !app_assoc.
  rewrite (decode_written _ _ link_text with_link); [|intros l Hk; by rewrite decode_link, link_decode_text by auto|done].
  rewrite (decode_written _ _ tree_text with_tree); [| |done].
  2:{ intros t Ht. rewrite decode_tree, tree_decode_text; [done|by eapply H1, written_Some|].
      enough (zlen (tree_text t) < 2 ^ 32) by lia. apply (Hsmall TREE_SIGNATURE). rewrite Ht. by do 1 right; left. }
  rewrite (decode_written _ _ (λ r, concat (List.map resolve_text r)) with_resolve_undo); [| |done].
  2:{ intros r Hr. by rewrite decode_resolve_undo, resolve_undo_decode_text by by eapply H3, written_Some. }
  rewrite (decode_written _ _ fsm_text with_fs_monitor); [| |done].
  2:{ intros f Hf. rewrite decode_fs_monitor, fs_monitor_decode_text; [done|by eapply H4, written_Some|].
      pose proof (fsm_text_bitmap f). enough (zlen (fsm_text f) < 2 ^ 32) by lia.
      apply (Hsmall FSMN_SIGNATURE). rewrite Hf. by do 3 right; left. }
  unfold read_outcome. by destruct (is_sparse st).
Qed.

(** ** The end-of-index extension that was written *)
Definition eoie_ext (offset : Z) (hash : ObjectId) : bytes * bytes := (EOIE_SIGNATURE, to_be 4 offset ++ as_slice hash).
Lemma eoie_bytes_ext try_finalize k offset es hash :
  try_finalize k (ext_heads es) = Ok hash → oid_ok hash → Hash.kind hash = k →
  eoie_bytes try_finalize k offset (List.map (λ e : bytes * bytes, (e.1, zlen e.2)) es) = Ok (ext_bytes (eoie_ext offset hash)).
Proof.
  intros Hh [Hl _] Hk. unfold eoie_bytes.
  assert (∀ l : list (bytes * bytes), concat ((λ '(signature, size), signature ++ to_be 4 size) <$>
    List.map (λ e : bytes * bytes, (e.1, zlen e.2)) l) = ext_heads l) as ->.
  { induction l as [|e l IH]; [done|]. unfold ext_heads. cbn [List.map fmap list_fmap concat]. by f_equal. }
  rewrite Hh. cbn [mbind outcome_bind]. unfold ext_bytes, eoie_ext. cbn [fst snd].
  by rewrite zlen_app, zlen_to_be, Hl, Hk.
Qed.
Lemma extension_header_ext {E} e : ext_ok e → extension_header (E := E) (ext_bytes e) = Ok (e.1, zlen e.2, e.2).
Proof.
  intros [H4 Hl]. pose proof (zlen_nonneg e.2). unfold extension_header, ext_bytes. rewrite split_at_app by done. cbn [expect mbind outcome_bind].
  rewrite split_at_app by by rewrite zlen_to_be. cbn [expect mbind outcome_bind]. by rewrite from_to_be by lia.
Qed.
Lemma try_from_slice id : oid_ok id → try_from_bytes (as_slice id) = Ok id.
Proof. intros [Hl _]. unfold try_from_bytes. rewrite Hl. by destruct id. Qed.
Lemma eoie_decode_ext try_finalize block es hash trailer :
  HEADER_SIZE ≤ zlen block < 2 ^ 32 → Forall ext_ok es → es ≠ [] → zlen (ext_block es) < 2 ^ 32 →
  try_finalize Sha1 (ext_heads es) = Ok hash → oid_ok hash → Hash.kind hash = Sha1 → zlen trailer = 20 →
  eoie_decode try_finalize (block ++ ext_block es ++ ext_bytes (eoie_ext (zlen block) hash) ++ trailer) Sha1 =
  Ok (Some (zlen block)).
Proof.
  intros Hb He Hne Hl Hh Ho Hk Ht. unfold eoie_decode. assert (HEADER_SIZE = 12) as Hhead by done. pose proof (zlen_nonneg (ext_block es)).
  pose proof Ho as [Hol _]. rewrite Hk in Hol.
  assert (zlen (ext_bytes (eoie_ext (zlen block) hash)) = 32) as H32.
  { unfold ext_bytes, eoie_ext. cbn [fst snd]. by rewrite !zlen_app, !zlen_to_be, Hol. }
  assert (EOIE_MIN_SIZE_WITH_HEADER = 32) as -> by done. assert (EOIE_MIN_SIZE = 24) as -> by done.
  change (len_in_bytes Sha1) with 20 in *. rewrite !zlen_app, H32, Ht.
  destruct (Z.ltb_spec (zlen block + (zlen (ext_block es) + (32 + 20))) (32 + 20)); [lia|].
  unfold op_sub. rewrite checked_sub_in by lia. cbn [expect mbind outcome_bind]. rewrite checked_sub_in by lia.
  cbn [expect mbind outcome_bind].
  rewrite !(app_assoc block), get_range_app by (rewrite ?zlen_app, ?H32; lia). cbn [expect mbind outcome_bind].
  assert (zlen (eoie_ext (zlen block) hash).2 = 24) as H24 by (cbn [eoie_ext snd]; by rewrite zlen_app, zlen_to_be, Hol).
  rewrite extension_header_ext by (split; [done|lia]). cbn [mbind outcome_bind]. rewrite H24.
  change (eoie_ext (zlen block) hash).1 with EOIE_SIGNATURE. change (eoie_ext (zlen block) hash).2 with (to_be 4 (zlen block) ++ as_slice hash).
  unfold bytes_eqb. rewrite bool_decide_true by done. cbn [negb orb Z.eqb Pos.eqb].
  rewrite split_at_app by (by rewrite zlen_to_be). cbn [expect mbind outcome_bind]. rewrite from_to_be by lia.
  rewrite try_from_slice, Hk by done. rewrite bool_decide_true by done. cbn [negb].
  destruct (Z.ltb_spec (zlen block) HEADER_SIZE); [lia|].
  destruct (Z.ltb_spec (zlen block + (zlen (ext_block es) + (32 + 20)) - 32 - 20) (zlen block)); [lia|]. cbn [orb].
  rewrite <- !app_assoc, get_range_app by (rewrite ?zlen_app; lia). cbn [expect mbind outcome_bind]. unfold iter_new.
  rewrite eoie_loop_block by (done || by apply ext_block_length). cbn [mbind outcome_bind app]. rewrite Hh. cbn [mbind outcome_bind].
  rewrite bool_decide_true by done. cbn [negb]. destruct es; [done|].
  by destruct (Z.eqb_spec (zlen block + (0 + zlen (ext_block (p :: es)))) (zlen block + (zlen (ext_block (p :: es)) + (32 + 20)) - 32 - 20)); [|lia].
Qed.
(** The extension is as long as a SHA-1 hash wants it; an index with SHA-256 hashes is read without. *)
Lemma eoie_decode_sha256 try_finalize data :
  zlen data < 2 ^ 64 → eoie_decode try_finalize data Sha256 = Ok None.
Proof.
  intros Hlen. unfold eoie_decode. pose proof (zlen_nonneg data).
  assert (EOIE_MIN_SIZE_WITH_HEADER = 32) as -> by done. change (len_in_bytes Sha256) with 32.
  destruct (Z.ltb_spec (zlen data) (32 + 32)); [done|].
  unfold op_sub. rewrite checked_sub_in by lia. cbn [expect mbind outcome_bind]. rewrite checked_sub_in by lia.
  cbn [expect mbind outcome_bind]. rewrite get_range_in by lia. cbn [expect mbind outcome_bind]. unfold extension_header.
  set (ext := take _ _). assert (zlen ext = 32) as He by (unfold ext, zlen in *; rewrite length_take, length_drop; lia).
  rewrite (split_at_in _ 4) by lia. cbn [expect mbind outcome_bind].
  rewrite (split_at_in _ 4) by (unfold zlen in *; rewrite length_drop; lia). cbn [expect mbind outcome_bind].
  destruct (_ || _); [done|]. rewrite drop_drop.
  rewrite (split_at_in _ 4) by (unfold zlen in *; rewrite length_drop; lia). cbn [expect mbind outcome_bind]. rewrite drop_drop.
  unfold try_from_bytes. assert (zlen (drop (Z.to_nat 4 + Z.to_nat 4 + Z.to_nat 4) ext) = 20) as ->
    by (unfold zlen in *; rewrite length_drop; lia). cbn [Z.eqb SIZE_OF_SHA1_DIGEST Pos.eqb Hash.kind].
  by rewrite (bool_decide_false (Sha1 = Sha256)), !orb_true_r by done.
Qed.

(** ** The round trip of a file *)
Definition writes_eoie (st : State) (o : Options) : bool :=
  (0 <? zlen (entries st)) && should_write (effective_extensions o) EOIE_SIGNATURE
  && negb (zlen (present (payloads st o)) =? 0).
(** What is read back of a state that is written with the options. *)
Record read_back (st : State) (o : Options) (st' : State) : Prop := {
  rb_hash : object_hash st' = object_hash st;
  rb_version : version st' = detect_required_version st;
  rb_entries : Forall2 (same_entry st (path_backing st')) (kept (entries st)) (entries st');
  rb_sparse : is_sparse st' = existsb (λ e, mode_is_sparse (mode e)) (entries st') || is_sparse st;
  rb_end_of_index : end_of_index_at_decode_time st' = writes_eoie st o;
  rb_tree : tree st' = written o TREE_SIGNATURE (tree st);
  rb_link : link st' = link st;
  rb_resolve_undo : resolve_undo st' = written o REUC_SIGNATURE (resolve_undo st);
  rb_fs_monitor : fs_monitor st' = written o FSMN_SIGNATURE (fs_monitor st);
}.
Lemma present_ok st o : zlen (ext_block (present (payloads st o))) < 2 ^ 32 → Forall ext_ok (present (payloads st o)).
Proof.
  intros Hl. apply list.Forall_forall. intros [s d] Hin. unfold present in Hin. apply list_elem_of_omap in Hin as ([s' d'] & Hin & Hd).
  destruct d' as [d'|]; [|done]. injection Hd as <- <-. split; [|by apply (present_small _ Hl _ _ Hin)].
  unfold payloads in Hin. cbn [fst]. repeat (apply elem_of_cons in Hin as [Hin|Hin]; [apply (f_equal fst) in Hin; cbn [fst] in Hin; by subst|]). by apply not_elem_of_nil in Hin.
Qed.

Section Roundtrip.
Context (try_finalize : Kind → bytes → outcome extension_error ObjectId) (st : State) (o : Options) (ps : list bytes).
Context (Hhasher : ∀ b, ∃ id, try_finalize (object_hash st) b = Ok id ∧ oid_ok id ∧ Hash.kind id = object_hash st).
Context (Hall : entries_ok st (kept (entries st)) ps) (Hn : zlen (entries st) < 2 ^ 32).
Context (Hlong : detect_required_version st ≠ V4 → Forall (λ p, zlen p < PATH_LEN) ps).
Context (Hext : extensions_ok st) (Huntracked : written o UNTR_SIGNATURE (untracked st) = None).
Context (Hsize : 12 + 87 * zlen ps + zlen (concat ps) + zlen (ext_block (present (payloads st o))) < 2 ^ 32).

(** The extensions with the one for the end of the index. *)
Definition all_extensions (block : bytes) (h : ObjectId) : list (bytes * bytes) :=
  present (payloads st o) ++ (if writes_eoie st o then [eoie_ext (zlen block) h] else []).
Lemma state_written :
  ∃ block h, 12 ≤ zlen block ≤ 12 + 87 * zlen ps + zlen (concat ps) ∧ write_entries_block st = Ok {| count := zlen block; inner := block |} ∧
    try_finalize (object_hash st) (ext_heads (present (payloads st o))) = Ok h ∧ oid_ok h ∧ Hash.kind h = object_hash st ∧
    state_write_to try_finalize st o = Ok (block ++ ext_block (all_extensions block h)).
Proof.
  destruct (block_written st ps Hall Hn Hlong) as (block & Hw & Hb).
  destruct (Hhasher (ext_heads (present (payloads st o)))) as (h & Hh & Ho & Hk).
  pose proof (zlen_nonneg (ext_block (present (payloads st o)))).
  unfold emit in Hw. cbn [count inner app] in Hw. destruct (Z.ltb_spec (0 + zlen block) (2 ^ 32)); [|lia].
  exists block, h. repeat (split; [done|]). unfold state_write_to. rewrite Hw. cbn [map_err mbind outcome_bind count].
  pose proof (write_extensions_block _ _ {| count := zlen block; inner := block |} []
    (writers_append st o Hext Huntracked)) as Hx. cbn [count inner app] in Hx. rewrite Z.add_0_l.
  rewrite Hx; [|split; cbn [count inner]; lia|lia]. cbn [map_err mbind outcome_bind inner].
  unfold all_extensions, writes_eoie, ext_block. rewrite map_app, concat_app.
  assert (zlen (List.map (λ e : bytes * bytes, (e.1, zlen e.2)) (present (payloads st o))) = zlen (present (payloads st o))) as ->
    by (unfold zlen; by rewrite length_map).
  destruct (_ && _); [|by rewrite app_nil_r].
  rewrite (eoie_bytes_ext _ _ _ _ h) by done. cbn [map_err mbind outcome_bind List.map concat]. by rewrite app_nil_r, <- app_assoc.
Qed.
Lemma all_extensions_ok block h :
  zlen block < 2 ^ 32 → oid_ok h → Hash.kind h = object_hash st →
  Forall ext_ok (all_extensions block h) ∧ zlen (ext_block (all_extensions block h)) < 2 ^ 33.
Proof.
  intros Hb [Hl _] Hk. pose proof (zlen_nonneg ps). pose proof (zlen_nonneg (concat ps)).
  assert (ext_ok (eoie_ext (zlen block) h) ∧ zlen (ext_bytes (eoie_ext (zlen block) h)) < 100) as [He Hz].
  { pose proof (len_in_bytes_range (Hash.kind h)). unfold ext_ok, ext_bytes, eoie_ext. cbn [fst snd].
    rewrite !zlen_app, !zlen_to_be, Hl. change (zlen EOIE_SIGNATURE) with 4. lia. }
  unfold all_extensions, ext_block. rewrite map_app, concat_app, zlen_app. split.
  - apply Forall_app. split; [apply present_ok; lia|]. destruct (writes_eoie st o); [by apply Forall_singleton|done].
  - unfold ext_block in Hsize. destruct (writes_eoie st o); cbn [List.map concat]; rewrite ?app_nil_r, ?zlen_nil; lia.
Qed.
Lemma decode_all_extensions block h :
  decode_list (object_hash st) None default_outcome (all_extensions block h) =
  Ok (if writes_eoie st o then with_end_of_index (read_outcome st o) else read_outcome st o).
Proof.
  pose proof (zlen_nonneg ps). pose proof (zlen_nonneg (concat ps)).
  unfold all_extensions. rewrite decode_payloads by (done || lia). by destruct (writes_eoie st o).
Qed.
Lemma eoie_of_written block h trailer :
  12 ≤ zlen block < 2 ^ 32 → try_finalize (object_hash st) (ext_heads (present (payloads st o))) = Ok h →
  oid_ok h → Hash.kind h = object_hash st → zlen trailer = len_in_bytes (object_hash st) →
  let out := block ++ ext_block (all_extensions block h) ++ trailer in
  (object_hash st = Sha1 → writes_eoie st o = false → eoie_decode try_finalize out Sha1 = Ok None) →
  ∃ ofs, eoie_decode try_finalize out (object_hash st) = Ok ofs ∧ (ofs = None ∨ ofs = Some (zlen block)).
Proof.
  clear Hhasher Hall Hlong Hext. intros Hb Hh Ho Hk Ht out Hno. destruct (all_extensions_ok block h) as [_ Hs]; [lia|done|done|].
  pose proof (len_in_bytes_range (object_hash st)). pose proof (zlen_nonneg ps). pose proof (zlen_nonneg (concat ps)).
  destruct (object_hash st) eqn:Es.
  2:{ exists None. split; [|by left]. apply eoie_decode_sha256. unfold out. rewrite !zlen_app. lia. }
  destruct (writes_eoie st o) eqn:Ew; [|exists None; auto].
  exists (Some (zlen block)). split; [|by right]. unfold out, all_extensions, ext_block. rewrite Ew, map_app, concat_app.
  cbn [List.map concat]. rewrite app_nil_r, <- app_assoc.
  apply (eoie_decode_ext _ block (present (payloads st o)) h); [done|apply present_ok; lia| |lia|done|done|done|done].
  intros Hnil. unfold writes_eoie in Ew. rewrite Hnil in Ew. by rewrite andb_false_r in Ew.
Qed.
End Roundtrip.

(** C21: an index that is written as a file and read again is the same: the entries that are not
    marked as removed come back in order with their stat data, ids, modes, paths and stored flags;
    the link to a shared index comes back, and the cached tree, the resolve-undo paths and the state of the
    file-system monitor do if the options have them written; and the checksum of the file is
    the one that was written. The paths are shorter than 4095 bytes unless the version is 4 (see
    [GitIndex.long_path_not_skipped]) and hold no NUL; modes have the bits the code knows; entries and extensions are
    well-formed with ids of the kind of the index, which the hasher gives too; an untracked cache is
    not written; all fits in 4 gigabytes; and, if no end-of-index extension is written to an index with
    SHA-1 hashes, the end of the file does not look like one. *)
Theorem index_file_roundtrip (try_finalize : Kind → bytes → outcome extension_error ObjectId)
    (st : State) (o : Options) (ps : list bytes)
    (Hhasher : ∀ b, ∃ id, try_finalize (object_hash st) b = Ok id ∧ oid_ok id ∧ Hash.kind id = object_hash st)
    (Hall : entries_ok st (kept (entries st)) ps) (Hn : zlen (entries st) < 2 ^ 32)
    (Hlong : detect_required_version st ≠ V4 → Forall (λ p, zlen p < PATH_LEN) ps)
    (Hext : extensions_ok st) (Huntracked : written o UNTR_SIGNATURE (untracked st) = None)
    (Hsize : 12 + 87 * zlen ps + zlen (concat ps) + zlen (ext_block (present (payloads st o))) < 2 ^ 32) :
  ∃ out hash, file_write_to try_finalize st o = Ok (out, detect_required_version st, hash) ∧
    ((object_hash st = Sha1 → writes_eoie st o = false → eoie_decode try_finalize out Sha1 = Ok None) →
     ∀ expected, expected = None ∨ expected = Some hash →
     ∃ st', from_bytes try_finalize out (object_hash st) expected None =
              Ok (st', if is_null hash then None else Some hash) ∧ read_back st o st').
Proof.
  destruct (state_written try_finalize st o ps Hhasher Hall Hn Hlong Hext Huntracked Hsize)
    as (block & h & Hb & Hw & Hh & Hho & Hhk & Hwr).
  pose proof (index_entries_roundtrip st ps Hall Hn Hlong) as Hrt. rewrite Hw in Hrt. cbn [inner] in Hrt.
  set (es := all_extensions st o block h) in *. 
  assert (∃ hash, file_write_to try_finalize st o = Ok ((block ++ ext_block es) ++ as_slice hash, detect_required_version st, hash)
    ∧ oid_ok hash ∧ Hash.kind hash = object_hash st) as (hash & Hfw & Hok & Hk).
  { unfold file_write_to. rewrite Hwr. cbn [mbind outcome_bind]. destruct (skip_hash o).
    - exists (null (object_hash st)). split; [done|]. apply null_ok.
    - destruct (Hhasher (block ++ ext_block es)) as (hash & Hf & Hok & Hk). exists hash. by rewrite Hf. }
  exists ((block ++ ext_block es) ++ as_slice hash), hash. split; [done|]. intros Hno expected Hexp.
  pose proof Hok as [Hlen _]. rewrite Hk in Hlen. rewrite <- app_assoc in *.
  pose proof (zlen_nonneg (ext_block (present (payloads st o)))). assert (zlen block < 2 ^ 32) as Hb32 by lia.
  destruct (all_extensions_ok st o ps Hsize block h Hb32 Hho Hhk) as [Hes Hesl]. fold es in Hes, Hesl.
  destruct (eoie_of_written try_finalize st o ps Hsize block h (as_slice hash)) as (ofs & He & Hofs);
    [lia|done|done|done|done|done|]. fold es in He.
  destruct (Hrt (ext_block es ++ as_slice hash) ofs) as (ents & backing & Hdec & Hsame).
  { rewrite zlen_app. pose proof (zlen_nonneg (ext_block es)). lia. }
  { done. }
  assert (∃ x, header_decode (block ++ ext_block es ++ as_slice hash) (object_hash st) = Ok x) as [x Hhd].
  { unfold decode_entries, entries_head in Hdec. destruct (header_decode _ _) as [x| |]; [by exists x|done|done]. }
  unfold from_bytes. rewrite Hhd, He. cbn [map_err mbind outcome_bind]. rewrite Hdec. cbn [map_err mbind outcome_bind].
  pose proof (len_in_bytes_range (object_hash st)).
  rewrite (decode_all_block _ _ _ _ _ Hes Hlen ltac:(rewrite zlen_app; lia) (decode_all_extensions st o ps Hext Hsize block h)).
  cbn [map_err mbind outcome_bind]. unfold assemble. rewrite Hlen, Z.eqb_refl. cbn [ensure mbind outcome_bind].
  rewrite from_bytes_or_panic_slice by done. cbn [mbind outcome_bind].
  eexists. split.
  - assert (∀ c : option ObjectId, c = None ∨ c = Some hash → match expected, c with
      | Some e, Some a => ensure (bool_decide (a = e)) SharedChecksumMismatch | _, _ => Ok tt end = Ok tt) as Hsum.
    { intros c [-> | ->]; destruct Hexp as [-> | ->]; try done. cbn. by rewrite bool_decide_true. }
    rewrite Hsum by (destruct (is_null hash); auto). cbn [mbind outcome_bind]. by destruct (is_null hash).
  - by destruct (writes_eoie st o) eqn:Ew; split; cbn.
Qed.

(** ** Witnesses *)
(** A stand-in for the hasher: the sum of the bytes. *)
Definition sum_hash (k : Kind) (b : bytes) : outcome extension_error ObjectId :=
  let digest := foldr (λ x s, (x + s) mod 256) 1 b in
  Ok (match k with
      | Sha1 => OidSha1 (replicate 20 digest)
      | Sha256 => OidSha256 (replicate 32 digest)
      end).
Lemma sum_hash_ok k b : ∃ id, sum_hash k b = Ok id ∧ oid_ok id ∧ Hash.kind id = k.
Proof.
  assert (0 ≤ foldr (λ x s, (x + s) mod 256) 1 b < 256) as Hd.
  { destruct b as [|x b]; cbn [foldr]; [lia|]. apply Z.mod_pos_bound. lia. }
  eexists. split; [done|]. destruct k; (split; [split; [done|]|done]); cbn [as_slice]; by apply Forall_replicate.
Qed.
Definition sample_tree : Tree :=
  {| tree_name := []; tree_id := OidSha1 (replicate 20 5); num_entries := Some 2;
     children := [{| tree_name := [97]; tree_id := null Sha1; num_entries := None; children := [] |}] |}.
Definition sample_file : State :=
  {| object_hash := Sha1; version := V2; entries := sample_entries; path_backing := sample_backing; is_sparse := false;
     end_of_index_at_decode_time := false; offset_table_at_decode_time := false; tree := Some sample_tree;
     link := Some {| shared_index_checksum := OidSha1 (replicate 20 6); bitmaps := None |};
     resolve_undo := Some [{| undo_name := [97; 47; 98];
                              stages := [Some {| undo_mode := 33188; undo_id := OidSha1 (replicate 20 7) |}; None; None] |}];
     untracked := None; fs_monitor := Some {| token := TokenV2 [49; 58]; entry_dirty := sample_vec |} |}.
Definition all_options : Options := {| extensions := All; skip_hash := false; skip_stale_tree_cache := false |}.

Lemma sample_vec_ok : vec_ok sample_vec.
Proof.
  destruct (decode_sound (vec_bytes sample_vec)) as [(v & r & H1 & H2 & _)|[e He]].
  - apply (bool_decide_unpack _). vm_compute. exact I.
  - vm_compute in H1. injection H1 as <- <-. exact H2.
  - vm_compute in He. done.
Qed.
Ltac by_evaluation := apply (bool_decide_unpack _); vm_compute; exact I.
Lemma sample_extensions_ok : extensions_ok sample_file.
Proof.
  assert (tree_ok Sha1 {| tree_name := [97]; tree_id := null Sha1; num_entries := None; children := [] |}) as Hc.
  { by repeat constructor; try by_evaluation. }
  split; intros x [= <-].
  - constructor; try by_evaluation; [apply Sorted.SSorted_cons; constructor|by apply Forall_singleton].
  - by split; try by_evaluation.
  - apply Forall_singleton. split; try by_evaluation. repeat constructor; by_evaluation.
  - split; [|exact sample_vec_ok]. split; by_evaluation.
Qed.

Lemma index_file_safe_witness :
  let data := header_bytes V2 0 ++ replicate 20 1 in
  safe (from_bytes sum_hash data Sha1 None None) (λ '(st, _),
    read_ok Sha1 st ∧ verify_entries st ≠ Panic ∧ (verify_entries st = Ok tt → state_ok st)) ∧
  ∃ st sum, from_bytes sum_hash data Sha1 None None = Ok (st, sum).
Proof.
  split.
  - apply (index_file_safe sum_hash (header_bytes V2 0 ++ replicate 20 1) Sha1 None None).
    + apply (bool_decide_unpack _). vm_compute. exact I.
    + reflexivity.
    + intros b. discriminate.
  - vm_compute. eauto.
Defined.
Lemma index_file_roundtrip_witness :
  writes_eoie sample_file all_options = true ∧
  ∃ out hash, file_write_to sum_hash sample_file all_options = Ok (out, V3, hash) ∧
    ((Sha1 = Sha1 → writes_eoie sample_file all_options = false → eoie_decode sum_hash out Sha1 = Ok None) →
     ∀ expected, expected = None ∨ expected = Some hash →
     ∃ st', from_bytes sum_hash out Sha1 expected None = Ok (st', if is_null hash then None else Some hash) ∧
            read_back sample_file all_options st').
Proof.
  split; [vm_compute; reflexivity|].
  apply (index_file_roundtrip sum_hash sample_file all_options sample_paths).
  - apply sum_hash_ok.
  - apply (sample_entries_ok V2).
  - reflexivity.
  - intros _. repeat constructor.
  - apply sample_extensions_ok.
  - reflexivity.
  - vm_compute. reflexivity.
Defined.
