(* ===== verification/GitIndexThreads.v ===== *)
(** * [gix-index/src/decode/mod.rs]: reading the index with threads

    Entries are read by several threads if the index has an offset table, each for a share of
    the table, and joined in the order of their ids. A thread computes a function of the bytes of the
    file; that of the extensions gives what reading them in place gives. A thread that panics
    makes the scope panic, whether it is joined or not. *)

From S2P Require Import Prelude InOrder Slices Btoi Hash Ewah PackEntry GitIndex GitIndexExtensions GitIndexUntracked GitIndexFile.

Record EntriesOutcome := { out_entries : list Entry; out_paths : bytes; out_sparse : bool }.

(** [slice::chunks] for a size that is not zero. *)
Fixpoint chunks_of {A} (fuel : nat) (size : nat) (l : list A) : list (list A) :=
  match fuel, l with
  | S fuel, _ :: _ => take size l :: chunks_of fuel size (drop size l)
  | _, _ => []
  end.
(** [sum::<u32>()] *)
Fixpoint sum_u32 {E} (l : list Z) (acc : Z) : outcome E Z :=
  match l with
  | [] => Ok acc
  | n :: l => acc ← op_add 32 acc n; sum_u32 l acc
  end.

Section Threads.
Context (try_finalize : Kind → bytes → outcome extension_error ObjectId).
(** [(a as f32 / b as f32).ceil() as usize] *)
Context (ceil_div : Z → Z → Z).

(** The loop of one thread. *)
Fixpoint read_offsets (data : bytes) (object_hash : Kind) (version : Version) (chunks : list Offset)
    (out : EntriesOutcome) : outcome index_error EntriesOutcome :=
  match chunks with
  | [] => Ok out
  | offset :: chunks =>
      data' ← expect (get_from data (from_beginning_of_file offset));
      '(entries, path_backing, chunk_is_sparse, _) ←
        chunk data' (out_entries out) (out_paths out) (offset_num_entries offset) object_hash version;
      read_offsets data object_hash version chunks
        {| out_entries := entries; out_paths := path_backing; out_sparse := out_sparse out || chunk_is_sparse |}
  end.
Definition no_entries : EntriesOutcome := {| out_entries := []; out_paths := []; out_sparse := false |}.
(** The sum is how much is reserved. *)
Definition read_entries_thread (data : bytes) (object_hash : Kind) (version : Version) (id : nat) (chunks : list Offset)
    : outcome index_error (nat * EntriesOutcome) :=
  _ ← sum_u32 (offset_num_entries <$> chunks) 0;
  out ← read_offsets data object_hash version chunks no_entries;
  Ok (id, out).

Definition shift_path (ofs : Z) (e : Entry) : Entry :=
  {| stat := stat e; id := id e; flags := flags e; mode := mode e; path := ((path e).1 + ofs, (path e).2 + ofs) |}.
Definition append_outcome (lhs rhs : EntriesOutcome) : EntriesOutcome :=
  let ofs := zlen (out_paths lhs) in
  {| out_entries := out_entries lhs ++ (shift_path ofs <$> out_entries rhs);
     out_paths := out_paths lhs ++ out_paths rhs;
     out_sparse := out_sparse lhs || out_sparse rhs |}.
(** The joining loop. *)
Fixpoint join_results (fuel : nat) (results : InOrderIter index_error EntriesOutcome)
    (acc : outcome index_error EntriesOutcome) : outcome index_error EntriesOutcome :=
  match fuel with
  | O => Panic
  | S fuel =>
      '(results, res) ← in_order_next results;
      match acc, res with
      | Ok lhs, Some (Ok rhs) => join_results fuel results (Ok (append_outcome lhs rhs))
      | Ok _, Some err => join_results fuel results err
      | _, _ => acc
      end
  end.
Definition returned {E A} (m : outcome E A) : bool := match m with Panic => false | _ => true end.
Definition entries_by_threads (data : bytes) (object_hash : Kind) (version : Version) (entry_offsets : list Offset)
    (num_threads : Z) : outcome index_error EntriesOutcome :=
  let chunk_size := ceil_div (zlen entry_offsets) num_threads in
  _ ← assert_that (negb (chunk_size =? 0));
  let entry_offsets_chunked := chunks_of (length entry_offsets) (Z.to_nat chunk_size) entry_offsets in
  let threads := imap (read_entries_thread data object_hash version) entry_offsets_chunked in
  _ ← assert_that (forallb returned threads);
  '(results, acc) ← in_order_next (in_order threads);
  acc ← expect acc;
  join_results (S (length threads)) results acc.

(** [State::from_bytes()] *)
Definition from_bytes_with_threads (num_threads : Z) (data : bytes) (object_hash : Kind)
    (expected_checksum : option ObjectId) (limit : option Z) : outcome file_error (State * option ObjectId) :=
  _ ← map_err BadEntries (header_decode data object_hash);
  start_of_extensions ← map_err BadExtension (eoie_decode try_finalize data object_hash);
  '(version, num_entries, post_header_data) ←
    map_err BadEntries (entries_head data start_of_extensions object_hash limit);
  let entries := chunk post_header_data [] [] num_entries object_hash version in
  match start_of_extensions, 1 <? num_threads with
  | Some offset, true =>
      extensions_data ← expect (get_from data offset);
      index_offsets_table ← to_option (ieot_find extensions_data object_hash);
      num_threads ← op_sub 64 num_threads 1;
      let entries_res :=
        match index_offsets_table with
        | Some entry_offsets =>
            acc ← entries_by_threads data object_hash version entry_offsets num_threads;
            _ ← op_sub 64 (zlen data) (len_in_bytes object_hash);
            Ok acc
        | None =>
            '(entries, path_backing, is_sparse, _) ← entries;
            Ok {| out_entries := entries; out_paths := path_backing; out_sparse := is_sparse |}
        end in
      _ ← assert_that (returned entries_res);
      '(ext, data) ← map_err BadExtension (decode_all extensions_data object_hash limit);
      out ← map_err BadEntries entries_res;
      assemble object_hash expected_checksum version (out_entries out) (out_paths out) (out_sparse out) ext data
  | _, _ =>
      '(entries, path_backing, is_sparse, data) ← map_err BadEntries entries;
      '(ext, data) ← map_err BadExtension (decode_all data object_hash limit);
      assemble object_hash expected_checksum version entries path_backing is_sparse ext data
  end.
End Threads.

(** ** A block of entries, wherever it is read

    What is read does not depend on the entries that were read before, but for the path in front of a
    delta path. *)
Definition shift_range (ofs : Z) (r : Z * Z) : Z * Z := (r.1 + ofs, r.2 + ofs).
Definition within (b : bytes) (prev : option (Z * Z)) : Prop :=
  match prev with Some (s, t) => 0 ≤ s ≤ t ∧ t ≤ zlen b | None => True end.
Lemma get_range_behind {A} (x b : list A) i j : 0 ≤ i → get_range (x ++ b) (i + zlen x) (j + zlen x) = get_range b i j.
Proof.
  intros Hi. pose proof (zlen_nonneg x). destruct (decide (i ≤ j ∧ j ≤ zlen b)) as [[Hij Hj]|Hn].
  - rewrite !get_range_in by (rewrite ?zlen_app; lia). f_equal. replace (j + zlen x - (i + zlen x)) with (j - i) by lia. f_equal.
    rewrite drop_app_ge by (unfold zlen; lia). f_equal. unfold zlen. lia.
  - unfold get_range. rewrite zlen_app. zb; try done; lia.
Qed.
Lemma load_path_behind data x b flags len b1 d :
  load_path data (x ++ b) flags len = Ok (b1, d) → ∃ p, b1 = x ++ b ++ p ∧ load_path data b flags len = Ok (b ++ p, d).
Proof.
  unfold load_path. intros H.
  match type of H with (mbind _ ?m) = _ => destruct m as [[p d']| |]; [|done|done] end.
  cbn [mbind outcome_bind] in *. injection H as <- <-. exists p. by rewrite app_assoc.
Qed.
Lemma load_delta_path_behind data x b prev b1 d : within b prev →
  load_delta_path data (x ++ b) (shift_range (zlen x) <$> prev) = Ok (b1, d) →
  ∃ p, b1 = x ++ b ++ p ∧ load_delta_path data b prev = Ok (b ++ p, d).
Proof.
  unfold load_delta_path. intros Hprev H. pose proof (var_int_safe data) as Hv. destruct (var_int data) as [[n data']| |]; [|done|done].
  cbn [mbind outcome_bind safe] in H, Hv |- *. destruct Hv as [Hn _].
  assert (∀ z, ('(path, data) ← ok_or tt (split_at_byte_exclusive data' 0); Ok (E := ()) (((x ++ b) ++ z) ++ path, data)) = Ok (b1, d) →
    ∃ p, b1 = x ++ b ++ p ∧ ('(path, data) ← ok_or tt (split_at_byte_exclusive data' 0); Ok (E := ()) ((b ++ z) ++ path, data)) = Ok (b ++ p, d)) as Hend.
  { intros z. destruct (split_at_byte_exclusive data' 0) as [[p r]|]; [|done]. cbn [ok_or mbind outcome_bind]. intros [= <- <-].
    exists (z ++ p). by rewrite <- !app_assoc. }
  pose proof (Hend []) as Hnone. rewrite !app_nil_r in Hnone.
  destruct prev as [[s t]|]; cbn [fmap option_fmap option_map shift_range fst snd] in H; [|by apply Hnone].
  destruct Hprev as [Hst Ht]. pose proof (zlen_nonneg x). unfold checked_sub in H |- *. destruct (checked 64 (t + zlen x - n)) as [e|] eqn:He; [|done].
  apply checked_Some in He as [<- He]. cbn [ok_or mbind outcome_bind] in H. destruct (checked 64 (t + zlen x - n - (s + zlen x))) as [c|] eqn:Hc; [|done].
  apply checked_Some in Hc as [<- Hc]. rewrite checked_in by lia. cbn [ok_or mbind outcome_bind] in H |- *. rewrite checked_in by lia.
  cbn [ok_or mbind outcome_bind]. replace (t + zlen x - n - (s + zlen x)) with (t - n - s) in H by lia.
  destruct (0 <? t - n - s); [|by apply Hnone].
  replace (t + zlen x - n) with (t - n + zlen x) in H by lia. rewrite get_range_behind in H by lia.
  destruct (get_range b s (t - n)) as [z|]; [|done]. by apply Hend.
Qed.
Lemma load_any_path_behind (delta : bool) data x b prev flags len b1 d : within b prev →
  (if delta then load_delta_path data (x ++ b) (shift_range (zlen x) <$> prev) else load_path data (x ++ b) flags len) = Ok (b1, d) →
  ∃ p, b1 = x ++ b ++ p ∧ (if delta then load_delta_path data b prev else load_path data b flags len) = Ok (b ++ p, d).
Proof. destruct delta; [apply load_delta_path_behind|intros _; apply load_path_behind]. Qed.
Lemma load_one_behind data x b hl delta prev e b1 d : within b prev →
  load_one data (x ++ b) hl delta (shift_range (zlen x) <$> prev) = Ok (e, b1, d) →
  ∃ p e0, b1 = x ++ b ++ p ∧ e = shift_path (zlen x) e0 ∧ path e0 = (zlen b, zlen (b ++ p)) ∧ load_one data b hl delta prev = Ok (e0, b ++ p, d).
Proof.
  unfold load_one. intros Hprev H.
  repeat match type of H with
  | mbind _ (ok_or tt ?o) = _ => destruct o as [[? ?]|]; [cbn [ok_or mbind outcome_bind] in H |- *|done]
  end.
  match type of H with mbind _ ?m = _ => destruct m as [[b2 d2]| |] eqn:Hp; [|done|done] end.
  apply load_any_path_behind in Hp as (p & -> & ->); [|done].
  cbn [mbind outcome_bind] in *. destruct (from_bytes_or_panic _) as [i| |]; [|done|done]. cbn [mbind outcome_bind] in *.
  injection H as <- <- <-. eexists p, _. split; [done|]. split; [|split; [|done]]; [|done].
  unfold shift_path. cbn [stat id GitIndex.flags mode path fst snd]. f_equal. rewrite !zlen_app. f_equal; lia.
Qed.

Lemma shift_shift a b e : shift_path a (shift_path b e) = shift_path (a + b) e.
Proof. unfold shift_path. cbn [stat id GitIndex.flags mode path fst snd]. do 2 f_equal; lia. Qed.
Lemma append_assoc x y z : append_outcome (append_outcome x y) z = append_outcome x (append_outcome y z).
Proof.
  unfold append_outcome. cbn [out_entries out_paths out_sparse]. f_equal; [|by rewrite app_assoc|by rewrite orb_assoc].
  rewrite fmap_app, <- app_assoc, zlen_app, <- list_fmap_compose. do 2 f_equal. apply list_fmap_ext. intros _ e _.
  by rewrite <- shift_shift.
Qed.
Lemma append_no_entries x : append_outcome x no_entries = x.
Proof. destruct x. unfold append_outcome. cbn. by rewrite !app_nil_r, orb_false_r. Qed.
Lemma no_entries_append x : append_outcome no_entries x = x.
Proof.
  destruct x as [es b s]. unfold append_outcome. cbn. f_equal. rewrite <- (list_fmap_id es) at 2.
  apply list_fmap_ext. intros _ e _. unfold shift_path. destruct e as [? ? ? ? [p q]]. cbn. by rewrite !Z.add_0_r.
Qed.

Definition outcome_of (es : list Entry) (b : bytes) (s : bool) : EntriesOutcome :=
  {| out_entries := es; out_paths := b; out_sparse := s |}.
Lemma shift_none e : shift_path 0 e = e.
Proof. unfold shift_path. destruct e as [? ? ? ? [p q]]. cbn. by rewrite !Z.add_0_r. Qed.
Lemma shift_none_all (es : list Entry) : shift_path 0 <$> es = es.
Proof. rewrite <- (list_fmap_id es) at 2. apply list_fmap_ext. intros _ e _. apply shift_none. Qed.

Section Blocks.
Context (k : Kind) (data : bytes) (v : Version).
Definition loop (n : nat) (i : Z) (d : bytes) (es : list Entry) (b : bytes) (prev : option (Z * Z)) (s : bool) :=
  chunk_loop n i d es b (len_in_bytes k) (bool_decide (v = V4)) prev s.
(** Entries that were read behind other bytes of paths are read without them. *)
Lemma chunk_loop_behind x n : ∀ i d es b prev s es' b' s' rest, within b prev →
  loop n i d es (x ++ b) (shift_range (zlen x) <$> prev) s = Ok (es', b', s', rest) →
  ∃ es1 p sp, es' = es ++ (shift_path (zlen x) <$> es1) ∧ b' = x ++ b ++ p ∧ s' = s || sp ∧
    ∀ i0 es0 s0, loop n i0 d es0 b prev s0 = Ok (es0 ++ es1, b ++ p, s0 || sp, rest).
Proof.
  unfold loop. induction n as [|n IH]; intros i d es b prev s es' b' s' rest Hprev H; cbn [chunk_loop] in H |- *.
  { injection H as <- <- <- <-. exists [], [], false. rewrite !app_nil_r, orb_false_r. repeat (split; [done|]). intros i0 es0 s0. by rewrite !app_nil_r, orb_false_r. }
  destruct (load_one d (x ++ b) _ _ _) as [[[e b1] d1]| |] eqn:Hl; [|done|done]. cbn [map_err mbind outcome_bind] in H.
  apply load_one_behind in Hl as (p0 & e0 & -> & -> & Hpath & Hl); [|done].
  apply (IH _ _ _ (b ++ p0) (Some (path e0))) in H as (es1 & p & sp & -> & -> & -> & Hrun).
  - exists (e0 :: es1), (p0 ++ p), (mode_is_sparse (mode e0) || sp). rewrite fmap_cons, <- !app_assoc, orb_assoc. repeat (split; [done|]).
    intros i0 es0 s0. rewrite Hl. cbn [map_err mbind outcome_bind]. rewrite Hrun. by rewrite <- !app_assoc, orb_assoc.
  - rewrite Hpath. cbn. rewrite zlen_app. pose proof (zlen_nonneg p0). pose proof (zlen_nonneg b). lia.
Qed.
(** One block of entries behind another; the path in front of an entry is that of the last one that was read. *)
Lemma loop_add n m : ∀ i d es b s,
  loop (n + m) i d es b (path <$> list.last es) s =
    '(es', b', s', d') ← loop n i d es b (path <$> list.last es) s; loop m (i + Z.of_nat n) d' es' b' (path <$> list.last es') s'.
Proof.
  unfold loop. induction n as [|n IH]; intros i d es b s; cbn [chunk_loop Nat.add mbind outcome_bind]; [by rewrite Z.add_0_r|].
  destruct (load_one _ _ _ _ _) as [[[e b1] d1]| |]; [|done|done]. cbn [map_err mbind outcome_bind].
  pose proof (IH (i + 1) d1 (es ++ [e]) b1 (s || mode_is_sparse (mode e))) as H. rewrite list.last_snoc in H. cbn [fmap option_fmap option_map] in H. rewrite H.
  by replace (i + 1 + Z.of_nat n) with (i + Z.of_nat (S n)) by lia.
Qed.

(** The offset table tells where blocks of entries begin: when the entries are read in sequence, [d] is what is left and [es] and
    [b] are what was read in front of it. The first entry of a block is read alike with and without the path in front of it, which for
    delta paths means that it keeps nothing of that path. *)
Fixpoint table_ok (offsets : list Offset) (d : bytes) (es : list Entry) (b : bytes) : Prop :=
  match offsets with
  | [] => True
  | o :: offsets =>
      (0 ≤ from_beginning_of_file o ≤ zlen data ∧ d = drop (Z.to_nat (from_beginning_of_file o)) data) ∧
      0 ≤ offset_num_entries o ∧
      (0 < offset_num_entries o →
       load_one d b (len_in_bytes k) (bool_decide (v = V4)) (path <$> list.last es) = load_one d b (len_in_bytes k) (bool_decide (v = V4)) None) ∧
      match loop (Z.to_nat (offset_num_entries o)) 0 d es b (path <$> list.last es) false with
      | Ok (es', b', _, rest) => table_ok offsets rest es' b'
      | _ => False
      end
  end.
Fixpoint total (offsets : list Offset) : Z :=
  match offsets with [] => 0 | o :: offsets => offset_num_entries o + total offsets end.
Lemma total_app a b : total (a ++ b) = total a + total b.
Proof. induction a as [|o a IH]; cbn [total app]; lia. Qed.
Lemma table_nonneg offsets : ∀ d es b, table_ok offsets d es b → Forall (λ o, 0 ≤ offset_num_entries o) offsets.
Proof.
  induction offsets as [|o offsets IH]; intros d es b; cbn [table_ok]; [done|]. intros (_ & Ho & _ & Ht).
  apply Forall_cons_2; [done|]. destruct (loop _ _ _ _ _ _ _) as [[[[? ?] ?] ?]| |]; [by eapply IH|done|done].
Qed.
Lemma offsets_total_nonneg offsets : Forall (λ o, 0 ≤ offset_num_entries o) offsets → 0 ≤ total offsets.
Proof. induction 1; cbn [total]; lia. Qed.

(** A block that was read in sequence, read from any part [y] of the bytes of paths. *)
Lemma block_alone n d es x y es' b' s' rest :
  ((0 < n)%nat → load_one d (x ++ y) (len_in_bytes k) (bool_decide (v = V4)) (path <$> list.last es) =
                load_one d (x ++ y) (len_in_bytes k) (bool_decide (v = V4)) None) →
  loop n 0 d es (x ++ y) (path <$> list.last es) false = Ok (es', b', s', rest) →
  ∃ es1 p sp, es' = es ++ (shift_path (zlen x) <$> es1) ∧ b' = x ++ y ++ p ∧
    (∀ es0, loop n 0 d es0 y None false = Ok (es0 ++ es1, y ++ p, sp, rest)) ∧
    ∀ i s, loop n i d es (x ++ y) (path <$> list.last es) s = Ok (es', b', s || sp, rest).
Proof.
  intros Hkeep H.
  assert (∀ i s, loop n i d es (x ++ y) (path <$> list.last es) s = loop n i d es (x ++ y) None s) as Hnone.
  { intros i s. unfold loop. destruct n as [|n]; [done|]. cbn [chunk_loop]. by rewrite Hkeep by lia. }
  rewrite Hnone in H. pose proof H as H'. apply (chunk_loop_behind x n 0 d es y None) in H as (es1 & p & sp & -> & -> & -> & Hrun); [|done].
  apply (chunk_loop_behind [] n 0 d es (x ++ y) None) in H' as (es2 & p2 & sp2 & Hes & Hp & Hs & Hrun2); [|done].
  change (zlen (@nil Z)) with 0 in Hes. rewrite shift_none_all in Hes. cbn [app orb] in Hp, Hs. subst sp2.
  exists es1, p, sp. split; [done|]. split; [done|]. split; [intros es0; apply Hrun|].
  intros i s. rewrite Hnone, Hrun2. by rewrite Hes, Hp.
Qed.
(** A thread reads what reading in sequence reads behind [x]. *)
Lemma read_offsets_seq x es0 offsets rest : ∀ d before,
  table_ok (offsets ++ rest) d (es0 ++ (shift_path (zlen x) <$> out_entries before)) (x ++ out_paths before) →
  ∃ out d' sp, read_offsets data k v offsets before = Ok out ∧ out_sparse out = out_sparse before || sp ∧
    table_ok rest d' (es0 ++ (shift_path (zlen x) <$> out_entries out)) (x ++ out_paths out) ∧
    ∀ i s, loop (Z.to_nat (total offsets)) i d (es0 ++ (shift_path (zlen x) <$> out_entries before)) (x ++ out_paths before)
        (path <$> list.last (es0 ++ (shift_path (zlen x) <$> out_entries before))) s =
      Ok (es0 ++ (shift_path (zlen x) <$> out_entries out), x ++ out_paths out, s || sp, d').
Proof.
  induction offsets as [|o offsets IH]; intros d before Ht; cbn [app table_ok read_offsets total] in *.
  { exists before, d, false. rewrite orb_false_r. repeat (split; [done|]). intros i s. unfold loop. cbn [chunk_loop]. by rewrite orb_false_r. }
  set (es := es0 ++ (shift_path (zlen x) <$> out_entries before)) in *.
  destruct Ht as ((Hp & Hd) & Hn & Hkeep & Ht). destruct (loop _ _ _ _ _ _ _) as [[[[es' b'] s'] d1]| |] eqn:Hl; [|done|done].
  apply block_alone in Hl as (es1 & p & sp & -> & -> & Hone & Hseq); [|intros ?; apply Hkeep; lia].
  rewrite get_from_in by lia. rewrite <- Hd. cbn [expect mbind outcome_bind]. unfold chunk.
  fold (loop (Z.to_nat (offset_num_entries o)) 0 d (out_entries before) (out_paths before) None false). rewrite Hone. cbn [mbind outcome_bind].
  set (next := outcome_of (out_entries before ++ es1) (out_paths before ++ p) (out_sparse before || sp)).
  assert (es ++ (shift_path (zlen x) <$> es1) = es0 ++ (shift_path (zlen x) <$> out_entries next)) as Hes.
  { subst es. cbn [next outcome_of out_entries]. by rewrite fmap_app, app_assoc. }
  rewrite Hes in Ht, Hseq. change (out_paths before ++ p) with (out_paths next) in Ht, Hseq.
  pose proof (table_nonneg _ _ _ _ Ht) as Hnn. apply Forall_app in Hnn as [Hnn _]. apply offsets_total_nonneg in Hnn.
  destruct (IH _ _ Ht) as (out & d' & sp' & Hread & Hsp & Htab & Hrun). exists out, d', (sp || sp'). split; [exact Hread|].
  split; [rewrite Hsp; cbn [next outcome_of out_sparse]; by rewrite orb_assoc|]. split; [done|]. intros i s.
  rewrite Z2Nat.inj_add by lia. rewrite loop_add, Hseq. cbn [mbind outcome_bind]. by rewrite Hrun, orb_assoc.
Qed.
Lemma sum_u32_total {E} g : ∀ acc,
  0 ≤ acc → Forall (λ o, 0 ≤ offset_num_entries o) g → acc + total g < 2 ^ 32 →
  sum_u32 (E := E) (offset_num_entries <$> g) acc = Ok (acc + total g).
Proof.
  induction g as [|o g IH]; intros acc Ha Hg Hs; cbn [fmap list_fmap sum_u32 total] in *; [by rewrite Z.add_0_r|].
  apply Forall_cons_1 in Hg as [Ho Hg]. pose proof (offsets_total_nonneg _ Hg).
  rewrite op_add_ok by lia. cbn [mbind outcome_bind]. rewrite IH by (done || lia). by rewrite Z.add_assoc.
Qed.

(** What the threads return, and what it is together. *)
Lemma threads_read groups : ∀ d before,
  table_ok (concat groups) d (out_entries before) (out_paths before) → total (concat groups) < 2 ^ 32 →
  ∃ outs d' sp, Forall2 (λ g out, ∀ id, read_entries_thread data k v id g = Ok (id, out)) groups outs ∧
    out_sparse (foldl append_outcome before outs) = out_sparse before || sp ∧
    ∀ i s, loop (Z.to_nat (total (concat groups))) i d (out_entries before) (out_paths before) (path <$> list.last (out_entries before)) s =
      Ok (out_entries (foldl append_outcome before outs), out_paths (foldl append_outcome before outs), s || sp, d').
Proof.
  induction groups as [|g groups IH]; intros d before Ht Hl; cbn [concat] in *.
  { exists [], d, false. rewrite orb_false_r. repeat (split; [done|]). intros i s. unfold loop. cbn [chunk_loop total Z.to_nat foldl]. by rewrite orb_false_r. }
  rewrite total_app in Hl |- *. pose proof (table_nonneg _ _ _ _ Ht) as Hnn. apply Forall_app in Hnn as [Hng Hnr].
  pose proof (offsets_total_nonneg _ Hng). pose proof (offsets_total_nonneg _ Hnr).
  destruct (read_offsets_seq (out_paths before) (out_entries before) g (concat groups) d no_entries) as (out & d1 & sp & Hread & Hsp & Htab & Hrun).
  { cbn [no_entries out_entries out_paths fmap list_fmap]. by rewrite !app_nil_r. }
  cbn [no_entries out_entries out_paths out_sparse fmap list_fmap orb] in Hrun, Hsp. rewrite !app_nil_r in Hrun.
  destruct (IH d1 (append_outcome before out)) as (outs & d' & sp' & Hf & Hsp' & Hrun'); [done|lia|].
  exists (out :: outs), d', (sp || sp'). split.
  - constructor; [|done]. intros id. unfold read_entries_thread. rewrite sum_u32_total by (done || lia).
    cbn [mbind outcome_bind]. by rewrite Hread.
  - cbn [foldl]. split; [rewrite Hsp'; cbn [append_outcome out_sparse]; by rewrite Hsp, orb_assoc|]. intros i s.
    rewrite Z2Nat.inj_add by lia. rewrite loop_add, Hrun. cbn [mbind outcome_bind].
    change (out_entries before ++ (shift_path (zlen (out_paths before)) <$> out_entries out)) with (out_entries (append_outcome before out)).
    change (out_paths before ++ out_paths out) with (out_paths (append_outcome before out)). by rewrite Hrun', orb_assoc.
Qed.
End Blocks.

(** ** Joining *)
Lemma join_in_order fuel : ∀ it x outs,
  in_order_all (F := index_error) fuel it = Ok (Ok <$> outs) → join_results fuel it (Ok x) = Ok (foldl append_outcome x outs).
Proof.
  induction fuel as [|fuel IH]; intros it x outs H; [done|]. apply in_order_all_cons in H as (it' & r & Hn & Hr).
  cbn [join_results]. rewrite Hn. cbn [mbind outcome_bind]. destruct outs as [|o outs]; [by rewrite Hr|].
  destruct Hr as [-> Hr]. cbn [foldl]. by apply IH.
Qed.
Lemma imap_numbered {A T} (f : nat → A → outcome index_error (nat * T)) l vs :
  Forall2 (λ a v, ∀ i, f i a = Ok (i, v)) l vs → imap f l = Ok <$> numbered vs.
Proof.
  intros H. apply list_eq. intros i. rewrite list_lookup_imap, list_lookup_fmap. unfold numbered.
  destruct (l !! i) as [a|] eqn:Ha.
  - destruct (Forall2_lookup_l _ _ _ _ _ H Ha) as (v & Hv & Hf). cbn. rewrite Hf. apply lookup_lt_Some in Hv as Hlt.
    assert (zip (seq 0 (length vs)) vs !! i = Some (i, v)) as ->; [|done].
    apply lookup_zip_Some. by rewrite lookup_seq_lt by done.
  - apply lookup_ge_None in Ha. rewrite (Forall2_length H) in Ha. symmetry. apply fmap_None, lookup_ge_None.
    rewrite length_zip_with, length_seq. lia.
Qed.
Lemma chunks_of_concat {A} fuel size (l : list A) : (0 < size)%nat → (length l ≤ fuel)%nat → concat (chunks_of fuel size l) = l.
Proof.
  intros Hs. revert l. induction fuel as [|fuel IH]; intros [|a l] Hl; [done|cbn in Hl; lia|done|]. cbn [chunks_of concat].
  rewrite IH; [by rewrite take_drop|]. rewrite length_drop. cbn [length] in *. lia.
Qed.

Lemma entries_by_threads_ok ceil_div data k v offsets num_threads post :
  (∀ a b, 0 < a → 0 < b → 0 < ceil_div a b) → 0 < num_threads → offsets ≠ [] →
  table_ok k data v offsets post [] [] → total offsets < 2 ^ 32 →
  ∃ out d, entries_by_threads ceil_div data k v offsets num_threads = Ok out ∧
    chunk post [] [] (total offsets) k v = Ok (out_entries out, out_paths out, out_sparse out, d).
Proof.
  intros Hc Hn Hne Ht Htot. unfold entries_by_threads.
  assert (0 < ceil_div (zlen offsets) num_threads) as Hsize.
  { apply Hc; [|done]. destruct offsets; [done|]. rewrite zlen_cons. pose proof (zlen_nonneg offsets). lia. }
  set (size := ceil_div (zlen offsets) num_threads) in *. destruct (Z.eqb_spec size 0); [lia|].
  cbn [negb assert_that mbind outcome_bind]. set (groups := chunks_of _ _ _).
  assert (concat groups = offsets) as Hg by (apply chunks_of_concat; lia).
  destruct (threads_read k data v groups post no_entries) as (outs & d & sp & Hf & Hsp & Hrun); [by rewrite Hg|by rewrite Hg|].
  rewrite (imap_numbered _ _ _ Hf). rewrite Hg in Hrun.
  assert (forallb returned (Ok (E := index_error) <$> numbered outs) = true) as ->.
  { clear. induction (numbered outs); [done|]. done. }
  cbn [assert_that mbind outcome_bind].
  pose proof (in_order_exact (E := index_error) (F := index_error) outs (numbered outs) (reflexivity _)) as Hall.
  destruct outs as [|x outs]; [apply Forall2_length in Hf; destruct groups; [by rewrite <- Hg in Hne|done]|].
  apply in_order_all_cons in Hall as (it & r & -> & -> & Hrs). cbn [expect mbind outcome_bind foldl] in *. rewrite no_entries_append in Hrun, Hsp.
  exists (foldl append_outcome x outs), d. split.
  - apply join_in_order. assert (length (Ok (E := index_error) <$> numbered (x :: outs)) = S (length outs)) as ->; [|exact Hrs].
    rewrite length_fmap. unfold numbered. rewrite length_zip_with, length_seq. cbn [length]. lia.
  - unfold chunk. specialize (Hrun 0 false). unfold loop in Hrun. cbn [no_entries out_entries out_paths list.last fmap option_fmap option_map] in Hrun.
    rewrite Hrun. cbn [no_entries out_sparse orb] in Hsp. by rewrite Hsp.
Qed.

(** ** Threads change nothing *)
Lemma for_count_pushed {A} (read : bytes → outcome () (A * bytes)) fuel : ∀ count l d r,
  for_count (pushes read) fuel count l d = Ok r → 0 < count ∨ l ≠ [] → r.1 ≠ [].
Proof.
  induction fuel as [|fuel IH]; intros count l d r; cbn [for_count]; destruct (Z.leb_spec count 0).
  - intros [= <-] [?|?]; [lia|done].
  - done.
  - intros [= <-] [?|?]; [lia|done].
  - destruct (pushes read l d) as [[l' d']| |] eqn:Hp; cbn [mbind outcome_bind]; [|done|done]. intros H' _.
    eapply IH; [exact H'|]. right. unfold pushes in Hp. destruct (read d) as [[x d2]| |]; [|done|done].
    injection Hp as <- _. by destruct l.
Qed.
Lemma find_extension_safe fuel : ∀ it sig,
  bytes_ok (iter_data it) → safe (find_extension fuel it sig) (λ o, ∀ d, o = Some d → bytes_ok d).
Proof.
  induction fuel as [|fuel IH]; intros it sig Hb; [done|]. cbn [find_extension].
  destruct (iter_next_spec (E := ()) it Hb) as (it' & r & -> & Hr). cbn [mbind outcome_bind]. destruct r as [[s d]|]; [|done].
  destruct Hr as (_ & Hd & _ & _ & Bd). cbn [fst snd] in *. destruct (bytes_eqb s sig); [cbn [safe]; by intros d' [= <-]|].
  apply IH. rewrite Hd in Hb. by apply bytes_ok_app in Hb as [_ Hb].
Qed.
Lemma read_offsets_all fuel : ∀ count l d,
  zlen d = 8 * count → 0 ≤ count < Z.of_nat fuel → ∃ r, for_count (pushes read_offset) fuel count l d = Ok (r, []).
Proof.
  induction fuel as [|fuel IH]; intros count l d Hd Hf; [lia|]. cbn [for_count]. destruct (Z.leb_spec count 0).
  { exists l. destruct d; [done|]. rewrite zlen_cons in Hd. pose proof (zlen_nonneg d). lia. }
  assert (∃ x, read_offset d = Ok (x, drop 8 d)) as [x Hx].
  { unfold read_offset, read_u32. rewrite split_at_in by lia. cbn [mbind option_bind lift_opt ok_or outcome_bind].
  rewrite split_at_in by (unfold zlen in *; rewrite length_drop; lia). cbn [mbind option_bind lift_opt ok_or outcome_bind].
  rewrite drop_drop. by eexists. }
  assert (pushes read_offset l d = Ok (l ++ [x], drop 8 d)) as -> by (unfold pushes; by rewrite Hx). cbn [mbind outcome_bind].
  apply IH; [unfold zlen in *; rewrite !length_drop; lia|lia].
Qed.
(** An offset table has at least one entry; the assertion that it was read to its end holds. *)
Lemma ieot_find_safe data k : bytes_ok data → safe (ieot_find data k) (λ offsets, offsets ≠ []).
Proof.
  intros Hb. unfold ieot_find, iter_new_without_checksum. destruct (checked_sub _ _ _) as [e|]; [|done].
  cbn [mbind option_bind lift_opt ok_or outcome_bind].
  eapply safe_bind; [apply find_extension_safe; cbn [iter_data]; by apply Forall_take|]. intros [d|] Hd; [|done].
  specialize (Hd d eq_refl). cbn [lift_opt ok_or mbind outcome_bind]. unfold ieot_decode.
  destruct (read_u32 d) as [[v d1]|] eqn:Hv; [|done]. cbn [lift_opt ok_or mbind outcome_bind].
  apply safe_ensure. intros _. apply safe_ensure. intros Hn.
  apply negb_true_iff, orb_false_iff in Hn as [Hn Hmod]. apply Z.eqb_neq in Hn. apply negb_false_iff, Z.eqb_eq in Hmod.
  unfold read_u32 in Hv. destruct (split_at_checked d 4) as [[x d2]|] eqn:Hs; [|done]. injection Hv as _ <-.
  apply split_at_Some in Hs as [Hd' _]. pose proof (zlen_nonneg d2).
  pose proof (Z.div_mod (zlen d2) 8 ltac:(lia)). pose proof (Z.div_pos (zlen d2) 8). pose proof (Z.mod_pos_bound (zlen d2) 8).
  destruct (read_offsets_all (S (length d2)) (zlen d2 / 8) [] d2) as [r Hr]; [lia|unfold zlen in *; lia|].
  pose proof (for_count_pushed _ _ _ _ _ _ Hr) as Hp. rewrite Hr. cbn [mbind outcome_bind]. apply Hp. left. lia.
Qed.

(** The entries end where the end-of-index extension says, and the offset table, if there is one,
    tells the blocks of all the entries. *)
Definition layout_ok (k : Kind) (data : bytes) (ofs : Z) (v : Version) (n : Z) (post : bytes) : Prop :=
  (∃ es b s, chunk post [] [] n k v = Ok (es, b, s, drop (Z.to_nat ofs) data)) ∧
  ∀ offsets, ieot_find (drop (Z.to_nat ofs) data) k = Ok offsets → table_ok k data v offsets post [] [] ∧ total offsets = n.

(** C4: reading an index of any version with any number of threads, its entries in the blocks of an offset table and
    its extensions apart from them, gives what reading it with one thread gives, if the
    table and the end-of-index extension describe the file: the entries end where the extension says, and the table tells where
    reading them in sequence comes to the first entry of each block, which in version 4 keeps nothing of the path in
    front of it. However the blocks are shared among threads, their results are joined in order. *)
Theorem threads_agree (try_finalize : Kind → bytes → outcome extension_error ObjectId) (ceil_div : Z → Z → Z)
    (data : bytes) (k : Kind) (expected : option ObjectId) (limit : option Z) (num_threads : Z)
    (Hceil : ∀ a b, 0 < a → 0 < b → 0 < ceil_div a b) (Hb : bytes_ok data) (Hlen : zlen data < 2 ^ 64)
    (Hhasher : ∀ b, try_finalize k b ≠ Panic) (Hthreads : num_threads < 2 ^ 64)
    (Hlayout : ∀ ofs v n post, eoie_decode try_finalize data k = Ok (Some ofs) →
       entries_head data (Some ofs) k limit = Ok (v, n, post) → layout_ok k data ofs v n post) :
  from_bytes_with_threads try_finalize ceil_div num_threads data k expected limit =
  from_bytes try_finalize data k expected limit.
Proof.
  unfold from_bytes_with_threads, from_bytes, decode_entries. destruct (header_decode data k); [|done|done].
  cbn [map_err mbind outcome_bind]. pose proof (eoie_decode_safe try_finalize data k Hb Hlen Hhasher) as Hofs.
  destruct (eoie_decode try_finalize data k) as [start| |] eqn:He; [|done|done]. cbn [map_err mbind outcome_bind safe] in *.
  pose proof (entries_head_safe data start k limit Hb) as Hhead.
  destruct (entries_head data start k limit) as [[[v n] post]| |] eqn:Hh; [|done|done]. cbn [map_err mbind outcome_bind safe] in *.
  assert (∀ m : outcome index_error (list Entry * bytes * bool * bytes),
    ('(entries, path_backing, is_sparse, data) ← map_err BadEntries m;
     '(ext, data) ← map_err BadExtension (decode_all data k limit);
     assemble k expected v entries path_backing is_sparse ext data) =
    ('(version, entries, path_backing, is_sparse, data) ←
       map_err BadEntries ('(entries, path_backing, is_sparse, data) ← m; Ok (v, entries, path_backing, is_sparse, data));
     '(ext, data) ← map_err BadExtension (decode_all data k limit);
     assemble k expected version entries path_backing is_sparse ext data)) as Hsingle.
  { by intros [[[[? ?] ?] ?]| |]. }
  destruct start as [ofs|]; [|apply Hsingle]. destruct (Z.ltb_spec 1 num_threads) as [Hmany|]; [|apply Hsingle].
  destruct (Hlayout _ _ _ _ eq_refl Hh) as [(es & b & s & Hc) Htable].
  destruct (Hofs _ eq_refl) as (Hlow & Hhigh & _). pose proof (len_in_bytes_range k). unfold HEADER_SIZE in Hlow.
  rewrite get_from_in by lia.
  rewrite Hc. cbn [expect map_err mbind outcome_bind].
  pose proof (ieot_find_safe (drop (Z.to_nat ofs) data) k ltac:(by apply Forall_drop)) as Hieot.
  destruct Hhead as [(head & Hd & H12 & _ & Hn) _].
  assert (∀ E a b, 0 ≤ a - b < 2 ^ 64 → op_sub (E := E) 64 a b = Ok (a - b)) as Hsub.
  { clear. intros E a b Hab. unfold op_sub. by rewrite checked_sub_in. }
  destruct (ieot_find (drop (Z.to_nat ofs) data) k) as [offsets|e|] eqn:Hi; [| |done]; cbn [to_option mbind outcome_bind].
  - destruct (Htable _ eq_refl) as [Ht Htot].
    destruct (entries_by_threads_ok ceil_div data k v offsets (num_threads - 1) post) as (out & d & Hout & Hr);
      [done|lia|exact Hieot|done|unfold u32_ok in Hn; lia|].
    rewrite (Hsub _ num_threads 1) by lia. cbn [mbind outcome_bind]. rewrite Hout. cbn [mbind outcome_bind]. rewrite !Hsub by lia.
    cbn [assert_that returned mbind outcome_bind]. rewrite Htot, Hc in Hr. injection Hr as -> -> -> _.
    by destruct (decode_all _ _ _) as [[ext d']| |].
  - rewrite (Hsub _ num_threads 1) by lia. cbn [assert_that returned map_err mbind outcome_bind out_entries out_paths out_sparse].
    by destruct (decode_all _ _ _) as [[ext d]| |].
Qed.

(** ** Samples: two entries in two blocks *)
Definition table_ext (offsets : list (Z * Z)) : bytes * bytes :=
  (IEOT_SIGNATURE, to_be 4 1 ++ concat ((λ o : Z * Z, to_be 4 o.1 ++ to_be 4 o.2) <$> offsets)).
Definition with_table (st : State) (offsets : list (Z * Z)) : bytes :=
  match write_entries_block st, sum_hash Sha1 (ext_heads [table_ext offsets]) with
  | Ok out, Ok h =>
      inner out ++ ext_block [table_ext offsets] ++ ext_bytes (eoie_ext (zlen (inner out)) h) ++ replicate 20 1
  | _, _ => []
  end.
Definition sample_with_table : list (Z * Z) → bytes := with_table (sample_state V2).
Definition exact_ceil_div (a b : Z) : Z := (a + b - 1) / b.
Lemma exact_ceil_div_pos a b : 0 < a → 0 < b → 0 < exact_ceil_div a b.
Proof. intros. unfold exact_ceil_div. apply Z.div_str_pos. lia. Qed.

Lemma threads_agree_witness :
  let data := sample_with_table [(12, 1); (84, 1)] in
  from_bytes_with_threads sum_hash exact_ceil_div 3 data Sha1 None None = from_bytes sum_hash data Sha1 None None ∧
  ∃ st sum, from_bytes sum_hash data Sha1 None None = Ok (st, sum).
Proof.
  split.
  - apply (threads_agree sum_hash exact_ceil_div (sample_with_table [(12, 1); (84, 1)]) Sha1 None None 3).
    + apply exact_ceil_div_pos.
    + apply (bool_decide_unpack _). vm_compute. exact I.
    + reflexivity.
    + intros b. discriminate.
    + reflexivity.
    + intros ofs v n post He Hh. vm_compute in He. injection He as <-. vm_compute in Hh. injection Hh as <- <- <-.
      split; [vm_compute; eauto|]. intros offsets Ho. vm_compute in Ho. injection Ho as <-.
      split; [|reflexivity]. vm_compute. intuition discriminate.
  - vm_compute. eauto.
Defined.

(** Delta paths: [a] and [b], whose block keeps nothing of [a]; and [a/b] and [a/cd], whose block keeps [a/] and so has no
    table that tells it. *)
Definition short_paths : State := state_of V4 [sample_entry 0 MODE_FILE 0 1; sample_entry 0 MODE_FILE 1 2] [97; 98].
Example table_between_delta_paths :
  let data := with_table short_paths [(12, 1); (77, 1)] in
  (∃ st sum, from_bytes sum_hash data Sha1 None None = Ok (st, sum) ∧ version st = V4 ∧ length (entries st) = 2%nat) ∧
  from_bytes_with_threads sum_hash exact_ceil_div 3 data Sha1 None None = from_bytes sum_hash data Sha1 None None.
Proof. split; [vm_compute; eauto|vm_compute; reflexivity]. Qed.
Example table_inside_delta_paths :
  let paths m := match m with Ok (st, _) => Some (path_backing st) | _ => None end in
  let data := with_table (sample_state V4) [(12, 1); (79, 1)] in
  paths (from_bytes sum_hash data Sha1 None None) = Some sample_backing ∧
  paths (from_bytes_with_threads sum_hash exact_ceil_div 3 data Sha1 None None) = Some [97; 47; 98; 99; 100].
Proof. split; vm_compute; reflexivity. Qed.
(** A table that points past the end of the file: one thread reads the index, two panic. *)
Example table_past_the_end :
  let data := sample_with_table [(100000, 1)] in
  (∃ r, from_bytes sum_hash data Sha1 None None = Ok r) ∧
  from_bytes_with_threads sum_hash exact_ceil_div 2 data Sha1 None None = Panic.
Proof. split; [vm_compute; eauto|vm_compute; reflexivity]. Qed.
(** A table with the first entry only: with two threads the second one is missing. *)
Example table_with_less_entries :
  let count m := match m with Ok (st, _) => Some (length (entries st)) | _ => None end in
  let data := sample_with_table [(12, 1)] in
  count (from_bytes sum_hash data Sha1 None None) = Some 2%nat ∧
  count (from_bytes_with_threads sum_hash exact_ceil_div 2 data Sha1 None None) = Some 1%nat.
Proof. split; vm_compute; reflexivity. Qed.
