(* ===== verification/TreeObject.v ===== *)
(** * [gix-object/src/tree]: tree objects

    Entry modes and their octal text, the order of entries, parsing a tree in one
    go and one entry at a time, bisection, path lookup and serialization. The
    object database that path lookup reads from is a parameter. *)

From S2P Require Import Prelude Slices Hash.

(** ** [mod.rs]: entry modes

    Octal literals of the source are written in hexadecimal: [0o170000] is
    [0xf000], [0o40000] is [0x4000], [0o100000] is [0x8000]. *)
Definition IFMT : Z := 0xf000.

(** [internal : u16]; ["040000"] is [0o140000], ["40000"] is [0o40000]. *)
Record EntryMode := { internal : Z }.
#[export] Instance EntryMode_eq_dec : EqDecision EntryMode.
Proof. solve_decision. Defined.

Inductive EntryKind := Tree | Blob | BlobExecutable | Link | Commit.
#[export] Instance EntryKind_eq_dec : EqDecision EntryKind.
Proof. solve_decision. Defined.

Definition kind_value (k : EntryKind) : Z :=
  match k with
  | Tree => 0x4000
  | Blob => 0x81a4
  | BlobExecutable => 0x81ed
  | Link => 0xa000
  | Commit => 0xe000
  end.
Definition mode_of_kind (k : EntryKind) : EntryMode := {| internal := kind_value k |}.

Definition try_from_u32 (mode : Z) : outcome Z EntryMode :=
  if (mode =? 0x4000) || (mode =? 0xa000) || (mode =? 0xe000)
  then Ok {| internal := wrap 16 mode |}
  else if Z.land mode 0x8000 =? 0x8000 then Ok {| internal := wrap 16 mode |}
  else Err mode.

Definition value (m : EntryMode) : Z :=
  if Z.land (internal m) IFMT =? 0xc000 then 0x4000 else internal m.

(** The digits [backing[0..6]]; [0b111 << bit_pos] is a [u16]. *)
Definition octet (internal : Z) (idx : Z) : Z :=
  let bit_pos := 3 * (6 - idx - 1) in
  let oct_mask := wrap 16 (Z.shiftl 7 bit_pos) in
  48 + Z.shiftr (Z.land internal oct_mask) bit_pos.
Definition as_bytes (m : EntryMode) : bytes :=
  if internal m =? 0 then [48]
  else
    let backing := octet (internal m) <$> [0; 1; 2; 3; 4; 5] in
    if bool_decide (backing !! 1%nat = Some 52) then
      if bool_decide (backing !! 0%nat = Some 49) then <[0%nat := 48]> backing
      else drop 1 backing
    else backing.

(** [mode = (mode << 3) + b] on [u16]: bits shifted out are lost. *)
Definition push_octal (mode b : Z) : Z := wrap 16 (Z.shiftl mode 3) + b.
Definition digit_of (b : Z) : Z := wrap 8 (b - 48).

(** [for b in i.iter().take(6)] *)
Fixpoint six_octets (i : bytes) (mode : Z) : option Z :=
  match i with
  | [] => Some mode
  | b :: i => if 7 <? digit_of b then None else six_octets i (push_octal mode (digit_of b))
  end.
(** [while idx < i.len()]; the mode and the position of the space, which stays 0
    when there is none. *)
Fixpoint find_space (rest : bytes) (idx mode : Z) : option (Z * Z) :=
  match rest with
  | [] => Some (mode, 0)
  | b :: rest =>
      let b := digit_of b in
      if b =? digit_of 32 then Some (mode, idx)
      else if 7 <? b then None
      else if 6 <? idx then None
      else find_space rest (idx + 1) (push_octal mode b)
  end.
Definition extract_from_bytes (i : bytes) : outcome unit (option (EntryMode * bytes)) :=
  if zlen i =? 0 then Ok None
  else
    match
      (if bool_decide (get i 6 = Some 32) && negb (bool_decide (get i 5 = Some 32)) then
         mode ← six_octets (take 6 i) 0; Some (mode, 6)
       else find_space i 0 0)
    with
    | None => Ok None
    | Some (mode, space_pos) =>
        first ← expect (get i 0);
        let mode := if (mode =? 0x4000) && (first =? 48) then mode + 0x8000 else mode in
        rest ← expect (get_from i (space_pos + 1));
        Ok (Some ({| internal := mode |}, rest))
    end.
Definition from_bytes (i : bytes) : outcome unit (option EntryMode) :=
  m ← extract_from_bytes i; Ok (option_map fst m).

Definition as_octal_str (k : EntryKind) : bytes :=
  match k with
  | Tree => [52; 48; 48; 48; 48]
  | Blob => [49; 48; 48; 54; 52; 52]
  | BlobExecutable => [49; 48; 48; 55; 53; 53]
  | Link => [49; 50; 48; 48; 48; 48]
  | Commit => [49; 54; 48; 48; 48; 48]
  end.

Definition mode_kind (m : EntryMode) : EntryKind :=
  let etype := Z.land (value m) IFMT in
  if etype =? 0x8000 then
    if Z.land (value m) 0x40 =? 0x40 then BlobExecutable else Blob
  else if etype =? kind_value Link then Link
  else if etype =? kind_value Tree then Tree
  else Commit.
Definition is_tree (m : EntryMode) : bool := Z.land (value m) IFMT =? kind_value Tree.
Definition is_commit (m : EntryMode) : bool := Z.land (value m) IFMT =? kind_value Commit.
Definition is_link (m : EntryMode) : bool := Z.land (value m) IFMT =? kind_value Link.
Definition is_no_tree (m : EntryMode) : bool := negb (Z.land (value m) IFMT =? kind_value Tree).
Definition is_blob (m : EntryMode) : bool := Z.land (value m) IFMT =? 0x8000.
Definition is_executable (m : EntryMode) : bool := bool_decide (mode_kind m = BlobExecutable).
Definition is_blob_or_symlink (m : EntryMode) : bool :=
  match mode_kind m with Blob | BlobExecutable | Link => true | _ => false end.

(** ** [mod.rs]: the order of entries *)
Definition option_cmp (a b : option Z) : comparison :=
  match a, b with
  | None, None => Eq
  | None, Some _ => Lt
  | Some _, None => Gt
  | Some a, Some b => a ?= b
  end.
Definition name_order (a : bytes) (a_is_tree : bool) (b : bytes) (b_is_tree : bool) : comparison :=
  let common := Nat.min (length a) (length b) in
  match bytes_cmp (take common a) (take common b) with
  | Eq =>
      let next (l : bytes) (t : bool) :=
        match l !! common with Some c => Some c | None => if t then Some 47 else None end in
      option_cmp (next a a_is_tree) (next b b_is_tree)
  | c => c
  end.

(** [Entry] and [EntryRef]. *)
Record Entry := { mode : EntryMode; filename : bytes; oid : bytes }.
#[export] Instance Entry_eq_dec : EqDecision Entry.
Proof. solve_decision. Defined.
Definition entry_cmp (a b : Entry) : comparison :=
  name_order (filename a) (is_tree (mode a)) (filename b) (is_tree (mode b)).

(** ** [ref_iter.rs]: parsing *)
Inductive tree_error :=
| ParsingFailed
| NullByteInFilename (name : bytes)
| FindFailed.

(** [find_byte] *)
Fixpoint find_byte (l : bytes) (b : Z) : option Z :=
  match l with
  | [] => None
  | x :: l => if x =? b then Some 0 else (λ n, n + 1) <$> find_byte l b
  end.

Definition fast_entry (i : bytes) (hash_len : Z) : outcome unit (option (bytes * Entry)) :=
  m ← extract_from_bytes i;
  match m with
  | None => Ok None
  | Some (mode, i) =>
      match find_byte i 0 with
      | None => Ok None
      | Some n =>
          '(filename, i) ← expect (split_at_checked i n);
          i ← expect (get_from i 1);
          if zlen i <? hash_len then Ok None
          else
            '(oid, i) ← expect (split_at_checked i hash_len);
            _ ← assert_that (match try_from_bytes oid with Ok _ => true | _ => false end);
            Ok (Some (i, {| mode := mode; filename := filename; oid := oid |}))
      end
  end.

Definition lift {A} (m : outcome unit A) : outcome tree_error A := map_err (λ _, ParsingFailed) m.

(** [while !i.is_empty()]: an entry is at least one byte, so the length is enough fuel. *)
Fixpoint tree_loop (fuel : nat) (i : bytes) (hash_len : Z) (out : list Entry)
    : outcome tree_error (list Entry) :=
  match fuel with
  | O => Ok out
  | S fuel =>
      if zlen i =? 0 then Ok out
      else
        e ← lift (fast_entry i hash_len);
        match e with
        | None => Err ParsingFailed
        | Some (rest, entry) => tree_loop fuel rest hash_len (out ++ [entry])
        end
  end.
Definition tree (data : bytes) (hash_len : Z) : outcome tree_error (list Entry) :=
  tree_loop (length data) data hash_len [].
Definition tree_from_bytes (data : bytes) (hash_kind : Kind) : outcome tree_error (list Entry) :=
  tree data (len_in_bytes hash_kind).

(** [TreeRefIter::next]: the item, and what is left of the data. *)
Definition iter_next (data : bytes) (hash_kind : Kind)
    : outcome tree_error (option (outcome tree_error Entry) * bytes) :=
  if zlen data =? 0 then Ok (None, data)
  else
    e ← lift (fast_entry data (len_in_bytes hash_kind));
    match e with
    | Some (data_left, entry) => Ok (Some (Ok entry), data_left)
    | None => Ok (Some (Err ParsingFailed), [])
    end.
(** All items the iterator yields. *)
Fixpoint iter_all (fuel : nat) (data : bytes) (hash_kind : Kind)
    : outcome tree_error (list (outcome tree_error Entry)) :=
  match fuel with
  | O => Ok []
  | S fuel =>
      '(item, data) ← iter_next data hash_kind;
      match item with
      | None => Ok []
      | Some item => items ← iter_all fuel data hash_kind; Ok (item :: items)
      end
  end.
Definition iter_items (data : bytes) (hash_kind : Kind) := iter_all (S (length data)) data hash_kind.
(** [collect] into a [Result<Vec<_>>]: the first error wins. *)
Fixpoint collect_items (items : list (outcome tree_error Entry)) : outcome tree_error (list Entry) :=
  match items with
  | [] => Ok []
  | item :: items => e ← item; es ← collect_items items; Ok (e :: es)
  end.
Definition iter_entries (data : bytes) (hash_kind : Kind) : outcome tree_error (list Entry) :=
  items ← iter_items data hash_kind; collect_items items.

Definition bisect_entry (entries : list Entry) (name : bytes) (is_dir : bool)
    : outcome unit (option Entry) :=
  idx ← binary_search_by entries
          (λ entry, name_order (filename entry) (is_tree (mode entry)) name is_dir);
  match idx with
  | inr _ => Ok None
  | inl idx => e ← expect (get entries idx); Ok (Some e)
  end.

(** ** [write.rs] *)

(** [entries.sort()] *)
Definition sort_entries : list Entry → list Entry := sort_by entry_cmp.

Fixpoint write_entries (entries : list Entry) (out : bytes) : outcome tree_error bytes :=
  match entries with
  | [] => Ok out
  | {| mode := mode; filename := filename; oid := oid |} :: entries =>
      let out := out ++ as_bytes mode ++ [32] in
      match find_byte filename 0 with
      | Some _ => Err (NullByteInFilename filename)
      | None => write_entries entries (out ++ filename ++ [0] ++ oid)
      end
  end.
(** The [debug_assert_eq!] of the debug profile, then the loop. *)
Definition write_to (entries : list Entry) : outcome tree_error bytes :=
  _ ← assert_that (bool_decide (entries = sort_entries entries));
  write_entries entries [].
Definition size (entries : list Entry) : Z :=
  foldr (λ e n, zlen (as_bytes (mode e)) + 1 + zlen (filename e) + 1 + zlen (oid e) + n) 0 entries.

(** ** [ref_iter.rs]: path lookup *)
Inductive ObjectKind := KTree | KBlob | KCommit | KTag.
Record Data := { data_kind : ObjectKind; object_hash : Kind; data_bytes : bytes }.
Inductive control_flow := Continue (id : bytes) | Break (e : option Entry).

(** [.filter_map(Result::ok).find(..)] *)
Fixpoint find_item (items : list (outcome tree_error Entry)) (component : bytes) : option Entry :=
  match items with
  | [] => None
  | Ok e :: items => if bytes_eqb component (filename e) then Some e else find_item items component
  | _ :: items => find_item items component
  end.
(** The remaining components are returned with the decision. *)
Definition next_entry (components : list bytes) (tree : Data)
    : outcome tree_error (control_flow * list bytes) :=
  match data_kind tree with
  | KTree =>
      match components with
      | [] => Ok (Break None, [])
      | component :: components =>
          items ← iter_items (data_bytes tree) (object_hash tree);
          match find_item items component with
          | None => Ok (Break None, components)
          | Some entry =>
              match components with
              | [] => Ok (Break (Some entry), components)
              | _ => Ok (Continue (oid entry), components)
              end
          end
      end
  | _ => Ok (Break None, components)
  end.

Section Lookup.
Context (try_find : bytes → outcome tree_error (option Data)).

(** [loop]: every round but the last takes a component. *)
Fixpoint lookup_loop (fuel : nat) (iter : list bytes) (data : Data)
    : outcome tree_error (option Entry) :=
  match fuel with
  | O => Ok None
  | S fuel =>
      '(flow, iter) ← next_entry iter data;
      match flow with
      | Continue oid =>
          next_tree ← try_find oid;
          match next_tree with
          | None => Ok None
          | Some next_tree => lookup_loop fuel iter next_tree
          end
      | Break v => Ok v
      end
  end.
Definition lookup_entry (data : bytes) (hash_kind : Kind) (path : list bytes)
    : outcome tree_error (option Entry) :=
  lookup_loop (S (length path)) path
    {| data_kind := KTree; object_hash := hash_kind; data_bytes := data |}.
End Lookup.

(** ** Lemmas: the order of names *)
Definition sort_key (name : bytes) (is_tree : bool) : bytes := name ++ [if is_tree then 47 else 0].
(** A file name has neither slashes nor NUL bytes. *)
Definition clean_name (name : bytes) : Prop := Forall (λ c, 0 < c ∧ c ≠ 47) name.

Lemma name_order_cons x a ta y b tb :
  name_order (x :: a) ta (y :: b) tb =
    match x ?= y with Eq => name_order a ta b tb | c => c end.
Proof. unfold name_order. simpl. by destruct (x ?= y). Qed.

Lemma name_order_key a : ∀ ta b tb,
  clean_name a → clean_name b →
  name_order a ta b tb = bytes_cmp (sort_key a ta) (sort_key b tb).
Proof.
  induction a as [|x a IH]; intros ta b tb Ha Hb.
  - destruct b as [|y b].
    + by destruct ta, tb.
    + apply list.Forall_cons in Hb as [[Hy Hy47] _]. unfold name_order, sort_key. cbn.
      destruct ta; cbn [option_cmp].
      * destruct (Z.compare_spec 47 y); [lia|done..].
      * by rewrite (proj2 (Z.compare_lt_iff 0 y)).
  - apply list.Forall_cons in Ha as [[Hx Hx47] Ha]. destruct b as [|y b].
    + unfold name_order, sort_key. cbn. destruct tb; cbn [option_cmp].
      * destruct (Z.compare_spec x 47); [lia|done..].
      * by rewrite (proj2 (Z.compare_gt_iff x 0)).
    + apply list.Forall_cons in Hb as [_ Hb]. rewrite name_order_cons. cbn [sort_key app bytes_cmp].
      destruct (x ?= y); [|done..]. by apply IH.
Qed.

Lemma sort_key_inj a ta b tb : sort_key a ta = sort_key b tb → a = b ∧ ta = tb.
Proof. intros H. apply app_inj_tail in H as [-> H]. by destruct ta, tb. Qed.

Definition entry_key (e : Entry) : bytes := sort_key (filename e) (is_tree (mode e)).

(** ** Lemmas: sorted entries are left alone by sorting *)
Definition entry_le (a b : Entry) : Prop := entry_cmp a b ≠ Gt.
Inductive in_order : list Entry → Prop :=
| io_nil : in_order []
| io_one e : in_order [e]
| io_cons a b l : entry_le a b → in_order (b :: l) → in_order (a :: b :: l).

Lemma sort_in_order l : in_order l → sort_entries l = l.
Proof.
  induction 1 as [|e|a b l Hab Hl IH]; [done..|]. unfold sort_entries, sort_by in *. cbn [foldr] in *. rewrite IH.
  cbn [insert_by]. unfold entry_le in Hab. by destruct (entry_cmp a b).
Qed.

(** Git's order of tree entries is the byte order of their names with a slash
    appended to trees and a NUL to everything else, for all names a tree may hold.
    It is a total order in which only entries of the same name and sort are equal. *)
Theorem name_order_is_key_order (a b c : bytes) (ta tb tc : bool) :
  clean_name a → clean_name b → clean_name c →
  name_order a ta b tb = bytes_cmp (sort_key a ta) (sort_key b tb) ∧
  (name_order a ta b tb = Eq ↔ a = b ∧ ta = tb) ∧
  name_order b tb a ta = CompOpp (name_order a ta b tb) ∧
  (name_order a ta b tb = Lt → name_order b tb c tc = Lt → name_order a ta c tc = Lt).
Proof.
  intros Ha Hb Hc. rewrite !name_order_key by done. split; [done|]. split; [|split].
  - rewrite bytes_cmp_eq. split; [apply sort_key_inj|by intros [-> ->]].
  - apply bytes_cmp_antisym.
  - apply bytes_cmp_lt_trans.
Qed.
Lemma name_order_is_key_order_witness :
  name_order [97; 46] false [97] true = bytes_cmp (sort_key [97; 46] false) (sort_key [97] true) ∧
  (name_order [97; 46] false [97] true = Eq ↔ [97; 46] = [97] ∧ false = true) ∧
  name_order [97] true [97; 46] false = CompOpp (name_order [97; 46] false [97] true) ∧
  (name_order [97; 46] false [97] true = Lt → name_order [97] true [97; 48] false = Lt →
   name_order [97; 46] false [97; 48] false = Lt).
Proof.
  apply (name_order_is_key_order [97; 46] [97] [97; 48] false true false);
    apply (bool_decide_unpack _); vm_compute; exact I.
Defined.

(** ** Lemmas: octal digits *)
Lemma octet_low x idx :
  0 ≤ x → 1 ≤ idx ≤ 5 → octet x idx = 48 + x / 2 ^ (3 * (5 - idx)) mod 8.
Proof.
  intros Hx Hi. unfold octet. replace (3 * (6 - idx - 1)) with (3 * (5 - idx)) by lia.
  set (p := 3 * (5 - idx)). assert (0 ≤ p ≤ 12) by lia. f_equal.
  assert (Hw : wrap 16 (Z.shiftl 7 p) = Z.shiftl 7 p).
  { apply wrap_small. rewrite Z.shiftl_mul_pow2 by lia.
    assert (2 ^ p ≤ 2 ^ 12) by (apply Z.pow_le_mono_r; lia).
    pose proof (Z.pow_pos_nonneg 2 p). lia. }
  rewrite Hw, Z.shiftr_land, Z.shiftr_shiftl_l, Z.sub_diag, Z.shiftl_0_r by lia.
  by rewrite land_7, Z.shiftr_div_pow2 by lia.
Qed.
Lemma octet_high x : 0 ≤ x < 2 ^ 16 → octet x 0 = 48 + x / 2 ^ 15.
Proof.
  intros Hx. unfold octet. change (3 * (6 - 0 - 1)) with 15. f_equal.
  change (wrap 16 (Z.shiftl 7 15)) with (Z.shiftl 1 15).
  rewrite Z.shiftr_land, Z.shiftr_shiftl_l, Z.sub_diag, Z.shiftl_0_r by lia.
  rewrite (land_low _ 1), Z.shiftr_div_pow2 by (done || lia). apply Z.mod_small.
  change (2 ^ 15) with 32768. change (2 ^ 1) with 2. change (2 ^ 16) with 65536 in Hx.
  split; [apply Z.div_pos; lia|apply Z.div_lt_upper_bound; lia].
Qed.

(** The six digits of a mode and their value. *)
Record octal (x d0 d1 d2 d3 d4 d5 : Z) : Prop := {
  oct_range : 0 ≤ d0 ≤ 1 ∧ 0 ≤ d1 < 8 ∧ 0 ≤ d2 < 8 ∧ 0 ≤ d3 < 8 ∧ 0 ≤ d4 < 8 ∧ 0 ≤ d5 < 8;
  oct_value : x = 32768 * d0 + 4096 * d1 + 512 * d2 + 64 * d3 + 8 * d4 + d5;
}.
Lemma octal_digits x :
  0 ≤ x < 2 ^ 16 → ∃ d0 d1 d2 d3 d4 d5, octal x d0 d1 d2 d3 d4 d5 ∧
    octet x <$> [0; 1; 2; 3; 4; 5] = [48 + d0; 48 + d1; 48 + d2; 48 + d3; 48 + d4; 48 + d5].
Proof.
  intros Hx. exists (x / 2 ^ 15), (x / 2 ^ 12 mod 8), (x / 2 ^ 9 mod 8), (x / 2 ^ 6 mod 8),
    (x / 2 ^ 3 mod 8), (x mod 8). split.
  - change (2 ^ 15) with 32768. change (2 ^ 12) with 4096. change (2 ^ 9) with 512.
    change (2 ^ 6) with 64. change (2 ^ 3) with 8. change (2 ^ 16) with 65536 in Hx.
    split; Z.div_mod_to_equations; lia.
  - cbn [fmap list_fmap]. rewrite octet_high, !octet_low by lia.
    change (3 * (5 - 1)) with 12. change (3 * (5 - 2)) with 9. change (3 * (5 - 3)) with 6.
    change (3 * (5 - 4)) with 3. change (3 * (5 - 5)) with 0. by rewrite Z.pow_0_r, Z.div_1_r.
Qed.

Lemma digit_of_octal d : 0 ≤ d < 8 → digit_of (48 + d) = d.
Proof. intros. unfold digit_of. replace (48 + d - 48) with d by lia. apply wrap_small. lia. Qed.
Lemma push_octal_small m d : 0 ≤ m < 2 ^ 13 → push_octal m d = 8 * m + d.
Proof. intros. unfold push_octal. rewrite Z.shiftl_mul_pow2, wrap_small by lia. lia. Qed.

Lemma six_octets_step i m d :
  0 ≤ d < 8 → 0 ≤ m < 2 ^ 13 → six_octets ((48 + d) :: i) m = six_octets i (8 * m + d).
Proof.
  intros Hd Hm. cbn [six_octets]. rewrite digit_of_octal by done. destruct (Z.ltb_spec 7 d); [lia|].
  by rewrite push_octal_small.
Qed.
Lemma find_space_step i idx m d :
  0 ≤ d < 8 → 0 ≤ m < 2 ^ 13 → idx ≤ 6 →
  find_space ((48 + d) :: i) idx m = find_space i (idx + 1) (8 * m + d).
Proof.
  intros Hd Hm Hi. cbn [find_space]. rewrite digit_of_octal by done.
  change (digit_of 32) with 240. destruct (Z.eqb_spec d 240); [lia|].
  destruct (Z.ltb_spec 7 d); [lia|]. destruct (Z.ltb_spec 6 idx); [lia|]. by rewrite push_octal_small.
Qed.

(** The modes that survive being written: any but 0 and the [0o14xxxx] that are
    written like [0o04xxxx]. *)
Definition mode_ok (m : EntryMode) : Prop :=
  0 < internal m < 2 ^ 16 ∧ (internal m / 4096 = 12 → internal m = 0xc000).

Lemma extract_six d0 d1 d2 d3 d4 d5 rest :
  (0 ≤ d0 ≤ 1 ∧ 0 ≤ d1 < 8 ∧ 0 ≤ d2 < 8 ∧ 0 ≤ d3 < 8 ∧ 0 ≤ d4 < 8 ∧ 0 ≤ d5 < 8) →
  let x := 32768 * d0 + 4096 * d1 + 512 * d2 + 64 * d3 + 8 * d4 + d5 in
  extract_from_bytes ([48 + d0; 48 + d1; 48 + d2; 48 + d3; 48 + d4; 48 + d5] ++ 32 :: rest) =
    Ok (Some ({| internal := if (x =? 0x4000) && (d0 =? 0) then x + 0x8000 else x |}, rest)).
Proof.
  intros (H0 & H1 & H2 & H3 & H4 & H5) x. unfold extract_from_bytes.
  rewrite zlen_app, !zlen_cons. change (zlen (@nil Z)) with 0. pose proof (zlen_nonneg rest).
  destruct (Z.eqb_spec (1 + (1 + (1 + (1 + (1 + (1 + 0))))) + (1 + zlen rest)) 0); [lia|].
  cbn [app].
  change (get (48 + d0 :: _) 6) with (Some 32). rewrite bool_decide_eq_true_2 by done.
  change (get (48 + d0 :: _) 5) with (Some (48 + d5)).
  rewrite bool_decide_eq_false_2 by (intros [= ?]; lia). cbn [andb negb].
  change (take 6 (48 + d0 :: _)) with [48 + d0; 48 + d1; 48 + d2; 48 + d3; 48 + d4; 48 + d5].
  rewrite !six_octets_step by lia. cbn [six_octets mbind option_bind].
  change (get (48 + d0 :: _) 0) with (Some (48 + d0)). cbn [expect mbind outcome_bind].
  rewrite get_from_in by (rewrite !zlen_cons; lia). change (Z.to_nat (6 + 1)) with 7%nat.
  cbn [drop expect mbind outcome_bind]. do 4 f_equal.
  replace (8 * _ + d5) with x by lia. replace (48 + d0 =? 48) with (d0 =? 0) by (zb; lia).
  done.
Qed.

Lemma extract_five d1 d2 d3 d4 d5 rest :
  0 < d1 → (0 ≤ d1 < 8 ∧ 0 ≤ d2 < 8 ∧ 0 ≤ d3 < 8 ∧ 0 ≤ d4 < 8 ∧ 0 ≤ d5 < 8) →
  extract_from_bytes ([48 + d1; 48 + d2; 48 + d3; 48 + d4; 48 + d5] ++ 32 :: rest) =
    Ok (Some ({| internal := 4096 * d1 + 512 * d2 + 64 * d3 + 8 * d4 + d5 |}, rest)).
Proof.
  intros Hpos (H1 & H2 & H3 & H4 & H5). unfold extract_from_bytes.
  rewrite zlen_app, !zlen_cons. change (zlen (@nil Z)) with 0. pose proof (zlen_nonneg rest).
  destruct (Z.eqb_spec (1 + (1 + (1 + (1 + (1 + 0)))) + (1 + zlen rest)) 0); [lia|]. cbn [app].
  change (get (48 + d1 :: _) 5) with (Some 32). rewrite (bool_decide_eq_true_2 (Some 32 = Some 32)) by done.
  cbn [negb]. rewrite andb_false_r. rewrite !find_space_step by lia. cbn [find_space].
  change (digit_of 32 =? digit_of 32) with true. cbv iota.
  change (get (48 + d1 :: _) 0) with (Some (48 + d1)). cbn [expect mbind outcome_bind].
  rewrite get_from_in by (rewrite !zlen_cons; lia).
  change (Z.to_nat (0 + 1 + 1 + 1 + 1 + 1 + 1)) with 6%nat.
  cbn [drop expect mbind outcome_bind]. do 4 f_equal.
  replace (48 + d1 =? 48) with false by (zb; lia). rewrite andb_false_r. lia.
Qed.

Lemma mode_roundtrip m rest :
  mode_ok m → extract_from_bytes (as_bytes m ++ 32 :: rest) = Ok (Some (m, rest)).
Proof.
  intros [Hr Hc]. destruct m as [x]. cbn [internal] in *. unfold as_bytes. cbn [internal].
  destruct (Z.eqb_spec x 0); [lia|].
  destruct (octal_digits x ltac:(lia)) as (d0 & d1 & d2 & d3 & d4 & d5 & [Hd Hv] & ->).
  cbn [lookup list_lookup]. change (2 ^ 16) with 65536 in Hr.
  assert (Hdiv : x / 4096 = 8 * d0 + d1) by (symmetry; apply (Z.div_unique _ _ _ (x - 4096 * (8 * d0 + d1))); lia).
  destruct (bool_decide_reflect (Some (48 + d1) = Some 52)) as [[= E1]|E1].
  - assert (d1 = 4) as -> by lia.
    destruct (bool_decide_reflect (Some (48 + d0) = Some 49)) as [[= E0]|E0].
    + assert (d0 = 1) as -> by lia. rewrite Hdiv in Hc. specialize (Hc eq_refl).
      change (<[0%nat := 48]> (48 + 1 :: ?l)) with (48 + 0 :: l).
      rewrite (extract_six 0 4 d2 d3 d4 d5) by lia.
      do 4 f_equal. cbn [andb]. replace (_ =? 16384) with true by (symmetry; apply Z.eqb_eq; lia).
      cbn [andb Z.eqb]. lia.
    + assert (d0 = 0) as -> by (assert (d0 ≠ 1) by (intros ->; by apply E0); lia).
      cbn [drop]. rewrite (extract_five 4 d2 d3 d4 d5) by lia. do 4 f_equal. lia.
  - rewrite (extract_six d0 d1 d2 d3 d4 d5) by done. do 4 f_equal.
    assert (d1 ≠ 4) by (intros ->; by apply E1).
    replace (_ =? 16384) with false by (symmetry; apply Z.eqb_neq; lia). cbn [andb]. lia.
Qed.

(** ** Lemmas: parsing an entry *)
Lemma find_space_pos rest : ∀ idx mode m sp,
  find_space rest idx mode = Some (m, sp) → sp = 0 ∨ idx ≤ sp < idx + zlen rest.
Proof.
  induction rest as [|b rest IH]; intros idx mode m sp H; cbn [find_space] in H.
  - injection H as _ <-. by left.
  - rewrite zlen_cons. pose proof (zlen_nonneg rest).
    destruct (_ =? _); [injection H as _ <-; right; lia|].
    destruct (7 <? _); [done|]. destruct (6 <? _); [done|]. apply IH in H. lia.
Qed.

Lemma extract_total i :
  extract_from_bytes i = Ok None ∨
  ∃ m rest, extract_from_bytes i = Ok (Some (m, rest)) ∧ zlen rest < zlen i.
Proof.
  unfold extract_from_bytes. destruct (Z.eqb_spec (zlen i) 0) as [|Hz]; [by left|].
  pose proof (zlen_nonneg i).
  set (sp := if _ && _ then _ else find_space i 0 0).
  assert (Hsp : ∀ m p, sp = Some (m, p) → 0 ≤ p < zlen i).
  { intros m p. subst sp. destruct (bool_decide_reflect (get i 6 = Some 32)) as [H6|]; cbn [andb].
    - apply get_Some in H6 as [H6 _].
      destruct (negb _).
      + destruct (six_octets _ _); [|done]. cbn. intros [= _ <-]. lia.
      + intros Hp%find_space_pos. lia.
    - intros Hp%find_space_pos. lia. }
  destruct sp as [[m p]|]; [right|by left]. specialize (Hsp m p eq_refl).
  destruct i as [|x i]; [done|]. change (get (x :: i) 0) with (Some x). cbn [expect mbind outcome_bind].
  rewrite get_from_in by lia. cbn [expect mbind outcome_bind]. eexists _, _. split; [done|].
  unfold zlen in *. rewrite length_drop. lia.
Qed.

Lemma find_byte_spec l b :
  match find_byte l b with
  | Some n => ∃ a r, l = a ++ b :: r ∧ zlen a = n ∧ b ∉ a
  | None => b ∉ l
  end.
Proof.
  induction l as [|x l IH]; cbn [find_byte]; [apply not_elem_of_nil|].
  destruct (Z.eqb_spec x b) as [->|Hx].
  - exists [], l. split; [done|]. split; [done|apply not_elem_of_nil].
  - destruct (find_byte l b) as [n|]; cbn [fmap option_fmap option_map].
    + destruct IH as (a & r & -> & <- & Ha). exists (x :: a), r. rewrite zlen_cons.
      split; [done|]. split; [lia|]. by apply not_elem_of_cons.
    + by apply not_elem_of_cons.
Qed.
Lemma find_byte_app a b r : b ∉ a → find_byte (a ++ b :: r) b = Some (zlen a).
Proof.
  induction a as [|x a IH]; intros Ha; cbn [find_byte app]; [by rewrite Z.eqb_refl|].
  apply not_elem_of_cons in Ha as [Hx Ha]. destruct (Z.eqb_spec x b); [congruence|].
  rewrite IH by done. cbn. rewrite zlen_cons. f_equal. lia.
Qed.

Definition entry_ok (k : Kind) (e : Entry) : Prop :=
  0 ∉ filename e ∧ zlen (oid e) = len_in_bytes k.

Lemma oid_len_ok k b : zlen b = len_in_bytes k → ∃ id, try_from_bytes b = Ok id.
Proof.
  intros H. unfold try_from_bytes. rewrite H. destruct k; cbn [len_in_bytes]; eexists; reflexivity.
Qed.
Lemma len_in_bytes_pos k : 0 < len_in_bytes k.
Proof. by destruct k. Qed.

Lemma fast_entry_total i k :
  fast_entry i (len_in_bytes k) = Ok None ∨
  ∃ rest e, fast_entry i (len_in_bytes k) = Ok (Some (rest, e)) ∧ zlen rest < zlen i ∧ entry_ok k e.
Proof.
  unfold fast_entry. pose proof (len_in_bytes_pos k).
  destruct (extract_total i) as [->|(m & i1 & -> & Hlt)]; [by left|]. cbn [mbind outcome_bind].
  pose proof (find_byte_spec i1 0) as Hf. destruct (find_byte i1 0) as [n|]; [|by left].
  destruct Hf as (a & r & -> & <- & Ha). rewrite split_at_app by done. cbn [expect mbind outcome_bind].
  rewrite get_from_in by (rewrite zlen_cons; pose proof (zlen_nonneg r); lia).
  change (drop (Z.to_nat 1) (0 :: r)) with r. cbn [expect mbind outcome_bind].
  destruct (Z.ltb_spec (zlen r) (len_in_bytes k)); [by left|].
  rewrite split_at_in by lia. cbn [expect mbind outcome_bind].
  assert (Ho : zlen (take (Z.to_nat (len_in_bytes k)) r) = len_in_bytes k)
    by (unfold zlen in *; rewrite length_take; lia).
  destruct (oid_len_ok k _ Ho) as [id ->]. cbn [assert_that mbind outcome_bind].
  right. eexists _, _. split; [done|]. split; [|done].
  rewrite zlen_app, zlen_cons in Hlt. pose proof (zlen_nonneg a).
  unfold zlen in *. rewrite length_drop. lia.
Qed.

(** ** Specification: the entries at the start of the data

    [listing k data es all]: [es] are the entries up to the first malformed one,
    and [all] says that there is none. *)
Inductive listing (k : Kind) : bytes → list Entry → bool → Prop :=
| listing_end : listing k [] [] true
| listing_bad data :
    data ≠ [] → fast_entry data (len_in_bytes k) = Ok None → listing k data [] false
| listing_entry data rest e es all :
    data ≠ [] → fast_entry data (len_in_bytes k) = Ok (Some (rest, e)) →
    listing k rest es all → listing k data (e :: es) all.

Lemma listing_total k n : ∀ data,
  (length data ≤ n)%nat → ∃ es all, listing k data es all ∧ Forall (entry_ok k) es.
Proof.
  induction n as [|n IH]; intros data Hn.
  - destruct data; [|simpl in Hn; lia]. exists [], true. split; constructor.
  - destruct (decide (data = [])) as [->|Hne]; [exists [], true; split; constructor|].
    destruct (fast_entry_total data k) as [He|(rest & e & He & Hlt & Hok)].
    + exists [], false. split; [by constructor|constructor].
    + destruct (IH rest) as (es & all & Hl & Hes); [unfold zlen in Hlt; lia|].
      exists (e :: es), all. split; [by econstructor|by constructor].
Qed.

Lemma zlen_eqb_nil {A} (l : list A) : (zlen l =? 0) = bool_decide (l = []).
Proof.
  destruct l; [done|]. rewrite bool_decide_eq_false_2 by done. apply Z.eqb_neq.
  rewrite zlen_cons. pose proof (zlen_nonneg l). lia.
Qed.
Lemma fast_entry_shorter data k rest e :
  fast_entry data (len_in_bytes k) = Ok (Some (rest, e)) → (length rest < length data)%nat.
Proof.
  intros He. destruct (fast_entry_total data k) as [H|(r & e' & H & Hlt & _)]; rewrite He in H; [done|].
  injection H as <- <-. unfold zlen in Hlt. lia.
Qed.

Lemma tree_loop_listing k data es all :
  listing k data es all → ∀ fuel out, (length data ≤ fuel)%nat →
  tree_loop fuel data (len_in_bytes k) out = if all then Ok (out ++ es) else Err ParsingFailed.
Proof.
  induction 1 as [|data Hne He|data rest e es all Hne He Hl IH]; intros fuel out Hf.
  - rewrite app_nil_r. by destruct fuel.
  - destruct fuel as [|fuel]; [destruct data; [done|simpl in Hf; lia]|]. cbn [tree_loop].
    rewrite zlen_eqb_nil, bool_decide_eq_false_2, He by done. done.
  - destruct fuel as [|fuel]; [destruct data; [done|simpl in Hf; lia]|]. cbn [tree_loop].
    rewrite zlen_eqb_nil, bool_decide_eq_false_2, He by done. cbn [lift map_err mbind outcome_bind].
    rewrite IH by (apply fast_entry_shorter in He; lia). by rewrite <- app_assoc.
Qed.

Lemma iter_all_listing k data es all :
  listing k data es all → ∀ fuel, (length data < fuel)%nat →
  iter_all fuel data k = Ok ((Ok <$> es) ++ if all then [] else [Err ParsingFailed]).
Proof.
  induction 1 as [|data Hne He|data rest e es all Hne He Hl IH]; intros fuel Hf;
    (destruct fuel as [|fuel]; [lia|]); cbn [iter_all]; unfold iter_next;
    rewrite zlen_eqb_nil; [done|..]; rewrite bool_decide_eq_false_2, He by done;
    cbn [lift map_err mbind outcome_bind].
  - destruct fuel; [destruct data; [done|simpl in Hf; lia]|]. done.
  - rewrite IH by (apply fast_entry_shorter in He; lia). done.
Qed.

Lemma collect_ok es : collect_items (Ok <$> es) = Ok es.
Proof. induction es as [|e es IH]; [done|]. cbn. cbn in IH. by rewrite IH. Qed.
Lemma collect_err es : collect_items ((Ok <$> es) ++ [Err ParsingFailed]) = Err ParsingFailed.
Proof. induction es as [|e es IH]; [done|]. cbn. cbn in IH. by rewrite IH. Qed.

(** C30: on any bytes, parsing a tree at once and iterating over its entries agree
    and always return: both give all entries, or fail exactly when some entry is
    malformed, in which case the iterator has yielded the entries before it, then
    one error. Every entry's name is free of NUL bytes and its id has the length of
    the hash. No slice is out of bounds. *)
Theorem tree_parsers_agree (data : bytes) (k : Kind) :
  ∃ es all, listing k data es all ∧ Forall (entry_ok k) es ∧
    tree_from_bytes data k = (if all then Ok es else Err ParsingFailed) ∧
    iter_entries data k = tree_from_bytes data k ∧
    iter_items data k = Ok ((Ok <$> es) ++ if all then [] else [Err ParsingFailed]).
Proof.
  destruct (listing_total k (length data) data (le_n _)) as (es & all & Hl & Hok).
  exists es, all. split; [done|]. split; [done|].
  assert (Ht : tree_from_bytes data k = if all then Ok es else Err ParsingFailed).
  { unfold tree_from_bytes, tree. by rewrite (tree_loop_listing _ _ _ _ Hl). }
  assert (Hi : iter_items data k = Ok ((Ok <$> es) ++ if all then [] else [Err ParsingFailed])).
  { unfold iter_items. apply iter_all_listing; [done|lia]. }
  split; [done|]. split; [|done]. unfold iter_entries. rewrite Hi, Ht. cbn [mbind outcome_bind].
  destruct all; [rewrite app_nil_r; apply collect_ok|apply collect_err].
Qed.

(** ** Lemmas: writing *)
Definition entry_bytes (e : Entry) : bytes :=
  as_bytes (mode e) ++ [32] ++ filename e ++ [0] ++ oid e.

Lemma fast_entry_written e k rest :
  mode_ok (mode e) → entry_ok k e →
  fast_entry (entry_bytes e ++ rest) (len_in_bytes k) = Ok (Some (rest, e)).
Proof.
  intros Hm [Hf Ho]. unfold entry_bytes, fast_entry. rewrite <- !app_assoc. cbn [app].
  rewrite mode_roundtrip by done. cbn [mbind outcome_bind]. rewrite find_byte_app by done.
  rewrite split_at_app by done. cbn [expect mbind outcome_bind].
  rewrite get_from_in by (rewrite zlen_cons; pose proof (zlen_nonneg (oid e ++ rest)); lia).
  change (drop (Z.to_nat 1) (0 :: ?l)) with l. cbn [expect mbind outcome_bind].
  destruct (Z.ltb_spec (zlen (oid e ++ rest)) (len_in_bytes k)) as [Hlt|_];
    [rewrite zlen_app in Hlt; pose proof (zlen_nonneg rest); lia|].
  rewrite split_at_app by done. cbn [expect mbind outcome_bind].
  destruct (oid_len_ok k _ Ho) as [id ->]. cbn [assert_that mbind outcome_bind]. by destruct e.
Qed.

Lemma listing_written es k :
  Forall (λ e, mode_ok (mode e) ∧ entry_ok k e) es → listing k (concat (entry_bytes <$> es)) es true.
Proof.
  induction 1 as [|e es [Hm Ho] _ IH]; [constructor|]. rewrite fmap_cons. cbn [concat].
  eapply listing_entry; [|by apply fast_entry_written|done].
  unfold entry_bytes. destruct (as_bytes (mode e)); done.
Qed.

Lemma write_entries_ok es : ∀ out,
  Forall (λ e, 0 ∉ filename e) es → write_entries es out = Ok (out ++ concat (entry_bytes <$> es)).
Proof.
  induction es as [|[m n o] es IH]; intros out Hes; cbn [write_entries].
  - by rewrite app_nil_r.
  - apply list.Forall_cons in Hes as [Hn Hes]. cbn in Hn.
    pose proof (find_byte_spec n 0) as Hf. destruct (find_byte n 0) as [p|].
    + destruct Hf as (a & r & -> & _). exfalso. apply Hn. apply elem_of_app. right. left.
    + rewrite IH by done. rewrite fmap_cons. cbn [concat]. unfold entry_bytes. cbn [mode filename oid].
      by rewrite <- !app_assoc.
Qed.
Lemma write_entries_nul es : ∀ out,
  ¬ Forall (λ e, 0 ∉ filename e) es → ∃ n, write_entries es out = Err (NullByteInFilename n).
Proof.
  induction es as [|[m n o] es IH]; intros out Hes; cbn [write_entries].
  - exfalso. by apply Hes.
  - pose proof (find_byte_spec n 0) as Hf. destruct (find_byte n 0) as [p|]; [by eexists|].
    apply IH. intros Hall. apply Hes. by constructor.
Qed.
Lemma size_bytes es : size es = zlen (concat (entry_bytes <$> es)).
Proof.
  induction es as [|e es IH]; [done|]. rewrite fmap_cons. cbn [concat]. rewrite zlen_app, <- IH.
  unfold entry_bytes. rewrite !zlen_app. change (zlen [32]) with 1. change (zlen [0]) with 1.
  cbn [size foldr]. fold (size es). lia.
Qed.

(** C31: entries in tree order are written unless one of their names holds a NUL
    byte, which is an error; [size()] is the number of bytes written. What was
    written parses back to the same entries, at once and one by one, for ids of
    the tree's hash and every mode but 0, whose text ["0"] can be misread (see [mode_zero_not_read_back]), and
    0o140001 to 0o147777, which are written with a 0 in place of their first digit and so read as other modes
    (see [hidden_mode_not_read_back]). *)
Theorem tree_write_roundtrip (es : list Entry) (k : Kind) :
  in_order es →
  (if decide (Forall (λ e, 0 ∉ filename e) es) then
     ∃ out, write_to es = Ok out ∧ zlen out = size es ∧
       (Forall (λ e, mode_ok (mode e) ∧ zlen (oid e) = len_in_bytes k) es →
        tree_from_bytes out k = Ok es ∧ iter_items out k = Ok (Ok <$> es))
   else ∃ n, write_to es = Err (NullByteInFilename n)).
Proof.
  intros Hord. unfold write_to. rewrite sort_in_order, bool_decide_eq_true_2 by done.
  cbn [assert_that mbind outcome_bind].
  destruct (decide _) as [Hes|Hes]; [|by apply write_entries_nul].
  exists (concat (entry_bytes <$> es)). rewrite write_entries_ok by done.
  split; [done|]. split; [by rewrite size_bytes|]. intros Hall.
  assert (Hl : listing k (concat (entry_bytes <$> es)) es true).
  { apply listing_written. rewrite list.Forall_forall in *. intros e He.
    destruct (Hall e He). split; [done|]. split; [by apply Hes|done]. }
  split.
  - unfold tree_from_bytes, tree. by rewrite (tree_loop_listing _ _ _ _ Hl).
  - unfold iter_items. rewrite (iter_all_listing _ _ _ _ Hl) by lia. by rewrite app_nil_r.
Qed.
Definition sample_entries : list Entry :=
  [{| mode := mode_of_kind Blob; filename := [97; 46; 99]; oid := replicate 20 7 |};
   {| mode := mode_of_kind Tree; filename := [97]; oid := replicate 20 8 |}].
Lemma tree_write_roundtrip_witness :
  in_order sample_entries ∧
  if decide (Forall (λ e, 0 ∉ filename e) sample_entries) then
    ∃ out, write_to sample_entries = Ok out ∧ zlen out = size sample_entries ∧
      (Forall (λ e, mode_ok (mode e) ∧ zlen (oid e) = len_in_bytes Sha1) sample_entries →
       tree_from_bytes out Sha1 = Ok sample_entries ∧
       iter_items out Sha1 = Ok (Ok <$> sample_entries))
  else ∃ n, write_to sample_entries = Err (NullByteInFilename n).
Proof.
  assert (Ho : in_order sample_entries).
  { constructor; [|constructor]. vm_compute. discriminate. }
  split; [exact Ho|]. apply (tree_write_roundtrip sample_entries Sha1 Ho).
Defined.

(** A mode of 0 is written as ["0"], which the parser misreads when the fifth byte
    of the name is a space and the fourth is not: it expects six digits then. *)
Example mode_zero_not_read_back :
  let e := {| mode := {| internal := 0 |}; filename := [97; 97; 97; 97; 32; 98]; oid := replicate 20 7 |} in
  write_to [e] = Ok (entry_bytes e) ∧ tree_from_bytes (entry_bytes e) Sha1 = Err ParsingFailed.
Proof. split; vm_compute; reflexivity. Qed.
(** A mode of 0o140001 is written as ["040001"] and read as 0o040001. *)
Example hidden_mode_not_read_back :
  let e m := {| mode := {| internal := m |}; filename := [97]; oid := replicate 20 7 |} in
  write_to [e 0xc001] = Ok (entry_bytes (e 0xc001)) ∧ tree_from_bytes (entry_bytes (e 0xc001)) Sha1 = Ok [e 0x4001].
Proof. split; vm_compute; reflexivity. Qed.
(** Seven octal digits are accepted, and the highest are lost. *)
Example seven_digits_accepted :
  from_bytes [49; 49; 48; 48; 54; 52; 52; 32] = Ok (Some {| internal := 0x81a4 |}).
Proof. vm_compute. reflexivity. Qed.

(** ** Lemmas: bisection *)
(** Entries in strict tree order, with proper names. *)
Definition strictly_sorted (l : list Entry) : Prop :=
  Forall (λ e, clean_name (filename e)) l ∧
  ∀ i j a b, l !! i = Some a → l !! j = Some b → (i < j)%nat →
    bytes_cmp (entry_key a) (entry_key b) = Lt.

Lemma strictly_sorted_cuts l name is_dir :
  strictly_sorted l → clean_name name →
  cuts l (λ x, name_order (filename x) (is_tree (mode x)) name is_dir).
Proof.
  intros [Hc Hs] Hn i j x y Hlt Hx Hy. rewrite list.Forall_forall in Hc.
  rewrite !name_order_key by (done || by apply Hc; eapply list_elem_of_lookup_2).
  specialize (Hs _ _ _ _ Hx Hy Hlt). fold (entry_key x) (entry_key y). split.
  - rewrite !bytes_cmp_gt_lt. intros Hk. by eapply bytes_cmp_lt_trans.
  - intros Hk. by eapply bytes_cmp_lt_trans.
Qed.

(** In a tree in strict order, [bisect_entry] finds exactly the entry with the
    given name that is a directory or not as asked, and [None] when there is none;
    the search always ends, within the entries. *)
Theorem bisect_entry_exact (l : list Entry) (name : bytes) (is_dir : bool) :
  strictly_sorted l → clean_name name →
  (∃ e, bisect_entry l name is_dir = Ok (Some e) ∧
        e ∈ l ∧ filename e = name ∧ is_tree (mode e) = is_dir) ∨
  (bisect_entry l name is_dir = Ok None ∧
   ∀ e, e ∈ l → ¬ (filename e = name ∧ is_tree (mode e) = is_dir)).
Proof.
  intros Hs Hn. unfold bisect_entry.
  set (f := λ entry, name_order (filename entry) (is_tree (mode entry)) name is_dir).
  assert (∀ e, e ∈ l → f e = Eq ↔ filename e = name ∧ is_tree (mode e) = is_dir) as Hf.
  { destruct Hs as [Hc _]. rewrite list.Forall_forall in Hc. intros e He. unfold f.
    rewrite name_order_key, bytes_cmp_eq by auto. split; [apply sort_key_inj|by intros [-> ->]]. }
  destruct (binary_search_spec (E := unit) l f) as (r & -> & Hr). cbn [mbind outcome_bind].
  destruct r as [i|i].
  - left. destruct Hr as (e & He & Hfe). rewrite He. cbn [expect mbind outcome_bind]. exists e.
    apply get_Some in He as [_ He]. apply list_elem_of_lookup_2 in He. split; [done|]. split; [done|]. by apply Hf.
  - right. split; [done|]. destruct Hr as [_ Hcut].
    specialize (Hcut (strictly_sorted_cuts l name is_dir Hs Hn)). intros e He Heq. apply Hf in Heq; [|done].
    apply list_elem_of_lookup in He as [j Hj]. specialize (Hcut (Z.of_nat j) e ltac:(by rewrite get_nat)).
    fold f in Hcut. destruct (_ <? _); congruence.
Qed.
Lemma sample_strictly_sorted : strictly_sorted sample_entries.
Proof.
  split; [apply (bool_decide_unpack _); vm_compute; exact I|].
  intros [|[|i]] [|[|j]] a b Ha Hb Hlt; try lia; try discriminate Ha; try discriminate Hb.
  injection Ha as <-. injection Hb as <-. vm_compute. reflexivity.
Qed.
Lemma bisect_entry_exact_witness :
  (∃ e, bisect_entry sample_entries [97] true = Ok (Some e) ∧
        e ∈ sample_entries ∧ filename e = [97] ∧ is_tree (mode e) = true) ∨
  (bisect_entry sample_entries [97] true = Ok None ∧
   ∀ e, e ∈ sample_entries → ¬ (filename e = [97] ∧ is_tree (mode e) = true)).
Proof.
  apply (bisect_entry_exact sample_entries [97] true).
  - exact sample_strictly_sorted.
  - apply (bool_decide_unpack _). vm_compute. exact I.
Defined.

(** ** Path lookup *)

(** The first entry of a name. *)
Definition first_named (c : bytes) (es : list Entry) (e : Entry) : Prop :=
  ∃ a b, es = a ++ e :: b ∧ filename e = c ∧ Forall (λ x, filename x ≠ c) a.

Lemma find_item_spec es c (all : bool) e :
  find_item ((Ok <$> es) ++ if all then [] else [Err ParsingFailed]) c = Some e ↔ first_named c es e.
Proof.
  unfold first_named. induction es as [|x es IH]; cbn [fmap list_fmap app find_item].
  - destruct all; (split; [done|]); by intros ([|] & ? & ? & _).
  - unfold bytes_eqb. case_bool_decide as Hc.
    + split.
      * intros [= <-]. by exists [], es.
      * intros ([|y a] & b & Heq & He & Ha); [by injection Heq as <- _|].
        injection Heq as <- _. by apply list.Forall_cons in Ha as [? _].
    + rewrite IH. split.
      * intros (a & b & -> & He & Ha). exists (x :: a), b. split; [done|]. split; [done|].
        constructor; [congruence|done].
      * intros ([|y a] & b & Heq & He & Ha); [injection Heq as -> _; congruence|].
        injection Heq as <- ->. apply list.Forall_cons in Ha as [_ Ha]. by exists a, b.
Qed.

Section Resolve.
Context (try_find : bytes → outcome tree_error (option Data)).

(** [resolves d path e]: [path] leads from the object [d] to the entry [e]. Each
    component names the first such entry before any malformed one. *)
Inductive resolves : Data → list bytes → Entry → Prop :=
| resolves_last d c es all e :
    data_kind d = KTree → listing (object_hash d) (data_bytes d) es all →
    first_named c es e → resolves d [c] e
| resolves_step d c es all e d' c' path e' :
    data_kind d = KTree → listing (object_hash d) (data_bytes d) es all →
    first_named c es e → try_find (oid e) = Ok (Some d') →
    resolves d' (c' :: path) e' → resolves d (c :: c' :: path) e'.

Lemma iter_items_listing k data es all :
  listing k data es all →
  iter_items data k = Ok ((Ok <$> es) ++ if all then [] else [Err ParsingFailed]).
Proof. intros Hl. apply (iter_all_listing _ _ _ _ Hl). lia. Qed.

(** One round on a tree. *)
Lemma next_entry_tree d c path es all :
  data_kind d = KTree → listing (object_hash d) (data_bytes d) es all →
  next_entry (c :: path) d =
    Ok (match find_item ((Ok <$> es) ++ if all then [] else [Err ParsingFailed]) c with
        | None => Break None
        | Some e => match path with [] => Break (Some e) | _ => Continue (oid e) end
        end, path).
Proof.
  intros Hk Hl. unfold next_entry. rewrite Hk, (iter_items_listing _ _ _ _ Hl).
  cbn [mbind outcome_bind]. destruct (find_item _ c); [|done]. by destruct path.
Qed.

Lemma lookup_loop_sound fuel : ∀ path d e,
  lookup_loop try_find fuel path d = Ok (Some e) → resolves d path e.
Proof.
  induction fuel as [|fuel IH]; intros path d e H; [done|]. cbn [lookup_loop] in H.
  destruct path as [|c path]; [by unfold next_entry in H; destruct (data_kind d)|].
  destruct (data_kind d) eqn:Hk; try (unfold next_entry in H; rewrite Hk in H; done).
  destruct (listing_total (object_hash d) _ (data_bytes d) (le_n _)) as (es & all & Hl & _).
  rewrite (next_entry_tree _ _ _ _ _ Hk Hl) in H. cbn [mbind outcome_bind] in H.
  destruct (find_item _ c) as [x|] eqn:Hx; [|done]. apply find_item_spec in Hx.
  destruct path as [|c' path]; [injection H as <-; by eapply resolves_last|].
  destruct (try_find (oid x)) as [[d'|]| |] eqn:Hf; try done.
  eapply resolves_step; [done..|]. by apply IH.
Qed.
Lemma lookup_loop_complete d path e :
  resolves d path e → ∀ fuel, (length path ≤ fuel)%nat → lookup_loop try_find fuel path d = Ok (Some e).
Proof.
  induction 1 as [d c es all e Hk Hl He|d c es all e d' c' path e' Hk Hl He Hf Hr IH]; intros fuel Hfuel;
    (destruct fuel as [|fuel]; [simpl in Hfuel; lia|]); cbn [lookup_loop];
    rewrite (next_entry_tree _ _ _ _ _ Hk Hl); apply (find_item_spec _ _ all) in He; rewrite He;
    cbn [mbind outcome_bind]; [done|].
  rewrite Hf. cbn [mbind outcome_bind]. apply IH. simpl in *. lia.
Qed.
Lemma lookup_loop_returns fuel : ∀ path d,
  (∀ id, ∃ r, try_find id = Ok r) → ∃ r, lookup_loop try_find fuel path d = Ok r.
Proof.
  induction fuel as [|fuel IH]; intros path d Hf; [by eexists|]. cbn [lookup_loop].
  destruct path as [|c path]; [unfold next_entry; destruct (data_kind d); by eexists|].
  destruct (data_kind d) eqn:Hk; try (unfold next_entry; rewrite Hk; by eexists).
  destruct (listing_total (object_hash d) _ (data_bytes d) (le_n _)) as (es & all & Hl & _).
  rewrite (next_entry_tree _ _ _ _ _ Hk Hl). cbn [mbind outcome_bind].
  destruct (find_item _ c) as [x|]; [|by eexists]. destruct path; [by eexists|].
  destruct (Hf (oid x)) as [[d'|] ->]; [|by eexists]. by apply IH.
Qed.
End Resolve.

(** looking a path up in a tree returns an entry exactly when the path leads
    to it, through trees that the object database holds, each component being the
    first entry of that name; the only errors are those of the object database. *)
Theorem lookup_entry_exact (try_find : bytes → outcome tree_error (option Data)) (data : bytes)
    (k : Kind) (path : list bytes) :
  (∀ id, ∃ r, try_find id = Ok r) →
  ∃ r, lookup_entry try_find data k path = Ok r ∧
    ∀ e, r = Some e ↔
      resolves try_find {| data_kind := KTree; object_hash := k; data_bytes := data |} path e.
Proof.
  intros Hf. unfold lookup_entry.
  destruct (lookup_loop_returns try_find (S (length path)) path
    {| data_kind := KTree; object_hash := k; data_bytes := data |} Hf) as [r Hr].
  exists r. split; [done|]. intros e. split.
  - intros ->. by eapply lookup_loop_sound.
  - intros He. eapply lookup_loop_complete in He; [|by apply Nat.le_succ_diag_r]. congruence.
Qed.
Definition sample_find (id : bytes) : outcome tree_error (option Data) :=
  if bytes_eqb id (replicate 20 8)
  then Ok (Some {| data_kind := KTree; object_hash := Sha1;
                   data_bytes := concat (entry_bytes <$> sample_entries) |})
  else Ok None.
Lemma lookup_entry_exact_witness :
  (∃ r, lookup_entry sample_find (concat (entry_bytes <$> sample_entries)) Sha1 [[97]; [97; 46; 99]] = Ok r ∧
    ∀ e, r = Some e ↔
      resolves sample_find {| data_kind := KTree; object_hash := Sha1;
        data_bytes := concat (entry_bytes <$> sample_entries) |} [[97]; [97; 46; 99]] e) ∧
  lookup_entry sample_find (concat (entry_bytes <$> sample_entries)) Sha1 [[97]; [97; 46; 99]] =
    Ok (head sample_entries).
Proof.
  split; [|vm_compute; reflexivity].
  apply (lookup_entry_exact sample_find (concat (entry_bytes <$> sample_entries)) Sha1 [[97]; [97; 46; 99]]).
  intros id. unfold sample_find. destruct (bytes_eqb id (replicate 20 8)); eexists; reflexivity.
Defined.

(** ** Kinds of modes *)
Lemma value_range m : 0 ≤ internal m < 2 ^ 16 → 0 ≤ value m < 2 ^ 16.
Proof. intros H. unfold value. destruct (_ =? _); lia. Qed.

(** the five kinds are written as their octal text, read back as themselves,
    and [kind()] recovers them; on every mode, the predicates agree with [kind()],
    except that [kind()] also takes all unknown types for commits. *)
Theorem mode_kinds_agree (k : EntryKind) (m : EntryMode) :
  as_bytes (mode_of_kind k) = as_octal_str k ∧
  from_bytes (as_octal_str k) = Ok (Some (mode_of_kind k)) ∧
  mode_kind (mode_of_kind k) = k ∧
  (is_tree m = true ↔ mode_kind m = Tree) ∧ is_no_tree m = negb (is_tree m) ∧
  (is_link m = true ↔ mode_kind m = Link) ∧
  (is_blob m = true ↔ mode_kind m = Blob ∨ mode_kind m = BlobExecutable) ∧
  (is_executable m = true ↔ mode_kind m = BlobExecutable) ∧
  (is_commit m = true → mode_kind m = Commit) ∧
  (is_blob_or_symlink m = true ↔ is_blob m = true ∨ is_link m = true).
Proof.
  split; [by destruct k|]. split; [by destruct k|]. split; [by destruct k|].
  unfold is_blob_or_symlink, is_executable, is_tree, is_no_tree, is_link, is_blob, is_commit, mode_kind.
  cbn [kind_value]. set (t := Z.land (value m) IFMT). rewrite bool_decide_eq_true.
  destruct (Z.land (value m) 0x40 =? 0x40);
    destruct (Z.eqb_spec t 0x8000), (Z.eqb_spec t 0xa000), (Z.eqb_spec t 0x4000), (Z.eqb_spec t 0xe000);
    try lia; cbn [negb]; repeat split; intuition congruence.
Qed.
