(* ===== verification/Glob.v ===== *)
(** * [gix-glob]: wildmatch and patterns

    [match_recursive] is translated with its iterators: the pattern iterator is
    the rest of the pattern and the index it counts, which a malformed character
    class restarts. The recursion is bounded by the code's own limit, which is the
    structural argument here. Every other loop consumes the pattern or the text;
    running out of fuel is [Panic], so that the theorem that there is no [Panic]
    also says that all loops end. *)

From stdpp Require Import sets.
From S2P Require Import Prelude.

(** ** [wildmatch.rs] *)
Record Mode := { no_match_slash_literal : bool; ignore_case : bool }.

Inductive wm_result := Match | NoMatch | AbortAll | AbortToStarStar | RecursionLimitReached.
#[export] Instance wm_result_eq_dec : EqDecision wm_result.
Proof. solve_decision. Defined.

Definition STAR : Z := 42.
Definition BACKSLASH : Z := 92.
Definition SLASH : Z := 47.
Definition BRACKET_OPEN : Z := 91.
Definition BRACKET_CLOSE : Z := 93.
Definition COLON : Z := 58.
Definition NEGATE_CLASS : Z := 33.
Definition RECURSION_LIMIT : nat := 64.
(** [parse.rs] *)
Definition GLOB_CHARACTERS : bytes := [42; 63; 91; 92].

Definition to_ascii_lowercase (c : Z) : Z := if (65 <=? c) && (c <=? 90) then c + 32 else c.
Definition to_ascii_uppercase (c : Z) : Z := if (97 <=? c) && (c <=? 122) then c - 32 else c.
Definition in_range (lo hi c : Z) : bool := (lo <=? c) && (c <=? hi).
Definition is_ascii_lowercase (c : Z) : bool := in_range 97 122 c.
Definition is_ascii_uppercase (c : Z) : bool := in_range 65 90 c.
Definition is_ascii_alphabetic (c : Z) : bool := is_ascii_lowercase c || is_ascii_uppercase c.
Definition is_ascii_digit (c : Z) : bool := in_range 48 57 c.
Definition git_is_space (c : Z) : bool := (c =? 32) || (c =? 9) || (c =? 10) || (c =? 13).

Definition contains (l : bytes) (c : Z) : bool := existsb (λ x, x =? c) l.

(** The [match class] of a character class: [None] is an unknown class. *)
Definition in_class (mode : Mode) (class : bytes) (t_ch : Z) : option bool :=
  if bytes_eqb class [97; 108; 110; 117; 109] then Some (is_ascii_alphabetic t_ch || is_ascii_digit t_ch)
  else if bytes_eqb class [97; 108; 112; 104; 97] then Some (is_ascii_alphabetic t_ch)
  else if bytes_eqb class [98; 108; 97; 110; 107] then Some ((t_ch =? 32) || (t_ch =? 9))
  else if bytes_eqb class [99; 110; 116; 114; 108] then Some (in_range 0 31 t_ch || (t_ch =? 127))
  else if bytes_eqb class [100; 105; 103; 105; 116] then Some (is_ascii_digit t_ch)
  else if bytes_eqb class [103; 114; 97; 112; 104] then Some (in_range 33 126 t_ch)
  else if bytes_eqb class [108; 111; 119; 101; 114] then Some (is_ascii_lowercase t_ch)
  else if bytes_eqb class [112; 114; 105; 110; 116] then Some (in_range 32 126 t_ch)
  else if bytes_eqb class [112; 117; 110; 99; 116] then
    Some (in_range 33 47 t_ch || in_range 58 64 t_ch || in_range 91 96 t_ch || in_range 123 126 t_ch)
  else if bytes_eqb class [115; 112; 97; 99; 101] then Some (git_is_space t_ch)
  else if bytes_eqb class [117; 112; 112; 101; 114] then
    Some (is_ascii_uppercase t_ch || (ignore_case mode && is_ascii_lowercase t_ch))
  else if bytes_eqb class [120; 100; 105; 103; 105; 116] then
    Some (is_ascii_digit t_ch || in_range 97 102 t_ch || in_range 65 70 t_ch)
  else None.

(** A range [prev_p_ch-p_ch]. *)
Definition in_char_range (mode : Mode) (prev_p_ch p_ch t_ch : Z) : bool :=
  if (t_ch <=? p_ch) && (prev_p_ch <=? t_ch) then true
  else if ignore_case mode && is_ascii_lowercase t_ch then
    let t_ch_upper := to_ascii_uppercase t_ch in
    ((t_ch_upper <=? to_ascii_uppercase p_ch) && (to_ascii_uppercase prev_p_ch <=? t_ch_upper))
    || ((t_ch_upper <=? to_ascii_uppercase prev_p_ch) && (to_ascii_uppercase p_ch <=? t_ch_upper))
  else false.

(** The pattern iterator: what is left, and the index of the next byte. *)
Record Iter := { rest : bytes; next_idx : Z }.

Section Recursive.
Context (mode : Mode) (rec : bytes → bytes → outcome unit wm_result) (pattern text : bytes).

Definition possibly_lowercase (c : Z) : Z := if ignore_case mode then to_ascii_lowercase c else c.

Definition p_next (p : Iter) : option (Z * Z) * Iter :=
  match rest p with
  | [] => (None, p)
  | c :: r => (Some (next_idx p, possibly_lowercase c), {| rest := r; next_idx := next_idx p + 1 |})
  end.
Definition p_peek (p : Iter) : option Z :=
  match rest p with [] => None | c :: _ => Some (possibly_lowercase c) end.

(** [while p.next_if(|(_, c)| *c == STAR).is_some() {}] *)
Fixpoint skip_stars (r : bytes) (idx : Z) : Iter :=
  match r with
  | c :: r' => if possibly_lowercase c =? STAR then skip_stars r' (idx + 1)
               else {| rest := r; next_idx := idx |}
  | [] => {| rest := []; next_idx := idx |}
  end.
(** [while p.peek().is_some_and(|t| t.1 != BRACKET_CLOSE) { p.next(); }] *)
Fixpoint skip_to_close (r : bytes) (idx : Z) : Iter :=
  match r with
  | c :: r' => if negb (possibly_lowercase c =? BRACKET_CLOSE) then skip_to_close r' (idx + 1)
               else {| rest := r; next_idx := idx |}
  | [] => {| rest := []; next_idx := idx |}
  end.

(** The [loop] of a bracket expression: [None] is [return AbortAll], [Some (matched, p)]
    leaves the loop behind the closing bracket. *)
Fixpoint bracket_loop (fuel : nat) (p : Iter) (next : option (Z * Z)) (prev_p_ch : Z)
    (matched : bool) (p_idx_ofs t_ch : Z) : outcome unit (option (bool * Iter)) :=
  match fuel with
  | O => Panic
  | S fuel =>
      let continue p prev_p_ch matched p_idx_ofs :=
        let '(next, p) := p_next p in
        if bool_decide (option_map snd next = Some BRACKET_CLOSE) then Ok (Some (matched, p))
        else bracket_loop fuel p next prev_p_ch matched p_idx_ofs t_ch in
      match next with
      | None => Ok None
      | Some (p_idx, p_ch) =>
          let p_idx := p_idx + p_idx_ofs in
          if p_ch =? BACKSLASH then
            let '(n, p) := p_next p in
            match n with
            | None => Ok None
            | Some (_, p_ch) =>
                if p_ch =? t_ch then continue p prev_p_ch true p_idx_ofs
                else continue p p_ch matched p_idx_ofs
            end
          else if (p_ch =? 45) && negb (prev_p_ch =? 0)
                  && (match p_peek p with Some c => negb (c =? BRACKET_CLOSE) | None => false end) then
            let '(n, p) := p_next p in
            '(_, p_ch) ← expect n;
            if p_ch =? BACKSLASH then
              let '(n, p) := p_next p in
              match n with
              | None => Ok None
              | Some (_, p_ch) =>
                  continue p 0 (matched || in_char_range mode prev_p_ch p_ch t_ch) p_idx_ofs
              end
            else continue p 0 (matched || in_char_range mode prev_p_ch p_ch t_ch) p_idx_ofs
          else if (p_ch =? BRACKET_OPEN) && bool_decide (p_peek p = Some COLON) then
            let p := snd (p_next p) in
            let p := skip_to_close (rest p) (next_idx p) in
            let '(n, p) := p_next p in
            match n with
            | None => Ok None
            | Some (closing_bracket_idx, _) =>
                not_a_class ← (if Z.max 0 (closing_bracket_idx - p_idx) <? 3 then Ok true
                               else c ← expect (get pattern (closing_bracket_idx - 1));
                                    Ok (negb (c =? COLON)));
                if not_a_class : bool then
                  let matched := matched || (t_ch =? BRACKET_OPEN) in
                  if zlen pattern <? p_idx then Ok None
                  else
                    r ← expect (get_from pattern p_idx);
                    continue {| rest := r; next_idx := 0 |} prev_p_ch matched (p_idx_ofs + p_idx)
                else
                  class ← expect (get_range pattern (p_idx + 2) (closing_bracket_idx - 1));
                  match in_class mode class t_ch with
                  | None => Ok None
                  | Some b => continue p 0 (matched || b) p_idx_ofs
                  end
            end
          else continue p p_ch (matched || (p_ch =? t_ch)) p_idx_ofs
      end
  end.
Definition bracket_fuel : nat := (length pattern + 2) * (length pattern + 2).

(** The search for a literal byte after a star. *)
Fixpoint seek (t : bytes) (t_idx t_ch p_ch : Z) (match_slash : bool) : bytes * Z * Z :=
  if (negb match_slash && (t_ch =? SLASH)) || (t_ch =? p_ch) then (t, t_idx, t_ch)
  else match t with
       | [] => (t, t_idx, t_ch)
       | x :: t => seek t (t_idx + 1) (possibly_lowercase x) p_ch match_slash
       end.

(** The [loop] that lets a star take one more byte of the text. *)
Fixpoint star_loop (fuel : nat) (t : bytes) (t_idx t_ch p_idx p_ch : Z) (match_slash : bool)
    : outcome unit wm_result :=
  match fuel with
  | O => Panic
  | S fuel =>
      let literal := negb (contains GLOB_CHARACTERS p_ch) in
      let '(t, t_idx, t_ch) :=
        if literal then seek t t_idx t_ch p_ch match_slash else (t, t_idx, t_ch) in
      if literal && negb (t_ch =? p_ch) then Ok (if match_slash then AbortAll else AbortToStarStar)
      else
        sub_pattern ← expect (get_from pattern p_idx);
        sub_text ← expect (get_from text t_idx);
        res ← rec sub_pattern sub_text;
        let advance :=
          match t with
          | [] => Ok AbortAll
          | x :: t => star_loop fuel t (t_idx + 1) (possibly_lowercase x) p_idx p_ch match_slash
          end in
        if negb (bool_decide (res = NoMatch)) then
          if negb match_slash || negb (bool_decide (res = AbortToStarStar)) then Ok res else advance
        else if negb match_slash && (t_ch =? SLASH) then Ok AbortToStarStar
        else advance
  end.

(** What a star does: fail or match at once, go on behind a slash, or try. *)
Inductive star_step :=
| StarReturn (res : wm_result)
| StarContinue (skip : Z)
| StarTry (p_idx p_ch : Z) (match_slash : bool).

Definition trailing_star (t_idx : Z) (match_slash : bool) : outcome unit star_step :=
  sub_text ← expect (get_from text t_idx);
  Ok (StarReturn (if negb match_slash && contains sub_text SLASH then AbortToStarStar else Match)).

Fixpoint find_byte (l : bytes) (b : Z) : option Z :=
  match l with
  | [] => None
  | x :: l => if x =? b then Some 0 else (λ n, n + 1) <$> find_byte l b
  end.

(** Two stars or more: the byte behind them, whether a slash may be matched, and
    whether the rest matches with no directory in between. *)
Definition double_star (p : Iter) (p_idx t_idx : Z)
    : outcome unit (option (Z * Z) * Iter * bool * bool) :=
  let p := skip_stars (rest p) (next_idx p) in
  let '(next, p) := p_next p in
  if negb (no_match_slash_literal mode) then Ok (next, p, true, false)
  else
    leading ← (if p_idx - 1 <? 0 then Ok true
               else c ← expect (get pattern (p_idx - 1)); Ok (c =? SLASH));
    if leading
       && (match next with
           | None => true
           | Some (_, c) => (c =? SLASH) || ((c =? BACKSLASH) && bool_decide (p_peek p = Some SLASH))
           end)
    then
      res ← (match next with
             | None => Ok NoMatch
             | Some (idx, _) =>
                 sub_pattern ← expect (get_from pattern (idx + 1));
                 sub_text ← expect (get_from text t_idx);
                 rec sub_pattern sub_text
             end);
      Ok (next, p, true, bool_decide (res = Match))
    else Ok (next, p, false, false).

(** [match next]: what follows the stars. *)
Definition star_tail (next : option (Z * Z)) (q : Iter) (t_idx : Z) (ms : bool) : outcome unit (star_step * Iter) :=
  match next with
  | None => s ← trailing_star t_idx ms; Ok (s, q)
  | Some (p_idx, p_ch) =>
      if negb ms && (p_ch =? SLASH) then
        sub_text ← expect (get_from text t_idx);
        match find_byte sub_text SLASH with
        | Some distance_to_slash => Ok (StarContinue distance_to_slash, q)
        | None => Ok (StarReturn AbortAll, q)
        end
      else Ok (StarTry p_idx p_ch ms, q)
  end.

Definition star_arm (p : Iter) (p_idx t_idx : Z) : outcome unit (star_step * Iter) :=
  let match_slash := negb (no_match_slash_literal mode) in
  let '(n, p) := p_next p in
  match n with
  | None => s ← trailing_star t_idx match_slash; Ok (s, p)
  | Some (next_p_idx, next_p_ch) =>
      '(next, p, match_slash, matched) ←
        (if next_p_ch =? STAR then double_star p p_idx t_idx
         else Ok (Some (next_p_idx, next_p_ch), p, match_slash, false));
      if matched : bool then Ok (StarReturn Match, p) else star_tail next p t_idx match_slash
  end.

(** [while let Some((p_idx, p_ch)) = p.next()]: a round takes a byte of the text or
    returns. [t] is what is left of the text, [t_idx] the index of its first byte. *)
Fixpoint match_loop (fuel : nat) (p : Iter) (t : bytes) (t_idx : Z) : outcome unit wm_result :=
  match fuel with
  | O => Panic
  | S fuel =>
      let '(n, p) := p_next p in
      match n with
      | None => Ok (match t with [] => Match | _ => NoMatch end)
      | Some (p_idx, p_ch) =>
          if bool_decide (t = []) && negb (p_ch =? STAR) then Ok AbortAll
          else
            let '(cur_idx, t_ch, t, t_idx) :=
              match t with
              | [] => (zlen text, 0, [], t_idx)
              | c :: t => (t_idx, possibly_lowercase c, t, t_idx + 1)
              end in
            if p_ch =? BACKSLASH then
              let '(n, p) := p_next p in
              match n with
              | Some (_, p_ch) => if negb (p_ch =? t_ch) then Ok NoMatch else match_loop fuel p t t_idx
              | None => Ok NoMatch
              end
            else if p_ch =? 63 then
              if no_match_slash_literal mode && (t_ch =? SLASH) then Ok NoMatch
              else match_loop fuel p t t_idx
            else if p_ch =? STAR then
              '(s, p) ← star_arm p p_idx cur_idx;
              match s with
              | StarReturn res => Ok res
              | StarContinue skip =>
                  match_loop fuel p (drop (Z.to_nat skip) t) (t_idx + Z.min skip (zlen t))
              | StarTry p_idx p_ch match_slash =>
                  star_loop (S (length t)) t cur_idx t_ch p_idx p_ch match_slash
              end
            else if p_ch =? BRACKET_OPEN then
              let '(n, p) := p_next p in
              match n with
              | None => Ok AbortAll
              | Some (p_idx, p_ch) =>
                  let p_ch := if p_ch =? 94 then NEGATE_CLASS else p_ch in
                  let negated := p_ch =? NEGATE_CLASS in
                  let '(next, p) := if negated then p_next p else (Some (p_idx, p_ch), p) in
                  r ← bracket_loop bracket_fuel p next 0 false 0 t_ch;
                  match r with
                  | None => Ok AbortAll
                  | Some (matched, p) =>
                      if eqb matched negated || (no_match_slash_literal mode && (t_ch =? SLASH))
                      then Ok NoMatch
                      else match_loop fuel p t t_idx
                  end
              end
            else if negb (p_ch =? t_ch) then Ok NoMatch
            else match_loop fuel p t t_idx
      end
  end.
End Recursive.

(** [limit] is [RECURSION_LIMIT - depth]. *)
Fixpoint match_recursive (limit : nat) (mode : Mode) (pattern text : bytes) : outcome unit wm_result :=
  match limit with
  | O => Ok RecursionLimitReached
  | S limit =>
      match_loop mode (match_recursive limit mode) pattern text (length text + 2)
        {| rest := pattern; next_idx := 0 |} text 0
  end.
Definition wildmatch (pattern value : bytes) (mode : Mode) : outcome unit bool :=
  res ← match_recursive RECURSION_LIMIT mode pattern value;
  Ok (bool_decide (res = Match)).

(** ** Lemmas: every run ends and stays within bounds *)
Section Total.
Context (mode : Mode) (rec : bytes → bytes → outcome unit wm_result) (pattern text : bytes).
Context (rec_total : ∀ p t, ∃ r, rec p t = Ok r).

(** The iterator walks over the pattern, or over a part of it after a restart. *)
Definition iter_ok (p : Iter) : Prop := 0 ≤ next_idx p ∧ next_idx p + zlen (rest p) ≤ zlen pattern.
Definition idx_ok (next : option (Z * Z)) : Prop := ∀ i c, next = Some (i, c) → 0 ≤ i < zlen pattern.

Lemma p_next_ok p n q :
  iter_ok p → p_next mode p = (n, q) →
  iter_ok q ∧ idx_ok n ∧
  ((n = None ∧ rest q = []) ∨ (∃ c, n = Some (next_idx p, c)) ∧ S (length (rest q)) = length (rest p)) ∧
  next_idx p ≤ next_idx q ∧ (n ≠ None → next_idx q = next_idx p + 1).
Proof.
  intros [H1 H2] H. unfold p_next in H. destruct (rest p) as [|c r] eqn:E; injection H as <- <-.
  - split; [by split; rewrite ?E|]. split; [done|]. split; [by left|]. split; [lia|done].
  - rewrite zlen_cons in H2. pose proof (zlen_nonneg r). split; [split; simpl; lia|].
    split; [intros i x [= <- <-]; lia|]. simpl. split; [right; split; [by eexists|done]|]. split; [lia|done].
Qed.

Lemma skip_to_close_ok r : ∀ idx,
  iter_ok {| rest := r; next_idx := idx |} →
  iter_ok (skip_to_close mode r idx) ∧ (length (rest (skip_to_close mode r idx)) ≤ length r)%nat.
Proof.
  induction r as [|c r IH]; intros idx [H1 H2]; cbn [skip_to_close]; [done|]. simpl in H1, H2.
  rewrite zlen_cons in H2. destruct (negb _); [|split; [split; simpl; rewrite ?zlen_cons; lia|simpl; lia]].
  destruct (IH (idx + 1)) as [? ?]; [split; simpl in *; lia|]. split; [done|]. simpl. lia.
Qed.
Lemma skip_stars_ok r : ∀ idx,
  iter_ok {| rest := r; next_idx := idx |} → iter_ok (skip_stars mode r idx).
Proof.
  induction r as [|c r IH]; intros idx [H1 H2]; cbn [skip_stars]; [done|]. simpl in H1, H2.
  rewrite zlen_cons in H2. destruct (_ =? _); [|split; simpl; rewrite ?zlen_cons; lia].
  apply IH. split; simpl in *; lia.
Qed.

(** The measure of the bracket loop: restarts make the offset grow. *)
Definition bracket_measure (p : Iter) (next : option (Z * Z)) (ofs : Z) : Z :=
  (zlen pattern + 1 - Z.min ofs (zlen pattern + 1)) * (zlen pattern + 2)
  + zlen (rest p) + (if next then 1 else 0).

Lemma bracket_loop_ok fuel : ∀ p next prev matched ofs t_ch,
  iter_ok p → idx_ok next → 0 ≤ ofs → (∀ i c, next = Some (i, c) → 1 ≤ i + ofs) → 1 ≤ next_idx p + ofs →
  bracket_measure p next ofs < Z.of_nat fuel →
  ∃ r, bracket_loop mode pattern fuel p next prev matched ofs t_ch = Ok r ∧
    ∀ m q, r = Some (m, q) → iter_ok q.
Proof.
  induction fuel as [|fuel IH]; intros p next prev matched ofs t_ch Hp Hn Ho Hpos Hposp Hf.
  { unfold bracket_measure in Hf. pose proof (zlen_nonneg (rest p)). pose proof (zlen_nonneg pattern).
    assert (0 ≤ (zlen pattern + 1 - Z.min ofs (zlen pattern + 1)) * (zlen pattern + 2)) by nia.
    destruct next; lia. }
  cbn [bracket_loop]. destruct next as [[i c]|]; [|by exists None].
  specialize (Hn i c eq_refl). specialize (Hpos i c eq_refl).
  assert (Hcont : ∀ q prev' matched' ofs',
    iter_ok q → 0 ≤ ofs' → 1 ≤ next_idx q + ofs' →
    bracket_measure q None ofs' < Z.of_nat fuel →
    ∃ r, (let '(next, p) := p_next mode q in
          if bool_decide (option_map snd next = Some BRACKET_CLOSE) then Ok (Some (matched', p))
          else bracket_loop mode pattern fuel p next prev' matched' ofs' t_ch) = Ok r ∧
      ∀ m q, r = Some (m, q) → iter_ok q).
  { intros q prev' matched' ofs' Hq Ho' Hposq Hfq. destruct (p_next mode q) as [n q'] eqn:E.
    destruct (p_next_ok q n q' Hq E) as (Hq' & Hn' & Hcase & Hidx & _).
    destruct (bool_decide _).
    - eexists. split; [done|]. by intros m ? [= <- <-].
    - apply IH; [done|done|done| |lia|].
      + intros j d ->. destruct Hcase as [[? _]|[[d' [= -> ->]] _]]; [done|]. lia.
      + unfold bracket_measure in *. destruct Hcase as [[-> Hr]|[[d ->] Hr]].
        * rewrite Hr. change (zlen (@nil Z)) with 0. pose proof (zlen_nonneg (rest q)). lia.
        * unfold zlen in *. lia. }
  assert (Hstep : ∀ q, (length (rest q) ≤ length (rest p))%nat →
    bracket_measure q None ofs < Z.of_nat fuel).
  { intros q Hq. unfold bracket_measure in *. unfold zlen in *. lia. }
  destruct (p_next mode p) as [n q] eqn:E.
  destruct (p_next_ok p n q Hp E) as (Hq & Hnq & Hcase & Hidx & _).
  assert (Hlq : (length (rest q) ≤ length (rest p))%nat) by (destruct Hcase as [[_ ->]|[_ Hr]]; simpl; lia).
  destruct (c =? BACKSLASH).
  { destruct n as [[j d]|]; [|by eexists]. destruct (d =? t_ch); apply Hcont; try done; try lia; by apply Hstep. }
  destruct ((c =? 45) && _ && _) eqn:Edash.
  { destruct n as [[j d]|].
    2: { apply andb_true_iff in Edash as [_ Epeek]. unfold p_peek in Epeek. unfold p_next in E.
         destruct (rest p); [done|]. discriminate E. }
    cbn [expect mbind outcome_bind]. destruct (d =? BACKSLASH).
    - destruct (p_next mode q) as [n' q'] eqn:E'.
      destruct (p_next_ok q n' q' Hq E') as (Hq' & _ & Hcase' & Hidx' & _).
      destruct n' as [[j' d']|]; [|by eexists]. apply Hcont; [done|done|lia|]. apply Hstep.
      destruct Hcase' as [[? _]|[_ Hr]]; [done|lia].
    - apply Hcont; try done; try lia. by apply Hstep. }
  destruct ((c =? BRACKET_OPEN) && _).
  2: { pose proof (Hcont p c (matched || (c =? t_ch)) ofs Hp Ho Hposp (Hstep p (le_n _))) as H.
       rewrite E in H. exact H. }
  cbn [snd]. destruct Hq as [Hq1 Hq2].
  destruct (skip_to_close_ok (rest q) (next_idx q)) as [Hs Hsl]; [by split|].
  destruct (p_next mode (skip_to_close mode (rest q) (next_idx q))) as [n2 q2] eqn:E2.
  destruct (p_next_ok _ _ _ Hs E2) as (Hq2' & Hn2 & Hcase2 & Hidx2 & _).
  destruct n2 as [[closing d]|]; [|by eexists]. specialize (Hn2 closing d eq_refl).
  assert (Hlq2 : (length (rest q2) ≤ length (rest p))%nat) by (destruct Hcase2 as [[? _]|[_ Hr]]; [done|lia]).
  assert (Hnc : ∃ b, (if Z.max 0 (closing - (i + ofs)) <? 3 then Ok true
    else c0 ← expect (get pattern (closing - 1)); Ok (negb (c0 =? COLON))) = Ok (E := unit) b ∧
    (b = false → 3 ≤ closing - (i + ofs))).
  { destruct (Z.ltb_spec (Z.max 0 (closing - (i + ofs))) 3); [by exists true|].
    destruct (get pattern (closing - 1)) eqn:Eg.
    - eexists. split; [done|]. lia.
    - unfold get in Eg. destruct (Z.leb_spec 0 (closing - 1)); [|lia].
      apply lookup_ge_None in Eg. unfold zlen in *. lia. }
  destruct Hnc as (b & -> & Hb). cbn [mbind outcome_bind]. destruct b.
  - destruct (Z.ltb_spec (zlen pattern) (i + ofs)); [by eexists|].
    rewrite get_from_in by lia. cbn [expect mbind outcome_bind].
    apply Hcont; simpl; [|lia|lia|].
    + split; simpl; [lia|]. unfold zlen in *. rewrite length_drop. lia.
    + unfold bracket_measure in *. cbn [rest]. unfold zlen in *. rewrite length_drop. nia.
  - specialize (Hb eq_refl). rewrite get_range_in by lia. cbn [expect mbind outcome_bind].
    destruct (in_class _ _ _); [|by eexists].
    apply Hcont; [done|done| |by apply Hstep].
    destruct Hcase2 as [[? _]|[[d' [= Hd]] Hr]]; [done|]. lia.
Qed.

Lemma seek_ok t : ∀ t_idx t_ch p_ch ms t' i' c',
  seek mode t t_idx t_ch p_ch ms = (t', i', c') →
  t_idx ≤ i' ∧ i' + zlen t' = t_idx + zlen t ∧ (length t' ≤ length t)%nat.
Proof.
  induction t as [|x t IH]; intros t_idx t_ch p_ch ms t' i' c' H; cbn [seek] in H;
    (destruct (_ || _); [injection H as <- <- _; lia|]); [injection H as <- <- _; lia|].
  apply IH in H. rewrite zlen_cons. simpl. lia.
Qed.

Lemma star_loop_ok fuel : ∀ t t_idx t_ch p_idx p_ch ms,
  0 ≤ t_idx → t_idx + zlen t ≤ zlen text → 0 ≤ p_idx ≤ zlen pattern → (length t < fuel)%nat →
  ∃ r, star_loop mode rec pattern text fuel t t_idx t_ch p_idx p_ch ms = Ok r.
Proof.
  induction fuel as [|fuel IH]; intros t t_idx t_ch p_idx p_ch ms Ht Htl Hp Hf; [lia|]. cbn [star_loop].
  set (lit := negb (contains GLOB_CHARACTERS p_ch)). clearbody lit.
  destruct (if lit then _ else _) as [[t' i'] c'] eqn:E.
  assert (t_idx ≤ i' ∧ i' + zlen t' = t_idx + zlen t ∧ (length t' ≤ length t)%nat) as (H1 & H2 & H3).
  { destruct lit; [by eapply seek_ok|]. injection E as <- <- _. lia. }
  destruct (lit && negb (c' =? p_ch)); [by eexists|].
  pose proof (zlen_nonneg t'). rewrite !get_from_in by lia. cbn [expect mbind outcome_bind].
  destruct (rec_total (drop (Z.to_nat p_idx) pattern) (drop (Z.to_nat i') text)) as [r ->].
  cbn [mbind outcome_bind].
  assert (Hadv : ∃ r, match t' with
    | [] => Ok AbortAll
    | x :: t => star_loop mode rec pattern text fuel t (i' + 1) (possibly_lowercase mode x) p_idx p_ch ms
    end = Ok r).
  { destruct t' as [|x t']; [by eexists|]. rewrite zlen_cons in *. apply IH; [lia|lia|lia|]. simpl in H3. lia. }
  destruct (negb (bool_decide (r = NoMatch))).
  - destruct (negb ms || _); [by eexists|done].
  - destruct (negb ms && _); [by eexists|done].
Qed.

Lemma find_byte_range l b n : find_byte l b = Some n → 0 ≤ n < zlen l.
Proof.
  revert n. induction l as [|x l IH]; intros n H; cbn [find_byte] in H; [done|].
  rewrite zlen_cons. pose proof (zlen_nonneg l). destruct (x =? b); [injection H as <-; lia|].
  destruct (find_byte l b) as [k|]; [|done]. injection H as <-. specialize (IH k eq_refl). lia.
Qed.

Lemma trailing_star_ok t_idx ms :
  0 ≤ t_idx ≤ zlen text → ∃ r, trailing_star text t_idx ms = Ok (StarReturn r).
Proof. intros H. unfold trailing_star. rewrite get_from_in by lia. by eexists. Qed.

Lemma double_star_ok p p_idx t_idx :
  iter_ok p → 0 ≤ p_idx < zlen pattern → 0 ≤ t_idx ≤ zlen text →
  ∃ n q ms b, double_star mode rec pattern text p p_idx t_idx = Ok (n, q, ms, b) ∧ iter_ok q ∧ idx_ok n.
Proof.
  intros Hp Hi Ht. unfold double_star.
  assert (Hs : iter_ok (skip_stars mode (rest p) (next_idx p))) by (apply skip_stars_ok; by destruct Hp).
  destruct (p_next mode (skip_stars mode (rest p) (next_idx p))) as [n q] eqn:E.
  destruct (p_next_ok _ _ _ Hs E) as (Hq & Hn & _).
  destruct (negb (no_match_slash_literal mode)); [by eexists n, q, _, _|].
  assert (∃ b, (if p_idx - 1 <? 0 then Ok true
     else c ← expect (get pattern (p_idx - 1)); Ok (c =? SLASH)) = Ok (E := unit) b) as [b ->].
  { destruct (Z.ltb_spec (p_idx - 1) 0); [by eexists|].
    destruct (get_in pattern (p_idx - 1)) as (c & -> & _); [lia|]. by eexists. }
  cbn [mbind outcome_bind]. destruct (b && _); [|by eexists n, q, _, _].
  destruct n as [[i c]|]; [|by eexists None, q, _, _].
  specialize (Hn i c eq_refl) as Hic. rewrite !get_from_in by lia. cbn [expect mbind outcome_bind].
  destruct (rec_total (drop (Z.to_nat (i + 1)) pattern) (drop (Z.to_nat t_idx) text)) as [r ->].
  by eexists (Some (i, c)), q, _, _.
Qed.

Lemma star_arm_ok p p_idx t_idx :
  iter_ok p → 0 ≤ p_idx < zlen pattern → 0 ≤ t_idx ≤ zlen text →
  ∃ s q, star_arm mode rec pattern text p p_idx t_idx = Ok (s, q) ∧ iter_ok q ∧
    match s with
    | StarTry i _ _ => 0 ≤ i < zlen pattern
    | StarContinue k => 0 ≤ k ∧ t_idx < zlen text
    | StarReturn _ => True
    end.
Proof.
  intros Hp Hi Ht. unfold star_arm, star_tail. destruct (p_next mode p) as [n q] eqn:E.
  destruct (p_next_ok p n q Hp E) as (Hq & Hn & _).
  destruct n as [[i c]|].
  2: { destruct (trailing_star_ok t_idx (negb (no_match_slash_literal mode)) Ht) as [r ->].
       by eexists _, q. }
  assert (∃ n2 q2 ms b, (if c =? STAR then double_star mode rec pattern text q p_idx t_idx
    else Ok (Some (i, c), q, negb (no_match_slash_literal mode), false)) = Ok (n2, q2, ms, b) ∧
    iter_ok q2 ∧ idx_ok n2) as (n2 & q2 & ms & b & -> & Hq2 & Hn2).
  { destruct (c =? STAR); [by apply double_star_ok|]. by eexists _, _, _, _. }
  cbn [mbind outcome_bind]. destruct b; [by eexists _, q2|].
  destruct n2 as [[i2 c2]|].
  2: { destruct (trailing_star_ok t_idx ms Ht) as [r ->]. by eexists _, q2. }
  destruct (negb ms && (c2 =? SLASH)).
  - rewrite get_from_in by lia. cbn [expect mbind outcome_bind].
    destruct (find_byte _ _) as [k|] eqn:Ef; [|by eexists _, q2].
    eexists _, q2. split; [done|]. split; [done|]. apply find_byte_range in Ef.
    unfold zlen in *. rewrite length_drop in Ef. lia.
  - eexists _, q2. split; [done|]. split; [done|]. by apply (Hn2 i2 c2).
Qed.

Lemma match_loop_ok fuel : ∀ p t t_idx,
  iter_ok p → 0 ≤ t_idx → t_idx + zlen t = zlen text → (length t + 1 < fuel)%nat →
  ∃ r, match_loop mode rec pattern text fuel p t t_idx = Ok r.
Proof.
  induction fuel as [|fuel IH]; intros p t t_idx Hp Ht Htl Hf; [lia|]. cbn [match_loop].
  destruct (p_next mode p) as [n q] eqn:E. destruct (p_next_ok p n q Hp E) as (Hq & Hn & _ & _ & Hs).
  destruct n as [[i c]|]; [|by eexists]. specialize (Hn i c eq_refl). specialize (Hs ltac:(done)).
  destruct (bool_decide (t = []) && negb (c =? STAR)) eqn:Eempty; [by eexists|].
  assert (∃ cur t_ch t' ti, (match t with
      | [] => (zlen text, 0, [], t_idx)
      | x :: t => (t_idx, possibly_lowercase mode x, t, t_idx + 1)
      end) = (cur, t_ch, t', ti) ∧ 0 ≤ cur ∧ cur + zlen t' ≤ zlen text ∧ 0 ≤ ti ∧ ti + zlen t' = zlen text ∧
      ((length t' + 1 < fuel)%nat ∨ c = STAR ∧ cur = zlen text)) as (cur & t_ch & t' & ti & -> & Hc1 & Hc2 & Hti & Htl' & Hfu).
  { destruct t as [|x t].
    - eexists _, _, _, _. split; [done|]. change (zlen (@nil Z)) with 0 in *. pose proof (zlen_nonneg text).
      do 4 (split; [lia|]). right. split; [|done].
      rewrite bool_decide_eq_true_2 in Eempty by done. cbn [andb] in Eempty.
      apply negb_false_iff, Z.eqb_eq in Eempty. done.
    - eexists _, _, _, _. split; [done|]. rewrite zlen_cons in Htl. pose proof (zlen_nonneg t).
      do 4 (split; [lia|]). left. simpl in Hf. lia. }
  clear Eempty. pose proof (zlen_nonneg t').
  assert (Hgo : ∀ q', iter_ok q' → c ≠ STAR → ∃ r, match_loop mode rec pattern text fuel q' t' ti = Ok r).
  { intros q' Hq' Hc. apply IH; [done|lia|lia|]. by destruct Hfu as [|[]]. }
  destruct (Z.eqb_spec c BACKSLASH) as [->|_].
  { destruct (p_next mode q) as [n2 q2] eqn:E2. destruct (p_next_ok q n2 q2 Hq E2) as (Hq2 & _).
    destruct n2 as [[i2 c2]|]; [|by eexists]. destruct (negb _); [by exists NoMatch|]. apply Hgo; [done|by compute]. }
  destruct (Z.eqb_spec c 63) as [->|_].
  { destruct (_ && _); [by exists NoMatch|]. apply Hgo; [done|by compute]. }
  destruct (Z.eqb_spec c STAR) as [->|Hc].
  { destruct (star_arm_ok q i cur Hq Hn ltac:(lia)) as (s & q2 & -> & Hq2 & Hst).
    cbn [mbind outcome_bind]. destruct s as [r|skip|i2 c2 ms]; [by eexists| |by apply star_loop_ok; lia].
    destruct Hst as [Hskip Hcur]. destruct Hfu as [Hfu|[_ Hfu]]; [|lia].
    apply IH; [done|lia| |rewrite length_drop; lia].
    unfold zlen in *. rewrite length_drop. lia. }
  destruct (c =? BRACKET_OPEN).
  { destruct (p_next mode q) as [n2 q2] eqn:E2.
    destruct (p_next_ok q n2 q2 Hq E2) as (Hq2 & Hn2 & Hcase2 & _ & Hs2).
    destruct n2 as [[i2 c2]|]; [|by eexists]. specialize (Hs2 ltac:(done)).
    assert (1 ≤ next_idx q) by (destruct Hp; lia).
    assert (i2 = next_idx q) as Hi2 by (destruct Hcase2 as [[? _]|[[x Hx] _]]; [done|by injection Hx]).
    set (c' := if c2 =? 94 then NEGATE_CLASS else c2).
    destruct (if c' =? NEGATE_CLASS then _ else _) as [n3 q3] eqn:E3.
    assert (iter_ok q3 ∧ idx_ok n3 ∧ (∀ i c, n3 = Some (i, c) → 1 ≤ i + 0) ∧ 1 ≤ next_idx q3 + 0)
      as (Hq3 & Hn3 & Hpos3 & Hposq3).
    { destruct (c' =? NEGATE_CLASS).
      - destruct (p_next_ok q2 n3 q3 Hq2 E3) as (? & ? & Hcase3 & Hle & _).
        split; [done|]. split; [done|]. split; [|lia].
        intros j d ->. destruct Hcase3 as [[? _]|[[x Hx] _]]; [done|]. injection Hx as Hx _. lia.
      - injection E3 as <- <-. split; [done|]. split.
        + intros j d [= <- _]. by apply (Hn2 _ c2).
        + split; [|lia]. intros j d [= <- _]. lia. }
    destruct (bracket_loop_ok (bracket_fuel pattern) q3 n3 0 false 0 t_ch) as (r & -> & Hr);
      [done|done|lia|done|done| |].
    { unfold bracket_measure, bracket_fuel. destruct Hq3. pose proof (zlen_nonneg (rest q3)).
      assert ((if n3 then 1 else 0) ≤ 1) by (destruct n3; lia). unfold zlen in *. nia. }
    cbn [mbind outcome_bind]. destruct r as [[m q4]|]; [|by eexists].
    destruct (_ || _); [by eexists|]. apply Hgo; [by eapply Hr|]. by intros ->. }
  destruct (negb _); [by eexists|]. apply Hgo; [done|]. done.
Qed.
End Total.

Lemma match_recursive_total limit mode : ∀ pattern text,
  ∃ r, match_recursive limit mode pattern text = Ok r.
Proof.
  induction limit as [|limit IH]; intros pattern text; cbn [match_recursive]; [by eexists|].
  apply match_loop_ok; [done| | |done|lia].
  - split; simpl; lia.
  - lia.
Qed.

(** ** What a pattern without brackets means *)
Inductive token :=
| TLit (c : Z)   (** this byte *)
| TAny           (** one byte *)
| TStar          (** bytes other than a slash *)
| TCross         (** any bytes *)
| TDirs          (** any number of directories, each with its slash *)
| TNever.        (** a trailing backslash *)
Inductive stars := NoStar | OneStar | ManyStars.
Definition more_stars (st : stars) : stars := match st with NoStar => OneStar | _ => ManyStars end.
Definition is_many (st : stars) : bool := match st with ManyStars => true | _ => false end.

Section Spec.
Context (path : bool) (fold : Z → Z).

Definition star_token (cross : bool) (st : stars) : list token :=
  match st with
  | NoStar => []
  | OneStar => [if path then TStar else TCross]
  | ManyStars => [if path && negb cross then TStar else TCross]
  end.

(** [lead]: the stars seen last, or the byte to come, are at the beginning of the
    pattern or follow a slash. *)
Fixpoint tokens (lead : bool) (st : stars) (p : bytes) : list token :=
  match p with
  | [] => star_token lead st
  | c :: r =>
      if c =? STAR then tokens lead (more_stars st) r
      else if c =? BACKSLASH then
        match r with
        | [] => star_token false st ++ [TNever]
        | d :: r => star_token (lead && (d =? SLASH)) st ++ TLit d :: tokens (d =? SLASH) NoStar r
        end
      else if c =? 63 then star_token false st ++ TAny :: tokens false NoStar r
      else if path && is_many st && lead && (c =? SLASH) then TDirs :: tokens true NoStar r
      else star_token false st ++ TLit c :: tokens (c =? SLASH) NoStar r
  end.

(** The texts that a sequence of tokens matches. *)
Fixpoint gmatch (toks : list token) (t : bytes) : Prop :=
  match toks with
  | [] => t = []
  | TLit c :: toks => ∃ x t', t = x :: t' ∧ fold x = c ∧ gmatch toks t'
  | TAny :: toks => ∃ x t', t = x :: t' ∧ (path = true → x ≠ SLASH) ∧ gmatch toks t'
  | TStar :: toks => ∃ a t', t = a ++ t' ∧ SLASH ∉ a ∧ gmatch toks t'
  | TCross :: toks => ∃ a t', t = a ++ t' ∧ gmatch toks t'
  | TDirs :: toks => gmatch toks t ∨ ∃ a t', t = a ++ SLASH :: t' ∧ gmatch toks t'
  | TNever :: _ => False
  end.
End Spec.

(** ** Lemmas: the matcher decides this relation *)
Section Verdict.
Context (mode : Mode).
Notation path := (no_match_slash_literal mode).
Notation F := (possibly_lowercase mode).
Notation G := (gmatch path F).
Notation toks_of := (tokens path).

Lemma fold_special c s : s ∈ [42; 47; 63; 91; 92; 58; 93] → F c = s ↔ c = s.
Proof.
  intros Hs. unfold possibly_lowercase, to_ascii_lowercase. destruct (ignore_case mode); [|done].
  destruct (Z.leb_spec 65 c), (Z.leb_spec c 90); simpl; [|done..].
  rewrite !elem_of_cons in Hs. split; intros; set_solver by lia.
Qed.
Lemma fold_slash c : F c = SLASH ↔ c = SLASH.
Proof. apply fold_special. set_solver. Qed.
Lemma fold_star c : F c = STAR ↔ c = STAR.
Proof. apply fold_special. set_solver. Qed.
Lemma fold_bracket c : F c = BRACKET_OPEN ↔ c = BRACKET_OPEN.
Proof. apply fold_special. set_solver. Qed.

(** [**/] may only be looked for behind a slash. *)
Definition anchored (toks : list token) (a : bytes) : Prop :=
  head toks = Some TDirs → a = [] ∨ ∃ a', a = a' ++ [SLASH].

(** What a result promises: the aborts speak about suffixes of the text as well. *)
Definition verdict (res : wm_result) (toks : list token) (t : bytes) : Prop :=
  match res with
  | Match => G toks t
  | NoMatch => ¬ G toks t
  | AbortAll => ∀ a s, t = a ++ s → anchored toks a → ¬ G toks s
  | AbortToStarStar => path = true ∧ ∀ a s, t = a ++ s → SLASH ∉ a → ¬ G toks s
  | RecursionLimitReached => False
  end.

Lemma anchored_nil toks : anchored toks [].
Proof. by left. Qed.
Lemma verdict_fail res toks t : verdict res toks t → res ≠ Match → ¬ G toks t.
Proof.
  destruct res; simpl; [done|done| | |done].
  - intros H _. apply (H [] t); [done|apply anchored_nil].
  - intros [_ H] _. by apply (H [] t); [|set_solver].
Qed.
Lemma verdict_iff res toks t : verdict res toks t → res = Match ↔ G toks t.
Proof.
  intros H. split; [by intros ->|]. intros HG. destruct (decide (res = Match)); [done|].
  by destruct (verdict_fail res toks t).
Qed.

(** One byte of the text for one token. *)
Lemma verdict_lit res c x toks t :
  F x = c → (head toks = Some TDirs → c = SLASH) → verdict res toks t → verdict res (TLit c :: toks) (x :: t).
Proof.
  intros Hx Hdirs H. destruct res; simpl in *.
  - by exists x, t.
  - intros (y & t' & [= <- <-] & _ & ?). done.
  - intros a s Ha _ (y & s' & -> & Hy & HG). destruct a as [|z a].
    + injection Ha as <- <-. by apply (H [] t); [|apply anchored_nil|].
    + injection Ha as <- ->. apply (H (a ++ [y]) s'); [by rewrite <- app_assoc| |done].
      intros Hd. right. exists a. do 2 f_equal. apply fold_slash. rewrite Hy. auto.
  - destruct H as [Hp H]. split; [done|]. intros a s Ha Hsl (y & s' & -> & Hy & HG). destruct a as [|z a].
    + injection Ha as <- <-. by apply (H [] t); [|set_solver|].
    + injection Ha as <- ->. apply (H (a ++ [y]) s'); [by rewrite <- app_assoc| |done].
      intros Hin. apply elem_of_app in Hin as [Hin|Hin]; [set_solver|].
      apply list_elem_of_singleton in Hin as <-. apply Hsl.
      assert (x = SLASH) as -> by (apply fold_slash; rewrite Hx, <- Hy; by apply fold_slash). set_solver.
  - done.
Qed.
Lemma verdict_any res x toks t :
  head toks ≠ Some TDirs → (path = true → x ≠ SLASH) → verdict res toks t → verdict res (TAny :: toks) (x :: t).
Proof.
  intros Hdirs Hx H. destruct res; simpl in *.
  - by exists x, t.
  - intros (y & t' & [= <- <-] & _ & ?). done.
  - intros a s Ha _ (y & s' & -> & Hy & HG). destruct a as [|z a].
    + injection Ha as <- <-. by apply (H [] t); [|apply anchored_nil|].
    + injection Ha as <- ->. apply (H (a ++ [y]) s'); [by rewrite <- app_assoc|by intros ?|done].
  - destruct H as [Hp H]. split; [done|]. intros a s Ha Hsl (y & s' & -> & Hy & HG).
    destruct a as [|z a].
    + injection Ha as <- <-. by apply (H [] t); [|set_solver|].
    + injection Ha as <- ->. apply (H (a ++ [y]) s'); [by rewrite <- app_assoc| |done]. specialize (Hy Hp). set_solver.
  - done.
Qed.

(** A star whose tries on all suffixes fail. *)
Definition star_tok (ms : bool) : token := if ms then TCross else TStar.
Lemma star_all_fail ms toks t :
  (∀ a s, t = a ++ s → ¬ G toks s) → verdict AbortAll (star_tok ms :: toks) t.
Proof.
  intros H a s -> _ HG. destruct ms; simpl in HG.
  - destruct HG as (b & s' & -> & HG). apply (H (a ++ b) s'); [by rewrite app_assoc|done].
  - destruct HG as (b & s' & -> & _ & HG). apply (H (a ++ b) s'); [by rewrite app_assoc|done].
Qed.
Lemma star_component_fails toks t :
  path = true → (∀ a s, t = a ++ s → SLASH ∉ a → ¬ G toks s) → verdict AbortToStarStar (TStar :: toks) t.
Proof.
  intros Hp H. split; [done|]. intros a s -> Ha (b & s' & -> & Hb & HG).
  apply (H (a ++ b) s'); [by rewrite app_assoc|set_solver|done].
Qed.
(** [**/] is the crossing star before a slash, or nothing. *)
Lemma verdict_dirs res toks t :
  res ≠ AbortToStarStar → ¬ G toks t → verdict res (TCross :: TLit SLASH :: toks) t → verdict res (TDirs :: toks) t.
Proof.
  assert (Hc : ∀ a t', G toks t' → G (TCross :: TLit SLASH :: toks) (a ++ SLASH :: t')).
  { intros a t' HG. exists a, (SLASH :: t'). split; [done|]. exists SLASH, t'.
    split; [done|]. split; [by apply fold_slash|done]. }
  intros Hres Hn H. destruct res; [..|done]; unfold verdict in H |- *; [| | |done].
  - right. destruct H as (a & ? & -> & y & t' & -> & Hy & HG). apply fold_slash in Hy as ->. by exists a, t'.
  - intros [?|(a & t' & -> & HG)]; [done|]. by apply H, Hc.
  - intros a s Ha Hanch [HG|(b & s' & -> & HG)].
    + destruct (Hanch eq_refl) as [->|[a' ->]]; [by simpl in Ha; subst|].
      apply (H [] t); [done|apply anchored_nil|]. rewrite Ha, <- app_assoc. by apply Hc.
    + apply (H a (b ++ SLASH :: s')); [done|done|]. by apply Hc.
Qed.
(** A star before a slash takes the rest of the component. *)
Lemma first_slash (a b c d : bytes) :
  SLASH ∉ a → a ++ SLASH :: b = c ++ SLASH :: d → (c = a ∧ d = b) ∨ ∃ k, b = k ++ SLASH :: d.
Proof.
  intros Ha H. apply app_eq_inv in H as [(k & -> & Hk)|(k & -> & Hk)]; destruct k as [|x k].
  - injection Hk as ->. left. by rewrite app_nil_r.
  - injection Hk as <- ->. set_solver.
  - injection Hk as ->. left. by rewrite app_nil_r.
  - injection Hk as <- ->. right. by exists k.
Qed.
Lemma first_slash_unique (a b c d : bytes) :
  SLASH ∉ a → SLASH ∉ c → a ++ SLASH :: b = c ++ SLASH :: d → d = b.
Proof.
  revert c. induction a as [|x a IH]; intros [|y c] Ha Hc H; injection H.
  - done.
  - intros _ <-. set_solver.
  - intros _ ->. set_solver.
  - intros H' _. apply (IH c); [set_solver|set_solver|done].
Qed.
Lemma verdict_star_slash res toks a b :
  SLASH ∉ a → verdict res toks b → verdict res (TStar :: TLit SLASH :: toks) (a ++ SLASH :: b).
Proof.
  assert (Hinv : ∀ s, G (TStar :: TLit SLASH :: toks) s →
    ∃ x y, s = x ++ SLASH :: y ∧ SLASH ∉ x ∧ G toks y).
  { intros s (x & s' & -> & Hx & z & y & -> & Hz & HG). apply fold_slash in Hz as ->. by exists x, y. }
  intros Ha H. destruct res; unfold verdict in H |- *.
  - exists a, (SLASH :: b). split; [done|]. split; [done|]. exists SLASH, b.
    split; [done|]. split; [by apply fold_slash|done].
  - intros (x & y & E & Hx & HG)%Hinv. apply first_slash_unique in E as ->; done.
  - intros a1 s E _ (x & y & -> & Hx & HG)%Hinv. rewrite app_assoc in E.
    apply first_slash in E as [[_ ->]|[k ->]]; [|apply (H (k ++ [SLASH]) y)|done]; [|by rewrite <- app_assoc| |done].
    + by apply (H [] b); [|apply anchored_nil|].
    + intros _. right. by exists k.
  - destruct H as [Hp H]. split; [done|].
    intros a1 s E Ha1 (x & y & -> & Hx & HG)%Hinv. rewrite app_assoc in E.
    apply first_slash_unique in E as ->; [|done|set_solver]. by apply (H [] b); [|set_solver|].
  - done.
Qed.
End Verdict.

Section StarLoop.
Context (mode : Mode) (rec : bytes → bytes → outcome unit wm_result) (pattern text : bytes).
Notation path := (no_match_slash_literal mode).
Notation F := (possibly_lowercase mode).
Notation G := (gmatch path F).

Lemma seek_spec t : ∀ t_idx x p_ch ms, ∃ sk x' t',
  seek mode t t_idx (F x) p_ch ms = (t', t_idx + zlen sk, F x') ∧ x :: t = sk ++ x' :: t' ∧
  Forall (λ y, F y ≠ p_ch ∧ (ms = false → y ≠ SLASH)) sk ∧
  (F x' = p_ch ∨ (ms = false ∧ x' = SLASH) ∨ t' = []).
Proof.
  induction t as [|z t IH]; intros t_idx x p_ch ms; cbn [seek].
  all: destruct ((negb ms && (F x =? SLASH)) || (F x =? p_ch)) eqn:E.
  1, 3: eexists [], x, _; rewrite Z.add_0_r; split; [done|]; split; [done|]; split; [constructor|].
  1, 2: apply orb_true_iff in E as [[E1 E2%Z.eqb_eq]%andb_true_iff|E%Z.eqb_eq]; [|by left];
    right; left; apply fold_slash in E2; by destruct ms.
  - exists [], x, []. rewrite Z.add_0_r. split; [done|]. split; [done|]. split; [constructor|by right; right].
  - destruct (IH (t_idx + 1) z p_ch ms) as (sk & x' & t' & -> & Heq & Hsk & Hend).
    exists (x :: sk), x', t'. rewrite zlen_cons. split; [do 2 f_equal; lia|]. split; [by rewrite Heq|].
    split; [|done]. constructor; [|done]. apply orb_false_iff in E as [E1 E2%Z.eqb_neq]. split; [done|].
    intros -> Hx. rewrite <- (fold_slash mode) in Hx. cbn in E1. by rewrite Hx in E1.
Qed.

Context (sub : bytes) (toks : list token) (p_idx p_ch : Z) (ms : bool).
Context (Hsub : get_from pattern p_idx = Some sub)
  (Hrec : ∀ u, ∃ r, rec sub u = Ok r ∧ verdict mode r toks u)
  (Hlit : contains GLOB_CHARACTERS p_ch = false → ∃ toks', toks = TLit p_ch :: toks')
  (Hempty : ¬ G toks []) (Hnd : head toks ≠ Some TDirs)
  (Hms : ms = false → path = true ∧ p_ch ≠ SLASH).

(** The suffixes that begin within [done] have been tried. *)
Definition tried (dn w : bytes) : Prop := ∀ a s, dn = a ++ s → s ≠ [] → ¬ G toks (s ++ w).

Lemma tried_suffix dn w a s :
  tried dn w → dn ++ w = a ++ s → (∀ k, w = k ++ s → a = dn ++ k → ¬ G toks s) → ¬ G toks s.
Proof.
  intros Ht E Hw. apply app_eq_inv in E as [(k & -> & ->)|(k & -> & ->)]; [|by apply (Hw k)].
  destruct (decide (k = [])) as [->|Hk]; [|by apply (Ht a k)].
  apply (Hw []); [done|]. by rewrite !app_nil_r.
Qed.
Lemma tried_skip dn sk w :
  tried dn (sk ++ w) → (∀ a s, sk = a ++ s → s ≠ [] → ¬ G toks (s ++ w)) → tried (dn ++ sk) w.
Proof.
  intros Ht Hs a s E Hne. apply app_eq_inv in E as [(k & -> & ->)|(k & -> & Hk)]; [|by apply (Hs k)].
  destruct (decide (k = [])) as [->|Hk]; [by apply (Hs [])|].
  rewrite <- app_assoc. by apply (Ht a k).
Qed.

Lemma star_verdict_all dn x :
  tried dn [x] → ¬ G toks [x] → verdict mode AbortAll (star_tok ms :: toks) (dn ++ [x]).
Proof.
  intros Ht Hx. apply star_all_fail. intros a s E. apply (tried_suffix dn [x] a s Ht E).
  intros k Hk _. destruct k as [|y k]; [by simpl in Hk; subst|].
  injection Hk as <- Hk. symmetry in Hk. by apply app_eq_nil in Hk as [_ ->].
Qed.
(** No later position of the component can be reached. *)
Lemma star_verdict_component dn x t :
  ms = false → tried dn (x :: t) → ¬ G toks (x :: t) → (x = SLASH ∨ t = []) →
  verdict mode AbortToStarStar (star_tok ms :: toks) (dn ++ x :: t).
Proof.
  intros Hf Ht Hx Hend. destruct (Hms Hf) as [Hp _]. subst ms. apply star_component_fails; [done|].
  intros a s E Ha. apply (tried_suffix dn (x :: t) a s Ht E).
  intros [|y k] Hk ->; [by simpl in Hk; subst|]. injection Hk as <- ->.
  destruct Hend as [->|Hend]; [set_solver|]. by apply app_eq_nil in Hend as [_ ->].
Qed.

(** A try that does not just fail decides. *)
Lemma star_verdict_sub r dn w :
  verdict mode r toks w → tried dn w → (ms = false → SLASH ∉ dn) → r ≠ NoMatch →
  (ms = true → r ≠ AbortToStarStar) → verdict mode r (star_tok ms :: toks) (dn ++ w).
Proof.
  intros Hr Ht Hsl Hnm Habort. destruct r; [| done | | |done].
  - destruct ms; [by exists dn, w|]. exists dn, w. auto.
  - apply star_all_fail. intros a s E. apply (tried_suffix dn w a s Ht E). intros k -> _.
    apply (Hr k s eq_refl). by intros ?.
  - destruct Hr as [Hp Hr]. destruct ms; [by destruct Habort|]. apply star_component_fails; [done|].
    intros a s E Ha. apply (tried_suffix dn w a s Ht E). intros k -> ->. apply (Hr k s eq_refl). set_solver.
Qed.

(** The bytes that the search skips need no try. *)
Lemma seek_tried dn x t t_idx (lit := negb (contains GLOB_CHARACTERS p_ch)) :
  tried dn (x :: t) →
  ∃ sk x' t', (if lit then seek mode t t_idx (F x) p_ch ms else (t, t_idx, F x)) = (t', t_idx + zlen sk, F x') ∧
    x :: t = sk ++ x' :: t' ∧ (ms = false → SLASH ∉ sk) ∧ tried (dn ++ sk) (x' :: t') ∧
    (lit = true → F x' ≠ p_ch → ((ms = false ∧ x' = SLASH) ∨ t' = []) ∧ ¬ G toks (x' :: t')).
Proof.
  intros Htr.  destruct lit eqn:El.
  - destruct (seek_spec t t_idx x p_ch ms) as (sk & x' & t' & -> & Heq & Hall & He).
    exists sk, x', t'. split; [done|]. split; [done|].
    apply negb_true_iff in El. destruct (Hlit El) as [toks' Ht']. rewrite list.Forall_forall in Hall.
    split; [intros E Hin; by apply (Hall SLASH Hin)|]. split.
    + apply tried_skip; [by rewrite <- Heq|]. intros a [|y s] -> Hne; [done|]. rewrite Ht'.
      intros (z & ? & [= <- _] & Hz & _). destruct (Hall y) as [Hn _]; [set_solver|by apply Hn].
    + intros _ Hne. split; [by destruct He as [|]|]. rewrite Ht'. by intros (z & ? & [= <- _] & Hz & _).
  - exists [], x, t. rewrite Z.add_0_r, app_nil_r. split; [done|]. split; [done|]. split; [set_solver|].
    by split.
Qed.

Lemma star_loop_exact tpre fuel : ∀ dn x t,
  text = tpre ++ dn ++ x :: t → (ms = false → SLASH ∉ dn) → tried dn (x :: t) → (length t < fuel)%nat →
  ∃ r, star_loop mode rec pattern text fuel t (zlen (tpre ++ dn)) (F x) p_idx p_ch ms = Ok r ∧
    verdict mode r (star_tok ms :: toks) (dn ++ x :: t) ∧ (ms = true → r ≠ AbortToStarStar).
Proof.
  induction fuel as [|fuel IH]; intros dn x t Htext Hsl Htr Hf; [lia|]. cbn [star_loop].
  destruct (seek_tried dn x t (zlen (tpre ++ dn)) Htr) as (sk & x' & t' & -> & Heq & Hsk & Htr' & Hend).
  set (lit := negb (contains GLOB_CHARACTERS p_ch)) in *.
  assert (Ht2 : text = tpre ++ (dn ++ sk) ++ x' :: t').
  { rewrite Htext. rewrite Heq. by rewrite !app_assoc. }
  assert (Hdn : dn ++ x :: t = (dn ++ sk) ++ x' :: t') by (rewrite Heq; by rewrite app_assoc).
  assert (Hidx : zlen (tpre ++ dn) + zlen sk = zlen (tpre ++ dn ++ sk)) by (unfold zlen; rewrite !length_app; lia).
  assert (Hsl' : ms = false → SLASH ∉ dn ++ sk) by (intros E; specialize (Hsl E); specialize (Hsk E); set_solver).
  assert (Hlen : (length t' ≤ length t)%nat).
  { apply (f_equal length) in Heq. rewrite length_app in Heq. simpl in Heq. lia. }
  rewrite Hdn, Hidx. clearbody lit. revert Htr' Hend Ht2 Hsl'. generalize (dn ++ sk). clear Hidx Hdn Heq Hsk Htr Htext Hsl.
  intros dn' Htr' Hend Ht2 Hsl'.
  destruct (lit && negb (F x' =? p_ch)) eqn:E1.
  { apply andb_true_iff in E1 as [El Ene%negb_true_iff%Z.eqb_neq]. destruct (Hend El Ene) as [Hcase HG].
    destruct (Bool.bool_dec ms true) as [Em|Em%not_true_is_false].
    - exists AbortAll. split; [by rewrite Em|]. split; [|done].
      destruct Hcase as [[? _]| ->]; [congruence|]. by apply star_verdict_all.
    - exists AbortToStarStar. split; [by rewrite Em|]. split; [|by rewrite Em].
      apply star_verdict_component; [done|done|done|]. destruct Hcase as [[]|]; auto. }
  clear E1 Hend. rewrite Hsub. cbn [expect mbind outcome_bind].
  rewrite get_from_in by (rewrite Ht2; unfold zlen; rewrite !length_app; lia).
  replace (drop (Z.to_nat (zlen (tpre ++ dn'))) text) with (x' :: t')
    by (rewrite Ht2, app_assoc; unfold zlen; rewrite Nat2Z.id; by rewrite drop_app_length).
  cbn [expect mbind outcome_bind]. destruct (Hrec (x' :: t')) as (r & -> & Hr). cbn [mbind outcome_bind].
  assert (Hadv : ¬ G toks (x' :: t') → ¬ (ms = false ∧ x' = SLASH) →
    ∃ r, (match t' with
          | [] => Ok AbortAll
          | x :: t => star_loop mode rec pattern text fuel t (zlen (tpre ++ dn') + 1) (F x) p_idx p_ch ms
          end) = Ok r ∧ verdict mode r (star_tok ms :: toks) (dn' ++ x' :: t') ∧ (ms = true → r ≠ AbortToStarStar)).
  { intros HG Hx. destruct t' as [|y t'].
    - eexists. split; [done|]. split; [by apply star_verdict_all|done].
    - replace (zlen (tpre ++ dn') + 1) with (zlen (tpre ++ dn' ++ [x']))
        by (unfold zlen; rewrite !length_app; simpl; lia).
      replace (dn' ++ x' :: y :: t') with ((dn' ++ [x']) ++ y :: t') by (by rewrite <- app_assoc).
      apply IH.
      + by rewrite Ht2, <- !app_assoc.
      + intros E. specialize (Hsl' E). assert (x' ≠ SLASH) by (intros ->; by apply Hx). set_solver.
      + apply tried_skip; [done|]. intros [|? [|]] s; intros [=]; subst; try done.
      + simpl in Hlen. lia. }
  destruct (bool_decide_reflect (r = NoMatch)) as [->|Hnm]; cbn [negb].
  - destruct (negb ms && (F x' =? SLASH)) eqn:E2; [|apply Hadv].
    + apply andb_true_iff in E2 as [Em%negb_true_iff Ex%Z.eqb_eq]. apply fold_slash in Ex.
      eexists. split; [done|]. split; [|by rewrite Em]. apply star_verdict_component; [done|done|done|by left].
    + done.
    + intros [Em Hx]. rewrite Em in E2. cbn in E2. apply Z.eqb_neq in E2. apply E2. by apply fold_slash.
  - destruct (negb ms || negb (bool_decide (r = AbortToStarStar))) eqn:E2.
    + assert (Hab : ms = true → r ≠ AbortToStarStar).
      { intros Em. rewrite Em in E2. cbn in E2. by apply negb_true_iff, bool_decide_eq_false in E2. }
      eexists. split; [done|]. split; [by apply star_verdict_sub|done].
    + apply orb_false_iff in E2 as [Em%negb_false_iff Er%negb_false_iff%bool_decide_eq_true]. subst r.
      apply Hadv; [by apply (verdict_fail mode AbortToStarStar)|]. intros [? _]. congruence.
Qed.
End StarLoop.

Section Tokens.
Context (mode : Mode).
Notation path := (no_match_slash_literal mode).
Notation F := (possibly_lowercase mode).
Notation G := (gmatch path F).
Notation toks_of lead st p := (tokens path lead st (map F p)).

Definition nstars (p : bytes) : nat := length (filter (λ c, c = STAR) p).
(** A pattern position at the beginning or behind a slash. *)
Definition boundary (pre : bytes) : bool :=
  match list.last pre with None => true | Some c => c =? SLASH end.
Definition star_first (p : bytes) : Prop := head p = Some STAR.

Lemma nstars_app p q : nstars (p ++ q) = (nstars p + nstars q)%nat.
Proof. unfold nstars. by rewrite list.filter_app, length_app. Qed.
Lemma boundary_snoc pre c : boundary (pre ++ [c]) = (c =? SLASH).
Proof. unfold boundary. by rewrite list.last_snoc. Qed.
Lemma fold_eqb c s : s ∈ [42; 47; 63; 91; 92; 58; 93] → (F c =? s) = (c =? s).
Proof.
  intros Hs. pose proof (fold_special mode c s Hs). destruct (Z.eqb_spec (F c) s), (Z.eqb_spec c s); tauto.
Qed.

Lemma bool_some_eqb (x y : Z) : bool_decide (Some x = Some y) = (x =? y).
Proof. destruct (Z.eqb_spec x y) as [->|]; [by apply bool_decide_eq_true|apply bool_decide_eq_false; congruence]. Qed.

Lemma skip_stars_spec r : ∀ idx, ∃ ss r2,
  r = ss ++ r2 ∧ Forall (λ c, c = STAR) ss ∧
  skip_stars mode r idx = {| rest := r2; next_idx := idx + zlen ss |} ∧ ¬ star_first r2.
Proof.
  induction r as [|c r IH]; intros idx; cbn [skip_stars].
  - exists [], []. rewrite Z.add_0_r. done.
  - destruct (Z.eqb_spec (F c) STAR) as [Hc|Hc].
    + apply fold_star in Hc as ->. destruct (IH (idx + 1)) as (ss & r2 & -> & Hss & -> & Hn).
      exists (STAR :: ss), r2. rewrite zlen_cons. split; [done|]. split; [by constructor|].
      split; [f_equal; lia|done].
    + exists [], (c :: r). rewrite Z.add_0_r. split; [done|]. split; [constructor|]. split; [done|].
      intros [= ->]. apply Hc. by apply fold_star.
Qed.
Lemma tokens_stars lead ss r : Forall (λ c, c = STAR) ss →
  toks_of lead ManyStars (ss ++ r) = toks_of lead ManyStars r.
Proof.
  induction 1 as [|c ss -> Hss IH]; [done|]. cbn [app map tokens].
  by rewrite (proj2 (Z.eqb_eq _ _) (proj2 (fold_star mode STAR) eq_refl)).
Qed.

(** The tokens of a pattern that does not begin with a star. *)
Lemma tokens_lead lead lead' r : ¬ star_first r → toks_of lead NoStar r = toks_of lead' NoStar r.
Proof.
  intros Hn. destruct r as [|c r]; [done|]. cbn [map tokens star_token app].
  assert (F c =? STAR = false) as -> by (apply Z.eqb_neq; rewrite fold_star; intros ->; by apply Hn).
  destruct (F c =? BACKSLASH); [by destruct (map F r)|]. destruct (F c =? 63); [done|].
  by rewrite !andb_false_r.
Qed.
Lemma tokens_one lead r : ¬ star_first r →
  toks_of lead OneStar r = star_tok (negb path) :: toks_of true NoStar r.
Proof.
  intros Hn. destruct r as [|c r]; cbn [map tokens star_token app is_many]; [by destruct path|].
  assert (F c =? STAR = false) as -> by (apply Z.eqb_neq; rewrite fold_star; intros ->; by apply Hn).
  rewrite !andb_false_r. cbn [andb].
  destruct (F c =? BACKSLASH); [|destruct (F c =? 63)]; destruct (map F r), path; done.
Qed.
(** What may follow two stars that cross directories. *)
Definition dirs_follow (r : bytes) : bool :=
  match r with
  | [] => true
  | c :: r => (c =? SLASH) || ((c =? BACKSLASH) && bool_decide (head r = Some SLASH))
  end.
Lemma tokens_many lead r : ¬ star_first r →
  toks_of lead ManyStars r =
    if path && lead && bool_decide (head r = Some SLASH) then TDirs :: toks_of true NoStar (tail r)
    else star_tok (negb path || (lead && dirs_follow r)) :: toks_of true NoStar r.
Proof.
  intros Hn. destruct r as [|c r]; cbn [map tokens star_token app is_many dirs_follow head tail].
  { rewrite andb_false_r. by destruct path, lead. }
  rewrite !fold_eqb by set_solver. rewrite !andb_false_r, bool_some_eqb.
  assert (c =? STAR = false) as -> by (apply Z.eqb_neq; intros ->; by apply Hn).
  destruct (Z.eqb_spec c BACKSLASH) as [->|_].
  { change (BACKSLASH =? SLASH) with false. rewrite andb_false_r.
    destruct r as [|d r]; cbn [map head]; [by destruct path, lead|]. rewrite fold_eqb by set_solver.
    rewrite bool_some_eqb. by destruct path, lead, (d =? SLASH). }
  destruct (Z.eqb_spec c 63) as [->|_]; [by destruct path, lead|].
  destruct (c =? SLASH), path, lead; done.
Qed.
Lemma tokens_slash lead r : toks_of lead NoStar (SLASH :: r) = TLit SLASH :: toks_of true NoStar r.
Proof.
  cbn [map tokens star_token app is_many]. rewrite !fold_eqb by set_solver.
  rewrite andb_false_r. cbn [andb]. cbn. by rewrite (proj2 (fold_slash mode SLASH) eq_refl).
Qed.
Lemma tokens_many_path lead r : path = true → ¬ star_first r →
  toks_of lead ManyStars r =
    if lead && bool_decide (head r = Some SLASH) then TDirs :: toks_of true NoStar (tail r)
    else star_tok (lead && dirs_follow r) :: toks_of true NoStar r.
Proof.
  intros Ep Hn. rewrite tokens_many by done. generalize (toks_of true NoStar (tail r)), (toks_of true NoStar r).
  intros k1 k2. by rewrite Ep.
Qed.
Lemma tokens_escaped_slash lead r : toks_of lead NoStar (BACKSLASH :: SLASH :: r) = toks_of lead NoStar (SLASH :: r).
Proof.
  rewrite tokens_slash. cbn [map tokens star_token app]. rewrite !fold_eqb by set_solver.
  change (BACKSLASH =? STAR) with false. change (BACKSLASH =? BACKSLASH) with true. cbn [orb].
  by rewrite (proj2 (fold_slash mode SLASH) eq_refl).
Qed.
Lemma tokens_no_dirs r : head (toks_of false NoStar r) ≠ Some TDirs.
Proof.
  destruct r as [|c r]; [done|]. destruct (decide (c = STAR)) as [->|Hc].
  - cbn [map tokens]. rewrite fold_eqb by set_solver. cbn [more_stars].
    change (STAR =? STAR) with true. cbn [orb].
    destruct (skip_stars_spec r 0) as (ss & r2 & -> & Hss & _ & Hn). destruct ss as [|x ss].
    + rewrite tokens_one by done. by destruct path.
    + inversion Hss as [|? ? -> Hss']. cbn [app map tokens]. rewrite fold_eqb by set_solver.
      cbn [more_stars]. change (STAR =? STAR) with true. cbn [orb]. rewrite tokens_stars by done.
      rewrite tokens_many by done. rewrite andb_false_r. by destruct path.
  - rewrite (tokens_lead false true) by (intros [=]; done). cbn [map tokens].
    rewrite !fold_eqb by set_solver. rewrite (proj2 (Z.eqb_neq _ _) Hc). cbn [is_many star_token app].
    rewrite !andb_false_r. cbn [andb].
    destruct (c =? BACKSLASH), (c =? 63); try done; by destruct (map F r).
Qed.
(** A token sequence that begins with a byte needs a byte. *)
Lemma tokens_need_byte lead r : r ≠ [] → ¬ star_first r → ¬ G (toks_of lead NoStar r) [].
Proof.
  intros Hr Hn. rewrite (tokens_lead lead false) by done. destruct r as [|c r]; [done|]. cbn [map tokens].
  rewrite !fold_eqb by set_solver. assert (c =? STAR = false) as -> by (apply Z.eqb_neq; intros ->; by apply Hn).
  cbn [is_many star_token app]. rewrite !andb_false_r. cbn [andb].
  destruct (c =? BACKSLASH), (c =? 63); try destruct (map F r); simpl; naive_solver.
Qed.
End Tokens.

Lemma contains_in l c : contains l c = true ↔ c ∈ l.
Proof.
  unfold contains. rewrite existsb_exists. setoid_rewrite Z.eqb_eq. setoid_rewrite <- list_elem_of_In.
  split; [by intros (x & ? & ->)|]. intros H. by exists c.
Qed.

Lemma first_byte_spec l b :
  match find_byte l b with
  | Some k => ∃ a r, l = a ++ b :: r ∧ b ∉ a ∧ k = zlen a
  | None => b ∉ l
  end.
Proof.
  induction l as [|x l IH]; cbn [find_byte]; [set_solver|].
  destruct (Z.eqb_spec x b) as [->|Hx]; [exists [], l; split; [done|]; split; [set_solver|done]|].
  destruct (find_byte l b) as [k|]; cbn [fmap option_fmap option_map].
  - destruct IH as (a & r & -> & Ha & ->). exists (x :: a), r. rewrite zlen_cons. split; [done|].
    split; [set_solver|lia].
  - set_solver.
Qed.

Section Exact.
Context (mode : Mode) (rec : bytes → bytes → outcome unit wm_result) (pattern text : bytes).
Notation path := (no_match_slash_literal mode).
Notation F := (possibly_lowercase mode).
Notation G := (gmatch path F).
Notation toks_of lead st p := (tokens path lead st (map F p)).
Context (Hbr : BRACKET_OPEN ∉ pattern)
  (Hrec : ∀ p t, BRACKET_OPEN ∉ p → (nstars p < nstars pattern)%nat →
     ∃ r, rec p t = Ok r ∧ verdict mode r (toks_of true NoStar p) t).

(** What the code does with a star is right for [toks], the tokens of the star and of
    what follows it, on the text [tt]. *)
Definition star_post (toks : list token) (tt : bytes) (s : star_step) (q : Iter) : Prop :=
  match s with
  | StarReturn res => verdict mode res toks tt
  | StarContinue k => ∃ a b pre r,
      tt = a ++ SLASH :: b ∧ k = zlen a ∧ pattern = pre ++ r ∧ boundary pre = true ∧
      q = {| rest := r; next_idx := zlen pre |} ∧
      ∀ res, verdict mode res (toks_of true NoStar r) b → verdict mode res toks tt
  | StarTry i p_ch ms => ∃ sub toks2,
      get_from pattern i = Some sub ∧ (∀ u, ∃ r, rec sub u = Ok r ∧ verdict mode r toks2 u) ∧
      (contains GLOB_CHARACTERS p_ch = false → ∃ toks', toks2 = TLit p_ch :: toks') ∧
      ¬ G toks2 [] ∧ head toks2 ≠ Some TDirs ∧ (ms = false → path = true ∧ p_ch ≠ SLASH) ∧
      ∀ res, (ms = true → res ≠ AbortToStarStar) → verdict mode res (star_tok ms :: toks2) tt →
        verdict mode res toks tt
  end.

Lemma trailing_star_exact tpre tt ms :
  text = tpre ++ tt → (ms = false → path = true) →
  ∃ res, trailing_star text (zlen tpre) ms = Ok (StarReturn res) ∧ verdict mode res [star_tok ms] tt ∧
    (ms = true → res ≠ AbortToStarStar).
Proof.
  intros -> Hms. unfold trailing_star. rewrite get_from_app. cbn [expect mbind outcome_bind].
  eexists. split; [done|]. destruct ms; cbn [negb andb star_tok].
  { split; [|done]. exists tt, []. by rewrite app_nil_r. }
  split; [|done]. destruct (contains tt SLASH) eqn:E.
  - apply contains_in in E. split; [by apply Hms|]. intros a s -> Ha (b & s' & -> & Hb & ->).
    set_solver.
  - exists tt, []. rewrite app_nil_r. split; [done|]. split; [|done]. intros Hin%contains_in. congruence.
Qed.
Lemma star_tail_exact toks tpre tt ms pre r :
  text = tpre ++ tt → pattern = pre ++ r → ¬ star_first r → (nstars r < nstars pattern)%nat →
  (ms = false → path = true) →
  (∀ res, (ms = true → res ≠ AbortToStarStar) → verdict mode res (star_tok ms :: toks_of true NoStar r) tt →
     verdict mode res toks tt) →
  let '(next, q) := p_next mode {| rest := r; next_idx := zlen pre |} in
  ∃ s q', star_tail text next q (zlen tpre) ms = Ok (s, q') ∧ star_post toks tt s q'.
Proof.
  intros Ht Hpat Hn Hst Hms Himp. unfold p_next. cbn [rest next_idx].
  destruct r as [|c r]; cbn [star_tail].
  { destruct (trailing_star_exact tpre tt ms Ht Hms) as (res & -> & Hv & Hab).
    cbn [mbind outcome_bind]. eexists _, _. split; [done|]. by apply Himp. }
  destruct (negb ms && (F c =? SLASH)) eqn:E.
  - apply andb_true_iff in E as [->%negb_true_iff Hc%Z.eqb_eq]. apply fold_slash in Hc as ->.
    rewrite Ht, get_from_app. cbn [expect mbind outcome_bind].
    rewrite tokens_slash in Himp. pose proof (first_byte_spec tt SLASH) as Hf.
    destruct (find_byte tt SLASH) as [k|]; eexists _, _; (split; [done|]).
    + destruct Hf as (a & b & -> & Ha & ->). exists a, b, (pre ++ [SLASH]), r.
      split; [done|]. split; [done|]. split; [by rewrite Hpat, <- app_assoc|].
      split; [by rewrite boundary_snoc|]. split; [f_equal; unfold zlen; rewrite length_app; simpl; lia|].
      intros res Hv. apply Himp; [done|]. by apply verdict_star_slash.
    + apply Himp; [done|]. apply star_all_fail. intros a s -> (y & ? & -> & Hy & _).
      apply fold_slash in Hy as ->. set_solver.
  - eexists _, _. split; [done|]. exists (c :: r), (toks_of true NoStar (c :: r)).
    split; [rewrite Hpat; apply get_from_app|].
    split; [intros u; apply Hrec; [set_solver|done]|]. split.
    { intros Hg. assert (Hin : F c ∉ GLOB_CHARACTERS) by (rewrite <- contains_in; congruence).
      apply list.not_elem_of_cons in Hin as [H1 Hin]. apply list.not_elem_of_cons in Hin as [H2 Hin].
      apply list.not_elem_of_cons in Hin as [_ Hin]. apply list.not_elem_of_cons in Hin as [H3 _].
      apply Z.eqb_neq in H1, H2, H3. cbn [map tokens star_token app is_many].
      unfold STAR, BACKSLASH. rewrite H1, H2, H3.
      rewrite andb_false_r. by eexists. }
    split; [by apply tokens_need_byte|]. split.
    { rewrite (tokens_lead mode true false) by done. apply tokens_no_dirs. }
    split; [|done]. intros Em. split; [by apply Hms|]. rewrite Em in E. cbn in E. by apply Z.eqb_neq.
Qed.

Lemma leading_boundary pre w :
  pattern = pre ++ w →
  (if zlen pre - 1 <? 0 then Ok true else c ← expect (get pattern (zlen pre - 1)); Ok (c =? SLASH))
  = Ok (E := unit) (boundary pre).
Proof.
  intros ->. destruct pre as [|c pre _] using rev_ind; [done|].
  rewrite zlen_app. change (zlen [c]) with 1. pose proof (zlen_nonneg pre).
  rewrite (proj2 (Z.ltb_ge _ _)) by lia. rewrite boundary_snoc, <- app_assoc.
  replace (zlen pre + 1 - 1) with (zlen pre) by lia.
  cbn [app]. by rewrite get_app_mid.
Qed.

(** Two stars or more, in code terms of what follows them. *)
Lemma double_star_run tpre tt pre ss r next q (P := pre ++ STAR :: STAR :: ss) :
  text = tpre ++ tt → pattern = P ++ r →
  skip_stars mode (ss ++ r) (zlen pre + 2) = {| rest := r; next_idx := zlen P |} →
  p_next mode {| rest := r; next_idx := zlen P |} = (next, q) →
  double_star mode rec pattern text {| rest := ss ++ r; next_idx := zlen pre + 2 |} (zlen pre) (zlen tpre) =
    if negb path then Ok (next, q, true, false)
    else if boundary pre && dirs_follow r then
      res ← (match r with [] => Ok NoMatch | _ :: r => rec r tt end);
      Ok (next, q, true, bool_decide (res = Match))
    else Ok (next, q, false, false).
Proof.
  intros Ht Hpat Hskip Hnext. unfold double_star. cbn [rest next_idx]. rewrite Hskip, Hnext.
  destruct (negb path); [done|]. subst P. rewrite (leading_boundary pre (STAR :: STAR :: ss ++ r))
    by (by rewrite Hpat, <- app_assoc).
  cbn [mbind outcome_bind]. unfold p_next in Hnext. cbn [rest next_idx] in Hnext.
  destruct r as [|c r]; injection Hnext as <- <-; cbn [dirs_follow rest]; [done|].
  rewrite !fold_eqb by set_solver. unfold p_peek. cbn [rest].
  assert (bool_decide (match r with [] => None | c :: _ => Some (F c) end = Some SLASH)
    = bool_decide (head r = Some SLASH)) as ->.
  { destruct r as [|d r]; [done|]. cbn [head]. by rewrite !bool_some_eqb, fold_eqb by set_solver. }
  set (P := pre ++ STAR :: STAR :: ss) in *.
  replace (zlen P + 1) with (zlen (P ++ [c])) by (rewrite zlen_app; done).
  replace pattern with ((P ++ [c]) ++ r) by (by rewrite Hpat, <- app_assoc).
  by rewrite Ht, !get_from_app.
Qed.

Lemma double_star_exact tpre tt pre ss r (toks := toks_of (boundary pre) ManyStars r) (P := pre ++ STAR :: STAR :: ss) :
  text = tpre ++ tt → pattern = P ++ r → ¬ star_first r →
  skip_stars mode (ss ++ r) (zlen pre + 2) = {| rest := r; next_idx := zlen P |} →
  ∃ next q ms matched,
    p_next mode {| rest := r; next_idx := zlen P |} = (next, q) ∧
    double_star mode rec pattern text {| rest := ss ++ r; next_idx := zlen pre + 2 |} (zlen pre) (zlen tpre)
      = Ok (next, q, ms, matched) ∧
    (ms = false → path = true) ∧
    (matched = true → verdict mode Match toks tt) ∧
    (matched = false → ∀ res, (ms = true → res ≠ AbortToStarStar) →
       verdict mode res (star_tok ms :: toks_of true NoStar r) tt → verdict mode res toks tt).
Proof.
  intros Ht Hpat Hn Hskip. destruct (p_next mode _) as [next q] eqn:Hnext.
  rewrite (double_star_run tpre tt pre ss r next q Ht Hpat Hskip Hnext). subst toks.
  assert (Hst : (nstars r < nstars pattern)%nat).
  { rewrite Hpat. subst P. rewrite !nstars_app. change (STAR :: STAR :: ss) with ([STAR; STAR] ++ ss). rewrite nstars_app.
    change (nstars [STAR; STAR]) with 2%nat. lia. }
  destruct (Bool.bool_dec path true) as [Ep|Ep%not_true_is_false].
  2: { eexists next, q, true, false. rewrite tokens_many, Ep by done. by split_and!. }
  assert (negb path = false) as -> by (by rewrite Ep). rewrite tokens_many_path by done.
  destruct (boundary pre && dirs_follow r) eqn:Ec.
  2: { eexists next, q, false, false. split_and!; [done|done|done|done|]. intros _ res _ Hv.
       destruct (boundary pre); [|done]. cbn [andb] in *. rewrite bool_decide_eq_false_2; [done|].
       destruct r as [|c r]; [done|]. intros [= ->]. done. }
  apply andb_true_iff in Ec as [-> Hd]. cbn [andb]. destruct r as [|c r]; [by eexists next, q, true, false|].
  destruct (Hrec r tt) as (res & -> & Hv); [set_solver| |].
  { eapply Nat.le_lt_trans; [|done]. change (c :: r) with ([c] ++ r). rewrite nstars_app. lia. }
  cbn [mbind outcome_bind]. eexists next, q, true, _. split; [done|]. split; [done|]. split; [done|].
  cbn [head tail]. rewrite bool_some_eqb. cbn [dirs_follow] in Hd. apply orb_true_iff in Hd.
  rewrite bool_decide_eq_true, bool_decide_eq_false. destruct (Z.eqb_spec c SLASH) as [->|Hc].
  - split; [intros ->; by left|]. intros Hm res' Hres. rewrite tokens_slash. intros Hv'.
    apply verdict_dirs; [by apply Hres|by apply (verdict_fail mode res)|done].
  - destruct Hd as [?|[->%Z.eqb_eq Hs%bool_decide_eq_true]%andb_true_iff]; [done|].
    destruct r as [|d r]; [done|]. injection Hs as ->. split; [|done]. intros ->.
    rewrite tokens_escaped_slash. by exists [], tt.
Qed.

Lemma star_arm_exact tpre tt pre r :
  text = tpre ++ tt → pattern = pre ++ STAR :: r →
  ∃ s q, star_arm mode rec pattern text {| rest := r; next_idx := zlen pre + 1 |} (zlen pre) (zlen tpre) = Ok (s, q) ∧
    star_post (toks_of (boundary pre) OneStar r) tt s q.
Proof.
  intros Ht Hpat. unfold star_arm.
  assert (Hms : negb path = false → path = true) by (by destruct path).
  assert (Hidx : zlen pre + 1 = zlen (pre ++ [STAR])) by (by rewrite zlen_app).
  assert (Hpat1 : pattern = (pre ++ [STAR]) ++ r) by (by rewrite <- app_assoc).
  destruct r as [|d r].
  { cbn [p_next rest]. destruct (trailing_star_exact tpre tt (negb path) Ht Hms) as (res & -> & Hv & _).
    eexists _, _. split; [done|]. cbn [star_post map tokens star_token]. by destruct path. }
  unfold p_next at 1. cbn [rest next_idx].
  destruct (Z.eqb_spec (F d) STAR) as [Hd|Hd].
  - apply fold_star in Hd as ->. replace (zlen pre + 1 + 1) with (zlen pre + 2) by lia.
    destruct (skip_stars_spec mode r (zlen pre + 2)) as (ss & r2 & -> & Hss & Hskip & Hn).
    replace (zlen pre + 2 + zlen ss) with (zlen (pre ++ STAR :: STAR :: ss)) in Hskip
      by (rewrite zlen_app, !zlen_cons; lia).
    assert (Hpat2 : pattern = (pre ++ STAR :: STAR :: ss) ++ r2) by (by rewrite <- app_assoc).
    destruct (double_star_exact tpre tt pre ss r2 Ht Hpat2 Hn Hskip)
      as (next & q & ms & matched & Hnext & -> & Hms2 & Hm & Himp).
    cbn [mbind outcome_bind map tokens]. rewrite fold_eqb by set_solver. change (STAR =? STAR) with true.
    cbn [orb more_stars]. rewrite tokens_stars by done.
    destruct matched; [by eexists _, _; split; [done|]; apply Hm|].
    pose proof (star_tail_exact (toks_of (boundary pre) ManyStars r2) tpre tt ms _ r2 Ht Hpat2 Hn) as H.
    rewrite Hnext in H. apply H; [|done|by apply Himp].
    rewrite Hpat. change (pre ++ STAR :: STAR :: ss ++ r2) with (pre ++ [STAR; STAR] ++ ss ++ r2).
    rewrite !nstars_app. change (nstars [STAR; STAR]) with 2%nat. lia.
  - cbn [mbind outcome_bind]. assert (Hn : ¬ star_first (d :: r)).
    { intros [= ->]. apply Hd. by apply fold_star. }
    pose proof (star_tail_exact (toks_of (boundary pre) OneStar (d :: r)) tpre tt (negb path) _ (d :: r) Ht Hpat1 Hn) as H.
    unfold p_next in H. cbn [rest next_idx] in H. rewrite <- Hidx in H. apply H.
    + rewrite Hpat1, !nstars_app. change (nstars [STAR]) with 1%nat. lia.
    + done.
    + intros res _. by rewrite tokens_one.
Qed.

Lemma verdict_empty res lead r :
  r ≠ [] → ¬ star_first r → res = AbortAll → verdict mode res (toks_of lead NoStar r) [].
Proof.
  intros Hr Hn ->. intros a s E _. symmetry in E. apply app_eq_nil in E as [_ ->]. by apply tokens_need_byte.
Qed.

(** On the empty text, a star that tries gives up. *)
Lemma star_loop_empty tpre s_toks i p_ch ms q :
  text = tpre → star_post s_toks [] (StarTry i p_ch ms) q →
  ∃ r, star_loop mode rec pattern text 1 [] (zlen text) 0 i p_ch ms = Ok r ∧ verdict mode r s_toks [].
Proof.
  intros -> (sub & toks2 & Hsub & Hr & Hlit & He & Hnd & Hms & Himp). cbn [star_loop].
  assert (Hfail : ∀ a s, [] = a ++ s → ¬ G toks2 s).
  { intros a s E. symmetry in E. by apply app_eq_nil in E as [_ ->]. }
  assert (Habort : ∀ res, res ≠ NoMatch → res ≠ Match → res ≠ RecursionLimitReached →
    (res = AbortToStarStar → ms = false) → verdict mode res s_toks []).
  { intros res H1 H2 H3 H4. apply Himp; [intros Em ->; by rewrite H4 in Em|].
    destruct res; [done|done|by apply star_all_fail| |done].
    rewrite H4 by done. destruct (Hms (H4 eq_refl)) as [Hp _]. apply star_component_fails; [done|].
    intros a s E _. by apply (Hfail a). }
  assert ((if negb (contains GLOB_CHARACTERS p_ch) then seek mode [] (zlen tpre) 0 p_ch ms else ([], zlen tpre, 0))
    = ([], zlen tpre, 0)) as ->.
  { destruct (negb _); [|done]. cbn [seek]. by destruct (_ || _). }
  destruct (_ && _).
  { eexists. split; [done|]. apply Habort; by destruct ms. }
  rewrite Hsub, get_from_in by (pose proof (zlen_nonneg tpre); lia).
  replace (drop (Z.to_nat (zlen tpre)) tpre) with (@nil Z)
    by (symmetry; apply drop_ge; unfold zlen; lia).
  cbn [expect mbind outcome_bind]. destruct (Hr []) as (res & -> & Hv). cbn [mbind outcome_bind].
  destruct (bool_decide_reflect (res = NoMatch)) as [->|Hnm]; cbn [negb].
  - replace (negb ms && (0 =? SLASH)) with false by (by destruct ms). eexists. split; [done|]. by apply Habort.
  - destruct (negb ms || _) eqn:E2; eexists; (split; [done|]); [|by apply Habort].
    apply Habort; [done|by intros ->|by intros ->|]. intros ->. rewrite bool_decide_eq_true_2 in E2 by done.
    by destruct ms.
Qed.

Lemma star_loop_text tpre x t s_toks i p_ch ms q :
  text = tpre ++ x :: t → star_post s_toks (x :: t) (StarTry i p_ch ms) q →
  ∃ r, star_loop mode rec pattern text (S (length t)) t (zlen tpre) (F x) i p_ch ms = Ok r ∧
    verdict mode r s_toks (x :: t).
Proof.
  intros Ht (sub & toks2 & Hsub & Hr & Hlit & He & Hnd & Hms & Himp).
  destruct (star_loop_exact mode rec pattern text sub toks2 i p_ch ms Hsub Hr Hlit He Hnd Hms
    tpre (S (length t)) [] x t) as (r & Hrun & Hv & Hab); [done|set_solver| |lia|].
  { intros a s E Hs. symmetry in E. by apply app_eq_nil in E as [_ ->]. }
  rewrite app_nil_r in Hrun. exists r. split; [done|]. by apply Himp.
Qed.

(** The tokens of one byte of the pattern. *)
Lemma tokens_step lead c r : c ≠ STAR → c ≠ BRACKET_OPEN →
  toks_of lead NoStar (c :: r) =
    if c =? BACKSLASH then
      match r with [] => [TNever] | d :: r => TLit (F d) :: toks_of (d =? SLASH) NoStar r end
    else if c =? 63 then TAny :: toks_of false NoStar r
    else TLit (F c) :: toks_of (c =? SLASH) NoStar r.
Proof.
  intros Hs _. cbn [map tokens star_token app is_many]. rewrite !fold_eqb, andb_false_r by set_solver.
  rewrite (proj2 (Z.eqb_neq _ _) Hs). cbn [andb]. destruct (c =? BACKSLASH); [|done].
  destruct r as [|d r]; [done|]. cbn [map]. by rewrite fold_eqb by set_solver.
Qed.
Lemma dirs_after d r : head (toks_of (d =? SLASH) NoStar r) = Some TDirs → F d = SLASH.
Proof.
  intros H. apply fold_slash. destruct (Z.eqb_spec d SLASH); [done|].
  by destruct (tokens_no_dirs mode r).
Qed.

Lemma drop_tail_slash (a b : bytes) : drop (length a) (tail (a ++ SLASH :: b)) = b.
Proof. destruct a as [|y a]; [done|]. simpl. by induction a. Qed.

(** One literal byte of the pattern, escaped or not. *)
Lemma literal_step d x r t (run : outcome unit wm_result) :
  (∃ res, run = Ok res ∧ verdict mode res (toks_of (d =? SLASH) NoStar r) t) →
  ∃ res, (if negb (F d =? F x) then Ok NoMatch else run) = Ok res ∧
    verdict mode res (TLit (F d) :: toks_of (d =? SLASH) NoStar r) (x :: t).
Proof.
  intros (res & -> & Hv). destruct (Z.eqb_spec (F d) (F x)) as [Hd|Hd]; cbn [negb].
  - exists res. split; [done|]. apply verdict_lit; [done|apply dirs_after|done].
  - exists NoMatch. split; [done|]. by intros (y & ? & [= <- _] & ? & _).
Qed.
(** A star that takes the rest of a component: where the text goes on. *)
Lemma star_continue_pos (tpre a b t : bytes) x :
  a ++ SLASH :: b = x :: t →
  drop (Z.to_nat (zlen a)) t = b ∧ zlen tpre + 1 + Z.min (zlen a) (zlen t) = zlen (tpre ++ a ++ [SLASH]).
Proof.
  intros Hx. split.
  - replace t with (tail (a ++ SLASH :: b)) by (by rewrite Hx). unfold zlen. rewrite Nat2Z.id.
    apply drop_tail_slash.
  - apply (f_equal zlen) in Hx. rewrite !zlen_app, !zlen_cons in *. change (zlen (@nil Z)) with 0.
    pose proof (zlen_nonneg b). lia.
Qed.

Lemma match_loop_exact fuel : ∀ pre r tpre t,
  pattern = pre ++ r → text = tpre ++ t → (length t + 1 < fuel)%nat →
  ∃ res, match_loop mode rec pattern text fuel {| rest := r; next_idx := zlen pre |} t (zlen tpre) = Ok res ∧
    verdict mode res (toks_of (boundary pre) NoStar r) t.
Proof.
  induction fuel as [|fuel IH]; intros pre r tpre t Hpat Ht Hf; [lia|].
  cbn [match_loop]. unfold p_next at 1. cbn [rest next_idx]. destruct r as [|c r].
  { eexists. split; [done|]. by destruct t. }
  assert (Hcb : c ≠ BRACKET_OPEN) by set_solver.
  assert (Hpat1 : pattern = (pre ++ [c]) ++ r) by (by rewrite <- app_assoc).
  assert (Hidx : zlen pre + 1 = zlen (pre ++ [c])) by (by rewrite zlen_app).
  rewrite !fold_eqb by set_solver. destruct (Z.eqb_spec c STAR) as [->|Hc].
  - (* a star *)
    rewrite andb_false_r. change (STAR =? BACKSLASH) with false. change (STAR =? 63) with false. cbn [orb].
    assert (∃ x' t', (match t with
        | [] => (zlen text, 0, [], zlen tpre)
        | c0 :: t => (zlen tpre, F c0, t, zlen tpre + 1)
        end) = (zlen tpre, x', t', zlen tpre + (if t then 0 else 1)) ∧
        ((t = [] ∧ t' = [] ∧ x' = 0) ∨ ∃ x, t = x :: t' ∧ x' = F x)) as (x' & t' & -> & Hcase).
    { destruct t as [|x t].
      - eexists _, _. rewrite Z.add_0_r. split; [by rewrite Ht, app_nil_r|]. by left.
      - eexists _, _. split; [done|]. right. by exists x. }
    destruct (star_arm_exact tpre t pre r Ht Hpat) as (s & q & -> & Hpost). cbn [mbind outcome_bind].
    assert (Htok : toks_of (boundary pre) NoStar (STAR :: r) = toks_of (boundary pre) OneStar r).
    { cbn [map tokens]. rewrite fold_eqb by set_solver. done. }
    rewrite Htok. destruct s as [res|k|i p_ch ms].
    + by exists res.
    + destruct Hpost as (a & b & pre2 & r2 & -> & -> & Hp2 & Hb & -> & Himp).
      destruct Hcase as [[? _]|(x & Hx & _)]; [by destruct a|].
      destruct (star_continue_pos tpre a b t' x Hx) as [Hd Hl].
      replace (if a ++ SLASH :: b then 0 else 1) with 1 by (by rewrite Hx).
      rewrite Hd, Hl. destruct (IH pre2 r2 (tpre ++ a ++ [SLASH]) b) as (res & -> & Hv);
        [done|by rewrite Ht, <- !app_assoc|rewrite length_app in Hf; simpl in Hf; lia|].
      exists res. split; [done|]. apply Himp. by rewrite Hb in Hv.
    + destruct Hcase as [(-> & -> & ->)|(x & -> & ->)].
      * replace (zlen tpre) with (zlen text) by (by rewrite Ht, app_nil_r).
        eapply (star_loop_empty text); done.
      * by eapply star_loop_text.
  - (* any other byte *)
    cbn [negb]. destruct t as [|x t].
    { rewrite bool_decide_eq_true_2 by done. cbn [andb]. exists AbortAll. split; [done|]. apply verdict_empty; [done|by intros [=]|done]. }
    rewrite bool_decide_eq_false_2 by done. cbn [andb].
    rewrite tokens_step by done. rewrite (proj2 (Z.eqb_neq c BRACKET_OPEN)) by done.
    assert (Ht1 : text = (tpre ++ [x]) ++ t) by (by rewrite <- app_assoc).
    replace (zlen tpre + 1) with (zlen (tpre ++ [x])) by (by rewrite zlen_app). rewrite Hidx.
    destruct (c =? BACKSLASH).
    { unfold p_next. cbn [rest next_idx]. destruct r as [|d r]; [exists NoMatch; split; [done|by intros []]|].
      apply literal_step. rewrite <- (boundary_snoc (pre ++ [c]) d).
      replace (zlen (pre ++ [c]) + 1) with (zlen ((pre ++ [c]) ++ [d])) by (by rewrite (zlen_app (pre ++ [c]))).
      apply IH; [by rewrite Hpat1, <- !app_assoc|done|simpl in Hf; lia]. }
    destruct (Z.eqb_spec c 63) as [->|_].
    { rewrite fold_eqb by set_solver. destruct (path && (x =? SLASH)) eqn:E.
      - apply andb_true_iff in E as [Ep ->%Z.eqb_eq]. exists NoMatch. split; [done|].
        intros (y & ? & [= <- _] & Hy & _). by apply Hy.
      - destruct (IH (pre ++ [63]) r (tpre ++ [x]) t) as (res & Hrun & Hv); [done|done|simpl in Hf; lia|].
        rewrite boundary_snoc in Hv. exists res. split; [done|].
        apply verdict_any; [apply tokens_no_dirs| |done]. intros Ep. rewrite Ep in E. by apply Z.eqb_neq in E. }
    apply literal_step. rewrite <- (boundary_snoc pre c). apply IH; [done|done|simpl in Hf; lia].
Qed.
End Exact.

Definition toks_of_pattern (mode : Mode) (pattern : bytes) : list token :=
  tokens (no_match_slash_literal mode) true NoStar (map (possibly_lowercase mode) pattern).

Lemma match_recursive_exact limit mode : ∀ pattern text,
  BRACKET_OPEN ∉ pattern → (nstars pattern < limit)%nat →
  ∃ r, match_recursive limit mode pattern text = Ok r ∧ verdict mode r (toks_of_pattern mode pattern) text.
Proof.
  induction limit as [|limit IH]; intros pattern text Hbr Hst; [lia|]. cbn [match_recursive].
  apply (match_loop_exact mode _ pattern text Hbr) with (pre := []) (tpre := []); [|done|done|lia].
  intros p t Hp Hn. apply IH; [done|lia].
Qed.

(** C35: [wildmatch] returns for every pattern, every text and every mode: no slice is
    out of bounds and every loop ends, malformed brackets included. For a pattern
    without brackets that has fewer stars than the recursion limit, it returns [true]
    exactly for the texts that the pattern means: bytes and escaped bytes up to case
    folding, [?] for one byte, [*] for any bytes, and in path mode not for a slash;
    two stars at a component's beginning that end the pattern or stand before a slash
    cross directories, and [**/] matches no directory as well. None of the aborts that
    cut the search short loses a match. *)
Theorem wildmatch_exact pattern value mode :
  ∃ b, wildmatch pattern value mode = Ok b ∧
    (BRACKET_OPEN ∉ pattern ∧ (nstars pattern < RECURSION_LIMIT)%nat →
     (b = true ↔ gmatch (no_match_slash_literal mode) (possibly_lowercase mode) (toks_of_pattern mode pattern) value)).
Proof.
  unfold wildmatch. destruct (match_recursive_total RECURSION_LIMIT mode pattern value) as [r Hr].
  rewrite Hr. cbn [mbind outcome_bind]. eexists. split; [done|]. intros [Hbr Hst].
  destruct (match_recursive_exact RECURSION_LIMIT mode pattern value Hbr Hst) as (r' & Hr' & Hv).
  rewrite Hr in Hr'. injection Hr' as <-. rewrite bool_decide_eq_true. by apply verdict_iff.
Qed.
(** [a/**/b*] in path mode, with [A/x/y/bc] and case folding. *)
Lemma wildmatch_exact_witness (p := [97; 47; 42; 42; 47; 98; 42]) (v := [65; 47; 120; 47; 121; 47; 98; 99])
    (mode := {| no_match_slash_literal := true; ignore_case := true |}) :
  wildmatch p v mode = Ok true ∧
  gmatch (no_match_slash_literal mode) (possibly_lowercase mode) (toks_of_pattern mode p) v.
Proof.
  split; [by vm_compute|].
  destruct (wildmatch_exact p v mode) as (b & Hb & H).
  assert (b = true) as Hbt by (assert (E : wildmatch p v mode = Ok true) by (by vm_compute); congruence).
  apply H; [|exact Hbt]. split; [apply (bool_decide_unpack _); by vm_compute|].
  apply Nat.ltb_lt. by vm_compute.
Defined.

(** A [[:] without its [:]] restarts the iterator in the middle of the pattern, and the
    indices it counts from then on are taken as indices of the whole pattern: the same
    bracket expression matches at the beginning of a pattern and not behind a byte, and
    a star behind it looks at the wrong byte. *)
Example bracket_restart_position (m := {| no_match_slash_literal := false; ignore_case := false |}) :
  wildmatch [91; 91; 58; 97; 93] [58] m = Ok true ∧
  wildmatch [120; 91; 91; 58; 97; 93] [120; 58] m = Ok false ∧
  wildmatch [91; 91; 58; 97; 93] [97] m = Ok true ∧
  wildmatch [91; 91; 58; 97; 93; 42; 122] [97; 120; 122] m = Ok false.
Proof. by vm_compute. Qed.
