(* ===== verification/GlobPattern.v ===== *)
(** * [gix-glob]: patterns

    [parse.rs] takes apart what stands around a pattern and notes what makes it fast to
    match; [pattern.rs] matches with these shortcuts or with [wildmatch];
    [search/pattern.rs] strips the directory that a list of patterns is relative to.
    The theorems say that the shortcuts change nothing. *)

From stdpp Require Import sets.
From S2P Require Import Prelude.
From S2P Require Import Glob.

(** ** [pattern.rs], [parse.rs] *)
Record PatternMode := {
  NO_SUB_DIR : bool; ENDS_WITH : bool; MUST_BE_DIR : bool; NEGATIVE : bool; ABSOLUTE : bool }.
Record Pattern := { text : bytes; mode : PatternMode; first_wildcard_pos : option Z }.
Inductive Case := Sensitive | Fold.

(** [find_byteset] of [bstr]: the first byte that is in the set. *)
Fixpoint find_byteset (l set : bytes) : option Z :=
  match l with
  | [] => None
  | x :: l => if contains set x then Some 0 else (λ n, n + 1) <$> find_byteset l set
  end.
Definition find_first_wildcard (pat : bytes) : option Z := find_byteset pat GLOB_CHARACTERS.
Definition is_ascii_whitespace (c : Z) : bool := contains [32; 9; 10; 12; 13] c.

(** A leading [!], or the backslash that escapes it, is taken off. *)
Definition take_negation (pat : bytes) : bool * bytes :=
  match pat with
  | [] => (false, pat)
  | c :: r =>
      if c =? 33 then (true, r)
      else if c =? BACKSLASH then
        match r with
        | second :: _ => if (second =? 33) || (second =? 35) then (false, r) else (false, pat)
        | [] => (false, pat)
        end
      else (false, pat)
  end.

Definition parse_pattern (pat : bytes) (may_alter : bool) : option (bytes * PatternMode * option Z) :=
  if bool_decide (pat = []) then None
  else
    let '(negative, pat) := if may_alter then take_negation pat else (false, pat) in
    if forallb is_ascii_whitespace pat then None
    else
      let absolute := bool_decide (head pat = Some SLASH) in
      let pat := if absolute then tail pat else pat in
      let must_be_dir := bool_decide (list.last pat = Some SLASH) in
      let pat := if must_be_dir then take (length pat - 1) pat else pat in
      Some (pat,
            {| NO_SUB_DIR := negb (contains pat SLASH);
               ENDS_WITH := bool_decide (head pat = Some STAR)
                            && bool_decide (find_first_wildcard (tail pat) = None);
               MUST_BE_DIR := must_be_dir; NEGATIVE := negative; ABSOLUTE := absolute |},
            find_first_wildcard pat).
Definition from_parts (x : bytes * PatternMode * option Z) : Pattern :=
  let '(t, m, pos) := x in {| text := t; mode := m; first_wildcard_pos := pos |}.
Definition from_bytes (t : bytes) : option Pattern := from_parts <$> parse_pattern t true.
Definition from_bytes_without_negation (t : bytes) : option Pattern := from_parts <$> parse_pattern t false.

Definition is_negative (p : Pattern) : bool := NEGATIVE (mode p).
Definition has_wildcard (p : Pattern) : bool := bool_decide (is_Some (find_byteset (text p) [42; 63; 91])).

Definition eq_ignore_ascii_case (a b : bytes) : bool :=
  bytes_eqb (map to_ascii_lowercase a) (map to_ascii_lowercase b).
Definition starts_with (v p : bytes) : bool :=
  (zlen p <=? zlen v) && bytes_eqb (take (length p) v) p.
Definition ends_with (v s : bytes) : bool :=
  (zlen s <=? zlen v) && bytes_eqb (drop (length v - length s) v) s.

Definition matches (p : Pattern) (value : bytes) (m : Mode) : outcome unit bool :=
  match first_wildcard_pos p with
  | Some pos =>
      if ENDS_WITH (mode p) && (negb (no_match_slash_literal m) || negb (contains value SLASH)) then
        t ← expect (get_from (text p) (pos + 1));
        if ignore_case m then
          if zlen value - zlen t <? 0 then Ok false
          else v ← expect (get_from value (zlen value - zlen t)); Ok (eq_ignore_ascii_case t v)
        else Ok (ends_with value t)
      else
        prefix_matches ←
          (if ignore_case m then
             match get_range value 0 pos with
             | None => Ok false
             | Some v => t ← expect (get_range (text p) 0 pos); Ok (eq_ignore_ascii_case v t)
             end
           else t ← expect (get_range (text p) 0 pos); Ok (starts_with value t));
        if negb prefix_matches then Ok false else wildmatch (text p) value m
  | None => Ok (if ignore_case m then eq_ignore_ascii_case (text p) value else bytes_eqb (text p) value)
  end.

Fixpoint rfind_byte (l : bytes) (b : Z) : option Z :=
  match l with
  | [] => None
  | x :: l => match rfind_byte l b with
              | Some k => Some (k + 1)
              | None => if x =? b then Some 0 else None
              end
  end.
Definition matches_repo_relative_path (p : Pattern) (path : bytes) (basename_start_pos : option Z)
    (is_dir : option bool) (case : Case) (m : Mode) : outcome unit bool :=
  if negb (default false is_dir) && MUST_BE_DIR (mode p) then Ok false
  else
    let flags := {| no_match_slash_literal := no_match_slash_literal m;
                    ignore_case := match case with Fold => true | Sensitive => ignore_case m end |} in
    _ ← assert_that (match basename_start_pos with
                     | Some _ => bool_decide (basename_start_pos = (λ p, p + 1) <$> rfind_byte path SLASH)
                     | None => true
                     end);
    _ ← assert_that (negb (starts_with path [SLASH]));
    if NO_SUB_DIR (mode p) && negb (ABSOLUTE (mode p)) then
      basename ← expect (get_from path (default 0 basename_start_pos));
      matches p basename flags
    else matches p path flags.

(** [Display] *)
Definition display (p : Pattern) : bytes :=
  (if NEGATIVE (mode p) then [33] else []) ++ (if ABSOLUTE (mode p) then [SLASH] else [])
  ++ text p ++ (if MUST_BE_DIR (mode p) then [SLASH] else []).

(** ** [search/pattern.rs] *)
Definition strip_base_handle_recompute_basename_pos (base relative_path : bytes) (basename_pos : option Z)
    (case : Case) : outcome unit (option (bytes * option Z)) :=
  let stripped :=
    match case with
    | Sensitive => if starts_with relative_path base then Some (drop (length base) relative_path) else None
    | Fold =>
        match get_range relative_path 0 (zlen base) with
        | None => None
        | Some rela_dir =>
            if eq_ignore_ascii_case rela_dir base then Some (drop (length base) relative_path) else None
        end
    end in
  match stripped with
  | None => Ok None
  | Some rest =>
      match basename_pos with
      | None => Ok (Some (rest, None))
      | Some pos =>
          (* [usize] subtraction *)
          if pos <? zlen base then Panic
          else
            let pos := pos - zlen base in
            Ok (Some (rest, if negb (pos =? 0) then Some pos else None))
      end
  end.

(** ** Lemmas *)
Definition literal (l : bytes) : Prop := Forall (λ c, c ∉ GLOB_CHARACTERS) l.

Lemma find_byteset_spec l set :
  match find_byteset l set with
  | Some k => ∃ a x r, l = a ++ x :: r ∧ Forall (λ c, c ∉ set) a ∧ x ∈ set ∧ k = zlen a
  | None => Forall (λ c, c ∉ set) l
  end.
Proof.
  induction l as [|x l IH]; cbn [find_byteset]; [constructor|].
  destruct (contains set x) eqn:E.
  - apply contains_in in E. exists [], x, l. split_and!; [done|constructor|done|done].
  - assert (Hx : x ∉ set) by (rewrite <- contains_in; congruence).
    destruct (find_byteset l set) as [k|]; cbn [fmap option_fmap option_map]; [|by constructor].
    destruct IH as (a & y & r & -> & Ha & Hy & ->). exists (x :: a), y, r. rewrite zlen_cons.
    split_and!; [done|by constructor|done|lia].
Qed.
Lemma literal_app a b : literal (a ++ b) ↔ literal a ∧ literal b.
Proof. apply list.Forall_app. Qed.

Section Folding.
Context (m : Mode).
Notation path := (no_match_slash_literal m).
Notation F := (possibly_lowercase m).
Notation G := (gmatch path F).
Notation toks_of lead st p := (tokens path lead st (map F p)).

(** Comparison with or without case, in one. *)
Lemma fold_eq a b :
  (if ignore_case m then eq_ignore_ascii_case a b else bytes_eqb a b) = bool_decide (map F a = map F b).
Proof.
  unfold eq_ignore_ascii_case, bytes_eqb, possibly_lowercase. destruct (ignore_case m); [done|].
  by rewrite !map_id.
Qed.

(** A literal byte is none that the matcher interprets. *)
Lemma literal_byte c : c ∉ GLOB_CHARACTERS →
  (F c =? STAR) = false ∧ (F c =? BACKSLASH) = false ∧ (F c =? 63) = false ∧ (F c =? BRACKET_OPEN) = false.
Proof.
  intros Hc. rewrite !fold_eqb by set_solver. unfold GLOB_CHARACTERS in Hc.
  split_and!; apply Z.eqb_neq; intros ->; apply Hc; set_solver.
Qed.
Lemma tokens_literal lead l : literal l → toks_of lead NoStar l = map (TLit ∘ F) l.
Proof.
  revert lead. induction l as [|c l IH]; intros lead Hl; [done|].
  apply list.Forall_cons in Hl as [Hc Hl]. destruct (literal_byte c Hc) as (H1 & H2 & H3 & _).
  cbn [map tokens star_token app is_many]. rewrite H1, H2, H3, andb_false_r. cbn [andb]. by rewrite IH.
Qed.
Lemma gmatch_literal l : ∀ t, G (map (TLit ∘ F) l) t ↔ map F t = map F l.
Proof.
  induction l as [|c l IH]; intros t; cbn [map gmatch].
  - destruct t; done.
  - split.
    + intros (x & t' & -> & Hx & HG%IH). cbn [map]. by rewrite HG, Hx.
    + destruct t as [|x t]; [done|]. intros [= Hx Ht%IH]. by exists x, t.
Qed.
(** A literal prefix of the pattern is matched byte by byte, whatever follows. *)
Lemma match_loop_prefix rec pattern text l r : literal l → ∀ fuel idx t t_idx,
  match_loop m rec pattern text fuel {| rest := l ++ r; next_idx := idx |} t t_idx = Ok Match →
  ∃ a b, t = a ++ b ∧ map F a = map F l.
Proof.
  induction l as [|c l IH]; intros Hl fuel idx t t_idx H; [by exists [], t|].
  apply list.Forall_cons in Hl as [Hc Hl]. destruct (literal_byte c Hc) as (H1 & H2 & H3 & H4).
  destruct fuel as [|fuel]; [done|]. cbn [match_loop] in H. unfold p_next at 1 in H. cbn [rest next_idx app] in H.
  rewrite H1, H2, H3, H4 in H. cbn [negb] in H.
  destruct t as [|x t]; [by rewrite bool_decide_eq_true_2 in H|].
  rewrite bool_decide_eq_false_2 in H by done. cbn [andb] in H.
  destruct (Z.eqb_spec (F c) (F x)) as [Hx|]; [|done]. cbn [negb] in H.
  destruct (IH Hl _ _ _ _ H) as (a & b & -> & Ha). exists (x :: a), b. cbn [map]. by rewrite Ha, Hx.
Qed.

(** [wildmatch] as a decision, for patterns without brackets. *)
Lemma wildmatch_decides pattern value (P : Prop) `{Decision P} :
  BRACKET_OPEN ∉ pattern → (nstars pattern < RECURSION_LIMIT)%nat →
  (G (toks_of_pattern m pattern) value ↔ P) → wildmatch pattern value m = Ok (bool_decide P).
Proof.
  intros Hbr Hst HP. unfold wildmatch.
  destruct (match_recursive_exact RECURSION_LIMIT m pattern value Hbr Hst) as (r & -> & Hv).
  cbn [mbind outcome_bind]. f_equal. apply bool_decide_ext. rewrite <- HP. by apply verdict_iff.
Qed.
Lemma literal_no_brackets l : literal l → BRACKET_OPEN ∉ l ∧ nstars l = 0%nat.
Proof.
  induction l as [|c l IH]; intros Hl; [by split; [set_solver|]|].
  apply list.Forall_cons in Hl as [Hc Hl]. destruct (IH Hl) as [H1 H2].
  assert (c ≠ BRACKET_OPEN ∧ c ≠ STAR) as [H3 H4].
  { unfold GLOB_CHARACTERS in Hc. split; intros ->; apply Hc; set_solver. }
  split; [set_solver|]. unfold nstars in *. by rewrite list.filter_cons_False.
Qed.

Lemma matches_literal l value : literal l →
  wildmatch l value m = Ok (if ignore_case m then eq_ignore_ascii_case l value else bytes_eqb l value).
Proof.
  intros Hl. destruct (literal_no_brackets l Hl) as [Hb Hst]. rewrite fold_eq.
  apply wildmatch_decides; [done|rewrite Hst; unfold RECURSION_LIMIT; lia|].
  unfold toks_of_pattern. rewrite tokens_literal, gmatch_literal by done. done.
Qed.
(** A text that ends with, or begins with, a literal. *)
Definition has_suffix (value l : bytes) : Prop :=
  (length l ≤ length value)%nat ∧ map F (drop (length value - length l) value) = map F l.
Definition has_prefix (value l : bytes) : Prop :=
  (length l ≤ length value)%nat ∧ map F (take (length l) value) = map F l.
#[export] Instance has_suffix_dec value l : Decision (has_suffix value l).
Proof. unfold has_suffix. apply _. Defined.
#[export] Instance has_prefix_dec value l : Decision (has_prefix value l).
Proof. unfold has_prefix. apply _. Defined.

Lemma has_suffix_iff value l : has_suffix value l ↔ ∃ a b, value = a ++ b ∧ map F b = map F l.
Proof.
  unfold has_suffix. split.
  - intros [_ H]. eexists _, _. split; [symmetry; apply take_drop|done].
  - intros (a & b & -> & H). assert (Hl : length b = length l) by (rewrite <- (length_map F b), H; apply length_map).
    rewrite length_app, Hl. split; [lia|]. replace (length a + length l - length l)%nat with (length a) by lia.
    by rewrite drop_app_length.
Qed.
Lemma has_prefix_iff value l : has_prefix value l ↔ ∃ a b, value = a ++ b ∧ map F a = map F l.
Proof.
  unfold has_prefix. split.
  - intros [_ H]. eexists _, _. split; [symmetry; apply take_drop|done].
  - intros (a & b & -> & H). assert (Hl : length a = length l) by (rewrite <- (length_map F a), H; apply length_map).
    rewrite length_app, Hl. split; [lia|]. rewrite <- Hl. by rewrite take_app_length.
Qed.

(** [*literal] on a text in which the star may take any byte. *)
Lemma matches_suffix l value : literal l → (path = false ∨ SLASH ∉ value) →
  wildmatch (STAR :: l) value m = Ok (bool_decide (has_suffix value l)).
Proof.
  intros Hl Hv. destruct (literal_no_brackets l Hl) as [Hb Hst].
  apply wildmatch_decides.
  - apply list.not_elem_of_cons. by split.
  - unfold nstars in *. rewrite list.filter_cons_True by done. simpl. rewrite Hst. unfold RECURSION_LIMIT. lia.
  - unfold toks_of_pattern. cbn [map tokens]. rewrite fold_eqb by set_solver.
    change (STAR =? STAR) with true. cbn [orb more_stars].
    assert (Hn : ¬ star_first l).
    { destruct l as [|c l]; [done|]. intros [= ->]. apply list.Forall_cons in Hl as [Hc _]. apply Hc.
      unfold GLOB_CHARACTERS. set_solver. }
    rewrite tokens_one, tokens_literal, has_suffix_iff by done.
    setoid_rewrite <- gmatch_literal. destruct path eqn:Ep; cbn [negb star_tok gmatch].
    + destruct Hv as [?|Hv]; [done|]. split.
      * intros (a & b & -> & _ & H). by exists a, b.
      * intros (a & b & -> & H). exists a, b. split_and!; [done| |done].
        intros Ha. apply Hv, elem_of_app. by left.
    + done.
Qed.
Lemma has_suffix_bool value l :
  bool_decide (has_suffix value l) =
    bool_decide (length l ≤ length value)%nat && bool_decide (map F (drop (length value - length l) value) = map F l).
Proof. rewrite <- bool_decide_and. by apply bool_decide_ext. Qed.
Lemma has_prefix_bool value l :
  bool_decide (has_prefix value l) =
    bool_decide (length l ≤ length value)%nat && bool_decide (map F (take (length l) value) = map F l).
Proof. rewrite <- bool_decide_and. by apply bool_decide_ext. Qed.
(** The shortcut for it, with or without case. *)
Lemma suffix_code value t :
  (if ignore_case m then
     if zlen value - zlen t <? 0 then Ok false
     else v ← expect (get_from value (zlen value - zlen t)); Ok (eq_ignore_ascii_case t v)
   else Ok (ends_with value t)) = Ok (E := unit) (bool_decide (has_suffix value t)).
Proof.
  pose proof (fold_eq t (drop (length value - length t) value)) as Hf. rewrite has_suffix_bool.
  replace (bool_decide (map F (drop (length value - length t) value) = map F t))
    with (bool_decide (map F t = map F (drop (length value - length t) value)))
    by (apply bool_decide_ext; split; congruence).
  rewrite <- Hf. clear Hf. destruct (ignore_case m).
  - destruct (Z.ltb_spec (zlen value - zlen t) 0).
    + rewrite bool_decide_eq_false_2; [done|unfold zlen in *; lia].
    + rewrite get_from_in by (pose proof (zlen_nonneg t); lia). cbn [expect mbind outcome_bind].
      rewrite bool_decide_eq_true_2 by (unfold zlen in *; lia).
      cbn [andb]. by replace (Z.to_nat (zlen value - zlen t)) with (length value - length t)%nat by (unfold zlen; lia).
  - unfold ends_with, bytes_eqb. f_equal. f_equal.
    + destruct (Z.leb_spec (zlen t) (zlen value)); symmetry;
        [apply bool_decide_eq_true|apply bool_decide_eq_false]; unfold zlen in *; lia.
    + apply bool_decide_ext. split; congruence.
Qed.
Lemma prefix_code value p r (pos := zlen p) :
  (if ignore_case m then
     match get_range value 0 pos with
     | None => Ok false
     | Some v => t ← expect (get_range (p ++ r) 0 pos); Ok (eq_ignore_ascii_case v t)
     end
   else t ← expect (get_range (p ++ r) 0 pos); Ok (starts_with value t))
  = Ok (E := unit) (bool_decide (has_prefix value p)).
Proof.
  assert (get_range (p ++ r) 0 pos = Some p) as ->.
  { apply (get_range_app [] p r); [done|]. subst pos. change (zlen (@nil Z)) with 0. lia. }
  pose proof (fold_eq (take (length p) value) p) as Hf. rewrite has_prefix_bool, <- Hf. clear Hf.
  subst pos. destruct (ignore_case m); cbn [expect mbind outcome_bind].
  - destruct (get_range value 0 (zlen p)) as [v|] eqn:E.
    + apply get_range_Some in E as (_ & Hle & _ & ->). rewrite bool_decide_eq_true_2 by (unfold zlen in *; lia).
      cbn [andb]. rewrite Z.sub_0_r. unfold zlen. by rewrite Nat2Z.id.
    + apply get_range_None in E; [|pose proof (zlen_nonneg p); lia].
      rewrite bool_decide_eq_false_2; [done|unfold zlen in *; lia].
  - unfold starts_with, bytes_eqb. f_equal. f_equal. unfold zlen.
    destruct (Z.leb_spec (Z.of_nat (length p)) (Z.of_nat (length value))); symmetry;
      [apply bool_decide_eq_true|apply bool_decide_eq_false]; lia.
Qed.

(** The literal prefix is implied by a match. *)
Lemma wildmatch_prefix l r value :
  literal l → ¬ has_prefix value l → wildmatch (l ++ r) value m = Ok false.
Proof.
  intros Hl Hn. destruct (match_recursive_total RECURSION_LIMIT m (l ++ r) value) as [res Hr].
  unfold wildmatch. rewrite Hr. cbn [mbind outcome_bind]. f_equal. apply bool_decide_eq_false. intros ->.
  apply Hn, has_prefix_iff. change RECURSION_LIMIT with (S 63) in Hr. cbn [match_recursive] in Hr.
  by eapply match_loop_prefix.
Qed.
End Folding.

(** ** Parsed patterns *)
Definition pattern_ok (p : Pattern) : Prop :=
  first_wildcard_pos p = find_first_wildcard (text p) ∧
  NO_SUB_DIR (mode p) = negb (contains (text p) SLASH) ∧
  (ENDS_WITH (mode p) = true → ∃ l, text p = STAR :: l ∧ literal l).

Definition parsed (may_alter : bool) (t : bytes) (p : Pattern) : Prop :=
  (if may_alter then from_bytes t else from_bytes_without_negation t) = Some p.

Lemma parsed_parts may_alter t p :
  parsed may_alter t p → from_parts <$> parse_pattern t may_alter = Some p.
Proof. by destruct may_alter. Qed.
Lemma parsed_ok may_alter t p : parsed may_alter t p → pattern_ok p.
Proof.
  intros H%parsed_parts. unfold parse_pattern in H. case_bool_decide; [done|].
  destruct (if may_alter then _ else _) as [neg pat]. destruct (forallb _ _); [done|].
  set (pat1 := if bool_decide (head pat = _) then _ else _) in H.
  set (pat2 := if bool_decide (list.last pat1 = _) then _ else _) in H. clearbody pat2.
  cbn [fmap option_fmap option_map from_parts] in H. injection H as <-.
  split; [done|]. split; [done|]. cbn [mode ENDS_WITH text].
  intros [H1%bool_decide_eq_true H2%bool_decide_eq_true]%andb_true_iff. destruct pat2 as [|c l]; [done|].
  injection H1 as ->. exists l. split; [done|].
  pose proof (find_byteset_spec l GLOB_CHARACTERS) as Hs. unfold find_first_wildcard in H2. cbn [tail] in H2.
  by rewrite H2 in Hs.
Qed.

(** The shortcuts of [matches]. *)
Lemma matches_is_wildmatch p value m : pattern_ok p → matches p value m = wildmatch (text p) value m.
Proof.
  intros (Hpos & _ & Hends). unfold matches. rewrite Hpos. unfold find_first_wildcard.
  pose proof (find_byteset_spec (text p) GLOB_CHARACTERS) as Hs.
  destruct (find_byteset (text p) GLOB_CHARACTERS) as [k|]; [|by rewrite matches_literal].
  destruct Hs as (a & x & r & Htext & Ha & Hx & ->).
  destruct (ENDS_WITH (mode p) && _) eqn:E.
  - apply andb_true_iff in E as [He Hv]. destruct (Hends He) as (l & Hl & Hlit).
    assert (a = []) as ->.
    { destruct a as [|y a]; [done|]. rewrite Hl in Htext. injection Htext as <- _.
      apply list.Forall_cons in Ha as [Ha _]. destruct Ha. unfold GLOB_CHARACTERS, STAR. set_solver. }
    rewrite Hl. change (zlen (@nil Z) + 1) with (zlen [STAR]). change (STAR :: l) with ([STAR] ++ l).
    rewrite get_from_app. cbn [expect mbind outcome_bind app]. rewrite suffix_code, matches_suffix; [done|done|].
    apply orb_true_iff in Hv as [Hv%negb_true_iff|Hv%negb_true_iff]; [by left|].
    right. rewrite <- contains_in. congruence.
  - rewrite Htext, prefix_code. cbn [mbind outcome_bind]. case_bool_decide as Hp; cbn [negb]; [done|].
    by rewrite wildmatch_prefix.
Qed.

(** ** The callers' base name position: [path.rfind_byte(b'/').map(|p| p + 1)] *)
Definition basename_pos (path : bytes) : option Z := (λ p, p + 1) <$> rfind_byte path SLASH.

Lemma rfind_byte_none l b : b ∉ l → rfind_byte l b = None.
Proof.
  induction l as [|x l IH]; intros H; [done|]. cbn [rfind_byte]. rewrite IH by set_solver.
  by rewrite (proj2 (Z.eqb_neq x b)) by set_solver.
Qed.
Lemma rfind_byte_app a l b :
  rfind_byte (a ++ b :: l) b = Some (zlen a + match rfind_byte l b with Some k => k + 1 | None => 0 end).
Proof.
  induction a as [|x a IH]; cbn [app rfind_byte].
  - rewrite Z.eqb_refl. by destruct (rfind_byte l b).
  - rewrite IH, zlen_cons. f_equal. lia.
Qed.
Lemma basename_pos_app a l :
  basename_pos (a ++ SLASH :: l) = Some (zlen (a ++ [SLASH]) + default 0 (basename_pos l)).
Proof.
  unfold basename_pos. rewrite rfind_byte_app, zlen_app. change (zlen [SLASH]) with 1.
  cbn [fmap option_fmap option_map]. f_equal. destruct (rfind_byte l SLASH); cbn; lia.
Qed.
Lemma basename_split path : ∃ dir base,
  path = dir ++ base ∧ SLASH ∉ base ∧ (dir = [] ∨ ∃ d, dir = d ++ [SLASH]) ∧ default 0 (basename_pos path) = zlen dir.
Proof.
  induction path as [|x path (dir & base & -> & Hb & Hd & Hpos)].
  { exists [], []. split_and!; [done|set_solver|by left|done]. }
  destruct Hd as [->|[d ->]].
  - destruct (decide (x = SLASH)) as [->|Hx].
    + exists [SLASH], base. split_and!; [done|done|right; by exists []|].
      change (SLASH :: [] ++ base) with ([] ++ SLASH :: base). rewrite basename_pos_app. unfold basename_pos.
      by rewrite rfind_byte_none.
    + exists [], (x :: base). split_and!; [done|set_solver|by left|].
      unfold basename_pos. cbn [app]. rewrite rfind_byte_none; [done|set_solver].
  - exists (x :: d ++ [SLASH]), base. split_and!; [done|done|right; by exists (x :: d)|].
    rewrite <- app_assoc. change (x :: d ++ [SLASH] ++ base) with ((x :: d) ++ SLASH :: base).
    rewrite basename_pos_app. unfold basename_pos. by rewrite rfind_byte_none.
Qed.
Lemma basename_pos_zero path pos : basename_pos path = Some pos → 0 < pos.
Proof.
  unfold basename_pos. intros H. apply fmap_Some in H as (k & Hk & ->). revert k Hk.
  induction path as [|x path IH]; intros k Hk; [done|]. cbn [rfind_byte] in Hk.
  destruct (rfind_byte path SLASH) as [j|]; [injection Hk as <-; specialize (IH j eq_refl); lia|].
  destruct (x =? SLASH); [injection Hk as <-; lia|done].
Qed.

Definition with_case (case : Case) (m : Mode) : Mode :=
  {| no_match_slash_literal := no_match_slash_literal m;
     ignore_case := match case with Fold => true | Sensitive => ignore_case m end |}.

(** C36: a pattern made by either parser, matched against a path of the repository
    with the position of its base name: the result is [false] for a file and a pattern
    that must be a directory; a path that begins with a slash is refused by the assertion that
    paths are relative; otherwise the result is the one of [wildmatch] on the pattern's
    text: against the base name when the pattern has no slash and is not absolute,
    against the whole path otherwise. The comparisons of a literal, of a literal suffix
    behind one star and of the literal prefix that come before [wildmatch] never change
    the result, no slice is out of bounds, and the assertion on the position holds. *)
Theorem repo_relative_match may_alter t p path is_dir case m :
  parsed may_alter t p →
  ∃ dir base, path = dir ++ base ∧ SLASH ∉ base ∧ (dir = [] ∨ ∃ d, dir = d ++ [SLASH]) ∧
    matches_repo_relative_path p path (basename_pos path) is_dir case m =
      if MUST_BE_DIR (mode p) && negb (default false is_dir) then Ok false
      else if starts_with path [SLASH] then Panic
      else wildmatch (text p) (if contains (text p) SLASH || ABSOLUTE (mode p) then path else base) (with_case case m).
Proof.
  intros Hp%parsed_ok. destruct (basename_split path) as (dir & base & Hpath & Hb & Hd & Hpos).
  exists dir, base. split_and!; [done|done|done|]. unfold matches_repo_relative_path.
  rewrite (andb_comm (MUST_BE_DIR _)). destruct (_ && MUST_BE_DIR (mode p)); [done|].
  fold (basename_pos path). rewrite (bool_decide_true (basename_pos path = basename_pos path)) by done.
  assert (match basename_pos path with Some _ => true | None => true end = true) as -> by by destruct (basename_pos path).
  cbn [assert_that mbind outcome_bind]. destruct (starts_with path [SLASH]); [done|]. cbn [negb assert_that mbind outcome_bind].
  pose proof Hp as (_ & Hsub & _). rewrite Hsub. fold (with_case case m).
  destruct (contains (text p) SLASH), (ABSOLUTE (mode p)); cbn [negb andb orb];
    try by apply matches_is_wildmatch.
  rewrite Hpos, Hpath, get_from_app. cbn [expect mbind outcome_bind]. by apply matches_is_wildmatch.
Qed.
(** [*.rs] and [src/lib.rs]. *)
Lemma repo_relative_match_witness (t := [42; 46; 114; 115]) (path := [115; 114; 99; 47; 108; 105; 98; 46; 114; 115])
    (m := {| no_match_slash_literal := true; ignore_case := false |}) :
  ∃ p dir base, parsed true t p ∧ path = dir ++ base ∧
    matches_repo_relative_path p path (basename_pos path) None Sensitive m
      = wildmatch (text p) base (with_case Sensitive m) ∧
    matches_repo_relative_path p path (basename_pos path) None Sensitive m = Ok true.
Proof.
  destruct (from_bytes t) as [p|] eqn:E; [|discriminate E].
  destruct (repo_relative_match true t p path None Sensitive m E) as (dir & base & H1 & H2 & H3 & H4).
  exists p, dir, base. split; [exact E|]. split; [exact H1|].
  vm_compute in E. injection E as <-. split; [exact H4|by vm_compute].
Defined.

(** The comparison of a base directory. *)
Definition case_mode (case : Case) : Mode :=
  {| no_match_slash_literal := false; ignore_case := match case with Fold => true | Sensitive => false end |}.
Lemma stripped_code base path case :
  match case with
  | Sensitive => if starts_with path base then Some (drop (length base) path) else None
  | Fold =>
      match get_range path 0 (zlen base) with
      | None => None
      | Some rela_dir => if eq_ignore_ascii_case rela_dir base then Some (drop (length base) path) else None
      end
  end = if bool_decide (has_prefix (case_mode case) path base) then Some (drop (length base) path) else None.
Proof.
  pose proof (prefix_code (case_mode case) path base []) as H.
  assert (get_range (base ++ []) 0 (zlen base) = Some base) as Hb.
  { apply (get_range_app [] base []); [done|]. change (zlen (@nil Z)) with 0. lia. }
  cbv zeta in H. rewrite Hb in H. destruct case; cbn [case_mode ignore_case expect mbind outcome_bind] in H.
  - by injection H as ->.
  - destruct (get_range path 0 (zlen base)); injection H as <-; done.
Qed.

(** a path relative to the repository, made relative to the base directory of a
    list of patterns: it is the rest of the path when the path begins with the base, up
    to case when it is to be ignored, and nothing otherwise; the position of the base
    name that is handed on is the one of the rest, and the subtraction that computes
    it never underflows. *)
Theorem strip_base_exact base path case :
  (base = [] ∨ ∃ d, base = d ++ [SLASH]) →
  strip_base_handle_recompute_basename_pos base path (basename_pos path) case =
    Ok (if bool_decide (has_prefix (case_mode case) path base)
        then Some (drop (length base) path, basename_pos (drop (length base) path)) else None).
Proof.
  intros Hbase. unfold strip_base_handle_recompute_basename_pos. rewrite stripped_code.
  case_bool_decide as Hp; [|done]. apply has_prefix_iff in Hp as (a & r & -> & Ha).
  assert (Hl : length a = length base) by (rewrite <- (length_map (possibly_lowercase (case_mode case)) a), Ha; apply length_map).
  rewrite <- Hl, drop_app_length. replace (zlen base) with (zlen a) by (unfold zlen; lia).
  destruct Hbase as [->|[d ->]].
  - destruct a; [|done]. change (zlen (@nil Z)) with 0. cbn [app].
    destruct (basename_pos r) as [pos|] eqn:E; [|done]. apply basename_pos_zero in E as Hpos.
    rewrite (proj2 (Z.ltb_ge _ _)), Z.sub_0_r, (proj2 (Z.eqb_neq _ _)) by lia. done.
  - assert (∃ a', a = a' ++ [SLASH]) as [a' ->].
    { rewrite map_app in Ha. apply map_eq_app in Ha as (a' & y & -> & _ & Hy). destruct y as [|y [|]]; [done| |done].
      injection Hy as Hy. rewrite (proj2 (fold_slash _ SLASH) eq_refl) in Hy. apply fold_slash in Hy as ->. by exists a'. }
    rewrite <- app_assoc. cbn [app]. rewrite basename_pos_app.
    destruct (basename_pos r) as [pos|] eqn:E; cbn [default].
    + apply basename_pos_zero in E. rewrite (proj2 (Z.ltb_ge _ _)) by (cbn; lia).
      cbn [from_option id]. rewrite (proj2 (Z.eqb_neq _ _)) by lia. cbn [negb]. do 3 f_equal. f_equal. lia.
    + rewrite (proj2 (Z.ltb_ge _ _)) by (cbn; lia). cbn [from_option id].
      replace (zlen (a' ++ [SLASH]) + 0 - zlen (a' ++ [SLASH])) with 0 by lia. done.
Qed.
(** [Src/] and [src/a/b], without case. *)
Lemma strip_base_exact_witness (base := [83; 114; 99; 47]) (path := [115; 114; 99; 47; 97; 47; 98]) :
  strip_base_handle_recompute_basename_pos base path (basename_pos path) Fold = Ok (Some ([97; 47; 98], Some 2)).
Proof.
  assert (H : base = [] ∨ ∃ d, base = d ++ [SLASH]) by (right; exists [83; 114; 99]; reflexivity).
  pose proof (strip_base_exact base path Fold H) as E. rewrite E. by vm_compute.
Defined.

(** What a pattern prints as is what it was parsed from: [Display] gives the text
    that either parser was given, but for the one backslash that protected a leading
    [!] or [#]; without negation the text comes back unaltered, always. *)
Theorem pattern_display_roundtrip may_alter t p :
  parsed may_alter t p →
  display p = t ∨
  (may_alter = true ∧ t = BACKSLASH :: display p ∧ (head (display p) = Some 33 ∨ head (display p) = Some 35)).
Proof.
  intros H%parsed_parts. unfold parse_pattern in H. case_bool_decide; [done|].
  destruct (if may_alter then take_negation t else (false, t)) as [neg pat] eqn:Eneg.
  destruct (forallb _ _); [done|].
  set (pat1 := if bool_decide (head pat = _) then _ else _) in H.
  set (pat2 := if bool_decide (list.last pat1 = _) then _ else _) in H.
  cbn [fmap option_fmap option_map from_parts] in H. injection H as <-.
  assert (H1 : (if bool_decide (head pat = Some SLASH) then [SLASH] else []) ++ pat1 = pat).
  { subst pat1. case_bool_decide as Hh; [|done]. destruct pat; [done|]. injection Hh as ->. done. }
  clearbody pat1. assert (H2 : pat2 ++ (if bool_decide (list.last pat1 = Some SLASH) then [SLASH] else []) = pat1).
  { subst pat2. destruct (bool_decide_reflect (list.last pat1 = Some SLASH)) as [Hh|]; [|apply app_nil_r]. apply list.last_Some in Hh as [l ->].
    rewrite length_app. cbn [length]. rewrite Nat.add_sub. by rewrite take_app_length. }
  assert (Hd : display {| text := pat2; mode := {| NO_SUB_DIR := negb (contains pat2 SLASH);
      ENDS_WITH := bool_decide (head pat2 = Some STAR) && bool_decide (find_first_wildcard (tail pat2) = None);
      MUST_BE_DIR := bool_decide (list.last pat1 = Some SLASH); NEGATIVE := neg;
      ABSOLUTE := bool_decide (head pat = Some SLASH) |}; first_wildcard_pos := find_first_wildcard pat2 |}
    = (if neg then [33] else []) ++ pat).
  { unfold display. cbn [mode text NEGATIVE ABSOLUTE MUST_BE_DIR]. by rewrite H2, H1. }
  rewrite Hd. clear Hd H1 H2 pat2 pat1.
  destruct may_alter; [|injection Eneg as <- <-; by left].
  unfold take_negation in Eneg. destruct t as [|c r]; [done|].
  destruct (Z.eqb_spec c 33) as [->|_]; [injection Eneg as <- <-; by left|].
  destruct (Z.eqb_spec c BACKSLASH) as [->|_]; [|injection Eneg as <- <-; by left].
  destruct r as [|d r]; [injection Eneg as <- <-; by left|].
  destruct ((d =? 33) || (d =? 35)) eqn:Ed; injection Eneg as <- <-; [|by left].
  right. split_and!; [done|done|]. cbn [app head].
  apply orb_true_iff in Ed as [->%Z.eqb_eq| ->%Z.eqb_eq]; auto.
Qed.
(** [!/target/] and [\#x]. *)
Lemma pattern_display_roundtrip_witness (t1 := [33; 47; 116; 47]) (t2 := [92; 35; 120]) :
  (∃ p, parsed true t1 p ∧ display p = t1) ∧
  (∃ p, parsed true t2 p ∧ t2 = BACKSLASH :: display p).
Proof.
  split.
  - destruct (from_bytes t1) as [p|] eqn:E; [|discriminate E]. exists p. split; [exact E|].
    destruct (pattern_display_roundtrip true t1 p E) as [H|(_ & H & _)]; [exact H|discriminate H].
  - destruct (from_bytes t2) as [p|] eqn:E; [|discriminate E]. exists p. split; [exact E|].
    destruct (pattern_display_roundtrip true t2 p E) as [H|(_ & H & _)]; [|exact H].
    vm_compute in E. injection E as <-. discriminate H.
Defined.
