(* ===== verification/CommitGraph.v ===== *)
(** * [gix-commitgraph]: commit-graph files and graphs

    [File] is a commit-graph file: [new] validates the bytes of a file with the table of
    contents of [Chunk]; the accessors read its chunks with slice operations that panic
    when they are out of range; [Parents] is the iterator over the parents of a commit
    with its states. [Graph] is a chain of files: [graph_new] assembles it, and positions
    run through the files in order. [lookup] is the bisection of [FanLookup]. [read_u32]
    and [read_fan] are copies of those of [gix-pack], as the source says.

    A file's path is the file name in it, which is all that is used of it. Positions and
    the sizes computed from them are below 2^32 times 48 and are plain [Z] arithmetic on
    64-bit [usize]; arithmetic on [u32] is checked. *)

From stdpp Require Import sets gmap.
From S2P Require Import Prelude Hash FanLookup PackIndex Chunk.

(** ** [lib.rs], [file/mod.rs] *)
Definition GENERATION_NUMBER_INFINITY : Z := 0xffffffff.
Definition GENERATION_NUMBER_MAX : Z := 0x3fffffff.
Definition MAX_COMMITS : Z := 2 ^ 30 + 2 ^ 29 + 2 ^ 28 - 1.

Definition COMMIT_DATA_ENTRY_SIZE_SANS_HASH : Z := 16.
Definition HEADER_LEN : Z := 8.
Definition SIGNATURE : bytes := [67; 71; 80; 72].
Definition BASE_GRAPHS_LIST_CHUNK_ID : bytes := [66; 65; 83; 69].
Definition BLOOM_FILTER_DATA_CHUNK_ID : bytes := [66; 68; 65; 84].
Definition BLOOM_FILTER_INDEX_CHUNK_ID : bytes := [66; 73; 68; 88].
Definition COMMIT_DATA_CHUNK_ID : bytes := [67; 68; 65; 84].
Definition EXTENDED_EDGES_LIST_CHUNK_ID : bytes := [69; 68; 71; 69].
Definition GENERATION_DATA_CHUNK_ID : bytes := [71; 68; 65; 50].
Definition GENERATION_DATA_OVERFLOW_CHUNK_ID : bytes := [71; 68; 79; 50].
Definition OID_FAN_CHUNK_ID : bytes := [79; 73; 68; 70].
Definition OID_LOOKUP_CHUNK_ID : bytes := [79; 73; 68; 76].

Definition NO_PARENT : Z := 0x70000000.
Definition EXTENDED_EDGES_MASK : Z := 0x80000000.
Definition GENERATION_DATA_OVERFLOW_MASK : Z := 0x80000000.
Definition LAST_EXTENDED_EDGE_MASK : Z := 0x80000000.
(** [raw & !mask] on [u32] *)
Definition without_high_bit (raw : Z) : Z := Z.land raw 0x7fffffff.

Record Settings := { hash_version : Z; num_hashes : Z; bits_per_entry : Z }.

Record File := {
  base_graph_count : Z;
  base_graphs_list_offset : option Z;
  commit_data_offset : Z;
  data : bytes;
  bloom_filter_data_range : option (Z * Z);
  bloom_filter_index_range : option (Z * Z);
  bloom_filter_settings : option Settings;
  generation_data_range : option (Z * Z);
  generation_data_overflow_range : option (Z * Z);
  extra_edges_list_range : option (Z * Z);
  fan : list Z;
  oid_lookup_offset : Z;
  path : option bytes;
  hash_len : Z;
  object_hash : Kind;
  parent_position_limit : Z;
}.

Inductive cg_error :=
| FileTooSmall
| BadSignature
| UnsupportedVersion (v : Z)
| UnsupportedHash (v : Z)
| BadChunkTable (e : chunk_error)
| BadChunkSize (k : bytes) (size : Z)
| BaseGraphsMismatch (chunk header : Z)
| ChunkMissing (k : bytes)
| TooManyCommits (count : Z)
| LengthOverflow
| UnsupportedBloomVersion (v : Z)
| DecreasingBloomOffset
| BloomOffsetPastEnd (last len : Z)
| RequiresChunk (k required : bytes)
| OverflowIndexPastEnd (index entries : Z)
| BadTrailer (len : Z)
| CgFanNotMonotonic
| CommitCountMismatch (k : bytes) (fan_count chunk_count : Z)
| SecondParentWithoutFirst (id : bytes)
| FirstParentIsExtraEdge (id : bytes)
| ExtraEdgesOverflow (id : bytes)
| NoExtraEdges (id : bytes)
| ParentOutOfRange (id : bytes) (pos limit : Z)
| TooManyFiles
| NoFiles
| TooManyCommitsAltogether (num : Z)
| HashKindMismatch
| HasherFailure
| ChecksumMismatch
| FilenameMismatch
| InvalidCommitId (pos : Z) (id : bytes)
| OutOfOrder (pos : Z) (id prev_id : bytes)
| InvalidRootTree (id : bytes)
| InvalidGeneration (id : bytes) (generation : Z)
| ProcessorFailed (id : bytes) (e : cg_error)
| WrongBaseGraphCount (expected actual : Z)
| WrongBaseGraph (index : Z)
| DuplicateCommit (id : bytes)
| UncomputedGeneration (id : bytes)
| WrongGeneration (id : bytes) (expected actual : Z)
| CallerFailed.

(** ** [file/init.rs] *)
Definition MIN_FILE_SIZE : Z :=
  HEADER_LEN + size_for_entries 3 + FAN_LEN * 4 + len_in_bytes shortest.

Definition range_len (r : Z * Z) : Z := r.2 - r.1.

(** [chunks.validated_usize_offset_by_id(k, validate).ok().transpose()?] *)
Definition optional_chunk {T} (idx : Index) (k : bytes) (validate : Z * Z → outcome cg_error T)
    : outcome cg_error (option T) :=
  match validated_usize_offset_by_id idx k validate with
  | Ok r => Some <$> r
  | Err _ => Ok None
  | Panic => Panic
  end.
(** [chunks.validated_usize_offset_by_id(k, validate).or_raise(..)??] *)
Definition required_chunk {T} (idx : Index) (k : bytes) (validate : Z * Z → outcome cg_error T)
    : outcome cg_error T :=
  match validated_usize_offset_by_id idx k validate with
  | Ok r => r
  | Err _ => Err (ChunkMissing k)
  | Panic => Panic
  end.

Definition commit_count (count : Z) : outcome cg_error Z :=
  if MAX_COMMITS <? count then Err (TooManyCommits count) else Ok count.

Definition validate_base_graphs (hash_len base_graph_count : Z) (r : Z * Z) : outcome cg_error Z :=
  let chunk_size := range_len r in
  _ ← ensure (chunk_size mod hash_len =? 0) (BadChunkSize BASE_GRAPHS_LIST_CHUNK_ID chunk_size);
  let chunk_base_graph_count := chunk_size / hash_len in
  _ ← ensure (chunk_base_graph_count =? base_graph_count)
        (BaseGraphsMismatch chunk_base_graph_count base_graph_count);
  Ok r.1.
(** A chunk of entries of one size, for every commit. *)
Definition validate_table (k : bytes) (entry_size : Z) (r : Z * Z) : outcome cg_error (Z * Z) :=
  let chunk_size := range_len r in
  _ ← ensure (chunk_size mod entry_size =? 0) (BadChunkSize k chunk_size);
  count ← commit_count (chunk_size / entry_size);
  Ok (r.1, count).
Definition validate_fan_chunk (r : Z * Z) : outcome cg_error Z :=
  _ ← ensure (range_len r =? 4 * FAN_LEN) (BadChunkSize OID_FAN_CHUNK_ID (range_len r));
  Ok r.1.
Definition validate_multiple (k : bytes) (n : Z) (r : Z * Z) : outcome cg_error (Z * Z) :=
  _ ← ensure (range_len r mod n =? 0) (BadChunkSize k (range_len r));
  Ok r.
Definition validate_per_commit (k : bytes) (commit_data_count : Z) (r : Z * Z) : outcome cg_error (Z * Z) :=
  expected_size ← ok_or LengthOverflow (checked_mul 64 commit_data_count 4);
  _ ← ensure (range_len r =? expected_size) (BadChunkSize k (range_len r));
  Ok r.
Definition validate_bloom_data (r : Z * Z) : outcome cg_error (Z * Z) :=
  _ ← ensure (negb (range_len r <? 12)) (BadChunkSize BLOOM_FILTER_DATA_CHUNK_ID (range_len r));
  Ok r.

(** The ends of the filters never decrease and stay within the data. *)
Fixpoint check_bloom_ends (ends : list Z) (previous_end filter_data_len : Z) : outcome cg_error () :=
  match ends with
  | [] => Ok tt
  | last :: ends =>
      if last <? previous_end then Err DecreasingBloomOffset
      else if filter_data_len <? last then Err (BloomOffsetPastEnd last filter_data_len)
      else check_bloom_ends ends last filter_data_len
  end.
Definition read_bloom_settings (data : bytes) (index_range data_range : option (Z * Z))
    : outcome cg_error (option Settings) :=
  match index_range, data_range with
  | Some index_range, Some data_range =>
      bloom_data ← expect (get_range data data_range.1 data_range.2);
      hash_version ← (b ← expect (get_range bloom_data 0 4); read_u32 b);
      num_hashes ← (b ← expect (get_range bloom_data 4 8); read_u32 b);
      bits_per_entry ← (b ← expect (get_range bloom_data 8 12); read_u32 b);
      _ ← ensure ((hash_version =? 1) || (hash_version =? 2)) (UnsupportedBloomVersion hash_version);
      filter_data_len ← op_sub 64 (zlen bloom_data) 12;
      index ← expect (get_range data index_range.1 index_range.2);
      ends ← mapM read_u32 (Prelude.chunks 4 index);
      _ ← check_bloom_ends ends 0 filter_data_len;
      Ok (Some {| hash_version := hash_version; num_hashes := num_hashes; bits_per_entry := bits_per_entry |})
  | Some _, None => Ok None
  | None, Some _ => Err (RequiresChunk BLOOM_FILTER_DATA_CHUNK_ID BLOOM_FILTER_INDEX_CHUNK_ID)
  | None, None => Ok None
  end.

Fixpoint check_overflow_indices (offsets : list Z) (overflow_entries : Z) : outcome cg_error () :=
  match offsets with
  | [] => Ok tt
  | raw_offset :: offsets =>
      if negb (Z.land raw_offset GENERATION_DATA_OVERFLOW_MASK =? 0) then
        let overflow_index := without_high_bit raw_offset in
        if overflow_entries <=? overflow_index then Err (OverflowIndexPastEnd overflow_index overflow_entries)
        else check_overflow_indices offsets overflow_entries
      else check_overflow_indices offsets overflow_entries
  end.
Definition check_generation_data (data : bytes) (range overflow : option (Z * Z)) : outcome cg_error () :=
  _ ← ensure (negb (bool_decide (is_Some overflow) && bool_decide (range = None)))
        (RequiresChunk GENERATION_DATA_OVERFLOW_CHUNK_ID GENERATION_DATA_CHUNK_ID);
  match range with
  | None => Ok tt
  | Some range =>
      let overflow_entries := default 0 ((λ r, range_len r / 8) <$> overflow) in
      d ← expect (get_range data range.1 range.2);
      offsets ← mapM read_u32 (Prelude.chunks 4 d);
      check_overflow_indices offsets overflow_entries
  end.

Definition new (data : bytes) (path : option bytes) : outcome cg_error File :=
  _ ← ensure (negb (zlen data <? MIN_FILE_SIZE)) FileTooSmall;
  signature ← expect (get_range data 0 4);
  _ ← ensure (bytes_eqb signature SIGNATURE) BadSignature;
  version ← expect (get data 4);
  _ ← ensure (version =? 1) (UnsupportedVersion version);
  h ← expect (get data 5);
  object_hash ← ok_or (UnsupportedHash h) (kind_try_from h);
  let hash_len := len_in_bytes object_hash in
  chunk_count ← expect (get data 6);
  base_graph_count ← expect (get data 7);
  idx ← map_err BadChunkTable (Chunk.from_bytes data HEADER_LEN chunk_count);
  base_graphs_list_offset ←
    optional_chunk idx BASE_GRAPHS_LIST_CHUNK_ID (validate_base_graphs hash_len base_graph_count);
  '(commit_data_offset, commit_data_count) ←
    required_chunk idx COMMIT_DATA_CHUNK_ID
      (validate_table COMMIT_DATA_CHUNK_ID (hash_len + COMMIT_DATA_ENTRY_SIZE_SANS_HASH));
  fan_offset ← required_chunk idx OID_FAN_CHUNK_ID validate_fan_chunk;
  '(oid_lookup_offset, oid_lookup_count) ←
    required_chunk idx OID_LOOKUP_CHUNK_ID (validate_table OID_LOOKUP_CHUNK_ID hash_len);
  extra_edges_list_range ←
    optional_chunk idx EXTENDED_EDGES_LIST_CHUNK_ID (validate_multiple EXTENDED_EDGES_LIST_CHUNK_ID 4);
  bloom_filter_index_range ←
    optional_chunk idx BLOOM_FILTER_INDEX_CHUNK_ID (validate_per_commit BLOOM_FILTER_INDEX_CHUNK_ID commit_data_count);
  bloom_filter_data_range ← optional_chunk idx BLOOM_FILTER_DATA_CHUNK_ID validate_bloom_data;
  bloom_filter_settings ← read_bloom_settings data bloom_filter_index_range bloom_filter_data_range;
  generation_data_range ←
    optional_chunk idx GENERATION_DATA_CHUNK_ID (validate_per_commit GENERATION_DATA_CHUNK_ID commit_data_count);
  generation_data_overflow_range ←
    optional_chunk idx GENERATION_DATA_OVERFLOW_CHUNK_ID (validate_multiple GENERATION_DATA_OVERFLOW_CHUNK_ID 8);
  _ ← check_generation_data data generation_data_range generation_data_overflow_range;
  highest ← map_err BadChunkTable (highest_offset idx);
  trailer ← expect (get_from data highest);
  _ ← ensure (zlen trailer =? hash_len) (BadTrailer (zlen trailer));
  _ ← ensure (negb ((0 <? base_graph_count) && bool_decide (base_graphs_list_offset = None)))
        (ChunkMissing BASE_GRAPHS_LIST_CHUNK_ID);
  d ← expect (get_from data fan_offset);
  '(fan, _) ← read_fan d;
  _ ← ensure (fan_is_monotonically_increasing fan) CgFanNotMonotonic;
  num ← expect (get fan 255);
  _ ← ensure (oid_lookup_count =? num) (CommitCountMismatch OID_LOOKUP_CHUNK_ID num oid_lookup_count);
  _ ← ensure (commit_data_count =? num) (CommitCountMismatch COMMIT_DATA_CHUNK_ID num commit_data_count);
  Ok {| base_graph_count := base_graph_count;
        base_graphs_list_offset := base_graphs_list_offset;
        commit_data_offset := commit_data_offset;
        data := data;
        bloom_filter_data_range := bloom_filter_settings ≫= λ _, bloom_filter_data_range;
        bloom_filter_index_range := bloom_filter_settings ≫= λ _, bloom_filter_index_range;
        bloom_filter_settings := bloom_filter_settings;
        generation_data_range := generation_data_range;
        generation_data_overflow_range := generation_data_overflow_range;
        extra_edges_list_range := extra_edges_list_range;
        fan := fan;
        oid_lookup_offset := oid_lookup_offset;
        path := path;
        hash_len := hash_len;
        object_hash := object_hash;
        parent_position_limit := if base_graph_count =? 0 then num else MAX_COMMITS |}.

(** ** [file/access.rs] *)
Definition num_commits {E} (f : File) : outcome E Z := expect (get (fan f) 255).

Definition check_pos {E} (f : File) (pos : Z) : outcome E () :=
  n ← num_commits f; assert_that (pos <? n).
Definition id_at {E} (f : File) (pos : Z) : outcome E bytes :=
  _ ← check_pos f pos;
  slice_at (data f) (oid_lookup_offset f + pos * hash_len f) (hash_len f).
Definition commit_data_bytes {E} (f : File) (pos : Z) : outcome E bytes :=
  _ ← check_pos f pos;
  let entry_size := hash_len f + COMMIT_DATA_ENTRY_SIZE_SANS_HASH in
  slice_at (data f) (commit_data_offset f + pos * entry_size) entry_size.
Definition iter_base_graph_ids {E} (f : File) : outcome E (list bytes) :=
  let start := default 0 (base_graphs_list_offset f) in
  list ← slice_at (data f) start (hash_len f * base_graph_count f);
  Ok (Prelude.chunks (Z.to_nat (hash_len f)) list).
Definition iter_ids {E} (f : File) : outcome E (list bytes) :=
  n ← num_commits f; mapM (id_at f) (seqZ 0 n).

(** What the lookup needs of a file. *)
Definition graph_table {E} (f : File) : id_table E :=
  {| tab_fan := fan f; tab_at := id_at f; tab_num := default 0 (get (fan f) 255) |}.
Definition file_lookup {E} (f : File) (id : bytes) : outcome E (option Z) := FanLookup.lookup (graph_table f) id.

Definition extra_edges_data {E} (f : File) : outcome E (option bytes) :=
  match extra_edges_list_range f with
  | None => Ok None
  | Some r => d ← expect (get_range (data f) r.1 r.2); Ok (Some d)
  end.
Definition has_corrected_commit_dates (f : File) : bool := bool_decide (is_Some (generation_data_range f)).

Record Filter := { settings : Settings; filter_data : bytes }.
Definition bloom_filter_at {E} (f : File) (pos : Z) : outcome E (option Filter) :=
  _ ← check_pos f pos;
  match bloom_filter_index_range f, bloom_filter_data_range f, bloom_filter_settings f with
  | Some index_range, Some data_range, Some settings =>
      last ← (b ← slice_at (data f) (index_range.1 + pos * 4) 4; read_u32 b);
      start ← (if pos =? 0 then Ok 0
               else b ← slice_at (data f) (index_range.1 + (pos - 1) * 4) 4; read_u32 b);
      let filter_data_start := data_range.1 + 12 in
      d ← expect (get_range (data f) (filter_data_start + start) (filter_data_start + last));
      Ok (Some {| settings := settings; filter_data := d |})
  | _, _, _ => Ok None
  end.
Definition corrected_commit_date_offset {E} (f : File) (pos : Z) : outcome E (option Z) :=
  _ ← check_pos f pos;
  match generation_data_range f with
  | None => Ok None
  | Some range =>
      raw_offset ← (b ← slice_at (data f) (range.1 + pos * 4) 4; read_u32 b);
      if Z.land raw_offset GENERATION_DATA_OVERFLOW_MASK =? 0 then Ok (Some raw_offset)
      else
        let overflow_index := without_high_bit raw_offset in
        range ← expect (generation_data_overflow_range f);
        v ← (b ← slice_at (data f) (range.1 + overflow_index * 8) 8; read_u64 b);
        Ok (Some v)
  end.

(** ** [file/commit.rs] *)
Inductive ParentEdge :=
| EdgeNone
| GraphPosition (pos : Z)
| ExtraEdgeIndex (i : Z).
Definition edge_from_raw (raw : Z) : ParentEdge :=
  if raw =? NO_PARENT then EdgeNone
  else if negb (Z.land raw EXTENDED_EDGES_MASK =? 0) then ExtraEdgeIndex (without_high_bit raw)
  else GraphPosition raw.
Inductive ExtraEdge := Internal (pos : Z) | Last (pos : Z).
Definition extra_from_raw (raw : Z) : ExtraEdge :=
  if negb (Z.land raw LAST_EXTENDED_EDGE_MASK =? 0) then Last (without_high_bit raw) else Internal raw.

Record Commit := {
  file : File;
  commit_pos : Z;
  commit_timestamp : Z;
  generation : Z;
  parent1 : ParentEdge;
  parent2 : ParentEdge;
  root_tree_id : bytes;
}.

Definition commit_new {E} (f : File) (pos : Z) : outcome E Commit :=
  bytes ← commit_data_bytes f pos;
  root_tree_id ← expect (get_range bytes 0 (hash_len f));
  p1 ← (b ← slice_at bytes (hash_len f) 4; read_u32 b);
  p2 ← (b ← slice_at bytes (hash_len f + 4) 4; read_u32 b);
  g ← (b ← slice_at bytes (hash_len f + 8) 4; read_u32 b);
  t ← (b ← slice_at bytes (hash_len f + 8) 8; read_u64 b);
  Ok {| file := f; commit_pos := pos; root_tree_id := root_tree_id;
        parent1 := edge_from_raw p1; parent2 := edge_from_raw p2;
        generation := Z.shiftr g 2; commit_timestamp := Z.land t 0x3ffffffff |}.
Definition commit_at {E} (f : File) (pos : Z) : outcome E Commit := commit_new f pos.
Definition iter_commits {E} (f : File) : outcome E (list Commit) :=
  n ← num_commits f; mapM (commit_at f) (seqZ 0 n).
Definition commit_id {E} (c : Commit) : outcome E bytes := id_at (file c) (commit_pos c).
Definition corrected_committer_timestamp {E} (c : Commit) : outcome E (option Z) :=
  o ← corrected_commit_date_offset (file c) (commit_pos c);
  Ok (o ≫= λ offset, checked_add 64 (commit_timestamp c) offset).
Definition changed_path_filter {E} (c : Commit) : outcome E (option Filter) :=
  bloom_filter_at (file c) (commit_pos c).

(** The iterator over parents. [Extra] holds the chunks of four bytes that are left. *)
Inductive ParentIteratorState :=
| First
| Second
| Extra (chunks : list bytes)
| Exhausted.
Definition item : Type := cg_error + Z.

(** An item that is an error about this commit. *)
Definition fail_with {E} (c : Commit) (e : bytes → cg_error) : outcome E (option item) :=
  id ← commit_id c; Ok (Some (inl (e id))).
(** The check of every position behind the [match]. *)
Definition check_limit {E} (c : Commit) (parent : option item) (state : ParentIteratorState)
    : outcome E (option item * ParentIteratorState) :=
  match parent with
  | Some (inr pos) =>
      if parent_position_limit (file c) <=? pos then
        e ← fail_with c (λ id, ParentOutOfRange id pos (parent_position_limit (file c)));
        Ok (e, Exhausted)
      else Ok (parent, state)
  | _ => Ok (parent, state)
  end.
(** [next] in state [Extra] *)
Definition next_extra {E} (c : Commit) (chunks : list bytes) : outcome E (option item * ParentIteratorState) :=
  match chunks with
  | chunk :: chunks =>
      extra_edge ← read_u32 chunk;
      match extra_from_raw extra_edge with
      | Internal pos => check_limit c (Some (inr pos)) (Extra chunks)
      | Last pos => check_limit c (Some (inr pos)) Exhausted
      end
  | [] =>
      e ← fail_with c ExtraEdgesOverflow; check_limit c e Exhausted
  end.
Definition parents_next {E} (c : Commit) (state : ParentIteratorState)
    : outcome E (option item * ParentIteratorState) :=
  match state with
  | First =>
      match parent1 c with
      | EdgeNone =>
          match parent2 c with
          | EdgeNone => check_limit c None Exhausted
          | _ => e ← fail_with c SecondParentWithoutFirst; check_limit c e Exhausted
          end
      | GraphPosition pos => check_limit c (Some (inr pos)) Second
      | ExtraEdgeIndex _ => e ← fail_with c FirstParentIsExtraEdge; check_limit c e Exhausted
      end
  | Second =>
      match parent2 c with
      | EdgeNone => check_limit c None Exhausted
      | GraphPosition pos => check_limit c (Some (inr pos)) Exhausted
      | ExtraEdgeIndex extra_edge_index =>
          edges ← extra_edges_data (file c);
          match edges with
          | Some extra_edges_list =>
              match checked_mul 64 extra_edge_index 4 ≫= get_from extra_edges_list with
              | Some tail =>
                  '(parent, state) ← next_extra c (Prelude.chunks 4 tail);
                  check_limit c parent state
              | None => e ← fail_with c ExtraEdgesOverflow; check_limit c e Exhausted
              end
          | None => e ← fail_with c NoExtraEdges; check_limit c e Exhausted
          end
      end
  | Extra chunks => next_extra c chunks
  | Exhausted => check_limit c None Exhausted
  end.
(** All items, up to the first [None]. *)
Fixpoint parents_from {E} (fuel : nat) (c : Commit) (state : ParentIteratorState) : outcome E (list item) :=
  match fuel with
  | O => Panic
  | S fuel =>
      '(i, state) ← parents_next c state;
      match i with
      | None => Ok []
      | Some i => rest ← parents_from fuel c state; Ok (i :: rest)
      end
  end.
Definition parents_fuel (c : Commit) : nat := length (data (file c)) + 4.
Definition iter_parents {E} (c : Commit) : outcome E (list item) := parents_from (parents_fuel c) c First.
Definition first_parent {E} (c : Commit) : outcome E (option item) :=
  '(i, _) ← parents_next c First; Ok i.

(** ** [init.rs]: [Graph::new]; [access.rs] *)
Record Graph := { files : list File }.

Definition set_limit (f : File) (limit : Z) : File :=
  {| base_graph_count := base_graph_count f; base_graphs_list_offset := base_graphs_list_offset f;
     commit_data_offset := commit_data_offset f; data := data f;
     bloom_filter_data_range := bloom_filter_data_range f;
     bloom_filter_index_range := bloom_filter_index_range f;
     bloom_filter_settings := bloom_filter_settings f;
     generation_data_range := generation_data_range f;
     generation_data_overflow_range := generation_data_overflow_range f;
     extra_edges_list_range := extra_edges_list_range f; fan := fan f;
     oid_lookup_offset := oid_lookup_offset f; path := path f; hash_len := hash_len f;
     object_hash := object_hash f; parent_position_limit := limit |}.

Fixpoint sum_commits {E} (fs : list File) : outcome E Z :=
  match fs with
  | [] => Ok 0
  | f :: fs => n ← num_commits f; rest ← sum_commits fs; Ok (n + rest)
  end.
Fixpoint same_hash (f1 : File) (fs : list File) : bool :=
  match fs with
  | [] => true
  | f2 :: fs => bool_decide (object_hash f1 = object_hash f2) && same_hash f2 fs
  end.
Fixpoint set_limits {E} (fs : list File) (limit : Z) : outcome E (list File) :=
  match fs with
  | [] => Ok []
  | f :: fs =>
      n ← num_commits f;
      limit ← op_add 32 limit n;
      rest ← set_limits fs limit;
      Ok (set_limit f limit :: rest)
  end.
Definition graph_new (fs : list File) : outcome cg_error Graph :=
  _ ← ensure (negb (256 <? zlen fs)) TooManyFiles;
  match fs with
  | [] => Err NoFiles
  | f1 :: tail =>
      num_commits ← sum_commits fs;
      _ ← ensure (negb (MAX_COMMITS <? num_commits)) (TooManyCommitsAltogether num_commits);
      _ ← ensure (same_hash f1 tail) HashKindMismatch;
      fs ← set_limits fs 0;
      Ok {| files := fs |}
  end.

Definition graph_num_commits {E} (g : Graph) : outcome E Z :=
  foldl (λ acc f, acc ← acc; n ← num_commits f; op_add 32 acc n) (Ok 0) (files g).
Fixpoint lookup_by_pos {E} (fs : list File) (remaining : Z) : outcome E (File * Z) :=
  match fs with
  | [] => Panic
  | f :: fs =>
      n ← num_commits f;
      match checked_sub 32 remaining n with
      | Some v => lookup_by_pos fs v
      | None => Ok (f, remaining)
      end
  end.
(** The file, the position in it and the position in the graph. *)
Fixpoint lookup_by_id {E} (fs : list File) (current_file_start : Z) (id : bytes)
    : outcome E (option (File * Z * Z)) :=
  match fs with
  | [] => Ok None
  | f :: fs =>
      r ← file_lookup f id;
      match r with
      | Some lex_pos => graph_pos ← op_add 32 current_file_start lex_pos; Ok (Some (f, lex_pos, graph_pos))
      | None =>
          n ← num_commits f;
          start ← op_add 32 current_file_start n;
          lookup_by_id fs start id
      end
  end.
Definition graph_commit_at {E} (g : Graph) (pos : Z) : outcome E Commit :=
  '(f, p) ← lookup_by_pos (files g) pos; commit_at f p.
Definition graph_id_at {E} (g : Graph) (pos : Z) : outcome E bytes :=
  '(f, p) ← lookup_by_pos (files g) pos; id_at f p.
Definition graph_commit_by_id {E} (g : Graph) (id : bytes) : outcome E (option Commit) :=
  r ← lookup_by_id (files g) 0 id;
  match r with
  | None => Ok None
  | Some (f, file_pos, _) => c ← commit_at f file_pos; Ok (Some c)
  end.
Definition graph_lookup {E} (g : Graph) (id : bytes) : outcome E (option Z) :=
  r ← lookup_by_id (files g) 0 id;
  Ok (option_map snd r).
Definition graph_iter_ids {E} (g : Graph) : outcome E (list bytes) :=
  ids ← mapM iter_ids (files g); Ok (concat ids).

(** ** [file/verify.rs], [verify.rs] *)
Definition checksum {E} (f : File) : outcome E bytes :=
  start ← op_sub 64 (zlen (data f)) (hash_len f);
  expect (get_from (data f) start).

Definition DOT_GRAPH : bytes := [46; 103; 114; 97; 112; 104].
Definition GRAPH_DASH : bytes := [103; 114; 97; 112; 104; 45].

Record FileOutcome := {
  max_generation : Z;
  min_generation : Z;
  max_parents : Z;
  file_num_commits : Z;
  parent_counts : gmap Z Z;
}.
Record Outcome := {
  longest_path_length : option Z;
  out_num_commits : Z;
  out_parent_counts : gmap Z Z;
}.
Definition add_count (m : gmap Z Z) (k v : Z) : gmap Z Z := <[k := default 0 (m !! k) + v]> m.

Section Verify.
(** The hasher, and the caller's processor on a state of its own. *)
Context {FH : FasterHex} (hasher : Kind → bytes → outcome cg_error bytes).
Context {S : Type} (processor : S → Commit → outcome cg_error S).

Definition verify_checksum (f : File) : outcome cg_error bytes :=
  n ← op_sub 64 (zlen (data f)) (hash_len f);
  content ← expect (get_range (data f) 0 n);
  actual ← hasher (object_hash f) content;
  expected ← checksum f;
  _ ← ensure (bytes_eqb actual expected) ChecksumMismatch;
  Ok actual.
Definition verify_split_chain_filename_hash (path : option bytes) (expected : bytes) : outcome cg_error () :=
  match (name ← path; stem ← strip_suffix name DOT_GRAPH; strip_prefix stem GRAPH_DASH) with
  | None => Ok tt
  | Some hex =>
      match from_hex hex with
      | Ok actual => ensure (bytes_eqb (as_slice actual) expected) FilenameMismatch
      | Err _ => Err FilenameMismatch
      | Panic => Panic
      end
  end.

(** [try_fold(0u32, |acc, pos| pos.map(|_| acc + 1))] *)
Fixpoint count_parents (items : list item) (acc : Z) : outcome cg_error Z :=
  match items with
  | [] => Ok acc
  | inl e :: _ => Err e
  | inr _ :: items => acc ← op_add 32 acc 1; count_parents items acc
  end.

(** The loop of [traverse] over the commits at the positions that are left. *)
Fixpoint traverse_loop {T} (process : T → Commit → outcome cg_error T) (f : File) (positions : list Z)
    (prev_id : bytes) (stats : FileOutcome) (s : T) : outcome cg_error (FileOutcome * T) :=
  match positions with
  | [] => Ok (stats, s)
  | pos :: positions =>
      c ← commit_at f pos;
      id ← commit_id c;
      let null_id := as_slice (null (object_hash f)) in
      _ ← (match bytes_cmp id prev_id with
           | Gt => Ok tt
           | _ => if bytes_eqb id null_id then Err (InvalidCommitId pos id) else Err (OutOfOrder pos id prev_id)
           end);
      _ ← ensure (negb (bytes_eqb (root_tree_id c) null_id)) (InvalidRootTree id);
      _ ← ensure (negb (GENERATION_NUMBER_MAX <? generation c)) (InvalidGeneration id (generation c));
      s ← map_err (ProcessorFailed id) (process s c);
      items ← iter_parents c;
      parent_count ← count_parents items 0;
      let stats := {| max_generation := Z.max (max_generation stats) (generation c);
                      min_generation := Z.min (min_generation stats) (generation c);
                      max_parents := max_parents stats;
                      file_num_commits := file_num_commits stats;
                      parent_counts := add_count (parent_counts stats) parent_count 1 |} in
      traverse_loop process f positions id stats s
  end.
Definition traverse {T} (process : T → Commit → outcome cg_error T) (f : File) (s : T)
    : outcome cg_error (FileOutcome * T) :=
  _ ← verify_checksum f;
  sum ← checksum f;
  _ ← verify_split_chain_filename_hash (path f) sum;
  n ← num_commits f;
  '(stats, s) ← traverse_loop process f (seqZ 0 n) (as_slice (null (object_hash f)))
    {| max_generation := 0; min_generation := GENERATION_NUMBER_INFINITY; max_parents := 0;
       file_num_commits := n; parent_counts := ∅ |} s;
  Ok ({| max_generation := max_generation stats;
         min_generation := if min_generation stats =? GENERATION_NUMBER_INFINITY then 0 else min_generation stats;
         max_parents := max_parents stats; file_num_commits := file_num_commits stats;
         parent_counts := parent_counts stats |}, s).

(** [for parent_pos in commit.iter_parents()] *)
Fixpoint parent_generations (g : Graph) (items : list item) (max_parent : Z) (uncomputed : bool)
    : outcome cg_error (Z * bool) :=
  match items with
  | [] => Ok (max_parent, uncomputed)
  | inl e :: _ => Err e
  | inr pos :: items =>
      parent ← graph_commit_at g pos;
      parent_generations g items (Z.max max_parent (generation parent))
        (uncomputed || (generation parent =? 0))
  end.
Definition verify_commit (g : Graph) (st : gset bytes * S) (c : Commit) : outcome cg_error (gset bytes * S) :=
  let '(seen_ids, s) := st in
  id ← commit_id c;
  _ ← ensure (negb (bool_decide (id ∈ seen_ids))) (DuplicateCommit id);
  items ← iter_parents c;
  '(max_parent_generation, has_uncomputed_parent_generation) ← parent_generations g items 0 false;
  _ ← ensure (negb ((generation c =? 0) || has_uncomputed_parent_generation)) (UncomputedGeneration id);
  next ← op_add 32 max_parent_generation 1;
  let expected_generation := Z.min next GENERATION_NUMBER_MAX in
  _ ← ensure (generation c =? expected_generation) (WrongGeneration id expected_generation (generation c));
  s ← processor s c;
  Ok ({[id]} ∪ seen_ids, s).

(** The base graphs that a file names are the files before it. *)
Fixpoint check_base_graphs (before : list File) (ids : list bytes) (index : Z) : outcome cg_error () :=
  match before, ids with
  | f :: before, actual :: ids =>
      expected ← checksum f;
      _ ← ensure (bytes_eqb actual expected) (WrongBaseGraph index);
      check_base_graphs before ids (index + 1)
  | _, _ => Ok tt
  end.
Fixpoint verify_files (g : Graph) (before fs : list File) (max_gen : Z) (stats : Outcome) (st : gset bytes * S)
    : outcome cg_error (Z * Outcome * (gset bytes * S)) :=
  match fs with
  | [] => Ok (max_gen, stats, st)
  | f :: fs =>
      _ ← ensure (base_graph_count f =? zlen before) (WrongBaseGraphCount (zlen before) (base_graph_count f));
      ids ← iter_base_graph_ids f;
      _ ← check_base_graphs before ids 0;
      '(file_stats, st) ← traverse (verify_commit g) f st;
      num ← op_add 32 (out_num_commits stats) (file_num_commits file_stats);
      verify_files g (before ++ [f]) fs (Z.max max_gen (max_generation file_stats))
        {| longest_path_length := None; out_num_commits := num;
           out_parent_counts := map_fold (λ k v m, add_count m k v) (out_parent_counts stats)
                                  (parent_counts file_stats) |} st
  end.
Definition verify_integrity (g : Graph) (s : S) : outcome cg_error (Outcome * S) :=
  '(max_gen, stats, (_, s)) ←
    verify_files g [] (files g) 0
      {| longest_path_length := None; out_num_commits := 0; out_parent_counts := ∅ |} (∅, s);
  Ok ({| longest_path_length := if max_gen <? GENERATION_NUMBER_MAX then Some (Z.max 0 (max_gen - 1)) else None;
         out_num_commits := out_num_commits stats; out_parent_counts := out_parent_counts stats |}, s).
End Verify.

(** ** The invariant of an opened file *)
Definition u32_at (d : bytes) (o : Z) : Z := from_be (take 4 (drop (Z.to_nat o) d)).

(** The ends of the Bloom filters, and the references to the overflow chunk. *)
Definition bloom_ok (f : File) (n : Z) : Prop := ∀ ir dr,
  bloom_filter_index_range f = Some ir → bloom_filter_data_range f = Some dr →
  0 ≤ ir.1 ∧ ir.1 + n * 4 ≤ zlen (data f) ∧ 0 ≤ dr.1 ∧ dr.2 ≤ zlen (data f) ∧
  ∀ i, 0 ≤ i < n → 0 ≤ u32_at (data f) (ir.1 + i * 4) ≤ dr.2 - dr.1 - 12 ∧
    (0 < i → u32_at (data f) (ir.1 + (i - 1) * 4) ≤ u32_at (data f) (ir.1 + i * 4)).
Definition generation_ok (f : File) (n : Z) : Prop := ∀ r,
  generation_data_range f = Some r →
  0 ≤ r.1 ∧ r.1 + n * 4 ≤ zlen (data f) ∧
  ∀ i, 0 ≤ i < n → Z.land (u32_at (data f) (r.1 + i * 4)) GENERATION_DATA_OVERFLOW_MASK ≠ 0 →
    ∃ o, generation_data_overflow_range f = Some o ∧ 0 ≤ o.1 ∧
      o.1 + (without_high_bit (u32_at (data f) (r.1 + i * 4)) + 1) * 8 ≤ zlen (data f).

Record file_ok (f : File) (n : Z) : Prop := {
  fo_bytes : bytes_ok (data f);
  fo_len : zlen (data f) < 2 ^ 64;
  fo_hash : hash_len f = len_in_bytes (object_hash f);
  fo_trailer : hash_len f ≤ zlen (data f);
  fo_fan_len : zlen (fan f) = 256;
  fo_fan_mono : ∀ i j x y, 0 ≤ i ≤ j → get (fan f) i = Some x → get (fan f) j = Some y → x ≤ y;
  fo_fan_range : Forall (λ x, 0 ≤ x < 2 ^ 32) (fan f);
  fo_num : get (fan f) 255 = Some n;
  fo_max : 0 ≤ n ≤ MAX_COMMITS;
  fo_ids : 0 ≤ oid_lookup_offset f ∧ oid_lookup_offset f + n * hash_len f ≤ zlen (data f);
  fo_commits : 0 ≤ commit_data_offset f ∧ commit_data_offset f + n * (hash_len f + 16) ≤ zlen (data f);
  fo_base : 0 ≤ base_graph_count f ∧ 0 ≤ default 0 (base_graphs_list_offset f) ∧
    default 0 (base_graphs_list_offset f) + hash_len f * base_graph_count f ≤ zlen (data f);
  fo_edges : ∀ r, extra_edges_list_range f = Some r → 0 ≤ r.1 ≤ r.2 ∧ r.2 ≤ zlen (data f);
  fo_bloom : bloom_ok f n;
  fo_generation : generation_ok f n;
}.

(** ** Lemmas: opening a file *)
Lemma optional_chunk_ok {T} idx k (validate : Z * Z → outcome cg_error T) P len :
  chunks_ok len (chunks idx) → len < 2 ^ 64 →
  (∀ r, 0 ≤ r.1 < r.2 → r.2 ≤ len → safe (validate r) P) →
  safe (optional_chunk idx k validate) (λ o, ∀ x, o = Some x → P x).
Proof.
  intros Hok Hlen Hv. unfold optional_chunk. pose proof (validated_offset_ok idx k validate len Hok Hlen) as H.
  destruct (validated_usize_offset_by_id idx k validate) as [m| |]; [|done|done].
  destruct H as (r & -> & Hr1 & Hr2). specialize (Hv r Hr1 Hr2). destruct (validate r); [|done|done].
  cbn. intros x [= <-]. done.
Qed.
Lemma required_chunk_ok {T} idx k (validate : Z * Z → outcome cg_error T) P len :
  chunks_ok len (chunks idx) → len < 2 ^ 64 →
  (∀ r, 0 ≤ r.1 < r.2 → r.2 ≤ len → safe (validate r) P) → safe (required_chunk idx k validate) P.
Proof.
  intros Hok Hlen Hv. unfold required_chunk. pose proof (validated_offset_ok idx k validate len Hok Hlen) as H.
  destruct (validated_usize_offset_by_id idx k validate) as [m| |]; [|done|done].
  destruct H as (r & -> & Hr1 & Hr2). by apply Hv.
Qed.

Lemma validate_base_graphs_ok hl count len r :
  0 < hl → 0 ≤ r.1 < r.2 → r.2 ≤ len →
  safe (validate_base_graphs hl count r) (λ o, 0 ≤ o ∧ o + hl * count ≤ len).
Proof.
  intros Hhl Hr Hlen. unfold validate_base_graphs, range_len. apply safe_ensure. intros Hm%Z.eqb_eq.
  apply safe_ensure. intros <-%Z.eqb_eq. cbn [safe].
  pose proof (Z.div_mod (r.2 - r.1) hl ltac:(lia)). lia.
Qed.
Lemma validate_table_ok k size len r :
  0 < size → 0 ≤ r.1 < r.2 → r.2 ≤ len →
  safe (validate_table k size r) (λ '(o, count), 0 ≤ o ∧ o + count * size ≤ len ∧ 0 ≤ count ≤ MAX_COMMITS).
Proof.
  intros Hs Hr Hlen. unfold validate_table, range_len. apply safe_ensure. intros Hm%Z.eqb_eq.
  unfold commit_count. destruct (Z.ltb_spec MAX_COMMITS ((r.2 - r.1) / size)); [done|]. cbn [mbind outcome_bind safe].
  pose proof (Z.div_mod (r.2 - r.1) size ltac:(lia)). pose proof (Z.div_pos (r.2 - r.1) size). nia.
Qed.
Lemma validate_fan_chunk_ok len r :
  0 ≤ r.1 < r.2 → r.2 ≤ len → safe (validate_fan_chunk r) (λ o, 0 ≤ o ∧ o + 1024 ≤ len).
Proof.
  intros Hr Hlen. unfold validate_fan_chunk, range_len, FAN_LEN. apply safe_ensure. intros Hm%Z.eqb_eq. cbn [safe]. lia.
Qed.
Lemma validate_multiple_ok k n len r :
  0 ≤ r.1 < r.2 → r.2 ≤ len →
  safe (validate_multiple k n r) (λ r, 0 ≤ r.1 < r.2 ∧ r.2 ≤ len ∧ range_len r mod n = 0).
Proof. intros Hr Hlen. unfold validate_multiple. apply safe_ensure. intros Hm%Z.eqb_eq. by cbn [safe]. Qed.
Lemma validate_per_commit_ok k count len r :
  0 ≤ r.1 < r.2 → r.2 ≤ len →
  safe (validate_per_commit k count r) (λ r, 0 ≤ r.1 < r.2 ∧ r.2 ≤ len ∧ r.2 - r.1 = count * 4).
Proof.
  intros Hr Hlen. unfold validate_per_commit, range_len. apply safe_ok_or. intros x Hx.
  apply checked_Some in Hx as [<- _]. apply safe_ensure. intros Hm%Z.eqb_eq. cbn [safe]. lia.
Qed.
Lemma validate_bloom_data_ok len r :
  0 ≤ r.1 < r.2 → r.2 ≤ len → safe (validate_bloom_data r) (λ r, 0 ≤ r.1 ∧ r.1 + 12 ≤ r.2 ≤ len).
Proof.
  intros Hr Hlen. unfold validate_bloom_data, range_len. apply safe_ensure.
  intros Hm%negb_true_iff%Z.ltb_ge. cbn [safe]. lia.
Qed.

(** The 32-bit numbers of a chunk, one for every commit. *)
Lemma u32_table {E} (d : bytes) start n :
  bytes_ok d → 0 ≤ start → 0 ≤ n → start + n * 4 ≤ zlen d →
  ∃ s l, get_range d start (start + n * 4) = Some s ∧ mapM (read_u32 (E := E)) (Prelude.chunks 4 s) = Ok l ∧
    zlen l = n ∧ Forall (λ x, 0 ≤ x < 2 ^ 32) l ∧
    ∀ i, 0 ≤ i < n → get l i = Some (u32_at d (start + i * 4)).
Proof.
  intros Hb Hs Hn Hd. rewrite get_range_in by lia.
  set (s := take _ _). exists s, (from_be <$> Prelude.chunks 4 s). split; [done|]. assert (Hsl : length s = (4 * Z.to_nat n)%nat).
  { subst s. unfold zlen in Hd. rewrite length_take, length_drop. lia. }
  split; [apply mapM_read_u32; intros c Hc; by apply (chunk_zlen 4) in Hc|]. split; [|split].
  - unfold zlen. rewrite length_fmap, length_chunks, Hsl. rewrite Nat.mul_comm, Nat.div_mul by lia. lia.
  - apply chunks4_u32. subst s. auto with gix.
  - intros i Hi. unfold get. destruct (Z.leb_spec 0 i); [|lia]. rewrite list_lookup_fmap.
    rewrite lookup_chunks by lia. cbn [fmap option_fmap option_map]. f_equal. unfold u32_at. f_equal. subst s.
    rewrite drop_take_drop by lia. do 2 f_equal. lia.
Qed.

Lemma check_bloom_ends_ok ends : ∀ prev len,
  safe (check_bloom_ends ends prev len)
    (λ _, (∀ i x, ends !! i = Some x → prev ≤ x ≤ len) ∧
          ∀ i x y, ends !! i = Some x → ends !! S i = Some y → x ≤ y).
Proof.
  induction ends as [|e ends IH]; intros prev len; cbn [check_bloom_ends]; [done|].
  destruct (Z.ltb_spec e prev); [done|]. destruct (Z.ltb_spec len e); [done|].
  apply (safe_impl _ _ _ (IH e len)). intros _ [H1 H2]. split.
  - intros [|i] x Hx; [injection Hx as <-; lia|]. specialize (H1 i x Hx). lia.
  - intros [|i] x y Hx Hy; [|by apply (H2 i)]. injection Hx as <-. specialize (H1 0%nat y Hy). lia.
Qed.
Lemma check_overflow_indices_ok offsets entries :
  safe (check_overflow_indices offsets entries)
    (λ _, ∀ i x, offsets !! i = Some x → Z.land x GENERATION_DATA_OVERFLOW_MASK ≠ 0 → without_high_bit x < entries).
Proof.
  induction offsets as [|o offsets IH]; cbn [check_overflow_indices]; [done|].
  destruct (Z.eqb_spec (Z.land o GENERATION_DATA_OVERFLOW_MASK) 0) as [Ho|Ho]; cbn [negb].
  - apply (safe_impl _ _ _ IH). intros _ H [|i] x Hx Hm; [injection Hx as <-; done|by apply (H i)].
  - destruct (Z.leb_spec entries (without_high_bit o)); [done|].
    apply (safe_impl _ _ _ IH). intros _ H' [|i] x Hx Hm; [injection Hx as <-; lia|by apply (H' i)].
Qed.

Lemma read_u32_slice {E} (d : bytes) i j :
  0 ≤ i → j = i + 4 → j ≤ zlen d →
  (b ← expect (get_range d i j); read_u32 b) = Ok (E := E) (u32_at d i).
Proof.
  intros Hi -> Hj. rewrite get_range_in by lia. cbn [expect mbind outcome_bind].
  replace (Z.to_nat (i + 4 - i)) with 4%nat by lia. rewrite read_u32_ok; [done|].
  unfold zlen in *. rewrite length_take, length_drop. lia.
Qed.
Lemma read_u32_at {E} (d : bytes) i :
  0 ≤ i → i + 4 ≤ zlen d → (b ← slice_at d i 4; read_u32 b) = Ok (E := E) (u32_at d i).
Proof.
  intros Hi Hj. rewrite slice_at_in by lia. cbn [mbind outcome_bind]. change (Z.to_nat 4) with 4%nat.
  rewrite read_u32_ok; [done|]. unfold zlen in *. rewrite length_take, length_drop. lia.
Qed.
Lemma read_u64_at {E} (d : bytes) i :
  0 ≤ i → i + 8 ≤ zlen d → ∃ v, (b ← slice_at d i 8; read_u64 b) = Ok (E := E) v.
Proof.
  intros Hi Hj. rewrite slice_at_in by lia. cbn [mbind outcome_bind]. eexists. apply read_u64_ok.
  unfold zlen in *. rewrite length_take, length_drop. lia.
Qed.

Lemma read_bloom_settings_ok d n index_range data_range :
  bytes_ok d → 0 ≤ n → zlen d < 2 ^ 64 →
  (∀ r, index_range = Some r → 0 ≤ r.1 < r.2 ∧ r.2 ≤ zlen d ∧ r.2 - r.1 = n * 4) →
  (∀ r, data_range = Some r → 0 ≤ r.1 ∧ r.1 + 12 ≤ r.2 ≤ zlen d) →
  safe (read_bloom_settings d index_range data_range) (λ s, ∀ ir dr, s ≠ None → index_range = Some ir →
    data_range = Some dr →
    0 ≤ ir.1 ∧ ir.1 + n * 4 ≤ zlen d ∧ 0 ≤ dr.1 ∧ dr.2 ≤ zlen d ∧
    ∀ i, 0 ≤ i < n → 0 ≤ u32_at d (ir.1 + i * 4) ≤ dr.2 - dr.1 - 12 ∧
      (0 < i → u32_at d (ir.1 + (i - 1) * 4) ≤ u32_at d (ir.1 + i * 4))).
Proof.
  intros Hb Hn Hlen Hi Hd. unfold read_bloom_settings.
  destruct index_range as [ir|], data_range as [dr|]; [|done..].
  specialize (Hi ir eq_refl). specialize (Hd dr eq_refl).
  eapply safe_expect; [apply get_range_in; lia|]. set (bd := take _ _).
  assert (Hbd : zlen bd = dr.2 - dr.1) by (subst bd; apply zlen_slice; lia). clearbody bd.
  do 3 (eapply safe_Ok; [apply read_u32_slice; lia|]). apply safe_ensure. intros _.
  eapply safe_Ok; [unfold op_sub; rewrite checked_sub_in by lia; done|].
  destruct (u32_table (E := cg_error) d ir.1 n Hb) as (s & l & Hs & Hl & Hll & Hlr & Hlg); [lia|lia|lia|].
  eapply safe_expect; [replace ir.2 with (ir.1 + n * 4) by lia; exact Hs|].
  eapply safe_Ok; [exact Hl|].
  eapply safe_bind; [apply check_bloom_ends_ok|]. intros [] [H1 H2]. cbn [safe].
  intros ir' dr' _ [= <-] [= <-]. split; [lia|]. split; [lia|]. split; [lia|]. split; [lia|].
  intros i Hin. pose proof (Hlg i Hin) as Hgi. apply get_Some in Hgi as [_ Hgi].
  split; [specialize (H1 _ _ Hgi); lia|]. intros Hi0.
  pose proof (Hlg (i - 1) ltac:(lia)) as Hgp. apply get_Some in Hgp as [_ Hgp].
  replace (Z.to_nat i) with (S (Z.to_nat (i - 1))) in Hgi by lia. by apply (H2 _ _ _ Hgp Hgi).
Qed.

Lemma without_high_bit_range x : 0 ≤ without_high_bit x < 2 ^ 31.
Proof. unfold without_high_bit. rewrite (land_low x 31) by (lia || done). apply Z.mod_pos_bound. lia. Qed.

Lemma check_generation_data_ok d n range overflow :
  bytes_ok d → 0 ≤ n →
  (∀ r, range = Some r → 0 ≤ r.1 < r.2 ∧ r.2 ≤ zlen d ∧ r.2 - r.1 = n * 4) →
  (∀ r, overflow = Some r → 0 ≤ r.1 < r.2 ∧ r.2 ≤ zlen d ∧ range_len r mod 8 = 0) →
  safe (check_generation_data d range overflow) (λ _, ∀ r, range = Some r →
    0 ≤ r.1 ∧ r.1 + n * 4 ≤ zlen d ∧
    ∀ i, 0 ≤ i < n → Z.land (u32_at d (r.1 + i * 4)) GENERATION_DATA_OVERFLOW_MASK ≠ 0 →
      ∃ o, overflow = Some o ∧ 0 ≤ o.1 ∧ o.1 + (without_high_bit (u32_at d (r.1 + i * 4)) + 1) * 8 ≤ zlen d).
Proof.
  intros Hb Hn Hr Ho. unfold check_generation_data. apply safe_ensure. intros _.
  destruct range as [r|]; [|done]. specialize (Hr r eq_refl).
  destruct (u32_table (E := cg_error) d r.1 n Hb) as (s & l & Hs & Hl & Hll & Hlr & Hlg); [lia|lia|lia|].
  eapply safe_expect; [replace r.2 with (r.1 + n * 4) by lia; exact Hs|].
  eapply safe_Ok; [exact Hl|]. eapply safe_impl; [apply check_overflow_indices_ok|].
  cbn beta. intros [] H r' [= <-]. split; [lia|]. split; [lia|]. intros i Hi Hm.
  pose proof (Hlg i Hi) as Hgi. apply get_Some in Hgi as [_ Hgi]. specialize (H _ _ Hgi Hm).
  pose proof (without_high_bit_range (u32_at d (r.1 + i * 4))) as Hw.
  destruct overflow as [o|]; cbn [default fmap option_fmap option_map from_option] in H; [|cbn in H; lia].
  specialize (Ho o eq_refl). exists o. split; [done|]. split; [lia|].
  cbn in H. unfold range_len in *. pose proof (Z.div_mod (o.2 - o.1) 8 ltac:(lia)). lia.
Qed.

(** The fan of a file. *)
Lemma read_fan_ok {E} (d : bytes) :
  bytes_ok d → 1024 ≤ zlen d →
  ∃ fan n, read_fan (E := E) d = Ok (fan, 1024) ∧ zlen fan = 256 ∧ Forall (λ x, 0 ≤ x < 2 ^ 32) fan ∧
    get fan 255 = Some n ∧
    (fan_is_monotonically_increasing fan = true →
       ∀ i j x y, 0 ≤ i ≤ j → get fan i = Some x → get fan j = Some y → x ≤ y).
Proof.
  intros Hb Hd. rewrite read_fan_eq by done. set (l := from_be <$> _).
  pose proof (fan_length d Hd) as Hl. fold l in Hl. destruct (get_in l 255) as (n & Hn & _); [lia|].
  exists l, n. split; [done|]. split; [done|]. split; [|split; [done|]].
  - subst l. rewrite fmap_take. by apply Forall_take, chunks4_u32.
  - intros Hm i j x y Hij Hx Hy. apply get_Some in Hx as [_ Hx], Hy as [_ Hy].
    eapply mono_spec; [exact Hm| |exact Hx|exact Hy]. lia.
Qed.

Lemma new_ok bs p :
  bytes_ok bs → zlen bs < 2 ^ 64 →
  safe (new bs p) (λ f, (∃ n, file_ok f n) ∧ data f = bs).
Proof.
  intros Hb Hlen. unfold new. apply safe_ensure. intros Hmin%negb_true_iff%Z.ltb_ge.
  change MIN_FILE_SIZE with 1100 in Hmin.
  eapply safe_expect; [apply get_range_in; lia|]. apply safe_ensure. intros _.
  destruct (get_in bs 4) as (v & Hv & _); [lia|]. eapply safe_expect; [exact Hv|]. apply safe_ensure. intros _.
  destruct (get_in bs 5) as (h & Hh & _); [lia|]. eapply safe_expect; [exact Hh|].
  apply safe_ok_or. intros k _. pose proof (len_in_bytes_range k) as Hk. cbv zeta. set (hl := len_in_bytes k) in *.
  destruct (get_in bs 6) as (cc & Hcc & Hcc'); [lia|]. eapply safe_expect; [exact Hcc|].
  destruct (get_in bs 7) as (bc & Hbc & Hbc'); [lia|]. eapply safe_expect; [exact Hbc|].
  assert (is_byte cc ∧ is_byte bc) as [Hcb Hbb].
  { pose proof Hb as Hb'. unfold bytes_ok in Hb'. rewrite Forall_lookup in Hb'. split; eapply Hb'; eauto. }
  unfold is_byte in Hcb, Hbb.
  eapply safe_bind; [apply safe_map_err, (from_bytes_ok bs HEADER_LEN cc Hb); [change HEADER_LEN with 8; lia|lia]|].
  intros idx (Hok & Hnum & Hpos).
  eapply safe_bind; [eapply (optional_chunk_ok idx _ _ _ _ Hok Hlen); intros r ? ?;
    apply (validate_base_graphs_ok hl bc (zlen bs)); lia|]. intros base Hbase.
  eapply safe_bind; [eapply (required_chunk_ok idx _ _ _ _ Hok Hlen); intros r ? ?;
    apply (validate_table_ok _ _ (zlen bs)); unfold COMMIT_DATA_ENTRY_SIZE_SANS_HASH; lia|].
  intros [cofs ccount] (Hc1 & Hc2 & Hc3). unfold COMMIT_DATA_ENTRY_SIZE_SANS_HASH in Hc2.
  eapply safe_bind; [eapply (required_chunk_ok idx _ _ _ _ Hok Hlen); intros r ? ?;
    by apply (validate_fan_chunk_ok (zlen bs))|]. intros fofs (Hf1 & Hf2).
  eapply safe_bind; [eapply (required_chunk_ok idx _ _ _ _ Hok Hlen); intros r ? ?;
    apply (validate_table_ok _ _ (zlen bs)); lia|]. intros [lofs lcount] (Hl1 & Hl2 & Hl3).
  eapply safe_bind; [eapply (optional_chunk_ok idx _ _ _ _ Hok Hlen); intros r ? ?;
    by apply (validate_multiple_ok _ 4 (zlen bs))|]. intros edges Hedges.
  eapply safe_bind; [eapply (optional_chunk_ok idx _ _ _ _ Hok Hlen); intros r ? ?;
    by apply (validate_per_commit_ok _ ccount (zlen bs))|]. intros bidx Hbidx.
  eapply safe_bind; [eapply (optional_chunk_ok idx _ _ _ _ Hok Hlen); intros r ? ?;
    by apply (validate_bloom_data_ok (zlen bs))|]. intros bdat Hbdat.
  eapply safe_bind; [apply (read_bloom_settings_ok bs ccount); [done|lia|done|done|done]|]. intros set Hset.
  eapply safe_bind; [eapply (optional_chunk_ok idx _ _ _ _ Hok Hlen); intros r ? ?;
    by apply (validate_per_commit_ok _ ccount (zlen bs))|]. intros gen Hgen.
  eapply safe_bind; [eapply (optional_chunk_ok idx _ _ _ _ Hok Hlen); intros r ? ?;
    by apply (validate_multiple_ok _ 8 (zlen bs))|]. intros over Hover.
  eapply safe_bind; [apply (check_generation_data_ok bs ccount); [done|lia|done|done]|]. intros [] Hgok.
  destruct (highest_offset_ok idx (zlen bs) Hok) as (hi & Hhi & Hhir); [lia|].
  eapply safe_Ok; [by rewrite Hhi|]. eapply safe_expect; [apply get_from_in; lia|].
  apply safe_ensure. intros Htr%Z.eqb_eq. apply safe_ensure. intros Hbm%negb_true_iff.
  eapply safe_expect; [apply get_from_in; lia|].
  destruct (read_fan_ok (E := cg_error) (drop (Z.to_nat fofs) bs)) as (fn & n & Hfan & Hfl & Hfr & Hfn & Hfm);
    [by apply Forall_drop|unfold zlen in *; rewrite length_drop; lia|].
  eapply safe_Ok; [exact Hfan|]. apply safe_ensure. intros Hmono. specialize (Hfm Hmono).
  eapply safe_expect; [exact Hfn|]. apply safe_ensure. intros ->%Z.eqb_eq.
  apply safe_ensure. intros ->%Z.eqb_eq. cbn [safe]. split; [|done]. exists n.
  split; try done.
  - cbn [hash_len data]. fold hl. lia.
  - cbn [base_graph_count base_graphs_list_offset data hash_len]. fold hl. split; [lia|].
    destruct base as [o|]; cbn [default from_option id]; [by apply Hbase|].
    rewrite andb_false_iff in Hbm. destruct Hbm as [Hbm%Z.ltb_ge|Hbm]; [|done].
    assert (bc = 0) as -> by lia. lia.
  - intros r Hr. destruct (Hedges r Hr) as (? & ? & _). cbn [data]. lia.
  - intros ir dr Hir Hdr. cbn [bloom_filter_index_range bloom_filter_data_range] in Hir, Hdr.
    destruct set; [|done]. cbn in Hir, Hdr. by apply Hset.
Qed.

(** ** Lemmas: access to an opened file *)
Definition id_of (f : File) (pos : Z) : bytes :=
  take (Z.to_nat (hash_len f)) (drop (Z.to_nat (oid_lookup_offset f + pos * hash_len f)) (data f)).
Definition commit_start (f : File) (pos : Z) : Z := commit_data_offset f + pos * (hash_len f + 16).
Definition commit_of (f : File) (pos : Z) : Commit :=
  let start := commit_start f pos in
  {| file := f; commit_pos := pos;
     root_tree_id := take (Z.to_nat (hash_len f)) (drop (Z.to_nat start) (data f));
     parent1 := edge_from_raw (u32_at (data f) (start + hash_len f));
     parent2 := edge_from_raw (u32_at (data f) (start + hash_len f + 4));
     generation := Z.shiftr (u32_at (data f) (start + hash_len f + 8)) 2;
     commit_timestamp := Z.land (from_be (take 8 (drop (Z.to_nat (start + hash_len f + 8)) (data f)))) 0x3ffffffff |}.

Lemma u32_at_slice (d : bytes) a m o :
  0 ≤ a → 0 ≤ o → o + 4 ≤ Z.of_nat m → u32_at (take m (drop (Z.to_nat a) d)) o = u32_at d (a + o).
Proof.
  intros Ha Ho Hm. unfold u32_at. rewrite drop_take_drop by lia. do 3 f_equal. lia.
Qed.

Section OpenedFile.
Context (f : File) (n : Z) (Hf : file_ok f n).

Lemma file_hash_len : 20 ≤ hash_len f ≤ 32.
Proof using Hf. rewrite (fo_hash f n Hf). apply len_in_bytes_range. Qed.
Lemma num_commits_ok {E} : num_commits (E := E) f = Ok n.
Proof using Hf. unfold num_commits. by rewrite (fo_num f n Hf). Qed.
Lemma check_pos_ok {E} pos : pos < n → check_pos (E := E) f pos = Ok tt.
Proof using Hf.
  intros Hp. unfold check_pos. rewrite num_commits_ok. cbn [mbind outcome_bind].
  by rewrite (proj2 (Z.ltb_lt _ _) Hp).
Qed.
Lemma id_at_ok {E} pos : 0 ≤ pos < n → id_at (E := E) f pos = Ok (id_of f pos).
Proof using Hf.
  intros Hp. unfold id_at. rewrite check_pos_ok by lia. cbn [mbind outcome_bind].
  pose proof file_hash_len. pose proof (fo_ids f n Hf). rewrite slice_at_in; [done|nia..].
Qed.
Lemma id_of_ok pos : 0 ≤ pos < n → zlen (id_of f pos) = hash_len f ∧ bytes_ok (id_of f pos).
Proof using Hf.
  intros Hp. pose proof file_hash_len. pose proof (fo_ids f n Hf). pose proof (fo_bytes f n Hf). split.
  - unfold id_of. apply zlen_slice; nia.
  - unfold id_of. auto with gix.
Qed.

Lemma commit_at_ok {E} pos : 0 ≤ pos < n → commit_at (E := E) f pos = Ok (commit_of f pos).
Proof using Hf.
  intros Hp. pose proof file_hash_len as Hh. pose proof (fo_commits f n Hf) as Hc.
  unfold commit_at, commit_new, commit_data_bytes. rewrite check_pos_ok by lia. cbn [mbind outcome_bind].
  unfold COMMIT_DATA_ENTRY_SIZE_SANS_HASH. fold (commit_start f pos).
  assert (Hs : 0 ≤ commit_start f pos ∧ commit_start f pos + (hash_len f + 16) ≤ zlen (data f))
    by (unfold commit_start; nia).
  rewrite slice_at_in by lia. cbn [mbind outcome_bind]. set (b := take _ _).
  assert (Hb : zlen b = hash_len f + 16) by (subst b; apply zlen_slice; lia).
  rewrite get_range_in by lia. cbn [expect mbind outcome_bind].
  rewrite !read_u32_at by lia. cbn [mbind outcome_bind]. rewrite slice_at_in by lia. cbn [mbind outcome_bind].
  rewrite read_u64_ok by (apply zlen_slice; lia). cbn [mbind outcome_bind].
  unfold commit_of. subst b. rewrite !u32_at_slice by lia. rewrite !Z.add_assoc.
  rewrite drop_take_drop by lia. change (drop (Z.to_nat 0) ?l) with l. rewrite take_take.
  replace (Z.to_nat (commit_start f pos) + Z.to_nat (hash_len f + 8))%nat
    with (Z.to_nat (commit_start f pos + hash_len f + 8)) by lia.
  replace (Z.to_nat (hash_len f - 0) `min` Z.to_nat (hash_len f + 16))%nat with (Z.to_nat (hash_len f)) by lia.
  done.
Qed.

Lemma bloom_filter_at_ok {E} pos : 0 ≤ pos < n → ∃ r, bloom_filter_at (E := E) f pos = Ok r.
Proof using Hf.
  intros Hp. unfold bloom_filter_at. rewrite check_pos_ok by lia. cbn [mbind outcome_bind].
  destruct (bloom_filter_index_range f) as [ir|] eqn:Ei; [|by eexists].
  destruct (bloom_filter_data_range f) as [dr|] eqn:Ed; [|by eexists].
  destruct (bloom_filter_settings f); [|by eexists].
  destruct (fo_bloom f n Hf ir dr Ei Ed) as (Hi1 & Hi2 & Hd1 & Hd2 & Hends).
  rewrite (read_u32_at _ (ir.1 + pos * 4)) by lia. cbn [mbind outcome_bind].
  destruct (Hends pos Hp) as [Hr Hmono].
  destruct (Z.eqb_spec pos 0) as [->|Hne].
  - cbn [mbind outcome_bind]. rewrite get_range_in by lia. by eexists.
  - rewrite read_u32_at by lia. cbn [mbind outcome_bind]. specialize (Hmono ltac:(lia)).
    destruct (Hends (pos - 1) ltac:(lia)) as [Hr' _]. rewrite get_range_in by lia. by eexists.
Qed.
Lemma corrected_date_ok {E} pos : 0 ≤ pos < n → ∃ r, corrected_commit_date_offset (E := E) f pos = Ok r.
Proof using Hf.
  intros Hp. unfold corrected_commit_date_offset. rewrite check_pos_ok by lia. cbn [mbind outcome_bind].
  destruct (generation_data_range f) as [r|] eqn:Eg; [|by eexists].
  destruct (fo_generation f n Hf r Eg) as (Hr1 & Hr2 & Hover).
  rewrite read_u32_at by lia. cbn [mbind outcome_bind].
  destruct (Z.eqb_spec (Z.land (u32_at (data f) (r.1 + pos * 4)) GENERATION_DATA_OVERFLOW_MASK) 0) as [|Hne];
    [by eexists|].
  destruct (Hover pos Hp Hne) as (o & -> & Ho1 & Ho2). cbn [expect mbind outcome_bind].
  pose proof (without_high_bit_range (u32_at (data f) (r.1 + pos * 4))).
  destruct (read_u64_at (E := E) (data f) (o.1 + without_high_bit (u32_at (data f) (r.1 + pos * 4)) * 8))
    as [v ->]; [lia|lia|]. by eexists.
Qed.
Lemma base_graph_ids_ok {E} : ∃ ids, iter_base_graph_ids (E := E) f = Ok ids.
Proof using Hf.
  pose proof (fo_base f n Hf) as (H1 & H2 & H3). pose proof file_hash_len. unfold iter_base_graph_ids.
  rewrite slice_at_in by nia. by eexists.
Qed.
Lemma checksum_ok {E} : ∃ sum, checksum (E := E) f = Ok sum.
Proof using Hf.
  pose proof (fo_trailer f n Hf). pose proof file_hash_len. pose proof (fo_len f n Hf). unfold checksum, op_sub.
  rewrite checked_sub_in by lia. cbn [expect mbind outcome_bind]. rewrite get_from_in by lia. by eexists.
Qed.

Lemma graph_table_safe {E} : IdTableSafe (graph_table (E := E) f) (object_hash f).
Proof using Hf.
  assert (tab_num (graph_table (E := E) f) = n) as Hnum by (simpl; by rewrite (fo_num f n Hf)).
  pose proof (fo_max f n Hf) as Hmax. unfold MAX_COMMITS in Hmax.
  split; rewrite ?Hnum; cbn [tab_at tab_fan graph_table].
  - lia.
  - intros i Hi. exists (id_of f i). split; [by apply id_at_ok|]. rewrite <- (fo_hash f n Hf). by apply id_of_ok.
  - apply (fo_fan_len f n Hf).
  - apply (fo_fan_mono f n Hf).
  - apply (fo_fan_range f n Hf).
  - apply (fo_num f n Hf).
Qed.
Lemma file_lookup_ok {E} id :
  zlen id = hash_len f → bytes_ok id →
  ∃ r, file_lookup (E := E) f id = Ok r ∧
    match r with Some i => 0 ≤ i < n ∧ id_of f i = id | None => True end.
Proof using Hf.
  intros Hid Hb. rewrite (fo_hash f n Hf) in Hid.
  destruct (lookup_total (graph_table (E := E) f) (object_hash f) (Hsafe := graph_table_safe) id Hid Hb)
    as (r & Hr & Hres).
  exists r. split; [done|]. destruct r as [i|]; [|done]. cbn [tab_num tab_at graph_table] in Hres.
  rewrite (fo_num f n Hf) in Hres. destruct Hres as [Hi Hat]. split; [done|].
  rewrite id_at_ok in Hat by done. congruence.
Qed.

(** ** Lemmas: the parents of a commit *)

(** Positions below the limit, with at most one error, at the end. *)
Definition parents_shape (limit : Z) (items : list item) : Prop :=
  ∃ ps tl, items = (inr <$> ps) ++ tl ∧ Forall (λ p, 0 ≤ p < limit) ps ∧ (tl = [] ∨ ∃ e, tl = [inl e]).

Lemma parents_shape_cons limit p items :
  0 ≤ p < limit → parents_shape limit items → parents_shape limit (inr p :: items).
Proof.
  intros Hp (ps & tl & -> & Hps & Htl). exists (p :: ps), tl. split; [done|]. split; [by constructor|done].
Qed.

Context (c : Commit) (Hc : file c = f) (Hpos : 0 ≤ commit_pos c < n).
Definition edge_ok (e : ParentEdge) : Prop :=
  match e with GraphPosition p => 0 ≤ p | ExtraEdgeIndex i => 0 ≤ i < 2 ^ 31 | EdgeNone => True end.
Context (He1 : edge_ok (parent1 c)) (He2 : edge_ok (parent2 c)).

Lemma fail_with_ok {E} e : fail_with (E := E) c e = Ok (Some (inl (e (id_of f (commit_pos c))))).
Proof using Hf Hc Hpos. unfold fail_with, commit_id. rewrite Hc, id_at_ok by done. done. Qed.
Lemma check_limit_pos {E} p st : 0 ≤ p →
  (0 ≤ p < parent_position_limit f ∧ check_limit (E := E) c (Some (inr p)) st = Ok (Some (inr p), st)) ∨
  ∃ e, check_limit (E := E) c (Some (inr p)) st = Ok (Some (inl e), Exhausted).
Proof using Hf Hc Hpos.
  intros Hp. unfold check_limit. rewrite Hc. destruct (Z.leb_spec (parent_position_limit f) p).
  - right. rewrite fail_with_ok. cbn [mbind outcome_bind]. by eexists.
  - left. split; [lia|done].
Qed.

Definition chunks_ok4 (cs : list bytes) : Prop := Forall (λ b, zlen b = 4 ∧ bytes_ok b) cs.
(** How many calls of [next] a state needs at most. *)
Definition state_size (st : ParentIteratorState) : nat :=
  match st with
  | First => length (data f) + 4
  | Second => length (data f) + 3
  | Extra cs => length cs + 2
  | Exhausted => 1
  end.
Definition state_ok (st : ParentIteratorState) : Prop :=
  match st with Extra cs => chunks_ok4 cs | _ => True end.

(** One call: nothing more, an error with which it ends, or a position. *)
Definition step_ok {E} (size : nat) (m : outcome E (option item * ParentIteratorState)) : Prop :=
  ∃ i st, m = Ok (i, st) ∧
    match i with
    | None => True
    | Some (inl _) => st = Exhausted ∧ (1 < size)%nat
    | Some (inr p) => 0 ≤ p < parent_position_limit f ∧ state_ok st ∧ (state_size st < size)%nat
    end.

Lemma step_limit {E} p st size :
  0 ≤ p → state_ok st → (state_size st < size)%nat → (1 < size)%nat →
  step_ok (E := E) size (check_limit c (Some (inr p)) st).
Proof using Hf Hc Hpos.
  intros Hp Hst Hs H1. destruct (check_limit_pos (E := E) p st Hp) as [[Hl ->]|[e ->]]; by eexists _, _.
Qed.
Lemma step_fail {E} e size : (1 < size)%nat →
  step_ok (E := E) size (e ← fail_with c e; check_limit c e Exhausted).
Proof using Hf Hc Hpos. intros. rewrite fail_with_ok. cbn [mbind outcome_bind check_limit]. by eexists _, _. Qed.
Lemma step_end {E} size : step_ok (E := E) size (check_limit c None Exhausted).
Proof. by eexists _, _. Qed.

Lemma next_extra_ok {E} cs : chunks_ok4 cs → step_ok (E := E) (length cs + 2) (next_extra c cs).
Proof using Hf Hc Hpos.
  intros Hcs. unfold next_extra. destruct cs as [|b cs]; [apply step_fail; simpl; lia|].
  apply list.Forall_cons in Hcs as [[Hb Hbb] Hcs]. rewrite read_u32_ok by done. cbn [mbind outcome_bind].
  pose proof (from_be_u32 b Hbb Hb). unfold extra_from_raw. pose proof (without_high_bit_range (from_be b)).
  destruct (negb _); apply step_limit; try lia; try done; simpl; lia.
Qed.
Lemma extra_data_ok {E} : ∃ d, extra_edges_data (E := E) f = Ok d ∧
  ∀ l, d = Some l → bytes_ok l ∧ (length l ≤ length (data f))%nat.
Proof using Hf.
  unfold extra_edges_data. destruct (extra_edges_list_range f) as [r|] eqn:Er; [|by eexists].
  pose proof (fo_edges f n Hf r Er). rewrite get_range_in by lia. eexists. split; [done|].
  intros l [= <-]. pose proof (fo_bytes f n Hf). split; [auto with gix|]. rewrite length_take, length_drop. lia.
Qed.

Lemma parents_next_ok {E} st : state_ok st → step_ok (E := E) (state_size st) (parents_next c st).
Proof using Hf Hc Hpos He1 He2.
  intros Hst. destruct st as [| |cs|]; cbn [parents_next state_size].
  - destruct (parent1 c) as [|p|i].
    + destruct (parent2 c); [apply step_end|apply step_fail; lia..].
    + apply step_limit; [done|done|simpl; lia|lia].
    + apply step_fail. lia.
  - destruct (parent2 c) as [|p|i] eqn:Ep; [apply step_end|apply step_limit; [done|done|simpl; lia|lia]|].
    rewrite Hc. destruct (extra_data_ok (E := E)) as (d & -> & Hd). cbn [mbind outcome_bind].
    destruct d as [l|]; [|apply step_fail; lia]. destruct (Hd l eq_refl) as [Hbl Hll].
    cbn in He2. rewrite checked_mul_in by lia. cbn [mbind option_bind].
    destruct (get_from l (i * 4)) as [tl|] eqn:Et; [|apply step_fail; lia].
    apply get_range_Some in Et as (_ & _ & Hzl & Htl).
    assert (Hbt : bytes_ok tl) by (rewrite Htl; auto with gix).
    assert (Hcs : chunks_ok4 (Prelude.chunks 4 tl)).
    { apply list.Forall_forall. intros b Hb. split; [by apply (chunk_zlen 4) in Hb|by eapply chunk_bytes_ok]. }
    assert (Hlen : (length (Prelude.chunks 4 tl) ≤ length (data f))%nat).
    { rewrite length_chunks. assert (length tl ≤ length l)%nat by (unfold zlen in *; lia).
      pose proof (Nat.Div0.div_le_upper_bound (length tl) 4 (length tl)). lia. }
    destruct (next_extra_ok (E := E) _ Hcs) as (it & st & -> & Hit). cbn [mbind outcome_bind].
    destruct it as [[e|p]|].
    + destruct Hit as [-> _]. eexists _, _. split; [done|]. split; [done|lia].
    + destruct Hit as (? & ? & ?). apply step_limit; [lia|done|lia|lia].
    + by eexists _, _.
  - by apply next_extra_ok.
  - apply step_end.
Qed.

Lemma parents_from_ok {E} fuel : ∀ st, state_ok st → (state_size st ≤ fuel)%nat →
  ∃ items, parents_from (E := E) fuel c st = Ok items ∧ parents_shape (parent_position_limit f) items ∧
    (st = Exhausted → items = []).
Proof using Hf Hc Hpos He1 He2.
  induction fuel as [|fuel IH]; intros st Hst Hs; [destruct st; simpl in Hs; lia|]. cbn [parents_from].
  destruct (parents_next_ok (E := E) st Hst) as (i & st' & Hn & Hi). rewrite Hn. cbn [mbind outcome_bind].
  destruct i as [[e|p]|].
  - destruct Hi as [-> Hsz]. destruct (IH Exhausted) as (items & -> & _ & Hnil); [done|simpl; lia|].
    rewrite Hnil by done. cbn [mbind outcome_bind]. eexists. split; [done|].
    split; [exists [], [inl e]; split; [done|]; split; [constructor|right; by exists e]|].
    intros ->. simpl in Hsz. lia.
  - destruct Hi as (Hp & Hst' & Hsz). destruct (IH st') as (items & -> & Hsh & _); [done|lia|].
    cbn [mbind outcome_bind]. eexists. split; [done|]. split; [by apply parents_shape_cons|].
    intros ->. destruct st'; simpl in Hsz; lia.
  - eexists. split; [done|]. split; [|done]. exists [], []. split; [done|]. split; [constructor|by left].
Qed.
Lemma iter_parents_ok {E} : ∃ items, iter_parents (E := E) c = Ok items ∧
  parents_shape (parent_position_limit f) items.
Proof using Hf Hc Hpos He1 He2.
  destruct (parents_from_ok (E := E) (parents_fuel c) First) as (items & H & Hs & _);
    [done|unfold parents_fuel; rewrite Hc; simpl; lia|]. by exists items.
Qed.
End OpenedFile.

Lemma edge_from_raw_ok x : 0 ≤ x < 2 ^ 32 → edge_ok (edge_from_raw x).
Proof.
  intros Hx. unfold edge_from_raw. destruct (x =? NO_PARENT); [done|].
  destruct (negb _); [apply without_high_bit_range|]. cbn. lia.
Qed.
Lemma u32_at_range d o : bytes_ok d → 0 ≤ o → o + 4 ≤ zlen d → 0 ≤ u32_at d o < 2 ^ 32.
Proof.
  intros Hb Ho Hl. apply from_be_u32; [auto with gix|]. change 4%nat with (Z.to_nat 4). apply zlen_slice; lia.
Qed.
(** Whatever the commits' own file says, their parents can be iterated over. *)
Lemma commit_parents_ok {E} f n pos :
  file_ok f n → 0 ≤ pos < n →
  ∃ items, iter_parents (E := E) (commit_of f pos) = Ok items ∧ parents_shape (parent_position_limit f) items.
Proof.
  intros Hf Hp. pose proof (file_hash_len f n Hf). pose proof (fo_commits f n Hf). pose proof (fo_bytes f n Hf).
  assert (0 ≤ commit_start f pos ∧ commit_start f pos + (hash_len f + 16) ≤ zlen (data f))
    by (unfold commit_start; nia).
  apply (iter_parents_ok f n Hf); [done|done| |]; apply edge_from_raw_ok, u32_at_range; lia || done.
Qed.
Lemma parents_shape_mono a b items : a ≤ b → parents_shape a items → parents_shape b items.
Proof.
  intros Hab (ps & tl & -> & Hps & Htl). exists ps, tl. split; [done|]. split; [|done].
  eapply Forall_impl; [|exact Hps]. intros p Hp. simpl in *. lia.
Qed.

(** ** Lemmas: a chain of files *)
Definition zsum (ns : list Z) : Z := foldr Z.add 0 ns.
Lemma zsum_take ns i : Forall (Z.le 0) ns → 0 ≤ zsum (take i ns) ≤ zsum ns.
Proof.
  intros H. revert i. induction H as [|n ns Hn Hns IH]; intros i; [destruct i; simpl; lia|].
  destruct i as [|i]; cbn [take zsum foldr].
  - specialize (IH 0%nat). rewrite take_0 in IH. cbn in *. unfold zsum in *. lia.
  - specialize (IH i). unfold zsum in *. lia.
Qed.
Lemma zsum_take_S ns i n : ns !! i = Some n → zsum (take (S i) ns) = zsum (take i ns) + n.
Proof.
  revert i. induction ns as [|m ns IH]; intros i Hi; [done|]. destruct i as [|i].
  - injection Hi as ->. cbn. rewrite take_0. cbn. lia.
  - change (zsum (take (S (S i)) (m :: ns))) with (m + zsum (take (S i) ns)).
    change (zsum (take (S i) (m :: ns))) with (m + zsum (take i ns)). rewrite (IH i) by done. lia.
Qed.

Record graph_ok (g : Graph) (k : Kind) (ns : list Z) : Prop := {
  go_files : Forall2 file_ok (files g) ns;
  go_hash : Forall (λ f, object_hash f = k) (files g);
  go_total : zsum ns ≤ MAX_COMMITS;
  go_limits : ∀ i f, files g !! i = Some f → parent_position_limit f = zsum (take (S i) ns);
}.
Lemma counts_nonneg fs ns : Forall2 file_ok fs ns → Forall (Z.le 0) ns.
Proof. induction 1 as [|f n fs ns Hf _ IH]; constructor; [|done]. pose proof (fo_max f n Hf). lia. Qed.

Lemma sum_commits_ok {E} fs ns : Forall2 file_ok fs ns → sum_commits (E := E) fs = Ok (zsum ns).
Proof.
  induction 1 as [|f n fs ns Hf _ IH]; [done|]. cbn [sum_commits]. rewrite (num_commits_ok f n Hf), IH. done.
Qed.
Lemma set_limit_ok f n limit : file_ok f n → file_ok (set_limit f limit) n.
Proof. intros []. by split. Qed.
Lemma set_limits_ok {E} fs ns limit :
  Forall2 file_ok fs ns → 0 ≤ limit → limit + zsum ns < 2 ^ 32 →
  ∃ fs', set_limits (E := E) fs limit = Ok fs' ∧ Forall2 file_ok fs' ns ∧
    (∀ k, Forall (λ f, object_hash f = k) fs → Forall (λ f, object_hash f = k) fs') ∧
    ∀ i f, fs' !! i = Some f → parent_position_limit f = limit + zsum (take (S i) ns).
Proof.
  intros H. revert limit. induction H as [|f n fs ns Hf Hfs IH]; intros limit Hl Hs; [by exists []|].
  cbn [set_limits]. rewrite (num_commits_ok f n Hf). cbn [mbind outcome_bind].
  pose proof (fo_max f n Hf) as Hn. pose proof (zsum_take ns 0 (counts_nonneg _ _ Hfs)) as Hpos.
  cbn [zsum foldr] in Hs. fold (zsum ns) in Hs. rewrite take_0 in Hpos. cbn in Hpos.
  unfold op_add. rewrite checked_add_in by lia. cbn [expect mbind outcome_bind].
  destruct (IH (limit + n)) as (fs' & -> & Hok & Hk & Hlim); [lia|lia|]. cbn [mbind outcome_bind].
  eexists. split; [done|]. split; [constructor; [by apply set_limit_ok|done]|]. split.
  - intros k [Hk1 Hk2]%list.Forall_cons. constructor; [done|by apply Hk].
  - intros [|i] g Hg.
    + injection Hg as <-. cbn. rewrite take_0. cbn. lia.
    + change (zsum (take (S (S i)) (n :: ns))) with (n + zsum (take (S i) ns)).
      rewrite (Hlim i g Hg). lia.
Qed.
Lemma same_hash_ok f1 fs : same_hash f1 fs = true → Forall (λ f, object_hash f = object_hash f1) fs.
Proof.
  revert f1. induction fs as [|f2 fs IH]; intros f1 H; [constructor|]. cbn [same_hash] in H.
  apply andb_true_iff in H as [H1%bool_decide_eq_true H2]. constructor; [done|]. rewrite H1. by apply IH.
Qed.
Lemma graph_new_ok fs ns : Forall2 file_ok fs ns → safe (graph_new fs) (λ g, ∃ k, graph_ok g k ns).
Proof.
  intros H. unfold graph_new. apply safe_ensure. intros _. destruct fs as [|f1 fs]; [done|].
  eapply safe_Ok; [by apply sum_commits_ok|]. apply safe_ensure. intros Hm%negb_true_iff%Z.ltb_ge.
  apply safe_ensure. intros Hsame%same_hash_ok.
  destruct (set_limits_ok (E := cg_error) (f1 :: fs) ns 0 H) as (fs' & Hfs' & Hok & Hk & Hl);
    [lia|unfold MAX_COMMITS in Hm; lia|].
  eapply safe_Ok; [exact Hfs'|]. cbn [safe]. exists (object_hash f1). split; [done| |done|].
  - cbn [files]. apply Hk. by constructor.
  - cbn [files]. intros i f Hf. by apply Hl.
Qed.

Lemma graph_num_ok {E} g k ns : graph_ok g k ns → graph_num_commits (E := E) g = Ok (zsum ns).
Proof.
  intros [H _ Ht _]. unfold graph_num_commits.
  assert (∀ acc, 0 ≤ acc → acc + zsum ns < 2 ^ 32 →
    foldl (λ acc f, acc ← acc; n ← num_commits f; op_add 32 acc n) (Ok (E := E) acc) (files g) = Ok (acc + zsum ns)) as Hg.
  { clear Ht. induction H as [|f n fs ns Hf Hfs IH]; intros acc Ha Hs; [cbn; do 2 f_equal; lia|].
    cbn [foldl mbind outcome_bind]. rewrite (num_commits_ok f n Hf). cbn [mbind outcome_bind].
    pose proof (fo_max f n Hf) as Hn. pose proof (zsum_take ns 0 (counts_nonneg _ _ Hfs)) as Hpos.
    cbn [zsum foldr] in Hs |- *. fold (zsum ns) in Hs |- *. rewrite take_0 in Hpos. cbn in Hpos.
    unfold op_add at 2. rewrite checked_add_in by lia. cbn [expect]. rewrite IH by lia. f_equal. lia. }
  rewrite Hg; [f_equal; lia|lia|unfold MAX_COMMITS in Ht; lia].
Qed.

(** Positions of the graph are positions of its files. *)
Lemma lookup_by_pos_at {E} fs ns i f n p :
  Forall2 file_ok fs ns → zsum ns < 2 ^ 32 → fs !! i = Some f → ns !! i = Some n → 0 ≤ p < n →
  lookup_by_pos (E := E) fs (zsum (take i ns) + p) = Ok (f, p).
Proof.
  intros H. revert i. induction H as [|f0 n0 fs ns Hf Hfs IH]; intros i Hs Hi Hn Hp; [done|].
  cbn [lookup_by_pos]. rewrite (num_commits_ok f0 n0 Hf). cbn [mbind outcome_bind].
  pose proof (fo_max f0 n0 Hf) as Hn0. cbn [zsum foldr] in Hs. fold (zsum ns) in Hs.
  pose proof (zsum_take ns 0 (counts_nonneg _ _ Hfs)) as Hpos. rewrite take_0 in Hpos. cbn in Hpos.
  destruct i as [|i]; simplify_eq/=.
  - rewrite Z.add_0_l. unfold checked_sub. rewrite checked_out by lia. done.
  - pose proof (zsum_take ns i (counts_nonneg _ _ Hfs)).
    fold (zsum (take i ns)). rewrite checked_sub_in.
    + replace (n0 + zsum (take i ns) + p - n0) with (zsum (take i ns) + p) by lia. by apply IH; [lia|..].
    + pose proof (zsum_take ns (S i) (counts_nonneg _ _ Hfs)) as H2. rewrite (zsum_take_S ns i n Hn) in H2. lia.
Qed.
Lemma split_pos fs ns pos :
  Forall2 file_ok fs ns → 0 ≤ pos < zsum ns →
  ∃ i f n p, fs !! i = Some f ∧ ns !! i = Some n ∧ file_ok f n ∧ 0 ≤ p < n ∧ pos = zsum (take i ns) + p.
Proof.
  intros H. revert pos. induction H as [|f n fs ns Hf Hfs IH]; intros pos Hp; [cbn in Hp; lia|].
  cbn [zsum foldr] in Hp. fold (zsum ns) in Hp. destruct (Z.lt_ge_cases pos n).
  - exists 0%nat, f, n, pos. split_and!; try done; cbn; lia.
  - destruct (IH (pos - n)) as (i & f' & n' & p & H1 & H2 & H3 & H4 & H5); [lia|].
    exists (S i), f', n', p. split_and!; try done; try lia.
    change (zsum (take (S i) (n :: ns))) with (n + zsum (take i ns)). lia.
Qed.
Lemma lookup_by_id_ok {E} fs ns k start id :
  Forall2 file_ok fs ns → Forall (λ f, object_hash f = k) fs → 0 ≤ start → start + zsum ns < 2 ^ 32 →
  zlen id = len_in_bytes k → bytes_ok id →
  ∃ r, lookup_by_id (E := E) fs start id = Ok r ∧
    match r with
    | None => True
    | Some (f, p, gp) => ∃ i n, fs !! i = Some f ∧ ns !! i = Some n ∧ 0 ≤ p < n ∧ id_of f p = id ∧
                           gp = start + zsum (take i ns) + p
    end.
Proof.
  intros H. revert start. induction H as [|f n fs ns Hf Hfs IH]; intros start Hk Hs Hsum Hid Hb; [by exists None|].
  apply list.Forall_cons in Hk as [Hk1 Hk]. cbn [lookup_by_id].
  pose proof (fo_max f n Hf) as Hn. cbn [zsum foldr] in Hsum. fold (zsum ns) in Hsum.
  pose proof (zsum_take ns 0 (counts_nonneg _ _ Hfs)) as Hpos. rewrite take_0 in Hpos. cbn in Hpos.
  destruct (file_lookup_ok (E := E) f n Hf id) as (r & -> & Hr);
    [rewrite (fo_hash f n Hf), Hk1; done|done|]. cbn [mbind outcome_bind].
  destruct r as [p|].
  - destruct Hr as [Hp Hidp]. unfold op_add. rewrite checked_add_in by lia. cbn [expect mbind outcome_bind].
    eexists. split; [done|]. exists 0%nat, n. split_and!; try done; cbn; lia.
  - rewrite (num_commits_ok f n Hf). cbn [mbind outcome_bind]. unfold op_add.
    rewrite checked_add_in by lia. cbn [expect mbind outcome_bind].
    destruct (IH (start + n)) as (r & -> & Hr'); [done|lia|lia|done|done|]. eexists. split; [done|].
    destruct r as [[[f' p] gp]|]; [|done]. destruct Hr' as (i & n' & H1 & H2 & H3 & H4 & ->).
    exists (S i), n'. split_and!; try done; try lia.
    change (zsum (take (S i) (n :: ns))) with (n + zsum (take i ns)). lia.
Qed.

(** The files of a chain, opened and assembled: [from_commit_graphs_dir] behind its I/O. *)
Definition open_graph (inputs : list (bytes * option bytes)) : outcome cg_error Graph :=
  fs ← mapM (λ '(b, p), new b p) inputs;
  graph_new fs.
Definition inputs_ok (inputs : list (bytes * option bytes)) : Prop :=
  Forall (λ '(b, _), bytes_ok b ∧ zlen b < 2 ^ 64) inputs.

Lemma open_files_ok inputs :
  inputs_ok inputs → safe (mapM (λ '(b, p), new b p) inputs) (λ fs, ∃ ns, Forall2 file_ok fs ns).
Proof.
  induction 1 as [|[b p] inputs [Hb Hl] _ IH]; [cbn; by exists []|]. cbn.
  eapply safe_bind; [by apply new_ok|]. intros f [[n Hn] _].
  eapply safe_bind; [exact IH|]. intros fs [ns Hns]. cbn. exists (n :: ns). by constructor.
Qed.
Lemma open_graph_ok inputs :
  inputs_ok inputs → safe (open_graph inputs) (λ g, ∃ k ns, graph_ok g k ns).
Proof.
  intros H. unfold open_graph. eapply safe_bind; [by apply open_files_ok|]. intros fs [ns Hns].
  eapply safe_impl; [by apply graph_new_ok|]. intros g [k Hg]. by exists k, ns.
Qed.

Section OpenedGraph.
Context (g : Graph) (k : Kind) (ns : list Z) (Hg : graph_ok g k ns).

Lemma total_u32 : zsum ns < 2 ^ 32.
Proof using Hg. pose proof (go_total g k ns Hg) as H. unfold MAX_COMMITS in H. lia. Qed.
Lemma file_at i f n : files g !! i = Some f → ns !! i = Some n → file_ok f n.
Proof using Hg. intros H1 H2. by eapply (Forall2_lookup_lr _ _ _ _ _ _ (go_files g k ns Hg)). Qed.

Lemma graph_file_pos {E} i f n p : files g !! i = Some f → ns !! i = Some n → 0 ≤ p < n →
  lookup_by_pos (E := E) (files g) (zsum (take i ns) + p) = Ok (f, p).
Proof using Hg.
  intros H1 H2 H3. eapply lookup_by_pos_at; [apply (go_files g k ns Hg)|apply total_u32|done|done|done].
Qed.

(** A commit of the graph is a commit of one of its files. *)
Lemma graph_pos pos : 0 ≤ pos < zsum ns → ∃ i f n p,
  files g !! i = Some f ∧ ns !! i = Some n ∧ file_ok f n ∧ 0 ≤ p < n ∧ pos = zsum (take i ns) + p ∧
  object_hash f = k ∧ parent_position_limit f ≤ zsum ns ∧
  (∀ E, graph_id_at (E := E) g pos = Ok (id_of f p)) ∧ (∀ E, graph_commit_at (E := E) g pos = Ok (commit_of f p)).
Proof using Hg.
  intros Hp. destruct (split_pos (files g) ns pos (go_files g k ns Hg) Hp) as (i & f & n & p & H1 & H2 & H3 & H4 & ->).
  exists i, f, n, p. split_and!; try done; try lia.
  - pose proof (go_hash g k ns Hg) as Hh. rewrite Forall_lookup in Hh. by apply (Hh i).
  - rewrite (go_limits g k ns Hg i f H1). apply zsum_take, (counts_nonneg _ _ (go_files g k ns Hg)).
  - intros E. unfold graph_id_at. rewrite (graph_file_pos i f n) by done.
    cbn [mbind outcome_bind]. by apply (id_at_ok f n).
  - intros E. unfold graph_commit_at. rewrite (graph_file_pos i f n) by done.
    cbn [mbind outcome_bind]. by apply (commit_at_ok f n).
Qed.

Lemma graph_lookup_ok {E} id : zlen id = len_in_bytes k → bytes_ok id →
  ∃ r, graph_lookup (E := E) g id = Ok r ∧ ∀ p, r = Some p → 0 ≤ p < zsum ns ∧ graph_id_at (E := E) g p = Ok id.
Proof using Hg.
  intros Hl Hb. unfold graph_lookup.
  destruct (lookup_by_id_ok (E := E) (files g) ns k 0 id (go_files g k ns Hg) (go_hash g k ns Hg)) as (r & -> & Hr);
    [lia|rewrite Z.add_0_l; apply total_u32|done|done|]. cbn [mbind outcome_bind].
  eexists. split; [done|]. intros p Hp. destruct r as [[[f q] gp]|]; [|done]. injection Hp as ->.
  destruct Hr as (i & n & H1 & H2 & H3 & <- & ->). rewrite Z.add_0_l.
  pose proof (file_at i f n H1 H2) as Hf.
  pose proof (zsum_take ns (S i) (counts_nonneg _ _ (go_files g k ns Hg))) as Hs. rewrite (zsum_take_S ns i n H2) in Hs.
  pose proof (zsum_take ns i (counts_nonneg _ _ (go_files g k ns Hg))).
  split; [lia|]. unfold graph_id_at.
  rewrite (graph_file_pos i f n) by done.
  cbn [mbind outcome_bind]. by apply (id_at_ok f n).
Qed.
End OpenedGraph.

(** C39: opening the files of a commit-graph chain from arbitrary bytes fails with an
    error or yields a graph on which nothing panics: every position below the number of
    commits has an id and a commit, whose Bloom filter and corrected date can be read;
    iterating over its parents ends, yields positions of this graph only, and at most one
    error, after which it stops; and looking up an id returns, with a position that
    really holds it, if any. *)
Theorem commit_graph_safe inputs (Hin : inputs_ok inputs) :
  open_graph inputs ≠ Panic ∧
  ∀ g, open_graph inputs = Ok g → ∃ k n,
    graph_num_commits (E := cg_error) g = Ok n ∧ 0 ≤ n ≤ MAX_COMMITS ∧
    (∀ pos, 0 ≤ pos < n → ∃ id c items filter date,
       graph_id_at (E := cg_error) g pos = Ok id ∧ zlen id = len_in_bytes k ∧
       graph_commit_at (E := cg_error) g pos = Ok c ∧ commit_id (E := cg_error) c = Ok id ∧
       iter_parents (E := cg_error) c = Ok items ∧ parents_shape n items ∧
       changed_path_filter (E := cg_error) c = Ok filter ∧
       corrected_committer_timestamp (E := cg_error) c = Ok date) ∧
    (∀ id, zlen id = len_in_bytes k → bytes_ok id → ∃ r,
       graph_lookup (E := cg_error) g id = Ok r ∧
       ∀ p, r = Some p → 0 ≤ p < n ∧ graph_id_at (E := cg_error) g p = Ok id).
Proof.
  pose proof (open_graph_ok inputs Hin) as Hsafe. apply safe_iff in Hsafe as [Hp Hok]. split; [done|].
  intros g Hopen. destruct (Hok g Hopen) as (k & ns & Hg). exists k, (zsum ns).
  split; [by apply (graph_num_ok g k)|]. split.
  { pose proof (zsum_take ns 0 (counts_nonneg _ _ (go_files g k ns Hg))) as H0. rewrite take_0 in H0. cbn in H0.
    pose proof (go_total g k ns Hg). lia. }
  split; [|intros id; by apply (graph_lookup_ok g k ns Hg)].
  intros pos Hpos. destruct (graph_pos g k ns Hg pos Hpos) as (i & f & n & p & H1 & H2 & Hf & Hpn & _ & Hk & Hl & Hid & Hc).
  destruct (commit_parents_ok (E := cg_error) f n p Hf Hpn) as (items & Hitems & Hshape).
  destruct (bloom_filter_at_ok (E := cg_error) f n Hf p Hpn) as [filter Hfilter].
  destruct (corrected_date_ok (E := cg_error) f n Hf p Hpn) as [date Hdate].
  exists (id_of f p), (commit_of f p), items, filter. eexists.
  split; [apply Hid|]. split; [rewrite <- Hk, <- (fo_hash f n Hf); by apply (id_of_ok f n)|].
  split; [apply Hc|]. split; [by apply (id_at_ok f n)|]. split; [done|].
  split; [by apply (parents_shape_mono (parent_position_limit f))|]. split; [done|].
  unfold corrected_committer_timestamp. cbn [file commit_pos commit_of]. by rewrite Hdate.
Qed.

(** ** Lemmas: what verification establishes *)
Section Verified.
Context {FH : FasterHex} (hasher : Kind → bytes → outcome cg_error bytes).
Context {S : Type} (processor : S → Commit → outcome cg_error S) (g : Graph).

(** The generation of a commit is one more than the largest of its parents'. *)
Definition commit_fine (c : Commit) : Prop := ∃ ps ms,
  iter_parents (E := cg_error) c = Ok (inr <$> ps) ∧
  Forall2 (λ q m, ∃ cq, graph_commit_at (E := cg_error) g q = Ok cq ∧ generation cq = m) ps ms ∧
  Forall (λ m, m ≠ 0) ms ∧ generation c ≠ 0 ∧
  generation c = Z.min (foldr Z.max 0 ms + 1) GENERATION_NUMBER_MAX.

Lemma parent_generations_ok items : ∀ mp unc mx u,
  parent_generations g items mp unc = Ok (mx, u) → ∃ ps ms, items = inr <$> ps ∧
    Forall2 (λ q m, ∃ cq, graph_commit_at (E := cg_error) g q = Ok cq ∧ generation cq = m) ps ms ∧
    mx = Z.max mp (foldr Z.max mp ms) ∧ (u = false → unc = false ∧ Forall (λ m, m ≠ 0) ms).
Proof.
  induction items as [|[e|q] items IH]; intros mp unc mx u H; cbn [parent_generations] in H; [|done|].
  - injection H as <- <-. exists [], []. split; [done|]. split; [constructor|]. split; [cbn; lia|]. by split.
  - destruct (graph_commit_at g q) as [cq| |] eqn:Eq; [|done|done]. cbn [mbind outcome_bind] in H.
    destruct (IH _ _ _ _ H) as (ps & ms & -> & Hall & -> & Hu). exists (q :: ps), (generation cq :: ms).
    split; [done|]. split; [constructor; [by exists cq|done]|]. split.
    + cbn [foldr]. assert (Hf : ∀ a b l, foldr Z.max (Z.max a b) l = Z.max b (foldr Z.max a l)).
      { intros a b l. induction l as [|x l IHl]; cbn; [lia|]. rewrite IHl. lia. }
      rewrite Hf. lia.
    + intros Hf. destruct (Hu Hf) as [Hor Hms]. apply orb_false_iff in Hor as [-> Hz%Z.eqb_neq].
      split; [done|]. by constructor.
Qed.
Lemma foldr_max_nonneg ms : 0 ≤ foldr Z.max 0 ms.
Proof. induction ms; cbn; lia. Qed.

Lemma verify_commit_ok seen s c st :
  verify_commit processor g (seen, s) c = Ok st → ∃ id, commit_id (E := cg_error) c = Ok id ∧
    id ∉ seen ∧ st.1 = {[id]} ∪ seen ∧ commit_fine c.
Proof.
  intros H. unfold verify_commit in H. destruct (commit_id c) as [id| |]; [|done|done].
  cbn [mbind outcome_bind] in H. destruct (bool_decide (id ∈ seen)) eqn:Eseen; [done|].
  apply bool_decide_eq_false in Eseen. cbn [negb ensure mbind outcome_bind] in H.
  destruct (iter_parents c) as [items| |] eqn:Ei; [|done|done]. cbn [mbind outcome_bind] in H.
  destruct (parent_generations g items 0 false) as [[mx u]| |] eqn:Eg; [|done|done].
  cbn [mbind outcome_bind] in H. apply parent_generations_ok in Eg as (ps & ms & -> & Hall & -> & Hu).
  destruct ((generation c =? 0) || u) eqn:Eu; [done|]. cbn [negb ensure mbind outcome_bind] in H.
  apply orb_false_iff in Eu as [Hz%Z.eqb_neq ->]. destruct (Hu eq_refl) as [_ Hms].
  pose proof (foldr_max_nonneg ms). rewrite Z.max_r in H by lia.
  unfold op_add in H. destruct (checked_add 32 _ 1) as [nx|] eqn:Ea; [|done]. apply checked_Some in Ea as [<- _].
  cbn [expect mbind outcome_bind] in H.
  destruct (Z.eqb_spec (generation c) (Z.min (foldr Z.max 0 ms + 1) GENERATION_NUMBER_MAX)) as [Hgen|]; [|done].
  cbn [ensure mbind outcome_bind] in H. destruct (processor s c) as [s'| |]; [|done|done].
  injection H as <-. exists id. split; [done|]. split; [done|]. split; [done|]. by exists ps, ms.
Qed.

Lemma traverse_loop_ok f n (Hf : file_ok f n) positions : ∀ prev stats seen s stats' seen' s',
  (∀ p, p ∈ positions → 0 ≤ p < n) →
  traverse_loop (verify_commit processor g) f positions prev stats (seen, s) = Ok (stats', (seen', s')) →
  NoDup (id_of f <$> positions) ∧
  (∀ p, p ∈ positions → id_of f p ∉ seen ∧ commit_fine (commit_of f p) ∧
     generation (commit_of f p) ≤ max_generation stats') ∧
  seen' = list_to_set (id_of f <$> positions) ∪ seen ∧
  max_generation stats ≤ max_generation stats' ∧
  (max_generation stats' = max_generation stats ∨
     ∃ p, p ∈ positions ∧ generation (commit_of f p) = max_generation stats') ∧
  file_num_commits stats' = file_num_commits stats ∧ max_parents stats' = max_parents stats.
Proof.
  induction positions as [|pos positions IH]; intros prev stats seen s stats' seen' s' Hin H; cbn [traverse_loop] in H.
  - injection H as <- <- <-. split; [constructor|]. split; [set_solver|]. split; [set_solver|].
    split; [lia|]. by split; [left|].
  - assert (Hpos : 0 ≤ pos < n) by (apply Hin; by left).
    rewrite (commit_at_ok f n Hf) in H by done. cbn [mbind outcome_bind] in H.
    unfold commit_id in H. cbn [file commit_pos commit_of] in H.
    rewrite (id_at_ok f n Hf) in H by done. cbn [mbind outcome_bind] in H.
    destruct (match bytes_cmp _ _ with Gt => _ | _ => _ end) as [[]| |]; [|done|done]. cbn [mbind outcome_bind] in H.
    destruct (ensure _ (InvalidRootTree _)) as [[]| |]; [|done|done]. cbn [mbind outcome_bind] in H.
    destruct (ensure _ (InvalidGeneration _ _)) as [[]| |]; [|done|done]. cbn [mbind outcome_bind] in H.
    destruct (verify_commit processor g (seen, s) (commit_of f pos)) as [[seen1 s1]| |] eqn:Ev; [|done|done].
    cbn [map_err mbind outcome_bind] in H.
    apply verify_commit_ok in Ev as (id & Hid & Hseen & Hs1 & Hfine).
    unfold commit_id in Hid. cbn [file commit_pos commit_of] in Hid.
    rewrite (id_at_ok f n Hf) in Hid by done. injection Hid as <-. cbn [fst] in Hs1. subst seen1.
    destruct (iter_parents (commit_of f pos)) as [items| |]; [|done|done]. cbn [mbind outcome_bind] in H.
    destruct (count_parents items 0) as [cnt| |]; [|done|done]. cbn [mbind outcome_bind] in H.
    apply IH in H as (Hnd & Hall & Hseen' & Hle & Hatt & Hnum & Hmp); [|intros p Hp; apply Hin; by right].
    cbn [max_generation file_num_commits max_parents] in Hle, Hatt, Hnum, Hmp.
    split.
    { rewrite fmap_cons. constructor; [|done]. intros Hd. apply list_elem_of_fmap in Hd as (p & Hp & Hpi).
      destruct (Hall p Hpi) as [Hn _]. apply Hn. rewrite <- Hp. apply elem_of_union_l. by apply elem_of_singleton. }
    split.
    { intros p Hp. apply list.elem_of_cons in Hp as [->|Hp]; [split; [done|]; split; [done|lia]|].
      destruct (Hall p Hp) as (Hn & ? & ?). by apply not_elem_of_union in Hn as [_ Hn]. }
    split; [rewrite Hseen'; clear; set_solver|]. split; [lia|]. split; [|done].
    destruct Hatt as [Hatt|(p & Hp & Hpg)]; [|right; exists p; split; [by right|done]].
    destruct (Z.max_spec (max_generation stats) (generation (commit_of f pos))) as [[_ Hm]|[_ Hm]];
      rewrite Hm in Hatt; [right; exists pos; split; [by left|done]|by left].
Qed.

Lemma traverse_ok f n (Hf : file_ok f n) seen s stats seen' s' :
  traverse hasher (verify_commit processor g) f (seen, s) = Ok (stats, (seen', s')) →
  NoDup (id_of f <$> seqZ 0 n) ∧
  (∀ p, p ∈ seqZ 0 n → id_of f p ∉ seen ∧ commit_fine (commit_of f p) ∧
     generation (commit_of f p) ≤ max_generation stats) ∧
  seen' = list_to_set (id_of f <$> seqZ 0 n) ∪ seen ∧
  0 ≤ max_generation stats ∧
  (max_generation stats = 0 ∨ ∃ p, p ∈ seqZ 0 n ∧ generation (commit_of f p) = max_generation stats) ∧
  file_num_commits stats = n ∧ max_parents stats = 0.
Proof.
  intros H. unfold traverse in H. destruct (verify_checksum hasher f) as [?| |]; [|done|done]. cbn [mbind outcome_bind] in H.
  destruct (checksum f) as [?| |]; [|done|done]. cbn [mbind outcome_bind] in H.
  destruct (verify_split_chain_filename_hash _ _) as [[]| |]; [|done|done]. cbn [mbind outcome_bind] in H.
  rewrite (num_commits_ok f n Hf) in H. cbn [mbind outcome_bind] in H.
  destruct (traverse_loop _ _ _ _ _ _) as [[st [sn s1]]| |] eqn:El; [|done|done]. cbn [mbind outcome_bind] in H.
  injection H as <- <- <-. cbn [max_generation file_num_commits max_parents].
  apply (traverse_loop_ok f n Hf) in El; [done|]. intros p Hp. apply elem_of_seqZ in Hp. lia.
Qed.

(** The commits of all files, in the order of their positions in the graph. *)
Fixpoint all_commits (fs : list File) (ns : list Z) : list (File * Z) :=
  match fs, ns with
  | f :: fs, n :: ns => ((λ p, (f, p)) <$> seqZ 0 n) ++ all_commits fs ns
  | _, _ => []
  end.
Definition id_of' (x : File * Z) : bytes := id_of x.1 x.2.
Definition commit_of' (x : File * Z) : Commit := commit_of x.1 x.2.

Lemma all_commits_at fs ns i f n p :
  Forall2 file_ok fs ns → fs !! i = Some f → ns !! i = Some n → 0 ≤ p < n →
  all_commits fs ns !! Z.to_nat (zsum (take i ns) + p) = Some (f, p).
Proof.
  intros H. revert i. induction H as [|f0 n0 fs ns Hf Hfs IH]; intros i Hi Hn Hp; [done|]. cbn [all_commits].
  pose proof (fo_max f0 n0 Hf). destruct i as [|i]; simplify_eq/=.
  - rewrite lookup_app_l by (rewrite length_fmap, length_seqZ; lia).
    rewrite list_lookup_fmap, lookup_seqZ_lt by lia. cbn. do 2 f_equal. lia.
  - pose proof (zsum_take ns i (counts_nonneg _ _ Hfs)). fold (zsum (take i ns)).
    rewrite lookup_app_r by (rewrite length_fmap, length_seqZ; lia).
    rewrite length_fmap, length_seqZ. rewrite <- (IH i Hi Hn Hp). f_equal. lia.
Qed.

Lemma verify_files_ok fs ns : Forall2 file_ok fs ns → ∀ before mg stats seen s mg' stats' seen' s',
  0 ≤ mg → verify_files hasher processor g before fs mg stats (seen, s) = Ok (mg', stats', (seen', s')) →
  NoDup (id_of' <$> all_commits fs ns) ∧
  (∀ x, x ∈ all_commits fs ns → id_of' x ∉ seen ∧ commit_fine (commit_of' x) ∧ generation (commit_of' x) ≤ mg') ∧
  mg ≤ mg' ∧ (mg' = mg ∨ ∃ x, x ∈ all_commits fs ns ∧ generation (commit_of' x) = mg') ∧
  out_num_commits stats' = out_num_commits stats + zsum ns.
Proof.
  induction 1 as [|f n fs ns Hf Hfs IH]; intros before mg stats seen s mg' stats' seen' s' Hmg H; cbn [verify_files] in H.
  - injection H as <- <- <- <-. split; [constructor|]. split; [intros x Hx; by apply elem_of_nil in Hx|].
    split; [lia|]. split; [by left|]. cbn. lia.
  - destruct (ensure _ _) as [[]| |]; [|done|done]. cbn [mbind outcome_bind] in H.
    destruct (iter_base_graph_ids f) as [ids| |]; [|done|done]. cbn [mbind outcome_bind] in H.
    destruct (check_base_graphs before ids 0) as [[]| |]; [|done|done]. cbn [mbind outcome_bind] in H.
    destruct (traverse hasher (verify_commit processor g) f (seen, s)) as [[fstats [seen1 s1]]| |] eqn:Et;
      [|done|done]. cbn [mbind outcome_bind] in H.
    apply (traverse_ok f n Hf) in Et as (Hnd1 & Hall1 & -> & Hpos1 & Hatt1 & Hnum1 & _).
    unfold op_add in H. destruct (checked_add 32 _ _) as [num|] eqn:En; [|done]. apply checked_Some in En as [<- _].
    cbn [expect mbind outcome_bind] in H. apply IH in H as (Hnd & Hall & Hle & Hatt & Hnum); [|lia].
    cbn [out_num_commits] in Hnum. cbn [all_commits]. rewrite fmap_app, <- list_fmap_compose.
    assert (Hids : id_of' ∘ (λ p, (f, p)) <$> seqZ 0 n = id_of f <$> seqZ 0 n) by done. rewrite Hids.
    split; [|split; [|split; [lia|split]]].
    + apply list.NoDup_app. split; [done|]. split; [|done]. intros id Hid1 Hid2.
      apply list_elem_of_fmap in Hid2 as (x & -> & Hx). destruct (Hall x Hx) as [Hn _]. apply Hn.
      apply elem_of_union_l. by apply elem_of_list_to_set.
    + intros x Hx. apply elem_of_app in Hx as [Hx|Hx].
      * apply list_elem_of_fmap in Hx as (p & -> & Hp). destruct (Hall1 p Hp) as (? & ? & ?).
        split; [done|]. split; [done|]. change (commit_of' (f, p)) with (commit_of f p). lia.
      * destruct (Hall x Hx) as (Hn & ? & ?). by apply not_elem_of_union in Hn as [_ Hn].
    + destruct Hatt as [Hatt|(x & Hx & Hxg)]; [|right; exists x; split; [by apply elem_of_app; right|done]].
      destruct (Z.max_spec mg (max_generation fstats)) as [[Hlt Hm]|[_ Hm]]; rewrite Hm in Hatt; [|by left].
      destruct Hatt1 as [Hz|(p & Hp & Hpg)].
      * left. lia.
      * right. exists (f, p). split; [apply elem_of_app; left; by apply list_elem_of_fmap_2|].
        change (commit_of' (f, p)) with (commit_of f p). lia.
    + rewrite Hnum, Hnum1. cbn [zsum foldr]. fold (zsum ns). lia.
Qed.
End Verified.

(** ** Paths through the graph *)
Definition parent_of (g : Graph) (p q : Z) : Prop := ∃ c items,
  graph_commit_at (E := cg_error) g p = Ok c ∧ iter_parents (E := cg_error) c = Ok items ∧ inr q ∈ items.
(** A walk of a number of steps from child to parent. *)
Inductive walk (g : Graph) : Z → Z → nat → Prop :=
| walk_here p : walk g p p 0
| walk_parent p q r len : parent_of g p q → walk g q r len → walk g p r (S len).

Section Walks.
Context (g : Graph) (k : Kind) (ns : list Z) (Hg : graph_ok g k ns).
Notation n := (zsum ns).

(** A graph all of whose commits are fine, with generations up to [mg]. *)
Context (mg : Z) (Hfine : ∀ p, 0 ≤ p < n → ∃ c, graph_commit_at (E := cg_error) g p = Ok c ∧
  commit_fine g c ∧ generation c ≤ mg) (Hmg : mg < GENERATION_NUMBER_MAX).

Lemma foldr_max_in ms m : m ∈ ms → m ≤ foldr Z.max 0 ms.
Proof. induction 1; cbn; lia. Qed.
Lemma foldr_max_attained ms : 0 < foldr Z.max 0 ms → foldr Z.max 0 ms ∈ ms.
Proof.
  induction ms as [|m ms IH]; cbn; [lia|]. intros H.
  destruct (Z.max_spec m (foldr Z.max 0 ms)) as [[_ Hm]|[_ Hm]]; rewrite Hm in *.
  - right. auto.
  - left.
Qed.
Lemma fine_generation c : commit_fine g c → generation c ≤ mg → ∃ ps ms,
  iter_parents (E := cg_error) c = Ok (inr <$> ps) ∧
  Forall2 (λ q m, ∃ cq, graph_commit_at (E := cg_error) g q = Ok cq ∧ generation cq = m) ps ms ∧
  generation c = foldr Z.max 0 ms + 1.
Proof using Hmg.
  intros (ps & ms & H1 & H2 & H3 & H4 & H5) Hle. exists ps, ms. split; [done|]. split; [done|]. lia.
Qed.

(** The parents of a commit are commits of the graph. *)
Lemma parent_in_graph p c ps q : 0 ≤ p < n → graph_commit_at (E := cg_error) g p = Ok c →
  iter_parents (E := cg_error) c = Ok (inr <$> ps) → q ∈ ps → 0 ≤ q < n.
Proof using Hg.
  intros Hp Hc Hi Hq.
  destruct (graph_pos g k ns Hg p Hp) as (i & f & m & pp & _ & _ & Hf' & Hpp & _ & _ & Hl & _ & Hcc).
  rewrite Hcc in Hc. injection Hc as <-.
  destruct (commit_parents_ok (E := cg_error) f m pp Hf' Hpp) as (items & Hit & Hsh).
  rewrite Hi in Hit. injection Hit as <-. destruct Hsh as (ps' & tl & Heq & Hps' & Htl).
  assert (Hin : inr q ∈ (inr <$> ps' : list item) ++ tl) by (rewrite <- Heq; by apply list_elem_of_fmap_2).
  apply elem_of_app in Hin as [Hin|Hin].
  - apply list_elem_of_fmap in Hin as (q' & [= <-] & Hin). rewrite list.Forall_forall in Hps'.
    specialize (Hps' q Hin). simpl in Hps'. lia.
  - destruct Htl as [->|[e ->]]; [by apply elem_of_nil in Hin|]. by apply list_elem_of_singleton in Hin.
Qed.
(** A commit, its parents and their generations. *)
Lemma fine_at p c : 0 ≤ p < n → graph_commit_at (E := cg_error) g p = Ok c → ∃ ps ms,
  iter_parents (E := cg_error) c = Ok (inr <$> ps) ∧
  Forall2 (λ q m, ∃ cq, graph_commit_at (E := cg_error) g q = Ok cq ∧ generation cq = m) ps ms ∧
  generation c = foldr Z.max 0 ms + 1.
Proof using Hfine Hmg.
  intros Hp Hc. destruct (Hfine p Hp) as (c' & Hc' & Hf & Hle). rewrite Hc in Hc'. injection Hc' as <-.
  by apply fine_generation.
Qed.

Lemma walk_short p q len : walk g p q len → 0 ≤ p < n →
  ∀ c, graph_commit_at (E := cg_error) g p = Ok c → Z.of_nat len < generation c.
Proof using Hfine Hmg Hg.
  induction 1 as [p|p q r len Hpq _ IH]; intros Hp c Hc; destruct (fine_at p c Hp Hc) as (ps & ms & Hi & Hall & ->).
  - pose proof (foldr_max_nonneg ms). lia.
  - destruct Hpq as (c' & items & Hc' & Hi' & Hq). rewrite Hc in Hc'. injection Hc' as <-.
    rewrite Hi in Hi'. injection Hi' as <-. apply list_elem_of_fmap in Hq as (q' & [= <-] & Hq).
    pose proof (parent_in_graph p c ps q Hp Hc Hi Hq) as Hqn.
    apply list_elem_of_lookup in Hq as [i Hi2].
    destruct (Forall2_lookup_l _ _ _ _ _ Hall Hi2) as (m & Hm & cq & Hcq & Hgq).
    specialize (IH Hqn cq Hcq). apply list_elem_of_lookup_2 in Hm. apply foldr_max_in in Hm. lia.
Qed.

(** From a commit of generation [m + 1] there is a walk of [m] steps. *)
Lemma walk_long m : ∀ p c, 0 ≤ p < n → graph_commit_at (E := cg_error) g p = Ok c →
  generation c = Z.of_nat m + 1 → ∃ q, walk g p q m.
Proof using Hfine Hmg Hg.
  induction m as [|m IH]; intros p c Hp Hc Hgen; [exists p; constructor|].
  destruct (fine_at p c Hp Hc) as (ps & ms & Hi & Hall & Hgc).
  assert (Hin : foldr Z.max 0 ms ∈ ms) by (apply foldr_max_attained; lia).
  apply list_elem_of_lookup in Hin as [i Hi2].
  destruct (Forall2_lookup_r _ _ _ _ _ Hall Hi2) as (q & Hq & cq & Hcq & Hgq).
  apply list_elem_of_lookup_2 in Hq.
  destruct (IH q cq) as [r Hr]; [by apply (parent_in_graph p c ps)|done|lia|].
  exists r. eapply walk_parent; [|exact Hr]. exists c, (inr <$> ps). split; [done|].
  split; [done|]. by apply list_elem_of_fmap_2.
Qed.

(** A walk that comes back could be walked again and again. *)
Lemma walk_app p q r a b : walk g p q a → walk g q r b → walk g p r (a + b).
Proof. induction 1; intros Hr; [done|]. cbn. eapply walk_parent; [done|auto]. Qed.
Lemma walk_acyclic p len : 0 ≤ p < n → walk g p p len → len = 0%nat.
Proof using Hfine Hmg Hg.
  intros Hp Hw. destruct len as [|len]; [done|]. exfalso.
  assert (Hrep : ∀ m, walk g p p (m * S len)).
  { induction m as [|m IH]; [constructor|]. by eapply walk_app. }
  destruct (Hfine p Hp) as (c & Hc & _).
  pose proof (walk_short p p _ (Hrep (Z.to_nat (generation c))) Hp c Hc). nia.
Qed.
(** A graph with commits has a walk as long as the generations allow. *)
Lemma walk_longest : 0 < n →
  (mg = 0 ∨ ∃ p c, 0 ≤ p < n ∧ graph_commit_at (E := cg_error) g p = Ok c ∧ generation c = mg) →
  ∃ p q, 0 ≤ p < n ∧ walk g p q (Z.to_nat (Z.max 0 (mg - 1))).
Proof using Hfine Hmg Hg.
  intros Hn [->|(p & c & Hp & Hc & Hgen)].
  - exists 0, 0. split; [lia|]. constructor.
  - destruct (fine_at p c Hp Hc) as (ps & ms & _ & _ & Hgc). pose proof (foldr_max_nonneg ms).
    destruct (walk_long (Z.to_nat (Z.max 0 (mg - 1))) p c Hp Hc) as [q Hq]; [lia|]. by exists p, q.
Qed.
End Walks.

(** A graph position names an entry of [all_commits]. *)
Lemma graph_entry g k ns p : graph_ok g k ns → 0 ≤ p < zsum ns → ∃ x,
  all_commits (files g) ns !! Z.to_nat p = Some x ∧
  (∀ E, graph_id_at (E := E) g p = Ok (id_of' x)) ∧ (∀ E, graph_commit_at (E := E) g p = Ok (commit_of' x)).
Proof.
  intros Hg Hp. destruct (graph_pos g k ns Hg p Hp) as (i & f & n & q & H1 & H2 & _ & Hq & -> & _ & _ & Hid & Hc).
  exists (f, q). split; [|done]. by apply (all_commits_at _ _ i f n); [apply (go_files g k ns Hg)|..].
Qed.
(** Every entry of [all_commits] is the commit at some position. *)
Lemma entry_graph fs ns x : Forall2 file_ok fs ns → x ∈ all_commits fs ns → ∃ i n,
  fs !! i = Some x.1 ∧ ns !! i = Some n ∧ 0 ≤ x.2 < n.
Proof.
  induction 1 as [|f n fs ns Hf _ IH]; cbn [all_commits]; intros Hx; [by apply elem_of_nil in Hx|].
  apply elem_of_app in Hx as [Hx|Hx].
  - apply list_elem_of_fmap in Hx as (p & -> & Hp%elem_of_seqZ). exists 0%nat, n. split; [done|]. split; [done|]. cbn. lia.
  - destruct (IH Hx) as (i & m & ?). by exists (S i), m.
Qed.
Lemma entry_pos g k ns x : graph_ok g k ns → x ∈ all_commits (files g) ns → ∃ p, 0 ≤ p < zsum ns ∧
  ∀ E, graph_commit_at (E := E) g p = Ok (commit_of' x).
Proof.
  intros Hg Hx. destruct (entry_graph _ _ x (go_files g k ns Hg) Hx) as (i & n & H1 & H2 & H3).
  exists (zsum (take i ns) + x.2).
  pose proof (zsum_take ns (S i) (counts_nonneg _ _ (go_files g k ns Hg))) as Hs. rewrite (zsum_take_S ns i n H2) in Hs.
  pose proof (zsum_take ns i (counts_nonneg _ _ (go_files g k ns Hg))). split; [lia|].
  intros E. unfold graph_commit_at. rewrite (graph_file_pos g k ns Hg i x.1 n) by done.
  cbn [mbind outcome_bind]. apply (commit_at_ok x.1 n); [by apply (file_at g k ns Hg i)|done].
Qed.

Lemma verify_integrity_ok {FH : FasterHex} hasher {S} (processor : S → Commit → outcome cg_error S) g k ns s out s' :
  graph_ok g k ns → verify_integrity hasher processor g s = Ok (out, s') → ∃ mg,
  NoDup (id_of' <$> all_commits (files g) ns) ∧
  (∀ p, 0 ≤ p < zsum ns → ∃ c, graph_commit_at (E := cg_error) g p = Ok c ∧ commit_fine g c ∧ generation c ≤ mg) ∧
  0 ≤ mg ∧ (mg = 0 ∨ ∃ p c, 0 ≤ p < zsum ns ∧ graph_commit_at (E := cg_error) g p = Ok c ∧ generation c = mg) ∧
  out_num_commits out = zsum ns ∧
  longest_path_length out = if mg <? GENERATION_NUMBER_MAX then Some (Z.max 0 (mg - 1)) else None.
Proof.
  intros Hg H. unfold verify_integrity in H.
  destruct (verify_files _ _ _ _ _ _ _ _) as [[[mg stats] [seen s1]]| |] eqn:E; [|done|done].
  cbn [mbind outcome_bind] in H. injection H as <- <-. cbn [out_num_commits longest_path_length].
  apply (verify_files_ok hasher processor g (files g) ns (go_files g k ns Hg)) in E as (Hnd & Hall & Hle & Hatt & Hnum);
    [|lia].
  exists mg. split; [done|]. split.
  - intros p Hp. destruct (graph_entry g k ns p Hg Hp) as (x & Hx & _ & Hc). exists (commit_of' x).
    split; [done|]. apply list_elem_of_lookup_2, Hall in Hx. tauto.
  - split; [done|]. split; [|by cbn in Hnum].
    destruct Hatt as [?|(x & Hx & Hgen)]; [by left|]. right.
    destruct (entry_pos g k ns x Hg Hx) as (p & Hp & Hc). by exists p, (commit_of' x).
Qed.

Lemma ids_unique g k ns p q id : graph_ok g k ns → NoDup (id_of' <$> all_commits (files g) ns) →
  0 ≤ p < zsum ns → 0 ≤ q < zsum ns → graph_id_at (E := cg_error) g p = Ok id →
  graph_id_at (E := cg_error) g q = Ok id → p = q.
Proof.
  intros Hg Hnd Hp Hq Hidp Hidq.
  destruct (graph_entry g k ns p Hg Hp) as (x & Hx & Hidx & _). rewrite Hidx in Hidp.
  destruct (graph_entry g k ns q Hg Hq) as (y & Hy & Hidy & _). rewrite Hidy in Hidq.
  assert (Z.to_nat p = Z.to_nat q) as ?; [|lia].
  eapply (NoDup_lookup _ _ _ id Hnd); rewrite list_lookup_fmap; [rewrite Hx|rewrite Hy]; cbn; congruence.
Qed.

(** C40: what [Graph::verify_integrity] establishes when it succeeds, whatever the caller's
    processor does: the count of commits is that of the graph; no two positions hold the
    same id; iterating over parents yields no error. If it returns the length of a longest path, the graph has no
    cycle, and the length is exactly that: no walk from child to
    parent is longer, and one is as long. If it returns none, a commit has the largest
    generation there is, and cycles of such commits are not excluded (see [self_parent_verified]). *)
Theorem verify_integrity_sound {FH : FasterHex} hasher {S} (processor : S → Commit → outcome cg_error S)
    inputs g s out s' (Hin : inputs_ok inputs) (Hopen : open_graph inputs = Ok g)
    (Hv : verify_integrity hasher processor g s = Ok (out, s')) :
  ∃ n, graph_num_commits (E := cg_error) g = Ok n ∧ out_num_commits out = n ∧
  (∀ p q id, 0 ≤ p < n → 0 ≤ q < n → graph_id_at (E := cg_error) g p = Ok id →
     graph_id_at (E := cg_error) g q = Ok id → p = q) ∧
  (∀ p, 0 ≤ p < n → ∃ c ps, graph_commit_at (E := cg_error) g p = Ok c ∧
     iter_parents (E := cg_error) c = Ok (inr <$> ps) ∧ Forall (λ q, 0 ≤ q < n) ps) ∧
  match longest_path_length out with
  | Some longest =>
      (∀ p q len, 0 ≤ p < n → walk g p q len → Z.of_nat len ≤ longest ∧ (q = p → len = 0%nat)) ∧
      (0 < n → ∃ p q, 0 ≤ p < n ∧ walk g p q (Z.to_nat longest))
  | None => ∃ p c, 0 ≤ p < n ∧ graph_commit_at (E := cg_error) g p = Ok c ∧ generation c = GENERATION_NUMBER_MAX
  end.
Proof.
  pose proof (open_graph_ok inputs Hin) as [_ Hok]%safe_iff. destruct (Hok g Hopen) as (k & ns & Hg).
  destruct (verify_integrity_ok hasher processor g k ns s out s' Hg Hv) as (mg & Hnd & Hfine & Hpos & Hatt & Hnum & ->).
  exists (zsum ns). split; [by apply (graph_num_ok g k)|]. split; [done|]. split; [|split].
  - intros p q id Hp Hq Hidp Hidq. by apply (ids_unique g k ns p q id).
  - intros p Hp. destruct (Hfine p Hp) as (c & Hc & (ps & ms & Hi & _) & _). exists c, ps. split; [done|].
    split; [done|]. apply list.Forall_forall. intros q. by apply (parent_in_graph g k ns Hg p c ps).
  - destruct (Z.ltb_spec mg GENERATION_NUMBER_MAX) as [Hmg|Hmg].
    + split; [intros p q len Hp Hw; split; [|intros ->]|].
      * destruct (Hfine p Hp) as (c & Hc & _ & Hle).
        pose proof (walk_short g k ns Hg mg Hfine Hmg p q len Hw Hp c Hc). lia.
      * by apply (walk_acyclic g k ns Hg mg Hfine Hmg p).
      * intros Hn. by apply (walk_longest g k ns Hg mg Hfine Hmg).
    + destruct Hatt as [->|(p & c & Hp & Hc & Hgen)]; [done|]. exists p, c. split; [done|]. split; [done|].
      destruct (Hfine p Hp) as (c' & Hc' & (ps & ms & _ & _ & _ & _ & Hg') & _). rewrite Hc in Hc'. injection Hc' as <-.
      lia.
Qed.

(** ** A graph of one file with a commit and its parent *)
Definition sample_u32 (x : Z) : bytes := to_be 4 x.
Definition sample_toc : bytes :=
  OID_FAN_CHUNK_ID ++ to_be 8 56 ++ OID_LOOKUP_CHUNK_ID ++ to_be 8 1080 ++
  COMMIT_DATA_CHUNK_ID ++ to_be 8 1120 ++ [0; 0; 0; 0] ++ to_be 8 1192.
Definition sample_fan : bytes :=
  sample_u32 0 ++ sample_u32 1 ++ concat (replicate 254 (sample_u32 2)).
Definition sample_trailer : bytes := replicate 20 9.
Definition sample_graph_file : bytes :=
  SIGNATURE ++ [1; 1; 3; 0] ++ sample_toc ++ sample_fan ++
  replicate 20 1 ++ replicate 20 2 ++
  (replicate 20 7 ++ sample_u32 1 ++ sample_u32 NO_PARENT ++ sample_u32 8 ++ sample_u32 1000) ++
  (replicate 20 8 ++ sample_u32 NO_PARENT ++ sample_u32 NO_PARENT ++ sample_u32 4 ++ sample_u32 900) ++
  sample_trailer.
Definition sample_inputs : list (bytes * option bytes) := [(sample_graph_file, None)].
Lemma sample_inputs_ok : inputs_ok sample_inputs.
Proof.
  constructor; [|constructor]. split; [|vm_compute; done].
  apply (bool_decide_unpack (bytes_ok sample_graph_file)). vm_compute. done.
Qed.
Definition sample_graph : Graph :=
  match open_graph sample_inputs with Ok g => g | _ => {| files := [] |} end.

Lemma commit_graph_safe_witness :
  open_graph sample_inputs = Ok sample_graph ∧ graph_num_commits (E := cg_error) sample_graph = Ok 2 ∧
  ∃ items, (c ← graph_commit_at (E := cg_error) sample_graph 0; iter_parents c) = Ok items ∧ parents_shape 2 items.
Proof.
  assert (Ho : open_graph sample_inputs = Ok sample_graph) by (vm_compute; done).
  assert (Hn : graph_num_commits (E := cg_error) sample_graph = Ok 2) by (vm_compute; done).
  split; [exact Ho|]. split; [exact Hn|].
  destruct (commit_graph_safe sample_inputs sample_inputs_ok) as [_ H].
  destruct (H _ Ho) as (k & n & Hn' & _ & Hpos & _). rewrite Hn in Hn'. injection Hn' as <-.
  destruct (Hpos 0) as (id & c & items & fl & d & _ & _ & Hc & _ & Hi & Hs & _); [lia|].
  exists items. rewrite Hc. exact (conj Hi Hs).
Defined.

(** A hasher that knows the sample. *)
Definition sample_hasher (k : Kind) (content : bytes) : outcome cg_error bytes := Ok sample_trailer.
Definition sample_processor (s : Z) (c : Commit) : outcome cg_error Z := Ok (s + 1).
Definition sample_outcome : Outcome :=
  match verify_integrity (FH := faster_hex_model) sample_hasher sample_processor sample_graph 0 with
  | Ok (out, _) => out
  | _ => {| longest_path_length := None; out_num_commits := 0; out_parent_counts := ∅ |}
  end.
Lemma verify_integrity_sound_witness :
  verify_integrity (FH := faster_hex_model) sample_hasher sample_processor sample_graph 0 = Ok (sample_outcome, 2) ∧
  longest_path_length sample_outcome = Some 1 ∧
  (∀ p q len, 0 ≤ p < 2 → walk sample_graph p q len → Z.of_nat len ≤ 1) ∧
  ∃ p q, walk sample_graph p q 1.
Proof.
  assert (Ho : open_graph sample_inputs = Ok sample_graph) by (vm_compute; done).
  assert (Hv : verify_integrity (FH := faster_hex_model) sample_hasher sample_processor sample_graph 0 =
    Ok (sample_outcome, 2)) by (vm_compute; done).
  assert (Hl : longest_path_length sample_outcome = Some 1) by (vm_compute; done).
  assert (Hn : graph_num_commits (E := cg_error) sample_graph = Ok 2) by (vm_compute; done).
  split; [exact Hv|]. split; [exact Hl|].
  destruct (verify_integrity_sound (FH := faster_hex_model) sample_hasher sample_processor sample_inputs sample_graph
    0 sample_outcome 2 sample_inputs_ok Ho Hv) as (n & Hn' & _ & _ & _ & Hlong).
  rewrite Hn in Hn'. injection Hn' as <-. rewrite Hl in Hlong. destruct Hlong as [H1 H2]. split.
  - intros p q len Hp Hw. exact (proj1 (H1 p q len Hp Hw)).
  - destruct H2 as (p & q & _ & Hw); [lia|]. exists p, q. exact Hw.
Defined.

(** A commit that is its own parent passes verification if its generation is the largest there is, for which
    no larger one is expected; no length of a path is returned then. *)
Definition self_parent_graph : Graph :=
  let file := SIGNATURE ++ [1; 1; 3; 0] ++
    (OID_FAN_CHUNK_ID ++ to_be 8 56 ++ OID_LOOKUP_CHUNK_ID ++ to_be 8 1080 ++
     COMMIT_DATA_CHUNK_ID ++ to_be 8 1100 ++ [0; 0; 0; 0] ++ to_be 8 1136) ++
    (sample_u32 0 ++ concat (replicate 255 (sample_u32 1))) ++ replicate 20 1 ++
    (replicate 20 7 ++ sample_u32 0 ++ sample_u32 NO_PARENT ++ sample_u32 (4 * GENERATION_NUMBER_MAX) ++ sample_u32 1000) ++
    sample_trailer in
  match open_graph [(file, None)] with Ok g => g | _ => {| files := [] |} end.
Example self_parent_verified :
  (c ← graph_commit_at (E := cg_error) self_parent_graph 0; iter_parents c) = Ok [inr 0] ∧
  ∃ out, verify_integrity (FH := faster_hex_model) sample_hasher sample_processor self_parent_graph 0 = Ok (out, 1) ∧
    longest_path_length out = None.
Proof. split; [vm_compute; reflexivity|]. eexists. split; vm_compute; reflexivity. Qed.
