(* ===== verification/RevWalk.v ===== *)
(** * [gix-revwalk]: the graph of commits and the priority queue

    [Graph] is the map of the commits that were seen, with data of the algorithm that
    uses it. Commits are loaded on demand: from the commit graph of [CommitGraph] if
    there is one and it has the id, and from the object database otherwise
    ([try_lookup], [to_owned]). The object database is the trait [gix_object::Find], a
    parameter, and so are the tokens of the parser of commit objects.

    [PriorityQueue] wraps the binary heap of the standard library. Which of several
    items with the greatest key a heap returns first is not specified, so that heaps are
    an interface, [BinaryHeap], whose laws say no more than that; [list_heap] is an
    instance. *)

From stdpp Require Import gmap.
From S2P Require Import Prelude Hash FanLookup PackIndex Chunk CommitGraph.

(** ** [queue.rs] *)
Class BinaryHeap (K T : Type) (le : K → K → Prop) := {
  heap : Type;
  heap_items : heap → list (K * T);
  heap_new : heap;
  heap_push : K → T → heap → heap;
  heap_pop : heap → option ((K * T) * heap);
  heap_new_items : heap_items heap_new = [];
  heap_push_items k v h : heap_items (heap_push k v h) ≡ₚ (k, v) :: heap_items h;
  heap_pop_None h : heap_pop h = None → heap_items h = [];
  heap_pop_Some h kv h' : heap_pop h = Some (kv, h') →
    heap_items h ≡ₚ kv :: heap_items h' ∧ ∀ kv', kv' ∈ heap_items h → le kv'.1 kv.1;
}.
Arguments heap {K T le BinaryHeap}.

(** An instance: a list from which the first of the greatest items is taken. *)
Section ListHeap.
Context {K T : Type} (le : K → K → Prop) (leb : K → K → bool).
Context (leb_spec : ∀ a b, leb a b = true ↔ le a b).
Context (le_trans : ∀ a b c, le a b → le b c → le a c) (le_total : ∀ a b, le a b ∨ le b a).

Fixpoint take_max (best : K * T) (l : list (K * T)) : (K * T) * list (K * T) :=
  match l with
  | [] => (best, [])
  | x :: l =>
      if leb x.1 best.1 then let '(m, r) := take_max best l in (m, x :: r)
      else let '(m, r) := take_max x l in (m, best :: r)
  end.
Definition list_pop (l : list (K * T)) : option ((K * T) * list (K * T)) :=
  match l with [] => None | x :: l => Some (take_max x l) end.

Lemma take_max_ok l : ∀ best m r, take_max best l = (m, r) →
  best :: l ≡ₚ m :: r ∧ le best.1 m.1 ∧ ∀ x, x ∈ l → le x.1 m.1.
Proof using leb_spec le_trans le_total.
  induction l as [|x l IH]; intros best m r H; cbn [take_max] in H.
  - injection H as <- <-. split; [done|]. split; [destruct (le_total best.1 best.1); done|].
    intros x Hx. by apply elem_of_nil in Hx.
  - destruct (leb x.1 best.1) eqn:E.
    + apply leb_spec in E. destruct (take_max best l) as [m' r'] eqn:Em. injection H as <- <-.
      destruct (IH best m' r' Em) as (Hp & Hb & Hl). split; [|split; [done|]].
      * rewrite (Permutation_swap x best), Hp. apply Permutation_swap.
      * intros y [->|Hy]%list.elem_of_cons; [by apply (le_trans _ best.1)|by apply Hl].
    + destruct (take_max x l) as [m' r'] eqn:Em. injection H as <- <-.
      destruct (IH x m' r' Em) as (Hp & Hb & Hl).
      assert (Hxb : le best.1 x.1).
      { destruct (le_total best.1 x.1) as [?|Hx]; [done|]. apply leb_spec in Hx. congruence. }
      split; [rewrite Hp; apply Permutation_swap|]. split; [by apply (le_trans _ x.1)|].
      intros y [->|Hy]%list.elem_of_cons; [done|by apply Hl].
Qed.

#[local] Program Instance list_heap : BinaryHeap K T le := {|
  heap := list (K * T);
  heap_items h := h;
  heap_new := [];
  heap_push k v h := (k, v) :: h;
  heap_pop := list_pop;
|}.
Next Obligation. done. Qed.
Next Obligation. done. Qed.
Next Obligation. by intros [|x l]. Qed.
Next Obligation.
  intros [|x l] kv h' H; [done|]. injection H as H. destruct (take_max_ok l x kv h' H) as (Hp & Hx & Hl).
  split; [done|]. intros y [->|Hy]%list.elem_of_cons; [done|by apply Hl].
Qed.
End ListHeap.

(** ** [graph/mod.rs], [graph/commit.rs] *)
Inductive rw_error :=
| FindFailed
| CommitCorrupt
| ParentCorrupt (e : cg_error)
| TimeOutOfRange (t : Z)
| CommitNotFound (id : bytes).

(** [graph::Commit<T>] *)
Record Commit (T : Type) := {
  parents : list bytes;
  commit_time : Z;
  generation : option Z;
  data : T;
}.
Arguments parents {T} c.
Arguments commit_time {T} c.
Arguments generation {T} c.
Arguments data {T} c.
Arguments Build_Commit {T}.
Definition with_data {T U} (c : Commit T) (d : U) : Commit U :=
  {| parents := parents c; commit_time := commit_time c; generation := generation c; data := d |}.

(** The tokens of a commit object, as far as they are told apart. *)
Inductive Token :=
| TokTree
| TokParent (id : bytes)
| TokAuthor
| TokCommitter (seconds : Z)
| TokOther.

(** [SecondsSinceUnixEpoch::try_from] of a [u64] *)
Definition seconds_try_from (t : Z) : option Z := if t <? 2 ^ 63 then Some t else None.

(** [Graph]: the map of the commits that were seen. What commits are loaded from is an
    argument of the operations. *)
Notation Graph T := (gmap bytes (Commit T)).

Section Loading.
(** [gix_object::Find::try_find] with [kind.is_commit()], and [CommitRefIter]. *)
Context (try_find : bytes → outcome rw_error (option (bool * bytes))).
Context (tokens : bytes → list (rw_error + Token)).
Context (cache : option CommitGraph.Graph).

Inductive LazyCommit :=
| FromObject (buf : bytes)
| FromCache (g : CommitGraph.Graph) (pos : Z).

(** Accessors of a commit graph fail by a panic only. *)
Definition cached {A} (m : outcome cg_error A) : outcome rw_error A := map_err ParentCorrupt m.

(** [if let Some(cache) = cache && let Some(pos) = cache.lookup(id)] *)
Definition cache_lookup (id : bytes) : outcome rw_error (option LazyCommit) :=
  match cache with
  | Some g => p ← cached (graph_lookup g id); Ok (option_map (FromCache g) p)
  | None => Ok None
  end.
Definition try_lookup (id : bytes) : outcome rw_error (option LazyCommit) :=
  cached ← cache_lookup id;
  match cached with
  | Some c => Ok (Some c)
  | None =>
      o ← try_find id;
      Ok (match (o : option (bool * bytes)) with
          | Some (is_commit, buf) => if is_commit then Some (FromObject buf) else None
          | None => None
          end)
  end.

(** The loop over the tokens of an object. *)
Fixpoint read_tokens (toks : list (rw_error + Token)) (ps : list bytes) : outcome rw_error (list bytes * option Z) :=
  match toks with
  | [] => Ok (ps, None)
  | inl _ :: _ => Err CommitCorrupt
  | inr TokTree :: toks => read_tokens toks ps
  | inr (TokParent id) :: toks => read_tokens toks (ps ++ [id])
  | inr TokAuthor :: toks => read_tokens toks ps
  | inr (TokCommitter seconds) :: _ => Ok (ps, Some seconds)
  | inr TokOther :: _ => Panic
  end.
(** The loop over the parents in a commit graph. *)
Fixpoint parent_ids (g : CommitGraph.Graph) (items : list item) : outcome rw_error (list bytes) :=
  match items with
  | [] => Ok []
  | inl e :: _ => Err (ParentCorrupt e)
  | inr pos :: items =>
      c ← cached (graph_commit_at g pos);
      id ← cached (commit_id c);
      rest ← parent_ids g items;
      Ok (id :: rest)
  end.
Definition to_owned {T} (c : LazyCommit) (new_data : T) : outcome rw_error (Commit T) :=
  match c with
  | FromObject buf =>
      '(ps, timestamp) ← read_tokens (tokens buf) [];
      Ok {| parents := ps; commit_time := default 0 timestamp; generation := None; data := new_data |}
  | FromCache g pos =>
      commit ← cached (graph_commit_at g pos);
      items ← cached (iter_parents commit);
      ps ← parent_ids g items;
      let actual := commit_timestamp commit in
      t ← ok_or (TimeOutOfRange actual) (seconds_try_from actual);
      Ok {| parents := ps; commit_time := t; generation := Some (CommitGraph.generation commit); data := new_data |}
  end.
(** A commit that is not in the map yet. *)
Definition load {T} (id : bytes) (new_data : T) : outcome rw_error (option (Commit T)) :=
  res ← try_lookup id;
  match res with
  | None => Ok None
  | Some commit => c ← to_owned commit new_data; Ok (Some c)
  end.


(** [get_or_insert_full_commit]: the closure may change the state [S] that it captures.
    The last result tells whether there is such a commit. *)
Definition get_or_insert_full_commit {T S : Type} (g : Graph T) (id : bytes) (new_data : T) (s : S)
    (update_commit : Commit T → S → outcome rw_error (Commit T * S)) : outcome rw_error (Graph T * S * bool) :=
  match g !! id with
  | None =>
      res ← load id new_data;
      match res with
      | None => Ok (g, s, false)
      | Some commit => '(commit, s) ← update_commit commit s; Ok (<[id := commit]> g, s, true)
      end
  | Some commit => '(commit, s) ← update_commit commit s; Ok (<[id := commit]> g, s, true)
  end.
Definition clear_commit_data {T : Type} (g : Graph T) (clear : T → T) : Graph T :=
  (λ c, with_data c (clear (data c))) <$> g.
End Loading.
