(* ===== verification/MergeBase.v ===== *)
(** * [gix-revision]: merge bases

    [merge_base] and [octopus] with everything they call: painting down from the input
    commits to the common ones ([PaintQueue], [paint_down_to_common]), and removing the
    candidates that are in the history of others ([remove_redundant]). The commit graph
    and the heap are those of [RevWalk].

    [Flags] is a set of flags: a record of booleans. The stack of [remove_redundant] has
    its top first. The loops that are not over a list take fuel. *)

From stdpp Require Import gmap sets relations.
From S2P Require Import Prelude Hash FanLookup PackIndex Chunk CommitGraph RevWalk.

(** ** [merge_base/mod.rs] *)
Record Flags := {
  COMMIT1 : bool;
  COMMIT2 : bool;
  STALE : bool;
  RESULT : bool;
  ENQUEUED : bool;
}.
Definition flags_empty : Flags :=
  {| COMMIT1 := false; COMMIT2 := false; STALE := false; RESULT := false; ENQUEUED := false |}.
Definition FLAG_COMMIT1 : Flags :=
  {| COMMIT1 := true; COMMIT2 := false; STALE := false; RESULT := false; ENQUEUED := false |}.
Definition FLAG_COMMIT2 : Flags :=
  {| COMMIT1 := false; COMMIT2 := true; STALE := false; RESULT := false; ENQUEUED := false |}.
(** [a | b], [a.contains(b)] *)
Definition flags_union (a b : Flags) : Flags :=
  {| COMMIT1 := COMMIT1 a || COMMIT1 b; COMMIT2 := COMMIT2 a || COMMIT2 b; STALE := STALE a || STALE b;
     RESULT := RESULT a || RESULT b; ENQUEUED := ENQUEUED a || ENQUEUED b |}.
Definition flags_contain (a b : Flags) : bool :=
  implb (COMMIT1 b) (COMMIT1 a) && implb (COMMIT2 b) (COMMIT2 a) && implb (STALE b) (STALE a) &&
  implb (RESULT b) (RESULT a) && implb (ENQUEUED b) (ENQUEUED a).
(** [|= Flags::STALE] and [remove(Flags::STALE)], and likewise for the others *)
Definition set_STALE (b : bool) (f : Flags) : Flags :=
  {| COMMIT1 := COMMIT1 f; COMMIT2 := COMMIT2 f; STALE := b; RESULT := RESULT f; ENQUEUED := ENQUEUED f |}.
Definition set_RESULT (b : bool) (f : Flags) : Flags :=
  {| COMMIT1 := COMMIT1 f; COMMIT2 := COMMIT2 f; STALE := STALE f; RESULT := b; ENQUEUED := ENQUEUED f |}.
Definition set_ENQUEUED (b : bool) (f : Flags) : Flags :=
  {| COMMIT1 := COMMIT1 f; COMMIT2 := COMMIT2 f; STALE := STALE f; RESULT := RESULT f; ENQUEUED := b |}.

(** ** [merge_base/function.rs] *)
Record GenThenTime := { gen : Z; time : Z }.
Definition gen_then_time {T} (c : Commit T) : GenThenTime :=
  {| gen := default GENERATION_NUMBER_INFINITY (generation c); time := commit_time c |}.
Definition key_cmp (a b : GenThenTime) : comparison :=
  match gen a ?= gen b with Eq => time a ?= time b | c => c end.
Definition key_leb (a b : GenThenTime) : bool := match key_cmp a b with Gt => false | _ => true end.
Definition key_le (a b : GenThenTime) : Prop := key_leb a b = true.

(** [sort_by_key], which is stable *)
Fixpoint insert_sorted {A} (leb : A → A → bool) (x : A) (l : list A) : list A :=
  match l with
  | [] => [x]
  | y :: l => if leb x y then x :: y :: l else y :: insert_sorted leb x l
  end.
Definition sort_by {A} (leb : A → A → bool) (l : list A) : list A := foldr (insert_sorted leb) [] l.
Definition by_key (a b : bytes * GenThenTime) : bool := key_leb a.2 b.2.
Definition by_id (a b : bytes * GenThenTime) : bool := match bytes_cmp a.1 b.1 with Gt => false | _ => true end.

Section MergeBase.
Context {H : BinaryHeap GenThenTime bytes key_le}.
(** How commits are loaded, see [RevWalk]. *)
Context (try_find : bytes → outcome rw_error (option (bool * bytes))).
Context (tokens : bytes → list (rw_error + Token)).
Context (cache : option CommitGraph.Graph).
Context (fuel : nat).
Notation graph := (Graph Flags).
Notation get_or_insert g id s upd :=
  (get_or_insert_full_commit try_find tokens cache g id flags_empty s upd).

Record PaintQueue := { queue : heap; non_stale : Z * Z }.

Definition count_step (add side : bool) (count : Z) : outcome rw_error Z :=
  if side then if add then op_add 64 count 1 else op_sub 64 count 1 else Ok count.
Definition update_counts (q : PaintQueue) (flags : Flags) (add : bool) : outcome rw_error PaintQueue :=
  if STALE flags then Ok q
  else
    count1 ← count_step add (COMMIT1 flags) (non_stale q).1;
    count2 ← count_step add (COMMIT2 flags) (non_stale q).2;
    Ok {| queue := queue q; non_stale := (count1, count2) |}.
(** [PaintQueue::insert] *)
Definition paint_insert (commit_id : bytes) (flags : Flags) (commit : Commit Flags) (q : PaintQueue)
    : outcome rw_error (Commit Flags * PaintQueue) :=
  '(commit, q) ← (if ENQUEUED (data commit) then
                    q ← update_counts q (data commit) false; Ok (commit, q)
                  else
                    Ok (with_data commit (set_ENQUEUED true (data commit)),
                        {| queue := heap_push (gen_then_time commit) commit_id (queue q);
                           non_stale := non_stale q |}));
  let commit := with_data commit (flags_union (data commit) flags) in
  q ← update_counts q (data commit) true;
  Ok (commit, q).
(** [PaintQueue::pop] *)
Definition side_exhausted (q : PaintQueue) (info : GenThenTime) : bool :=
  let '(c1, c2) := non_stale q in
  ((c1 =? 0) && (c2 =? 0)) ||
  (((c1 =? 0) || (c2 =? 0)) && (0 <? gen info) && (gen info <? GENERATION_NUMBER_MAX)).
Definition paint_pop (q : PaintQueue) (g : graph)
    : outcome rw_error (option (GenThenTime * bytes * PaintQueue * graph)) :=
  match heap_pop (queue q) with
  | None => Ok None
  | Some ((info, commit_id), rest) =>
      if side_exhausted q info then Ok None
      else
        commit ← expect (g !! commit_id);
        let commit := with_data commit (set_ENQUEUED false (data commit)) in
        q ← update_counts {| queue := rest; non_stale := non_stale q |} (data commit) false;
        Ok (Some (info, commit_id, q, <[commit_id := commit]> g))
  end.

Definition paint_update (commit_id : bytes) (flags : Flags) (commit : Commit Flags) (q : PaintQueue)
    : outcome rw_error (Commit Flags * PaintQueue) :=
  if flags_contain (data commit) flags then Ok (commit, q) else paint_insert commit_id flags commit q.
Fixpoint paint_parents (ps : list bytes) (flags : Flags) (q : PaintQueue) (g : graph)
    : outcome rw_error (PaintQueue * graph) :=
  match ps with
  | [] => Ok (q, g)
  | parent_id :: ps =>
      '(g, q, _) ← get_or_insert g parent_id q (paint_update parent_id flags);
      paint_parents ps flags q g
  end.
(** What a commit hands on to its parents. *)
Definition common_flags (f : Flags) : Flags :=
  {| COMMIT1 := COMMIT1 f; COMMIT2 := COMMIT2 f; STALE := STALE f; RESULT := false; ENQUEUED := false |}.
Definition is_candidate (f : Flags) : bool := COMMIT1 f && COMMIT2 f && negb (STALE f).
Fixpoint paint_loop (n : nat) (q : PaintQueue) (g : graph) (out : list (bytes * GenThenTime))
    : outcome rw_error (list (bytes * GenThenTime) * graph) :=
  match n with
  | O => Panic
  | S n =>
      popped ← paint_pop q g;
      match popped with
      | None => Ok (out, g)
      | Some (info, commit_id, q, g) =>
          commit ← expect (g !! commit_id);
          let flags := common_flags (data commit) in
          let '(g, out, flags) :=
            if is_candidate flags then
              let '(g, out) :=
                if RESULT (data commit) then (g, out)
                else (<[commit_id := with_data commit (set_RESULT true (data commit))]> g, out ++ [(commit_id, info)]) in
              (g, out, set_STALE true flags)
            else (g, out, flags) in
          '(q, g) ← paint_parents (parents commit) flags q g;
          paint_loop n q g out
      end
  end.
Fixpoint paint_others (others : list bytes) (q : PaintQueue) (g : graph) : outcome rw_error (PaintQueue * graph) :=
  match others with
  | [] => Ok (q, g)
  | other :: others =>
      '(g, q, _) ← get_or_insert g other q (paint_insert other FLAG_COMMIT2);
      paint_others others q g
  end.
Definition paint_down_to_common (first : bytes) (others : list bytes) (g : graph)
    : outcome rw_error (list (bytes * GenThenTime) * graph) :=
  let q := {| queue := heap_new; non_stale := (0, 0) |} in
  '(g, q, _) ← get_or_insert g first q (paint_insert first FLAG_COMMIT1);
  '(q, g) ← paint_others others q g;
  paint_loop fuel q g [].

(** [remove_redundant]: a commit that is marked, and recorded. *)
Definition mark (id : bytes) (commit : Commit Flags) (l : list (bytes * GenThenTime))
    : outcome rw_error (Commit Flags * list (bytes * GenThenTime)) :=
  if STALE (data commit) then Ok (commit, l)
  else let commit := with_data commit (set_STALE true (data commit)) in
       Ok (commit, (id, gen_then_time commit) :: l).
Fixpoint mark_parents (ps : list bytes) (g : graph) (walk_start : list (bytes * GenThenTime))
    : outcome rw_error (graph * list (bytes * GenThenTime)) :=
  match ps with
  | [] => Ok (g, walk_start)
  | parent_id :: ps =>
      '(g, walk_start, _) ← get_or_insert g parent_id walk_start (mark parent_id);
      mark_parents ps g walk_start
  end.
(** The commits to start from, the last one first. *)
Fixpoint mark_commits (commits : list (bytes * GenThenTime)) (g : graph) (walk_start : list (bytes * GenThenTime))
    : outcome rw_error (graph * list (bytes * GenThenTime)) :=
  match commits with
  | [] => Ok (g, walk_start)
  | (id, _) :: commits =>
      commit ← expect (g !! id);
      let g := <[id := with_data commit (set_RESULT true (data commit))]> g in
      '(g, walk_start) ← mark_parents (parents commit) g walk_start;
      mark_commits commits g walk_start
  end.
Fixpoint unmark (l : list (bytes * GenThenTime)) (g : graph) : outcome rw_error graph :=
  match l with
  | [] => Ok g
  | (id, _) :: l =>
      commit ← expect (g !! id);
      unmark l (<[id := with_data commit (set_STALE false (data commit))]> g)
  end.

(** [while min_gen_pos < commits.len() - 1 && .. contains(Flags::STALE)] *)
Fixpoint advance (n : nat) (g : graph) (sorted : list (bytes * GenThenTime)) (pos last : Z) : outcome rw_error Z :=
  match n with
  | O => Panic
  | S n =>
      if pos <? last then
        '(id, _) ← expect (get sorted pos);
        commit ← expect (g !! id);
        if STALE (data commit) then advance n g sorted (pos + 1) last else Ok pos
      else Ok pos
  end.
Record Walk := {
  walk_graph : graph;
  count_still_independent : Z;
  min_gen_pos : Z;
  min_gen : Z;
}.
(** A visited commit that is a result no longer. The last result tells to stop. *)
Definition visit_result (sorted : list (bytes * GenThenTime)) (commit_id : bytes) (commit : Commit Flags) (w : Walk)
    : outcome rw_error (Walk * bool) :=
  if RESULT (data commit) then
    let g := <[commit_id := with_data commit (set_RESULT false (data commit))]> (walk_graph w) in
    count ← op_sub 64 (count_still_independent w) 1;
    if count <=? 1 then
      Ok ({| walk_graph := g; count_still_independent := count;
             min_gen_pos := min_gen_pos w; min_gen := min_gen w |}, true)
    else
      '(min_id, _) ← expect (get sorted (min_gen_pos w));
      if bytes_eqb commit_id min_id then
        last ← op_sub 64 (zlen sorted) 1;
        pos ← advance (S (length sorted)) g sorted (min_gen_pos w) last;
        '(_, info) ← expect (get sorted pos);
        Ok ({| walk_graph := g; count_still_independent := count; min_gen_pos := pos; min_gen := gen info |}, false)
      else
        Ok ({| walk_graph := g; count_still_independent := count;
               min_gen_pos := min_gen_pos w; min_gen := min_gen w |}, false)
  else Ok (w, false).
(** The loop over parents, which ends at the first one that exists. *)
Fixpoint push_parent (ps : list bytes) (g : graph) (stack : list (bytes * GenThenTime))
    : outcome rw_error (graph * list (bytes * GenThenTime)) :=
  match ps with
  | [] => Ok (g, stack)
  | parent_id :: ps =>
      '(g, stack, is_some) ← get_or_insert g parent_id stack (mark parent_id);
      if (is_some : bool) then Ok (g, stack) else push_parent ps g stack
  end.
Fixpoint walk_stack (n : nat) (sorted stack : list (bytes * GenThenTime)) (w : Walk) : outcome rw_error Walk :=
  match n with
  | O => Panic
  | S n =>
      match stack with
      | [] => Ok w
      | (commit_id, commit_info) :: rest =>
          commit ← expect (walk_graph w !! commit_id);
          '(w, stop) ← visit_result sorted commit_id commit w;
          if (stop : bool) then Ok w
          else if gen commit_info <? min_gen w then walk_stack n sorted rest w
          else
            '(g, stack') ← push_parent (parents commit) (walk_graph w) stack;
            let w := {| walk_graph := g; count_still_independent := count_still_independent w;
                        min_gen_pos := min_gen_pos w; min_gen := min_gen w |} in
            if bool_decide (length stack = length stack') then walk_stack n sorted (drop 1 stack') w
            else walk_stack n sorted stack' w
      end
  end.
Fixpoint walk_all (sorted walk_start : list (bytes * GenThenTime)) (w : Walk) : outcome rw_error Walk :=
  match walk_start with
  | [] => Ok w
  | (commit_id, commit_info) :: walk_start =>
      if 1 <? count_still_independent w then
        commit ← expect (walk_graph w !! commit_id);
        let g := <[commit_id := with_data commit (set_STALE true (data commit))]> (walk_graph w) in
        w ← walk_stack fuel sorted [(commit_id, commit_info)]
              {| walk_graph := g; count_still_independent := count_still_independent w;
                 min_gen_pos := min_gen_pos w; min_gen := min_gen w |};
        walk_all sorted walk_start w
      else Ok w
  end.
Definition still_independent (g : graph) (x : bytes * GenThenTime) : option bytes :=
  commit ← g !! x.1; if STALE (data commit) then None else Some x.1.
Definition remove_redundant (commits : list (bytes * GenThenTime)) (g : graph) : outcome rw_error (list bytes * graph) :=
  match commits with
  | [] => Ok ([], g)
  | _ =>
      let g := clear_commit_data g (λ _, flags_empty) in
      let sorted := sort_by by_key commits in
      '(_, info) ← expect (get sorted 0);
      '(g, walk_start) ← mark_commits commits g [];
      let walk_start := reverse (sort_by by_id (reverse walk_start)) in
      g ← unmark (reverse walk_start) g;
      w ← walk_all sorted walk_start
            {| walk_graph := g; count_still_independent := zlen commits; min_gen_pos := 0; min_gen := gen info |};
      Ok (omap (still_independent (walk_graph w)) commits, walk_graph w)
  end.

Fixpoint insert_input_commits (ids : list bytes) (g : graph) : outcome rw_error graph :=
  match ids with
  | [] => Ok g
  | commit_id :: ids =>
      '(g, _, is_some) ← get_or_insert g commit_id tt (λ commit s, Ok (commit, s));
      _ ← ensure is_some (CommitNotFound commit_id);
      insert_input_commits ids g
  end.
(** [None] stands for no merge base, as the list that is returned is not empty. *)
Definition merge_base (first : bytes) (others : list bytes) (g : graph)
    : outcome rw_error (option (list bytes) * graph) :=
  g ← insert_input_commits (first :: others) g;
  if bool_decide (others = []) || bool_decide (first ∈ others) then Ok (Some [first], g)
  else
    let g := clear_commit_data g (λ _, flags_empty) in
    '(bases, g) ← paint_down_to_common first others g;
    '(bases, g) ← remove_redundant bases g;
    Ok (match bases with [] => None | _ => Some bases end, g).

Fixpoint octopus_loop (first : bytes) (others : list bytes) (g : graph) : outcome rw_error (option bytes * graph) :=
  match others with
  | [] => Ok (Some first, g)
  | other :: others =>
      '(bases, g) ← merge_base first [other] g;
      match (bases : option (list bytes)) with
      | Some (next :: _) => octopus_loop next others g
      | _ => Ok (None, g)
      end
  end.
Definition octopus (first : bytes) (others : list bytes) (g : graph) : outcome rw_error (option bytes * graph) :=
  g ← insert_input_commits (first :: others) g;
  octopus_loop first others g.
End MergeBase.

(** ** Lemmas: keys, sorting, sums *)
Lemma key_le_spec a b : key_le a b ↔ gen a < gen b ∨ (gen a = gen b ∧ time a ≤ time b).
Proof.
  unfold key_le, key_leb, key_cmp. destruct (Z.compare_spec (gen a) (gen b)); [|naive_solver lia..].
  destruct (Z.compare_spec (time a) (time b)); naive_solver lia.
Qed.
Lemma key_le_trans a b c : key_le a b → key_le b c → key_le a c.
Proof. rewrite !key_le_spec. lia. Qed.
Lemma key_le_total a b : key_le a b ∨ key_le b a.
Proof. rewrite !key_le_spec. lia. Qed.
Lemma key_le_gen a b : key_le a b → gen a ≤ gen b.
Proof. rewrite key_le_spec. lia. Qed.
(** The heap that is used in examples. *)
Definition commit_heap : BinaryHeap GenThenTime bytes key_le :=
  list_heap key_le key_leb (λ a b, iff_refl _) key_le_trans key_le_total.

Lemma insert_sorted_perm {A} leb (x : A) l : insert_sorted leb x l ≡ₚ x :: l.
Proof.
  induction l as [|y l IH]; [done|]. cbn [insert_sorted]. destruct (leb x y); [done|].
  rewrite IH. apply Permutation_swap.
Qed.
Lemma sort_by_perm {A} leb (l : list A) : sort_by leb l ≡ₚ l.
Proof. induction l as [|x l IH]; [done|]. cbn. rewrite insert_sorted_perm. by f_equiv. Qed.

Section Sums.
Context {A : Type}.
Implicit Types (f h : A → nat) (l : list A).
Lemma sum_ext f h l : (∀ x, x ∈ l → f x = h x) → sum_list_with f l = sum_list_with h l.
Proof.
  induction l as [|x l IH]; intros Hx; [done|]. cbn. rewrite (Hx x) by (by left). rewrite IH; [done|].
  intros y Hy. apply Hx. by right.
Qed.
(** Two sums that differ at one element. *)
Lemma sum_update f h l x : NoDup l → x ∈ l → (∀ y, y ≠ x → f y = h y) →
  (sum_list_with f l + h x = sum_list_with h l + f x)%nat.
Proof.
  intros Hnd Hx Hfh. apply elem_of_Permutation in Hx as [k Hk].
  rewrite Hk in Hnd |- *. apply list.NoDup_cons in Hnd as [Hx _]. cbn.
  rewrite (sum_ext f h k); [lia|]. intros y Hy. apply Hfh. intros ->. done.
Qed.
Lemma sum_le f l : (∀ x, f x ≤ 1)%nat → (sum_list_with f l ≤ length l)%nat.
Proof. intros Hf. induction l as [|x l IH]; [done|]. cbn. specialize (Hf x). lia. Qed.
Lemma sum_pos f l x : x ∈ l → (f x ≤ sum_list_with f l)%nat.
Proof. apply sum_list_with_in. Qed.
End Sums.

Definition flags_sub (a b : Flags) : Prop :=
  (COMMIT1 a → COMMIT1 b) ∧ (COMMIT2 a → COMMIT2 b) ∧ (STALE a → STALE b).
(** What a commit with these flags hands on. *)
Definition handed_flags (f : Flags) : Flags :=
  {| COMMIT1 := COMMIT1 f; COMMIT2 := COMMIT2 f; STALE := STALE f || (COMMIT1 f && COMMIT2 f);
     RESULT := false; ENQUEUED := false |}.
(** The number of flags that can still be added. *)
Definition missing (f : Flags) : nat :=
  Nat.b2n (negb (COMMIT1 f)) + Nat.b2n (negb (COMMIT2 f)) + Nat.b2n (negb (STALE f)).
Definition counted (side : Flags → bool) (f : Flags) : nat := Nat.b2n (side f && negb (STALE f)).

Ltac flags :=
  repeat match goal with f : Flags |- _ => destruct f as [[] [] [] [] []] end;
  unfold flags_sub, handed_flags, missing, counted in *; cbn in *; try tauto; try lia; try done.

Lemma flags_sub_trans a b c : flags_sub a b → flags_sub b c → flags_sub a c.
Proof. unfold flags_sub. tauto. Qed.
Lemma flags_sub_union f p : flags_sub f (flags_union (set_ENQUEUED true f) p) ∧
  flags_sub p (flags_union (set_ENQUEUED true f) p).
Proof. unfold flags_sub. cbn. split; repeat split; intros H; apply orb_prop_intro; tauto. Qed.
Lemma contain_sub f h : RESULT h = false → ENQUEUED h = false → flags_contain f h = true ↔ flags_sub h f.
Proof. destruct f as [[] [] [] [] []], h as [[] [] [] [] []]; cbn; unfold flags_sub; cbn; naive_solver. Qed.
Lemma missing_less f h : flags_contain f h = false → RESULT h = false → ENQUEUED h = false →
  (missing (flags_union (set_ENQUEUED true f) h) < missing f)%nat.
Proof. destruct f as [[] [] [] [] []], h as [[] [] [] [] []]; cbn; try done; lia. Qed.
Lemma missing_le f h : (missing (flags_union (set_ENQUEUED true f) h) ≤ missing f)%nat.
Proof. destruct f as [[] [] [] [] []], h as [[] [] [] [] []]; cbn; lia. Qed.

(** ** Lemmas: the commits of a repository *)
Section Repository.
Context {H : BinaryHeap GenThenTime bytes key_le}.
Context (try_find : bytes → outcome rw_error (option (bool * bytes))).
Context (tokens : bytes → list (rw_error + Token)).
Context (cache : option CommitGraph.Graph).
(** All commits that can be loaded. *)
Context (db : gmap bytes (Commit ())).
Notation graph := (Graph Flags).

(** What is a well-formed id. *)
Context (known : bytes → Prop).

(** Loading never fails, and finds exactly these. *)
Definition loads : Prop :=
  (∀ id, known id → load try_find tokens cache id flags_empty = Ok ((λ c, with_data c flags_empty) <$> db !! id)) ∧
  ∀ id d, db !! id = Some d → known id ∧ Forall known (parents d).
(** A commit and a parent of it that exists. *)
Definition edge (x p : bytes) : Prop := ∃ d, db !! x = Some d ∧ p ∈ parents d ∧ is_Some (db !! p).
Definition key (x : bytes) : GenThenTime :=
  match db !! x with Some d => gen_then_time d | None => {| gen := 0; time := 0 |} end.

(** The common ancestors of [first] and any of [others], and those among them that are
    in the history of no other. *)
Definition common (first : bytes) (others : list bytes) (x : bytes) : Prop :=
  rtc edge first x ∧ ∃ o, o ∈ others ∧ rtc edge o x.
Definition best (first : bytes) (others : list bytes) (x : bytes) : Prop :=
  common first others x ∧ ∀ y, common first others y → ¬ tc edge y x.
(** Generations never increase towards parents, and decrease where they are computed and
    not saturated: this holds without a commit graph, and if it is correct and complete
    in its histories. *)
Definition generations_ok : Prop := ∀ x p, edge x p →
  gen (key p) ≤ gen (key x) ∧ (0 < gen (key x) < GENERATION_NUMBER_MAX → gen (key p) < gen (key x)).
Definition generations_known : Prop := ∀ x, is_Some (db !! x) → 0 < gen (key x) < GENERATION_NUMBER_MAX.

(** The map agrees with what can be loaded. *)
Definition graph_fits (g : graph) : Prop := ∀ id c, g !! id = Some c → db !! id = Some (with_data c tt).
Definition fl (g : graph) (id : bytes) : Flags :=
  match g !! id with Some c => data c | None => flags_empty end.

Context (Hload : loads).

Lemma with_data_same {T U} (c : Commit T) (d : U) : with_data (with_data c d) (data c) = c.
Proof. by destruct c. Qed.
Lemma with_data_twice {T U V} (c : Commit T) (d : U) (e : V) : with_data (with_data c d) e = with_data c e.
Proof. done. Qed.

Lemma fits_lookup g id d : graph_fits g → db !! id = Some d → is_Some (g !! id) →
  g !! id = Some (with_data d (fl g id)).
Proof.
  intros Hg Hd [c Hc]. unfold fl. rewrite Hc. apply Hg in Hc. rewrite Hd in Hc. injection Hc as ->.
  by rewrite with_data_same.
Qed.
Lemma fl_insert g id d f x :
  fl (<[id := with_data (d : Commit ()) f]> g) x = if decide (x = id) then f else fl g x.
Proof.
  unfold fl. destruct (decide (x = id)) as [->|Hx]; [by rewrite lookup_insert_eq|].
  by rewrite lookup_insert_ne.
Qed.
Lemma fits_insert g id d f : graph_fits g → db !! id = Some d → graph_fits (<[id := with_data d f]> g).
Proof.
  intros Hg Hd x c. rewrite lookup_insert_Some. intros [[<- <-]|[_ Hc]]; [|by apply Hg].
  rewrite Hd. by destruct d as [? ? ? []].
Qed.
Lemma fl_in_db g x : graph_fits g → fl g x ≠ flags_empty → is_Some (db !! x).
Proof.
  intros Hg Hf. unfold fl in Hf. destruct (g !! x) eqn:E; [|done]. apply Hg in E. by eexists.
Qed.
Lemma fits_clear g f : graph_fits g → graph_fits (clear_commit_data g f).
Proof.
  intros Hg id c. unfold clear_commit_data. rewrite lookup_fmap. intros (c' & Hc & ->)%fmap_Some.
  by apply Hg in Hc.
Qed.
Lemma fl_clear g x : fl (clear_commit_data g (λ _, flags_empty)) x = flags_empty.
Proof. unfold fl, clear_commit_data. rewrite lookup_fmap. by destruct (g !! x). Qed.

(** [get_or_insert_full_commit] on a map that fits *)
Lemma get_or_insert_Some {S : Type} g id d (s : S) upd : graph_fits g → db !! id = Some d →
  get_or_insert_full_commit try_find tokens cache g id flags_empty s upd =
  '(c, s) ← upd (with_data d (fl g id)) s; Ok (<[id := c]> g, s, true).
Proof using Hload.
  intros Hg Hd. unfold get_or_insert_full_commit. destruct (g !! id) as [c|] eqn:E.
  - by rewrite <- (with_data_same c tt) at 1; rewrite (Hg id c E) in Hd; injection Hd as <-; unfold fl; rewrite E.
  - destruct Hload as [Hl Hk]. rewrite Hl by (by eapply Hk). rewrite Hd. cbn. unfold fl. by rewrite E.
Qed.
Lemma get_or_insert_None {S : Type} g id (s : S) upd : graph_fits g → known id → db !! id = None →
  get_or_insert_full_commit try_find tokens cache g id flags_empty s upd = Ok (g, s, false).
Proof using Hload.
  intros Hg Hk Hd. unfold get_or_insert_full_commit. destruct (g !! id) as [c|] eqn:E.
  - apply Hg in E. congruence.
  - destruct Hload as [Hl _]. by rewrite Hl, Hd.
Qed.
Lemma parent_known x d p : db !! x = Some d → p ∈ parents d → known p.
Proof using Hload.
  intros Hd Hp. destruct Hload as [_ Hk]. apply Hk in Hd as [_ Hps]. rewrite list.Forall_forall in Hps. auto.
Qed.

(** ** Lemmas: painting *)
Section Painting.
Context (first : bytes) (others : list bytes).
Context (Hgen : generations_ok) (Hsize : Z.of_nat (size db) < 2 ^ 63).
Notation common := (common first others).
Notation best := (best first others).
Notation U := (elements (dom db)).

(** Flags that are true of a commit. *)
Definition flags_sound (x : bytes) (f : Flags) : Prop :=
  (COMMIT1 f → rtc edge first x) ∧ (COMMIT2 f → ∃ o, o ∈ others ∧ rtc edge o x) ∧
  (STALE f → ∃ y, common y ∧ tc edge y x).
(** A commit that was popped. *)
Definition popped (f : Flags) : Prop := ENQUEUED f = false ∧ (COMMIT1 f ∨ COMMIT2 f).

Record paint_inv (q : PaintQueue) (g : graph) (out : list (bytes * GenThenTime)) (E : list bytes) : Prop := {
  pi_graph : graph_fits g;
  pi_queue : heap_items (queue q) ≡ₚ (λ x, (key x, x)) <$> E;
  pi_nodup : NoDup E;
  pi_enq : ∀ x, x ∈ E ↔ ENQUEUED (fl g x) = true;
  pi_counts : non_stale q = (Z.of_nat (sum_list_with (λ x, counted COMMIT1 (fl g x)) E),
                             Z.of_nat (sum_list_with (λ x, counted COMMIT2 (fl g x)) E));
  pi_sound : ∀ x, flags_sound x (fl g x);
  pi_order : ∀ x y, popped (fl g x) → y ∈ E → gen (key y) ≤ gen (key x);
  pi_out_nodup : NoDup out.*1;
  pi_out : ∀ x, x ∈ out.*1 ↔ RESULT (fl g x) = true;
  pi_result : ∀ x, RESULT (fl g x) = true → COMMIT1 (fl g x) ∧ COMMIT2 (fl g x);
  pi_done : ∀ x, ENQUEUED (fl g x) = false → COMMIT1 (fl g x) → COMMIT2 (fl g x) →
    RESULT (fl g x) = true ∨ STALE (fl g x);
  pi_best : generations_known → ∀ x, RESULT (fl g x) = true → ∀ y, common y → ¬ tc edge y x;
}.
(** Commits that are not queued have handed on their flags, but for some edges. *)
Definition handed (g : graph) (pending : bytes → bytes → Prop) : Prop := ∀ x p,
  ENQUEUED (fl g x) = false → edge x p → pending x p ∨ flags_sub (handed_flags (fl g x)) (fl g p).
Definition grows (g g' : graph) : Prop := ∀ x, flags_sub (fl g x) (fl g' x).
(** The flags that are still missing, and the commits in the queue. *)
Definition paint_measure (g : graph) (E : list bytes) : nat :=
  sum_list_with (λ x, missing (fl g x)) U + length E.

Lemma grows_trans g1 g2 g3 : grows g1 g2 → grows g2 g3 → grows g1 g3.
Proof. intros H1 H2 x. eapply flags_sub_trans; [apply H1|apply H2]. Qed.
Lemma edge_in_db x p : edge x p → is_Some (db !! x) ∧ is_Some (db !! p).
Proof. intros (d & Hd & _ & Hp). split; [by eexists|done]. Qed.
Lemma sound_handed x p f : flags_sound x f → edge x p → flags_sound p (handed_flags f).
Proof.
  intros (H1 & H2 & H3) He. split_and!; cbn.
  - intros Hf. eapply rtc_r; eauto.
  - intros Hf. destruct (H2 Hf) as (o & Ho & Hr). exists o. split; [done|]. eapply rtc_r; eauto.
  - intros [Hf|Hf]%orb_prop_elim.
    + destruct (H3 Hf) as (y & Hy & Hyx). exists y. split; [done|]. eapply tc_r; eauto.
    + apply andb_prop_elim in Hf as [Hf1 Hf2]. exists x. split; [|by apply tc_once]. split; auto.
Qed.

Lemma in_E_db q g out E x : paint_inv q g out E → x ∈ E → is_Some (db !! x).
Proof.
  intros Hi Hx. apply (fl_in_db g x (pi_graph _ _ _ _ Hi)). apply (pi_enq _ _ _ _ Hi) in Hx. intros Hf.
  by rewrite Hf in Hx.
Qed.
Lemma length_E q g out E : paint_inv q g out E → (length E ≤ size db)%nat.
Proof.
  intros Hi. rewrite <- size_dom. change (size (dom db)) with (length U).
  apply submseteq_length, NoDup_submseteq; [apply (pi_nodup _ _ _ _ Hi)|].
  intros x Hx. apply elem_of_elements, elem_of_dom. by eapply in_E_db.
Qed.

Lemma count_step_add side c : 0 ≤ c → c + 1 < 2 ^ 64 → count_step true side c = Ok (c + Z.of_nat (Nat.b2n side)).
Proof.
  intros H1 H2. destruct side; cbn [count_step Nat.b2n]; [|f_equal; lia].
  unfold op_add. by rewrite checked_add_in by lia.
Qed.
Lemma count_step_sub side c : Z.of_nat (Nat.b2n side) ≤ c < 2 ^ 64 →
  count_step false side c = Ok (c - Z.of_nat (Nat.b2n side)).
Proof.
  intros H1. destruct side; cbn [count_step Nat.b2n] in *; [|f_equal; lia].
  unfold op_sub. by rewrite checked_sub_in by lia.
Qed.
Lemma update_counts_add (q : PaintQueue) f c1 c2 : non_stale q = (c1, c2) → 0 ≤ c1 → 0 ≤ c2 →
  c1 + 1 < 2 ^ 64 → c2 + 1 < 2 ^ 64 →
  update_counts q f true = Ok {| queue := queue q;
    non_stale := (c1 + Z.of_nat (counted COMMIT1 f), c2 + Z.of_nat (counted COMMIT2 f)) |}.
Proof.
  intros Hq H1 H2 H3 H4. unfold update_counts, counted. destruct q as [h n]. cbn in *. subst n.
  destruct (STALE f); cbn; [rewrite !andb_false_r, !Z.add_0_r; done|].
  rewrite !count_step_add by done. cbn. by rewrite !andb_true_r.
Qed.
Lemma update_counts_sub (q : PaintQueue) f c1 c2 : non_stale q = (c1, c2) →
  Z.of_nat (counted COMMIT1 f) ≤ c1 < 2 ^ 64 → Z.of_nat (counted COMMIT2 f) ≤ c2 < 2 ^ 64 →
  update_counts q f false = Ok {| queue := queue q;
    non_stale := (c1 - Z.of_nat (counted COMMIT1 f), c2 - Z.of_nat (counted COMMIT2 f)) |}.
Proof.
  intros Hq H1 H2. unfold update_counts, counted in *. destruct q as [h n]. cbn in *. subst n.
  destruct (STALE f); cbn in *; [rewrite !andb_false_r, !Z.sub_0_r; done|].
  rewrite !andb_true_r in *. by rewrite !count_step_sub by done.
Qed.
Lemma counted_le side f : (counted side f ≤ 1)%nat.
Proof. unfold counted. destruct (side f && negb (STALE f)); cbn; lia. Qed.

(** The flags of one commit change, and it is in the queue afterwards. *)
Lemma paint_inv_insert q q' g out E E' p d flags :
  let f' := flags_union (set_ENQUEUED true (fl g p)) flags in
  let g' := <[p := with_data d f']> g in
  paint_inv q g out E → db !! p = Some d → RESULT flags = false → ENQUEUED flags = false → flags_sound p flags →
  (∀ x, popped (fl g x) → gen (key p) ≤ gen (key x)) →
  heap_items (queue q') ≡ₚ (λ x, (key x, x)) <$> E' → NoDup E' → (∀ x, x ∈ E' ↔ x = p ∨ x ∈ E) →
  non_stale q' = (Z.of_nat (sum_list_with (λ x, counted COMMIT1 (fl g' x)) E'),
                  Z.of_nat (sum_list_with (λ x, counted COMMIT2 (fl g' x)) E')) →
  paint_inv q' g' out E' ∧ grows g g'.
Proof.
  intros f' g' Hi Hd Hr He Hs Hord Hq Hnd HE Hcount.
  assert (Hfl : ∀ x, fl g' x = if decide (x = p) then f' else fl g x) by (intros x; apply fl_insert).
  assert (Hgrow : grows g g').
  { intros x. rewrite Hfl. destruct (decide (x = p)) as [->|]; [apply flags_sub_union|unfold flags_sub; tauto]. }
  split; [|done]. split; try done.
  - by apply fits_insert; [apply (pi_graph _ _ _ _ Hi)|].
  - intros x. rewrite HE, (pi_enq _ _ _ _ Hi), Hfl. destruct (decide (x = p)) as [->|]; [|naive_solver].
    split; [done|]. by left.
  - intros x. rewrite Hfl. destruct (decide (x = p)) as [->|]; [|apply (pi_sound _ _ _ _ Hi)].
    pose proof (pi_sound _ _ _ _ Hi p) as (S1 & S2 & S3). destruct Hs as (T1 & T2 & T3).
    split_and!; cbn; intros [?|?]%orb_prop_elim; auto.
  - intros x y Hx Hy. rewrite Hfl in Hx. destruct (decide (x = p)) as [->|]; [by destruct Hx|].
    apply HE in Hy as [->|Hy]; [by apply Hord|]. by apply (pi_order _ _ _ _ Hi).
  - apply (pi_out_nodup _ _ _ _ Hi).
  - intros x. rewrite (pi_out _ _ _ _ Hi), Hfl. destruct (decide (x = p)) as [->|]; [|done].
    subst f'. cbn. by rewrite Hr, orb_false_r.
  - intros x. rewrite Hfl. destruct (decide (x = p)) as [->|]; [|apply (pi_result _ _ _ _ Hi)].
    subst f'. cbn. rewrite Hr, orb_false_r. intros Hres. apply (pi_result _ _ _ _ Hi) in Hres as [H1 H2].
    split; apply orb_prop_intro; by left.
  - intros x. rewrite Hfl. destruct (decide (x = p)) as [->|]; [done|apply (pi_done _ _ _ _ Hi)].
  - intros Hk x. rewrite Hfl. destruct (decide (x = p)) as [->|]; [|by apply (pi_best _ _ _ _ Hi)].
    subst f'. cbn. rewrite Hr, orb_false_r. by apply (pi_best _ _ _ _ Hi).
Qed.

(** The sums over commits when the flags of one change. *)
Lemma missing_insert g p d f : db !! p = Some d →
  (sum_list_with (λ x, missing (fl (<[p := with_data d f]> g) x)) U + missing (fl g p) =
   sum_list_with (λ x, missing (fl g x)) U + missing f)%nat.
Proof.
  intros Hd. assert (Hp : fl (<[p := with_data d f]> g) p = f) by (by rewrite fl_insert, decide_True).
  rewrite <- Hp at 1. apply (sum_update (λ x, missing (fl (<[p := with_data d f]> g) x)) (λ x, missing (fl g x)) U p);
    [apply NoDup_elements|apply elem_of_elements, elem_of_dom; by eexists|].
  intros y Hy. by rewrite fl_insert, decide_False.
Qed.
Lemma counts_bound q g out E side : paint_inv q g out E →
  Z.of_nat (sum_list_with (λ x, counted side (fl g x)) E) + 1 < 2 ^ 64.
Proof using Hsize.
  intros Hi. pose proof (length_E _ _ _ _ Hi).
  pose proof (sum_le (λ x, counted side (fl g x)) E (λ x, counted_le side (fl g x))). lia.
Qed.
Lemma counted_insert g p d f (side : Flags → bool) x : x ≠ p → counted side (fl (<[p := with_data (d : Commit ()) f]> g) x) = counted side (fl g x).
Proof. intros Hx. by rewrite fl_insert, decide_False. Qed.

(** Inserting a commit that is in the queue already, and one that is not. *)
Lemma paint_insert_queued q g out E p (d : Commit ()) flags :
  let f' := flags_union (set_ENQUEUED true (fl g p)) flags in
  let g' := <[p := with_data d f']> g in
  paint_inv q g out E → ENQUEUED (fl g p) = true →
  ∃ q', paint_insert p flags (with_data d (fl g p)) q = Ok (with_data d f', q') ∧ queue q' = queue q ∧
    non_stale q' = (Z.of_nat (sum_list_with (λ x, counted COMMIT1 (fl g' x)) E),
                    Z.of_nat (sum_list_with (λ x, counted COMMIT2 (fl g' x)) E)).
Proof using Hsize.
  intros f' g' Hi Eenq. pose proof (pi_counts _ _ _ _ Hi) as Hc.
  pose proof (counts_bound q g out E COMMIT1 Hi). pose proof (counts_bound q g out E COMMIT2 Hi).
  assert (HpE : p ∈ E) by (by apply (pi_enq _ _ _ _ Hi)).
  assert (Hsum : ∀ side, (sum_list_with (λ x, counted side (fl g' x)) E + counted side (fl g p) =
                          sum_list_with (λ x, counted side (fl g x)) E + counted side f')%nat).
  { intros side. assert (Hp : fl g' p = f') by (subst g'; by rewrite fl_insert, decide_True). rewrite <- Hp.
    apply (sum_update (λ x, counted side (fl g' x)) (λ x, counted side (fl g x)));
      [apply (pi_nodup _ _ _ _ Hi)|done|]. intros y Hy. by apply counted_insert. }
  pose proof (sum_pos (λ x, counted COMMIT1 (fl g x)) E p HpE) as P1.
  pose proof (sum_pos (λ x, counted COMMIT2 (fl g x)) E p HpE) as P2. cbn in P1, P2.
  pose proof (Hsum COMMIT1) as S1. pose proof (Hsum COMMIT2) as S2.
  assert (Hf' : flags_union (fl g p) flags = f').
  { subst f'. unfold flags_union, set_ENQUEUED. cbn. by rewrite Eenq. }
  unfold paint_insert. cbn [data with_data]. rewrite Eenq.
  erewrite (update_counts_sub q (fl g p)) by (exact Hc || lia).
  cbn [mbind outcome_bind data with_data]. rewrite Hf'. erewrite update_counts_add by (reflexivity || lia).
  cbn [mbind outcome_bind queue]. eexists. split; [done|]. split; [done|]. cbn [non_stale]. f_equal; lia.
Qed.
Lemma paint_insert_new q g out E p (d : Commit ()) flags :
  let f' := flags_union (set_ENQUEUED true (fl g p)) flags in
  let g' := <[p := with_data d f']> g in
  paint_inv q g out E → ENQUEUED (fl g p) = false → db !! p = Some d →
  ∃ q', paint_insert p flags (with_data d (fl g p)) q = Ok (with_data d f', q') ∧
    heap_items (queue q') ≡ₚ (λ x, (key x, x)) <$> (p :: E) ∧ p ∉ E ∧
    non_stale q' = (Z.of_nat (sum_list_with (λ x, counted COMMIT1 (fl g' x)) (p :: E)),
                    Z.of_nat (sum_list_with (λ x, counted COMMIT2 (fl g' x)) (p :: E))).
Proof using Hsize.
  intros f' g' Hi Eenq Hd. pose proof (pi_counts _ _ _ _ Hi) as Hc.
  pose proof (counts_bound q g out E COMMIT1 Hi). pose proof (counts_bound q g out E COMMIT2 Hi).
  assert (HpE : p ∉ E) by (rewrite (pi_enq _ _ _ _ Hi); congruence).
  assert (Hsum : ∀ side, sum_list_with (λ x, counted side (fl g' x)) E = sum_list_with (λ x, counted side (fl g x)) E).
  { intros side. apply sum_ext. intros x Hx. apply counted_insert. by intros ->. }
  assert (Hp : fl g' p = f') by (subst g'; by rewrite fl_insert, decide_True).
  unfold paint_insert. cbn [data with_data]. rewrite Eenq.
  cbn [mbind outcome_bind data with_data]. rewrite with_data_twice. fold f'.
  erewrite update_counts_add by (exact Hc || lia).
  cbn [mbind outcome_bind queue]. eexists. split; [done|]. cbn [queue non_stale]. split; [|split; [done|]].
  - rewrite heap_push_items, (pi_queue _ _ _ _ Hi), fmap_cons. f_equiv. f_equal. unfold key. by rewrite Hd.
  - cbn [sum_list_with]. rewrite !Hsum, Hp. f_equal; lia.
Qed.

Lemma paint_insert_ok q g out E p d flags :
  paint_inv q g out E → db !! p = Some d → RESULT flags = false → ENQUEUED flags = false → flags_sound p flags →
  (∀ x, popped (fl g x) → gen (key p) ≤ gen (key x)) →
  ENQUEUED (fl g p) = true ∨ flags_contain (fl g p) flags = false →
  let f' := flags_union (set_ENQUEUED true (fl g p)) flags in
  let g' := <[p := with_data d f']> g in
  ∃ q' E', paint_insert p flags (with_data d (fl g p)) q = Ok (with_data d f', q') ∧
    paint_inv q' g' out E' ∧ grows g g' ∧ (paint_measure g' E' ≤ paint_measure g E)%nat.
Proof using Hsize.
  intros Hi Hd Hr He Hs Hord Hgrow f' g'. pose proof (missing_insert g p d f' Hd) as HM. fold g' in HM.
  destruct (ENQUEUED (fl g p)) eqn:Eenq.
  - destruct (paint_insert_queued q g out E p d flags Hi Eenq) as (q' & Heq & Hq & Hc). exists q', E. split; [done|].
    destruct (paint_inv_insert q q' g out E E p d flags) as [Hi' Hg']; try done.
    { rewrite Hq. apply (pi_queue _ _ _ _ Hi). }
    { apply (pi_nodup _ _ _ _ Hi). }
    { intros x. split; [by right|]. intros [->|?]; [|done]. by apply (pi_enq _ _ _ _ Hi). }
    split; [done|]. split; [done|]. unfold paint_measure. pose proof (missing_le (fl g p) flags) as Hm. fold f' in Hm. lia.
  - destruct (paint_insert_new q g out E p d flags Hi Eenq Hd) as (q' & Heq & Hq & HpE & Hc).
    exists q', (p :: E). split; [done|].
    destruct (paint_inv_insert q q' g out E (p :: E) p d flags) as [Hi' Hg']; try done.
    { constructor; [done|]. apply (pi_nodup _ _ _ _ Hi). }
    { intros x. by rewrite list.elem_of_cons. }
    split; [done|]. split; [done|]. destruct Hgrow as [?|Hgrow]; [done|].
    pose proof (missing_less _ _ Hgrow Hr He) as Hm. fold f' in Hm. unfold paint_measure. cbn [length]. lia.
Qed.

Lemma paint_inv_ext q g g' out E : graph_fits g' → (∀ x, fl g' x = fl g x) → paint_inv q g out E → paint_inv q g' out E.
Proof.
  intros Hfit Hfl [].
  assert (Hsum : ∀ side, sum_list_with (λ x, counted side (fl g' x)) E = sum_list_with (λ x, counted side (fl g x)) E)
    by (intros side; apply sum_ext; intros x _; by rewrite Hfl).
  split; try done; intros; rewrite ?Hsum; rewrite ?Hfl in *; eauto.
Qed.
Lemma paint_measure_ext g g' E : (∀ x, fl g' x = fl g x) → paint_measure g' E = paint_measure g E.
Proof. intros Hfl. unfold paint_measure. f_equal. apply sum_ext. intros x _. by rewrite Hfl. Qed.
Lemma handed_mono g g' p (P Q : bytes → bytes → Prop) :
  (∀ x, fl g' x = fl g x ∨ (x = p ∧ ENQUEUED (fl g' x) = true)) → grows g g' →
  handed g P → (∀ y z, ENQUEUED (fl g' y) = false → edge y z → P y z →
    Q y z ∨ flags_sub (handed_flags (fl g' y)) (fl g' z)) → handed g' Q.
Proof.
  intros Hfl Hg Hh HPQ y z Hy Hyz. destruct (Hfl y) as [Hfy|[_ Hfy]]; [|congruence].
  destruct (Hh y z) as [HP|Hs]; [by rewrite <- Hfy|done|by apply HPQ|].
  right. rewrite Hfy. eapply flags_sub_trans; [exact Hs|apply Hg].
Qed.

(** One parent of the commit [x]. *)
Lemma paint_parent_ok x fx out p ps q g E :
  paint_inv q g out E → handed g (λ y z, y = x ∧ z ∈ p :: ps) →
  (ENQUEUED (fl g x) = false → fl g x = fx) → flags_sound x fx →
  (∃ dx, db !! x = Some dx ∧ p ∈ parents dx) →
  (∀ y, popped (fl g y) → gen (key x) ≤ gen (key y)) →
  ∃ q' g' E' b, get_or_insert_full_commit try_find tokens cache g p flags_empty q (paint_update p (handed_flags fx)) =
      Ok (g', q', b) ∧
    paint_inv q' g' out E' ∧ handed g' (λ y z, y = x ∧ z ∈ ps) ∧ grows g g' ∧
    (paint_measure g' E' ≤ paint_measure g E)%nat ∧
    (ENQUEUED (fl g' x) = false → fl g' x = fx) ∧ (∀ y, popped (fl g' y) → gen (key x) ≤ gen (key y)).
Proof using Hload Hgen Hsize.
  intros Hi Hh Hx Hs (dx & Hdx & Hpx) Hord.
  assert (Hkp : known p) by (by eapply parent_known). destruct (db !! p) as [d|] eqn:Hd.
  2: { rewrite get_or_insert_None by (done || apply (pi_graph _ _ _ _ Hi)). exists q, g, E, false.
       split; [done|]. split; [done|]. split; [|split; [intros y; unfold flags_sub; tauto|done]].
       intros y z Hy Hyz. destruct (Hh y z Hy Hyz) as [[-> [->|Hz]%list.elem_of_cons]|?]; auto.
       apply edge_in_db in Hyz as [_ [? ?]]. congruence. }
  assert (He : edge x p) by (exists dx; split; [done|]; split; [done|by eexists]).
  erewrite get_or_insert_Some by (exact Hd || apply (pi_graph _ _ _ _ Hi)). unfold paint_update. cbn [data with_data].
  destruct (flags_contain (fl g p) (handed_flags fx)) eqn:Ec; cbn [mbind outcome_bind].
  - assert (Hfl : ∀ y, fl (<[p := with_data d (fl g p)]> g) y = fl g y).
    { intros y. rewrite fl_insert. by destruct (decide (y = p)) as [->|]. }
    eexists q, _, E, true. split; [done|].
    split; [by eapply paint_inv_ext; [apply fits_insert; [apply (pi_graph _ _ _ _ Hi)|done]|..]|].
    apply contain_sub in Ec; [|done..].
    split; [|split; [intros y; rewrite Hfl; unfold flags_sub; tauto|]].
    + eapply (handed_mono g _ p); [by left|intros y; rewrite Hfl; unfold flags_sub; tauto|exact Hh|].
      intros y z Hy Hyz [-> [->|Hz]%list.elem_of_cons]; [|by left]. right. rewrite !Hfl in *.
      by rewrite (Hx Hy).
    + rewrite (paint_measure_ext g) by done. split; [done|]. split; [by rewrite Hfl|].
      intros y. rewrite Hfl. apply Hord.
  - destruct (paint_insert_ok q g out E p d (handed_flags fx)) as (q' & E' & -> & Hi' & Hg' & Hm); try done.
    { by apply (sound_handed x). }
    { intros y Hy. apply Hord in Hy. pose proof (Hgen x p He). lia. }
    { by right. }
    cbn [mbind outcome_bind]. eexists q', _, E', true. split; [done|]. split; [done|].
    assert (Hfl : ∀ y, fl (<[p := with_data d (flags_union (set_ENQUEUED true (fl g p)) (handed_flags fx))]> g) y =
      if decide (y = p) then flags_union (set_ENQUEUED true (fl g p)) (handed_flags fx) else fl g y)
      by (intros y; apply fl_insert).
    split; [|split; [done|split; [done|]]].
    + eapply (handed_mono g _ p); [|exact Hg'|exact Hh|].
      * intros y. rewrite Hfl. destruct (decide (y = p)) as [->|]; [by right|by left].
      * intros y z Hy Hyz [-> [->|Hz]%list.elem_of_cons]; [|by left]. right. rewrite Hfl in Hy.
        destruct (decide (x = p)) as [->|Hxp]; [done|]. rewrite !Hfl, decide_False, decide_True, (Hx Hy) by done.
        apply flags_sub_union.
    + split; intros y; rewrite Hfl in *.
      * destruct (decide (x = p)); [done|]. by apply Hx.
      * destruct (decide (y = p)); [by intros [??]|]. apply Hord.
Qed.

Lemma paint_parents_ok x fx out ps : ∀ q g E,
  paint_inv q g out E → handed g (λ y z, y = x ∧ z ∈ ps) →
  (ENQUEUED (fl g x) = false → fl g x = fx) → flags_sound x fx →
  (∀ p, p ∈ ps → ∃ dx, db !! x = Some dx ∧ p ∈ parents dx) →
  (∀ y, popped (fl g y) → gen (key x) ≤ gen (key y)) →
  ∃ q' g' E', paint_parents try_find tokens cache ps (handed_flags fx) q g = Ok (q', g') ∧
    paint_inv q' g' out E' ∧ handed g' (λ _ _, False) ∧ grows g g' ∧ (paint_measure g' E' ≤ paint_measure g E)%nat.
Proof using Hload Hgen Hsize.
  induction ps as [|p ps IH]; intros q g E Hi Hh Hx Hs Hps Hord; cbn [paint_parents].
  - exists q, g, E. split; [done|]. split; [done|]. split; [|split; [intros y; unfold flags_sub; tauto|done]].
    intros y z Hy Hyz. destruct (Hh y z Hy Hyz) as [[_ Hz]|?]; [by apply elem_of_nil in Hz|by right].
  - destruct (paint_parent_ok x fx out p ps q g E) as (q' & g' & E' & b & -> & Hi' & Hh' & Hg' & Hm & Hx' & Hord');
      try done; [apply Hps; by left|]. cbn [mbind outcome_bind].
    destruct (IH q' g' E') as (q2 & g2 & E2 & -> & Hi2 & Hh2 & Hg2 & Hm2); try done.
    { intros z Hz. apply Hps. by right. }
    exists q2, g2, E2. split; [done|]. split; [done|]. split; [done|]. split; [by eapply grows_trans|lia].
Qed.

(** The input commits have their colors. *)
Definition rooted (g : graph) : Prop := COMMIT1 (fl g first) ∧ ∀ o, o ∈ others → COMMIT2 (fl g o).
Lemma rooted_grows g g' : grows g g' → rooted g → rooted g'.
Proof.
  intros Hg [H1 H2]. split; [by apply (Hg first)|]. intros o Ho. apply (Hg o). by apply H2.
Qed.

(** A flag reaches all commits that are not behind the queue. *)
Definition hands_on (c : Flags → bool) : Prop := ∀ f h, flags_sub (handed_flags f) h → c f → c h.
Lemma hands_on_colors : hands_on COMMIT1 ∧ hands_on COMMIT2 ∧ hands_on STALE.
Proof.
  split_and!; intros f h (H1 & H2 & H3) Hf; [by apply H1|by apply H2|]. apply H3. cbn. apply orb_prop_intro. by left.
Qed.
Lemma path_flag c g a z : hands_on c → handed g (λ _ _, False) → rtc edge a z → c (fl g a) →
  (∀ w, rtc edge a w → c (fl g w) → tc edge w z → ENQUEUED (fl g w) = false) → c (fl g z).
Proof.
  intros Hc Hh Hr Ha. revert z Hr. apply (rtc_ind_r (λ z, _ → c (fl g z))); [done|].
  intros y z Hay Hyz IH Hw. assert (Hy : c (fl g y)).
  { apply IH. intros w H1 H2 H3. apply Hw; [done..|]. by eapply tc_r. }
  destruct (Hh y z) as [[]|Hs]; [apply Hw; [done..|by apply tc_once]|done|]. by eapply Hc.
Qed.

Lemma tc_gen x z : tc edge x z →
  gen (key z) ≤ gen (key x) ∧ (0 < gen (key x) < GENERATION_NUMBER_MAX → gen (key z) < gen (key x)).
Proof using Hgen.
  induction 1 as [x z He|x y z He _ IH]; [by apply Hgen|]. pose proof (Hgen x y He). lia.
Qed.
Lemma tc_in_db x z : tc edge x z → is_Some (db !! x).
Proof. destruct 1 as [x z He|x y z He _]; by apply edge_in_db in He as [? _]. Qed.
Lemma best_not_stale g b : (∀ x, flags_sound x (fl g x)) → best b →
  ∀ w, STALE (fl g w) → w = b ∨ tc edge w b → False.
Proof.
  intros Hs [_ Hb] w Hw Hwb. destruct (Hs w) as (_ & _ & H3). destruct (H3 Hw) as (y & Hy & Hyw).
  apply (Hb y Hy). destruct Hwb as [->|Hwb]; [done|]. by eapply tc_rtc_r; [|apply tc_rtc].
Qed.

(** Where all commits behind are in later generations, candidates are the best. *)
Lemma candidate_best q g out E id : paint_inv q g out E → handed g (λ _ _, False) → rooted g → id ∈ E →
  (∀ y, y ∈ E → gen (key y) ≤ gen (key id)) → STALE (fl g id) = false → generations_known →
  ∀ y, common y → ¬ tc edge y id.
Proof using Hgen.
  intros Hi Hh [Hr1 Hr2] Hid Hmax Hst Hk y [Hy1 (o & Ho & Hy2)] Hyid.
  destruct hands_on_colors as (C1 & C2 & C3).
  assert (Hfree : ∀ w, tc edge w id → ENQUEUED (fl g w) = false).
  { intros w Hw. destruct (ENQUEUED (fl g w)) eqn:Ew; [|done]. exfalso.
    apply (pi_enq _ _ _ _ Hi), Hmax in Ew. pose proof (Hk w (tc_in_db w id Hw)).
    destruct (tc_gen w id Hw) as [_ Hlt]. lia. }
  assert (Hy : COMMIT1 (fl g y) ∧ COMMIT2 (fl g y)).
  { split; [apply (path_flag COMMIT1 g first y)|apply (path_flag COMMIT2 g o y)]; try done; [|by apply Hr2|];
      intros w _ _ Hw; apply Hfree; by eapply tc_rtc_r; [|apply tc_rtc]. }
  assert (∃ z, edge y z ∧ rtc edge z id) as (z & Hyz & Hz).
  { destruct Hyid as [y id He|y z id He Hz]; [by exists id|]. exists z. split; [done|]. by apply tc_rtc. }
  assert (Hzs : STALE (fl g z)).
  { destruct (Hh y z) as [[]|Hs]; [by apply Hfree|done|]. apply Hs. cbn. apply orb_prop_intro. right.
    by apply andb_prop_intro. }
  assert (STALE (fl g id)) as Hbad; [|by rewrite Hst in Hbad].
  apply (path_flag STALE g z id); try done. intros w _ _ Hw. by apply Hfree.
Qed.

(** A side without commits in the queue has reached everything best. *)
Lemma exhausted_side side (roots : list bytes) q g out E b : paint_inv q g out E → handed g (λ _ _, False) →
  hands_on side → (∀ a, a ∈ roots → side (fl g a)) → (∃ a, a ∈ roots ∧ rtc edge a b) → best b →
  (∀ w, w ∈ E → counted side (fl g w) = 0%nat) → side (fl g b) ∧ ENQUEUED (fl g b) = false.
Proof.
  intros Hi Hh Hside Hroots (a & Ha & Hab) Hb Hzero.
  assert (Hstale : ∀ w, side (fl g w) → ENQUEUED (fl g w) = true → STALE (fl g w)).
  { intros w Hw He. apply (pi_enq _ _ _ _ Hi), Hzero in He. unfold counted in He.
    destruct (side (fl g w)), (STALE (fl g w)); done. }
  assert (Hfree : ∀ w, side (fl g w) → w = b ∨ tc edge w b → ENQUEUED (fl g w) = false).
  { intros w Hw Hwb. destruct (ENQUEUED (fl g w)) eqn:Ew; [|done]. exfalso.
    by eapply (best_not_stale g b (pi_sound _ _ _ _ Hi) Hb w); [apply Hstale|]. }
  assert (Hsb : side (fl g b)).
  { apply (path_flag side g a b); try done; [by apply Hroots|]. intros w _ Hw Hwb. apply Hfree; [done|by right]. }
  split; [done|]. apply Hfree; [done|by left].
Qed.
(** Behind a commit that was popped, only computed generations are missing. *)
Lemma ordered_side side (roots : list bytes) q g out E b m : paint_inv q g out E → handed g (λ _ _, False) →
  hands_on side → (∀ a, a ∈ roots → side (fl g a)) → (∃ a, a ∈ roots ∧ rtc edge a b) →
  popped (fl g b) → m ∈ E → 0 < gen (key m) < GENERATION_NUMBER_MAX →
  (∀ w, w ∈ E → gen (key w) ≤ gen (key m)) → side (fl g b).
Proof using Hgen.
  intros Hi Hh Hside Hroots (a & Ha & Hab) Hpop Hm Hgm Hmax.
  apply (path_flag side g a b); try done; [by apply Hroots|]. intros w _ _ Hwb.
  destruct (ENQUEUED (fl g w)) eqn:Ew; [|done]. apply (pi_enq _ _ _ _ Hi) in Ew.
  pose proof (Hmax w Ew). pose proof (pi_order _ _ _ _ Hi b m Hpop Hm). pose proof (tc_gen w b Hwb). lia.
Qed.

(** Nothing best is missing in the end. *)
Definition exhausted (g : graph) (E : list bytes) : Prop :=
  (∀ w, w ∈ E → counted COMMIT1 (fl g w) = 0%nat ∧ counted COMMIT2 (fl g w) = 0%nat) ∨
  (∃ m, m ∈ E ∧ 0 < gen (key m) < GENERATION_NUMBER_MAX ∧ (∀ w, w ∈ E → gen (key w) ≤ gen (key m)) ∧
     ((∀ w, w ∈ E → counted COMMIT1 (fl g w) = 0%nat) ∨ ∀ w, w ∈ E → counted COMMIT2 (fl g w) = 0%nat)).
Lemma paint_complete q g out E : paint_inv q g out E → handed g (λ _ _, False) → rooted g →
  exhausted g E → ∀ b, best b → b ∈ out.*1.
Proof using Hgen.
  intros Hi Hh [Hr1 Hr2] Hex b Hb. destruct hands_on_colors as (C1 & C2 & _).
  assert (Hroot1 : ∀ a, a ∈ [first] → COMMIT1 (fl g a)) by (intros a ->%list_elem_of_singleton; done).
  pose proof Hb as [[Hb1 Hb2] _]. assert (Hb1' : ∃ a, a ∈ [first] ∧ rtc edge a b)
    by (exists first; split; [by apply list_elem_of_singleton|done]).
  assert (COMMIT1 (fl g b) ∧ COMMIT2 (fl g b) ∧ ENQUEUED (fl g b) = false) as (F1 & F2 & F3).
  { destruct Hex as [Hz|(m & Hm & Hgm & Hmax & [Hz|Hz])].
    - destruct (exhausted_side COMMIT1 [first] q g out E b) as [F1 F3]; try done; [intros w Hw; by apply Hz|].
      destruct (exhausted_side COMMIT2 others q g out E b) as [F2 _]; try done; intros w Hw; by apply Hz.
    - destruct (exhausted_side COMMIT1 [first] q g out E b) as [F1 F3]; try done.
      split; [done|]. split; [|done]. eapply (ordered_side COMMIT2 others); try done. split; [done|by left].
    - destruct (exhausted_side COMMIT2 others q g out E b) as [F2 F3]; try done.
      split; [|done]. eapply (ordered_side COMMIT1 [first]); try done. split; [done|by right]. }
  apply (pi_out _ _ _ _ Hi). destruct (pi_done _ _ _ _ Hi b F3 F1 F2) as [?|Hst]; [done|].
  destruct (best_not_stale g b (pi_sound _ _ _ _ Hi) Hb b Hst). by left.
Qed.

(** The item of a heap that stands for a queue. *)
Lemma heap_pop_queue h E info id rest : heap_items h ≡ₚ (λ x, (key x, x)) <$> E → heap_pop h = Some ((info, id), rest) →
  info = key id ∧ id ∈ E ∧ (∀ y, y ∈ E → gen (key y) ≤ gen (key id)) ∧
  ∃ E0, E ≡ₚ id :: E0 ∧ heap_items rest ≡ₚ (λ x, (key x, x)) <$> E0.
Proof.
  intros Hq [Hitems Hmax]%heap_pop_Some.
  assert (Hin : (info, id) ∈ heap_items h) by (rewrite Hitems; by left).
  assert (info = key id ∧ id ∈ E) as [-> HidE].
  { rewrite Hq in Hin. apply list_elem_of_fmap in Hin as (x & [= -> ->] & Hx). done. }
  split; [done|]. split; [done|]. split.
  - intros y Hy. apply key_le_gen, (Hmax (key y, y)). rewrite Hq. by apply (list_elem_of_fmap_2 (λ x, (key x, x))).
  - apply elem_of_Permutation in HidE as [E0 HE]. exists E0. split; [done|].
    apply (Permutation_cons_inv (a := (key id, id))). rewrite <- Hitems, Hq, HE. done.
Qed.
(** Popping: either the walk ends, or the next commit is a greatest one. *)
Lemma paint_pop_ok q g out E : paint_inv q g out E →
  (paint_pop q g = Ok None ∧ exhausted g E) ∨
  ∃ id d E0 q', db !! id = Some d ∧ E ≡ₚ id :: E0 ∧ (∀ y, y ∈ E → gen (key y) ≤ gen (key id)) ∧
    paint_pop q g = Ok (Some (key id, id, q', <[id := with_data d (set_ENQUEUED false (fl g id))]> g)) ∧
    heap_items (queue q') ≡ₚ (λ x, (key x, x)) <$> E0 ∧
    non_stale q' = (Z.of_nat (sum_list_with (λ x, counted COMMIT1 (fl g x)) E0),
                    Z.of_nat (sum_list_with (λ x, counted COMMIT2 (fl g x)) E0)).
Proof using Hsize.
  intros Hi. unfold paint_pop. destruct (heap_pop (queue q)) as [[[info id] rest]|] eqn:Epop.
  2: { left. split; [done|]. left. intros w Hw. apply heap_pop_None in Epop.
       pose proof (pi_queue _ _ _ _ Hi) as Hq. rewrite Epop in Hq. apply Permutation_nil_l in Hq.
       destruct E; [by apply elem_of_nil in Hw|done]. }
  destruct (heap_pop_queue (queue q) E info id rest (pi_queue _ _ _ _ Hi) Epop) as (-> & HidE & Hgmax & E0 & HE & Hrest).
  pose proof (pi_counts _ _ _ _ Hi) as Hc.
  assert (Hsum : ∀ side, (sum_list_with (λ x, counted side (fl g x)) E =
    counted side (fl g id) + sum_list_with (λ x, counted side (fl g x)) E0)%nat) by (intros side; by rewrite HE).
  assert (Hzero : ∀ side, Z.of_nat (sum_list_with (λ x, counted side (fl g x)) E) = 0 →
    ∀ w, w ∈ E → counted side (fl g w) = 0%nat).
  { intros side Hs w Hw. pose proof (sum_pos (λ x, counted side (fl g x)) E w Hw). cbn in *. lia. }
  destruct (side_exhausted q (key id)) eqn:Ex.
  - left. split; [done|]. unfold side_exhausted in Ex. rewrite Hc in Ex.
    apply orb_prop in Ex as [Ex|Ex].
    + apply andb_prop in Ex as [E1%Z.eqb_eq E2%Z.eqb_eq]. left. intros w Hw. split; by eapply Hzero.
    + apply andb_prop in Ex as [Ex E4%Z.ltb_lt]. apply andb_prop in Ex as [Ex E3%Z.ltb_lt].
      right. exists id. split; [done|]. split; [lia|]. split; [done|].
      apply orb_prop in Ex as [E1%Z.eqb_eq|E1%Z.eqb_eq]; [left|right]; by eapply Hzero.
  - right. destruct (in_E_db _ _ _ _ id Hi HidE) as [d Hd].
    assert (Hgid : g !! id = Some (with_data d (fl g id))).
    { apply fits_lookup; [apply (pi_graph _ _ _ _ Hi)|done|]. apply (pi_enq _ _ _ _ Hi) in HidE.
      unfold fl in HidE. destruct (g !! id); [by eexists|done]. }
    rewrite Hgid. cbn [expect mbind outcome_bind data with_data].
    pose proof (counts_bound q g out E COMMIT1 Hi). pose proof (counts_bound q g out E COMMIT2 Hi). pose proof (Hsum COMMIT1). pose proof (Hsum COMMIT2).
    erewrite update_counts_sub; [|exact Hc|unfold counted in *; cbn in *; lia..].
    cbn [mbind outcome_bind queue]. eexists id, d, E0, _. split_and!; [done..|].
    cbn [non_stale]. f_equal; unfold counted in *; cbn in *; lia.
Qed.

(** The flags of a commit that was just popped, and the results. *)
Definition after_pop (f : Flags) : Flags :=
  let f := set_ENQUEUED false f in if is_candidate f then set_RESULT true f else f.
Definition out_after (f : Flags) (id : bytes) (out : list (bytes * GenThenTime)) : list (bytes * GenThenTime) :=
  if is_candidate f && negb (RESULT f) then out ++ [(id, key id)] else out.

Lemma paint_inv_pop q q' g g' out E E0 id : paint_inv q g out E → handed g (λ _ _, False) → rooted g →
  E ≡ₚ id :: E0 → (∀ y, y ∈ E → gen (key y) ≤ gen (key id)) →
  heap_items (queue q') ≡ₚ (λ x, (key x, x)) <$> E0 →
  non_stale q' = (Z.of_nat (sum_list_with (λ x, counted COMMIT1 (fl g x)) E0),
                  Z.of_nat (sum_list_with (λ x, counted COMMIT2 (fl g x)) E0)) →
  graph_fits g' → (∀ x, fl g' x = if decide (x = id) then after_pop (fl g id) else fl g x) →
  paint_inv q' g' (out_after (fl g id) id out) E0.
Proof using Hgen.
  intros Hi Hh Hr HE Hmax Hq' Hc' Hfit Hfl.
  pose proof (pi_nodup _ _ _ _ Hi) as Hnd. rewrite HE in Hnd. apply list.NoDup_cons in Hnd as [HidE0 Hnd].
  assert (HidE : id ∈ E) by (rewrite HE; by left).
  assert (Hne : ∀ x, x ∈ E0 → fl g' x = fl g x) by (intros x Hx; rewrite Hfl, decide_False; [done|by intros ->]).
  assert (Hid : fl g' id = after_pop (fl g id)) by (by rewrite Hfl, decide_True).
  assert (Hcand : is_candidate (fl g id) = true → COMMIT1 (fl g id) ∧ COMMIT2 (fl g id) ∧ STALE (fl g id) = false).
  { unfold is_candidate. destruct (COMMIT1 (fl g id)), (COMMIT2 (fl g id)), (STALE (fl g id)); done. }
  assert (Hout : ∀ x, x ∈ (out_after (fl g id) id out).*1 ↔ RESULT (fl g' x) = true).
  { intros x. unfold out_after. rewrite Hfl. unfold after_pop.
    change (is_candidate (set_ENQUEUED false (fl g id))) with (is_candidate (fl g id)).
    destruct (is_candidate (fl g id)) eqn:Ec, (RESULT (fl g id)) eqn:Er; cbn [negb andb];
      rewrite ?fmap_app, ?elem_of_app, ?(pi_out _ _ _ _ Hi x);
      destruct (decide (x = id)) as [->|Hx]; cbn; rewrite ?Er, ?list_elem_of_singleton; naive_solver. }
  split; try done.
  - intros x. rewrite Hfl. destruct (decide (x = id)) as [->|Hx].
    + split; [done|]. unfold after_pop. destruct (is_candidate _); done.
    + rewrite <- (pi_enq _ _ _ _ Hi x), HE, list.elem_of_cons. naive_solver.
  - rewrite Hc'. f_equal; f_equal; apply sum_ext; intros x Hx; by rewrite Hne.
  - intros x. rewrite Hfl. destruct (decide (x = id)) as [->|Hx]; [|apply (pi_sound _ _ _ _ Hi)].
    pose proof (pi_sound _ _ _ _ Hi id). unfold after_pop. destruct (is_candidate _); done.
  - intros x y Hx Hy. assert (HyE : y ∈ E) by (rewrite HE; by right). rewrite Hfl in Hx.
    destruct (decide (x = id)) as [->|Hxid]; [by apply Hmax|]. by apply (pi_order _ _ _ _ Hi).
  - unfold out_after. pose proof (pi_out_nodup _ _ _ _ Hi). destruct (is_candidate (fl g id)); [|done].
    destruct (RESULT (fl g id)) eqn:Er; [done|]. cbn. rewrite fmap_app. apply list.NoDup_app. split; [done|].
    split; [|apply NoDup_singleton]. intros x Hx ->%list_elem_of_singleton. apply (pi_out _ _ _ _ Hi) in Hx. cbn in Hx.
    congruence.
  - intros x. rewrite Hfl. destruct (decide (x = id)) as [->|Hx]; [|apply (pi_result _ _ _ _ Hi)].
    unfold after_pop. change (is_candidate (set_ENQUEUED false (fl g id))) with (is_candidate (fl g id)).
    destruct (is_candidate (fl g id)) eqn:Ec; [naive_solver|]. apply (pi_result _ _ _ _ Hi).
  - intros x. rewrite Hfl. destruct (decide (x = id)) as [->|Hx]; [|apply (pi_done _ _ _ _ Hi)].
    unfold after_pop, is_candidate. cbn.
    destruct (COMMIT1 (fl g id)) eqn:E1, (COMMIT2 (fl g id)) eqn:E2, (STALE (fl g id)) eqn:Es; cbn;
      rewrite ?E1, ?E2, ?Es; cbn; auto.
  - intros Hk x. rewrite Hfl. destruct (decide (x = id)) as [->|Hx]; [|by apply (pi_best _ _ _ _ Hi)].
    unfold after_pop. change (is_candidate (set_ENQUEUED false (fl g id))) with (is_candidate (fl g id)).
    destruct (is_candidate (fl g id)) eqn:Ec; [|by apply (pi_best _ _ _ _ Hi)]. intros _.
    destruct (Hcand eq_refl) as (_ & _ & Hs). by eapply candidate_best.
Qed.

(** What painting returns. *)
Definition paint_result (out : list (bytes * GenThenTime)) (g : graph) : Prop :=
  graph_fits g ∧ NoDup out.*1 ∧ (∀ b, best b → b ∈ out.*1) ∧
  ∀ x, x ∈ out.*1 → is_Some (g !! x) ∧ common x ∧ (generations_known → best x).
Lemma paint_inv_result q g out E : paint_inv q g out E → handed g (λ _ _, False) → rooted g → exhausted g E →
  paint_result out g.
Proof using Hgen.
  intros Hi Hh Hr Hex. split; [apply (pi_graph _ _ _ _ Hi)|]. split; [apply (pi_out_nodup _ _ _ _ Hi)|].
  split; [by eapply paint_complete|]. intros x Hx. apply (pi_out _ _ _ _ Hi) in Hx.
  assert (Hc : common x).
  { destruct (pi_result _ _ _ _ Hi x Hx) as [H1 H2]. pose proof (pi_sound _ _ _ _ Hi x) as (S1 & S2 & _).
    split; auto. }
  split; [unfold fl in Hx; destruct (g !! x); [by eexists|done]|]. split; [done|].
  intros Hk. split; [done|]. by apply (pi_best _ _ _ _ Hi).
Qed.

(** The state in which the parents of the commit that was popped are visited. *)
Lemma popped_handed g g' id d : handed g (λ _ _, False) → db !! id = Some d →
  (∀ x, fl g' x = if decide (x = id) then after_pop (fl g id) else fl g x) →
  handed g' (λ y z, y = id ∧ z ∈ parents d) ∧ grows g g' ∧
  ∀ E E0, E ≡ₚ id :: E0 → (S (paint_measure g' E0) = paint_measure g E)%nat.
Proof.
  intros Hh Hd Hfl.
  assert (Hf : ∀ x, flags_sub (fl g x) (fl g' x) ∧ flags_sub (fl g' x) (fl g x) ∧ missing (fl g' x) = missing (fl g x)).
  { intros x. rewrite Hfl. unfold after_pop. destruct (decide (x = id)) as [->|]; [|unfold flags_sub; tauto].
    destruct (is_candidate _); unfold flags_sub; cbn; tauto. }
  assert (Hg : grows g g') by (intros x; apply Hf).
  split; [|split; [done|]].
  - intros y z Hy Hyz. destruct (decide (y = id)) as [->|Hne].
    + left. destruct Hyz as (d' & Hd' & Hz & _). split; [done|]. by simplify_eq.
    + rewrite Hfl, decide_False in Hy |- * by done. destruct (Hh y z Hy Hyz) as [[]|Hs]. right.
      eapply flags_sub_trans; [exact Hs|apply Hg].
  - intros E E0 HE. unfold paint_measure. rewrite HE. cbn [length].
    rewrite (sum_ext (λ x, missing (fl g' x)) (λ x, missing (fl g x))); [lia|]. intros x _. apply Hf.
Qed.

(** The flags and results in the code's own order. *)
Lemma after_pop_code g id d out : graph_fits g → db !! id = Some d →
  let commit := with_data d (set_ENQUEUED false (fl g id)) in
  let flags := common_flags (data commit) in
  ∃ g', (if is_candidate flags then
       let '(g, out) :=
         if RESULT (data commit) then (<[id := commit]> g, out)
         else (<[id := with_data commit (set_RESULT true (data commit))]> (<[id := commit]> g), out ++ [(id, key id)]) in
       (g, out, set_STALE true flags)
     else (<[id := commit]> g, out, flags)) = (g', out_after (fl g id) id out, handed_flags (after_pop (fl g id))) ∧
    graph_fits g' ∧ ∀ x, fl g' x = if decide (x = id) then after_pop (fl g id) else fl g x.
Proof.
  intros Hfit Hd commit flags. subst commit flags. cbn [data with_data].
  change (is_candidate (common_flags (set_ENQUEUED false (fl g id)))) with (is_candidate (fl g id)).
  change (RESULT (set_ENQUEUED false (fl g id))) with (RESULT (fl g id)).
  rewrite with_data_twice. unfold out_after, after_pop.
  change (is_candidate (set_ENQUEUED false (fl g id))) with (is_candidate (fl g id)).
  assert (Hfits : ∀ f h, graph_fits (<[id := with_data d f]> (<[id := with_data d h]> g)))
    by (intros f h; by repeat apply fits_insert).
  destruct (is_candidate (fl g id)) eqn:Ec.
  - destruct (RESULT (fl g id)) eqn:Er; cbn [negb andb].
    + eexists. split; [f_equal|].
      * destruct (fl g id) as [[] [] [] [] []]; done.
      * split; [by apply fits_insert|]. intros x. rewrite fl_insert. destruct (decide (x = id)); [|done].
        unfold set_RESULT, set_ENQUEUED. cbn. by rewrite Er.
    + eexists. split; [f_equal|].
      * destruct (fl g id) as [[] [] [] [] []]; done.
      * split; [done|]. intros x. rewrite insert_insert_eq. apply fl_insert.
  - eexists. split; [f_equal|].
    + destruct (fl g id) as [[] [] [] [] []]; done.
    + split; [by apply fits_insert|]. intros x. apply fl_insert.
Qed.

Lemma paint_loop_ok n : ∀ q g out E, paint_inv q g out E → handed g (λ _ _, False) → rooted g →
  (paint_measure g E < n)%nat →
  ∃ out' g', paint_loop try_find tokens cache n q g out = Ok (out', g') ∧ paint_result out' g'.
Proof using Hload Hgen Hsize.
  induction n as [|n IH]; intros q g out E Hi Hh Hr Hn; [lia|]. cbn [paint_loop].
  destruct (paint_pop_ok q g out E Hi) as [[-> Hex]|(id & d & E0 & q1 & Hd & HE & Hmax & -> & Hq1 & Hc1)].
  { cbn [mbind outcome_bind]. exists out, g. split; [done|]. by eapply paint_inv_result. }
  cbn [mbind outcome_bind]. rewrite lookup_insert_eq. cbn [expect mbind outcome_bind].
  destruct (after_pop_code g id d out (pi_graph _ _ _ _ Hi) Hd) as (g1 & Hcode & Hfit1 & Hfl1).
  cbv zeta in Hcode |- *. rewrite Hcode. cbn [parents with_data].
  assert (HidE : id ∈ E) by (rewrite HE; by left).
  pose proof (paint_inv_pop q q1 g g1 out E E0 id Hi Hh Hr HE Hmax Hq1 Hc1 Hfit1 Hfl1) as Hi1.
  destruct (popped_handed g g1 id d Hh Hd Hfl1) as (Hh1 & Hg1 & Hm1).
  destruct (paint_parents_ok id (after_pop (fl g id)) (out_after (fl g id) id out) (parents d) q1 g1 E0)
    as (q2 & g2 & E2 & -> & Hi2 & Hh2 & Hg2 & Hm2); try done.
  { intros _. by rewrite Hfl1, decide_True. }
  { rewrite <- (decide_True (P := id = id) (after_pop (fl g id)) (fl g id)) by done. rewrite <- Hfl1.
    apply (pi_sound _ _ _ _ Hi1). }
  { intros p Hp. by exists d. }
  { intros y Hy. rewrite Hfl1 in Hy. destruct (decide (y = id)) as [->|]; [lia|]. by apply (pi_order _ _ _ _ Hi). }
  cbn [mbind outcome_bind]. apply (IH q2 g2 _ E2); [done|done|by apply (rooted_grows g); [apply (grows_trans _ g1)|]|].
  pose proof (Hm1 E E0 HE). lia.
Qed.

(** An input commit is queued. *)
Definition none_popped (g : graph) : Prop := ∀ x, ¬ popped (fl g x).
Lemma paint_root_ok q g out E p d flags : paint_inv q g out E → handed g (λ _ _, False) → none_popped g →
  db !! p = Some d → flags = FLAG_COMMIT1 ∨ flags = FLAG_COMMIT2 → flags_sound p flags →
  ∃ q' g' E', get_or_insert_full_commit try_find tokens cache g p flags_empty q (paint_insert p flags) = Ok (g', q', true) ∧
    paint_inv q' g' out E' ∧ handed g' (λ _ _, False) ∧ none_popped g' ∧ grows g g' ∧ flags_sub flags (fl g' p) ∧
    (paint_measure g' E' ≤ paint_measure g E)%nat.
Proof using Hload Hsize.
  intros Hi Hh Hn Hd Hflags Hs. erewrite get_or_insert_Some by (exact Hd || apply (pi_graph _ _ _ _ Hi)).
  destruct (paint_insert_ok q g out E p d flags) as (q' & E' & -> & Hi' & Hg' & Hm);
    [done|done|by destruct Hflags as [-> | ->]|by destruct Hflags as [-> | ->]|done|by intros x Hx%Hn| |].
  { destruct (ENQUEUED (fl g p)) eqn:Ee; [by left|]. right. specialize (Hn p). unfold popped in Hn.
    unfold flags_contain. destruct Hflags as [-> | ->]; cbn; destruct (COMMIT1 (fl g p)), (COMMIT2 (fl g p)); naive_solver. }
  cbn [mbind outcome_bind]. eexists q', _, E'. split; [done|]. split; [done|].
  split; [|split; [|split; [done|split; [|done]]]].
  - eapply (handed_mono g _ p); [|exact Hg'|exact Hh|done]. intros x. rewrite fl_insert.
    destruct (decide (x = p)); [by right|by left].
  - intros x. rewrite fl_insert. destruct (decide (x = p)); [by intros [? _]|apply Hn].
  - rewrite fl_insert, decide_True by done. apply flags_sub_union.
Qed.

Lemma paint_others_ok out os : ∀ q g E, paint_inv q g out E → handed g (λ _ _, False) → none_popped g →
  (∀ o, o ∈ os → o ∈ others ∧ is_Some (db !! o)) →
  ∃ q' g' E', paint_others try_find tokens cache os q g = Ok (q', g') ∧
    paint_inv q' g' out E' ∧ handed g' (λ _ _, False) ∧ grows g g' ∧ (∀ o, o ∈ os → COMMIT2 (fl g' o)) ∧
    (paint_measure g' E' ≤ paint_measure g E)%nat.
Proof using Hload Hsize.
  induction os as [|o os IH]; intros q g E Hi Hh Hn Hos; cbn [paint_others].
  - exists q, g, E. split; [done|]. split; [done|]. split; [done|]. split; [intros x; unfold flags_sub; tauto|].
    split; [|done]. intros o Ho. by apply elem_of_nil in Ho.
  - destruct (Hos o) as [Ho [d Hd]]; [by left|].
    destruct (paint_root_ok q g out E o d FLAG_COMMIT2) as (q1 & g1 & E1 & -> & Hi1 & Hh1 & Hn1 & Hg1 & Hf1 & Hm1);
      [done..|by right| |].
    { split; [done|]. split; [|done]. intros _. by exists o. }
    cbn [mbind outcome_bind]. destruct (IH q1 g1 E1) as (q2 & g2 & E2 & -> & Hi2 & Hh2 & Hg2 & Hf2 & Hm2); [done..| |].
    { intros o' Ho'. apply Hos. by right. }
    exists q2, g2, E2. split; [done|]. split; [done|]. split; [done|]. split; [by eapply grows_trans|].
    split; [|lia]. intros o' [->|Ho']%list.elem_of_cons; [|by apply Hf2]. apply (Hg2 o), Hf1. done.
Qed.

Lemma paint_start g : graph_fits g → (∀ x, fl g x = flags_empty) →
  paint_inv {| queue := heap_new; non_stale := (0, 0) |} g [] [] ∧ handed g (λ _ _, False) ∧ none_popped g ∧
  paint_measure g [] = (3 * size db)%nat.
Proof.
  intros Hfit Hfl. split; [|split; [|split]].
  - split; try done.
    + cbn [queue]. by rewrite heap_new_items.
    + constructor.
    + intros x. rewrite Hfl. split; [by intros ?%elem_of_nil|done].
    + intros x. rewrite Hfl. by split_and!.
    + intros x y. rewrite Hfl. by intros [_ [[]|[]]].
    + constructor.
    + intros x. rewrite Hfl. split; [by intros ?%elem_of_nil|done].
    + intros x. by rewrite Hfl.
    + intros x. by rewrite Hfl.
    + intros _ x. by rewrite Hfl.
  - intros x p _ _. right. rewrite Hfl. by split_and!.
  - intros x. rewrite Hfl. intros [_ [[]|[]]].
  - unfold paint_measure. rewrite (sum_ext _ (λ _, 3%nat)) by (intros x _; by rewrite Hfl).
    rewrite <- size_dom. change (size (dom db)) with (length U). generalize U. intros l. cbn [length].
    induction l as [|x l IHl]; [done|]. cbn [sum_list_with length]. lia.
Qed.

Lemma paint_down_to_common_ok fuel g : graph_fits g → (∀ x, fl g x = flags_empty) →
  is_Some (db !! first) → (∀ o, o ∈ others → is_Some (db !! o)) → (3 * size db < fuel)%nat →
  ∃ out g', paint_down_to_common try_find tokens cache fuel first others g = Ok (out, g') ∧ paint_result out g'.
Proof using Hload Hgen Hsize.
  intros Hfit Hfl [d Hd] Hos Hfuel. unfold paint_down_to_common.
  destruct (paint_start g Hfit Hfl) as (Hi & Hh & Hn & Hm).
  destruct (paint_root_ok _ g [] [] first d FLAG_COMMIT1 Hi Hh Hn Hd) as
    (q1 & g1 & E1 & -> & Hi1 & Hh1 & Hn1 & Hg1 & Hf1 & Hm1); [by left|by split_and!; [intros _; apply rtc_refl|..]|].
  cbn [mbind outcome_bind].
  destruct (paint_others_ok [] others q1 g1 E1) as (q2 & g2 & E2 & -> & Hi2 & Hh2 & Hg2 & Hf2 & Hm2); [done..|by auto|].
  cbn [mbind outcome_bind]. apply (paint_loop_ok fuel q2 g2 [] E2); [done|done| |lia].
  split; [|done]. by apply (Hg2 first), Hf1.
Qed.
End Painting.

(** ** Lemmas: removing redundant commits *)
Section Redundant.
Context (commits : list (bytes * GenThenTime)).
Notation U := (elements (dom db)).

(** In the history of one of the commits. *)
Definition below (x : bytes) : Prop := ∃ c, c ∈ commits.*1 ∧ tc edge c x.
Definition marks_ok (g : graph) : Prop := graph_fits g ∧ ∀ x, STALE (fl g x) → below x.
Definition list_ok (g : graph) (l : list (bytes * GenThenTime)) : Prop :=
  ∀ x i, (x, i) ∈ l → below x ∧ is_Some (g !! x).
Definition keeps (g g' : graph) : Prop := ∀ x, is_Some (g !! x) → is_Some (g' !! x).
Definition unmarked (g : graph) : nat := sum_list_with (λ x, Nat.b2n (negb (STALE (fl g x)))) U.

Lemma keeps_refl g : keeps g g.
Proof. by intros x. Qed.
#[local] Hint Resolve keeps_refl : core.
Lemma keeps_trans g1 g2 g3 : keeps g1 g2 → keeps g2 g3 → keeps g1 g3.
Proof. intros H1 H2 x Hx. by apply H2, H1. Qed.
Lemma keeps_insert g x c : keeps g (<[x := c]> g).
Proof. intros y Hy. destruct (decide (x = y)) as [->|]; [by rewrite lookup_insert_eq; eexists|by rewrite lookup_insert_ne]. Qed.
Lemma list_ok_keeps g g' l : keeps g g' → list_ok g l → list_ok g' l.
Proof. intros Hk Hl x i Hx. destruct (Hl x i Hx). auto. Qed.
Lemma below_step x p : below x → edge x p → below p.
Proof. intros (c & Hc & Hx) He. exists c. split; [done|]. by eapply tc_r. Qed.

(** The flags of one commit change. *)
Lemma marks_insert g x d f : marks_ok g → db !! x = Some d → (STALE f → STALE (fl g x) ∨ below x) →
  marks_ok (<[x := with_data d f]> g).
Proof.
  intros [Hfit Hm] Hd Hf. split; [by apply fits_insert|]. intros y. rewrite fl_insert.
  destruct (decide (y = x)) as [->|]; [|apply Hm]. intros [?|?]%Hf; auto.
Qed.
Lemma unmarked_insert g x d f : db !! x = Some d →
  (unmarked (<[x := with_data d f]> g) + Nat.b2n (negb (STALE (fl g x))) = unmarked g + Nat.b2n (negb (STALE f)))%nat.
Proof.
  intros Hd. assert (Hfx : fl (<[x := with_data d f]> g) x = f) by (by rewrite fl_insert, decide_True).
  rewrite <- Hfx at 2.
  apply (sum_update (λ y, Nat.b2n (negb (STALE (fl (<[x := with_data d f]> g) y))))
    (λ y, Nat.b2n (negb (STALE (fl g y))))); [apply NoDup_elements|apply elem_of_elements, elem_of_dom; by eexists|].
  intros y Hy. by rewrite fl_insert, decide_False.
Qed.
Lemma unmarked_le g : (unmarked g ≤ size db)%nat.
Proof.
  rewrite <- size_dom. change (size (dom db)) with (length U). apply sum_le. intros x.
  destruct (STALE (fl g x)); cbn; lia.
Qed.

Lemma mark_ok g p l : marks_ok g → list_ok g l → known p → (is_Some (db !! p) → below p) →
  ∃ g' l' b, get_or_insert_full_commit try_find tokens cache g p flags_empty l (mark p) = Ok (g', l', b) ∧
    marks_ok g' ∧ list_ok g' l' ∧ keeps g g' ∧ (unmarked g' + length l' = unmarked g + length l)%nat ∧
    (length l ≤ length l')%nat ∧ (l' = l ∨ drop 1 l' = l).
Proof using Hload.
  intros Hm Hl Hkp Hp. pose proof Hm as [Hfit _]. destruct (db !! p) as [d|] eqn:Hd.
  2: { rewrite get_or_insert_None by done. exists g, l, false. split; [done|]. split; [done|]. split; [done|].
       split; [by intros x|]. split; [lia|]. split; [lia|by left]. }
  erewrite get_or_insert_Some by done. unfold mark. cbn [data with_data].
  assert (Hbp : below p) by (apply Hp; by eexists).
  destruct (STALE (fl g p)) eqn:Es; cbn [mbind outcome_bind]; eexists _, _, true; (split; [done|]).
  - pose proof (unmarked_insert g p d (fl g p) Hd). rewrite Es in *.
    split; [apply marks_insert; [done..|by auto]|]. pose proof (keeps_insert g p (with_data d (fl g p))).
    split; [by eapply list_ok_keeps|]. split; [done|]. split; [lia|]. split; [lia|by left].
  - pose proof (unmarked_insert g p d (set_STALE true (fl g p)) Hd) as Hu. rewrite Es in Hu. cbn in Hu.
    split; [apply marks_insert; [done..|by auto]|].
    rewrite with_data_twice. pose proof (keeps_insert g p (with_data d (set_STALE true (fl g p)))) as Hk.
    split; [|split; [done|split; [cbn [length]; lia|split; [cbn; lia|by right]]]].
    intros x i [[= -> ->]|Hx]%list.elem_of_cons; [split; [done|]; rewrite lookup_insert_eq; by eexists|].
    by apply (list_ok_keeps g _ l Hk Hl x i).
Qed.

Lemma mark_parents_ok ps : ∀ g l, marks_ok g → list_ok g l → (∀ p, p ∈ ps → known p ∧ (is_Some (db !! p) → below p)) →
  ∃ g' l', mark_parents try_find tokens cache ps g l = Ok (g', l') ∧ marks_ok g' ∧ list_ok g' l' ∧ keeps g g'.
Proof using Hload.
  induction ps as [|p ps IH]; intros g l Hm Hl Hps; cbn [mark_parents]; [by exists g, l|].
  destruct (mark_ok g p l) as (g1 & l1 & b & -> & Hm1 & Hl1 & Hk1 & _); [done|done|apply Hps; by left|apply Hps; by left|].
  cbn [mbind outcome_bind]. destruct (IH g1 l1) as (g2 & l2 & -> & Hm2 & Hl2 & Hk2); [done|done| |].
  { intros q Hq. apply Hps. by right. }
  exists g2, l2. split; [done|]. split; [done|]. split; [done|]. intros x Hx. by apply Hk2, Hk1.
Qed.
Lemma mark_commits_ok cs : ∀ g l, marks_ok g → list_ok g l → (∀ c, c ∈ cs.*1 → c ∈ commits.*1 ∧ is_Some (g !! c)) →
  ∃ g' l', mark_commits try_find tokens cache cs g l = Ok (g', l') ∧ marks_ok g' ∧ list_ok g' l' ∧ keeps g g'.
Proof using Hload.
  induction cs as [|[id i] cs IH]; intros g l Hm Hl Hcs; cbn [mark_commits]; [by exists g, l|].
  destruct (Hcs id) as [Hid [c Hc]]; [by left|]. pose proof Hm as [Hfit _].
  pose proof (Hfit id c Hc) as Hd. rewrite Hc. cbn [expect mbind outcome_bind].
  assert (Hcd : with_data c (set_RESULT true (data c)) = with_data (with_data c tt) (set_RESULT true (data c))) by done.
  rewrite Hcd. set (g0 := <[id := _]> g).
  assert (Hk0 : keeps g g0) by apply keeps_insert.
  assert (Hm0 : marks_ok g0). { apply marks_insert; [done..|]. unfold fl. rewrite Hc. by left. }
  destruct (mark_parents_ok (parents c) g0 l) as (g1 & l1 & -> & Hm1 & Hl1 & Hk1); [done|by eapply list_ok_keeps| |].
  { intros p Hp. split; [by eapply parent_known|]. intros Hpd. exists id. split; [done|]. apply tc_once.
    by exists (with_data c tt). }
  cbn [mbind outcome_bind]. destruct (IH g1 l1) as (g2 & l2 & -> & Hm2 & Hl2 & Hk2); [done|done| |].
  { intros x Hx. destruct (Hcs x) as [? ?]; [by right|]. split; [done|]. by apply Hk1, Hk0. }
  exists g2, l2. split; [done|]. split; [done|]. split; [done|]. intros x Hx. by apply Hk2, Hk1, Hk0.
Qed.
Lemma unmark_ok l : ∀ g, marks_ok g → list_ok g l → ∃ g', unmark l g = Ok g' ∧ marks_ok g' ∧ keeps g g'.
Proof.
  induction l as [|[id i] l IH]; intros g Hm Hl; cbn [unmark]; [by exists g|].
  destruct (Hl id i) as [_ [c Hc]]; [by left|]. pose proof Hm as [Hfit _]. pose proof (Hfit id c Hc) as Hd.
  rewrite Hc. cbn [expect mbind outcome_bind].
  assert (Hcd : with_data c (set_STALE false (data c)) = with_data (with_data c tt) (set_STALE false (data c))) by done.
  rewrite Hcd. set (g0 := <[id := _]> g). assert (Hk0 : keeps g g0) by apply keeps_insert.
  destruct (IH g0) as (g' & -> & Hm' & Hk').
  - by apply marks_insert.
  - eapply list_ok_keeps; [done|]. intros x j Hx. apply (Hl x j). by right.
  - exists g'. split; [done|]. split; [done|]. intros x Hx. by apply Hk', Hk0.
Qed.

Context (sorted : list (bytes * GenThenTime)) (Hsorted : sorted ≡ₚ commits).
Context (Hcommits : commits ≠ []) (Hlen : zlen commits < 2 ^ 64).

Record walk_inv (w : Walk) : Prop := {
  wi_marks : marks_ok (walk_graph w);
  wi_commits : ∀ c, c ∈ commits.*1 → is_Some (walk_graph w !! c);
  wi_pos : 0 ≤ min_gen_pos w < zlen sorted;
  wi_count : 1 ≤ count_still_independent w < 2 ^ 64;
}.
Lemma sorted_at i : 0 ≤ i < zlen sorted → ∃ id k, get sorted i = Some (id, k) ∧ id ∈ commits.*1.
Proof using Hsorted.
  intros Hi. destruct (get_in sorted i Hi) as ([id k] & Hg & Hl). exists id, k. split; [done|].
  apply list_elem_of_lookup_2 in Hl. rewrite Hsorted in Hl. by apply (list_elem_of_fmap_2 fst) in Hl.
Qed.
Lemma sorted_nonempty : 0 < zlen sorted < 2 ^ 64.
Proof using Hsorted Hcommits Hlen.
  assert (zlen sorted = zlen commits) as -> by (unfold zlen; by rewrite Hsorted).
  destruct commits; [done|]. rewrite zlen_cons in *. pose proof (zlen_nonneg l). lia.
Qed.

Lemma advance_ok n : ∀ g pos last, (∀ c, c ∈ commits.*1 → is_Some (g !! c)) →
  0 ≤ pos ≤ last → last < zlen sorted → last - pos < Z.of_nat n →
  ∃ pos', advance n g sorted pos last = Ok pos' ∧ 0 ≤ pos' ≤ last.
Proof using Hsorted.
  induction n as [|n IH]; intros g pos last Hg Hpos Hlast Hn; [lia|]. cbn [advance].
  destruct (Z.ltb_spec pos last); [|by exists pos].
  destruct (sorted_at pos) as (id & k & -> & Hid); [lia|]. cbn [expect mbind outcome_bind].
  destruct (Hg id Hid) as [c ->]. cbn [expect mbind outcome_bind].
  destruct (STALE (data c)); [|by exists pos]. apply IH; [done|lia..].
Qed.

Lemma visit_result_ok id c w : walk_inv w → 2 ≤ count_still_independent w → walk_graph w !! id = Some c →
  ∃ w' stop, visit_result sorted id c w = Ok (w', stop) ∧ walk_inv w' ∧ keeps (walk_graph w) (walk_graph w') ∧
    unmarked (walk_graph w') = unmarked (walk_graph w) ∧ (stop = false → 2 ≤ count_still_independent w').
Proof using Hsorted Hcommits Hlen.
  intros Hw Hcount Hc. unfold visit_result. destruct (RESULT (data c)); [|by exists w, false].
  pose proof (wi_marks w Hw) as Hm. pose proof Hm as [Hfit _]. pose proof (Hfit id c Hc) as Hd.
  assert (Hcd : with_data c (set_RESULT false (data c)) = with_data (with_data c tt) (set_RESULT false (data c))) by done.
  rewrite Hcd. set (g := <[id := _]> (walk_graph w)).
  assert (Hfl : fl (walk_graph w) id = data c) by (unfold fl; by rewrite Hc).
  assert (Hk : keeps (walk_graph w) g) by apply keeps_insert.
  assert (Hm' : marks_ok g). { apply marks_insert; [done..|]. rewrite Hfl. by left. }
  assert (Hu : unmarked g = unmarked (walk_graph w)).
  { pose proof (unmarked_insert (walk_graph w) id (with_data c tt) (set_RESULT false (data c)) Hd) as Hu.
    fold g in Hu. rewrite Hfl in Hu. cbn in Hu. lia. }
  assert (Hcs : ∀ x, x ∈ commits.*1 → is_Some (g !! x)) by (intros x Hx; by apply Hk, (wi_commits w Hw)).
  destruct (wi_count w Hw). destruct (wi_pos w Hw). pose proof sorted_nonempty.
  unfold op_sub. rewrite (checked_sub_in 64 (count_still_independent w) 1) by lia. cbn [expect mbind outcome_bind].
  destruct (Z.leb_spec (count_still_independent w - 1) 1).
  { eexists _, true. split; [done|]. split; [split; cbn; try done; lia|]. split; [exact Hk|]. split; [exact Hu|done]. }
  destruct (sorted_at (min_gen_pos w)) as (mid & k & -> & _); [lia|]. cbn [expect mbind outcome_bind].
  destruct (bytes_eqb id mid).
  - rewrite checked_sub_in by lia. cbn [expect mbind outcome_bind].
    destruct (advance_ok (S (length sorted)) g (min_gen_pos w) (zlen sorted - 1)) as (pos' & -> & Hpos'); [done|lia..| |].
    { unfold zlen. lia. }
    cbn [mbind outcome_bind]. destruct (sorted_at pos') as (id' & k' & -> & _); [lia|].
    cbn [expect mbind outcome_bind]. eexists _, false. split; [done|]. split; [split; cbn; try done; lia|].
    split; [done|]. split; [done|]. cbn. lia.
  - eexists _, false. split; [done|]. split; [split; cbn; try done; lia|]. split; [done|]. split; [done|]. cbn. lia.
Qed.

Lemma push_parent_ok ps : ∀ g l, marks_ok g → list_ok g l → (∀ p, p ∈ ps → known p ∧ (is_Some (db !! p) → below p)) →
  ∃ g' l', push_parent try_find tokens cache ps g l = Ok (g', l') ∧ marks_ok g' ∧ list_ok g' l' ∧ keeps g g' ∧
    (unmarked g' + length l' = unmarked g + length l)%nat ∧ (length l ≤ length l')%nat ∧ (l' = l ∨ drop 1 l' = l).
Proof using Hload.
  induction ps as [|p ps IH]; intros g l Hm Hl Hps; cbn [push_parent].
  { exists g, l. split_and!; try done. by left. }
  destruct (mark_ok g p l) as (g1 & l1 & b & Heq & Hm1 & Hl1 & Hk1 & Hu1 & Hle & Hd); [done|done|apply Hps; by left|apply Hps; by left|].
  rewrite Heq. cbn [mbind outcome_bind]. destruct b; [by exists g1, l1|].
  assert (g1 = g ∧ l1 = l) as [-> ->].
  { destruct (db !! p) as [d|] eqn:Hdp.
    - erewrite get_or_insert_Some in Heq by (done || apply Hm). unfold mark in Heq.
      destruct (STALE _); cbn in Heq; congruence.
    - rewrite get_or_insert_None in Heq by (done || apply Hm || (apply Hps; by left)). by injection Heq as -> ->. }
  apply IH; [done|done|]. intros q Hq. apply Hps. by right.
Qed.

Lemma walk_stack_ok n : ∀ stack w, walk_inv w → 2 ≤ count_still_independent w → list_ok (walk_graph w) stack →
  (2 * unmarked (walk_graph w) + length stack < n)%nat →
  ∃ w', walk_stack try_find tokens cache n sorted stack w = Ok w' ∧ walk_inv w' ∧ keeps (walk_graph w) (walk_graph w').
Proof using Hload Hsorted Hcommits Hlen.
  induction n as [|n IH]; intros stack w Hw Hcount Hst Hn; [lia|]. cbn [walk_stack].
  destruct stack as [|[id info] rest]; [by exists w|].
  destruct (Hst id info) as [Hid [c Hc]]; [by left|]. rewrite Hc. cbn [expect mbind outcome_bind].
  destruct (visit_result_ok id c w Hw Hcount Hc) as (w1 & stop & -> & Hw1 & Hk1 & Hu1 & Hc1). cbn [mbind outcome_bind].
  destruct stop; [by exists w1|]. specialize (Hc1 eq_refl).
  assert (Hst1 : list_ok (walk_graph w1) ((id, info) :: rest)) by (by eapply list_ok_keeps).
  destruct (gen info <? min_gen w1).
  { destruct (IH rest w1) as (w2 & -> & Hw2 & Hk2); [done|done| |cbn [length] in Hn; lia|].
    - intros x i Hx. apply (Hst1 x i). by right.
    - exists w2. split; [done|]. split; [done|]. by eapply keeps_trans. }
  pose proof (wi_marks w Hw) as [Hfit _]. pose proof (Hfit id c Hc) as Hd.
  destruct (push_parent_ok (parents c) (walk_graph w1) ((id, info) :: rest)) as (g2 & st2 & -> & Hm2 & Hl2 & Hk2 & Hu2 & Hle2 & Hdrop);
    [apply (wi_marks w1 Hw1)|done| |].
  { intros p Hp. split; [by eapply parent_known|]. intros Hpd. eapply below_step; [exact Hid|].
    by exists (with_data c tt). }
  cbn [mbind outcome_bind].
  match goal with |- context [walk_stack _ _ _ n sorted st2 ?w] => set (w2 := w) end.
  assert (Hw2 : walk_inv w2).
  { split; cbn; [done| |apply (wi_pos w1 Hw1)|apply (wi_count w1 Hw1)]. intros x Hx. by apply Hk2, (wi_commits w1 Hw1). }
  assert (Hkw2 : keeps (walk_graph w) (walk_graph w2)) by (by eapply keeps_trans).
  case_bool_decide as Hlen2.
  - destruct (IH (drop 1 st2) w2) as (w3 & -> & Hw3 & Hk3); [done|done| | |].
    + intros x i Hx. apply (Hl2 x i). by apply (subseteq_drop 1 st2).
    + rewrite length_drop. cbn [length walk_graph w2] in *. lia.
    + exists w3. split; [done|]. split; [done|]. by eapply keeps_trans.
  - destruct (IH st2 w2) as (w3 & -> & Hw3 & Hk3); [done|done|done| |].
    + cbn [length walk_graph w2] in *. lia.
    + exists w3. split; [done|]. split; [done|]. by eapply keeps_trans.
Qed.

Lemma walk_all_ok fuel l : ∀ w, walk_inv w → list_ok (walk_graph w) l → (2 * size db + 1 < fuel)%nat →
  ∃ w', walk_all try_find tokens cache fuel sorted l w = Ok w' ∧ walk_inv w'.
Proof using Hload Hsorted Hcommits Hlen.
  induction l as [|[id info] l IH]; intros w Hw Hl Hfuel; cbn [walk_all]; [by exists w|].
  destruct (Z.ltb_spec 1 (count_still_independent w)); [|by exists w].
  destruct (Hl id info) as [Hid [c Hc]]; [by left|]. pose proof (wi_marks w Hw) as [Hfit _].
  pose proof (Hfit id c Hc) as Hd. rewrite Hc. cbn [expect mbind outcome_bind].
  assert (Hcd : with_data c (set_STALE true (data c)) = with_data (with_data c tt) (set_STALE true (data c))) by done.
  rewrite Hcd. set (g := <[id := _]> (walk_graph w)). assert (Hk : keeps (walk_graph w) g) by apply keeps_insert.
  match goal with |- context [walk_stack _ _ _ fuel sorted _ ?w] => set (w1 := w) end.
  destruct (walk_stack_ok fuel [(id, info)] w1) as (w2 & -> & Hw2 & Hk2).
  - split; cbn; [|intros x Hx; by apply Hk, (wi_commits w Hw)|apply (wi_pos w Hw)|apply (wi_count w Hw)].
    apply marks_insert; [apply (wi_marks w Hw)|done|]. by right.
  - cbn. lia.
  - intros x i [[= -> ->]|[]%elem_of_nil]%list.elem_of_cons. split; [done|]. cbn. apply Hk. by eexists.
  - cbn. pose proof (unmarked_le g). lia.
  - cbn [mbind outcome_bind]. apply IH; [done| |done]. intros x i Hx. destruct (Hl x i) as [? ?]; [by right|].
    split; [done|]. by apply Hk2, Hk.
Qed.
End Redundant.

Lemma still_sublist g (l : list (bytes * GenThenTime)) : omap (still_independent g) l `sublist_of` l.*1.
Proof.
  induction l as [|[x i] l IH]; [constructor|]. unfold still_independent at 1. cbn.
  destruct (g !! x) as [c|]; cbn; [|by constructor]. destruct (STALE (data c)); cbn; by constructor.
Qed.
Lemma remove_redundant_ok fuel commits g : graph_fits g → (∀ c, c ∈ commits.*1 → is_Some (g !! c)) →
  zlen commits < 2 ^ 64 → (2 * size db + 1 < fuel)%nat →
  ∃ rs g', remove_redundant try_find tokens cache fuel commits g = Ok (rs, g') ∧ graph_fits g' ∧
    rs `sublist_of` commits.*1 ∧ ∀ c, c ∈ commits.*1 → ¬ below commits c → c ∈ rs.
Proof using Hload.
  intros Hfit Hcs Hlen Hfuel. destruct commits as [|c0 cs]; [by exists [], g|].
  unfold remove_redundant. cbv beta iota. set (commits := c0 :: cs) in *.
  assert (Hne : commits ≠ []) by done.
  assert (Hsorted : sort_by by_key commits ≡ₚ commits) by apply sort_by_perm.
  pose proof (sorted_nonempty commits _ Hsorted Hne Hlen) as Hsl.
  destruct (sorted_at commits _ Hsorted 0) as (id0 & info0 & -> & _); [lia|]. cbn [expect mbind outcome_bind].
  set (g0 := clear_commit_data g (λ _, flags_empty)).
  assert (Hm0 : marks_ok commits g0).
  { split; [by apply fits_clear|]. intros x. subst g0. by rewrite fl_clear. }
  assert (Hcs0 : ∀ c, c ∈ commits.*1 → is_Some (g0 !! c)).
  { intros c Hc. subst g0. unfold clear_commit_data. rewrite lookup_fmap. destruct (Hcs c Hc) as [? ->]. by eexists. }
  destruct (mark_commits_ok commits commits g0 []) as (g1 & ws & -> & Hm1 & Hl1 & Hk1);
    [done|by intros x i ?%elem_of_nil|by auto|]. cbn [mbind outcome_bind].
  set (ws' := reverse (sort_by by_id (reverse ws))).
  assert (Hws : ws' ≡ₚ ws) by (subst ws'; by rewrite reverse_Permutation, sort_by_perm, reverse_Permutation).
  assert (Hl1' : ∀ l g, l ≡ₚ ws → list_ok commits g ws → list_ok commits g l).
  { intros l g' Hp Hl x i Hx. apply (Hl x i). by rewrite <- Hp. }
  destruct (unmark_ok commits (reverse ws') g1) as (g2 & -> & Hm2 & Hk2); [done| |].
  { apply Hl1'; [|done]. by rewrite reverse_Permutation. }
  cbn [mbind outcome_bind].
  match goal with |- context [walk_all _ _ _ fuel _ _ ?w] => set (w0 := w) end.
  destruct (walk_all_ok commits _ Hsorted Hne Hlen fuel ws' w0) as (w & -> & Hw); [| |done|].
  - assert (1 ≤ zlen commits) by (subst commits; rewrite zlen_cons; pose proof (zlen_nonneg cs); lia).
    split; cbn [w0 walk_graph count_still_independent min_gen_pos]; [done| |lia|lia].
    intros c Hc. by apply Hk2, Hk1, Hcs0.
  - apply Hl1'; [done|]. by eapply list_ok_keeps.
  - cbn [mbind outcome_bind]. eexists _, _. split; [done|]. split; [apply (wi_marks _ _ _ Hw)|].
    split; [apply still_sublist|]. intros c Hc Hb. destruct (wi_commits _ _ _ Hw c Hc) as [d Hd].
    apply list_elem_of_fmap in Hc as ([c' i] & -> & Hc). apply list_elem_of_omap. exists (c', i). split; [done|].
    unfold still_independent. cbn in *. rewrite Hd. cbn. destruct (STALE (data d)) eqn:Es; [|done].
    destruct Hb. apply (wi_marks _ _ _ Hw). unfold fl. rewrite Hd. by rewrite Es.
Qed.

Lemma insert_input_commits_ok ids : ∀ g, graph_fits g → (∀ id, id ∈ ids → is_Some (db !! id)) →
  ∃ g', insert_input_commits try_find tokens cache ids g = Ok g' ∧ graph_fits g'.
Proof using Hload.
  induction ids as [|id ids IH]; intros g Hg Hids; cbn [insert_input_commits]; [by exists g|].
  destruct (Hids id) as [d Hd]; [by left|]. erewrite get_or_insert_Some by done. cbn [mbind outcome_bind ensure].
  apply IH; [by apply fits_insert|]. intros x Hx. apply Hids. by right.
Qed.
Lemma insert_input_commits_missing ids id rest : ∀ g, graph_fits g → (∀ x, x ∈ ids → is_Some (db !! x)) →
  known id → db !! id = None →
  insert_input_commits try_find tokens cache (ids ++ id :: rest) g = Err (CommitNotFound id).
Proof using Hload.
  induction ids as [|x ids IH]; intros g Hg Hids Hkid Hid; cbn [insert_input_commits app].
  - by rewrite get_or_insert_None.
  - destruct (Hids x) as [d Hd]; [by left|]. erewrite get_or_insert_Some by done. cbn [mbind outcome_bind ensure].
    apply IH; [by apply fits_insert| |done|done]. intros y Hy. apply Hids. by right.
Qed.

Context (Hgen : generations_ok) (Hsize : Z.of_nat (size db) < 2 ^ 63).

Lemma rtc_in_db x y : is_Some (db !! x) → rtc edge x y → is_Some (db !! y).
Proof.
  intros Hx Hr. revert y Hr. apply (rtc_ind_r (λ y, is_Some (db !! y))); [done|].
  intros y z _ He _. by apply edge_in_db in He as [_ ?].
Qed.
Lemma paint_result_size first others out g : is_Some (db !! first) → paint_result first others out g → zlen out < 2 ^ 64.
Proof using Hsize.
  intros Hf (_ & Hnd & _ & Hout). assert (length (out.*1) ≤ size db)%nat.
  { rewrite <- size_dom. change (size (dom db)) with (length (elements (dom db))).
    apply submseteq_length, NoDup_submseteq; [done|]. intros x Hx. apply elem_of_elements, elem_of_dom.
    destruct (Hout x Hx) as (_ & [Hr _] & _). by eapply rtc_in_db. }
  rewrite length_fmap in *. unfold zlen. lia.
Qed.
Lemma known_acyclic x : generations_known → ¬ tc edge x x.
Proof using Hgen.
  intros Hk Hx. pose proof (tc_gen Hgen x x Hx). pose proof (Hk x (tc_in_db x x Hx)). lia.
Qed.

(** Everything about a call on commits that exist. *)
Lemma merge_base_ok fuel first others g : graph_fits g → (∀ x, x ∈ first :: others → is_Some (db !! x)) →
  others ≠ [] → (3 * size db + 1 < fuel)%nat →
  ∃ rs g', merge_base try_find tokens cache fuel first others g =
      Ok (match rs with [] => None | _ => Some rs end, g') ∧ graph_fits g' ∧ NoDup rs ∧
    (∀ x, x ∈ rs → common first others x) ∧ (∀ x, best first others x → x ∈ rs) ∧
    (generations_known → ∀ x, x ∈ rs → best first others x).
Proof using Hload Hgen Hsize.
  intros Hfit Hin Hne Hfuel. unfold merge_base.
  destruct (insert_input_commits_ok (first :: others) g Hfit Hin) as (g1 & -> & Hfit1). cbn [mbind outcome_bind].
  rewrite (bool_decide_eq_false_2 (others = [])) by done. cbn [orb].
  case_bool_decide as Hfo.
  { exists [first], g1. split; [done|]. split; [done|]. split; [apply NoDup_singleton|].
    assert (Hcf : common first others first) by (split; [done|by exists first]).
    split; [by intros x ->%list_elem_of_singleton|]. split.
    - intros x [[Hx _] Hb]. apply list_elem_of_singleton. apply rtc_tc in Hx as [->|Hx]; [done|]. by destruct (Hb first).
    - intros Hk x ->%list_elem_of_singleton. split; [done|]. intros y [Hy _] Hyf.
      apply (known_acyclic first Hk). by eapply tc_rtc_l. }
  destruct (paint_down_to_common_ok first others Hgen Hsize fuel (clear_commit_data g1 (λ _, flags_empty)))
    as (out & g2 & -> & Hres); [by apply fits_clear|intros x; apply fl_clear|apply Hin; by left
    |intros o Ho; apply Hin; by right|lia|].
  cbn [mbind outcome_bind]. pose proof Hres as (Hfit2 & Hnd & Hbest & Hout).
  destruct (remove_redundant_ok fuel out g2) as (rs & g3 & -> & Hfit3 & Hsub & Hkeep);
    [done|intros c Hc; by apply Hout|eapply paint_result_size; [apply Hin; by left|done]|lia|].
  cbn [mbind outcome_bind]. exists rs, g3. split; [by destruct rs|]. split; [done|].
  assert (Hrs : ∀ x, x ∈ rs → x ∈ out.*1) by (intros x Hx; apply (elem_of_submseteq rs); [done|by apply sublist_submseteq]).
  split; [by eapply sublist_NoDup|]. split; [intros x Hx; by destruct (Hout x (Hrs x Hx)) as (_ & ? & _)|]. split.
  - intros x Hx. apply Hkeep; [by apply Hbest|]. intros (c & Hc & Hcx). destruct Hx as [_ Hx].
    by apply (Hx c); [destruct (Hout c Hc) as (_ & ? & _)|].
  - intros Hk x Hx. destruct (Hout x (Hrs x Hx)) as (_ & _ & ?). auto.
Qed.
(** Without best common ancestors there are none at all. *)
Lemma no_best_no_common first others : generations_known → is_Some (db !! first) →
  (∀ x, ¬ best first others x) → ∀ x, ¬ common first others x.
Proof using Hgen.
  intros Hk Hf Hb x. remember (Z.to_nat (GENERATION_NUMBER_MAX - gen (key x))) as n eqn:Hn. revert x Hn.
  induction (lt_wf n) as [n _ IH]. intros x -> Hx. apply (Hb x). split; [done|]. intros y Hy Hyx.
  apply (IH (Z.to_nat (GENERATION_NUMBER_MAX - gen (key y)))) with (x := y); [|done|done].
  pose proof (tc_gen Hgen y x Hyx). pose proof (Hk y (tc_in_db y x Hyx)).
  assert (is_Some (db !! x)) as Hx' by (destruct Hx as [Hx _]; by eapply rtc_in_db). pose proof (Hk x Hx'). lia.
Qed.

Lemma octopus_loop_ok fuel others : ∀ first g, graph_fits g → Forall (λ y, is_Some (db !! y)) (first :: others) →
  (3 * size db + 1 < fuel)%nat →
  ∃ r g', octopus_loop try_find tokens cache fuel first others g = Ok (r, g') ∧ graph_fits g' ∧
    ∀ x, r = Some x → Forall (λ y, rtc edge y x) (first :: others).
Proof using Hload Hgen Hsize.
  induction others as [|o others IH]; intros first g Hg Hin Hfuel; cbn [octopus_loop].
  - exists (Some first), g. split; [done|]. split; [done|]. intros x [= <-]. by repeat constructor.
  - rewrite !list.Forall_cons in Hin. destruct Hin as (Hf & Ho & Hos).
    destruct (merge_base_ok fuel first [o] g Hg) as (rs & g1 & -> & Hg1 & _ & Hc & _); [|done|done|].
    { intros x [->| ->%list_elem_of_singleton]%list.elem_of_cons; done. }
    cbn [mbind outcome_bind]. destruct rs as [|next rs]; [by exists None, g1|].
    destruct (Hc next) as [Hfn (o' & ->%list_elem_of_singleton & Hon)]; [by left|].
    destruct (IH next g1) as (r & g2 & -> & Hg2 & Hr); [done| |done|].
    { constructor; [by eapply rtc_in_db|done]. }
    exists r, g2. split; [done|]. split; [done|]. intros x Hx. apply Hr in Hx as [Hnx Hox]%list.Forall_cons.
    constructor; [by etrans|]. constructor; [by etrans|done].
Qed.
End Repository.

(** ** Merge bases *)

(** What is assumed of a repository: its commits can be loaded, their generations are in
    order, and there are less of them than fit into memory. *)
Record repository (try_find : bytes → outcome rw_error (option (bool * bytes)))
    (tokens : bytes → list (rw_error + Token)) (cache : option CommitGraph.Graph)
    (known : bytes → Prop) (db : gmap bytes (Commit ())) : Prop := {
  rp_loads : loads try_find tokens cache db known;
  rp_generations : generations_ok db;
  rp_size : Z.of_nat (size db) < 2 ^ 63;
}.

(** C12: merge bases without any assumption on the dates of commits, with or without a
    commit graph, in histories that may lack commits: if an input commit is missing, the
    error names the first one; a single commit is its own merge base; and otherwise the
    walk ends, and returns commits, each once, that are common ancestors, among them all
    the best ones. *)
Theorem merge_base_sandwich {H : BinaryHeap GenThenTime bytes key_le} try_find tokens cache known db fuel first others g
    (Hrepo : repository try_find tokens cache known db) (Hg : graph_fits db g)
    (Hfuel : (3 * size db + 1 < fuel)%nat) (Hknown : Forall known (first :: others)) :
  (∀ before x after, first :: others = before ++ x :: after → Forall (λ y, is_Some (db !! y)) before →
     db !! x = None → merge_base try_find tokens cache fuel first others g = Err (CommitNotFound x)) ∧
  (Forall (λ y, is_Some (db !! y)) (first :: others) → ∃ rs g',
     merge_base try_find tokens cache fuel first others g = Ok (match rs with [] => None | _ => Some rs end, g') ∧
     graph_fits db g' ∧ (others = [] → rs = [first]) ∧
     (others ≠ [] → NoDup rs ∧ (∀ x, x ∈ rs → common db first others x) ∧ ∀ x, best db first others x → x ∈ rs)).
Proof.
  destruct Hrepo as [Hload Hgen Hsize]. split.
  - intros before x after Heq Hb Hx. unfold merge_base. rewrite Heq in Hknown |- *.
    rewrite (insert_input_commits_missing _ _ _ db known Hload); [done|done|by apply list.Forall_forall| |done].
    rewrite list.Forall_app, list.Forall_cons in Hknown. tauto.
  - intros Hin. assert (Hin' : ∀ x, x ∈ first :: others → is_Some (db !! x)) by (by apply list.Forall_forall).
    destruct (decide (others = [])) as [->|Hne].
    + destruct (insert_input_commits_ok _ _ _ db known Hload [first] g Hg Hin') as (g' & Hi & Hg').
      exists [first], g'. unfold merge_base. rewrite Hi. done.
    + destruct (merge_base_ok _ _ _ db known Hload Hgen Hsize fuel first others g Hg Hin' Hne Hfuel)
        as (rs & g' & -> & Hg' & Hnd & Hc & Hb & _). by exists rs, g'.
Qed.

(** with a commit graph that knows the generations of all commits, [merge_base]
    returns exactly the common ancestors that are in the history of no other one, and
    [None] exactly for unrelated histories. *)
Theorem merge_base_exact {H : BinaryHeap GenThenTime bytes key_le} try_find tokens cache known db fuel first others g
    (Hrepo : repository try_find tokens cache known db) (Hg : graph_fits db g)
    (Hfuel : (3 * size db + 1 < fuel)%nat) (Hall : generations_known db)
    (Hin : Forall (λ y, is_Some (db !! y)) (first :: others)) (Hothers : others ≠ []) :
  ∃ rs g', merge_base try_find tokens cache fuel first others g = Ok (match rs with [] => None | _ => Some rs end, g') ∧
    graph_fits db g' ∧ NoDup rs ∧ (∀ x, x ∈ rs ↔ best db first others x) ∧
    (rs = [] ↔ ∀ x, ¬ common db first others x).
Proof.
  destruct Hrepo as [Hload Hgen Hsize]. assert (Hin' : ∀ x, x ∈ first :: others → is_Some (db !! x)) by (by apply list.Forall_forall).
  destruct (merge_base_ok _ _ _ db known Hload Hgen Hsize fuel first others g Hg Hin' Hothers Hfuel)
    as (rs & g' & Heq & Hg' & Hnd & Hc & Hb & Hk).
  exists rs, g'. split; [done|]. split; [done|]. split; [done|]. split; [by split; [apply Hk|apply Hb]|]. split.
  - intros ->. assert (Hfirst : is_Some (db !! first)) by (apply Hin'; by left).
    by apply (no_best_no_common db Hgen first others Hall Hfirst); intros x ?%Hb%elem_of_nil.
  - intros Hno. destruct rs as [|x rs]; [done|]. destruct (Hno x). apply Hc. by left.
Qed.

(** [octopus] ends, and a commit that it returns is an ancestor of all inputs. *)
Theorem octopus_sound {H : BinaryHeap GenThenTime bytes key_le} try_find tokens cache known db fuel first others g
    (Hrepo : repository try_find tokens cache known db) (Hg : graph_fits db g)
    (Hfuel : (3 * size db + 1 < fuel)%nat) (Hin : Forall (λ y, is_Some (db !! y)) (first :: others)) :
  ∃ r g', octopus try_find tokens cache fuel first others g = Ok (r, g') ∧ graph_fits db g' ∧
    ∀ x, r = Some x → Forall (λ y, rtc (edge db) y x) (first :: others).
Proof.
  destruct Hrepo as [Hload Hgen Hsize]. assert (Hin' : ∀ x, x ∈ first :: others → is_Some (db !! x)) by (by apply list.Forall_forall).
  unfold octopus. destruct (insert_input_commits_ok _ _ _ db known Hload (first :: others) g Hg Hin') as (g1 & -> & Hg1).
  cbn [mbind outcome_bind]. by apply (octopus_loop_ok _ _ _ db known Hload Hgen Hsize).
Qed.

(** ** Repositories given by a table *)
(** A history without a commit graph: parents and time of each commit. The object of a
    commit is its id here. *)
Section Table.
Context (table : gmap bytes (list bytes * Z)).
Definition table_find (id : bytes) : outcome rw_error (option (bool * bytes)) :=
  Ok ((λ _, (true, id)) <$> table !! id).
Definition table_tokens (buf : bytes) : list (rw_error + Token) :=
  match table !! buf with
  | Some (ps, t) => inr TokTree :: ((λ p, inr (TokParent p)) <$> ps) ++ [inr TokAuthor; inr (TokCommitter t); inr TokOther]
  | None => []
  end.
Definition table_db : gmap bytes (Commit ()) :=
  (λ '(ps, t), {| parents := ps; commit_time := t; generation := None; data := tt |}) <$> table.

Lemma read_table_tokens ps : ∀ acc rest,
  read_tokens (((λ p, inr (TokParent p)) <$> ps) ++ rest) acc = read_tokens rest (acc ++ ps).
Proof.
  induction ps as [|p ps IH]; intros acc rest; cbn; [by rewrite app_nil_r|]. by rewrite IH, <- app_assoc.
Qed.
Lemma table_repository : Z.of_nat (size table) < 2 ^ 63 →
  repository table_find table_tokens None (λ _, True) table_db.
Proof.
  intros Hsize. split.
  - split; [|intros id d _; split; [done|by apply Forall_true]].
    intros id _. unfold load, try_lookup, cache_lookup, table_find, table_db. rewrite lookup_fmap.
    destruct (table !! id) as [[ps t]|] eqn:E; [|done]. cbn. unfold table_tokens. rewrite E. cbn.
    by rewrite read_table_tokens.
  - intros x p (d & Hd & _ & [dp Hp]). unfold key. rewrite Hd, Hp. unfold table_db in *.
    rewrite lookup_fmap in Hd, Hp. apply fmap_Some in Hd as ([? ?] & _ & ->). apply fmap_Some in Hp as ([? ?] & _ & ->).
    cbn. unfold GENERATION_NUMBER_INFINITY, GENERATION_NUMBER_MAX. lia.
  - unfold table_db. by rewrite map_size_fmap.
Qed.
End Table.

(** Commits 1 and 2 have the parents 3 and 4; commit 4 is in the history of 3, by the
    second parent of the merge 5, although its date is later. *)
Definition sample_history : gmap bytes (list bytes * Z) := list_to_map
  [([1], ([[3]; [4]], 10)); ([2], ([[3]; [4]], 10)); ([3], ([[5]], 8)); ([4], ([], 9));
   ([5], ([[6]; [4]], 7)); ([6], ([], 6))].
Definition sample_merge_base (first : bytes) (others : list bytes) :=
  merge_base (H := commit_heap) (table_find sample_history) (table_tokens sample_history) None 20 first others ∅.

Lemma sample_edge x p : (match sample_history !! x with Some (ps, _) => bool_decide (p ∈ ps) | None => false end) &&
  bool_decide (is_Some (sample_history !! p)) = true → edge (table_db sample_history) x p.
Proof.
  intros Hx. apply andb_prop in Hx as [Hx [y Hp]%bool_decide_eq_true]. unfold edge, table_db. rewrite !lookup_fmap.
  destruct (sample_history !! x) as [[ps t]|]; [|done]. apply bool_decide_eq_true in Hx.
  eexists. split; [done|]. split; [done|]. rewrite Hp. by eexists.
Qed.
(** [remove_redundant] visits only the first parent of a commit that exists: commit 4 is
    returned although it is in the history of commit 3. *)
Example second_parent_not_followed :
  (fst <$> sample_merge_base [1] [[2]]) = Ok (Some [[4]; [3]]) ∧ tc (edge (table_db sample_history)) [3] [4].
Proof.
  split; [vm_compute; done|]. eapply tc_l; [apply (sample_edge _ [5]); vm_compute; done|].
  apply tc_once, sample_edge. vm_compute. done.
Qed.
(** Two commits with two merge bases each, one of which is not in the history of a third
    commit: [octopus] finds no common ancestor, though commit 4 is one. *)
Definition criss_cross : gmap bytes (list bytes * Z) := list_to_map
  [([1], ([[3]; [4]], 10)); ([2], ([[3]; [4]], 10)); ([3], ([], 9)); ([4], ([], 8)); ([7], ([[4]], 10))].
Example octopus_misses :
  (fst <$> octopus (H := commit_heap) (table_find criss_cross) (table_tokens criss_cross) None 20 [1] [[2]; [7]] ∅) = Ok None ∧
  (fst <$> octopus (H := commit_heap) (table_find criss_cross) (table_tokens criss_cross) None 20 [1] [[7]; [2]] ∅) = Ok (Some [4]).
Proof. split; vm_compute; done. Qed.

Lemma graph_fits_empty db : graph_fits db ∅.
Proof. intros id c Hc. by rewrite lookup_empty in Hc. Qed.

Lemma merge_base_sandwich_witness :
  sample_merge_base [1] [[8]] = Err (CommitNotFound [8]) ∧
  ∃ rs g', sample_merge_base [1] [[2]] = Ok (match rs with [] => None | _ => Some rs end, g') ∧
    ∀ x, x ∈ rs → common (table_db sample_history) [1] [[2]] x.
Proof.
  assert (Hr : repository (table_find sample_history) (table_tokens sample_history) None (λ _, True) (table_db sample_history))
    by (apply table_repository; vm_compute; done).
  assert (Hf : (3 * size (table_db sample_history) + 1 < 20)%nat) by (apply Nat.ltb_lt; vm_compute; done).
  split.
  - destruct (merge_base_sandwich (H := commit_heap) _ _ None _ _ 20 [1] [[8]] ∅ Hr (graph_fits_empty _) Hf) as [He _];
      [by apply Forall_true|].
    apply (He [[1]] [8] []); [done| |vm_compute; done]. constructor; [vm_compute; by eexists|constructor].
  - destruct (merge_base_sandwich (H := commit_heap) _ _ None _ _ 20 [1] [[2]] ∅ Hr (graph_fits_empty _) Hf) as [_ Hok];
      [by apply Forall_true|].
    destruct Hok as (rs & g' & Heq & _ & _ & Hrs); [repeat constructor; vm_compute; by eexists|].
    exists rs, g'. split; [exact Heq|]. destruct Hrs as (_ & Hc & _); done.
Defined.
Lemma octopus_sound_witness :
  ∃ r g', octopus (H := commit_heap) (table_find criss_cross) (table_tokens criss_cross) None 20 [1] [[7]; [2]] ∅ = Ok (r, g') ∧
    r = Some [4] ∧ rtc (edge (table_db criss_cross)) [7] [4].
Proof.
  assert (Hr : repository (table_find criss_cross) (table_tokens criss_cross) None (λ _, True) (table_db criss_cross))
    by (apply table_repository; vm_compute; done).
  assert (Hf : (3 * size (table_db criss_cross) + 1 < 20)%nat) by (apply Nat.ltb_lt; vm_compute; done).
  destruct (octopus_sound (H := commit_heap) _ _ None _ _ 20 [1] [[7]; [2]] ∅ Hr (graph_fits_empty _) Hf)
    as (r & g' & Heq & _ & Hall); [repeat constructor; vm_compute; by eexists|].
  exists r, g'. split; [exact Heq|].
  assert (r = Some [4]) as Hr4.
  { apply (f_equal (fmap fst)) in Heq. destruct octopus_misses as [_ Ho]. rewrite Ho in Heq. by injection Heq. }
  split; [exact Hr4|]. apply Hall in Hr4. by inversion Hr4 as [|? ? _ [|? ? ? _]].
Defined.

(** The graph of two commits of [CommitGraph] as a repository. *)
Definition sample_tip : bytes := replicate 20 1.
Definition sample_root : bytes := replicate 20 2.
Definition sample_graph_db : gmap bytes (Commit ()) := list_to_map
  [(sample_tip, {| parents := [sample_root]; commit_time := 1000; generation := Some 2; data := tt |});
   (sample_root, {| parents := []; commit_time := 900; generation := Some 1; data := tt |})].
Definition sample_known (id : bytes) : Prop := id = sample_tip ∨ id = sample_root.
Definition no_objects (id : bytes) : outcome rw_error (option (bool * bytes)) := Ok None.
Definition no_tokens (buf : bytes) : list (rw_error + Token) := [].

Lemma sample_db_cases id d : sample_graph_db !! id = Some d →
  (id = sample_tip ∧ d = {| parents := [sample_root]; commit_time := 1000; generation := Some 2; data := tt |}) ∨
  (id = sample_root ∧ d = {| parents := []; commit_time := 900; generation := Some 1; data := tt |}).
Proof.
  unfold sample_graph_db. cbn [list_to_map foldr uncurry fst snd].
  rewrite !lookup_insert_Some, lookup_empty. naive_solver.
Qed.
Lemma sample_graph_repository :
  repository no_objects no_tokens (Some sample_graph) sample_known sample_graph_db ∧ generations_known sample_graph_db.
Proof.
  assert (Hk : ∀ id d, sample_graph_db !! id = Some d → key sample_graph_db id = gen_then_time d)
    by (intros id d Hd; unfold key; by rewrite Hd).
  split; [split|].
  - split; [intros id [-> | ->]; vm_compute; done|]. intros id d [[-> ->]|[-> ->]]%sample_db_cases.
    + split; [by left|]. constructor; [by right|constructor].
    + split; [by right|]. constructor.
  - intros x p (d & Hd & Hp & [dp Hdp]). rewrite (Hk _ _ Hd), (Hk _ _ Hdp).
    apply sample_db_cases in Hd as [[-> ->]|[-> ->]]; cbn in Hp; [|by apply elem_of_nil in Hp].
    apply list_elem_of_singleton in Hp as ->. apply sample_db_cases in Hdp as [[Hbad _]|[_ ->]]; [done|].
    cbn. unfold GENERATION_NUMBER_MAX. lia.
  - vm_compute. done.
  - intros x [d Hd]. rewrite (Hk _ _ Hd). unfold GENERATION_NUMBER_MAX.
    by apply sample_db_cases in Hd as [[-> ->]|[-> ->]]; cbn; lia.
Qed.
Lemma merge_base_exact_witness :
  ∃ rs g', merge_base (H := commit_heap) no_objects no_tokens (Some sample_graph) 20 sample_tip [sample_root] ∅ =
      Ok (match rs with [] => None | _ => Some rs end, g') ∧
    ∀ x, x ∈ rs ↔ best sample_graph_db sample_tip [sample_root] x.
Proof.
  destruct sample_graph_repository as [Hr Hk].
  destruct (merge_base_exact (H := commit_heap) no_objects no_tokens (Some sample_graph) sample_known sample_graph_db 20
    sample_tip [sample_root] ∅ Hr (graph_fits_empty _)) as (rs & g' & Heq & _ & _ & Hb & _).
  - apply Nat.ltb_lt. vm_compute. reflexivity.
  - exact Hk.
  - repeat constructor; eexists; vm_compute; reflexivity.
  - discriminate.
  - exists rs, g'. exact (conj Heq Hb).
Defined.
