(* ===== verification/VerifiedHistory.v ===== *)
(** * Merge bases over a verified commit graph

    The composition of [CommitGraph], [RevWalk] and [MergeBase]: a commit graph that
    passed [verify_integrity] is a repository whose generations are known, so that
    [merge_base] on it is exact. Commits are positions of the graph here, and the
    histories are its walks from child to parent.

    One assumption is left: that looking up the id of a commit finds it. Verification
    checks the order of ids but not the fan-out table, as a comment in [traverse] says. *)

From stdpp Require Import gmap sets relations.
From S2P Require Import Prelude Hash FanLookup PackIndex Chunk CommitGraph RevWalk MergeBase.

(** The id at a position. *)
Definition pos_id (g : CommitGraph.Graph) (p : Z) : bytes :=
  match graph_id_at (E := cg_error) g p with Ok id => id | _ => [] end.
(** The commit at a position, as it is loaded. *)
Definition pos_commit (g : CommitGraph.Graph) (p : Z) : Commit () :=
  match to_owned no_tokens (FromCache g p) tt with
  | Ok c => c
  | _ => {| parents := []; commit_time := 0; generation := None; data := tt |}
  end.
Definition graph_db (g : CommitGraph.Graph) (n : Z) : gmap bytes (Commit ()) :=
  list_to_map ((λ p, (pos_id g p, pos_commit g p)) <$> seqZ 0 n).
Definition known_id (k : Kind) (id : bytes) : Prop := zlen id = len_in_bytes k ∧ bytes_ok id.
Definition lookup_complete (g : CommitGraph.Graph) (n : Z) : Prop :=
  ∀ p, 0 ≤ p < n → graph_lookup (E := cg_error) g (pos_id g p) = Ok (Some p).

Section VerifiedGraph.
Context (g : CommitGraph.Graph) (k : Kind) (ns : list Z) (Hg : graph_ok g k ns).
Notation n := (zsum ns).
Notation db := (graph_db g n).
Context (mg : Z) (Hmg : mg < GENERATION_NUMBER_MAX).
Context (Hfine : ∀ p, 0 ≤ p < n → ∃ c, graph_commit_at (E := cg_error) g p = Ok c ∧
  commit_fine g c ∧ CommitGraph.generation c ≤ mg).
Context (Huniq : ∀ p q id, 0 ≤ p < n → 0 ≤ q < n → graph_id_at (E := cg_error) g p = Ok id →
  graph_id_at (E := cg_error) g q = Ok id → p = q).
Context (Hfind : lookup_complete g n).

Lemma pos_id_ok p : 0 ≤ p < n → graph_id_at (E := cg_error) g p = Ok (pos_id g p) ∧ known_id k (pos_id g p) ∧
  ∃ c, graph_commit_at (E := cg_error) g p = Ok c ∧ commit_id (E := cg_error) c = Ok (pos_id g p) ∧
    0 ≤ commit_timestamp c < 2 ^ 34.
Proof using Hg.
  intros Hp. destruct (graph_pos g k ns Hg p Hp) as (i & f & m & q & _ & _ & Hf & Hq & _ & Hk & _ & Hid & Hc).
  unfold pos_id. rewrite Hid. split; [done|]. destruct (id_of_ok f m Hf q Hq) as [Hl Hb]. split.
  - split; [|done]. by rewrite Hl, (fo_hash f m Hf), Hk.
  - exists (commit_of f q). split; [apply Hc|]. split; [by apply (id_at_ok f m)|].
    cbn [commit_timestamp commit_of]. rewrite (land_low _ 34) by lia || done. apply Z.mod_pos_bound. lia.
Qed.
Lemma pos_id_inj p q : 0 ≤ p < n → 0 ≤ q < n → pos_id g p = pos_id g q → p = q.
Proof using Hg Huniq.
  intros Hp Hq Heq. destruct (pos_id_ok p Hp) as [H1 _]. destruct (pos_id_ok q Hq) as [H2 _].
  rewrite Heq in H1. by eapply Huniq.
Qed.

Lemma parent_ids_ok ps : Forall (λ q, 0 ≤ q < n) ps → parent_ids g (inr <$> ps) = Ok (pos_id g <$> ps).
Proof using Hg.
  induction 1 as [|q ps Hq _ IH]; [done|]. cbn [fmap list_fmap parent_ids].
  destruct (pos_id_ok q Hq) as (_ & _ & c & -> & Hid & _). cbn [cached map_err mbind outcome_bind].
  rewrite Hid. cbn [cached map_err mbind outcome_bind]. change (list_fmap Z item inr ps) with (inr <$> ps : list item).
  by rewrite IH.
Qed.
(** A commit of the graph as it is loaded. *)
Lemma pos_commit_ok p : 0 ≤ p < n → ∃ c ps, graph_commit_at (E := cg_error) g p = Ok c ∧
  iter_parents (E := cg_error) c = Ok (inr <$> ps) ∧ Forall (λ q, 0 ≤ q < n) ps ∧
  parents (pos_commit g p) = pos_id g <$> ps ∧ generation (pos_commit g p) = Some (CommitGraph.generation c) ∧
  ∀ tokens T (d : T), to_owned tokens (FromCache g p) d = Ok (with_data (pos_commit g p) d).
Proof using Hg Hfine.
  intros Hp. destruct (Hfine p Hp) as (c & Hc & (ps & ms & Hi & _) & _).
  assert (Hps : Forall (λ q, 0 ≤ q < n) ps)
    by (apply list.Forall_forall; intros q; by apply (parent_in_graph g k ns Hg p c ps)).
  destruct (pos_id_ok p Hp) as (_ & _ & c' & Hc' & _ & Ht). rewrite Hc in Hc'. injection Hc' as <-.
  assert (Hown : ∀ tokens T (d : T), to_owned tokens (FromCache g p) d =
    Ok {| parents := pos_id g <$> ps; commit_time := commit_timestamp c;
          generation := Some (CommitGraph.generation c); data := d |}).
  { intros tokens T d. cbn [to_owned]. rewrite Hc. cbn [cached map_err mbind outcome_bind]. rewrite Hi.
    cbn [cached map_err mbind outcome_bind]. rewrite parent_ids_ok by done. cbn [mbind outcome_bind].
    unfold seconds_try_from. destruct (Z.ltb_spec (commit_timestamp c) (2 ^ 63)); [done|lia]. }
  exists c, ps. unfold pos_commit. rewrite Hown. by split_and!.
Qed.
(** Generations decrease towards parents. *)
Lemma pos_generation p q : 0 ≤ p < n → parent_of g p q → 0 ≤ q < n ∧ ∃ m m',
  generation (pos_commit g p) = Some m ∧ generation (pos_commit g q) = Some m' ∧ m' < m.
Proof using Hg Hfine Hmg.
  intros Hp (c & items & Hc & Hi & Hq). destruct (pos_commit_ok p Hp) as (c' & ps & Hc' & Hi' & Hps & _ & Hgp & _).
  rewrite Hc in Hc'. injection Hc' as <-. rewrite Hi in Hi'. injection Hi' as ->.
  apply list_elem_of_fmap in Hq as (q' & [= <-] & Hq). rewrite list.Forall_forall in Hps.
  pose proof (Hps q Hq) as Hqn. split; [done|]. destruct (pos_commit_ok q Hqn) as (cq & _ & Hcq & _ & _ & _ & Hgq & _).
  eexists _, _. split; [done|]. split; [done|].
  destruct (fine_at g ns mg Hfine Hmg p c Hp Hc) as (ps' & ms & Hi2 & Hall & ->). rewrite Hi in Hi2.
  injection Hi2 as Hps2. apply (inj (fmap inr)) in Hps2 as <-.
  apply list_elem_of_lookup in Hq as [i Hqi]. destruct (Forall2_lookup_l _ _ _ _ _ Hall Hqi) as (m & Hm & cq' & Hcq' & <-).
  rewrite Hcq in Hcq'. injection Hcq' as <-. apply list_elem_of_lookup_2, foldr_max_in in Hm. lia.
Qed.
Lemma pos_known p : 0 ≤ p < n → ∃ m, generation (pos_commit g p) = Some m ∧ 0 < m < GENERATION_NUMBER_MAX.
Proof using Hg Hfine Hmg.
  intros Hp. destruct (pos_commit_ok p Hp) as (c & _ & Hc & _ & _ & _ & Hgp & _). exists (CommitGraph.generation c).
  split; [done|]. destruct (Hfine p Hp) as (c' & Hc' & _ & Hle). rewrite Hc in Hc'. injection Hc' as <-.
  destruct (fine_at g ns mg Hfine Hmg p c Hp Hc) as (ps' & ms & _ & _ & Heq). pose proof (foldr_max_nonneg ms). lia.
Qed.

Lemma ids_nodup : NoDup ((λ p, (pos_id g p, pos_commit g p)) <$> seqZ 0 n).*1.
Proof using Hg Huniq.
  rewrite <- list_fmap_compose. apply NoDup_fmap_2_strong; [|apply NoDup_seqZ].
  intros p q Hp%elem_of_seqZ Hq%elem_of_seqZ Heq. apply pos_id_inj; [lia|lia|done].
Qed.
Lemma graph_db_lookup id d : db !! id = Some d ↔ ∃ p, 0 ≤ p < n ∧ id = pos_id g p ∧ d = pos_commit g p.
Proof using Hg Huniq.
  unfold graph_db. rewrite <- elem_of_list_to_map by apply ids_nodup. rewrite list_elem_of_fmap. split.
  - intros (p & [= -> ->] & Hp%elem_of_seqZ). exists p. split; [lia|done].
  - intros (p & Hp & -> & ->). exists p. split; [done|]. apply elem_of_seqZ. lia.
Qed.
Lemma graph_db_size : size db = Z.to_nat n.
Proof using Hg Huniq.
  unfold graph_db. rewrite map_size_list_to_map by apply ids_nodup. by rewrite length_fmap, length_seqZ.
Qed.

Lemma db_edge p x : 0 ≤ p < n → edge db (pos_id g p) x ↔ ∃ q, x = pos_id g q ∧ parent_of g p q.
Proof using Hg Huniq Hfine Hmg.
  intros Hp. destruct (pos_commit_ok p Hp) as (c & ps & Hc & Hi & Hps & Hpar & _).
  rewrite list.Forall_forall in Hps. split.
  - intros (d & Hd & Hx & _). apply graph_db_lookup in Hd as (p' & Hp' & Hid & ->).
    apply pos_id_inj in Hid as <-; [|done|done]. rewrite Hpar in Hx. apply list_elem_of_fmap in Hx as (q & -> & Hq).
    exists q. split; [done|]. exists c, (inr <$> ps). split; [done|]. split; [done|]. by apply list_elem_of_fmap_2.
  - intros (q & -> & (c' & items & Hc' & Hi' & Hq)). rewrite Hc in Hc'. injection Hc' as <-. rewrite Hi in Hi'.
    injection Hi' as <-. apply list_elem_of_fmap in Hq as (q' & [= <-] & Hq).
    exists (pos_commit g p). split; [apply graph_db_lookup; by exists p|].
    split; [rewrite Hpar; by apply list_elem_of_fmap_2|].
    exists (pos_commit g q). apply graph_db_lookup. exists q. by auto.
Qed.
Lemma db_gen p : 0 ≤ p < n → ∃ m, generation (pos_commit g p) = Some m ∧ gen (key db (pos_id g p)) = m.
Proof using Hg Huniq Hfine Hmg.
  intros Hp. destruct (pos_known p Hp) as (m & Hm & _). exists m. split; [done|]. unfold key.
  assert (db !! pos_id g p = Some (pos_commit g p)) as -> by (apply graph_db_lookup; by exists p).
  cbn. by rewrite Hm.
Qed.

Lemma graph_repository tokens : repository no_objects tokens (Some g) (known_id k) db ∧ generations_known db.
Proof using Hg Huniq Hfine Hmg Hfind.
  split; [split|].
  - split.
    + intros id [Hl Hb]. unfold load, try_lookup, cache_lookup.
      destruct (graph_lookup_ok (E := cg_error) g k ns Hg id Hl Hb) as (r & Hr & Hpos). rewrite Hr.
      cbn [cached map_err mbind outcome_bind].
      destruct r as [p|]; cbn [option_map mbind outcome_bind].
      * destruct (Hpos p eq_refl) as [Hp Hid]. destruct (pos_commit_ok p Hp) as (_ & _ & _ & _ & _ & _ & _ & ->).
        destruct (pos_id_ok p Hp) as [Hid' _]. rewrite Hid in Hid'. injection Hid' as ->. cbn [mbind outcome_bind].
        assert (db !! pos_id g p = Some (pos_commit g p)) as -> by (apply graph_db_lookup; by exists p). done.
      * destruct (db !! id) as [d|] eqn:Hd; [|done]. apply graph_db_lookup in Hd as (p & Hp & -> & _).
        rewrite (Hfind p Hp) in Hr. done.
    + intros id d Hd. apply graph_db_lookup in Hd as (p & Hp & -> & ->). split; [by apply pos_id_ok|].
      destruct (pos_commit_ok p Hp) as (c & ps & _ & _ & Hps & -> & _). apply list.Forall_fmap.
      eapply Forall_impl; [|exact Hps]. intros q Hq. by apply pos_id_ok.
  - intros x y Hxy. pose proof Hxy as (d & Hd & _). apply graph_db_lookup in Hd as (p & Hp & -> & ->).
    apply db_edge in Hxy as (q & -> & Hpq); [|done]. destruct (pos_generation p q Hp Hpq) as (Hq & m & m' & Hm & Hm' & Hlt).
    destruct (db_gen p Hp) as (? & E1 & ->). destruct (db_gen q Hq) as (? & E2 & ->). simplify_eq. lia.
  - rewrite graph_db_size. pose proof (go_total g k ns Hg) as Ht. unfold MAX_COMMITS in Ht. lia.
  - intros x [d Hd]. apply graph_db_lookup in Hd as (p & Hp & -> & _).
    destruct (db_gen p Hp) as (m & E1 & ->). destruct (pos_known p Hp) as (m' & E2 & ?). simplify_eq. done.
Qed.

(** Walks of the graph are paths between the ids. *)
Lemma walk_path a p len : walk g a p len → 0 ≤ a < n →
  0 ≤ p < n ∧ rtc (edge db) (pos_id g a) (pos_id g p) ∧ (len ≠ 0%nat → tc (edge db) (pos_id g a) (pos_id g p)).
Proof using Hg Huniq Hfine Hmg.
  induction 1 as [p|a q p len Haq Hw IH]; intros Ha; [done|].
  destruct (pos_generation a q Ha Haq) as [Hq _]. destruct (IH Hq) as (Hp & Hr & _).
  assert (He : edge db (pos_id g a) (pos_id g q)) by (apply db_edge; [done|]; by exists q).
  split; [done|]. assert (tc (edge db) (pos_id g a) (pos_id g p)) by (eapply tc_rtc_r; [by apply tc_once|done]).
  split; [by apply tc_rtc|done].
Qed.
Lemma path_walk x y : rtc (edge db) x y → ∀ a, x = pos_id g a → 0 ≤ a < n →
  ∃ p len, y = pos_id g p ∧ 0 ≤ p < n ∧ walk g a p len.
Proof using Hg Huniq Hfine Hmg.
  induction 1 as [x|x y z Hxy _ IH]; intros a -> Ha; [exists a, 0%nat; split; [done|]; split; [done|constructor]|].
  apply db_edge in Hxy as (q & -> & Haq); [|done]. destruct (pos_generation a q Ha Haq) as [Hq _].
  destruct (IH q eq_refl Hq) as (p & len & -> & Hp & Hw). exists p, (S len). split; [done|]. split; [done|].
  by eapply walk_parent.
Qed.
Lemma proper_path_walk a p : 0 ≤ a < n → 0 ≤ p < n →
  tc (edge db) (pos_id g a) (pos_id g p) ↔ ∃ len, walk g a p (S len).
Proof using Hg Huniq Hfine Hmg.
  intros Ha Hp. split.
  - intros Ht. assert (∃ y, edge db (pos_id g a) y ∧ rtc (edge db) y (pos_id g p)) as (y & He & Hr).
    { inversion Ht as [? ? He|? y ? He Hr]; subst; [by eexists|]. exists y. split; [done|]. by apply tc_rtc. }
    apply db_edge in He as (q & -> & Haq); [|done]. destruct (pos_generation a q Ha Haq) as [Hq _].
    destruct (path_walk _ _ Hr q eq_refl Hq) as (p' & len & Heq & Hp' & Hw). apply pos_id_inj in Heq as <-; [|done|done].
    exists len. by eapply walk_parent.
  - intros [len Hw]. by apply (walk_path a p (S len) Hw Ha).
Qed.

(** Ancestors that positions have in common. *)
Definition common_pos (a : Z) (bs : list Z) (p : Z) : Prop :=
  (∃ len, walk g a p len) ∧ ∃ b len, b ∈ bs ∧ walk g b p len.
Definition best_pos (a : Z) (bs : list Z) (p : Z) : Prop :=
  common_pos a bs p ∧ ∀ q len, common_pos a bs q → ¬ walk g q p (S len).

Lemma common_pos_in a bs p : 0 ≤ a < n → common_pos a bs p → 0 ≤ p < n.
Proof using Hg Huniq Hfine Hmg. intros Ha [[len Hw] _]. by apply (walk_path a p len Hw). Qed.
Lemma common_pos_ok a bs p : 0 ≤ a < n → Forall (λ b, 0 ≤ b < n) bs → 0 ≤ p < n →
  common db (pos_id g a) (pos_id g <$> bs) (pos_id g p) ↔ common_pos a bs p.
Proof using Hg Huniq Hfine Hmg.
  intros Ha Hbs Hp. rewrite list.Forall_forall in Hbs.
  assert (Hreach : ∀ b, 0 ≤ b < n → rtc (edge db) (pos_id g b) (pos_id g p) ↔ ∃ len, walk g b p len).
  { intros b Hb. split.
    - intros Hr. destruct (path_walk _ _ Hr b eq_refl Hb) as (p' & len & Heq & Hp' & Hw).
      apply pos_id_inj in Heq as <-; [by exists len|done|done].
    - intros [len Hw]. by apply (walk_path b p len). }
  unfold common, common_pos. rewrite (Hreach a Ha). f_equiv. split.
  - intros (o & (b & -> & Hb)%list_elem_of_fmap & [len Hw]%Hreach); [|by apply Hbs]. by exists b, len.
  - intros (b & len & Hb & Hw). exists (pos_id g b). split; [by apply list_elem_of_fmap_2|].
    apply Hreach; [by apply Hbs|]. by exists len.
Qed.
Lemma best_pos_ok a bs x : 0 ≤ a < n → Forall (λ b, 0 ≤ b < n) bs →
  best db (pos_id g a) (pos_id g <$> bs) x ↔ ∃ p, x = pos_id g p ∧ best_pos a bs p.
Proof using Hg Huniq Hfine Hmg.
  intros Ha Hbs.
  assert (Hpos : ∀ y, common db (pos_id g a) (pos_id g <$> bs) y → ∃ q, 0 ≤ q < n ∧ y = pos_id g q).
  { intros y [Hr _]. destruct (path_walk _ _ Hr a eq_refl Ha) as (q & len & -> & Hq & _). by exists q. }
  split.
  - intros [Hc Hb]. destruct (Hpos x Hc) as (p & Hp & ->). exists p. split; [done|].
    apply common_pos_ok in Hc; [|done..]. split; [done|]. intros q len Hq Hw.
    pose proof (common_pos_in a bs q Ha Hq) as Hqn.
    apply (Hb (pos_id g q)); [by apply common_pos_ok|]. apply proper_path_walk; [done..|]. by exists len.
  - intros (p & -> & Hc & Hb). pose proof (common_pos_in a bs p Ha Hc) as Hp.
    split; [by apply common_pos_ok|]. intros y Hy Hyp. destruct (Hpos y Hy) as (q & Hq & ->).
    apply proper_path_walk in Hyp as [len Hw]; [|done..]. apply (Hb q len); [|done]. by apply common_pos_ok.
Qed.
End VerifiedGraph.

(** C37: merge bases from the bytes of a commit graph: if the files of a chain are opened
    and verified, the verification returned the length of a longest path (so that no commit has the largest
    generation, under which cycles hide, see [CommitGraph.self_parent_verified]), and the ids of its commits are found,
    then [merge_base] over that graph returns exactly the ids of the best common
    ancestors, each once: those that walks from both sides reach, and that no walk from
    another one reaches. *)
Theorem verified_merge_base {FH : FasterHex} {H : BinaryHeap GenThenTime bytes key_le} hasher {S}
    (processor : S → CommitGraph.Commit → outcome cg_error S) inputs g s out s' longest n tokens fuel a bs
    (Hin : inputs_ok inputs) (Hopen : open_graph inputs = Ok g)
    (Hv : verify_integrity hasher processor g s = Ok (out, s')) (Hl : longest_path_length out = Some longest)
    (Hn : graph_num_commits (E := cg_error) g = Ok n) (Hfind : lookup_complete g n)
    (Hfuel : 3 * n + 1 < Z.of_nat fuel) (Ha : 0 ≤ a < n) (Hbs : Forall (λ b, 0 ≤ b < n) bs) (Hne : bs ≠ []) :
  ∃ rs g', merge_base no_objects tokens (Some g) fuel (pos_id g a) (pos_id g <$> bs) ∅ =
      Ok (match rs with [] => None | _ => Some rs end, g') ∧
    NoDup rs ∧ (∀ x, x ∈ rs ↔ ∃ p, x = pos_id g p ∧ best_pos g a bs p) ∧
    (rs = [] ↔ ∀ p, ¬ common_pos g a bs p).
Proof.
  pose proof (open_graph_ok inputs Hin) as [_ Hok]%safe_iff. destruct (Hok g Hopen) as (k & ns & Hg).
  rewrite (graph_num_ok g k ns Hg) in Hn. injection Hn as <-.
  destruct (verify_integrity_ok hasher processor g k ns s out s' Hg Hv) as (mg & Hnd & Hfine & _ & _ & _ & Hlp).
  rewrite Hl in Hlp. destruct (Z.ltb_spec mg GENERATION_NUMBER_MAX) as [Hmg|]; [|done].
  pose proof (λ p q id, ids_unique g k ns p q id Hg Hnd) as Huniq.
  destruct (graph_repository g k ns Hg mg Hmg Hfine Huniq Hfind tokens) as [Hrepo Hknown].
  assert (Hdb : ∀ p, 0 ≤ p < zsum ns → is_Some (graph_db g (zsum ns) !! pos_id g p)).
  { intros p Hp. exists (pos_commit g p). apply (graph_db_lookup g k ns Hg Huniq). by exists p. }
  destruct Hrepo as [Hload Hgen Hsize].
  destruct (merge_base_ok _ _ _ _ _ Hload Hgen Hsize fuel (pos_id g a) (pos_id g <$> bs) ∅ (graph_fits_empty _))
    as (rs & g' & Heq & _ & Hnodup & Hc & Hb & Hk).
  { intros x [->|(b & -> & Hbb)%list_elem_of_fmap]%list.elem_of_cons; [by apply Hdb|]. apply Hdb.
    rewrite list.Forall_forall in Hbs. by apply Hbs. }
  { by destruct bs. }
  { rewrite (graph_db_size g k ns Hg Huniq). lia. }
  exists rs, g'. split; [done|]. split; [done|]. split.
  - intros x. rewrite <- (best_pos_ok g k ns Hg mg Hmg Hfine Huniq a bs x Ha Hbs). by split; [apply Hk|apply Hb].
  - split.
    + intros -> p Hp. pose proof (common_pos_in g k ns Hg mg Hmg Hfine Huniq a bs p Ha Hp) as Hpn.
      apply (common_pos_ok g k ns Hg mg Hmg Hfine Huniq) in Hp; [|done..].
      by apply (no_best_no_common _ Hgen (pos_id g a) (pos_id g <$> bs) Hknown (Hdb a Ha)) in Hp;
        [|intros x ?%Hb%elem_of_nil].
    + intros Hno. destruct rs as [|x rs]; [done|].
      assert (Hbx : best (graph_db g (zsum ns)) (pos_id g a) (pos_id g <$> bs) x) by (apply Hk; [done|by left]).
      apply (best_pos_ok g k ns Hg mg Hmg Hfine Huniq a bs x Ha Hbs) in Hbx as (p & _ & Hp & _). by destruct (Hno p Hp).
Qed.

Lemma sample_lookup_complete : lookup_complete sample_graph 2.
Proof.
  intros p Hp. assert (p = 0 ∨ p = 1) as [-> | ->] by lia; vm_compute; reflexivity.
Qed.
Lemma verified_merge_base_witness :
  ∃ rs g', merge_base (H := commit_heap) no_objects no_tokens (Some sample_graph) 20
      (pos_id sample_graph 0) [pos_id sample_graph 1] ∅ = Ok (match rs with [] => None | _ => Some rs end, g') ∧
    ∀ x, x ∈ rs ↔ ∃ p, x = pos_id sample_graph p ∧ best_pos sample_graph 0 [1] p.
Proof.
  assert (Ho : open_graph sample_inputs = Ok sample_graph) by (vm_compute; reflexivity).
  assert (Hv : verify_integrity (FH := faster_hex_model) sample_hasher sample_processor sample_graph 0 =
    Ok (sample_outcome, 2)) by (vm_compute; reflexivity).
  assert (Hl : longest_path_length sample_outcome = Some 1) by (vm_compute; reflexivity).
  assert (Hn : graph_num_commits (E := cg_error) sample_graph = Ok 2) by (vm_compute; reflexivity).
  destruct (verified_merge_base (FH := faster_hex_model) (H := commit_heap) sample_hasher sample_processor sample_inputs
    sample_graph 0 sample_outcome 2 1 2 no_tokens 20 0 [1] sample_inputs_ok Ho Hv Hl Hn sample_lookup_complete)
    as (rs & g' & Heq & _ & Hb & _); [lia|lia|repeat constructor; lia|discriminate|].
  exists rs, g'. exact (conj Heq Hb).
Defined.
