(* ===== verification/Actor.v ===== *)
(** * [gix-actor]: signatures of authors and committers

    [decode] splits a line such as [Name <name@example.com> 1700000000 +0000] into its
    parts, tolerating repeated angle brackets; [write_to] is its inverse on what it
    accepts. Times are text here: [seconds] reads the seconds leniently. The text of a
    time is ASCII, so that trimming is of ASCII white space. *)

From S2P Require Import Prelude.

Record IdentityRef := { id_name : bytes; id_email : bytes }.
Record SignatureRef := { name : bytes; email : bytes; time : bytes }.

Inductive actor_error :=
| NoClosing
| NoOpening
| SkippedPartsOverlap
| InvalidToken (token : bytes).

Definition is_lt (b : Z) : bool := b =? 60.
Definition is_gt (b : Z) : bool := b =? 62.
Definition is_nl (b : Z) : bool := b =? 10.
Definition is_space (b : Z) : bool := b =? 32.

(** ** [signature/decode.rs] *)
(** The identity and the bytes behind it. *)
Definition identity (i : bytes) : outcome actor_error (IdentityRef * bytes) :=
  let eol_idx := default (zlen i) (position is_nl i) in
  line ← expect (get_range i 0 eol_idx);
  right_delim_idx ← ok_or NoClosing (rposition is_gt line);
  i_name_and_email ← expect (get_range i 0 right_delim_idx);
  let skip_from_right := count_while is_gt (reverse i_name_and_email) in
  left_delim_idx ← ok_or NoOpening (position is_lt i_name_and_email);
  from_left ← expect (get_from i left_delim_idx);
  let skip_from_left := count_while is_lt from_left in
  nm ← expect (get_range i 0 left_delim_idx);
  let nm := default nm (strip_suffix nm [32]) in
  last ← op_sub 64 right_delim_idx skip_from_right;
  em ← ok_or SkippedPartsOverlap (get_range i (left_delim_idx + skip_from_left) last);
  let rest := default [] (get_from i (right_delim_idx + 1)) in
  Ok ({| id_name := nm; id_email := em |}, rest).
Definition is_time_byte (b : Z) : bool :=
  (b =? 43) || (b =? 45) || ((48 <=? b) && (b <=? 57)) || (b =? 32) || (b =? 9).
(** The signature and the bytes behind it. *)
Definition decode (i : bytes) : outcome actor_error (SignatureRef * bytes) :=
  '(ident, i) ← identity i;
  let i := match i with 32 :: i => i | _ => i end in
  let time_len := default (zlen i) (position (λ b, negb (is_time_byte b)) i) in
  '(t, rest) ← expect (split_at_checked i time_len);
  Ok ({| name := id_name ident; email := id_email ident; time := t |}, rest).

(** ** [signature/mod.rs] *)
Definition is_ascii_whitespace (b : Z) : bool := ((9 <=? b) && (b <=? 13)) || (b =? 32).
Fixpoint trim_start (l : bytes) : bytes :=
  match l with
  | [] => []
  | b :: l' => if is_ascii_whitespace b then trim_start l' else l
  end.
Definition trim (l : bytes) : bytes := reverse (trim_start (reverse (trim_start l))).
(** [str::parse::<i64>] *)
Fixpoint decimal (l : bytes) (acc : Z) : option Z :=
  match l with
  | [] => Some acc
  | b :: l => if (48 <=? b) && (b <=? 57) then decimal l (acc * 10 + (b - 48)) else None
  end.
Definition parse_i64 (l : bytes) : option Z :=
  match l with
  | [] => None
  | b :: l' =>
      let r := if b =? 43 then match l' with [] => None | _ => decimal l' 0 end
               else if b =? 45 then match l' with [] => None | _ => Z.opp <$> decimal l' 0 end
               else decimal l 0 in
      r ≫= λ x, if (- 2 ^ 63 <=? x) && (x <? 2 ^ 63) then Some x else None
  end.
Definition seconds (s : SignatureRef) : Z :=
  let t := trim (time s) in
  let first := match position is_space t with Some n => take (Z.to_nat n) t | None => t end in
  default 0 (parse_i64 first).

Definition validated_token (token : bytes) : outcome actor_error bytes :=
  match position (λ b, is_lt b || is_gt b || is_nl b) token with
  | Some _ => Err (InvalidToken token)
  | None => Ok token
  end.
Definition signature_write_to (s : SignatureRef) (out : bytes) : outcome actor_error bytes :=
  n ← validated_token (name s);
  e ← validated_token (email s);
  t ← validated_token (time s);
  Ok (out ++ n ++ [32] ++ [60] ++ e ++ [62; 32] ++ t).
Definition signature_size (s : SignatureRef) : Z := zlen (name s) + 2 + zlen (email s) + 2 + zlen (time s).

(** ** Lemmas *)
Lemma strip_suffix_app l s : strip_suffix (l ++ s) s = Some l.
Proof.
  unfold strip_suffix, bytes_eqb, zlen. rewrite length_app, Nat.add_sub, drop_app_length, take_app_length.
  rewrite bool_decide_eq_true_2 by done. destruct (Z.leb_spec (Z.of_nat (length s)) (Z.of_nat (length l + length s))); [done|lia].
Qed.

(** A decoder that does not panic, whatever the bytes. *)
Lemma identity_safe i : zlen i < 2 ^ 64 → identity i ≠ Panic.
Proof.
  intros Hi. unfold identity. pose proof (zlen_nonneg i).
  set (eol := default (zlen i) (position is_nl i)).
  assert (0 ≤ eol ≤ zlen i).
  { unfold eol. destruct (position is_nl i) as [k|] eqn:E; cbn; [apply position_bound in E|]; lia. }
  rewrite get_range_in by lia. cbn [expect mbind outcome_bind].
  set (line := take _ _). destruct (rposition is_gt line) as [rd|] eqn:Erd; [|done]. cbn [ok_or mbind outcome_bind].
  apply rposition_Some in Erd as (a & x & b & Hl & Ha & _).
  assert (zlen line ≤ zlen i).
  { unfold line, zlen. rewrite length_take, length_drop. lia. }
  assert (0 ≤ rd < zlen i).
  { rewrite Hl, zlen_app, zlen_cons in *. pose proof (zlen_nonneg a). pose proof (zlen_nonneg b). lia. }
  rewrite get_range_in by lia. cbn [expect mbind outcome_bind]. set (nae := take _ _).
  assert (zlen nae = rd) as Hnae by (unfold nae, zlen; rewrite length_take, length_drop; unfold zlen in *; lia).
  destruct (position is_lt nae) as [ld|] eqn:Eld; [|done]. cbn [ok_or mbind outcome_bind]. apply position_bound in Eld.
  rewrite (get_from_in i ld) by lia. cbn [expect mbind outcome_bind].
  rewrite (get_range_in i 0 ld) by lia. cbn [expect mbind outcome_bind].
  pose proof (count_while_bounds is_gt (reverse nae)) as Hc.
  assert (zlen (reverse nae) = rd) as Hrev by (unfold zlen in *; rewrite length_reverse; lia).
  unfold op_sub. rewrite checked_sub_in by lia. cbn [expect mbind outcome_bind].
  match goal with |- context [get_range i ?a ?b] => by destruct (get_range i a b) end.
Qed.
Lemma decode_safe i : zlen i < 2 ^ 64 → decode i ≠ Panic.
Proof.
  intros Hi. unfold decode. pose proof (identity_safe i Hi). destruct (identity i) as [[ident r]| |]; [|done|done].
  cbn [mbind outcome_bind]. set (j := match r with 32 :: i => i | _ => r end). unfold split_at_checked.
  pose proof (zlen_nonneg j).
  assert (0 ≤ default (zlen j) (position (λ b, negb (is_time_byte b)) j) ≤ zlen j) as Hb.
  { destruct (position _ j) as [k|] eqn:E; cbn; [apply position_bound in E|]; lia. }
  zb; done || lia.
Qed.

(** ** Round trip *)
Definition token_ok (t : bytes) : Prop := Forall (λ b, is_lt b || is_gt b || is_nl b = false) t.
Definition time_ok (t : bytes) : Prop := Forall (λ b, is_time_byte b = true) t.
Definition raw_signature (s : SignatureRef) : bytes := name s ++ 32 :: 60 :: email s ++ 62 :: 32 :: time s.
Lemma token_ok_parts t : token_ok t → Forall (λ b, is_lt b = false) t ∧ Forall (λ b, is_gt b = false) t ∧ Forall (λ b, is_nl b = false) t.
Proof.
  intros Ht. repeat split; (eapply Forall_impl; [|exact Ht]); cbn; intros b Hb; destruct (is_lt b), (is_gt b), (is_nl b); done.
Qed.
Lemma time_ok_token t : time_ok t → token_ok t.
Proof.
  intros Ht. eapply Forall_impl; [|exact Ht]. cbn. intros b. unfold is_time_byte, is_lt, is_gt, is_nl. lia.
Qed.
Lemma validated_token_ok t : validated_token t = Ok t ↔ token_ok t.
Proof.
  unfold validated_token, token_ok. rewrite <- position_None. by destruct (position _ t).
Qed.
Lemma validated_token_cases t : (validated_token t = Ok t ∧ token_ok t) ∨ (validated_token t = Err (InvalidToken t) ∧ ~ token_ok t).
Proof.
  pose proof (validated_token_ok t) as Hv. unfold validated_token in *. destruct (position _ t); [right|left]; split; try done; naive_solver.
Qed.
(** What is in front of the end of the line. *)
Lemma line_of l r : Forall (λ b, is_nl b = false) l → (r = [] ∨ head r = Some 10) →
  default (zlen (l ++ r)) (position is_nl (l ++ r)) = zlen l.
Proof.
  intros Hl [-> | Hr].
  - rewrite app_nil_r. apply position_None in Hl. by rewrite Hl.
  - destruct r as [|b r]; [done|]. injection Hr as ->. by rewrite (position_app is_nl l 10 r Hl eq_refl).
Qed.
Lemma identity_raw s rest : token_ok (name s) → token_ok (email s) → time_ok (time s) → (rest = [] ∨ head rest = Some 10) →
  zlen (raw_signature s) < 2 ^ 64 →
  identity (raw_signature s ++ rest) = Ok ({| id_name := name s; id_email := email s |}, 32 :: time s ++ rest).
Proof.
  intros Hn He Ht Hr Hlen. destruct s as [n e t]. unfold raw_signature in *. cbn [name email time] in *.
  apply token_ok_parts in Hn as (Hn1 & Hn2 & Hn3), He as (He1 & He2 & He3).
  apply time_ok_token, token_ok_parts in Ht as (Ht1 & Ht2 & Ht3).
  set (l := n ++ 32 :: 60 :: e ++ 62 :: 32 :: t). set (i := l ++ rest). set (nae := n ++ 32 :: 60 :: e).
  assert (Hnl : Forall (λ b, is_nl b = false) l).
  { unfold l. apply Forall_app. split; [done|]. constructor; [done|]. constructor; [done|].
    apply Forall_app. split; [done|]. constructor; [done|]. by constructor. }
  assert (Hi : i = nae ++ [62] ++ 32 :: t ++ rest) by (unfold i, l, nae; by rewrite <- !app_assoc; cbn; rewrite <- app_assoc).
  assert (Hi2 : i = (n ++ [32]) ++ 60 :: e ++ 62 :: 32 :: t ++ rest) by (rewrite Hi; unfold nae; by rewrite <- !app_assoc).
  assert (Hline : get_range i 0 (zlen l) = Some l) by (apply (get_range_app [] l); unfold zlen; cbn; lia).
  assert (Hright : rposition is_gt l = Some (zlen nae)).
  { replace l with (nae ++ 62 :: 32 :: t) by (unfold l, nae; by rewrite <- app_assoc).
    apply rposition_app; [done|]. by constructor. }
  assert (Hnae : get_range i 0 (zlen nae) = Some nae) by (rewrite Hi; apply (get_range_app [] nae); unfold zlen; cbn; lia).
  assert (Hleft : position is_lt nae = Some (zlen (n ++ [32]))).
  { replace nae with ((n ++ [32]) ++ 60 :: e) by (unfold nae; by rewrite <- app_assoc).
    apply position_app; [|done]. apply Forall_app. split; [done|]. by repeat constructor. }
  assert (Hskr : count_while is_gt (reverse nae) = 0).
  { unfold nae. change (32 :: 60 :: e) with ([32] ++ 60 :: e). rewrite app_assoc, reverse_app, reverse_cons.
    destruct e as [|x e _] using rev_ind; [done|]. rewrite reverse_app. cbn [app reverse rev_append].
    apply Forall_app in He2 as [_ He2]. apply list.Forall_cons in He2 as [He2 _]. cbn. by rewrite He2. }
  assert (Hskl : count_while is_lt (60 :: e ++ 62 :: 32 :: t ++ rest) = 1).
  { cbn. destruct e as [|x e]; [done|]. apply list.Forall_cons in He1 as [He1 _]. cbn. by rewrite He1. }
  assert (Hem : get_range i (zlen (n ++ [32]) + 1) (zlen nae) = Some e).
  { replace i with ((n ++ [32; 60]) ++ e ++ 62 :: 32 :: t ++ rest) by (rewrite Hi2; by rewrite <- !app_assoc).
    apply get_range_app; unfold nae; rewrite !zlen_app, ?zlen_cons; unfold zlen; cbn; lia. }
  assert (Hfl : get_from i (zlen (n ++ [32])) = Some (60 :: e ++ 62 :: 32 :: t ++ rest)) by (rewrite Hi2; apply get_from_app).
  assert (Hnm : get_range i 0 (zlen (n ++ [32])) = Some (n ++ [32])).
  { rewrite Hi2. apply (get_range_app [] (n ++ [32])); unfold zlen; cbn; lia. }
  assert (Hrest : get_from i (zlen nae + 1) = Some (32 :: t ++ rest)).
  { rewrite Hi, app_assoc. replace (zlen nae + 1) with (zlen (nae ++ [62])) by (rewrite zlen_app; done). apply get_from_app. }
  pose proof (line_of l rest Hnl Hr) as Heol. fold i in Heol. unfold identity. fold i. rewrite Heol, Hline. cbn [expect mbind outcome_bind].
  rewrite Hright. cbn [ok_or mbind outcome_bind]. rewrite Hnae. cbn [expect mbind outcome_bind]. rewrite Hskr, Hleft.
  cbn [ok_or mbind outcome_bind]. rewrite Hfl. cbn [expect mbind outcome_bind]. rewrite Hskl.
  rewrite Hnm. cbn [expect mbind outcome_bind].
  rewrite strip_suffix_app. unfold op_sub. 
  assert (Hs : zlen nae - 0 = zlen nae) by lia.
  assert (Hb : zlen nae ≤ zlen l).
  { unfold l, nae, zlen. rewrite !length_app. cbn. rewrite length_app. lia. }
  pose proof (zlen_nonneg nae). rewrite checked_sub_in, Hs by (fold l in Hlen; lia). cbn [expect mbind outcome_bind].
  rewrite Hem. cbn [ok_or mbind outcome_bind]. by rewrite Hrest.
Qed.
Lemma decode_raw s rest : token_ok (name s) → token_ok (email s) → time_ok (time s) → (rest = [] ∨ head rest = Some 10) →
  zlen (raw_signature s) < 2 ^ 64 → decode (raw_signature s ++ rest) = Ok (s, rest).
Proof.
  intros Hn He Ht Hr Hlen. unfold decode. rewrite identity_raw by done. cbn [mbind outcome_bind id_name id_email].
  assert (default (zlen (time s ++ rest)) (position (λ b, negb (is_time_byte b)) (time s ++ rest)) = zlen (time s)) as ->.
  { assert (Hf : Forall (λ b, negb (is_time_byte b) = false) (time s)).
    { eapply Forall_impl; [|exact Ht]. cbn. by intros b ->. }
    destruct rest as [|b rest].
    - rewrite app_nil_r. apply position_None in Hf. by rewrite Hf.
    - destruct Hr as [? | [= ->]]; [done|]. by rewrite (position_app _ (time s) 10 rest Hf eq_refl). }
  rewrite (split_at_app (time s) rest) by done. by destruct s.
Qed.
(** What [write_to] appends, and when it refuses. *)
Lemma signature_write_to_cases s out :
  (signature_write_to s out = Ok (out ++ raw_signature s) ∧ token_ok (name s) ∧ token_ok (email s) ∧ token_ok (time s)) ∨
  (∃ t, signature_write_to s out = Err (InvalidToken t) ∧ ~ token_ok t ∧ (t = name s ∨ t = email s ∨ t = time s)).
Proof.
  unfold signature_write_to.
  destruct (validated_token_cases (name s)) as [[-> Hn]|[-> Hn]]; cbn [mbind outcome_bind]; [|right; eexists; split; [done|]; naive_solver].
  destruct (validated_token_cases (email s)) as [[-> He]|[-> He]]; cbn [mbind outcome_bind]; [|right; eexists; split; [done|]; naive_solver].
  destruct (validated_token_cases (time s)) as [[-> Ht]|[-> Ht]]; cbn [mbind outcome_bind]; [|right; eexists; split; [done|]; naive_solver].
  left. split; [|done]. unfold raw_signature. done.
Qed.

(** A signature that [write_to] accepts and whose time is made of time bytes is decoded
    to itself from what was written, whether the line ends there or a newline follows;
    what was written is as long as [size] says. [write_to] refuses exactly the signatures
    with an angle bracket or a newline in one of their parts, and [decode] does not panic on any
    bytes. *)
Theorem signature_roundtrip (s : SignatureRef) (out rest data : bytes)
    (Hsize : zlen (raw_signature s) < 2 ^ 64) (Hdata : zlen data < 2 ^ 64)
    (Hrest : rest = [] ∨ head rest = Some 10) :
  decode data ≠ Panic ∧
  (token_ok (name s) ∧ token_ok (email s) ∧ token_ok (time s) ↔ signature_write_to s out = Ok (out ++ raw_signature s)) ∧
  (∀ written, signature_write_to s out = Ok written →
     zlen written = zlen out + signature_size s ∧
     (time_ok (time s) → signature_write_to s [] ≫= (λ text, decode (text ++ rest)) = Ok (s, rest))).
Proof.
  split; [by apply decode_safe|]. split.
  { destruct (signature_write_to_cases s out) as [[-> ?]|(t & -> & Ht & Hc)]; [done|]. naive_solver. }
  intros written Hw. destruct (signature_write_to_cases s out) as [(Ho & Hn & He & Ht)|(t & Hc & _)]; [|congruence].
  rewrite Ho in Hw. injection Hw as <-. split.
  - unfold raw_signature, signature_size. rewrite !zlen_app, !zlen_cons, !zlen_app, !zlen_cons. lia.
  - intros Htime. destruct (signature_write_to_cases s []) as [(-> & _)|(t & _ & Hb & [-> | [-> | ->]])]; [|done..].
    by apply decode_raw.
Qed.
Definition sample_signature : SignatureRef :=
  {| name := [65; 32; 66]; email := [97; 64; 98]; time := [49; 55; 48; 48; 32; 43; 48; 49; 48; 48] |}.
Lemma signature_roundtrip_witness : signature_write_to sample_signature [] ≫= (λ text, decode (text ++ [10; 71])) = Ok (sample_signature, [10; 71]).
Proof.
  assert (Hs : zlen (raw_signature sample_signature) < 2 ^ 64) by (vm_compute; exact eq_refl).
  assert (Hd : zlen [60] < 2 ^ 64) by (vm_compute; exact eq_refl).
  destruct (signature_roundtrip sample_signature [] [10; 71] [60] Hs Hd (or_intror eq_refl)) as (_ & _ & H).
  apply (H _ eq_refl). repeat (constructor; [reflexivity|]). constructor.
Defined.
