(* ===== verification/RawTime.v ===== *)
(** * [gix-date]: times in headers, and the owned signatures of [gix-actor]

    The raw format, [1700000000 +0100]: printing into a writer and into a buffer that is just large enough,
    the lenient parser of headers and the strict one. Texts of times are ASCII, so that white space is ASCII
    white space and every index is the boundary of a character. *)

From S2P Require Import Prelude Actor.

(** ** [gix-date/src/lib.rs], [time/write.rs] *)
Record Time := { time_seconds : Z; time_offset : Z }.
Inductive time_error := OffsetTooLarge | StorageFull.

(** Decimal digits, of numbers below [10 ^ fuel]: what [itoa] prints. *)
Fixpoint itoa_digits (fuel : nat) (n : Z) : bytes :=
  match fuel with
  | O => []
  | S fuel => if n <? 10 then [48 + n] else itoa_digits fuel (n / 10) ++ [48 + n mod 10]
  end.
Definition itoa (n : Z) : bytes := (if n <? 0 then [45] else []) ++ itoa_digits 20 (Z.abs n).
Definition SECONDS_PER_HOUR : Z := 60 * 60.
Definition two_digits (n : Z) : bytes := (if n <? 10 then [48] else []) ++ itoa n.
Definition time_write_to (t : Time) (out : bytes) : outcome time_error bytes :=
  let offset := Z.abs (time_offset t) in
  let hours := offset / SECONDS_PER_HOUR in
  let minutes := (offset - hours * SECONDS_PER_HOUR) / 60 in
  if 99 <? hours then Err OffsetTooLarge
  else Ok (out ++ itoa (time_seconds t) ++ [32] ++ (if time_offset t <? 0 then [45] else [43])
             ++ two_digits hours ++ two_digits minutes).
Definition POW10 : list Z := (λ i, 10 ^ i) <$> seqZ 0 20.
Fixpoint count_digits_loop (fuel : nat) (n digits : Z) : outcome time_error Z :=
  match fuel with
  | O => Panic
  | S fuel =>
      if digits <? 20 then
        p ← expect (get POW10 digits);
        if p <=? n then count_digits_loop fuel n (digits + 1) else Ok digits
      else Ok digits
  end.
Definition count_positive_digits (n : Z) : outcome time_error Z := count_digits_loop 20 n 1.
Definition time_size (t : Time) : outcome time_error Z :=
  n ← count_positive_digits (Z.abs (time_seconds t));
  Ok (n + (if time_seconds t <? 0 then 1 else 0) + 6).
Definition MIN : Time := {| time_seconds := - 2 ^ 63; time_offset := - (99 * 60 * 60 + 59 * 60 + 59) |}.
Definition MAX : Time := {| time_seconds := 2 ^ 63 - 1; time_offset := 99 * 60 * 60 + 59 * 60 + 59 |}.

(** ** [parse/mod.rs]

    The buffer holds [Time::MIN.size()] bytes; the writer of a part that does not fit fails. *)
Record TimeBuf := { end_idx : Z; buf : bytes }.
Definition time_buf_default : outcome time_error TimeBuf :=
  n ← time_size MIN; Ok {| end_idx := 0; buf := replicate (Z.to_nat n) 0 |}.
Definition time_buf_write (b : TimeBuf) (part : bytes) : outcome time_error TimeBuf :=
  end_ ← ok_or StorageFull (checked_add 64 (end_idx b) (zlen part));
  size ← time_size MIN;
  _ ← ensure (negb (size <? end_)) StorageFull;
  before ← expect (get_range (buf b) 0 (end_idx b));
  after ← expect (get_from (buf b) end_);
  Ok {| end_idx := end_; buf := before ++ part ++ after |}.
(** [write_to] with this writer. *)
Definition time_write_to_buf (t : Time) (b : TimeBuf) : outcome time_error TimeBuf :=
  let offset := Z.abs (time_offset t) in
  let hours := offset / SECONDS_PER_HOUR in
  let minutes := (offset - hours * SECONDS_PER_HOUR) / 60 in
  if 99 <? hours then Err OffsetTooLarge
  else
    b ← time_buf_write b (itoa (time_seconds t));
    b ← time_buf_write b [32];
    b ← time_buf_write b (if time_offset t <? 0 then [45] else [43]);
    b ← (if hours <? 10 then time_buf_write b [48] else Ok b);
    b ← time_buf_write b (itoa hours);
    b ← (if minutes <? 10 then time_buf_write b [48] else Ok b);
    time_buf_write b (itoa minutes).
Definition as_str (b : TimeBuf) : outcome time_error bytes := expect (get_range (buf b) 0 (end_idx b)).
(** [expect] turns errors into a panic. *)
Definition to_str (t : Time) (b : TimeBuf) : outcome time_error bytes :=
  match time_write_to_buf t {| end_idx := 0; buf := buf b |} with
  | Ok b => as_str b
  | _ => Panic
  end.

(** ** [parse/function.rs], [parse/raw.rs] *)
Fixpoint split_whitespace (l current : bytes) : list bytes :=
  match l with
  | [] => match current with [] => [] | _ => [current] end
  | b :: l =>
      if is_ascii_whitespace b
      then match current with [] => split_whitespace l [] | _ => current :: split_whitespace l [] end
      else split_whitespace l (current ++ [b])
  end.
Definition parse_i32 (l : bytes) : option Z :=
  parse_i64 l ≫= λ x, if (- 2 ^ 31 <=? x) && (x <? 2 ^ 31) then Some x else None.
Definition parse_u8 (l : bytes) : option Z :=
  match l with
  | [] => None
  | b :: l' => (if b =? 43 then match l' with [] => None | _ => decimal l' 0 end else decimal l 0)
      ≫= λ x, if x <? 256 then Some x else None
  end.
Definition is_ascii_digit (b : Z) : bool := (48 <=? b) && (b <=? 57).
Definition parse_sign (l : bytes) : option Z :=
  s ← get_range l 0 1;
  match s with [45] => Some (-1) | [43] => Some 1 | _ => None end.
Definition parse_offset (offset : bytes) : option Z :=
  if negb (zlen offset =? 5) && negb (zlen offset =? 7) then None
  else
    sign ← parse_sign offset;
    if match get offset 1 with Some b => negb (is_ascii_digit b) | None => false end then None
    else
      h ← get_range offset 1 3; hours ← parse_i32 h;
      m ← get_range offset 3 5; minutes ← parse_i32 m;
      seconds ← (if zlen offset =? 7 then s ← get_range offset 5 7; parse_i32 s else Some 0);
      Some (sign * (hours * 3600 + minutes * 60 + seconds)).
Definition leading_digits (l : bytes) : bytes := take (Z.to_nat (count_while is_ascii_digit l)) l.
Definition parse_header (input : bytes) : option Time :=
  if existsb (λ b, b =? 58) input then None
  else
    match split_whitespace input [] with
    | [] => None
    | s :: rest =>
        secs ← match parse_i64 s with Some n => Some n | None => parse_i64 (leading_digits s) end;
        Some {| time_seconds := secs;
                time_offset := match rest with [offset] => default 0 (parse_offset offset) | _ => 0 end |}
    end.
Definition parse_raw (input : bytes) : option Time :=
  match split_whitespace input [] with
  | [s; offset] =>
      secs ← parse_i64 s;
      if negb (zlen offset =? 5) && negb (zlen offset =? 7) then None
      else
        sign ← parse_sign offset;
        h ← get_range offset 1 3; hours ← parse_u8 h;
        m ← get_range offset 3 5; minutes ← parse_u8 m;
        offset_seconds ← (if zlen offset =? 7 then s ← get_range offset 5 7; parse_u8 s else Some 0);
        if (14 <? hours) || (negb (minutes =? 0) && negb (minutes =? 15) && negb (minutes =? 30) && negb (minutes =? 45))
           || negb (offset_seconds =? 0) then None
        else Some {| time_seconds := secs; time_offset := sign * (hours * 3600 + minutes * 60) |}
  | _ => None
  end.

(** ** [gix-actor/src/signature/mod.rs]: owned signatures *)
Record Signature := { sig_name : bytes; sig_email : bytes; sig_time : Time }.
Definition time_default : Time := {| time_seconds := 0; time_offset := 0 |}.
Definition signature_from (s : SignatureRef) : Signature :=
  {| sig_name := name s; sig_email := email s; sig_time := default time_default (parse_header (time s)) |}.
Definition to_ref (s : Signature) : outcome time_error SignatureRef :=
  b ← time_buf_default;
  t ← to_str (sig_time s) b;
  Ok {| name := sig_name s; email := sig_email s; time := t |}.
Definition owned_write_to (s : Signature) (out : bytes) : outcome actor_error bytes :=
  match to_ref s with
  | Ok r => signature_write_to r out
  | _ => Panic
  end.
Definition owned_size (s : Signature) : outcome time_error Z :=
  n ← time_size (sig_time s); Ok (zlen (sig_name s) + 2 + zlen (sig_email s) + 2 + n).

Example parse_ex1 : parse_header [49; 50; 51; 32; 43; 48; 56; 49; 53] = Some {| time_seconds := 123; time_offset := 8 * 3600 + 15 * 60 |}.
Proof. reflexivity. Qed.

(** ** Lemmas: decimal digits *)
Lemma decimal_app a b acc : decimal (a ++ b) acc = decimal a acc ≫= decimal b.
Proof. revert acc. induction a as [|x a IH]; intros acc; [done|]. cbn [app decimal]. destruct (_ && _); [apply IH|done]. Qed.
Definition digits_ok (l : bytes) : Prop := Forall (λ b, is_ascii_digit b = true) l.
(** The digits of [n]: there are [d] of them, the first one is not zero unless it is the only one. *)
Lemma itoa_digits_spec fuel : ∀ n, (0 < fuel)%nat → 0 ≤ n < 10 ^ Z.of_nat fuel →
  let l := itoa_digits fuel n in
  digits_ok l ∧ (∀ acc, decimal l acc = Some (acc * 10 ^ zlen l + n)) ∧
  1 ≤ zlen l ≤ Z.of_nat fuel ∧ n < 10 ^ zlen l ∧ (zlen l = 1 ∨ 10 ^ (zlen l - 1) ≤ n).
Proof.
  induction fuel as [|fuel IH]; intros n Hf Hn; [lia|]. cbn [itoa_digits]. destruct (Z.ltb_spec n 10) as [Hlt|Hge].
  - change (zlen [48 + n]) with 1. split; [apply Forall_singleton; unfold is_ascii_digit; lia|]. split; [|lia]. intros acc. cbn [decimal].
    destruct ((48 <=? 48 + n) && (48 + n <=? 57)) eqn:E; [f_equal; lia|lia].
  - assert (0 < fuel)%nat as Hf' by (destruct fuel; [cbn in Hn; lia|lia]).
    assert (0 ≤ n / 10 < 10 ^ Z.of_nat fuel) as Hq.
    { rewrite Nat2Z.inj_succ, Z.pow_succ_r in Hn by lia. Z.div_mod_to_equations. lia. }
    destruct (IH (n / 10) Hf' Hq) as (Hd & Hdec & Hlen & Hub & Hlb). set (l := itoa_digits fuel (n / 10)) in *. clearbody l.
    assert (zlen (l ++ [48 + n mod 10]) = zlen l + 1) as Hz by (by rewrite zlen_app). rewrite Hz.
    assert (0 ≤ n mod 10 < 10 ∧ n = 10 * (n / 10) + n mod 10) as [Hm Hnm] by (Z.div_mod_to_equations; lia).
    assert (10 ^ (zlen l + 1) = 10 * 10 ^ zlen l) as Hp by (rewrite Z.add_1_r, Z.pow_succ_r by lia; done).
    split; [apply Forall_app; split; [done|]; apply Forall_singleton; unfold is_ascii_digit; lia|]. split; [|split; [lia|split; [lia|]]].
    + intros acc. rewrite decimal_app, Hdec. cbn [mbind option_bind decimal].
      destruct ((48 <=? 48 + n mod 10) && (48 + n mod 10 <=? 57)) eqn:E; [|lia]. f_equal. rewrite Hp. lia.
    + right. rewrite Z.add_simpl_r. destruct Hlb as [Hl1|Hlb]; [rewrite Hl1; lia|].
      assert (10 ^ zlen l = 10 * 10 ^ (zlen l - 1)) as Hp' by (rewrite <- Z.pow_succ_r by lia; f_equal; lia). lia.
Qed.
Lemma POW10_get i : 0 ≤ i < 20 → get POW10 i = Some (10 ^ i).
Proof.
  intros Hi. replace i with (Z.of_nat (Z.to_nat i)) by lia. rewrite get_nat. unfold POW10. rewrite list_lookup_fmap, lookup_seqZ_lt by lia.
  cbn. do 2 f_equal.
Qed.
Lemma count_digits_loop_spec fuel : ∀ n d, 1 ≤ d → 20 - d < Z.of_nat fuel → (d = 1 ∨ 10 ^ (d - 1) ≤ n) → n < 10 ^ 20 → d ≤ 20 →
  ∃ r, count_digits_loop fuel n d = Ok r ∧ 1 ≤ r ≤ 20 ∧ (r = 1 ∨ 10 ^ (r - 1) ≤ n) ∧ n < 10 ^ r.
Proof.
  induction fuel as [|fuel IH]; intros n d Hd Hf Hlo Hn H20; [lia|]. cbn [count_digits_loop].
  destruct (Z.ltb_spec d 20); [|exists d; assert (d = 20) as -> by lia; done].
  rewrite POW10_get by lia. cbn [expect mbind outcome_bind]. destruct (Z.leb_spec (10 ^ d) n); [|exists d; split; [done|]; split; [lia|done]].
  apply IH; [lia|lia|right; by rewrite Z.add_simpl_r|done|lia].
Qed.
Lemma digits_unique n a b : 1 ≤ a → 1 ≤ b → (a = 1 ∨ 10 ^ (a - 1) ≤ n) → n < 10 ^ a → (b = 1 ∨ 10 ^ (b - 1) ≤ n) → n < 10 ^ b → a = b.
Proof.
  intros Ha Hb Ha1 Ha2 Hb1 Hb2. destruct (Z.lt_trichotomy a b) as [H|[H|H]]; [exfalso|done|exfalso].
  - destruct Hb1 as [->|Hb1]; [lia|]. assert (10 ^ a ≤ 10 ^ (b - 1)) by (apply Z.pow_le_mono_r; lia). lia.
  - destruct Ha1 as [->|Ha1]; [lia|]. assert (10 ^ b ≤ 10 ^ (a - 1)) by (apply Z.pow_le_mono_r; lia). lia.
Qed.
Lemma count_positive_digits_spec n : 0 ≤ n < 10 ^ 20 → count_positive_digits n = Ok (zlen (itoa_digits 20 n)).
Proof.
  intros Hn. destruct (itoa_digits_spec 20 n ltac:(lia) Hn) as (_ & _ & Hl & Hub & Hlb).
  destruct (count_digits_loop_spec 20 n 1) as (r & Hr & Hr1 & Hr2 & Hr3); [lia|lia|by left|lia|lia|].
  unfold count_positive_digits. rewrite Hr. f_equal. apply (digits_unique n); try done; lia.
Qed.
Lemma two_digits_spec n : 0 ≤ n < 100 → ∃ a b, two_digits n = [48 + a; 48 + b] ∧ 0 ≤ a < 10 ∧ 0 ≤ b < 10 ∧ n = 10 * a + b.
Proof.
  intros Hn. unfold two_digits, itoa. destruct (Z.ltb_spec n 0); [lia|]. rewrite Z.abs_eq by lia. cbn [app itoa_digits].
  destruct (Z.ltb_spec n 10) as [Hlt|Hge]; [exists 0, n; split; [done|lia]|].
  destruct (Z.ltb_spec (n / 10) 10); [|Z.div_mod_to_equations; lia]. exists (n / 10), (n mod 10). split; [done|]. Z.div_mod_to_equations. lia.
Qed.
Lemma digits_time l : digits_ok l → time_ok l.
Proof. intros H. eapply Forall_impl; [|exact H]. intros b. unfold is_ascii_digit, is_time_byte. lia. Qed.
Definition seconds_ok (s : Z) : Prop := - 2 ^ 63 ≤ s < 2 ^ 63.
Lemma itoa_spec s : seconds_ok s →
  time_ok (itoa s) ∧ Forall (λ b, is_ascii_whitespace b = false) (itoa s) ∧ itoa s ≠ [] ∧ parse_i64 (itoa s) = Some s ∧
  zlen (itoa s) = zlen (itoa_digits 20 (Z.abs s)) + (if s <? 0 then 1 else 0).
Proof.
  unfold seconds_ok. intros Hs. destruct (itoa_digits_spec 20 (Z.abs s)) as (Hd & Hdec & Hl & _); [lia|lia|]. unfold itoa.
  set (l := itoa_digits 20 (Z.abs s)) in *. clearbody l.
  assert (Forall (λ b, is_ascii_whitespace b = false) l) as Hw.
  { eapply Forall_impl; [|exact Hd]. intros b. unfold is_ascii_digit, is_ascii_whitespace. lia. }
  assert (l ≠ []) as Hne by (intros ->; rewrite zlen_nil in Hl; lia).
  destruct (Z.ltb_spec s 0) as [Hneg|Hpos]; cbn [app].
  - split; [constructor; [done|by apply digits_time]|]. split; [by constructor|]. split; [done|]. split; [|rewrite zlen_cons; lia].
    destruct l as [|b l]; [done|]. unfold parse_i64. cbn [Z.eqb Pos.eqb]. rewrite Hdec. cbn [fmap option_fmap option_map mbind option_bind].
    destruct ((- 2 ^ 63 <=? _) && _) eqn:E; [f_equal; lia|lia].
  - split; [by apply digits_time|]. split; [done|]. split; [done|]. split; [|lia].
    destruct l as [|b l]; [done|]. pose proof Hd as Hd'. apply list.Forall_cons in Hd' as [Hb _]. unfold parse_i64.
    destruct (Z.eqb_spec b 43) as [->|]; [done|]. destruct (Z.eqb_spec b 45) as [->|]; [done|]. rewrite Hdec. cbn [mbind option_bind].
    destruct ((- 2 ^ 63 <=? _) && _) eqn:E; [f_equal; lia|lia].
Qed.

(** ** Lemmas: writing and parsing *)
Definition sign_of (o : Z) : Z := if o <? 0 then 45 else 43.
Definition offset_text (o : Z) : bytes :=
  [sign_of o] ++ two_digits (Z.abs o / 3600) ++ two_digits (Z.abs o mod 3600 / 60).
Definition time_text (t : Time) : bytes := itoa (time_seconds t) ++ [32] ++ offset_text (time_offset t).
(** Offsets of at most 99 hours can be printed. *)
Definition printable (o : Z) : Prop := Z.abs o < 360000.
Lemma minutes_eq o : (o - o / SECONDS_PER_HOUR * SECONDS_PER_HOUR) / 60 = o mod 3600 / 60.
Proof. change SECONDS_PER_HOUR with 3600. f_equal. Z.div_mod_to_equations. lia. Qed.
Lemma hours_range o : printable o ↔ (99 <? Z.abs o / SECONDS_PER_HOUR) = false.
Proof. unfold printable. change SECONDS_PER_HOUR with 3600. rewrite Z.ltb_ge. Z.div_mod_to_equations. lia. Qed.
Lemma offset_digits o : printable o → ∃ h1 h2 m1 m2, offset_text o = [sign_of o; 48 + h1; 48 + h2; 48 + m1; 48 + m2] ∧
  (0 ≤ h1 < 10 ∧ 0 ≤ h2 < 10 ∧ 0 ≤ m1 < 10 ∧ 0 ≤ m2 < 10) ∧ 10 * m1 + m2 < 60 ∧ (10 * h1 + h2) * 3600 + (10 * m1 + m2) * 60 = Z.abs o / 60 * 60.
Proof.
  unfold printable, offset_text. intros Ho.
  destruct (two_digits_spec (Z.abs o / 3600)) as (h1 & h2 & -> & ? & ? & Hh); [Z.div_mod_to_equations; lia|].
  destruct (two_digits_spec (Z.abs o mod 3600 / 60)) as (m1 & m2 & -> & ? & ? & Hm); [Z.div_mod_to_equations; lia|].
  exists h1, h2, m1, m2. split; [done|]. split; [done|]. rewrite <- Hh, <- Hm. clear. split; Z.div_mod_to_equations; lia.
Qed.
Lemma time_write_spec t out : time_write_to t out = if decide (printable (time_offset t)) then Ok (out ++ time_text t) else Err OffsetTooLarge.
Proof.
  unfold time_write_to. destruct (decide _) as [Hp|Hp]; rewrite hours_range in Hp; [rewrite Hp|apply not_false_is_true in Hp; by rewrite Hp].
  f_equal. unfold time_text, offset_text, sign_of. rewrite minutes_eq. change SECONDS_PER_HOUR with 3600. by destruct (_ <? 0).
Qed.
Lemma time_size_spec t : seconds_ok (time_seconds t) → printable (time_offset t) →
  time_size t = Ok (zlen (time_text t)) ∧ zlen (time_text t) ≤ 26.
Proof.
  intros Hs Ho. unfold time_size, time_text. destruct (itoa_spec _ Hs) as (_ & _ & _ & _ & Hz). unfold seconds_ok in Hs.
  rewrite count_positive_digits_spec by lia. cbn [mbind outcome_bind]. destruct (offset_digits _ Ho) as (h1 & h2 & m1 & m2 & -> & _).
  rewrite !zlen_app, Hz. change (zlen [32]) with 1. match goal with |- context [zlen (sign_of ?o :: ?l)] => change (zlen (sign_of o :: l)) with 5 end.
  split; [f_equal; lia|]. destruct (itoa_digits_spec 20 (Z.abs (time_seconds t))) as (_ & _ & Hl & Hub & Hlb); [lia|lia|].
  destruct Hlb as [->|Hlb]; [destruct (_ <? 0); lia|]. set (d := zlen (itoa_digits _ _)) in *.
  assert (d ≤ 19); [|destruct (_ <? 0); lia]. destruct (Z.le_gt_cases d 19); [done|]. assert (10 ^ 19 ≤ 10 ^ (d - 1)) by (apply Z.pow_le_mono_r; lia). lia.
Qed.
Lemma time_text_bytes t : seconds_ok (time_seconds t) → printable (time_offset t) → time_ok (time_text t).
Proof.
  intros Hs Ho. unfold time_text. destruct (itoa_spec _ Hs) as (Ht & _). destruct (offset_digits _ Ho) as (h1 & h2 & m1 & m2 & -> & Hd & _).
  apply Forall_app. split; [done|]. apply Forall_app. split; [by apply Forall_singleton|]. unfold sign_of.
  repeat (apply Forall_cons_2; [unfold is_time_byte; try destruct (_ <? 0); lia|]). constructor.
Qed.
Lemma split_whitespace_word w l cur : Forall (λ b, is_ascii_whitespace b = false) w →
  split_whitespace (w ++ l) cur = split_whitespace l (cur ++ w).
Proof.
  intros Hw. revert cur. induction Hw as [|b w Hb _ IH]; intros cur; cbn [app split_whitespace]; [by rewrite app_nil_r|].
  rewrite Hb, IH. by rewrite <- app_assoc.
Qed.
Lemma split_two a b : a ≠ [] → b ≠ [] → Forall (λ b, is_ascii_whitespace b = false) a → Forall (λ b, is_ascii_whitespace b = false) b →
  split_whitespace (a ++ [32] ++ b) [] = [a; b].
Proof.
  intros Ha Hb Hwa Hwb. rewrite split_whitespace_word by done. cbn [app split_whitespace is_ascii_whitespace]. destruct a as [|x a]; [done|].
  change (is_ascii_whitespace 32) with true. cbn iota. f_equal. rewrite <- (app_nil_r b) at 1. rewrite split_whitespace_word by done.
  cbn [app split_whitespace]. by destruct b.
Qed.
Lemma parse_i32_two a b : 0 ≤ a < 10 → 0 ≤ b < 10 → parse_i32 [48 + a; 48 + b] = Some (10 * a + b).
Proof.
  intros Ha Hb. unfold parse_i32, parse_i64. destruct (Z.eqb_spec (48 + a) 43); [lia|]. destruct (Z.eqb_spec (48 + a) 45); [lia|]. cbn [decimal].
  destruct ((48 <=? 48 + a) && _) eqn:E; [|lia]. destruct ((48 <=? 48 + b) && _) eqn:E'; [|lia]. cbn [mbind option_bind].
  destruct ((- 2 ^ 63 <=? _) && _) eqn:E2; [|lia]. cbn [mbind option_bind]. destruct ((- 2 ^ 31 <=? _) && _) eqn:E3; [f_equal; lia|lia].
Qed.
Lemma parse_offset_spec o : printable o → parse_offset (offset_text o) = Some (Z.quot o 60 * 60).
Proof.
  intros Ho. destruct (offset_digits _ Ho) as (h1 & h2 & m1 & m2 & -> & (? & ? & ? & ?) & _ & Heq). unfold parse_offset.
  change (zlen _) with 5. cbn [Z.eqb Pos.eqb negb andb].
  assert (parse_sign [sign_of o; 48 + h1; 48 + h2; 48 + m1; 48 + m2] = Some (if o <? 0 then -1 else 1)) as ->.
  { unfold sign_of. by destruct (o <? 0). }
  cbn [mbind option_bind]. change (get _ 1) with (Some (48 + h1)). cbn iota.
  assert (is_ascii_digit (48 + h1) = true) as -> by (unfold is_ascii_digit; lia). cbn [negb].
  change (get_range _ 1 3) with (Some [48 + h1; 48 + h2]). cbn [mbind option_bind]. rewrite parse_i32_two by done. cbn [mbind option_bind].
  change (get_range _ 3 5) with (Some [48 + m1; 48 + m2]). cbn [mbind option_bind]. rewrite parse_i32_two by done. cbn [mbind option_bind].
  f_equal. rewrite Z.add_0_r, Heq. destruct (Z.ltb_spec o 0).
  - rewrite Z.abs_neq by lia. pose proof (Z.quot_opp_l (- o) 60 ltac:(lia)) as Hq. rewrite Z.opp_involutive, (Z.quot_div_nonneg (- o)) in Hq by lia. lia.
  - rewrite Z.abs_eq, Z.quot_div_nonneg by lia. lia.
Qed.
Lemma parse_header_text t : seconds_ok (time_seconds t) → printable (time_offset t) →
  parse_header (time_text t) = Some {| time_seconds := time_seconds t; time_offset := Z.quot (time_offset t) 60 * 60 |}.
Proof.
  intros Hs Ho. unfold parse_header. assert (existsb (λ b, b =? 58) (time_text t) = false) as ->.
  { pose proof (time_text_bytes t Hs Ho) as Ht. induction Ht as [|b l Hb _ IH]; [done|]. cbn. rewrite IH.
    unfold is_time_byte in Hb. destruct (Z.eqb_spec b 58) as [->|]; done. }
  destruct (itoa_spec _ Hs) as (_ & Hw & Hne & Hparse & _). unfold time_text.
  assert (offset_text (time_offset t) ≠ [] ∧ Forall (λ b, is_ascii_whitespace b = false) (offset_text (time_offset t))) as [Hone How].
  { destruct (offset_digits _ Ho) as (h1 & h2 & m1 & m2 & -> & Hd & _). split; [done|]. unfold sign_of.
    repeat (apply Forall_cons_2; [unfold is_ascii_whitespace; try destruct (_ <? 0); lia|]). constructor. }
  rewrite split_two by done. rewrite Hparse. cbn [mbind option_bind]. by rewrite parse_offset_spec.
Qed.

(** ** Lemmas: the buffer *)
Record holds (b : TimeBuf) (text : bytes) : Prop := {
  h_end : end_idx b = zlen text;
  h_buf : ∃ rest, buf b = text ++ rest;
  h_len : zlen (buf b) = 26;
}.
Lemma time_size_MIN : time_size MIN = Ok 26.
Proof. vm_compute. reflexivity. Qed.
Lemma time_buf_write_ok b text part : holds b text → zlen text + zlen part ≤ 26 →
  ∃ b', time_buf_write b part = Ok b' ∧ holds b' (text ++ part).
Proof.
  intros [He [rest Hb] Hl] Hp. unfold time_buf_write. pose proof (zlen_nonneg text). pose proof (zlen_nonneg part).
  rewrite He, checked_add_in by lia. cbn [ok_or mbind outcome_bind]. rewrite time_size_MIN. cbn [mbind outcome_bind].
  destruct (Z.ltb_spec 26 (zlen text + zlen part)); [lia|]. cbn [negb ensure mbind outcome_bind].
  rewrite Hb in Hl. rewrite zlen_app in Hl. assert (zlen rest = 26 - zlen text) as Hr by lia.
  rewrite Hb, <- (app_nil_l (text ++ rest)), (get_range_app [] text rest) by done. cbn [expect mbind outcome_bind app].
  rewrite get_from_in by (rewrite zlen_app; lia). cbn [expect mbind outcome_bind]. eexists. split; [done|]. split; cbn [end_idx buf].
  - by rewrite zlen_app.
  - eexists. by rewrite <- app_assoc.
  - rewrite !zlen_app. unfold zlen in *. rewrite length_drop, length_app. lia.
Qed.
Lemma time_buf_write_if (c : bool) b text : holds b text → zlen text + zlen (if c then [48] else [] : bytes) ≤ 26 →
  ∃ b', (if c then time_buf_write b [48] else Ok b) = Ok b' ∧ holds b' (text ++ if c then [48] else []).
Proof. intros Hb Hl. destruct c; [by apply time_buf_write_ok|]. exists b. rewrite app_nil_r. done. Qed.
Local Ltac next_part L := let b := fresh "b" in let H := fresh "Hb" in
  destruct L as (b & -> & H); [rewrite ?zlen_app, ?zlen_nil; lia|]; cbn [mbind outcome_bind].
Lemma time_to_str t b : seconds_ok (time_seconds t) → zlen (buf b) = 26 →
  to_str t b = if decide (printable (time_offset t)) then Ok (time_text t) else Panic.
Proof.
  intros Hs Hb. unfold to_str, time_write_to_buf. destruct (decide _) as [Hp|Hp]; pose proof Hp as Hh; rewrite hours_range in Hh;
    [rewrite Hh|apply not_false_is_true in Hh; by rewrite Hh].
  destruct (time_size_spec t Hs Hp) as [_ Hlen].
  assert (holds {| end_idx := 0; buf := buf b |} []) as H0 by (split; [done|by exists (buf b)|done]).
  assert (∃ b', time_write_to_buf t {| end_idx := 0; buf := buf b |} = Ok b' ∧ holds b' (time_text t)) as (b' & Hw & [He [rest Hr] Hl]).
  { unfold time_write_to_buf. rewrite Hh. rewrite minutes_eq. change SECONDS_PER_HOUR with 3600.
    unfold time_text, offset_text, two_digits in *. set (h := Z.abs _ / 3600) in *. set (m := Z.abs _ mod 3600 / 60) in *.
    replace (if time_offset t <? 0 then [45] else [43]) with [sign_of (time_offset t)] by (unfold sign_of; by destruct (_ <? 0)).
    rewrite !zlen_app in Hlen. pose proof (zlen_nonneg (itoa h)). pose proof (zlen_nonneg (itoa m)). 
    pose proof (zlen_nonneg (if h <? 10 then [48] else [])). pose proof (zlen_nonneg (if m <? 10 then [48] else [])).
    assert (zlen [32] = 1) by done. assert (zlen [sign_of (time_offset t)] = 1) by done.
    next_part (time_buf_write_ok _ _ (itoa (time_seconds t)) H0). next_part (time_buf_write_ok _ _ [32] Hb0).
    next_part (time_buf_write_ok _ _ [sign_of (time_offset t)] Hb1). next_part (time_buf_write_if (h <? 10) _ _ Hb2).
    next_part (time_buf_write_ok _ _ (itoa h) Hb3). next_part (time_buf_write_if (m <? 10) _ _ Hb4).
    destruct (time_buf_write_ok _ _ (itoa m) Hb5) as (b' & -> & H'); [rewrite ?zlen_app, ?zlen_nil; lia|].
    exists b'. split; [done|]. rewrite app_nil_l, <- !app_assoc in H'. by rewrite <- !app_assoc. }
  unfold time_write_to_buf in Hw. rewrite Hh in Hw. rewrite Hw. unfold as_str. rewrite Hr, He. 
  rewrite <- (app_nil_l (time_text t ++ rest)), (get_range_app [] (time_text t) rest) by done. done.
Qed.

(** ** Lemmas: the strict parser *)
Lemma parse_i64_range l x : parse_i64 l = Some x → seconds_ok x.
Proof.
  unfold parse_i64, seconds_ok. destruct l as [|b l]; [done|]. cbv zeta. destruct (if b =? 43 then _ else _) as [y|]; [|done]. cbn [mbind option_bind].
  destruct (_ && _) eqn:E; [|done]. intros [= <-]. lia.
Qed.
Lemma parse_u8_two a b : 0 ≤ a < 10 → 0 ≤ b < 10 → parse_u8 [48 + a; 48 + b] = Some (10 * a + b).
Proof.
  intros Ha Hb. unfold parse_u8. destruct (Z.eqb_spec (48 + a) 43); [lia|]. cbn [decimal].
  destruct ((48 <=? 48 + a) && _) eqn:E; [|lia]. destruct ((48 <=? 48 + b) && _) eqn:E'; [|lia]. cbn [mbind option_bind].
  destruct (Z.ltb_spec (((0 * 10 + (48 + a - 48)) * 10) + (48 + b - 48)) 256); [f_equal; lia|lia].
Qed.
(** Offsets of quarters of an hour, up to 14:45. *)
Definition strict_offset (o : Z) : Prop := ∃ q, Z.abs o = q * 900 ∧ 0 ≤ q ≤ 59.
Lemma decimal_nonneg l : ∀ acc x, 0 ≤ acc → decimal l acc = Some x → 0 ≤ x.
Proof.
  induction l as [|b l IH]; intros acc x Ha; cbn [decimal]; [by intros [= <-]|]. destruct (_ && _) eqn:E; [|done]. apply IH. lia.
Qed.
Lemma parse_u8_nonneg l x : parse_u8 l = Some x → 0 ≤ x.
Proof.
  unfold parse_u8. destruct l as [|b l]; [done|]. set (r := if b =? 43 then _ else _). destruct r as [y|] eqn:E; [|done]. cbn [mbind option_bind].
  destruct (_ <? 256); [|done]. intros [= <-]. unfold r in E. destruct (b =? 43); [destruct l; [done|]|]; by eapply decimal_nonneg in E.
Qed.
Lemma parse_sign_cases l s : parse_sign l = Some s → s = 1 ∨ s = -1.
Proof.
  unfold parse_sign. destruct (get_range l 0 1) as [[|b [|? ?]]|]; cbn [mbind option_bind]; try done.
  - destruct b as [|p|p]; try done. repeat (destruct p as [p|p|]; try done); intros [= <-]; by (left + right).
  - destruct b as [|p|p]; try done. repeat (destruct p as [p|p|]; try done).
Qed.
Lemma parse_raw_range input t : parse_raw input = Some t → seconds_ok (time_seconds t) ∧ strict_offset (time_offset t).
Proof.
  unfold parse_raw. destruct (split_whitespace input []) as [|s [|o [|? ?]]]; try done.
  destruct (parse_i64 s) as [secs|] eqn:Es; [|done]. cbn [mbind option_bind]. destruct (_ && _); [done|].
  destruct (parse_sign o) as [sg|] eqn:Esg; [|done]. cbn [mbind option_bind]. destruct (get_range o 1 3) as [h|]; [|done]. cbn [mbind option_bind].
  destruct (parse_u8 h) as [hours|] eqn:Eh; [|done]. cbn [mbind option_bind]. destruct (get_range o 3 5) as [m|]; [|done]. cbn [mbind option_bind].
  destruct (parse_u8 m) as [minutes|] eqn:Em; [|done]. cbn [mbind option_bind]. destruct (if zlen o =? 7 then _ else _) as [os|]; [|done]. cbn [mbind option_bind].
  destruct (_ || _) eqn:Ec; [done|]. intros [= <-]. cbn [time_seconds time_offset]. split; [by eapply parse_i64_range|].
  apply parse_u8_nonneg in Eh, Em. exists (hours * 4 + minutes / 15).
  assert (minutes = 0 ∨ minutes = 15 ∨ minutes = 30 ∨ minutes = 45) as Hm by lia. assert (hours ≤ 14) by lia.
  destruct (parse_sign_cases _ _ Esg) as [->| ->]; destruct Hm as [->|[->|[->| ->]]];
    match goal with |- context [?m / 15] => let r := eval compute in (m / 15) in change (m / 15) with r end; lia.
Qed.
Lemma parse_raw_text t : seconds_ok (time_seconds t) → strict_offset (time_offset t) → parse_raw (time_text t) = Some t.
Proof.
  intros Hs (q & Hq & Hq'). assert (printable (time_offset t)) as Ho by (unfold printable; lia). unfold parse_raw, time_text.
  destruct (itoa_spec _ Hs) as (_ & Hw & Hne & Hparse & _).
  destruct (offset_digits _ Ho) as (h1 & h2 & m1 & m2 & Ht & (? & ? & ? & ?) & Hm60 & Heq).
  assert (Forall (λ b, is_ascii_whitespace b = false) (offset_text (time_offset t))) as How.
  { rewrite Ht. unfold sign_of. repeat (apply Forall_cons_2; [unfold is_ascii_whitespace; try destruct (_ <? 0); lia|]). constructor. }
  rewrite split_two by (done || by rewrite Ht). rewrite Hparse. cbn [mbind option_bind]. rewrite Ht. change (zlen _) with 5. cbn [Z.eqb Pos.eqb negb andb].
  assert (parse_sign [sign_of (time_offset t); 48 + h1; 48 + h2; 48 + m1; 48 + m2] = Some (if time_offset t <? 0 then -1 else 1)) as ->.
  { unfold sign_of. by destruct (_ <? 0). }
  cbn [mbind option_bind]. change (get_range _ 1 3) with (Some [48 + h1; 48 + h2]). cbn [mbind option_bind]. rewrite parse_u8_two by done. cbn [mbind option_bind].
  change (get_range _ 3 5) with (Some [48 + m1; 48 + m2]). cbn [mbind option_bind]. rewrite parse_u8_two by done. cbn [mbind option_bind].
  assert (0 ≤ 10 * m1 + m2) as Hm0 by lia. set (h := 10 * h1 + h2) in *. set (m := 10 * m1 + m2) in *. clearbody h m.
  rewrite Hq in Heq. assert (h * 60 + m = q * 15) as Hhm by (Z.div_mod_to_equations; lia).
  assert (m = 0 ∨ m = 15 ∨ m = 30 ∨ m = 45) as Hm by lia. destruct (_ || _) eqn:Ec; [lia|]. f_equal. destruct t as [secs o]; cbn [time_seconds time_offset] in *.
  f_equal. destruct (Z.ltb_spec o 0); lia.
Qed.

(** ** Properties *)

(** C27: a time whose offset is below 100 hours is written with exactly [size()] bytes, which fit the buffer of [to_str]; the parser
    of headers reads the same seconds and the offset in whole minutes. With any other offset [write_to] fails, and [to_str]
    panics. *)
Theorem raw_time_bounds (t : Time) (out : bytes) : seconds_ok (time_seconds t) →
  if decide (printable (time_offset t)) then
    ∃ text, time_write_to t out = Ok (out ++ text) ∧ time_size t = Ok (zlen text) ∧ zlen text ≤ 26 ∧
      (b ← time_buf_default; to_str t b) = Ok text ∧
      parse_header text = Some {| time_seconds := time_seconds t; time_offset := Z.quot (time_offset t) 60 * 60 |}
  else time_write_to t out = Err OffsetTooLarge ∧ (b ← time_buf_default; to_str t b) = Panic.
Proof.
  intros Hs. rewrite time_write_spec. unfold time_buf_default. rewrite time_size_MIN. cbn [mbind outcome_bind]. rewrite time_to_str by done.
  destruct (decide _) as [Hp|Hp]; [|done]. destruct (time_size_spec t Hs Hp) as [Hsz Hle]. exists (time_text t).
  repeat (split; [done|]). by apply parse_header_text.
Qed.
Lemma raw_time_bounds_witness :
  seconds_ok (time_seconds MIN) ∧ ∃ text, time_write_to MIN [] = Ok text ∧ zlen text ≤ 26.
Proof.
  assert (seconds_ok (time_seconds MIN)) as Hs by (unfold seconds_ok; cbn; lia). split; [exact Hs|].
  pose proof (raw_time_bounds MIN [] Hs) as H. destruct (decide (printable (time_offset MIN))) as [_|Hn]; [|by destruct Hn].
  destruct H as (text & Hw & _ & Hl & _). exists text. exact (conj Hw Hl).
Defined.
(** The lenient parser reads an offset that cannot be written: printing the time panics. *)
Example header_offset_panics :
  ∃ t, parse_header [49; 32; 43; 57; 57; 57; 57] = Some t ∧ (b ← time_buf_default; to_str t b) = Panic.
Proof. eexists. split; [reflexivity|]. vm_compute. reflexivity. Qed.
(** What the strict parser accepts is written as a text that both parsers read as the same time. *)
Theorem strict_time_reprint (input : bytes) (t : Time) : parse_raw input = Some t →
  ∃ text, time_write_to t [] = Ok text ∧ parse_raw text = Some t ∧ parse_header text = Some t.
Proof.
  intros H. destruct (parse_raw_range _ _ H) as [Hs Ho]. pose proof Ho as (q & Hq & Hq').
  assert (printable (time_offset t)) as Hp by (unfold printable; lia). exists (time_text t). rewrite time_write_spec, decide_True by done.
  split; [done|]. split; [by apply parse_raw_text|]. rewrite parse_header_text by done. destruct t as [secs o]. cbn [time_seconds time_offset] in *. do 2 f_equal.
  destruct (Z.le_gt_cases 0 o) as [Hge|Hlt].
  - rewrite Z.abs_eq in Hq by lia. rewrite Z.quot_div_nonneg by lia. Z.div_mod_to_equations. lia.
  - rewrite Z.abs_neq in Hq by lia. pose proof (Z.quot_opp_l (- o) 60 ltac:(lia)) as Hx. rewrite Z.opp_involutive, (Z.quot_div_nonneg (- o)) in Hx by lia.
    rewrite Hx. Z.div_mod_to_equations. lia.
Qed.
(** A sign is accepted where the first digit of the hours should be: [1 ++1+0] is one hour, and by the lenient parser no offset. *)
Example strict_accepts_signs :
  parse_raw [49; 32; 43; 43; 49; 43; 48] = Some {| time_seconds := 1; time_offset := 3600 |} ∧
  parse_header [49; 32; 43; 43; 49; 43; 48] = Some {| time_seconds := 1; time_offset := 0 |}.
Proof. split; vm_compute; reflexivity. Qed.

(** The text of an owned signature whose name and email are tokens and whose offset is below 100 hours. *)
Lemma owned_signature_text s out : token_ok (sig_name s) → token_ok (sig_email s) → seconds_ok (time_seconds (sig_time s)) → printable (time_offset (sig_time s)) →
  owned_write_to s out = Ok (out ++ raw_signature {| name := sig_name s; email := sig_email s; time := time_text (sig_time s) |}).
Proof.
  intros Hn He Hs Hp. unfold owned_write_to, to_ref, time_buf_default. rewrite time_size_MIN. cbn [mbind outcome_bind]. rewrite time_to_str by done.
  rewrite decide_True by done. cbn [mbind outcome_bind]. unfold signature_write_to. cbn [name email time].
  apply validated_token_ok in Hn, He. rewrite Hn, He. cbn [mbind outcome_bind].
  pose proof (time_ok_token _ (time_text_bytes _ Hs Hp)) as Ht. apply validated_token_ok in Ht. rewrite Ht. cbn [mbind outcome_bind].
  unfold raw_signature. cbn [name email time]. do 2 f_equal. 
Qed.
