(* ===== verification/RefLog.v ===== *)
(** * [gix-ref/src/store/file/log]: logs of references

    A line of a log holds two ids, a signature, a tab and a message. Lines are appended to a file; iterators
    read it from the beginning, or from the end in blocks that fit a buffer, which is where the lines are
    pieced together across the borders of blocks. *)

From S2P Require Import Prelude Hash Actor RawTime.
From S2P Require PackedRefs.

Inductive line_error := MalformedReflogLine | InvalidReflogSignature.
Inductive log_error :=
| CouldNotDecodeLine (input : bytes) (cause : line_error)
| InvalidReflogEntry (line : Z) (from_end : bool) (input : bytes) (cause : line_error)
| ZeroSizedBuffer
| BufferTooSmall (contents : bytes)
| UnexpectedEof
| MessageHasNewlines
| InvalidSignature (e : actor_error).

(** ** [parse.rs] *)
Definition hex_hash_any (i : bytes) : outcome () (bytes * bytes) :=
  let max := len_in_hex longest in
  let len := count_while PackedRefs.is_hex_digit (take (Z.to_nat max) i) in
  _ ← ensure (existsb (λ k, len_in_hex k =? len) [Sha1; Sha256]) tt;
  expect (split_at_checked i len).

(** ** [log/mod.rs], [log.rs], [log/line.rs] *)
Record LineRef := { ref_previous : bytes; ref_new : bytes; ref_signature : SignatureRef; ref_message : bytes }.
Record Line := { previous_oid : ObjectId; new_oid : ObjectId; signature : Signature; message : bytes }.

Section Log.
Context {FH : FasterHex}.

Definition check_newlines (input : bytes) : outcome log_error bytes :=
  match position is_nl input with Some _ => Err MessageHasNewlines | None => Ok input end.
Definition line_write_to (l : Line) (out : bytes) : outcome log_error bytes :=
  let out := out ++ to_hex (previous_oid l) ++ [32] ++ to_hex (new_oid l) ++ [32] in
  out ← map_err InvalidSignature (owned_write_to (signature l) out);
  m ← check_newlines (message l);
  Ok (out ++ [9] ++ m ++ [10]).
Definition first_line (input : bytes) : outcome log_error bytes :=
  let line_end := default (zlen input) (position is_nl input) in
  expect (get_range input 0 line_end).
Definition line_decode (input : bytes) : outcome line_error LineRef :=
  line ← match first_line input with Ok l => Ok l | _ => Panic end;
  '(head, msg) ←
    match position (λ b, b =? 9) line with
    | Some tab => h ← expect (get_range line 0 tab); m ← expect (get_from line (tab + 1)); Ok (h, m)
    | None => Ok (line, [])
    end;
  '(old, head) ← map_err (λ _, MalformedReflogLine) (hex_hash_any head);
  head ← ok_or MalformedReflogLine (strip_prefix head [32]);
  '(new, head) ← map_err (λ _, MalformedReflogLine) (hex_hash_any head);
  head ← ok_or MalformedReflogLine (strip_prefix head [32]);
  '(s, head) ← map_err (λ _, InvalidReflogSignature) (decode head);
  _ ← ensure (bool_decide (head = [])) MalformedReflogLine;
  Ok {| ref_previous := old; ref_new := new; ref_signature := s; ref_message := msg |}.
Definition line_from_bytes (input : bytes) : outcome log_error LineRef :=
  match line_decode input with
  | Ok l => Ok l
  | Err e => line ← first_line input; Err (CouldNotDecodeLine line e)
  | Panic => Panic
  end.
(** [LineRef::to_owned()]; [expect] turns an id that cannot be parsed into a panic. *)
Definition oid_of_hex (hex : bytes) : outcome log_error ObjectId :=
  match from_hex hex with Ok id => Ok id | _ => Panic end.
Definition line_of_ref (l : LineRef) : outcome log_error Line :=
  p ← oid_of_hex (ref_previous l);
  n ← oid_of_hex (ref_new l);
  Ok {| previous_oid := p; new_oid := n; signature := signature_from (ref_signature l); message := ref_message l |}.

(** ** [log/iter.rs] *)
Definition invalid_reflog_entry {A} (line : Z) (from_end : bool) (r : outcome log_error A) : outcome log_error A :=
  match r with
  | Err (CouldNotDecodeLine input cause) => Err (InvalidReflogEntry line from_end input cause)
  | r => r
  end.
(** [bstr::ByteSlice::lines()]: lines end in LF or CRLF, which are left out. *)
Fixpoint split_lines (l current : bytes) : list bytes :=
  match l with
  | [] => match current with [] => [] | _ => [current] end
  | b :: l => if b =? 10 then default current (strip_suffix current [13]) :: split_lines l [] else split_lines l (current ++ [b])
  end.
Definition forward (lines : bytes) : list (outcome log_error LineRef) :=
  imap (λ ln line, invalid_reflog_entry (Z.of_nat ln + 1) false (line_from_bytes line)) (split_lines lines []).

(** The file is its contents and the position it was read from. *)
Record Reverse := { buf : bytes; count : Z; read_and_pos : option (bytes * Z); last_nl_pos : option Z }.
Definition reverse (log : bytes) (buf : bytes) : outcome log_error Reverse :=
  match buf with
  | [] => Err ZeroSizedBuffer
  | _ => Ok {| buf := buf; count := 0; read_and_pos := Some (log, zlen log); last_nl_pos := None |}
  end.
(** [seek] and [read_exact] into the beginning of the buffer. *)
Definition read_block (log buf : bytes) (npos n : Z) : outcome log_error bytes :=
  rest ← expect (get_from buf n);
  block ← ok_or UnexpectedEof (get_range log npos (npos + n));
  Ok (block ++ rest).
(** [copy_within(0..end, n)] *)
Definition copy_within (buf : bytes) (end_ n : Z) : outcome log_error bytes :=
  moved ← expect (get_range buf 0 end_);
  before ← expect (get_range buf 0 n);
  after ← expect (get_from buf (n + end_));
  Ok (before ++ moved ++ after).
Definition entry_of (line : bytes) (number : Z) : outcome log_error Line :=
  invalid_reflog_entry number true (line_from_bytes line) ≫= line_of_ref.
Fixpoint reverse_next (fuel : nat) (st : Reverse) : outcome log_error (Reverse * option (outcome log_error Line)) :=
  match fuel with
  | O => Panic
  | S fuel =>
      let depleted := {| buf := buf st; count := count st; read_and_pos := None; last_nl_pos := None |} in
      match last_nl_pos st, read_and_pos st with
      | None, Some (log, pos) =>
          let npos := Z.max 0 (pos - zlen (buf st)) in
          n ← op_sub 64 pos npos;
          if n =? 0 then Ok (depleted, None)
          else
            match read_block log (buf st) npos n with
            | Err e => Ok (depleted, Some (Err e))
            | Panic => Panic
            | Ok buf =>
                last_byte ← expect (get buf (n - 1));
                reverse_next fuel {| buf := buf; count := count st; read_and_pos := Some (log, npos);
                                     last_nl_pos := Some (if negb (last_byte =? 10) then n else n - 1) |}
            end
      | Some end_, Some (log, last_read_pos) =>
          text ← expect (get_range (buf st) 0 end_);
          match rposition is_nl text with
          | Some start =>
              line ← expect (get_range (buf st) (start + 1) end_);
              let r := entry_of line (count st + 1) in
              count ← op_add 64 (count st) 1;
              Ok ({| buf := buf st; count := count; read_and_pos := Some (log, last_read_pos); last_nl_pos := Some start |}, Some r)
          | None =>
              if last_read_pos =? 0 then Ok (depleted, Some (entry_of text (count st + 1)))
              else
                room ← op_sub 64 (zlen (buf st)) end_;
                let npos := Z.max 0 (last_read_pos - room) in
                if npos =? last_read_pos then Ok (depleted, Some (Err (BufferTooSmall (buf st))))
                else
                  n ← op_sub 64 last_read_pos npos;
                  moved ← copy_within (buf st) end_ n;
                  match read_block log moved npos n with
                  | Err e => Ok ({| buf := moved; count := count st; read_and_pos := None; last_nl_pos := None |}, Some (Err e))
                  | Panic => Panic
                  | Ok buf =>
                      reverse_next fuel {| buf := buf; count := count st; read_and_pos := Some (log, npos); last_nl_pos := Some (n + end_) |}
                  end
          end
      | None, None => Ok (depleted, None)
      | Some _, None => Panic
      end
  end.
(** Every recursion reads at least one byte that comes before the others. *)
Definition reverse_fuel (st : Reverse) : nat :=
  match read_and_pos st with Some (_, pos) => S (S (Z.to_nat pos)) | None => 1 end.
Fixpoint reverse_all (fuel : nat) (st : Reverse) : outcome log_error (list (outcome log_error Line)) :=
  match fuel with
  | O => Panic
  | S fuel =>
      '(st, r) ← reverse_next (reverse_fuel st) st;
      match r with
      | None => Ok []
      | Some r => rest ← reverse_all fuel st; Ok (r :: rest)
      end
  end.
(** All entries, for a buffer of [size] bytes; there are at most as many as bytes, and one. *)
Definition reverse_log (log : bytes) (size : Z) : outcome log_error (list (outcome log_error Line)) :=
  st ← reverse log (replicate (Z.to_nat size) 0); reverse_all (S (S (length log))) st.

(** ** [loose/reflog.rs]

    [BStr::trim] removes white space at both ends. *)
Class BstrTrim := {
  bstr_trim : bytes → bytes;
  bstr_trim_law l : ∃ a b, l = a ++ bstr_trim l ++ b;
}.
Context {BT : BstrTrim}.
Definition signature_trim (s : SignatureRef) : SignatureRef :=
  {| name := bstr_trim (name s); email := bstr_trim (email s); time := trim (time s) |}.
(** What is appended to a log when there is a committer. *)
Definition append_entry (file : bytes) (previous : option ObjectId) (new : ObjectId) (committer : SignatureRef) (msg : bytes)
    : outcome actor_error bytes :=
  let previous := default (null (kind new)) previous in
  let file := file ++ to_hex previous ++ [32] ++ to_hex new ++ [32] in
  file ← signature_write_to (signature_trim committer) file;
  Ok (if negb (bool_decide (msg = [])) then file ++ [9] ++ msg ++ [10] else file ++ [10]).
(** The loop of [reflog_expire]: the lines that are kept, and the number of others. *)
Fixpoint expire_loop (lines : list (outcome log_error LineRef)) (should_keep : LineRef → bool) (retained : bytes) (removed : Z)
    : outcome log_error (bytes * Z) :=
  match lines with
  | [] => Ok (retained, removed)
  | line :: lines =>
      line ← line;
      if should_keep line
      then l ← line_of_ref line; retained ← line_write_to l retained; expire_loop lines should_keep retained removed
      else removed ← op_add 64 removed 1; expire_loop lines should_keep retained removed
  end.
(** The contents of the log afterwards, and the number of lines that were removed. *)
Definition reflog_expire (log : bytes) (should_keep : LineRef → bool) : outcome log_error (bytes * Z) :=
  '(retained, removed) ← expire_loop (forward log) should_keep [] 0;
  Ok (if removed =? 0 then (log, 0) else (retained, removed)).
End Log.

(** ** Lemmas: reading from the end *)
Definition no_nl (l : bytes) : Prop := Forall (λ b, is_nl b = false) l.
(** The lines of a text, of which there is always one. *)
Fixpoint pieces (l current : bytes) : list bytes :=
  match l with
  | [] => [current]
  | b :: l => if b =? 10 then current :: pieces l [] else pieces l (current ++ [b])
  end.
Lemma pieces_no_nl b : no_nl b → ∀ cur, pieces b cur = [cur ++ b].
Proof.
  induction 1 as [|x b Hx _ IH]; intros cur; cbn [pieces]; [by rewrite app_nil_r|]. unfold is_nl in Hx. rewrite Hx, IH. by rewrite <- app_assoc.
Qed.
Lemma pieces_snoc a b : no_nl b → ∀ cur, pieces (a ++ 10 :: b) cur = pieces a cur ++ [b].
Proof.
  intros Hb. induction a as [|x a IH]; intros cur; cbn [app pieces Z.eqb Pos.eqb]; [by rewrite pieces_no_nl|].
  destruct (x =? 10); [by rewrite IH|apply IH].
Qed.
Lemma last_nl l : no_nl l ∨ ∃ a b, l = a ++ 10 :: b ∧ no_nl b.
Proof.
  induction l as [|x l [IH|(a & b & -> & Hb)]]; [by left; constructor| |right; by exists (x :: a), b].
  destruct (Z.eqb_spec x 10) as [->|Hx]; [right; by exists [], l|left; constructor; [unfold is_nl; lia|done]].
Qed.
Lemma rposition_nl_None l : no_nl l → rposition is_nl l = None.
Proof. apply rposition_None. Qed.

Section Reading.
Context {FH : FasterHex}.

(** The buffer begins with [text], which is in front of what was read already and behind [pre]. *)
Record window (log : bytes) (st : Reverse) (pre text : bytes) : Prop := {
  w_log : ∃ post, log = pre ++ text ++ post;
  w_pos : read_and_pos st = Some (log, zlen pre);
  w_last : last_nl_pos st = Some (zlen text);
  w_buf : ∃ rest, buf st = text ++ rest;
}.
Definition is_depleted (st : Reverse) : Prop := read_and_pos st = None ∧ last_nl_pos st = None.
(** What [next] does with a window: the last line, the only line, or a line that does not fit the buffer. *)
Definition next_result (log : bytes) (st : Reverse) (text : bytes) (st' : Reverse) (r : outcome log_error Line) : Prop :=
  (∃ a b pre' text', text = a ++ 10 :: b ∧ no_nl b ∧ a = pre' ++ text' ∧ window log st' pre' text' ∧ zlen (buf st') = zlen (buf st) ∧
     count st' = count st + 1 ∧ r = entry_of b (count st + 1)) ∨
  (no_nl text ∧ is_depleted st' ∧ r = entry_of text (count st + 1)) ∨
  (∃ a b contents, text = a ++ b ∧ no_nl b ∧ a ≠ [] ∧ zlen (buf st) ≤ zlen b ∧ is_depleted st' ∧ r = Err (BufferTooSmall contents)).

Lemma copy_within_ok (text rest : bytes) n : 0 ≤ n → zlen text + n ≤ zlen (text ++ rest) →
  ∃ before after, copy_within (text ++ rest) (zlen text) n = Ok (before ++ text ++ after) ∧ zlen before = n ∧ zlen (before ++ text ++ after) = zlen (text ++ rest).
Proof.
  intros Hn Hle. pose proof (zlen_nonneg text). unfold copy_within. rewrite get_range_head. cbn [expect mbind outcome_bind]. rewrite get_range_in, get_from_in by lia. cbn [expect mbind outcome_bind].
  eexists _, _. split; [done|]. rewrite Z.sub_0_r, drop_0, !zlen_app. unfold zlen in *. rewrite !length_take, !length_drop, !length_app in *. lia.
Qed.
Lemma read_block_ok (p block q before rest : bytes) : zlen before = zlen block →
  read_block (p ++ block ++ q) (before ++ rest) (zlen p) (zlen block) = Ok (block ++ rest).
Proof. intros Hb. unfold read_block. rewrite <- Hb, get_from_app, Hb. cbn [expect mbind outcome_bind]. by rewrite (get_range_app p block q). Qed.

Lemma reverse_next_window log fuel : ∀ st pre text, window log st pre text → zlen log < 2 ^ 64 → zlen (buf st) < 2 ^ 64 → 0 ≤ count st < 2 ^ 64 - 1 →
  (Z.to_nat (zlen pre) < fuel)%nat → ∃ st' r, reverse_next fuel st = Ok (st', Some r) ∧ next_result log st (pre ++ text) st' r.
Proof.
  induction fuel as [|fuel IH]; intros st pre text [[post Hlog] Hpos Hlast [rest Hbuf]] Hlen Hbl Hc Hf; [lia|].
  pose proof (zlen_nonneg pre). pose proof (zlen_nonneg text). pose proof (zlen_nonneg post). pose proof (zlen_nonneg rest).
  assert (zlen log = zlen pre + (zlen text + zlen post)) as Hzl by (by rewrite Hlog, !zlen_app).
  assert (zlen (buf st) = zlen text + zlen rest) as Hzb by (by rewrite Hbuf, zlen_app).
  cbn [reverse_next]. rewrite Hlast, Hpos, Hbuf. rewrite get_range_head. cbn [expect mbind outcome_bind].
  destruct (last_nl text) as [Hno|(u & v & -> & Hv)].
  - rewrite rposition_nl_None by done. destruct (Z.eqb_spec (zlen pre) 0) as [Hz|Hz].
    + assert (pre = []) as -> by (destruct pre; [done|rewrite zlen_cons in Hz; pose proof (zlen_nonneg pre); lia]).
      eexists _, _. split; [done|]. right. left. split; [done|]. by split.
    + rewrite zlen_app. rewrite op_sub_ok by lia. cbn [mbind outcome_bind].
      destruct (Z.eqb_spec (Z.max 0 (zlen pre - (zlen text + zlen rest - zlen text))) (zlen pre)) as [He|He].
      * eexists _, _. split; [done|]. right. right. exists pre, text, (text ++ rest). split; [done|]. split; [done|]. split; [by intros ->|].
        rewrite Hbuf, zlen_app. split; [lia|]. done.
      * set (npos := Z.max 0 _) in *. assert (0 ≤ npos < zlen pre ∧ zlen pre - npos ≤ zlen rest) as [Hnp Hn] by lia.
        rewrite op_sub_ok by lia. cbn [mbind outcome_bind].
        assert (∃ p block, pre = p ++ block ∧ zlen p = npos) as (p & block & -> & Hp).
        { exists (take (Z.to_nat npos) pre), (drop (Z.to_nat npos) pre). rewrite take_drop. split; [done|]. unfold zlen in *. rewrite length_take. lia. }
        rewrite zlen_app in Hn |- *. rewrite <- Hp. replace (zlen p + zlen block - zlen p) with (zlen block) by lia. pose proof (zlen_nonneg block). pose proof (zlen_nonneg p).
        destruct (copy_within_ok text rest (zlen block)) as (before & after & -> & Hb & Hl); [lia|rewrite zlen_app; lia|]. cbn [mbind outcome_bind].
        rewrite Hlog, <- (app_assoc p block). rewrite read_block_ok by done. rewrite (app_assoc p block), <- Hlog.
        edestruct (IH {| buf := block ++ text ++ after; count := count st; read_and_pos := Some (log, zlen p); last_nl_pos := Some (zlen block + zlen text) |} p (block ++ text))
          as (st' & r & -> & Hr); [|done| |done| |].
        -- split; cbn [read_and_pos last_nl_pos buf]; [exists post; by rewrite Hlog, <- !app_assoc|done|by rewrite zlen_app|exists after; by rewrite <- app_assoc].
        -- cbn [buf]. rewrite zlen_app, <- Hb, <- zlen_app, Hl, zlen_app. lia.
        -- rewrite zlen_app in Hf, Hnp. lia.
        -- exists st', r. split; [done|]. rewrite <- app_assoc. unfold next_result in *. cbn [buf count] in Hr.
           assert (zlen (block ++ text ++ after) = zlen (buf st)) as Hz'; [|by rewrite Hz' in Hr].
           by rewrite Hbuf, zlen_app, <- Hb, <- zlen_app, Hl.
  - rewrite rposition_app by done. rewrite <- app_assoc. cbn [app]. 
    replace (u ++ 10 :: v ++ rest) with ((u ++ [10]) ++ v ++ rest) by by rewrite <- app_assoc.
    rewrite (get_range_app (u ++ [10]) v rest) by (rewrite !zlen_app, ?zlen_cons, ?zlen_nil; lia). cbn [expect mbind outcome_bind].
    rewrite op_add_ok by lia. cbn [mbind outcome_bind]. eexists _, _. split; [done|]. left.
    exists (pre ++ u), v, pre, u. rewrite <- app_assoc. cbn [app]. split; [done|]. split; [done|]. split; [done|]. split; [|cbn [buf]; rewrite Hbuf, <- !app_assoc; done].
    split; cbn [read_and_pos last_nl_pos buf]; [|done|done|eexists; rewrite <- app_assoc; done].
    exists (10 :: v ++ post). rewrite Hlog, <- !app_assoc. done.
Qed.
End Reading.

(** ** Lemmas: lines *)
Section Lines.
Context {FH : FasterHex}.

Lemma count_while_take p l : Forall (λ b, p b = true) (take (Z.to_nat (count_while p l)) l).
Proof.
  induction l as [|b l IH]; cbn [count_while]; [constructor|]. destruct (p b) eqn:Hb; [|constructor].
  pose proof (count_while_bounds p l). rewrite Z2Nat.inj_add by lia. cbn [Nat.add take]. by constructor.
Qed.
Lemma count_while_app p a x b : Forall (λ b, p b = true) a → p x = false → count_while p (a ++ x :: b) = zlen a.
Proof.
  induction 1 as [|y a Hy _ IH]; intros Hx; cbn [app count_while]; [by rewrite Hx|]. rewrite Hy, IH, zlen_cons by done. lia.
Qed.
Definition hex_any (h : bytes) : Prop := (zlen h = 40 ∨ zlen h = 64) ∧ Forall (λ b, PackedRefs.is_hex_digit b = true) h.
Lemma hex_hash_any_sound i h rest : hex_hash_any i = Ok (h, rest) → hex_any h ∧ i = h ++ rest.
Proof.
  unfold hex_hash_any. change (len_in_hex longest) with 64. set (len := count_while _ _). destruct (existsb _ _) eqn:He; [|done]. cbn [ensure mbind outcome_bind].
  destruct (split_at_checked i len) as [[x y]|] eqn:Hs; [|done]. intros [= <- <-]. pose proof Hs as Hs'. apply split_at_Some in Hs as [-> Hl].
  split; [|done]. split; [cbn [existsb] in He; change (len_in_hex Sha1) with 40 in He; change (len_in_hex Sha256) with 64 in He; lia|].
  pose proof (count_while_take PackedRefs.is_hex_digit (take (Z.to_nat 64) (x ++ y))) as Ht. fold len in Ht.
  assert (0 ≤ len ≤ 64) as Hb.
  { pose proof (count_while_bounds PackedRefs.is_hex_digit (take (Z.to_nat 64) (x ++ y))) as Hb. fold len in Hb. unfold zlen in Hb. rewrite length_take in Hb. lia. }
  rewrite take_take, Nat.min_l in Ht by lia. rewrite <- Hl in Ht. unfold zlen in Ht. by rewrite Nat2Z.id, take_app_length in Ht.
Qed.
Lemma hex_hash_any_complete h x rest : hex_any h → PackedRefs.is_hex_digit x = false → hex_hash_any (h ++ x :: rest) = Ok (h, x :: rest).
Proof.
  intros [Hl Hh] Hx. unfold hex_hash_any. change (len_in_hex longest) with 64.
  assert (count_while PackedRefs.is_hex_digit (take (Z.to_nat 64) (h ++ x :: rest)) = zlen h) as ->.
  { destruct Hl as [Hl|Hl].
    - rewrite take_app_ge by (unfold zlen in Hl; lia). destruct (Z.to_nat 64 - length h)%nat as [|n] eqn:E; [unfold zlen in Hl; lia|].
      cbn [take]. by apply count_while_app.
    - rewrite take_app_le by (unfold zlen in Hl; lia). rewrite take_ge by (unfold zlen in Hl; lia). clear Hl.
      induction Hh as [|b l Hb _ IH]; cbn [count_while]; [done|]. rewrite Hb, IH, zlen_cons. lia. }
  assert (existsb (λ k, len_in_hex k =? zlen h) [Sha1; Sha256] = true) as ->.
  { cbn [existsb]. change (len_in_hex Sha1) with 40. change (len_in_hex Sha256) with 64. destruct Hl as [-> | ->]; done. }
  cbn [ensure mbind outcome_bind]. by rewrite (split_at_app h (x :: rest)).
Qed.
Lemma hex_hash_any_safe i : hex_hash_any i ≠ Panic.
Proof.
  unfold hex_hash_any. destruct (existsb _ _); [|done]. cbn [ensure mbind outcome_bind]. rewrite split_at_in; [done|].
  set (l := take _ i). pose proof (count_while_bounds PackedRefs.is_hex_digit l) as Hb. split; [lia|]. unfold l, zlen in *. rewrite length_take in Hb. lia.
Qed.
Lemma oid_of_hex_ok h : hex_any h → ∃ id, oid_of_hex h = Ok id.
Proof.
  intros [Hl Hh]. assert (∃ ds, mapM hex_val h = Some ds) as [ds Hds].
  { clear Hl. induction Hh as [|b h Hb _ [ds IH]]; [by exists []|]. unfold PackedRefs.is_hex_digit in Hb.
    assert (∃ d, hex_val b = Some d) as [d Hd] by (unfold hex_val; zb; try lia; by eexists). exists (d :: ds). cbn. by rewrite Hd, IH. }
  assert (hex_decode h = Some (from_nibbles ds)) as Hd.
  { rewrite hex_decode_law, Hds; [done|]. unfold zlen in Hl. exists (Nat.div2 (length h)). destruct Hl as [Hl|Hl];
      [assert (length h = 40%nat) as -> by lia|assert (length h = 64%nat) as -> by lia]; done. }
  unfold oid_of_hex, from_hex. rewrite Hd. change SIZE_OF_SHA1_HEX_DIGEST with 40. change SIZE_OF_SHA256_HEX_DIGEST with 64.
  destruct Hl as [-> | ->]; cbn; by eexists.
Qed.
Lemma first_line_ok i : ∃ line rest, first_line i = Ok line ∧ i = line ++ rest ∧ no_nl line.
Proof.
  unfold first_line. destruct (position is_nl i) as [n|] eqn:E.
  - apply position_Some in E as (a & x & b & -> & <- & _ & Ha). exists a, (x :: b). change (default (zlen (a ++ x :: b)) (Some (zlen a))) with (zlen a). by rewrite get_range_head.
  - apply position_None in E. exists i, []. rewrite app_nil_r. change (default (zlen i) None) with (zlen i). rewrite get_range_in by (pose proof (zlen_nonneg i); lia). cbn [expect].
    rewrite Z.sub_0_r, drop_0. unfold zlen. by rewrite Nat2Z.id, firstn_all.
Qed.
Lemma line_decode_safe i : zlen i < 2 ^ 64 → line_decode i ≠ Panic ∧
  ∀ l, line_decode i = Ok l → hex_any (ref_previous l) ∧ hex_any (ref_new l).
Proof.
  intros Hi. unfold line_decode. destruct (first_line_ok i) as (line & rest & -> & Heq & _). cbn [mbind outcome_bind].
  assert (zlen line < 2 ^ 64) as Hline by (rewrite Heq, zlen_app in Hi; pose proof (zlen_nonneg rest); lia).
  set (hm := match position _ line with Some _ => _ | None => _ end).
  assert (∃ h m, hm = Ok (h, m) ∧ zlen h ≤ zlen line) as (h & m & -> & Hh).
  { unfold hm. destruct (position _ line) as [tab|] eqn:E; [|by exists line, []; split; [|lia]]. apply position_bound in E.
    rewrite get_range_in, get_from_in by lia. eexists _, _. split; [done|]. unfold zlen. rewrite length_take, length_drop. lia. }
  cbn [mbind outcome_bind]. pose proof (hex_hash_any_safe h) as Hs1. destruct (hex_hash_any h) as [[old h1]| |] eqn:E1; [|done|done].
  apply hex_hash_any_sound in E1 as [Ho ->]. cbn [map_err mbind outcome_bind]. destruct (strip_prefix h1 [32]) as [h2|] eqn:E2; [|done].
  apply strip_prefix_Some in E2 as ->. cbn [ok_or mbind outcome_bind]. pose proof (hex_hash_any_safe h2) as Hs2.
  destruct (hex_hash_any h2) as [[new h3]| |] eqn:E3; [|done|done]. apply hex_hash_any_sound in E3 as [Hn ->]. cbn [map_err mbind outcome_bind].
  destruct (strip_prefix h3 [32]) as [h4|] eqn:E4; [|done]. apply strip_prefix_Some in E4 as ->. cbn [ok_or mbind outcome_bind].
  rewrite !zlen_app in Hh. pose proof (zlen_nonneg old). pose proof (zlen_nonneg new). pose proof (zlen_nonneg h4). change (zlen [32]) with 1 in Hh.
  pose proof (decode_safe h4 ltac:(lia)) as Hs. destruct (decode h4) as [[s h5]| |]; [|done|done]. cbn [map_err mbind outcome_bind].
  destruct (bool_decide _); [|done]. cbn [ensure mbind outcome_bind]. split; [done|]. by intros l [= <-].
Qed.
Lemma line_from_bytes_safe i : zlen i < 2 ^ 64 → line_from_bytes i ≠ Panic ∧ ∀ l, line_from_bytes i = Ok l → ∃ line, line_of_ref l = Ok line.
Proof.
  intros Hi. destruct (line_decode_safe i Hi) as [Hs Hok]. unfold line_from_bytes. destruct (line_decode i) as [l|e|]; [|destruct (first_line_ok i) as (line & rest & -> & _); done|done].
  split; [done|]. intros l' [= <-]. destruct (Hok l eq_refl) as [Hp Hn]. destruct (oid_of_hex_ok _ Hp) as [p Hp']. destruct (oid_of_hex_ok _ Hn) as [n Hn'].
  unfold line_of_ref. rewrite Hp', Hn'. by eexists.
Qed.
Lemma entry_of_safe l n : zlen l < 2 ^ 64 → entry_of l n ≠ Panic.
Proof.
  intros Hl. destruct (line_from_bytes_safe l Hl) as [Hs Hok]. unfold entry_of. destruct (line_from_bytes l) as [r|e|]; [|by destruct e|done].
  cbn. destruct (Hok r eq_refl) as [line ->]. done.
Qed.
End Lines.

(** ** Lemmas: all lines from the end *)
Section FromEnd.
Context {FH : FasterHex}.

Definition entries_from (n : Z) (lines : list bytes) : list (outcome log_error Line) := imap (λ i l, entry_of l (n + Z.of_nat i + 1)) lines.
Lemma entries_from_cons n l lines : entries_from n (l :: lines) = entry_of l (n + 1) :: entries_from (n + 1) lines.
Proof.
  unfold entries_from. rewrite imap_cons. f_equal; [f_equal; lia|]. apply imap_ext. intros i x _. cbn. f_equal. lia.
Qed.
Lemma reverse_all_depleted fuel st : is_depleted st → reverse_all (S fuel) st = Ok [].
Proof. intros [Hp Hl]. cbn [reverse_all]. unfold reverse_fuel. rewrite Hp. cbn [reverse_next]. by rewrite Hp, Hl. Qed.
Lemma zlen_pieces T : ∀ cur b, b ∈ pieces T cur → zlen b ≤ zlen cur + zlen T.
Proof.
  induction T as [|x T IH]; intros cur b; cbn [pieces]; [intros ->%list_elem_of_singleton; rewrite zlen_nil; lia|]. rewrite zlen_cons.
  destruct (x =? 10).
  - intros [->|Hb]%list.elem_of_cons; [pose proof (zlen_nonneg T); lia|]. apply IH in Hb. rewrite zlen_nil in Hb. pose proof (zlen_nonneg cur). lia.
  - intros Hb%IH. rewrite zlen_app in Hb. change (zlen [x]) with 1 in Hb. lia.
Qed.
(** One call with any fuel that is enough, and the others with that of [reverse_all]. *)
Definition reverse_rest (steps fuel : nat) (st : Reverse) : outcome log_error (list (outcome log_error Line)) :=
  '(st, r) ← reverse_next steps st;
  match r with
  | None => Ok []
  | Some r => rest ← reverse_all fuel st; Ok (r :: rest)
  end.
Lemma reverse_rest_window log fuel : ∀ T st pre text steps, T = pre ++ text → window log st pre text → zlen log < 2 ^ 64 → zlen (buf st) < 2 ^ 64 →
  0 ≤ count st → count st + zlen T < 2 ^ 64 - 1 → (length T < fuel)%nat → (Z.to_nat (zlen pre) < steps)%nat →
  ∃ l, reverse_rest steps fuel st = Ok l ∧ Forall (λ r, r ≠ Panic) l ∧
    (Forall (λ b, zlen b < zlen (buf st)) (pieces T []) → l = entries_from (count st) (rev (pieces T []))).
Proof.
  induction fuel as [|fuel IH]; intros T st pre text steps HT Hw Hlen Hbl Hc Hct Hf Hst; [lia|]. unfold reverse_rest.
  pose proof (zlen_nonneg T). assert (zlen T < 2 ^ 64) as HTl by lia.
  destruct (reverse_next_window log steps st pre text Hw Hlen Hbl) as (st' & r & -> & Hr); [lia|done|]. cbn [mbind outcome_bind]. rewrite <- HT in Hr.
  destruct Hr as [(a & b & pre' & text' & HTe & Hb & Ha & Hw' & Hbuf & Hcnt & ->)|[(Hno & Hdep & ->)|(a & b & contents & HTe & Hno & Hne & Hbig & Hdep & ->)]].
  - assert (zlen T = zlen a + (1 + zlen b)) as HTz by (by rewrite HTe, zlen_app, zlen_cons). pose proof (zlen_nonneg a). pose proof (zlen_nonneg b).
    change (reverse_all (S fuel) st') with (reverse_rest (reverse_fuel st') fuel st').
    destruct (IH a st' pre' text' (reverse_fuel st') Ha Hw' Hlen) as (l & -> & Hl & Hex);
      [lia|lia|lia|unfold zlen in HTz; lia|unfold reverse_fuel; rewrite (w_pos _ _ _ _ Hw'); lia|].
    cbn [mbind outcome_bind]. eexists. split; [done|]. split; [constructor; [apply entry_of_safe; lia|done]|].
    rewrite HTe, pieces_snoc by done. intros Hfit. apply Forall_app in Hfit as [Hfit _]. rewrite Hbuf in Hex.
    rewrite rev_app_distr. cbn [rev app]. rewrite entries_from_cons, (Hex Hfit), Hcnt. done.
  - rewrite reverse_all_depleted by done. cbn [mbind outcome_bind]. eexists. split; [done|].
    split; [apply Forall_singleton, entry_of_safe; lia|]. rewrite pieces_no_nl by done. cbn [app rev]. intros _. by rewrite entries_from_cons.
  - rewrite reverse_all_depleted by done. cbn [mbind outcome_bind]. eexists. split; [done|].
    split; [by apply Forall_singleton|]. intros Hfit. exfalso. destruct (last_nl a) as [Hna|(u & v & -> & Hv)].
    + rewrite HTe, pieces_no_nl in Hfit by (by apply Forall_app). cbn [app] in Hfit. apply list.Forall_cons in Hfit as [Hfit _].
      rewrite zlen_app in Hfit. pose proof (zlen_nonneg a). lia.
    + rewrite HTe, <- app_assoc in Hfit. cbn [app] in Hfit. rewrite pieces_snoc in Hfit by (by apply Forall_app). apply Forall_app in Hfit as [_ Hfit].
      apply list.Forall_cons in Hfit as [Hfit _]. rewrite zlen_app in Hfit. pose proof (zlen_nonneg v). lia.
Qed.
Lemma strip_suffix_Some l s r : strip_suffix l s = Some r → l = r ++ s.
Proof.
  unfold strip_suffix, bytes_eqb. destruct (_ <=? _); [|done]. cbn [andb]. case_bool_decide as He; [|done]. intros [= <-]. rewrite <- He at 2. by rewrite take_drop.
Qed.
(** A log without the newline at its end. *)
Definition unterminated (log : bytes) : bytes := match strip_suffix log [10] with Some l => l | None => log end.
Definition log_lines (log : bytes) : list bytes := match log with [] => [] | _ => pieces (unterminated log) [] end.

Lemma reverse_log_spec log size : zlen log < 2 ^ 64 - 1 → 1 ≤ size < 2 ^ 64 →
  ∃ l, reverse_log log size = Ok l ∧ Forall (λ r, r ≠ Panic) l ∧
    (Forall (λ b, zlen b < size) (log_lines log) → l = entries_from 0 (rev (log_lines log))).
Proof.
  intros Hlen Hsize. unfold reverse_log, reverse. set (buffer := replicate (Z.to_nat size) 0).
  assert (zlen buffer = size) as Hbz by (unfold buffer, zlen; rewrite length_replicate; lia).
  assert (∃ x bf, buffer = x :: bf) as (x & bf & Hb) by (destruct buffer; [rewrite zlen_nil in Hbz; lia|by eexists _, _]).
  rewrite Hb. cbn [mbind outcome_bind]. rewrite <- Hb. clear x bf Hb. pose proof (zlen_nonneg log).
  remember (S (length log)) as fuel eqn:Hfuel. cbn [reverse_all]. unfold reverse_fuel. cbn [read_and_pos reverse_next last_nl_pos buf count].
  rewrite Hbz. set (npos := Z.max 0 (zlen log - size)). rewrite op_sub_ok by lia. cbn [mbind outcome_bind].
  destruct (Z.eqb_spec (zlen log - npos) 0) as [Hz|Hz].
  - assert (zlen log = 0) as Hl0 by lia. assert (log = []) as -> by (by destruct log).
    cbn [mbind outcome_bind]. by eexists.
  - assert (∃ p block, log = p ++ block ∧ zlen p = npos) as (p & block & Hlog & Hp).
    { exists (take (Z.to_nat npos) log), (drop (Z.to_nat npos) log). rewrite take_drop. split; [done|]. unfold zlen in *. rewrite length_take. lia. }
    assert (zlen block = zlen log - npos ∧ 1 ≤ zlen block ≤ size) as [Hbl Hbs] by (assert (zlen log = zlen p + zlen block) by (by rewrite Hlog, zlen_app); lia).
    assert (∃ before rest, buffer = before ++ rest ∧ zlen before = zlen block) as (before & rest & Hbr & Hbe).
    { exists (take (Z.to_nat (zlen block)) buffer), (drop (Z.to_nat (zlen block)) buffer). rewrite take_drop. split; [done|]. unfold zlen in *. rewrite length_take. lia. }
    rewrite <- Hbl, <- Hp, Hbr. 
    assert (read_block log (before ++ rest) (zlen p) (zlen block) = Ok (block ++ rest)) as ->.
    { rewrite Hlog, <- (app_nil_r block) at 1. by apply read_block_ok. }
    destruct block as [|x body _] using rev_ind; [rewrite zlen_nil in Hbs; lia|].
    assert (zlen (body ++ [x]) = zlen body + 1) as Hbx by by rewrite zlen_app. rewrite Hbx, Z.add_simpl_r.
    rewrite <- (app_assoc body [x]). cbn [app]. rewrite get_app_mid. cbn [expect mbind outcome_bind].
    set (st := {| buf := body ++ x :: rest; count := 0; read_and_pos := Some (log, zlen p); last_nl_pos := Some (if negb (x =? 10) then zlen body + 1 else zlen body) |}).
    change (∃ l, reverse_rest (S (Z.to_nat (zlen log))) fuel st = Ok l ∧ Forall (λ r, r ≠ Panic) l ∧ (Forall (λ b, zlen b < size) (log_lines log) → l = entries_from 0 (rev (log_lines log)))).
    assert (zlen (buf st) = size) as Hbs' by (cbn [st buf]; rewrite <- Hbz, Hbr, !zlen_app, Hbe, Hbx, zlen_cons; lia).
    assert (∃ text, window log st p text ∧ log_lines log = pieces (p ++ text) [] ∧ zlen (p ++ text) ≤ zlen log) as (text & Hw & Hll & Hle).
    { assert (log_lines log = pieces (unterminated log) []) as -> by (destruct log; [destruct p, body; done|done]). destruct (Z.eqb_spec x 10) as [->|Hx]; [exists body|exists (body ++ [x])]; cbn [negb] in st.
      - split; [split; cbn [st buf read_and_pos last_nl_pos]; [exists [10]; done|done|done|by eexists]|].
        unfold unterminated. rewrite Hlog, app_assoc, strip_suffix_app. split; [done|]. rewrite (zlen_app (p ++ body)). change (zlen [10]) with 1. lia.
      - split; [split; cbn [st buf read_and_pos last_nl_pos]; [exists []; by rewrite app_nil_r|done|by rewrite Hbx|exists rest; by rewrite <- app_assoc]|].
        rewrite <- Hlog. split; [|done]. f_equal. unfold unterminated. destruct (strip_suffix log [10]) as [l|] eqn:E; [|done].
        apply strip_suffix_Some in E. rewrite Hlog, app_assoc in E. apply app_inj_tail in E as [_ E]. done. }
    rewrite Hll, <- Hbs'. change 0 with (count st).
    apply (reverse_rest_window log fuel (p ++ text) st p text _ eq_refl Hw); [lia|lia|done|cbn [st count]; lia|unfold zlen in *; lia|].
    rewrite zlen_app in Hle. pose proof (zlen_nonneg text). lia.
Qed.
End FromEnd.

(** ** Lemmas: the same lines from the beginning *)
Section FromBeginning.
Context {FH : FasterHex}.

Definition no_cr (l : bytes) : Prop := Forall (λ b, b ≠ 13) l.
Lemma strip_cr l : no_cr l → strip_suffix l [13] = None.
Proof.
  intros H. destruct (strip_suffix l [13]) as [r|] eqn:E; [|done]. apply strip_suffix_Some in E as ->. apply Forall_app in H as [_ H].
  by apply list.Forall_cons in H as [H _].
Qed.
(** No line ends in CRLF. *)
Definition no_crlf (l : bytes) : Prop := ∀ a b, l ≠ a ++ 13 :: 10 :: b.
Lemma no_crlf_suffix a l : no_crlf (a ++ l) → no_crlf l.
Proof. intros H x y ->. apply (H (a ++ x) y). by rewrite <- app_assoc. Qed.
Lemma no_crlf_strip cur l : no_crlf (cur ++ 10 :: l) → strip_suffix cur [13] = None.
Proof.
  intros H. destruct (strip_suffix cur [13]) as [r|] eqn:E; [|done]. apply strip_suffix_Some in E as ->. destruct (H r l). by rewrite <- app_assoc.
Qed.
Lemma split_lines_terminated l : ∀ cur, no_crlf (cur ++ l ++ [10]) → split_lines (l ++ [10]) cur = pieces l cur.
Proof.
  induction l as [|b l IH]; intros cur Hn; cbn [app split_lines pieces Z.eqb Pos.eqb]; [by rewrite (no_crlf_strip cur [])|].
  destruct (Z.eqb_spec b 10) as [->|Hb].
  - rewrite (no_crlf_strip cur (l ++ [10])) by done. cbn [default from_option id]. f_equal. apply IH. cbn [app]. by apply (no_crlf_suffix (cur ++ [10])); rewrite <- app_assoc.
  - apply IH. by rewrite <- app_assoc.
Qed.
Lemma split_lines_unterminated l : ∀ cur, no_crlf (cur ++ l) → list.last l ≠ Some 10 → (l ≠ [] ∨ cur ≠ []) → split_lines l cur = pieces l cur.
Proof.
  induction l as [|b l IH]; intros cur Hn Hl Hne; cbn [app split_lines pieces]; [destruct cur; [by destruct Hne|done]|].
  destruct (Z.eqb_spec b 10) as [->|Hb10].
  - rewrite (no_crlf_strip cur l) by done. destruct l as [|c l]; [done|]. cbn [default from_option id]. f_equal.
    apply IH; [by apply (no_crlf_suffix (cur ++ [10])); rewrite <- app_assoc|done|by left].
  - apply IH; [by rewrite <- app_assoc|by destruct l|right; by destruct cur].
Qed.
Lemma split_lines_log log : no_crlf log → split_lines log [] = log_lines log.
Proof.
  intros Hn. destruct log as [|b log] using rev_ind; [done|]. clear IHlog.
  assert (log_lines (log ++ [b]) = pieces (unterminated (log ++ [b])) []) as -> by by destruct log.
  unfold unterminated. destruct (Z.eqb_spec b 10) as [->|Hb].
  - rewrite strip_suffix_app. by apply split_lines_terminated.
  - assert (strip_suffix (log ++ [b]) [10] = None) as ->.
    { destruct (strip_suffix _ _) as [r|] eqn:E; [|done]. apply strip_suffix_Some in E. apply app_inj_tail in E as [_ ->]. done. }
    apply split_lines_unterminated; [done|rewrite list.last_snoc; congruence|left; by destruct log].
Qed.
Lemma pieces_flat T : ∀ cur, Forall (λ p, zlen p ≤ zlen cur + zlen T) (pieces T cur).
Proof. intros cur. rewrite list.Forall_forall. intros b. apply zlen_pieces. Qed.
Lemma split_lines_short l : ∀ cur, Forall (λ p, zlen p ≤ zlen cur + zlen l) (split_lines l cur).
Proof.
  assert (∀ cur, zlen (default cur (strip_suffix cur [13])) ≤ zlen cur) as Hs.
  { intros cur. destruct (strip_suffix cur [13]) as [r|] eqn:E; cbn; [apply strip_suffix_Some in E as ->; rewrite zlen_app; pose proof (zlen_nonneg [13]); lia|lia]. }
  induction l as [|b l IH]; intros cur; cbn [split_lines].
  - destruct cur; [constructor|]. apply Forall_singleton. rewrite zlen_nil. lia.
  - rewrite zlen_cons. destruct (b =? 10).
    + constructor; [specialize (Hs cur); pose proof (zlen_nonneg l); lia|]. eapply Forall_impl; [|apply IH]. intros p Hp. cbn in Hp. rewrite zlen_nil in Hp. pose proof (zlen_nonneg cur). lia.
    + eapply Forall_impl; [|apply IH]. intros p Hp. cbn in Hp. rewrite zlen_app in Hp. change (zlen [b]) with 1 in Hp. lia.
Qed.
Lemma forward_safe log : zlen log < 2 ^ 64 → Forall (λ r, r ≠ Panic) (forward log).
Proof.
  intros Hl. unfold forward. apply list.Forall_forall. intros r (i & x & -> & Hx)%elem_of_lookup_imap. apply list_elem_of_lookup_2 in Hx.
  pose proof (split_lines_short log []) as Hs. rewrite list.Forall_forall in Hs. specialize (Hs x Hx). cbn in Hs. rewrite zlen_nil in Hs.
  destruct (line_from_bytes_safe x ltac:(lia)) as [Hp _]. destruct (line_from_bytes x) as [|e|]; [done|by destruct e|done].
Qed.

(** An entry of [forward], which counts [total] lines, as [Reverse] yields it. *)
Definition from_end (total : Z) (r : outcome log_error LineRef) : outcome log_error Line :=
  match r with
  | Err (InvalidReflogEntry line _ input cause) => Err (InvalidReflogEntry (total + 1 - line) true input cause)
  | r => r ≫= line_of_ref
  end.
Lemma entries_from_rev ls : ∀ n, entries_from n (rev ls) = rev (imap (λ i l, entry_of l (n + zlen ls - Z.of_nat i)) ls).
Proof.
  induction ls as [|x ls IH] using rev_ind; intros n; [done|]. rewrite rev_app_distr. cbn [rev app]. rewrite entries_from_cons, IH, imap_app.
  rewrite rev_app_distr. cbn [imap rev app]. rewrite zlen_app. change (zlen [x]) with 1. f_equal; [f_equal; unfold zlen; lia|].
  f_equal. apply imap_ext. intros i y _. f_equal. lia.
Qed.
Lemma entry_of_forward total i l : 
  entry_of l (total - i) = from_end total (invalid_reflog_entry (i + 1) false (line_from_bytes l)).
Proof.
  unfold entry_of. destruct (line_from_bytes l) as [r|e|] eqn:E; [done| |done]. unfold line_from_bytes in E.
  destruct (line_decode l); [done| |done]. destruct (first_line_ok l) as (line & rest & Hf & _). rewrite Hf in E. cbn in E. injection E as <-.
  cbn. do 2 f_equal. lia.
Qed.
End FromBeginning.

(** ** Lemmas: logs that were written *)
Section Written.
Context {FH : FasterHex}.

(** Lines that can be written and read back: without the bytes that separate their parts. *)
Definition no_tab (l : bytes) : Prop := Forall (λ b, (b =? 9) = false) l.
Record line_ok (l : Line) : Prop := {
  lo_previous : oid_ok (previous_oid l);
  lo_new : oid_ok (new_oid l);
  lo_name : token_ok (sig_name (signature l)) ∧ no_tab (sig_name (signature l));
  lo_email : token_ok (sig_email (signature l)) ∧ no_tab (sig_email (signature l));
  lo_seconds : seconds_ok (time_seconds (sig_time (signature l)));
  lo_offset : printable (time_offset (sig_time (signature l))) ∧ ∃ m, time_offset (sig_time (signature l)) = m * 60;
  lo_message : no_nl (message l);
}.
Definition signature_ref (s : Signature) : SignatureRef :=
  {| name := sig_name s; email := sig_email s; time := time_text (sig_time s) |}.
Definition ref_of (l : Line) : LineRef :=
  {| ref_previous := to_hex (previous_oid l); ref_new := to_hex (new_oid l); ref_signature := signature_ref (signature l); ref_message := message l |}.
Definition line_head (l : Line) : bytes :=
  to_hex (previous_oid l) ++ 32 :: to_hex (new_oid l) ++ 32 :: raw_signature (signature_ref (signature l)).
Definition line_body (l : Line) : bytes := line_head l ++ 9 :: message l.
Definition line_text (l : Line) : bytes := line_body l ++ [10].

Lemma position_nl_None l : no_nl l → position is_nl l = None.
Proof. apply position_None. Qed.
Lemma line_write_ok l out : line_ok l → line_write_to l out = Ok (out ++ line_text l).
Proof.
  intros [_ _ [Hn _] [He _] Hs [Ho _] Hm]. unfold line_write_to. rewrite owned_signature_text by done. cbn [map_err mbind outcome_bind].
  unfold check_newlines. rewrite position_nl_None by done. cbn [mbind outcome_bind]. f_equal.
  unfold line_text, line_body, line_head, signature_ref. cbn [app]. rewrite <- !app_assoc. cbn [app]. by rewrite <- !app_assoc.
Qed.
Lemma to_hex_any id : oid_ok id → hex_any (to_hex id) ∧ from_hex (to_hex id) = Ok id.
Proof.
  intros Hid. split; [|by apply oid_hex_roundtrip]. pose proof Hid as [Hl Hb]. split.
  - unfold to_hex. rewrite length_hex_encode by done. rewrite Hl. destruct id; [by left|by right].
  - unfold to_hex. rewrite hex_encode_law by done. pose proof (nibbles_ok _ Hb) as Hn. clear -Hn. induction Hn as [|n l Hn _ IH]; constructor; [|done].
    unfold is_nibble in Hn. unfold hex_digit, PackedRefs.is_hex_digit. destruct (n <? 10) eqn:E; lia.
Qed.
Lemma hex_any_bytes h : hex_any h → no_nl h ∧ no_tab h.
Proof. intros [_ H]. split; (eapply Forall_impl; [|exact H]); intros b; unfold PackedRefs.is_hex_digit, is_nl; lia. Qed.
(** A line is its head, or its head, a tab and a message. *)
Definition head_text (h1 h2 : bytes) (s : SignatureRef) : bytes := h1 ++ 32 :: h2 ++ 32 :: raw_signature s.
Lemma head_bytes h1 h2 s : hex_any h1 → hex_any h2 → token_ok (name s) → token_ok (email s) → time_ok (time s) →
  no_tab (name s) → no_tab (email s) → no_tab (time s) → no_nl (head_text h1 h2 s) ∧ no_tab (head_text h1 h2 s).
Proof.
  intros Hp Hn Hnm Hem Ht Hnt Het Htt. destruct (hex_any_bytes _ Hp) as [Hp1 Hp2]. destruct (hex_any_bytes _ Hn) as [Hn1 Hn2].
  destruct (token_ok_parts _ Hnm) as (_ & _ & Hnm1). destruct (token_ok_parts _ Hem) as (_ & _ & Hem1). destruct (token_ok_parts _ (time_ok_token _ Ht)) as (_ & _ & Ht1).
  unfold head_text, raw_signature, no_nl, no_tab in *.
  split; repeat first [apply Forall_app; split; [done|]|apply Forall_cons_2; [done|]]; done.
Qed.
Lemma line_head_bytes l : line_ok l → no_nl (line_head l) ∧ no_tab (line_head l).
Proof.
  intros [Hp Hn [Hnm Hnt] [Hem Het] Hs [Ho _] _]. pose proof (itoa_spec _ Hs) as (_ & Hw & _). destruct (offset_digits _ Ho) as (h1 & h2 & m1 & m2 & Hot & Hd & _).
  apply head_bytes; [by apply to_hex_any|by apply to_hex_any|done|done|by apply time_text_bytes|done|done|].
  unfold time_text, no_tab, signature_ref. cbn [time]. unfold time_text. rewrite Forall_app. split; [eapply Forall_impl; [|exact Hw]; intros b; unfold is_ascii_whitespace; lia|].
  rewrite Hot. unfold sign_of. apply Forall_cons_2; [done|]. apply Forall_cons_2; [by destruct (_ <? 0)|].
  repeat (apply Forall_cons_2; [cbv beta; lia|]). constructor.
Qed.
Lemma line_body_no_nl l : line_ok l → no_nl (line_body l).
Proof. intros Hl. pose proof (lo_message _ Hl). unfold line_body, no_nl. apply Forall_app. split; [by apply line_head_bytes|]. by apply Forall_cons_2. Qed.
Lemma line_of_ref_of l : line_ok l → line_of_ref (ref_of l) = Ok l.
Proof.
  intros [Hp Hn _ _ Hs [Ho [m Hm]] _]. unfold line_of_ref, ref_of, oid_of_hex. cbn [ref_previous ref_new ref_signature ref_message].
  destruct (to_hex_any _ Hp) as [_ ->]. destruct (to_hex_any _ Hn) as [_ ->]. cbn [mbind outcome_bind]. f_equal. destruct l as [p n [nm em [secs o]] msg].
  unfold signature_from, signature_ref. cbn [name email time sig_name sig_email sig_time signature time_seconds time_offset previous_oid new_oid message] in *.
  rewrite parse_header_text by done. cbn [default from_option id time_seconds time_offset]. subst o. by rewrite Z.quot_mul by lia.
Qed.
Lemma line_decode_text line h1 h2 s m : hex_any h1 → hex_any h2 → token_ok (name s) → token_ok (email s) → time_ok (time s) →
  no_tab (head_text h1 h2 s) → no_nl line → zlen line < 2 ^ 64 →
  line = head_text h1 h2 s ++ 9 :: m ∨ (line = head_text h1 h2 s ∧ m = []) →
  line_from_bytes line = Ok {| ref_previous := h1; ref_new := h2; ref_signature := s; ref_message := m |}.
Proof.
  intros Hp Hn Hnm Hem Ht Htab Hnl Hlen Hline.
  assert (zlen (raw_signature s) < 2 ^ 64) as Hrl.
  { assert (zlen (raw_signature s) ≤ zlen (head_text h1 h2 s) ≤ zlen line); [|lia]. unfold head_text.
    pose proof (zlen_nonneg h1). pose proof (zlen_nonneg h2). pose proof (zlen_nonneg m).
    destruct Hline as [->|[-> _]]; unfold head_text; rewrite ?zlen_app, ?zlen_cons, ?zlen_app, ?zlen_cons; lia. }
  unfold line_from_bytes, line_decode.
  assert (first_line line = Ok line) as ->.
  { unfold first_line. rewrite position_nl_None by done. change (default (zlen line) None) with (zlen line).
    rewrite <- (app_nil_r line) at 1. by rewrite get_range_head. }
  cbn [mbind outcome_bind]. set (hm := match position _ line with Some _ => _ | None => _ end).
  assert (hm = Ok (head_text h1 h2 s, m)) as ->.
  { unfold hm. destruct Hline as [-> | [-> ->]]; [|apply position_None in Htab; by rewrite Htab]. rewrite position_app by done.
    rewrite get_range_head. cbn [expect mbind outcome_bind].
    replace (head_text h1 h2 s ++ 9 :: m) with ((head_text h1 h2 s ++ [9]) ++ m) by by rewrite <- app_assoc.
    replace (zlen (head_text h1 h2 s) + 1) with (zlen (head_text h1 h2 s ++ [9])) by by rewrite zlen_app. by rewrite get_from_app. }
  cbn [mbind outcome_bind]. unfold head_text. rewrite hex_hash_any_complete by done. cbn [map_err mbind outcome_bind].
  assert (∀ x, strip_prefix (32 :: x) [32] = Some x) as Hsp by (intros x; by apply strip_prefix_Some). rewrite Hsp. cbn [ok_or mbind outcome_bind].
  rewrite hex_hash_any_complete by done. cbn [map_err mbind outcome_bind]. rewrite Hsp. cbn [ok_or mbind outcome_bind].
  rewrite <- (app_nil_r (raw_signature _)). rewrite decode_raw; [|done|done|done|by left|done]. cbn [map_err mbind outcome_bind].
  by rewrite bool_decide_true.
Qed.
Lemma line_decode_written l : line_ok l → zlen (line_body l) < 2 ^ 64 → line_from_bytes (line_body l) = Ok (ref_of l).
Proof.
  intros Hl Hlen. pose proof Hl as [Hp Hn [Hnm _] [Hem _] Hs [Ho _] Hm]. destruct (line_head_bytes _ Hl) as [_ Htab].
  apply line_decode_text; [by apply to_hex_any|by apply to_hex_any|done|done|by apply time_text_bytes|done|by apply line_body_no_nl|done|by left].
Qed.

(** No message ends in a carriage return. *)
Definition no_cr_end (l : Line) : Prop := strip_suffix (message l) [13] = None.
Lemma no_cr_end_body l : no_cr_end l → strip_suffix (line_body l) [13] = None.
Proof.
  unfold no_cr_end, line_body. intros H. destruct (strip_suffix (line_head l ++ _) [13]) as [r|] eqn:E; [|done]. apply strip_suffix_Some in E.
  destruct (message l) as [|x m _] using rev_ind.
  - apply app_inj_tail in E as [_ ?]. done.
  - change (9 :: m ++ [x]) with ((9 :: m) ++ [x]) in E. rewrite app_assoc in E. apply app_inj_tail in E as [_ ->]. by rewrite strip_suffix_app in H.
Qed.
Lemma split_written lines : Forall line_ok lines → Forall no_cr_end lines →
  split_lines (concat (line_text <$> lines)) [] = line_body <$> lines.
Proof.
  assert (∀ b rest, no_nl b → ∀ cur, split_lines (b ++ 10 :: rest) cur = default (cur ++ b) (strip_suffix (cur ++ b) [13]) :: split_lines rest []) as Hsplit.
  { induction 1 as [|x b Hx _ IH]; intros cur; cbn [app split_lines Z.eqb Pos.eqb]; [by rewrite app_nil_r|].
    unfold is_nl in Hx. rewrite Hx, IH, <- app_assoc. done. }
  induction 1 as [|l lines Hl _ IH]; intros Hcr; [done|]. apply Forall_cons_1 in Hcr as [Hc Hcr]. cbn [fmap list_fmap concat].
  unfold line_text at 1. rewrite <- app_assoc. cbn [app]. rewrite Hsplit by by apply line_body_no_nl. cbn [app]. rewrite no_cr_end_body by done. rewrite IH by done. done.
Qed.
(** Lines written one behind the other. *)
Fixpoint write_lines (lines : list Line) (out : bytes) : outcome log_error bytes :=
  match lines with
  | [] => Ok out
  | l :: lines => out ← line_write_to l out; write_lines lines out
  end.
Lemma write_lines_ok lines : Forall line_ok lines → ∀ out, write_lines lines out = Ok (out ++ concat (line_text <$> lines)).
Proof.
  induction 1 as [|l lines Hl _ IH]; intros out; cbn [write_lines fmap list_fmap concat]; [by rewrite app_nil_r|].
  rewrite line_write_ok by done. cbn [mbind outcome_bind]. by rewrite IH, <- app_assoc.
Qed.
Definition lines_ok (lines : list Line) : Prop := Forall line_ok lines ∧ Forall no_cr_end lines.
Lemma written_short lines l : l ∈ lines → zlen (line_body l) < zlen (concat (line_text <$> lines)) ∧ zlen (line_body l) + 1 = zlen (line_text l).
Proof.
  intros (a & b & ->)%list_elem_of_split. rewrite fmap_app, concat_app, fmap_cons. cbn [concat]. rewrite !zlen_app.
  unfold line_text at 2 4. rewrite zlen_app. change (zlen [10]) with 1.
  pose proof (zlen_nonneg (concat (line_text <$> a))). pose proof (zlen_nonneg (concat (line_text <$> b))). lia.
Qed.
Lemma forward_written lines : lines_ok lines → zlen (concat (line_text <$> lines)) < 2 ^ 64 →
  forward (concat (line_text <$> lines)) = Ok <$> (ref_of <$> lines).
Proof.
  intros [Hl Hc] Hlen. unfold forward. rewrite split_written by done. apply list_eq. intros i. rewrite list_lookup_imap, !list_lookup_fmap.
  destruct (lines !! i) as [l|] eqn:E; [|done]. cbn. apply list_elem_of_lookup_2 in E. rewrite line_decode_written; [done| |].
  - rewrite list.Forall_forall in Hl. by apply Hl.
  - destruct (written_short lines l E). lia.
Qed.
Lemma expire_loop_ok keep lines : Forall line_ok lines → ∀ retained removed, 0 ≤ removed → removed + zlen lines < 2 ^ 64 →
  expire_loop (Ok <$> (ref_of <$> lines)) keep retained removed =
    Ok (retained ++ concat (line_text <$> filter (λ l, keep (ref_of l) = true) lines), removed + zlen (filter (λ l, keep (ref_of l) = false) lines)).
Proof.
  induction 1 as [|l lines Hl _ IH]; intros retained removed Hr Hb; cbn [fmap list_fmap expire_loop].
  { rewrite app_nil_r. change (zlen (filter _ [])) with 0. by rewrite Z.add_0_r. }
  rewrite zlen_cons in Hb. pose proof (zlen_nonneg lines). cbn [mbind outcome_bind]. destruct (keep (ref_of l)) eqn:Hk.
  - rewrite line_of_ref_of by done. cbn [mbind outcome_bind]. rewrite line_write_ok by done. cbn [mbind outcome_bind]. rewrite IH by lia.
    rewrite filter_cons_True, filter_cons_False by congruence. cbn [fmap list_fmap concat]. by rewrite <- app_assoc.
  - rewrite op_add_ok by lia. cbn [mbind outcome_bind]. rewrite IH by lia. rewrite filter_cons_False, filter_cons_True by congruence.
    rewrite zlen_cons. do 2 f_equal. lia.
Qed.
Lemma kept_and_removed (p : Line → bool) lines : zlen (filter (λ l, p l = true) lines) + zlen (filter (λ l, p l = false) lines) = zlen lines.
Proof.
  induction lines as [|l lines IH]; [done|]. rewrite !filter_cons. destruct (p l) eqn:E; repeat case_decide; try congruence; rewrite !zlen_cons; lia.
Qed.
Lemma written_count lines : zlen lines ≤ zlen (concat (line_text <$> lines)).
Proof.
  induction lines as [|l lines IH]; [done|]. rewrite fmap_cons. cbn [concat]. rewrite zlen_cons, zlen_app. unfold line_text at 1. rewrite zlen_app.
  change (zlen [10]) with 1. pose proof (zlen_nonneg (line_body l)). lia.
Qed.
Lemma no_crlf_log lines : lines_ok lines → no_crlf (concat (line_text <$> lines)).
Proof.
  intros [Hl Hc]. induction Hl as [|l lines Hl _ IH]; [intros a b Heq; by destruct a|]. apply Forall_cons_1 in Hc as [Hc Hcs]. cbn [fmap list_fmap concat].
  unfold line_text at 1. rewrite <- app_assoc. cbn [app]. intros a b Heq. pose proof (line_body_no_nl _ Hl) as Hn.
  apply app_eq_inv in Heq as [(x & Hb & Hx)|(x & Ha & Hx)]; cycle 1.
  - destruct x as [|y x]; [done|]. injection Hx as _ Hx. by apply (IH Hcs x b).
  - destruct x as [|y [|z x]]; [done| |].
    + injection Hx as <- _. apply no_cr_end_body in Hc. by rewrite Hb, strip_suffix_app in Hc.
    + injection Hx as <- <- _. rewrite Hb in Hn. apply Forall_app in Hn as [_ Hn]. apply Forall_cons_1 in Hn as [_ Hn]. by apply Forall_cons_1 in Hn as [Hn _].
Qed.
Lemma filter_all {A} (P : A → Prop) `{∀ x, Decision (P x)} l : zlen (filter P l) = zlen l → filter P l = l.
Proof.
  induction l as [|x l IH]; [done|]. rewrite filter_cons. case_decide as Hp; [rewrite !zlen_cons; intros He; f_equal; apply IH; lia|].
  rewrite zlen_cons. intros He. exfalso. assert (length (filter P l) ≤ length l)%nat by apply length_filter. unfold zlen in He. lia.
Qed.
Lemma kept_ok lines (p : Line → bool) : Forall line_ok lines → Forall line_ok (filter (λ l, p l = true) lines).
Proof. rewrite !list.Forall_forall. intros H l [_ Hl]%list_elem_of_filter. by apply H. Qed.
Lemma null_oid_ok k : oid_ok (null k).
Proof. destruct k; apply (bool_decide_unpack _); vm_compute; exact I. Qed.
Lemma split_lines_behind f rest : ∀ cur, split_lines (f ++ 10 :: rest) cur = split_lines (f ++ [10]) cur ++ split_lines rest [].
Proof.
  induction f as [|b f IH]; intros cur; cbn [app split_lines Z.eqb Pos.eqb]; [done|]. destruct (b =? 10); [cbn [app]; by rewrite IH|apply IH].
Qed.
Lemma split_line b : no_nl b → ∀ cur, split_lines (b ++ [10]) cur = [default (cur ++ b) (strip_suffix (cur ++ b) [13])].
Proof.
  induction 1 as [|x b Hx _ IH]; intros cur; cbn [app split_lines Z.eqb Pos.eqb]; [by rewrite app_nil_r|]. unfold is_nl in Hx. rewrite Hx, IH. by rewrite <- app_assoc.
Qed.
Lemma strip_cr_end a b : b ≠ [] → no_cr b → strip_suffix (a ++ b) [13] = None.
Proof.
  intros Hne Hb. destruct (strip_suffix _ _) as [r|] eqn:E; [|done]. apply strip_suffix_Some in E. destruct b as [|x b _] using rev_ind; [done|].
  rewrite app_assoc in E. apply app_inj_tail in E as [_ ->]. apply Forall_app in Hb as [_ Hb]. by apply list.Forall_cons in Hb as [Hb _].
Qed.
Lemma forward_behind file body : file = [] ∨ (∃ f, file = f ++ [10]) → no_nl body → strip_suffix body [13] = None →
  forward (file ++ body ++ [10]) = forward file ++ [invalid_reflog_entry (Z.of_nat (length (split_lines file [])) + 1) false (line_from_bytes body)].
Proof.
  intros Hf Hb Hs. assert (split_lines (file ++ body ++ [10]) [] = split_lines file [] ++ [body]) as Hl.
  { destruct Hf as [->|[f ->]]; [|rewrite <- app_assoc; cbn [app]; rewrite split_lines_behind]; cbn [app]; rewrite (split_line body) by done; cbn [app]; by rewrite Hs. }
  unfold forward. rewrite Hl, imap_app. cbn [imap]. f_equal. f_equal. f_equal. lia.
Qed.
(** Reading from the end is reading from the beginning. *)
Lemma reverse_of_forward (log : bytes) (size : Z) :
  no_crlf log → zlen log < 2 ^ 64 - 1 → size < 2 ^ 64 → 1 ≤ size → Forall (λ l, zlen l < size) (split_lines log []) →
  reverse_log log size = Ok (rev (from_end (Z.of_nat (length (forward log))) <$> forward log)).
Proof.
  intros Hcr Hlen Hsize Hs1 Hfit. destruct (reverse_log_spec log size Hlen (conj Hs1 Hsize)) as (l & -> & _ & Hl).
  rewrite <- split_lines_log in Hl by done. rewrite (Hl Hfit). f_equal. rewrite entries_from_rev. f_equal. unfold forward. rewrite length_imap.
  rewrite fmap_imap. apply imap_ext. intros i x _. cbn. fold (zlen (split_lines log [])). apply entry_of_forward.
Qed.
End Written.
(** ** Properties *)
Section Properties.
Context {FH : FasterHex}.

(** C33: reading a log from its end, in blocks of any size that is larger than every line, yields precisely the lines that reading
    it from its beginning yields, in the opposite order and with line numbers counted from the end. No line of the log ends in CRLF, which only the
    iterator from the beginning takes for the end of a line. *)
Theorem reverse_is_forward_reversed (log : bytes) (size : Z) :
  no_crlf log → zlen log < 2 ^ 64 - 1 → size < 2 ^ 64 → 1 ≤ size → Forall (λ l, zlen l < size) (split_lines log []) →
  reverse_log log size = Ok (rev (from_end (Z.of_nat (length (forward log))) <$> forward log)).
Proof.
  apply reverse_of_forward.
Qed.
(** Whatever a log holds, reading it from either end, with a buffer of any size, returns: entries are lines or errors and
    nothing panics. *)
Theorem reflog_safe (log : bytes) (size : Z) : zlen log < 2 ^ 64 - 1 → 0 ≤ size < 2 ^ 64 →
  Forall (λ r, r ≠ Panic) (forward log) ∧
  (reverse_log log size = Err ZeroSizedBuffer ∨ ∃ es, reverse_log log size = Ok es ∧ Forall (λ r, r ≠ Panic) es).
Proof.
  intros Hlen Hsize. split; [apply forward_safe; lia|]. destruct (Z.eqb_spec size 0) as [->|Hne]; [by left|]. right.
  destruct (reverse_log_spec log size Hlen) as (es & Hes & Hp & _); [lia|]. by exists es.
Qed.
(** C3: a log of lines that were written one after the other, whose names and emails hold no tab, newline or angle
    bracket, whose offsets are whole minutes below 100 hours, and whose messages hold no newline and
    do not end in a carriage return: reading it from its beginning yields these lines, reading it from its
    end, with a buffer that holds the longest of them, yields them in the opposite order, and expiring it leaves what writing
    the kept lines alone would have left, and tells how many there are no more. *)
Theorem reflog_roundtrip (lines : list Line) (size : Z) (keep : LineRef → bool) (log : bytes) :
  Forall line_ok lines → Forall no_cr_end lines → write_lines lines [] = Ok log → zlen log < 2 ^ 64 - 1 → 1 ≤ size < 2 ^ 64 →
  Forall (λ l, zlen (line_text l) ≤ size) lines →
  (∃ refs, forward log = Ok <$> refs ∧ mapM line_of_ref refs = Ok lines) ∧
  reverse_log log size = Ok (Ok <$> rev lines) ∧
  (∃ retained, write_lines (filter (λ l, keep (ref_of l) = true) lines) [] = Ok retained ∧
     reflog_expire log keep = Ok (retained, zlen lines - zlen (filter (λ l, keep (ref_of l) = true) lines))).
Proof.
  intros Hl Hc Hw Hlen Hsize Hfit. rewrite write_lines_ok in Hw by done. injection Hw as <-. cbn [app] in *. pose proof (conj Hl Hc : lines_ok lines) as Hok.
  rewrite forward_written by (done || lia).
  assert (Forall (λ l, line_of_ref (ref_of l) = Ok l) lines) as Href by (eapply Forall_impl; [|exact Hl]; intros l; apply line_of_ref_of).
  split; [|split].
  - exists (ref_of <$> lines). split; [done|]. clear -Href. induction Href as [|l lines Hl _ IH]; [done|]. cbn. rewrite Hl. cbn. by rewrite IH.
  - rewrite reverse_of_forward; [|by apply no_crlf_log|done|lia|lia|].
    + f_equal. rewrite forward_written by (done || lia). 
      generalize (Z.of_nat (length (Ok (E := log_error) <$> (ref_of <$> lines)))). intros n.
      assert (from_end n <$> (Ok <$> (ref_of <$> lines)) = Ok <$> lines) as ->; [|symmetry; apply map_rev].
      clear -Href. induction Href as [|l lines Hl _ IH]; [done|]. rewrite !fmap_cons, IH. f_equal. cbn. by rewrite Hl.
    + rewrite split_written by done. rewrite list.Forall_fmap. rewrite list.Forall_forall in Hfit |- *. intros l Hin. specialize (Hfit l Hin).
      destruct (written_short lines l Hin). cbn. lia.
  - exists (concat (line_text <$> filter (λ l, keep (ref_of l) = true) lines)). split; [rewrite write_lines_ok; [done|by apply (kept_ok lines (λ l, keep (ref_of l)))]|].
    unfold reflog_expire. rewrite forward_written by (done || lia). assert (zlen lines < 2 ^ 64) as Hn.
    { pose proof (written_count lines). lia. }
    rewrite expire_loop_ok by (done || lia). cbn [mbind outcome_bind app]. pose proof (kept_and_removed (λ l, keep (ref_of l)) lines) as Hkr. cbv beta in Hkr.
    destruct (Z.eqb_spec (0 + zlen (filter (λ l, keep (ref_of l) = false) lines)) 0) as [Hz|Hz]; do 2 f_equal; [|lia|lia].
    rewrite filter_all; [done|lia].
Qed.
(** What [reflog_create_or_append] writes is read back as the entry of its arguments, with the committer trimmed, behind those
    the log had, when neither name nor email hold a tab and the message is a single line. *)
Theorem appended_entry_read {BT : BstrTrim} (file file' : bytes) (previous : option ObjectId) (new : ObjectId) (c : SignatureRef) (msg : bytes) :
  append_entry file previous new c msg = Ok file' → (file = [] ∨ ∃ f, file = f ++ [10]) → zlen file' < 2 ^ 64 →
  oid_ok new → (∀ id, previous = Some id → oid_ok id) → no_tab (name (signature_trim c)) → no_tab (email (signature_trim c)) →
  no_tab (time (signature_trim c)) → time_ok (time (signature_trim c)) → no_nl msg → no_cr (msg) →
  forward file' = forward file ++ [Ok {| ref_previous := to_hex (default (null (kind new)) previous); ref_new := to_hex new;
    ref_signature := signature_trim c; ref_message := msg |}].
Proof.
  intros Happ Hfile Hlen Hnew Hprev Htn Hte Htt Htime Hmsg Hcr. set (s := signature_trim c) in *.
  unfold append_entry in Happ. fold s in Happ. set (prev := default (null (kind new)) previous) in *.
  assert (oid_ok prev) as Hpo by (unfold prev; destruct previous as [p|]; [by apply Hprev|apply null_oid_ok]).
  destruct (signature_write_to_cases s (file ++ to_hex prev ++ [32] ++ to_hex new ++ [32])) as [(Hw & Hnm & Hem & _)|(t & Hw & _)]; [|by rewrite Hw in Happ].
  rewrite Hw in Happ. cbn [mbind outcome_bind] in Happ. set (h := head_text (to_hex prev) (to_hex new) s).
  set (body := if bool_decide (msg = []) then h else h ++ 9 :: msg).
  assert (file' = file ++ body ++ [10]) as ->.
  { unfold body, h, head_text. case_bool_decide; cbn [negb] in Happ; injection Happ as <-; rewrite <- ?app_assoc; cbn [app]; rewrite <- ?app_assoc; cbn [app]; rewrite <- ?app_assoc; done. }
  destruct (to_hex_any _ Hpo) as [Hp' _]. destruct (to_hex_any _ Hnew) as [Hn' _].
  assert (no_nl h ∧ no_tab h) as [Hhn Hht] by by apply head_bytes.
  assert (no_nl body) as Hbn by (unfold body; case_bool_decide; [done|]; apply Forall_app; split; [done|]; by apply Forall_cons_2).
  rewrite forward_behind; [|done|done|].
  - f_equal. rewrite (line_decode_text body (to_hex prev) (to_hex new) s msg); try done.
    + rewrite !zlen_app in Hlen. pose proof (zlen_nonneg file). pose proof (zlen_nonneg [10]). lia.
    + unfold body. case_bool_decide as Hm; [right; by subst|by left].
  - unfold body. case_bool_decide as Hm; [|change (9 :: msg) with ([9] ++ msg); rewrite app_assoc; by apply strip_cr_end].
    assert (h = (to_hex prev ++ 32 :: to_hex new ++ 32 :: name s ++ 32 :: 60 :: email s ++ [62]) ++ 32 :: time s) as ->.
    { unfold h, head_text, raw_signature. repeat (rewrite <- app_assoc; cbn [app]). done. }
    apply strip_cr_end; [done|]. apply Forall_cons_2; [done|]. eapply Forall_impl; [|exact Htime]. intros b. unfold is_time_byte. cbn. lia.
Qed.
End Properties.

(** ** Witnesses and examples *)
Lemma trim_start_suffix l : ∃ a, l = a ++ trim_start l.
Proof. induction l as [|b l [a IH]]; [by exists []|]. cbn [trim_start]. destruct (is_ascii_whitespace b); [exists (b :: a); cbn; by rewrite <- IH|by exists []]. Qed.
#[export] Instance ascii_trim : BstrTrim.
Proof.
  refine {| bstr_trim := trim |}. intros l. unfold trim. destruct (trim_start_suffix l) as [a Ha]. set (m := trim_start l) in *.
  destruct (trim_start_suffix (list.reverse m)) as [b Hb]. exists a, (list.reverse b). rewrite Ha. f_equal. rewrite <- reverse_app, <- Hb. by rewrite reverse_involutive.
Defined.
Definition sample_time : Time := {| time_seconds := 1700000000; time_offset := - 5400 |}.
Definition sample_line (msg : bytes) : Line :=
  {| previous_oid := null Sha1; new_oid := null Sha1; signature := {| sig_name := [65]; sig_email := [98]; sig_time := sample_time |}; message := msg |}.
Lemma sample_line_ok msg : no_nl msg → line_ok (sample_line msg).
Proof.
  intros Hm. split; cbn [sample_line previous_oid new_oid signature sig_name sig_email sig_time message]; try apply null_oid_ok; try done.
  - split; apply Forall_singleton; done.
  - split; apply Forall_singleton; done.
  - split; [done|]. by exists (-90).
Qed.
Definition sample_log : bytes := concat (line_text <$> [sample_line [109]; sample_line []]).
Lemma reflog_roundtrip_witness :
  write_lines [sample_line [109]; sample_line []] [] = Ok sample_log ∧ reverse_log sample_log 130 = Ok (Ok <$> [sample_line []; sample_line [109]]).
Proof.
  assert (write_lines [sample_line [109]; sample_line []] [] = Ok sample_log) as Hw by (vm_compute; reflexivity). split; [exact Hw|].
  apply (reflog_roundtrip [sample_line [109]; sample_line []] 130 (λ _, true) sample_log); [| |exact Hw|vm_compute; reflexivity|lia|].
  - repeat (apply Forall_cons_2; [apply sample_line_ok; repeat constructor|]). constructor.
  - repeat (apply Forall_cons_2; [vm_compute; reflexivity|]). constructor.
  - repeat (apply Forall_cons_2; [vm_compute; discriminate|]). constructor.
Defined.
Lemma no_cr_no_crlf l : no_cr l → no_crlf l.
Proof. intros H a b ->. apply Forall_app in H as [_ H]. by apply Forall_cons_1 in H as [H _]. Qed.
Lemma reverse_is_forward_reversed_witness :
  no_crlf sample_log ∧ reverse_log sample_log 130 = Ok (rev (from_end (Z.of_nat (length (forward sample_log))) <$> forward sample_log)).
Proof.
  assert (no_crlf sample_log) as Hcr by (apply no_cr_no_crlf, (bool_decide_unpack _); vm_compute; exact I). split; [exact Hcr|].
  apply (reverse_is_forward_reversed sample_log 130 Hcr); [vm_compute; reflexivity|lia|lia|].
  apply (bool_decide_unpack _). vm_compute. exact I.
Defined.
Lemma reflog_safe_witness : zlen sample_log < 2 ^ 64 - 1 ∧ Forall (λ r, r ≠ Panic) (forward sample_log).
Proof.
  assert (zlen sample_log < 2 ^ 64 - 1) as Hl by (vm_compute; reflexivity). split; [exact Hl|]. apply (reflog_safe sample_log 7 Hl). lia.
Defined.
Definition sample_committer : SignatureRef := {| name := [32; 65]; email := [98]; time := time_text sample_time |}.
Lemma appended_entry_read_witness : ∃ file',
  append_entry sample_log None (null Sha1) sample_committer [109] = Ok file' ∧
  forward file' = forward sample_log ++ [Ok {| ref_previous := to_hex (null Sha1); ref_new := to_hex (null Sha1);
    ref_signature := signature_trim sample_committer; ref_message := [109] |}].
Proof.
  eexists. split; [vm_compute; reflexivity|]. eapply (appended_entry_read sample_log _ None (null Sha1) sample_committer [109]).
  - vm_compute. reflexivity.
  - right. eexists (line_text (sample_line [109]) ++ line_body (sample_line [])). vm_compute. reflexivity.
  - vm_compute. reflexivity.
  - apply null_oid_ok.
  - discriminate.
  - apply (bool_decide_unpack _). vm_compute. exact I.
  - apply (bool_decide_unpack _). vm_compute. exact I.
  - apply (bool_decide_unpack _). vm_compute. exact I.
  - apply (bool_decide_unpack _). vm_compute. exact I.
  - apply (bool_decide_unpack _). vm_compute. exact I.
  - apply (bool_decide_unpack _). vm_compute. exact I.
Defined.
(** A name with a tab is written, but the line is then split inside of the name. *)
Example name_with_tab_not_read : ∃ text,
  line_write_to {| previous_oid := null Sha1; new_oid := null Sha1; signature := {| sig_name := [65; 9; 66]; sig_email := [98]; sig_time := sample_time |}; message := [] |} [] = Ok text
  ∧ line_decode text = Err InvalidReflogSignature.
Proof. eexists. split; [vm_compute; reflexivity|]. vm_compute. reflexivity. Qed.
(** A message of two lines is appended as it is, and the second line is then an entry that cannot be read. *)
Example message_with_newline_appended : ∃ file l e,
  append_entry [] None (null Sha1) sample_committer [97; 10; 98] = Ok file ∧ forward file = [Ok l; Err e].
Proof. eexists _, _, _. split; [vm_compute; reflexivity|]. vm_compute. reflexivity. Qed.
(** The two iterators do not agree on lines that end in CRLF. *)
Example crlf_differs : ∃ a b,
  forward (line_body (sample_line [109]) ++ [13; 10]) = [Ok a] ∧ ref_message a = [109] ∧
  reverse_log (line_body (sample_line [109]) ++ [13; 10]) 200 = Ok [Ok b] ∧ message b = [109; 13].
Proof. eexists _, _. split; [vm_compute; reflexivity|]. split; [reflexivity|]. split; [vm_compute; reflexivity|reflexivity]. Qed.
(** Expiring a log that keeps a line whose offset is above 99 hours panics. *)
Example expire_panics : ∃ l, forward (head_text (to_hex (null Sha1)) (to_hex (null Sha1)) {| name := [65]; email := [98]; time := [49; 32; 43; 57; 57; 57; 57] |}) = [Ok l] ∧
  reflog_expire (head_text (to_hex (null Sha1)) (to_hex (null Sha1)) {| name := [65]; email := [98]; time := [49; 32; 43; 57; 57; 57; 57] |}) (λ _, true) = Panic.
Proof. eexists. split; [vm_compute; reflexivity|]. vm_compute. reflexivity. Qed.
