(* ===== verification/CommitObject.v ===== *)
(** * [gix-object]: commits

    Parsing a commit at once ([from_bytes], by [commit/decode.rs]) and by the iterator
    [CommitRefIter] with its states ([commit/ref_iter.rs]); the parsers of header fields
    they share ([parse.rs]); writing and [size] ([commit/write.rs], [encode.rs]).

    A parser takes the input and returns a value with what is left of it. A parser of a
    header field that fails leaves the input as it was, as the source's does. *)

From S2P Require Import Prelude Hash Actor.

Inductive object_error :=
| DecodeFailed
| InvalidSignature (e : actor_error)
| EmptyHeaderValue
| NewlineInHeaderValue (value : bytes).

(** ** [parse.rs] *)
Definition is_space_or_nl (b : Z) : bool := (b =? 32) || (b =? 10).

(** [name <value>\n]: what is before the first space, if the name is not empty and a
    space ends it, and what is behind *)
Definition field_name (i : bytes) : outcome object_error (Z * bytes) :=
  name_end ← ok_or DecodeFailed (position is_space_or_nl i);
  _ ← ensure (0 <? name_end) DecodeFailed;
  _ ← ensure (bool_decide (get i name_end = Some 32)) DecodeFailed;
  c ← expect (get_from i (name_end + 1));
  Ok (name_end, c).
(** [while c.first() == Some(&b' ')] *)
Fixpoint continuation (fuel : nat) (c : bytes) (continuation_end count : Z) : outcome object_error (Z * Z) :=
  match fuel with
  | O => Panic
  | S fuel =>
      if bool_decide (get c 0 = Some 32) then
        line_end ← ok_or DecodeFailed (position is_nl c);
        c ← expect (get_from c (line_end + 1));
        continuation fuel c (continuation_end + line_end + 1) (count + 1)
      else Ok (continuation_end, count)
  end.
(** [out.push_str(&line[1..])] for every line but the first *)
Fixpoint unfold_lines (lines : list bytes) : outcome object_error bytes :=
  match lines with
  | [] => Ok []
  | line :: lines =>
      tail ← expect (get_from line 1);
      rest ← unfold_lines lines;
      Ok (tail ++ rest)
  end.
Definition any_header_field_multi_line (i : bytes) : outcome object_error ((bytes * bytes) * bytes) :=
  '(name_end, c) ← field_name i;
  first_line_end ← ok_or DecodeFailed (position is_nl c);
  c ← expect (get_from c (first_line_end + 1));
  '(continuation_end, count) ← continuation (S (length i)) c (name_end + 1 + first_line_end + 1) 0;
  _ ← ensure (negb (count =? 0)) DecodeFailed;
  body ← expect (get_range i (name_end + 1) continuation_end);
  match lines_with_terminator body with
  | [] => Panic
  | first :: lines =>
      unfolded ← unfold_lines lines;
      rest ← expect (get_from i continuation_end);
      nm ← expect (get_range i 0 name_end);
      Ok ((nm, first ++ unfolded), rest)
  end.
Definition header_field {T} (i name : bytes) (parse_value : bytes → outcome object_error T) : outcome object_error (T * bytes) :=
  rest ← ok_or DecodeFailed (strip_prefix i name ≫= λ rest, strip_prefix rest [32]);
  nl ← ok_or DecodeFailed (position is_nl rest);
  raw ← expect (get_range rest 0 nl);
  value ← parse_value raw;
  i ← expect (get_from rest (nl + 1));
  Ok (value, i).
Definition any_header_field (i : bytes) : outcome object_error ((bytes * bytes) * bytes) :=
  '(name_end, c) ← field_name i;
  value_end ← ok_or DecodeFailed (position is_nl c);
  value ← expect (get_range c 0 value_end);
  rest ← expect (get_from c (value_end + 1));
  nm ← expect (get_range i 0 name_end);
  Ok ((nm, value), rest).
Definition is_ascii_hexdigit (b : Z) : bool :=
  ((48 <=? b) && (b <=? 57)) || ((97 <=? b) && (b <=? 102)) || ((65 <=? b) && (b <=? 70)).
Definition hex_hash (k : Kind) (i : bytes) : outcome object_error bytes :=
  if negb (zlen i =? len_in_hex k) || negb (forallb is_ascii_hexdigit i) then Err DecodeFailed else Ok i.
Definition signature (i : bytes) : outcome object_error SignatureRef :=
  '(s, rest) ← map_err InvalidSignature (decode i);
  if bool_decide (rest = []) then Ok s else Err DecodeFailed.
Definition signature_raw (i : bytes) : outcome object_error bytes := _ ← signature i; Ok i.

Definition TREE : bytes := [116; 114; 101; 101].
Definition PARENT : bytes := [112; 97; 114; 101; 110; 116].
Definition AUTHOR : bytes := [97; 117; 116; 104; 111; 114].
Definition COMMITTER : bytes := [99; 111; 109; 109; 105; 116; 116; 101; 114].
Definition ENCODING : bytes := [101; 110; 99; 111; 100; 105; 110; 103].

(** ** [commit/decode.rs] *)
Record CommitRef := {
  tree : bytes;
  parents : list bytes;
  author : bytes;
  committer : bytes;
  encoding : option bytes;
  message : bytes;
  extra_headers : list (bytes * bytes);
}.
Definition parse_message (i : bytes) : outcome object_error (bytes * bytes) :=
  rest ← ok_or DecodeFailed (strip_prefix i [10]); Ok (rest, []).
(** An extra header: over several lines, or else on one. *)
Definition extra_header (i : bytes) : outcome object_error ((bytes * bytes) * bytes) :=
  match any_header_field_multi_line i with
  | Ok r => Ok r
  | Err _ => any_header_field i
  | Panic => Panic
  end.
(** [loop { match .. { Ok(x) => xs.push(x), Err(_) => break } }] *)
Fixpoint many {T} (fuel : nat) (parse : bytes → outcome object_error (T * bytes)) (i : bytes) (xs : list T)
    : outcome object_error (list T * bytes) :=
  match fuel with
  | O => Panic
  | S fuel =>
      match parse i with
      | Ok (x, i) => many fuel parse i (xs ++ [x])
      | Err _ => Ok (xs, i)
      | Panic => Panic
      end
  end.
(** An optional field. *)
Definition optional {T} (parse : bytes → outcome object_error (T * bytes)) (i : bytes) : outcome object_error (option T * bytes) :=
  match parse i with
  | Ok (x, i) => Ok (Some x, i)
  | Err _ => Ok (None, i)
  | Panic => Panic
  end.
Definition commit (k : Kind) (i : bytes) : outcome object_error CommitRef :=
  '(tree, i) ← header_field i TREE (hex_hash k);
  '(parents, i) ← many (S (length i)) (λ i, header_field i PARENT (hex_hash k)) i [];
  '(author, i) ← header_field i AUTHOR signature_raw;
  '(committer, i) ← header_field i COMMITTER signature_raw;
  '(encoding, i) ← optional (λ i, header_field i ENCODING Ok) i;
  '(extra_headers, i) ← many (S (length i)) extra_header i [];
  '(message, i) ← parse_message i;
  _ ← ensure (bool_decide (i = [])) DecodeFailed;
  Ok {| tree := tree; parents := parents; author := author; committer := committer;
        encoding := encoding; message := message; extra_headers := extra_headers |}.
Definition from_bytes (data : bytes) (k : Kind) : outcome object_error CommitRef := commit k data.

(** ** [commit/ref_iter.rs] *)
Inductive SignatureKind := Author | Committer.
Inductive State := Tree | Parents | Signature (who : SignatureKind) | Encoding | ExtraHeaders | Message.
Inductive Token :=
| TokenTree (id : ObjectId)
| TokenParent (id : ObjectId)
| TokenAuthor (s : SignatureRef)
| TokenCommitter (s : SignatureRef)
| TokenEncoding (e : bytes)
| TokenExtraHeader (h : bytes * bytes)
| TokenMessage (m : bytes).

Section Iter.
Context {FH : FasterHex} (hash_kind : Kind).

(** [ObjectId::from_hex(..).expect("parsing validation")] *)
Definition expect_id (hex : bytes) : outcome object_error ObjectId :=
  match from_hex hex with Ok id => Ok id | _ => Panic end.
(** The arms of [next_inner_], each with those it falls through to behind it. *)
Definition next_message (i : bytes) : outcome object_error (Token * bytes * State) :=
  '(m, i) ← parse_message i;
  _ ← assert_that (bool_decide (i = []));
  Ok (TokenMessage m, i, Message).
Definition next_extra_headers (i : bytes) : outcome object_error (Token * bytes * State) :=
  if bool_decide (get i 0 = Some 10) then next_message i
  else '(h, i) ← extra_header i; Ok (TokenExtraHeader h, i, ExtraHeaders).
Definition next_encoding (i : bytes) : outcome object_error (Token * bytes * State) :=
  match strip_prefix i (ENCODING ++ [32]) with
  | Some _ => '(e, i) ← header_field i ENCODING Ok; Ok (TokenEncoding e, i, ExtraHeaders)
  | None => next_extra_headers i
  end.
Definition next_signature (who : SignatureKind) (i : bytes) : outcome object_error (Token * bytes * State) :=
  match who with
  | Author => '(s, i) ← header_field i AUTHOR signature; Ok (TokenAuthor s, i, Signature Committer)
  | Committer => '(s, i) ← header_field i COMMITTER signature; Ok (TokenCommitter s, i, Encoding)
  end.
Definition next_inner (state : State) (i : bytes) : outcome object_error (Token * bytes * State) :=
  match state with
  | Tree =>
      '(hex, i) ← header_field i TREE (hex_hash hash_kind);
      id ← expect_id hex; Ok (TokenTree id, i, Parents)
  | Parents =>
      match strip_prefix i (PARENT ++ [32]) with
      | Some _ =>
          '(hex, i) ← header_field i PARENT (hex_hash hash_kind);
          id ← expect_id hex; Ok (TokenParent id, i, Parents)
      | None => next_signature Author i
      end
  | Signature who => next_signature who i
  | Encoding => next_encoding i
  | ExtraHeaders => next_extra_headers i
  | Message => next_message i
  end.
(** All items, up to the first [None]. After an error there is no data left. *)
Fixpoint tokens_from (fuel : nat) (state : State) (data : bytes) : outcome object_error (list (object_error + Token)) :=
  match fuel with
  | O => Panic
  | S fuel =>
      match data with
      | [] => Ok []
      | _ =>
          match next_inner state data with
          | Ok (token, data, state) => rest ← tokens_from fuel state data; Ok (inr token :: rest)
          | Err e => Ok [inl e]
          | Panic => Panic
          end
      end
  end.
Definition iter_tokens (data : bytes) : outcome object_error (list (object_error + Token)) :=
  tokens_from (S (length data)) Tree data.
End Iter.

(** ** [encode.rs], [commit/write.rs] *)
Definition ends_with_nl (l : bytes) : bool := bool_decide (list.last l = Some 10).
Definition header_field_multi_line (name value out : bytes) : bytes :=
  let out := out ++ name ++ [32] in
  let out := match lines_with_terminator value with
             | [] => out
             | line :: lines => foldl (λ out line, out ++ [32] ++ line) (out ++ line) lines
             end in
  if ends_with_nl value then out else out ++ [10].
Definition trusted_header_field (name value out : bytes) : bytes := out ++ name ++ [32] ++ value ++ [10].
Definition write_header_field (name value out : bytes) : outcome object_error bytes :=
  if bool_decide (value = []) then Err EmptyHeaderValue
  else match position is_nl value with
       | Some _ => Err (NewlineInHeaderValue value)
       | None => Ok (trusted_header_field name value out)
       end.

Section Write.
Context {FH : FasterHex}.
(** [encode::trusted_header_id(name, &self.tree(), out)] for the hexadecimal text of an id *)
Definition trusted_header_id (name hex out : bytes) : outcome object_error bytes :=
  id ← expect_id hex; Ok (out ++ name ++ [32] ++ to_hex id ++ [10]).
Fixpoint write_parents (ps : list bytes) (out : bytes) : outcome object_error bytes :=
  match ps with
  | [] => Ok out
  | p :: ps => out ← trusted_header_id PARENT p out; write_parents ps out
  end.
Definition write_to (c : CommitRef) (out : bytes) : outcome object_error bytes :=
  out ← trusted_header_id TREE (tree c) out;
  out ← write_parents (parents c) out;
  let out := trusted_header_field AUTHOR (author c) out in
  let out := trusted_header_field COMMITTER (committer c) out in
  out ← match encoding c with
        | Some e => write_header_field ENCODING e out
        | None => Ok out
        end;
  let out := foldl (λ out '(name, value), header_field_multi_line name value out) out (extra_headers c) in
  Ok (out ++ [10] ++ message c).
Definition header_size (h : bytes * bytes) : Z :=
  zlen h.1 + foldr Z.add 0 ((λ s, zlen s + 1) <$> lines_with_terminator h.2) + (if ends_with_nl h.2 then 0 else 1).
Definition size (c : CommitRef) : outcome object_error Z :=
  id ← expect_id (tree c);
  let hash_in_hex := len_in_hex (kind id) in
  Ok (zlen TREE + 1 + hash_in_hex + 1 + zlen (parents c) * (zlen PARENT + 1 + hash_in_hex + 1) +
      (zlen AUTHOR + 1 + zlen (author c) + 1) + (zlen COMMITTER + 1 + zlen (committer c) + 1) +
      match encoding c with Some e => zlen ENCODING + 1 + zlen e + 1 | None => 0 end +
      foldr Z.add 0 (header_size <$> extra_headers c) + 1 + zlen (message c)).
End Write.

(** ** Lemmas: lines *)
Definition nonl (v : bytes) : Prop := Forall (λ b, is_nl b = false) v.
(** A line and what is behind its end. *)
Definition split_line (i : bytes) : option (bytes * bytes) :=
  match position is_nl i with
  | Some n => Some (take (Z.to_nat n) i, drop (Z.to_nat (n + 1)) i)
  | None => None
  end.
Lemma split_line_app v rest : nonl v → split_line (v ++ 10 :: rest) = Some (v, rest).
Proof.
  intros Hv. unfold split_line. rewrite (position_app is_nl v 10 rest Hv eq_refl). unfold zlen.
  rewrite Nat2Z.id, take_app_length. f_equal. f_equal.
  replace (Z.to_nat (Z.of_nat (length v) + 1)) with (length (v ++ [10])) by (rewrite length_app; cbn; lia).
  change (10 :: rest) with ([10] ++ rest). rewrite app_assoc. apply drop_app_length.
Qed.
Lemma split_line_Some i v rest : split_line i = Some (v, rest) ↔ nonl v ∧ i = v ++ 10 :: rest.
Proof.
  split; [|intros [Hv ->]; by apply split_line_app]. intros H. unfold split_line in H.
  destruct (position is_nl i) as [n|] eqn:E; [|done].
  apply position_Some in E as (a & x & b & -> & <- & Hx & Ha). apply Z.eqb_eq in Hx as ->.
  assert (Hs : split_line (a ++ 10 :: b) = Some (a, b)) by (by apply split_line_app). unfold split_line in Hs.
  rewrite (position_app is_nl a 10 b Ha eq_refl) in Hs. rewrite Hs in H. by injection H as -> ->.
Qed.
(** Slices at the end of a line. *)
Lemma line_slices {E T} i (k : bytes → bytes → outcome E T) (e : E) :
  (nl ← ok_or e (position is_nl i); v ← expect (get_range i 0 nl); rest ← expect (get_from i (nl + 1)); k v rest) =
  match split_line i with Some (v, rest) => k v rest | None => Err e end.
Proof.
  unfold split_line. destruct (position is_nl i) as [n|] eqn:Ep; [|done].
  apply position_Some in Ep as (a & x & b & -> & <- & _ & _). cbn [ok_or mbind outcome_bind].
  assert (zlen (a ++ x :: b) = zlen a + 1 + zlen b) by (rewrite zlen_app, zlen_cons; lia).
  pose proof (zlen_nonneg a). pose proof (zlen_nonneg b).
  rewrite get_range_in by lia. rewrite get_from_in by lia. cbn [expect mbind outcome_bind].
  by rewrite Z.sub_0_r, drop_0.
Qed.

(** The value of a field of this name, and what is behind. *)
Definition field_line (i name : bytes) : option (bytes * bytes) :=
  rest ← strip_prefix i name; rest ← strip_prefix rest [32]; split_line rest.
Lemma field_line_Some i name v rest : field_line i name = Some (v, rest) ↔ nonl v ∧ i = name ++ 32 :: v ++ 10 :: rest.
Proof.
  unfold field_line. split.
  - intros H. destruct (strip_prefix i name) as [r1|] eqn:E1; [|done]. cbn [mbind option_bind] in H.
    destruct (strip_prefix r1 [32]) as [r2|] eqn:E2; [|done]. cbn [mbind option_bind] in H.
    apply strip_prefix_Some in E1 as ->. apply strip_prefix_Some in E2 as ->. by apply split_line_Some in H as [Hv ->].
  - intros [Hv ->].
    assert (strip_prefix (name ++ 32 :: v ++ 10 :: rest) name = Some (32 :: v ++ 10 :: rest)) as -> by (by apply strip_prefix_Some).
    cbn [mbind option_bind].
    assert (strip_prefix (32 :: v ++ 10 :: rest) [32] = Some (v ++ 10 :: rest)) as -> by (by apply strip_prefix_Some).
    by apply split_line_app.
Qed.
Lemma header_field_spec {T} i name (pv : bytes → outcome object_error T) :
  header_field i name pv =
  match field_line i name with
  | Some (v, rest) => x ← pv v; Ok (x, rest)
  | None => Err DecodeFailed
  end.
Proof.
  unfold header_field, field_line. destruct (strip_prefix i name) as [r1|]; [|done]. cbn [mbind option_bind].
  destruct (strip_prefix r1 [32]) as [rest|]; [|done].
  unfold option_bind, split_line. cbn [ok_or mbind outcome_bind].
  destruct (position is_nl rest) as [n|] eqn:Ep; [|done].
  apply position_Some in Ep as (a & x & b & -> & <- & _ & _). cbn [ok_or mbind outcome_bind].
  assert (zlen (a ++ x :: b) = zlen a + 1 + zlen b) by (rewrite zlen_app, zlen_cons; lia).
  pose proof (zlen_nonneg a). pose proof (zlen_nonneg b).
  rewrite get_range_in by lia. cbn [expect mbind outcome_bind]. rewrite Z.sub_0_r, drop_0.
  destruct (pv _); [|done|done]. cbn [mbind outcome_bind]. by rewrite get_from_in by lia.
Qed.
Lemma header_field_app {T} name v rest (pv : bytes → outcome object_error T) : nonl v →
  header_field (name ++ 32 :: v ++ 10 :: rest) name pv = (x ← pv v; Ok (x, rest)).
Proof.
  intros Hv. rewrite header_field_spec.
  by assert (field_line (name ++ 32 :: v ++ 10 :: rest) name = Some (v, rest)) as -> by (by apply field_line_Some).
Qed.
Lemma header_field_inv {T} i name (pv : bytes → outcome object_error T) x rest : header_field i name pv = Ok (x, rest) →
  ∃ v, nonl v ∧ i = name ++ 32 :: v ++ 10 :: rest ∧ pv v = Ok x.
Proof.
  rewrite header_field_spec. intros H. destruct (field_line i name) as [[v r]|] eqn:E; [|done].
  destruct (pv v) as [y| |] eqn:Ev; [|done|done]. injection H as -> ->. apply field_line_Some in E as [Hv ->]. by exists v.
Qed.
Lemma header_field_safe {T} i name (pv : bytes → outcome object_error T) :
  (∀ v, zlen v ≤ zlen i → pv v ≠ Panic) → header_field i name pv ≠ Panic.
Proof.
  intros Hp. rewrite header_field_spec. destruct (field_line i name) as [[v r]|] eqn:E; [|done].
  apply field_line_Some in E as [_ ->]. specialize (Hp v). destruct (pv v); [done|done|]. intros _. apply Hp; [|done].
  rewrite zlen_app, zlen_cons, zlen_app. pose proof (zlen_nonneg name). pose proof (zlen_nonneg (10 :: r)). lia.
Qed.

(** ** Lemmas: extra headers *)
Definition name_ok (n : bytes) : Prop := n ≠ [] ∧ Forall (λ b, is_space_or_nl b = false) n.
Lemma field_name_app n c : name_ok n → field_name (n ++ 32 :: c) = Ok (zlen n, c).
Proof.
  intros [Hn Hf]. unfold field_name. rewrite (position_app is_space_or_nl n 32 c Hf eq_refl). cbn [ok_or mbind outcome_bind].
  assert (0 < zlen n) by (destruct n; [done|]; rewrite zlen_cons; pose proof (zlen_nonneg n); lia).
  assert ((0 <? zlen n) = true) as -> by lia. cbn [ensure mbind outcome_bind].
  rewrite get_app_mid. cbn [mbind outcome_bind ensure bool_decide decide_rel].
  change (32 :: c) with ([32] ++ c). rewrite app_assoc.
  replace (zlen n + 1) with (zlen (n ++ [32])) by (rewrite zlen_app; done). by rewrite get_from_app.
Qed.
Lemma field_name_cases i : (∃ n c, name_ok n ∧ i = n ++ 32 :: c) ∨ field_name i = Err DecodeFailed.
Proof.
  destruct (position is_space_or_nl i) as [k|] eqn:Ep; [|right; unfold field_name; by rewrite Ep].
  apply position_Some in Ep as (n & x & c & -> & <- & Hx & Hn).
  destruct (decide (n = [])) as [->|Hne].
  { right. unfold field_name. rewrite (position_app is_space_or_nl [] x c Hn Hx). done. }
  destruct (decide (x = 32)) as [->|Hx32]; [left; exists n, c; done|].
  right. unfold field_name. rewrite (position_app is_space_or_nl n x c Hn Hx). cbn [ok_or mbind outcome_bind].
  rewrite get_app_mid. rewrite bool_decide_eq_false_2 by congruence. by destruct (0 <? zlen n).
Qed.

(** Continuation lines, as they are in the object and as they are in the value. *)
Definition cont_lines (ls : list bytes) : bytes := concat ((λ l, 32 :: l ++ [10]) <$> ls).
Definition unfolded (ls : list bytes) : bytes := concat ((λ l, l ++ [10]) <$> ls).
Lemma cont_lines_cons l ls : cont_lines (l :: ls) = 32 :: l ++ 10 :: cont_lines ls.
Proof. unfold cont_lines. cbn. by rewrite <- app_assoc. Qed.
Lemma unfolded_cons l ls : unfolded (l :: ls) = l ++ 10 :: unfolded ls.
Proof. unfold unfolded. cbn. by rewrite <- app_assoc. Qed.
Lemma nonl_space l : nonl l → nonl (32 :: l).
Proof. by constructor. Qed.
(** The step of [continuation] at a line. *)
Lemma continuation_line fuel l rest ce cnt : nonl l →
  continuation (S fuel) (32 :: l ++ 10 :: rest) ce cnt = continuation fuel rest (ce + (zlen l + 2)) (cnt + 1).
Proof.
  intros Hl. cbn [continuation]. rewrite bool_decide_eq_true_2 by done.
  change (32 :: l ++ 10 :: rest) with ((32 :: l) ++ 10 :: rest).
  rewrite (position_app is_nl (32 :: l) 10 rest (nonl_space l Hl) eq_refl). cbn [ok_or mbind outcome_bind].
  change (10 :: rest) with ([10] ++ rest). rewrite app_assoc.
  replace (zlen (32 :: l) + 1) with (zlen ((32 :: l) ++ [10])) by (rewrite zlen_app; done).
  rewrite get_from_app. cbn [expect mbind outcome_bind]. rewrite zlen_cons. f_equal. lia.
Qed.
Lemma continuation_app ls rest fuel ce cnt : Forall nonl ls → head rest ≠ Some 32 → (length ls < fuel)%nat →
  continuation fuel (cont_lines ls ++ rest) ce cnt = Ok (ce + zlen (cont_lines ls), cnt + zlen ls).
Proof.
  intros Hls Hr. revert fuel ce cnt. induction Hls as [|l ls Hl Hls IH]; intros fuel ce cnt Hf.
  - destruct fuel as [|fuel]; [cbn in Hf; lia|]. cbn. rewrite bool_decide_eq_false_2 by (by destruct rest).
    unfold zlen; cbn. do 2 f_equal; lia.
  - destruct fuel as [|fuel]; [cbn in Hf; lia|]. rewrite cont_lines_cons. cbn [app]. rewrite <- app_assoc. cbn [app].
    rewrite continuation_line by done. rewrite IH by (cbn in Hf; lia). rewrite !zlen_cons, zlen_app, zlen_cons.
    do 2 f_equal; lia.
Qed.
Lemma continuation_cases fuel c ce cnt : (length c < fuel)%nat →
  (∃ ls rest, Forall nonl ls ∧ head rest ≠ Some 32 ∧ c = cont_lines ls ++ rest) ∨ continuation fuel c ce cnt = Err DecodeFailed.
Proof.
  revert c ce cnt. induction fuel as [|fuel IH]; intros c ce cnt Hf; [lia|].
  destruct c as [|b c]; [left; exists [], []; split; [constructor|]; done|].
  destruct (decide (b = 32)) as [->|Hb]; [|left; exists [], (b :: c); split; [constructor|]; naive_solver].
  destruct (position is_nl (32 :: c)) as [k|] eqn:Ep.
  - apply position_Some in Ep as (a & x & rest & Heq & _ & Hx & Ha). apply Z.eqb_eq in Hx as ->.
    destruct a as [|y l]; [done|]. injection Heq as <- ->. apply list.Forall_cons in Ha as [_ Hl].
    rewrite continuation_line by done.
    destruct (IH rest (ce + (zlen l + 2)) (cnt + 1)) as [(ls & r & Hls & Hr & ->)|H].
    { cbn in Hf. rewrite length_app in Hf. cbn in Hf. lia. }
    + left. exists (l :: ls), r. split; [by constructor|]. split; [done|]. rewrite cont_lines_cons. cbn. by rewrite <- app_assoc.
    + by right.
  - right. cbn [continuation]. rewrite bool_decide_eq_true_2 by done. by rewrite Ep.
Qed.

(** Lines with their ends. *)
Lemma lines_app v r : nonl v → lines_with_terminator (v ++ 10 :: r) = (v ++ [10]) :: lines_with_terminator r.
Proof.
  intros Hv. induction Hv as [|b v Hb Hv IH]; [done|]. cbn [app lines_with_terminator].
  unfold is_nl in Hb. rewrite Hb. cbn [app] in IH. by rewrite IH.
Qed.
Lemma lines_nonl v : nonl v → v ≠ [] → lines_with_terminator v = [v].
Proof.
  intros Hv. induction Hv as [|b v Hb Hv IH]; [done|]. intros _. cbn [lines_with_terminator]. unfold is_nl in Hb. rewrite Hb.
  destruct v as [|b' v]; [done|]. by rewrite IH.
Qed.
Lemma lines_cont ls : Forall nonl ls → lines_with_terminator (cont_lines ls) = (λ l, 32 :: l ++ [10]) <$> ls.
Proof.
  intros Hls. induction Hls as [|l ls Hl Hls IH]; [done|]. rewrite cont_lines_cons.
  change (32 :: l ++ 10 :: cont_lines ls) with ((32 :: l) ++ 10 :: cont_lines ls).
  rewrite lines_app by (by apply nonl_space). rewrite IH. done.
Qed.
Lemma lines_unfolded ls : Forall nonl ls → lines_with_terminator (unfolded ls) = (λ l, l ++ [10]) <$> ls.
Proof.
  intros Hls. induction Hls as [|l ls Hl Hls IH]; [done|]. rewrite unfolded_cons, lines_app, IH by done. done.
Qed.
Lemma unfold_lines_cont ls : unfold_lines ((λ l, 32 :: l ++ [10]) <$> ls) = Ok (unfolded ls).
Proof.
  induction ls as [|l ls IH]; [done|]. cbn [fmap list_fmap unfold_lines].
  change (32 :: l ++ [10]) with ([32] ++ (l ++ [10])). change 1 with (zlen [32]). rewrite get_from_app.
  cbn [expect mbind outcome_bind]. rewrite IH. cbn [mbind outcome_bind]. by rewrite unfolded_cons, <- app_assoc.
Qed.
(** A header over several lines, with [ls] its continuation lines. *)
Lemma multi_line_app n v ls rest : name_ok n → nonl v → Forall nonl ls → ls ≠ [] → head rest ≠ Some 32 →
  any_header_field_multi_line (n ++ 32 :: v ++ 10 :: cont_lines ls ++ rest) = Ok ((n, v ++ 10 :: unfolded ls), rest).
Proof.
  intros Hn Hv Hls Hne Hr. set (i := n ++ 32 :: v ++ 10 :: cont_lines ls ++ rest).
  set (e := zlen n + 1 + zlen v + 1 + zlen (cont_lines ls)).
  assert (Hbody : get_range i (zlen n + 1) e = Some (v ++ 10 :: cont_lines ls)).
  { replace i with ((n ++ [32]) ++ (v ++ 10 :: cont_lines ls) ++ rest) by (unfold i; by rewrite <- !app_assoc).
    apply get_range_app; rewrite ?zlen_app, ?zlen_cons; unfold e, zlen; cbn; lia. }
  assert (Hrest : get_from i e = Some rest).
  { replace i with ((n ++ [32] ++ v ++ 10 :: cont_lines ls) ++ rest) by (unfold i; by rewrite <- !app_assoc).
    replace e with (zlen (n ++ [32] ++ v ++ 10 :: cont_lines ls)); [apply get_from_app|].
    rewrite !zlen_app, zlen_cons; unfold e, zlen; cbn; lia. }
  assert (Hnm : get_range i 0 (zlen n) = Some n) by (apply (get_range_app [] n); unfold zlen; cbn; lia).
  unfold any_header_field_multi_line. assert (field_name i = Ok (zlen n, v ++ 10 :: cont_lines ls ++ rest)) as -> by (by apply field_name_app). cbn [mbind outcome_bind].
  rewrite (position_app is_nl v 10 _ Hv eq_refl). cbn [ok_or mbind outcome_bind].
  change (10 :: cont_lines ls ++ rest) with ([10] ++ cont_lines ls ++ rest). rewrite app_assoc.
  replace (zlen v + 1) with (zlen (v ++ [10])) by (rewrite zlen_app; done). rewrite get_from_app.
  cbn [expect mbind outcome_bind].
  rewrite continuation_app; [|done|done|].
  2:{ unfold i. rewrite length_app. cbn. rewrite length_app. cbn. rewrite length_app.
      assert (length ls ≤ length (cont_lines ls))%nat; [|lia]. clear. induction ls as [|l ls IH]; [done|].
      rewrite cont_lines_cons. cbn. rewrite length_app. cbn. lia. }
  cbn [mbind outcome_bind].
  destruct (Z.eqb_spec (0 + zlen ls) 0) as [H0|_]; [destruct ls; [done|]; rewrite zlen_cons in H0; pose proof (zlen_nonneg ls); lia|].
  cbn [negb ensure mbind outcome_bind].
  fold e. rewrite Hbody. cbn [expect mbind outcome_bind]. rewrite lines_app, lines_cont, unfold_lines_cont by done.
  cbn [mbind outcome_bind]. rewrite Hrest. cbn [expect mbind outcome_bind]. rewrite Hnm. cbn [expect mbind outcome_bind].
  by rewrite <- app_assoc.
Qed.
Lemma multi_line_cases i :
  (∃ n v ls rest, name_ok n ∧ nonl v ∧ Forall nonl ls ∧ ls ≠ [] ∧ head rest ≠ Some 32 ∧
     i = n ++ 32 :: v ++ 10 :: cont_lines ls ++ rest) ∨
  any_header_field_multi_line i = Err DecodeFailed.
Proof.
  destruct (field_name_cases i) as [(n & c & Hn & ->)|H]; [|right; unfold any_header_field_multi_line; by rewrite H].
  destruct (position is_nl c) as [k|] eqn:Ep.
  2:{ right. unfold any_header_field_multi_line. rewrite field_name_app by done. cbn [mbind outcome_bind]. by rewrite Ep. }
  apply position_Some in Ep as (v & x & r & -> & _ & Hx & Hv). apply Z.eqb_eq in Hx as ->.
  assert (Hstep : any_header_field_multi_line (n ++ 32 :: v ++ 10 :: r) =
    '(continuation_end, count) ← continuation (S (length (n ++ 32 :: v ++ 10 :: r))) r (zlen n + 1 + zlen v + 1) 0;
    _ ← ensure (negb (count =? 0)) DecodeFailed;
    body ← expect (get_range (n ++ 32 :: v ++ 10 :: r) (zlen n + 1) continuation_end);
    match lines_with_terminator body with
    | [] => Panic
    | first :: lines =>
        unfolded ← unfold_lines lines;
        rest ← expect (get_from (n ++ 32 :: v ++ 10 :: r) continuation_end);
        nm ← expect (get_range (n ++ 32 :: v ++ 10 :: r) 0 (zlen n));
        Ok ((nm, first ++ unfolded), rest)
    end).
  { unfold any_header_field_multi_line. rewrite field_name_app by done. cbn [mbind outcome_bind].
    rewrite (position_app is_nl v 10 _ Hv eq_refl). cbn [ok_or mbind outcome_bind].
    assert (get_from (v ++ 10 :: r) (zlen v + 1) = Some r) as ->; [|done].
    change (10 :: r) with ([10] ++ r). rewrite app_assoc.
    replace (zlen v + 1) with (zlen (v ++ [10])) by (rewrite zlen_app; done). apply get_from_app. }
  rewrite Hstep. clear Hstep. set (i := n ++ 32 :: v ++ 10 :: r).
  destruct (continuation_cases (S (length i)) r (zlen n + 1 + zlen v + 1) 0) as [(ls & rest & Hls & Hr & ->)|H].
  { unfold i. rewrite length_app. cbn. rewrite length_app. cbn. lia. }
  2:{ right. by rewrite H. }
  destruct (decide (ls = [])) as [->|Hne]; [|left; by exists n, v, ls, rest].
  right. rewrite continuation_app; [done|done|done|cbn; lia].
Qed.
(** A header on one line. *)
Lemma one_line_app n v rest : name_ok n → nonl v → any_header_field (n ++ 32 :: v ++ 10 :: rest) = Ok ((n, v), rest).
Proof.
  intros Hn Hv. unfold any_header_field. rewrite field_name_app by done. cbn [mbind outcome_bind].
  rewrite (line_slices (v ++ 10 :: rest)
    (λ value r, nm ← expect (get_range (n ++ 32 :: v ++ 10 :: rest) 0 (zlen n)); Ok ((nm, value), r))).
  rewrite split_line_app by done. replace (n ++ 32 :: v ++ 10 :: rest) with ([] ++ n ++ (32 :: v ++ 10 :: rest)) by done.
  by rewrite get_range_app by (unfold zlen; cbn; lia).
Qed.
Lemma one_line_cases i :
  (∃ n v rest, name_ok n ∧ nonl v ∧ i = n ++ 32 :: v ++ 10 :: rest) ∨ any_header_field i = Err DecodeFailed.
Proof.
  destruct (field_name_cases i) as [(n & c & Hn & ->)|H]; [|right; unfold any_header_field; by rewrite H].
  destruct (position is_nl c) as [k|] eqn:Ep.
  - apply position_Some in Ep as (v & x & r & -> & _ & Hx & Hv). apply Z.eqb_eq in Hx as ->. left. by exists n, v, r.
  - right. unfold any_header_field. rewrite field_name_app by done. cbn [mbind outcome_bind]. by rewrite Ep.
Qed.

(** ** The text of a header *)
Definition raw_header (h : bytes * bytes) : bytes := header_field_multi_line h.1 h.2 [].
(** A value: on one line without its end, or on several lines with theirs *)
Definition value_ok (v : bytes) : Prop :=
  nonl v ∨ ∃ first ls, nonl first ∧ Forall nonl ls ∧ ls ≠ [] ∧ v = first ++ 10 :: unfolded ls.
Definition header_ok (h : bytes * bytes) : Prop := name_ok h.1 ∧ value_ok h.2.
Lemma ends_with_nl_app v : ends_with_nl (v ++ [10]) = true.
Proof. unfold ends_with_nl. rewrite last_snoc. by apply bool_decide_eq_true_2. Qed.
Lemma ends_with_nl_nonl v : nonl v → ends_with_nl v = false.
Proof.
  intros Hv. unfold ends_with_nl. apply bool_decide_eq_false_2. intros Hl. apply last_Some in Hl as [v' ->].
  apply Forall_app in Hv as [_ Hv]. by inversion Hv.
Qed.
Lemma unfolded_ends ls : ls ≠ [] → ∃ u, unfolded ls = u ++ [10].
Proof.
  induction ls as [|l ls IH]; [done|]. intros _. rewrite unfolded_cons. destruct ls as [|l' ls]; [by exists l|].
  destruct IH as [u Hu]; [done|]. exists (l ++ 10 :: u). rewrite Hu. by rewrite <- ?app_assoc.
Qed.
Lemma foldl_lines lines out : foldl (λ out line, out ++ [32] ++ line) out lines = out ++ concat ((λ l, 32 :: l) <$> lines).
Proof.
  revert out. induction lines as [|l lines IH]; intros out; cbn; [by rewrite app_nil_r|]. rewrite IH. by rewrite <- ?app_assoc.
Qed.
Lemma header_field_multi_line_out n v out : header_field_multi_line n v out = out ++ raw_header (n, v).
Proof.
  unfold raw_header, header_field_multi_line. cbn [fst snd app].
  destruct (lines_with_terminator v) as [|l ls]; destruct (ends_with_nl v); rewrite ?foldl_lines, <- ?app_assoc; done.
Qed.
Lemma raw_header_one n v : nonl v → raw_header (n, v) = n ++ 32 :: v ++ [10].
Proof.
  intros Hv. unfold raw_header, header_field_multi_line. cbn [fst snd app]. rewrite ends_with_nl_nonl by done.
  destruct (decide (v = [])) as [->|Hne]; [cbn [lines_with_terminator]; by rewrite <- app_assoc|]. rewrite lines_nonl by done. cbn [foldl].
  by rewrite <- !app_assoc.
Qed.
Lemma raw_header_multi n v ls : nonl v → Forall nonl ls → ls ≠ [] →
  raw_header (n, v ++ 10 :: unfolded ls) = n ++ 32 :: v ++ 10 :: cont_lines ls.
Proof.
  intros Hv Hls Hne. unfold raw_header, header_field_multi_line. cbn [fst snd app].
  assert (ends_with_nl (v ++ 10 :: unfolded ls) = true) as ->.
  { destruct (unfolded_ends ls Hne) as [u ->]. change (10 :: u ++ [10]) with ((10 :: u) ++ [10]). rewrite app_assoc. apply ends_with_nl_app. }
  rewrite lines_app, lines_unfolded by done. rewrite foldl_lines. rewrite <- list_fmap_compose.
  unfold cont_lines, compose. by rewrite <- !app_assoc.
Qed.

(** ** Lemmas: sequences of fields *)
Lemma header_line_inj n v r n' v' r' : name_ok n → name_ok n' → nonl v → nonl v' →
  n ++ 32 :: v ++ 10 :: r = n' ++ 32 :: v' ++ 10 :: r' → n = n' ∧ v = v' ∧ r = r'.
Proof.
  intros Hn Hn' Hv Hv' H. pose proof (field_name_app n (v ++ 10 :: r) Hn) as H1.
  rewrite H, field_name_app in H1 by done. injection H1 as Hl Hc. 
  assert (Some (v', r') = Some (v, r)) as [= -> ->] by (by rewrite <- !split_line_app, Hc).
  by apply app_inv_tail in H.
Qed.
Lemma raw_header_nonempty h r : header_ok h → ∃ b t, raw_header h ++ r = b :: t ∧ b ≠ 32 ∧ b ≠ 10.
Proof.
  destruct h as [n v]. intros [[Hne Hn] Hv]. unfold raw_header. cbn [fst snd] in *.
  assert (∃ t, header_field_multi_line n v [] ++ r = n ++ t) as [t ->].
  { destruct Hv as [Hv|(f & ls & Hf & Hls & Hl & ->)].
    - pose proof (raw_header_one n v Hv) as H. unfold raw_header in H. cbn [fst snd] in H. rewrite H, <- app_assoc. by eexists.
    - pose proof (raw_header_multi n f ls Hf Hls Hl) as H. unfold raw_header in H. cbn [fst snd] in H. rewrite H, <- app_assoc. by eexists. }
  destruct n as [|b n]; [done|]. apply list.Forall_cons in Hn as [Hb _]. exists b, (n ++ t). split; [done|].
  unfold is_space_or_nl in Hb. lia.
Qed.
Lemma extra_header_app h rest : header_ok h → head rest ≠ Some 32 → extra_header (raw_header h ++ rest) = Ok (h, rest).
Proof.
  destruct h as [n v]. intros [Hn [Hv|(f & ls & Hf & Hls & Hl & Hv)]] Hr; cbn [fst snd] in *; unfold extra_header.
  - rewrite raw_header_one by done. rewrite <- app_assoc. cbn [app]. rewrite <- app_assoc. cbn [app].
    destruct (multi_line_cases (n ++ 32 :: v ++ 10 :: rest)) as [(n' & v' & ls & r & Hn' & Hv' & Hls & Hne & Hr' & Heq)| ->].
    + apply header_line_inj in Heq as (-> & -> & ->); [|done..]. destruct ls as [|l ls]; [done|]. by destruct Hr.
    + by apply one_line_app.
  - subst v. rewrite raw_header_multi by done. rewrite <- app_assoc. cbn [app]. rewrite <- app_assoc. cbn [app].
    by rewrite multi_line_app.
Qed.
Lemma extra_header_cases i : (∃ h rest, extra_header i = Ok (h, rest) ∧ header_ok h ∧ i = raw_header h ++ rest) ∨ extra_header i = Err DecodeFailed.
Proof.
  unfold extra_header. destruct (multi_line_cases i) as [(n & v & ls & r & Hn & Hv & Hls & Hne & Hr & ->)| ->].
  - left. rewrite multi_line_app by done. eexists _, _. split; [done|]. split; [split; [done|right; by exists v, ls]|].
    rewrite raw_header_multi by done. rewrite <- app_assoc. cbn [app]. by rewrite <- app_assoc.
  - destruct (one_line_cases i) as [(n & v & r & Hn & Hv & ->)| ->]; [|by right].
    left. rewrite one_line_app by done. eexists _, _. split; [done|]. split; [split; [done|by left]|].
    rewrite raw_header_one by done. rewrite <- app_assoc. cbn [app]. by rewrite <- app_assoc.
Qed.

Section Many.
Context {T : Type} (parse : bytes → outcome object_error (T * bytes)) (raw : T → bytes) (ok : T → Prop) (stop : bytes → Prop).
Context (parse_cases : ∀ i, (∃ x r, parse i = Ok (x, r) ∧ ok x ∧ i = raw x ++ r) ∨ ∃ e, parse i = Err e).
Context (parse_app : ∀ x r, ok x → stop r → parse (raw x ++ r) = Ok (x, r)).
Context (raw_stop : ∀ x r, ok x → stop (raw x ++ r) ∧ raw x ≠ []).
Lemma many_cases fuel i xs : (length i < fuel)%nat →
  ∃ zs r e, many fuel parse i xs = Ok (xs ++ zs, r) ∧ Forall ok zs ∧ i = concat (raw <$> zs) ++ r ∧ parse r = Err e.
Proof using parse_cases raw_stop.
  clear parse_app. revert i xs. induction fuel as [|fuel IH]; intros i xs Hf; [lia|]. cbn [many].
  destruct (parse_cases i) as [(x & r & -> & Hx & ->)|[e He]].
  - destruct (IH r (xs ++ [x])) as (zs & r' & e & -> & Hzs & -> & He).
    { destruct (raw_stop x [] Hx) as [_ Hne]. rewrite length_app in Hf. destruct (raw x); [done|]. cbn in Hf. lia. }
    exists (x :: zs), r', e. rewrite <- app_assoc. split; [done|]. split; [by constructor|]. split; [|done]. cbn. by rewrite <- app_assoc.
  - rewrite He. exists [], i, e. rewrite app_nil_r. by split; [|split; [constructor|]].
Qed.
Lemma many_app fuel zs r xs e : Forall ok zs → stop r → parse r = Err e → (length (concat (raw <$> zs) ++ r) < fuel)%nat →
  many fuel parse (concat (raw <$> zs) ++ r) xs = Ok (xs ++ zs, r).
Proof using parse_app raw_stop.
  clear parse_cases. intros Hzs Hr He. revert fuel xs. induction Hzs as [|z zs Hz Hzs IH]; intros fuel xs Hf.
  - destruct fuel as [|fuel]; [lia|]. cbn. rewrite He. by rewrite app_nil_r.
  - destruct fuel as [|fuel]; [lia|]. cbn [fmap list_fmap concat many] in *. rewrite <- app_assoc in *.
    rewrite parse_app; [|done|].
    + rewrite IH; [by rewrite <- app_assoc|]. destruct (raw_stop z [] Hz) as [_ Hne]. rewrite length_app in Hf. destruct (raw z); [done|]. cbn in Hf. lia.
    + destruct Hzs as [|z' zs Hz' Hzs]; [done|]. cbn. rewrite <- app_assoc. by apply raw_stop.
Qed.
End Many.

(** ** The text of a commit *)
Definition hex_ok (k : Kind) (h : bytes) : Prop := zlen h = len_in_hex k ∧ Forall (λ b, is_ascii_hexdigit b = true) h.
Definition signature_ok (s : bytes) : Prop := nonl s ∧ ∃ x, signature s = Ok x.
Definition raw_parent (p : bytes) : bytes := PARENT ++ 32 :: p ++ [10].
Definition raw_encoding (e : option bytes) : bytes := match e with Some e => ENCODING ++ 32 :: e ++ [10] | None => [] end.
(** Behind the parents, and behind the signatures *)
Definition raw_rest (c : CommitRef) : bytes := concat (raw_header <$> extra_headers c) ++ 10 :: message c.
Definition raw_signed (c : CommitRef) : bytes :=
  AUTHOR ++ 32 :: author c ++ 10 :: COMMITTER ++ 32 :: committer c ++ 10 :: raw_encoding (encoding c) ++ raw_rest c.
Definition raw_commit (c : CommitRef) : bytes :=
  TREE ++ 32 :: tree c ++ 10 :: concat (raw_parent <$> parents c) ++ raw_signed c.
(** A header [encoding] directly behind the signatures is the encoding. *)
Definition encoding_ok (e : option bytes) (hs : list (bytes * bytes)) : Prop :=
  match e with
  | Some e => nonl e
  | None => match hs with [] => True | h :: _ => h.1 ≠ ENCODING end
  end.
Record commit_ok (k : Kind) (c : CommitRef) : Prop := {
  ok_tree : hex_ok k (tree c);
  ok_parents : Forall (hex_ok k) (parents c);
  ok_author : signature_ok (author c);
  ok_committer : signature_ok (committer c);
  ok_encoding : encoding_ok (encoding c) (extra_headers c);
  ok_headers : Forall header_ok (extra_headers c);
}.

(** ** Lemmas: values *)
Lemma forallb_Forall_true (f : Z → bool) l : forallb f l = true ↔ Forall (λ x, f x = true) l.
Proof. induction l as [|x l IH]; cbn; [done|]. by rewrite list.Forall_cons, andb_true_iff, IH. Qed.
Lemma hex_hash_cases k h : (hex_ok k h ∧ hex_hash k h = Ok h) ∨ hex_hash k h = Err DecodeFailed.
Proof.
  unfold hex_hash, hex_ok. rewrite <- forallb_Forall_true.
  destruct (Z.eqb_spec (zlen h) (len_in_hex k)), (forallb is_ascii_hexdigit h); cbn; auto.
Qed.
Lemma hex_hash_ok k h : hex_ok k h → hex_hash k h = Ok h.
Proof.
  intros [Hl Hh]. apply forallb_Forall_true in Hh. unfold hex_hash. by rewrite Hl, Z.eqb_refl, Hh.
Qed.
Lemma hex_ok_nonl k h : hex_ok k h → nonl h.
Proof. intros [_ H]. eapply Forall_impl; [|exact H]. cbn. intros b. unfold is_ascii_hexdigit, is_nl. lia. Qed.
Lemma signature_safe i : zlen i < 2 ^ 64 → signature i ≠ Panic.
Proof.
  intros Hi. unfold signature. pose proof (decode_safe i Hi). destruct (decode i) as [[s r]| |]; cbn; [|done|done].
  by case_bool_decide.
Qed.
Lemma signature_raw_Ok i x : signature_raw i = Ok x ↔ x = i ∧ ∃ s, signature i = Ok s.
Proof. unfold signature_raw. destruct (signature i); cbn; naive_solver. Qed.
Lemma header_field_cases {T} i name (pv : bytes → outcome object_error T) :
  (∀ v, zlen v ≤ zlen i → pv v ≠ Panic) →
  (∃ v x r, nonl v ∧ pv v = Ok x ∧ i = name ++ 32 :: v ++ 10 :: r ∧ header_field i name pv = Ok (x, r)) ∨
  ∃ e, header_field i name pv = Err e.
Proof.
  intros Hp. pose proof (header_field_safe i name pv Hp). destruct (header_field i name pv) as [[x r]|e|] eqn:E; [|eauto|done].
  left. destruct (header_field_inv _ _ _ _ _ E) as (v & Hv & -> & Hx). by exists v, x, r.
Qed.
Lemma raw_header_shape h : header_ok h → ∃ v r, nonl v ∧ raw_header h = h.1 ++ 32 :: v ++ 10 :: r.
Proof.
  destruct h as [n v]. intros [Hn [Hv|(f & ls & Hf & Hls & Hl & Hv)]]; cbn [fst snd] in *.
  - exists v, []. split; [done|]. by apply raw_header_one.
  - subst v. exists f, (cont_lines ls). split; [done|]. by apply raw_header_multi.
Qed.
Lemma extra_header_stop m : extra_header (10 :: m) = Err DecodeFailed.
Proof.
  destruct (extra_header_cases (10 :: m)) as [(h & r & _ & Hh & Heq)|H]; [|done].
  destruct (raw_header_nonempty h r Hh) as (b & t & Hr & _ & Hb). rewrite Hr in Heq. congruence.
Qed.
Lemma no_encoding hs m : Forall header_ok hs → encoding_ok None hs →
  ∃ e, header_field (concat (raw_header <$> hs) ++ 10 :: m) ENCODING Ok = Err e.
Proof.
  intros Hhs He.
  destruct (header_field_cases (concat (raw_header <$> hs) ++ 10 :: m) ENCODING Ok) as [(v & x & r & Hv & _ & Heq & _)|H]; [done| |done].
  destruct Hhs as [|h hs Hh Hhs]; [done|]. exfalso. apply He. cbn in Heq. rewrite <- app_assoc in Heq.
  destruct (raw_header_shape h Hh) as (v' & r' & Hv' & Hr). rewrite Hr in Heq. rewrite <- !app_assoc in Heq. cbn in Heq.
  rewrite <- app_assoc in Heq. cbn [app] in Heq.
  apply (header_line_inj h.1 v' _ ENCODING v r) in Heq as (-> & _); [done|apply Hh| |done|done].
  split; [done|]. by repeat constructor.
Qed.
Lemma has_encoding hs m h : header_ok h → h.1 = ENCODING → ∃ x, header_field (concat (raw_header <$> h :: hs) ++ m) ENCODING Ok = Ok x.
Proof.
  intros Hh Hn. destruct (raw_header_shape h Hh) as (v & r & Hv & Hr). cbn. rewrite Hr, Hn, <- !app_assoc. cbn [app].
  rewrite <- !app_assoc. cbn [app]. rewrite header_field_app by done. cbn. by eexists.
Qed.

(** ** [from_bytes] accepts the texts of commits *)
Lemma parent_cases k i :
  (∃ p r, header_field i PARENT (hex_hash k) = Ok (p, r) ∧ hex_ok k p ∧ i = raw_parent p ++ r) ∨
  ∃ e, header_field i PARENT (hex_hash k) = Err e.
Proof.
  destruct (header_field_cases i PARENT (hex_hash k)) as [(v & x & r & Hv & Hx & -> & He)|H]; [|left|by right].
  { intros v _. by destruct (hex_hash_cases k v) as [[_ ->]| ->]. }
  destruct (hex_hash_cases k v) as [[Hok Hh]|Hh]; [|congruence]. rewrite Hh in Hx. injection Hx as <-.
  exists v, r. split; [done|]. split; [done|]. unfold raw_parent. rewrite <- app_assoc. cbn. by rewrite <- app_assoc.
Qed.
Lemma parent_app k p r : hex_ok k p → header_field (raw_parent p ++ r) PARENT (hex_hash k) = Ok (p, r).
Proof.
  intros Hp. unfold raw_parent. rewrite <- app_assoc. cbn [app]. rewrite <- app_assoc. cbn [app].
  rewrite header_field_app by (by eapply hex_ok_nonl). by rewrite hex_hash_ok.
Qed.
Lemma not_parent k t : header_field (AUTHOR ++ t) PARENT (hex_hash k) = Err DecodeFailed.
Proof.
  rewrite header_field_spec. destruct (field_line _ PARENT) as [[v r]|] eqn:E; [|done]. by apply field_line_Some in E as [_ E].
Qed.
Lemma many_parents_app k ps t : Forall (hex_ok k) ps →
  many (S (length (concat (raw_parent <$> ps) ++ AUTHOR ++ t))) (λ i, header_field i PARENT (hex_hash k))
    (concat (raw_parent <$> ps) ++ AUTHOR ++ t) [] = Ok (ps, AUTHOR ++ t).
Proof.
  intros Hps. apply (many_app _ raw_parent (hex_ok k) (λ _, True)) with (e := DecodeFailed); [| |done|done| |lia].
  - intros p r Hp _. by apply parent_app.
  - intros p r Hp. by split.
  - apply not_parent.
Qed.
Lemma many_headers_app hs m : Forall header_ok hs →
  many (S (length (concat (raw_header <$> hs) ++ 10 :: m))) extra_header (concat (raw_header <$> hs) ++ 10 :: m) [] = Ok (hs, 10 :: m).
Proof.
  intros Hhs. apply (many_app _ raw_header header_ok (λ r, head r ≠ Some 32)) with (e := DecodeFailed); [| |done|done| |lia].
  - intros h r. apply extra_header_app.
  - intros h r Hh. destruct (raw_header_nonempty h r Hh) as (b & t & -> & Hb & _). split; [cbn; congruence|].
    destruct (raw_header_shape h Hh) as (v & r' & _ & ->). by destruct h.1.
  - apply extra_header_stop.
Qed.
Lemma signature_field_app name s r : signature_ok s → header_field (name ++ 32 :: s ++ 10 :: r) name signature_raw = Ok (s, r).
Proof.
  intros [Hs Hx]. rewrite header_field_app by done. by assert (signature_raw s = Ok s) as -> by (by apply signature_raw_Ok).
Qed.
Lemma optional_encoding c : encoding_ok (encoding c) (extra_headers c) → Forall header_ok (extra_headers c) →
  optional (λ i, header_field i ENCODING Ok) (raw_encoding (encoding c) ++ raw_rest c) = Ok (encoding c, raw_rest c).
Proof.
  intros He Hh. unfold optional, raw_rest. destruct (encoding c) as [e|]; cbn [raw_encoding].
  - rewrite <- app_assoc. cbn [app]. rewrite <- app_assoc. cbn [app]. by rewrite header_field_app.
  - cbn [app]. by destruct (no_encoding (extra_headers c) (message c) Hh He) as [e ->].
Qed.
Lemma parse_message_nl m : parse_message (10 :: m) = Ok (m, []).
Proof. unfold parse_message. by assert (strip_prefix (10 :: m) [10] = Some m) as -> by (by apply strip_prefix_Some). Qed.
Lemma parse_message_cases i : (∃ m, i = 10 :: m) ∨ parse_message i = Err DecodeFailed.
Proof.
  unfold parse_message. destruct (strip_prefix i [10]) as [m|] eqn:E; [|by right]. apply strip_prefix_Some in E as ->. left. by exists m.
Qed.
Lemma commit_app k c : commit_ok k c → commit k (raw_commit c) = Ok c.
Proof.
  intros [Ht Hp Ha Hc He Hh]. unfold commit, raw_commit.
  rewrite header_field_app by (by eapply hex_ok_nonl). rewrite hex_hash_ok by done. cbn [mbind outcome_bind].
  unfold raw_signed. rewrite many_parents_app by done. cbn [mbind outcome_bind].
  rewrite signature_field_app by done. cbn [mbind outcome_bind].
  rewrite signature_field_app by done. cbn [mbind outcome_bind].
  rewrite optional_encoding by done. cbn [mbind outcome_bind]. unfold raw_rest. rewrite many_headers_app by done.
  cbn [mbind outcome_bind]. rewrite parse_message_nl. by destruct c.
Qed.
Lemma zlen_field name v r : zlen v ≤ zlen (name ++ 32 :: v ++ 10 :: r) ∧ zlen r ≤ zlen (name ++ 32 :: v ++ 10 :: r).
Proof.
  rewrite zlen_app, zlen_cons, zlen_app, zlen_cons. pose proof (zlen_nonneg name). pose proof (zlen_nonneg v). pose proof (zlen_nonneg r). lia.
Qed.
Lemma signature_field_cases name i : zlen i < 2 ^ 64 →
  (∃ s r, header_field i name signature_raw = Ok (s, r) ∧ signature_ok s ∧ i = name ++ 32 :: s ++ 10 :: r ∧ zlen r < 2 ^ 64) ∨
  ∃ e, header_field i name signature_raw = Err e.
Proof.
  intros Hi. destruct (header_field_cases i name signature_raw) as [(v & x & r & Hv & Hx & Heq & He)|H]; [|left|by right].
  { intros v Hv H. pose proof (signature_safe v ltac:(lia)). unfold signature_raw in H. by destruct (signature v). }
  apply signature_raw_Ok in Hx as [-> Hx]. exists v, r. split; [done|]. split; [done|]. split; [done|].
  subst i. pose proof (zlen_field name v r). lia.
Qed.
(** The parts behind the signatures. *)
Lemma rest_cases i : 
  (∃ e hs m, optional (λ i, header_field i ENCODING Ok) i = Ok (e, concat (raw_header <$> hs) ++ 10 :: m) ∧
     i = raw_encoding e ++ concat (raw_header <$> hs) ++ 10 :: m ∧ encoding_ok e hs ∧ Forall header_ok hs) ∨
  ∃ e i1 hs i2, optional (λ i, header_field i ENCODING Ok) i = Ok (e, i1) ∧
     many (S (length i1)) extra_header i1 [] = Ok (hs, i2) ∧ parse_message i2 = Err DecodeFailed.
Proof.
  assert (∃ e i1, optional (λ i, header_field i ENCODING Ok) i = Ok (e, i1) ∧ i = raw_encoding e ++ i1 ∧
     match e with Some e => nonl e | None => ∃ x, header_field i1 ENCODING Ok = Err x end) as (e & i1 & Ho & Hi & Hopt).
  { unfold optional. destruct (header_field_cases i ENCODING Ok) as [(v & x & r & Hv & [= <-] & -> & ->)|[x Hx]]; [done| |].
    - exists (Some v), r. split; [done|]. split; [|done]. cbn [raw_encoding]. rewrite <- app_assoc. cbn [app]. by rewrite <- app_assoc.
    - exists None, i. rewrite Hx. naive_solver. }
  rewrite Ho. destruct (many_cases extra_header raw_header header_ok (λ _, True)) with (fuel := S (length i1)) (i := i1) (xs := @nil (bytes * bytes))
    as (hs & i2 & x & Hm & Hhs & Hi1 & _); [| |lia|].
  { intros j. destruct (extra_header_cases j) as [?|?]; [by left|right; eauto]. }
  { intros h r Hh. split; [done|]. destruct (raw_header_shape h Hh) as (v & r' & _ & ->). by destruct h.1. }
  destruct (parse_message_cases i2) as [[m ->]|Hpm]; [left|right; by exists e, i1, hs, i2].
  exists e, hs, m. rewrite Hi1. split; [done|]. split; [by rewrite Hi, Hi1|]. split; [|done].
  destruct e as [e|]; [done|]. destruct hs as [|h hs]; [done|]. cbn. intros Heq.
  destruct (has_encoding hs (10 :: m) h) as [y Hy]; [by inversion Hhs|done|]. destruct Hopt as [x' Hx']. congruence.
Qed.
Lemma commit_cases k data : zlen data < 2 ^ 64 →
  (∃ c, commit k data = Ok c ∧ data = raw_commit c ∧ commit_ok k c) ∨ ∃ e, commit k data = Err e.
Proof.
  intros Hd. unfold commit at 2.
  destruct (header_field_cases data TREE (hex_hash k)) as [(t & x & i1 & _ & Hx & Hdata & ->)|[e ->]]; [| |right; by exists e].
  { intros v _. by destruct (hex_hash_cases k v) as [[_ ->]| ->]. }
  destruct (hex_hash_cases k t) as [[Ht Hh]|Hh]; [|congruence]. rewrite Hh in Hx. injection Hx as <-. cbn [mbind outcome_bind].
  destruct (many_cases (λ i, header_field i PARENT (hex_hash k)) raw_parent (hex_ok k) (λ _, True))
    with (fuel := S (length i1)) (i := i1) (xs := @nil bytes) as (ps & i2 & e & -> & Hps & Hi1 & _); [apply parent_cases|done|lia|].
  cbn [mbind outcome_bind app].
  assert (zlen i2 < 2 ^ 64).
  { pose proof (zlen_field TREE t i1) as [_ Hl]. rewrite <- Hdata in Hl. pose proof (zlen_nonneg (concat (raw_parent <$> ps))).
    rewrite Hi1, zlen_app in Hl. lia. }
  destruct (signature_field_cases AUTHOR i2) as [(a & i3 & -> & Ha & Hi2 & ?)|[x ->]]; [done| |right; by exists x]. cbn [mbind outcome_bind].
  destruct (signature_field_cases COMMITTER i3) as [(c & i4 & -> & Hc & Hi3 & ?)|[x ->]]; [done| |right; by exists x]. cbn [mbind outcome_bind].
  destruct (rest_cases i4) as [(en & hs & m & -> & Hi4 & Hen & Hhs)|(en & i5 & hs & i6 & -> & Hm & Hpm)]; cbn [mbind outcome_bind].
  2:{ right. rewrite Hm. cbn [mbind outcome_bind]. rewrite Hpm. by eexists. }
  left. set (cm := {| tree := t; parents := ps; author := a; committer := c; encoding := en; message := m; extra_headers := hs |}).
  assert (Hraw : data = raw_commit cm) by (subst data i1 i2 i3 i4; done).
  assert (Hok : commit_ok k cm) by (by constructor).
  exists cm. split; [|done]. rewrite Hraw. by apply commit_app.
Qed.

(** ** Writing *)
Definition to_ascii_lowercase (b : Z) : Z := if (65 <=? b) && (b <=? 90) then b + 32 else b.
Definition lower_hex (h : bytes) : bytes := (to_ascii_lowercase <$> h : list Z).
(** The commit with its ids in lower case *)
Definition lower_ids (c : CommitRef) : CommitRef :=
  {| tree := lower_hex (tree c); parents := (lower_hex <$> parents c : list (list Z)); author := author c;
     committer := committer c; encoding := encoding c; message := message c; extra_headers := extra_headers c |}.
(** The number of headers without a value *)
Definition empty_values (c : CommitRef) : Z := zlen (filter (λ h : bytes * bytes, h.2 = []) (extra_headers c)).

Lemma hex_digits h : Forall (λ b, is_ascii_hexdigit b = true) h →
  ∃ ds, mapM hex_val h = Some ds ∧ Forall is_nibble ds ∧ hex_digit <$> ds = lower_hex h ∧ length ds = length h.
Proof.
  induction 1 as [|b h Hb Hh (ds & Hm & Hds & Hd & Hl)]; [by exists []|].
  assert (∃ d, hex_val b = Some d ∧ is_nibble d ∧ hex_digit d = to_ascii_lowercase b) as (d & Hv & Hn & Hx).
  { unfold is_ascii_hexdigit in Hb. unfold hex_val, is_nibble, hex_digit, to_ascii_lowercase. zb; try lia; eexists; split; try done; zb; lia. }
  exists (d :: ds). cbn. rewrite Hv. cbn. rewrite Hm. cbn. unfold lower_hex in Hd. rewrite Hx, Hd, Hl. by split; [|split; [constructor|]].
Qed.
Lemma lower_hexdigit b : is_ascii_hexdigit b = true → is_ascii_hexdigit (to_ascii_lowercase b) = true.
Proof. unfold is_ascii_hexdigit, to_ascii_lowercase. zb; lia. Qed.
Lemma hex_ok_lower k h : hex_ok k h → hex_ok k (lower_hex h).
Proof.
  intros [Hl Hh]. unfold lower_hex. split; [unfold zlen in *; by rewrite length_fmap|]. apply Forall_fmap.
  eapply Forall_impl; [|exact Hh]. intros b. apply lower_hexdigit.
Qed.
Lemma raw_commit_lower_ok k c : commit_ok k c → commit_ok k (lower_ids c).
Proof.
  intros [Ht Hp Ha Hc He Hh]. constructor; cbn; try done; [by apply hex_ok_lower|].
  apply Forall_fmap. eapply Forall_impl; [|exact Hp]. intros p. apply hex_ok_lower.
Qed.

Section WriteLemmas.
Context {FH : FasterHex}.
(** An id that passed [hex_hash] is an id, whose text is the same in lower case. *)
Lemma expect_id_ok k h : hex_ok k h →
  ∃ id, expect_id h = Ok id ∧ oid_ok id ∧ kind id = k ∧ to_hex id = lower_hex h.
Proof.
  intros [Hl Hh]. destruct (hex_digits h Hh) as (ds & Hm & Hds & Hd & Hlen).
  assert (Hev : Nat.Even (length h)) by (apply zlen_even; rewrite Hl; by destruct k).
  assert (Hnib : nibbles (from_nibbles ds) = ds) by (apply nibbles_from_nibbles; [by rewrite Hlen|done]).
  assert (Hb : bytes_ok (from_nibbles ds)) by (apply nibbles_bytes_ok; by rewrite Hnib).
  assert (Hdec : hex_decode h = Some (from_nibbles ds)) by (rewrite hex_decode_law, Hm by done; done).
  assert (Hlb : zlen (from_nibbles ds) = len_in_bytes k).
  { pose proof (length_nibbles (from_nibbles ds)) as H. rewrite Hnib, Hlen in H. unfold zlen in *. rewrite len_hex_bytes in Hl. lia. }
  assert (Hhex : hex_encode (from_nibbles ds) = lower_hex h) by (rewrite hex_encode_law, Hnib by done; done).
  unfold expect_id, from_hex. rewrite Hdec, Hl. destruct k; cbn; eexists; (split; [reflexivity|]); by split.
Qed.
Lemma trusted_header_id_ok k n h out : hex_ok k h →
  trusted_header_id n h out = Ok (out ++ n ++ 32 :: lower_hex h ++ [10]).
Proof. intros Hh. destruct (expect_id_ok k h Hh) as (id & Hid & _ & _ & Ht). unfold trusted_header_id. rewrite Hid. cbn. by rewrite Ht. Qed.
Lemma write_parents_ok k ps out : Forall (hex_ok k) ps →
  write_parents ps out = Ok (out ++ concat (raw_parent <$> (lower_hex <$> ps))).
Proof.
  intros Hps. revert out. induction Hps as [|p ps Hp Hps IH]; intros out; cbn [write_parents fmap list_fmap concat]; [by rewrite app_nil_r|].
  rewrite (trusted_header_id_ok k) by done. cbn [mbind outcome_bind]. rewrite IH. unfold raw_parent. by rewrite <- !app_assoc.
Qed.
Lemma write_headers_ok hs out :
  foldl (λ out '(name, value), header_field_multi_line name value out) out hs = out ++ concat (raw_header <$> hs).
Proof.
  revert out. induction hs as [|[n v] hs IH]; intros out; cbn [foldl fmap list_fmap concat]; [by rewrite app_nil_r|].
  rewrite header_field_multi_line_out, IH. by rewrite <- app_assoc.
Qed.
Lemma write_header_field_ok n v out : nonl v → v ≠ [] → write_header_field n v out = Ok (out ++ n ++ 32 :: v ++ [10]).
Proof.
  intros Hv Hne. unfold write_header_field. rewrite bool_decide_eq_false_2 by done. apply position_None in Hv. by rewrite Hv.
Qed.
Lemma commit_write_to_ok k c out : commit_ok k c → encoding c ≠ Some [] → write_to c out = Ok (out ++ raw_commit (lower_ids c)).
Proof.
  intros [Ht Hp Ha Hc He Hh] Hen. unfold write_to.
  rewrite (trusted_header_id_ok k) by done. cbn [mbind outcome_bind]. rewrite (write_parents_ok k) by done. cbn [mbind outcome_bind].
  unfold raw_commit, raw_signed, raw_rest, trusted_header_field. destruct c as [t ps a cm e m hs].
  cbn [lower_ids tree parents author committer encoding message extra_headers] in *.
  destruct e as [e|]; cbn [raw_encoding encoding_ok] in *.
  - rewrite write_header_field_ok by congruence. cbn [mbind outcome_bind]. rewrite write_headers_ok. f_equal. by rewrite <- !app_assoc; cbn [app]; rewrite <- !app_assoc.
  - cbn [mbind outcome_bind]. rewrite write_headers_ok. f_equal. by rewrite <- !app_assoc; cbn [app]; rewrite <- !app_assoc.
Qed.
Lemma commit_write_to_empty k c out : commit_ok k c → encoding c = Some [] → write_to c out = Err EmptyHeaderValue.
Proof.
  intros [Ht Hp Ha Hc He Hh] Hen. unfold write_to.
  rewrite (trusted_header_id_ok k) by done. cbn [mbind outcome_bind]. rewrite (write_parents_ok k) by done. cbn [mbind outcome_bind].
  by rewrite Hen.
Qed.
End WriteLemmas.

(** ** [size] *)
Lemma zlen_concat {A} (f : A → bytes) (l : list A) : zlen (concat (f <$> l)) = foldr Z.add 0 ((λ x, zlen (f x)) <$> l).
Proof. induction l as [|x l IH]; [done|]. cbn. by rewrite zlen_app, IH. Qed.
Lemma header_size_ok h : header_ok h → header_size h + (if bool_decide (h.2 = []) then 1 else 0) = zlen (raw_header h).
Proof.
  destruct h as [n v]. intros [_ [Hv|(f & ls & Hf & Hls & Hl & Hv)]]; cbn [fst snd] in *; unfold header_size; cbn [fst snd].
  - rewrite raw_header_one, ends_with_nl_nonl by done. rewrite zlen_app, zlen_cons, zlen_app. change (zlen [10]) with 1.
    case_bool_decide as He; [subst v; cbn [lines_with_terminator fmap list_fmap foldr]; change (zlen (@nil Z)) with 0; lia|].
    rewrite lines_nonl by done. cbn [fmap list_fmap foldr]. lia.
  - subst v. rewrite raw_header_multi by done. rewrite lines_app, lines_unfolded by done.
    assert (ends_with_nl (f ++ 10 :: unfolded ls) = true) as ->.
    { destruct (unfolded_ends ls Hl) as [u ->]. change (10 :: u ++ [10]) with ((10 :: u) ++ [10]). rewrite app_assoc. apply ends_with_nl_app. }
    rewrite bool_decide_eq_false_2 by (by destruct f). cbn [fmap list_fmap foldr].
    rewrite !zlen_app, !zlen_cons, !zlen_app, !zlen_cons. change (zlen (@nil Z)) with 0. unfold cont_lines. rewrite zlen_concat.
    assert (foldr Z.add 0 ((λ s, zlen s + 1) <$> ((λ l, l ++ [10]) <$> ls)) = foldr Z.add 0 ((λ l, zlen (32 :: l ++ [10])) <$> ls)) as <-; [|lia].
    rewrite <- list_fmap_compose. f_equal. apply list_fmap_ext. intros _ l _. unfold compose. rewrite zlen_cons. lia.
Qed.
Lemma headers_size_ok hs : Forall header_ok hs →
  foldr Z.add 0 (header_size <$> hs) + zlen (filter (λ h : bytes * bytes, h.2 = []) hs) = zlen (concat (raw_header <$> hs)).
Proof.
  induction 1 as [|h hs Hh Hhs IH]; [done|]. cbn [fmap list_fmap foldr concat]. rewrite zlen_app, <- IH, <- header_size_ok by done.
  rewrite filter_cons. case_bool_decide; case_decide; try done; rewrite ?zlen_cons; lia.
Qed.
Lemma parents_size k ps : Forall (hex_ok k) ps → zlen (concat (raw_parent <$> ps)) = zlen ps * (zlen PARENT + 1 + len_in_hex k + 1).
Proof.
  induction 1 as [|p ps [Hp _] Hps IH]; [done|]. cbn [fmap list_fmap concat]. rewrite zlen_app, IH, zlen_cons. unfold raw_parent.
  rewrite zlen_app, zlen_cons, zlen_app, Hp. change (zlen [10]) with 1. lia.
Qed.
Lemma size_ok {FH : FasterHex} k c : commit_ok k c → ∃ n, size c = Ok n ∧ n + empty_values c = zlen (raw_commit c).
Proof.
  intros [Ht Hp Ha Hc He Hh]. unfold size. destruct (expect_id_ok k (tree c) Ht) as (id & -> & _ & Hk & _). cbn [mbind outcome_bind]. rewrite Hk.
  eexists. split; [done|]. unfold empty_values, raw_commit, raw_signed, raw_rest.
  pose proof (headers_size_ok _ Hh). repeat (rewrite zlen_app || rewrite zlen_cons).
  rewrite (parents_size k) by done. destruct Ht as [-> _].
  assert (zlen (raw_encoding (encoding c)) = match encoding c with Some e => zlen ENCODING + 1 + zlen e + 1 | None => 0 end) as ->; [|lia].
  destruct (encoding c); [|done]. cbn [raw_encoding]. rewrite zlen_app, zlen_cons, zlen_app. change (zlen [10]) with 1. lia.
Qed.

(** C7: a commit is parsed from bytes exactly when they are its text: the tree, the parents,
    the signatures, the encoding, the headers, those over several lines folded, an empty line and the
    message, where the ids are of the hash asked for, the signatures are those of [gix-actor], and a
    header [encoding] in the place of the encoding is the encoding. Nothing is lost and nothing is
    accepted beyond this text. No bytes are a panic. *)
Theorem commit_decode_exact (data : bytes) (k : Kind) (Hd : zlen data < 2 ^ 64) :
  from_bytes data k ≠ Panic ∧ ∀ c, from_bytes data k = Ok c ↔ data = raw_commit c ∧ commit_ok k c.
Proof.
  unfold from_bytes. destruct (commit_cases k data Hd) as [(c & Hc & Hraw & Hok)|[e He]].
  - rewrite Hc. split; [done|]. intros c'. split; [by intros [= <-]|]. intros [Heq Hok']. apply commit_app in Hok'. rewrite <- Heq in Hok'. congruence.
  - rewrite He. split; [done|]. intros c. split; [done|]. intros [-> Hok]. apply commit_app in Hok. congruence.
Qed.

(** C8: a parsed commit is written as the bytes it was parsed from, with its ids in lower case,
    and what is written is parsed again; only a commit whose encoding is empty is refused.
    [size] is the number of these bytes less one for every extra header without a value. *)
Theorem commit_write {FH : FasterHex} (data out : bytes) (k : Kind) (c : CommitRef)
    (Hd : zlen data < 2 ^ 64) (Hc : from_bytes data k = Ok c) :
  (encoding c = Some [] → write_to c out = Err EmptyHeaderValue) ∧
  (encoding c ≠ Some [] → write_to c out = Ok (out ++ raw_commit (lower_ids c)) ∧
     from_bytes (raw_commit (lower_ids c)) k = Ok (lower_ids c) ∧
     (lower_ids c = c → write_to c out = Ok (out ++ data))) ∧
  ∃ n, size c = Ok n ∧ n + empty_values c = zlen data.
Proof.
  destruct (commit_cases k data Hd) as [(c' & Hc' & -> & Hok)|[e He]]; unfold from_bytes in *; [|congruence].
  rewrite Hc in Hc'. injection Hc' as <-. split; [by apply (commit_write_to_empty k)|]. split.
  - intros He. rewrite (commit_write_to_ok k) by done. split; [done|]. split; [by apply commit_app, raw_commit_lower_ok|]. by intros ->.
  - by apply (size_ok k).
Qed.

(** A commit with one parent, a header over two lines and one without a value *)
Definition sample_id (d : Z) : bytes := replicate 40 d.
Definition sample_sig : bytes := [65; 32; 60; 97; 62; 32; 49; 32; 43; 48].
Definition sample_commit : CommitRef :=
  {| tree := sample_id 65; parents := [sample_id 97]; author := sample_sig; committer := sample_sig; encoding := Some [120];
     message := [109; 10]; extra_headers := [([103], [98; 10; 99; 10; 100; 10]); ([104], [])] |}.
Definition sample_data : bytes := raw_commit sample_commit.
Lemma sample_decoded : from_bytes sample_data Sha1 = Ok sample_commit.
Proof. vm_compute. reflexivity. Qed.
Lemma sample_data_len : zlen sample_data < 2 ^ 64.
Proof. vm_compute. exact eq_refl. Qed.
Lemma commit_decode_exact_witness : commit_ok Sha1 sample_commit.
Proof.
  destruct (commit_decode_exact sample_data Sha1 sample_data_len) as [_ H]. exact (proj2 (proj1 (H sample_commit) sample_decoded)).
Defined.
Lemma commit_write_witness :
  write_to (FH := faster_hex_model) sample_commit [1] = Ok ([1] ++ raw_commit (lower_ids sample_commit)) ∧
  ∃ n, size (FH := faster_hex_model) sample_commit = Ok n ∧ n + 1 = zlen sample_data.
Proof.
  destruct (commit_write (FH := faster_hex_model) sample_data [1] Sha1 sample_commit sample_data_len sample_decoded) as (_ & H & Hn).
  split; [|exact Hn]. apply H. discriminate.
Defined.

(** ** Lemmas: the iterator *)
Lemma name_inj n c n' c' : name_ok n → name_ok n' → n ++ 32 :: c = n' ++ 32 :: c' → n = n' ∧ c = c'.
Proof.
  intros Hn Hn' H. pose proof (field_name_app n c Hn) as H1. rewrite H, field_name_app in H1 by done. injection H1 as _ ->.
  by apply app_inv_tail in H.
Qed.
Lemma ENCODING_ok : name_ok ENCODING.
Proof. split; [done|]. by repeat constructor. Qed.
Lemma no_encoding_prefix hs m : Forall header_ok hs → encoding_ok None hs →
  strip_prefix (concat (raw_header <$> hs) ++ 10 :: m) (ENCODING ++ [32]) = None.
Proof.
  intros Hhs He. apply strip_prefix_None. intros r Heq. destruct Hhs as [|h hs Hh Hhs]; [done|]. apply He.
  destruct (raw_header_shape h Hh) as (v & r' & _ & Hr). cbn [fmap list_fmap concat] in Heq. rewrite Hr, <- !app_assoc in Heq. cbn [app] in Heq.
  apply (name_inj h.1 _ ENCODING) in Heq as [-> _]; [done|apply Hh|apply ENCODING_ok].
Qed.

Section IterLemmas.
Context {FH : FasterHex} (k : Kind).
Definition commit_tokens (t : ObjectId) (ps : list ObjectId) (a cm : SignatureRef) (c : CommitRef) : list Token :=
  TokenTree t :: (TokenParent <$> ps) ++ TokenAuthor a :: TokenCommitter cm ::
  match encoding c with Some e => [TokenEncoding e] | None => [] end ++
  (TokenExtraHeader <$> extra_headers c) ++ [TokenMessage (message c)].

(** An item, and the items behind it *)
Lemma commit_tokens_step fuel st data t data' st' ts : data ≠ [] → next_inner k st data = Ok (t, data', st') →
  tokens_from k fuel st' data' = Ok (inr <$> ts) → tokens_from k (S fuel) st data = Ok (inr <$> t :: ts).
Proof. intros Hd Hn Ht. destruct data as [|b data]; [done|]. cbn [tokens_from]. rewrite Hn, Ht. done. Qed.
Lemma next_message_nl m : next_message (10 :: m) = Ok (TokenMessage m, [], Message).
Proof. unfold next_message. by rewrite parse_message_nl. Qed.
Lemma tokens_headers hs m fuel : Forall header_ok hs → (length (concat (raw_header <$> hs) ++ 10%Z :: m) < fuel)%nat →
  tokens_from k fuel ExtraHeaders (concat (raw_header <$> hs) ++ 10 :: m) = Ok (inr <$> (TokenExtraHeader <$> hs) ++ [TokenMessage m]).
Proof.
  intros Hhs. revert fuel. induction Hhs as [|h hs Hh Hhs IH]; intros fuel Hf.
  - destruct fuel as [|[|fuel]]; [cbn in Hf; lia..|]. cbn [fmap list_fmap concat app].
    apply (commit_tokens_step _ _ _ _ [] Message []); [done| |done]. apply next_message_nl.
  - destruct fuel as [|fuel]; [lia|]. cbn [fmap list_fmap concat app] in *. rewrite <- app_assoc in *.
    destruct (raw_header_nonempty h (concat (raw_header <$> hs) ++ 10 :: m) Hh) as (b & t & Hr & Hb1 & Hb2).
    eapply commit_tokens_step; [by rewrite Hr| |apply IH; rewrite length_app in Hf].
    + cbn [next_inner]. unfold next_extra_headers. rewrite bool_decide_eq_false_2 by (rewrite Hr; change (get (b :: t) 0) with (Some b); congruence).
      rewrite extra_header_app; [done|done|]. destruct Hhs as [|h' hs Hh' Hhs]; [done|].
      cbn [fmap list_fmap concat]. rewrite <- app_assoc. destruct (raw_header_nonempty h' (concat (raw_header <$> hs) ++ 10 :: m) Hh') as (b' & t' & -> & ? & _).
      cbn. congruence.
    + destruct (raw_header_shape h Hh) as (v & r & _ & Hs). rewrite Hs, length_app in Hf. cbn in Hf. lia.
Qed.
(** States that fall through *)
Lemma tokens_no_encoding data fuel : strip_prefix data (ENCODING ++ [32]) = None →
  tokens_from k fuel Encoding data = tokens_from k fuel ExtraHeaders data.
Proof. intros H. destruct fuel, data as [|b data]; try done. cbn [tokens_from next_inner]. unfold next_encoding. by rewrite H. Qed.
Lemma tokens_no_parent data fuel : strip_prefix data (PARENT ++ [32]) = None →
  tokens_from k fuel Parents data = tokens_from k fuel (Signature Author) data.
Proof. intros H. destruct fuel, data as [|b data]; try done. cbn [tokens_from next_inner]. by rewrite H. Qed.
Lemma starts_with_name name r : ∃ s, strip_prefix (name ++ 32 :: r) (name ++ [32]) = Some s.
Proof. exists r. apply strip_prefix_Some. by rewrite <- app_assoc. Qed.
Lemma tokens_rest c fuel : encoding_ok (encoding c) (extra_headers c) → Forall header_ok (extra_headers c) →
  (length (raw_encoding (encoding c) ++ raw_rest c) < fuel)%nat →
  tokens_from k fuel Encoding (raw_encoding (encoding c) ++ raw_rest c) =
  Ok (inr <$> match encoding c with Some e => [TokenEncoding e] | None => [] end ++ (TokenExtraHeader <$> extra_headers c) ++ [TokenMessage (message c)]).
Proof.
  intros He Hh Hf. unfold raw_rest in *. destruct (encoding c) as [e|]; cbn [raw_encoding app] in *.
  - destruct fuel as [|fuel]; [lia|]. rewrite <- app_assoc in *. cbn [app] in *. rewrite <- app_assoc in *. cbn [app] in *.
    eapply commit_tokens_step; [done| |apply tokens_headers; [done|]].
    + cbn [next_inner]. unfold next_encoding. destruct (starts_with_name ENCODING (e ++ 10 :: concat (raw_header <$> extra_headers c) ++ 10 :: message c)) as [s ->].
      by rewrite header_field_app.
    + rewrite !length_app in Hf. cbn in Hf. rewrite length_app in Hf. cbn in Hf. lia.
  - rewrite tokens_no_encoding by (by apply no_encoding_prefix). by apply tokens_headers.
Qed.
Lemma signature_field_Ok name s r x : nonl s → signature s = Ok x → header_field (name ++ 32 :: s ++ 10 :: r) name signature = Ok (x, r).
Proof. intros Hs Hx. rewrite header_field_app by done. by rewrite Hx. Qed.
Lemma tokens_signed c a cm fuel : commit_ok k c → signature (author c) = Ok a → signature (committer c) = Ok cm →
  (length (raw_signed c) < fuel)%nat →
  tokens_from k fuel (Signature Author) (raw_signed c) =
  Ok (inr <$> TokenAuthor a :: TokenCommitter cm :: match encoding c with Some e => [TokenEncoding e] | None => [] end ++
       (TokenExtraHeader <$> extra_headers c) ++ [TokenMessage (message c)]).
Proof.
  intros [Ht Hp [Ha1 _] [Hc1 _] He Hh] Ha Hc Hf. unfold raw_signed in *. repeat (rewrite length_app in Hf || cbn [length] in Hf).
  destruct fuel as [|[|fuel]]; [lia..|].
  eapply commit_tokens_step; [done|cbn [next_inner next_signature]; by rewrite (signature_field_Ok _ _ _ a)|].
  eapply commit_tokens_step; [done|cbn [next_inner next_signature]; by rewrite (signature_field_Ok _ _ _ cm)|].
  apply tokens_rest; [done|done|]. rewrite length_app. lia.
Qed.
Lemma tokens_parents c ps ids a cm fuel : commit_ok k c → signature (author c) = Ok a → signature (committer c) = Ok cm →
  Forall (hex_ok k) ps → Forall2 (λ h id, expect_id h = Ok id) ps ids →
  (length (concat (raw_parent <$> ps) ++ raw_signed c) < fuel)%nat →
  tokens_from k fuel Parents (concat (raw_parent <$> ps) ++ raw_signed c) =
  Ok (inr <$> (TokenParent <$> ids) ++ TokenAuthor a :: TokenCommitter cm :: match encoding c with Some e => [TokenEncoding e] | None => [] end ++
       (TokenExtraHeader <$> extra_headers c) ++ [TokenMessage (message c)]).
Proof.
  intros Hok Ha Hc Hps Hids. revert fuel. induction Hids as [|h id ps ids Hid Hids IH]; intros fuel Hf.
  - cbn [fmap list_fmap concat app]. rewrite tokens_no_parent; [by apply tokens_signed|]. apply strip_prefix_None. by intros r.
  - apply list.Forall_cons in Hps as [Hh Hps]. cbn [fmap list_fmap concat app] in *. rewrite <- app_assoc in *.
    destruct fuel as [|fuel]; [lia|]. eapply commit_tokens_step; [done| |apply IH; [done|]].
    + cbn [next_inner]. assert (∃ s, strip_prefix (raw_parent h ++ concat (raw_parent <$> ps) ++ raw_signed c) (PARENT ++ [32]) = Some s) as [s ->].
      { unfold raw_parent. rewrite <- app_assoc. apply starts_with_name. }
      rewrite parent_app by done. cbn [mbind outcome_bind]. by rewrite Hid.
    + rewrite length_app in Hf. assert (0 < length (raw_parent h))%nat by (unfold raw_parent; cbn; lia). lia.
Qed.
Lemma tokens_commit c : commit_ok k c → ∃ t ids a cm,
  expect_id (tree c) = Ok t ∧ Forall2 (λ h id, expect_id h = Ok id) (parents c) ids ∧
  signature (author c) = Ok a ∧ signature (committer c) = Ok cm ∧
  iter_tokens k (raw_commit c) = Ok (inr <$> commit_tokens t ids a cm c).
Proof.
  intros Hok. pose proof Hok as [Ht Hp [_ [a Ha]] [_ [cm Hc]] _ _].
  destruct (expect_id_ok k (tree c) Ht) as (t & Hid & _).
  assert (∃ ids, Forall2 (λ h id, expect_id h = Ok id) (parents c) ids) as [ids Hids].
  { induction Hp as [|p ps Hp Hps [ids IH]]; [by exists []|]. destruct (expect_id_ok k p Hp) as (id & Hi & _).
    exists (id :: ids). by constructor. }
  exists t, ids, a, cm. do 4 (split; [done|]). unfold iter_tokens, raw_commit, commit_tokens.
  eapply commit_tokens_step; [done| |apply tokens_parents; [done..|]].
  - cbn [next_inner]. rewrite header_field_app by (by eapply hex_ok_nonl). rewrite hex_hash_ok by done. cbn [mbind outcome_bind]. by rewrite Hid.
  - repeat (rewrite length_app || cbn [length]). lia.
Qed.

(** A step consumes bytes and does not panic. *)
Lemma field_step {T} name (pv : bytes → outcome object_error T) i : zlen i < 2 ^ 64 → (∀ v, zlen v < 2 ^ 64 → pv v ≠ Panic) →
  (∃ v x r, nonl v ∧ i = name ++ 32 :: v ++ 10 :: r ∧ pv v = Ok x ∧ header_field i name pv = Ok (x, r) ∧ (length r < length i)%nat) ∨
  ∃ e, header_field i name pv = Err e.
Proof.
  intros Hi Hp. destruct (header_field_cases i name pv) as [(v & x & r & Hv & Hx & -> & He)|H]; [|left|by right].
  { intros v Hv. apply Hp. lia. }
  exists v, x, r. do 4 (split; [done|]). rewrite length_app. cbn. rewrite length_app. cbn. lia.
Qed.
Lemma extra_step i : (∃ h r, extra_header i = Ok (h, r) ∧ header_ok h ∧ i = raw_header h ++ r ∧ (length r < length i)%nat) ∨ extra_header i = Err DecodeFailed.
Proof.
  destruct (extra_header_cases i) as [(h & r & He & Hh & ->)|H]; [left|by right]. exists h, r. do 3 (split; [done|]).
  destruct (raw_header_shape h Hh) as (v & r' & _ & ->). rewrite !length_app. cbn. lia.
Qed.
Lemma hex_hash_safe h : hex_hash k h ≠ Panic.
Proof. by destruct (hex_hash_cases k h) as [[_ ->]| ->]. Qed.
End IterLemmas.

Section IterInverse.
Context {FH : FasterHex} (k : Kind).
Lemma extra_headers_step data : zlen data < 2 ^ 64 →
  (∃ t data' st', next_extra_headers data = Ok (t, data', st') ∧ (data ≠ [] → (length data' < length data)%nat)) ∨ ∃ e, next_extra_headers data = Err e.
Proof.
  intros _. unfold next_extra_headers. case_bool_decide as H10.
  - destruct (parse_message_cases data) as [[m ->]|Hm]; [left|right; unfold next_message; rewrite Hm; by eexists].
    rewrite next_message_nl. eexists _, _, _. split; [done|]. cbn. lia.
  - destruct (extra_step data) as [(h & r & -> & _ & _ & Hl)| ->]; [left|right; by eexists]. eexists _, _, _. by split.
Qed.
Lemma signature_step who data : zlen data < 2 ^ 64 →
  (∃ t data' st', next_signature who data = Ok (t, data', st') ∧ (length data' < length data)%nat) ∨ ∃ e, next_signature who data = Err e.
Proof.
  intros Hd. destruct who; cbn [next_signature].
  - destruct (field_step AUTHOR signature data Hd) as [(v & x & r & _ & _ & _ & -> & Hl)|[e ->]];
      [apply signature_safe|left; by eexists _, _, _|right; by eexists].
  - destruct (field_step COMMITTER signature data Hd) as [(v & x & r & _ & _ & _ & -> & Hl)|[e ->]];
      [apply signature_safe|left; by eexists _, _, _|right; by eexists].
Qed.
Lemma id_step name data : zlen data < 2 ^ 64 →
  (∃ h id r, header_field data name (hex_hash k) = Ok (h, r) ∧ hex_ok k h ∧ data = name ++ 32 :: h ++ 10 :: r ∧ expect_id h = Ok id ∧ (length r < length data)%nat) ∨
  ∃ e, header_field data name (hex_hash k) = Err e.
Proof.
  intros Hd. destruct (field_step name (hex_hash k) data Hd) as [(v & x & r & _ & Heq & Hx & He & Hl)|H]; [|left|by right].
  { intros v _. apply hex_hash_safe. }
  destruct (hex_hash_cases k v) as [[Hok Hh]|Hh]; [|congruence]. rewrite Hh in Hx. injection Hx as <-.
  destruct (expect_id_ok k v Hok) as (id & Hid & _). by exists v, id, r.
Qed.
Lemma next_cases st data : zlen data < 2 ^ 64 → data ≠ [] →
  (∃ t data' st', next_inner k st data = Ok (t, data', st') ∧ (length data' < length data)%nat) ∨ ∃ e, next_inner k st data = Err e.
Proof.
  intros Hd Hne. destruct st as [| |who| | |]; cbn [next_inner].
  - destruct (id_step TREE data Hd) as [(h & id & r & -> & _ & _ & Hid & Hl)|[e ->]]; [left|right; by eexists].
    cbn [mbind outcome_bind]. rewrite Hid. by eexists _, _, _.
  - destruct (strip_prefix data (PARENT ++ [32])); [|by apply signature_step].
    destruct (id_step PARENT data Hd) as [(h & id & r & -> & _ & _ & Hid & Hl)|[e ->]]; [left|right; by eexists].
    cbn [mbind outcome_bind]. rewrite Hid. by eexists _, _, _.
  - by apply signature_step.
  - unfold next_encoding. destruct (strip_prefix data (ENCODING ++ [32])).
    + destruct (field_step ENCODING Ok data Hd) as [(v & x & r & _ & _ & _ & -> & Hl)|[e ->]]; [done|left; by eexists _, _, _|right; by eexists].
    + destruct (extra_headers_step data Hd) as [(t & d & s & H & Hl)|H]; [left|by right]. exists t, d, s. auto.
  - destruct (extra_headers_step data Hd) as [(t & d & s & H & Hl)|H]; [left|by right]. exists t, d, s. auto.
  - destruct (parse_message_cases data) as [[m ->]|Hm]; [left|right; unfold next_message; rewrite Hm; by eexists].
    rewrite next_message_nl. eexists _, _, _. split; [done|]. cbn. lia.
Qed.
Lemma tokens_safe fuel st data : zlen data < 2 ^ 64 → (length data < fuel)%nat → tokens_from k fuel st data ≠ Panic.
Proof.
  revert st data. induction fuel as [|fuel IH]; intros st data Hd Hf; [lia|]. cbn [tokens_from].
  destruct data as [|b data]; [done|]. destruct (next_cases st (b :: data) Hd) as [(t & d & s & -> & Hl)|[e ->]]; [done| |done].
  specialize (IH s d). destruct (tokens_from k fuel s d); [done|done|]. apply IH; [unfold zlen in *|]; lia.
Qed.

(** Items that end with the message *)
Definition complete (ts : list Token) : Prop := ∃ m, list.last ts = Some (TokenMessage m).
Lemma complete_tail t ts : complete (t :: ts) → (∀ m, t ≠ TokenMessage m) → complete ts.
Proof. intros [m Hm] Ht. destruct ts as [|t' ts]; [|by exists m]. injection Hm as ->. by destruct (Ht m). Qed.
Lemma tokens_inv fuel st data ts : tokens_from k fuel st data = Ok (inr <$> ts) → complete ts →
  ∃ f t data' st' ts', fuel = S f ∧ next_inner k st data = Ok (t, data', st') ∧ ts = t :: ts' ∧ tokens_from k f st' data' = Ok (inr <$> ts').
Proof.
  intros Ht Hc. destruct fuel as [|fuel]; [done|]. cbn [tokens_from] in Ht. destruct ts as [|t ts]; [by destruct Hc|].
  destruct data as [|b data]; [done|].
  destruct (next_inner k st (b :: data)) as [[[t' d] s]|e|] eqn:En; [|done|done].
  destruct (tokens_from k fuel s d) as [rest| |] eqn:Er; [|done|done]. cbn [mbind outcome_bind fmap list_fmap] in Ht. injection Ht as -> ->.
  exists fuel, t, d, s, ts. done.
Qed.
Lemma tokens_headers_inv fuel data ts : tokens_from k fuel ExtraHeaders data = Ok (inr <$> ts) → complete ts →
  ∃ hs m, Forall header_ok hs ∧ data = concat (raw_header <$> hs) ++ 10 :: m.
Proof.
  revert data ts. induction fuel as [|fuel IH]; intros data ts Ht Hc; [done|].
  destruct (tokens_inv _ _ _ _ Ht Hc) as (f & t & d & s & ts' & [= <-] & Hn & -> & Hts). cbn [next_inner] in Hn. unfold next_extra_headers in Hn.
  case_bool_decide as H10.
  - destruct (parse_message_cases data) as [[m ->]|Hm]; [by exists [], m|]. unfold next_message in Hn. rewrite Hm in Hn. done.
  - destruct (extra_step data) as [(h & r & He & Hh & -> & _)|He]; rewrite He in Hn; [|done]. injection Hn as <- <- <-.
    destruct (IH r ts' Hts) as (hs & m & Hhs & ->); [by eapply complete_tail|]. exists (h :: hs), m. split; [by constructor|].
    cbn [fmap list_fmap concat]. by rewrite <- app_assoc.
Qed.
Lemma tokens_encoding_inv fuel data ts : zlen data < 2 ^ 64 → tokens_from k fuel Encoding data = Ok (inr <$> ts) → complete ts →
  ∃ e hs m, encoding_ok e hs ∧ Forall header_ok hs ∧ data = raw_encoding e ++ concat (raw_header <$> hs) ++ 10 :: m.
Proof.
  intros Hd Ht Hc. destruct (strip_prefix data (ENCODING ++ [32])) as [r|] eqn:Es.
  - destruct (tokens_inv _ _ _ _ Ht Hc) as (f & t & d & s & ts' & -> & Hn & -> & Hts). cbn [next_inner] in Hn. unfold next_encoding in Hn.
    rewrite Es in Hn. destruct (field_step ENCODING Ok data Hd) as [(v & x & r' & Hv & -> & [= ->] & He & _)|[e He]]; [done| |]; rewrite He in Hn; [|done].
    injection Hn as <- <- <-. destruct (tokens_headers_inv f r' ts' Hts) as (hs & m & Hhs & ->); [by eapply complete_tail|].
    exists (Some x), hs, m. split; [done|]. split; [done|]. cbn [raw_encoding]. rewrite <- app_assoc. cbn [app]. by rewrite <- app_assoc.
  - rewrite tokens_no_encoding in Ht by done. destruct (tokens_headers_inv fuel data ts Ht Hc) as (hs & m & Hhs & ->).
    exists None, hs, m. split; [|done]. destruct Hhs as [|h hs Hh Hhs]; [done|]. cbn [encoding_ok]. intros Hn.
    destruct (raw_header_shape h Hh) as (v & r & _ & Hr). cbn [fmap list_fmap concat] in Es. rewrite Hr, Hn, <- !app_assoc in Es. cbn [app] in Es.
    destruct (starts_with_name ENCODING ((v ++ 10 :: r) ++ concat (raw_header <$> hs) ++ 10 :: m)) as [s Hs]. cbn [app] in Hs. congruence.
Qed.
Lemma signature_field_inv name data x r : zlen data < 2 ^ 64 → header_field data name signature = Ok (x, r) →
  ∃ v, signature_ok v ∧ data = name ++ 32 :: v ++ 10 :: r ∧ zlen r < 2 ^ 64.
Proof.
  intros Hd He. apply header_field_inv in He as (v & Hv & -> & Hx). exists v. split; [by split; [|exists x]|]. split; [done|].
  pose proof (zlen_field name v r). lia.
Qed.
Lemma tokens_signed_inv fuel data ts : zlen data < 2 ^ 64 → tokens_from k fuel (Signature Author) data = Ok (inr <$> ts) → complete ts →
  ∃ c, data = raw_signed c ∧ signature_ok (author c) ∧ signature_ok (committer c) ∧ encoding_ok (encoding c) (extra_headers c) ∧
    Forall header_ok (extra_headers c).
Proof.
  intros Hd Ht Hc. destruct (tokens_inv _ _ _ _ Ht Hc) as (f & t & d & s & ts' & -> & Hn & -> & Hts). cbn [next_inner next_signature] in Hn.
  destruct (header_field data AUTHOR signature) as [[x r]| |] eqn:Ea; [|done|done]. injection Hn as <- <- <-.
  apply signature_field_inv in Ea as (a & Ha & -> & Hr); [|done].
  assert (Hc' : complete ts') by (by eapply complete_tail).
  destruct (tokens_inv _ _ _ _ Hts Hc') as (f' & t & d & s & ts'' & -> & Hn & -> & Hts'). cbn [next_inner next_signature] in Hn.
  destruct (header_field r COMMITTER signature) as [[y r']| |] eqn:Ec; [|done|done]. injection Hn as <- <- <-.
  apply signature_field_inv in Ec as (cm & Hcm & -> & Hr'); [|done].
  destruct (tokens_encoding_inv f' r' ts'' Hr' Hts') as (e & hs & m & He & Hhs & ->); [by eapply complete_tail|].
  by exists {| tree := []; parents := []; author := a; committer := cm; encoding := e; message := m; extra_headers := hs |}.
Qed.
Lemma tokens_parents_inv fuel data ts : zlen data < 2 ^ 64 → tokens_from k fuel Parents data = Ok (inr <$> ts) → complete ts →
  ∃ ps r f ts', Forall (hex_ok k) ps ∧ data = concat (raw_parent <$> ps) ++ r ∧ zlen r < 2 ^ 64 ∧
    tokens_from k f (Signature Author) r = Ok (inr <$> ts') ∧ complete ts'.
Proof.
  revert data ts. induction fuel as [|fuel IH]; intros data ts Hd Ht Hc; [done|].
  destruct (strip_prefix data (PARENT ++ [32])) as [s0|] eqn:Es.
  - destruct (tokens_inv _ _ _ _ Ht Hc) as (f & t & d & s & ts' & [= <-] & Hn & -> & Hts). cbn [next_inner] in Hn. rewrite Es in Hn.
    destruct (id_step PARENT data Hd) as [(h & id & r & He & Hh & -> & Hid & Hl)|[e He]]; rewrite He in Hn; [|done].
    cbn [mbind outcome_bind] in Hn. rewrite Hid in Hn. injection Hn as <- <- <-.
    destruct (IH r ts') as (ps & r' & f & ts'' & Hps & -> & Hr' & Hts' & Hc'); [unfold zlen in *; lia|done|by eapply complete_tail|].
    exists (h :: ps), r', f, ts''. split; [by constructor|]. split; [|done]. cbn [fmap list_fmap concat]. unfold raw_parent at 2.
    rewrite <- !app_assoc. cbn [app]. by rewrite <- !app_assoc.
  - rewrite tokens_no_parent in Ht by done. by exists [], data, (S fuel), ts.
Qed.
Lemma iter_tokens_inv data ts : zlen data < 2 ^ 64 → iter_tokens k data = Ok (inr <$> ts) → complete ts →
  ∃ c, data = raw_commit c ∧ commit_ok k c.
Proof.
  intros Hd Ht Hc. unfold iter_tokens in Ht.
  destruct (tokens_inv _ _ _ _ Ht Hc) as (f & t & d & s & ts' & [= <-] & Hn & -> & Hts). cbn [next_inner] in Hn.
  destruct (id_step TREE data Hd) as [(h & id & r & He & Hh & -> & Hid & Hl)|[e He]]; rewrite He in Hn; [|done].
  cbn [mbind outcome_bind] in Hn. rewrite Hid in Hn. injection Hn as <- <- <-.
  assert (Hr : zlen r < 2 ^ 64) by (unfold zlen in *; lia). assert (Hc1 : complete ts') by (by eapply complete_tail).
  destruct (tokens_parents_inv _ r ts' Hr Hts Hc1) as (ps & r' & f & ts'' & Hps & -> & Hr' & Hts' & Hc').
  destruct (tokens_signed_inv f r' ts'' Hr' Hts' Hc') as (c & -> & Ha & Hcm & He' & Hhs).
  exists {| tree := h; parents := ps; author := author c; committer := committer c; encoding := encoding c; message := message c; extra_headers := extra_headers c |}.
  split; [done|]. by constructor.
Qed.
End IterInverse.

(** C38: iterating over the tokens of a commit does not panic on any bytes, and ends: it agrees with parsing the
    commit at once. When the commit is parsed, its tokens are all the parts of the commit in order; and when
    all tokens up to a message come without an error, the commit is parsed. *)
Theorem commit_tokens_agree {FH : FasterHex} (data : bytes) (k : Kind) (Hd : zlen data < 2 ^ 64) :
  iter_tokens k data ≠ Panic ∧
  (∀ c, from_bytes data k = Ok c → ∃ t ids a cm,
     expect_id (tree c) = Ok t ∧ Forall2 (λ h id, expect_id h = Ok id) (parents c) ids ∧
     signature (author c) = Ok a ∧ signature (committer c) = Ok cm ∧
     iter_tokens k data = Ok (inr <$> commit_tokens t ids a cm c)) ∧
  (∀ ts, iter_tokens k data = Ok (inr <$> ts) → complete ts → ∃ c, from_bytes data k = Ok c).
Proof.
  split; [apply tokens_safe; [done|lia]|]. split.
  - intros c Hc. destruct (commit_cases k data Hd) as [(c' & Hc' & -> & Hok)|[e He]]; unfold from_bytes in *; [|congruence].
    rewrite Hc in Hc'. injection Hc' as <-. by apply tokens_commit.
  - intros ts Ht Hc. destruct (iter_tokens_inv k data ts Hd Ht Hc) as (c & -> & Hok). exists c. by apply commit_app.
Qed.
Lemma commit_tokens_agree_witness :
  ∃ ts, iter_tokens (FH := faster_hex_model) Sha1 sample_data = Ok (inr <$> ts) ∧ zlen ts = 8 ∧ ∃ c, from_bytes sample_data Sha1 = Ok c.
Proof.
  destruct (commit_tokens_agree (FH := faster_hex_model) sample_data Sha1 sample_data_len) as (_ & H1 & H2).
  destruct (H1 sample_commit sample_decoded) as (t & ids & a & cm & _ & Hids & _ & _ & Ht). exists (commit_tokens t ids a cm sample_commit).
  destruct ids as [|id [|? ids]]; [inversion Hids| |inversion Hids as [|? ? ? ? ? Hn]; inversion Hn].
  split; [exact Ht|]. split; [reflexivity|].
  apply (H2 (commit_tokens t [id] a cm sample_commit) Ht). exists (message sample_commit). reflexivity.
Defined.
