(* ===== verification/ObjectHistory.v ===== *)
(** * Histories of commit objects

    [RevWalk] and [MergeBase] take the tokens of a commit object as a parameter. Here they
    are those of [CommitObject], so that merge bases are those of the history that the
    bytes of the commit objects of a database describe. *)

From stdpp Require Import gmap.
From S2P Require Import Prelude Hash Actor CommitGraph RevWalk MergeBase CommitObject.

Section Objects.
Context {FH : FasterHex} (k : Kind).

(** The arms of the loop over tokens in [to_owned] ([gix-revwalk/src/graph/commit.rs]) *)
Definition walk_token (t : CommitObject.Token) : RevWalk.Token :=
  match t with
  | TokenTree _ => TokTree
  | TokenParent id => TokParent (as_slice id)
  | TokenAuthor _ => TokAuthor
  | TokenCommitter s => TokCommitter (Actor.seconds s)
  | _ => TokOther
  end.
Definition walk_item (i : object_error + CommitObject.Token) : rw_error + RevWalk.Token :=
  match i with inl _ => inl CommitCorrupt | inr t => inr (walk_token t) end.
Definition object_tokens (data : bytes) : list (rw_error + RevWalk.Token) :=
  match iter_tokens k data with Ok items => walk_item <$> items | _ => [] end.

(** The commit that an object describes *)
Definition parent_oids (c : CommitRef) : list bytes :=
  omap (λ h, match expect_id h with Ok id => Some (as_slice id) | _ => None end) (CommitObject.parents c).
Definition committer_seconds (c : CommitRef) : Z :=
  match signature (committer c) with Ok s => Actor.seconds s | _ => 0 end.
Definition object_commit (c : CommitRef) : RevWalk.Commit () :=
  {| RevWalk.parents := parent_oids c; commit_time := committer_seconds c; RevWalk.generation := None; data := tt |}.

(** A database of commit objects *)
Context (odb : gmap bytes bytes).
Definition object_find (id : bytes) : outcome rw_error (option (bool * bytes)) := Ok ((λ data, (true, data)) <$> odb !! id).
Definition object_db : gmap bytes (RevWalk.Commit ()) :=
  omap (λ data, match from_bytes data k with Ok c => Some (object_commit c) | _ => None end) odb.
Definition objects_ok : Prop := map_Forall (λ _ data, zlen data < 2 ^ 64 ∧ ∃ c, from_bytes data k = Ok c) odb.

(** ** Lemmas *)
Lemma read_parents ids : ∀ acc rest,
  read_tokens ((walk_item <$> (inr <$> (TokenParent <$> ids))) ++ rest) acc = read_tokens rest (acc ++ (as_slice <$> ids)).
Proof.
  induction ids as [|id ids IH]; intros acc rest; cbn; [by rewrite app_nil_r|]. by rewrite IH, <- app_assoc.
Qed.
Lemma parent_oids_ids hs ids : Forall2 (λ h id, expect_id h = Ok id) hs ids →
  omap (λ h, match expect_id h with Ok id => Some (as_slice id) | _ => None end) hs = as_slice <$> ids.
Proof. induction 1 as [|h id hs ids Hid _ IH]; [done|]. cbn. rewrite Hid. cbn. by rewrite IH. Qed.
Lemma read_object data c : zlen data < 2 ^ 64 → from_bytes data k = Ok c →
  read_tokens (object_tokens data) [] = Ok (parent_oids c, Some (committer_seconds c)).
Proof.
  intros Hd Hc. destruct (commit_cases k data Hd) as [(c' & Hc' & -> & Hok)|[e He]]; unfold from_bytes in *; [|congruence].
  rewrite Hc in Hc'. injection Hc' as <-. destruct (tokens_commit k c Hok) as (t & ids & a & cm & _ & Hids & _ & Hcm & Ht).
  unfold object_tokens. rewrite Ht. unfold commit_tokens, parent_oids, committer_seconds. rewrite Hcm, (parent_oids_ids _ ids Hids).
  cbn [fmap list_fmap walk_item walk_token read_tokens]. rewrite !fmap_app, read_parents. done.
Qed.
(** Whatever the bytes: no other token comes in front of the committer. *)
Lemma read_items_safe fuel st data items acc :
  match st with Tree | Parents | Signature _ => True | _ => False end →
  tokens_from k fuel st data = Ok items → read_tokens (walk_item <$> items) acc ≠ Panic.
Proof.
  revert st data items acc. induction fuel as [|fuel IH]; intros st data items acc Hst Ht; [done|]. cbn [tokens_from] in Ht.
  destruct data as [|b data]; [by injection Ht as <-|].
  destruct (next_inner k st (b :: data)) as [[[t d] s]|e|] eqn:En; [|by injection Ht as <-|done].
  destruct (tokens_from k fuel s d) as [rest| |] eqn:Er; [|done|done]. injection Ht as <-. cbn [fmap list_fmap walk_item].
  destruct st as [| |who| | |]; try done; cbn [next_inner] in En.
  - destruct (header_field _ TREE _) as [[h r]| |]; [|done|done]. cbn [mbind outcome_bind] in En.
    destruct (expect_id h); [|done|done]. injection En as <- <- <-. cbn [walk_token read_tokens]. by refine (IH _ _ _ _ _ Er).
  - destruct (strip_prefix _ _).
    + destruct (header_field _ PARENT _) as [[h r]| |]; [|done|done]. cbn [mbind outcome_bind] in En.
      destruct (expect_id h); [|done|done]. injection En as <- <- <-. cbn [walk_token read_tokens]. by refine (IH _ _ _ _ _ Er).
    + cbn [next_signature] in En. destruct (header_field _ AUTHOR _) as [[h r]| |]; [|done|done]. injection En as <- <- <-. cbn [walk_token read_tokens]. by refine (IH _ _ _ _ _ Er).
  - destruct who; cbn [next_signature] in En.
    + destruct (header_field _ AUTHOR _) as [[h r]| |]; [|done|done]. injection En as <- <- <-. cbn [walk_token read_tokens]. by refine (IH _ _ _ _ _ Er).
    + destruct (header_field _ COMMITTER _) as [[h r]| |]; [|done|done]. injection En as <- <- <-. done.
Qed.
Lemma to_owned_safe {T} (d : T) data : to_owned object_tokens (FromObject data) d ≠ Panic.
Proof.
  cbn [to_owned]. unfold object_tokens. unfold iter_tokens. destruct (tokens_from k _ _ data) as [items| |] eqn:E; [|done|done].
  pose proof (read_items_safe _ Tree _ _ [] I E) as H. by destruct (read_tokens _ _) as [[? ?]| |].
Qed.
Lemma object_db_lookup id : objects_ok → object_db !! id = (odb !! id) ≫= λ data, match from_bytes data k with Ok c => Some (object_commit c) | _ => None end.
Proof. intros _. unfold object_db. by rewrite lookup_omap. Qed.
Lemma object_db_size : objects_ok → (base.size object_db ≤ base.size odb)%nat.
Proof.
  intros Hok. rewrite <- !size_dom. apply subseteq_size. intros id. rewrite !elem_of_dom, object_db_lookup by done.
  destruct (odb !! id); [by eexists|]. by intros [].
Qed.
Lemma object_repository : objects_ok → Z.of_nat (base.size odb) < 2 ^ 63 →
  repository object_find object_tokens None (λ _, True) object_db.
Proof.
  intros Hok Hsize. split.
  - split; [|intros id d _; split; [done|by apply Forall_true]].
    intros id _. unfold load, try_lookup, cache_lookup, object_find. rewrite object_db_lookup by done.
    destruct (odb !! id) as [data|] eqn:E; [|done]. destruct (Hok id data E) as (Hd & c & Hc). cbn.
    rewrite (read_object data c Hd Hc). cbn. rewrite Hc. done.
  - intros x p (d & Hd & _ & [dp Hp]). unfold key. rewrite Hd, Hp. rewrite object_db_lookup in Hd, Hp by done.
    destruct (odb !! x) as [data|]; [|done]. destruct (odb !! p) as [data'|]; [|done]. cbn in Hd, Hp.
    destruct (from_bytes data k); [|done|done]. destruct (from_bytes data' k); [|done|done]. injection Hd as <-. injection Hp as <-.
    cbn. unfold GENERATION_NUMBER_INFINITY, GENERATION_NUMBER_MAX. lia.
  - pose proof (object_db_size Hok). lia.
Qed.
End Objects.

(** The commits that are in the history of another by the parents that objects name *)
Definition object_edge {FH : FasterHex} (k : Kind) (odb : gmap bytes bytes) (x p : bytes) : Prop :=
  ∃ data c, odb !! x = Some data ∧ from_bytes data k = Ok c ∧ p ∈ parent_oids c ∧ is_Some (odb !! p).
Lemma object_edge_iff {FH : FasterHex} k odb x p : objects_ok k odb → edge (object_db k odb) x p ↔ object_edge k odb x p.
Proof.
  intros Hok. unfold edge, object_edge. split.
  - intros (d & Hd & Hp & Hs). rewrite object_db_lookup in Hd, Hs by done. destruct (odb !! x) as [data|] eqn:Ex; [|done]. cbn in Hd.
    destruct (from_bytes data k) as [c| |] eqn:Ec; [|done|done]. injection Hd as <-. exists data, c. do 3 (split; [done|]).
    destruct (odb !! p); [by eexists|by destruct Hs].
  - intros (data & c & Hx & Hc & Hp & [data' Hs]). exists (object_commit c). rewrite !object_db_lookup, Hx, Hs by done. cbn. rewrite Hc.
    do 2 (split; [done|]). destruct (Hok p data' Hs) as (_ & c' & ->). by eexists.
Qed.

(** C34: merge bases from the bytes of commit objects. Loading a commit from any bytes does
    not panic: the arm of the loop over tokens that is marked as unreachable is not reached. Over a
    database of objects that are commits, the merge bases of commits in it are found whatever their dates:
    the walk ends with commits, each once, that are common ancestors by the parents written
    in the objects, among them all that are in the history of no other. *)
Theorem object_merge_base {FH : FasterHex} {H : BinaryHeap GenThenTime bytes key_le} (k : Kind) (odb : gmap bytes bytes)
    (fuel : nat) (first : bytes) (others : list bytes)
    (Hok : objects_ok k odb) (Hsize : Z.of_nat (base.size odb) < 2 ^ 63) (Hfuel : (3 * base.size odb + 1 < fuel)%nat)
    (Hin : Forall (λ y, is_Some (odb !! y)) (first :: others)) (Hne : others ≠ []) :
  let history := rtc (object_edge k odb) in
  let common x := history first x ∧ ∃ o, o ∈ others ∧ history o x in
  (∀ data, to_owned (object_tokens k) (FromObject data) () ≠ Panic) ∧
  ∃ rs g', merge_base (object_find odb) (object_tokens k) None fuel first others ∅ = Ok (match rs with [] => None | _ => Some rs end, g') ∧
    NoDup rs ∧ (∀ x, x ∈ rs → common x) ∧
    (∀ x, common x → (∀ y, common y → ~ tc (object_edge k odb) y x) → x ∈ rs).
Proof.
  intros history cm. split; [intros data; apply to_owned_safe|].
  destruct (object_repository k odb Hok Hsize) as [Hload Hgen Hs].
  assert (Hin' : ∀ x, x ∈ first :: others → is_Some (object_db k odb !! x)).
  { intros x Hx. rewrite list.Forall_forall in Hin. destruct (Hin x Hx) as [data Hd]. rewrite object_db_lookup, Hd by done. cbn.
    destruct (Hok x data Hd) as (_ & c & ->). by eexists. }
  assert (Hf : (3 * base.size (object_db k odb) + 1 < fuel)%nat).
  { assert (base.size (object_db k odb) ≤ base.size odb)%nat by (apply object_db_size; done). lia. }
  destruct (merge_base_ok _ _ _ _ _ Hload Hgen Hs fuel first others ∅ (graph_fits_empty _) Hin' Hne Hf) as (rs & g' & Hm & _ & Hnd & Hc & Hb & _).
  assert (He : ∀ x y, edge (object_db k odb) x y ↔ object_edge k odb x y) by (intros; by apply object_edge_iff).
  assert (Hr : ∀ x y, rtc (edge (object_db k odb)) x y ↔ history x y) by (intros x y; split; apply rtc_subrel; intros ? ?; apply He).
  exists rs, g'. split; [done|]. split; [done|]. split.
  - intros x Hx. destruct (Hc x Hx) as (H1 & o & Ho & H2). split; [by apply Hr|]. exists o. split; [done|]. by apply Hr.
  - intros x (H1 & o & Ho & H2) Hbest. apply Hb. split; [split; [by apply Hr|exists o; split; [done|by apply Hr]]|].
    intros y (H3 & o' & Ho' & H4) Ht. apply (Hbest y); [split; [by apply Hr|exists o'; split; [done|by apply Hr]]|].
    revert Ht. apply (tc_congruence id). intros ? ?. apply He.
Qed.

(** Two commits on top of the sample commit's parent, which is a root *)
Definition sample_root : CommitRef :=
  {| tree := sample_id 65; CommitObject.parents := []; author := sample_sig; committer := sample_sig; encoding := None;
     message := []; extra_headers := [] |}.
Definition sample_child (m : Z) : CommitRef :=
  {| tree := sample_id 65; CommitObject.parents := [sample_id 97]; author := sample_sig; committer := sample_sig; encoding := None;
     message := [m]; extra_headers := [] |}.
Definition sample_root_id : bytes := replicate 20 170.
Definition sample_odb : gmap bytes bytes := list_to_map
  [(sample_root_id, raw_commit sample_root); ([1], raw_commit (sample_child 1)); ([2], raw_commit (sample_child 2))].
Definition objects_okb (k : Kind) (odb : gmap bytes bytes) : bool :=
  forallb (λ '(_, data), (zlen data <? 2 ^ 64) && match from_bytes data k with Ok _ => true | _ => false end) (map_to_list odb).
Lemma objects_okb_ok k odb : objects_okb k odb = true → objects_ok k odb.
Proof.
  intros H id data Hd. unfold objects_okb in H. rewrite forallb_forall in H.
  specialize (H (id, data)). apply elem_of_map_to_list in Hd. apply list_elem_of_In in Hd. specialize (H Hd). cbn in H.
  apply andb_prop in H as [H1 H2]. split; [lia|]. destruct (from_bytes data k); [by eexists|done|done].
Qed.
Lemma object_merge_base_witness :
  ∃ rs g', merge_base (H := commit_heap) (object_find sample_odb) (object_tokens Sha1) None 20 [1] [[2]] ∅ =
    Ok (match rs with [] => None | _ => Some rs end, g') ∧ NoDup rs ∧ zlen rs = 1.
Proof.
  destruct (object_merge_base (H := commit_heap) Sha1 sample_odb 20 [1] [[2]]) as [_ (rs & g' & Hm & Hnd & _)].
  - apply objects_okb_ok. vm_compute. reflexivity.
  - vm_compute. reflexivity.
  - apply Nat.ltb_lt. vm_compute. reflexivity.
  - repeat constructor; vm_compute; by eexists.
  - discriminate.
  - exists rs, g'. split; [exact Hm|]. split; [exact Hnd|].
    assert (Hf : fst <$> merge_base (H := commit_heap) (object_find sample_odb) (object_tokens Sha1) None 20 [1] [[2]] ∅ = Ok (Some [sample_root_id]))
      by (vm_compute; reflexivity).
    rewrite Hm in Hf. destruct rs as [|r [|]]; [discriminate Hf|reflexivity|discriminate Hf].
Defined.
