(* ===== verification/ObjectSignature.v ===== *)
(** * [gix-object/src/signature]: signatures of commits and tags

    The formats of armored signatures and the search for the last one that starts a line
    ([signature/mod.rs]); the signature of a commit is the value of an extra header, which
    [CommitRefIter::signature] finds along with the range of the header in the bytes, so that
    the signed data are the other bytes ([commit/ref_iter.rs]). *)

From S2P Require Import Prelude Hash Actor CommitObject.

(** ** [signature/mod.rs] *)
Inductive Format := OpenPgp | X509 | Ssh.
Definition PGP_SIGNATURE : bytes := [45; 45; 45; 45; 45; 66; 69; 71; 73; 78; 32; 80; 71; 80; 32; 83; 73; 71; 78; 65; 84; 85; 82; 69; 45; 45; 45; 45; 45].
Definition PGP_MESSAGE : bytes := [45; 45; 45; 45; 45; 66; 69; 71; 73; 78; 32; 80; 71; 80; 32; 77; 69; 83; 83; 65; 71; 69; 45; 45; 45; 45; 45].
Definition SIGNED_MESSAGE : bytes := [45; 45; 45; 45; 45; 66; 69; 71; 73; 78; 32; 83; 73; 71; 78; 69; 68; 32; 77; 69; 83; 83; 65; 71; 69; 45; 45; 45; 45; 45].
Definition SSH_SIGNATURE : bytes := [45; 45; 45; 45; 45; 66; 69; 71; 73; 78; 32; 83; 83; 72; 32; 83; 73; 71; 78; 65; 84; 85; 82; 69; 45; 45; 45; 45; 45].
Definition begins (l p : bytes) : bool := match strip_prefix l p with Some _ => true | None => false end.
Definition from_signature (signature : bytes) : option Format :=
  if begins signature PGP_SIGNATURE || begins signature PGP_MESSAGE then Some OpenPgp
  else if begins signature SIGNED_MESSAGE then Some X509
  else if begins signature SSH_SIGNATURE then Some Ssh
  else None.

(** [while offset < data.len()] *)
Fixpoint find_loop {E} (fuel : nat) (data : bytes) (offset : Z) (found : option (Z * Format)) : outcome E (option (Z * Format)) :=
  match fuel with
  | O => Panic
  | S fuel =>
      if offset <? zlen data then
        tail ← expect (get_from data offset);
        let found := match from_signature tail with Some format => Some (offset, format) | None => found end in
        let offset := match position is_nl tail with Some newline => offset + newline + 1 | None => zlen data end in
        find_loop fuel data offset found
      else Ok found
  end.
Definition find {E} (data : bytes) : outcome E (option (Z * Format)) := find_loop (S (length data)) data 0 None.

Record SignedData := { sd_data : bytes; excluded : Z * Z }.
Definition segments {E} (s : SignedData) : outcome E (bytes * bytes) :=
  before ← expect (get_range (sd_data s) 0 (excluded s).1);
  after ← expect (get_from (sd_data s) (excluded s).2);
  Ok (before, after).
Definition to_bstring {E} (s : SignedData) : outcome E bytes := '(before, after) ← segments s; Ok (before ++ after).

(** ** [commit/mod.rs], [commit/ref_iter.rs] *)
Definition SIGNATURE_FIELD_NAME : bytes := [103; 112; 103; 115; 105; 103].
Definition SIGNATURE_FIELD_NAME_SHA256 : bytes := [103; 112; 103; 115; 105; 103; 45; 115; 104; 97; 50; 53; 54].
Definition signature_field_name (k : Kind) : bytes :=
  match k with Sha256 => SIGNATURE_FIELD_NAME_SHA256 | Sha1 => SIGNATURE_FIELD_NAME end.

Section CommitSignature.
Context {FH : FasterHex} (hash_kind : Kind).
(** [CommitRefIterRaw] *)
Record Raw := { raw_data : bytes; raw_state : State; raw_offset : Z }.
(** [CommitRefIterRaw::next], for bytes that are not empty: the token, its range, and the iterator behind *)
Definition raw_next (r : Raw) : outcome object_error (Token * (Z * Z) * Raw) :=
  '(token, remaining, state) ← next_inner hash_kind (raw_state r) (raw_data r);
  consumed ← op_sub 64 (zlen (raw_data r)) (zlen remaining);
  let start := raw_offset r in
  end_ ← op_add 64 start consumed;
  Ok (token, (start, end_), {| raw_data := remaining; raw_state := state; raw_offset := end_ |}).
(** [for token in raw_tokens] *)
Fixpoint signature_loop (fuel : nat) (r : Raw) : outcome object_error (option (bytes * (Z * Z))) :=
  match fuel with
  | O => Panic
  | S fuel =>
      if bool_decide (raw_data r = []) then Ok None
      else
        '(token, range, r) ← raw_next r;
        match token with
        | TokenExtraHeader (name, value) =>
            if bytes_eqb name (signature_field_name hash_kind) then Ok (Some (value, range)) else signature_loop fuel r
        | _ => signature_loop fuel r
        end
  end.
Definition commit_signature (data : bytes) : outcome object_error (option (bytes * SignedData)) :=
  found ← signature_loop (S (length data)) {| raw_data := data; raw_state := Tree; raw_offset := 0 |};
  Ok (option_map (λ '(sig, range), (sig, {| sd_data := data; excluded := range |})) found).
End CommitSignature.

(** ** Lemmas: lines *)
(** A position where a line starts, and what is a marker there *)
Definition line_start (data : bytes) (n : Z) : Prop := 0 ≤ n < zlen data ∧ (n = 0 ∨ get data (n - 1) = Some 10).
Definition is_marker (data : bytes) (n : Z) (f : Format) : Prop :=
  line_start data n ∧ from_signature (drop (Z.to_nat n) data) = Some f.
(** The last marker in front of [bound] *)
Definition last_marker (data : bytes) (bound : Z) (found : option (Z * Format)) : Prop :=
  match found with
  | Some (n, f) => is_marker data n f ∧ n < bound ∧ ∀ m g, is_marker data m g → m < bound → m ≤ n
  | None => ∀ m g, is_marker data m g → m < bound → False
  end.
Lemma no_line_start pre a rest m : nonl a → zlen pre < m ≤ zlen pre + zlen a → ~ line_start (pre ++ a ++ rest) m.
Proof.
  intros Ha Hm [_ [H|H]]; [pose proof (zlen_nonneg pre); lia|]. pose proof (zlen_nonneg pre).
  unfold get in H. destruct (Z.leb_spec 0 (m - 1)); [|lia]. unfold zlen in *.
  rewrite lookup_app_r, lookup_app_l in H by lia. unfold nonl in Ha. rewrite Forall_lookup in Ha. by apply Ha in H.
Qed.
Lemma last_marker_step data o found (f : option Format) bound :
  last_marker data o found → from_signature (drop (Z.to_nat o) data) = f → line_start data o → o < bound →
  (∀ m, line_start data m → o < m → bound ≤ m) →
  last_marker data bound (match f with Some format => Some (o, format) | None => found end).
Proof.
  intros Hl Hf Hs Hb Hgap.
  assert (Hsplit : ∀ m, line_start data m → m < bound → m < o ∨ m = o).
  { intros m Hm Hmb. destruct (Z_lt_le_dec o m) as [H|H]; [specialize (Hgap m Hm H)|]; lia. }
  destruct f as [f|].
  - split; [done|]. split; [done|]. intros m g [Hm _] Hmb. specialize (Hsplit m Hm Hmb). lia.
  - destruct found as [[n f]|]; cbn [last_marker] in *.
    + destruct Hl as (Hn & Hno & Hl). split; [done|]. split; [lia|]. intros m g Hg Hmb.
      destruct (Hsplit m (proj1 Hg) Hmb) as [H| ->]; [by apply (Hl m g)|]. destruct Hg as [_ Hg]. congruence.
    + intros m g Hg Hmb. destruct (Hsplit m (proj1 Hg) Hmb) as [H| ->]; [by apply (Hl m g)|]. destruct Hg as [_ Hg]. congruence.
Qed.
Lemma find_loop_ok {E} data fuel o found : last_marker data o found → (o = zlen data ∨ line_start data o) → 0 ≤ o ≤ zlen data →
  (Z.to_nat (zlen data - o) < fuel)%nat →
  ∃ r, find_loop (E := E) fuel data o found = Ok r ∧ last_marker data (zlen data) r.
Proof.
  revert o found. induction fuel as [|fuel IH]; intros o found Hl Hs Ho Hf; [lia|]. cbn [find_loop].
  destruct (Z.ltb_spec o (zlen data)) as [Hlt|Hge]; [|exists found; split; [done|]; by replace (zlen data) with o by lia].
  destruct Hs as [->|Hs]; [lia|]. rewrite get_from_in by lia. cbn [expect mbind outcome_bind].
  set (tail := drop (Z.to_nat o) data).
  assert (Hdata : data = take (Z.to_nat o) data ++ tail) by (unfold tail; by rewrite take_drop).
  assert (Hpre : zlen (take (Z.to_nat o) data) = o) by (unfold zlen in *; rewrite length_take; lia).
  set (pre := take (Z.to_nat o) data) in *.
  destruct (position is_nl tail) as [nl|] eqn:Ep.
  - apply position_Some in Ep as (a & x & b & Htail & <- & Hx & Ha). apply Z.eqb_eq in Hx as ->. pose proof (zlen_nonneg a). pose proof (zlen_nonneg b).
    assert (Hlen : zlen data = o + zlen a + 1 + zlen b).
    { rewrite Hdata, Htail, !zlen_app, zlen_cons, Hpre. lia. }
    apply IH; [| |lia|lia].
    + eapply last_marker_step; [done|done|done|lia|]. intros m Hm Hom.
      destruct (Z_lt_le_dec m (o + zlen a + 1)) as [H'|H']; [|lia]. exfalso.
      revert Hm. rewrite Hdata, Htail. apply no_line_start; [done|lia].
    + destruct (decide (b = [])) as [->|Hb]; [left; rewrite Hlen; unfold zlen; cbn; lia|right].
      assert (0 < zlen b) by (destruct b; [done|]; rewrite zlen_cons; pose proof (zlen_nonneg b); lia).
      split; [lia|]. right. rewrite Hdata, Htail. replace (o + zlen a + 1 - 1) with (zlen (pre ++ a)) by (rewrite zlen_app; lia).
      rewrite app_assoc. apply get_app_mid.
  - apply position_None in Ep. apply IH; [|by left|lia|lia].
    eapply last_marker_step; [done|done|done|lia|]. intros m Hm Hom. exfalso. pose proof (proj1 Hm). revert Hm.
    rewrite Hdata, <- (app_nil_r tail). apply no_line_start; [done|].
    pose proof (f_equal zlen Hdata) as Hz. rewrite zlen_app in Hz. lia.
Qed.
(** [find] is the last marker. *)
Lemma find_ok {E} data : ∃ r, find (E := E) data = Ok r ∧ last_marker data (zlen data) r.
Proof.
  apply find_loop_ok; [| |split; [done|apply zlen_nonneg]|unfold zlen; lia].
  - intros m g [[Hm _] _] H. lia.
  - destruct data as [|b data]; [by left|right]. split; [|by left]. rewrite zlen_cons. pose proof (zlen_nonneg data). lia.
Qed.

(** ** Lemmas: the signature of a commit *)
Section SignatureLemmas.
Context {FH : FasterHex} (k : Kind).
(** Steps over tokens that are no extra headers *)
Inductive skips : State → bytes → State → bytes → Prop :=
| skips_refl st d : skips st d st d
| skips_step st d t d1 st1 st2 d2 :
    d ≠ [] → next_inner k st d = Ok (t, d1, st1) → (∀ h, t ≠ TokenExtraHeader h) → (length d1 < length d)%nat →
    skips st1 d1 st2 d2 → skips st d st2 d2.
Lemma skips_length st d st' d' : skips st d st' d' → (length d' ≤ length d)%nat.
Proof. induction 1; lia. Qed.
Definition raw_at (d : bytes) (st : State) (off : Z) : Raw := {| raw_data := d; raw_state := st; raw_offset := off |}.
Lemma raw_next_ok st d t d1 st1 off : next_inner k st d = Ok (t, d1, st1) → (length d1 ≤ length d)%nat → 0 ≤ off → off + zlen d < 2 ^ 64 →
  raw_next k (raw_at d st off) = Ok (t, (off, off + (zlen d - zlen d1)), raw_at d1 st1 (off + (zlen d - zlen d1))).
Proof.
  intros Hn Hl Ho Hd. unfold raw_next, raw_at. cbn [raw_state raw_data raw_offset]. rewrite Hn. cbn [mbind outcome_bind].
  unfold op_sub, op_add. pose proof (zlen_nonneg d1). assert (zlen d1 ≤ zlen d) by (unfold zlen; lia).
  rewrite checked_sub_in by lia. cbn [expect mbind outcome_bind]. by rewrite checked_add_in by lia.
Qed.
Lemma loop_skips st d st' d' off fuel : skips st d st' d' → 0 ≤ off → off + zlen d < 2 ^ 64 → (length d < fuel)%nat →
  ∃ fuel', (length d' < fuel')%nat ∧
  signature_loop k fuel (raw_at d st off) = signature_loop k fuel' (raw_at d' st' (off + (zlen d - zlen d'))).
Proof.
  intros Hs. revert off fuel. induction Hs as [st d|st d t d1 st1 st2 d2 Hd Hn Ht Hl Hs IH]; intros off fuel Ho Hb Hf.
  - exists fuel. split; [done|]. by rewrite Z.sub_diag, Z.add_0_r.
  - destruct fuel as [|fuel]; [lia|]. cbn [signature_loop]. rewrite bool_decide_eq_false_2 by done.
    pose proof (raw_next_ok st d t d1 st1 off Hn ltac:(lia) Ho Hb) as Hr. rewrite Hr. cbn [mbind outcome_bind].
    assert (zlen d1 ≤ zlen d) by (unfold zlen; lia).
    destruct (IH (off + (zlen d - zlen d1)) fuel) as (fuel' & Hf' & Heq); [lia|lia|lia|].
    exists fuel'. split; [done|]. replace (off + (zlen d - zlen d2)) with (off + (zlen d - zlen d1) + (zlen d1 - zlen d2)) by lia.
    rewrite <- Heq. unfold raw_at. destruct t; try done. by destruct (Ht h).
Qed.
Ltac shorter := repeat (rewrite length_app || cbn [length]); lia.
Lemma skip_signed c st : commit_ok k c → (∀ d, strip_prefix d (PARENT ++ [32]) = None → next_inner k st d = next_signature Author d) →
  skips st (raw_signed c) Encoding (raw_encoding (encoding c) ++ raw_rest c).
Proof.
  intros [Ht Hp [Ha1 [a Ha]] [Hc1 [cm Hc]] He Hh] Hst. unfold raw_signed.
  eapply skips_step; [done|rewrite Hst by (apply strip_prefix_None; by intros r); cbn [next_signature]; by rewrite (signature_field_Ok _ _ _ a)|done|shorter|].
  eapply skips_step; [done|cbn [next_inner next_signature]; by rewrite (signature_field_Ok _ _ _ cm)|done|shorter|apply skips_refl].
Qed.
Lemma skip_parents c ps : commit_ok k c → Forall (hex_ok k) ps →
  skips Parents (concat (raw_parent <$> ps) ++ raw_signed c) Encoding (raw_encoding (encoding c) ++ raw_rest c).
Proof.
  intros Hok Hps. induction Hps as [|p ps Hp Hps IH].
  - cbn [fmap list_fmap concat app]. apply skip_signed; [done|]. intros d Hd. cbn [next_inner]. by rewrite Hd.
  - cbn [fmap list_fmap concat]. rewrite <- app_assoc. destruct (expect_id_ok k p Hp) as (id & Hid & _).
    eapply skips_step; [done| | | |exact IH].
    + cbn [next_inner]. assert (∃ s, strip_prefix (raw_parent p ++ concat (raw_parent <$> ps) ++ raw_signed c) (PARENT ++ [32]) = Some s) as [s ->].
      { unfold raw_parent. rewrite <- app_assoc. apply starts_with_name. }
      rewrite parent_app by done. cbn [mbind outcome_bind]. by rewrite Hid.
    + done.
    + assert (0 < length (raw_parent p))%nat by (unfold raw_parent; cbn; lia). shorter.
Qed.
Lemma skip_commit c : commit_ok k c → skips Tree (raw_commit c) Encoding (raw_encoding (encoding c) ++ raw_rest c).
Proof.
  intros Hok. pose proof Hok as [Ht Hp _ _ _ _]. destruct (expect_id_ok k (tree c) Ht) as (t & Hid & _). unfold raw_commit.
  eapply skips_step; [done| | | |by apply skip_parents].
  - cbn [next_inner]. rewrite header_field_app by (by eapply hex_ok_nonl). rewrite hex_hash_ok by done. cbn [mbind outcome_bind]. by rewrite Hid.
  - done.
  - shorter.
Qed.
(** From the state [Encoding] on, the iterator is in front of the headers. *)
Lemma skip_encoding c : commit_ok k c → encoding c ≠ None → skips Encoding (raw_encoding (encoding c) ++ raw_rest c) ExtraHeaders (raw_rest c).
Proof.
  intros [_ _ _ _ He Hh] Hne. destruct (encoding c) as [e|]; [|done]. cbn [raw_encoding encoding_ok] in *. rewrite <- app_assoc. cbn [app].
  rewrite <- app_assoc. cbn [app]. eapply skips_step; [done| | | |apply skips_refl].
  - cbn [next_inner]. unfold next_encoding. destruct (starts_with_name ENCODING (e ++ 10 :: raw_rest c)) as [s ->]. by rewrite header_field_app.
  - done.
  - shorter.
Qed.
Lemma loop_no_encoding d off fuel : strip_prefix d (ENCODING ++ [32]) = None →
  signature_loop k fuel (raw_at d Encoding off) = signature_loop k fuel (raw_at d ExtraHeaders off).
Proof.
  intros H. destruct fuel as [|fuel]; [done|]. cbn [signature_loop]. unfold raw_at, raw_next. cbn [raw_state raw_data raw_offset next_inner].
  unfold next_encoding. by rewrite H.
Qed.

(** The first header of the name, and its range *)
Fixpoint first_signature (hs : list (bytes * bytes)) (off : Z) : option (bytes * (Z * Z)) :=
  match hs with
  | [] => None
  | h :: hs =>
      let off' := off + zlen (raw_header h) in
      if bytes_eqb h.1 (signature_field_name k) then Some (h.2, (off, off')) else first_signature hs off'
  end.
Lemma loop_headers hs m fuel off : Forall header_ok hs → 0 ≤ off → off + zlen (concat (raw_header <$> hs) ++ 10 :: m) < 2 ^ 64 →
  (length (concat (raw_header <$> hs) ++ 10%Z :: m) < fuel)%nat →
  signature_loop k fuel (raw_at (concat (raw_header <$> hs) ++ 10 :: m) ExtraHeaders off) = Ok (first_signature hs off).
Proof.
  intros Hhs. revert fuel off. induction Hhs as [|h hs Hh Hhs IH]; intros fuel off Ho Hb Hf.
  - destruct fuel as [|[|fuel]]; [cbn in Hf; lia..|]. cbn [fmap list_fmap concat app] in *. cbn [signature_loop].
    rewrite bool_decide_eq_false_2 by done. rewrite (raw_next_ok _ _ (TokenMessage m) [] Message); [done|apply next_message_nl|cbn; lia|done|done].
  - destruct fuel as [|fuel]; [lia|]. cbn [fmap list_fmap concat app] in *. rewrite <- app_assoc in *.
    set (rest := concat (raw_header <$> hs) ++ 10 :: m) in *.
    destruct (raw_header_nonempty h rest Hh) as (b & t & Hr & Hb1 & Hb2).
    assert (Hnext : next_inner k ExtraHeaders (raw_header h ++ rest) = Ok (TokenExtraHeader h, rest, ExtraHeaders)).
    { cbn [next_inner]. unfold next_extra_headers. rewrite bool_decide_eq_false_2 by (rewrite Hr; change (get (b :: t) 0) with (Some b); congruence).
      rewrite extra_header_app; [done|done|]. unfold rest. destruct Hhs as [|h' hs Hh' Hhs]; [done|]. cbn [fmap list_fmap concat]. rewrite <- app_assoc.
      destruct (raw_header_nonempty h' (concat (raw_header <$> hs) ++ 10 :: m) Hh') as (b' & t' & -> & ? & _). cbn. congruence. }
    assert (0 < length (raw_header h))%nat.
    { destruct (raw_header_shape h Hh) as (v & r & _ & ->). shorter. }
    rewrite length_app in Hf. rewrite zlen_app in Hb. pose proof (zlen_nonneg (raw_header h)). pose proof (zlen_nonneg rest).
    cbn [signature_loop]. rewrite bool_decide_eq_false_2 by (cbn; by rewrite Hr).
    rewrite (raw_next_ok _ _ _ _ _ _ Hnext); [|rewrite length_app; lia|done|rewrite zlen_app; lia]. cbn [mbind outcome_bind first_signature].
    replace (off + (zlen (raw_header h ++ rest) - zlen rest)) with (off + zlen (raw_header h)) by (rewrite zlen_app; lia).
    destruct h as [n v]. cbn [fst snd]. destruct (bytes_eqb n (signature_field_name k)); [done|]. apply IH; lia.
Qed.
Lemma first_signature_ok hs off :
  match first_signature hs off with
  | None => Forall (λ h, h.1 ≠ signature_field_name k) hs
  | Some (v, (s, e)) => ∃ before after, hs = before ++ (signature_field_name k, v) :: after ∧
      Forall (λ h, h.1 ≠ signature_field_name k) before ∧
      s = off + zlen (concat (raw_header <$> before)) ∧ e = s + zlen (raw_header (signature_field_name k, v))
  end.
Proof.
  revert off. induction hs as [|[n v] hs IH]; intros off; cbn [first_signature]; [constructor|]. unfold bytes_eqb. cbn [fst snd].
  case_bool_decide as Hn; [subst n; exists [], hs; split; [done|]; split; [by apply list.Forall_nil|]; split; [symmetry; apply Z.add_0_r|done]|]. specialize (IH (off + zlen (raw_header (n, v)))).
  destruct (first_signature hs _) as [[v' [s e]]|]; [|by constructor].
  destruct IH as (before & after & -> & Hb & -> & ->). exists ((n, v) :: before), after. split; [done|]. split; [by constructor|].
  cbn [fmap list_fmap concat]. rewrite zlen_app. lia.
Qed.
(** The bytes in front of the headers *)
Definition raw_head (c : CommitRef) : bytes :=
  TREE ++ 32 :: tree c ++ 10 :: concat (raw_parent <$> parents c) ++ AUTHOR ++ 32 :: author c ++ 10 ::
  COMMITTER ++ 32 :: committer c ++ 10 :: raw_encoding (encoding c).
Lemma raw_commit_head c : raw_commit c = raw_head c ++ raw_rest c.
Proof.
  unfold raw_commit, raw_signed, raw_head. repeat (rewrite <- app_assoc || cbn [app]). done.
Qed.
Lemma signature_of_commit c : commit_ok k c → zlen (raw_commit c) < 2 ^ 64 →
  signature_loop k (S (length (raw_commit c))) (raw_at (raw_commit c) Tree 0) = Ok (first_signature (extra_headers c) (zlen (raw_head c))).
Proof.
  intros Hok Hlen. pose proof Hok as [_ _ _ _ He Hh].
  assert (Hzr : zlen (raw_commit c) - zlen (raw_rest c) = zlen (raw_head c)) by (rewrite raw_commit_head, zlen_app; lia).
  pose proof (zlen_nonneg (raw_head c)).
  destruct (decide (encoding c = None)) as [Hn|Hn].
  - pose proof (skip_commit c Hok) as Hs. rewrite Hn in *. cbn [raw_encoding app] in Hs.
    destruct (loop_skips _ _ _ _ 0 (S (length (raw_commit c))) Hs) as (fuel & Hf & ->); [lia|lia|lia|].
    rewrite loop_no_encoding by (by apply no_encoding_prefix). rewrite Z.add_0_l, Hzr. apply loop_headers; [done|lia| |done].
    fold (raw_rest c). rewrite raw_commit_head, zlen_app in Hlen. lia.
  - destruct (loop_skips _ _ _ _ 0 (S (length (raw_commit c))) (skip_commit c Hok)) as (fuel & Hf & ->); [lia|lia|lia|].
    set (d := raw_encoding (encoding c) ++ raw_rest c) in *.
    assert (Hd : zlen d ≤ zlen (raw_commit c)).
    { pose proof (skips_length _ _ _ _ (skip_commit c Hok)). fold d in H0. unfold zlen. lia. }
    destruct (loop_skips _ _ _ _ (0 + (zlen (raw_commit c) - zlen d)) fuel (skip_encoding c Hok Hn)) as (fuel' & Hf' & Heq); [lia|fold d; lia|done|].
    fold d in Heq. rewrite Heq. replace (0 + (zlen (raw_commit c) - zlen d) + (zlen d - zlen (raw_rest c))) with (zlen (raw_head c)) by lia.
    apply loop_headers; [done|lia| |done]. fold (raw_rest c). rewrite raw_commit_head, zlen_app in Hlen. lia.
Qed.
Lemma signature_loop_safe fuel st d off : (length d < fuel)%nat → 0 ≤ off → off + zlen d < 2 ^ 64 → signature_loop k fuel (raw_at d st off) ≠ Panic.
Proof.
  revert st d off. induction fuel as [|fuel IH]; intros st d off Hf Ho Hb; [lia|]. cbn [signature_loop].
  case_bool_decide as Hd; [done|]. cbn [raw_at raw_data] in Hd. pose proof (zlen_nonneg d).
  destruct (next_cases k st d) as [(t & d1 & s1 & Hn & Hl)|[e He]]; [lia|done| |].
  - rewrite (raw_next_ok _ _ _ _ _ _ Hn) by lia. cbn [mbind outcome_bind].
    assert (signature_loop k fuel (raw_at d1 s1 (off + (zlen d - zlen d1))) ≠ Panic).
    { assert (zlen d1 ≤ zlen d) by (unfold zlen; lia). apply IH; lia. }
    destruct t as [| | | | |[n v]|]; try done. by destruct (bytes_eqb n _).
  - unfold raw_at, raw_next. cbn [raw_state raw_data]. by rewrite He.
Qed.
End SignatureLemmas.

Definition with_headers (c : CommitRef) (hs : list (bytes * bytes)) : CommitRef :=
  {| tree := tree c; parents := parents c; author := author c; committer := committer c; encoding := encoding c;
     message := message c; extra_headers := hs |}.
Lemma to_bstring_split {E} a b c : to_bstring (E := E) {| sd_data := a ++ b ++ c; excluded := (zlen a, zlen a + zlen b) |} = Ok (a ++ c).
Proof.
  unfold to_bstring, segments. cbn [sd_data excluded fst snd].
  assert (get_range (a ++ b ++ c) 0 (zlen a) = Some a) as -> by (apply (get_range_app [] a); unfold zlen; cbn; lia). cbn [expect mbind outcome_bind].
  rewrite app_assoc. replace (zlen a + zlen b) with (zlen (a ++ b)) by (rewrite zlen_app; lia). by rewrite get_from_app.
Qed.

(** C17: the signature of a commit. Looking for it does not panic on any bytes. In a commit that is
    parsed, there is none exactly when no extra header has the name of signatures; otherwise the
    signature is the value of the first such header, and the signed data are the text
    of the commit without this header: what was signed before the header was added. *)
Theorem commit_signature_exact {FH : FasterHex} (data : bytes) (k : Kind) (Hd : zlen data < 2 ^ 64) :
  commit_signature k data ≠ Panic ∧
  ∀ c, from_bytes data k = Ok c →
    let name := signature_field_name k in
    (Forall (λ h, h.1 ≠ name) (extra_headers c) ∧ commit_signature k data = Ok None) ∨
    ∃ before v after signed, extra_headers c = before ++ (name, v) :: after ∧ Forall (λ h, h.1 ≠ name) before ∧
      commit_signature k data = Ok (Some (v, signed)) ∧
      to_bstring (E := object_error) signed = Ok (raw_commit (with_headers c (before ++ after))).
Proof.
  unfold commit_signature. fold (raw_at data Tree 0). split.
  { pose proof (signature_loop_safe k (S (length data)) Tree data 0 ltac:(lia) ltac:(lia) ltac:(lia)) as Hs. by destruct (signature_loop _ _ _). }
  intros c Hc. cbv zeta. destruct (commit_cases k data Hd) as [(c' & Hc' & -> & Hok)|[e He]]; unfold from_bytes in *; [|congruence].
  rewrite Hc in Hc'. injection Hc' as <-. rewrite signature_of_commit by done. cbn [mbind outcome_bind].
  pose proof (first_signature_ok k (extra_headers c) (zlen (raw_head c))) as Hf.
  destruct (first_signature k (extra_headers c) _) as [[v [s e]]|]; [right|by left].
  destruct Hf as (before & after & Hh & Hb & -> & ->). exists before, v, after. eexists. do 3 (split; [done|]).
  rewrite raw_commit_head. unfold raw_rest. rewrite Hh, fmap_app, concat_app. cbn [fmap list_fmap concat].
  rewrite <- (zlen_app (raw_head c)). rewrite <- !app_assoc. rewrite (app_assoc (raw_head c)). rewrite to_bstring_split.
  rewrite raw_commit_head. unfold raw_rest. cbn [extra_headers with_headers message]. rewrite fmap_app, concat_app.
  by rewrite <- !app_assoc.
Qed.
(** The sample commit with a signature between its headers *)
Definition signed_commit : CommitRef :=
  with_headers sample_commit [([103], [98; 10; 99; 10]); (SIGNATURE_FIELD_NAME, [49; 10; 50; 10]); ([104], [])].
Lemma commit_signature_exact_witness :
  ∃ before v after signed, extra_headers signed_commit = before ++ (SIGNATURE_FIELD_NAME, v) :: after ∧
    commit_signature (FH := faster_hex_model) Sha1 (raw_commit signed_commit) = Ok (Some (v, signed)) ∧
    to_bstring (E := object_error) signed = Ok (raw_commit (with_headers signed_commit (before ++ after))).
Proof.
  assert (Hd : zlen (raw_commit signed_commit) < 2 ^ 64) by (vm_compute; exact eq_refl).
  assert (Hc : from_bytes (raw_commit signed_commit) Sha1 = Ok signed_commit) by (vm_compute; reflexivity).
  destruct (commit_signature_exact (FH := faster_hex_model) (raw_commit signed_commit) Sha1 Hd) as [_ H].
  destruct (H signed_commit Hc) as [[Hn _]|(before & v & after & signed & Hh & Hb & Hs & Ht)].
  - exfalso. apply list.Forall_cons in Hn as [_ Hn]. apply list.Forall_cons in Hn as [Hn _]. apply Hn. reflexivity.
  - exists before, v, after, signed. split; [exact Hh|]. split; [exact Hs|exact Ht].
Defined.
