(* ===== verification/TagObject.v ===== *)
(** * [gix-object]: tags

    Parsing a tag at once ([tag/decode.rs]) and by the iterator [TagRefIter]
    ([tag/ref_iter.rs]), writing it ([tag/write.rs]), and the kinds of objects
    ([kind.rs]). Header fields are those of [CommitObject], signatures those of
    [ObjectSignature], names are validated by [Validate]. *)

From S2P Require Import Prelude Hash Validate Actor CommitObject ObjectSignature.

(** ** [kind.rs] *)
Inductive ObjectKind := KindTree | KindBlob | KindCommit | KindTag.
Definition kind_from_bytes (s : bytes) : option ObjectKind :=
  if bytes_eqb s [116; 114; 101; 101] then Some KindTree
  else if bytes_eqb s [98; 108; 111; 98] then Some KindBlob
  else if bytes_eqb s [99; 111; 109; 109; 105; 116] then Some KindCommit
  else if bytes_eqb s [116; 97; 103] then Some KindTag
  else None.
Definition kind_as_bytes (k : ObjectKind) : bytes :=
  match k with
  | KindTree => [116; 114; 101; 101]
  | KindCommit => [99; 111; 109; 109; 105; 116]
  | KindBlob => [98; 108; 111; 98]
  | KindTag => [116; 97; 103]
  end.

Definition OBJECT : bytes := [111; 98; 106; 101; 99; 116].
Definition TYPE : bytes := [116; 121; 112; 101].
Definition TAG : bytes := [116; 97; 103].
Definition TAGGER : bytes := [116; 97; 103; 103; 101; 114].

(** ** [tag/decode.rs] *)
Inductive tag_error :=
| FieldError (e : object_error)
| InvalidTagName (e : name_error)
| LeadingDash.
Record TagRef := {
  target : bytes;
  target_kind : ObjectKind;
  tag_version : bytes;
  tagger : option bytes;
  tag_message : bytes;
  tag_signature : option bytes;
}.
Definition all_newlines (l : bytes) : bool := forallb is_nl l.
Definition parse_target (k : Kind) (i : bytes) : outcome object_error (bytes * bytes) := header_field i OBJECT (hex_hash k).
Definition parse_kind (i : bytes) : outcome object_error (ObjectKind * bytes) :=
  header_field i TYPE (λ value, ok_or DecodeFailed (kind_from_bytes value)).
Definition parse_name (i : bytes) : outcome object_error (bytes * bytes) :=
  header_field i TAG (λ value, if bool_decide (value = []) then Err DecodeFailed else Ok value).
Definition tagger_raw (i : bytes) : outcome object_error (option bytes * bytes) :=
  if negb (begins i (TAGGER ++ [32])) then Ok (None, i)
  else '(raw, i) ← header_field i TAGGER (λ raw, _ ← map_err InvalidSignature (decode raw); Ok raw); Ok (Some raw, i).
Definition parse_tagger (i : bytes) : outcome object_error (option SignatureRef * bytes) :=
  if negb (begins i (TAGGER ++ [32])) then Ok (None, i)
  else '(sig, i) ← header_field i TAGGER (λ raw, '(s, _) ← map_err InvalidSignature (decode raw); Ok s); Ok (Some sig, i).
(** The message and the signature; nothing is left. *)
Definition parse_body (i : bytes) : outcome object_error ((bytes * option bytes) * bytes) :=
  if all_newlines i then Ok ((i, None), [])
  else
    rest ← ok_or DecodeFailed (strip_prefix i [10]);
    found ← find rest;
    match found with
    | Some (sig_start, _) =>
        message_end ← (if 0 <? sig_start then
                         b ← expect (get rest (sig_start - 1));
                         Ok (if b =? 10 then sig_start - 1 else sig_start)
                       else Ok sig_start);
        message ← expect (get_range rest 0 message_end);
        signature ← expect (get_from rest sig_start);
        Ok ((message, if bool_decide (signature = []) then None else Some signature), [])
    | None => Ok ((rest, None), [])
    end.
Definition git_tag (k : Kind) (i : bytes) : outcome object_error TagRef :=
  '(target, i) ← parse_target k i;
  '(kind, i) ← parse_kind i;
  '(version, i) ← parse_name i;
  '(tagger, i) ← tagger_raw i;
  '((message, signature), i) ← parse_body i;
  _ ← ensure (bool_decide (i = [])) DecodeFailed;
  Ok {| target := target; target_kind := kind; tag_version := version; tagger := tagger; tag_message := message; tag_signature := signature |}.
Definition tag_from_bytes (data : bytes) (k : Kind) : outcome object_error TagRef := git_tag k data.

(** ** [tag/ref_iter.rs] *)
Inductive TagState := Target | TargetKind | Name | Tagger | TagMessage.
Inductive TagToken :=
| TokenTarget (id : ObjectId)
| TokenTargetKind (k : ObjectKind)
| TokenName (name : bytes)
| TokenTagger (s : option SignatureRef)
| TokenBody (message : bytes) (signature : option bytes).
Section TagIter.
Context {FH : FasterHex} (hash_kind : Kind).
Definition tag_next_inner (state : TagState) (i : bytes) : outcome object_error (TagToken * bytes * TagState) :=
  match state with
  | Target => '(hex, i) ← parse_target hash_kind i; id ← expect_id hex; Ok (TokenTarget id, i, TargetKind)
  | TargetKind => '(kind, i) ← parse_kind i; Ok (TokenTargetKind kind, i, Name)
  | Name => '(name, i) ← parse_name i; Ok (TokenName name, i, Tagger)
  | Tagger => '(sig, i) ← parse_tagger i; Ok (TokenTagger sig, i, TagMessage)
  | TagMessage =>
      '((message, signature), i) ← parse_body i;
      _ ← assert_that (bool_decide (i = []));
      Ok (TokenBody message signature, i, TagMessage)
  end.
Fixpoint tag_tokens_from (fuel : nat) (state : TagState) (data : bytes) : outcome object_error (list (object_error + TagToken)) :=
  match fuel with
  | O => Panic
  | S fuel =>
      match data with
      | [] => Ok []
      | _ =>
          match tag_next_inner state data with
          | Ok (token, data, state) => rest ← tag_tokens_from fuel state data; Ok (inr token :: rest)
          | Err e => Ok [inl e]
          | Panic => Panic
          end
      end
  end.
(** There is one state behind the other: six calls are enough. *)
Definition tag_tokens (data : bytes) : outcome object_error (list (object_error + TagToken)) := tag_tokens_from 7 Target data.
End TagIter.
(** [TagRefIter::signature] *)
Definition tag_iter_signature (data : bytes) : outcome object_error (option ((Format * bytes) * SignedData)) :=
  found ← find data;
  match found with
  | Some (start, format) =>
      sig ← expect (get_from data start);
      Ok (Some ((format, sig), {| sd_data := data; excluded := (start, zlen data) |}))
  | None => Ok None
  end.

(** ** [tag/write.rs] *)
Definition validated_name (name : bytes) : outcome tag_error bytes :=
  _ ← map_err InvalidTagName (tag_name name);
  first ← expect (get name 0);
  _ ← ensure (negb (first =? 45)) LeadingDash;
  Ok name.
Definition tag_write_to (t : TagRef) (out : bytes) : outcome tag_error bytes :=
  let out := trusted_header_field OBJECT (target t) out in
  let out := trusted_header_field TYPE (kind_as_bytes (target_kind t)) out in
  name ← validated_name (tag_version t);
  out ← map_err FieldError (write_header_field TAG name out);
  let out := match tagger t with Some tagger => trusted_header_field TAGGER tagger out | None => out end in
  let out := if negb (all_newlines (tag_message t)) then out ++ [10] else out in
  let out := out ++ tag_message t in
  Ok (match tag_signature t with Some s => out ++ [10] ++ s | None => out end).
Definition tag_size {FH : FasterHex} (t : TagRef) : outcome object_error Z :=
  id ← expect_id (target t);
  Ok (zlen OBJECT + 1 + len_in_hex (kind id) + 1 + (zlen TYPE + 1 + zlen (kind_as_bytes (target_kind t)) + 1) +
      (zlen TAG + 1 + zlen (tag_version t) + 1) +
      match tagger t with Some raw => zlen TAGGER + 1 + zlen raw + 1 | None => 0 end +
      (if all_newlines (tag_message t) then 0 else 1) + zlen (tag_message t) +
      match tag_signature t with Some s => 1 + zlen s | None => 0 end).

(** ** The text of a tag *)
Definition raw_tagger (t : option bytes) : bytes := match t with Some raw => TAGGER ++ 32 :: raw ++ [10] | None => [] end.
Definition raw_tag_head (t : TagRef) : bytes :=
  OBJECT ++ 32 :: target t ++ 10 :: TYPE ++ 32 :: kind_as_bytes (target_kind t) ++ 10 :: TAG ++ 32 :: tag_version t ++ 10 :: raw_tagger (tagger t).
Definition tagger_ok (t : option bytes) : Prop := match t with Some raw => nonl raw ∧ ∃ x, decode raw = Ok x | None => True end.
Record tag_ok (k : Kind) (t : TagRef) : Prop := {
  ok_target : hex_ok k (target t);
  ok_version : nonl (tag_version t) ∧ tag_version t ≠ [];
  ok_tagger : tagger_ok (tagger t);
}.
(** What is behind the headers: newlines only, or a newline, the message, and from the last marker of
    a signature at the start of a line on the signature, with the newline in front of it dropped *)
Definition body_parts (body m : bytes) (s : option bytes) : Prop :=
  (all_newlines body = true ∧ m = body ∧ s = None) ∨
  (all_newlines body = false ∧ ∃ rest, body = 10 :: rest ∧
     match s with
     | None => m = rest ∧ ∀ n f, ~ is_marker rest n f
     | Some s => ∃ n f, is_marker rest n f ∧ (∀ n' f', is_marker rest n' f' → n' ≤ n) ∧
         s = drop (Z.to_nat n) rest ∧ m = take (Z.to_nat (n - 1)) rest
     end).

(** ** Lemmas *)
Lemma kind_bytes s k : kind_from_bytes s = Some k ↔ s = kind_as_bytes k.
Proof.
  unfold kind_from_bytes, bytes_eqb. split.
  - repeat (case_bool_decide; [by intros [= <-]|]). done.
  - intros ->. by destruct k.
Qed.
Lemma begins_iff l p : begins l p = true ↔ ∃ r, l = p ++ r.
Proof.
  unfold begins. destruct (strip_prefix l p) as [r|] eqn:E.
  - apply strip_prefix_Some in E. split; [by exists r|done].
  - split; [done|]. intros [r Hr]. rewrite strip_prefix_None in E. by destruct (E r).
Qed.
Lemma begins_false l p : (∀ r, l ≠ p ++ r) → begins l p = false.
Proof. intros H. destruct (begins l p) eqn:E; [|done]. apply begins_iff in E as [r Hr]. by destruct (H r). Qed.
Lemma marker_prefix rest n f : is_marker rest n f → 0 < n → get rest (n - 1) = Some 10.
Proof. intros [[_ [->|H]] _] Hn; [lia|done]. Qed.
Lemma parse_body_cases body :
  (∃ m s, parse_body body = Ok ((m, s), []) ∧ body_parts body m s) ∨
  (parse_body body = Err DecodeFailed ∧ all_newlines body = false ∧ ∀ rest, body ≠ 10 :: rest).
Proof.
  unfold parse_body, body_parts. destruct (all_newlines body) eqn:Ea; [left; exists body, None; by split; [|left]|].
  destruct (strip_prefix body [10]) as [rest|] eqn:Es; cbn [ok_or mbind outcome_bind].
  2:{ right. split; [done|]. split; [done|]. intros rest Hr. rewrite strip_prefix_None in Es. by destruct (Es rest). }
  apply strip_prefix_Some in Es as ->. left. destruct (find_ok (E := object_error) rest) as (r & -> & Hl). cbn [mbind outcome_bind].
  destruct r as [[n f]|].
  - destruct Hl as (Hm & Hn & Hlast). pose proof Hm as [[Hb _] _].
    assert (Hend : (if 0 <? n then b ← expect (get rest (n - 1)); Ok (if b =? 10 then n - 1 else n) else Ok n) = Ok (E := object_error) (Z.max 0 (n - 1))).
    { destruct (Z.ltb_spec 0 n); [rewrite (marker_prefix rest n f) by done; cbn; f_equal; lia|f_equal; lia]. }
    rewrite Hend. cbn [mbind outcome_bind]. rewrite get_range_in by lia. cbn [expect mbind outcome_bind]. rewrite get_from_in by lia.
    cbn [expect mbind outcome_bind]. rewrite bool_decide_eq_false_2.
    2:{ intros Hd. apply (f_equal zlen) in Hd. unfold zlen in *. rewrite length_drop in Hd. cbn in Hd. lia. }
    eexists _, _. split; [done|]. right. split; [done|]. exists rest. split; [done|]. exists n, f. split; [done|]. split.
    { intros n' f' Hm'. apply (Hlast n' f' Hm'). destruct Hm' as [[? _] _]. lia. }
    split; [done|]. rewrite drop_0. f_equal. lia.
  - eexists _, _. split; [done|]. right. split; [done|]. exists rest. split; [done|]. split; [done|].
    intros n f Hm. apply (Hl n f Hm). destruct Hm as [[? _] _]. lia.
Qed.
Lemma body_parts_fun body m s m' s' : body_parts body m s → body_parts body m' s' → m = m' ∧ s = s'.
Proof.
  unfold body_parts. intros [(Ha & -> & ->)|(Ha & rest & -> & Hs)] [(Ha' & -> & ->)|(Ha' & rest' & Hr & Hs')]; try congruence; [done|].
  injection Hr as <-. destruct s as [s|], s' as [s'|].
  - destruct Hs as (n & f & Hm & Hl & -> & ->), Hs' as (n' & f' & Hm' & Hl' & -> & ->).
    assert (n = n') as -> by (specialize (Hl _ _ Hm'); specialize (Hl' _ _ Hm); lia). done.
  - destruct Hs as (n & f & Hm & _), Hs' as [_ Hn]. by destruct (Hn n f).
  - destruct Hs as [_ Hn], Hs' as (n & f & Hm & _). by destruct (Hn n f).
  - destruct Hs as [-> _], Hs' as [-> _]. done.
Qed.
Lemma body_start body m s : body_parts body m s → body = [] ∨ ∃ r, body = 10 :: r.
Proof.
  intros [(Ha & -> & ->)|(_ & rest & -> & _)]; [|right; by exists rest]. destruct body as [|b body]; [by left|right].
  unfold all_newlines, is_nl in Ha. cbn in Ha. apply andb_prop in Ha as [Hb _]. apply Z.eqb_eq in Hb as ->. by exists body.
Qed.
Lemma parse_body_app body m s : body_parts body m s → parse_body body = Ok ((m, s), []).
Proof.
  intros H. destruct (parse_body_cases body) as [(m' & s' & -> & H')|(_ & Ha & Hr)].
  - by destruct (body_parts_fun _ _ _ _ _ H H') as [-> ->].
  - destruct (body_start _ _ _ H) as [-> |[r ->]]; [done|]. by destruct (Hr r).
Qed.
Lemma no_tagger body m s : body_parts body m s → begins body (TAGGER ++ [32]) = false.
Proof. intros H. apply begins_false. intros r. destruct (body_start _ _ _ H) as [-> |[r' ->]]; done. Qed.

(** The fields *)
Lemma decode_value_safe raw : zlen raw < 2 ^ 64 → (_ ← map_err InvalidSignature (decode raw); Ok raw) ≠ Panic.
Proof. intros Hr. pose proof (decode_safe raw Hr). by destruct (decode raw). Qed.
Lemma tagger_raw_cases i : zlen i < 2 ^ 64 →
  (∃ t r, tagger_raw i = Ok (t, r) ∧ i = raw_tagger t ++ r ∧ tagger_ok t) ∨ ∃ e, tagger_raw i = Err e.
Proof.
  intros Hi. unfold tagger_raw. destruct (begins i (TAGGER ++ [32])); cbn [negb]; [|left; by exists None, i].
  destruct (header_field_cases i TAGGER (λ raw, _ ← map_err InvalidSignature (decode raw); Ok raw)) as [(v & x & r & Hv & Hx & -> & ->)|[e ->]]; [|left|right; by eexists].
  { intros v Hv. apply decode_value_safe. lia. }
  destruct (decode v) as [y| |] eqn:Ed; [|done|done]. injection Hx as <-. exists (Some v), r. split; [done|]. split; [|by split; [|exists y]].
  cbn [raw_tagger]. rewrite <- app_assoc. cbn [app]. by rewrite <- app_assoc.
Qed.
Lemma tagger_field_app raw r {T} (f : SignatureRef * bytes → T) x : nonl raw → decode raw = Ok x →
  header_field (TAGGER ++ 32 :: raw ++ 10 :: r) TAGGER (λ raw, y ← map_err InvalidSignature (decode raw); Ok (f y)) = Ok (f x, r).
Proof. intros Hr Hx. rewrite header_field_app by done. by rewrite Hx. Qed.
Lemma tagger_raw_app t body m s : tagger_ok t → body_parts body m s → tagger_raw (raw_tagger t ++ body) = Ok (t, body).
Proof.
  intros Ht Hb. unfold tagger_raw. destruct t as [raw|]; cbn [raw_tagger app].
  - rewrite <- app_assoc. cbn [app]. rewrite <- app_assoc. cbn [app].
    assert (begins (TAGGER ++ 32 :: raw ++ 10 :: body) (TAGGER ++ [32]) = true) as -> by (apply begins_iff; eexists; by rewrite <- app_assoc).
    cbn [negb]. destruct Ht as [Hr [x Hx]]. rewrite header_field_app by done. by rewrite Hx.
  - by rewrite (no_tagger body m s).
Qed.
Lemma kind_field_app k r : parse_kind (TYPE ++ 32 :: kind_as_bytes k ++ 10 :: r) = Ok (k, r).
Proof.
  unfold parse_kind. rewrite header_field_app by (destruct k; by repeat constructor).
  by assert (kind_from_bytes (kind_as_bytes k) = Some k) as -> by (by apply kind_bytes).
Qed.
Lemma name_field_app n r : nonl n → n ≠ [] → parse_name (TAG ++ 32 :: n ++ 10 :: r) = Ok (n, r).
Proof. intros Hn Hne. unfold parse_name. rewrite header_field_app by done. by rewrite bool_decide_eq_false_2. Qed.
Lemma target_field_app k h r : hex_ok k h → parse_target k (OBJECT ++ 32 :: h ++ 10 :: r) = Ok (h, r).
Proof. intros Hh. unfold parse_target. rewrite header_field_app by (by eapply hex_ok_nonl). by rewrite hex_hash_ok. Qed.
Lemma target_field_cases k i :
  (∃ h r, parse_target k i = Ok (h, r) ∧ hex_ok k h ∧ i = OBJECT ++ 32 :: h ++ 10 :: r) ∨ ∃ e, parse_target k i = Err e.
Proof.
  unfold parse_target. destruct (header_field_cases i OBJECT (hex_hash k)) as [(v & x & r & Hv & Hx & -> & He)|H]; [|left|by right].
  { intros v _. apply hex_hash_safe. }
  destruct (hex_hash_cases k v) as [[Hok Hh]|Hh]; [|congruence]. rewrite Hh in Hx. injection Hx as <-. by exists v, r.
Qed.
Lemma kind_field_cases i : (∃ k r, parse_kind i = Ok (k, r) ∧ i = TYPE ++ 32 :: kind_as_bytes k ++ 10 :: r) ∨ ∃ e, parse_kind i = Err e.
Proof.
  unfold parse_kind. destruct (header_field_cases i TYPE (λ value, ok_or DecodeFailed (kind_from_bytes value))) as [(v & x & r & Hv & Hx & -> & He)|H]; [|left|by right].
  { intros v _. by destruct (kind_from_bytes v). }
  destruct (kind_from_bytes v) as [k|] eqn:Ek; [|done]. injection Hx as <-. apply kind_bytes in Ek as ->. by exists k, r.
Qed.
Lemma name_field_cases i : (∃ n r, parse_name i = Ok (n, r) ∧ nonl n ∧ n ≠ [] ∧ i = TAG ++ 32 :: n ++ 10 :: r) ∨ ∃ e, parse_name i = Err e.
Proof.
  unfold parse_name.
  destruct (header_field_cases i TAG (λ value, if bool_decide (value = []) then Err DecodeFailed else Ok value)) as [(v & x & r & Hv & Hx & -> & He)|H]; [|left|by right].
  { intros v _. by case_bool_decide. }
  case_bool_decide as Hne; [done|]. injection Hx as <-. by exists v, r.
Qed.
Lemma git_tag_app k t body : tag_ok k t → body_parts body (tag_message t) (tag_signature t) → git_tag k (raw_tag_head t ++ body) = Ok t.
Proof.
  intros [Ht [Hn Hne] Htg] Hb. unfold git_tag, raw_tag_head. repeat (rewrite <- app_assoc || cbn [app]).
  rewrite target_field_app by done. cbn [mbind outcome_bind]. rewrite kind_field_app. cbn [mbind outcome_bind].
  rewrite name_field_app by done. cbn [mbind outcome_bind]. rewrite (tagger_raw_app _ _ _ _ Htg Hb). cbn [mbind outcome_bind].
  rewrite (parse_body_app _ _ _ Hb). by destruct t.
Qed.
(** The headers but the tagger, by either parser *)
Lemma tag_head_cases k data : zlen data < 2 ^ 64 →
  (∃ h kd n r, parse_target k data = Ok (h, TYPE ++ 32 :: kind_as_bytes kd ++ 10 :: TAG ++ 32 :: n ++ 10 :: r) ∧
     hex_ok k h ∧ nonl n ∧ n ≠ [] ∧ data = OBJECT ++ 32 :: h ++ 10 :: TYPE ++ 32 :: kind_as_bytes kd ++ 10 :: TAG ++ 32 :: n ++ 10 :: r ∧ zlen r < 2 ^ 64) ∨
  (∃ e, parse_target k data = Err e) ∨
  (∃ h i e, parse_target k data = Ok (h, i) ∧ hex_ok k h ∧ parse_kind i = Err e) ∨
  (∃ h i kd j e, parse_target k data = Ok (h, i) ∧ hex_ok k h ∧ parse_kind i = Ok (kd, j) ∧ parse_name j = Err e).
Proof.
  intros Hd. destruct (target_field_cases k data) as [(h & i & Et & Hh & ->)|H]; [|by right; left].
  destruct (kind_field_cases i) as [(kd & j & Ek & ->)|[e He]]; [|right; right; left; by exists h, i, e].
  destruct (name_field_cases j) as [(n & r & En & Hn & Hne & ->)|[e He]].
  - left. exists h, kd, n, r. split; [done|]. do 4 (split; [done|]).
    pose proof (zlen_field OBJECT h (TYPE ++ 32 :: kind_as_bytes kd ++ 10 :: TAG ++ 32 :: n ++ 10 :: r)).
    pose proof (zlen_field TYPE (kind_as_bytes kd) (TAG ++ 32 :: n ++ 10 :: r)). pose proof (zlen_field TAG n r). lia.
  - right. right. right. exists h, (TYPE ++ 32 :: kind_as_bytes kd ++ 10 :: j), kd, j, e. split; [done|]. split; [done|]. split; [apply kind_field_app|done].
Qed.
Lemma git_tag_cases k data : zlen data < 2 ^ 64 →
  (∃ t body, git_tag k data = Ok t ∧ data = raw_tag_head t ++ body ∧ tag_ok k t ∧ body_parts body (tag_message t) (tag_signature t)) ∨
  ∃ e, git_tag k data = Err e.
Proof.
  intros Hd. destruct (tag_head_cases k data Hd) as [(h & kd & n & r & Et & Hh & Hn & Hne & Hdata & Hr)|[[e He]|[(h & i & e & He & _ & Hk)|(h & i & kd & j & e & He & _ & Hk & Hn)]]].
  2:{ right. exists e. unfold git_tag. by rewrite He. }
  2:{ right. exists e. unfold git_tag. rewrite He. cbn [mbind outcome_bind]. by rewrite Hk. }
  2:{ right. exists e. unfold git_tag. rewrite He. cbn [mbind outcome_bind]. rewrite Hk. cbn [mbind outcome_bind]. by rewrite Hn. }
  destruct (tagger_raw_cases r Hr) as [(tg & body & Etg & -> & Htg)|[e He]].
  2:{ right. exists e. unfold git_tag. rewrite Et. cbn [mbind outcome_bind]. rewrite kind_field_app. cbn [mbind outcome_bind].
      rewrite name_field_app by done. cbn [mbind outcome_bind]. by rewrite He. }
  destruct (parse_body_cases body) as [(m & s & Eb & Hb)|(Eb & _)].
  2:{ right. exists DecodeFailed. unfold git_tag. rewrite Et. cbn [mbind outcome_bind]. rewrite kind_field_app. cbn [mbind outcome_bind].
      rewrite name_field_app by done. cbn [mbind outcome_bind]. rewrite Etg. cbn [mbind outcome_bind]. by rewrite Eb. }
  left. set (t := {| target := h; target_kind := kd; tag_version := n; tagger := tg; tag_message := m; tag_signature := s |}).
  assert (Hraw : data = raw_tag_head t ++ body) by (rewrite Hdata; unfold raw_tag_head; repeat (rewrite <- app_assoc || cbn [app]); done).
  assert (Hok : tag_ok k t) by (by constructor). exists t, body. split; [|done]. rewrite Hraw. by apply git_tag_app.
Qed.

(** C19: a tag is parsed from bytes exactly when they are its headers, in order, and a body of its parts: newlines
    only, which are the message; or a newline and the message, and the signature from the last marker of a
    signature at the start of a line on. No bytes are a panic. *)
Theorem tag_decode_exact (data : bytes) (k : Kind) (Hd : zlen data < 2 ^ 64) :
  tag_from_bytes data k ≠ Panic ∧
  ∀ t, tag_from_bytes data k = Ok t ↔
    ∃ body, data = raw_tag_head t ++ body ∧ tag_ok k t ∧ body_parts body (tag_message t) (tag_signature t).
Proof.
  unfold tag_from_bytes. destruct (git_tag_cases k data Hd) as [(t & body & Et & Hdata & Hok & Hb)|[e He]].
  - rewrite Et. split; [done|]. intros t'. split; [intros [= <-]; by exists body|]. intros (body' & Hdata' & Hok' & Hb').
    pose proof (git_tag_app k t' body' Hok' Hb') as H. rewrite <- Hdata' in H. congruence.
  - rewrite He. split; [done|]. intros t. split; [done|]. intros (body & -> & Hok & Hb). by rewrite git_tag_app in He.
Qed.

(** ** Writing *)
Lemma validated_name_cases n : n ≠ [] → validated_name n = Ok n ∨ ∃ e, validated_name n = Err e.
Proof.
  intros Hn. unfold validated_name, tag_name. destruct (name_inner_validate n) as [[_ ->]|[_ [e ->]]]; cbn [mbind outcome_bind map_err]; [|right; by eexists].
  destruct n as [|b n]; [done|]. change (get (b :: n) 0) with (Some b). cbn [expect mbind outcome_bind ensure].
  destruct (negb (b =? 45)); cbn; [by left|right; by eexists].
Qed.
Definition written_body (t : TagRef) : bytes :=
  (if all_newlines (tag_message t) then [] else [10]) ++ tag_message t ++ match tag_signature t with Some s => 10 :: s | None => [] end.
Lemma tag_write_to_ok k t out : tag_ok k t → validated_name (tag_version t) = Ok (tag_version t) →
  tag_write_to t out = Ok (out ++ raw_tag_head t ++ written_body t).
Proof.
  intros [_ [Hn Hne] _] Hv. unfold tag_write_to. rewrite Hv. cbn [mbind outcome_bind]. rewrite write_header_field_ok by done.
  cbn [map_err mbind outcome_bind]. unfold trusted_header_field, written_body, raw_tag_head, raw_tagger. f_equal.
  destruct (tagger t), (all_newlines (tag_message t)), (tag_signature t); cbn [negb]; repeat (rewrite <- app_assoc || rewrite app_nil_r || cbn [app]); done.
Qed.
Lemma tag_size_ok {FH : FasterHex} k t : tag_ok k t → tag_size t = Ok (zlen (raw_tag_head t ++ written_body t)).
Proof.
  intros [Ht _ _]. unfold tag_size. destruct (expect_id_ok k (target t) Ht) as (id & -> & _ & Hk & _). cbn [mbind outcome_bind]. rewrite Hk.
  f_equal. unfold raw_tag_head, written_body. destruct Ht as [Hl _]. repeat (rewrite zlen_app || rewrite zlen_cons). rewrite Hl.
  assert (zlen (raw_tagger (tagger t)) = match tagger t with Some raw => zlen TAGGER + 1 + zlen raw + 1 | None => 0 end) as ->.
  { destruct (tagger t); [|done]. cbn [raw_tagger]. rewrite zlen_app, zlen_cons, zlen_app. change (zlen [10]) with 1. lia. }
  assert (zlen (if all_newlines (tag_message t) then [] else [10]) = if all_newlines (tag_message t) then 0 else 1) as -> by (by destruct (all_newlines _)).
  assert (zlen (match tag_signature t with Some s => 10 :: s | None => [] end) = match tag_signature t with Some s => 1 + zlen s | None => 0 end) as ->; [|lia].
  destruct (tag_signature t); [by rewrite zlen_cons|done].
Qed.
Lemma all_newlines_replicate l : all_newlines l = true → l = replicate (length l) 10.
Proof.
  induction l as [|b l IH]; [done|]. unfold all_newlines, is_nl in *. cbn. intros H. apply andb_prop in H as [Hb Hl]. apply Z.eqb_eq in Hb as ->.
  f_equal. by apply IH.
Qed.
(** The newlines between the headers and a signature are one less when they are all there is. *)
Lemma written_body_parts t body : body_parts body (tag_message t) (tag_signature t) →
  written_body t = body ∨
  ∃ s n, tag_signature t = Some s ∧ tag_message t = replicate n 10 ∧ body = replicate (S (S n)) 10 ++ s ∧ written_body t = replicate (S n) 10 ++ s.
Proof.
  unfold written_body. intros [(Ha & -> & ->)|(Ha & rest & -> & Hs)].
  - rewrite Ha. left. cbn. by rewrite app_nil_r.
  - destruct (tag_signature t) as [s|].
    + destruct Hs as (n & f & Hm & _ & -> & Hmsg). pose proof Hm as [[Hn _] _].
      destruct (Z.eq_dec n 0) as [->|Hn0].
      { left. rewrite Hmsg. done. }
      assert (Hrest : rest = tag_message t ++ 10 :: drop (Z.to_nat n) rest).
      { rewrite Hmsg. pose proof (marker_prefix rest n f Hm ltac:(lia)) as Hg. apply get_Some in Hg as [_ Hg].
        rewrite <- (take_drop (Z.to_nat (n - 1)) rest) at 1. f_equal. rewrite (drop_S rest 10 (Z.to_nat (n - 1))) by done. do 2 f_equal. lia. }
      destruct (all_newlines (tag_message t)) eqn:Em.
      * right. exists (drop (Z.to_nat n) rest), (length (tag_message t)). apply all_newlines_replicate in Em. split; [done|]. split; [done|].
        assert (Hr : ∀ l : bytes, replicate (length (tag_message t)) 10 ++ 10 :: l = replicate (S (length (tag_message t))) 10 ++ l).
        { intros l. change (10 :: l) with ([10] ++ l). rewrite app_assoc. by rewrite <- replicate_S_end. }
        split.
        -- rewrite Hrest at 1. rewrite Em at 1. rewrite Hr. done.
        -- cbn [app]. rewrite Em at 1. by rewrite Hr.
      * left. cbn [app]. by rewrite <- Hrest.
    + left. destruct Hs as [Hm _]. change (all_newlines rest = false) in Ha. by rewrite Hm, app_nil_r, Ha.
Qed.

(** C32: a parsed tag whose name is valid is written as the bytes it was parsed from, and [size] is
    their number; a name that is not is the error. Only if there is nothing but newlines, at least two, in
    front of a signature, one of them is lost: what is written are other bytes, and another tag if there were
    more than two. *)
Theorem tag_write {FH : FasterHex} (data out : bytes) (k : Kind) (t : TagRef)
    (Hd : zlen data < 2 ^ 64) (Ht : tag_from_bytes data k = Ok t) :
  (∃ e, validated_name (tag_version t) = Err e ∧ tag_write_to t out = Err e) ∨
  ∃ written, validated_name (tag_version t) = Ok (tag_version t) ∧
    tag_write_to t out = Ok (out ++ written) ∧ tag_size t = Ok (zlen written) ∧
    (written = data ∨
     ∃ s n, tag_signature t = Some s ∧ tag_message t = replicate n 10 ∧
       data = raw_tag_head t ++ replicate (S (S n)) 10 ++ s ∧ written = raw_tag_head t ++ replicate (S n) 10 ++ s).
Proof.
  destruct (git_tag_cases k data Hd) as [(t' & body & Et & -> & Hok & Hb)|[e He]]; unfold tag_from_bytes in *; [|congruence].
  rewrite Ht in Et. injection Et as <-. pose proof Hok as [_ [Hn Hne] _].
  destruct (validated_name_cases (tag_version t) Hne) as [Hv|[e He]]; [right|left; exists e; split; [done|]; unfold tag_write_to; by rewrite He].
  exists (raw_tag_head t ++ written_body t). split; [done|]. split; [by apply (tag_write_to_ok k)|]. split; [by apply (tag_size_ok k)|].
  destruct (written_body_parts t body Hb) as [->|(s & n & Hs & Hm & -> & ->)]; [by left|right]. by exists s, n.
Qed.
(** Two newlines in front of a signature *)
Definition sample_armor : bytes := SSH_SIGNATURE ++ [10; 120; 10].
Definition sample_tag : TagRef :=
  {| target := sample_id 97; target_kind := KindCommit; tag_version := [118; 49]; tagger := Some sample_sig; tag_message := []; tag_signature := Some sample_armor |}.
Example newline_lost :
  tag_from_bytes (raw_tag_head sample_tag ++ [10; 10] ++ sample_armor) Sha1 = Ok sample_tag ∧
  tag_write_to sample_tag [] = Ok (raw_tag_head sample_tag ++ [10] ++ sample_armor).
Proof. split; vm_compute; reflexivity. Qed.

(** ** The iterator *)
Definition same_tagger (raw : option bytes) (s : option SignatureRef) : Prop :=
  match raw, s with
  | None, None => True
  | Some raw, Some s => ∃ rest, decode raw = Ok (s, rest)
  | _, _ => False
  end.
(** Items come as long as there are bytes: none for a tagger or a body that nothing is left for. *)
Definition body_tokens (t : TagRef) : list TagToken :=
  if bool_decide (tag_message t = []) && bool_decide (tag_signature t = None) then [] else [TokenBody (tag_message t) (tag_signature t)].
Definition expected_tokens (t : TagRef) (id : ObjectId) (s : option SignatureRef) : list TagToken :=
  TokenTarget id :: TokenTargetKind (target_kind t) :: TokenName (tag_version t) ::
  match tagger t, body_tokens t with None, [] => [] | _, body => TokenTagger s :: body end.

Lemma parse_tagger_raw i :
  match tagger_raw i with
  | Ok (raw, r) => ∃ s, parse_tagger i = Ok (s, r) ∧ same_tagger raw s
  | Err e => parse_tagger i = Err e
  | Panic => parse_tagger i = Panic
  end.
Proof.
  unfold tagger_raw, parse_tagger. destruct (negb (begins i (TAGGER ++ [32]))); [by exists None|]. rewrite !header_field_spec.
  destruct (field_line i TAGGER) as [[v r]|]; [|done]. destruct (decode v) as [[s x]|e|] eqn:Ed; cbn; [|done|done].
  exists (Some s). split; [done|]. by exists x.
Qed.
Lemma body_tokens_nil t body : body_parts body (tag_message t) (tag_signature t) → body_tokens t = [] ↔ body = [].
Proof.
  intros Hb. unfold body_tokens. split.
  - intros H. destruct (bool_decide_reflect (tag_message t = [])) as [Hm|]; [|done]. destruct (bool_decide_reflect (tag_signature t = None)) as [Hs|]; [|done].
    rewrite Hm, Hs in Hb. destruct Hb as [(_ & <- & _)|(Ha & rest & -> & <- & _)]; done.
  - intros ->. destruct Hb as [(_ & -> & ->)|(_ & rest & H & _)]; done.
Qed.
Section TagIterLemmas.
Context {FH : FasterHex} (k : Kind).
Lemma tag_step fuel st d t d' st' : d ≠ [] → tag_next_inner k st d = Ok (t, d', st') →
  tag_tokens_from k (S fuel) st d = (rest ← tag_tokens_from k fuel st' d'; Ok (inr t :: rest)).
Proof. intros Hd Hn. destruct d as [|b d]; [done|]. cbn [tag_tokens_from]. by rewrite Hn. Qed.
Lemma tag_fails fuel st d e : tag_next_inner k st d = Err e →
  tag_tokens_from k (S fuel) st d = Ok (if bool_decide (d = []) then [] else [inl e]).
Proof. intros Hn. destruct d as [|b d]; [done|]. cbn [tag_tokens_from]. by rewrite Hn. Qed.
(** Behind the three headers *)
Lemma tag_tail_tokens fuel t body : tagger_ok (tagger t) → body_parts body (tag_message t) (tag_signature t) →
  ∃ s, same_tagger (tagger t) s ∧
    tag_tokens_from k (S (S (S fuel))) Tagger (raw_tagger (tagger t) ++ body) = Ok (inr <$> match tagger t, body_tokens t with None, [] => [] | _, body => TokenTagger s :: body end).
Proof.
  intros Htg Hb.
  pose proof (parse_tagger_raw (raw_tagger (tagger t) ++ body)) as Hp. rewrite (tagger_raw_app _ _ _ _ Htg Hb) in Hp.
  destruct Hp as (s & Hp & Hs). exists s. split; [done|].
  assert (Hbody : tag_tokens_from k (S (S fuel)) TagMessage body = Ok (inr <$> body_tokens t)).
  { destruct (decide (body = [])) as [->|Hne].
    - assert (body_tokens t = []) as -> by (by apply (body_tokens_nil t [])). done.
    - rewrite (tag_step _ _ _ (TokenBody (tag_message t) (tag_signature t)) [] TagMessage); [|done|cbn; by rewrite (parse_body_app _ _ _ Hb)].
      cbn. pose proof (body_tokens_nil t body Hb) as Hn. unfold body_tokens in *. destruct (bool_decide _ && bool_decide _); naive_solver. }
  destruct (decide (raw_tagger (tagger t) ++ body = [])) as [He|Hne].
  - rewrite He. apply app_eq_nil in He as [Hh ->]. assert (body_tokens t = []) as -> by (by apply (body_tokens_nil t [])). by destruct (tagger t).
  - rewrite (tag_step _ _ _ (TokenTagger s) body TagMessage); [|done|cbn; by rewrite Hp]. rewrite Hbody. cbn [mbind outcome_bind].
    destruct (tagger t) as [raw|]; [done|]. destruct (body_tokens t) eqn:Eb; [|done].
    apply (body_tokens_nil t body Hb) in Eb as ->. by destruct Hne.
Qed.
Lemma tag_tokens_cases data : zlen data < 2 ^ 64 →
  (∃ t id s, git_tag k data = Ok t ∧ expect_id (target t) = Ok id ∧ same_tagger (tagger t) s ∧ tag_tokens k data = Ok (inr <$> expected_tokens t id s)) ∨
  (∃ items, tag_tokens k data = Ok items ∧ (zlen items < 3 ∨ ∃ e, inl e ∈ items) ∧ ∃ e, git_tag k data = Err e).
Proof.
  intros Hd. unfold tag_tokens. destruct (tag_head_cases k data Hd) as [(h & kd & n & r & Et & Hh & Hn & Hne & Hdata & Hr)|[[e He]|[(h & i & e & He & Hh & Hk)|(h & i & kd & j & e & He & Hh & Hk & Hn)]]].
  2:{ right. rewrite (tag_fails _ _ _ e) by (cbn; by rewrite He). eexists. split; [done|]. split; [left; by case_bool_decide|]. exists e. unfold git_tag. by rewrite He. }
  2:{ right. destruct (expect_id_ok k h Hh) as (id & Hid & _). assert (Hne : data ≠ []) by (by intros ->).
      rewrite (tag_step _ _ _ (TokenTarget id) i TargetKind); [|done|cbn; rewrite He; cbn; by rewrite Hid]. rewrite (tag_fails _ _ _ e) by (cbn; by rewrite Hk).
      eexists. split; [done|]. split; [left; by case_bool_decide|]. exists e. unfold git_tag. rewrite He. cbn [mbind outcome_bind]. by rewrite Hk. }
  2:{ right. destruct (expect_id_ok k h Hh) as (id & Hid & _). assert (Hne : data ≠ []) by (by intros ->). assert (Hni : i ≠ []) by (by intros ->).
      rewrite (tag_step _ _ _ (TokenTarget id) i TargetKind); [|done|cbn; rewrite He; cbn; by rewrite Hid].
      rewrite (tag_step _ _ _ (TokenTargetKind kd) j Name); [|done|cbn; by rewrite Hk]. rewrite (tag_fails _ _ _ e) by (cbn; by rewrite Hn).
      eexists. split; [done|]. split; [|exists e; unfold git_tag; rewrite He; cbn [mbind outcome_bind]; rewrite Hk; cbn [mbind outcome_bind]; by rewrite Hn].
      case_bool_decide; [by left|]. right. exists e. apply list_elem_of_In; cbn; auto 7. }
  destruct (expect_id_ok k h Hh) as (id & Hid & _).
  assert (Hsteps : tag_tokens_from k 7 Target data = rest ← tag_tokens_from k 4 Tagger r; Ok (inr (TokenTarget id) :: inr (TokenTargetKind kd) :: inr (TokenName n) :: rest)).
  { rewrite Hdata. rewrite (tag_step _ _ _ (TokenTarget id) (TYPE ++ 32 :: kind_as_bytes kd ++ 10 :: TAG ++ 32 :: n ++ 10 :: r) TargetKind); [|done|cbn [tag_next_inner]; rewrite target_field_app by done; cbn [mbind outcome_bind]; by rewrite Hid].
    rewrite (tag_step _ _ _ (TokenTargetKind kd) (TAG ++ 32 :: n ++ 10 :: r) Name); [|done|cbn [tag_next_inner]; by rewrite kind_field_app].
    rewrite (tag_step _ _ _ (TokenName n) r Tagger); [|done|cbn [tag_next_inner]; by rewrite name_field_app]. by destruct (tag_tokens_from k 4 Tagger r). }
  rewrite Hsteps. pose proof (parse_tagger_raw r) as Hp. destruct (git_tag_cases k data Hd) as [(t & body & Hg & Hraw & Hok & Hb)|Hg].
  - left. assert (Heq : data = OBJECT ++ 32 :: target t ++ 10 :: TYPE ++ 32 :: kind_as_bytes (target_kind t) ++ 10 :: TAG ++ 32 :: tag_version t ++ 10 :: raw_tagger (tagger t) ++ body).
    { rewrite Hraw. unfold raw_tag_head. repeat (rewrite <- app_assoc || cbn [app]). done. }
    pose proof Hok as [Hth [Hvn Hvne] Htg]. rewrite Heq, target_field_app in Et by done.
    set (j := TAG ++ 32 :: tag_version t ++ 10 :: raw_tagger (tagger t) ++ body) in *.
    assert (Hi : TYPE ++ 32 :: kind_as_bytes (target_kind t) ++ 10 :: j = TYPE ++ 32 :: kind_as_bytes kd ++ 10 :: TAG ++ 32 :: n ++ 10 :: r) by congruence.
    assert (h = target t) by congruence. pose proof (kind_field_app (target_kind t) j) as Ek. rewrite Hi, kind_field_app in Ek.
    assert (kd = target_kind t) by congruence. assert (Hj : j = TAG ++ 32 :: n ++ 10 :: r) by congruence.
    pose proof (name_field_app (tag_version t) (raw_tagger (tagger t) ++ body) Hvn Hvne) as En. fold j in En. rewrite Hj, name_field_app in En by done.
    assert (n = tag_version t) by congruence. assert (r = raw_tagger (tagger t) ++ body) by congruence.
    subst h kd n r. destruct (tag_tail_tokens 1 t body Htg Hb) as (s & Hs & Htok). exists t, id, s. split; [done|]. split; [done|]. split; [done|].
    rewrite Htok. done.
  - right. destruct (tagger_raw_cases r Hr) as [(tg & body & Etg & -> & Htg)|[e He]].
    + rewrite Etg in Hp. destruct Hp as (s & Hp & _). destruct (parse_body_cases body) as [(m & sg & Eb & Hb)|(Eb & Ha & _)].
      * exfalso. destruct Hg as [e Hg]. revert Hg. rewrite Hdata. unfold git_tag. rewrite target_field_app by done. cbn [mbind outcome_bind].
        rewrite kind_field_app. cbn [mbind outcome_bind]. rewrite name_field_app by done. cbn [mbind outcome_bind]. rewrite Etg. cbn [mbind outcome_bind]. by rewrite Eb.
      * assert (Hbne : body ≠ []) by (by intros ->). rewrite (tag_step _ _ _ (TokenTagger s) body TagMessage); [|by destruct tg|cbn [tag_next_inner]; by rewrite Hp].
        rewrite (tag_fails _ _ _ DecodeFailed) by (cbn [tag_next_inner]; by rewrite Eb). rewrite bool_decide_eq_false_2 by done. cbn [mbind outcome_bind].
        eexists. split; [done|]. split; [|done]. right. exists DecodeFailed. apply list_elem_of_In; cbn; auto 7.
    + rewrite He in Hp. assert (Hrne : r ≠ []) by (by intros ->). rewrite (tag_fails _ _ _ e) by (cbn [tag_next_inner]; by rewrite Hp).
      rewrite bool_decide_eq_false_2 by done. cbn [mbind outcome_bind]. eexists. split; [done|]. split; [|done]. right. exists e. apply list_elem_of_In; cbn; auto 7.
Qed.
End TagIterLemmas.

(** Iterating over the tokens of a tag does not panic on any bytes and agrees with parsing the tag at once: all parts
    that there are bytes for when the tag is parsed, and a parsed tag when three tokens and all behind them
    come without an error. *)
Theorem tag_tokens_agree {FH : FasterHex} (data : bytes) (k : Kind) (Hd : zlen data < 2 ^ 64) :
  tag_tokens k data ≠ Panic ∧
  (∀ t, tag_from_bytes data k = Ok t → ∃ id s, expect_id (target t) = Ok id ∧ same_tagger (tagger t) s ∧
     tag_tokens k data = Ok (inr <$> expected_tokens t id s)) ∧
  (∀ ts, tag_tokens k data = Ok (inr <$> ts) → 3 ≤ zlen ts → ∃ t, tag_from_bytes data k = Ok t).
Proof.
  unfold tag_from_bytes. destruct (tag_tokens_cases k data Hd) as [(t & id & s & Ht & Hid & Hs & Htok)|(items & Htok & Hbad & e & He)].
  - rewrite Htok. split; [done|]. split; [|by exists t]. intros t' Ht'. rewrite Ht in Ht'. injection Ht' as <-. by exists id, s.
  - rewrite Htok, He. split; [done|]. split; [done|]. intros ts [= ->] Hlen. destruct Hbad as [Hl|[e' Hin]].
    + unfold zlen in *. rewrite length_fmap in Hl. lia.
    + by apply list_elem_of_fmap in Hin as (? & ? & _).
Qed.

(** ** The signature of a tag *)
Lemma from_signature_other b l : b ≠ 45 → from_signature (b :: l) = None.
Proof.
  intros Hb. unfold from_signature. rewrite !begins_false; [done|..]; intros r [= H _]; done.
Qed.
Lemma is_marker_line l rest n f : nonl l → from_signature (l ++ 10 :: rest) = None →
  is_marker (l ++ 10 :: rest) n f ↔ is_marker rest (n - (zlen l + 1)) f.
Proof.
  intros Hl Hnone. unfold is_marker, line_start. pose proof (zlen_nonneg l). pose proof (zlen_nonneg rest).
  assert (Hz : zlen (l ++ 10 :: rest) = zlen l + 1 + zlen rest) by (rewrite zlen_app, zlen_cons; lia).
  assert (Hdrop : zlen l < n → drop (Z.to_nat n) (l ++ 10 :: rest) = drop (Z.to_nat (n - (zlen l + 1))) rest).
  { intros Hn. replace (Z.to_nat n) with (length l + S (Z.to_nat (n - (zlen l + 1))))%nat by (unfold zlen in *; lia).
    rewrite drop_app_add. done. }
  split.
  - intros [[Hn Hs] Hf].
    assert (Hgt : zlen l < n).
    { destruct Hs as [->|Hs]; [change (from_signature (l ++ 10 :: rest) = Some f) in Hf; congruence|]. destruct (Z_le_gt_dec n (zlen l)) as [Hle|]; [|lia]. exfalso.
      destruct (Z.eq_dec n 0) as [->|]; [change (from_signature (l ++ 10 :: rest) = Some f) in Hf; congruence|]. apply get_Some in Hs as [_ Hs]. unfold zlen in *. rewrite lookup_app_l in Hs by lia.
      unfold nonl in Hl. rewrite Forall_lookup in Hl. by apply Hl in Hs. }
    rewrite Hdrop in Hf by done. split; [|done]. split; [lia|]. destruct (Z.eq_dec n (zlen l + 1)) as [->|]; [left; lia|right].
    destruct Hs as [->|Hs]; [lia|]. apply get_Some in Hs as [_ Hs]. unfold get. destruct (Z.leb_spec 0 (n - (zlen l + 1) - 1)); [|lia].
    rewrite <- Hs. replace (Z.to_nat (n - 1)) with (length l + S (Z.to_nat (n - (zlen l + 1) - 1)))%nat by (unfold zlen in *; lia).
    rewrite lookup_app_r by lia. by replace (length l + S (Z.to_nat (n - (zlen l + 1) - 1)) - length l)%nat with (S (Z.to_nat (n - (zlen l + 1) - 1))) by lia.
  - intros [[Hn Hs] Hf]. rewrite Hdrop by lia. split; [|done]. split; [lia|]. right. unfold get. destruct (Z.leb_spec 0 (n - 1)); [|lia].
    replace (Z.to_nat (n - 1)) with (length l + Z.to_nat (n - (zlen l + 1)))%nat by (unfold zlen in *; lia). rewrite lookup_app_r by lia.
    replace (length l + Z.to_nat (n - (zlen l + 1)) - length l)%nat with (Z.to_nat (n - (zlen l + 1))) by lia.
    destruct Hs as [Hs|Hs]; [rewrite Hs; done|]. apply get_Some in Hs as [Hb Hs]. 
    replace (Z.to_nat (n - (zlen l + 1))) with (S (Z.to_nat (n - (zlen l + 1) - 1))) by lia. done.
Qed.
(** A header that does not start with a dash *)
Lemma is_marker_field b name v rest n f : b ≠ 45 → nonl (b :: name) → nonl v →
  is_marker ((b :: name) ++ 32 :: v ++ 10 :: rest) n f ↔ is_marker rest (n - zlen ((b :: name) ++ 32 :: v ++ [10])) f.
Proof.
  intros Hb Hname Hv.
  assert (Hl : nonl ((b :: name) ++ 32 :: v)) by (apply Forall_app; split; [done|by constructor]).
  replace ((b :: name) ++ 32 :: v ++ 10 :: rest) with (((b :: name) ++ 32 :: v) ++ 10 :: rest) by (rewrite <- app_assoc; done).
  rewrite is_marker_line; [|done|by apply from_signature_other].
  replace (zlen ((b :: name) ++ 32 :: v ++ [10])) with (zlen ((b :: name) ++ 32 :: v) + 1); [done|].
  rewrite !zlen_app, !zlen_cons, zlen_app. change (zlen [10]) with 1. lia.
Qed.
Lemma is_marker_head k t body n f : tag_ok k t → is_marker (raw_tag_head t ++ body) n f ↔ is_marker body (n - zlen (raw_tag_head t)) f.
Proof.
  intros [Ht [Hv _] Htg]. pose proof (hex_ok_nonl _ _ Ht) as Hh.
  assert (Hk : nonl (kind_as_bytes (target_kind t))) by (destruct (target_kind t); by repeat constructor).
  assert (Hz : zlen (raw_tag_head t) = zlen (OBJECT ++ 32 :: target t ++ [10]) + zlen (TYPE ++ 32 :: kind_as_bytes (target_kind t) ++ [10]) +
    zlen (TAG ++ 32 :: tag_version t ++ [10]) + zlen (raw_tagger (tagger t))).
  { unfold raw_tag_head. repeat (rewrite zlen_app || rewrite zlen_cons). change (zlen (@nil Z)) with 0. lia. }
  unfold raw_tag_head at 1. repeat (rewrite <- app_assoc || cbn [app]).
  unfold OBJECT, TYPE, TAG in *. rewrite (is_marker_field 111), (is_marker_field 116), (is_marker_field 116); try done; try (by repeat constructor).
  destruct (tagger t) as [raw|]; cbn [raw_tagger] in *.
  - destruct Htg as [Hr _]. rewrite <- app_assoc. cbn [app]. rewrite <- app_assoc. cbn [app]. unfold TAGGER in *.
    rewrite (is_marker_field 116); [|done|by repeat constructor|done].
    match goal with |- is_marker _ ?a _ ↔ is_marker _ ?b _ => replace a with b; [done|] end. cbn [app] in *. lia.
  - match goal with |- is_marker _ ?a _ ↔ is_marker _ ?b _ => replace a with b; [done|] end. change (zlen []) with 0 in Hz. cbn [app] in *. lia.
Qed.
Lemma is_marker_body body m s n f : body_parts body m s →
  is_marker body n f ↔ ∃ rest, all_newlines body = false ∧ body = 10 :: rest ∧ is_marker rest (n - 1) f.
Proof.
  intros [(Ha & _)|(Ha & rest & -> & _)].
  - split; [|by intros (? & ? & _); congruence]. intros [[Hn _] Hf]. exfalso. destruct (drop (Z.to_nat n) body) as [|b l] eqn:Ed; [done|].
    apply forallb_Forall_true in Ha. assert (b = 10) as ->.
    { rewrite Forall_lookup in Ha. apply Z.eqb_eq, (Ha (Z.to_nat n)). rewrite <- (Nat.add_0_r (Z.to_nat n)), <- lookup_drop, Ed. done. }
    by rewrite from_signature_other in Hf.
  - change (10 :: rest) with ([] ++ 10 :: rest) at 1. rewrite is_marker_line; [|constructor|by apply from_signature_other].
    change (zlen [] + 1) with 1. split; [by exists rest|]. by intros (? & _ & [= <-] & ?).
Qed.
(** The signature that is found in the bytes of a tag without parsing it is the one of the parsed tag. Whatever the
    bytes, the signed data and the signature behind them are these bytes. *)
Theorem tag_signature_agrees (data : bytes) (k : Kind) (Hd : zlen data < 2 ^ 64) :
  ∃ r, tag_iter_signature data = Ok r ∧
  (∀ f sig signed, r = Some ((f, sig), signed) → ∃ before, to_bstring (E := object_error) signed = Ok before ∧ before ++ sig = data ∧ from_signature sig = Some f) ∧
  (∀ t, tag_from_bytes data k = Ok t → tag_signature t = (λ x, x.1.2) <$> r).
Proof.
  unfold tag_iter_signature. destruct (find_ok (E := object_error) data) as (r & Hf & Hl). rewrite Hf. cbn [mbind outcome_bind].
  assert (Hparsed : ∀ t, tag_from_bytes data k = Ok t → tag_signature t = (λ '(n, _), drop (Z.to_nat n) data) <$> r).
  { intros t Ht. destruct (git_tag_cases k data Hd) as [(t' & body & Et & -> & Hok & Hb)|[e He]]; unfold tag_from_bytes in *; [|congruence].
    rewrite Ht in Et. injection Et as <-. set (h := raw_tag_head t) in *. pose proof (zlen_nonneg h).
    assert (Hiff : ∀ n f, is_marker (h ++ body) n f ↔ ∃ rest, all_newlines body = false ∧ body = 10 :: rest ∧ is_marker rest (n - zlen h - 1) f).
    { intros n f. unfold h. rewrite (is_marker_head k), (is_marker_body body _ _ _ _ Hb) by done. done. }
    destruct r as [[n f]|]; cbn [fmap option_fmap option_map].
    - destruct Hl as (Hm & Hn & Hlast). apply Hiff in Hm as (rest & Ha & -> & Hm).
      destruct Hb as [(Ha' & _)|(_ & rest' & [= <-] & Hs)]; [congruence|].
      destruct (tag_signature t) as [s|]; [|by destruct Hs as [_ Hno]; destruct (Hno _ _ Hm)].
      destruct Hs as (n' & f' & Hm' & Hl' & -> & _). pose proof (Hl' _ _ Hm) as H1. pose proof Hm' as [[Hn' _] _]. pose proof Hm as [[Hn1 _] _].
      assert (H2 : n' + zlen h + 1 ≤ n).
      { apply (Hlast _ f'); [apply Hiff; exists rest; do 2 (split; [done|]); by replace (n' + zlen h + 1 - zlen h - 1) with n' by lia|]. rewrite zlen_app, zlen_cons. lia. }
      replace n with (n' + zlen h + 1) by lia. f_equal. replace (Z.to_nat (n' + zlen h + 1)) with (length h + S (Z.to_nat n'))%nat by (unfold zlen in *; lia).
      by rewrite drop_app_add.
    - destruct (tag_signature t) as [s|]; [|done]. exfalso. destruct Hb as [(_ & _ & ?)|(Ha & rest & -> & n' & f' & Hm' & _)]; [done|].
      pose proof Hm' as [[Hn' _] _]. apply (Hl (n' + zlen h + 1) f'); [apply Hiff; exists rest; do 2 (split; [done|]); by replace (n' + zlen h + 1 - zlen h - 1) with n' by lia|].
      rewrite zlen_app, zlen_cons. lia. }
  destruct r as [[n f]|].
  - destruct Hl as ([[Hn _] Hsig] & _ & _). rewrite get_from_in by lia. cbn [expect mbind outcome_bind]. eexists. split; [done|]. split; [|exact Hparsed].
    intros f' sig signed [= <- <- <-]. exists (take (Z.to_nat n) data). split; [|by rewrite take_drop].
    assert (Hz : zlen (take (Z.to_nat n) data) = n) by (unfold zlen in *; rewrite length_take; lia).
    pose proof (to_bstring_split (E := object_error) (take (Z.to_nat n) data) (drop (Z.to_nat n) data) []) as Hb. rewrite !app_nil_r, take_drop, Hz in Hb.
    rewrite <- Hb. do 3 f_equal. rewrite <- (take_drop (Z.to_nat n) data) at 1. rewrite zlen_app. lia.
  - eexists. split; [done|]. split; [done|exact Hparsed].
Qed.

Lemma tag_decode_exact_witness : tag_ok Sha1 sample_tag.
Proof.
  assert (Hd : zlen (raw_tag_head sample_tag ++ [10; 10] ++ sample_armor) < 2 ^ 64) by (vm_compute; exact eq_refl).
  destruct (tag_decode_exact (raw_tag_head sample_tag ++ [10; 10] ++ sample_armor) Sha1 Hd) as [_ H].
  destruct (proj1 (H sample_tag) (proj1 newline_lost)) as (body & _ & Hok & _). exact Hok.
Defined.
Lemma tag_write_witness : ∃ written, tag_write_to sample_tag [7] = Ok ([7] ++ written) ∧ tag_size (FH := faster_hex_model) sample_tag = Ok (zlen written).
Proof.
  assert (Hd : zlen (raw_tag_head sample_tag ++ [10; 10] ++ sample_armor) < 2 ^ 64) by (vm_compute; exact eq_refl).
  destruct (tag_write (FH := faster_hex_model) _ [7] Sha1 sample_tag Hd (proj1 newline_lost)) as [(e & He & _)|(w & _ & Hw & Hs & _)].
  - exfalso. assert (Hv : validated_name (tag_version sample_tag) = Ok (tag_version sample_tag)) by (vm_compute; reflexivity). congruence.
  - exists w. split; [exact Hw|exact Hs].
Defined.
