(* ===== verification/PackedTransaction.v ===== *)
(** * [gix-ref/src/transaction], [store/packed/transaction.rs]: edits of packed references

    A transaction holds the buffer it started from and the lock file that it writes. Preparing it drops the deletions of
    what is not there and peels the targets of updates; committing merges the sorted edits with the
    sorted references of the buffer. What is committed is read back as the finite map of the buffer with
    the edits applied. *)

From stdpp Require Import sorting gmap.
From S2P Require Import Prelude Slices Hash Validate PackedRefs RefNames.
From S2P Require TagObject.
Import RefNames.Text.

(** ** [lib.rs], [transaction/mod.rs] *)
Inductive Target := Object (id : ObjectId) | Symbolic (name : bytes).
Inductive RefLog := AndReference | Only.
Record LogChange := { log_mode : RefLog; force_create_reflog : bool; log_message : bytes }.
Definition log_change_default : LogChange := {| log_mode := AndReference; force_create_reflog := false; log_message := [] |}.
Inductive PreviousValue :=
| AnyValue | MustExist | MustNotExist
| MustExistAndMatch (t : Target) | ExistingMustMatch (t : Target).
Inductive Change :=
| Update (log : LogChange) (expected : PreviousValue) (new : Target)
| Delete (expected : PreviousValue) (log : RefLog).
Definition new_value (c : Change) : option Target := match c with Update _ _ new => Some new | Delete _ _ => None end.
Definition previous_value (c : Change) : option Target :=
  match c with
  | Update _ (MustExistAndMatch previous | ExistingMustMatch previous) _
  | Delete (MustExistAndMatch previous | ExistingMustMatch previous) _ => Some previous
  | _ => None
  end.
Record RefEdit := { change : Change; edit_name : bytes; deref : bool }.
Definition edit_new (name : bytes) (c : Change) : RefEdit := {| change := c; edit_name := name; deref := false |}.
Definition update_with_log (name : bytes) (new : Target) (expected : PreviousValue) (log : LogChange) : RefEdit :=
  edit_new name (Update log expected new).
Definition update (name : bytes) (new : Target) (expected : PreviousValue) (reflog_message : bytes) : RefEdit :=
  update_with_log name new expected {| log_mode := log_mode log_change_default;
    force_create_reflog := force_create_reflog log_change_default; log_message := reflog_message |}.
Definition delete_with_log (name : bytes) (expected : PreviousValue) (log : RefLog) : RefEdit := edit_new name (Delete expected log).
Definition delete_ref (name : bytes) (expected : PreviousValue) : RefEdit := delete_with_log name expected AndReference.

(** ** [packed/mod.rs], [packed/find.rs] *)
Record Edit := { inner : RefEdit; edit_peeled : option ObjectId }.
(** A lock file is the bytes that it holds; a closed one holds none. *)
Record Transaction := {
  tx_buffer : option Buffer;
  tx_edits : option (list Edit);
  lock : option bytes;
  closed_lock : option ();
  precompose_unicode : bool;
  tx_namespace : option bytes;
}.
Inductive tx_error :=
| BufferError (e : ref_error)
| RefNotFound (name : bytes)
| ObjectLookupFailed (object_id : ObjectId) (reference : bytes)
| NoTargetInTag (object_id : ObjectId) (reference : bytes)
| ObjectNotFound (object_id : ObjectId) (reference : bytes)
| NoFileToDelete.

Section Transaction.
Context {FH : FasterHex} (object_hash : Kind).
(** The objects by id: an error, nothing, or a kind, the data and the kind of hash. The composed form of a name if it is UTF-8
    and differs from the name. *)
Context (objects : ObjectId → outcome () (option (TagObject.ObjectKind * bytes * Kind))) (precompose_path : bytes → option bytes).

(** [Buffer::find] with a full name, which is a partial name as it is *)
Definition find_ref (b : Buffer) (name : bytes) : outcome tx_error Reference :=
  a ← map_err BufferError (buffer_bytes b);
  r ← map_err BufferError (try_find_loop object_hash a name [[]; TAGS; HEADS; REMOTES]);
  ok_or (RefNotFound name) r.

(** ** [packed/transaction.rs] *)
(** "# pack-refs with: peeled fully-peeled sorted " *)
Definition HEADER_LINE : bytes := HEADER_PREFIX ++ PEELED ++ [32] ++ FULLY_PEELED ++ [32] ++ SORTED ++ [32; 10].
Definition new_from_pack_and_lock (buffer : option Buffer) (lock : bytes) (precompose_unicode : bool) (namespace : option bytes) : Transaction :=
  {| tx_buffer := buffer; tx_edits := None; lock := Some lock; closed_lock := None; precompose_unicode := precompose_unicode; tx_namespace := namespace |}.
Definition is_delete (c : Change) : bool := match c with Delete _ _ => true | _ => false end.
Definition prepared_name (self : Transaction) (name : bytes) : bytes :=
  let name := if precompose_unicode self then default name (precompose_path name) else name in
  match tx_namespace self with Some namespace => into_namespaced_name namespace name | None => name end.
Definition rename (e : RefEdit) (name : bytes) : RefEdit := {| change := change e; edit_name := name; deref := deref e |}.
(** [find] with [is_err]. *)
Definition not_found (self : Transaction) (name : bytes) : outcome tx_error bool :=
  match tx_buffer self with
  | Some b => match find_ref b name with Ok _ => Ok false | Err _ => Ok true | Panic => Panic end
  | None => Ok false
  end.
Fixpoint prepare_edits (self : Transaction) (edits : list RefEdit) : outcome tx_error (list Edit) :=
  match edits with
  | [] => Ok []
  | edit :: edits =>
      let edit := rename edit (prepared_name self (edit_name edit)) in
      dropped ← (if is_delete (change edit) then not_found self (edit_name edit) else Ok false);
      rest ← prepare_edits self edits;
      Ok (if dropped : bool then rest else {| inner := edit; edit_peeled := None |} :: rest)
  end.
(** [TagRefIter::target_id]; its errors are not told apart. *)
Definition target_id (data : bytes) (hash_kind : Kind) : outcome () ObjectId :=
  match data with
  | [] => Err tt
  | _ =>
      '(token, _, _) ← map_err (λ _, tt) (TagObject.tag_next_inner hash_kind TagObject.Target data);
      match token with TagObject.TokenTarget id => Ok id | _ => Err tt end
  end.
(** The loop goes on as long as objects are tags. *)
Fixpoint peel_loop (fuel : nat) (name : bytes) (new next_id : ObjectId) : outcome tx_error (option ObjectId) :=
  match fuel with
  | O => Panic
  | S fuel =>
      data ← map_err (λ _, ObjectLookupFailed next_id name) (objects next_id);
      match data with
      | Some (TagObject.KindTag, data, hash_kind) =>
          next_id ← map_err (λ _, NoTargetInTag next_id name) (target_id data hash_kind);
          peel_loop fuel name new next_id
      | Some _ => Ok (if bool_decide (next_id = new) then None else Some next_id)
      | None => Err (ObjectNotFound next_id name)
      end
  end.
Definition peel_edit (fuel : nat) (e : Edit) : outcome tx_error Edit :=
  match change (inner e) with
  | Update _ _ (Object new) =>
      peeled ← peel_loop fuel (edit_name (inner e)) new new;
      Ok {| inner := inner e; edit_peeled := peeled |}
  | _ => Ok e
  end.
Fixpoint peel_edits (fuel : nat) (edits : list Edit) : outcome tx_error (list Edit) :=
  match edits with
  | [] => Ok []
  | e :: edits => e ← peel_edit fuel e; rest ← peel_edits fuel edits; Ok (e :: rest)
  end.
Definition prepare (fuel : nat) (self : Transaction) (edits : list RefEdit) : outcome tx_error Transaction :=
  _ ← assert_that (match tx_edits self with None => true | Some _ => false end);
  edits ← prepare_edits self edits;
  edits ← peel_edits fuel edits;
  let '(lock, closed_lock) :=
    match edits with [] => (None, (λ _, tt) <$> lock self) | _ => (lock self, closed_lock self) end in
  Ok {| tx_buffer := tx_buffer self; tx_edits := Some edits; lock := lock; closed_lock := closed_lock;
        precompose_unicode := precompose_unicode self; tx_namespace := tx_namespace self |}.

Definition write_packed_ref (out : bytes) (pref : Reference) : bytes :=
  out ++ target pref ++ [32] ++ ref_name pref ++ [10]
  ++ match object pref with Some object => [94] ++ object ++ [10] | None => [] end.
(** The number of lines is an [i32]. *)
Definition write_edit (out : bytes) (edit : Edit) (lines_written : Z) : outcome tx_error (bytes * Z) :=
  match change (inner edit) with
  | Delete _ _ => Ok (out, lines_written)
  | Update _ _ (Object target_oid) =>
      let out := out ++ to_hex target_oid ++ [32] ++ edit_name (inner edit) ++ [10] in
      let out := match edit_peeled edit with Some object => out ++ [94] ++ to_hex object ++ [10] | None => out end in
      n ← op_add 31 lines_written 1;
      Ok (out, n)
  | Update _ _ (Symbolic _) => Panic
  end.
Fixpoint commit_loop (refs_sorted : list (outcome ref_error Reference)) : list Edit → bytes → Z → outcome tx_error (bytes * Z) :=
  fix edits_loop (edits : list Edit) (out : bytes) (num_written_lines : Z) : outcome tx_error (bytes * Z) :=
    match refs_sorted, edits with
    | Err e :: _, _ => Err (BufferError e)
    | Panic :: _, _ => Panic
    | [], [] => Ok (out, num_written_lines)
    | Ok pref :: refs, [] =>
        n ← op_add 31 num_written_lines 1;
        commit_loop refs [] (write_packed_ref out pref) n
    | Ok pref :: refs, edit :: edits' =>
        match bytes_cmp (ref_name pref) (edit_name (inner edit)) with
        | Lt =>
            n ← op_add 31 num_written_lines 1;
            commit_loop refs edits (write_packed_ref out pref) n
        | Gt => '(out, n) ← write_edit out edit num_written_lines; edits_loop edits' out n
        | Eq => '(out, n) ← write_edit out edit num_written_lines; commit_loop refs edits' out n
        end
    | [], edit :: edits' => '(out, n) ← write_edit out edit num_written_lines; edits_loop edits' out n
    end.
(** What happens to the file, if it is there. *)
Inductive FileChange := Unchanged | Removed | Replaced (contents : bytes).
Definition edit_cmp (l r : Edit) : comparison := bytes_cmp (edit_name (inner l)) (edit_name (inner r)).
Definition commit (self : Transaction) (on_disk : bool) : outcome tx_error FileChange :=
  edits ← expect (tx_edits self);
  match edits with
  | [] => Ok Unchanged
  | _ =>
      file ← expect (lock self);
      refs_sorted ←
        match tx_buffer self with
        | Some b => map_err BufferError (a ← buffer_bytes b; it ← buffer_iter a; iterate object_hash it)
        | None => Ok []
        end;
      '(file, num_written_lines) ← commit_loop refs_sorted (sort_by edit_cmp edits) (file ++ HEADER_LINE) 0;
      if num_written_lines =? 0 then (if on_disk then Ok Removed else Err NoFileToDelete) else Ok (Replaced file)
  end.
Definition buffer_into_transaction (buffer : Buffer) (lock : bytes) (precompose_unicode : bool) (namespace : option bytes) : Transaction :=
  {| tx_buffer := Some buffer; tx_edits := None; lock := Some lock; closed_lock := None; precompose_unicode := precompose_unicode; tx_namespace := namespace |}.
End Transaction.

(** ** Specification *)
Definition refs_map (rs : list Reference) : gmap bytes Reference := list_to_map ((λ r, (ref_name r, r)) <$> rs).
Section Spec.
Context {FH : FasterHex}.
(** What an edit makes of the reference that has its name. *)
Definition edit_reference (e : Edit) : option Reference :=
  match change (inner e) with
  | Update _ _ (Object id) => Some {| ref_name := edit_name (inner e); target := to_hex id; object := to_hex <$> edit_peeled e |}
  | _ => None
  end.
Definition apply_edit (e : Edit) (m : gmap bytes Reference) : gmap bytes Reference :=
  match edit_reference e with Some r => <[edit_name (inner e) := r]> m | None => delete (edit_name (inner e)) m end.
Definition apply_edits (es : list Edit) (m : gmap bytes Reference) : gmap bytes Reference := foldr apply_edit m es.
Definition edit_names (es : list Edit) : list bytes := (λ e, edit_name (inner e)) <$> es.
(** The references that committing writes. *)
Fixpoint merged (rs : list Reference) : list Edit → list Reference :=
  fix inner_loop es :=
    match rs, es with
    | [], _ => omap edit_reference es
    | _, [] => rs
    | r :: rs', e :: es' =>
        match bytes_cmp (ref_name r) (edit_name (inner e)) with
        | Lt => r :: merged rs' es
        | Gt => option_list (edit_reference e) ++ inner_loop es'
        | Eq => option_list (edit_reference e) ++ merged rs' es'
        end
    end.
End Spec.
(** References or edits with strictly increasing names. *)
Definition edits_increasing (es : list Edit) : Prop := StronglySorted (λ l r, edit_cmp l r = Lt) es.

(** ** Lemmas: merging *)
Section Merge.
Context {FH : FasterHex}.
Lemma elem_of_option_list {A} (o : option A) x : x ∈ option_list o → o = Some x.
Proof. destruct o as [y|]; cbn; [by intros ->%list_elem_of_singleton|by intros ?%list.not_elem_of_nil]. Qed.
Lemma edit_reference_name e r : edit_reference e = Some r → ref_name r = edit_name (inner e).
Proof. unfold edit_reference. destruct (change (inner e)) as [? ? [id|n]|]; [by intros [= <-]|done|done]. Qed.
Lemma merged_nil es : merged [] es = omap edit_reference es.
Proof. by destruct es. Qed.
Lemma merged_nil_r rs : merged rs [] = rs.
Proof. by destruct rs. Qed.
Lemma merged_cons r rs e es : merged (r :: rs) (e :: es) =
  match bytes_cmp (ref_name r) (edit_name (inner e)) with
  | Lt => r :: merged rs (e :: es)
  | Gt => option_list (edit_reference e) ++ merged (r :: rs) es
  | Eq => option_list (edit_reference e) ++ merged rs es
  end.
Proof. done. Qed.
(** Induction that follows the merge of two sorted lists. *)
Lemma merge_ind (P : list Reference → list Edit → Prop) :
  (∀ es, P [] es) → (∀ rs, P rs []) →
  (∀ r rs e es, bytes_cmp (ref_name r) (edit_name (inner e)) = Lt → P rs (e :: es) → P (r :: rs) (e :: es)) →
  (∀ r rs e es, bytes_cmp (ref_name r) (edit_name (inner e)) = Gt → P (r :: rs) es → P (r :: rs) (e :: es)) →
  (∀ r rs e es, ref_name r = edit_name (inner e) → P rs es → P (r :: rs) (e :: es)) →
  ∀ rs es, P rs es.
Proof.
  intros Hnil Hnil_r Hlt Hgt Heq. induction rs as [|r rs IHr]; [done|]. induction es as [|e es IHe]; [done|].
  destruct (bytes_cmp (ref_name r) (edit_name (inner e))) eqn:E; [apply Heq; [by apply bytes_cmp_eq|done]|by apply Hlt|by apply Hgt].
Qed.
Lemma merged_from rs es r : r ∈ merged rs es → r ∈ rs ∨ ∃ e, e ∈ es ∧ edit_reference e = Some r.
Proof.
  revert rs es. apply (merge_ind (λ rs es, r ∈ merged rs es → r ∈ rs ∨ ∃ e, e ∈ es ∧ edit_reference e = Some r)).
  - intros es. rewrite merged_nil. intros (e & He & Hr)%list_elem_of_omap. right. by exists e.
  - intros rs. rewrite merged_nil_r. by left.
  - intros s rs e es Hc IH. rewrite merged_cons, Hc. intros [->|Hin]%list.elem_of_cons; [by left; apply list.elem_of_cons; left|].
    destruct (IH Hin) as [|(e' & He & Hr)]; [left; by apply list.elem_of_cons; right|right; by exists e'].
  - intros s rs e es Hc IH. rewrite merged_cons, Hc. intros [Hin|Hin]%elem_of_app.
    + right. exists e. split; [by apply list.elem_of_cons; left|by apply elem_of_option_list].
    + destruct (IH Hin) as [|(e' & He & Hr)]; [by left|right; exists e'; split; [by apply list.elem_of_cons; right|done]].
  - intros s rs e es Hc IH. rewrite merged_cons. assert (bytes_cmp (ref_name s) (edit_name (inner e)) = Eq) as -> by by apply bytes_cmp_eq.
    intros [Hin|Hin]%elem_of_app.
    + right. exists e. split; [by apply list.elem_of_cons; left|by apply elem_of_option_list].
    + destruct (IH Hin) as [|(e' & He & Hr)]; [left; by apply list.elem_of_cons; right|right; exists e'; split; [by apply list.elem_of_cons; right|done]].
Qed.
(** A name in front of all names. *)
Definition below (n : bytes) (rs : list Reference) (es : list Edit) : Prop :=
  Forall (λ r, bytes_cmp n (ref_name r) = Lt) rs ∧ Forall (λ e, bytes_cmp n (edit_name (inner e)) = Lt) es.
Lemma below_merged n rs es : below n rs es → Forall (λ r, bytes_cmp n (ref_name r) = Lt) (merged rs es).
Proof.
  intros [Hr He]. apply list.Forall_forall. intros r [Hin|(e & Hin & Hx)]%merged_from.
  - by apply (proj1 (list.Forall_forall _ _) Hr).
  - rewrite (edit_reference_name _ _ Hx). by apply (proj1 (list.Forall_forall _ _) He).
Qed.
Lemma below_trans n m rs es : bytes_cmp n m = Lt → below m rs es → below n rs es.
Proof. intros H [Hr He]. split; (eapply Forall_impl; [|eassumption]); intros ? Hx; by eapply bytes_cmp_lt_trans. Qed.
Lemma increasing_cons_ref r rs : names_increasing (r :: rs) ↔ names_increasing rs ∧ below (ref_name r) rs [].
Proof.
  split; [intros [H1 H2]%StronglySorted_inv; split; [exact H1|split; [exact H2|constructor]]|]. intros [H [Hb _]]. by constructor.
Qed.
Lemma increasing_cons_edit e es : edits_increasing (e :: es) ↔ edits_increasing es ∧ below (edit_name (inner e)) [] es.
Proof.
  split; [intros [H1 H2]%StronglySorted_inv; split; [exact H1|split; [constructor|exact H2]]|]. intros [H [_ Hb]]. by constructor.
Qed.
Lemma below_app n rs es : below n rs es ↔ below n rs [] ∧ below n [] es.
Proof. unfold below. split; [intros [??]; done|intros [[??][??]]; done]. Qed.
Lemma below_cons_ref n r rs es : below n (r :: rs) es ↔ bytes_cmp n (ref_name r) = Lt ∧ below n rs es.
Proof. unfold below. rewrite list.Forall_cons. tauto. Qed.
Lemma below_cons_edit n rs e es : below n rs (e :: es) ↔ bytes_cmp n (edit_name (inner e)) = Lt ∧ below n rs es.
Proof. unfold below. rewrite list.Forall_cons. tauto. Qed.
End Merge.

(** ** Lemmas: the references that are written *)
Section Written.
Context {FH : FasterHex}.
Lemma names_increasing_app o rs n : (∀ r, o = Some r → ref_name r = n) → names_increasing rs → below n rs [] →
  names_increasing (option_list o ++ rs).
Proof. intros Ho Hi Hb. destruct o as [r|]; [|done]. cbn. apply increasing_cons_ref. by rewrite (Ho r eq_refl). Qed.
Lemma merged_increasing rs es : names_increasing rs → edits_increasing es → names_increasing (merged rs es).
Proof.
  revert rs es. apply (merge_ind (λ rs es, names_increasing rs → edits_increasing es → names_increasing (merged rs es))).
  - intros es _. rewrite merged_nil. induction es as [|e es IH]; [constructor|]. intros [Hi Hb]%increasing_cons_edit. cbn.
    assert (below (edit_name (inner e)) (omap edit_reference es) []) as Hb'.
    { rewrite <- merged_nil. by split; [apply below_merged|constructor]. }
    destruct (edit_reference e) as [r|] eqn:E; [|by apply IH]. apply increasing_cons_ref. split; [by apply IH|]. by rewrite (edit_reference_name _ _ E).
  - intros rs H _. by rewrite merged_nil_r.
  - intros r rs e es Hc IH [Hr Hbr]%increasing_cons_ref He. rewrite merged_cons, Hc. apply increasing_cons_ref. split; [by apply IH|].
    split; [|constructor]. apply below_merged. apply increasing_cons_edit in He as [_ Hbe]. rewrite below_cons_edit, below_app. split; [done|].
    split; [done|]. by eapply below_trans.
  - intros r rs e es Hc IH Hr [He Hbe]%increasing_cons_edit. rewrite merged_cons, Hc. apply bytes_cmp_gt_lt in Hc.
    eapply names_increasing_app; [by apply edit_reference_name|by apply IH|]. split; [|constructor]. apply below_merged.
    apply increasing_cons_ref in Hr as [_ Hbr]. rewrite below_cons_ref, below_app. split; [done|]. split; [by eapply below_trans|done].
  - intros r rs e es Hc IH [Hr Hbr]%increasing_cons_ref [He Hbe]%increasing_cons_edit. rewrite merged_cons.
    assert (bytes_cmp (ref_name r) (edit_name (inner e)) = Eq) as -> by by apply bytes_cmp_eq.
    eapply names_increasing_app; [by apply edit_reference_name|by apply IH|]. split; [|constructor]. apply below_merged. rewrite below_app. by rewrite Hc in Hbr.
Qed.

Lemma refs_map_cons r rs : refs_map (r :: rs) = <[ref_name r := r]> (refs_map rs).
Proof. done. Qed.
Lemma refs_map_below n rs es : below n rs es → refs_map rs !! n = None.
Proof.
  intros [H _]. apply not_elem_of_list_to_map_1. rewrite <- list_fmap_compose. intros (r & -> & Hin)%list_elem_of_fmap.
  apply (proj1 (list.Forall_forall _ _) H) in Hin. cbn in Hin. by rewrite bytes_cmp_refl in Hin.
Qed.
Lemma apply_edits_below n rs es m : below n rs es → apply_edits es m !! n = m !! n.
Proof.
  intros [_ H]. induction H as [|e es He _ IH]; [done|]. cbn. unfold apply_edit.
  assert (edit_name (inner e) ≠ n) as Hne by (intros <-; by rewrite bytes_cmp_refl in He).
  destruct (edit_reference e); [by rewrite lookup_insert_ne|by rewrite lookup_delete_ne].
Qed.
Lemma apply_edits_insert n r rs es m : below n rs es → apply_edits es (<[n := r]> m) = <[n := r]> (apply_edits es m).
Proof.
  intros [_ H]. induction H as [|e es He _ IH]; [done|]. cbn. fold (apply_edits es (<[n := r]> m)) (apply_edits es m). rewrite IH. unfold apply_edit.
  assert (edit_name (inner e) ≠ n) as Hne by (intros <-; by rewrite bytes_cmp_refl in He).
  destruct (edit_reference e); [by rewrite insert_insert_ne|by rewrite delete_insert_ne].
Qed.
(** An edit whose name is not in the map. *)
Lemma refs_map_edit e rs m : refs_map rs = m → m !! edit_name (inner e) = None → refs_map (option_list (edit_reference e) ++ rs) = apply_edit e m.
Proof.
  intros <- Hm. unfold apply_edit. destruct (edit_reference e) as [r|] eqn:E; [by rewrite <- (edit_reference_name _ _ E)|by rewrite delete_id].
Qed.
Lemma merged_map rs es : names_increasing rs → edits_increasing es → refs_map (merged rs es) = apply_edits es (refs_map rs).
Proof.
  revert rs es. apply (merge_ind (λ rs es, names_increasing rs → edits_increasing es → refs_map (merged rs es) = apply_edits es (refs_map rs))).
  - intros es _. rewrite merged_nil. induction es as [|e es IH]; [done|]. intros [Hi Hb]%increasing_cons_edit. cbn [apply_edits foldr].
    fold (apply_edits es (refs_map [])). rewrite <- (refs_map_edit e _ _ (IH Hi)); [cbn; by destruct (edit_reference e)|].
    by rewrite (apply_edits_below _ [] es).
  - intros rs _ _. by rewrite merged_nil_r.
  - intros r rs e es Hc IH [Hr Hbr]%increasing_cons_ref He. rewrite merged_cons, Hc, !refs_map_cons, IH by done.
    rewrite (apply_edits_insert _ _ []); [done|]. apply increasing_cons_edit in He as [_ Hbe]. rewrite below_cons_edit. split; [done|]. by eapply below_trans.
  - intros r rs e es Hc IH Hr [He Hbe]%increasing_cons_edit. rewrite merged_cons, Hc. apply bytes_cmp_gt_lt in Hc. cbn [apply_edits foldr].
    fold (apply_edits es (refs_map (r :: rs))). apply refs_map_edit; [by apply IH|]. rewrite (apply_edits_below _ [] es) by done.
    apply (refs_map_below _ _ []). apply increasing_cons_ref in Hr as [_ Hbr]. rewrite below_cons_ref. split; [done|by eapply below_trans].
  - intros r rs e es Hc IH [Hr Hbr]%increasing_cons_ref [He Hbe]%increasing_cons_edit. rewrite merged_cons.
    assert (bytes_cmp (ref_name r) (edit_name (inner e)) = Eq) as -> by by apply bytes_cmp_eq. rewrite refs_map_cons, Hc.
    cbn [apply_edits foldr]. fold (apply_edits es (<[edit_name (inner e) := r]> (refs_map rs))). rewrite (apply_edits_insert _ _ []) by done.
    assert (apply_edits es (refs_map rs) !! edit_name (inner e) = None) as Hn.
    { rewrite (apply_edits_below _ [] es) by done. apply (refs_map_below _ _ []). by rewrite <- Hc. }
    rewrite (refs_map_edit e _ _ (IH Hr He) Hn). unfold apply_edit. destruct (edit_reference e); [by rewrite insert_insert_eq|].
    by rewrite delete_insert_eq.
Qed.
End Written.

(** ** Lemmas: committing *)
Section Commit.
Context {FH : FasterHex} (k : Kind).
(** Symbolic references are not packed. *)
Definition packable (e : Edit) : Prop := match change (inner e) with Update _ _ (Symbolic _) => False | _ => True end.
Definition text_of (rs : list Reference) : bytes := concat (serialize_entry <$> rs).
Lemma text_of_app rs rs' : text_of (rs ++ rs') = text_of rs ++ text_of rs'.
Proof. unfold text_of. by rewrite fmap_app, concat_app. Qed.
Lemma text_of_some r : text_of (option_list (Some r)) = serialize_entry r.
Proof. apply app_nil_r. Qed.
Lemma write_packed_ref_text out r : write_packed_ref out r = out ++ text_of [r].
Proof. unfold write_packed_ref, text_of, serialize_entry. cbn. by rewrite app_nil_r. Qed.
Lemma write_edit_text out e n : packable e → 0 ≤ n < 2 ^ 31 - 1 →
  write_edit out e n = Ok (out ++ text_of (option_list (edit_reference e)), n + zlen (option_list (edit_reference e))).
Proof.
  unfold packable, write_edit, edit_reference. destruct (change (inner e)) as [lg ex [id|nm]|ex lg]; intros Hp Hn; [|done|].
  - rewrite op_add_ok by lia. cbn [mbind outcome_bind option_list]. apply f_equal, (f_equal2 pair); [|done]. rewrite text_of_some. unfold serialize_entry.
    cbn [target ref_name object]. destruct (edit_peeled e); cbn [fmap option_fmap option_map]; [|by rewrite app_nil_r]. by rewrite <- !app_assoc.
  - cbn. by rewrite app_nil_r, Z.add_0_r.
Qed.
Lemma commit_loop_cons r rs e es out n :
  commit_loop (Ok r :: rs) (e :: es) out n =
    match bytes_cmp (ref_name r) (edit_name (inner e)) with
    | Lt => n ← op_add 31 n 1; commit_loop rs (e :: es) (write_packed_ref out r) n
    | Gt => '(out, n) ← write_edit out e n; commit_loop (Ok r :: rs) es out n
    | Eq => '(out, n) ← write_edit out e n; commit_loop rs es out n
    end.
Proof. done. Qed.
Lemma zlen_option_list {A} (o : option A) : 0 ≤ zlen (option_list o) ≤ 1.
Proof. destruct o; [change (0 ≤ 1 ≤ 1)|change (0 ≤ 0 ≤ 1)]; lia. Qed.
Lemma commit_loop_text rs es : ∀ out n, Forall packable es → 0 ≤ n → n + zlen rs + zlen es < 2 ^ 31 →
  commit_loop (Ok <$> rs) es out n = Ok (out ++ text_of (merged rs es), n + zlen (merged rs es)).
Proof.
  revert rs es. apply (merge_ind (λ rs es, ∀ out n, Forall packable es → 0 ≤ n → n + zlen rs + zlen es < 2 ^ 31 →
    commit_loop (Ok <$> rs) es out n = Ok (out ++ text_of (merged rs es), n + zlen (merged rs es)))).
  - intros es. rewrite merged_nil. induction es as [|e es IH]; intros out n Hp Hn Hlen; [cbn; by rewrite app_nil_r, Z.add_0_r|].
    apply list.Forall_cons in Hp as [He Hp]. rewrite zlen_cons in Hlen. pose proof (zlen_nonneg es). cbn [fmap list_fmap commit_loop].
    change (zlen (@nil Reference)) with 0 in *. pose proof (zlen_option_list (edit_reference e)).
    rewrite write_edit_text by (done || lia). cbn [mbind outcome_bind]. change (commit_loop (Ok <$> []) es) with (commit_loop [] es) in IH.
    etransitivity; [apply IH; [done|lia|lia]|]. rewrite <- app_assoc, <- text_of_app, <- Z.add_assoc, <- zlen_app. cbn. by destruct (edit_reference e).
  - intros rs. rewrite merged_nil_r. induction rs as [|r rs IH]; intros out n Hp Hn Hlen; [cbn; by rewrite app_nil_r, Z.add_0_r|].
    rewrite zlen_cons in *. pose proof (zlen_nonneg rs). change (zlen (@nil Edit)) with 0 in *. cbn [fmap list_fmap commit_loop].
    rewrite op_add_ok by lia. cbn [mbind outcome_bind]. rewrite write_packed_ref_text. etransitivity; [apply IH; [done|lia|lia]|].
    rewrite <- app_assoc, <- text_of_app. f_equal. f_equal. lia.
  - intros r rs e es Hc IH out n Hp Hn Hlen. rewrite zlen_cons in Hlen. pose proof (zlen_nonneg rs). pose proof (zlen_nonneg (e :: es)).
    change (Ok (E := ref_error) <$> r :: rs) with (Ok (E := ref_error) r :: (Ok <$> rs)). rewrite commit_loop_cons, merged_cons, Hc, op_add_ok by lia. cbn [mbind outcome_bind].
    rewrite write_packed_ref_text, IH by (done || lia). rewrite <- app_assoc, <- text_of_app, zlen_cons. f_equal. f_equal. lia.
  - intros r rs e es Hc IH out n Hp Hn Hlen. apply list.Forall_cons in Hp as [He Hp]. rewrite zlen_cons in Hlen. rewrite (zlen_cons e) in Hlen. pose proof (zlen_nonneg rs). pose proof (zlen_nonneg es).
    pose proof (zlen_option_list (edit_reference e)).
    change (Ok (E := ref_error) <$> r :: rs) with (Ok (E := ref_error) r :: (Ok <$> rs)) in *. rewrite commit_loop_cons, merged_cons, Hc, write_edit_text by (done || lia). cbn [mbind outcome_bind].
    rewrite IH by (rewrite ?zlen_cons; done || lia). by rewrite <- app_assoc, <- text_of_app, <- Z.add_assoc, <- zlen_app.
  - intros r rs e es Hc IH out n Hp Hn Hlen. apply list.Forall_cons in Hp as [He Hp]. rewrite !zlen_cons in Hlen. pose proof (zlen_nonneg rs). pose proof (zlen_nonneg es).
    pose proof (zlen_option_list (edit_reference e)). assert (bytes_cmp (ref_name r) (edit_name (inner e)) = Eq) as Hc' by by apply bytes_cmp_eq.
    change (Ok (E := ref_error) <$> r :: rs) with (Ok (E := ref_error) r :: (Ok <$> rs)) in *. rewrite commit_loop_cons, merged_cons, Hc', write_edit_text by (done || lia). cbn [mbind outcome_bind].
    rewrite IH by (done || lia). by rewrite <- app_assoc, <- text_of_app, <- Z.add_assoc, <- zlen_app.
Qed.

(** Edits of different names: their order does not matter. *)
Lemma apply_edits_perm es es' m : NoDup (edit_names es) → es ≡ₚ es' → apply_edits es m = apply_edits es' m.
Proof.
  intros Hd Hp. unfold apply_edits. apply (foldr_permutation (=) apply_edit m es es'); [|done].
  intros i a j b x Hij Ha Hb. assert (edit_name (inner a) ≠ edit_name (inner b)) as Hne.
  { intros Heq. apply Hij. eapply (NoDup_lookup _ _ _ (edit_name (inner a)) Hd); unfold edit_names; rewrite list_lookup_fmap; [by rewrite Ha|by rewrite Hb, Heq]. }
  unfold apply_edit. destruct (edit_reference a), (edit_reference b);
    [by rewrite insert_insert_ne|by rewrite delete_insert_ne|by rewrite delete_insert_ne by done|by rewrite delete_delete].
Qed.
#[local] Instance edit_cmp_laws : OrdLaws edit_cmp := comap_laws (λ e, edit_name (inner e)) bytes_cmp _.
Lemma sort_edits_increasing es : NoDup (edit_names es) → edits_increasing (sort_by edit_cmp es).
Proof.
  intros Hd. pose proof (sort_by_sorted edit_cmp es) as Hs. assert (NoDup (edit_names (sort_by edit_cmp es))) as Hd'.
  { unfold edit_names in *. by rewrite (sort_by_permutation edit_cmp es). }
  clear Hd. rename Hd' into Hd. induction Hs as [|e l Hs IH Hle]; [constructor|]. cbn in Hd. apply list.NoDup_cons in Hd as [Hn Hd]. constructor; [by apply IH|].
  apply list.Forall_forall. intros f Hin. apply (proj1 (list.Forall_forall _ _) Hle) in Hin as Hf. unfold ord_le, edit_cmp in *.
  destruct (bytes_cmp _ _) eqn:E; [|done|done]. apply bytes_cmp_eq in E. exfalso. apply Hn. rewrite E. by apply (list_elem_of_fmap_2 (λ e, edit_name (inner e))).
Qed.
End Commit.

(** ** Lemmas: the file that is committed *)
Section File.
Context {FH : FasterHex} (k : Kind).
Lemma to_hex_ok id : oid_ok id → kind id = k → hex_ok k (to_hex id).
Proof.
  intros [Hl Hb] Hk. unfold to_hex. rewrite hex_encode_law by done. pose proof (nibbles_ok _ Hb) as Hn. split.
  - rewrite <- hex_encode_law by done. rewrite length_hex_encode by done. rewrite Hl, Hk. by destruct k.
  - clear -Hn. induction Hn as [|n l Hn _ IH]; constructor; [|done]. unfold is_nibble in Hn. unfold hex_digit, is_hex_digit. destruct (n <? 10) eqn:E; lia.
Qed.
Definition id_ok (id : ObjectId) : Prop := oid_ok id ∧ kind id = k.
(** An edit that can be written: its name is valid and the ids are of the kind of the references. *)
Record edit_ok (e : Edit) : Prop := {
  eo_name : full_name (edit_name (inner e));
  eo_target : match change (inner e) with Update _ _ (Object id) => id_ok id | Update _ _ (Symbolic _) => False | Delete _ _ => True end;
  eo_peeled : ∀ id, edit_peeled e = Some id → id_ok id;
}.
Lemma edit_ok_packable e : edit_ok e → packable e.
Proof. intros [_ H _]. unfold packable. by destruct (change (inner e)) as [? ? [?|?]|]. Qed.
Lemma edit_ok_reference e r : edit_ok e → edit_reference e = Some r → ref_ok k r.
Proof.
  intros [Hn Ht Hp]. unfold edit_reference. destruct (change (inner e)) as [? ? [id|?]|]; [|done|done]. intros [= <-]. destruct Ht as [Hid Hk].
  split; cbn [target ref_name object]; [by apply to_hex_ok|done|]. intros o. destruct (edit_peeled e) as [p|]; [|done]. intros [= <-].
  destruct (Hp p eq_refl). by apply to_hex_ok.
Qed.
Lemma merged_ok rs es : Forall (ref_ok k) rs → Forall edit_ok es → Forall (ref_ok k) (merged rs es).
Proof.
  intros Hr He. apply list.Forall_forall. intros r [Hin|(e & Hin & Hx)]%merged_from; [by apply (proj1 (list.Forall_forall _ _) Hr)|].
  eapply edit_ok_reference; [|done]. by apply (proj1 (list.Forall_forall _ _) He).
Qed.
Lemma header_line_parsed body : header (HEADER_LINE ++ body) = Ok ({| peeled := Fully; sorted := true |}, body).
Proof.
  pose (traits := PEELED ++ [32] ++ FULLY_PEELED ++ [32] ++ SORTED ++ [32]).
  assert (until_line_end_without_separator (traits ++ [10] ++ body) = Ok (traits, body)) as Hu.
  { apply until_line_end_spec. split; [repeat constructor|]. exists []. split; [by left|done]. }
  unfold header. change (HEADER_LINE ++ body) with (HEADER_PREFIX ++ traits ++ [10] ++ body). rewrite strip_prefix_app. cbn [ok_or mbind outcome_bind].
  rewrite Hu. done.
Qed.
(** In a buffer of references with increasing names, a lookup is a lookup in the map. *)
Lemma find_in_map a rs name : (it ← buffer_iter a; iterate k it) = Ok (Ok <$> rs) → head a ≠ Some 35 → names_increasing rs →
  try_find_full_name k a name = Ok (refs_map rs !! name).
Proof.
  intros Hit Hh Hi. destruct (find_records k a rs name Hit Hh (names_increasing_sorted _ Hi)) as (found & -> & Hf). f_equal. symmetry.
  assert (NoDup (ref_name <$> rs)) as Hd.
  { clear -Hi. induction Hi as [|r rs Hi IH Hr]; [constructor|]. cbn. constructor; [|done]. intros (s & Hs & Hin)%list_elem_of_fmap.
    apply (proj1 (list.Forall_forall _ _) Hr) in Hin. unfold name_cmp in Hin. rewrite Hs, bytes_cmp_refl in Hin. done. }
  destruct found as [r|].
  - destruct Hf as [Hin <-]. apply elem_of_list_to_map_1; [by rewrite <- list_fmap_compose|]. by apply (list_elem_of_fmap_2 (λ r, (ref_name r, r))).
  - apply not_elem_of_list_to_map_1. rewrite <- list_fmap_compose. intros (r & -> & Hin)%list_elem_of_fmap. by apply (Hf r).
Qed.
(** A file that is opened as the references, in order, with lookups in their map. *)
Definition opens_as (file : bytes) (rs : list Reference) : Prop :=
  ∃ b a, open_with_backing k file = Ok b ∧ buffer_bytes b = Ok a ∧ (it ← buffer_iter a; iterate k it) = Ok (Ok <$> rs) ∧
    ∀ name, try_find_full_name k a name = Ok (refs_map rs !! name).
Lemma committed_opens rs : Forall (ref_ok k) rs → names_increasing rs → zlen (HEADER_LINE ++ text_of rs) < 2 ^ 64 → opens_as (HEADER_LINE ++ text_of rs) rs.
Proof.
  intros Hok Hi Hlen. pose proof (serialize_records _ _ Hok) as Hts. destruct (iter_new_records _ _ _ Hts None) as [Hn Hh].
  assert (body_of (HEADER_LINE ++ text_of rs) (text_of rs) true) as Hb.
  { unfold body_of. rewrite decide_True by done. eexists. split; [apply header_line_parsed|done]. }
  assert ((it ← buffer_iter (text_of rs); iterate k it) = Ok (Ok <$> rs)) as Hit.
  { unfold buffer_iter, iter_new, text_of. rewrite Hn. cbn [mbind outcome_bind]. by apply iterate_records. }
  eexists _, (text_of rs). rewrite (open_body k _ _ _ Hb Hlen). split; [done|]. split; [apply buffer_bytes_behind|]. split; [done|].
  intros name. by apply find_in_map.
Qed.
End File.

(** ** Lemmas: preparing *)
Section Prepare.
Context {FH : FasterHex} (k : Kind).
Context (objects : ObjectId → outcome () (option (TagObject.ObjectKind * bytes * Kind))) (precompose_path : bytes → option bytes).
(** The object at the end of a chain of less than [n] tags. *)
Inductive peels_in : nat → ObjectId → ObjectId → Prop :=
| peels_end n id kd data hk : objects id = Ok (Some (kd, data, hk)) → kd ≠ TagObject.KindTag → peels_in (S n) id id
| peels_tag n id data hk next final : objects id = Ok (Some (TagObject.KindTag, data, hk)) → target_id data hk = Ok next →
    peels_in n next final → peels_in (S n) id final.
Definition peeled_to (new final : ObjectId) : option ObjectId := if bool_decide (final = new) then None else Some final.
Lemma peel_loop_exact n name new next final : peels_in n next final → peel_loop objects n name new next = Ok (peeled_to new final).
Proof.
  induction 1 as [n id kd data hk Hid Hk|n id data hk next final Hid Ht _ IH]; cbn [peel_loop]; rewrite Hid; cbn [map_err mbind outcome_bind].
  - destruct kd; try done; by unfold peeled_to; destruct (bool_decide _).
  - rewrite Ht. done.
Qed.
(** What becomes of an edit: its name is composed and put into the namespace, and the target of an update is peeled. *)
Definition edit_result (fuel : nat) (self : Transaction) (e : RefEdit) (e' : Edit) : Prop :=
  inner e' = rename e (prepared_name precompose_path self (edit_name e)) ∧
  match change e with
  | Update _ _ (Object new) => ∃ final, peels_in fuel new final ∧ edit_peeled e' = peeled_to new final
  | _ => edit_peeled e' = None
  end.
Definition transaction_records (self : Transaction) (rs : list Reference) : Prop :=
  match tx_buffer self with
  | Some b => ∃ a, buffer_bytes b = Ok a ∧ (it ← buffer_iter a; iterate k it) = Ok (Ok <$> rs) ∧ head a ≠ Some 35
  | None => rs = []
  end.
(** A full name that is looked up as it is, not one that only a worktree sees. *)
Definition shared_name (name : bytes) : Prop := looks_like_full_name name false = true ∧ transform_full_name_for_lookup name = Ok (Some name).
Lemma not_found_spec self rs name : transaction_records self rs → names_increasing rs → shared_name name →
  ∃ dropped : bool, not_found k self name = Ok dropped ∧ (dropped = true → refs_map rs !! name = None).
Proof.
  unfold transaction_records, not_found, find_ref. intros Hrs Hi [Hl Ht]. destruct (tx_buffer self) as [b|]; [|by exists false].
  destruct Hrs as (a & -> & Hit & Hh). cbn [map_err mbind outcome_bind try_find_loop]. rewrite Hl, Ht, (find_in_map k a rs name Hit Hh Hi). cbn [map_err mbind outcome_bind].
  destruct (refs_map rs !! name); [by exists false|by exists true].
Qed.
(** Deletions of what is not there are dropped, which changes nothing; all else is kept and peeled. *)
Lemma prepare_edits_exact fuel self rs es es' : transaction_records self rs → names_increasing rs → Forall2 (edit_result fuel self) es es' →
  NoDup (edit_names es') → Forall (λ e, is_delete (change (inner e)) = true → shared_name (edit_name (inner e))) es' →
  ∃ l kept, prepare_edits k precompose_path self es = Ok l ∧ peel_edits objects fuel l = Ok kept ∧ sublist kept es' ∧
    (∀ e, e ∈ es' → is_delete (change (inner e)) = false → e ∈ kept) ∧
    apply_edits kept (refs_map rs) = apply_edits es' (refs_map rs).
Proof.
  intros Hrs Hi Hes. induction Hes as [|e e' es es' [Hin Hp] Hes IH]; intros Hd Hs; [by exists [], []|].
  cbn in Hd. apply list.NoDup_cons in Hd as [Hnin Hd]. apply list.Forall_cons in Hs as [Hse Hs]. destruct (IH Hd Hs) as (l & kept & Hl & Hk & Hsub & Hupd & Happ). clear IH.
  cbn [prepare_edits]. rewrite <- Hin. assert (change (inner e') = change e) as Hc by by rewrite Hin.
  assert (peel_edit objects fuel {| inner := inner e'; edit_peeled := None |} = Ok e') as Hpeel.
  { unfold peel_edit. cbn [inner]. rewrite Hc. destruct (change e) as [? ? [new|?]|]; [|by rewrite <- Hp; destruct e'|by rewrite <- Hp; destruct e'].
    destruct Hp as (final & Hf & Hpe). rewrite (peel_loop_exact _ _ _ _ _ Hf). cbn [mbind outcome_bind]. rewrite <- Hpe. by destruct e'. }
  assert (∃ dropped : bool, (if is_delete (change (inner e')) then not_found k self (edit_name (inner e')) else Ok false) = Ok dropped ∧
    (dropped = true → is_delete (change (inner e')) = true ∧ refs_map rs !! edit_name (inner e') = None)) as (dropped & -> & Hdrop).
  { destruct (is_delete _) eqn:E; [|by exists false]. destruct (not_found_spec self rs _ Hrs Hi (Hse eq_refl)) as (d & Hd1 & Hd2). exists d. split; [done|]. intros Ht. by split; [|apply Hd2]. }
  cbn [mbind outcome_bind]. rewrite Hl. cbn [mbind outcome_bind]. destruct dropped.
  - destruct (Hdrop eq_refl) as [Hdel Hnone]. exists l, kept. split; [done|]. split; [done|]. split; [by constructor|]. split.
    + intros f [->|Hf]%list.elem_of_cons Hnd; [congruence|by apply Hupd].
    + rewrite Happ. cbn. fold (apply_edits es' (refs_map rs)). unfold apply_edit, edit_reference. rewrite Hc in *. destruct (change e) as [|]; [done|].
      rewrite delete_id; [done|]. clear -Hnin Hnone. induction es' as [|f es' IH]; [done|]. cbn in *. apply list.not_elem_of_cons in Hnin as [Hne Hnin].
      unfold apply_edit. destruct (edit_reference f); [by rewrite lookup_insert_ne; [apply IH|]|by rewrite lookup_delete_ne; [apply IH|]].
  - exists ({| inner := inner e'; edit_peeled := None |} :: l), (e' :: kept). split; [done|]. cbn [peel_edits]. rewrite Hpeel. cbn [mbind outcome_bind]. rewrite Hk.
    split; [done|]. split; [by constructor|]. split; [|cbn; by fold (apply_edits kept (refs_map rs)); rewrite Happ].
    intros f [->|Hf]%list.elem_of_cons Hnd; [by apply list.elem_of_cons; left|apply list.elem_of_cons; right; by apply Hupd].
Qed.
(** The reference of an update is in the map. *)
Lemma apply_edits_update e es m r : NoDup (edit_names es) → e ∈ es → edit_reference e = Some r → apply_edits es m !! edit_name (inner e) = Some r.
Proof.
  intros Hd Hin Hr. induction es as [|f es IH]; [by apply list.not_elem_of_nil in Hin|]. cbn in Hd. apply list.NoDup_cons in Hd as [Hn Hd].
  cbn. unfold apply_edit. apply list.elem_of_cons in Hin as [->|Hin]; [rewrite Hr; apply lookup_insert_eq|].
  assert (edit_name (inner f) ≠ edit_name (inner e)) as Hne.
  { intros Heq. apply Hn. rewrite Heq. by apply (list_elem_of_fmap_2 (λ e, edit_name (inner e))). }
  destruct (edit_reference f); [rewrite lookup_insert_ne|rewrite lookup_delete_ne]; (done || by apply IH).
Qed.
(** Committing writes the merge of the references with the sorted edits. *)
Lemma commit_exact self rs es on_disk : transaction_records self rs → names_increasing rs → tx_edits self = Some es → es ≠ [] → lock self = Some [] →
  Forall (edit_ok k) es → NoDup (edit_names es) → zlen rs + zlen es < 2 ^ 31 →
  let rs' := merged rs (sort_by edit_cmp es) in
  commit k self on_disk = (if zlen rs' =? 0 then (if on_disk then Ok Removed else Err NoFileToDelete) else Ok (Replaced (HEADER_LINE ++ text_of rs'))) ∧
  names_increasing rs' ∧ refs_map rs' = apply_edits es (refs_map rs) ∧ Forall (ref_ok k) rs'.
Proof.
  intros Hrs Hi He Hne Hlock Hok Hd Hlen rs'. pose proof (sort_edits_increasing es Hd) as Hsort. pose proof (sort_by_permutation edit_cmp es) as Hperm.
  assert (Forall (edit_ok k) (sort_by edit_cmp es)) as Hok' by by rewrite Hperm.
  assert (Forall (ref_ok k) rs) as Hrok.
  { unfold transaction_records in Hrs. destruct (tx_buffer self); [|by subst]. destruct Hrs as (a & _ & Hit & Hh). destruct (iterated_records _ _ _ Hit Hh) as (ts & Hts & _). by eapply records_ok. }
  split; [|split; [by apply merged_increasing|split; [|by apply merged_ok]]].
  - unfold commit. rewrite He, Hlock. cbn [expect mbind outcome_bind]. destruct es as [|e es]; [done|].
    assert (match tx_buffer self with Some b => map_err BufferError (a ← buffer_bytes b; it ← buffer_iter a; iterate k it) | None => Ok [] end = Ok (Ok <$> rs)) as ->.
    { unfold transaction_records in Hrs. destruct (tx_buffer self) as [b|]; [|by subst]. destruct Hrs as (a & -> & Hit & _). cbn [mbind outcome_bind]. by rewrite Hit. }
    cbn [mbind outcome_bind]. rewrite commit_loop_text.
    + cbn [mbind outcome_bind app]. by rewrite Z.add_0_l.
    + eapply Forall_impl; [|exact Hok']. by intros ? ?%edit_ok_packable.
    + lia.
    + assert (zlen (sort_by edit_cmp (e :: es)) = zlen (e :: es)) as -> by (unfold zlen; by rewrite Hperm). lia.
  - subst rs'. rewrite merged_map by done. by apply apply_edits_perm; [unfold edit_names; rewrite Hperm|].
Qed.
End Prepare.

(** ** Properties *)

(** C10: Preparing a transaction and committing it, from a buffer of references (or none) and edits of different names: updates
    whose targets peel, and deletions of shared names. Both succeed. If nothing is to be changed the file stays, if nothing is left it is
    removed; otherwise it is replaced by a file that opens as references, in order, whose map is that of the
    buffer with the edits applied, and every lookup by full name in it is a lookup in this map. *)
Theorem packed_transaction_exact {FH : FasterHex} k objects precompose_path fuel self rs es es' on_disk :
  tx_edits self = None → lock self = Some [] → transaction_records k self rs → names_increasing rs →
  Forall2 (edit_result objects precompose_path fuel self) es es' → Forall (edit_ok k) es' → NoDup (edit_names es') →
  Forall (λ e, is_delete (change (inner e)) = true → shared_name (edit_name (inner e))) es' → zlen rs + zlen es' < 2 ^ 31 →
  on_disk = true ∨ (∃ e, e ∈ es' ∧ is_delete (change (inner e)) = false) →
  ∃ self' c rs', prepare k objects precompose_path fuel self es = Ok self' ∧ commit k self' on_disk = Ok c ∧
    names_increasing rs' ∧ refs_map rs' = apply_edits es' (refs_map rs) ∧
    match c with
    | Unchanged => rs' = rs
    | Removed => rs' = []
    | Replaced file => rs' ≠ [] ∧ (zlen file < 2 ^ 64 → opens_as k file rs')
    end.
Proof.
  intros Hno Hlock Hrs Hi Hes Hok Hd Hshared Hlen Hdisk.
  destruct (prepare_edits_exact k objects precompose_path fuel self rs es es' Hrs Hi Hes Hd Hshared) as (l & kept & Hl & Hk & Hsub & Hupd & Happ).
  unfold prepare. rewrite Hno, Hl. cbn [assert_that mbind outcome_bind]. rewrite Hk. cbn [mbind outcome_bind].
  destruct (decide (kept = [])) as [->|Hne].
  { eexists _, Unchanged, rs. split; [done|]. repeat (split; [done|]). done. }
  set (self' := Build_Transaction (tx_buffer self) (Some kept) (lock self) (closed_lock self) (precompose_unicode self) (tx_namespace self)).
  assert (zlen kept ≤ zlen es') as Hle by (unfold zlen; apply inj_le; by apply sublist_length).
  assert (Forall (edit_ok k) kept) as Hok'.
  { apply list.Forall_forall. intros e He. apply (proj1 (list.Forall_forall _ _) Hok). by eapply elem_of_sublist. }
  assert (NoDup (edit_names kept)) as Hd' by (eapply sublist_NoDup; [exact Hd|]; by apply fmap_sublist).
  destruct (commit_exact k self' rs kept on_disk Hrs Hi eq_refl Hne Hlock Hok' Hd') as (Hc & Hi' & Hmap & Hrok); [lia|].
  set (rs' := merged rs (sort_by edit_cmp kept)) in *.
  assert (∃ c, commit k self' on_disk = Ok c ∧ match c with Unchanged => False | Removed => rs' = [] | Replaced file => rs' ≠ [] ∧ file = HEADER_LINE ++ text_of rs' end)
    as (c & Hcommit & Hfile).
  { rewrite Hc. destruct (Z.eqb_spec (zlen rs') 0) as [Hz|Hz]; [|eexists; split; [done|]; split; [by intros ->|done]].
    assert (rs' = []) as Hnil by by apply nil_length_inv, Nat2Z.inj.
    destruct on_disk; [by eexists|]. exfalso. destruct Hdisk as [|(e & Hin & Hdel)]; [done|]. pose proof (Hupd e Hin Hdel) as Hkept.
    pose proof (proj1 (list.Forall_forall _ _) Hok e Hin) as Heok. destruct (edit_reference e) as [r|] eqn:Hr.
    - pose proof (apply_edits_update e kept (refs_map rs) r Hd' Hkept Hr) as Hget. rewrite <- Hmap, Hnil in Hget. done.
    - destruct Heok as [_ Ht _]. unfold edit_reference in Hr. by destruct (change (inner e)) as [? ? [|]|]. }
  exists self', c, rs'. split; [by destruct kept|]. split; [done|]. split; [done|]. split; [by rewrite Hmap|].
  destruct c as [| |file]; [done|done|]. destruct Hfile as [Hne' ->]. split; [done|]. intros Hsize. by apply committed_opens.
Qed.

(** An update of what cannot be peeled is an error. *)
Lemma missing_object objects n name new next : objects next = Ok None → peel_loop objects (S n) name new next = Err (ObjectNotFound next name).
Proof. intros H. cbn [peel_loop]. by rewrite H. Qed.

(** ** Witnesses *)
Definition refs_b : bytes := [114; 101; 102; 115; 47; 98].
Definition tag_oid : ObjectId := OidSha1 (replicate 20 17).
Definition commit_oid : ObjectId := OidSha1 (replicate 20 34).
(** A tag that refers to a commit. *)
Definition sample_objects (id : ObjectId) : outcome () (option (TagObject.ObjectKind * bytes * Kind)) :=
  if bool_decide (id = tag_oid) then Ok (Some (TagObject.KindTag, TagObject.OBJECT ++ [32] ++ to_hex commit_oid ++ [10], Sha1))
  else if bool_decide (id = commit_oid) then Ok (Some (TagObject.KindCommit, [], Sha1)) else Ok None.
Definition sample_edits : list RefEdit := [update refs_b (Object tag_oid) AnyValue []; delete_ref (ref_name refs_a) AnyValue].
Definition sample_prepared : list Edit :=
  [{| inner := update refs_b (Object tag_oid) AnyValue []; edit_peeled := Some commit_oid |};
   {| inner := delete_ref (ref_name refs_a) AnyValue; edit_peeled := None |}].
Definition sample_transaction : Transaction :=
  buffer_into_transaction {| data := concat (serialize_entry <$> [refs_a; refs_t]); offset := 0 |} [] false None.
Lemma packed_transaction_exact_witness :
  ∃ self' c rs', prepare Sha1 sample_objects (λ _, None) 2 sample_transaction sample_edits = Ok self' ∧ commit Sha1 self' true = Ok c ∧
    names_increasing rs' ∧ refs_map rs' = apply_edits sample_prepared (refs_map [refs_a; refs_t]) ∧
    match c with
    | Unchanged => rs' = [refs_a; refs_t]
    | Removed => rs' = []
    | Replaced file => rs' ≠ [] ∧ (zlen file < 2 ^ 64 → opens_as Sha1 file rs')
    end.
Proof.
  apply (packed_transaction_exact Sha1 sample_objects (λ _, None) 2 sample_transaction [refs_a; refs_t] sample_edits sample_prepared true).
  - reflexivity.
  - reflexivity.
  - eexists. split; [vm_compute; reflexivity|]. split; [vm_compute; reflexivity|discriminate].
  - repeat constructor.
  - constructor; [|constructor; [|constructor]].
    + split; [reflexivity|]. exists commit_oid. split; [|vm_compute; reflexivity].
      eapply peels_tag; [vm_compute; reflexivity|vm_compute; reflexivity|]. eapply peels_end; [vm_compute; reflexivity|discriminate].
    + split; reflexivity.
  - assert (id_ok Sha1 tag_oid ∧ id_ok Sha1 commit_oid) as [Ht Hc] by (split; split; try reflexivity; apply (bool_decide_unpack _); vm_compute; exact I).
    constructor; [|constructor; [|constructor]]; (split; [vm_compute; reflexivity|done|]); [by intros id [= <-]|done].
  - apply (bool_decide_unpack _). vm_compute. exact I.
  - constructor; [discriminate|]. constructor; [|constructor]. intros _. split; vm_compute; reflexivity.
  - vm_compute. reflexivity.
  - left. reflexivity.
Defined.
Example committed_file :
  (self ← prepare Sha1 sample_objects (λ _, None) 2 sample_transaction sample_edits; commit Sha1 self true) =
  Ok (Replaced (HEADER_LINE ++ to_hex tag_oid ++ [32] ++ refs_b ++ [10; 94] ++ to_hex commit_oid ++ [10] ++ serialize_entry refs_t)).
Proof. vm_compute. reflexivity. Qed.
